(* ===== verification/_CoqProject ===== *)
-Q . S2P
Prelude.v
BitArray.v
Merkle.v
KeyPath.v
Types.v
ValidatorSet.v
ValidatorUpdates.v
VerifyCommit.v
VoteSet.v
HeightVoteSet.v
PartSet.v
PrivVal.v
Block.v
MedianTime.v
StateStore.v
BlockStore.v
Consensus.v
ConsensusProofs.v
Agreement.v
Node.v
Failures.v
CList.v
TxCache.v
Strconv.v
Account.v
Identypes.v
Mempool.v
MempoolProofs.v
MempoolFacts.v
MempoolSamples.v
DB.v
Evidence.v
EvidenceFacts.v
BlockPool.v
BlockPoolProofs.v
FastSync.v
Lite.v
LiteProofs.v
LiteDB.v
LiteFacts.v
PeerState.v
PeerStateProofs.v
ConsensusReactor.v
ConsensusReactorProofs.v
ConsensusReactorFacts.v
Ticker.v
WAL.v
Exec.v
Handshake.v
HandshakeProofs.v
HandshakeFacts.v
CrossShard.v
CrossShardFacts.v
SecretConn.v
SecretConnFacts.v
