(* ===== verification/Prelude.v ===== *)
(** * Sharding blockchain: a verification development

    The program is a fork of Tendermint for a sharded blockchain: validators vote
    in rounds on blocks, a block is committed once more than two thirds of
    the voting power precommits it, and shards exchange messages proved by Merkle paths
    and threshold signatures. This library models its data structures and the
    deterministic core of the consensus as Rocq functions, translated from the Go
    sources, and proves them correct.

    ** How the parts interact

    Peers send votes; a [HeightVoteSet] keeps, for each round of the current height,
    a [VoteSet] of prevotes and one of precommits over a [ValidatorSet]. A vote set with a
    majority makes a [Commit], which other nodes check with [VerifyCommit]. Proposed
    blocks travel as a [PartSet] of pieces with Merkle proofs. A node's own votes are signed by
    a [FilePV], which refuses to sign twice. The [ConsensusState] drives all of these: it handles one
    message or timeout at a time ([receive]), moves through the steps of a round, locks on
    blocks, sends votes to itself and to the peers, and on a majority of precommits
    saves the block in the [BlockStore] and lets it be executed. A committed block updates the [State]
    (validator sets, parameters), which is saved by height.

    ** Files

    - [Prelude]: panics as the [outcome] monad, 64-bit integers, slices, byte order,
      sort.Search and sort.Sort, sums, tactics and the hint database [go].
    - [BitArray] (libs/common/bit_array.go): a record with its words; every operation.
    - [Merkle] (crypto/merkle/hash.go, simple_tree.go, simple_proof.go): trees whose nodes
      live in a heap because of their parent and sibling pointers, inclusion
      proofs. [KeyPath] (proof_key_path.go): key paths and tree paths.
    - [Types] (types/block.go, vote.go, proposal.go, canonical.go): data and its basic
      validation; the classes [Codec] (amino) and [Crypto] (signature verification)
      that the other files depend on.
    - [ValidatorSet] (types/validator.go, validator_set.go): proposer priorities with
      clipped arithmetic and change sets; [ValidatorUpdates] proves the change sets against their
      abstract specification; [VerifyCommit] checks commits.
    - [VoteSet] (types/vote_set.go) and [HeightVoteSet] (consensus/types/height_vote_set.go).
    - [PartSet] (types/part_set.go): splitting, collecting, reading.
    - [PrivVal] (privval/file.go): the signer with the files it keeps its state in.
    - [Block] (types/tx.go, evidence.go, block.go) and [MedianTime]
      (types/time/time.go, state/state.go).
    - [StateStore] (types/params.go, results.go, genesis.go, state/state.go, store.go,
      validation.go and the state update of execution.go). [BlockStore]
      (blockchain/store.go, types/block_meta.go).
    - [Consensus] (consensus/state.go, consensus/types/round_state.go, timeouts of config/config.go):
      the record [ConsensusState] and its methods. What the machine asks of the mempool, the
      application, the clock and the decoders while it handles an input is a record [Oracle]
      of functions, arbitrary in the theorems; the signer is the class [PrivValidator]. What it sends is appended
      to a list of effects. [ProposalBlock], [LockedBlock] and [ValidBlock] are pointers that may be equal, and a complete
      set of parts is decoded in place: the record [Refs] has their addresses, and a write through one changes the
      others that are equal to it. [ConsensusProofs]: the invariant [Inv] of the locking rules, kept
      by every method. [Agreement]: the log of all votes sent by several nodes, and the
      system as a relation [run]. [Node]: [FilePV] as an instance of the signer, and a run of two validators
      executed from the first timeout to the saved block. [Failures]: reachable states and inputs on which a
      node panics, and one on which a lock is overwritten.

    - [CList] (libs/clist/clist.go): the concurrent list, its elements in a heap; [PushBackToMem], which does not hold the lock throughout, by
      its parts. [TxCache], [Strconv], [Account]
      (account/account.go), [Identypes] (identypes, checkdb/aggtx.go), [Mempool] (mempool/mempool.go) with the tables of
      cross-shard messages; [MempoolProofs], [MempoolFacts] and [MempoolSamples]: its invariant, what updates and
      reaping do, and runs. Requests to the application are pending requests of the state, answered in any order the
      steps allow.
    - [DB] (libs/db): the interface of a database as the class [DB] with its contract [DBLaws], the in-memory
      database and the database under a prefix as instances. [Evidence] (evidence/store.go, pool.go, reactor.go) over
      any database that keeps the contract; [EvidenceFacts].
    - [BlockPool] (blockchain/pool.go): the pool of requested blocks, whose requesters run as interleaved steps, with the
      snapshot responses that set its height from outside; [BlockPoolProofs]. [FastSync] (blockchain/reactor.go): messages and the sync step, over the pool, the block store,
      the state and the accounts.
    - [Lite] (lite/commit.go, base_verifier.go, dynamic_verifier.go): the light client over classes for the provider it
      trusts and for the source it does not; [LiteProofs]: its safety; [LiteDB] (lite/dbprovider.go, multiprovider.go): the
      providers, as instances; [LiteFacts]: the bisection, hostile sources, runs.
    - [PeerState] (the messages and the peer state of consensus/reactor.go, consensus/types/peer_round_state.go): what a node knows of
      a peer, its bit arrays in a heap because the fields share them; [PeerStateProofs]. [ConsensusReactor]
      (the rest of consensus/reactor.go): [Receive], and the bodies of the gossip loops, which first decide from copies of the
      round states and then act on the peer state of that moment; vote sets and commits are read through the class [VoteSetReader], as in
      the code; [ConsensusReactorProofs], [ConsensusReactorFacts].
    - [Ticker] (consensus/ticker.go): the timeouts of the state machine, as interleaved steps of the routine, its timer and its channels.
    - [WAL] (consensus/wal.go, the replay of consensus/replay.go, the files of libs/autofile/group.go): the log of the state machine
      with its checksums, the search for the end of a height and the replay, during which the node appends to the same log.
    - [Exec] (state/execution.go, types/protobuf.go): the execution of a block on the application, which is a class of operations
      ([AppConnConsensus]), and [ApplyBlock], which also moves balances, takes snapshots, saves the responses and the state. [Handshake]
      (consensus/replay.go): the comparison of store, state and application at start-up and the replay of blocks, the last one
      possibly on the mock application, an instance of the class. The accounts and the state share one database in the code; here they are two parts of the
      node, and the theorems are about transactions whose accounts are not named as keys of the state ([apart]). [HandshakeProofs]:
      crashes at any point of [ApplyBlock], also between two writes of a transfer or of the state; [HandshakeFacts]: a counting application.
    - [CrossShard] (types/tx_utils.go): the buckets of a block by destination, the order of a proposal, the tree of the roots and the messages to
      other shards; [CrossShardFacts]: a block.

    - [SecretConn] (p2p/conn/secret_connection.go): the encrypted connection of two peers, over classes for the cipher ([Aead]) and the
      handshake ([HandshakeCrypto]); [SecretConnFacts]: a replay that is refused.

    Each definition has the name of the Go function or type it translates (with the receiver
    type as a prefix where names clash); loops are recursive functions of their own.
    Methods that mutate their receiver return the new value. A Go panic is [Panic]; an error
    value is a constructor of the component's error type.

    ** What the theorems show

    - Agreement: with less than a third of the power faulty and no forged signatures, no two
      nodes running [receive] save different blocks at a height ([agreement]) and one node's votes obey the locking
      rules ([votes_obey_lock]), in runs in which no set of parts is decoded over a locked block with a block of another hash, which
      the code does not prevent ([lock_overwritten]). A node's position never moves back ([receive_forward]). The run is of nodes
      that do not restart; the signer's protection across restarts is [no_double_sign].
    - Safety of votes and commits: a majority a vote set reports is backed by valid signatures
      of more than two thirds of the power; commits made from it verify; two verified
      commits for different blocks expose a third of the power as double signers, whose votes
      make valid evidence; the signer never signs two messages for one height, round and step.
    - Robustness: adding votes and parts keeps the invariants and never panics on
      validated input; peers cannot create more than two catchup rounds.
    - Proposer selection: no clipping and no overflow on sets with room, each
      validator proposes in proportion to its power; change sets act as map updates.
    - Data integrity: Merkle proofs and tree paths are complete and, absent collisions, sound;
      equal block hashes mean equal contents, but for the fields that are not hashed; parts reassemble to the block; encodings
      print and parse back.
    - State: the store gives back the validators and parameters of every past height;
      validator changes take effect two heights later; the block time lies between correct times as int64 nanoseconds.
    - Mempool: without configuration transactions, and with updates and flushes only when no request is pending (the code panics
      otherwise), size, bytes and index agree with the list, no answer of the application panics, and an update with its
      rechecks leaves exactly the valid transactions; reaping returns the longest prefix within the limits less 1500000 bytes; transfers
      with a payer keep the sum of the balances and snapshots are exact. The wakeups of the concurrent list are not lost.
    - Evidence and fast sync: the evidence pool refines a table of evidence that forgets nothing; the block pool
      keeps its invariants in every interleaving, with consecutive requests until a snapshot sets its height, hands out consecutive blocks, and blocks are saved only with a commit that verifies.
    - Light client: from genuine commits it accepts only genuine headers, whatever the source answers, under assumptions on
      the validators and the hash that are stated as records ([genuine_chain], [source_ok]); with an honest source the
      bisection ends; its database refines a map by height.
    - Gossip: with messages that are not nil and have bit arrays with their words and of sizes that can be allocated, neither a peer nor the interleaving of the routines makes the reactor of a sound node panic
      ([reactor_never_panics]); what a node believes a peer to have was announced, sent or received ([peer_knowledge_sound]); each vote a peer
      with a long enough array lacks is sent once ([votes_sent_once]); arrays and commits that the checks let through although they are not well formed
      crash a routine. Timeouts fire in order and none is lost ([ticker_fires_latest]).
    - Recovery: a log cut at any byte gives back its complete records ([log_survives_crash]), and the replay hands the state machine
      first the inputs of the current height, whatever is appended meanwhile, and nothing else unless inputs are appended or a record was
      torn ([replay_reexecutes_height]). A node that crashes anywhere in [ApplyBlock] ends after the handshake
      with the application and the state of one that did not ([crash_recovered]), if the application keeps the laws [AppLaws]
      (it reports what it committed and forgets the rest); the transfers may be applied twice, or once and a half, and the threshold signature is lost.
    - Connections: two peers derive matching keys, and what one reads is a prefix of what the other wrote whatever an attacker who cannot forge frames does
      ([secret_stream_authentic]); nothing is lost without one ([secret_stream_roundtrip]).
    - Shards: from every block the messages to other shards can be made, hold each transaction with a destination once and go there if its name has no underscore
      ([cross_txs_delivered]) and are accepted by their receivers ([cross_messages_accepted]).
    - Divergences between the code and its intent, as theorems on concrete inputs.

    ** Fuel and bounds

    Recursion is structural, except for the Merkle trees (on the number of leaves,
    halved at a split point), the part reader (on the number of unread parts), loops over iterators (on the number
    of their entries), the bisection of the light client (on the distance of the heights) and the loops that read the log (on the number of
    bytes left: each record has at least eight), whose theorems
    state that the bound suffices, or, for a hostile source, that none does. [IncrementProposerPriority] runs its loop [Z.to_nat times]
    times, as the code does. Integers are Z with explicit wrap-around ([wrap64]) wherever
    an overflow could matter; [make] panics on lengths that are negative or above 2^48 bytes, and memory is not limited otherwise; heights are assumed below 2^63 - 2 in runs of the state.

    ** Not modelled

    Input and output: p2p, rpc, node, cmd, websocket connections between shards;
    generated code (abci types); logs, metrics and events. The cryptographic schemes,
    the hash and amino are parameters with the laws that are used. Mutexes are not modelled:
    the modelled methods are atomic, as under a lock held throughout, except in the block pool, whose requesters and snapshots interleave between
    the critical sections, in the ticker and the gossip routines, and except for [PushBackToMem], which is given by its parts. In [Agreement] the network is represented by what it may
    deliver ([deliverable]), in any order. Of the reactor the endless loops with their sleeps are left out, of
    the block execution the events and the sending of messages over websockets. The busy score and the elastic block size of the mempool are
    floating-point code and left out. *)

(** ** This file: Go integers, slices, panics, ordering of byte strings *)

From Stdlib Require Import ZArith Lia List Bool String Strings.Byte.
From stdpp Require Import base list gmap strings sorting.
Local Open Scope Z_scope.

(** ** Panics

    A Go function that may panic (an index out of range, a nil dereference, an
    explicit [panic]/[cmn.PanicSanity]) returns an [outcome]. Errors returned as
    values are ordinary results of the components' own error types. *)
Inductive outcome (A : Type) : Type :=
| Ret (a : A)
| Panic.
Arguments Ret {A} a.
Arguments Panic {A}.

#[export] Instance outcome_ret : MRet outcome := @Ret.
#[export] Instance outcome_bind : MBind outcome := λ A B f m,
  match m with Ret a => f a | Panic => Panic end.
#[export] Instance outcome_fmap : FMap outcome := λ A B f m,
  match m with Ret a => Ret (f a) | Panic => Panic end.

Definition is_ret {A} (m : outcome A) : bool :=
  match m with Ret _ => true | Panic => false end.

(** A partial lookup whose failure is a panic. *)
Definition or_panic {A} (o : option A) : outcome A :=
  match o with Some a => Ret a | None => Panic end.

Lemma bind_Ret {A B} (m : outcome A) (f : A → outcome B) b :
  (m ≫= f) = Ret b ↔ ∃ a, m = Ret a ∧ f a = Ret b.
Proof. destruct m; simpl; naive_solver. Qed.

Lemma or_panic_Ret {A} (o : option A) a : or_panic o = Ret a ↔ o = Some a.
Proof. destruct o; simpl; naive_solver. Qed.

(** Runs [f] over a list from the left, threading a state; stops at a panic. *)
Fixpoint foldM {A S} (f : S → A → outcome S) (s : S) (l : list A) : outcome S :=
  match l with
  | [] => Ret s
  | x :: l' => f s x ≫= λ s', foldM f s' l'
  end.

(** ** Machine integers

    [int] and [int64] are 64-bit two's complement, [uint64] is modulo 2^64. *)
Definition MaxInt64 : Z := 2 ^ 63 - 1.
Definition MinInt64 : Z := - 2 ^ 63.
Definition wrap64 (z : Z) : Z := (z + 2 ^ 63) mod 2 ^ 64 - 2 ^ 63.
Definition wrapu64 (z : Z) : Z := z mod 2 ^ 64.

Definition in_int64 (z : Z) : Prop := MinInt64 ≤ z ≤ MaxInt64.

(** [uint64(1) << n]: a shift by 64 or more gives 0. *)
Definition shl64 (x n : Z) : Z := if 64 <=? n then 0 else wrapu64 (Z.shiftl x n).

(** [^x] on uint64. *)
Definition not64 (x : Z) : Z := 2 ^ 64 - 1 - x.

Lemma wrap64_id z : in_int64 z → wrap64 z = z.
Proof.
  unfold in_int64, MinInt64, MaxInt64, wrap64. intros H.
  rewrite Z.mod_small; lia.
Qed.

Lemma wrap64_range z : in_int64 (wrap64 z).
Proof.
  unfold in_int64, MinInt64, MaxInt64, wrap64.
  pose proof (Z.mod_pos_bound (z + 2 ^ 63) (2 ^ 64) ltac:(lia)). lia.
Qed.

Lemma wrap64_add_l a b : wrap64 (wrap64 a + b) = wrap64 (a + b).
Proof.
  unfold wrap64.
  replace ((a + 2 ^ 63) mod 2 ^ 64 - 2 ^ 63 + b + 2 ^ 63)
    with ((a + 2 ^ 63) mod 2 ^ 64 + b) by lia.
  rewrite Zplus_mod_idemp_l. f_equal. f_equal. lia.
Qed.

Lemma shl64_1 n : 0 ≤ n < 64 → shl64 1 n = 2 ^ n.
Proof.
  intros Hn. unfold shl64. rewrite (proj2 (Z.leb_gt 64 n)) by lia.
  rewrite Z.shiftl_1_l. unfold wrapu64. apply Z.mod_small. split; [lia|].
  apply Z.pow_lt_mono_r; lia.
Qed.

(** ** Slices

    Go indexes slices by [int]; an index outside [0, len) panics. *)
Definition zlen {A} (l : list A) : Z := Z.of_nat (length l).

Definition slice_lookup {A} (l : list A) (i : Z) : option A :=
  if (0 <=? i) then l !! Z.to_nat i else None.

Definition slice_get {A} (l : list A) (i : Z) : outcome A := or_panic (slice_lookup l i).

Definition slice_set {A} (l : list A) (i : Z) (x : A) : outcome (list A) :=
  if (0 <=? i) && (i <? zlen l) then Ret (<[Z.to_nat i := x]> l) else Panic.

Lemma zlen_nonneg {A} (l : list A) : 0 ≤ zlen l.
Proof. unfold zlen. lia. Qed.

Lemma slice_lookup_nat {A} (l : list A) i : slice_lookup l (Z.of_nat i) = l !! i.
Proof. unfold slice_lookup. rewrite (proj2 (Z.leb_le 0 _)) by lia. by rewrite Nat2Z.id. Qed.

Lemma slice_lookup_Some {A} (l : list A) i x :
  slice_lookup l i = Some x ↔ 0 ≤ i ∧ l !! Z.to_nat i = Some x.
Proof. unfold slice_lookup. destruct (Z.leb_spec 0 i); naive_solver lia. Qed.

Lemma slice_lookup_is_Some {A} (l : list A) i :
  is_Some (slice_lookup l i) ↔ 0 ≤ i < zlen l.
Proof.
  unfold slice_lookup, zlen. destruct (Z.leb_spec 0 i).
  - rewrite lookup_lt_is_Some. lia.
  - split; [by intros [? ?]|lia].
Qed.

Lemma slice_set_Ret {A} (l l' : list A) i x :
  slice_set l i x = Ret l' ↔ 0 ≤ i < zlen l ∧ l' = <[Z.to_nat i := x]> l.
Proof.
  unfold slice_set.
  destruct (Z.leb_spec 0 i), (Z.ltb_spec i (zlen l)); simpl; naive_solver lia.
Qed.

Lemma length_slice_set {A} (l l' : list A) i x :
  slice_set l i x = Ret l' → length l' = length l.
Proof. intros [? ->]%slice_set_Ret. by rewrite length_insert. Qed.

Lemma zlen_lookup {A} (l : list A) i x : l !! i = Some x → 0 ≤ Z.of_nat i < zlen l.
Proof. intros H%lookup_lt_Some. unfold zlen. lia. Qed.

Lemma slice_set_ok {A} (l : list A) i x y :
  l !! i = Some x → slice_set l (Z.of_nat i) y = Ret (<[i := y]> l).
Proof. intros H%zlen_lookup. apply slice_set_Ret. rewrite Nat2Z.id. done. Qed.

Lemma slice_get_ok {A} (l : list A) i x : l !! i = Some x → slice_get l (Z.of_nat i) = Ret x.
Proof. intros H. apply or_panic_Ret. by rewrite slice_lookup_nat. Qed.

(** [copy(dst, src)]: overwrites the common prefix of [dst]. *)
Definition go_copy {A} (dst src : list A) : list A :=
  take (length dst) src ++ drop (length src) dst.

Lemma length_go_copy {A} (dst src : list A) : length (go_copy dst src) = length dst.
Proof. unfold go_copy. rewrite length_app, length_take, length_drop. lia. Qed.

Lemma go_copy_same_length {A} (dst src : list A) :
  length dst = length src → go_copy dst src = src.
Proof.
  intros H. unfold go_copy. rewrite firstn_all2, skipn_all2 by lia. apply app_nil_r.
Qed.

(** [for i := start; i < start + n; i++ { body }], threading a state. *)
Fixpoint for_range {S} (n start : nat) (body : nat → S → outcome S) (s : S) : outcome S :=
  match n with
  | O => Ret s
  | S n' => body start s ≫= λ s', for_range n' (Datatypes.S start) body s'
  end.

(** The loop [c[i] = f(c[i], o[i])] over the first [n] indices. *)
Definition update_with {A B} (f : A → B → A) (o : list B) (n : nat) (c : list A) :
    outcome (list A) :=
  for_range n 0 (λ i c,
    ci ← slice_get c (Z.of_nat i);
    oi ← slice_get o (Z.of_nat i);
    slice_set c (Z.of_nat i) (f ci oi)) c.

Lemma for_range_update {A B} (f : A → B → A) (o : list B) n start (c : list A) :
  (start + n ≤ length c)%nat → (start + n ≤ length o)%nat →
  for_range n start (λ i c,
    ci ← slice_get c (Z.of_nat i);
    oi ← slice_get o (Z.of_nat i);
    slice_set c (Z.of_nat i) (f ci oi)) c =
  Ret (take start c ++ zip_with f (take n (drop start c)) (take n (drop start o))
       ++ drop (start + n) c).
Proof.
  revert start c. induction n as [|n IH]; intros start c Hc Ho; simpl.
  { by rewrite Nat.add_0_r, take_drop. }
  destruct (lookup_lt_is_Some_2 c start ltac:(lia)) as [ci Hci].
  destruct (lookup_lt_is_Some_2 o start ltac:(lia)) as [oi Hoi].
  unfold slice_get. rewrite !slice_lookup_nat, Hci, Hoi. simpl.
  unfold slice_set, zlen.
  rewrite (proj2 (Z.leb_le 0 _)), (proj2 (Z.ltb_lt _ _)) by lia. simpl.
  rewrite Nat2Z.id. rewrite IH by (rewrite ?length_insert; lia). f_equal.
  rewrite (drop_S c ci start Hci), (drop_S o oi start Hoi). simpl.
  rewrite (take_S_r (<[start:=f ci oi]> c) start (f ci oi))
    by (apply list_lookup_insert_eq; lia).
  rewrite take_insert_ge by lia. rewrite !drop_insert_lt by lia.
  rewrite <-app_assoc. simpl. repeat f_equal. lia.
Qed.

Lemma update_with_spec {A B} (f : A → B → A) (o : list B) n (c : list A) :
  (n ≤ length c)%nat → (n ≤ length o)%nat →
  update_with f o n c = Ret (zip_with f (take n c) (take n o) ++ drop n c).
Proof.
  intros Hc Ho. unfold update_with. rewrite for_range_update by lia.
  by rewrite !drop_0, take_0.
Qed.

(** ** Byte strings and [bytes.Compare] *)
Notation bytes := (list byte).

#[export] Instance byte_eq_dec : EqDecision byte := Byte.byte_eq_dec.

Definition byte_Z (b : byte) : Z := Z.of_N (Byte.to_N b).

(** Truncation of an integer to a byte. *)
Definition byte_of_Z (z : Z) : byte :=
  match Byte.of_N (Z.to_N (z mod 256)) with Some b => b | None => x00 end.

Lemma byte_Z_inj a b : byte_Z a = byte_Z b → a = b.
Proof.
  unfold byte_Z. intros H%N2Z.inj.
  apply (f_equal Byte.of_N) in H. rewrite !Byte.of_to_N in H. by inversion H.
Qed.

Lemma byte_Z_bounds b : 0 ≤ byte_Z b < 256.
Proof.
  unfold byte_Z. pose proof (Byte.to_N_bounded b) as Hb. lia.
Qed.

Lemma byte_Z_mod z : byte_Z (byte_of_Z z) = z mod 256.
Proof.
  unfold byte_Z, byte_of_Z. pose proof (Z.mod_pos_bound z 256 ltac:(lia)).
  destruct (Byte.of_N (Z.to_N (z mod 256))) as [b|] eqn:E.
  - apply Byte.to_of_N in E. rewrite E. lia.
  - apply Byte.of_N_None_iff in E. lia.
Qed.

(** Byte strings can be keys of a map. *)
#[export] Instance byte_countable : Countable byte.
Proof.
  refine (inj_countable' Byte.to_N (λ n, default x00 (Byte.of_N n)) _).
  intros b. by rewrite Byte.of_to_N.
Defined.

Fixpoint bytes_compare (a b : bytes) : comparison :=
  match a, b with
  | [], [] => Eq
  | [], _ :: _ => Lt
  | _ :: _, [] => Gt
  | x :: a', y :: b' =>
      match byte_Z x ?= byte_Z y with
      | Eq => bytes_compare a' b'
      | c => c
      end
  end.

(** [bytes.Equal]. *)
Definition bytes_equal (a b : bytes) : bool := bool_decide (a = b).

Definition bytes_lt (a b : bytes) : Prop := bytes_compare a b = Lt.

Lemma bytes_compare_eq a b : bytes_compare a b = Eq ↔ a = b.
Proof.
  revert b. induction a as [|x a IH]; intros [|y b]; simpl; try naive_solver.
  destruct (Z.compare_spec (byte_Z x) (byte_Z y)) as [H|H|H].
  - apply byte_Z_inj in H as ->. rewrite IH. naive_solver.
  - split; [done|]. intros [= -> _]. lia.
  - split; [done|]. intros [= -> _]. lia.
Qed.

Lemma bytes_compare_refl a : bytes_compare a a = Eq.
Proof. by apply bytes_compare_eq. Qed.

Lemma bytes_compare_antisym a b : bytes_compare b a = CompOpp (bytes_compare a b).
Proof.
  revert b. induction a as [|x a IH]; intros [|y b]; simpl; try done.
  rewrite (Z.compare_antisym (byte_Z x) (byte_Z y)).
  destruct (byte_Z x ?= byte_Z y); simpl; auto.
Qed.

Lemma bytes_lt_trans a b c : bytes_lt a b → bytes_lt b c → bytes_lt a c.
Proof.
  unfold bytes_lt. revert b c.
  induction a as [|x a IH]; intros [|y b] [|z c]; simpl; try done.
  destruct (Z.compare_spec (byte_Z x) (byte_Z y)) as [H1|H1|H1];
    destruct (Z.compare_spec (byte_Z y) (byte_Z z)) as [H2|H2|H2];
    destruct (Z.compare_spec (byte_Z x) (byte_Z z)) as [H3|H3|H3];
    try done; try lia. apply IH.
Qed.

#[export] Instance bytes_lt_transitive : Transitive bytes_lt.
Proof. intros a b c. apply bytes_lt_trans. Qed.

Lemma bytes_lt_irrefl a : ¬ bytes_lt a a.
Proof. unfold bytes_lt. by rewrite bytes_compare_refl. Qed.

Lemma bytes_lt_ne a b : bytes_lt a b → a ≠ b.
Proof. intros H ->. by apply bytes_lt_irrefl in H. Qed.

Lemma bytes_compare_Gt a b : bytes_compare a b = Gt ↔ bytes_lt b a.
Proof.
  unfold bytes_lt. rewrite (bytes_compare_antisym a b).
  destruct (bytes_compare a b); simpl; naive_solver.
Qed.

Lemma bytes_lt_asym a b : bytes_lt a b → ¬ bytes_lt b a.
Proof. intros H1 H2. eapply bytes_lt_irrefl, bytes_lt_trans; eauto. Qed.

#[export] Instance bytes_lt_dec a b : Decision (bytes_lt a b).
Proof. unfold bytes_lt, Decision. decide equality. Defined.

Lemma bytes_equal_true a b : bytes_equal a b = true ↔ a = b.
Proof. apply bool_decide_eq_true. Qed.

Lemma bytes_equal_false a b : bytes_equal a b = false ↔ a ≠ b.
Proof. apply bool_decide_eq_false. Qed.

(** ** [sort.Search]

    Go's binary search: the smallest index in [0, n) at which the monotone
    predicate [f] holds, or [n]. [fuel] bounds the loop; [n] iterations always
    suffice since the interval shrinks at each one. *)
Fixpoint search_loop (fuel : nat) (f : nat → bool) (i j : nat) : nat :=
  match fuel with
  | O => i
  | S fuel' =>
      if (i <? j)%nat then
        let h := Nat.div2 (i + j) in
        if f h then search_loop fuel' f i h else search_loop fuel' f (S h) j
      else i
  end.

Definition sort_Search (n : nat) (f : nat → bool) : nat := search_loop n f 0 n.

Lemma search_loop_spec fuel f i j n :
  (j - i ≤ fuel)%nat → (i ≤ j ≤ n)%nat →
  (∀ a b, (a ≤ b)%nat → (b < n)%nat → f a = true → f b = true) →
  (∀ k, (k < i)%nat → f k = false) →
  (∀ k, (j ≤ k < n)%nat → f k = true) →
  let r := search_loop fuel f i j in
  (r ≤ n)%nat ∧ (∀ k, (k < r)%nat → f k = false) ∧ (∀ k, (r ≤ k < n)%nat → f k = true).
Proof.
  revert i j. induction fuel as [|fuel IH]; intros i j Hf Hij Hmono Hlo Hhi; simpl.
  { repeat split; [lia|done|]. intros. apply Hhi. lia. }
  destruct (Nat.ltb_spec i j) as [Hlt|Hge].
  - assert (i ≤ Nat.div2 (i + j) < j)%nat as Hh.
    { pose proof (Nat.div2_odd (i + j)). destruct (Nat.odd (i + j)); simpl in *; lia. }
    destruct (f (Nat.div2 (i + j))) eqn:E.
    + apply IH; [lia|lia|done|done|]. intros k Hk.
      destruct (decide (j ≤ k)%nat); [apply Hhi; lia|].
      eapply Hmono; [|lia|exact E]. lia.
    + apply IH; [lia|lia|done| |done]. intros k Hk.
      destruct (f k) eqn:Ek; [|done].
      rewrite (Hmono k (Nat.div2 (i + j))) in E; [done|lia|lia|done].
  - repeat split; [lia|done|]. intros. apply Hhi. lia.
Qed.

Lemma sort_Search_spec n f :
  (∀ a b, (a ≤ b)%nat → (b < n)%nat → f a = true → f b = true) →
  (sort_Search n f ≤ n)%nat ∧
  (∀ k, (k < sort_Search n f)%nat → f k = false) ∧
  (∀ k, (sort_Search n f ≤ k < n)%nat → f k = true).
Proof. intros H. apply search_loop_spec; auto; lia. Qed.

(** ** Sorting

    [sort.Sort] is modelled by insertion sort. The code only relies on the
    result being an ordered permutation; with distinct keys that result is
    unique, so the choice of algorithm is immaterial. *)
Fixpoint sort_insert {A} (less : A → A → bool) (x : A) (l : list A) : list A :=
  match l with
  | [] => [x]
  | y :: l' => if less x y then x :: l else y :: sort_insert less x l'
  end.

Fixpoint sort_Sort {A} (less : A → A → bool) (l : list A) : list A :=
  match l with
  | [] => []
  | x :: l' => sort_insert less x (sort_Sort less l')
  end.

Lemma sort_insert_perm {A} (less : A → A → bool) x l : sort_insert less x l ≡ₚ x :: l.
Proof.
  induction l as [|y l IH]; simpl; [done|].
  destruct (less x y); [done|]. rewrite IH. apply Permutation_swap.
Qed.

Lemma sort_Sort_perm {A} (less : A → A → bool) l : sort_Sort less l ≡ₚ l.
Proof. induction l as [|x l IH]; simpl; [done|]. by rewrite sort_insert_perm, IH. Qed.

(** ** Sums *)
Definition sumZ {A} (f : A → Z) (l : list A) : Z := foldr (λ x acc, f x + acc) 0 l.

Arguments sumZ : simpl never.

Lemma sumZ_nil {A} (f : A → Z) : sumZ f [] = 0.
Proof. done. Qed.

Lemma sumZ_cons {A} (f : A → Z) x l : sumZ f (x :: l) = f x + sumZ f l.
Proof. done. Qed.

Lemma sumZ_app {A} (f : A → Z) l k : sumZ f (l ++ k) = sumZ f l + sumZ f k.
Proof. induction l as [|x l IH]; simpl; [done|]. rewrite !sumZ_cons, IH. lia. Qed.

#[export] Instance sumZ_perm {A} (f : A → Z) : Proper ((≡ₚ) ==> (=)) (sumZ f).
Proof. induction 1; rewrite ?sumZ_cons; try lia. Qed.

Lemma sumZ_ext {A} (f g : A → Z) l : (∀ x, x ∈ l → f x = g x) → sumZ f l = sumZ g l.
Proof.
  induction l as [|x l IH]; intros H; [done|]. rewrite !sumZ_cons, IH; [|set_solver].
  by rewrite H by set_solver.
Qed.

Lemma sumZ_nonneg {A} (f : A → Z) l : (∀ x, x ∈ l → 0 ≤ f x) → 0 ≤ sumZ f l.
Proof.
  induction l as [|x l IH]; intros H; [done|]. rewrite sumZ_cons.
  pose proof (H x ltac:(set_solver)). pose proof (IH ltac:(set_solver)). lia.
Qed.

Lemma sumZ_le {A} (f g : A → Z) l : (∀ x, x ∈ l → f x ≤ g x) → sumZ f l ≤ sumZ g l.
Proof.
  induction l as [|x l IH]; intros H; [done|]. rewrite !sumZ_cons.
  pose proof (H x ltac:(set_solver)). pose proof (IH ltac:(set_solver)). lia.
Qed.

Lemma sumZ_lt_elem {A} (f g : A → Z) l : sumZ f l < sumZ g l → ∃ x, x ∈ l ∧ f x < g x.
Proof.
  induction l as [|x l IH]; [rewrite !sumZ_nil; lia|]. rewrite !sumZ_cons. intros H.
  destruct (decide (f x < g x)) as [Hx|Hx]; [exists x; split; [set_solver|done]|].
  destruct IH as (y & Hy & Hlt); [lia|]. exists y. split; [set_solver|done].
Qed.

Lemma sumZ_plus {A} (f g : A → Z) l : sumZ (λ x, f x + g x) l = sumZ f l + sumZ g l.
Proof. induction l as [|x l IH]; [done|]. rewrite !sumZ_cons, IH. lia. Qed.

Lemma sumZ_fmap {A B} (f : B → Z) (g : A → B) l : sumZ f (g <$> l) = sumZ (f ∘ g) l.
Proof. induction l as [|x l IH]; [done|]. csimpl. rewrite !sumZ_cons, IH. done. Qed.

Lemma sumZ_mem_le {A} (f : A → Z) l x :
  (∀ y, y ∈ l → 0 ≤ f y) → x ∈ l → f x ≤ sumZ f l.
Proof.
  intros Hpos (l1 & l2 & ->)%list_elem_of_split. rewrite sumZ_app, sumZ_cons.
  pose proof (sumZ_nonneg f l1 ltac:(set_solver)).
  pose proof (sumZ_nonneg f l2 ltac:(set_solver)). lia.
Qed.

(** Replacing the [i]-th element changes the sum by the difference. *)
Lemma sumZ_insert {A} (f : A → Z) (l : list A) i x y :
  l !! i = Some x → sumZ f (<[i := y]> l) = sumZ f l - f x + f y.
Proof.
  revert i. induction l as [|z l IH]; intros [|i] H; simplify_eq/=; rewrite ?sumZ_cons.
  - lia.
  - rewrite (IH i H). lia.
Qed.

Lemma elem_of_insert_inv {A} (l : list A) i x y : x ∈ <[i := y]> l → x = y ∨ x ∈ l.
Proof.
  intros (j & Hj)%list_elem_of_lookup.
  apply list_lookup_insert_Some in Hj as [(_ & <- & _)|[_ Hj]]; [by left|].
  right. by eapply list_elem_of_lookup_2.
Qed.

Lemma elem_of_take_sub {A} (l : list A) n x : x ∈ take n l → x ∈ l.
Proof. intros Hx. rewrite <-(take_drop n l). apply elem_of_app. by left. Qed.

Lemma elem_of_drop_sub {A} (l : list A) n x : x ∈ drop n l → x ∈ l.
Proof. intros Hx. rewrite <-(take_drop n l). apply elem_of_app. by right. Qed.

(** ** Automation *)
Create HintDb go discriminated.
#[export] Hint Resolve zlen_nonneg wrap64_range bytes_compare_refl : go.
#[export] Hint Rewrite @sumZ_nil @sumZ_cons @sumZ_app : go.
#[export] Hint Rewrite bytes_equal_true bytes_equal_false : go.

(** Inverts monadic hypotheses [m ≫= f = Ret b] down to their steps. *)
Ltac inv_ret :=
  repeat match goal with
  | H : Ret _ = Ret _ |- _ => inversion H; clear H; subst
  | H : Panic = Ret _ |- _ => discriminate H
  | H : mret _ = Ret _ |- _ => unfold mret, outcome_ret in H
  | H : (_ ≫= _) = Ret _ |- _ =>
      apply bind_Ret in H; destruct H as (? & ? & H); simpl in H
  | H : or_panic _ = Ret _ |- _ => apply or_panic_Ret in H
  end.

(** Case analysis on every boolean comparison of integers in sight. *)
Ltac case_Z :=
  repeat match goal with
  | |- context [Z.ltb ?a ?b] => destruct (Z.ltb_spec a b)
  | |- context [Z.leb ?a ?b] => destruct (Z.leb_spec a b)
  | |- context [Z.eqb ?a ?b] => destruct (Z.eqb_spec a b)
  | H : context [Z.ltb ?a ?b] |- _ => destruct (Z.ltb_spec a b)
  | H : context [Z.leb ?a ?b] |- _ => destruct (Z.leb_spec a b)
  | H : context [Z.eqb ?a ?b] |- _ => destruct (Z.eqb_spec a b)
  end.
