(* ===== verification/BitArray.v ===== *)
(** * libs/common/bit_array.go: the bit arrays used for votes and block parts

    A [*BitArray] is an [option BitArray] ([None] is the nil pointer); [Elems]
    holds uint64 words. Operations that mutate the receiver return the new
    array. The specification reads an array as the function [bit] from
    positions to booleans. *)

From Stdlib Require Import ZArith Lia List Bool Strings.Byte.
From stdpp Require Import base list sets.
From S2P Require Import Prelude.
Local Open Scope Z_scope.

Record BitArray := mkBitArray { Bits : Z; Elems : list Z }.

(** The words of an array of the given size. *)
Definition zero_elems (bits : Z) : list Z := replicate (Z.to_nat ((bits + 63) ÷ 64)) 0.

(** The longest slice of words [make] accepts: 2^48 bytes on 64-bit Linux. *)
Definition maxElems : Z := 2 ^ 45.

(** [make([]uint64, (bits+63)/64)]: the sum wraps, and [make] panics when the length is negative or too large. *)
Definition make_elems (bits : Z) : outcome (list Z) :=
  let n := wrap64 (bits + 63) ÷ 64 in
  if (n <? 0) || (maxElems <? n) then Panic else Ret (replicate (Z.to_nat n) 0).

Definition NewBitArray (bits : Z) : outcome (option BitArray) :=
  if bits <=? 0 then Ret None
  else es ← make_elems bits; Ret (Some {| Bits := bits; Elems := es |}).

(** [NewBitArray] where the size is the length of a slice, which is in memory and thus below the limit of [make]
    ([NewBitArray_small]). *)
Definition NewBitArray_len (bits : Z) : option BitArray :=
  if bits <=? 0 then None
  else Some {| Bits := bits; Elems := zero_elems bits |}.

Definition Size (bA : option BitArray) : Z :=
  match bA with None => 0 | Some b => Bits b end.

(** [uint64(1) << uint(i%64)]: the conversion of a negative remainder is a huge
    shift count, which gives 0. *)
Definition mask (i : Z) : Z := shl64 1 (wrapu64 (Z.rem i 64)).

Definition getIndex (bA : BitArray) (i : Z) : outcome bool :=
  if Bits bA <=? i then Ret false
  else
    e ← slice_get (Elems bA) (i ÷ 64);
    Ret (0 <? Z.land e (mask i)).

Definition GetIndex (bA : option BitArray) (i : Z) : outcome bool :=
  match bA with None => Ret false | Some b => getIndex b i end.

Definition setIndex (bA : BitArray) (i : Z) (v : bool) : outcome (BitArray * bool) :=
  if Bits bA <=? i then Ret (bA, false)
  else
    e ← slice_get (Elems bA) (i ÷ 64);
    let e' := if v then Z.lor e (mask i) else Z.land e (not64 (mask i)) in
    es ← slice_set (Elems bA) (i ÷ 64) e';
    Ret ({| Bits := Bits bA; Elems := es |}, true).

Definition SetIndex (bA : option BitArray) (i : Z) (v : bool) :
    outcome (option BitArray * bool) :=
  match bA with
  | None => Ret (None, false)
  | Some b => '(b', r) ← setIndex b i v; Ret (Some b', r)
  end.

Definition copy (bA : BitArray) : BitArray :=
  {| Bits := Bits bA;
     Elems := go_copy (replicate (length (Elems bA)) 0) (Elems bA) |}.

Definition Copy (bA : option BitArray) : option BitArray := copy <$> bA.

Definition copyBits (bA : BitArray) (bits : Z) : outcome BitArray :=
  es ← make_elems bits; Ret {| Bits := bits; Elems := go_copy es (Elems bA) |}.

Definition Or (bA o : option BitArray) : outcome (option BitArray) :=
  match bA, o with
  | None, None => Ret None
  | None, Some _ => Ret (Copy o)
  | Some _, None => Ret (Copy bA)
  | Some a, Some b =>
      c ← copyBits a (Z.max (Bits a) (Bits b));
      let smaller := Nat.min (length (Elems a)) (length (Elems b)) in
      es ← update_with Z.lor (Elems b) smaller (Elems c);
      Ret (Some {| Bits := Bits c; Elems := es |})
  end.

Definition and (bA o : BitArray) : outcome BitArray :=
  c ← copyBits bA (Z.min (Bits bA) (Bits o));
  es ← update_with Z.land (Elems o) (length (Elems c)) (Elems c);
  Ret {| Bits := Bits c; Elems := es |}.

Definition And (bA o : option BitArray) : outcome (option BitArray) :=
  match bA, o with
  | Some a, Some b => Some <$> and a b
  | _, _ => Ret None
  end.

Definition not (bA : BitArray) : BitArray :=
  let c := copy bA in
  {| Bits := Bits c; Elems := not64 <$> Elems c |}.

Definition Not (bA : option BitArray) : option BitArray := not <$> bA.

Definition Sub (bA o : option BitArray) : outcome (option BitArray) :=
  match bA, o with
  | Some a, Some b =>
      c ← copyBits a (Bits a);
      let smaller := Nat.min (length (Elems a)) (length (Elems b)) in
      es ← update_with (λ x y, Z.land x (not64 y)) (Elems b) smaller (Elems c);
      Ret (Some {| Bits := Bits c; Elems := es |})
  | _, _ => Ret None
  end.

Definition IsEmpty (bA : option BitArray) : bool :=
  match bA with
  | None => true
  | Some b => forallb (λ e, negb (0 <? e)) (Elems b)
  end.

(** [bA.Elems[:len-1]] and [bA.Elems[len-1]] panic on an empty slice. *)
Definition IsFull (bA : option BitArray) : outcome bool :=
  match bA with
  | None => Ret true
  | Some b =>
      lastElem ← or_panic (last (Elems b));
      if forallb (λ e, not64 e =? 0) (take (length (Elems b) - 1) (Elems b)) then
        let lastElemBits := Z.rem (Bits b + 63) 64 + 1 in
        Ret (Z.land (wrapu64 (lastElem + 1)) (wrapu64 (shl64 1 lastElemBits - 1)) =? 0)
      else Ret false
  end.

(** The set positions of one word, counted from [curBit]. *)
Definition word_indices (elem curBit : Z) (n : nat) : list Z :=
  (λ j : nat, curBit + Z.of_nat j) <$>
    base.filter (λ j : nat, 0 <? Z.land elem (shl64 1 (Z.of_nat j)) = true) (seq 0 n).

(** The loop over [Elems[:numElems-1]]: zero words are skipped. *)
Fixpoint full_words (es : list Z) (curBit : Z) : list Z * Z :=
  match es with
  | [] => ([], curBit)
  | e :: es' =>
      let here := if e =? 0 then [] else word_indices e curBit 64 in
      let '(rest, c) := full_words es' (curBit + 64) in
      (here ++ rest, c)
  end.

Definition getTrueIndices (bA : BitArray) : outcome (list Z) :=
  lastElem ← or_panic (last (Elems bA));
  let '(idx, curBit) := full_words (take (length (Elems bA) - 1) (Elems bA)) 0 in
  let numFinalBits := Bits bA - curBit in
  Ret (idx ++ word_indices lastElem curBit (Z.to_nat numFinalBits)).

(** [RandIntn] is the global source of random.go, a parameter. *)
Definition PickRandom (RandIntn : Z → Z) (bA : option BitArray) : outcome (Z * bool) :=
  match bA with
  | None => Ret (0, false)
  | Some b =>
      trueIndices ← getTrueIndices b;
      if zlen trueIndices =? 0 then Ret (0, false)
      else i ← slice_get trueIndices (RandIntn (zlen trueIndices)); Ret (i, true)
  end.

(** [binary.LittleEndian.PutUint64]. *)
Definition elem_bytes (e : Z) : bytes :=
  (λ k : nat, byte_of_Z (Z.shiftr e (8 * Z.of_nat k))) <$> seq 0 8.

(** The loop of [Bytes]: word [i] is copied at offset [8*i]; slicing past the
    end panics. *)
Fixpoint bytes_loop (es : list Z) (i : nat) (bz : bytes) : outcome bytes :=
  match es with
  | [] => Ret bz
  | e :: es' =>
      if (8 * i <=? length bz)%nat
      then bytes_loop es' (S i) (take (8 * i) bz ++ go_copy (drop (8 * i) bz) (elem_bytes e))
      else Panic
  end.

Definition Bytes (bA : BitArray) : outcome bytes :=
  bytes_loop (Elems bA) 0 (replicate (Z.to_nat ((Bits bA + 7) ÷ 8)) x00).

(** [copy(bA.Elems, o.Elems)]. *)
Definition Update (bA o : option BitArray) : option BitArray :=
  match bA, o with
  | Some a, Some b => Some {| Bits := Bits a; Elems := go_copy (Elems a) (Elems b) |}
  | _, _ => bA
  end.

(** ** JSON: a quoted string of 'x' (1) and '_' (0) *)

Definition c_quote : byte := x22.
Definition c_x : byte := x78.
Definition c_underscore : byte := x5f.
Definition null_bytes : bytes := [x6e; x75; x6c; x6c].

Fixpoint marshal_bits (bA : BitArray) (n : nat) (i : Z) : outcome bytes :=
  match n with
  | O => Ret []
  | S n' =>
      b ← getIndex bA i;
      rest ← marshal_bits bA n' (i + 1);
      Ret ((if (b : bool) then c_x else c_underscore) :: rest)
  end.

Definition MarshalJSON (bA : option BitArray) : outcome bytes :=
  match bA with
  | None => Ret null_bytes
  | Some b =>
      bits ← marshal_bits b (Z.to_nat (Bits b)) 0;
      Ret (c_quote :: bits ++ [c_quote])
  end.

(** The regexp: a quote, then a capture group of any number of [_] and [x], then
    a quote and the end of the text. *)
Fixpoint match_group (b : bytes) : option bytes :=
  match b with
  | [] => None
  | c :: b' =>
      if decide (c = c_quote) then (if b' is [] then Some [] else None)
      else if decide (c = c_x ∨ c = c_underscore) then cons c <$> match_group b'
      else None
  end.

Definition bitArrayJSONRegexp (b : bytes) : option bytes :=
  match b with
  | c :: b' => if decide (c = c_quote) then match_group b' else None
  | [] => None
  end.

Inductive json_error := ErrBitArrayFormat.

(** The loop setting bit [i] for each 'x'. *)
Fixpoint set_bits (bits : bytes) (i : Z) (bA2 : option BitArray) : outcome (option BitArray) :=
  match bits with
  | [] => Ret bA2
  | c :: bits' =>
      if decide (c = c_x) then
        '(bA2', _) ← SetIndex bA2 i true;
        set_bits bits' (i + 1) bA2'
      else set_bits bits' (i + 1) bA2
  end.

(** The receiver is overwritten; [*bA = *bA2] panics when [bA2] is nil. *)
Definition UnmarshalJSON (bA : BitArray) (bz : bytes) :
    outcome (BitArray * option json_error) :=
  if decide (bz = null_bytes) then Ret ({| Bits := 0; Elems := [] |}, None)
  else
    match bitArrayJSONRegexp bz with
    | None => Ret (bA, Some ErrBitArrayFormat)
    | Some bits =>
        bA2 ← set_bits bits 0 (NewBitArray_len (zlen bits));
        match bA2 with
        | None => Panic
        | Some b => Ret (b, None)
        end
    end.

(** ** Specification: an array as a predicate on positions *)

Definition is_word (e : Z) : Prop := 0 ≤ e < 2 ^ 64.

(** The allocation matches the number of bits and every word is a uint64. *)
Record wf (bA : BitArray) : Prop := {
  wf_pos : 0 < Bits bA;
  wf_len : zlen (Elems bA) = (Bits bA + 63) / 64;
  wf_word : Forall is_word (Elems bA)
}.

(** The raw bit at a position of the allocated words. *)
Definition bit (bA : BitArray) (i : Z) : bool :=
  Z.testbit (default 0 (slice_lookup (Elems bA) (i / 64))) (i mod 64).

(** No bit is set past [Bits]: the padding of the last word is zero. *)
Definition clean (bA : BitArray) : Prop := ∀ i, Bits bA ≤ i → bit bA i = false.

(** ** Words *)

Lemma testbit_word_high e j : is_word e → 64 ≤ j → Z.testbit e j = false.
Proof.
  intros He Hj. destruct (decide (e = 0)) as [->|]; [apply Z.testbit_0_l|].
  apply Z.bits_above_log2; [destruct He; lia|].
  assert (Z.log2 e < 64) by (apply Z.log2_lt_pow2; destruct He; lia). lia.
Qed.

Lemma word_ext a b :
  is_word a → is_word b → (∀ j, 0 ≤ j < 64 → Z.testbit a j = Z.testbit b j) → a = b.
Proof.
  intros Ha Hb H. apply Z.bits_inj'. intros j Hj.
  destruct (decide (j < 64)); [apply H; lia|].
  by rewrite !testbit_word_high by (done || lia).
Qed.

Lemma is_word_testbit e : 0 ≤ e → (∀ j, 64 ≤ j → Z.testbit e j = false) → is_word e.
Proof.
  intros He H. split; [done|].
  destruct (decide (e = 0)) as [->|]; [lia|].
  apply Z.log2_lt_pow2; [lia|]. destruct (decide (Z.log2 e < 64)); [done|].
  pose proof (Z.bit_log2 e ltac:(lia)) as Hb. by rewrite H in Hb by lia.
Qed.

Lemma is_word_0 : is_word 0.
Proof. unfold is_word. lia. Qed.

Lemma is_word_land a b : is_word a → 0 ≤ b → is_word (Z.land a b).
Proof.
  intros Ha Hb. apply is_word_testbit; [apply Z.land_nonneg; destruct Ha; auto|].
  intros j Hj. rewrite Z.land_spec, testbit_word_high by done. done.
Qed.

Lemma is_word_lor a b : is_word a → is_word b → is_word (Z.lor a b).
Proof.
  intros Ha Hb. apply is_word_testbit; [apply Z.lor_nonneg; destruct Ha, Hb; auto|].
  intros j Hj. by rewrite Z.lor_spec, !testbit_word_high by done.
Qed.

Lemma is_word_not64 a : is_word a → is_word (not64 a).
Proof. unfold is_word, not64. lia. Qed.

Lemma testbit_not64 a j :
  is_word a → 0 ≤ j < 64 → Z.testbit (not64 a) j = negb (Z.testbit a j).
Proof.
  intros Ha Hj. unfold not64.
  replace (2 ^ 64 - 1 - a) with (Z.lnot a + 2 ^ 64) by (unfold Z.lnot; lia).
  rewrite <-(Z.mod_pow2_bits_low (Z.lnot a + 2 ^ 64) 64 j) by lia.
  rewrite <-Z.add_mod_idemp_r, Z.mod_same, Z.add_0_r by lia.
  rewrite Z.mod_pow2_bits_low by lia. apply Z.lnot_spec. lia.
Qed.

Lemma testbit_pow2 k j : 0 ≤ k → 0 ≤ j → Z.testbit (2 ^ k) j = bool_decide (j = k).
Proof.
  intros Hk Hj. rewrite Z.pow2_bits_eqb by done.
  destruct (Z.eqb_spec k j); [by rewrite bool_decide_true|by rewrite bool_decide_false].
Qed.

Lemma is_word_pow2 k : 0 ≤ k < 64 → is_word (2 ^ k).
Proof. intros. split; [lia|]. apply Z.pow_lt_mono_r; lia. Qed.

Lemma land_pow2_pos e k : is_word e → 0 ≤ k < 64 → (0 <? Z.land e (2 ^ k)) = Z.testbit e k.
Proof.
  intros He Hk. destruct (Z.testbit e k) eqn:E.
  - apply Z.ltb_lt. destruct (decide (Z.land e (2 ^ k) = 0)) as [H0|].
    + apply (f_equal (λ z, Z.testbit z k)) in H0.
      rewrite Z.land_spec, E, testbit_pow2, bool_decide_true, Z.testbit_0_l in H0 by lia.
      done.
    + pose proof (is_word_land e (2 ^ k) He ltac:(lia)) as [? _]. lia.
  - apply Z.ltb_ge. assert (Z.land e (2 ^ k) = 0) as ->; [|lia].
    apply Z.bits_inj'. intros j Hj. rewrite Z.land_spec, testbit_pow2, Z.testbit_0_l by lia.
    case_bool_decide; [subst; by rewrite E|apply andb_false_r].
Qed.

Lemma mask_pos i : 0 ≤ i → mask i = 2 ^ (i mod 64).
Proof.
  intros Hi. unfold mask. rewrite Z.rem_mod_nonneg by lia.
  pose proof (Z.mod_pos_bound i 64 ltac:(lia)).
  unfold wrapu64 at 1. rewrite (Z.mod_small (i mod 64)) by lia. by apply shl64_1.
Qed.

#[local] Hint Resolve is_word_0 is_word_land is_word_lor is_word_not64 is_word_pow2 : go.

(** ** Words of an array *)

(** Bit [j] of word [k] is position [64k+j]. *)
Lemma pos_div_mod k j : 0 ≤ j < 64 → (k * 64 + j) / 64 = k ∧ (k * 64 + j) mod 64 = j.
Proof.
  intros Hj. split.
  - rewrite Z.div_add_l, (Z.div_small j 64) by lia. lia.
  - by rewrite Z.add_comm, Z_mod_plus_full, Z.mod_small.
Qed.

(** The [k]-th word, 0 past the end. *)
Definition word (l : list Z) (k : nat) : Z := default 0 (l !! k).

Lemma word_ge l k : (length l ≤ k)%nat → word l k = 0.
Proof. intros H. unfold word. by rewrite lookup_ge_None_2. Qed.

Lemma word_is_word l k : Forall is_word l → is_word (word l k).
Proof.
  intros H. unfold word. destruct (l !! k) eqn:E; simpl; [|auto with go].
  eapply Forall_lookup_1; eauto.
Qed.

Lemma word_lookup l k : (k < length l)%nat → l !! k = Some (word l k).
Proof.
  intros H. unfold word. destruct (lookup_lt_is_Some_2 l k H) as [x ->]. done.
Qed.

Lemma word_update f (c o : list Z) n k :
  (n ≤ length c)%nat → (n ≤ length o)%nat →
  word (zip_with f (take n c) (take n o) ++ drop n c) k =
  if (k <? n)%nat then f (word c k) (word o k) else word c k.
Proof.
  intros Hc Ho. unfold word.
  assert (length (zip_with f (take n c) (take n o)) = n) as Hl
    by (rewrite length_zip_with, !length_take; lia).
  destruct (Nat.ltb_spec k n).
  - rewrite lookup_app_l, lookup_zip_with, !lookup_take_lt by lia.
    destruct (lookup_lt_is_Some_2 c k ltac:(lia)) as [x ->].
    destruct (lookup_lt_is_Some_2 o k ltac:(lia)) as [y ->]. done.
  - rewrite lookup_app_r, lookup_drop by lia. rewrite Hl. do 2 f_equal. lia.
Qed.

Lemma word_go_copy m (a : list Z) k :
  word (go_copy (replicate m 0) a) k = if (k <? m)%nat then word a k else 0.
Proof.
  unfold word, go_copy. rewrite length_replicate.
  destruct (decide (k < length (take m a))%nat) as [Hk|Hk].
  - rewrite lookup_app_l by done. rewrite length_take in Hk.
    rewrite lookup_take_lt by lia. by rewrite (proj2 (Nat.ltb_lt k m)) by lia.
  - rewrite lookup_app_r, length_take, lookup_drop by lia. rewrite length_take in Hk.
    destruct (Nat.ltb_spec k m).
    + rewrite lookup_replicate_2 by lia. rewrite (lookup_ge_None_2 a) by lia. done.
    + rewrite lookup_ge_None_2 by (rewrite length_replicate; lia). done.
Qed.

Lemma word_fmap f l k : (k < length l)%nat → word (f <$> l) k = f (word l k).
Proof.
  intros H. unfold word. rewrite list_lookup_fmap.
  destruct (lookup_lt_is_Some_2 l k H) as [x ->]. done.
Qed.

Lemma bit_word bA i : 0 ≤ i → bit bA i = Z.testbit (word (Elems bA) (Z.to_nat (i / 64))) (i mod 64).
Proof.
  intros Hi. unfold bit, word, slice_lookup.
  by rewrite (proj2 (Z.leb_le 0 (i / 64))) by (apply Z.div_pos; lia).
Qed.

Lemma length_zero_elems bits : 0 ≤ bits → zlen (zero_elems bits) = (bits + 63) / 64.
Proof.
  intros H. unfold zlen, zero_elems. rewrite length_replicate, Z.quot_div_nonneg by lia.
  rewrite Z2Nat.id; [done|]. apply Z.div_pos; lia.
Qed.

(** Position [i < bits] lies in the first [(bits+63)/64] words. *)
Lemma div64_lt i bits : 0 ≤ i < bits → 0 ≤ i / 64 < (bits + 63) / 64.
Proof.
  intros H. split; [apply Z.div_pos; lia|].
  apply Z.lt_le_trans with (i / 64 + 1); [lia|].
  replace (i / 64 + 1) with ((i + 1 * 64) / 64) by (rewrite Z.div_add; lia).
  apply Z.div_le_mono; lia.
Qed.

Lemma wf_word_index bA i :
  wf bA → 0 ≤ i < Bits bA → (Z.to_nat (i / 64) < length (Elems bA))%nat.
Proof.
  intros Hwf Hi. pose proof (wf_len _ Hwf). pose proof (div64_lt i (Bits bA) Hi).
  unfold zlen in *. lia.
Qed.

(** ** Reading and writing one bit *)

Lemma slice_get_word bA i :
  wf bA → 0 ≤ i < Bits bA →
  slice_get (Elems bA) (i ÷ 64) = Ret (word (Elems bA) (Z.to_nat (i / 64))).
Proof.
  intros Hwf Hi. unfold slice_get, slice_lookup.
  rewrite Z.quot_div_nonneg by lia.
  rewrite (proj2 (Z.leb_le 0 _)) by (apply Z.div_pos; lia).
  rewrite word_lookup by (by apply wf_word_index). done.
Qed.

Lemma getIndex_spec bA i :
  wf bA → 0 ≤ i → getIndex bA i = Ret ((i <? Bits bA) && bit bA i).
Proof.
  intros Hwf Hi. unfold getIndex. destruct (Z.leb_spec (Bits bA) i).
  { by rewrite (proj2 (Z.ltb_ge i (Bits bA))) by lia. }
  rewrite (proj2 (Z.ltb_lt i (Bits bA))) by lia. simpl.
  rewrite slice_get_word by (done || lia). simpl. rewrite mask_pos by done.
  pose proof (Z.mod_pos_bound i 64 ltac:(lia)).
  rewrite land_pow2_pos by (try apply word_is_word; destruct Hwf; done).
  by rewrite bit_word by done.
Qed.

Lemma wf_update bA es :
  wf bA → length es = length (Elems bA) → Forall is_word es →
  wf {| Bits := Bits bA; Elems := es |}.
Proof.
  intros [Hp Hl Hw] Hes Hfa. split; simpl; [done| |done]. unfold zlen in *. by rewrite Hes.
Qed.

Lemma setIndex_spec bA i v :
  wf bA → 0 ≤ i < Bits bA →
  ∃ bA', setIndex bA i v = Ret (bA', true) ∧ wf bA' ∧ Bits bA' = Bits bA ∧
    ∀ j, 0 ≤ j → bit bA' j = if j =? i then v else bit bA j.
Proof.
  intros Hwf Hi. unfold setIndex. rewrite (proj2 (Z.leb_gt (Bits bA) i)) by lia.
  rewrite slice_get_word by done. simpl. rewrite mask_pos by lia.
  set (k := Z.to_nat (i / 64)). set (e := word (Elems bA) k).
  set (e' := if v then Z.lor e (2 ^ (i mod 64)) else Z.land e (not64 (2 ^ (i mod 64)))).
  pose proof (Z.mod_pos_bound i 64 ltac:(lia)) as Hm.
  pose proof (wf_word_index _ _ Hwf Hi) as Hk. fold k in Hk.
  assert (is_word e) as He by (apply word_is_word, Hwf).
  assert (is_word (2 ^ (i mod 64))) as Hp by auto with go.
  assert (is_word e') as He'.
  { destruct v; unfold e'; auto with go. apply is_word_land; [done|].
    by apply is_word_not64. }
  unfold slice_set. rewrite Z.quot_div_nonneg by lia.
  rewrite (proj2 (Z.leb_le 0 _)), (proj2 (Z.ltb_lt _ _))
    by (pose proof (div64_lt i (Bits bA) Hi); rewrite ?(wf_len _ Hwf); lia). simpl.
  fold k. eexists. split; [done|]. split; [|split; [done|]].
  { apply wf_update; [done|apply length_insert|]. apply Forall_insert; [apply Hwf|done]. }
  intros j Hj. rewrite !bit_word by done. simpl.
  pose proof (Z.mod_pos_bound j 64 ltac:(lia)) as Hjm.
  destruct (decide (Z.to_nat (j / 64) = k)) as [Hjk|Hjk].
  - rewrite Hjk. unfold word at 1. rewrite list_lookup_insert_eq by done. simpl.
    assert (j / 64 = i / 64) as Hd.
    { unfold k in Hjk. apply Z2Nat.inj in Hjk; try apply Z.div_pos; lia. }
    assert ((j =? i) = bool_decide (j mod 64 = i mod 64)) as ->.
    { pose proof (Z.div_mod j 64). pose proof (Z.div_mod i 64).
      destruct (Z.eqb_spec j i); case_bool_decide; subst; lia. }
    fold e. unfold e'. destruct v.
    + rewrite Z.lor_spec, testbit_pow2 by lia.
      case_bool_decide; [apply orb_true_r|by rewrite orb_false_r].
    + rewrite Z.land_spec, testbit_not64, testbit_pow2 by (done || lia).
      case_bool_decide; [apply andb_false_r|by rewrite andb_true_r].
  - unfold word at 1. rewrite list_lookup_insert_ne by congruence.
    destruct (Z.eqb_spec j i); [subst; done|done].
Qed.

(** ** Construction, copies and extensionality *)

Lemma NewBitArray_len_spec bits :
  0 < bits → ∃ bA, NewBitArray_len bits = Some bA ∧ wf bA ∧ clean bA ∧ Bits bA = bits ∧
    ∀ i, 0 ≤ i → bit bA i = false.
Proof.
  intros H. unfold NewBitArray_len. rewrite (proj2 (Z.leb_gt bits 0)) by lia.
  assert (∀ i, 0 ≤ i → bit {| Bits := bits; Elems := zero_elems bits |} i = false) as Hz.
  { intros i Hi. rewrite bit_word by done. unfold word, zero_elems. simpl.
    destruct (replicate _ 0 !! _) as [x|] eqn:E; simpl; [|apply Z.testbit_0_l].
    apply lookup_replicate in E as [-> _]. apply Z.testbit_0_l. }
  eexists. split; [done|]. split; [|split; [|split; [done|exact Hz]]].
  - split; simpl; [done|by apply length_zero_elems; lia|].
    unfold zero_elems. apply Forall_replicate; auto with go.
  - intros i Hi. apply Hz. simpl in Hi. lia.
Qed.

Lemma copy_id bA : copy bA = bA.
Proof.
  unfold copy. rewrite go_copy_same_length by apply length_replicate. by destruct bA.
Qed.

(** Two arrays of the same size with the same bits and clean padding are equal. *)
Lemma bitarray_ext a b :
  wf a → wf b → clean a → clean b → Bits a = Bits b →
  (∀ i, 0 ≤ i < Bits a → bit a i = bit b i) → a = b.
Proof.
  intros Ha Hb Hca Hcb HB Hbit.
  assert (Elems a = Elems b) as HE; [|destruct a, b; simpl in *; congruence].
  assert (length (Elems a) = length (Elems b)) as Hlen.
  { pose proof (wf_len _ Ha). pose proof (wf_len _ Hb). unfold zlen in *. rewrite HB in *. lia. }
  apply list_eq_same_length with (length (Elems a)); [done|done|].
  intros k x y Hk Hx Hy.
  apply word_ext; [eapply Forall_lookup_1; [apply Ha|done]
                  |eapply Forall_lookup_1; [apply Hb|done]|].
  intros j Hj. set (i := Z.of_nat k * 64 + j).
  destruct (pos_div_mod (Z.of_nat k) j Hj) as [Hd Hm]. fold i in Hd, Hm.
  assert (bit a i = bit b i) as H.
  { destruct (decide (i < Bits a)); [apply Hbit; lia|].
    rewrite Hca, Hcb by lia. done. }
  rewrite !bit_word, Hd, Hm, Nat2Z.id in H by lia.
  unfold word in H. by rewrite Hx, Hy in H.
Qed.

(** ** Bitwise operations *)

Lemma Forall_word_update f (c o : list Z) n :
  (∀ x y, is_word x → is_word y → is_word (f x y)) →
  Forall is_word c → Forall is_word o →
  Forall is_word (zip_with f (take n c) (take n o) ++ drop n c).
Proof.
  intros Hf Hc Ho. apply Forall_app. split; [|by apply Forall_drop].
  apply (Forall_take _ n) in Hc, Ho. revert Ho. generalize (take n o).
  induction Hc as [|x l Hx Hl IH]; intros [|y k] Hk; simpl; auto.
  inversion Hk; subst. constructor; auto.
Qed.

Lemma Forall_word_go_copy m a : Forall is_word a → Forall is_word (go_copy (replicate m 0) a).
Proof.
  intros H. unfold go_copy. apply Forall_app. split; [by apply Forall_take|].
  apply Forall_drop, Forall_replicate. auto with go.
Qed.

(** Arrays that [make] can allocate: 2^51 bits. *)
Definition maxBits : Z := maxElems * 64.

Lemma make_elems_small bits : 0 ≤ bits ≤ maxBits → make_elems bits = Ret (zero_elems bits).
Proof.
  unfold maxBits, maxElems. intros Hb. unfold make_elems. rewrite wrap64_id by (unfold in_int64, MinInt64, MaxInt64; lia).
  assert (0 ≤ (bits + 63) ÷ 64 ≤ maxElems) as Hq.
  { rewrite Z.quot_div_nonneg by lia. unfold maxElems. split; [apply Z.div_pos; lia|].
    apply Z.lt_succ_r, Z.div_lt_upper_bound; lia. }
  unfold zero_elems. by rewrite (proj2 (Z.ltb_ge _ _)), (proj2 (Z.ltb_ge _ _)) by lia.
Qed.

Lemma NewBitArray_small bits : bits ≤ maxBits → NewBitArray bits = Ret (NewBitArray_len bits).
Proof.
  intros Hb. unfold NewBitArray, NewBitArray_len. destruct (Z.leb_spec bits 0); [done|]. by rewrite make_elems_small by lia.
Qed.

Definition copied (bA : BitArray) (bits : Z) : BitArray :=
  {| Bits := bits; Elems := go_copy (zero_elems bits) (Elems bA) |}.

Lemma copyBits_small a bits : 0 ≤ bits ≤ maxBits → copyBits a bits = Ret (copied a bits).
Proof. intros Hb. unfold copyBits. by rewrite make_elems_small. Qed.

(** The common shape of Or, And and Sub: [f] on the first [n] words of a copy. *)
Lemma update_copy_spec f g a b bits n :
  wf a → Forall is_word (Elems b) → 0 < bits →
  (n ≤ length (zero_elems bits))%nat → (n ≤ length (Elems b))%nat →
  (∀ x y, is_word x → is_word y → is_word (f x y)) →
  (∀ x y j, is_word x → is_word y → 0 ≤ j < 64 →
     Z.testbit (f x y) j = g (Z.testbit x j) (Z.testbit y j)) →
  ∃ es, update_with f (Elems b) n (Elems (copied a bits)) = Ret es ∧
    let c := {| Bits := bits; Elems := es |} in
    wf c ∧ ∀ i, 0 ≤ i → i / 64 < zlen (zero_elems bits) →
      bit c i = if i / 64 <? Z.of_nat n then g (bit a i) (bit b i) else bit a i.
Proof.
  intros Ha Hb Hbits Hn Hnb Hf Hfg. simpl.
  assert (length (go_copy (zero_elems bits) (Elems a)) = length (zero_elems bits)) as Hl
    by apply length_go_copy.
  rewrite update_with_spec by lia. eexists. split; [done|]. split.
  - split; simpl; [done| |].
    + rewrite <-length_zero_elems by lia. unfold zlen.
      rewrite length_app, length_zip_with, !length_take, length_drop. lia.
    + apply Forall_word_update; [done| |done]. apply Forall_word_go_copy, Ha.
  - intros i Hi Hin. rewrite !bit_word by done. simpl.
    assert (0 ≤ i / 64) by (apply Z.div_pos; lia).
    rewrite word_update by lia. unfold zero_elems at 1 2. rewrite word_go_copy.
    pose proof (Z.mod_pos_bound i 64 ltac:(lia)).
    assert (Z.to_nat (i / 64) < Z.to_nat ((bits + 63) ÷ 64))%nat as Hm.
    { unfold zlen, zero_elems in Hin. rewrite length_replicate in Hin. lia. }
    rewrite (proj2 (Nat.ltb_lt _ _) Hm).
    assert ((Z.to_nat (i / 64) <? n)%nat = (i / 64 <? Z.of_nat n)) as ->.
    { destruct (Nat.ltb_spec (Z.to_nat (i / 64)) n), (Z.ltb_spec (i / 64) (Z.of_nat n)); lia. }
    destruct (i / 64 <? Z.of_nat n); [|done].
    apply Hfg; [apply word_is_word, Ha|by apply word_is_word|done].
Qed.

Lemma bit_past bA i : 0 ≤ i → zlen (Elems bA) ≤ i / 64 → bit bA i = false.
Proof.
  intros Hi H. rewrite bit_word, word_ge by (unfold zlen in *; lia). apply Z.testbit_0_l.
Qed.

Lemma and_spec a b :
  wf a → wf b → Z.min (Bits a) (Bits b) ≤ maxBits →
  ∃ c, and a b = Ret c ∧ wf c ∧ Bits c = Z.min (Bits a) (Bits b) ∧
    (clean a → clean b → clean c) ∧
    ∀ i, 0 ≤ i < Bits c → bit c i = bit a i && bit b i.
Proof.
  intros Ha Hb. pose proof (wf_pos _ Ha). pose proof (wf_pos _ Hb).
  set (m := Z.min (Bits a) (Bits b)). intros Hmax.
  assert (length (go_copy (zero_elems m) (Elems a)) = length (zero_elems m)) as Hl
    by apply length_go_copy.
  assert (length (zero_elems m) ≤ length (Elems b))%nat as Hlb.
  { pose proof (length_zero_elems m ltac:(lia)). pose proof (wf_len _ Hb).
    assert ((m + 63) / 64 ≤ (Bits b + 63) / 64) by (apply Z.div_le_mono; lia).
    unfold zlen in *. lia. }
  destruct (update_copy_spec Z.land andb a b m (length (zero_elems m)))
    as (es & Hes & Hwf & Hbit); try done.
  { apply Hb. } { lia. }
  { intros. apply is_word_land; [done|]. destruct H2; done. }
  { intros. apply Z.land_spec. }
  unfold and. fold m. rewrite copyBits_small by lia. rewrite <-Hl in Hes. unfold copied in Hes |- *. simpl in Hes |- *.
  rewrite Hes. simpl. eexists. split; [done|]. split; [done|]. split; [done|].
  assert (∀ i, 0 ≤ i → i / 64 < zlen (zero_elems m) →
    bit {| Bits := m; Elems := es |} i = bit a i && bit b i) as Hb'.
  { intros i Hi Hlt. rewrite Hbit by done. unfold zlen in Hlt.
    by rewrite (proj2 (Z.ltb_lt _ _)) by lia. }
  split.
  - intros Hca Hcb i Hi. simpl in Hi.
    destruct (decide (i / 64 < zlen (zero_elems m))).
    + rewrite Hb' by lia. destruct (decide (Bits a ≤ i)).
      * by rewrite Hca by lia.
      * rewrite Hcb by lia. apply andb_false_r.
    + apply bit_past; [lia|]. pose proof (wf_len _ Hwf). simpl in *.
      rewrite length_zero_elems in * by lia. lia.
  - simpl. intros i Hi. apply Hb'; [lia|]. rewrite length_zero_elems by lia.
    by apply div64_lt.
Qed.

Lemma length_zero_elems_wf a bits :
  wf a → Bits a ≤ bits → (length (Elems a) ≤ length (zero_elems bits))%nat.
Proof.
  intros Ha Hle. pose proof (wf_pos _ Ha). pose proof (wf_len _ Ha).
  pose proof (length_zero_elems bits ltac:(lia)).
  assert ((Bits a + 63) / 64 ≤ (bits + 63) / 64) by (apply Z.div_le_mono; lia).
  unfold zlen in *. lia.
Qed.

(** [Or] and [Sub] run over the words both arrays have. *)
Lemma or_sub_spec f g a b bits :
  wf a → wf b → Bits a ≤ bits →
  (∀ x y, is_word x → is_word y → is_word (f x y)) →
  (∀ x y j, is_word x → is_word y → 0 ≤ j < 64 →
     Z.testbit (f x y) j = g (Z.testbit x j) (Z.testbit y j)) →
  (∀ x, g x false = x) →
  (zlen (Elems b) ≤ zlen (Elems a) ∨ g false true = false) →
  ∃ es, update_with f (Elems b) (Nat.min (length (Elems a)) (length (Elems b)))
          (Elems (copied a bits)) = Ret es ∧
    let c := {| Bits := bits; Elems := es |} in
    wf c ∧ ∀ i, 0 ≤ i → i / 64 < zlen (zero_elems bits) → bit c i = g (bit a i) (bit b i).
Proof.
  intros Ha Hb Hbits Hf Hfg Hg0 Hcase.
  pose proof (length_zero_elems_wf a bits Ha Hbits). pose proof (wf_pos _ Ha).
  destruct (update_copy_spec f g a b bits (Nat.min (length (Elems a)) (length (Elems b))))
    as (es & Hes & Hwf & Hbit); try done; try lia.
  { apply Hb. }
  exists es. split; [done|]. split; [done|]. intros i Hi Hlt. rewrite Hbit by done.
  destruct (Z.ltb_spec (i / 64) (Z.of_nat (Nat.min (length (Elems a)) (length (Elems b))))).
  { done. }
  destruct (decide (zlen (Elems b) ≤ i / 64)) as [Hp|Hp].
  { rewrite (bit_past b) by lia. by rewrite Hg0. }
  unfold zlen in *. destruct Hcase as [?|Hc]; [lia|].
  rewrite (bit_past a) by (unfold zlen; lia).
  destruct (bit b i); [by rewrite Hc|by rewrite Hg0].
Qed.

Lemma clean_of_words c :
  wf c → (∀ i, Bits c ≤ i → i / 64 < zlen (zero_elems (Bits c)) → bit c i = false) → clean c.
Proof.
  intros Hwf H i Hi. pose proof (wf_pos _ Hwf).
  destruct (decide (i / 64 < zlen (zero_elems (Bits c)))); [by apply H|].
  apply bit_past; [lia|]. rewrite (wf_len _ Hwf), <-length_zero_elems; lia.
Qed.

Lemma Or_spec a b :
  wf a → wf b → clean a → clean b → Z.max (Bits a) (Bits b) ≤ maxBits → zlen (Elems b) ≤ zlen (Elems a) →
  ∃ c, Or (Some a) (Some b) = Ret (Some c) ∧ wf c ∧ clean c ∧
    Bits c = Z.max (Bits a) (Bits b) ∧
    ∀ i, 0 ≤ i < Bits c → bit c i = bit a i || bit b i.
Proof.
  intros Ha Hb Hca Hcb. set (m := Z.max (Bits a) (Bits b)). intros Hmax Hlen.
  pose proof (wf_pos _ Ha).
  destruct (or_sub_spec Z.lor orb a b m) as (es & Hes & Hwf & Hbit);
    auto with go; [lia|intros; apply Z.lor_spec|apply orb_false_r|].
  unfold Or. fold m. rewrite copyBits_small by lia. simpl in Hes |- *. rewrite Hes. simpl.
  eexists. split; [done|]. split; [done|]. split; [|split; [done|]].
  - apply clean_of_words; [done|]. simpl. intros i Hi Hlt.
    rewrite Hbit, Hca, Hcb by lia. done.
  - simpl. intros i Hi. apply Hbit; [lia|]. rewrite length_zero_elems by lia.
    by apply div64_lt.
Qed.

Lemma Sub_spec a b :
  wf a → wf b → clean b → Bits a ≤ maxBits →
  ∃ c, Sub (Some a) (Some b) = Ret (Some c) ∧ wf c ∧ (clean a → clean c) ∧
    Bits c = Bits a ∧
    ∀ i, 0 ≤ i < Bits c → bit c i = bit a i && negb ((i <? Bits b) && bit b i).
Proof.
  intros Ha Hb Hcb Hmax. pose proof (wf_pos _ Ha).
  destruct (or_sub_spec (λ x y, Z.land x (not64 y)) (λ x y, x && negb y) a b (Bits a))
    as (es & Hes & Hwf & Hbit); auto; try lia.
  { intros x y Hx Hy. apply is_word_land; [done|]. by apply is_word_not64. }
  { intros x y j Hx Hy Hj. by rewrite Z.land_spec, testbit_not64. }
  { intros x. apply andb_true_r. }
  unfold Sub. rewrite copyBits_small by lia. simpl in Hes |- *. rewrite Hes. simpl.
  eexists. split; [done|]. split; [done|]. split; [|split; [done|]].
  - intros Hca. apply clean_of_words; [done|]. simpl. intros i Hi Hlt.
    rewrite Hbit, Hca by lia. done.
  - simpl. intros i Hi. rewrite Hbit by
      (rewrite ?length_zero_elems by lia; try apply div64_lt; lia).
    destruct (Z.ltb_spec i (Bits b)); simpl; [done|]. by rewrite Hcb by lia.
Qed.

Lemma not_spec a :
  wf a → wf (not a) ∧ Bits (not a) = Bits a ∧
    ∀ i, 0 ≤ i < Bits a → bit (not a) i = negb (bit a i).
Proof.
  intros Ha. unfold not. rewrite copy_id. split; [|split; [done|]].
  - apply wf_update; [done|apply length_fmap|]. apply Forall_fmap.
    eapply Forall_impl; [apply Ha|]. intros x. apply is_word_not64.
  - intros i Hi. rewrite !bit_word by lia. simpl.
    pose proof (Z.mod_pos_bound i 64 ltac:(lia)).
    rewrite word_fmap by (by apply wf_word_index).
    apply testbit_not64; [apply word_is_word, Ha|done].
Qed.

(** ** Emptiness and fullness *)

Lemma IsEmpty_words b :
  Forall is_word (Elems b) →
  IsEmpty (Some b) = true ↔ ∀ i, 0 ≤ i → bit b i = false.
Proof.
  intros Hw. simpl. rewrite forallb_forall. split.
  - intros H i Hi. rewrite bit_word by done. unfold word.
    destruct (Elems b !! Z.to_nat (i / 64)) as [e|] eqn:E; simpl; [|apply Z.testbit_0_l].
    assert (negb (0 <? e) = true) as He
      by (apply H, list_elem_of_In, list_elem_of_lookup; eauto).
    apply negb_true_iff, Z.ltb_ge in He.
    assert (is_word e) as [? _] by (eapply Forall_lookup_1; eauto).
    assert (e = 0) as -> by lia. apply Z.testbit_0_l.
  - intros H e [k Hk]%list_elem_of_In%list_elem_of_lookup.
    assert (is_word e) as He by (eapply Forall_lookup_1; eauto).
    assert (e = 0) as ->; [|done]. apply word_ext; [done|auto with go|]. intros j Hj.
    specialize (H (Z.of_nat k * 64 + j) ltac:(lia)).
    destruct (pos_div_mod (Z.of_nat k) j Hj) as [Hd Hm].
    rewrite bit_word, Hd, Hm, Nat2Z.id in H by lia.
    unfold word in H. rewrite Hk in H. by rewrite Z.testbit_0_l.
Qed.

Lemma IsEmpty_spec b :
  wf b → clean b →
  IsEmpty (Some b) = true ↔ ∀ i, 0 ≤ i < Bits b → bit b i = false.
Proof.
  intros Hwf Hc. rewrite IsEmpty_words by apply Hwf. split; intros H i Hi.
  - apply H; lia.
  - destruct (decide (i < Bits b)); [apply H; lia|apply Hc; lia].
Qed.

(** The number of bits used in the last word. *)
Definition lastBits (bA : BitArray) : Z := (Bits bA + 63) mod 64 + 1.

Lemma wf_last bA :
  wf bA → ∃ init l, Elems bA = init ++ [l] ∧ 1 ≤ lastBits bA ≤ 64 ∧
    Bits bA = zlen init * 64 + lastBits bA ∧ is_word l ∧ Forall is_word init.
Proof.
  intros [Hp Hl Hw]. unfold lastBits.
  pose proof (Z.mod_pos_bound (Bits bA + 63) 64 ltac:(lia)).
  pose proof (Z.div_mod (Bits bA + 63) 64 ltac:(lia)) as Hdm.
  destruct (Elems bA) as [|l init _] eqn:E using rev_ind.
  { exfalso. change (zlen (@nil Z)) with 0 in Hl. lia. }
  exists init, l. unfold zlen in *. rewrite length_app in Hl. simpl in Hl.
  apply Forall_app in Hw as [Hi Hw]. inversion Hw; subst.
  split; [done|]. split; [lia|]. split; [lia|done].
Qed.

(** The low [n] bits of a word are all set iff incrementing it clears them. *)
Lemma low_bits_full e n :
  is_word e → 1 ≤ n ≤ 64 →
  (Z.land (wrapu64 (e + 1)) (wrapu64 (shl64 1 n - 1)) =? 0) = true ↔
  ∀ j, 0 ≤ j < n → Z.testbit e j = true.
Proof.
  intros He Hn.
  assert (wrapu64 (shl64 1 n - 1) = Z.ones n) as ->.
  { rewrite Z.ones_equiv. destruct (decide (n = 64)) as [->|]; [done|].
    rewrite shl64_1 by lia. unfold wrapu64. rewrite Z.mod_small; [lia|].
    assert (2 ^ n < 2 ^ 64) by (apply Z.pow_lt_mono_r; lia).
    pose proof (Z.pow_pos_nonneg 2 n ltac:(lia) ltac:(lia)). lia. }
  rewrite Z.land_ones, Z.eqb_eq by lia. unfold wrapu64.
  rewrite <-(Znumtheory.Zmod_div_mod (2 ^ n) (2 ^ 64))
    by (try lia; exists (2 ^ (64 - n)); rewrite <-Z.pow_add_r by lia; f_equal; lia).
  assert (0 < 2 ^ n) as Hpow by (apply Z.pow_pos_nonneg; lia).
  rewrite <-Z.add_mod_idemp_l by lia.
  assert ((e mod 2 ^ n + 1) mod 2 ^ n = 0 ↔ e mod 2 ^ n = Z.ones n) as ->.
  { rewrite Z.ones_equiv. pose proof (Z.mod_pos_bound e (2 ^ n) Hpow) as Hm. split; intros H.
    - destruct (decide (e mod 2 ^ n + 1 = 2 ^ n)); [lia|]. rewrite Z.mod_small in H; lia.
    - rewrite H. replace (Z.pred (2 ^ n) + 1) with (2 ^ n) by lia. apply Z.mod_same. lia. }
  split.
  - intros H j Hj. rewrite <-(Z.mod_pow2_bits_low e n j), H by lia.
    apply Z.ones_spec_low. lia.
  - intros H. apply Z.bits_inj'. intros j Hj. destruct (decide (j < n)).
    + rewrite Z.mod_pow2_bits_low, Z.ones_spec_low by lia. apply H. lia.
    + by rewrite Z.mod_pow2_bits_high, Z.ones_spec_high by lia.
Qed.

Lemma not64_zero e : is_word e → (not64 e =? 0) = true ↔ ∀ j, 0 ≤ j < 64 → Z.testbit e j = true.
Proof.
  intros He. rewrite Z.eqb_eq. split.
  - intros H j Hj. rewrite <-(negb_involutive (Z.testbit e j)), <-testbit_not64, H by done.
    by rewrite Z.testbit_0_l.
  - intros H. apply word_ext; [by apply is_word_not64|auto with go|]. intros j Hj.
    by rewrite testbit_not64, H, Z.testbit_0_l.
Qed.

Lemma bit_init bA init l k j :
  Elems bA = init ++ [l] → (k < length init)%nat → 0 ≤ j < 64 →
  bit bA (Z.of_nat k * 64 + j) = Z.testbit (word init k) j.
Proof.
  intros E Hk Hj. destruct (pos_div_mod (Z.of_nat k) j Hj) as [Hd Hm].
  rewrite bit_word, Hd, Hm, Nat2Z.id, E by lia. unfold word. by rewrite lookup_app_l.
Qed.

Lemma bit_last bA init l j :
  Elems bA = init ++ [l] → 0 ≤ j < 64 → bit bA (zlen init * 64 + j) = Z.testbit l j.
Proof.
  intros E Hj. destruct (pos_div_mod (zlen init) j Hj) as [Hd Hm].
  pose proof (zlen_nonneg init).
  rewrite bit_word, Hd, Hm, E by lia. unfold word, zlen. rewrite Nat2Z.id.
  by rewrite list_lookup_middle.
Qed.

(** A property of all positions, word by word. *)
Lemma forall_positions bA (init : list Z) (P : Z → Prop) :
  Bits bA = zlen init * 64 + lastBits bA → 1 ≤ lastBits bA ≤ 64 →
  (∀ i, 0 ≤ i < Bits bA → P i) ↔
  (∀ k j, (k < length init)%nat → 0 ≤ j < 64 → P (Z.of_nat k * 64 + j)) ∧
  (∀ j, 0 ≤ j < lastBits bA → P (zlen init * 64 + j)).
Proof.
  intros HB Hl. rewrite HB. unfold zlen. split.
  - intros H. split; intros; apply H; lia.
  - intros [H1 H2] i Hi. pose proof (Z.div_mod i 64 ltac:(lia)) as Hdm.
    pose proof (Z.mod_pos_bound i 64 ltac:(lia)).
    destruct (decide (i < Z.of_nat (length init) * 64)) as [Hlt|Hge].
    + replace i with (Z.of_nat (Z.to_nat (i / 64)) * 64 + i mod 64)
        by (rewrite Z2Nat.id; [lia|apply Z.div_pos; lia]).
      apply H1; [|done]. apply Nat2Z.inj_lt. rewrite Z2Nat.id by (apply Z.div_pos; lia).
      apply Z.div_lt_upper_bound; lia.
    + replace i with (Z.of_nat (length init) * 64 + (i - Z.of_nat (length init) * 64)) by lia.
      apply H2. lia.
Qed.

Lemma IsFull_spec b :
  wf b → ∃ r, IsFull (Some b) = Ret r ∧
    (r = true ↔ ∀ i, 0 ≤ i < Bits b → bit b i = true).
Proof.
  intros Hwf. destruct (wf_last b Hwf) as (init & l & E & Hlb & HB & Hl & Hi).
  unfold IsFull. rewrite E, last_snoc. simpl.
  rewrite length_app, Nat.add_sub, take_app_length.
  rewrite Z.rem_mod_nonneg by (pose proof (wf_pos _ Hwf); lia). fold (lastBits b).
  destruct (forallb _ init) eqn:Hf.
  - eexists. split; [done|].
    rewrite low_bits_full, (forall_positions b init) by done. split.
    + intros H. split; [|intros; rewrite (bit_last b init l) by (done || lia); by apply H].
      intros k j Hk Hj. rewrite (bit_init b init l) by done.
      eapply not64_zero; [by apply word_is_word| |done].
      rewrite forallb_forall in Hf. apply Hf, list_elem_of_In, list_elem_of_lookup.
      exists k. by apply word_lookup.
    + intros [_ H] j Hj. rewrite <-(bit_last b init l) by (done || lia). by apply H.
  - exists false. split; [done|]. split; [done|].
    rewrite (forall_positions b init) by done. intros [H _]. exfalso.
    apply not_true_iff_false in Hf. apply Hf, forallb_forall.
    intros e [k Hk]%list_elem_of_In%list_elem_of_lookup.
    apply not64_zero; [eapply Forall_lookup_1; eauto|]. intros j Hj.
    specialize (H k j (lookup_lt_Some _ _ _ Hk) Hj).
    rewrite (bit_init b init l) in H by (done || by eapply lookup_lt_Some).
    unfold word in H. by rewrite Hk in H.
Qed.

(** ** The set positions *)

(** [a, a+1, ..., a+n-1]. *)
Definition zseq (a : Z) (n : nat) : list Z := (λ j : nat, a + Z.of_nat j) <$> seq 0 n.

Lemma zseq_app a n m : zseq a (n + m) = zseq a n ++ zseq (a + Z.of_nat n) m.
Proof.
  unfold zseq. rewrite seq_app, fmap_app. f_equal. simpl.
  apply list_eq. intros k. rewrite !list_lookup_fmap.
  destruct (decide (k < m)%nat).
  - rewrite !lookup_seq_lt by done. simpl. f_equal. lia.
  - rewrite !lookup_seq_ge by lia. done.
Qed.

Arguments zseq : simpl never.

Lemma zseq_S a n : zseq a (S n) = a :: zseq (a + 1) n.
Proof.
  transitivity (zseq a 1 ++ zseq (a + 1) n); [apply (zseq_app a 1 n)|].
  unfold zseq at 1. simpl. f_equal. lia.
Qed.

Lemma elem_of_zseq a n i : i ∈ zseq a n ↔ a ≤ i < a + Z.of_nat n.
Proof.
  unfold zseq. rewrite list_elem_of_fmap. split.
  - intros (j & -> & ?%elem_of_seq). lia.
  - intros H. exists (Z.to_nat (i - a)). rewrite elem_of_seq. lia.
Qed.

(** The positions of [l] at which [p] holds. *)
Definition keep (p : Z → bool) (l : list Z) : list Z := base.filter (λ i, p i = true) l.

Lemma keep_app p l k : keep p (l ++ k) = keep p l ++ keep p k.
Proof. apply filter_app. Qed.

Lemma keep_ext p q l : (∀ i, i ∈ l → p i = q i) → keep p l = keep q l.
Proof.
  unfold keep. induction l as [|x l IH]; intros H; [done|].
  rewrite !filter_cons, H, IH by set_solver. done.
Qed.

Lemma word_indices_keep e cur n :
  is_word e → (n ≤ 64)%nat →
  word_indices e cur n = keep (λ i, Z.testbit e (i - cur)) (zseq cur n).
Proof.
  intros He Hn. unfold word_indices, keep, zseq.
  assert (∀ j, j ∈ seq 0 n → (j < 64)%nat) as Hs by (intros j ?%elem_of_seq; lia).
  revert Hs. generalize (seq 0 n). intros l Hs. induction l as [|j l IH]; [done|].
  assert ((0 <? Z.land e (shl64 1 (Z.of_nat j))) = Z.testbit e (cur + Z.of_nat j - cur)) as Hb.
  { specialize (Hs j ltac:(set_solver)). rewrite shl64_1 by lia.
    rewrite land_pow2_pos by (done || lia). f_equal. lia. }
  csimpl. rewrite !filter_cons. rewrite Hb. case_decide; csimpl; rewrite IH by set_solver; done.
Qed.

Lemma keep_none p l : (∀ i, i ∈ l → p i = false) → keep p l = [].
Proof.
  unfold keep. intros H. induction l as [|x l IH]; [done|]. rewrite filter_cons. rewrite H by set_solver.
  rewrite decide_False by done. apply IH. set_solver.
Qed.

Lemma full_words_spec es cur p :
  Forall is_word es →
  (∀ k j, (k < length es)%nat → 0 ≤ j < 64 →
     p (cur + Z.of_nat k * 64 + j) = Z.testbit (word es k) j) →
  full_words es cur = (keep p (zseq cur (64 * length es)), cur + 64 * zlen es).
Proof.
  revert cur. induction es as [|e es IH]; intros cur Hw Hp.
  { simpl. unfold zlen. simpl. f_equal. lia. }
  inversion Hw as [|? ? He Hes]; subst. cbn [full_words].
  rewrite (IH (cur + 64)); [|done|].
  2: { intros k j Hk Hj. specialize (Hp (S k) j ltac:(simpl; lia) Hj).
       change (word (e :: es) (S k)) with (word es k) in Hp. rewrite <-Hp. f_equal. lia. }
  assert (keep p (zseq cur 64) = if e =? 0 then [] else word_indices e cur 64) as <-.
  { assert (∀ i, i ∈ zseq cur 64 → p i = Z.testbit e (i - cur)) as Hpe.
    { intros i Hi%elem_of_zseq. specialize (Hp 0%nat (i - cur) ltac:(simpl; lia) ltac:(lia)).
      change (word (e :: es) 0) with e in Hp. rewrite <-Hp. f_equal. lia. }
    destruct (Z.eqb_spec e 0) as [->|].
    - apply keep_none. intros i Hi. rewrite Hpe by done. apply Z.testbit_0_l.
    - rewrite word_indices_keep by (done || lia). by apply keep_ext. }
  replace (64 * length (e :: es))%nat with (64 + 64 * length es)%nat by (simpl; lia).
  rewrite zseq_app, keep_app. f_equal. unfold zlen. simpl. lia.
Qed.

Lemma getTrueIndices_spec b :
  wf b → getTrueIndices b = Ret (keep (bit b) (zseq 0 (Z.to_nat (Bits b)))).
Proof.
  intros Hwf. destruct (wf_last b Hwf) as (init & l & E & Hlb & HB & Hl & Hi).
  unfold getTrueIndices. rewrite E, last_snoc. simpl.
  rewrite length_app, Nat.add_sub, take_app_length.
  rewrite (full_words_spec init 0 (bit b)); [|done|].
  2: { intros k j Hk Hj. rewrite Z.add_0_l. by apply (bit_init b init l). }
  cbv beta iota zeta. f_equal. pose proof (zlen_nonneg init).
  rewrite word_indices_keep by (done || lia).
  replace (Z.to_nat (Bits b)) with (64 * length init + Z.to_nat (Bits b - (0 + 64 * zlen init)))%nat
    by (unfold zlen in *; lia).
  rewrite zseq_app, keep_app. f_equal.
  replace (0 + Z.of_nat (64 * length init)) with (0 + 64 * zlen init) by (unfold zlen; lia).
  apply keep_ext. intros i Hin%elem_of_zseq. rewrite <-(bit_last b init l) by (done || lia).
  f_equal. lia.
Qed.

(** ** JSON *)

Definition enc_bit (b : bool) : byte := if b then c_x else c_underscore.

Lemma marshal_bits_spec b n i :
  wf b → 0 ≤ i → i + Z.of_nat n ≤ Bits b →
  marshal_bits b n i = Ret (enc_bit ∘ bit b <$> zseq i n).
Proof.
  intros Hwf. revert i. induction n as [|n IH]; intros i Hi Hn; [done|].
  cbn [marshal_bits]. rewrite zseq_S, getIndex_spec by done.
  rewrite (proj2 (Z.ltb_lt i (Bits b))) by lia. simpl.
  by rewrite IH by lia.
Qed.

Lemma match_group_enc (bs : list bool) :
  match_group ((enc_bit <$> bs) ++ [c_quote]) = Some (enc_bit <$> bs).
Proof.
  induction bs as [|[] bs IH]; [done| |]; csimpl; by rewrite IH.
Qed.

Lemma set_bits_spec (bs : list bool) i c :
  wf c → clean c → 0 ≤ i → i + zlen bs ≤ Bits c →
  ∃ c', set_bits (enc_bit <$> bs) i (Some c) = Ret (Some c') ∧ wf c' ∧ clean c' ∧
    Bits c' = Bits c ∧
    ∀ j, 0 ≤ j → bit c' j = bit c j || (if i <=? j then default false (bs !! Z.to_nat (j - i)) else false).
Proof.
  revert i c. induction bs as [|b bs IH]; intros i c Hwf Hc Hi Hn.
  { exists c. split; [done|]. do 3 (split; [done|]). intros j Hj.
    rewrite lookup_nil. destruct (i <=? j); by rewrite orb_false_r. }
  assert (zlen (b :: bs) = 1 + zlen bs) as Hz by (unfold zlen; simpl; lia).
  pose proof (zlen_nonneg bs).
  assert (∀ j, 0 ≤ j → (if i <=? j then default false ((b :: bs) !! Z.to_nat (j - i)) else false) =
    (if j =? i then b else if i + 1 <=? j then default false (bs !! Z.to_nat (j - (i + 1))) else false)) as Hstep.
  { intros j Hj.
    destruct (Z.leb_spec i j), (Z.eqb_spec j i), (Z.leb_spec (i + 1) j);
      try lia; try done; subst.
    - by replace (Z.to_nat (i - i)) with 0%nat by lia.
    - by replace (Z.to_nat (j - i)) with (S (Z.to_nat (j - (i + 1)))) by lia. }
  destruct b; csimpl.
  - destruct (setIndex_spec c i true Hwf ltac:(lia)) as (c1 & E1 & Hwf1 & HB1 & Hb1).
    rewrite E1. simpl.
    assert (clean c1) as Hc1.
    { intros j Hj. rewrite Hb1 by lia. destruct (Z.eqb_spec j i); [lia|]. apply Hc. lia. }
    destruct (IH (i + 1) c1) as (c' & E' & Hwf' & Hc' & HB' & Hb'); [done|done|lia|lia|].
    exists c'. split; [done|]. do 2 (split; [done|]). split; [congruence|].
    intros j Hj. rewrite Hb', Hb1, Hstep by done.
    destruct (Z.eqb_spec j i); [by rewrite orb_true_r|done].
  - destruct (IH (i + 1) c) as (c' & E' & Hwf' & Hc' & HB' & Hb'); [done|done|lia|lia|].
    exists c'. split; [done|]. do 3 (split; [done|]).
    intros j Hj. rewrite Hb', Hstep by done.
    destruct (Z.eqb_spec j i); [|done]. subst. by rewrite (proj2 (Z.leb_gt (i + 1) i)) by lia.
Qed.

Lemma default_zseq (p : Z → bool) n j :
  0 ≤ j → default false ((p <$> zseq 0 n) !! Z.to_nat (j - 0)) = (j <? Z.of_nat n) && p j.
Proof.
  intros Hj. unfold zseq. rewrite !list_lookup_fmap.
  destruct (Z.ltb_spec j (Z.of_nat n)).
  - rewrite lookup_seq_lt by lia. simpl. f_equal. lia.
  - rewrite lookup_seq_ge by lia. done.
Qed.

(** ** Properties *)

(** Writing a bit of a well-formed array returns [true], keeps the array
    well-formed and of the same size, and afterwards [GetIndex] reads the
    written value at that index and the old value at every other one. *)
Theorem SetIndex_GetIndex bA i v :
  wf bA → 0 ≤ i < Bits bA →
  ∃ bA', SetIndex (Some bA) i v = Ret (Some bA', true) ∧ wf bA' ∧ Bits bA' = Bits bA ∧
    GetIndex (Some bA') i = Ret v ∧
    ∀ j, 0 ≤ j → j ≠ i → GetIndex (Some bA') j = GetIndex (Some bA) j.
Proof.
  intros Hwf Hi. destruct (setIndex_spec bA i v Hwf Hi) as (b & E & Hwf' & HB & Hb).
  exists b. simpl. rewrite E. simpl. split; [done|]. do 2 (split; [done|]). split.
  - rewrite getIndex_spec, Hb, Z.eqb_refl by (done || lia).
    by rewrite (proj2 (Z.ltb_lt i (Bits b))) by lia.
  - intros j Hj Hne. rewrite !getIndex_spec, Hb, HB by done.
    by rewrite (proj2 (Z.eqb_neq j i)).
Qed.

(** Bit-level semantics of the set operations on well-formed arrays that fit in memory, with
    clean padding: [And] intersects over the shorter size, [Sub] removes the
    bits of the second array, [Not] complements every bit, and [Or], when the
    first array has at least as many words, unites over the longer size. *)
Theorem bitwise_operations a b :
  wf a → wf b → clean a → clean b → Bits a ≤ maxBits → Bits b ≤ maxBits →
  (∃ c, And (Some a) (Some b) = Ret (Some c) ∧ wf c ∧ clean c ∧
     Bits c = Z.min (Bits a) (Bits b) ∧
     ∀ i, 0 ≤ i < Bits c → bit c i = bit a i && bit b i) ∧
  (∃ c, Sub (Some a) (Some b) = Ret (Some c) ∧ wf c ∧ clean c ∧ Bits c = Bits a ∧
     ∀ i, 0 ≤ i < Bits c → bit c i = bit a i && negb ((i <? Bits b) && bit b i)) ∧
  (∃ c, Not (Some a) = Some c ∧ wf c ∧ Bits c = Bits a ∧
     ∀ i, 0 ≤ i < Bits c → bit c i = negb (bit a i)) ∧
  (zlen (Elems b) ≤ zlen (Elems a) →
   ∃ c, Or (Some a) (Some b) = Ret (Some c) ∧ wf c ∧ clean c ∧
     Bits c = Z.max (Bits a) (Bits b) ∧
     ∀ i, 0 ≤ i < Bits c → bit c i = bit a i || bit b i).
Proof.
  intros Ha Hb Hca Hcb Hma Hmb. split; [|split; [|split]].
  - destruct (and_spec a b Ha Hb ltac:(lia)) as (c & E & ? & ? & Hcl & ?). exists c.
    simpl. rewrite E. simpl. naive_solver.
  - destruct (Sub_spec a b Ha Hb Hcb Hma) as (c & ? & ? & Hcl & ? & ?). exists c. naive_solver.
  - destruct (not_spec a Ha) as (? & HB & ?). exists (not a). rewrite HB. naive_solver.
  - intros Hlen. apply Or_spec; (done || lia).
Qed.

(** A size near the largest integer panics: the sum in the number of words wraps to a negative one. *)
Theorem huge_size_panics bits : MaxInt64 - 63 < bits ≤ MaxInt64 → NewBitArray bits = Panic.
Proof.
  unfold MaxInt64. intros Hb. unfold NewBitArray. rewrite (proj2 (Z.leb_gt _ _)) by lia. unfold make_elems.
  assert (wrap64 (bits + 63) = bits + 63 - 2 ^ 64) as ->.
  { unfold wrap64. rewrite (Z.mod_eq _ (2 ^ 64)) by lia.
    assert ((bits + 63 + 2 ^ 63) / 2 ^ 64 = 1) as -> by (symmetry; apply Z.div_unique with (bits + 63 + 2 ^ 63 - 2 ^ 64); lia). lia. }
  assert ((bits + 63 - 2 ^ 64) ÷ 64 < 0) as Hq.
  { replace (bits + 63 - 2 ^ 64) with (- (2 ^ 64 - 63 - bits)) by lia. rewrite Z.quot_opp_l by lia.
    rewrite Z.quot_div_nonneg by lia. assert (1 ≤ (2 ^ 64 - 63 - bits) / 64) by (apply Z.div_le_lower_bound; lia). lia. }
  by rewrite (proj2 (Z.ltb_lt _ _) Hq).
Qed.

(** [Or] drops the bits of a longer second array beyond the words of the
    first one: the union of a 64-bit array and a 128-bit array with bit 100 set
    has bit 100 clear, although it has 128 bits. *)
Theorem Or_loses_bits_of_longer_array :
  ∃ a b c, wf a ∧ wf b ∧ clean a ∧ clean b ∧
    Or (Some a) (Some b) = Ret (Some c) ∧ Bits c = 128 ∧
    GetIndex (Some b) 100 = Ret true ∧ GetIndex (Some c) 100 = Ret false.
Proof.
  exists {| Bits := 64; Elems := [0] |}, {| Bits := 128; Elems := [0; 2 ^ 36] |},
    {| Bits := 128; Elems := [0; 0] |}.
  assert (∀ n es, Forall is_word es → n = 64 * zlen es → 0 < n →
    wf {| Bits := n; Elems := es |} ∧ clean {| Bits := n; Elems := es |}) as Hfull.
  { intros n es Hes -> Hp. split; [split; simpl; [done| |done]|].
    - replace (64 * zlen es + 63) with (zlen es * 64 + 63) by lia.
      rewrite Z.div_add_l by lia. change (63 / 64) with 0. lia.
    - intros i Hi. simpl in Hi. apply bit_past; [lia|]. simpl.
      apply Z.div_le_lower_bound; lia. }
  assert (is_word (2 ^ 36)) by (unfold is_word; lia).
  destruct (Hfull 64 [0]) as [? ?]; [auto with go|done|done|].
  destruct (Hfull 128 [0; 2 ^ 36]) as [? ?]; [auto with go|done|done|].
  do 4 (split; [done|]). by vm_compute.
Qed.

(** [getTrueIndices] lists exactly the set positions below [Bits], in
    increasing order; [IsFull] decides whether every bit is set and, for clean
    padding, [IsEmpty] whether none is. *)
Theorem queries_exact b :
  wf b → clean b →
  getTrueIndices b = Ret (keep (bit b) (zseq 0 (Z.to_nat (Bits b)))) ∧
  (∃ r, IsFull (Some b) = Ret r ∧ (r = true ↔ ∀ i, 0 ≤ i < Bits b → bit b i = true)) ∧
  (IsEmpty (Some b) = true ↔ ∀ i, 0 ≤ i < Bits b → bit b i = false).
Proof.
  intros Hwf Hc. split; [by apply getTrueIndices_spec|]. split.
  - by apply IsFull_spec.
  - by apply IsEmpty_spec.
Qed.

(** JSON round trip: unmarshalling the marshalled form of a well-formed
    array with clean padding gives that array back, whatever the receiver held. *)
Theorem json_roundtrip b recv :
  wf b → clean b →
  ∃ bz, MarshalJSON (Some b) = Ret bz ∧ UnmarshalJSON recv bz = Ret (b, None).
Proof.
  intros Hwf Hc. pose proof (wf_pos _ Hwf). simpl.
  rewrite marshal_bits_spec by (done || lia). simpl. eexists. split; [done|].
  unfold UnmarshalJSON. rewrite decide_False by done. simpl.
  rewrite list_fmap_compose.
  rewrite match_group_enc. simpl. set (bs := bit b <$> zseq 0 (Z.to_nat (Bits b))).
  assert (zlen bs = Bits b) as Hlen
    by (unfold zlen, bs, zseq; rewrite !length_fmap, length_seq; lia).
  assert (zlen (enc_bit <$> bs) = Bits b) as -> by (unfold zlen in *; by rewrite length_fmap).
  destruct (NewBitArray_len_spec (Bits b)) as (c & -> & Hwfc & Hcc & HBc & Hbc); [done|].
  destruct (set_bits_spec bs 0 c) as (c' & -> & Hwf' & Hc' & HB' & Hb'); [done|done|lia|lia|].
  simpl. do 2 f_equal. apply bitarray_ext; try done; [congruence|].
  intros i Hi. rewrite Hb', Hbc by lia. rewrite (proj2 (Z.leb_le 0 i)) by lia. simpl.
  unfold bs. rewrite default_zseq by lia. rewrite Z2Nat.id by lia.
  by rewrite (proj2 (Z.ltb_lt i (Bits b))) by lia.
Qed.

(** Unmarshalling the empty bit string (two quotes, accepted by the regular
    expression) panics: the new array of zero bits is nil and is dereferenced. *)
Theorem UnmarshalJSON_empty_panics recv :
  bitArrayJSONRegexp [c_quote; c_quote] = Some [] ∧
  UnmarshalJSON recv [c_quote; c_quote] = Panic.
Proof. done. Qed.

(** [IsEmpty] is not invariant under [Not]: complementing a full array of
    three bits clears all of them, yet [IsEmpty] answers false because the
    padding of the last word has been set. *)
Theorem Not_dirties_padding :
  ∃ a c, wf a ∧ clean a ∧ IsFull (Some a) = Ret true ∧ Not (Some a) = Some c ∧
    (∀ i, 0 ≤ i < Bits c → bit c i = false) ∧ IsEmpty (Some c) = false.
Proof.
  exists {| Bits := 3; Elems := [7] |}, {| Bits := 3; Elems := [not64 7] |}.
  split; [split; simpl; [lia|done|repeat constructor; lia]|].
  split.
  { intros i Hi. simpl in Hi. destruct (decide (i < 64)).
    - rewrite bit_word, Z.div_small, Z.mod_small by lia.
      apply Z.bits_above_log2; [done|]. change (Z.log2 _) with 2. lia.
    - apply bit_past; [lia|]. apply Z.div_le_lower_bound; [lia|].
      change (zlen _) with 1. lia. }
  split; [done|]. split; [done|]. split; [|done].
  intros i Hi. simpl in Hi. assert (i = 0 ∨ i = 1 ∨ i = 2) as [-> | [-> | ->]] by lia; done.
Qed.

(** ** Witnesses *)

Definition sample : BitArray := {| Bits := 70; Elems := [5; 3] |}.

Lemma sample_wf : wf sample.
Proof. split; [done|done|]. repeat constructor; lia. Qed.

Lemma sample_clean : clean sample.
Proof.
  intros i Hi. simpl in Hi. destruct (decide (i < 128)).
  - rewrite bit_word by lia. assert (i / 64 = 1) as ->.
    { symmetry. apply Z.div_unique with (i - 64); lia. }
    simpl. apply Z.bits_above_log2; [done|]. change (Z.log2 _) with 1.
    pose proof (Z.div_mod i 64 ltac:(lia)). assert (i / 64 = 1); [|lia].
    symmetry. apply Z.div_unique with (i - 64); lia.
  - apply bit_past; [lia|]. apply Z.div_le_lower_bound; [lia|].
    change (zlen _) with 2. lia.
Qed.

Lemma SetIndex_GetIndex_witness :
  ∃ bA', SetIndex (Some sample) 69 true = Ret (Some bA', true) ∧ wf bA' ∧
    Bits bA' = Bits sample ∧ GetIndex (Some bA') 69 = Ret true ∧
    ∀ j, 0 ≤ j → j ≠ 69 → GetIndex (Some bA') j = GetIndex (Some sample) j.
Proof. apply (SetIndex_GetIndex sample 69 true); [exact sample_wf|simpl; lia]. Defined.

Lemma bitwise_operations_witness :
  ∃ c, Sub (Some sample) (Some sample) = Ret (Some c) ∧ wf c ∧ clean c ∧
    Bits c = Bits sample ∧
    ∀ i, 0 ≤ i < Bits c → bit c i = bit sample i && negb ((i <? Bits sample) && bit sample i).
Proof.
  apply (bitwise_operations sample sample);
    auto using sample_wf, sample_clean; vm_compute; discriminate.
Defined.

Lemma queries_exact_witness : getTrueIndices sample = Ret [0; 2; 64; 65].
Proof.
  destruct (queries_exact sample) as [-> _]; [exact sample_wf|exact sample_clean|].
  reflexivity.
Defined.

Lemma json_roundtrip_witness :
  ∃ bz, MarshalJSON (Some sample) = Ret bz ∧ UnmarshalJSON sample bz = Ret (sample, None).
Proof. apply (json_roundtrip sample sample); [exact sample_wf|exact sample_clean]. Defined.
