(* ===== verification/Merkle.v ===== *)
(** * crypto/merkle: simple Merkle trees, inclusion proofs and tree paths

    [Sum] stands for tmhash.Sum (SHA-256) and is a parameter of every
    definition. The nodes of a tree are linked by parent and sibling pointers
    that are set after a node has been created, so they live in a heap: a list
    of nodes, a pointer being an index. A nil slice is the empty list, except
    where the code tests for nil. Strings are byte lists. *)

From Stdlib Require Import ZArith Lia List Bool Strings.Byte.
From stdpp Require Import base list sets.
From Equations Require Import Equations.
From S2P Require Import Prelude.
Local Open Scope Z_scope.

(** ** hash.go, simple_tree.go *)

Definition leafPrefix : bytes := [x00].
Definition innerPrefix : bytes := [x01].

(** [k := 1 << (bits.Len(length)-1)], halved when it equals [length]. *)
Definition splitPoint (length : Z) : Z :=
  let bitlen := Z.log2 length + 1 in
  let k := Z.shiftl 1 (bitlen - 1) in
  if k =? length then Z.shiftr k 1 else k.

Definition getSplitPoint (length : Z) : outcome Z :=
  if length <? 1 then Panic else Ret (splitPoint length).

(** The split point of a list of at least two items, where it cannot panic. *)
Definition splitNat (n : nat) : nat := Z.to_nat (splitPoint (Z.of_nat n)).

Lemma splitPoint_bounds n : 2 ≤ n → 0 < splitPoint n < n ∧ n ≤ 2 * splitPoint n.
Proof.
  intros Hn. unfold splitPoint. rewrite Z.shiftl_1_l.
  replace (Z.log2 n + 1 - 1) with (Z.log2 n) by lia.
  pose proof (Z.log2_spec n ltac:(lia)) as [Hlo Hhi].
  assert (1 ≤ Z.log2 n) by (apply Z.log2_le_pow2; lia).
  rewrite Z.pow_succ_r in Hhi by lia.
  destruct (Z.eqb_spec (2 ^ Z.log2 n) n) as [E|E].
  - rewrite Z.shiftr_div_pow2 by lia.
    replace (2 ^ Z.log2 n) with (2 ^ (Z.log2 n - 1) * 2 ^ 1)
      by (rewrite <-Z.pow_add_r by lia; f_equal; lia).
    rewrite Z.div_mul by lia.
    assert (n = 2 * 2 ^ (Z.log2 n - 1)) as Hn2.
    { rewrite <-E at 1. rewrite <-Z.pow_succ_r by lia. f_equal. lia. }
    assert (0 < 2 ^ (Z.log2 n - 1)) by (apply Z.pow_pos_nonneg; lia). lia.
  - assert (0 < 2 ^ Z.log2 n) by (apply Z.pow_pos_nonneg; lia). lia.
Qed.

Lemma splitNat_bounds n : (2 ≤ n)%nat → (0 < splitNat n < n)%nat.
Proof. intros Hn. unfold splitNat. pose proof (splitPoint_bounds (Z.of_nat n)). lia. Qed.

Section WithHash.
Context (Sum : bytes → bytes).

Definition leafHash (leaf : bytes) : bytes := Sum (leafPrefix ++ leaf).
Definition innerHash (left right : bytes) : bytes := Sum (innerPrefix ++ left ++ right).

Equations? SimpleHashFromByteSlices (items : list bytes) : bytes by wf (length items) lt :=
  SimpleHashFromByteSlices [] := [];
  SimpleHashFromByteSlices [x] := leafHash x;
  SimpleHashFromByteSlices (x :: y :: r) :=
    let items := x :: y :: r in
    let k := splitNat (length items) in
    innerHash (SimpleHashFromByteSlices (take k items))
              (SimpleHashFromByteSlices (drop k items)).
Proof.
  - pose proof (splitNat_bounds (S (S (length r)))). change (length items) with (S (S (length r))) in *.
    rewrite length_take. unfold items. simpl length. fold k. lia.
  - pose proof (splitNat_bounds (S (S (length r)))).
    rewrite length_drop. unfold items. simpl length. fold k. unfold k, items. simpl length. lia.
Defined.

(** Extensional equality suffices: the recursion halves the list. *)
Lemma SimpleHash_split items :
  (2 ≤ length items)%nat →
  SimpleHashFromByteSlices items =
    innerHash (SimpleHashFromByteSlices (take (splitNat (length items)) items))
              (SimpleHashFromByteSlices (drop (splitNat (length items)) items)).
Proof.
  intros H. destruct items as [|x [|y r]]; simpl in H; try lia.
  by simp SimpleHashFromByteSlices.
Qed.

(** ** simple_proof.go *)

Record SimpleProof := mkSimpleProof {
  Total : Z;
  Index : Z;
  LeafHash : option bytes;
  Aunts : list bytes
}.

(** A node of the tree under construction; pointers are heap indices. *)
Record SimpleProofNode := mkNode {
  Hash : bytes;
  Parent : option nat;
  Left : option nat;
  Right : option nat
}.

(** [computeHashFromAunts] consumes the aunts from the last one, so the recursion
    is structural on the reversed list. The case [total = 0] is excluded by the
    first test. *)
Fixpoint computeHashFromRevAunts (index total : Z) (leafHash : option bytes)
    (revAunts : list bytes) : option bytes :=
  if (total <=? index) || (index <? 0) || (total <=? 0) then None
  else if total =? 1 then (match revAunts with [] => leafHash | _ => None end)
  else
    match revAunts with
    | [] => None
    | aunt :: rest =>
        let numLeft := splitPoint total in
        if index <? numLeft then
          match computeHashFromRevAunts index numLeft leafHash rest with
          | None => None
          | Some leftHash => Some (innerHash leftHash aunt)
          end
        else
          match computeHashFromRevAunts (index - numLeft) (total - numLeft) leafHash rest with
          | None => None
          | Some rightHash => Some (innerHash aunt rightHash)
          end
    end.

Definition computeHashFromAunts (index total : Z) (leafHash : option bytes)
    (innerHashes : list bytes) : option bytes :=
  computeHashFromRevAunts index total leafHash (reverse innerHashes).

Definition ComputeRootHash (sp : SimpleProof) : option bytes :=
  computeHashFromAunts (Index sp) (Total sp) (LeafHash sp) (Aunts sp).

Inductive verify_error :=
| ErrTotalNegative
| ErrIndexNegative
| ErrLeafHash
| ErrRootHash.

(** [bytes.Equal] does not distinguish nil from the empty slice. *)
Definition Verify (sp : SimpleProof) (rootHash leaf : bytes) : option verify_error :=
  if Total sp <? 0 then Some ErrTotalNegative
  else if Index sp <? 0 then Some ErrIndexNegative
  else if negb (bytes_equal (default [] (LeafHash sp)) (leafHash leaf)) then Some ErrLeafHash
  else if negb (bytes_equal (default [] (ComputeRootHash sp)) rootHash) then Some ErrRootHash
  else None.

(** Sets the links of a node created earlier. *)
Definition setParentRight (h : list SimpleProofNode) (p root sibling : nat) : list SimpleProofNode :=
  alter (λ n, {| Hash := Hash n; Parent := Some root; Left := Left n; Right := Some sibling |}) p h.

Definition setParentLeft (h : list SimpleProofNode) (p root sibling : nat) : list SimpleProofNode :=
  alter (λ n, {| Hash := Hash n; Parent := Some root; Left := Some sibling; Right := Right n |}) p h.

Definition hash_at (h : list SimpleProofNode) (p : nat) : bytes :=
  from_option Hash [] (h !! p).

(** Returns the extended heap, the leaves and the root; both subtrees of a split
    list are non-empty, so both roots exist. *)
Equations? trailsFromByteSlices (items : list bytes) (h : list SimpleProofNode) :
    list SimpleProofNode * list nat * option nat by wf (length items) lt :=
  trailsFromByteSlices [] h := (h, [], None);
  trailsFromByteSlices [x] h :=
    let trail := {| Hash := leafHash x; Parent := None; Left := None; Right := None |} in
    (h ++ [trail], [length h], Some (length h));
  trailsFromByteSlices (x :: y :: r) h :=
    let items := x :: y :: r in
    let k := splitNat (length items) in
    match trailsFromByteSlices (take k items) h with
    | (h1, lefts, Some leftRoot) =>
        match trailsFromByteSlices (drop k items) h1 with
        | (h2, rights, Some rightRoot) =>
            let rootHash := innerHash (hash_at h2 leftRoot) (hash_at h2 rightRoot) in
            let root := length h2 in
            let h3 := h2 ++ [{| Hash := rootHash; Parent := None; Left := None; Right := None |}] in
            let h4 := setParentRight h3 leftRoot root rightRoot in
            let h5 := setParentLeft h4 rightRoot root leftRoot in
            (h5, lefts ++ rights, Some root)
        | (h2, rights, None) => (h2, lefts ++ rights, None)
        end
    | (h1, lefts, None) => (h1, lefts, None)
    end.
Proof.
  - pose proof (splitNat_bounds (S (S (length r)))).
    rewrite length_take. unfold k, items. simpl length. lia.
  - pose proof (splitNat_bounds (S (S (length r)))).
    rewrite length_drop. unfold k, items. simpl length. lia.
Defined.

(** The loop of [FlattenAunts]; each step moves to a node created later, so the
    size of the heap bounds the iterations. *)
Fixpoint flatten_loop (fuel : nat) (h : list SimpleProofNode) (spn : option nat) : list bytes :=
  match fuel with
  | O => []
  | S fuel' =>
      match spn ≫= λ p, h !! p with
      | None => []
      | Some n =>
          match Left n, Right n with
          | Some l, _ => hash_at h l :: flatten_loop fuel' h (Parent n)
          | None, Some r => hash_at h r :: flatten_loop fuel' h (Parent n)
          | None, None => []
          end
      end
  end.

Definition FlattenAunts (h : list SimpleProofNode) (spn : nat) : list bytes :=
  flatten_loop (length h) h (Some spn).

(** [rootSPN.Hash] panics when there is no item. *)
Definition SimpleProofsFromByteSlices (items : list bytes) :
    outcome (bytes * list SimpleProof) :=
  match trailsFromByteSlices items [] with
  | (h, trails, Some root) =>
      Ret (hash_at h root,
           imap (λ i t, {| Total := zlen items; Index := Z.of_nat i;
                           LeafHash := Some (hash_at h t); Aunts := FlattenAunts h t |}) trails)
  | (_, _, None) => Panic
  end.

(** ** simple_tree.go: trees with paths *)

Record SimpleMerkleTree := mkTree {
  tree_Total : Z;
  tree_heap : list SimpleProofNode;
  tree_Root : nat;
  tree_Leaves : list nat
}.

Definition SimpleTreeFromByteSlices (items : list bytes) : option SimpleMerkleTree :=
  match trailsFromByteSlices items [] with
  | (h, trails, Some root) =>
      Some {| tree_Total := zlen items; tree_heap := h; tree_Root := root; tree_Leaves := trails |}
  | (_, _, None) => None
  end.

Definition tree_ComputeRootHash (smt : SimpleMerkleTree) : bytes :=
  hash_at (tree_heap smt) (tree_Root smt).

(** ** Paths: what a proof is made of

    A step of a path is the side on which the node lies and its sibling's hash. *)

Inductive side := OnLeft | OnRight.

Definition climb_step (h : bytes) (s : side * bytes) : bytes :=
  match s.1 with
  | OnLeft => innerHash h s.2
  | OnRight => innerHash s.2 h
  end.

Definition climb (h : bytes) (steps : list (side * bytes)) : bytes := foldl climb_step h steps.

(** [path items i steps]: the siblings from leaf [i] up to the root. *)
Inductive path : list bytes → nat → list (side * bytes) → Prop :=
| path_leaf x : path [x] 0 []
| path_left items i steps :
    (2 ≤ length items)%nat → (i < splitNat (length items))%nat →
    path (take (splitNat (length items)) items) i steps →
    path items i
      (steps ++ [(OnLeft, SimpleHashFromByteSlices (drop (splitNat (length items)) items))])
| path_right items i steps :
    (2 ≤ length items)%nat → (splitNat (length items) ≤ i)%nat →
    path (drop (splitNat (length items)) items) (i - splitNat (length items)) steps →
    path items i
      (steps ++ [(OnRight, SimpleHashFromByteSlices (take (splitNat (length items)) items))]).

(** Induction that follows the splits of the list. *)
Lemma items_ind (P : list bytes → Prop) :
  (∀ x, P [x]) →
  (∀ items, (2 ≤ length items)%nat →
     P (take (splitNat (length items)) items) →
     P (drop (splitNat (length items)) items) → P items) →
  ∀ items, items ≠ [] → P items.
Proof.
  intros H1 H2 items. remember (length items) as n eqn:Hn. revert items Hn.
  induction (lt_wf n) as [n _ IH]. intros items -> Hne.
  destruct (decide (2 ≤ length items)%nat) as [Hl|Hl].
  - pose proof (splitNat_bounds _ Hl).
    apply H2; [done| |]; eapply IH; try reflexivity;
      rewrite ?length_take, ?length_drop; try lia;
      intros E; apply (f_equal length) in E; rewrite ?length_take, ?length_drop in E;
      simpl in E; lia.
  - destruct items as [|x [|]]; simpl in Hl; [done|apply H1|lia].
Qed.

Lemma climb_app h s t : climb h (s ++ t) = climb (climb h s) t.
Proof. apply foldl_app. Qed.

Lemma path_climb items i steps x :
  path items i steps → items !! i = Some x →
  climb (leafHash x) steps = SimpleHashFromByteSlices items.
Proof.
  intros Hp. revert x. induction Hp as [y|items i steps Hl Hi Hp IH|items i steps Hl Hi Hp IH];
    intros x Hx.
  - simpl in Hx. injection Hx as ->. simp SimpleHashFromByteSlices. done.
  - rewrite climb_app, (IH x) by (by rewrite lookup_take_lt). simpl.
    unfold climb, climb_step. simpl. by rewrite (SimpleHash_split items).
  - rewrite climb_app, (IH x).
    + unfold climb, climb_step. simpl. by rewrite (SimpleHash_split items).
    + rewrite lookup_drop. by replace (_ + _)%nat with i by lia.
Qed.

Lemma path_exists items : items ≠ [] → ∀ i, (i < length items)%nat → ∃ steps, path items i steps.
Proof.
  revert items. apply (items_ind (λ items, ∀ i, (i < length items)%nat → ∃ steps, path items i steps)).
  - intros x [|] Hi; simpl in Hi; [|lia]. eexists. constructor.
  - intros items Hl IHl IHr i Hi. pose proof (splitNat_bounds _ Hl).
    rewrite length_take in IHl. rewrite length_drop in IHr.
    destruct (decide (i < splitNat (length items))%nat).
    + destruct (IHl i) as [steps Hs]; [lia|]. eexists. by apply path_left.
    + destruct (IHr (i - splitNat (length items))%nat) as [steps Hs]; [lia|].
      eexists. apply path_right; [done|lia|done].
Qed.

Lemma splitNat_Z n : (2 ≤ n)%nat → splitPoint (Z.of_nat n) = Z.of_nat (splitNat n).
Proof. intros H. unfold splitNat. pose proof (splitPoint_bounds (Z.of_nat n)). lia. Qed.

Lemma path_lt items i steps : path items i steps → (i < length items)%nat.
Proof.
  induction 1 as [y|items i steps Hl Hi Hp IH|items i steps Hl Hi Hp IH];
    rewrite ?length_take, ?length_drop in *; simpl; lia.
Qed.

Lemma path_length items i steps : path items i steps → (length steps < length items)%nat.
Proof.
  induction 1 as [y|items i steps Hl Hi Hp IH|items i steps Hl Hi Hp IH];
    try pose proof (splitNat_bounds _ Hl);
    rewrite ?length_app, ?length_take, ?length_drop in *; simpl; lia.
Qed.

(** [computeHashFromAunts] climbs the path. *)
Lemma compute_path items i steps lh :
  path items i steps →
  computeHashFromRevAunts (Z.of_nat i) (zlen items) (Some lh) (reverse (steps.*2)) =
    Some (climb lh steps).
Proof.
  induction 1 as [y|items i steps Hl Hi Hp IH|items i steps Hl Hi Hp IH].
  - done.
  - pose proof (splitNat_bounds _ Hl).
    rewrite fmap_app, list_fmap_singleton, reverse_snoc. cbn [computeHashFromRevAunts].
    unfold zlen in *.
    rewrite length_take in IH. replace (_ `min` _)%nat with (splitNat (length items)) in IH by lia.
    rewrite splitNat_Z, IH, climb_app by done.
    case_Z; simpl; try lia. done.
  - pose proof (splitNat_bounds _ Hl). pose proof (path_lt _ _ _ Hp) as Hlt.
    rewrite length_drop in Hlt. unfold zlen in *.
    rewrite fmap_app, list_fmap_singleton, reverse_snoc. cbn [computeHashFromRevAunts].
    rewrite length_drop in IH.
    rewrite splitNat_Z by done.
    replace (Z.of_nat i - Z.of_nat (splitNat (length items)))
      with (Z.of_nat (i - splitNat (length items))) by lia.
    replace (Z.of_nat (length items) - Z.of_nat (splitNat (length items)))
      with (Z.of_nat (length items - splitNat (length items))) by lia.
    rewrite IH, climb_app. case_Z; simpl; try lia. done.
Qed.

(** ** The heap built by [trailsFromByteSlices]

    [up h p steps root]: following the parent pointers from [p] reads [steps] and
    ends at [root], a node without siblings. *)
Inductive up (h : list SimpleProofNode) : nat → list (side * bytes) → nat → Prop :=
| up_root p n : h !! p = Some n → Left n = None → Right n = None → up h p [] p
| up_left p n q r steps root :
    h !! p = Some n → Left n = None → Right n = Some r → Parent n = Some q →
    up h q steps root → up h p ((OnLeft, hash_at h r) :: steps) root
| up_right p n q l steps root :
    h !! p = Some n → Left n = Some l → Parent n = Some q →
    up h q steps root → up h p ((OnRight, hash_at h l) :: steps) root.

Definition linked (n : SimpleProofNode) : Prop := Left n ≠ None ∨ Right n ≠ None.

(** [h'] keeps the hashes and the linked nodes of [h]. *)
Record keeps (h h' : list SimpleProofNode) : Prop := {
  keeps_linked p n : h !! p = Some n → linked n → h' !! p = Some n;
  keeps_hash p : (p < length h)%nat → hash_at h' p = hash_at h p
}.

(** Sibling pointers stay inside the heap. *)
Definition closed (h : list SimpleProofNode) : Prop :=
  ∀ p n q, h !! p = Some n → (Left n = Some q ∨ Right n = Some q) → (q < length h)%nat.

Lemma keeps_app h t : keeps h (h ++ t).
Proof.
  split.
  - intros p n Hp _. by apply lookup_app_l_Some.
  - intros p Hp. unfold hash_at. by rewrite lookup_app_l.
Qed.

Lemma keeps_trans h1 h2 h3 :
  (length h1 ≤ length h2)%nat → keeps h1 h2 → keeps h2 h3 → keeps h1 h3.
Proof.
  intros Hl [A1 B1] [A2 B2]. split; [naive_solver|].
  intros p Hp. rewrite B2 by lia. auto.
Qed.

(** Altering an unlinked node without touching its hash. *)
Lemma keeps_alter h p n f :
  h !! p = Some n → ¬ linked n → (∀ m, Hash (f m) = Hash m) → keeps h (alter f p h).
Proof.
  intros Hp Hn Hf. split.
  - intros q m Hq Hm. destruct (decide (q = p)) as [->|]; [naive_solver|].
    by rewrite list_lookup_alter_ne.
  - intros q _. unfold hash_at. destruct (decide (q = p)) as [->|].
    + rewrite list_lookup_alter_eq, Hp. simpl. by rewrite Hf.
    + by rewrite list_lookup_alter_ne.
Qed.

Lemma up_extend h h' p steps r steps' root :
  keeps h h' → closed h → up h p steps r → up h' r steps' root → up h' p (steps ++ steps') root.
Proof.
  intros [Hk Hh] Hc Hup Hr.
  induction Hup as [p n Hp Hl Hr'|p n q s steps r Hp Hl Hr' Hq _ IH|p n q s steps r Hp Hl Hq _ IH].
  - done.
  - simpl. rewrite <-(Hh s) by eauto using Hc.
    eapply up_left; eauto. apply Hk; [done|]. right. congruence.
  - simpl. rewrite <-(Hh s) by eauto using Hc.
    eapply up_right; eauto. apply Hk; [done|]. left. congruence.
Qed.

Lemma flatten_up h p steps root fuel :
  up h p steps root → (length steps < fuel)%nat → flatten_loop fuel h (Some p) = steps.*2.
Proof.
  intros Hup. revert fuel.
  induction Hup as [p n Hp Hl Hr'|p n q s steps r Hp Hl Hr' Hq _ IH|p n q s steps r Hp Hl Hq _ IH];
    intros [|fuel] Hf; simpl in *; try lia; rewrite Hp; simpl; rewrite Hl, ?Hr'; simpl; [done| |];
    rewrite Hq, IH by lia; done.
Qed.

(** What a call of [trailsFromByteSlices] builds: it only appends nodes; the root
    carries the hash of the items; each leaf climbs to the root along its path. *)
Record built (items : list bytes) (h h' : list SimpleProofNode) (leaves : list nat)
    (root : nat) : Prop := {
  built_prefix : ∃ t, h' = h ++ t;
  built_size : (length h' = length h + (2 * length items - 1))%nat;
  built_closed : closed h → closed h';
  built_root : ∃ n, h' !! root = Some n ∧ ¬ linked n ∧ Hash n = SimpleHashFromByteSlices items;
  built_root_new : (length h ≤ root)%nat;
  built_leaves : length leaves = length items;
  built_leaf i x : items !! i = Some x →
    ∃ p steps, leaves !! i = Some p ∧ hash_at h' p = leafHash x ∧ (p < length h')%nat ∧
      path items i steps ∧ (closed h → up h' p steps root)
}.

Lemma not_linked n : ¬ linked n ↔ Left n = None ∧ Right n = None.
Proof. unfold linked. destruct (Left n), (Right n); naive_solver. Qed.

(** The last step: a new root above the roots of the two halves. *)
Lemma join_spec h2 lr rr nl nr :
  h2 !! lr = Some nl → ¬ linked nl → h2 !! rr = Some nr → ¬ linked nr → lr ≠ rr → closed h2 →
  let rt := {| Hash := innerHash (hash_at h2 lr) (hash_at h2 rr);
               Parent := None; Left := None; Right := None |} in
  let h5 := setParentLeft (setParentRight (h2 ++ [rt]) lr (length h2) rr) rr (length h2) lr in
  keeps h2 h5 ∧ closed h5 ∧ h5 !! length h2 = Some rt ∧
  up h5 lr [(OnLeft, Hash nr)] (length h2) ∧ up h5 rr [(OnRight, Hash nl)] (length h2).
Proof.
  intros Hl [Ll Rl]%not_linked Hr [Lr Rr]%not_linked Hne Hc rt h5.
  pose proof (lookup_lt_Some _ _ _ Hl). pose proof (lookup_lt_Some _ _ _ Hr).
  assert (keeps h2 h5) as Hk.
  { apply (keeps_trans _ (h2 ++ [rt])); [rewrite length_app; lia|apply keeps_app|].
    apply (keeps_trans _ (setParentRight (h2 ++ [rt]) lr (length h2) rr)).
    - unfold setParentRight. by rewrite length_alter.
    - apply (keeps_alter _ lr nl); [|by apply not_linked|done]. by apply lookup_app_l_Some.
    - apply (keeps_alter _ rr nr); [|by apply not_linked|done].
      unfold setParentRight. rewrite list_lookup_alter_ne by done. by apply lookup_app_l_Some. }
  assert (h5 !! length h2 = Some rt) as Hrt.
  { unfold h5, setParentLeft, setParentRight.
    rewrite !list_lookup_alter_ne by lia. apply list_lookup_middle. lia. }
  assert (h5 !! lr = Some {| Hash := Hash nl; Parent := Some (length h2); Left := Left nl;
                             Right := Some rr |}) as H5l.
  { unfold h5, setParentLeft, setParentRight. rewrite list_lookup_alter_ne by done.
    rewrite list_lookup_alter_eq, lookup_app_l, Hl by lia. done. }
  assert (h5 !! rr = Some {| Hash := Hash nr; Parent := Some (length h2); Left := Some lr;
                             Right := Right nr |}) as H5r.
  { unfold h5, setParentLeft, setParentRight.
    rewrite list_lookup_alter_eq, list_lookup_alter_ne, lookup_app_l, Hr by (done || lia). done. }
  split_and!; [done| |done| |].
  - assert (length h5 = S (length h2)) as Hlen.
    { unfold h5, setParentLeft, setParentRight. rewrite !length_alter, length_app. simpl. lia. }
    intros p n q Hp Hq. rewrite Hlen.
    destruct (decide (p = rr)) as [->|];
      [rewrite H5r in Hp; injection Hp as <-; simpl in Hq; naive_solver lia|].
    destruct (decide (p = lr)) as [->|];
      [rewrite H5l in Hp; injection Hp as <-; simpl in Hq; naive_solver lia|].
    unfold h5, setParentLeft, setParentRight in Hp.
    rewrite !list_lookup_alter_ne in Hp by done.
    apply lookup_app_Some in Hp as [Hp|[Hge Hp]].
    + specialize (Hc p n q Hp Hq). lia.
    + apply list_lookup_singleton_Some in Hp as [_ <-]. naive_solver.
  - replace (Hash nr) with (hash_at h5 rr) by (unfold hash_at; by rewrite H5r).
    eapply up_left; [exact H5l|done|done|done|]. by eapply up_root.
  - replace (Hash nl) with (hash_at h5 lr) by (unfold hash_at; by rewrite H5l).
    eapply up_right; [exact H5r|done|done|]. by eapply up_root.
Qed.

Lemma built_join items h h1 h2 lefts rights lr rr :
  let k := splitNat (length items) in
  (2 ≤ length items)%nat → closed h →
  built (take k items) h h1 lefts lr → built (drop k items) h1 h2 rights rr →
  let rt := {| Hash := innerHash (hash_at h2 lr) (hash_at h2 rr);
               Parent := None; Left := None; Right := None |} in
  built items h (setParentLeft (setParentRight (h2 ++ [rt]) lr (length h2) rr) rr (length h2) lr)
    (lefts ++ rights) (length h2).
Proof.
  intros k Hl Hc [[t1 P1] S1 C1 (nl & Hnl & Ul & HHl) N1 L1 F1]
                 [[t2 P2] S2 C2 (nr & Hnr & Ur & HHr) N2 L2 F2] rt.
  pose proof (splitNat_bounds _ Hl) as Hk. fold k in Hk.
  rewrite length_take in S1, L1. rewrite length_drop in S2, L2.
  pose proof (lookup_lt_Some _ _ _ Hnl) as Hlr. pose proof (lookup_lt_Some _ _ _ Hnr) as Hrr.
  assert (h2 !! lr = Some nl) as Hnl2 by (rewrite P2; by apply lookup_app_l_Some).
  assert (closed h2) as Hc2 by auto.
  destruct (join_spec h2 lr rr nl nr Hnl2 Ul Hnr Ur ltac:(lia) Hc2)
    as (HK & HC & HR & HUl & HUr); fold rt in HK, HC, HR, HUl, HUr.
  set (h5 := setParentLeft _ _ _ _) in *.
  assert (hash_at h2 lr = Hash nl) as Hhl by (unfold hash_at; by rewrite Hnl2).
  assert (hash_at h2 rr = Hash nr) as Hhr by (unfold hash_at; by rewrite Hnr).
  split.
  - subst h1 h2. rewrite length_app in Hlr. exists (drop (length h) h5).
    rewrite <-(take_drop (length h) h5) at 1. f_equal.
    unfold h5, setParentLeft, setParentRight.
    apply list_eq. intros i. destruct (decide (i < length h)%nat).
    + rewrite lookup_take_lt, !list_lookup_alter_ne by lia.
      rewrite !lookup_app_l; rewrite ?length_app; done || lia.
    + rewrite lookup_take_ge, lookup_ge_None_2 by lia. done.
  - unfold h5, setParentLeft, setParentRight. rewrite !length_alter, length_app. simpl. lia.
  - done.
  - exists rt. split_and!; [done|by apply not_linked|].
    unfold rt. simpl. rewrite Hhl, Hhr, HHl, HHr. by rewrite (SimpleHash_split items).
  - lia.
  - rewrite length_app. lia.
  - intros i x Hx.
    assert (length h5 = S (length h2)) as Hlen5.
    { unfold h5, setParentLeft, setParentRight. rewrite !length_alter, length_app. simpl. lia. }
    destruct (decide (i < k)%nat) as [Hi|Hi].
    + destruct (F1 i x) as (p & steps & Hp & Hh & Hlt & Hpath & Hup);
        [by rewrite lookup_take_lt|].
      exists p, (steps ++ [(OnLeft, SimpleHashFromByteSlices (drop k items))]).
      split_and!; [by apply lookup_app_l_Some| |lia|by apply path_left|].
      * rewrite (keeps_hash _ _ HK) by lia. rewrite <-Hh. unfold hash_at.
        by rewrite P2, lookup_app_l.
      * intros _. rewrite <-HHr. eapply up_extend; [done|done| |exact HUl].
        rewrite P2. rewrite <-(app_nil_r steps).
        eapply (up_extend h1); [apply keeps_app|auto|auto|].
        eapply up_root; [by rewrite lookup_app_l| |]; by apply not_linked in Ul as [??].
    + destruct (F2 (i - k)%nat x) as (p & steps & Hp & Hh & Hlt & Hpath & Hup);
        [rewrite lookup_drop; by replace (k + (i - k))%nat with i by lia|].
      exists p, (steps ++ [(OnRight, SimpleHashFromByteSlices (take k items))]).
      split_and!; [|by rewrite (keeps_hash _ _ HK) by lia|lia|apply path_right; [done|lia|done]|].
      * rewrite lookup_app_r by lia. rewrite <-Hp. f_equal. lia.
      * intros _. rewrite <-HHl. eapply up_extend; [done|done|auto|exact HUr].
Qed.

Lemma trails_spec items : items ≠ [] → ∀ h, closed h →
  ∃ h' leaves root, trailsFromByteSlices items h = (h', leaves, Some root) ∧
    built items h h' leaves root.
Proof.
  revert items. apply (items_ind (λ items, ∀ h, closed h →
    ∃ h' leaves root, trailsFromByteSlices items h = (h', leaves, Some root) ∧
      built items h h' leaves root)).
  - intros x h Hc. simp trailsFromByteSlices. do 3 eexists. split; [reflexivity|].
    set (nd := mkNode _ _ _ _).
    assert ((h ++ [nd]) !! length h = Some nd) as Hlk by (by apply list_lookup_middle).
    split; try (rewrite ?length_app; simpl; lia).
    + by exists [nd].
    + intros _ p n q [Hp|[_ Hp]]%lookup_app_Some Hq; rewrite length_app; simpl.
      * specialize (Hc p n q Hp Hq). lia.
      * apply list_lookup_singleton_Some in Hp as [_ <-]. naive_solver.
    + exists nd. split_and!; [done|by apply not_linked|]. by simp SimpleHashFromByteSlices.
    + intros [|i] y Hi; simplify_eq/=. exists (length h), []. split_and!; [done| | | |].
      * unfold hash_at. by rewrite Hlk.
      * rewrite length_app. simpl. lia.
      * constructor.
      * intros _. by eapply up_root.
  - intros items Hl IHl IHr h Hc.
    set (k := splitNat (length items)) in *.
    pose proof (splitNat_bounds _ Hl) as Hk. fold k in Hk.
    destruct (IHl h Hc) as (h1 & lefts & lr & El & Bl).
    destruct (IHr h1 (built_closed _ _ _ _ _ Bl Hc)) as (h2 & rights & rr & Er & Br).
    assert (trailsFromByteSlices items h =
      let rt := {| Hash := innerHash (hash_at h2 lr) (hash_at h2 rr);
                   Parent := None; Left := None; Right := None |} in
      (setParentLeft (setParentRight (h2 ++ [rt]) lr (length h2) rr) rr (length h2) lr,
       lefts ++ rights, Some (length h2))) as E.
    { destruct items as [|x [|y r]]; simpl in Hl; try lia.
      rewrite trailsFromByteSlices_equation_3. cbv zeta. fold k. rewrite El, Er. done. }
    rewrite E. cbv zeta. do 3 eexists. split; [reflexivity|].
    eapply built_join; eauto.
Qed.

Lemma closed_nil : closed [].
Proof. intros p n q Hp. by rewrite lookup_nil in Hp. Qed.

(** The aunts of a leaf, read from the heap, are the siblings on its path. *)
Lemma trails_leaf items h leaves root i x :
  trailsFromByteSlices items [] = (h, leaves, Some root) → items !! i = Some x →
  ∃ p steps, leaves !! i = Some p ∧ hash_at h p = leafHash x ∧ path items i steps ∧
    up h p steps root ∧ FlattenAunts h p = steps.*2 ∧
    hash_at h root = SimpleHashFromByteSlices items.
Proof.
  intros E Hx. assert (items ≠ []) as Hne by (by intros ->).
  destruct (trails_spec items Hne [] closed_nil) as (h' & ls & rt & E' & B).
  rewrite E in E'. injection E' as <- <- <-.
  destruct (built_leaf _ _ _ _ _ B i x Hx) as (p & steps & Hp & Hh & Hlt & Hpath & Hup).
  specialize (Hup closed_nil). exists p, steps. split_and!; try done.
  - apply (flatten_up h p steps root); [done|].
    pose proof (path_length _ _ _ Hpath). pose proof (built_size _ _ _ _ _ B).
    simpl in *. lia.
  - destruct (built_root _ _ _ _ _ B) as (n & Hn & _ & <-). unfold hash_at. by rewrite Hn.
Qed.

Lemma simple_proofs_ok (items : list bytes) (Hne : items ≠ []) :
  ∃ proofs, SimpleProofsFromByteSlices items = Ret (SimpleHashFromByteSlices items, proofs) ∧
    length proofs = length items ∧
    ∀ i x, items !! i = Some x →
      ∃ sp, proofs !! i = Some sp ∧ Index sp = Z.of_nat i ∧ Total sp = zlen items ∧
        Verify sp (SimpleHashFromByteSlices items) x = None.
Proof.
  destruct (trails_spec items Hne [] closed_nil) as (h & leaves & root & E & B).
  unfold SimpleProofsFromByteSlices. rewrite E. eexists. split_and!.
  - destruct (built_root _ _ _ _ _ B) as (n & Hn & _ & <-). unfold hash_at. rewrite Hn. done.
  - rewrite length_imap. apply (built_leaves _ _ _ _ _ B).
  - intros i x Hx. destruct (trails_leaf _ _ _ _ i x E Hx)
      as (p & steps & Hp & Hh & Hpath & Hup & HF & _).
    exists {| Total := zlen items; Index := Z.of_nat i;
              LeafHash := Some (hash_at h p); Aunts := FlattenAunts h p |}.
    split_and!; [by rewrite list_lookup_imap, Hp|done|done|].
    unfold Verify, ComputeRootHash, computeHashFromAunts. cbn [Total Index LeafHash Aunts default from_option].
    rewrite HF, Hh, (compute_path items i steps) by done. simpl.
    rewrite (path_climb items i steps x) by done.
    pose proof (zlen_nonneg items). case_Z; try lia.
    unfold bytes_equal. by rewrite !bool_decide_eq_true_2 by done.
Qed.

(** Completeness of inclusion proofs: for a non-empty list of items,
    [SimpleProofsFromByteSlices] returns the hash computed directly by
    [SimpleHashFromByteSlices] and one proof per item, in order, each of which
    [Verify]s against that root for its own item. *)
Theorem SimpleProofs_complete (items : list bytes) (Hne : items ≠ []) :
  ∃ proofs, SimpleProofsFromByteSlices items = Ret (SimpleHashFromByteSlices items, proofs) ∧
    length proofs = length items ∧
    ∀ i x, items !! i = Some x →
      ∃ sp, proofs !! i = Some sp ∧ Index sp = Z.of_nat i ∧ Total sp = zlen items ∧
        Verify sp (SimpleHashFromByteSlices items) x = None.
Proof. by apply simple_proofs_ok. Qed.

(** ** Soundness: what a proof that verifies shows

    The hash inputs of the tree and of a proof, as executable lists: soundness
    is relative to [Sum] having no collision between the two. *)
Equations? tree_inputs (items : list bytes) : list bytes by wf (length items) lt :=
  tree_inputs [] := [];
  tree_inputs [x] := [leafPrefix ++ x];
  tree_inputs (x :: y :: r) :=
    let items := x :: y :: r in
    let k := splitNat (length items) in
    (innerPrefix ++ SimpleHashFromByteSlices (take k items) ++ SimpleHashFromByteSlices (drop k items))
      :: tree_inputs (take k items) ++ tree_inputs (drop k items).
Proof.
  - pose proof (splitNat_bounds (S (S (length r)))).
    rewrite length_take. unfold k, items. simpl length. lia.
  - pose proof (splitNat_bounds (S (S (length r)))).
    rewrite length_drop. unfold k, items. simpl length. lia.
Defined.

Lemma tree_inputs_split items :
  (2 ≤ length items)%nat →
  let k := splitNat (length items) in
  tree_inputs items =
    (innerPrefix ++ SimpleHashFromByteSlices (take k items) ++ SimpleHashFromByteSlices (drop k items))
      :: tree_inputs (take k items) ++ tree_inputs (drop k items).
Proof.
  intros H. destruct items as [|x [|y r]]; simpl in H; try lia.
  by simp tree_inputs.
Qed.

(** The steps a proof prescribes, from the root's side down. *)
Fixpoint proof_steps (index total : Z) (revAunts : list bytes) : option (list (side * bytes)) :=
  if (total <=? index) || (index <? 0) || (total <=? 0) then None
  else if total =? 1 then (match revAunts with [] => Some [] | _ => None end)
  else
    match revAunts with
    | [] => None
    | aunt :: rest =>
        let numLeft := splitPoint total in
        if index <? numLeft then
          (λ s, s ++ [(OnLeft, aunt)]) <$> proof_steps index numLeft rest
        else
          (λ s, s ++ [(OnRight, aunt)]) <$> proof_steps (index - numLeft) (total - numLeft) rest
    end.

Definition step_input (h : bytes) (s : side * bytes) : bytes :=
  innerPrefix ++ match s.1 with OnLeft => h ++ s.2 | OnRight => s.2 ++ h end.

Fixpoint climb_inputs (h : bytes) (steps : list (side * bytes)) : list bytes :=
  match steps with
  | [] => []
  | s :: r => step_input h s :: climb_inputs (climb_step h s) r
  end.

Definition proof_inputs (sp : SimpleProof) (leaf : bytes) : list bytes :=
  (leafPrefix ++ leaf) ::
  match proof_steps (Index sp) (Total sp) (reverse (Aunts sp)) with
  | Some steps => climb_inputs (leafHash leaf) steps
  | None => []
  end.

Definition no_collision (l k : list bytes) : bool :=
  forallb (λ a, forallb (λ b, negb (bytes_equal (Sum a) (Sum b)) || bytes_equal a b) k) l.

Lemma no_collision_spec l k a b :
  no_collision l k = true → a ∈ l → b ∈ k → Sum a = Sum b → a = b.
Proof.
  unfold no_collision. rewrite forallb_forall. intros H Ha Hb E.
  specialize (H a (proj1 (list_elem_of_In _ _) Ha)). rewrite forallb_forall in H.
  specialize (H b (proj1 (list_elem_of_In _ _) Hb)).
  apply orb_prop in H as [H|H]; [|by apply bytes_equal_true in H].
  apply negb_true_iff, bytes_equal_false in H. done.
Qed.

Lemma no_collision_sub l k l' k' :
  no_collision l k = true → l' ⊆ l → k' ⊆ k → no_collision l' k' = true.
Proof.
  unfold no_collision. rewrite !forallb_forall. intros H Hl Hk a Ha.
  specialize (H a (proj1 (list_elem_of_In _ _) (Hl _ (proj2 (list_elem_of_In _ _) Ha)))).
  rewrite forallb_forall in H |- *. intros b Hb.
  apply H, list_elem_of_In, Hk, list_elem_of_In, Hb.
Qed.

Lemma compute_proof_steps index total lh revAunts :
  computeHashFromRevAunts index total (Some lh) revAunts =
    (climb lh) <$> proof_steps index total revAunts.
Proof.
  revert index total. induction revAunts as [|aunt rest IH]; intros index total; simpl.
  - destruct (_ || _); [done|]. by destruct (total =? 1).
  - destruct (_ || _); [done|]. destruct (total =? 1); [done|].
    destruct (index <? splitPoint total); rewrite IH;
      destruct (proof_steps _ _ rest); csimpl; by rewrite ?climb_app.
Qed.

Lemma climb_step_input h s : climb_step h s = Sum (step_input h s).
Proof. unfold climb_step, step_input. by destruct (s.1). Qed.

Lemma climb_inputs_snoc h steps s :
  climb_inputs h (steps ++ [s]) = climb_inputs h steps ++ [step_input (climb h steps) s].
Proof. revert h. induction steps as [|t steps IH]; intros h; [done|]. simpl. by rewrite IH. Qed.

Context (Sum_length : ∀ x, length (Sum x) = 32%nat).

Lemma SimpleHash_length items :
  items ≠ [] → length (SimpleHashFromByteSlices items) = 32%nat.
Proof.
  intros H. destruct items as [|x [|y r]]; [done| |].
  - simp SimpleHashFromByteSlices. apply Sum_length.
  - rewrite SimpleHash_split by (simpl; lia). apply Sum_length.
Qed.

Lemma climb_length h steps : length h = 32%nat → length (climb h steps) = 32%nat.
Proof.
  intros H. induction steps as [|s steps IH] using rev_ind; [done|].
  rewrite climb_app. cbn. rewrite climb_step_input. apply Sum_length.
Qed.

(** Both sides of an inner node are determined by its input. *)
Lemma step_input_inj h s l r :
  length h = 32%nat → length l = 32%nat → length r = 32%nat →
  step_input h s = innerPrefix ++ l ++ r →
  match s.1 with OnLeft => h = l ∧ s.2 = r | OnRight => s.2 = l ∧ h = r end.
Proof.
  unfold step_input. intros Hh Hl Hr [= E]. destruct s as [[|] a]; simpl in *.
  - apply app_inj_1 in E; [naive_solver|lia].
  - apply app_inj_2 in E; [naive_solver|lia].
Qed.

Lemma split_nonempty (items : list bytes) :
  (2 ≤ length items)%nat →
  take (splitNat (length items)) items ≠ [] ∧ drop (splitNat (length items)) items ≠ [].
Proof.
  intros Hl. pose proof (splitNat_bounds _ Hl).
  split; intros E%(f_equal length); rewrite ?length_take, ?length_drop in E; simpl in E; lia.
Qed.

(** The root determines the items, whatever their number. *)
Lemma SimpleHash_inj items : items ≠ [] → ∀ items',
  no_collision (tree_inputs items) (tree_inputs items') = true →
  SimpleHashFromByteSlices items = SimpleHashFromByteSlices items' → items = items'.
Proof.
  revert items. apply (items_ind (λ items, ∀ items',
    no_collision (tree_inputs items) (tree_inputs items') = true →
    SimpleHashFromByteSlices items = SimpleHashFromByteSlices items' → items = items')).
  - intros x items' Hnc E. destruct items' as [|y [|z r]].
    + pose proof (SimpleHash_length [x] ltac:(done)). by rewrite E in *.
    + simp SimpleHashFromByteSlices in E. simp tree_inputs in Hnc.
      assert (leafPrefix ++ x = leafPrefix ++ y) as [= ->]; [|done].
      eapply no_collision_spec; [done|set_solver|set_solver|done].
    + set (items' := y :: z :: r) in *. assert (2 ≤ length items')%nat as Hl by (simpl; lia).
      rewrite (SimpleHash_split items' Hl) in E. rewrite (tree_inputs_split items' Hl) in Hnc.
      simp SimpleHashFromByteSlices in E. simp tree_inputs in Hnc. unfold leafHash, innerHash in E.
      eapply no_collision_spec in E; [|exact Hnc|set_solver|set_solver]. done.
  - intros items Hl IH1 IH2 items' Hnc E. destruct (split_nonempty items Hl) as [Hn1 Hn2].
    destruct items' as [|y [|z r]].
    + pose proof (SimpleHash_length items ltac:(by destruct items; simpl in *; [lia|])). by rewrite E in *.
    + rewrite (SimpleHash_split items Hl) in E. rewrite (tree_inputs_split items Hl) in Hnc.
      simp SimpleHashFromByteSlices in E. simp tree_inputs in Hnc. unfold leafHash, innerHash in E.
      eapply no_collision_spec in E; [|exact Hnc|set_solver|set_solver]. done.
    + set (items' := y :: z :: r) in *. assert (2 ≤ length items')%nat as Hl' by (simpl; lia).
      destruct (split_nonempty items' Hl') as [Hn1' Hn2'].
      rewrite (SimpleHash_split items Hl), (SimpleHash_split items' Hl') in E.
      rewrite (tree_inputs_split items Hl), (tree_inputs_split items' Hl') in Hnc. unfold innerHash in E.
      eapply no_collision_spec in E; [|exact Hnc|set_solver|set_solver].
      injection E as E. apply app_inj_1 in E as [E1 E2]; [|by rewrite !SimpleHash_length].
      rewrite <-(take_drop (splitNat (length items)) items), <-(take_drop (splitNat (length items')) items').
      f_equal; [apply IH1|apply IH2]; try done; (eapply no_collision_sub; [exact Hnc| |]); set_solver.
Qed.

(** A climb that reaches the root of [items] follows one of its paths. *)
Lemma climb_sound items : items ≠ [] → ∀ leaf steps,
  no_collision (tree_inputs items) ((leafPrefix ++ leaf) :: climb_inputs (leafHash leaf) steps) = true →
  climb (leafHash leaf) steps = SimpleHashFromByteSlices items →
  ∃ i, items !! i = Some leaf ∧ path items i steps.
Proof.
  revert items. apply (items_ind (λ items, ∀ leaf steps,
    no_collision (tree_inputs items) ((leafPrefix ++ leaf) :: climb_inputs (leafHash leaf) steps) = true →
    climb (leafHash leaf) steps = SimpleHashFromByteSlices items →
    ∃ i, items !! i = Some leaf ∧ path items i steps)).
  - intros x leaf steps Hnc E. simp SimpleHashFromByteSlices in E.
    simp tree_inputs in Hnc. exists 0%nat.
    destruct steps as [|s steps _] using rev_ind.
    + assert (leafPrefix ++ x = leafPrefix ++ leaf) as [= ->]
        by (eapply no_collision_spec; [done|set_solver|set_solver|done]).
      split; [done|constructor].
    + rewrite climb_app in E. cbn in E. rewrite climb_step_input in E.
      enough (leafPrefix ++ x = step_input (climb (leafHash leaf) steps) s) as [=].
      eapply no_collision_spec; [done|set_solver| |done].
      rewrite climb_inputs_snoc. set_solver.
  - intros items Hl IHl IHr leaf steps Hnc E.
    destruct (split_nonempty _ Hl) as [Nl Nr].
    rewrite (tree_inputs_split items Hl) in Hnc. rewrite (SimpleHash_split items Hl) in E.
    set (k := splitNat (length items)) in *.
    destruct steps as [|s steps _] using rev_ind.
    + enough (innerPrefix ++ SimpleHashFromByteSlices (take k items)
        ++ SimpleHashFromByteSlices (drop k items) = leafPrefix ++ leaf) as [=].
      eapply no_collision_spec; [done|set_solver|set_solver|done].
    + rewrite climb_app in E. cbn in E. rewrite climb_step_input in E.
      rewrite climb_inputs_snoc in Hnc.
      assert (step_input (climb (leafHash leaf) steps) s =
        innerPrefix ++ SimpleHashFromByteSlices (take k items)
        ++ SimpleHashFromByteSlices (drop k items)) as Ei.
      { symmetry. eapply no_collision_spec; [done|set_solver|set_solver|done]. }
      apply step_input_inj in Ei;
        [|apply climb_length, Sum_length|by apply SimpleHash_length..].
      assert (∀ side', side' ∈ [take k items; drop k items] →
        no_collision (tree_inputs side')
          ((leafPrefix ++ leaf) :: climb_inputs (leafHash leaf) steps) = true) as Hsub.
      { intros d Hd. eapply no_collision_sub; [exact Hnc| |]; set_solver. }
      destruct s as [[|] a]; simpl in Ei; destruct Ei as [E1 E2].
      * destruct (IHl leaf steps (Hsub (take k items) ltac:(set_solver)) E1) as (i & Hi & Hp).
        exists i. assert (i < k)%nat by (apply lookup_lt_Some in Hi; rewrite length_take in Hi; lia).
        rewrite lookup_take_lt in Hi by done. split; [done|]. subst a. by apply path_left.
      * destruct (IHr leaf steps (Hsub (drop k items) ltac:(set_solver)) E2) as (i & Hi & Hp).
        exists (k + i)%nat. rewrite lookup_drop in Hi. split; [done|]. subst a.
        apply path_right; [done|lia|]. by replace (k + i - splitNat (length items))%nat with i by lia.
Qed.

(** When the claimed total is the real one, the sides of the steps fix the index. *)
Lemma proof_steps_path items i steps index revAunts :
  path items i steps → proof_steps index (zlen items) revAunts = Some steps →
  index = Z.of_nat i.
Proof.
  intros Hp. revert index revAunts.
  induction Hp as [y|items i steps Hl Hi Hp IH|items i steps Hl Hi Hp IH]; intros index ras Hs.
  - change (zlen [y]) with 1 in Hs. destruct ras; simpl in Hs; case_Z; simpl in Hs; try done; lia.
  - pose proof (splitNat_bounds _ Hl). unfold zlen in *.
    destruct ras as [|a ras]; cbn [proof_steps] in Hs;
      rewrite ?splitNat_Z in Hs by done;
      case_Z; simpl in Hs; try done; try lia;
      apply fmap_Some in Hs as (s & Hs & E); apply app_inj_tail in E as [<- E]; [|done].
    apply (IH index ras). rewrite length_take.
    by replace (_ `min` _)%nat with (splitNat (length items)) by lia.
  - pose proof (splitNat_bounds _ Hl). unfold zlen in *.
    destruct ras as [|a ras]; cbn [proof_steps] in Hs;
      rewrite ?splitNat_Z in Hs by done;
      case_Z; simpl in Hs; try done; try lia;
      apply fmap_Some in Hs as (s & Hs & E); apply app_inj_tail in E as [<- E]; [done|].
    enough (index - Z.of_nat (splitNat (length items)) = Z.of_nat (i - splitNat (length items)))
      by lia.
    apply (IH _ ras). rewrite length_drop, <-Hs. f_equal. lia.
Qed.

Lemma verify_ok (items : list bytes) (sp : SimpleProof) (leaf : bytes) :
  items ≠ [] →
  no_collision (tree_inputs items) (proof_inputs sp leaf) = true →
  Verify sp (SimpleHashFromByteSlices items) leaf = None →
  leaf ∈ items ∧ (Total sp = zlen items → slice_lookup items (Index sp) = Some leaf).
Proof.
  intros Hne Hnc HV. unfold Verify in HV.
  destruct (Total sp <? 0); [done|]. destruct (Index sp <? 0); [done|].
  destruct (bytes_equal _ (leafHash leaf)) eqn:EL; [simpl in HV|done].
  destruct (bytes_equal _ (SimpleHashFromByteSlices items)) eqn:ER; [|done].
  apply bytes_equal_true in EL, ER. unfold ComputeRootHash, computeHashFromAunts in ER.
  assert (LeafHash sp = Some (leafHash leaf)) as EL'.
  { destruct (LeafHash sp); simpl in EL; [by rewrite EL|].
    pose proof (Sum_length (leafPrefix ++ leaf)). unfold leafHash in EL. by rewrite <-EL in *. }
  unfold proof_inputs in Hnc. rewrite EL', compute_proof_steps in ER.
  destruct (proof_steps _ _ _) as [steps|] eqn:Es; simpl in ER.
  - destruct (climb_sound items Hne leaf steps Hnc ER) as (i & Hi & Hp).
    split; [by eapply list_elem_of_lookup_2|]. intros HT. rewrite HT in Es.
    rewrite (proof_steps_path _ _ _ _ _ Hp Es). by rewrite slice_lookup_nat.
  - pose proof (SimpleHash_length items Hne). by rewrite <-ER in *.
Qed.

(** C30. Soundness of inclusion proofs: a proof that [Verify]s a leaf against the
    root of [items] shows that the leaf is one of the items and, when its total
    is the number of items, that it is the item at the proof's index; provided
    the hash has 32 bytes and no collision between the inputs hashed for the tree
    and those hashed for the proof. *)
Theorem Verify_sound (items : list bytes) (sp : SimpleProof) (leaf : bytes) :
  items ≠ [] →
  no_collision (tree_inputs items) (proof_inputs sp leaf) = true →
  Verify sp (SimpleHashFromByteSlices items) leaf = None →
  leaf ∈ items ∧ (Total sp = zlen items → slice_lookup items (Index sp) = Some leaf).
Proof. apply verify_ok. Qed.

End WithHash.

(** *** Witnesses: a concrete hash of 32 bytes *)

Definition pad32 (x : bytes) : bytes :=
  take 32 (map byte_of_Z [foldl (λ a b, (a * 31 + byte_Z b + 7) mod 256) 17 x; zlen x] ++ x
           ++ replicate 32 x00).

Lemma pad32_length x : length (pad32 x) = 32%nat.
Proof.
  unfold pad32. rewrite length_take, !length_app, length_replicate. apply Nat.min_l. lia.
Qed.

Definition sample_items : list bytes := [[x61]; [x62; x63]; [x64]].

Definition sample_proof : SimpleProof :=
  match SimpleProofsFromByteSlices pad32 sample_items with
  | Ret (_, [_; sp; _]) => sp
  | _ => mkSimpleProof 0 0 None []
  end.

Lemma SimpleProofs_complete_witness :
  ∃ proofs, SimpleProofsFromByteSlices pad32 sample_items =
    Ret (SimpleHashFromByteSlices pad32 sample_items, proofs) ∧ length proofs = 3%nat.
Proof.
  destruct (SimpleProofs_complete pad32 sample_items ltac:(done)) as (proofs & E & L & _).
  exists proofs. split; [exact E|exact L].
Defined.

Lemma Verify_sound_witness :
  Total sample_proof = 3 ∧ Index sample_proof = 1 ∧
  slice_lookup sample_items (Index sample_proof) = Some [x62; x63].
Proof.
  split_and!; [vm_compute; reflexivity..|].
  apply (Verify_sound pad32 pad32_length sample_items sample_proof [x62; x63]);
    [done|vm_compute; reflexivity..].
Defined.
