(* ===== verification/KeyPath.v ===== *)
(** * crypto/merkle/proof_key_path.go: key paths, and the tree paths of a Merkle tree

    Go strings are byte lists. The parts of the standard library the file uses
    ([encoding/hex], [strings.Split], [strings.Join], [url.PathEscape],
    [url.PathUnescape]) are written out. The tree paths of simple_tree.go
    ([getPathByHash], [GetPathByValue], [GetPathByIndex]) are key paths whose
    first part is the string of directions; [VerifyTreePath] checks them. *)

From Stdlib Require Import ZArith Lia List Bool Strings.Byte.
From stdpp Require Import base list gmap sets.
From S2P Require Import Prelude Merkle.
Local Open Scope Z_scope.

(** ** encoding/hex *)

Definition hex_digit (upper : bool) (n : Z) : byte :=
  byte_of_Z (if n <? 10 then 48 + n else (if upper then 55 else 87) + n).

(** [fmt.Sprintf("%X", bz)] and [fmt.Sprintf("%x", bz)]. *)
Definition hex_byte (upper : bool) (b : byte) : bytes :=
  [hex_digit upper (byte_Z b / 16); hex_digit upper (byte_Z b mod 16)].

Definition hex_encode (upper : bool) (bz : bytes) : bytes := bz ≫= hex_byte upper.

Definition fromHexChar (c : byte) : option Z :=
  let n := byte_Z c in
  if (48 <=? n) && (n <=? 57) then Some (n - 48)
  else if (97 <=? n) && (n <=? 102) then Some (n - 87)
  else if (65 <=? n) && (n <=? 70) then Some (n - 55)
  else None.

(** [hex.DecodeString]; an odd length or a foreign character is an error. *)
Fixpoint hex_decode (s : bytes) : option bytes :=
  match s with
  | [] => Some []
  | [_] => None
  | a :: b :: r =>
      hi ← fromHexChar a; lo ← fromHexChar b; rest ← hex_decode r;
      Some (byte_of_Z (hi * 16 + lo) :: rest)
  end.

(** ** strings.Split and strings.Join with the separator '/' *)

Definition slash : byte := x2f.

Fixpoint split_slash (s : bytes) : list bytes :=
  match s with
  | [] => [[]]
  | c :: r =>
      if bool_decide (c = slash) then [] :: split_slash r
      else match split_slash r with
           | [] => [[c]]
           | p :: ps => (c :: p) :: ps
           end
  end.

Fixpoint join_slash (parts : list bytes) : bytes :=
  match parts with
  | [] => []
  | [p] => p
  | p :: ps => p ++ slash :: join_slash ps
  end.

(** ** url.PathEscape and url.PathUnescape *)

(** [shouldEscape(c, encodePathSegment)]. *)
Definition shouldEscape (c : byte) : bool :=
  let n := byte_Z c in
  if ((97 <=? n) && (n <=? 122)) || ((65 <=? n) && (n <=? 90)) || ((48 <=? n) && (n <=? 57))
  then false
  else if bool_decide (c ∈ [x2d; x5f; x2e; x7e]) then false
  else if bool_decide (c ∈ [x24; x26; x2b; x2c; x2f; x3a; x3b; x3d; x3f; x40])
  then bool_decide (c ∈ [x2f; x3b; x2c; x3f])
  else true.

Definition percent : byte := x25.

Definition escape_byte (c : byte) : bytes :=
  if shouldEscape c then percent :: hex_byte true c else [c].

Definition PathEscape (s : bytes) : bytes := s ≫= escape_byte.

Fixpoint PathUnescape (s : bytes) : option bytes :=
  match s with
  | [] => Some []
  | c :: r =>
      if bool_decide (c = percent) then
        match r with
        | a :: b :: r' =>
            hi ← fromHexChar a; lo ← fromHexChar b; rest ← PathUnescape r';
            Some (byte_of_Z (hi * 16 + lo) :: rest)
        | _ => None
        end
      else (cons c) <$> PathUnescape r
  end.

(** ** Key paths *)

Inductive keyEncoding := KeyEncodingURL | KeyEncodingHex | KeyEncodingMax.

Definition PathLeft : byte := x00.
Definition PathRight : byte := x01.

Record Key := mkKey { name : bytes; enc : keyEncoding }.

Definition KeyPath := list Key.

Definition AppendKey (pth : KeyPath) (key : bytes) (enc : keyEncoding) : KeyPath :=
  pth ++ [mkKey key enc].

Definition hexPrefix : bytes := [x78; x3a].  (* "x:" *)

(** One iteration of [String]; an unknown encoding panics. *)
Definition key_string (res : bytes) (key : Key) : outcome bytes :=
  match enc key with
  | KeyEncodingURL => Ret (res ++ slash :: PathEscape (name key))
  | KeyEncodingHex => Ret (res ++ slash :: hexPrefix ++ hex_encode true (name key))
  | KeyEncodingMax => Panic
  end.

Definition KeyPath_String (pth : KeyPath) : outcome bytes := foldM key_string [] pth.

Definition HasPrefix (s p : bytes) : bool := bytes_equal (take (length p) s) p.

Definition decode_part (part : bytes) : option bytes :=
  if HasPrefix part hexPrefix then hex_decode (drop 2 part) else PathUnescape part.

(** [None] stands for the error result. *)
Definition KeyPathToKeys (path : bytes) : option (list bytes) :=
  match path with
  | [] => None
  | c :: r => if bool_decide (c = slash) then mapM decode_part (split_slash r) else None
  end.

Section WithHash.
Context (Sum : bytes → bytes).
Local Notation leafHash := (leafHash Sum).
Local Notation innerHash := (innerHash Sum).
Local Notation climb := (climb Sum).

(** ** simple_tree.go: the tree path of a leaf *)

Definition is_leaf (h : list SimpleProofNode) (item : bytes) (leaf : nat) : bool :=
  bytes_equal item (hash_at h leaf).

(** The loop from the leaf up to the root. A nil node panics at [node.Left]. The
    heap's size bounds the number of iterations. *)
Fixpoint path_loop (fuel : nat) (h : list SimpleProofNode) (root : nat) (node : option nat)
    (res : KeyPath) (directs : bytes) : outcome (KeyPath * bytes) :=
  if bool_decide (node = Some root) then Ret (res, directs)
  else
    match fuel with
    | O => Panic
    | S fuel' =>
        n ← or_panic (node ≫= λ p, h !! p);
        match Left n, Right n with
        | Some l, _ =>
            path_loop fuel' h root (Parent n)
              (AppendKey res (hash_at h l) KeyEncodingHex) (directs ++ [PathRight])
        | None, Some r =>
            path_loop fuel' h root (Parent n)
              (AppendKey res (hash_at h r) KeyEncodingHex) (directs ++ [PathLeft])
        | None, None => path_loop fuel' h root (Parent n) res directs
        end
    end.

Definition getPathByHash (smt : SimpleMerkleTree) (item : bytes) : outcome bytes :=
  let h := tree_heap smt in
  let node := snd <$> list_find (λ l, is_leaf h item l = true) (tree_Leaves smt) in
  '(res, directs) ← path_loop (length h) h (tree_Root smt) node [] [];
  s ← KeyPath_String res;
  Ret ((slash :: hex_encode false directs) ++ s).

Definition GetPathByValue (smt : SimpleMerkleTree) (tx : bytes) : outcome bytes :=
  match tx with
  | [] => Ret []
  | _ => getPathByHash smt (leafHash tx)
  end.

Definition GetPathByIndex (smt : SimpleMerkleTree) (ith : Z) : outcome bytes :=
  let ith := ith - 1 in
  if (ith <? 0) || (tree_Total smt <? ith) then Ret []
  else
    node ← slice_get (tree_Leaves smt) ith;
    getPathByHash smt (hash_at (tree_heap smt) node).

(** The loop of [VerifyTreePath]; a direction other than the two known ones leaves
    the hash unchanged. *)
Fixpoint verify_loop (directs : bytes) (keys : list bytes) (hashVal : bytes) : bytes :=
  match directs, keys with
  | d :: directs', key :: keys' =>
      verify_loop directs' keys'
        (if bool_decide (d = PathLeft) then innerHash hashVal key
         else if bool_decide (d = PathRight) then innerHash key hashVal
         else hashVal)
  | _, _ => hashVal
  end.

(** The directions and keys that [VerifyTreePath] reads from a path. *)
Definition parse_tree_path (path : bytes) : option (bytes * list bytes) :=
  match path with
  | [] => None
  | c :: r =>
      if bool_decide (c = slash) then
        let parts := split_slash r in
        directs ← hex_decode (default [] (head parts));
        keys ← KeyPathToKeys (slash :: join_slash (tail parts));
        if bool_decide (length keys = length directs) then Some (directs, keys) else None
      else None
  end.

(** [None] is a nil slice. *)
Definition VerifyTreePath (item : option bytes) (path : bytes) (roothash : option bytes) : bool :=
  match item, roothash with
  | Some item, Some roothash =>
      match parse_tree_path path with
      | Some (directs, keys) =>
          bytes_equal (verify_loop directs keys (leafHash item)) roothash
      | None => false
      end
  | _, _ => false
  end.

End WithHash.

(** ** tx_merkle_tree.go *)

Record TxMerkleTree := mkTxMerkleTree {
  RootTree : option SimpleMerkleTree;
  ShardTrees : gmap bytes SimpleMerkleTree
}.

Definition Find (tmt : TxMerkleTree) (shardname : bytes) : option SimpleMerkleTree :=
  ShardTrees tmt !! shardname.

(** ** Round trips of the encodings *)

(** Checks a statement on every byte. *)
Definition all_bytes (P : byte → bool) : bool :=
  forallb (λ n, match Byte.of_nat n with Some b => P b | None => true end) (seq 0 256).

Lemma all_bytes_spec P b : all_bytes P = true → P b = true.
Proof.
  unfold all_bytes. rewrite forallb_forall. intros H.
  specialize (H (Byte.to_nat b)). rewrite Byte.of_to_nat in H. apply H, in_seq.
  pose proof (Byte.to_nat_bounded b). lia.
Qed.

Definition hex_byte_ok (upper : bool) (b : byte) : bool :=
  bool_decide (hex_decode (hex_byte upper b) = Some [b]).

Lemma hex_byte_decode upper b : hex_decode (hex_byte upper b) = Some [b].
Proof.
  apply (bool_decide_eq_true_1 (hex_decode (hex_byte upper b) = Some [b])).
  apply (all_bytes_spec (hex_byte_ok upper)). destruct upper; vm_compute; reflexivity.
Qed.

Lemma hex_decode_pair a b d r bz :
  hex_decode [a; b] = Some [d] → hex_decode r = Some bz → hex_decode (a :: b :: r) = Some (d :: bz).
Proof.
  simpl. intros H1 ->. destruct (fromHexChar a); [|done]. destruct (fromHexChar b); [|done].
  simpl in *. by injection H1 as ->.
Qed.

Lemma hex_roundtrip upper bz : hex_decode (hex_encode upper bz) = Some bz.
Proof.
  induction bz as [|b bz IH]; [done|].
  change (hex_encode upper (b :: bz)) with (hex_byte upper b ++ hex_encode upper bz).
  apply hex_decode_pair; [apply (hex_byte_decode upper b)|done].
Qed.

Lemma PathUnescape_pair a b d r bz :
  hex_decode [a; b] = Some [d] → PathUnescape r = Some bz →
  PathUnescape (percent :: a :: b :: r) = Some (d :: bz).
Proof.
  simpl. intros H1 ->. destruct (fromHexChar a); [|done]. destruct (fromHexChar b); [|done].
  simpl in *. by injection H1 as ->.
Qed.

Lemma PathUnescape_byte c r bz :
  PathUnescape r = Some bz → PathUnescape (escape_byte c ++ r) = Some (c :: bz).
Proof.
  intros Hr. unfold escape_byte. destruct (shouldEscape c) eqn:Ec.
  - apply PathUnescape_pair; [apply (hex_byte_decode true c)|done].
  - simpl. rewrite bool_decide_eq_false_2, Hr; [done|]. by intros ->.
Qed.

Lemma PathEscape_roundtrip s : PathUnescape (PathEscape s) = Some s.
Proof. induction s as [|c s IH]; [done|]. by apply PathUnescape_byte. Qed.

(** No encoding produces the separator. *)
Definition no_slash (s : bytes) : Prop := slash ∉ s.

Definition slash_free (s : bytes) : bool := bool_decide (slash ∉ s).

Lemma slash_free_spec f b : all_bytes (λ b, slash_free (f b)) = true → no_slash (f b).
Proof. intros H. apply (bool_decide_eq_true_1 _ (all_bytes_spec _ b H)). Qed.

Lemma hex_encode_no_slash upper bz : no_slash (hex_encode upper bz).
Proof.
  unfold no_slash, hex_encode. rewrite list_elem_of_bind. intros (b & Hb & _). revert Hb.
  apply (slash_free_spec (hex_byte upper)). destruct upper; vm_compute; reflexivity.
Qed.

Lemma PathEscape_no_slash s : no_slash (PathEscape s).
Proof.
  unfold no_slash, PathEscape. rewrite list_elem_of_bind. intros (b & Hb & _). revert Hb.
  apply (slash_free_spec escape_byte). vm_compute; reflexivity.
Qed.

Lemma split_no_slash s : no_slash s → split_slash s = [s].
Proof.
  unfold no_slash. induction s as [|c s IH]; intros H; [done|]. simpl.
  rewrite bool_decide_eq_false_2 by set_solver. by rewrite IH by set_solver.
Qed.

Lemma split_app_slash s t : no_slash s → split_slash (s ++ slash :: t) = s :: split_slash t.
Proof.
  unfold no_slash. induction s as [|c s IH]; intros H; [done|]. simpl.
  rewrite bool_decide_eq_false_2 by set_solver. by rewrite IH by set_solver.
Qed.

Lemma split_join parts : parts ≠ [] → Forall no_slash parts → split_slash (join_slash parts) = parts.
Proof.
  induction parts as [|p ps IH]; intros Hne Hf; [done|].
  apply Forall_cons in Hf as [Hp Hps]. destruct ps as [|q ps]; [by apply split_no_slash|].
  change (join_slash (p :: q :: ps)) with (p ++ slash :: join_slash (q :: ps)).
  rewrite split_app_slash by done. by rewrite IH.
Qed.

Lemma join_split_cons s ps :
  concat (map (cons slash) (s :: ps)) = slash :: join_slash (s :: ps).
Proof.
  revert s. induction ps as [|p ps IH]; intros s; simpl; [by rewrite app_nil_r|].
  simpl in IH. by rewrite IH.
Qed.

(** What [String] writes for a key. *)
Definition key_part (key : Key) : bytes :=
  match enc key with
  | KeyEncodingURL => PathEscape (name key)
  | _ => hexPrefix ++ hex_encode true (name key)
  end.

Definition known (key : Key) : Prop := enc key ≠ KeyEncodingMax.

Lemma String_parts pth res :
  Forall known pth → foldM key_string res pth = Ret (res ++ concat (map (cons slash) (map key_part pth))).
Proof.
  revert res. induction pth as [|key pth IH]; intros res Hf; simpl; [by rewrite app_nil_r|].
  apply Forall_cons in Hf as [Hk Hf]. unfold known in Hk.
  assert (key_string res key = Ret (res ++ slash :: key_part key)) as ->.
  { unfold key_string, key_part. by destruct (enc key). }
  simpl. rewrite IH by done. by rewrite <-app_assoc.
Qed.

Lemma key_part_no_slash key : no_slash (key_part key).
Proof.
  unfold key_part. destruct (enc key); [apply PathEscape_no_slash| |];
    unfold no_slash; intros [H|H]%elem_of_app; try (by apply hex_encode_no_slash in H);
    unfold hexPrefix in H; set_solver.
Qed.

(** A key whose URL encoding is not mistaken for a hex one. *)
Definition unambiguous (key : Key) : Prop :=
  enc key = KeyEncodingHex ∨ (enc key = KeyEncodingURL ∧ HasPrefix (PathEscape (name key)) hexPrefix = false).

Lemma decode_key_part key : unambiguous key → decode_part (key_part key) = Some (name key).
Proof.
  unfold decode_part, key_part. intros [->|[-> H]].
  - apply hex_roundtrip.
  - rewrite H. apply PathEscape_roundtrip.
Qed.

Lemma unambiguous_known key : unambiguous key → known key.
Proof. unfold known. intros [->|[-> _]]; done. Qed.

Lemma String_join pth :
  pth ≠ [] → Forall known pth →
  KeyPath_String pth = Ret (slash :: join_slash (map key_part pth)).
Proof.
  intros Hne Hf. unfold KeyPath_String. rewrite String_parts by done.
  destruct pth as [|k pth]; [done|].
  change (map key_part (k :: pth)) with (key_part k :: map key_part pth).
  by rewrite join_split_cons.
Qed.

Lemma KeyPathToKeys_join parts :
  parts ≠ [] → Forall no_slash parts →
  KeyPathToKeys (slash :: join_slash parts) = mapM decode_part parts.
Proof. intros H1 H2. simpl. by rewrite split_join. Qed.

Lemma no_slash_parts pth : Forall no_slash (map key_part pth).
Proof. apply Forall_map, Forall_true. apply key_part_no_slash. Qed.

Lemma decode_parts pth : Forall unambiguous pth → mapM decode_part (map key_part pth) = Some (map name pth).
Proof.
  intros Hf. apply mapM_Some. induction Hf; constructor; auto using decode_key_part.
Qed.

(** Key paths round-trip: the keys read back from the string of a non-empty
    path are its keys, whatever mix of URL and hex encodings was chosen, as long
    as no URL-encoded key starts with "x:". *)
Theorem KeyPath_roundtrip (pth : KeyPath) :
  pth ≠ [] → Forall unambiguous pth →
  ∃ s, KeyPath_String pth = Ret s ∧ KeyPathToKeys s = Some (map name pth).
Proof.
  intros Hne Hf. eexists. split.
  - apply String_join; [done|]. eapply Forall_impl; [exact Hf|apply unambiguous_known].
  - rewrite KeyPathToKeys_join; [by apply decode_parts|by destruct pth|apply no_slash_parts].
Qed.

Lemma KeyPath_roundtrip_witness :
  ∃ s, KeyPath_String [mkKey [x41; x2f] KeyEncodingURL; mkKey [x01; xff] KeyEncodingHex] = Ret s ∧
    KeyPathToKeys s = Some [[x41; x2f]; [x01; xff]].
Proof.
  apply (KeyPath_roundtrip [mkKey [x41; x2f] KeyEncodingURL; mkKey [x01; xff] KeyEncodingHex]); [done|].
  apply Forall_cons. split; [right; split; [done|vm_compute; reflexivity]|].
  apply Forall_cons. split; [by left|]. apply Forall_nil. done.
Defined.

(** The two encodings are not interchangeable, against the note that the
    decoded keys are always the same: the URL-encoded key "x:00" is read back as
    the single byte 0. *)
Theorem KeyPath_ambiguous :
  ∃ key s, KeyPath_String [mkKey key KeyEncodingURL] = Ret s ∧ KeyPathToKeys s = Some [[x00]] ∧
    key ≠ [x00].
Proof. exists [x78; x3a; x30; x30]. eexists. split_and!; [reflexivity|vm_compute; reflexivity|done]. Qed.

(** ** Tree paths *)

Definition dir_byte (s : side) : byte := match s with OnLeft => PathLeft | OnRight => PathRight end.

Definition step_key (s : side * bytes) : Key := mkKey s.2 KeyEncodingHex.

(** The string [getPathByHash] builds for a sequence of steps. *)
Definition path_string (steps : list (side * bytes)) : bytes :=
  (slash :: hex_encode false (map (dir_byte ∘ fst) steps))
  ++ slash :: join_slash (map key_part (map step_key steps)).

Lemma step_keys_unambiguous steps : Forall unambiguous (map step_key steps).
Proof. apply Forall_map, Forall_true. intros s. by left. Qed.

Lemma parse_path_string steps :
  steps ≠ [] → parse_tree_path (path_string steps) = Some (map (dir_byte ∘ fst) steps, map snd steps).
Proof.
  intros Hne. unfold path_string, parse_tree_path.
  rewrite <-app_comm_cons, bool_decide_eq_true_2 by done.
  rewrite split_app_slash by apply hex_encode_no_slash.
  rewrite split_join by (apply no_slash_parts || by destruct steps).
  cbn [head tail from_option id]. rewrite hex_roundtrip. cbn [mbind option_bind].
  rewrite KeyPathToKeys_join by (apply no_slash_parts || by destruct steps).
  rewrite decode_parts by apply step_keys_unambiguous. cbn [mbind option_bind].
  rewrite map_map, !length_map, bool_decide_eq_true_2 by done. done.
Qed.

Section TreePath.
Context (Sum : bytes → bytes).

Lemma up_end h p steps root :
  up h p steps root → ∃ n, h !! root = Some n ∧ Left n = None ∧ Right n = None.
Proof. induction 1; naive_solver. Qed.

Lemma path_loop_up h p steps root fuel res directs :
  up h p steps root → (length steps ≤ fuel)%nat →
  path_loop fuel h root (Some p) res directs =
    Ret (res ++ map step_key steps, directs ++ map (dir_byte ∘ fst) steps).
Proof.
  intros Hup. destruct (up_end _ _ _ _ Hup) as (nr & Hnr & Lr & Rr). revert fuel res directs.
  induction Hup as [p n Hp Hl Hr|p n q s steps root Hp Hl Hr Hq _ IH|p n q s steps root Hp Hl Hq _ IH];
    intros fuel res directs Hf.
  - destruct fuel; simpl; rewrite bool_decide_eq_true_2, !app_nil_r by done; done.
  - destruct fuel as [|fuel]; simpl in Hf; [lia|]. simpl.
    rewrite bool_decide_eq_false_2 by (intros [= ->]; congruence).
    rewrite Hp. simpl. rewrite Hl, Hr, Hq, IH by (done || lia).
    unfold AppendKey. by rewrite <-!app_assoc.
  - destruct fuel as [|fuel]; simpl in Hf; [lia|]. simpl.
    rewrite bool_decide_eq_false_2 by (intros [= ->]; congruence).
    rewrite Hp. simpl. rewrite Hl, Hq, IH by (done || lia).
    unfold AppendKey. by rewrite <-!app_assoc.
Qed.

Lemma verify_loop_climb steps h :
  verify_loop Sum (map (dir_byte ∘ fst) steps) (map snd steps) h = climb Sum h steps.
Proof.
  revert h. induction steps as [|[[|] a] steps IH]; intros h; [done|..]; apply IH.
Qed.

Lemma path_nonempty items i steps :
  path Sum items i steps → (2 ≤ length items)%nat → steps ≠ [].
Proof. destruct 1; simpl; intros ?; [lia|by destruct steps..]. Qed.

(** The leaf that [getPathByHash] finds is one whose hash is the item's. *)
Lemma find_leaf items h leaves root x :
  trailsFromByteSlices Sum items [] = (h, leaves, Some root) → x ∈ items →
  ∃ j y p steps, snd <$> list_find (λ l, is_leaf h (leafHash Sum x) l = true) leaves = Some p ∧
    items !! j = Some y ∧ leafHash Sum y = leafHash Sum x ∧ path Sum items j steps ∧
    up h p steps root.
Proof.
  intros E (i & Hi)%list_elem_of_lookup.
  destruct (trails_leaf Sum _ _ _ _ i x E Hi) as (p & steps & Hp & Hh & _).
  destruct (list_find_elem_of (λ l, is_leaf h (leafHash Sum x) l = true) leaves p)
    as [[j q] Hf]; [by eapply list_elem_of_lookup_2| |].
  { unfold is_leaf. rewrite Hh. by apply bytes_equal_true. }
  rewrite Hf. apply list_find_Some in Hf as (Hq & Hl & _).
  assert (is_Some (items !! j)) as [y Hy].
  { apply lookup_lt_is_Some. apply lookup_lt_Some in Hq.
    destruct (trails_spec Sum items ltac:(by intros ->) [] closed_nil) as (h' & ls & rt & E' & B).
    rewrite E in E'. injection E' as <- <- <-. by rewrite <-(built_leaves _ _ _ _ _ _ B). }
  destruct (trails_leaf Sum _ _ _ _ j y E Hy) as (q' & steps' & Hq' & Hh' & Hpath & Hup & _).
  rewrite Hq in Hq'. injection Hq' as <-.
  exists j, y, q, steps'. split_and!; try done.
  unfold is_leaf in Hl. apply bytes_equal_true in Hl. congruence.
Qed.

(** Tree paths are complete: in a tree of at least two items, the path that
    [GetPathByValue] returns for a non-empty item is accepted by
    [VerifyTreePath] against the tree's root. *)
Theorem TreePath_complete (items : list bytes) (x : bytes) :
  (2 ≤ length items)%nat → x ∈ items → x ≠ [] →
  ∃ smt path, SimpleTreeFromByteSlices Sum items = Some smt ∧
    GetPathByValue Sum smt x = Ret path ∧
    tree_ComputeRootHash smt = SimpleHashFromByteSlices Sum items ∧
    VerifyTreePath Sum (Some x) path (Some (tree_ComputeRootHash smt)) = true.
Proof.
  intros Hl Hx Hnx. assert (items ≠ []) as Hne by (intros ->; simpl in Hl; lia).
  destruct (trails_spec Sum items Hne [] closed_nil) as (h & leaves & root & E & B).
  unfold SimpleTreeFromByteSlices. rewrite E.
  destruct (find_leaf items h leaves root x E Hx)
    as (j & y & p & steps & Hf & Hj & Hxy & Hpath & Hup).
  eexists _, (path_string steps). split; [reflexivity|].
  assert (hash_at h root = SimpleHashFromByteSlices Sum items) as Hroot
    by (destruct (trails_leaf Sum _ _ _ _ j y E Hj) as (?&?&?&?&?&?&?&?); done).
  assert (steps ≠ []) as Hs by (by eapply path_nonempty).
  split_and!; [|done|].
  - assert (GetPathByValue Sum (mkTree (zlen items) h root leaves) x =
            getPathByHash (mkTree (zlen items) h root leaves) (leafHash Sum x)) as ->
      by (by destruct x).
    unfold getPathByHash. cbn [tree_heap tree_Leaves tree_Root]. rewrite Hf.
    rewrite (path_loop_up h p steps root); [|done|].
    + cbn. rewrite String_join; [done|by destruct steps|].
      eapply Forall_impl; [apply step_keys_unambiguous|apply unambiguous_known].
    + pose proof (path_length _ _ _ _ Hpath). pose proof (built_size _ _ _ _ _ _ B).
      simpl in *. lia.
  - unfold VerifyTreePath. rewrite parse_path_string by done. apply bytes_equal_true.
    rewrite verify_loop_climb, <-Hxy, (path_climb _ items j steps y Hpath Hj). done.
Qed.

(** The steps a path is read as: unknown directions are dropped. *)
Definition path_steps (path : bytes) : list (side * bytes) :=
  match parse_tree_path path with
  | Some (directs, keys) =>
      omap (λ dk, if bool_decide (dk.1 = PathLeft) then Some (OnLeft, dk.2)
                  else if bool_decide (dk.1 = PathRight) then Some (OnRight, dk.2) else None)
           (zip directs keys)
  | None => []
  end.

Lemma verify_loop_steps directs keys h :
  length keys = length directs →
  verify_loop Sum directs keys h =
    climb Sum h (omap (λ dk, if bool_decide (dk.1 = PathLeft) then Some (OnLeft, dk.2)
                  else if bool_decide (dk.1 = PathRight) then Some (OnRight, dk.2) else None)
           (zip directs keys)).
Proof.
  revert keys h. induction directs as [|d directs IH]; intros [|k keys] h Hl; simpl in Hl; try done.
  simpl. destruct (bool_decide (d = PathLeft)); [apply IH; lia|].
  destruct (bool_decide (d = PathRight)); apply IH; lia.
Qed.

(** Tree paths are sound: a path accepted by [VerifyTreePath] against the root
    of a tree shows that the item is one of the tree's leaves, provided the hash
    has 32 bytes and no collision between the inputs hashed for the tree and
    those hashed along the path. *)
Theorem TreePath_sound (HSum : ∀ x, length (Sum x) = 32%nat) (items : list bytes) (item path : bytes) :
  items ≠ [] →
  no_collision Sum (tree_inputs Sum items)
    ((leafPrefix ++ item) :: climb_inputs Sum (leafHash Sum item) (path_steps path)) = true →
  VerifyTreePath Sum (Some item) path (Some (SimpleHashFromByteSlices Sum items)) = true →
  item ∈ items.
Proof.
  intros Hne Hnc HV. unfold VerifyTreePath in HV. unfold path_steps in Hnc.
  destruct (parse_tree_path path) as [[directs keys]|] eqn:Ep; [|done].
  assert (length keys = length directs) as Hlen.
  { unfold parse_tree_path in Ep. destruct path; [done|]. destruct (bool_decide _); [|done].
    destruct (hex_decode _); [|done]. destruct (KeyPathToKeys _); [|done]. simpl in Ep.
    case_bool_decide; [|done]. by injection Ep as <- <-. }
  apply bytes_equal_true in HV. rewrite verify_loop_steps in HV by done.
  destruct (climb_sound Sum HSum items Hne item _ Hnc HV) as (i & Hi & _).
  by eapply list_elem_of_lookup_2.
Qed.

End TreePath.

Definition sample_path : bytes :=
  match SimpleTreeFromByteSlices pad32 sample_items with
  | Some smt => match GetPathByValue pad32 smt [x64] with Ret p => p | Panic => [] end
  | None => []
  end.

Lemma TreePath_complete_witness :
  ∃ smt path, SimpleTreeFromByteSlices pad32 sample_items = Some smt ∧
    GetPathByValue pad32 smt [x64] = Ret path ∧
    tree_ComputeRootHash smt = SimpleHashFromByteSlices pad32 sample_items ∧
    VerifyTreePath pad32 (Some [x64]) path (Some (tree_ComputeRootHash smt)) = true.
Proof.
  apply (TreePath_complete pad32 sample_items [x64]); [simpl; lia| |done].
  unfold sample_items. set_solver.
Defined.

Lemma TreePath_sound_witness : [x64] ∈ sample_items.
Proof.
  apply (TreePath_sound pad32 pad32_length sample_items [x64] sample_path);
    [done|vm_compute; reflexivity..].
Defined.

(** The completeness of tree paths fails for a tree of one leaf: the path
    that [GetPathByValue] returns is "/", and [VerifyTreePath] rejects "/" for
    every item and root, since it reads one (empty) key and no direction. *)
Theorem TreePath_single_leaf_rejected (Sum : bytes → bytes) (x : bytes) (item root : option bytes) :
  x ≠ [] →
  ∃ smt path, SimpleTreeFromByteSlices Sum [x] = Some smt ∧ GetPathByValue Sum smt x = Ret path ∧
    VerifyTreePath Sum item path root = false.
Proof.
  intros Hx. unfold SimpleTreeFromByteSlices. rewrite trailsFromByteSlices_equation_2.
  eexists _, [slash]. split; [reflexivity|]. split.
  - destruct x as [|b x]; [done|]. unfold GetPathByValue, getPathByHash. cbn [tree_heap tree_Leaves tree_Root].
    simpl. rewrite decide_True by (by apply bytes_equal_true). done.
  - destruct item, root; done.
Qed.

Lemma TreePath_single_leaf_rejected_witness :
  ∃ smt path, SimpleTreeFromByteSlices pad32 [[x61]] = Some smt ∧
    GetPathByValue pad32 smt [x61] = Ret path ∧
    VerifyTreePath pad32 (Some [x61]) path (Some (SimpleHashFromByteSlices pad32 [[x61]])) = false.
Proof. by apply (TreePath_single_leaf_rejected pad32 [x61]). Defined.
