(* ===== verification/Types.v ===== *)
(** * types: identifiers, votes, commits and proposals

    The data the consensus exchanges (types/block.go, types/vote.go,
    types/proposal.go, types/canonical.go, types/part_set.go) and its basic
    validation. Times are integers (nanoseconds). The amino codec is a parameter:
    [marshalVote], [marshalProposal] are [cdc.MarshalBinaryLengthPrefixed] at the
    canonical structures, [marshalPartSetHeader] is [cdc.MarshalBinaryBare] at a
    part-set header. A nil [*CommitSig] or [*Vote] is [None]. *)

From Stdlib Require Import ZArith Lia List Bool Strings.Byte.
From stdpp Require Import base list sets countable.
From S2P Require Import Prelude BitArray.
Local Open Scope Z_scope.

(** ** signed_msg_type.go *)

(** A [SignedMsgType] is a byte. *)
Notation SignedMsgType := Z (only parsing).
Definition PrevoteType : SignedMsgType := 1.
Definition PrecommitType : SignedMsgType := 2.
Definition ProposalType : SignedMsgType := 32.

Definition IsVoteTypeValid (t : SignedMsgType) : bool :=
  (t =? PrevoteType) || (t =? PrecommitType).

(** Sizes of tmhash, of an address and of a signature. *)
Definition tmhashSize : Z := 32.
Definition AddressSize : Z := 20.
Definition MaxSignatureSize : Z := 64.

(** ** validation.go *)

(** [true] when there is no error. *)
Definition ValidateHash (h : bytes) : bool :=
  negb ((0 <? zlen h) && negb (zlen h =? tmhashSize)).

(** ** part_set.go: headers *)

Record PartSetHeader := mkPartSetHeader { psh_Total : Z; psh_Hash : bytes }.

#[export] Instance PartSetHeader_eq_dec : EqDecision PartSetHeader.
Proof. solve_decision. Defined.

Definition PartSetHeader_IsZero (psh : PartSetHeader) : bool :=
  (psh_Total psh =? 0) && (zlen (psh_Hash psh) =? 0).

Definition PartSetHeader_Equals (psh other : PartSetHeader) : bool :=
  (psh_Total psh =? psh_Total other) && bytes_equal (psh_Hash psh) (psh_Hash other).

Definition PartSetHeader_ValidateBasic (psh : PartSetHeader) : bool :=
  negb (psh_Total psh <? 0) && ValidateHash (psh_Hash psh).

(** ** block.go: block identifiers *)

Record BlockID := mkBlockID { bid_Hash : bytes; bid_PartsHeader : PartSetHeader }.

#[export] Instance BlockID_eq_dec : EqDecision BlockID.
Proof. solve_decision. Defined.

Definition BlockID_Equals (blockID other : BlockID) : bool :=
  bytes_equal (bid_Hash blockID) (bid_Hash other) &&
  PartSetHeader_Equals (bid_PartsHeader blockID) (bid_PartsHeader other).

Definition BlockID_ValidateBasic (blockID : BlockID) : bool :=
  ValidateHash (bid_Hash blockID) && PartSetHeader_ValidateBasic (bid_PartsHeader blockID).

Definition BlockID_IsZero (blockID : BlockID) : bool :=
  (zlen (bid_Hash blockID) =? 0) && PartSetHeader_IsZero (bid_PartsHeader blockID).

Definition BlockID_IsComplete (blockID : BlockID) : bool :=
  (zlen (bid_Hash blockID) =? tmhashSize) &&
  (0 <? psh_Total (bid_PartsHeader blockID)) &&
  (zlen (psh_Hash (bid_PartsHeader blockID)) =? tmhashSize).

Definition zeroBlockID : BlockID := mkBlockID [] (mkPartSetHeader 0 []).

(** ** vote.go *)

(** identypes.PartSig: a threshold-signature share. *)
Record PartSig := mkPartSig { PeerCrossSig : bytes; Id : Z }.

#[export] Instance PartSig_eq_dec : EqDecision PartSig.
Proof. solve_decision. Defined.

Record Vote := mkVote {
  vote_Type : SignedMsgType;
  vote_Height : Z;
  vote_Round : Z;
  vote_BlockID : BlockID;
  vote_Timestamp : Z;
  vote_ValidatorAddress : bytes;
  vote_ValidatorIndex : Z;
  vote_Signature : bytes;
  vote_PartSig : option PartSig;
  vote_PartBlockSig : option PartSig
}.

#[export] Instance Vote_eq_dec : EqDecision Vote.
Proof. solve_decision. Defined.

(** A [CommitSig] is a [Vote] under another name. *)
Notation CommitSig := Vote (only parsing).

Inductive vote_error :=
| ErrVoteUnexpectedStep
| ErrVoteInvalidValidatorIndex
| ErrVoteInvalidValidatorAddress
| ErrVoteInvalidSignature
| ErrVoteNonDeterministicSignature
| ErrVoteNil
| ErrVoteConflictingVotes (pubKey : bytes) (voteA voteB : Vote).

Inductive basic_error :=
| ErrInvalidType
| ErrNegativeHeight
| ErrNegativeRound
| ErrNegativePOLRound
| ErrWrongBlockID
| ErrBlockIDEmptyOrComplete
| ErrAddressSize
| ErrNegativeIndex
| ErrSignatureMissing
| ErrSignatureTooBig.

Definition Vote_ValidateBasic (vote : Vote) : option basic_error :=
  if negb (IsVoteTypeValid (vote_Type vote)) then Some ErrInvalidType
  else if vote_Height vote <? 0 then Some ErrNegativeHeight
  else if vote_Round vote <? 0 then Some ErrNegativeRound
  else if negb (BlockID_ValidateBasic (vote_BlockID vote)) then Some ErrWrongBlockID
  else if negb (BlockID_IsZero (vote_BlockID vote)) && negb (BlockID_IsComplete (vote_BlockID vote))
  then Some ErrBlockIDEmptyOrComplete
  else if negb (zlen (vote_ValidatorAddress vote) =? AddressSize) then Some ErrAddressSize
  else if vote_ValidatorIndex vote <? 0 then Some ErrNegativeIndex
  else if zlen (vote_Signature vote) =? 0 then Some ErrSignatureMissing
  else if MaxSignatureSize <? zlen (vote_Signature vote) then Some ErrSignatureTooBig
  else None.

(** ** proposal.go *)

Record Proposal := mkProposal {
  prop_Type : SignedMsgType;
  prop_Height : Z;
  prop_Round : Z;
  prop_POLRound : Z;
  prop_BlockID : BlockID;
  prop_Timestamp : Z;
  prop_Signature : bytes
}.

(** [now] is the clock. *)
Definition NewProposal (now height round polRound : Z) (blockID : BlockID) : Proposal :=
  mkProposal ProposalType height round polRound blockID now [].

Definition Proposal_ValidateBasic (p : Proposal) : option basic_error :=
  if negb (prop_Type p =? ProposalType) then Some ErrInvalidType
  else if prop_Height p <? 0 then Some ErrNegativeHeight
  else if prop_Round p <? 0 then Some ErrNegativeRound
  else if prop_POLRound p <? -1 then Some ErrNegativePOLRound
  else if negb (BlockID_ValidateBasic (prop_BlockID p)) then Some ErrWrongBlockID
  else if negb (BlockID_IsComplete (prop_BlockID p)) then Some ErrBlockIDEmptyOrComplete
  else if zlen (prop_Signature p) =? 0 then Some ErrSignatureMissing
  else if MaxSignatureSize <? zlen (prop_Signature p) then Some ErrSignatureTooBig
  else None.

(** ** canonical.go *)

Record CanonicalPartSetHeader := mkCanonicalPartSetHeader { cpsh_Hash : bytes; cpsh_Total : Z }.

Record CanonicalBlockID := mkCanonicalBlockID {
  cbid_Hash : bytes;
  cbid_PartsHeader : CanonicalPartSetHeader
}.

Record CanonicalProposal := mkCanonicalProposal {
  cprop_Type : SignedMsgType;
  cprop_Height : Z;
  cprop_Round : Z;
  cprop_POLRound : Z;
  cprop_BlockID : CanonicalBlockID;
  cprop_Timestamp : Z;
  cprop_ChainID : bytes
}.

Record CanonicalVote := mkCanonicalVote {
  cvote_Type : SignedMsgType;
  cvote_Height : Z;
  cvote_Round : Z;
  cvote_BlockID : CanonicalBlockID;
  cvote_Timestamp : Z;
  cvote_ChainID : bytes
}.

Definition CanonicalizePartSetHeader (psh : PartSetHeader) : CanonicalPartSetHeader :=
  mkCanonicalPartSetHeader (psh_Hash psh) (psh_Total psh).

Definition CanonicalizeBlockID (blockID : BlockID) : CanonicalBlockID :=
  mkCanonicalBlockID (bid_Hash blockID) (CanonicalizePartSetHeader (bid_PartsHeader blockID)).

Definition CanonicalizeProposal (chainID : bytes) (proposal : Proposal) : CanonicalProposal :=
  {| cprop_Type := ProposalType;
     cprop_Height := prop_Height proposal;
     cprop_Round := prop_Round proposal;
     cprop_POLRound := prop_POLRound proposal;
     cprop_BlockID := CanonicalizeBlockID (prop_BlockID proposal);
     cprop_Timestamp := prop_Timestamp proposal;
     cprop_ChainID := chainID |}.

Definition CanonicalizeVote (chainID : bytes) (vote : Vote) : CanonicalVote :=
  {| cvote_Type := vote_Type vote;
     cvote_Height := vote_Height vote;
     cvote_Round := vote_Round vote;
     cvote_BlockID := CanonicalizeBlockID (vote_BlockID vote);
     cvote_Timestamp := vote_Timestamp vote;
     cvote_ChainID := chainID |}.

(** ** The codec and the signature scheme, as interfaces

    [marshal*] are the amino encodings; [VerifyBytes] and [PubKeyAddress] are the
    methods of crypto.PubKey at a public key given by its bytes. *)
Class Codec := {
  marshalVote : CanonicalVote → bytes;
  marshalProposal : CanonicalProposal → bytes;
  marshalPartSetHeader : PartSetHeader → bytes
}.

Class Crypto := {
  VerifyBytes : bytes → bytes → bytes → bool;
  PubKeyAddress : bytes → bytes
}.

(** What the code relies on: the encodings of a canonical vote, of a canonical
    proposal and of a part-set header determine them, and amino writes nothing
    for a structure of zero values. *)
Class CodecLaws `{Codec} : Prop := {
  marshalVote_inj : ∀ a b, marshalVote a = marshalVote b → a = b;
  marshalProposal_inj : ∀ a b, marshalProposal a = marshalProposal b → a = b;
  marshalPartSetHeader_inj : ∀ a b, marshalPartSetHeader a = marshalPartSetHeader b → a = b;
  marshalPartSetHeader_zero : marshalPartSetHeader (mkPartSetHeader 0 []) = []
}.

Section WithCodec.
Context `{Codec} `{Crypto}.

Definition BlockID_Key (blockID : BlockID) : bytes :=
  bid_Hash blockID ++ marshalPartSetHeader (bid_PartsHeader blockID).

Definition Vote_SignBytes (chainID : bytes) (vote : Vote) : bytes :=
  marshalVote (CanonicalizeVote chainID vote).

Definition Proposal_SignBytes (chainID : bytes) (p : Proposal) : bytes :=
  marshalProposal (CanonicalizeProposal chainID p).

Definition Vote_Verify (chainID : bytes) (pubKey : bytes) (vote : Vote) : option vote_error :=
  if negb (bytes_equal (PubKeyAddress pubKey) (vote_ValidatorAddress vote))
  then Some ErrVoteInvalidValidatorAddress
  else if negb (VerifyBytes pubKey (Vote_SignBytes chainID vote) (vote_Signature vote))
  then Some ErrVoteInvalidSignature
  else None.

End WithCodec.

(** ** block.go: commits

    [height] and [round] are memoized by the first call that needs them. The
    hash and the bit array of a commit are caches as well. *)
Record Commit := mkCommit {
  commit_BlockID : BlockID;
  commit_Precommits : list (option CommitSig);
  commit_height : Z;
  commit_round : Z;
  commit_bitArray : option BitArray
}.

Definition NewCommit (blockID : BlockID) (precommits : list (option CommitSig)) : Commit :=
  mkCommit blockID precommits 0 0 None.

Fixpoint first_precommit (l : list (option CommitSig)) : option CommitSig :=
  match l with
  | [] => None
  | Some cs :: _ => Some cs
  | None :: l' => first_precommit l'
  end.

Definition memoizeHeightRound (commit : Commit) : Commit :=
  if 0 <? commit_height commit then commit
  else
    match first_precommit (commit_Precommits commit) with
    | Some precommit =>
        mkCommit (commit_BlockID commit) (commit_Precommits commit)
          (vote_Height precommit) (vote_Round precommit) (commit_bitArray commit)
    | None => commit
    end.

Definition Commit_Height (commit : Commit) : Z := commit_height (memoizeHeightRound commit).
Definition Commit_Round (commit : Commit) : Z := commit_round (memoizeHeightRound commit).

Definition Commit_Size (commit : option Commit) : Z :=
  match commit with Some c => zlen (commit_Precommits c) | None => 0 end.

Definition Commit_IsCommit (commit : Commit) : bool := negb (zlen (commit_Precommits commit) =? 0).

(** [Commit.GetByIndex]: panics when the index is out of range. *)
Definition Commit_GetByIndex (commit : Commit) (index : Z) : outcome (option Vote) :=
  slice_get (commit_Precommits commit) index.

(** Returns the array and the commit that caches it. *)
Definition Commit_BitArray (commit : Commit) : outcome (option BitArray * Commit) :=
  match commit_bitArray commit with
  | Some b => Ret (Some b, commit)
  | None =>
      b ← for_range (length (commit_Precommits commit)) 0
        (λ i b,
          precommit ← slice_get (commit_Precommits commit) (Z.of_nat i);
          fst <$> BitArray.SetIndex b (Z.of_nat i) (bool_decide (is_Some precommit)))
        (NewBitArray_len (zlen (commit_Precommits commit)));
      Ret (b, mkCommit (commit_BlockID commit) (commit_Precommits commit)
                (commit_height commit) (commit_round commit) b)
  end.

Inductive commit_error :=
| ErrCommitNilBlock
| ErrNoPrecommits
| ErrExpectedPrecommit
| ErrPrecommitHeight
| ErrPrecommitRound.

Definition validate_precommit (height round : Z) (precommit : CommitSig) : option commit_error :=
  if negb (vote_Type precommit =? PrecommitType) then Some ErrExpectedPrecommit
  else if negb (vote_Height precommit =? height) then Some ErrPrecommitHeight
  else if negb (vote_Round precommit =? round) then Some ErrPrecommitRound
  else None.

Fixpoint validate_precommits (height round : Z) (l : list (option CommitSig)) : option commit_error :=
  match l with
  | [] => None
  | None :: l' => validate_precommits height round l'
  | Some precommit :: l' =>
      match validate_precommit height round precommit with
      | Some err => Some err
      | None => validate_precommits height round l'
      end
  end.

Definition Commit_ValidateBasic (commit : Commit) : option commit_error :=
  if BlockID_IsZero (commit_BlockID commit) then Some ErrCommitNilBlock
  else if zlen (commit_Precommits commit) =? 0 then Some ErrNoPrecommits
  else validate_precommits (Commit_Height commit) (Commit_Round commit) (commit_Precommits commit).

(** ** Lemmas *)

Lemma PartSetHeader_Equals_spec a b : PartSetHeader_Equals a b = true ↔ a = b.
Proof.
  unfold PartSetHeader_Equals. rewrite andb_true_iff, Z.eqb_eq, bytes_equal_true.
  destruct a, b; simpl. naive_solver.
Qed.

Lemma BlockID_Equals_spec a b : BlockID_Equals a b = true ↔ a = b.
Proof.
  unfold BlockID_Equals. rewrite andb_true_iff, PartSetHeader_Equals_spec, bytes_equal_true.
  destruct a, b; simpl. naive_solver.
Qed.

Lemma BlockID_Equals_refl a : BlockID_Equals a a = true.
Proof. by apply BlockID_Equals_spec. Qed.

(** The sign bytes determine everything that is signed. *)
Lemma Vote_SignBytes_inj `{CodecLaws} c c' v v' :
  Vote_SignBytes c v = Vote_SignBytes c' v' →
  c = c' ∧ vote_Type v = vote_Type v' ∧ vote_Height v = vote_Height v' ∧
  vote_Round v = vote_Round v' ∧ vote_BlockID v = vote_BlockID v' ∧
  vote_Timestamp v = vote_Timestamp v'.
Proof.
  intros E%marshalVote_inj. destruct v as [? ? ? [? []]], v' as [? ? ? [? []]].
  unfold CanonicalizeVote, CanonicalizeBlockID, CanonicalizePartSetHeader in E. simpl in *.
  naive_solver.
Qed.

(** What [ValidateBasic] of a vote requires of its block: nil or complete. *)
Definition bid_ok (b : BlockID) : bool := BlockID_IsZero b || BlockID_IsComplete b.

Lemma BlockID_IsZero_spec b : BlockID_IsZero b = true ↔ b = zeroBlockID.
Proof.
  unfold BlockID_IsZero, PartSetHeader_IsZero, zeroBlockID, zlen.
  destruct b as [[|] [? [|]]]; simpl; rewrite ?andb_true_iff, ?andb_false_iff, ?Z.eqb_eq; split;
    try (intros; repeat case_match; naive_solver lia).
Qed.

(** Among such identifiers, the key is injective. *)
Lemma BlockID_Key_inj `{CodecLaws} a b :
  bid_ok a = true → bid_ok b = true → BlockID_Key a = BlockID_Key b → a = b.
Proof.
  assert (∀ c, BlockID_IsComplete c = true → length (bid_Hash c) = 32%nat) as Hc.
  { intros c. unfold BlockID_IsComplete, zlen, tmhashSize.
    intros [[Hl _]%andb_true_iff _]%andb_true_iff. apply Z.eqb_eq in Hl. lia. }
  assert (BlockID_Key zeroBlockID = []) as Hz by (apply marshalPartSetHeader_zero).
  assert (∀ c, BlockID_IsComplete c = true → BlockID_Key c ≠ []) as Hn.
  { intros c Hcc%Hc E. unfold BlockID_Key in E. by destruct (bid_Hash c). }
  unfold bid_ok. intros [->%BlockID_IsZero_spec|Ha]%orb_true_iff [->%BlockID_IsZero_spec|Hb]%orb_true_iff E.
  - done.
  - rewrite Hz in E. by destruct (Hn b Hb).
  - rewrite Hz in E. by destruct (Hn a Ha).
  - unfold BlockID_Key in E. apply Hc in Ha, Hb.
    apply app_inj_1 in E as [E1 E2%marshalPartSetHeader_inj]; [|lia].
    destruct a, b; simpl in *; naive_solver.
Qed.

Lemma validate_precommits_spec h r l :
  validate_precommits h r l = None ↔
  ∀ i cs, l !! i = Some (Some cs) →
    vote_Type cs = PrecommitType ∧ vote_Height cs = h ∧ vote_Round cs = r.
Proof.
  assert (∀ cs, validate_precommit h r cs = None ↔
    vote_Type cs = PrecommitType ∧ vote_Height cs = h ∧ vote_Round cs = r) as Hv.
  { intros cs. unfold validate_precommit. case_Z; simpl; naive_solver. }
  induction l as [|[cs|] l IH]; simpl.
  - split; [intros _ i cs Hi; by rewrite lookup_nil in Hi|done].
  - destruct (validate_precommit h r cs) eqn:E.
    + split; [done|]. intros H. destruct (Hv cs) as [_ Hv']. rewrite Hv' in E; [done|].
      by apply (H 0%nat cs).
    + rewrite IH. apply Hv in E. split; intros H; [intros [|i] cs' Hi; simplify_eq/=; eauto|].
      intros i cs'. apply (H (S i)).
  - rewrite IH. split; intros H; [intros [|i] cs' Hi; simplify_eq/=; eauto|].
    intros i cs'. apply (H (S i)).
Qed.

Lemma first_precommit_elem l cs : first_precommit l = Some cs → Some cs ∈ l.
Proof. induction l as [|[c|] l IH]; simpl; [done| |]; intros; simplify_eq; set_solver. Qed.

Lemma first_precommit_None l : first_precommit l = None ↔ ∀ cs, Some cs ∉ l.
Proof.
  induction l as [|[c|] l IH]; simpl; [set_solver| |].
  - split; [done|]. intros H. exfalso. apply (H c). set_solver.
  - rewrite IH. set_solver.
Qed.

#[export] Hint Rewrite BlockID_Equals_spec PartSetHeader_Equals_spec : go.

(** ** A concrete codec and signature scheme

    They satisfy the laws above and are used to evaluate the definitions on
    concrete inputs. A signature is the key followed by the message. *)

Fixpoint pos_bytes (p : positive) : bytes :=
  match p with xH => [] | xO p' => x00 :: pos_bytes p' | xI p' => x01 :: pos_bytes p' end.

Lemma pos_bytes_inj p q : pos_bytes p = pos_bytes q → p = q.
Proof. revert q. induction p as [p IH|p IH|]; intros [q|q|] E; simpl in E; naive_solver. Qed.

Definition encode_bytes {A} `{Countable A} (x : A) : bytes := pos_bytes (encode x).

Lemma encode_bytes_inj {A} `{Countable A} (x y : A) : encode_bytes x = encode_bytes y → x = y.
Proof. intros E%pos_bytes_inj. by apply (inj encode). Qed.

Fixpoint bytes_pos (b : bytes) : positive :=
  match b with [] => xH | x00 :: b' => xO (bytes_pos b') | _ :: b' => xI (bytes_pos b') end.

Lemma bytes_pos_bytes p : bytes_pos (pos_bytes p) = p.
Proof. induction p as [p IH|p IH|]; simpl; by rewrite ?IH. Qed.

Definition decode_bytes {A} `{Countable A} (b : bytes) : option A := decode (bytes_pos b).

Lemma decode_encode_bytes {A} `{Countable A} (x : A) : decode_bytes (encode_bytes x) = Some x.
Proof. unfold decode_bytes, encode_bytes. by rewrite bytes_pos_bytes, decode_encode. Qed.

Definition bid_tuple (b : CanonicalBlockID) : bytes * (bytes * Z) :=
  (cbid_Hash b, (cpsh_Hash (cbid_PartsHeader b), cpsh_Total (cbid_PartsHeader b))).

Lemma bid_tuple_inj a b : bid_tuple a = bid_tuple b → a = b.
Proof. destruct a as [? []], b as [? []]. unfold bid_tuple. simpl. naive_solver. Qed.

Definition sample_codec : Codec := {|
  marshalVote v := x02 :: encode_bytes (cvote_Type v, cvote_Height v, cvote_Round v,
    bid_tuple (cvote_BlockID v), cvote_Timestamp v, cvote_ChainID v);
  marshalProposal p := x02 :: encode_bytes (cprop_Type p, cprop_Height p, cprop_Round p, cprop_POLRound p,
    bid_tuple (cprop_BlockID p), cprop_Timestamp p, cprop_ChainID p);
  marshalPartSetHeader h :=
    if PartSetHeader_IsZero h then [] else x02 :: encode_bytes (psh_Total h, psh_Hash h)
|}.

Lemma sample_codec_laws : @CodecLaws sample_codec.
Proof.
  split.
  - intros a b [= E%encode_bytes_inj]. injection E as ? ? ? E2 ? ?.
    assert (cvote_BlockID a = cvote_BlockID b) by (apply bid_tuple_inj; unfold bid_tuple; congruence).
    destruct a, b; simpl in *; congruence.
  - intros a b [= E%encode_bytes_inj]. injection E as ? ? ? ? E2 ? ?.
    assert (cprop_BlockID a = cprop_BlockID b) by (apply bid_tuple_inj; unfold bid_tuple; congruence).
    destruct a, b; simpl in *; congruence.
  - assert (∀ h, PartSetHeader_IsZero h = true → h = mkPartSetHeader 0 []) as Hz.
    { intros [t h]. unfold PartSetHeader_IsZero, zlen. simpl.
      intros [->%Z.eqb_eq Hh%Z.eqb_eq]%andb_true_iff. by destruct h. }
    intros a b. simpl. destruct (PartSetHeader_IsZero a) eqn:Ea, (PartSetHeader_IsZero b) eqn:Eb; try done.
    + apply Hz in Ea as ->. by apply Hz in Eb as ->.
    + intros [= E%encode_bytes_inj]. destruct a, b; simpl in *; congruence.
  - done.
Qed.

Definition sample_crypto : Crypto := {|
  VerifyBytes pk msg sig := bytes_equal sig (pk ++ msg);
  PubKeyAddress pk := pk
|}.
