(* ===== verification/ValidatorSet.v ===== *)
(** * types/validator.go, types/validator_set.go: validator sets

    Voting powers and priorities are int64 with the wrap-around or clipping of
    the code. [Proposer] is a pointer into some set's validators whose priority
    may change through the alias; the model keeps the fields of the proposer that
    never change. A function that updates the cached total voting power returns
    the updated set. *)

From Stdlib Require Import ZArith Lia List Bool Strings.Byte.
From stdpp Require Import base list gmap sets sorting.
From S2P Require Import Prelude Merkle Types.
Local Open Scope Z_scope.

(** ** validator.go *)

Record Validator := mkValidator {
  val_Address : bytes;
  val_PubKey : bytes;
  val_VotingPower : Z;
  val_ProposerPriority : Z
}.

#[export] Instance Validator_eq_dec : EqDecision Validator.
Proof. solve_decision. Defined.

Definition NewValidator `{Crypto} (pubKey : bytes) (votingPower : Z) : Validator :=
  mkValidator (PubKeyAddress pubKey) pubKey votingPower 0.

Definition set_priority (v : Validator) (p : Z) : Validator :=
  mkValidator (val_Address v) (val_PubKey v) (val_VotingPower v) p.

(** Whether [CompareProposerPriority] returns its receiver; identical addresses
    at equal priority panic. *)
Definition keeps_receiver (v other : Validator) : outcome bool :=
  if val_ProposerPriority other <? val_ProposerPriority v then Ret true
  else if val_ProposerPriority v <? val_ProposerPriority other then Ret false
  else match bytes_compare (val_Address v) (val_Address other) with
       | Lt => Ret true
       | Gt => Ret false
       | Eq => Panic
       end.

Definition CompareProposerPriority (v : option Validator) (other : Validator) : outcome Validator :=
  match v with
  | None => Ret other
  | Some v => b ← keeps_receiver v other; Ret (if (b : bool) then v else other)
  end.

(** ** Safe arithmetic: clipping instead of overflow *)

Definition safeAdd (a b : Z) : Z * bool :=
  if (0 <? b) && (MaxInt64 - b <? a) then (-1, true)
  else if (b <? 0) && (a <? MinInt64 - b) then (-1, true)
  else (wrap64 (a + b), false).

Definition safeSub (a b : Z) : Z * bool :=
  if (0 <? b) && (a <? MinInt64 + b) then (-1, true)
  else if (b <? 0) && (MaxInt64 + b <? a) then (-1, true)
  else (wrap64 (a - b), false).

Definition safeAddClip (a b : Z) : Z :=
  let '(c, overflow) := safeAdd a b in
  if (overflow : bool) then (if b <? 0 then MinInt64 else MaxInt64) else c.

Definition safeSubClip (a b : Z) : Z :=
  let '(c, overflow) := safeSub a b in
  if (overflow : bool) then (if 0 <? b then MinInt64 else MaxInt64) else c.

(** ** Validator sets *)

Definition MaxTotalVotingPower : Z := MaxInt64 / 8.
Definition PriorityWindowSizeFactor : Z := 2.

Record ProposerRef := mkProposerRef { pr_Address : bytes; pr_PubKey : bytes; pr_VotingPower : Z }.

Definition to_ref (v : Validator) : ProposerRef :=
  mkProposerRef (val_Address v) (val_PubKey v) (val_VotingPower v).

Record ValidatorSet := mkValidatorSet {
  Validators : list Validator;
  Proposer : option ProposerRef;
  totalVotingPower : Z
}.

Definition set_Validators (vals : ValidatorSet) (l : list Validator) : ValidatorSet :=
  mkValidatorSet l (Proposer vals) (totalVotingPower vals).

(** A nil set is [None]. *)
Definition IsNilOrEmpty (vals : option ValidatorSet) : bool :=
  match vals with None => true | Some v => zlen (Validators v) =? 0 end.

(** The sum with clipping; panics above the maximum. *)
Definition add_power (sum : Z) (val : Validator) : outcome Z :=
  let sum := safeAddClip sum (val_VotingPower val) in
  if MaxTotalVotingPower <? sum then Panic else Ret sum.

Definition updateTotalVotingPower (vals : ValidatorSet) : outcome ValidatorSet :=
  sum ← foldM add_power 0 (Validators vals);
  Ret (mkValidatorSet (Validators vals) (Proposer vals) sum).

Definition TotalVotingPower (vals : ValidatorSet) : outcome (Z * ValidatorSet) :=
  if totalVotingPower vals =? 0 then
    vals' ← updateTotalVotingPower vals; Ret (totalVotingPower vals', vals')
  else Ret (totalVotingPower vals, vals).

(** [sort.Search] over the addresses. *)
Definition search_address (l : list Validator) (address : bytes) : nat :=
  sort_Search (length l) (λ i,
    match l !! i with
    | Some v => match bytes_compare address (val_Address v) with Gt => false | _ => true end
    | None => true
    end).

Definition HasAddress (vals : ValidatorSet) (address : bytes) : bool :=
  let idx := search_address (Validators vals) address in
  match Validators vals !! idx with
  | Some v => bytes_equal (val_Address v) address
  | None => false
  end.

Definition GetByAddress (vals : ValidatorSet) (address : bytes) : Z * option Validator :=
  let idx := search_address (Validators vals) address in
  match Validators vals !! idx with
  | Some v => if bytes_equal (val_Address v) address then (Z.of_nat idx, Some v) else (-1, None)
  | None => (-1, None)
  end.

Definition GetByIndex (vals : ValidatorSet) (index : Z) : bytes * option Validator :=
  if (index <? 0) || (zlen (Validators vals) <=? index) then ([], None)
  else match slice_lookup (Validators vals) index with
       | Some val => (val_Address val, Some val)
       | None => ([], None)
       end.

Definition Size (vals : ValidatorSet) : Z := zlen (Validators vals).

(** *** Priorities *)

Definition max_min_step (acc : Z * Z) (v : Validator) : Z * Z :=
  let '(max, min) := acc in
  let min := if val_ProposerPriority v <? min then val_ProposerPriority v else min in
  let max := if max <? val_ProposerPriority v then val_ProposerPriority v else max in
  (max, min).

Definition computeMaxMinPriorityDiff (vals : ValidatorSet) : outcome Z :=
  if IsNilOrEmpty (Some vals) then Panic
  else
    let '(max, min) := foldl max_min_step (MinInt64, MaxInt64) (Validators vals) in
    let diff := wrap64 (max - min) in
    Ret (if diff <? 0 then wrap64 (-1 * diff) else diff).

(** Go's division truncates; [ratio] is positive whenever it is used. *)
Definition RescalePriorities (vals : ValidatorSet) (diffMax : Z) : outcome ValidatorSet :=
  if IsNilOrEmpty (Some vals) then Panic
  else if diffMax <=? 0 then Ret vals
  else
    diff ← computeMaxMinPriorityDiff vals;
    let ratio := Z.quot (wrap64 (diff + diffMax - 1)) diffMax in
    if diffMax <? diff then
      if ratio =? 0 then Panic
      else Ret (set_Validators vals
             (map (λ v, set_priority v (wrap64 (Z.quot (val_ProposerPriority v) ratio)))
                (Validators vals)))
    else Ret vals.

(** [big.Int.Div] is Euclidean: the floor, the divisor being positive. *)
Definition computeAvgProposerPriority (vals : ValidatorSet) : outcome Z :=
  let n := zlen (Validators vals) in
  let sum := foldl (λ s v, s + val_ProposerPriority v) 0 (Validators vals) in
  if n =? 0 then Panic
  else
    let avg := sum / n in
    if (MinInt64 <=? avg) && (avg <=? MaxInt64) then Ret avg else Panic.

Definition shiftByAvgProposerPriority (vals : ValidatorSet) : outcome ValidatorSet :=
  if IsNilOrEmpty (Some vals) then Panic
  else
    avg ← computeAvgProposerPriority vals;
    Ret (set_Validators vals
           (map (λ v, set_priority v (safeSubClip (val_ProposerPriority v) avg)) (Validators vals))).

(** The pointer to the validator with most priority, as its index. *)
Definition most_step (res : option (nat * Validator)) (iv : nat * Validator) :
    outcome (option (nat * Validator)) :=
  match res with
  | None => Ret (Some iv)
  | Some r => b ← keeps_receiver r.2 iv.2; Ret (Some (if (b : bool) then r else iv))
  end.

Definition getValWithMostPriority (vals : ValidatorSet) : outcome (option (nat * Validator)) :=
  foldM most_step None (imap pair (Validators vals)).

Definition incrementProposerPriority (vals : ValidatorSet) : outcome (ValidatorSet * ProposerRef) :=
  let vals := set_Validators vals
    (map (λ v, set_priority v (safeAddClip (val_ProposerPriority v) (val_VotingPower v)))
       (Validators vals)) in
  most ← getValWithMostPriority vals;
  '(i, mostest) ← or_panic most;
  '(total, vals) ← TotalVotingPower vals;
  Ret (set_Validators vals
         (<[i := set_priority mostest (safeSubClip (val_ProposerPriority mostest) total)]>
            (Validators vals)),
       to_ref mostest).

(** The loop of [IncrementProposerPriority]; also lists the proposers. *)
Fixpoint increment_loop (times : nat) (vals : ValidatorSet) (proposers : list ProposerRef) :
    outcome (ValidatorSet * list ProposerRef) :=
  match times with
  | O => Ret (vals, proposers)
  | S times' =>
      '(vals, p) ← incrementProposerPriority vals;
      increment_loop times' vals (proposers ++ [p])
  end.

Definition IncrementProposerPriority (vals : ValidatorSet) (times : Z) : outcome ValidatorSet :=
  if IsNilOrEmpty (Some vals) then Panic
  else if times <=? 0 then Panic
  else
    '(total, vals) ← TotalVotingPower vals;
    let diffMax := wrap64 (PriorityWindowSizeFactor * total) in
    vals ← RescalePriorities vals diffMax;
    vals ← shiftByAvgProposerPriority vals;
    '(vals, proposers) ← increment_loop (Z.to_nat times) vals [];
    Ret (mkValidatorSet (Validators vals) (last proposers) (totalVotingPower vals)).

Definition validatorListCopy (valsList : list Validator) : list Validator := valsList.

Definition Copy (vals : ValidatorSet) : ValidatorSet :=
  mkValidatorSet (validatorListCopy (Validators vals)) (Proposer vals) (totalVotingPower vals).

Definition CopyIncrementProposerPriority (vals : ValidatorSet) (times : Z) : outcome ValidatorSet :=
  IncrementProposerPriority (Copy vals) times.

Definition find_step (proposer : option Validator) (val : Validator) : outcome (option Validator) :=
  let compare := Some <$> CompareProposerPriority proposer val in
  match proposer with
  | None => compare
  | Some p => if negb (bytes_equal (val_Address val) (val_Address p)) then compare else Ret proposer
  end.

Definition findProposer (vals : ValidatorSet) : outcome (option Validator) :=
  foldM find_step None (Validators vals).

Definition GetProposer (vals : ValidatorSet) : outcome (option ProposerRef * ValidatorSet) :=
  if zlen (Validators vals) =? 0 then Ret (None, vals)
  else
    match Proposer vals with
    | Some p => Ret (Some p, vals)
    | None =>
        p ← findProposer vals;
        let p := to_ref <$> p in
        Ret (p, mkValidatorSet (Validators vals) p (totalVotingPower vals))
    end.

(** *** Changes *)

Inductive update_error :=
| ErrDuplicateEntry
| ErrNegativePower
| ErrPowerTooHigh
| ErrRemovalNotAllowed
| ErrRemoveUnknown
| ErrTotalPowerTooHigh
| ErrEmptySet.

Definition by_address (a b : Validator) : bool :=
  match bytes_compare (val_Address a) (val_Address b) with Lt => true | _ => false end.

Fixpoint scan_changes (changes : list Validator) (prevAddr : bytes)
    (updates removals : list Validator) : (list Validator * list Validator) + update_error :=
  match changes with
  | [] => inl (updates, removals)
  | valUpdate :: rest =>
      if bytes_equal (val_Address valUpdate) prevAddr then inr ErrDuplicateEntry
      else if val_VotingPower valUpdate <? 0 then inr ErrNegativePower
      else if MaxTotalVotingPower <? val_VotingPower valUpdate then inr ErrPowerTooHigh
      else if val_VotingPower valUpdate =? 0
      then scan_changes rest (val_Address valUpdate) updates (removals ++ [valUpdate])
      else scan_changes rest (val_Address valUpdate) (updates ++ [valUpdate]) removals
  end.

Definition processChanges (origChanges : list Validator) :
    (list Validator * list Validator) + update_error :=
  scan_changes (sort_Sort by_address (validatorListCopy origChanges)) [] [] [].

(** The loop of [verifyUpdates]: the total voting power and the number of new
    validators, or [None] when the maximum would be exceeded. *)
Fixpoint verify_updates_loop (vals : ValidatorSet) (updates : list Validator) (total numNew : Z) :
    option (Z * Z) :=
  match updates with
  | [] => Some (total, numNew)
  | valUpdate :: rest =>
      let '(total, numNew) :=
        match (GetByAddress vals (val_Address valUpdate)).2 with
        | None => (wrap64 (total + val_VotingPower valUpdate), numNew + 1)
        | Some val =>
            (wrap64 (total + wrap64 (val_VotingPower valUpdate - val_VotingPower val)), numNew)
        end in
      if MaxTotalVotingPower <? total then None
      else verify_updates_loop vals rest total numNew
  end.

Definition verifyUpdates (updates : list Validator) (vals : ValidatorSet) :
    outcome (ValidatorSet * option (Z * Z)) :=
  '(total, vals) ← TotalVotingPower vals;
  Ret (vals, verify_updates_loop vals updates total 0).

Definition computeNewPriorities (updates : list Validator) (vals : ValidatorSet)
    (updatedTotalVotingPower : Z) : list Validator :=
  map (λ valUpdate,
    match (GetByAddress vals (val_Address valUpdate)).2 with
    | None =>
        set_priority valUpdate
          (wrap64 (- wrap64 (updatedTotalVotingPower + Z.shiftr updatedTotalVotingPower 3)))
    | Some val => set_priority valUpdate (val_ProposerPriority val)
    end) updates.

(** Merges two lists sorted by address; an update replaces an existing entry. *)
Fixpoint merge_updates (existing : list Validator) : list Validator → list Validator :=
  fix merge (updates : list Validator) : list Validator :=
    match existing, updates with
    | [], _ => updates
    | _, [] => existing
    | e :: existing', u :: updates' =>
        match bytes_compare (val_Address e) (val_Address u) with
        | Lt => e :: merge_updates existing' updates
        | Eq => u :: merge_updates existing' updates'
        | Gt => u :: merge updates'
        end
    end.

Definition applyUpdates (vals : ValidatorSet) (updates : list Validator) : ValidatorSet :=
  set_Validators vals (merge_updates (Validators vals) updates).

Definition verifyRemovals (deletes : list Validator) (vals : ValidatorSet) : outcome bool :=
  if forallb (λ v, match (GetByAddress vals (val_Address v)).2 with Some _ => true | None => false end)
       deletes
  then if zlen (Validators vals) <? zlen deletes then Panic else Ret true
  else Ret false.

(** The loop of [applyRemovals]; running out of validators is an index out of
    range. *)
Fixpoint removals_loop (existing deletes : list Validator) : outcome (list Validator) :=
  match deletes with
  | [] => Ret existing
  | d :: deletes' =>
      match existing with
      | [] => Panic
      | e :: existing' =>
          if bytes_equal (val_Address e) (val_Address d) then removals_loop existing' deletes'
          else r ← removals_loop existing' deletes; Ret (e :: r)
      end
  end.

(** The result is built in a slice of [len(existing)-len(deletes)] entries. *)
Definition applyRemovals (vals : ValidatorSet) (deletes : list Validator) : outcome ValidatorSet :=
  let room := zlen (Validators vals) - zlen deletes in
  if room <? 0 then Panic
  else
    merged ← removals_loop (Validators vals) deletes;
    if room <? zlen merged then Panic else Ret (set_Validators vals merged).

Definition updateWithChangeSet (vals : ValidatorSet) (changes : list Validator)
    (allowDeletes : bool) : outcome (ValidatorSet * option update_error) :=
  if zlen changes <=? 0 then Ret (vals, None)
  else
    match processChanges changes with
    | inr err => Ret (vals, Some err)
    | inl (updates, deletes) =>
        if negb allowDeletes && negb (zlen deletes =? 0) then Ret (vals, Some ErrRemovalNotAllowed)
        else
          ok ← verifyRemovals deletes vals;
          if negb ok then Ret (vals, Some ErrRemoveUnknown)
          else
            '(vals, res) ← verifyUpdates updates vals;
            match res with
            | None => Ret (vals, Some ErrTotalPowerTooHigh)
            | Some (updatedTotalVotingPower, numNewValidators) =>
                if (numNewValidators =? 0) && (zlen (Validators vals) =? zlen deletes)
                then Ret (vals, Some ErrEmptySet)
                else
                  let updates := computeNewPriorities updates vals updatedTotalVotingPower in
                  let vals := applyUpdates vals updates in
                  vals ← applyRemovals vals deletes;
                  vals ← updateTotalVotingPower vals;
                  '(total, vals) ← TotalVotingPower vals;
                  vals ← RescalePriorities vals (wrap64 (PriorityWindowSizeFactor * total));
                  vals ← shiftByAvgProposerPriority vals;
                  Ret (vals, None)
            end
    end.

Definition UpdateWithChangeSet (vals : ValidatorSet) (changes : list Validator) :
    outcome (ValidatorSet * option update_error) :=
  updateWithChangeSet vals changes true.

Definition NewValidatorSet (valz : list Validator) : outcome ValidatorSet :=
  '(vals, err) ← updateWithChangeSet (mkValidatorSet [] None 0) valz false;
  match err with
  | Some _ => Panic
  | None => if 0 <? zlen valz then IncrementProposerPriority vals 1 else Ret vals
  end.

(** ** Lookup by address *)

Definition sorted (l : list Validator) : Prop := StronglySorted bytes_lt (map val_Address l).

Lemma sorted_cons v l :
  sorted (v :: l) ↔ sorted l ∧ ∀ w, w ∈ l → bytes_lt (val_Address v) (val_Address w).
Proof.
  unfold sorted. simpl. split.
  - intros H. apply StronglySorted_inv in H as [H1 H2]. split; [done|].
    intros w Hw. rewrite List.Forall_forall in H2. apply H2, in_map. by apply list_elem_of_In.
  - intros [H1 H2]. constructor; [done|]. apply List.Forall_forall.
    intros a (w & <- & Hw)%in_map_iff. by apply H2, list_elem_of_In.
Qed.

Lemma sorted_lookup l i j v w :
  sorted l → l !! i = Some v → l !! j = Some w → (i < j)%nat →
  bytes_lt (val_Address v) (val_Address w).
Proof.
  revert i j. induction l as [|x l IH]; intros i j Hs Hi Hj Hlt; [by rewrite lookup_nil in Hi|].
  apply sorted_cons in Hs as [Hs Hx]. destruct j as [|j]; [lia|]. simpl in Hj.
  destruct i as [|i]; simplify_eq/=; [|eapply IH; eauto; lia].
  apply Hx. by eapply list_elem_of_lookup_2.
Qed.

Lemma sorted_inj l i j v w :
  sorted l → l !! i = Some v → l !! j = Some w → val_Address v = val_Address w → i = j.
Proof.
  intros Hs Hi Hj E. destruct (decide (i < j)%nat) as [Hlt|].
  { destruct (bytes_lt_ne _ _ (sorted_lookup l i j v w Hs Hi Hj Hlt) E). }
  destruct (decide (j < i)%nat) as [Hlt|]; [|lia].
  destruct (bytes_lt_ne _ _ (sorted_lookup l j i w v Hs Hj Hi Hlt) (eq_sym E)).
Qed.

(** The sign of [bytes.Compare(a, b) <= 0]. *)
Definition le_addr (a b : bytes) : bool := match bytes_compare a b with Gt => false | _ => true end.

Lemma le_addr_spec a b : le_addr a b = true ↔ a = b ∨ bytes_lt a b.
Proof.
  unfold le_addr, bytes_lt. destruct (bytes_compare a b) eqn:E.
  - apply bytes_compare_eq in E. naive_solver.
  - naive_solver.
  - split; [done|]. intros [->|]; [by rewrite bytes_compare_refl in E|done].
Qed.

Lemma search_found l i v :
  sorted l → l !! i = Some v → search_address l (val_Address v) = i.
Proof.
  intros Hs Hi. unfold search_address.
  set (f := λ i, _). pose proof (lookup_lt_Some _ _ _ Hi) as Hlen.
  destruct (sort_Search_spec (length l) f) as (Hle & Hlo & Hhi).
  { intros a b Hab Hb. unfold f. destruct (lookup_lt_is_Some_2 l b Hb) as [w Hw].
    destruct (lookup_lt_is_Some_2 l a ltac:(lia)) as [u Hu]. rewrite Hu, Hw.
    fold (le_addr (val_Address v) (val_Address u)) (le_addr (val_Address v) (val_Address w)).
    rewrite !le_addr_spec. intros Hva. destruct (decide (a = b)) as [->|]; [naive_solver|].
    assert (bytes_lt (val_Address u) (val_Address w)) as Huw
      by (eapply (sorted_lookup l a b); eauto; lia).
    right. destruct Hva as [E|Hva]; [by rewrite E|].
    exact (bytes_lt_trans _ _ _ Hva Huw). }
  set (r := sort_Search (length l) f) in *.
  destruct (decide (r < i)%nat) as [Hri|].
  - exfalso. specialize (Hhi r ltac:(lia)).
    destruct (lookup_lt_is_Some_2 l r ltac:(lia)) as [u Hu]. unfold f in Hhi. rewrite Hu in Hhi.
    fold (le_addr (val_Address v) (val_Address u)) in Hhi. apply le_addr_spec in Hhi.
    assert (bytes_lt (val_Address u) (val_Address v)) as Huv by (eapply (sorted_lookup l r i); eauto).
    destruct Hhi as [E|Hvu]; [by eapply bytes_lt_ne|]. by eapply bytes_lt_asym.
  - destruct (decide (i < r)%nat) as [Hir|]; [|lia]. exfalso. specialize (Hlo i Hir).
    unfold f in Hlo. rewrite Hi, bytes_compare_refl in Hlo. done.
Qed.

Lemma GetByAddress_found vals i v :
  sorted (Validators vals) → Validators vals !! i = Some v →
  GetByAddress vals (val_Address v) = (Z.of_nat i, Some v).
Proof.
  intros Hs Hi. unfold GetByAddress. rewrite (search_found _ i v), Hi by done.
  by rewrite (proj2 (bytes_equal_true _ _) eq_refl).
Qed.

Lemma GetByAddress_absent vals a :
  (∀ v, v ∈ Validators vals → val_Address v ≠ a) → GetByAddress vals a = (-1, None).
Proof.
  intros Hno. unfold GetByAddress.
  destruct (Validators vals !! search_address (Validators vals) a) as [v|] eqn:Ev; [|done].
  rewrite (proj2 (bytes_equal_false (val_Address v) a)); [done|].
  apply Hno. by eapply list_elem_of_lookup_2.
Qed.

Lemma address_cases vals a :
  (∃ i v, Validators vals !! i = Some v ∧ val_Address v = a) ∨
  (∀ v, v ∈ Validators vals → val_Address v ≠ a).
Proof.
  destruct (decide (Exists (λ v, val_Address v = a) (Validators vals))) as [H|H].
  - apply Exists_exists in H as (v & [i Hi]%list_elem_of_lookup & E). eauto.
  - right. intros v Hv E. apply H, Exists_exists. eauto.
Qed.

Lemma HasAddress_GetByAddress vals a :
  HasAddress vals a = bool_decide (is_Some (GetByAddress vals a).2).
Proof.
  unfold HasAddress, GetByAddress. destruct (_ !! _) as [v|]; [|done].
  by destruct (bytes_equal (val_Address v) a).
Qed.

(** Lookup by address is exact on a set sorted by address: [GetByAddress] returns
    the index and the validator with that address, [-1] and nothing when there is
    none, and [HasAddress] agrees. *)
Theorem GetByAddress_exact (vals : ValidatorSet) (a : bytes) :
  sorted (Validators vals) →
  (∀ i v, GetByAddress vals a = (i, Some v) ↔
     slice_lookup (Validators vals) i = Some v ∧ val_Address v = a) ∧
  (GetByAddress vals a = (-1, None) ↔ ∀ v, v ∈ Validators vals → val_Address v ≠ a) ∧
  (HasAddress vals a = true ↔ ∃ v, v ∈ Validators vals ∧ val_Address v = a).
Proof.
  intros Hs. rewrite HasAddress_GetByAddress, bool_decide_eq_true.
  destruct (address_cases vals a) as [(i & v & Hi & <-)|Hno].
  - rewrite (GetByAddress_found _ i v) by done.
    assert (v ∈ Validators vals) by (by eapply list_elem_of_lookup_2).
    split_and!; [|naive_solver|split; [naive_solver|intros _; by eexists]].
    intros j w. split.
    + intros [= <- <-]. by rewrite slice_lookup_nat.
    + intros [[Hj Hw]%slice_lookup_Some Ea]. pose proof (sorted_inj _ _ _ _ _ Hs Hi Hw (eq_sym Ea)).
      subst i. rewrite Hi in Hw. injection Hw as <-. rewrite Z2Nat.id by lia. done.
  - rewrite GetByAddress_absent by done. split_and!; [|naive_solver|].
    + intros j w. split; [done|]. intros [[_ Hw]%slice_lookup_Some Ea]. exfalso.
      eapply Hno; eauto using list_elem_of_lookup_2.
    + split; [by intros [? ?]|]. naive_solver.
Qed.

(** ** Arithmetic *)

Lemma safeAddClip_exact a b : in_int64 (a + b) → safeAddClip a b = a + b.
Proof.
  unfold safeAddClip, safeAdd, in_int64. intros H.
  case_Z; simpl; rewrite ?wrap64_id by done; lia.
Qed.

Lemma safeSubClip_exact a b : in_int64 (a - b) → safeSubClip a b = a - b.
Proof.
  unfold safeSubClip, safeSub, in_int64. intros H.
  case_Z; simpl; rewrite ?wrap64_id by done; lia.
Qed.

(** Clipped arithmetic: on int64 operands, [safeAddClip] and [safeSubClip] return
    the exact result clamped to the int64 range. *)
Theorem safe_arithmetic (a b : Z) :
  in_int64 a → in_int64 b →
  safeAddClip a b = Z.max MinInt64 (Z.min MaxInt64 (a + b)) ∧
  safeSubClip a b = Z.max MinInt64 (Z.min MaxInt64 (a - b)).
Proof.
  unfold safeAddClip, safeAdd, safeSubClip, safeSub, in_int64. intros Ha Hb.
  assert (MinInt64 < 0 < MaxInt64) by (unfold MinInt64, MaxInt64; lia).
  split; case_Z; simpl; try lia; rewrite wrap64_id; unfold in_int64; lia.
Qed.

Lemma safe_arithmetic_witness :
  safeAddClip MaxInt64 5 = MaxInt64 ∧ safeSubClip MinInt64 5 = MinInt64 ∧
  safeAddClip 3 4 = Z.max MinInt64 (Z.min MaxInt64 (3 + 4)).
Proof.
  split_and!; [vm_compute; reflexivity..|].
  apply (safe_arithmetic 3 4); vm_compute; split; discriminate.
Defined.

Lemma safeAddClip_range a b : in_int64 (safeAddClip a b).
Proof.
  unfold safeAddClip, safeAdd. case_Z; simpl; try apply wrap64_range;
    unfold in_int64, MinInt64, MaxInt64; lia.
Qed.

Lemma safeSubClip_range a b : in_int64 (safeSubClip a b).
Proof.
  unfold safeSubClip, safeSub. case_Z; simpl; try apply wrap64_range;
    unfold in_int64, MinInt64, MaxInt64; lia.
Qed.

#[export] Hint Resolve safeAddClip_range safeSubClip_range : go.

(** ** The invariant *)

Definition power (l : list Validator) : Z := sumZ val_VotingPower l.

Record wf (vals : ValidatorSet) : Prop := {
  wf_sorted : sorted (Validators vals);
  wf_power v : v ∈ Validators vals → 0 < val_VotingPower v;
  wf_total : power (Validators vals) ≤ MaxTotalVotingPower;
  wf_cached : totalVotingPower vals = 0 ∨ totalVotingPower vals = power (Validators vals);
  wf_priority v : v ∈ Validators vals → in_int64 (val_ProposerPriority v)
}.

Lemma add_power_sum l acc :
  0 ≤ acc → (∀ v, v ∈ l → 0 < val_VotingPower v) → acc + power l ≤ MaxTotalVotingPower →
  foldM add_power acc l = Ret (acc + power l).
Proof.
  revert acc. induction l as [|v l IH]; intros acc Hacc Hpos Hle; cbn [foldM].
  { unfold power. rewrite sumZ_nil. f_equal. lia. }
  unfold power in *. rewrite sumZ_cons in *.
  pose proof (Hpos v ltac:(set_solver)) as Hv.
  assert (0 ≤ sumZ val_VotingPower l).
  { apply sumZ_nonneg. intros w Hw. specialize (Hpos w ltac:(set_solver)). lia. }
  assert (MaxTotalVotingPower ≤ MaxInt64) by (vm_compute; discriminate).
  assert (add_power acc v = Ret (acc + val_VotingPower v)) as ->.
  { unfold add_power. rewrite safeAddClip_exact by (unfold in_int64, MinInt64; lia).
    by rewrite (proj2 (Z.ltb_ge _ _)) by lia. }
  cbn. rewrite IH by (set_solver || lia). f_equal. lia.
Qed.

Lemma power_pos l : l ≠ [] → (∀ v, v ∈ l → 0 < val_VotingPower v) → 0 < power l.
Proof.
  destruct l as [|v l]; [done|]. intros _ H. unfold power. rewrite sumZ_cons.
  assert (0 ≤ sumZ val_VotingPower l).
  { apply sumZ_nonneg. intros w Hw. specialize (H w ltac:(set_solver)). lia. }
  specialize (H v ltac:(set_solver)). lia.
Qed.

Definition with_total (vals : ValidatorSet) : ValidatorSet :=
  mkValidatorSet (Validators vals) (Proposer vals) (power (Validators vals)).

Lemma TotalVotingPower_wf vals :
  wf vals → TotalVotingPower vals = Ret (power (Validators vals), with_total vals).
Proof.
  intros [Hs Hp Ht Hc _]. unfold TotalVotingPower, updateTotalVotingPower, with_total.
  destruct (Z.eqb_spec (totalVotingPower vals) 0) as [E|E].
  - rewrite add_power_sum by (done || lia). done.
  - destruct Hc as [|Hc]; [lia|]. rewrite Hc. destruct vals; simpl in *. by rewrite Hc.
Qed.

Lemma wf_with_total vals : wf vals → wf (with_total vals).
Proof. intros []. split; simpl; auto. Qed.

(** Two lists that differ in priorities only. *)
Definition same_members (l l' : list Validator) : Prop := map to_ref l' = map to_ref l.

Lemma same_members_facts l l' :
  same_members l l' →
  map val_Address l' = map val_Address l ∧ power l' = power l ∧ length l' = length l ∧
  (∀ v', v' ∈ l' → ∃ v, v ∈ l ∧ to_ref v = to_ref v').
Proof.
  unfold same_members, power. revert l'.
  induction l as [|v l IH]; intros [|v' l'] E; simpl in E; try done.
  { split_and!; [done..|]. set_solver. }
  injection E as E1 E2 E3 E4. destruct (IH l' E4) as (A & B & C & D).
  simpl. rewrite !sumZ_cons, A, B, C, E1, E3. split_and!; [done..|].
  intros w [->|Hw]%elem_of_cons.
  - exists v. split; [apply list_elem_of_here|]. unfold to_ref. congruence.
  - destruct (D w Hw) as (u & ? & ?). exists u. split; [by apply list_elem_of_further|done].
Qed.

Lemma same_members_map f l :
  (∀ v, to_ref (f v) = to_ref v) → same_members l (map f l).
Proof. intros H. unfold same_members. rewrite map_map. by apply map_ext. Qed.

Lemma same_members_wf vals l' :
  wf vals → same_members (Validators vals) l' →
  (∀ v, v ∈ l' → in_int64 (val_ProposerPriority v)) → wf (set_Validators vals l').
Proof.
  intros [Hs Hp Ht Hc _] Hm Hprio. destruct (same_members_facts _ _ Hm) as (A & B & C & D).
  split; simpl; [|..|done].
  - unfold sorted in *. by rewrite A.
  - intros v Hv. destruct (D v Hv) as (u & Hu & E). unfold to_ref in E. injection E as _ _ E.
    rewrite <-E. by apply Hp.
  - by rewrite B.
  - by rewrite B.
Qed.

(** ** Rescaling and centering *)

Notation prio := val_ProposerPriority.

Lemma max_min_spec l mx mn :
  foldl max_min_step (MinInt64, MaxInt64) l = (mx, mn) →
  (∀ v, v ∈ l → in_int64 (prio v)) →
  (∀ v, v ∈ l → mn ≤ prio v ≤ mx) ∧
  (l = [] ∧ mx = MinInt64 ∧ mn = MaxInt64 ∨
   (∃ v, v ∈ l ∧ prio v = mx) ∧ (∃ v, v ∈ l ∧ prio v = mn)).
Proof.
  revert mx mn. induction l as [|x l IH] using rev_ind; intros mx mn E Hi; simpl in E.
  { injection E as <- <-. split; [set_solver|]. by left. }
  rewrite foldl_app in E. simpl in E.
  destruct (foldl _ _ l) as [mx0 mn0] eqn:E0. simpl in E. injection E as <- <-.
  destruct (IH mx0 mn0 eq_refl) as [Hb Hatt]; [intros v Hv; apply Hi; set_solver|].
  assert (in_int64 (prio x)) as Hx by (apply Hi; set_solver). unfold in_int64 in Hx.
  split.
  { intros v [Hv| ->%list_elem_of_singleton]%elem_of_app; [specialize (Hb v Hv)|]; case_Z; lia. }
  right. destruct Hatt as [(-> & -> & ->)|[(v & Hv & Ev) (w & Hw & Ew)]].
  - split; exists x; (split; [set_solver|]); case_Z; lia.
  - split; case_Z; try (exists x; split; [set_solver|done]);
      [exists v|exists w]; (split; [set_solver|done]).
Qed.

(** Truncated division shrinks a spread of at most [r * k] to at most [k]. *)
Lemma quot_spread a b r k :
  0 < r → 0 ≤ k → a - b ≤ r * k → Z.quot a r - Z.quot b r ≤ k.
Proof.
  intros Hr Hk Hab.
  pose proof (Z.quot_rem a r ltac:(lia)) as Ea. pose proof (Z.quot_rem b r ltac:(lia)) as Eb.
  assert (Z.abs (Z.rem a r) < r) as Ba by (pose proof (Z.rem_bound_abs a r); lia).
  assert (Z.abs (Z.rem b r) < r) as Bb by (pose proof (Z.rem_bound_abs b r); lia).
  assert (0 ≤ a → 0 ≤ Z.rem a r) by (intros; apply Z.rem_nonneg; lia).
  assert (a ≤ 0 → Z.rem a r ≤ 0) by (intros; apply Z.rem_nonpos; lia).
  assert (0 ≤ b → 0 ≤ Z.rem b r) by (intros; apply Z.rem_nonneg; lia).
  assert (b ≤ 0 → Z.rem b r ≤ 0) by (intros; apply Z.rem_nonpos; lia).
  set (qa := Z.quot a r) in *. set (qb := Z.quot b r) in *.
  set (ra := Z.rem a r) in *. set (rb := Z.rem b r) in *.
  destruct (Z.le_gt_cases (qa - qb) k) as [|Hgt]; [done|exfalso].
  assert (r ≤ rb - ra) by nia.
  destruct (Z.le_gt_cases 0 a), (Z.le_gt_cases 0 b); try lia.
  assert (qa ≤ 0) by nia. assert (0 ≤ qb) by nia. lia.
Qed.

Lemma quot_wrap p r : in_int64 p → 0 < r → wrap64 (Z.quot p r) = Z.quot p r.
Proof.
  intros Hp Hr. apply wrap64_id. unfold in_int64, MinInt64, MaxInt64 in *.
  destruct (Z.le_gt_cases 0 p).
  - rewrite Z.quot_div_nonneg by lia. pose proof (Z.div_pos p r).
    pose proof (Z.div_le_upper_bound p r p ltac:(lia)). nia.
  - replace p with (- - p) by lia. rewrite Z.quot_opp_l by lia.
    rewrite Z.quot_div_nonneg by lia. pose proof (Z.div_pos (- p) r).
    pose proof (Z.div_le_upper_bound (- p) r (- p) ltac:(lia)). nia.
Qed.

(** Priorities lie within [k] of each other. *)
Definition spread (l : list Validator) (k : Z) : Prop :=
  ∀ v w, v ∈ l → w ∈ l → prio v - prio w ≤ k.

Lemma Rescale_ok vals diffMax :
  Validators vals ≠ [] → 0 < diffMax ≤ 2 ^ 62 →
  (∀ v, v ∈ Validators vals → in_int64 (prio v)) →
  ∃ l, RescalePriorities vals diffMax = Ret (set_Validators vals l) ∧
    same_members (Validators vals) l ∧ (∀ v, v ∈ l → in_int64 (prio v)) ∧
    (spread (Validators vals) (MaxInt64 - diffMax) → spread l diffMax).
Proof.
  intros Hne Hd Hi. unfold RescalePriorities, computeMaxMinPriorityDiff.
  assert (IsNilOrEmpty (Some vals) = false) as -> by (by destruct vals as [[] ? ?]).
  rewrite (proj2 (Z.leb_gt _ _)) by lia.
  destruct (foldl _ _ _) as [mx mn] eqn:E.
  destruct (max_min_spec _ _ _ E Hi) as [Hb [(?&?&?)|[(v & Hv & Ev) (w & Hw & Ew)]]]; [done|].
  assert (in_int64 mx ∧ in_int64 mn) as [Hmx Hmn] by (split; [rewrite <-Ev|rewrite <-Ew]; auto).
  cbn [mbind outcome_bind].
  set (diff := if wrap64 (mx - mn) <? 0 then _ else _).
  assert (set_Validators vals (Validators vals) = vals) as Heta by (by destruct vals).
  assert (in_int64 diff) as Hdiff by (unfold diff; case_Z; apply wrap64_range).
  assert (mx - mn ≤ MaxInt64 → diff = mx - mn) as Hexact.
  { intros Hle. specialize (Hb v Hv). unfold diff. rewrite wrap64_id by (unfold in_int64, MinInt64; lia).
    case_Z; lia. }
  destruct (Z.ltb_spec diffMax diff) as [Hlt|Hge].
  - set (ratio := Z.quot _ _).
    assert (ratio ≠ 0) as Hr.
    { unfold ratio. unfold in_int64, MinInt64, MaxInt64 in Hdiff.
      destruct (Z.le_gt_cases (diff + diffMax - 1) MaxInt64) as [Hle|Hgt]; unfold MaxInt64 in *.
      - rewrite wrap64_id by (unfold in_int64, MinInt64, MaxInt64; lia).
        rewrite Z.quot_div_nonneg by lia. intros Ez.
        pose proof (Z.div_mod (diff + diffMax - 1) diffMax ltac:(lia)).
        pose proof (Z.mod_pos_bound (diff + diffMax - 1) diffMax ltac:(lia)). nia.
      - assert (wrap64 (diff + diffMax - 1) = diff + diffMax - 1 - 2 ^ 64) as ->.
        { unfold wrap64. symmetry. apply Z.sub_cancel_r with (p := - 2 ^ 63).
          replace (diff + diffMax - 1 - 2 ^ 64 - - 2 ^ 63)
            with (diff + diffMax - 1 + 2 ^ 63 + (-1) * 2 ^ 64) by lia.
          rewrite <-(Z.mod_small (diff + diffMax - 1 + 2 ^ 63 + (-1) * 2 ^ 64) (2 ^ 64)) by lia.
          rewrite Z.mod_add by lia. lia. }
        intros Ez. apply Z.quot_small_iff in Ez; lia. }
    rewrite (proj2 (Z.eqb_neq _ _)) by done.
    eexists. split; [reflexivity|]. split_and!.
    + apply same_members_map. by intros [].
    + intros u (u' & -> & Hu')%list_elem_of_fmap. simpl. apply wrap64_range.
    + intros Hs. specialize (Hs v w Hv Hw). rewrite Ev, Ew in Hs.
      specialize (Hexact ltac:(lia)).
      intros u1 u2 (u1' & -> & H1)%list_elem_of_fmap (u2' & -> & H2)%list_elem_of_fmap. simpl.
      assert (ratio = (diff + diffMax - 1) / diffMax) as Er.
      { unfold ratio. rewrite wrap64_id by (unfold in_int64, MinInt64 in *; lia).
        apply Z.quot_div_nonneg; lia. }
      assert (0 < ratio) as Hrp by (rewrite Er in *; pose proof (Z.div_pos (diff + diffMax - 1) diffMax); lia).
      assert (diff ≤ ratio * diffMax).
      { rewrite Er. pose proof (Z.div_mod (diff + diffMax - 1) diffMax ltac:(lia)).
        pose proof (Z.mod_pos_bound (diff + diffMax - 1) diffMax ltac:(lia)). lia. }
      rewrite !quot_wrap by auto. apply quot_spread; [lia..|].
      pose proof (Hb _ H1). pose proof (Hb _ H2). lia.
  - exists (Validators vals). rewrite Heta. split_and!; [done..|].
    intros Hs u1 u2 H1 H2. specialize (Hs v w Hv Hw). rewrite Ev, Ew in Hs.
    specialize (Hexact ltac:(lia)). pose proof (Hb _ H1). pose proof (Hb _ H2). lia.
Qed.

Lemma foldl_prio_sum l a : foldl (λ s v, s + prio v) a l = a + sumZ prio l.
Proof.
  revert a. induction l as [|v l IH]; intros a; simpl; [rewrite sumZ_nil; lia|].
  rewrite IH, sumZ_cons. lia.
Qed.

Lemma sumZ_bounds {A} (f : A → Z) l lo hi :
  (∀ x, x ∈ l → lo ≤ f x ≤ hi) → zlen l * lo ≤ sumZ f l ≤ zlen l * hi.
Proof.
  unfold zlen. induction l as [|x l IH]; intros H; [rewrite sumZ_nil; simpl; lia|].
  rewrite sumZ_cons. specialize (IH ltac:(set_solver)). specialize (H x ltac:(set_solver)).
  simpl length. lia.
Qed.

(** The average lies between the extreme priorities. *)
Lemma avg_between l lo hi :
  l ≠ [] → (∀ v, v ∈ l → lo ≤ prio v ≤ hi) → lo ≤ sumZ prio l / zlen l ≤ hi.
Proof.
  intros Hne Hb. assert (0 < zlen l) by (destruct l; [done|unfold zlen; simpl; lia]).
  pose proof (sumZ_bounds prio l lo hi Hb). split.
  - apply Z.div_le_lower_bound; lia.
  - apply Z.div_le_upper_bound; lia.
Qed.

Lemma computeAvg_ok vals :
  Validators vals ≠ [] → (∀ v, v ∈ Validators vals → in_int64 (prio v)) →
  computeAvgProposerPriority vals = Ret (sumZ prio (Validators vals) / zlen (Validators vals)).
Proof.
  intros Hne Hi. unfold computeAvgProposerPriority. rewrite foldl_prio_sum, Z.add_0_l.
  assert (0 < zlen (Validators vals)) by (destruct (Validators vals); [done|unfold zlen; simpl; lia]).
  rewrite (proj2 (Z.eqb_neq _ _)) by lia.
  pose proof (avg_between _ MinInt64 MaxInt64 Hne Hi) as [A B].
  by rewrite (proj2 (Z.leb_le _ _) A), (proj2 (Z.leb_le _ _) B).
Qed.

Lemma sumZ_minus_const l c : sumZ (λ v, prio v - c) l = sumZ prio l - zlen l * c.
Proof.
  unfold zlen. induction l as [|v l IH]; [rewrite !sumZ_nil; simpl; lia|].
  rewrite !sumZ_cons, IH. simpl length. lia.
Qed.

(** Priorities of absolute value at most [k], summing to less than one each. *)
Definition centered (l : list Validator) (k : Z) : Prop :=
  (∀ v, v ∈ l → - k ≤ prio v ≤ k) ∧ 0 ≤ sumZ prio l < zlen l.

Lemma shift_ok vals :
  Validators vals ≠ [] → (∀ v, v ∈ Validators vals → in_int64 (prio v)) →
  ∃ l, shiftByAvgProposerPriority vals = Ret (set_Validators vals l) ∧
    same_members (Validators vals) l ∧ (∀ v, v ∈ l → in_int64 (prio v)) ∧
    (∀ k, 0 ≤ k ≤ MaxInt64 → spread (Validators vals) k → centered l k).
Proof.
  intros Hne Hi. unfold shiftByAvgProposerPriority.
  assert (IsNilOrEmpty (Some vals) = false) as -> by (by destruct vals as [[] ? ?]).
  rewrite computeAvg_ok by done. cbn [mbind outcome_bind]. set (avg := _ / _).
  eexists. split; [reflexivity|]. split_and!.
  - apply same_members_map. by intros [].
  - intros u (u' & -> & Hu')%list_elem_of_fmap. simpl. auto with go.
  - intros k Hk Hs.
    assert (∀ v, v ∈ Validators vals → - k ≤ prio v - avg ≤ k) as Hb.
    { intros v Hv. enough (prio v - k ≤ avg ≤ prio v + k) by lia.
      apply avg_between; [done|]. intros w Hw.
      pose proof (Hs v w Hv Hw). pose proof (Hs w v Hw Hv). lia. }
    assert (∀ v, v ∈ Validators vals → safeSubClip (prio v) avg = prio v - avg) as He.
    { intros v Hv. apply safeSubClip_exact. specialize (Hb v Hv).
      unfold in_int64, MinInt64, MaxInt64 in *. lia. }
    split.
    + intros u (u' & -> & Hu')%list_elem_of_fmap. simpl. rewrite He by done. auto.
    + unfold zlen at 1. rewrite length_map. fold (zlen (Validators vals)).
      change (map ?f ?l) with (f <$> l). rewrite sumZ_fmap.
      rewrite (sumZ_ext _ (λ v, prio v - avg)) by (intros v Hv; simpl; by apply He).
      rewrite sumZ_minus_const.
      assert (0 < zlen (Validators vals)) by (destruct (Validators vals); [done|unfold zlen; simpl; lia]).
      pose proof (Z.div_mod (sumZ prio (Validators vals)) (zlen (Validators vals)) ltac:(lia)).
      pose proof (Z.mod_pos_bound (sumZ prio (Validators vals)) (zlen (Validators vals)) ltac:(lia)).
      unfold avg. lia.
Qed.

(** ** One increment *)

Lemma imap_pair_lookup {A} (l : list A) i v : (i, v) ∈ imap pair l → l !! i = Some v.
Proof.
  intros (j & Hj)%list_elem_of_lookup. rewrite list_lookup_imap in Hj.
  apply fmap_Some in Hj as (w & Hw & E). by injection E as -> ->.
Qed.

Lemma keeps_receiver_ok v w :
  val_Address v ≠ val_Address w →
  ∃ b, keeps_receiver v w = Ret b ∧ (if (b : bool) then prio w ≤ prio v else prio v ≤ prio w).
Proof.
  intros Hne. unfold keeps_receiver. case_Z; try (eexists; split; [done|simpl; lia]).
  destruct (bytes_compare _ _) eqn:E; [by apply bytes_compare_eq in E|..];
    (eexists; split; [done|simpl; lia]).
Qed.

Lemma most_fold ivs r :
  NoDup (map (λ iv, val_Address iv.2) (r :: ivs)) →
  ∃ r', foldM most_step (Some r) ivs = Ret (Some r') ∧ r' ∈ r :: ivs ∧
    ∀ x, x ∈ r :: ivs → prio x.2 ≤ prio r'.2.
Proof.
  revert r. induction ivs as [|iv ivs IH]; intros r Hnd; simpl.
  { exists r. split_and!; [done|set_solver|]. intros x Hx. apply list_elem_of_singleton in Hx as ->. done. }
  simpl in Hnd. apply NoDup_cons in Hnd as [Hr Hnd]. apply NoDup_cons in Hnd as [Hiv Hnd].
  assert (val_Address r.2 ≠ val_Address iv.2) as Hne by (intros E; rewrite E in Hr; set_solver).
  destruct (keeps_receiver_ok _ _ Hne) as (b & -> & Hb). cbn [mbind outcome_bind].
  destruct (IH (if b then r else iv)) as (r' & E & Hin & Hmax).
  { simpl. apply NoDup_cons. split; [|done]. destruct b; [|done]. set_solver. }
  exists r'. split; [done|]. split.
  - destruct b; set_solver.
  - pose proof (Hmax (if b then r else iv) (list_elem_of_here _ _)) as Htop.
    assert (prio r.2 ≤ prio (if b then r else iv).2) by (by destruct b).
    assert (prio iv.2 ≤ prio (if b then r else iv).2) by (by destruct b).
    intros x [->|[->|Hx]%elem_of_cons]%elem_of_cons; [lia..|].
    by apply Hmax, list_elem_of_further.
Qed.

Lemma most_ok l :
  l ≠ [] → sorted l →
  ∃ i v, foldM most_step None (imap pair l) = Ret (Some (i, v)) ∧ l !! i = Some v ∧
    ∀ w, w ∈ l → prio w ≤ prio v.
Proof.
  intros Hne Hs. destruct l as [|x l]; [done|].
  assert (NoDup (map (λ iv, val_Address iv.2) (imap pair (x :: l)))) as Hnd.
  { replace (map _ _) with (map val_Address (x :: l)).
    - apply NoDup_alt. intros i j a Hi Hj.
      change (map ?f ?l) with (f <$> l) in Hi, Hj. rewrite list_lookup_fmap in Hi, Hj.
      apply fmap_Some in Hi as (v & Hv & Ev). apply fmap_Some in Hj as (w & Hw & Ew).
      eapply sorted_inj; [exact Hs|exact Hv|exact Hw|congruence].
    - clear. generalize (x :: l) as k. intros k. apply list_eq. intros i.
      change (map ?f ?l) with (f <$> l). rewrite !list_lookup_fmap, list_lookup_imap.
      by destruct (k !! i). }
  destruct (most_fold (tail (imap pair (x :: l))) (0%nat, x) Hnd) as ([i v] & E & Hin & Hmax).
  exists i, v. split; [exact E|]. split; [by apply imap_pair_lookup|].
  intros w (j & Hj)%list_elem_of_lookup. apply (Hmax (j, w)).
  apply (list_elem_of_lookup_2 _ j). change (imap pair (x :: l) !! j = Some (j, w)).
  by rewrite list_lookup_imap, Hj.
Qed.

Lemma prio_set v p : prio (set_priority v p) = p.
Proof. done. Qed.

Definition added (v : Validator) : Validator :=
  set_priority v (safeAddClip (prio v) (val_VotingPower v)).

Lemma same_members_trans l1 l2 l3 : same_members l1 l2 → same_members l2 l3 → same_members l1 l3.
Proof. unfold same_members. congruence. Qed.

Lemma same_members_insert l i v p :
  l !! i = Some v → same_members l (<[i := set_priority v p]> l).
Proof.
  intros Hi. unfold same_members. change (map ?f ?l) with (f <$> l).
  rewrite list_fmap_insert. apply list_insert_id. by rewrite list_lookup_fmap, Hi.
Qed.

(** One increment never panics on a well-formed, non-empty set: everyone gains its
    power, the validator with most priority pays the total and is the proposer. *)
Lemma increment_ok vals :
  wf vals → Validators vals ≠ [] →
  ∃ i v, (added <$> Validators vals) !! i = Some v ∧
    (∀ w, w ∈ added <$> Validators vals → prio w ≤ prio v) ∧
    let P := power (Validators vals) in
    let vals' := mkValidatorSet
      (<[i := set_priority v (safeSubClip (prio v) P)]> (added <$> Validators vals)) (Proposer vals) P in
    incrementProposerPriority vals = Ret (vals', to_ref v) ∧
    wf vals' ∧ same_members (Validators vals) (Validators vals').
Proof.
  intros Hwf Hne.
  assert (same_members (Validators vals) (added <$> Validators vals)) as Hm
    by (apply same_members_map; by intros []).
  assert (∀ v, v ∈ added <$> Validators vals → in_int64 (prio v)) as Hi.
  { intros u (u' & -> & _)%list_elem_of_fmap. apply safeAddClip_range. }
  pose proof (same_members_wf _ _ Hwf Hm Hi) as Hwf1.
  destruct (same_members_facts _ _ Hm) as (_ & Hpow & _ & _).
  destruct (most_ok (added <$> Validators vals)) as (i & v & E & Hv & Hmax).
  { by destruct (Validators vals). }
  { apply (wf_sorted _ Hwf1). }
  exists i, v. split; [done|]. split; [done|]. cbv zeta.
  assert (same_members (Validators vals)
    (<[i := set_priority v (safeSubClip (prio v) (power (Validators vals)))]> (added <$> Validators vals)))
    as Hm2 by (eapply same_members_trans; [exact Hm|by apply same_members_insert]).
  split_and!; [| |done].
  - unfold incrementProposerPriority, getValWithMostPriority.
    fold added. change (map ?f ?l) with (f <$> l). cbn [Validators set_Validators].
    rewrite E. cbn [mbind outcome_bind or_panic].
    rewrite (TotalVotingPower_wf _ Hwf1). cbn [mbind outcome_bind Validators set_Validators].
    rewrite Hpow. unfold with_total, set_Validators. simpl. by rewrite Hpow.
  - assert (wf (with_total (set_Validators vals (<[i:=set_priority v
      (safeSubClip (prio v) (power (Validators vals)))]> (added <$> Validators vals))))) as H.
    { apply wf_with_total, same_members_wf; [done..|].
      intros u [->|Hu]%elem_of_insert_inv; [apply safeSubClip_range|by apply Hi]. }
    unfold with_total in H. simpl in H.
    by rewrite (proj1 (proj2 (same_members_facts _ _ Hm2))) in H.
Qed.

(** ** Many increments: conservation, bounds, fairness *)

(** The priorities between increments: bounded below, and a sum that is kept. *)
Definition steady (l : list Validator) : Prop :=
  (∀ v, v ∈ l → - (2 * power l) ≤ prio v) ∧ 0 ≤ sumZ prio l < zlen l.

Definition room (l : list Validator) : Prop := (2 * zlen l + 1) * power l ≤ MaxInt64.

Lemma sumZ_upper {A} (f : A → Z) l k x :
  (∀ y, y ∈ l → - k ≤ f y) → x ∈ l → f x ≤ sumZ f l + (zlen l - 1) * k.
Proof.
  intros Hk Hx. pose proof (sumZ_mem_le (λ y, f y + k) l x) as H. cbv beta in H.
  rewrite sumZ_plus in H.
  assert (sumZ (λ _, k) l = zlen l * k) as E.
  { clear. unfold zlen. induction l as [|y l IH]; [done|]. rewrite sumZ_cons, IH. simpl length. lia. }
  rewrite E in H. specialize (H ltac:(intros y Hy; specialize (Hk y Hy); lia) Hx). lia.
Qed.

Lemma length_le_power l : (∀ v, v ∈ l → 0 < val_VotingPower v) → zlen l ≤ power l.
Proof.
  unfold zlen, power. induction l as [|v l IH]; intros H; [done|].
  rewrite sumZ_cons. specialize (IH ltac:(set_solver)). specialize (H v ltac:(set_solver)).
  simpl length. lia.
Qed.

Lemma steady_upper l v :
  steady l → (∀ v, v ∈ l → 0 < val_VotingPower v) → v ∈ l → prio v ≤ 2 * zlen l * power l.
Proof.
  intros [Hlo Hsum] Hp Hv. pose proof (sumZ_upper prio l _ v Hlo Hv).
  pose proof (length_le_power l Hp). nia.
Qed.

(** With enough room nothing is clipped. *)
Lemma added_exact l v :
  steady l → (∀ v, v ∈ l → 0 < val_VotingPower v) → room l → v ∈ l →
  prio (added v) = prio v + val_VotingPower v.
Proof.
  intros Hst Hp Hr Hv. apply safeAddClip_exact.
  pose proof (steady_upper l v Hst Hp Hv). destruct Hst as [Hlo _]. specialize (Hlo v Hv).
  pose proof (Hp v Hv).
  assert (val_VotingPower v ≤ power l).
  { apply sumZ_mem_le; [|done]. intros w Hw. specialize (Hp w Hw). lia. }
  assert (1 ≤ zlen l) by (destruct l; [by apply not_elem_of_nil in Hv|unfold zlen; simpl; lia]).
  unfold room, in_int64, MinInt64, MaxInt64 in *. nia.
Qed.

Lemma increment_steady vals :
  wf vals → Validators vals ≠ [] → steady (Validators vals) → room (Validators vals) →
  ∃ vals' v, incrementProposerPriority vals = Ret (vals', to_ref v) ∧
    wf vals' ∧ same_members (Validators vals) (Validators vals') ∧ steady (Validators vals') ∧
    Proposer vals' = Proposer vals ∧
    ∀ j w, Validators vals !! j = Some w → ∃ w', Validators vals' !! j = Some w' ∧
      prio w' = prio w + val_VotingPower w -
        (if decide (val_Address w = val_Address v) then power (Validators vals) else 0).
Proof.
  intros Hwf Hne Hst Hr.
  destruct (increment_ok vals Hwf Hne) as (i & v & Hv & Hmax & E & Hwf' & Hm).
  set (l := Validators vals) in *. set (P := power l) in *.
  pose proof (wf_power _ Hwf) as Hp. fold l in Hp.
  assert (∀ w, w ∈ l → prio (added w) = prio w + val_VotingPower w) as Ha
    by (intros; by apply (added_exact l)).
  rewrite list_lookup_fmap in Hv. apply fmap_Some in Hv as (x & Hx & ->).
  assert (x ∈ l) as Hxin by (by eapply list_elem_of_lookup_2).
  assert (sumZ prio (added <$> l) = sumZ prio l + P) as Hs1.
  { rewrite sumZ_fmap, (sumZ_ext _ (λ w, prio w + val_VotingPower w)) by (intros w Hw; by apply Ha).
    apply sumZ_plus. }
  assert (0 < P) as HP by (by apply power_pos).
  assert (0 ≤ prio (added x)) as Hx0.
  { destruct (Z.le_gt_cases 0 (prio (added x))) as [|Hneg]; [done|exfalso].
    destruct Hst as [_ [Hs0 _]].
    assert (sumZ prio (added <$> l) ≤ 0); [|lia].
    pose proof (sumZ_le prio (λ _, 0) (added <$> l)) as Hle.
    assert (sumZ (λ _ : Validator, 0) (added <$> l) = 0) as Hz.
    { clear. induction (added <$> l) as [|y k IH]; [done|]. by rewrite sumZ_cons, IH. }
    rewrite Hz in Hle. apply Hle. intros w Hw. specialize (Hmax w Hw). lia. }
  assert (safeSubClip (prio (added x)) P = prio (added x) - P) as Hsub.
  { apply safeSubClip_exact. pose proof (steady_upper l x Hst Hp Hxin) as Hu. rewrite Ha in * by done.
    assert (val_VotingPower x ≤ P) by (apply sumZ_mem_le; [|done]; intros w Hw; specialize (Hp w Hw); lia).
    fold P in Hu. unfold room in Hr. fold P in Hr.
    unfold in_int64, MinInt64, MaxInt64 in *. pose proof (zlen_nonneg l). nia. }
  rewrite Hsub in *. destruct (same_members_facts _ _ Hm) as (_ & HPe & Hlen & _).
  cbn [Validators] in HPe, Hlen. eexists _, (added x). split; [exact E|]. split_and!; [done|done| |done|].
  - split; cbn [Validators].
    + rewrite HPe. fold P. intros w [->|Hw]%elem_of_insert_inv; [rewrite prio_set; lia|].
      apply list_elem_of_fmap in Hw as (w' & -> & Hw'). rewrite Ha by done.
      pose proof (proj1 Hst w' Hw'). pose proof (Hp w' Hw'). fold P in H. lia.
    + unfold zlen. rewrite Hlen. cbn [Validators] in *.
      rewrite (sumZ_insert prio _ i (added x)) by (by rewrite list_lookup_fmap, Hx).
      rewrite Hs1, prio_set. destruct Hst as [_ Hs]. unfold zlen in Hs. lia.
  - intros j w Hj. cbn [Validators]. destruct (decide (j = i)) as [->|Hji].
    + rewrite Hx in Hj. injection Hj as <-. eexists. split.
      { apply list_lookup_insert_eq. rewrite length_fmap. by eapply lookup_lt_Some. }
      rewrite prio_set, decide_True by done. rewrite <-Ha by done. done.
    + eexists. split; [rewrite list_lookup_insert_ne by done; by rewrite list_lookup_fmap, Hj|].
      rewrite decide_False; [rewrite Ha by (by eapply list_elem_of_lookup_2); lia|].
      intros Ea. apply Hji. eapply sorted_inj; [apply (wf_sorted _ Hwf)|exact Hj|exact Hx|done].
Qed.

(** How often an address occurs among the proposers. *)
Definition count (a : bytes) (ps : list ProposerRef) : Z :=
  zlen (filter (λ p, pr_Address p = a) ps).

Lemma count_app a ps qs : count a (ps ++ qs) = count a ps + count a qs.
Proof. unfold count, zlen. rewrite filter_app, length_app. lia. Qed.

Lemma count_cons a p ps : count a (p :: ps) = (if decide (a = pr_Address p) then 1 else 0) + count a ps.
Proof.
  unfold count, zlen. rewrite filter_cons. destruct (decide (a = pr_Address p)) as [->|Hne].
  - rewrite decide_True by done. simpl length. lia.
  - rewrite decide_False by done. lia.
Qed.

Lemma same_members_lookup l l' j w w' :
  same_members l l' → l !! j = Some w → l' !! j = Some w' → to_ref w' = to_ref w.
Proof.
  unfold same_members. intros E H H'. apply (f_equal (λ k, k !! j)) in E.
  change (map ?f ?l) with (f <$> l) in E. rewrite !list_lookup_fmap, H, H' in E. simpl in E. congruence.
Qed.

Lemma loop_steady k vals acc :
  wf vals → Validators vals ≠ [] → steady (Validators vals) → room (Validators vals) →
  ∃ vals' ps, increment_loop k vals acc = Ret (vals', acc ++ ps) ∧ length ps = k ∧
    wf vals' ∧ same_members (Validators vals) (Validators vals') ∧ steady (Validators vals') ∧
    ∀ j w, Validators vals !! j = Some w → ∃ w', Validators vals' !! j = Some w' ∧
      prio w' = prio w + Z.of_nat k * val_VotingPower w
                - count (val_Address w) ps * power (Validators vals).
Proof.
  revert vals acc. induction k as [|k IH]; intros vals acc Hwf Hne Hst Hr.
  { exists vals, []. rewrite app_nil_r. split_and!; try done.
    intros j w Hj. exists w. split; [done|]. unfold count, zlen. simpl. lia. }
  destruct (increment_steady vals Hwf Hne Hst Hr) as (v1 & v & E & Hwf1 & Hm1 & Hst1 & _ & Hd1).
  destruct (same_members_facts _ _ Hm1) as (_ & HP & Hlen & _).
  destruct (IH v1 (acc ++ [to_ref v])) as (v2 & ps & E2 & Hps & Hwf2 & Hm2 & Hst2 & Hd2); try done.
  { intros Hnil. apply Hne, nil_length_inv. by rewrite <-Hlen, Hnil. }
  { unfold room, zlen. by rewrite HP, Hlen. }
  exists v2, (to_ref v :: ps). cbn [increment_loop]. rewrite E. cbn [mbind outcome_bind].
  rewrite E2, <-app_assoc. split_and!; [done|simpl; lia|done|by eapply same_members_trans|done|].
  intros j w Hj. destruct (Hd1 j w Hj) as (w1 & Hw1 & E1). destruct (Hd2 j w1 Hw1) as (w2 & Hw2 & Ew2).
  exists w2. split; [done|]. pose proof (same_members_lookup _ _ _ _ _ Hm1 Hj Hw1) as Eref.
  unfold to_ref in Eref. injection Eref as Ea _ Ep. rewrite Ew2, E1, HP, count_cons, Ea, Ep.
  cbn [pr_Address to_ref]. destruct (decide _); lia.
Qed.

Lemma increment_loop_split a b vals acc :
  increment_loop (a + b) vals acc =
    ('(vals, acc) ← increment_loop a vals acc; increment_loop b vals acc).
Proof.
  revert vals acc. induction a as [|a IH]; intros vals acc; [done|].
  cbn [Nat.add increment_loop]. destruct (incrementProposerPriority vals) as [[v p]|]; [|done].
  cbn [mbind outcome_bind]. apply IH.
Qed.

Lemma increment_loop_prefix k vals acc vals' ps :
  increment_loop k vals acc = Ret (vals', ps) → ∃ qs, ps = acc ++ qs.
Proof.
  revert vals acc. induction k as [|k IH]; intros vals acc E; cbn [increment_loop] in E.
  { injection E as <- <-. exists []. by rewrite app_nil_r. }
  destruct (incrementProposerPriority vals) as [[v p]|]; [|done].
  cbn [mbind outcome_bind] in E. apply IH in E as [qs ->]. exists (p :: qs). by rewrite <-app_assoc.
Qed.

Definition window (vals : ValidatorSet) : Z := 2 * power (Validators vals).

Lemma window_range vals : wf vals → Validators vals ≠ [] → 0 < window vals ≤ 2 ^ 62.
Proof.
  intros Hwf Hne. unfold window. pose proof (wf_total _ Hwf).
  pose proof (power_pos _ Hne (wf_power _ Hwf)).
  assert (2 * MaxTotalVotingPower ≤ 2 ^ 62) by (vm_compute; discriminate). lia.
Qed.

(** The rescaling and centering that precede the loop. *)
Lemma recenter_ok vals :
  wf vals → Validators vals ≠ [] →
  ∃ vals', (vals ← RescalePriorities (with_total vals) (wrap64 (PriorityWindowSizeFactor * power (Validators vals)));
            shiftByAvgProposerPriority vals) = Ret vals' ∧
    wf vals' ∧ same_members (Validators vals) (Validators vals') ∧
    Proposer vals' = Proposer vals ∧ totalVotingPower vals' = power (Validators vals) ∧
    (spread (Validators vals) (MaxInt64 - window vals) → centered (Validators vals') (window vals)).
Proof.
  intros Hwf Hne. pose proof (window_range _ Hwf Hne) as Hw.
  assert (wrap64 (PriorityWindowSizeFactor * power (Validators vals)) = window vals) as ->.
  { apply wrap64_id. unfold in_int64, MinInt64, MaxInt64, window, PriorityWindowSizeFactor in *. lia. }
  destruct (Rescale_ok (with_total vals) (window vals)) as (l & -> & Hm & Hi & Hs);
    [done|lia|apply (wf_priority _ Hwf)|].
  cbn [mbind outcome_bind].
  pose proof (same_members_wf _ _ (wf_with_total _ Hwf) Hm Hi) as Hwf1.
  destruct (shift_ok (set_Validators (with_total vals) l)) as (l' & -> & Hm' & Hi' & Hc); simpl in *.
  { destruct (same_members_facts _ _ Hm) as (_ & _ & Hlen & _). intros ->.
    by apply Hne, nil_length_inv. }
  { done. }
  eexists. split; [reflexivity|]. split_and!; simpl; [|by eapply same_members_trans|done|done|].
  - apply (same_members_wf _ _ Hwf1 Hm' Hi').
  - intros Hsp. apply Hc; [unfold MaxInt64; lia|]. by apply Hs.
Qed.

Lemma centered_steady vals vals' :
  same_members (Validators vals) (Validators vals') → centered (Validators vals') (window vals) →
  steady (Validators vals').
Proof.
  intros Hm [Hb Hs]. destruct (same_members_facts _ _ Hm) as (_ & HP & _ & _).
  split; [|done]. intros v Hv. rewrite HP. specialize (Hb v Hv). unfold window in Hb. lia.
Qed.

Lemma Increment_unfold vals times :
  wf vals → Validators vals ≠ [] → 0 < times →
  IncrementProposerPriority vals times =
    ('vals ← (vals ← RescalePriorities (with_total vals)
                (wrap64 (PriorityWindowSizeFactor * power (Validators vals)));
              shiftByAvgProposerPriority vals);
     '(vals, proposers) ← increment_loop (Z.to_nat times) vals [];
     Ret (mkValidatorSet (Validators vals) (last proposers) (totalVotingPower vals))).
Proof.
  intros Hwf Hne Ht. unfold IncrementProposerPriority.
  assert (IsNilOrEmpty (Some vals) = false) as -> by (by destruct vals as [[] ? ?]).
  rewrite (proj2 (Z.leb_gt _ _)) by lia. rewrite TotalVotingPower_wf by done.
  cbn [mbind outcome_bind]. destruct (RescalePriorities _ _); [|done].
  cbn [mbind outcome_bind]. by destruct (shiftByAvgProposerPriority _).
Qed.

Definition wf_parts (vals : ValidatorSet) (p : option ProposerRef) : ValidatorSet :=
  mkValidatorSet (Validators vals) p (totalVotingPower vals).

Lemma wf_proposer vals p : wf vals → wf (wf_parts vals p).
Proof. intros []. by split. Qed.

(** The maximum on the total voting power prevents clipping (the proof the
    comment leaves to the reader): for a well-formed set of [n] validators with
    total power [P], [(2n+1)P <= MaxInt64] and priorities no further apart than
    the rescaling can measure, [IncrementProposerPriority] terminates without
    panic for any number of steps, keeps the members and the invariant, keeps
    the sum of the priorities in [0, n) and every priority in [-2P, 2nP]. *)
Theorem IncrementProposerPriority_no_clipping (vals : ValidatorSet) (times : Z) :
  wf vals → Validators vals ≠ [] → 0 < times →
  room (Validators vals) → spread (Validators vals) (MaxInt64 - window vals) →
  ∃ vals', IncrementProposerPriority vals times = Ret vals' ∧ wf vals' ∧
    same_members (Validators vals) (Validators vals') ∧
    0 ≤ sumZ prio (Validators vals') < zlen (Validators vals) ∧
    ∀ v, v ∈ Validators vals' →
      - (2 * power (Validators vals)) ≤ prio v ≤ 2 * zlen (Validators vals) * power (Validators vals).
Proof.
  intros Hwf Hne Ht Hr Hsp.
  destruct (recenter_ok vals Hwf Hne) as (v1 & E1 & Hwf1 & Hm1 & _ & _ & Hc).
  destruct (same_members_facts _ _ Hm1) as (_ & HP1 & Hl1 & _).
  destruct (loop_steady (Z.to_nat times) v1 []) as (v2 & ps & E2 & _ & Hwf2 & Hm2 & Hst & _); try done.
  { intros Hnil. apply Hne, nil_length_inv. by rewrite <-Hl1, Hnil. }
  { eapply centered_steady; [exact Hm1|by apply Hc]. }
  { unfold room, zlen. by rewrite HP1, Hl1. }
  destruct (same_members_facts _ _ Hm2) as (_ & HP2 & Hl2 & _).
  rewrite Increment_unfold, E1 by done. cbn [mbind outcome_bind]. rewrite E2. cbn [mbind outcome_bind].
  eexists. split; [reflexivity|]. split_and!; cbn [Validators].
  - by apply (wf_proposer v2).
  - by eapply same_members_trans.
  - apply Hst.
  - destruct Hst as [_ Hs]. unfold zlen in *. rewrite Hl2, Hl1 in Hs. lia.
  - intros v Hv. split.
    + pose proof (proj1 Hst v Hv) as Hlo. by rewrite HP2, HP1 in Hlo.
    + pose proof (steady_upper _ v Hst (wf_power _ Hwf2) Hv) as Hu. unfold zlen in *.
      by rewrite HP2, HP1, Hl2, Hl1 in Hu.
Qed.

(** C25. Proposer selection is proportional to voting power: in [k] consecutive
    rounds the number of times a validator of power [w] is the proposer
    differs from its fair share [k*w/P] by at most [2n+2], however large [k] is.
    The proposer of round [j+1] is the one [IncrementProposerPriority] leaves
    after [j+1] steps. *)
Theorem proposer_selection_fair (vals : ValidatorSet) (k : nat) :
  wf vals → Validators vals ≠ [] →
  room (Validators vals) → spread (Validators vals) (MaxInt64 - window vals) →
  ∃ ps, length ps = k ∧
    (∀ j p, ps !! j = Some p → ∃ vals_j,
       IncrementProposerPriority vals (Z.of_nat j + 1) = Ret vals_j ∧ Proposer vals_j = Some p) ∧
    ∀ v, v ∈ Validators vals →
      Z.abs (Z.of_nat k * val_VotingPower v - count (val_Address v) ps * power (Validators vals)) ≤
        (2 * zlen (Validators vals) + 2) * power (Validators vals).
Proof.
  intros Hwf Hne Hr Hsp.
  destruct (recenter_ok vals Hwf Hne) as (v1 & E1 & Hwf1 & Hm1 & _ & _ & Hc).
  destruct (same_members_facts _ _ Hm1) as (_ & HP1 & Hl1 & _).
  assert (Validators v1 ≠ []) as Hne1 by (intros Hnil; apply Hne, nil_length_inv; by rewrite <-Hl1, Hnil).
  assert (room (Validators v1)) as Hr1 by (unfold room, zlen; by rewrite HP1, Hl1).
  assert (steady (Validators v1)) as Hst1 by (eapply centered_steady; [exact Hm1|by apply Hc]).
  destruct (loop_steady k v1 [] Hwf1 Hne1 Hst1 Hr1)
    as (v2 & ps & E2 & Hps & Hwf2 & Hm2 & Hst & Hd). simpl in E2.
  exists ps. split_and!; [done| |].
  - intros j p Hj. pose proof (lookup_lt_Some _ _ _ Hj).
    destruct (loop_steady (S j) v1 [] Hwf1 Hne1 Hst1 Hr1) as (v3 & qs & E3 & Hqs & _). simpl app in E3.
    exists (wf_parts v3 (last qs)). split.
    + rewrite Increment_unfold, E1 by (done || lia). cbn [mbind outcome_bind].
      replace (Z.to_nat (Z.of_nat j + 1)) with (S j) by lia. by rewrite E3.
    + simpl. replace k with (S j + (k - S j))%nat in E2 by lia.
      rewrite increment_loop_split, E3 in E2. cbn [mbind outcome_bind] in E2.
      apply increment_loop_prefix in E2 as [rs ->].
      rewrite last_lookup, Hqs. simpl. rewrite lookup_app_l in Hj by lia. done.
  - intros v (i & Hi)%list_elem_of_lookup.
    assert (is_Some (Validators v1 !! i)) as [w1 Hw1]
      by (apply lookup_lt_is_Some; rewrite Hl1; by eapply lookup_lt_Some).
    pose proof (same_members_lookup _ _ _ _ _ Hm1 Hi Hw1) as Eref.
    unfold to_ref in Eref. injection Eref as Ea _ Ep.
    destruct (Hd i w1 Hw1) as (w2 & Hw2 & E). rewrite Ea, Ep, HP1 in E.
    apply list_elem_of_lookup_2 in Hw1, Hw2.
    destruct (Hc Hsp) as [Hb _]. specialize (Hb w1 Hw1). unfold window in Hb.
    pose proof (steady_upper _ w2 Hst (wf_power _ Hwf2) Hw2) as Hu.
    pose proof (proj1 Hst w2 Hw2) as Hlo.
    destruct (same_members_facts _ _ Hm2) as (_ & HP2 & Hl2 & _).
    unfold zlen in *. rewrite HP2, HP1 in Hlo. rewrite HP2, HP1, Hl2, Hl1 in Hu.
    assert (0 < power (Validators vals)) by (apply power_pos; [done|apply (wf_power _ Hwf)]).
    assert (power (Validators vals) ≤ Z.of_nat (length (Validators vals)) * power (Validators vals)).
    { pose proof (lookup_lt_Some _ _ _ Hi). nia. }
    set (nP := Z.of_nat (length (Validators vals)) * power (Validators vals)) in *.
    replace ((2 * Z.of_nat (length (Validators vals)) + 2) * power (Validators vals))
      with (2 * nP + 2 * power (Validators vals)) by (unfold nP; lia).
    replace (2 * Z.of_nat (length (Validators vals)) * power (Validators vals))
      with (2 * nP) in Hu by (unfold nP; lia).
    lia.
Qed.

(** *** Witnesses *)

Definition sample_vals : ValidatorSet :=
  mkValidatorSet
    [mkValidator [x01] [x0a] 10 0; mkValidator [x02] [x0b] 20 5; mkValidator [x03] [x0c] 70 (-3)] None 0.

Lemma sample_vals_wf : wf sample_vals.
Proof.
  split; simpl.
  - repeat constructor.
  - intros v Hv. repeat (apply elem_of_cons in Hv as [->|Hv]; [simpl; lia|]). by apply not_elem_of_nil in Hv.
  - vm_compute. discriminate.
  - by left.
  - intros v Hv. repeat (apply elem_of_cons in Hv as [->|Hv]; [vm_compute; split; discriminate|]).
    by apply not_elem_of_nil in Hv.
Qed.

Lemma sample_vals_spread : spread (Validators sample_vals) (MaxInt64 - window sample_vals).
Proof.
  assert (8 ≤ MaxInt64 - window sample_vals) as H8 by (vm_compute; discriminate).
  intros v w Hv Hw. etrans; [|exact H8].
  repeat (apply elem_of_cons in Hv as [->|Hv]; [|]); try (by apply not_elem_of_nil in Hv);
  repeat (apply elem_of_cons in Hw as [->|Hw]; [simpl; lia|]); by apply not_elem_of_nil in Hw.
Qed.

Lemma GetByAddress_exact_witness :
  GetByAddress sample_vals [x02] = (1, Some (mkValidator [x02] [x0b] 20 5)).
Proof.
  destruct (GetByAddress_exact sample_vals [x02] (wf_sorted _ sample_vals_wf)) as [H _].
  apply H. split; reflexivity.
Defined.

Lemma IncrementProposerPriority_no_clipping_witness :
  ∃ vals', IncrementProposerPriority sample_vals 1000 = Ret vals' ∧ wf vals'.
Proof.
  destruct (IncrementProposerPriority_no_clipping sample_vals 1000 sample_vals_wf)
    as (vals' & E & Hwf & _); [done|lia|vm_compute; discriminate|apply sample_vals_spread|].
  exists vals'. split; [exact E|exact Hwf].
Defined.

Lemma proposer_selection_fair_witness :
  ∃ ps, length ps = 1000%nat ∧ Z.abs (1000 * 20 - count [x02] ps * 100) ≤ 800.
Proof.
  destruct (proposer_selection_fair sample_vals 1000 sample_vals_wf) as (ps & Hl & _ & Hf);
    [done|vm_compute; discriminate|apply sample_vals_spread|].
  exists ps. split; [exact Hl|].
  apply (Hf (mkValidator [x02] [x0b] 20 5)). by apply list_elem_of_lookup_2 with 1%nat.
Defined.

(** ** Change sets *)

(** The abstract contents of a set: public key and power by address. *)
Fixpoint entry (l : list Validator) (a : bytes) : option (bytes * Z) :=
  match l with
  | [] => None
  | v :: l' => if decide (val_Address v = a) then Some (val_PubKey v, val_VotingPower v) else entry l' a
  end.

(** What a list of changes does to it: power 0 removes, the rest replaces. *)
Definition apply_changes (changes : list Validator) (old : bytes → option (bytes * Z)) (a : bytes) :
    option (bytes * Z) :=
  match entry changes a with
  | Some (pk, p) => if p =? 0 then None else Some (pk, p)
  | None => old a
  end.

Lemma entry_None l a : entry l a = None ↔ ∀ v, v ∈ l → val_Address v ≠ a.
Proof.
  induction l as [|v l IH]; simpl; [set_solver|]. destruct (decide (val_Address v = a)) as [E|E].
  - split; [done|]. intros H. by destruct (H v (list_elem_of_here _ _)).
  - rewrite IH. split; [intros H w [->|Hw]%elem_of_cons; auto|].
    intros H w Hw. by apply H, list_elem_of_further.
Qed.

Lemma entry_elem l v :
  NoDup (map val_Address l) → v ∈ l → entry l (val_Address v) = Some (val_PubKey v, val_VotingPower v).
Proof.
  induction l as [|w l IH]; intros Hnd Hv; [by apply not_elem_of_nil in Hv|]. simpl in *.
  apply NoDup_cons in Hnd as [Hw Hnd]. apply elem_of_cons in Hv as [->|Hv].
  - by rewrite decide_True.
  - rewrite decide_False; [by apply IH|]. intros E. apply Hw. rewrite E.
    change (map ?f ?l) with (f <$> l). by apply list_elem_of_fmap_2.
Qed.

Lemma entry_perm l l' a :
  NoDup (map val_Address l) → l ≡ₚ l' → entry l a = entry l' a.
Proof.
  intros Hnd Hp. destruct (entry l' a) as [e|] eqn:E'.
  - assert (∃ v, v ∈ l' ∧ val_Address v = a) as (v & Hv & <-).
    { destruct (decide (Exists (λ v, val_Address v = a) l')) as [H|H].
      - apply Exists_exists in H as (v & ? & ?). eauto.
      - exfalso. rewrite (proj2 (entry_None l' a)) in E'; [done|].
        intros v Hv Ea. apply H, Exists_exists. eauto. }
    rewrite <-E', !entry_elem; [done| |done|done|by rewrite Hp].
    change (map ?f ?l) with (f <$> l) in *. by rewrite <-Hp.
  - apply entry_None. intros v Hv. rewrite Hp in Hv. by eapply entry_None.
Qed.

Lemma sorted_NoDup l : sorted l → NoDup (map val_Address l).
Proof.
  induction l as [|v l IH]; intros Hs; simpl; [constructor|].
  apply sorted_cons in Hs as [Hs Hv]. apply NoDup_cons. split; [|auto].
  change (map ?f ?l) with (f <$> l). intros (w & E & Hw)%list_elem_of_fmap.
  by eapply bytes_lt_ne; [apply Hv|].
Qed.

(** *** Sorting and scanning the changes *)

Definition addr_le (a b : Validator) : Prop := le_addr (val_Address a) (val_Address b) = true.

Lemma le_addr_total a b : le_addr a b = false → le_addr b a = true.
Proof.
  intros H. apply le_addr_spec. unfold le_addr in H. destruct (bytes_compare a b) eqn:E; try done.
  right. by apply bytes_compare_Gt.
Qed.

Lemma addr_le_trans a b c : addr_le a b → addr_le b c → addr_le a c.
Proof.
  unfold addr_le. rewrite !le_addr_spec. intros [->|H1] [<-|H2]; auto.
  right. by eapply bytes_lt_trans.
Qed.

Lemma by_address_false x y : by_address x y = false → addr_le y x.
Proof.
  unfold by_address, addr_le. intros H. apply le_addr_spec.
  destruct (bytes_compare _ _) eqn:E; [left; symmetry; by apply bytes_compare_eq|done|].
  right. by apply bytes_compare_Gt.
Qed.

Lemma sort_insert_sorted x l :
  StronglySorted addr_le l → StronglySorted addr_le (sort_insert by_address x l).
Proof.
  induction l as [|y l IH]; intros Hs; simpl; [repeat constructor|].
  apply StronglySorted_inv in Hs as [Hs Hy]. destruct (by_address x y) eqn:E.
  - assert (addr_le x y) as Hxy.
    { unfold by_address in E. apply le_addr_spec. right. unfold bytes_lt.
      by destruct (bytes_compare _ _). }
    repeat constructor; [done..|]. eapply List.Forall_impl; [|exact Hy].
    intros z. by apply addr_le_trans.
  - constructor; [by apply IH|]. apply List.Forall_forall. intros z Hz.
    assert (z ∈ x :: l) as Hz' by (rewrite <-(sort_insert_perm by_address); by apply list_elem_of_In).
    apply elem_of_cons in Hz' as [->|Hz']; [by apply by_address_false|].
    rewrite List.Forall_forall in Hy. by apply Hy, list_elem_of_In.
Qed.

Lemma sort_sorted l : StronglySorted addr_le (sort_Sort by_address l).
Proof. induction l as [|x l IH]; simpl; [constructor|by apply sort_insert_sorted]. Qed.

Definition is_removal (v : Validator) : Prop := val_VotingPower v = 0.
Definition is_update (v : Validator) : Prop := val_VotingPower v ≠ 0.
#[export] Instance is_removal_dec v : Decision (is_removal v).
Proof. unfold is_removal. apply _. Defined.
#[export] Instance is_update_dec v : Decision (is_update v).
Proof. unfold is_update. apply _. Defined.

Lemma scan_spec changes prev ups rems u r :
  StronglySorted addr_le changes → (∀ c, c ∈ changes → le_addr prev (val_Address c) = true) →
  scan_changes changes prev ups rems = inl (u, r) →
  sorted changes ∧ (∀ c, c ∈ changes → bytes_lt prev (val_Address c)) ∧
  (∀ c, c ∈ changes → 0 ≤ val_VotingPower c ≤ MaxTotalVotingPower) ∧
  u = ups ++ filter is_update changes ∧ r = rems ++ filter is_removal changes.
Proof.
  revert prev ups rems. induction changes as [|c l IH]; intros prev ups rems Hs Hle E; simpl in E.
  { injection E as <- <-. rewrite !app_nil_r. split_and!; [constructor|set_solver..]. }
  apply StronglySorted_inv in Hs as [Hs Hc]. rewrite List.Forall_forall in Hc.
  destruct (bytes_equal (val_Address c) prev) eqn:Ep; [done|]. apply bytes_equal_false in Ep.
  destruct (Z.ltb_spec (val_VotingPower c) 0); [done|].
  destruct (Z.ltb_spec MaxTotalVotingPower (val_VotingPower c)); [done|].
  assert (bytes_lt prev (val_Address c)) as Hlt.
  { pose proof (Hle c (list_elem_of_here _ _)) as H1. apply le_addr_spec in H1. naive_solver. }
  assert (∀ d, d ∈ l → le_addr (val_Address c) (val_Address d) = true) as Hcd
    by (intros d Hd; by apply Hc, list_elem_of_In).
  assert (∀ (X : Prop), X → sorted l ∧ (∀ d, d ∈ l → bytes_lt (val_Address c) (val_Address d)) ∧
    (∀ d, d ∈ l → 0 ≤ val_VotingPower d ≤ MaxTotalVotingPower) →
    sorted (c :: l) ∧ (∀ d, d ∈ c :: l → bytes_lt prev (val_Address d)) ∧
    (∀ d, d ∈ c :: l → 0 ≤ val_VotingPower d ≤ MaxTotalVotingPower) ∧ X) as Hcomb.
  { intros X HX (A & B & C). split_and!; [by apply sorted_cons| |intros d [->|Hd]%elem_of_cons; auto|done].
    intros d [->|Hd]%elem_of_cons; [done|]. eapply bytes_lt_trans; [exact Hlt|auto]. }
  rewrite !filter_cons. destruct (Z.eqb_spec (val_VotingPower c) 0) as [E0|E0].
  - destruct (IH _ _ _ Hs Hcd E) as (A & B & C & -> & ->).
    rewrite (decide_False (P := is_update c)) by (by intros Hu).
    rewrite (decide_True (P := is_removal c)) by done. rewrite <-app_assoc. by apply Hcomb.
  - destruct (IH _ _ _ Hs Hcd E) as (A & B & C & -> & ->).
    rewrite (decide_True (P := is_update c)) by done.
    rewrite (decide_False (P := is_removal c)) by done. rewrite <-app_assoc. by apply Hcomb.
Qed.

(** A successful [processChanges]: distinct, non-empty addresses, powers in range,
    and the two sorted parts. *)
Lemma processChanges_ok changes u r :
  processChanges changes = inl (u, r) →
  ∃ l, l ≡ₚ changes ∧ sorted l ∧ (∀ c, c ∈ changes → 0 ≤ val_VotingPower c ≤ MaxTotalVotingPower) ∧
    u = filter is_update l ∧ r = filter is_removal l.
Proof.
  intros E. exists (sort_Sort by_address changes).
  destruct (scan_spec _ [] _ _ _ _ (sort_sorted changes)
    ltac:(intros c _; by destruct (val_Address c)) E) as (A & _ & C & -> & ->).
  split_and!; [apply sort_Sort_perm|done| |done|done].
  intros c Hc. apply C. by rewrite sort_Sort_perm.
Qed.
