(* ===== verification/ValidatorUpdates.v ===== *)
(** * types/validator_set.go: correctness of change sets

    [updateWithChangeSet] against its abstract specification [apply_changes] on
    the map from addresses to public keys and powers: it never panics on a
    well-formed set, an error leaves the validators unchanged, and a success
    gives exactly the changed map. *)

From Stdlib Require Import ZArith Lia List Bool Strings.Byte.
From stdpp Require Import base list sets sorting.
From S2P Require Import Prelude Types ValidatorSet.
Local Open Scope Z_scope.

(** ** Merging updates *)

Lemma merge_cons e es u us :
  merge_updates (e :: es) (u :: us) =
    match bytes_compare (val_Address e) (val_Address u) with
    | Lt => e :: merge_updates es (u :: us)
    | Eq => u :: merge_updates es us
    | Gt => u :: merge_updates (e :: es) us
    end.
Proof. done. Qed.

Lemma merge_nil_l u : merge_updates [] u = u.
Proof. by destruct u. Qed.

Lemma merge_nil_r e : merge_updates e [] = e.
Proof. by destruct e. Qed.

(** Induction along the merge. *)
Lemma merge_ind (P : list Validator → list Validator → Prop) :
  (∀ us, P [] us) → (∀ es, P es []) →
  (∀ e es u us, bytes_lt (val_Address e) (val_Address u) → P es (u :: us) → P (e :: es) (u :: us)) →
  (∀ e es u us, val_Address e = val_Address u → P es us → P (e :: es) (u :: us)) →
  (∀ e es u us, bytes_lt (val_Address u) (val_Address e) → P (e :: es) us → P (e :: es) (u :: us)) →
  ∀ es us, P es us.
Proof.
  intros H1 H2 H3 H4 H5. induction es as [|e es IHe]; [done|].
  induction us as [|u us IHu]; [done|].
  destruct (bytes_compare (val_Address e) (val_Address u)) eqn:E.
  - apply H4; [by apply bytes_compare_eq|done].
  - by apply H3.
  - apply H5; [by apply bytes_compare_Gt|done].
Qed.

Lemma merge_Lt e es u us :
  bytes_lt (val_Address e) (val_Address u) →
  merge_updates (e :: es) (u :: us) = e :: merge_updates es (u :: us).
Proof. intros H. rewrite merge_cons. unfold bytes_lt in H. by rewrite H. Qed.

Lemma merge_Eq e es u us :
  val_Address e = val_Address u →
  merge_updates (e :: es) (u :: us) = u :: merge_updates es us.
Proof. intros H. rewrite merge_cons. by rewrite (proj2 (bytes_compare_eq _ _) H). Qed.

Lemma merge_Gt e es u us :
  bytes_lt (val_Address u) (val_Address e) →
  merge_updates (e :: es) (u :: us) = u :: merge_updates (e :: es) us.
Proof. intros H. rewrite merge_cons. by rewrite (proj2 (bytes_compare_Gt _ _) H). Qed.

Lemma merge_elem es us v : v ∈ merge_updates es us → v ∈ es ∨ v ∈ us.
Proof.
  revert es us. apply (merge_ind (λ es us, v ∈ merge_updates es us → v ∈ es ∨ v ∈ us)).
  - intros us. rewrite merge_nil_l. auto.
  - intros es. rewrite merge_nil_r. auto.
  - intros e es u us H IH. rewrite merge_Lt by done. set_solver.
  - intros e es u us H IH. rewrite merge_Eq by done. set_solver.
  - intros e es u us H IH. rewrite merge_Gt by done. set_solver.
Qed.

Lemma merge_sorted es us : sorted es → sorted us → sorted (merge_updates es us).
Proof.
  revert es us. apply (merge_ind (λ es us, sorted es → sorted us → sorted (merge_updates es us))).
  - intros us. by rewrite merge_nil_l.
  - intros es. by rewrite merge_nil_r.
  - intros e es u us H IH [Hes He]%sorted_cons Hus. rewrite merge_Lt by done.
    apply sorted_cons. split; [auto|]. apply sorted_cons in Hus as [_ Hu].
    intros w [Hw|[->|Hw]%elem_of_cons]%merge_elem; [auto|done|]. eapply bytes_lt_trans; eauto.
  - intros e es u us H IH [Hes He]%sorted_cons [Hus Hu]%sorted_cons. rewrite merge_Eq by done.
    apply sorted_cons. split; [auto|]. intros w [Hw|Hw]%merge_elem; [rewrite <-H; auto|auto].
  - intros e es u us H IH Hes [Hus Hu]%sorted_cons. rewrite merge_Gt by done.
    apply sorted_cons. split; [auto|]. apply sorted_cons in Hes as [_ He].
    intros w [[->|Hw]%elem_of_cons|Hw]%merge_elem; [done| |auto]. eapply bytes_lt_trans; eauto.
Qed.

(** The power an address had before. *)
Definition old_power (es : list Validator) (a : bytes) : Z := from_option snd 0 (entry es a).

Lemma entry_lt es a : (∀ w, w ∈ es → bytes_lt a (val_Address w)) → entry es a = None.
Proof. intros H. apply entry_None. intros v Hv E. by eapply bytes_lt_ne; [apply H|]. Qed.

Lemma entry_cons_ne e es a : val_Address e ≠ a → entry (e :: es) a = entry es a.
Proof. intros H. simpl. by rewrite decide_False. Qed.

Lemma sorted_head_lt u us w : sorted (u :: us) → w ∈ us → val_Address u ≠ val_Address w.
Proof. intros [_ H]%sorted_cons Hw. by apply bytes_lt_ne, H. Qed.

(** An address below the head of a sorted list is not in it. *)
Lemma entry_below e es a :
  sorted (e :: es) → bytes_lt a (val_Address e) → entry (e :: es) a = None.
Proof.
  intros [_ He]%sorted_cons H. apply entry_lt. intros w [->|Hw]%elem_of_cons; [done|].
  eapply bytes_lt_trans; eauto.
Qed.

Lemma merge_entry es us a :
  sorted es → sorted us →
  entry (merge_updates es us) a = match entry us a with Some x => Some x | None => entry es a end.
Proof.
  revert es us. apply (merge_ind (λ es us, sorted es → sorted us →
    entry (merge_updates es us) a = match entry us a with Some x => Some x | None => entry es a end)).
  - intros us _ _. rewrite merge_nil_l. by destruct (entry us a).
  - intros es _ _. by rewrite merge_nil_r.
  - intros e es u us H IH Hes Hus. rewrite merge_Lt by done.
    destruct (decide (val_Address e = a)) as [<-|Hne].
    + rewrite (entry_below u us) by done. simpl. by rewrite !decide_True.
    + rewrite !(entry_cons_ne e) by done. apply IH; [by apply sorted_cons in Hes as [? _]|done].
  - intros e es u us H IH Hes Hus. rewrite merge_Eq by done. simpl. rewrite H.
    destruct (decide _); [done|]. apply IH; [by apply sorted_cons in Hes as [? _]|by apply sorted_cons in Hus as [? _]].
  - intros e es u us H IH Hes Hus. rewrite merge_Gt by done.
    destruct (decide (val_Address u = a)) as [<-|Hne].
    + simpl. by rewrite !decide_True.
    + rewrite !(entry_cons_ne u) by done. apply IH; [done|by apply sorted_cons in Hus as [? _]].
Qed.

Lemma merge_power es us :
  sorted es → sorted us →
  power (merge_updates es us) =
    power es + sumZ (λ u, val_VotingPower u - old_power es (val_Address u)) us.
Proof.
  unfold power. revert es us. apply (merge_ind (λ es us, sorted es → sorted us →
    sumZ val_VotingPower (merge_updates es us) =
    sumZ val_VotingPower es + sumZ (λ u, val_VotingPower u - old_power es (val_Address u)) us)).
  - intros us _ _. rewrite merge_nil_l, sumZ_nil, Z.add_0_l. apply sumZ_ext.
    intros w _. unfold old_power. simpl. lia.
  - intros es _ _. rewrite merge_nil_r, (sumZ_nil (A := Validator)). lia.
  - intros e es u us H IH Hes Hus. rewrite merge_Lt by done. rewrite sumZ_cons, IH, (sumZ_cons _ e);
      [|by apply sorted_cons in Hes as [? _]|done].
    rewrite (sumZ_ext (λ u, _ - old_power (e :: es) _) (λ u, val_VotingPower u - old_power es (val_Address u))
               (u :: us)); [lia|].
    intros w Hw. unfold old_power. rewrite entry_cons_ne; [done|].
    apply bytes_lt_ne. apply elem_of_cons in Hw as [->|Hw]; [done|].
    eapply bytes_lt_trans; [exact H|]. apply sorted_cons in Hus as [_ Hu]. auto.
  - intros e es u us H IH Hes Hus. rewrite merge_Eq by done.
    rewrite !sumZ_cons, IH; [|by apply sorted_cons in Hes as [? _]|by apply sorted_cons in Hus as [? _]].
    rewrite (sumZ_ext (λ u, _ - old_power (e :: es) _) (λ u, val_VotingPower u - old_power es (val_Address u)) us).
    + unfold old_power at 2. simpl. rewrite decide_True by done. simpl. lia.
    + intros w Hw. unfold old_power. rewrite entry_cons_ne; [done|]. rewrite H. by eapply sorted_head_lt.
  - intros e es u us H IH Hes Hus. rewrite merge_Gt by done.
    rewrite !sumZ_cons, IH; [|done|by apply sorted_cons in Hus as [? _]].
    assert (old_power (e :: es) (val_Address u) = 0) as -> by (unfold old_power; by rewrite entry_below).
    rewrite !sumZ_cons. lia.
Qed.

(** Whether an update adds a validator. *)
Definition is_new (es : list Validator) (u : Validator) : Z :=
  match entry es (val_Address u) with None => 1 | Some _ => 0 end.

(** Merging adds exactly the updates whose address is new. *)
Lemma merge_length es us :
  sorted es → sorted us → zlen (merge_updates es us) = zlen es + sumZ (is_new es) us.
Proof.
  unfold zlen. revert es us. apply (merge_ind (λ es us, sorted es → sorted us →
    Z.of_nat (length (merge_updates es us)) = Z.of_nat (length es) + sumZ (is_new es) us)).
  - intros us _ _. rewrite merge_nil_l. cbn [length]. rewrite Z.add_0_l.
    induction us as [|u us IH]; [done|]. rewrite sumZ_cons, <-IH. cbn. lia.
  - intros es _ _. rewrite merge_nil_r, (sumZ_nil (A := Validator)). lia.
  - intros e es u us H IH Hes Hus. rewrite merge_Lt, length_cons by done.
    rewrite Nat2Z.inj_succ, IH; [|by apply sorted_cons in Hes as [? _]|done].
    rewrite (sumZ_ext (is_new (e :: es)) (is_new es) (u :: us)); [simpl length; lia|].
    intros w Hw. unfold is_new. rewrite entry_cons_ne; [done|].
    apply bytes_lt_ne. apply elem_of_cons in Hw as [->|Hw]; [done|].
    eapply bytes_lt_trans; [exact H|]. apply sorted_cons in Hus as [_ Hu]. auto.
  - intros e es u us H IH Hes Hus. rewrite merge_Eq, length_cons by done.
    rewrite Nat2Z.inj_succ, IH;
      [|by apply sorted_cons in Hes as [? _]|by apply sorted_cons in Hus as [? _]].
    rewrite sumZ_cons. assert (is_new (e :: es) u = 0) as ->
      by (unfold is_new; simpl; by rewrite decide_True).
    rewrite (sumZ_ext (is_new (e :: es)) (is_new es) us); [simpl length; lia|].
    intros w Hw. unfold is_new. rewrite entry_cons_ne; [done|]. rewrite H. by eapply sorted_head_lt.
  - intros e es u us H IH Hes Hus. rewrite merge_Gt, length_cons by done.
    rewrite Nat2Z.inj_succ, IH; [|done|by apply sorted_cons in Hus as [? _]].
    rewrite sumZ_cons. assert (is_new (e :: es) u = 1) as ->
      by (unfold is_new; by rewrite entry_below). lia.
Qed.

(** ** Removals *)

Lemma removals_ok es ds :
  sorted es → sorted ds → (∀ d, d ∈ ds → is_Some (entry es (val_Address d))) →
  ∃ l, removals_loop es ds = Ret l ∧ (length l + length ds = length es)%nat ∧ sorted l ∧
    (∀ v, v ∈ l → v ∈ es) ∧
    ((∀ v, v ∈ es → 0 < val_VotingPower v) → power l ≤ power es) ∧
    ∀ a, entry l a = match entry ds a with Some _ => None | None => entry es a end.
Proof.
  revert ds. induction es as [|e es IH]; intros ds Hes Hds Hin.
  { destruct ds as [|d ds]; [|by destruct (Hin d (list_elem_of_here _ _))].
    exists []. by split_and!. }
  destruct ds as [|d ds]; [exists (e :: es); split_and!; simpl; auto; lia|].
  apply sorted_cons in Hes as Hes'. destruct Hes' as [Hes1 He]. cbn [removals_loop].
  destruct (bytes_equal (val_Address e) (val_Address d)) eqn:E.
  - apply bytes_equal_true in E. apply sorted_cons in Hds as Hds'. destruct Hds' as [Hds1 Hd].
    destruct (IH ds Hes1 Hds1) as (l & -> & Hlen & Hs & Hsub & Hpw & Hent).
    { intros w Hw. specialize (Hin w (list_elem_of_further _ _ _ Hw)).
      rewrite entry_cons_ne in Hin; [done|]. rewrite E. by eapply bytes_lt_ne, Hd. }
    exists l. split_and!; [done|simpl; lia|done|set_solver| |].
    { intros Hpos. unfold power in *. rewrite sumZ_cons.
      pose proof (Hpos e (list_elem_of_here _ _)). specialize (Hpw ltac:(set_solver)). lia. }
    intros a. rewrite Hent. simpl. rewrite E. destruct (decide (val_Address d = a)) as [<-|]; [|done].
    destruct (entry ds _); [done|]. apply entry_lt. rewrite <-E. done.
  - apply bytes_equal_false in E.
    assert (∀ w, w ∈ d :: ds → val_Address e ≠ val_Address w) as Hne.
    { intros w [->|Hw]%elem_of_cons; [done|]. intros Ew.
      apply sorted_cons in Hds as [_ Hd]. specialize (Hd w Hw). rewrite <-Ew in Hd.
      destruct (Hin d (list_elem_of_here _ _)) as [x Hx]. by rewrite entry_below in Hx. }
    destruct (IH (d :: ds) Hes1 Hds) as (l & -> & Hlen & Hs & Hsub & Hpw & Hent).
    { intros w Hw. specialize (Hin w Hw). by rewrite entry_cons_ne in Hin by auto. }
    exists (e :: l). cbn [mbind outcome_bind]. split_and!; [done|simpl in *; lia| |set_solver| |].
    + apply sorted_cons. split; [done|]. auto.
    + intros Hpos. unfold power in *. rewrite !sumZ_cons. specialize (Hpw ltac:(set_solver)). lia.
    + intros a. destruct (decide (val_Address e = a)) as [<-|Hea].
      * rewrite (proj2 (entry_None (d :: ds) _)); [simpl; by rewrite !decide_True|].
        intros w Hw Ew. by destruct (Hne w Hw).
      * by rewrite !(entry_cons_ne e), Hent by done.
Qed.

(** Distinct removals that are all present are no more than the validators. *)
Lemma removals_present es ds :
  sorted es → sorted ds → (∀ d, d ∈ ds → is_Some (entry es (val_Address d))) →
  ∃ r, (r + length ds = length es)%nat.
Proof.
  intros H1 H2 H3. destruct (removals_ok es ds H1 H2 H3) as (l & _ & Hl & _). by exists (length l).
Qed.

(** ** Verifying updates *)

Lemma GetByAddress_entry vals a :
  sorted (Validators vals) →
  match (GetByAddress vals a).2 with
  | None => entry (Validators vals) a = None
  | Some v => v ∈ Validators vals ∧ val_Address v = a ∧
      entry (Validators vals) a = Some (val_PubKey v, val_VotingPower v)
  end.
Proof.
  intros Hs. destruct (address_cases vals a) as [(i & v & Hi & <-)|Hno].
  - rewrite (GetByAddress_found _ i v) by done. simpl.
    assert (v ∈ Validators vals) by (by eapply list_elem_of_lookup_2).
    split_and!; [done..|]. apply entry_elem; [by apply sorted_NoDup|done].
  - rewrite GetByAddress_absent by done. simpl. by apply entry_None.
Qed.

Lemma sorted_prefix l k : sorted (l ++ k) → sorted l.
Proof.
  induction l as [|v l IH]; [constructor|]. simpl. intros [H1 H2]%sorted_cons.
  apply sorted_cons. split; [auto|]. intros w Hw. apply H2. set_solver.
Qed.

Lemma old_power_le es a :
  (∀ v, v ∈ es → 0 < val_VotingPower v) → 0 ≤ old_power es a ≤ power es.
Proof.
  intros Hp. unfold old_power, power. induction es as [|v es IH]; [done|].
  rewrite sumZ_cons. simpl entry. specialize (IH ltac:(set_solver)).
  pose proof (Hp v (list_elem_of_here _ _)). destruct (decide _); simpl in *; lia.
Qed.

Lemma verify_loop_total vals pre rest total n :
  wf vals → sorted (pre ++ rest) →
  (∀ u, u ∈ pre ++ rest → 0 < val_VotingPower u ≤ MaxTotalVotingPower) →
  total = power (merge_updates (Validators vals) pre) → total ≤ MaxTotalVotingPower →
  match verify_updates_loop vals rest total n with
  | Some (t, m) => t = power (merge_updates (Validators vals) (pre ++ rest)) ∧
      t ≤ MaxTotalVotingPower ∧ m = n + sumZ (is_new (Validators vals)) rest
  | None => True
  end.
Proof.
  intros Hwf. revert pre total n. induction rest as [|u rest IH]; intros pre total n Hs Hp Ht Hmax.
  { simpl. rewrite app_nil_r, sumZ_nil. split_and!; [done|done|lia]. }
  cbn [verify_updates_loop].
  assert (sorted (pre ++ [u])) as Hs1.
  { apply (sorted_prefix _ rest). by rewrite <-app_assoc. }
  set (es := Validators vals) in *.
  pose proof (wf_sorted _ Hwf) as Hes. pose proof (wf_power _ Hwf) as Hpw. fold es in Hes, Hpw.
  assert (power (merge_updates es (pre ++ [u])) =
    total + (val_VotingPower u - old_power es (val_Address u))) as Hstep.
  { rewrite Ht, !merge_power, sumZ_app, sumZ_cons, sumZ_nil by (done || by eapply sorted_prefix). lia. }
  assert (0 ≤ power (merge_updates es (pre ++ [u]))) as Hnn.
  { apply sumZ_nonneg. intros v [Hv|Hv]%merge_elem; [specialize (Hpw v Hv); lia|].
    destruct (Hp v); [set_solver|lia]. }
  destruct (Hp u) as [Hu1 Hu2]; [set_solver|].
  pose proof (old_power_le es (val_Address u) Hpw) as Hold.
  assert (power es ≤ MaxTotalVotingPower) as Htot by apply (wf_total _ Hwf).
  assert (2 * MaxTotalVotingPower ≤ MaxInt64) as HM by (vm_compute; discriminate).
  assert (0 ≤ total) as Hnn0.
  { rewrite Ht. apply sumZ_nonneg. intros v [Hv|Hv]%merge_elem; [specialize (Hpw v Hv); lia|].
    destruct (Hp v); [set_solver|lia]. }
  pose proof (GetByAddress_entry vals (val_Address u) Hes) as Hget. fold es in Hget.
  assert (match (GetByAddress vals (val_Address u)).2 with
    | None => (wrap64 (total + val_VotingPower u), n + 1)
    | Some val => (wrap64 (total + wrap64 (val_VotingPower u - val_VotingPower val)), n)
    end = (power (merge_updates es (pre ++ [u])), n + is_new es u)) as ->.
  { rewrite Hstep in Hnn |- *. unfold is_new. unfold old_power in Hnn, Hold |- *.
    destruct (GetByAddress _ _).2 as [v|].
    - destruct Hget as (_ & _ & He). rewrite He in Hnn, Hold |- *. simpl in *.
      rewrite (wrap64_id (_ - _)) by (unfold in_int64, MinInt64, MaxInt64 in *; lia).
      rewrite wrap64_id by (unfold in_int64, MinInt64, MaxInt64 in *; lia). f_equal. lia.
    - rewrite Hget in Hnn, Hold |- *. simpl in *.
      rewrite wrap64_id by (unfold in_int64, MinInt64, MaxInt64 in *; lia).
      f_equal. lia. }
  destruct (Z.ltb_spec MaxTotalVotingPower (power (merge_updates es (pre ++ [u])))); [done|].
  specialize (IH (pre ++ [u]) (power (merge_updates es (pre ++ [u]))) (n + is_new es u)).
  rewrite <-app_assoc in IH. specialize (IH Hs Hp eq_refl ltac:(lia)).
  destruct (verify_updates_loop _ _ _ _) as [[t m]|]; [|done].
  destruct IH as (A & B & C). rewrite sumZ_cons. split_and!; [done|done|lia].
Qed.

(** ** The change set as a whole *)

Lemma entry_same_members l l' a : same_members l l' → entry l' a = entry l a.
Proof.
  unfold same_members. revert l'. induction l as [|v l IH]; intros [|w l'] E; simpl in E; try done.
  injection E as E1 E2 E3 E4. simpl. rewrite E1, E2, E3. by rewrite IH.
Qed.

Lemma sorted_same_members l l' : same_members l l' → sorted l → sorted l'.
Proof. intros Hm. unfold sorted. by rewrite (proj1 (same_members_facts _ _ Hm)). Qed.

Lemma filter_sorted (Q : Validator → Prop) `{∀ v, Decision (Q v)} l : sorted l → sorted (filter Q l).
Proof.
  induction l as [|v l IH]; [done|]. intros [H1 H2]%sorted_cons. rewrite filter_cons.
  destruct (decide (Q v)); [|auto]. apply sorted_cons. split; [auto|].
  intros w [_ Hw]%list_elem_of_filter. auto.
Qed.

Lemma entry_filter l a :
  sorted l →
  entry (filter is_update l) a = match entry l a with Some (pk, p) => if p =? 0 then None else Some (pk, p) | None => None end ∧
  entry (filter is_removal l) a = match entry l a with Some (pk, p) => if p =? 0 then Some (pk, p) else None | None => None end.
Proof.
  induction l as [|v l IH]; [done|]. intros [H1 H2]%sorted_cons. rewrite !filter_cons.
  destruct (IH H1) as [IHu IHr]. cbn [entry].
  assert (∀ (Q : Validator → Prop) (dec : ∀ v, Decision (Q v)), entry (filter Q l) (val_Address v) = None) as Hno.
  { intros Q dec. apply entry_lt. intros w [_ Hw]%list_elem_of_filter. auto. }
  unfold is_update, is_removal in *.
  destruct (Z.eqb_spec (val_VotingPower v) 0) as [E0|E0].
  - rewrite (decide_False (P := val_VotingPower v ≠ 0)) by tauto.
    rewrite (decide_True (P := val_VotingPower v = 0)) by done. cbn [entry].
    destruct (decide (val_Address v = a)) as [<-|]; [|done].
    rewrite (proj2 (Z.eqb_eq _ _)) by done. split; [|done]. apply (Hno (λ v, val_VotingPower v ≠ 0)).
  - rewrite (decide_True (P := val_VotingPower v ≠ 0)) by done.
    rewrite (decide_False (P := val_VotingPower v = 0)) by done. cbn [entry].
    destruct (decide (val_Address v = a)) as [<-|]; [|done].
    rewrite (proj2 (Z.eqb_neq _ _)) by done. split; [done|]. apply (Hno (λ v, val_VotingPower v = 0)).
Qed.

Lemma new_priorities_members us vals t : same_members us (computeNewPriorities us vals t).
Proof. apply same_members_map. intros v. by destruct (GetByAddress _ _).2. Qed.

Lemma new_priorities_range us vals t v :
  wf vals → v ∈ computeNewPriorities us vals t → in_int64 (val_ProposerPriority v).
Proof.
  intros Hwf (u & -> & _)%list_elem_of_fmap.
  pose proof (GetByAddress_entry vals (val_Address u) (wf_sorted _ Hwf)) as H.
  destruct (GetByAddress _ _).2 as [w|]; simpl; [|apply wrap64_range].
  destruct H as [Hw _]. by apply (wf_priority _ Hwf).
Qed.

(** What the outcome of a change set is allowed to be. *)
Definition change_spec (vals : ValidatorSet) (changes : list Validator)
    (vals' : ValidatorSet) (err : option update_error) : Prop :=
  wf vals' ∧ Proposer vals' = Proposer vals ∧
  match err with
  | Some _ => Validators vals' = Validators vals
  | None =>
      NoDup (map val_Address changes) ∧
      (∀ c, c ∈ changes → 0 ≤ val_VotingPower c ≤ MaxTotalVotingPower) ∧
      (changes ≠ [] → Validators vals' ≠ []) ∧
      ∀ a, entry (Validators vals') a = apply_changes changes (entry (Validators vals)) a
  end.

(** The steps after all checks have passed. *)
Lemma apply_ok vals ups dels t :
  wf vals → sorted ups → sorted dels →
  (∀ u, u ∈ ups → 0 < val_VotingPower u ≤ MaxTotalVotingPower) →
  (∀ d, d ∈ dels → is_Some (entry (Validators vals) (val_Address d))) →
  (∀ a, is_Some (entry dels a) → entry ups a = None) →
  power (merge_updates (Validators vals) ups) ≤ MaxTotalVotingPower →
  ¬ (sumZ (is_new (Validators vals)) ups = 0 ∧ zlen (Validators vals) = zlen dels) →
  ∃ vals', (vals ← applyRemovals (applyUpdates vals (computeNewPriorities ups vals t)) dels;
      vals ← updateTotalVotingPower vals;
      '(total, vals) ← TotalVotingPower vals;
      vals ← RescalePriorities vals (wrap64 (PriorityWindowSizeFactor * total));
      vals ← shiftByAvgProposerPriority vals;
      Ret (vals, None)) = Ret (vals', @None update_error) ∧
    wf vals' ∧ Proposer vals' = Proposer vals ∧ Validators vals' ≠ [] ∧
    ∀ a, entry (Validators vals') a =
      match entry dels a with
      | Some _ => None
      | None => match entry ups a with Some x => Some x | None => entry (Validators vals) a end
      end.
Proof.
  intros Hwf Hups Hdels Hup Hdin Hdisj Hmax Hne.
  pose proof (wf_sorted _ Hwf) as Hes. set (es := Validators vals) in *.
  set (us := computeNewPriorities ups vals t).
  pose proof (new_priorities_members ups vals t) as Hm. fold us in Hm.
  pose proof (sorted_same_members _ _ Hm Hups) as Hus.
  destruct (same_members_facts _ _ Hm) as (_ & _ & _ & Hback).
  assert (∀ u, u ∈ us → 0 < val_VotingPower u) as Hupos.
  { intros u Hu. destruct (Hback u Hu) as (w & Hw & E). unfold to_ref in E. injection E as _ _ E.
    rewrite <-E. by apply Hup. }
  assert (∀ v, v ∈ merge_updates es us → 0 < val_VotingPower v) as Hmpos.
  { intros v [Hv|Hv]%merge_elem; [by apply (wf_power _ Hwf)|auto]. }
  assert (power (merge_updates es us) = power (merge_updates es ups)) as Hpow.
  { rewrite !merge_power by done. f_equal. clear -Hm. unfold same_members in Hm. revert Hm.
    generalize us. induction ups as [|v l IH]; intros [|w l'] E; simpl in E; try done.
    injection E as E1 E2 E3 E4. rewrite !sumZ_cons, (IH l' E4), E1, E3. done. }
  assert (∀ a, entry (merge_updates es us) a =
      match entry ups a with Some x => Some x | None => entry es a end) as Hent.
  { intros a. by rewrite merge_entry, (entry_same_members ups us) by done. }
  destruct (removals_ok (merge_updates es us) dels) as (l & El & Hlen & Hls & Hsub & Hlp & Hle);
    [by apply merge_sorted|done| |].
  { intros d Hd. rewrite Hent. destruct (entry ups _); [done|]. by apply Hdin. }
  assert (zlen (merge_updates es us) = zlen es + sumZ (is_new es) ups) as Hml.
  { rewrite merge_length by done. f_equal. clear -Hm. unfold same_members in Hm. revert Hm.
    generalize us. induction ups as [|v l IH]; intros [|w l'] E; simpl in E; try done.
    injection E as E1 E2 E3 E4. rewrite !sumZ_cons, (IH l' E4). unfold is_new. by rewrite E1. }
  unfold applyRemovals, applyUpdates. cbn [Validators set_Validators]. fold es us.
  unfold zlen in *. rewrite (proj2 (Z.ltb_ge _ _)) by lia. rewrite El. cbn [mbind outcome_bind].
  rewrite (proj2 (Z.ltb_ge _ _)) by lia. cbn [mbind outcome_bind].
  set (v1 := set_Validators _ l).
  assert (l ≠ []) as Hlne.
  { intros ->. apply Hne. simpl in Hlen.
    assert (0 ≤ sumZ (is_new es) ups)
      by (apply sumZ_nonneg; intros u _; unfold is_new; by destruct (entry _ _)).
    destruct (removals_present es dels) as (r & Hr); [done..|].
    split; lia. }
  assert (power l ≤ MaxTotalVotingPower) as Hlmax by (specialize (Hlp Hmpos); lia).
  assert (wf (mkValidatorSet l (Proposer vals) 0)) as Hwf0.
  { split; simpl; [done|auto|done|by left|].
    intros v Hv. destruct (merge_elem _ _ _ (Hsub v Hv)) as [He|Hu]; [by apply (wf_priority _ Hwf)|].
    by eapply new_priorities_range. }
  set (v0 := mkValidatorSet l (Proposer vals) 0) in *.
  assert (updateTotalVotingPower v1 = Ret (with_total v0)) as ->.
  { unfold updateTotalVotingPower. cbn [v1 Validators set_Validators].
    rewrite add_power_sum; [done|lia|auto|lia]. }
  cbn [mbind outcome_bind]. rewrite (TotalVotingPower_wf _ (wf_with_total _ Hwf0)).
  cbn [mbind outcome_bind]. change (with_total (with_total v0)) with (with_total v0).
  change (Validators (with_total v0)) with l.
  destruct (recenter_ok v0 Hwf0 Hlne) as (v2 & E2 & Hwf2 & Hm2 & Hprop & _ & _).
  change (Validators v0) with l in E2, Hm2.
  destruct (RescalePriorities _ _) as [v3|]; [|done]. cbn [mbind outcome_bind] in E2 |- *.
  rewrite E2. cbn [mbind outcome_bind]. exists v2. split_and!; [done|done|by rewrite Hprop| |].
  - destruct (same_members_facts _ _ Hm2) as (_ & _ & Hl2 & _). intros Hnil.
    apply Hlne, nil_length_inv. by rewrite <-Hl2, Hnil.
  - intros a. by rewrite (entry_same_members _ _ a Hm2), Hle, Hent.
Qed.

Lemma with_total_members vals : Validators (with_total vals) = Validators vals.
Proof. done. Qed.

Lemma error_unchanged vals changes vals' err :
  wf vals' → Validators vals' = Validators vals → Proposer vals' = Proposer vals →
  change_spec vals changes vals' (Some err).
Proof. intros H1 H2 H3. by split_and!. Qed.

Lemma updateWithChangeSet_ok vals changes b :
  wf vals →
  ∃ vals' err, updateWithChangeSet vals changes b = Ret (vals', err) ∧ change_spec vals changes vals' err.
Proof.
  intros Hwf. unfold updateWithChangeSet.
  destruct (Z.leb_spec (zlen changes) 0) as [Hz|Hz].
  { assert (changes = []) as -> by (destruct changes; [done|unfold zlen in Hz; simpl in Hz; lia]).
    eexists _, _. split; [done|]. split_and!; try done; [constructor|set_solver]. }
  destruct (processChanges changes) as [[ups dels]|err] eqn:Ep;
    [|eexists _, _; split; [done|]; by apply error_unchanged].
  destruct (processChanges_ok _ _ _ Ep) as (l & Hperm & Hl & Hrange & -> & ->).
  destruct (negb b && _); [eexists _, _; split; [done|]; by apply error_unchanged|].
  pose proof (wf_sorted _ Hwf) as Hes.
  unfold verifyRemovals. destruct (forallb _ _) eqn:Ef;
    [|cbn; eexists _, _; split; [done|]; by apply error_unchanged].
  assert (∀ d, d ∈ filter is_removal l → is_Some (entry (Validators vals) (val_Address d))) as Hdin.
  { intros d Hd. rewrite forallb_forall in Ef. specialize (Ef d (proj1 (list_elem_of_In _ _) Hd)).
    pose proof (GetByAddress_entry vals (val_Address d) Hes) as Hg.
    destruct (GetByAddress _ _).2 as [v|]; [|done]. destruct Hg as (_ & _ & ->). done. }
  pose proof (filter_sorted is_removal l Hl) as Hsd. pose proof (filter_sorted is_update l Hl) as Hsu.
  destruct (removals_present _ _ Hes Hsd Hdin) as [r Hr].
  rewrite (proj2 (Z.ltb_ge _ _)) by (unfold zlen; lia). cbn [mbind outcome_bind negb].
  unfold verifyUpdates. rewrite TotalVotingPower_wf by done. cbn [mbind outcome_bind].
  assert (∀ u, u ∈ filter is_update l → 0 < val_VotingPower u ≤ MaxTotalVotingPower) as Hup.
  { intros u [Hu Hin]%list_elem_of_filter. rewrite Hperm in Hin. specialize (Hrange u Hin).
    unfold is_update in Hu. lia. }
  pose proof (verify_loop_total (with_total vals) [] (filter is_update l)
    (power (Validators vals)) 0 (wf_with_total _ Hwf) Hsu Hup) as Hloop.
  rewrite with_total_members, merge_nil_r in Hloop.
  specialize (Hloop eq_refl (wf_total _ Hwf)). rewrite app_nil_l in Hloop.
  destruct (verify_updates_loop _ _ _ _) as [[t n]|];
    [|eexists _, _; split; [done|]; apply error_unchanged; [by apply wf_with_total|done..]].
  destruct Hloop as (Et & Hmax & En). rewrite with_total_members.
  destruct (_ && _) eqn:Ee;
    [eexists _, _; split; [done|]; apply error_unchanged; [by apply wf_with_total|done..]|].
  destruct (apply_ok (with_total vals) (filter is_update l) (filter is_removal l) t)
    as (vals' & E & Hwf' & Hprop & Hne & Hent); rewrite ?with_total_members; try done.
  - by apply wf_with_total.
  - intros a [x Hx]. destruct (entry_filter l a Hl) as [Hu Hd].
    rewrite Hd in Hx. rewrite Hu. destruct (entry l a) as [[pk p]|]; [|done].
    by destruct (p =? 0).
  - lia.
  - intros [H1 H2]. apply andb_false_iff in Ee as [Ee|Ee]; apply Z.eqb_neq in Ee; lia.
  - exists vals', None. split; [exact E|]. split_and!; [done|done| |done|done|].
    + pose proof (sorted_NoDup _ Hl) as Hnd. change (map ?f ?l) with (f <$> l) in *. by rewrite <-Hperm.
    + intros a. rewrite Hent, with_total_members. unfold apply_changes.
      rewrite <-(entry_perm l changes a (sorted_NoDup _ Hl) Hperm).
      destruct (entry_filter l a Hl) as [-> ->]. destruct (entry l a) as [[pk p]|]; [|done].
      by destruct (p =? 0).
Qed.

(** C29. [UpdateWithChangeSet] implements its abstract specification: on a well-formed
    set it never panics and keeps the invariant (sorted distinct addresses,
    positive powers, total within the maximum, the cached total right); an error
    leaves the validators unchanged; a success means that the changes had
    distinct addresses and powers in range, and that every address now has the
    public key and power the changes give it, is gone if they give it power 0,
    and is as before if they do not mention it; the set does not become empty. *)
Theorem UpdateWithChangeSet_refines (vals : ValidatorSet) (changes : list Validator) :
  wf vals →
  ∃ vals' err, UpdateWithChangeSet vals changes = Ret (vals', err) ∧ wf vals' ∧
    Proposer vals' = Proposer vals ∧
    match err with
    | Some _ => Validators vals' = Validators vals
    | None =>
        NoDup (map val_Address changes) ∧
        (∀ c, c ∈ changes → 0 ≤ val_VotingPower c ≤ MaxTotalVotingPower) ∧
        (changes ≠ [] → Validators vals' ≠ []) ∧
        ∀ a, entry (Validators vals') a = apply_changes changes (entry (Validators vals)) a
    end.
Proof.
  intros Hwf. destruct (updateWithChangeSet_ok vals changes true Hwf) as (vals' & err & E & H).
  exists vals', err. split; [exact E|exact H].
Qed.

Definition sample_changes : list Validator :=
  [mkValidator [x07] [x0d] 40 0; mkValidator [x02] [x0b] 0 0; mkValidator [x01] [x0a] 11 0].

Lemma UpdateWithChangeSet_refines_witness :
  ∃ vals', UpdateWithChangeSet sample_vals sample_changes = Ret (vals', None) ∧ wf vals' ∧
    entry (Validators vals') [x02] = None ∧ entry (Validators vals') [x07] = Some ([x0d], 40).
Proof.
  destruct (UpdateWithChangeSet_refines sample_vals sample_changes sample_vals_wf)
    as (vals' & err & E & Hwf & _ & H).
  assert (∃ v, UpdateWithChangeSet sample_vals sample_changes = Ret (v, None)) as [v Ev]
    by (eexists; vm_compute; reflexivity).
  rewrite Ev in E. injection E as <- <-. destruct H as (_ & _ & _ & H).
  exists v. split; [exact Ev|]. split; [exact Hwf|]. split; rewrite H; reflexivity.
Defined.

(** ** New sets *)

Lemma le_sorted_strict l :
  StronglySorted addr_le l → NoDup (map val_Address l) → sorted l.
Proof.
  induction l as [|v l IH]; intros Hs Hnd; [constructor|]. simpl in Hnd.
  apply StronglySorted_inv in Hs as [Hs Hv]. apply NoDup_cons in Hnd as [Hno Hnd].
  apply sorted_cons. split; [auto|]. intros w Hw. rewrite List.Forall_forall in Hv.
  specialize (Hv w (proj1 (list_elem_of_In _ _) Hw)). apply le_addr_spec in Hv as [E|?]; [|done].
  exfalso. apply Hno. rewrite E. change (map ?f ?l) with (f <$> l). by apply list_elem_of_fmap_2.
Qed.

Lemma scan_updates l prev ups :
  sorted l → (∀ c, c ∈ l → bytes_lt prev (val_Address c)) →
  (∀ c, c ∈ l → 0 < val_VotingPower c ≤ MaxTotalVotingPower) →
  scan_changes l prev ups [] = inl (ups ++ l, []).
Proof.
  revert prev ups. induction l as [|c l IH]; intros prev ups Hs Hlt Hr; simpl.
  { by rewrite app_nil_r. }
  apply sorted_cons in Hs as [Hs Hc].
  pose proof (Hr c (list_elem_of_here _ _)).
  rewrite (proj2 (bytes_equal_false _ _)); [|intros E; symmetry in E; revert E; apply bytes_lt_ne; set_solver].
  rewrite (proj2 (Z.ltb_ge _ _)), (proj2 (Z.ltb_ge _ _)), (proj2 (Z.eqb_neq _ _)) by lia.
  rewrite IH by set_solver. by rewrite <-app_assoc.
Qed.

Lemma verify_loop_empty prop t us total n :
  0 ≤ total → (∀ u, u ∈ us → 0 < val_VotingPower u) → total + power us ≤ MaxTotalVotingPower →
  verify_updates_loop (mkValidatorSet [] prop t) us total n = Some (total + power us, n + zlen us).
Proof.
  unfold power, zlen. revert total n. induction us as [|u us IH]; intros total n Ht Hp Hmax.
  { rewrite sumZ_nil. cbn. do 2 f_equal; lia. }
  rewrite sumZ_cons in *. pose proof (Hp u (list_elem_of_here _ _)).
  assert (0 ≤ sumZ val_VotingPower us).
  { apply sumZ_nonneg. intros w Hw. specialize (Hp w (list_elem_of_further _ _ _ Hw)). lia. }
  assert (MaxTotalVotingPower ≤ MaxInt64) by (vm_compute; discriminate).
  cbn [verify_updates_loop]. rewrite GetByAddress_absent by (simpl; set_solver). cbn [snd].
  rewrite wrap64_id by (unfold in_int64, MinInt64; lia).
  rewrite (proj2 (Z.ltb_ge _ _)) by lia. rewrite IH by (set_solver || lia).
  do 2 f_equal; simpl length; lia.
Qed.

(** Increments never panic on a well-formed set, whatever the priorities. *)
Lemma increment_loop_wf k vals acc :
  wf vals → Validators vals ≠ [] →
  ∃ vals' ps, increment_loop k vals acc = Ret (vals', acc ++ ps) ∧ length ps = k ∧ wf vals' ∧
    same_members (Validators vals) (Validators vals').
Proof.
  revert vals acc. induction k as [|k IH]; intros vals acc Hwf Hne.
  { exists vals, []. rewrite app_nil_r. by split_and!. }
  destruct (increment_ok vals Hwf Hne) as (i & v & _ & _ & E & Hwf1 & Hm).
  destruct (same_members_facts _ _ Hm) as (_ & _ & Hlen & _).
  set (v1 := mkValidatorSet _ _ _) in *.
  destruct (IH v1 (acc ++ [to_ref v]) Hwf1) as (v2 & ps & E2 & Hps & Hwf2 & Hm2).
  { intros Hnil. apply Hne, nil_length_inv. by rewrite <-Hlen, Hnil. }
  exists v2, (to_ref v :: ps). cbn [increment_loop]. rewrite E. cbn [mbind outcome_bind].
  rewrite E2, <-app_assoc. split_and!; [done|simpl; lia|done|by eapply same_members_trans].
Qed.

Lemma IncrementProposerPriority_wf vals times :
  wf vals → Validators vals ≠ [] → 0 < times →
  ∃ vals', IncrementProposerPriority vals times = Ret vals' ∧ wf vals' ∧
    same_members (Validators vals) (Validators vals') ∧ is_Some (Proposer vals').
Proof.
  intros Hwf Hne Ht. destruct (recenter_ok vals Hwf Hne) as (v1 & E1 & Hwf1 & Hm1 & _).
  destruct (same_members_facts _ _ Hm1) as (_ & _ & Hl1 & _).
  destruct (increment_loop_wf (Z.to_nat times) v1 []) as (v2 & ps & E2 & Hps & Hwf2 & Hm2); [done| |].
  { intros Hnil. apply Hne, nil_length_inv. by rewrite <-Hl1, Hnil. }
  rewrite Increment_unfold, E1 by done. cbn [mbind outcome_bind]. rewrite E2. cbn [mbind outcome_bind].
  eexists. split; [reflexivity|]. split_and!; [by apply (wf_proposer v2)|by eapply same_members_trans|].
  cbn. destruct ps as [|p ps]; [simpl in Hps; lia|]. by apply last_is_Some.
Qed.

(** [NewValidatorSet] succeeds on validators with distinct non-empty addresses,
    positive powers and a total within the maximum: the result is well-formed,
    holds exactly the given keys and powers, and has a proposer. *)
Theorem NewValidatorSet_ok (valz : list Validator) :
  valz ≠ [] → NoDup (map val_Address valz) →
  (∀ v, v ∈ valz → val_Address v ≠ [] ∧ 0 < val_VotingPower v) →
  power valz ≤ MaxTotalVotingPower →
  ∃ vals, NewValidatorSet valz = Ret vals ∧ wf vals ∧ is_Some (Proposer vals) ∧
    ∀ a, entry (Validators vals) a = entry valz a.
Proof.
  intros Hne Hnd Hv Htot. unfold NewValidatorSet.
  set (vals0 := mkValidatorSet [] None 0).
  assert (wf vals0) as Hwf0 by (split; simpl; [constructor|set_solver|vm_compute; discriminate|by left|set_solver]).
  destruct (updateWithChangeSet_ok vals0 valz false Hwf0) as (vals1 & err & E & Hwf1 & Hprop & Hspec).
  assert (err = None) as ->.
  { set (l := sort_Sort by_address valz).
    assert (l ≡ₚ valz) as Hl by apply sort_Sort_perm.
    assert (sorted l) as Hs.
    { apply le_sorted_strict; [apply sort_sorted|]. change (map ?f ?l) with (f <$> l) in *. by rewrite Hl. }
    assert (power l = power valz) as Hp by (unfold power; by rewrite Hl).
    assert (∀ c, c ∈ l → 0 < val_VotingPower c) as Hpos by (intros c Hc; rewrite Hl in Hc; by apply Hv).
    revert E. unfold updateWithChangeSet.
    rewrite (proj2 (Z.leb_gt _ _)) by (destruct valz; [done|unfold zlen; simpl; lia]).
    unfold processChanges. fold l. change (validatorListCopy valz) with valz. fold l.
    rewrite (scan_updates l [] []).
    - rewrite app_nil_l. change (negb false && negb (zlen (@nil Validator) =? 0)) with false.
      change (verifyRemovals [] vals0) with (Ret true). cbn [mbind outcome_bind negb].
      unfold verifyUpdates. rewrite TotalVotingPower_wf by done. cbn [mbind outcome_bind].
      unfold with_total, vals0. cbn [Validators Proposer].
      change (power []) with 0. rewrite verify_loop_empty by (done || lia).
      assert (0 < zlen l).
      { assert (length l = length valz) as Hlen by (by rewrite Hl).
        unfold zlen. destruct valz; [done|simpl in Hlen; lia]. }
      rewrite (proj2 (Z.eqb_neq _ _)) by lia. cbn [andb]. intros E.
      apply bind_Ret in E as (w1 & _ & E). apply bind_Ret in E as (w2 & _ & E).
      apply bind_Ret in E as ([total w3] & _ & E). apply bind_Ret in E as (w4 & _ & E).
      apply bind_Ret in E as (w5 & _ & E). congruence.
    - done.
    - intros c Hc. rewrite Hl in Hc. destruct (Hv c Hc) as [Ha _].
      unfold bytes_lt. by destruct (val_Address c).
    - intros c Hc. split; [by apply Hpos|]. rewrite <-Hp in Htot.
      assert (val_VotingPower c ≤ power l); [|lia].
      apply sumZ_mem_le; [|done]. intros y Hy. specialize (Hpos y Hy). lia. }
  rewrite E. cbn [mbind outcome_bind].
  rewrite (proj2 (Z.ltb_lt _ _)) by (destruct valz; [done|unfold zlen; simpl; lia]).
  destruct Hspec as (_ & _ & Hne1 & Hent).
  destruct (IncrementProposerPriority_wf vals1 1 Hwf1 (Hne1 Hne)) as (vals2 & E2 & Hwf2 & Hm & Hp); [lia|].
  exists vals2. split_and!; [done..|]. intros a. rewrite (entry_same_members _ _ a Hm), Hent.
  unfold apply_changes. simpl. destruct (entry valz a) as [[pk p]|] eqn:Ea; [|done].
  destruct (Z.eqb_spec p 0) as [->|]; [|done]. exfalso.
  assert (∃ v, v ∈ valz ∧ val_VotingPower v = 0) as (v & Hin & E0).
  { clear -Ea. induction valz as [|v l IH]; [done|]. simpl in Ea. destruct (decide _).
    - injection Ea as _ E. exists v. split; [apply list_elem_of_here|done].
    - destruct (IH Ea) as (w & ? & ?). exists w. split; [by apply list_elem_of_further|done]. }
  destruct (Hv v Hin) as [_ ?]. lia.
Qed.

Lemma NewValidatorSet_ok_witness :
  ∃ vals, NewValidatorSet (Validators sample_vals) = Ret vals ∧ wf vals ∧
    entry (Validators vals) [x03] = Some ([x0c], 70).
Proof.
  destruct (NewValidatorSet_ok (Validators sample_vals)) as (vals & E & Hwf & _ & Hent);
    [done|apply (bool_decide_unpack _); vm_compute; exact I| |vm_compute; discriminate|].
  - intros v Hv. repeat (apply elem_of_cons in Hv as [->|Hv]; [split; [done|simpl; lia]|]).
    by apply not_elem_of_nil in Hv.
  - exists vals. split; [exact E|]. split; [exact Hwf|]. rewrite Hent. reflexivity.
Defined.
