(* ===== verification/VerifyCommit.v ===== *)
(** * types/validator_set.go: verification of commits

    [VerifyCommit] and [VerifyFutureCommit] against the codec and the signature
    scheme of [Types]. A commit is memoized by [Height] and [Round] without any
    other effect, so it is not threaded; the cached total of the validator set is. *)

From Stdlib Require Import ZArith Lia List Bool Strings.Byte.
From stdpp Require Import base list sets.
From S2P Require Import Prelude Types ValidatorSet.
Local Open Scope Z_scope.

Inductive verify_commit_error :=
| ErrInvalidCommit (err : commit_error)
| ErrWrongSetSize
| ErrWrongHeight
| ErrWrongCommitBlockID
| ErrInvalidCommitSignature
| ErrTooMuchChange (got needed : Z)
| ErrFutureHeight
| ErrFutureRound
| ErrFutureType.

(** errTooMuchChange is the only error recognised by [IsErrTooMuchChange]. *)
Definition IsErrTooMuchChange (err : verify_commit_error) : bool :=
  match err with ErrTooMuchChange _ _ => true | _ => false end.

Section WithCodec.
Context `{Codec} `{Crypto}.

(** The loop over the precommits; [inr] is the error of an invalid signature. *)
Fixpoint tally_loop (vals : ValidatorSet) (chainID : bytes) (blockID : BlockID) (idx : Z)
    (precommits : list (option CommitSig)) (talliedVotingPower : Z) :
    outcome (Z + verify_commit_error) :=
  match precommits with
  | [] => Ret (inl talliedVotingPower)
  | None :: rest => tally_loop vals chainID blockID (idx + 1) rest talliedVotingPower
  | Some precommit :: rest =>
      val ← or_panic (GetByIndex vals idx).2;
      if negb (VerifyBytes (val_PubKey val) (Vote_SignBytes chainID precommit) (vote_Signature precommit))
      then Ret (inr ErrInvalidCommitSignature)
      else
        tally_loop vals chainID blockID (idx + 1) rest
          (if BlockID_Equals blockID (vote_BlockID precommit)
           then wrap64 (talliedVotingPower + val_VotingPower val) else talliedVotingPower)
  end.

Definition twoThirds (total : Z) : Z := Z.quot (wrap64 (total * 2)) 3.

Definition VerifyCommit (vals : ValidatorSet) (chainID : bytes) (blockID : BlockID) (height : Z)
    (commit : Commit) : outcome (ValidatorSet * option verify_commit_error) :=
  match Commit_ValidateBasic commit with
  | Some err => Ret (vals, Some (ErrInvalidCommit err))
  | None =>
      if negb (Size vals =? zlen (commit_Precommits commit)) then Ret (vals, Some ErrWrongSetSize)
      else if negb (height =? Commit_Height commit) then Ret (vals, Some ErrWrongHeight)
      else if negb (BlockID_Equals blockID (commit_BlockID commit))
      then Ret (vals, Some ErrWrongCommitBlockID)
      else
        tallied ← tally_loop vals chainID blockID 0 (commit_Precommits commit) 0;
        match tallied with
        | inr err => Ret (vals, Some err)
        | inl talliedVotingPower =>
            '(total, vals) ← TotalVotingPower vals;
            if twoThirds total <? talliedVotingPower then Ret (vals, None)
            else Ret (vals, Some (ErrTooMuchChange talliedVotingPower (wrap64 (twoThirds total + 1))))
        end
  end.

(** The loop of [VerifyFutureCommit]; [seen] is the set of old indices counted. *)
Fixpoint future_loop (oldVals : ValidatorSet) (chainID : bytes) (blockID : BlockID) (height round : Z)
    (precommits : list (option CommitSig)) (seen : list Z) (oldVotingPower : Z) :
    Z + verify_commit_error :=
  match precommits with
  | [] => inl oldVotingPower
  | None :: rest => future_loop oldVals chainID blockID height round rest seen oldVotingPower
  | Some precommit :: rest =>
      if negb (vote_Height precommit =? height) then inr ErrFutureHeight
      else if negb (vote_Round precommit =? round) then inr ErrFutureRound
      else if negb (vote_Type precommit =? PrecommitType) then inr ErrFutureType
      else
        match GetByAddress oldVals (vote_ValidatorAddress precommit) with
        | (_, None) => future_loop oldVals chainID blockID height round rest seen oldVotingPower
        | (idx, Some val) =>
            if bool_decide (idx ∈ seen)
            then future_loop oldVals chainID blockID height round rest seen oldVotingPower
            else if negb (VerifyBytes (val_PubKey val) (Vote_SignBytes chainID precommit)
                            (vote_Signature precommit))
            then inr ErrInvalidCommitSignature
            else
              future_loop oldVals chainID blockID height round rest (idx :: seen)
                (if BlockID_Equals blockID (vote_BlockID precommit)
                 then wrap64 (oldVotingPower + val_VotingPower val) else oldVotingPower)
        end
  end.

Definition VerifyFutureCommit (oldVals newSet : ValidatorSet) (chainID : bytes) (blockID : BlockID)
    (height : Z) (commit : Commit) :
    outcome (ValidatorSet * ValidatorSet * option verify_commit_error) :=
  '(newSet, err) ← VerifyCommit newSet chainID blockID height commit;
  match err with
  | Some err => Ret (oldVals, newSet, Some err)
  | None =>
      match future_loop oldVals chainID blockID height (Commit_Round commit)
              (commit_Precommits commit) [] 0 with
      | inr err => Ret (oldVals, newSet, Some err)
      | inl oldVotingPower =>
          '(total, oldVals) ← TotalVotingPower oldVals;
          if oldVotingPower <=? twoThirds total
          then Ret (oldVals, newSet,
                 Some (ErrTooMuchChange oldVotingPower (wrap64 (twoThirds total + 1))))
          else Ret (oldVals, newSet, None)
      end
  end.

(** ** Who signed what *)

(** The validator's precommit carries a valid signature for the block. *)
Definition signed (chainID : bytes) (blockID : BlockID) (val : Validator) (cs : option CommitSig) : bool :=
  match cs with
  | Some precommit =>
      BlockID_Equals blockID (vote_BlockID precommit) &&
      VerifyBytes (val_PubKey val) (Vote_SignBytes chainID precommit) (vote_Signature precommit)
  | None => false
  end.

Definition weight (chainID : bytes) (blockID : BlockID) (vc : Validator * option CommitSig) : Z :=
  if signed chainID blockID vc.1 vc.2 then val_VotingPower vc.1 else 0.

Definition signed_power (vals : list Validator) (chainID : bytes) (blockID : BlockID)
    (precommits : list (option CommitSig)) : Z :=
  sumZ (weight chainID blockID) (zip vals precommits).

Lemma zip_power vals (pcs : list (option CommitSig)) :
  (∀ v, v ∈ vals → 0 < val_VotingPower v) → length vals = length pcs →
  sumZ (λ vc, val_VotingPower vc.1) (zip vals pcs) = power vals.
Proof.
  unfold power. revert pcs. induction vals as [|v vals IH]; intros [|c pcs] Hp Hl; simpl in Hl; try done.
  simpl. rewrite !sumZ_cons, IH; [done|set_solver|lia].
Qed.

Lemma signed_power_bounds vals chainID blockID pcs :
  (∀ v, v ∈ vals → 0 < val_VotingPower v) → 0 ≤ signed_power vals chainID blockID pcs ≤ power vals.
Proof.
  unfold signed_power, power. revert pcs. induction vals as [|v vals IH]; intros [|c pcs] Hp; simpl.
  - rewrite !sumZ_nil. lia.
  - rewrite !sumZ_nil. lia.
  - rewrite sumZ_nil. split; [lia|]. apply sumZ_nonneg. intros w Hw. specialize (Hp w Hw). lia.
  - rewrite !sumZ_cons. specialize (IH pcs ltac:(set_solver)).
    pose proof (Hp v (list_elem_of_here _ _)). unfold weight at 1 3. simpl. destruct (signed _ _ _ _); lia.
Qed.

(** What the arithmetic needs of a set; its addresses may be in any order. *)
Record powers_ok (vals : ValidatorSet) : Prop := {
  po_power v : v ∈ Validators vals → 0 < val_VotingPower v;
  po_total : power (Validators vals) ≤ MaxTotalVotingPower;
  po_cached : totalVotingPower vals = 0 ∨ totalVotingPower vals = power (Validators vals)
}.

Lemma wf_powers_ok vals : wf vals → powers_ok vals.
Proof. by intros [_ Hp Ht Hc _]. Qed.

Lemma TotalVotingPower_ok vals :
  powers_ok vals → TotalVotingPower vals = Ret (power (Validators vals), with_total vals).
Proof.
  intros [Hp Ht Hc]. unfold TotalVotingPower, updateTotalVotingPower, with_total.
  destruct (Z.eqb_spec (totalVotingPower vals) 0) as [E|E].
  - rewrite add_power_sum by (done || lia). done.
  - destruct Hc as [|Hc]; [lia|]. rewrite Hc. destruct vals; simpl in *. by rewrite Hc.
Qed.

Lemma tally_spec vals chainID blockID pre rest tallied :
  powers_ok vals → length (Validators vals) = (length pre + length rest)%nat →
  tallied = signed_power (take (length pre) (Validators vals)) chainID blockID pre →
  ∃ r, tally_loop vals chainID blockID (zlen pre) rest tallied = Ret r ∧
    (r = inr ErrInvalidCommitSignature ∧
       (∃ i cs v, rest !! i = Some (Some cs) ∧ Validators vals !! (length pre + i)%nat = Some v ∧
          VerifyBytes (val_PubKey v) (Vote_SignBytes chainID cs) (vote_Signature cs) = false) ∨
     r = inl (signed_power (Validators vals) chainID blockID (pre ++ rest)) ∧
       (∀ i cs v, rest !! i = Some (Some cs) → Validators vals !! (length pre + i)%nat = Some v →
          VerifyBytes (val_PubKey v) (Vote_SignBytes chainID cs) (vote_Signature cs) = true)).
Proof.
  intros Hwf. revert pre tallied. induction rest as [|c rest IH]; intros pre tallied Hlen ->.
  { eexists. split; [done|]. right. simpl in Hlen. rewrite app_nil_r.
    rewrite firstn_all2 by lia. split; [done|]. intros i cs v Hi. by rewrite lookup_nil in Hi. }
  simpl in Hlen. destruct (lookup_lt_is_Some_2 (Validators vals) (length pre) ltac:(lia)) as [v Hv].
  assert (signed_power (take (length (pre ++ [c])) (Validators vals)) chainID blockID (pre ++ [c]) =
    signed_power (take (length pre) (Validators vals)) chainID blockID pre + weight chainID blockID (v, c)) as Hsnoc.
  { unfold signed_power. rewrite length_app, Nat.add_1_r, (take_S_r _ _ v Hv).
    rewrite zip_with_app by (rewrite length_take; lia). rewrite sumZ_app. simpl. by rewrite sumZ_cons, sumZ_nil, Z.add_0_r. }
  assert (zlen (pre ++ [c]) = zlen pre + 1) as Hz by (unfold zlen; rewrite length_app; simpl; lia).
  specialize (IH (pre ++ [c])). rewrite length_app in IH. simpl length in IH.
  rewrite Hz, <-app_assoc in IH. simpl app in IH.
  assert (∀ t, t = signed_power (take (length pre) (Validators vals)) chainID blockID pre
                   + weight chainID blockID (v, c) →
    match c with Some cs => VerifyBytes (val_PubKey v) (Vote_SignBytes chainID cs) (vote_Signature cs) = true
               | None => True end →
    ∃ r, tally_loop vals chainID blockID (zlen pre + 1) rest t = Ret r ∧
    (r = inr ErrInvalidCommitSignature ∧
       (∃ i cs v, (c :: rest) !! i = Some (Some cs) ∧ Validators vals !! (length pre + i)%nat = Some v ∧
          VerifyBytes (val_PubKey v) (Vote_SignBytes chainID cs) (vote_Signature cs) = false) ∨
     r = inl (signed_power (Validators vals) chainID blockID (pre ++ c :: rest)) ∧
       (∀ i cs v, (c :: rest) !! i = Some (Some cs) → Validators vals !! (length pre + i)%nat = Some v →
          VerifyBytes (val_PubKey v) (Vote_SignBytes chainID cs) (vote_Signature cs) = true))) as Hgo.
  { intros t Ht Hc. rewrite length_app in Hsnoc. simpl length in Hsnoc.
    destruct (IH t ltac:(lia)) as (r & E & [[-> (i & cs & w & Hi & Hw & Hb)]|[-> Hall]]); [congruence|..].
    - eexists. split; [exact E|]. left. split; [done|]. exists (S i), cs, w. split_and!; [done| |done].
      rewrite <-Hw. f_equal. lia.
    - eexists. split; [exact E|]. right. split; [done|]. intros [|i] cs w Hi Hw; simpl in Hi.
      + injection Hi as ->. rewrite Nat.add_0_r, Hv in Hw. by injection Hw as ->.
      + eapply Hall; [exact Hi|]. rewrite <-Hw. f_equal. lia. }
  destruct c as [cs|]; cbn [tally_loop].
  2: { apply Hgo; [|done]. unfold weight. simpl. lia. }
  assert ((GetByIndex vals (zlen pre)).2 = Some v) as ->.
  { unfold GetByIndex, zlen. rewrite slice_lookup_nat, Hv. case_Z; simpl; try lia; done. }
  cbn [or_panic mbind outcome_bind].
  destruct (VerifyBytes _ _ _) eqn:Ev; cbn [negb].
  - apply Hgo; [|done]. unfold weight, signed. simpl. rewrite Ev, andb_true_r.
    destruct (BlockID_Equals _ _); [|lia]. apply wrap64_id.
    pose proof (signed_power_bounds (take (length pre) (Validators vals)) chainID blockID pre) as Hb1.
    specialize (Hb1 ltac:(intros w Hw; eapply (po_power _ Hwf), elem_of_take_sub, Hw)).
    assert (power (take (length pre) (Validators vals)) + val_VotingPower v ≤ power (Validators vals)) as Hb2.
    { rewrite <-(take_drop (length pre) (Validators vals)) at 2. unfold power. rewrite sumZ_app.
      rewrite (drop_S _ v _ Hv), sumZ_cons.
      enough (0 ≤ sumZ val_VotingPower (drop (S (length pre)) (Validators vals))) by lia.
      apply sumZ_nonneg. intros w Hw%elem_of_drop_sub. pose proof (po_power _ Hwf w Hw). lia. }
    pose proof (po_total _ Hwf). pose proof (po_power _ Hwf v (list_elem_of_lookup_2 _ _ _ Hv)).
    assert (MaxTotalVotingPower ≤ MaxInt64) by (vm_compute; discriminate).
    unfold in_int64, MinInt64, MaxInt64 in *. lia.
  - eexists. split; [done|]. left. split; [done|]. exists 0%nat, cs, v.
    rewrite Nat.add_0_r. done.
Qed.

Lemma twoThirds_spec total x : 0 ≤ total ≤ MaxTotalVotingPower → (twoThirds total < x ↔ 2 * total < 3 * x).
Proof.
  intros Ht. unfold twoThirds.
  assert (2 * MaxTotalVotingPower ≤ MaxInt64) by (vm_compute; discriminate).
  rewrite wrap64_id by (unfold in_int64, MinInt64, MaxInt64 in *; lia).
  rewrite Z.quot_div_nonneg by lia.
  pose proof (Z.div_mod (total * 2) 3 ltac:(lia)). pose proof (Z.mod_pos_bound (total * 2) 3 ltac:(lia)). lia.
Qed.

(** Every precommit present carries its validator's signature. *)
Definition all_valid (vals : list Validator) (chainID : bytes) (pcs : list (option CommitSig)) : Prop :=
  ∀ i cs v, pcs !! i = Some (Some cs) → vals !! i = Some v →
    VerifyBytes (val_PubKey v) (Vote_SignBytes chainID cs) (vote_Signature cs) = true.

Definition commit_accepted (vals : ValidatorSet) (chainID : bytes) (blockID : BlockID) (height : Z)
    (commit : Commit) : Prop :=
  Commit_ValidateBasic commit = None ∧ length (Validators vals) = length (commit_Precommits commit) ∧
  Commit_Height commit = height ∧ commit_BlockID commit = blockID ∧
  all_valid (Validators vals) chainID (commit_Precommits commit) ∧
  2 * power (Validators vals) <
    3 * signed_power (Validators vals) chainID blockID (commit_Precommits commit).

Lemma VerifyCommit_powers vals chainID blockID height commit :
  powers_ok vals →
  ∃ vals' err, VerifyCommit vals chainID blockID height commit = Ret (vals', err) ∧
    (vals' = vals ∨ vals' = with_total vals) ∧
    (err = None ↔ commit_accepted vals chainID blockID height commit).
Proof.
  intros Hwf. unfold VerifyCommit, commit_accepted, Size.
  destruct (Commit_ValidateBasic commit); [eexists _, _; split; [done|]; naive_solver|].
  destruct (Z.eqb_spec (zlen (Validators vals)) (zlen (commit_Precommits commit))) as [Hl|Hl]; unfold zlen in Hl;
    [|eexists _, _; split; [done|]; split; [by left|]; split; [done|]; intros (_ & Hl' & _); lia].
  destruct (Z.eqb_spec height (Commit_Height commit)) as [->|Hh];
    [|eexists _, _; split; [done|]; naive_solver].
  destruct (BlockID_Equals blockID (commit_BlockID commit)) eqn:Eb; cbn [negb].
  2: { eexists _, _. split; [done|]. split; [by left|]. split; [done|].
       intros (_ & _ & _ & <- & _). by rewrite BlockID_Equals_refl in Eb. }
  apply BlockID_Equals_spec in Eb as ->.
  destruct (tally_spec vals chainID (commit_BlockID commit) [] (commit_Precommits commit) 0 Hwf)
    as (r & Er & Hr); [simpl; lia|done|].
  change (zlen []) with 0 in Er. rewrite Er. cbn [mbind outcome_bind].
  destruct Hr as [[-> (i & cs & v & Hi & Hv & Hbad)]|[-> Hall]].
  - eexists _, _. split; [done|]. split; [by left|]. split; [done|].
    intros (_ & _ & _ & _ & Hok & _). by rewrite (Hok i cs v Hi Hv) in Hbad.
  - rewrite TotalVotingPower_ok by done. cbn [mbind outcome_bind]. rewrite app_nil_l.
    pose proof (signed_power_bounds (Validators vals) chainID (commit_BlockID commit)
      (commit_Precommits commit) (po_power _ Hwf)) as Hb. pose proof (po_total _ Hwf).
    pose proof (twoThirds_spec (power (Validators vals)) (signed_power (Validators vals) chainID
      (commit_BlockID commit) (commit_Precommits commit)) ltac:(lia)) as Ht.
    destruct (Z.ltb_spec (twoThirds (power (Validators vals))) (signed_power (Validators vals) chainID
      (commit_BlockID commit) (commit_Precommits commit))) as [Hq|Hq];
      (eexists _, _; split; [done|]; split; [by right|]).
    + split; [intros _|done]. split_and!; [done|lia|done|done|exact Hall|by apply Ht].
    + split; [done|]. intros (_ & _ & _ & _ & _ & H3). apply Ht in H3. lia.
Qed.

Lemma VerifyCommit_spec vals chainID blockID height commit :
  wf vals →
  ∃ vals' err, VerifyCommit vals chainID blockID height commit = Ret (vals', err) ∧
    (vals' = vals ∨ vals' = with_total vals) ∧
    (err = None ↔ commit_accepted vals chainID blockID height commit).
Proof. intros Hwf%wf_powers_ok. by apply VerifyCommit_powers. Qed.

(** C28. [VerifyCommit] accepts exactly the commits it should: on a well-formed set it
    never panics, and it returns no error if and only if the commit is basically
    valid, has one entry per validator, is for the given height and block, every
    precommit present is signed by its validator, and the validators that signed
    the block hold more than two thirds of the total power. *)
Theorem VerifyCommit_iff (vals : ValidatorSet) (chainID : bytes) (blockID : BlockID) (height : Z)
    (commit : Commit) :
  wf vals →
  ∃ vals' err, VerifyCommit vals chainID blockID height commit = Ret (vals', err) ∧
    (err = None ↔
      Commit_ValidateBasic commit = None ∧ length (Validators vals) = length (commit_Precommits commit) ∧
      Commit_Height commit = height ∧ commit_BlockID commit = blockID ∧
      all_valid (Validators vals) chainID (commit_Precommits commit) ∧
      2 * power (Validators vals) <
        3 * signed_power (Validators vals) chainID blockID (commit_Precommits commit)).
Proof.
  intros Hwf. destruct (VerifyCommit_spec vals chainID blockID height commit Hwf)
    as (vals' & err & E & _ & Hiff). exists vals', err. split; [exact E|exact Hiff].
Qed.

(** The power of the validators that signed both blocks. *)
Definition both_power (vals : list Validator) (chainID : bytes) (b1 b2 : BlockID)
    (pcs1 pcs2 : list (option CommitSig)) : Z :=
  sumZ (λ vcc, if signed chainID b1 vcc.1.1 vcc.1.2 && signed chainID b2 vcc.1.1 vcc.2
               then val_VotingPower vcc.1.1 else 0)
    (zip (zip vals pcs1) pcs2).

Lemma both_power_lower vals chainID b1 b2 pcs1 pcs2 :
  (∀ v, v ∈ vals → 0 < val_VotingPower v) →
  length vals = length pcs1 → length vals = length pcs2 →
  signed_power vals chainID b1 pcs1 + signed_power vals chainID b2 pcs2 - power vals ≤
    both_power vals chainID b1 b2 pcs1 pcs2.
Proof.
  unfold signed_power, both_power, power. revert pcs1 pcs2.
  induction vals as [|v vals IH]; intros [|c1 pcs1] [|c2 pcs2] Hp H1 H2; simpl in *; try done.
  rewrite !sumZ_cons. specialize (IH pcs1 pcs2 ltac:(set_solver) ltac:(lia) ltac:(lia)).
  pose proof (Hp v (list_elem_of_here _ _)). unfold weight at 1 3. cbn [fst snd].
  destruct (signed _ b1 _ _), (signed _ b2 _ _); simpl; lia.
Qed.

(** C5. Accountable safety: if [VerifyCommit] accepts, for the same set and height,
    commits for two different blocks, then the validators holding valid signed
    precommits for both blocks have more than a third of the total power, each of
    them having signed two different precommit messages of that height. *)
Theorem conflicting_commits_accountable `{!CodecLaws} (vals v1 v2 : ValidatorSet) (chainID : bytes)
    (b1 b2 : BlockID) (height : Z) (c1 c2 : Commit) :
  wf vals → b1 ≠ b2 →
  VerifyCommit vals chainID b1 height c1 = Ret (v1, None) →
  VerifyCommit vals chainID b2 height c2 = Ret (v2, None) →
  power (Validators vals) <
    3 * both_power (Validators vals) chainID b1 b2 (commit_Precommits c1) (commit_Precommits c2) ∧
  ∀ i cs1 cs2, commit_Precommits c1 !! i = Some (Some cs1) → commit_Precommits c2 !! i = Some (Some cs2) →
    vote_Type cs1 = PrecommitType ∧ vote_Type cs2 = PrecommitType ∧
    vote_Height cs1 = height ∧ vote_Height cs2 = height ∧
    ∀ v, signed chainID b1 v (Some cs1) = true → signed chainID b2 v (Some cs2) = true →
      Vote_SignBytes chainID cs1 ≠ Vote_SignBytes chainID cs2.
Proof.
  intros Hwf Hne E1 E2.
  destruct (VerifyCommit_spec vals chainID b1 height c1 Hwf) as (? & ? & E1' & _ & [K1 _]).
  destruct (VerifyCommit_spec vals chainID b2 height c2 Hwf) as (? & ? & E2' & _ & [K2 _]).
  rewrite E1 in E1'. rewrite E2 in E2'. injection E1' as _ <-. injection E2' as _ <-.
  destruct (K1 eq_refl) as (V1 & L1 & T1 & _ & _ & Q1). destruct (K2 eq_refl) as (V2 & L2 & T2 & _ & _ & Q2).
  split.
  - pose proof (both_power_lower (Validators vals) chainID b1 b2 _ _ (wf_power _ Hwf) L1 L2). lia.
  - unfold Commit_ValidateBasic in V1, V2.
    destruct (BlockID_IsZero (commit_BlockID c1)); [done|]. destruct (BlockID_IsZero (commit_BlockID c2)); [done|].
    destruct (zlen (commit_Precommits c1) =? 0); [done|]. destruct (zlen (commit_Precommits c2) =? 0); [done|].
    intros i cs1 cs2 Hc1 Hc2. rewrite validate_precommits_spec in V1, V2.
    destruct (V1 i cs1 Hc1) as (A1 & B1 & _). destruct (V2 i cs2 Hc2) as (A2 & B2 & _).
    rewrite T1 in B1. rewrite T2 in B2. split_and!; [done..|].
    intros v S1 S2 (_ & _ & _ & _ & Eb & _)%Vote_SignBytes_inj. apply Hne. unfold signed in S1, S2.
    apply andb_true_iff in S1 as [->%BlockID_Equals_spec _].
    apply andb_true_iff in S2 as [->%BlockID_Equals_spec _]. done.
Qed.

(** ** Future commits *)

(** The old validator signed the block in some precommit under its address. *)
Definition old_signed (chainID : bytes) (blockID : BlockID) (v : Validator)
    (pcs : list (option CommitSig)) : bool :=
  existsb (λ cs, signed chainID blockID v cs &&
    match cs with Some cs => bytes_equal (vote_ValidatorAddress cs) (val_Address v) | None => false end) pcs.

Definition old_weight (chainID : bytes) (blockID : BlockID) (pcs : list (option CommitSig))
    (seen : list Z) (iv : nat * Validator) : Z :=
  if bool_decide (Z.of_nat iv.1 ∈ seen) then 0
  else if old_signed chainID blockID iv.2 pcs then val_VotingPower iv.2 else 0.

Definition unseen (seen : list Z) (iv : nat * Validator) : Z :=
  if bool_decide (Z.of_nat iv.1 ∈ seen) then 0 else val_VotingPower iv.2.

(** Moving one index from the unseen to the seen ones. *)
Lemma sum_pick (l : list Validator) (f g : nat * Validator → Z) i v d :
  l !! i = Some v → f (i, v) + d ≤ g (i, v) →
  (∀ j w, l !! j = Some w → j ≠ i → f (j, w) ≤ g (j, w)) →
  sumZ f (imap pair l) + d ≤ sumZ g (imap pair l).
Proof.
  intros Hi Hd Hle. assert (imap pair l !! i = Some (i, v)) as Hl by (by rewrite list_lookup_imap, Hi).
  rewrite <-(take_drop_middle _ _ _ Hl), !sumZ_app, !sumZ_cons.
  assert (∀ k, (∀ x, x ∈ k → ∃ j w, x = (j, w) ∧ l !! j = Some w ∧ j ≠ i) → sumZ f k ≤ sumZ g k) as Hk.
  { intros k Hk. apply sumZ_le. intros x Hx. destruct (Hk x Hx) as (j & w & -> & Hj & Hne). by apply Hle. }
  assert (sumZ f (take i (imap pair l)) ≤ sumZ g (take i (imap pair l))).
  { apply Hk. intros [j w] (n & Hn & Hlt)%elem_of_take. rewrite list_lookup_imap in Hn.
    apply fmap_Some in Hn as (w' & Hw' & [= -> ->]). exists n, w'. split_and!; [done..|lia]. }
  assert (sumZ f (drop (S i) (imap pair l)) ≤ sumZ g (drop (S i) (imap pair l))).
  { apply Hk. intros [j w] (n & Hn)%list_elem_of_lookup. rewrite lookup_drop, list_lookup_imap in Hn.
    apply fmap_Some in Hn as (w' & Hw' & [= -> ->]). exists (S i + n)%nat, w'. split_and!; [done..|lia]. }
  lia.
Qed.

Lemma old_weight_mono chainID blockID c pcs seen iv :
  0 < val_VotingPower iv.2 →
  0 ≤ old_weight chainID blockID pcs seen iv ≤ old_weight chainID blockID (c :: pcs) seen iv.
Proof.
  intros Hp. unfold old_weight, old_signed. cbn [existsb].
  destruct (bool_decide _); [lia|]. destruct (existsb _ pcs); rewrite ?orb_true_r; [lia|].
  rewrite orb_false_r. destruct (_ && _); lia.
Qed.

Lemma old_weight_le chainID blockID c pcs seen vals :
  (∀ v, v ∈ vals → 0 < val_VotingPower v) →
  sumZ (old_weight chainID blockID pcs seen) (imap pair vals) ≤
    sumZ (old_weight chainID blockID (c :: pcs) seen) (imap pair vals).
Proof.
  intros Hp. apply sumZ_le. intros [i v] Hi%imap_pair_lookup. apply old_weight_mono.
  by apply Hp, (list_elem_of_lookup_2 _ i).
Qed.

(** Whatever the order of the set, a validator found has the address. *)
Lemma GetByAddress_sound vals a :
  (∃ i v, GetByAddress vals a = (Z.of_nat i, Some v) ∧ Validators vals !! i = Some v ∧ val_Address v = a) ∨
  GetByAddress vals a = (-1, None).
Proof.
  unfold GetByAddress. destruct (Validators vals !! search_address (Validators vals) a) as [v|] eqn:Ev; [|by right].
  destruct (bytes_equal (val_Address v) a) eqn:Ea; [|by right]. apply bytes_equal_true in Ea. left. by exists (search_address (Validators vals) a), v.
Qed.

Lemma future_loop_spec oldVals chainID blockID height round pcs seen acc r :
  powers_ok oldVals → 0 ≤ acc →
  acc + sumZ (unseen seen) (imap pair (Validators oldVals)) ≤ MaxTotalVotingPower →
  future_loop oldVals chainID blockID height round pcs seen acc = inl r →
  r ≤ acc + sumZ (old_weight chainID blockID pcs seen) (imap pair (Validators oldVals)).
Proof.
  intros Hwf. pose proof (po_power _ Hwf) as Hpos. revert seen acc.
  induction pcs as [|[cs|] pcs IH]; intros seen acc Hacc Hroom E; cbn [future_loop] in E.
  - injection E as <-. enough (0 ≤ sumZ (old_weight chainID blockID [] seen) (imap pair (Validators oldVals))) by lia.
    apply sumZ_nonneg. intros [i v] _. unfold old_weight. simpl. by destruct (bool_decide _).
  - destruct (vote_Height cs =? height); [cbn [negb] in E|done].
    destruct (vote_Round cs =? round); [cbn [negb] in E|done].
    destruct (vote_Type cs =? PrecommitType); [cbn [negb] in E|done].
    pose proof (old_weight_le chainID blockID (Some cs) pcs seen _ Hpos) as Hle.
    destruct (GetByAddress_sound oldVals (vote_ValidatorAddress cs)) as [(i & v & Eg & Hi & Ha)|Eg]; rewrite Eg in E;
      [|specialize (IH _ _ Hacc Hroom E); lia].
    destruct (bool_decide (Z.of_nat i ∈ seen)) eqn:Es; [specialize (IH _ _ Hacc Hroom E); lia|].
    destruct (VerifyBytes _ _ _) eqn:Ev; [cbn [negb] in E|done].
    assert (v ∈ Validators oldVals) as Hv by (by eapply list_elem_of_lookup_2).
    pose proof (Hpos v Hv) as Hvp.
    assert (∀ j (w : Validator), j ≠ i → bool_decide (Z.of_nat j ∈ Z.of_nat i :: seen) =
      bool_decide (Z.of_nat j ∈ seen)) as Hother.
    { intros j w Hne. apply bool_decide_ext. rewrite elem_of_cons. split; [intros [?|?]; [lia|done]|auto]. }
    assert (bool_decide (Z.of_nat i ∈ Z.of_nat i :: seen) = true) as Hin
      by (apply bool_decide_eq_true_2, list_elem_of_here).
    assert (sumZ (unseen (Z.of_nat i :: seen)) (imap pair (Validators oldVals)) + val_VotingPower v ≤
      sumZ (unseen seen) (imap pair (Validators oldVals))) as Hroom'.
    { apply (sum_pick _ _ _ i v); [done|unfold unseen; cbn [fst snd]; rewrite Hin, Es; lia|].
      intros j w Hj Hne. unfold unseen. cbn [fst snd]. by rewrite Hother. }
    assert (∀ d, d ≤ (if BlockID_Equals blockID (vote_BlockID cs) then val_VotingPower v else 0) →
      sumZ (old_weight chainID blockID pcs (Z.of_nat i :: seen)) (imap pair (Validators oldVals)) + d ≤
      sumZ (old_weight chainID blockID (Some cs :: pcs) seen) (imap pair (Validators oldVals))) as Hpick.
    { intros d Hd. apply (sum_pick _ _ _ i v); [done| |].
      - unfold old_weight, old_signed. cbn [fst snd existsb signed]. rewrite Hin, Es, Ev, Ha.
        rewrite (proj2 (bytes_equal_true _ _) eq_refl). rewrite !andb_true_r.
        revert Hd. destruct (BlockID_Equals _ _); simpl; [lia|]. destruct (existsb _ _); lia.
      - intros j w Hj Hne.
        pose proof (old_weight_mono chainID blockID (Some cs) pcs seen (j, w)
          ltac:(simpl; by eapply Hpos, list_elem_of_lookup_2)) as Hm.
        unfold old_weight at 1. cbn [fst snd]. rewrite Hother by done. unfold old_weight at 1 2 in Hm. simpl in Hm.
        lia. }
    assert (0 ≤ sumZ (unseen (Z.of_nat i :: seen)) (imap pair (Validators oldVals))) as Hun.
    { apply sumZ_nonneg. intros [j w] Hj%imap_pair_lookup. unfold unseen. cbn [fst snd].
      pose proof (Hpos w (list_elem_of_lookup_2 _ _ _ Hj)).
      destruct (bool_decide (Z.of_nat j ∈ Z.of_nat i :: seen)); [done|by apply Z.lt_le_incl]. }
    assert (MaxTotalVotingPower ≤ MaxInt64) by (vm_compute; discriminate).
    destruct (BlockID_Equals blockID (vote_BlockID cs)).
    + rewrite wrap64_id in E by (unfold in_int64, MinInt64, MaxInt64 in *; lia).
      specialize (IH (Z.of_nat i :: seen) (acc + val_VotingPower v) ltac:(lia) ltac:(lia) E).
      specialize (Hpick (val_VotingPower v) ltac:(lia)). lia.
    + specialize (IH (Z.of_nat i :: seen) acc ltac:(lia) ltac:(lia) E). specialize (Hpick 0 ltac:(lia)). lia.
  - pose proof (old_weight_le chainID blockID None pcs seen _ Hpos).
    specialize (IH _ _ Hacc Hroom E). lia.
Qed.

Lemma sumZ_imap_pair {A} (f : nat * A → Z) (g : A → Z) l :
  (∀ i v, f (i, v) = g v) → sumZ f (imap pair l) = sumZ g l.
Proof.
  intros Hf. rewrite (sumZ_ext f (g ∘ snd)) by (intros [i v] _; apply Hf).
  rewrite <-sumZ_fmap. f_equal. apply list_eq. intros i. rewrite list_lookup_fmap, list_lookup_imap.
  by destruct (l !! i).
Qed.

Lemma sum_unseen l : sumZ (unseen []) (imap pair l) = power l.
Proof. by apply sumZ_imap_pair. Qed.

Lemma VerifyFutureCommit_old oldVals newSet o' n' chainID blockID height commit :
  powers_ok oldVals →
  VerifyFutureCommit oldVals newSet chainID blockID height commit = Ret (o', n', None) →
  VerifyCommit newSet chainID blockID height commit = Ret (n', None) ∧ o' = with_total oldVals ∧
  2 * power (Validators oldVals) <
    3 * sumZ (λ v, if old_signed chainID blockID v (commit_Precommits commit)
                   then val_VotingPower v else 0) (Validators oldVals).
Proof.
  intros Hwo. unfold VerifyFutureCommit.
  destruct (VerifyCommit newSet chainID blockID height commit) as [[n1 [err|]]|]; cbn [mbind outcome_bind]; [done| |done].
  destruct (future_loop _ _ _ _ _ _ _ _) as [r|err] eqn:El; [|done].
  rewrite TotalVotingPower_ok by done. cbn [mbind outcome_bind].
  destruct (Z.leb_spec r (twoThirds (power (Validators oldVals)))) as [|Hq]; [done|].
  intros [= <- <-]. split; [done|]. split; [done|].
  pose proof (po_total _ Hwo) as Ht.
  assert (0 ≤ power (Validators oldVals))
    by (apply sumZ_nonneg; intros v Hv; pose proof (po_power _ Hwo v Hv); lia).
  apply future_loop_spec in El; [|done|lia|rewrite sum_unseen; lia].
  apply twoThirds_spec in Hq; [|lia].
  rewrite (sumZ_imap_pair _ (λ v, if old_signed chainID blockID v (commit_Precommits commit)
    then val_VotingPower v else 0)) in El by done. lia.
Qed.

(** A future commit that [VerifyFutureCommit] accepts is accepted by [VerifyCommit]
    for the new set, and the old validators that signed the block under their
    own address, each counted once, hold more than two thirds of the old power. *)
Theorem VerifyFutureCommit_sound (oldVals newSet o' n' : ValidatorSet) (chainID : bytes)
    (blockID : BlockID) (height : Z) (commit : Commit) :
  wf oldVals → wf newSet →
  VerifyFutureCommit oldVals newSet chainID blockID height commit = Ret (o', n', None) →
  VerifyCommit newSet chainID blockID height commit = Ret (n', None) ∧
  2 * power (Validators oldVals) <
    3 * sumZ (λ v, if old_signed chainID blockID v (commit_Precommits commit)
                   then val_VotingPower v else 0) (Validators oldVals).
Proof.
  intros Hwo%wf_powers_ok _ E. by destruct (VerifyFutureCommit_old _ _ _ _ _ _ _ _ Hwo E) as (? & _ & ?).
Qed.

End WithCodec.

(** *** Witnesses *)

Section Witnesses.
#[local] Existing Instance sample_codec.
#[local] Existing Instance sample_codec_laws.
#[local] Existing Instance sample_crypto.

Definition sample_block (b : byte) : BlockID := mkBlockID (replicate 32 b) (mkPartSetHeader 1 (replicate 32 b)).

Definition sample_precommit (b : byte) (round : Z) (v : Validator) (idx : Z) : Vote :=
  let vote sig := mkVote PrecommitType 5 round (sample_block b) 0 (val_Address v) idx sig None None in
  vote (val_PubKey v ++ Vote_SignBytes [x63] (vote [])).

Definition sample_commit (b : byte) (round : Z) : Commit :=
  NewCommit (sample_block b)
    [None; Some (sample_precommit b round (mkValidator [x02] [x0b] 20 5) 1);
     Some (sample_precommit b round (mkValidator [x03] [x0c] 70 (-3)) 2)].

Lemma VerifyCommit_iff_witness :
  ∃ vals', VerifyCommit sample_vals [x63] (sample_block x01) 5 (sample_commit x01 0) = Ret (vals', None) ∧
    2 * power (Validators sample_vals) <
      3 * signed_power (Validators sample_vals) [x63] (sample_block x01) (commit_Precommits (sample_commit x01 0)).
Proof.
  destruct (VerifyCommit_iff sample_vals [x63] (sample_block x01) 5 (sample_commit x01 0) sample_vals_wf)
    as (vals' & err & E & Hiff).
  assert (err = None) as ->.
  { assert (∃ v, VerifyCommit sample_vals [x63] (sample_block x01) 5 (sample_commit x01 0) = Ret (v, None))
      as [v Ev] by (eexists; vm_compute; reflexivity).
    rewrite Ev in E. congruence. }
  exists vals'. split; [exact E|]. apply Hiff. reflexivity.
Defined.

Lemma conflicting_commits_accountable_witness :
  power (Validators sample_vals) <
    3 * both_power (Validators sample_vals) [x63] (sample_block x01) (sample_block x02)
          (commit_Precommits (sample_commit x01 0)) (commit_Precommits (sample_commit x02 1)).
Proof.
  refine (proj1 (conflicting_commits_accountable sample_vals (with_total sample_vals) (with_total sample_vals)
    [x63] (sample_block x01) (sample_block x02) 5 (sample_commit x01 0) (sample_commit x02 1)
    sample_vals_wf _ _ _)); [done|vm_compute; reflexivity..].
Defined.

Lemma VerifyFutureCommit_sound_witness :
  2 * power (Validators sample_vals) <
    3 * sumZ (λ v, if old_signed [x63] (sample_block x01) v (commit_Precommits (sample_commit x01 0))
                   then val_VotingPower v else 0) (Validators sample_vals).
Proof.
  refine (proj2 (VerifyFutureCommit_sound sample_vals sample_vals (with_total sample_vals)
    (with_total sample_vals) [x63] (sample_block x01) 5 (sample_commit x01 0)
    sample_vals_wf sample_vals_wf _)); vm_compute; reflexivity.
Defined.

End Witnesses.
