(* ===== verification/VoteSet.v ===== *)
(** * types/vote_set.go: collecting votes

    A [VoteSet] is passed and returned by its operations; the shared validator
    set is kept inside it, with its cached total. A missing vote or part
    signature is [None] (a nil pointer); dereferencing one panics. [votesByBlock]
    and [peerMaj23s] are finite maps. The mutex is not modelled: each operation
    holds it from start to end. *)

From Stdlib Require Import ZArith Lia List Bool Strings.Byte.
From stdpp Require Import base list gmap sets.
From S2P Require Import Prelude BitArray Types ValidatorSet VerifyCommit.
Local Open Scope Z_scope.

Record blockVotes := mkBlockVotes {
  bv_peerMaj23 : bool;
  bv_bitArray : option BitArray;
  bv_votes : list (option Vote);
  bv_sum : Z
}.

Record VoteSet := mkVoteSet {
  vs_chainID : bytes;
  vs_height : Z;
  vs_round : Z;
  vs_type : Z;
  vs_valSet : ValidatorSet;
  vs_votesBitArray : option BitArray;
  vs_votes : list (option Vote);
  vs_sum : Z;
  vs_maj23 : option BlockID;
  vs_votesByBlock : gmap bytes blockVotes;
  vs_peerMaj23s : gmap bytes BlockID;
  vs_PartSigs : list PartSig;
  vs_PartHashSigs : list PartSig;
  vs_CrossMerkleSigs : bytes
}.

Definition NewVoteSet (chainID : bytes) (height round type_ : Z) (valSet : ValidatorSet) :
    outcome VoteSet :=
  if height =? 0 then Panic
  else Ret {|
    vs_chainID := chainID;
    vs_height := height;
    vs_round := round;
    vs_type := type_;
    vs_valSet := valSet;
    vs_votesBitArray := NewBitArray_len (ValidatorSet.Size valSet);
    vs_votes := replicate (length (Validators valSet)) None;
    vs_sum := 0;
    vs_maj23 := None;
    vs_votesByBlock := ∅;
    vs_peerMaj23s := ∅;
    vs_PartSigs := [];
    vs_PartHashSigs := [];
    vs_CrossMerkleSigs := []
  |}.

Definition newBlockVotes (peerMaj23 : bool) (numValidators : Z) : blockVotes :=
  mkBlockVotes peerMaj23 (NewBitArray_len numValidators) (replicate (Z.to_nat numValidators) None) 0.

Definition blockVotes_addVerifiedVote (vs : blockVotes) (vote : Vote) (votingPower : Z) :
    outcome blockVotes :=
  let valIndex := vote_ValidatorIndex vote in
  existing ← slice_get (bv_votes vs) valIndex;
  match existing with
  | Some _ => Ret vs
  | None =>
      '(ba, _) ← SetIndex (bv_bitArray vs) valIndex true;
      votes ← slice_set (bv_votes vs) valIndex (Some vote);
      Ret (mkBlockVotes (bv_peerMaj23 vs) ba votes (wrap64 (bv_sum vs + votingPower)))
  end.

(** A nil receiver is [None]. *)
Definition blockVotes_getByIndex (vs : option blockVotes) (index : Z) : outcome (option Vote) :=
  match vs with None => Ret None | Some vs => slice_get (bv_votes vs) index end.

Section WithCodec.
Context `{Codec} `{Crypto}.

Definition getVote (voteSet : VoteSet) (valIndex : Z) (blockKey : bytes) : outcome (option Vote) :=
  existing ← slice_get (vs_votes voteSet) valIndex;
  let byBlock := blockVotes_getByIndex (vs_votesByBlock voteSet !! blockKey) valIndex in
  match existing with
  | Some v => if bytes_equal (BlockID_Key (vote_BlockID v)) blockKey then Ret (Some v) else byBlock
  | None => byBlock
  end.

(** The part signatures of a prevote are collected before anything else. *)
Definition collect_parts (voteSet : VoteSet) (vote : Vote) : outcome VoteSet :=
  if vote_Type vote =? PrevoteType then
    ps ← or_panic (vote_PartSig vote);
    if Id ps =? 0 then Ret voteSet
    else
      pbs ← or_panic (vote_PartBlockSig vote);
      Ret {|
        vs_chainID := vs_chainID voteSet;
        vs_height := vs_height voteSet;
        vs_round := vs_round voteSet;
        vs_type := vs_type voteSet;
        vs_valSet := vs_valSet voteSet;
        vs_votesBitArray := vs_votesBitArray voteSet;
        vs_votes := vs_votes voteSet;
        vs_sum := vs_sum voteSet;
        vs_maj23 := vs_maj23 voteSet;
        vs_votesByBlock := vs_votesByBlock voteSet;
        vs_peerMaj23s := vs_peerMaj23s voteSet;
        vs_PartSigs := vs_PartSigs voteSet ++ [mkPartSig (PeerCrossSig ps) (Id ps)];
        vs_PartHashSigs := vs_PartHashSigs voteSet ++ [mkPartSig (PeerCrossSig pbs) (Id pbs)];
        vs_CrossMerkleSigs := vs_CrossMerkleSigs voteSet
      |}
  else Ret voteSet.

(** The fields the rest of [addVerifiedVote] writes. *)
Definition upd_votes (voteSet : VoteSet) (ba : option BitArray) (votes : list (option Vote)) (sum : Z) :
    VoteSet :=
  mkVoteSet (vs_chainID voteSet) (vs_height voteSet) (vs_round voteSet) (vs_type voteSet)
    (vs_valSet voteSet) ba votes sum (vs_maj23 voteSet) (vs_votesByBlock voteSet)
    (vs_peerMaj23s voteSet) (vs_PartSigs voteSet) (vs_PartHashSigs voteSet) (vs_CrossMerkleSigs voteSet).

Definition upd_byBlock (voteSet : VoteSet) (valSet : ValidatorSet) (maj23 : option BlockID)
    (votes : list (option Vote)) (byBlock : gmap bytes blockVotes) : VoteSet :=
  mkVoteSet (vs_chainID voteSet) (vs_height voteSet) (vs_round voteSet) (vs_type voteSet)
    valSet (vs_votesBitArray voteSet) votes (vs_sum voteSet) maj23 byBlock
    (vs_peerMaj23s voteSet) (vs_PartSigs voteSet) (vs_PartHashSigs voteSet) (vs_CrossMerkleSigs voteSet).

(** The first part: into the canonical votes, or a conflict with one of them. *)
Definition add_canonical (voteSet : VoteSet) (vote : Vote) (blockKey : bytes) (votingPower : Z) :
    outcome (VoteSet * option Vote) :=
  let valIndex := vote_ValidatorIndex vote in
  existing ← slice_get (vs_votes voteSet) valIndex;
  match existing with
  | Some existing =>
      if BlockID_Equals (vote_BlockID existing) (vote_BlockID vote) then Panic
      else if (match vs_maj23 voteSet with
               | Some m => bytes_equal (BlockID_Key m) blockKey
               | None => false
               end)
      then
        votes ← slice_set (vs_votes voteSet) valIndex (Some vote);
        '(ba, _) ← SetIndex (vs_votesBitArray voteSet) valIndex true;
        Ret (upd_votes voteSet ba votes (vs_sum voteSet), Some existing)
      else Ret (voteSet, Some existing)
  | None =>
      votes ← slice_set (vs_votes voteSet) valIndex (Some vote);
      '(ba, _) ← SetIndex (vs_votesBitArray voteSet) valIndex true;
      Ret (upd_votes voteSet ba votes (wrap64 (vs_sum voteSet + votingPower)), None)
  end.

(** [for i, vote := range votesByBlock.votes { if vote != nil { voteSet.votes[i] = vote } }] *)
Definition copy_over (votes byBlock : list (option Vote)) : outcome (list (option Vote)) :=
  for_range (length byBlock) 0 (λ i votes,
    v ← slice_get byBlock (Z.of_nat i);
    match v with
    | Some vote => slice_set votes (Z.of_nat i) (Some vote)
    | None => Ret votes
    end) votes.

(** The second part: into the votes of the block, watching for the quorum. *)
Definition add_byBlock (voteSet : VoteSet) (vote : Vote) (blockKey : bytes) (votingPower : Z)
    (votesByBlock : blockVotes) : outcome VoteSet :=
  let origSum := bv_sum votesByBlock in
  '(total, valSet) ← TotalVotingPower (vs_valSet voteSet);
  let quorum := wrap64 (twoThirds total + 1) in
  bv ← blockVotes_addVerifiedVote votesByBlock vote votingPower;
  let byBlock := <[blockKey := bv]> (vs_votesByBlock voteSet) in
  if (origSum <? quorum) && (quorum <=? bv_sum bv) then
    match vs_maj23 voteSet with
    | None =>
        votes ← copy_over (vs_votes voteSet) (bv_votes bv);
        Ret (upd_byBlock voteSet valSet (Some (vote_BlockID vote)) votes byBlock)
    | Some m => Ret (upd_byBlock voteSet valSet (Some m) (vs_votes voteSet) byBlock)
    end
  else Ret (upd_byBlock voteSet valSet (vs_maj23 voteSet) (vs_votes voteSet) byBlock).

Definition addVerifiedVote (voteSet : VoteSet) (vote : Vote) (blockKey : bytes) (votingPower : Z) :
    outcome (VoteSet * bool * option Vote) :=
  voteSet ← collect_parts voteSet vote;
  '(voteSet, conflicting) ← add_canonical voteSet vote blockKey votingPower;
  match vs_votesByBlock voteSet !! blockKey, conflicting with
  | Some bv, Some c =>
      if negb (bv_peerMaj23 bv) then Ret (voteSet, false, conflicting)
      else
        voteSet ← add_byBlock voteSet vote blockKey votingPower bv;
        Ret (voteSet, true, conflicting)
  | Some bv, None =>
      voteSet ← add_byBlock voteSet vote blockKey votingPower bv;
      Ret (voteSet, true, conflicting)
  | None, Some c => Ret (voteSet, false, conflicting)
  | None, None =>
      let bv := newBlockVotes false (ValidatorSet.Size (vs_valSet voteSet)) in
      voteSet ← add_byBlock voteSet vote blockKey votingPower bv;
      Ret (voteSet, true, conflicting)
  end.

Definition addVote (voteSet : VoteSet) (vote : option Vote) :
    outcome (VoteSet * bool * option vote_error) :=
  match vote with
  | None => Ret (voteSet, false, Some ErrVoteNil)
  | Some vote =>
      let valIndex := vote_ValidatorIndex vote in
      let valAddr := vote_ValidatorAddress vote in
      let blockKey := BlockID_Key (vote_BlockID vote) in
      if valIndex <? 0 then Ret (voteSet, false, Some ErrVoteInvalidValidatorIndex)
      else if zlen valAddr =? 0 then Ret (voteSet, false, Some ErrVoteInvalidValidatorAddress)
      else if negb (vote_Height vote =? vs_height voteSet) || negb (vote_Round vote =? vs_round voteSet)
              || negb (vote_Type vote =? vs_type voteSet)
      then Ret (voteSet, false, Some ErrVoteUnexpectedStep)
      else
        match ValidatorSet.GetByIndex (vs_valSet voteSet) valIndex with
        | (_, None) => Ret (voteSet, false, Some ErrVoteInvalidValidatorIndex)
        | (lookupAddr, Some val) =>
            if negb (bytes_equal valAddr lookupAddr)
            then Ret (voteSet, false, Some ErrVoteInvalidValidatorAddress)
            else
              known ← getVote voteSet valIndex blockKey;
              match known with
              | Some existing =>
                  if bytes_equal (vote_Signature existing) (vote_Signature vote)
                  then Ret (voteSet, false, None)
                  else Ret (voteSet, false, Some ErrVoteNonDeterministicSignature)
              | None =>
                  match Vote_Verify (vs_chainID voteSet) (val_PubKey val) vote with
                  | Some err => Ret (voteSet, false, Some err)
                  | None =>
                      '(voteSet, added, conflicting) ←
                        addVerifiedVote voteSet vote blockKey (val_VotingPower val);
                      match conflicting with
                      | Some c =>
                          Ret (voteSet, added, Some (ErrVoteConflictingVotes (val_PubKey val) c vote))
                      | None => if negb added then Panic else Ret (voteSet, added, None)
                      end
                  end
              end
        end
  end.

(** A nil vote set panics. *)
Definition AddVote (voteSet : option VoteSet) (vote : option Vote) :
    outcome (VoteSet * bool * option vote_error) :=
  match voteSet with None => Panic | Some vs => addVote vs vote end.

Definition set_peer (bv : blockVotes) : blockVotes :=
  mkBlockVotes true (bv_bitArray bv) (bv_votes bv) (bv_sum bv).

(** The result is [false] for the conflicting-claim error. *)
Definition SetPeerMaj23 (voteSet : VoteSet) (peerID : bytes) (blockID : BlockID) : VoteSet * bool :=
  let blockKey := BlockID_Key blockID in
  match vs_peerMaj23s voteSet !! peerID with
  | Some existing => (voteSet, BlockID_Equals existing blockID)
  | None =>
      let bv := match vs_votesByBlock voteSet !! blockKey with
                | Some bv => set_peer bv
                | None => newBlockVotes true (ValidatorSet.Size (vs_valSet voteSet))
                end in
      (mkVoteSet (vs_chainID voteSet) (vs_height voteSet) (vs_round voteSet) (vs_type voteSet)
         (vs_valSet voteSet) (vs_votesBitArray voteSet) (vs_votes voteSet) (vs_sum voteSet)
         (vs_maj23 voteSet) (<[blockKey := bv]> (vs_votesByBlock voteSet))
         (<[peerID := blockID]> (vs_peerMaj23s voteSet)) (vs_PartSigs voteSet)
         (vs_PartHashSigs voteSet) (vs_CrossMerkleSigs voteSet), true)
  end.

Definition BitArrayByBlockID (voteSet : option VoteSet) (blockID : BlockID) : option BitArray :=
  match voteSet with
  | None => None
  | Some vs =>
      match vs_votesByBlock vs !! BlockID_Key blockID with
      | Some bv => BitArray.Copy (bv_bitArray bv)
      | None => None
      end
  end.

End WithCodec.

(** ** Queries; a nil vote set is [None] *)

Definition VoteSet_Height (voteSet : option VoteSet) : Z := from_option vs_height 0 voteSet.
Definition VoteSet_Round (voteSet : option VoteSet) : Z := from_option vs_round (-1) voteSet.
Definition VoteSet_Type (voteSet : option VoteSet) : Z := from_option vs_type 0 voteSet.
Definition VoteSet_Size (voteSet : option VoteSet) : Z :=
  from_option (ValidatorSet.Size ∘ vs_valSet) 0 voteSet.

Definition VoteSet_BitArray (voteSet : option VoteSet) : option BitArray :=
  voteSet ≫= λ vs, BitArray.Copy (vs_votesBitArray vs).

Definition VoteSet_GetByIndex (voteSet : option VoteSet) (valIndex : Z) : outcome (option Vote) :=
  match voteSet with None => Ret None | Some vs => slice_get (vs_votes vs) valIndex end.

Definition VoteSet_GetByAddress (voteSet : option VoteSet) (address : bytes) : outcome (option Vote) :=
  match voteSet with
  | None => Ret None
  | Some vs =>
      match ValidatorSet.GetByAddress (vs_valSet vs) address with
      | (_, None) => Panic
      | (valIndex, Some _) => slice_get (vs_votes vs) valIndex
      end
  end.

Definition HasTwoThirdsMajority (voteSet : option VoteSet) : bool :=
  match voteSet with None => false | Some vs => bool_decide (is_Some (vs_maj23 vs)) end.

Definition VoteSet_IsCommit (voteSet : option VoteSet) : bool :=
  match voteSet with
  | None => false
  | Some vs => if negb (vs_type vs =? PrecommitType) then false else bool_decide (is_Some (vs_maj23 vs))
  end.

Definition HasTwoThirdsAny (voteSet : option VoteSet) : outcome bool :=
  match voteSet with
  | None => Ret false
  | Some vs => '(total, _) ← TotalVotingPower (vs_valSet vs); Ret (twoThirds total <? vs_sum vs)
  end.

Definition HasAll (voteSet : VoteSet) : outcome bool :=
  '(total, _) ← TotalVotingPower (vs_valSet voteSet); Ret (vs_sum voteSet =? total).

Definition TwoThirdsMajority (voteSet : option VoteSet) : BlockID * bool :=
  match voteSet ≫= vs_maj23 with Some b => (b, true) | None => (zeroBlockID, false) end.

Definition MakeCommit (voteSet : VoteSet) : outcome Commit :=
  if negb (vs_type voteSet =? PrecommitType) then Panic
  else match vs_maj23 voteSet with
       | None => Panic
       | Some maj23 => Ret (NewCommit maj23 (vs_votes voteSet))
       end.

(** ** Slots: a list of votes with its bit array and its power *)

Definition slot_weight (vo : Validator * option Vote) : Z :=
  match vo.2 with Some _ => val_VotingPower vo.1 | None => 0 end.

Definition voted_power (vals : list Validator) (votes : list (option Vote)) : Z :=
  sumZ slot_weight (zip vals votes).

Record slots (vals : list Validator) (votes : list (option Vote)) (ba : option BitArray) (sum : Z) : Prop := {
  slots_len : length votes = length vals;
  slots_sum : sum = voted_power vals votes;
  slots_ba : ∃ b, ba = Some b ∧ BitArray.wf b ∧ Bits b = zlen vals ∧
    ∀ i o, votes !! i = Some o → bit b (Z.of_nat i) = bool_decide (is_Some o)
}.

Definition positive (vals : list Validator) : Prop := ∀ v, v ∈ vals → 0 < val_VotingPower v.

Lemma voted_power_bounds vals votes : positive vals → 0 ≤ voted_power vals votes ≤ power vals.
Proof.
  unfold voted_power, power, positive. revert votes.
  induction vals as [|v vals IH]; intros [|o votes] Hp; simpl; rewrite ?sumZ_nil, ?sumZ_cons; try lia.
  - pose proof (Hp v (list_elem_of_here _ _)).
    assert (0 ≤ sumZ val_VotingPower vals).
    { apply sumZ_nonneg. intros w Hw. specialize (Hp w (list_elem_of_further _ _ _ Hw)). lia. }
    lia.
  - specialize (IH votes ltac:(set_solver)). pose proof (Hp v (list_elem_of_here _ _)).
    unfold slot_weight at 1 3. simpl. destruct o; lia.
Qed.

Lemma voted_power_insert vals votes i v o o' :
  vals !! i = Some v → votes !! i = Some o →
  voted_power vals (<[i := o']> votes) = voted_power vals votes - slot_weight (v, o) + slot_weight (v, o').
Proof.
  intros Hv Ho. unfold voted_power.
  assert (zip vals (<[i := o']> votes) = <[i := (v, o')]> (zip vals votes)) as ->.
  { apply list_eq. intros j. destruct (decide (j = i)) as [->|Hne].
    - rewrite lookup_zip_with, Hv, list_lookup_insert_eq by (by eapply lookup_lt_Some). simpl.
      rewrite list_lookup_insert_eq; [done|]. rewrite length_zip_with.
      apply lookup_lt_Some in Hv, Ho. lia.
    - rewrite list_lookup_insert_ne by done. rewrite !lookup_zip_with.
      by rewrite list_lookup_insert_ne. }
  rewrite (sumZ_insert _ _ i (v, o)); [done|]. by rewrite lookup_zip_with, Hv, Ho.
Qed.

(** The power depends only on which slots are filled. *)
Lemma voted_power_ext vals votes votes' :
  length votes' = length votes →
  (∀ i o o', votes !! i = Some o → votes' !! i = Some o' → is_Some o' ↔ is_Some o) →
  voted_power vals votes = voted_power vals votes'.
Proof.
  unfold voted_power. revert votes votes'. induction vals as [|v vals IH]; intros [|o votes] [|o' votes'] Hl Hs;
    simpl in Hl; try done. simpl. rewrite !sumZ_cons.
  rewrite (IH votes votes'); [|lia|intros i; apply (Hs (S i))]. f_equal.
  specialize (Hs 0%nat o o' eq_refl eq_refl). unfold slot_weight. simpl.
  destruct o as [x|], o' as [y|]; try done.
  - destruct Hs as [_ Hs]. by destruct Hs.
  - destruct Hs as [Hs _]. by destruct Hs.
Qed.

(** Writing a vote into a slot. *)
Lemma slots_write vals votes ba sum i v o vote :
  slots vals votes ba sum → vals !! i = Some v → votes !! i = Some o →
  ∃ ba', SetIndex ba (Z.of_nat i) true = Ret (ba', true) ∧
    slots vals (<[i := Some vote]> votes) ba' (sum - slot_weight (v, o) + val_VotingPower v).
Proof.
  intros [Hl Hs (b & -> & Hwf & HB & Hbit)] Hv Ho.
  destruct (setIndex_spec b (Z.of_nat i) true Hwf) as (b' & E & Hwf' & HB' & Hbit').
  { rewrite HB. by eapply zlen_lookup. }
  exists (Some b'). split; [simpl; by rewrite E|]. split.
  - by rewrite length_insert.
  - by rewrite (voted_power_insert _ _ _ v o), <-Hs by done.
  - exists b'. split_and!; [done|done|congruence|]. intros j o' Hj.
    rewrite Hbit' by lia. destruct (Z.eqb_spec (Z.of_nat j) (Z.of_nat i)) as [Eji|Nji].
    + apply Nat2Z.inj in Eji as ->. rewrite list_lookup_insert_eq in Hj by (by eapply lookup_lt_Some).
      by injection Hj as <-.
    + rewrite list_lookup_insert_ne in Hj by lia. by apply Hbit.
Qed.

Lemma slots_new vals ba :
  vals ≠ [] → ba = NewBitArray_len (zlen vals) → slots vals (replicate (length vals) None) ba 0.
Proof.
  intros Hne ->. assert (0 < zlen vals) by (destruct vals; [done|unfold zlen; simpl; lia]).
  destruct (NewBitArray_len_spec (zlen vals)) as (b & -> & Hwf & _ & HB & Hz); [done|].
  split.
  - by rewrite length_replicate.
  - unfold voted_power. clear. induction vals as [|v vals IH]; [done|]. simpl. rewrite sumZ_cons, <-IH. done.
  - exists b. split_and!; [done..|]. intros i o [-> _]%lookup_replicate. rewrite Hz by lia. done.
Qed.

Lemma blockVotes_add_ok vals bv vote i v :
  positive vals → power vals ≤ MaxTotalVotingPower →
  slots vals (bv_votes bv) (bv_bitArray bv) (bv_sum bv) → vals !! i = Some v →
  vote_ValidatorIndex vote = Z.of_nat i → bv_votes bv !! i = Some None →
  ∃ ba, blockVotes_addVerifiedVote bv vote (val_VotingPower v) =
      Ret (mkBlockVotes (bv_peerMaj23 bv) ba (<[i := Some vote]> (bv_votes bv)) (bv_sum bv + val_VotingPower v)) ∧
    slots vals (<[i := Some vote]> (bv_votes bv)) ba (bv_sum bv + val_VotingPower v).
Proof.
  intros Hpos Hmax Hs Hv Hi Ho. destruct (slots_write _ _ _ _ i v None vote Hs Hv Ho) as (ba & E & Hs').
  unfold slot_weight in Hs'. simpl in Hs'. rewrite Z.sub_0_r in Hs'.
  exists ba. split; [|done]. unfold blockVotes_addVerifiedVote. rewrite Hi.
  rewrite (slice_get_ok _ _ _ Ho). cbn [mbind outcome_bind]. rewrite E. cbn [mbind outcome_bind].
  rewrite (slice_set_ok _ _ _ _ Ho). cbn [mbind outcome_bind].
  rewrite wrap64_id; [done|]. pose proof (slots_sum _ _ _ _ Hs') as Hsum. rewrite Hsum.
  pose proof (voted_power_bounds vals (<[i:=Some vote]> (bv_votes bv)) Hpos).
  assert (MaxTotalVotingPower ≤ MaxInt64) by (vm_compute; discriminate).
  unfold in_int64, MinInt64, MaxInt64 in *. lia.
Qed.

(** The pointwise effect of copying the votes of a block over the canonical ones. *)
Definition prefer (o o' : option Vote) : option Vote := match o' with Some v => Some v | None => o end.

Lemma copy_over_loop (votes byBlock : list (option Vote)) n start :
  length votes = length byBlock → (start + n ≤ length byBlock)%nat →
  for_range n start (λ i votes,
    v ← slice_get byBlock (Z.of_nat i);
    match v with
    | Some vote => slice_set votes (Z.of_nat i) (Some vote)
    | None => Ret votes
    end) votes =
  Ret (take start votes ++ zip_with prefer (take n (drop start votes)) (take n (drop start byBlock))
       ++ drop (start + n) votes).
Proof.
  revert start votes. induction n as [|n IH]; intros start votes Hl Hn; cbn [for_range].
  { simpl. by rewrite Nat.add_0_r, take_drop. }
  destruct (lookup_lt_is_Some_2 votes start ltac:(lia)) as [o Ho].
  destruct (lookup_lt_is_Some_2 byBlock start ltac:(lia)) as [o' Ho'].
  rewrite (slice_get_ok _ _ _ Ho'). cbn [mbind outcome_bind].
  assert (match o' with Some vote => slice_set votes (Z.of_nat start) (Some vote) | None => Ret votes end =
    Ret (<[start := prefer o o']> votes)) as ->.
  { destruct o'; simpl; [by apply (slice_set_ok _ _ o)|]. by rewrite list_insert_id. }
  cbn [mbind outcome_bind]. rewrite IH by (rewrite ?length_insert; lia). f_equal.
  rewrite (drop_S votes o start Ho), (drop_S byBlock o' start Ho'). simpl.
  rewrite (take_S_r (<[start := prefer o o']> votes) start (prefer o o'))
    by (apply list_lookup_insert_eq; by eapply lookup_lt_Some).
  rewrite take_insert_ge by lia. rewrite !drop_insert_lt by lia.
  rewrite <-app_assoc. simpl. repeat f_equal. lia.
Qed.

Lemma copy_over_ok votes byBlock :
  length votes = length byBlock → copy_over votes byBlock = Ret (zip_with prefer votes byBlock).
Proof.
  intros Hl. unfold copy_over. rewrite copy_over_loop by lia.
  rewrite !drop_0, take_0, app_nil_l, (take_ge votes), (take_ge byBlock), (drop_ge votes) by lia.
  by rewrite app_nil_r.
Qed.

(** ** The invariant *)

Section Invariant.
Context `{Codec} `{Crypto}.

(** What a vote set collects votes for. *)
Record params := mkParams {
  p_chainID : bytes; p_height : Z; p_round : Z; p_type : Z; p_vals : list Validator
}.

Definition params_of (vs : VoteSet) : params :=
  mkParams (vs_chainID vs) (vs_height vs) (vs_round vs) (vs_type vs) (Validators (vs_valSet vs)).

Definition quorum (vals : list Validator) : Z := twoThirds (power vals) + 1.

(** A vote of validator [i] that passed all checks. *)
Record good (P : params) (i : nat) (v : Vote) : Prop := {
  good_index : vote_ValidatorIndex v = Z.of_nat i;
  good_val : ∃ val, p_vals P !! i = Some val ∧ vote_ValidatorAddress v = val_Address val ∧
    Vote_Verify (p_chainID P) (val_PubKey val) v = None;
  good_height : vote_Height v = p_height P;
  good_round : vote_Round v = p_round P;
  good_type : vote_Type v = p_type P;
  good_bid : bid_ok (vote_BlockID v) = true
}.

Record block_inv (P : params) (votes : list (option Vote)) (key : bytes) (bv : blockVotes) : Prop := {
  bi_slots : slots (p_vals P) (bv_votes bv) (bv_bitArray bv) (bv_sum bv);
  bi_good i v : bv_votes bv !! i = Some (Some v) → good P i v ∧ BlockID_Key (vote_BlockID v) = key;
  bi_seen i v : bv_votes bv !! i = Some (Some v) → ∃ w, votes !! i = Some (Some w)
}.

Definition maj_inv (P : params) (votes : list (option Vote)) (maj23 : option BlockID)
    (byBlock : gmap bytes blockVotes) : Prop :=
  match maj23 with
  | Some m => bid_ok m = true ∧ ∃ bv, byBlock !! BlockID_Key m = Some bv ∧
      quorum (p_vals P) ≤ bv_sum bv ∧
      ∀ i v, bv_votes bv !! i = Some (Some v) → votes !! i = Some (Some v)
  | None => ∀ key bv, byBlock !! key = Some bv → bv_sum bv < quorum (p_vals P)
  end.

Record inv (P : params) (votes : list (option Vote)) (ba : option BitArray) (sum : Z)
    (maj23 : option BlockID) (byBlock : gmap bytes blockVotes) : Prop := {
  inv_slots : slots (p_vals P) votes ba sum;
  inv_good i v : votes !! i = Some (Some v) → good P i v;
  inv_blocks key bv : byBlock !! key = Some bv → block_inv P votes key bv;
  inv_maj : maj_inv P votes maj23 byBlock
}.

Record vs_inv (vs : VoteSet) : Prop := {
  vs_vals : ValidatorSet.wf (vs_valSet vs);
  vs_nonempty : Validators (vs_valSet vs) ≠ [];
  vs_core : inv (params_of vs) (vs_votes vs) (vs_votesBitArray vs) (vs_sum vs)
              (vs_maj23 vs) (vs_votesByBlock vs)
}.

(** Filling one more canonical slot keeps what is known of the blocks. *)
Lemma block_inv_votes P votes i vote key bv :
  (i < length votes)%nat → block_inv P votes key bv → block_inv P (<[i := Some vote]> votes) key bv.
Proof.
  intros Hi [Hs Hg Hseen]. split; [done..|]. intros j v Hj.
  destruct (decide (j = i)) as [->|Hne]; [exists vote; by apply list_lookup_insert_eq|].
  rewrite list_lookup_insert_ne by done. by eapply Hseen.
Qed.

Lemma quorum_pos vals : positive vals → power vals ≤ MaxTotalVotingPower → 0 < quorum vals.
Proof.
  intros Hp Hm. unfold quorum.
  assert (0 ≤ power vals) by (apply sumZ_nonneg; intros v Hv; specialize (Hp v Hv); lia).
  pose proof (twoThirds_spec (power vals) 0 ltac:(lia)) as Ht.
  destruct (Z.le_gt_cases 0 (twoThirds (power vals))); [lia|].
  exfalso. assert (twoThirds (power vals) < 0) as Hneg by lia. apply Ht in Hneg. lia.
Qed.

(** A vote added to the votes of its block, the canonical slot being filled. *)
Lemma block_add_ok P votes key bv bv' i v vote ba :
  block_inv P votes key bv → p_vals P !! i = Some v → good P i vote →
  BlockID_Key (vote_BlockID vote) = key → (∃ w, votes !! i = Some (Some w)) →
  bv' = mkBlockVotes (bv_peerMaj23 bv) ba (<[i := Some vote]> (bv_votes bv)) (bv_sum bv + val_VotingPower v) →
  slots (p_vals P) (<[i := Some vote]> (bv_votes bv)) ba (bv_sum bv + val_VotingPower v) →
  block_inv P votes key bv'.
Proof.
  intros [Hs Hg Hseen] Hv Hgood Hkey Hw -> Hs'. split; [done|..].
  - intros j u Hj. cbn [bv_votes] in Hj. apply list_lookup_insert_Some in Hj as [(-> & [= <-] & _)|[_ Hj]]; [done|].
    by apply Hg.
  - intros j u Hj. cbn [bv_votes] in Hj. apply list_lookup_insert_Some in Hj as [(-> & _ & _)|[_ Hj]]; [done|].
    by eapply Hseen.
Qed.

Lemma prefer_slots vals votes ba sum bvotes :
  slots vals votes ba sum → length bvotes = length vals →
  (∀ i v, bvotes !! i = Some (Some v) → ∃ w, votes !! i = Some (Some w)) →
  slots vals (zip_with prefer votes bvotes) ba sum.
Proof.
  intros [Hl Hs (b & -> & Hwf & HB & Hbit)] Hlb Hseen.
  assert (∀ i o, zip_with prefer votes bvotes !! i = Some o →
    ∃ o1, votes !! i = Some o1 ∧ (is_Some o ↔ is_Some o1)) as Hsame.
  { intros i o Hi. rewrite lookup_zip_with in Hi.
    destruct (votes !! i) as [o1|] eqn:E1; [|done]. destruct (bvotes !! i) as [o2|] eqn:E2; [|done].
    simpl in Hi. injection Hi as <-. exists o1. split; [done|]. unfold prefer.
    destruct o2 as [u|]; [|done]. destruct (Hseen i u E2) as [w Hw]. rewrite E1 in Hw.
    injection Hw as ->. split; intros _; by eexists. }
  assert (length (zip_with prefer votes bvotes) = length votes) as Hlen by (rewrite length_zip_with; lia).
  split.
  - lia.
  - rewrite Hs. apply voted_power_ext; [done|]. intros i o o1 Hi Ho1.
    destruct (Hsame i o1 Ho1) as (o2 & Ho2 & Hiff). rewrite Hi in Ho2. by injection Ho2 as ->.
  - exists b. split_and!; [done..|]. intros i o Hi. destruct (Hsame i o Hi) as (o1 & Ho1 & Hiff).
    rewrite (Hbit i o1 Ho1). by apply bool_decide_ext.
Qed.

(** The canonical part keeps the invariant. *)
Lemma add_canonical_ok vs vote i v o :
  let key := BlockID_Key (vote_BlockID vote) in
  vs_inv vs → good (params_of vs) i vote → Validators (vs_valSet vs) !! i = Some v →
  vs_votes vs !! i = Some o → (∀ e, o = Some e → BlockID_Key (vote_BlockID e) ≠ key) →
  (∀ bv, vs_votesByBlock vs !! key = Some bv → bv_votes bv !! i = Some None) →
  ∃ votes ba sum, let vs1 := upd_votes vs ba votes sum in
    add_canonical vs vote key (val_VotingPower v) = Ret (vs1, o) ∧ vs_inv vs1 ∧
    (∃ w, votes !! i = Some (Some w)) ∧ (o = None → votes !! i = Some (Some vote)) ∧
    (∀ m, vs_maj23 vs = Some m → BlockID_Key m = key → votes !! i = Some (Some vote)).
Proof.
  intros key [Hwf Hne [Hs Hg Hb Hm]] Hgood Hv Ho Hdiff Hnone.
  pose proof (lookup_lt_Some _ _ _ Ho) as Hilen.
  set (P := params_of vs) in *. change (Validators (vs_valSet vs)) with (p_vals P) in Hv, Hne.
  destruct (slots_write _ _ _ _ i v o vote Hs Hv Ho) as (ba & Eba & Hs').
  pose proof (good_index _ _ _ Hgood) as Hidx.
  assert (∀ m bv, vs_maj23 vs = Some m → vs_votesByBlock vs !! BlockID_Key m = Some bv →
    (o = None ∨ BlockID_Key m = key) →
    (∀ j u, bv_votes bv !! j = Some (Some u) → vs_votes vs !! j = Some (Some u)) →
    ∀ j u, bv_votes bv !! j = Some (Some u) → <[i := Some vote]> (vs_votes vs) !! j = Some (Some u)) as Hkeep.
  { intros m bv Em Ebv Hcase Hsub j u Hj. destruct (decide (j = i)) as [->|Hji].
    - exfalso. destruct Hcase as [->|Ek].
      + specialize (Hsub i u Hj). rewrite Ho in Hsub. done.
      + rewrite Ek in Ebv. rewrite (Hnone bv Ebv) in Hj. done.
    - rewrite list_lookup_insert_ne by done. by apply Hsub. }
  assert (∀ sum, sum = vs_sum vs - slot_weight (v, o) + val_VotingPower v →
    (o = None ∨ ∃ m, vs_maj23 vs = Some m ∧ BlockID_Key m = key) →
    vs_inv (upd_votes vs ba (<[i := Some vote]> (vs_votes vs)) sum)) as Hinv.
  { intros sum -> Hcase. split; [exact Hwf|exact Hne|]. cbn. fold P. split; [exact Hs'|..].
    - intros j u [(-> & [= <-] & _)|[_ Hj]]%list_lookup_insert_Some; [done|by apply Hg].
    - intros k bv Hk. apply block_inv_votes; [done|by apply Hb].
    - unfold maj_inv in Hm |- *. destruct (vs_maj23 vs) as [m|] eqn:Em; [|done].
      destruct Hm as (Hbid & bv & Ebv & Hq & Hsub). split; [done|]. exists bv. split_and!; [done..|].
      apply (Hkeep m bv); [done..| |done]. destruct Hcase as [?|(m' & [= <-] & ?)]; auto. }
  unfold add_canonical. rewrite Hidx, (slice_get_ok _ _ _ Ho). cbn [mbind outcome_bind].
  rewrite (slice_set_ok _ _ _ _ Ho). cbn [mbind outcome_bind]. rewrite Eba. cbn [mbind outcome_bind].
  assert (<[i := Some vote]> (vs_votes vs) !! i = Some (Some vote)) as Hins by (by apply list_lookup_insert_eq).
  destruct o as [e|].
  - specialize (Hdiff e eq_refl).
    destruct (BlockID_Equals (vote_BlockID e) (vote_BlockID vote)) eqn:Ee.
    { apply BlockID_Equals_spec in Ee. rewrite Ee in Hdiff. done. }
    destruct (match vs_maj23 vs with Some m => _ | None => false end) eqn:Ek.
    + destruct (vs_maj23 vs) as [m|] eqn:Em; [|done]. apply bytes_equal_true in Ek.
      exists (<[i := Some vote]> (vs_votes vs)), ba, (vs_sum vs). split; [done|]. split; [|by eauto].
      apply Hinv; [unfold slot_weight; simpl; lia|]. right. by exists m.
    + exists (vs_votes vs), (vs_votesBitArray vs), (vs_sum vs). split; [by destruct vs|].
      split; [by split|]. split; [by exists e|]. split; [done|].
      intros m Em Ekm. rewrite Em, Ekm in Ek. by rewrite (proj2 (bytes_equal_true _ _) eq_refl) in Ek.
  - assert (vs_sum vs - slot_weight (v, None) + val_VotingPower v = vs_sum vs + val_VotingPower v) as Hsum
      by (unfold slot_weight; simpl; lia).
    assert (wrap64 (vs_sum vs + val_VotingPower v) = vs_sum vs + val_VotingPower v) as ->.
    { apply wrap64_id. rewrite <-Hsum, (slots_sum _ _ _ _ Hs').
      pose proof (voted_power_bounds (p_vals P) (<[i:=Some vote]> (vs_votes vs)) (wf_power _ Hwf)).
      pose proof (wf_total _ Hwf). change (Validators (vs_valSet vs)) with (p_vals P) in *.
      assert (MaxTotalVotingPower ≤ MaxInt64) by (vm_compute; discriminate).
      unfold in_int64, MinInt64, MaxInt64 in *. lia. }
    exists (<[i := Some vote]> (vs_votes vs)), ba, (vs_sum vs + val_VotingPower v).
    split; [done|]. split; [|by eauto]. apply Hinv; [done|by left].
Qed.

(** Inserting the grown votes of a block. *)
Lemma blocks_insert (P : params) (votes votes' : list (option Vote)) (byBlock : gmap bytes blockVotes)
    (key : bytes) (bv' : blockVotes) :
  (∀ (k : bytes) (bv : blockVotes), byBlock !! k = Some bv → block_inv P votes k bv) →
  block_inv P votes key bv' →
  (∀ j w, votes !! j = Some (Some w) → ∃ w', votes' !! j = Some (Some w')) →
  ∀ (k : bytes) (bv : blockVotes), <[key := bv']> byBlock !! k = Some bv → block_inv P votes' k bv.
Proof.
  intros Hb Hb' Hsub k bv Hk.
  assert (block_inv P votes k bv) as [Hs Hg Hseen].
  { apply lookup_insert_Some in Hk as [[<- <-]|[_ Hk]]; [done|by apply Hb]. }
  split; [done..|]. intros j u Hj. destruct (Hseen j u Hj) as [w Hw]. by eapply Hsub.
Qed.

(** The second part keeps the invariant and never forgets a majority. *)
Lemma add_byBlock_ok vs vote i v bv :
  let key := BlockID_Key (vote_BlockID vote) in
  vs_inv vs → good (params_of vs) i vote → Validators (vs_valSet vs) !! i = Some v →
  block_inv (params_of vs) (vs_votes vs) key bv → bv_votes bv !! i = Some None →
  (vs_maj23 vs = None → bv_sum bv < quorum (Validators (vs_valSet vs))) →
  (∃ w, vs_votes vs !! i = Some (Some w)) →
  (∀ m, vs_maj23 vs = Some m → BlockID_Key m = key →
     vs_votesByBlock vs !! key = Some bv ∧ vs_votes vs !! i = Some (Some vote)) →
  ∃ vs2, add_byBlock vs vote key (val_VotingPower v) bv = Ret vs2 ∧ vs_inv vs2 ∧
    params_of vs2 = params_of vs ∧ vs_peerMaj23s vs2 = vs_peerMaj23s vs ∧
    (∀ m, vs_maj23 vs = Some m → vs_maj23 vs2 = Some m).
Proof.
  intros key [Hwf Hne [Hs Hg Hb Hm]] Hgood Hv Hbi Hnone Hlow Hw Hmaj.
  set (P := params_of vs) in *. change (Validators (vs_valSet vs)) with (p_vals P) in Hv, Hne, Hlow.
  pose proof (wf_power _ Hwf : positive (p_vals P)) as Hpos.
  pose proof (wf_total _ Hwf : power (p_vals P) ≤ MaxTotalVotingPower) as Hmax.
  destruct (blockVotes_add_ok (p_vals P) bv vote i v Hpos Hmax (bi_slots _ _ _ _ Hbi) Hv
    (good_index _ _ _ Hgood) Hnone) as (ba & Eadd & Hs').
  set (bv' := mkBlockVotes _ _ _ _) in Eadd.
  pose proof (block_add_ok P _ _ bv bv' i v vote ba Hbi Hv Hgood eq_refl Hw eq_refl Hs') as Hbi'.
  unfold add_byBlock. rewrite TotalVotingPower_wf by done. cbn [mbind outcome_bind].
  change (Validators (vs_valSet vs)) with (p_vals P).
  assert (wrap64 (twoThirds (power (p_vals P)) + 1) = quorum (p_vals P)) as ->.
  { apply wrap64_id. pose proof (quorum_pos _ Hpos Hmax). unfold quorum in *.
    pose proof (twoThirds_spec (power (p_vals P)) (power (p_vals P) + 1)) as Ht.
    assert (0 ≤ power (p_vals P)) by (apply sumZ_nonneg; intros x Hx; specialize (Hpos x Hx); lia).
    specialize (Ht ltac:(lia)). assert (twoThirds (power (p_vals P)) < power (p_vals P) + 1) by (apply Ht; lia).
    assert (2 * MaxTotalVotingPower ≤ MaxInt64) by (vm_compute; discriminate).
    assert (1 ≤ MaxTotalVotingPower) by (vm_compute; discriminate).
    unfold in_int64, MinInt64, MaxInt64 in *. lia. }
  rewrite Eadd. cbn [mbind outcome_bind].
  assert (∀ votes maj,
    slots (p_vals P) votes (vs_votesBitArray vs) (vs_sum vs) →
    (∀ j u, votes !! j = Some (Some u) → good P j u) →
    (∀ j w, vs_votes vs !! j = Some (Some w) → ∃ w', votes !! j = Some (Some w')) →
    maj_inv P votes maj (<[key := bv']> (vs_votesByBlock vs)) →
    vs_inv (upd_byBlock vs (with_total (vs_valSet vs)) maj votes (<[key := bv']> (vs_votesByBlock vs))))
    as Hbuild.
  { intros votes maj A B C D. split; [by apply wf_with_total|done|]. cbn. split; [done..| |done].
    eapply blocks_insert; [exact Hb|exact Hbi'|exact C]. }
  destruct (vs_maj23 vs) as [m|] eqn:Em.
  - destruct Hm as (Hbid & bvm & Ebvm & Hqm & Hsubm).
    assert (maj_inv P (vs_votes vs) (Some m) (<[key := bv']> (vs_votesByBlock vs))) as Hm'.
    { split; [done|]. destruct (decide (BlockID_Key m = key)) as [Ek|Nk].
      - destruct (Hmaj m eq_refl Ek) as [Ebv Hvi]. rewrite Ek in Ebvm |- *. rewrite Ebvm in Ebv.
        injection Ebv as ->. exists bv'. rewrite lookup_insert_eq. split_and!; [done| |].
        + unfold bv'. cbn [bv_sum]. pose proof (Hpos v (list_elem_of_lookup_2 _ _ _ Hv)). lia.
        + intros j u Hj. unfold bv' in Hj. cbn [bv_votes] in Hj.
          apply list_lookup_insert_Some in Hj as [(-> & [= <-] & _)|[_ Hj]]; [done|by apply Hsubm].
      - exists bvm. rewrite lookup_insert_ne by done. by split_and!. }
    destruct (_ && _); (eexists; split; [reflexivity|]; split_and!; [by apply Hbuild; eauto|done|done|done]).
  - unfold maj_inv in Hm. specialize (Hlow eq_refl).
    rewrite (proj2 (Z.ltb_lt _ _)) by done. cbn [andb].
    destruct (Z.leb_spec (quorum (p_vals P)) (bv_sum bv')) as [Hcross|Hbelow].
    + rewrite copy_over_ok.
      2: { rewrite (slots_len _ _ _ _ Hs). symmetry. apply (slots_len _ _ _ _ Hs'). }
      cbn [mbind outcome_bind]. eexists. split; [reflexivity|]. split_and!; [|done..].
      assert (∀ j u, bv_votes bv' !! j = Some (Some u) →
        zip_with prefer (vs_votes vs) (bv_votes bv') !! j = Some (Some u)) as Htake.
      { intros j u Hj. destruct (bi_seen _ _ _ _ Hbi' j u Hj) as [w Hwj].
        by rewrite lookup_zip_with, Hwj, Hj. }
      apply Hbuild.
      * apply prefer_slots; [done|apply (slots_len _ _ _ _ Hs')|]. apply (bi_seen _ _ _ _ Hbi').
      * intros j u Hj. rewrite lookup_zip_with in Hj.
        destruct (vs_votes vs !! j) as [o1|] eqn:E1; [|done].
        destruct (bv_votes bv' !! j) as [o2|] eqn:E2; [|done]. simpl in Hj. injection Hj as Hj.
        destruct o2 as [u2|]; simpl in Hj.
        -- injection Hj as ->. by apply (bi_good _ _ _ _ Hbi').
        -- subst o1. by apply Hg.
      * intros j w Hj. rewrite lookup_zip_with, Hj.
        assert (is_Some (bv_votes bv' !! j)) as [o2 Ho2].
        { apply lookup_lt_is_Some. rewrite (slots_len _ _ _ _ Hs' : length (bv_votes bv') = _).
          rewrite <-(slots_len _ _ _ _ Hs). by eapply lookup_lt_Some. }
        rewrite Ho2. simpl. destruct o2; simpl; eauto.
      * split; [apply (good_bid _ _ _ Hgood)|]. exists bv'. rewrite lookup_insert_eq. by split_and!.
    + eexists. split; [reflexivity|]. split_and!; [|done..]. apply Hbuild; [done|done|eauto|].
      intros k bv1 [[<- <-]|[_ Hk]]%lookup_insert_Some; [done|by eapply Hm].
Qed.

(** What the collection of part signatures relies on. *)
Definition parts_ok (vote : Vote) : Prop :=
  vote_Type vote = PrevoteType →
  ∃ ps, vote_PartSig vote = Some ps ∧ (Id ps ≠ 0 → is_Some (vote_PartBlockSig vote)).

(** The fields the invariant is about. *)
Definition same_core (vs vs' : VoteSet) : Prop :=
  params_of vs' = params_of vs ∧ vs_valSet vs' = vs_valSet vs ∧ vs_votes vs' = vs_votes vs ∧
  vs_votesBitArray vs' = vs_votesBitArray vs ∧ vs_sum vs' = vs_sum vs ∧ vs_maj23 vs' = vs_maj23 vs ∧
  vs_votesByBlock vs' = vs_votesByBlock vs ∧ vs_peerMaj23s vs' = vs_peerMaj23s vs.

Lemma collect_parts_ok vs vote :
  parts_ok vote → ∃ vs', collect_parts vs vote = Ret vs' ∧ same_core vs vs'.
Proof.
  intros Hp. unfold collect_parts. destruct (Z.eqb_spec (vote_Type vote) PrevoteType) as [Et|Et].
  - destruct (Hp Et) as (ps & -> & Hid). cbn [or_panic mbind outcome_bind].
    destruct (Z.eqb_spec (Id ps) 0) as [|Hz]; [by exists vs|].
    destruct (Hid Hz) as [pbs ->]. cbn [or_panic mbind outcome_bind]. by eexists.
  - by exists vs.
Qed.

Lemma same_core_inv vs vs' : same_core vs vs' → vs_inv vs → vs_inv vs'.
Proof.
  intros (E1 & E2 & E3 & E4 & E5 & E6 & E7 & _) [Hwf Hne Hc].
  split; rewrite ?E1, ?E2, ?E3, ?E4, ?E5, ?E6, ?E7; done.
Qed.

Lemma new_block_inv P votes key peer :
  p_vals P ≠ [] → block_inv P votes key (newBlockVotes peer (zlen (p_vals P))).
Proof.
  intros Hne. unfold newBlockVotes. split; cbn [bv_votes bv_bitArray bv_sum].
  - unfold zlen. rewrite Nat2Z.id. by apply slots_new.
  - intros i v Hi. apply lookup_replicate in Hi as [? _]. done.
  - intros i v Hi. apply lookup_replicate in Hi as [? _]. done.
Qed.

Lemma addVerifiedVote_ok vs vote i v o :
  let key := BlockID_Key (vote_BlockID vote) in
  vs_inv vs → parts_ok vote → good (params_of vs) i vote → Validators (vs_valSet vs) !! i = Some v →
  vs_votes vs !! i = Some o → (∀ e, o = Some e → BlockID_Key (vote_BlockID e) ≠ key) →
  (∀ bv, vs_votesByBlock vs !! key = Some bv → bv_votes bv !! i = Some None) →
  ∃ vs' added, addVerifiedVote vs vote key (val_VotingPower v) = Ret (vs', added, o) ∧ vs_inv vs' ∧
    params_of vs' = params_of vs ∧ vs_peerMaj23s vs' = vs_peerMaj23s vs ∧
    (∀ m, vs_maj23 vs = Some m → vs_maj23 vs' = Some m) ∧ (o = None → added = true).
Proof.
  intros key Hinv Hparts Hgood Hv Ho Hdiff Hnone. unfold addVerifiedVote.
  destruct (collect_parts_ok vs vote Hparts) as (vs0 & -> & Hcore). cbn [mbind outcome_bind].
  pose proof (same_core_inv _ _ Hcore Hinv) as Hinv0.
  destruct Hcore as (EP & EV & Ev & _ & _ & Em & Eb & Epm).
  rewrite <-EP in Hgood. rewrite <-EV in Hv. rewrite <-Ev in Ho. rewrite <-Eb in Hnone.
  rewrite <-EP, <-Epm, <-Em. clear vs EP EV Ev Em Eb Epm Hinv.
  destruct (add_canonical_ok vs0 vote i v o Hinv0 Hgood Hv Ho Hdiff Hnone)
    as (votes & ba & sum & E & Hinv1 & Hw & Hfill & Hmaj).
  fold key in E. rewrite E. cbn [mbind outcome_bind].
  set (vs1 := upd_votes vs0 ba votes sum) in *.
  change (vs_votesByBlock vs1) with (vs_votesByBlock vs0).
  change (params_of vs0) with (params_of vs1) in Hgood |- *.
  change (vs_maj23 vs0) with (vs_maj23 vs1) in Hmaj |- *.
  change (vs_peerMaj23s vs0) with (vs_peerMaj23s vs1).
  change (Validators (vs_valSet vs0)) with (Validators (vs_valSet vs1)) in Hv.
  assert (∀ bv, vs_votesByBlock vs0 !! key = Some bv →
    (∀ m, vs_maj23 vs1 = Some m → BlockID_Key m = key → votes !! i = Some (Some vote)) →
    ∃ vs', add_byBlock vs1 vote key (val_VotingPower v) bv = Ret vs' ∧ vs_inv vs' ∧
      params_of vs' = params_of vs1 ∧ vs_peerMaj23s vs' = vs_peerMaj23s vs1 ∧
      (∀ m, vs_maj23 vs1 = Some m → vs_maj23 vs' = Some m)) as Hadd.
  { intros bv Ebv Hm. apply (add_byBlock_ok vs1 vote i v bv); try done.
    - apply (inv_blocks _ _ _ _ _ _ (vs_core _ Hinv1)). exact Ebv.
    - by apply Hnone.
    - intros En. pose proof (inv_maj _ _ _ _ _ _ (vs_core _ Hinv1)) as Hmi. rewrite En in Hmi.
      by apply (Hmi key).
    - intros m Em Ek. split; [exact Ebv|by eapply Hm]. }
  destruct (vs_votesByBlock vs0 !! key) as [bv|] eqn:Ebv.
  - destruct (Hadd bv eq_refl Hmaj) as (vs' & E' & H1 & H2 & H3 & H4).
    destruct o as [e|].
    + destruct (negb (bv_peerMaj23 bv)).
      * exists vs1, false. by split_and!.
      * rewrite E'. cbn [mbind outcome_bind]. exists vs', true. by split_and!.
    + rewrite E'. cbn [mbind outcome_bind]. exists vs', true. by split_and!.
  - destruct o as [e|]; [exists vs1, false; by split_and!|].
    destruct (add_byBlock_ok vs1 vote i v (newBlockVotes false (ValidatorSet.Size (vs_valSet vs1))))
      as (vs' & E' & H1 & H2 & H3 & H4); try done.
    + apply (new_block_inv (params_of vs1)). apply (vs_nonempty _ Hinv1).
    + unfold newBlockVotes, ValidatorSet.Size, zlen. cbn [bv_votes]. rewrite Nat2Z.id.
      apply lookup_replicate. split; [done|]. by eapply lookup_lt_Some.
    + intros _. cbn [bv_sum newBlockVotes]. apply quorum_pos; [exact (wf_power _ (vs_vals _ Hinv1))|].
      apply (wf_total _ (vs_vals _ Hinv1)).
    + intros m Em Ek. pose proof (inv_maj _ _ _ _ _ _ (vs_core _ Hinv1)) as Hmi. rewrite Em in Hmi.
      destruct Hmi as (_ & bvm & Ebvm & _). rewrite Ek in Ebvm. exfalso.
      change (vs_votesByBlock vs0 !! key = Some bvm) in Ebvm. congruence.
    + fold key in E'. rewrite E'. cbn [mbind outcome_bind]. exists vs', true. by split_and!.
Qed.

Lemma getVote_ok vs i o key :
  vs_inv vs → vs_votes vs !! i = Some o →
  ∃ r, getVote vs (Z.of_nat i) key = Ret r ∧
    (r = None → (∀ e, o = Some e → BlockID_Key (vote_BlockID e) ≠ key) ∧
       ∀ bv, vs_votesByBlock vs !! key = Some bv → bv_votes bv !! i = Some None).
Proof.
  intros Hinv Ho. unfold getVote. rewrite (slice_get_ok _ _ _ Ho). cbn [mbind outcome_bind].
  assert (∃ r, blockVotes_getByIndex (vs_votesByBlock vs !! key) (Z.of_nat i) = Ret r ∧
    (r = None → ∀ bv, vs_votesByBlock vs !! key = Some bv → bv_votes bv !! i = Some None)) as (r & Er & Hr).
  { destruct (vs_votesByBlock vs !! key) as [bv|] eqn:Eb; [|by exists None].
    pose proof (inv_blocks _ _ _ _ _ _ (vs_core _ Hinv) _ _ Eb) as [Hs _ _].
    assert (is_Some (bv_votes bv !! i)) as [o' Ho'].
    { apply lookup_lt_is_Some. rewrite (slots_len _ _ _ _ Hs).
      rewrite <-(slots_len _ _ _ _ (inv_slots _ _ _ _ _ _ (vs_core _ Hinv))). by eapply lookup_lt_Some. }
    exists o'. split; [by apply slice_get_ok|]. intros -> bv' [= <-]. done. }
  destruct o as [e|].
  - destruct (bytes_equal (BlockID_Key (vote_BlockID e)) key) eqn:Ek.
    + exists (Some e). by split.
    + apply bytes_equal_false in Ek. exists r. split; [done|]. intros ->.
      split; [intros e' [= <-]; done|auto].
  - exists r. split; [done|]. intros ->. split; [done|auto].
Qed.

(** Closes a branch that leaves the set as it is, or whose facts are at hand. *)
Local Ltac same_set := do 3 eexists; split; [reflexivity|]; by split_and!.

Lemma addVote_ok vs vote :
  vs_inv vs → parts_ok vote → bid_ok (vote_BlockID vote) = true →
  ∃ vs' added err, addVote vs (Some vote) = Ret (vs', added, err) ∧ vs_inv vs' ∧
    params_of vs' = params_of vs ∧ vs_peerMaj23s vs' = vs_peerMaj23s vs ∧
    (∀ m, vs_maj23 vs = Some m → vs_maj23 vs' = Some m).
Proof.
  intros Hinv Hparts Hbid. unfold addVote.
  destruct (Z.ltb_spec (vote_ValidatorIndex vote) 0) as [|Hi]; [same_set|].
  destruct (zlen _ =? 0); [same_set|].
  destruct (negb (vote_Height vote =? vs_height vs) || negb (vote_Round vote =? vs_round vs)
    || negb (vote_Type vote =? vs_type vs)) eqn:Estep; [same_set|].
  apply orb_false_iff in Estep as [[Eh Er]%orb_false_iff Et].
  apply negb_false_iff, Z.eqb_eq in Eh, Er, Et.
  set (i := Z.to_nat (vote_ValidatorIndex vote)).
  assert (vote_ValidatorIndex vote = Z.of_nat i) as Hidx by (unfold i; lia).
  rewrite Hidx. unfold ValidatorSet.GetByIndex. rewrite slice_lookup_nat.
  destruct (_ || _); [same_set|].
  destruct (Validators (vs_valSet vs) !! i) as [v|] eqn:Hv; [|same_set].
  destruct (bytes_equal (vote_ValidatorAddress vote) (val_Address v)) eqn:Ea; [cbn [negb]|same_set].
  apply bytes_equal_true in Ea.
  assert (is_Some (vs_votes vs !! i)) as [o Ho].
  { apply lookup_lt_is_Some. rewrite (slots_len _ _ _ _ (inv_slots _ _ _ _ _ _ (vs_core _ Hinv))).
    by eapply lookup_lt_Some. }
  destruct (getVote_ok vs i o (BlockID_Key (vote_BlockID vote)) Hinv Ho) as (r & Eg & Hr).
  rewrite Eg. cbn [mbind outcome_bind]. destruct r as [existing|].
  { destruct (bytes_equal _ _); same_set. }
  destruct (Hr eq_refl) as [Hdiff Hnone].
  destruct (Vote_Verify (vs_chainID vs) (val_PubKey v) vote) as [err|] eqn:Ever; [same_set|].
  assert (good (params_of vs) i vote) as Hgood by (split; try done; by exists v).
  destruct (addVerifiedVote_ok vs vote i v o Hinv Hparts Hgood Hv Ho Hdiff Hnone)
    as (vs' & added & E & Hinv' & HP & Hpm & Hm & Hadd).
  rewrite E. cbn [mbind outcome_bind]. destruct o as [e|].
  - same_set.
  - rewrite Hadd by done. cbn [negb]. same_set.
Qed.

Lemma SetPeerMaj23_ok vs peer b :
  vs_inv vs → vs_inv (SetPeerMaj23 vs peer b).1 ∧
    params_of (SetPeerMaj23 vs peer b).1 = params_of vs ∧
    vs_maj23 (SetPeerMaj23 vs peer b).1 = vs_maj23 vs.
Proof.
  intros Hinv. unfold SetPeerMaj23. destruct (vs_peerMaj23s vs !! peer); [done|]. cbn [fst].
  set (bv := match vs_votesByBlock vs !! BlockID_Key b with Some bv => _ | None => _ end).
  destruct Hinv as [Hwf Hne [Hs Hg Hb Hm]]. split; [|done]. split; [done|done|]. cbn.
  set (P := params_of vs) in *.
  assert (block_inv P (vs_votes vs) (BlockID_Key b) bv) as Hbv.
  { unfold bv. destruct (vs_votesByBlock vs !! BlockID_Key b) as [bv0|] eqn:E.
    - destruct (Hb _ _ E) as [A B C]. by split.
    - by apply (new_block_inv P). }
  split; [done|done|eapply blocks_insert; [exact Hb|exact Hbv|eauto]|].
  unfold maj_inv in Hm |- *. destruct (vs_maj23 vs) as [m|].
  - destruct Hm as (Hbid & bvm & Em & Hq & Hsub). split; [done|].
    destruct (decide (BlockID_Key m = BlockID_Key b)) as [Ek|Nk].
    + exists (set_peer bvm). rewrite Ek, lookup_insert_eq. unfold bv. rewrite <-Ek, Em. by split_and!.
    + exists bvm. by rewrite lookup_insert_ne.
  - intros k bv1 [[<- <-]|[_ Hk]]%lookup_insert_Some; [|by eapply Hm].
    unfold bv. destruct (vs_votesByBlock vs !! BlockID_Key b) as [bv0|] eqn:E; [by apply (Hm _ _ E)|].
    apply quorum_pos; [exact (wf_power _ Hwf)|exact (wf_total _ Hwf)].
Qed.

(** ** Reachable vote sets *)

(** The votes reach the set after [Vote.ValidateBasic]; prevotes carry their
    part signatures. *)
Inductive vs_step (vs : VoteSet) : VoteSet → Prop :=
| step_add vote vs' added err :
    parts_ok vote → bid_ok (vote_BlockID vote) = true →
    addVote vs (Some vote) = Ret (vs', added, err) → vs_step vs vs'
| step_peer peer b : vs_step vs (SetPeerMaj23 vs peer b).1.

Definition reachable (chainID : bytes) (height round type_ : Z) (valSet : ValidatorSet) (vs : VoteSet) : Prop :=
  ∃ vs0, NewVoteSet chainID height round type_ valSet = Ret vs0 ∧ rtc vs_step vs0 vs.

Lemma new_inv chainID height round type_ valSet vs :
  ValidatorSet.wf valSet → Validators valSet ≠ [] →
  NewVoteSet chainID height round type_ valSet = Ret vs → vs_inv vs.
Proof.
  intros Hwf Hne. unfold NewVoteSet. destruct (height =? 0); [done|]. intros [= <-].
  split; [done|done|]. cbn. split.
  - by apply slots_new.
  - intros i v [? _]%lookup_replicate. done.
  - intros k bv Hk. by rewrite lookup_empty in Hk.
  - intros k bv Hk. by rewrite lookup_empty in Hk.
Qed.

Lemma step_inv vs vs' : vs_step vs vs' → vs_inv vs → vs_inv vs' ∧ params_of vs' = params_of vs ∧
  (∀ m, vs_maj23 vs = Some m → vs_maj23 vs' = Some m).
Proof.
  destruct 1 as [vote vs' added err Hp Hb E|peer b]; intros Hinv.
  - destruct (addVote_ok vs vote Hinv Hp Hb) as (vs2 & a2 & e2 & E2 & H1 & H2 & _ & H4).
    rewrite E in E2. injection E2 as <- _ _. done.
  - destruct (SetPeerMaj23_ok vs peer b Hinv) as (H1 & H2 & ->). done.
Qed.

Lemma steps_inv vs vs' : rtc vs_step vs vs' → vs_inv vs → vs_inv vs' ∧ params_of vs' = params_of vs ∧
  (∀ m, vs_maj23 vs = Some m → vs_maj23 vs' = Some m).
Proof.
  induction 1 as [vs|vs vs1 vs2 Hst _ IH]; intros Hinv; [done|].
  destruct (step_inv _ _ Hst Hinv) as (H1 & E1 & M1). destruct (IH H1) as (H2 & E2 & M2).
  split_and!; [done|congruence|auto].
Qed.

Lemma reachable_inv chainID height round type_ valSet vs :
  ValidatorSet.wf valSet → Validators valSet ≠ [] → reachable chainID height round type_ valSet vs →
  vs_inv vs ∧ params_of vs = mkParams chainID height round type_ (Validators valSet).
Proof.
  intros Hwf Hne (vs0 & E & Hst). pose proof (new_inv _ _ _ _ _ _ Hwf Hne E) as H0'.
  destruct (steps_inv _ _ Hst H0') as (H1 & -> & _). split; [done|].
  unfold NewVoteSet in E. destruct (height =? 0); [done|]. by injection E as <-.
Qed.

(** Votes never crash a vote set and a majority is never forgotten: from any
    reachable set, adding a basically valid vote (with its part signatures, for
    a prevote) returns a reachable set for the same height, round and
    validators, and a two-thirds majority once found stays the same. *)
Theorem AddVote_total (valSet : ValidatorSet) (chainID : bytes) (height round type_ : Z)
    (vs : VoteSet) (vote : Vote) :
  ValidatorSet.wf valSet → Validators valSet ≠ [] → reachable chainID height round type_ valSet vs →
  parts_ok vote → bid_ok (vote_BlockID vote) = true →
  ∃ vs' added err, AddVote (Some vs) (Some vote) = Ret (vs', added, err) ∧
    reachable chainID height round type_ valSet vs' ∧
    (∀ m, vs_maj23 vs = Some m → vs_maj23 vs' = Some m).
Proof.
  intros Hwf Hne Hr Hp Hb. destruct (reachable_inv _ _ _ _ _ _ Hwf Hne Hr) as [Hinv _].
  destruct (addVote_ok vs vote Hinv Hp Hb) as (vs' & added & err & E & _ & _ & _ & Hm).
  exists vs', added, err. split_and!; [exact E| |exact Hm].
  destruct Hr as (vs0 & E0 & Hst). exists vs0. split; [done|].
  eapply rtc_r; [exact Hst|by eapply step_add].
Qed.

(** The votes of the majority block are signed for it, canonically. *)
Lemma maj_signed `{!CodecLaws} vs m :
  vs_inv vs → vs_maj23 vs = Some m →
  quorum (Validators (vs_valSet vs)) ≤
    signed_power (Validators (vs_valSet vs)) (vs_chainID vs) m (vs_votes vs) ∧
  ∃ i v, vs_votes vs !! i = Some (Some v) ∧ vote_BlockID v = m.
Proof.
  intros Hinv Em. destruct (vs_core _ Hinv) as [Hs Hg Hb Hm]. unfold maj_inv in Hm. rewrite Em in Hm.
  destruct Hm as (Hbid & bv & Ebv & Hq & Hsub). destruct (Hb _ _ Ebv) as [Hsb Hgb _].
  set (P := params_of vs) in *. change (Validators (vs_valSet vs)) with (p_vals P) in *.
  assert (∀ i v, bv_votes bv !! i = Some (Some v) → vote_BlockID v = m) as Hbidm.
  { intros i v Hv. destruct (Hgb i v Hv) as [Hgd Hk]. apply BlockID_Key_inj; [|done|done].
    apply (good_bid _ _ _ Hgd). }
  pose proof (wf_power _ (vs_vals _ Hinv) : positive (p_vals P)) as Hpos.
  split.
  - etrans; [exact Hq|]. rewrite (slots_sum _ _ _ _ Hsb). unfold voted_power, signed_power.
    assert (∀ i val o o', p_vals P !! i = Some val → bv_votes bv !! i = Some o → vs_votes vs !! i = Some o' →
      slot_weight (val, o) ≤ weight (vs_chainID vs) m (val, o')) as Hpt.
    { intros i val o o' Hval Ho Ho'. unfold slot_weight, weight. simpl.
      pose proof (Hpos val (list_elem_of_lookup_2 _ _ _ Hval)).
      destruct o as [v|]; [|destruct (signed _ _ _ _); lia].
      pose proof (Hsub i v Ho) as Hv. rewrite Ho' in Hv. injection Hv as ->.
      destruct (Hgb i v Ho) as [[_ (val' & Hval' & _ & Hver) _ _ _ _] _]. rewrite Hval in Hval'.
      injection Hval' as <-. unfold signed. rewrite (Hbidm i v Ho), BlockID_Equals_refl. simpl.
      unfold Vote_Verify in Hver. destruct (negb (bytes_equal _ _)); [done|].
      change (p_chainID P) with (vs_chainID vs) in Hver.
      destruct (VerifyBytes _ _ _); [lia|done]. }
    pose proof (slots_len _ _ _ _ Hsb) as L1. pose proof (slots_len _ _ _ _ Hs) as L2.
    clear -Hpt L1 L2. revert L1 L2 Hpt. generalize (bv_votes bv) (vs_votes vs).
    induction (p_vals P) as [|val vals IH]; intros [|o l1] [|o' l2] L1 L2 Hpt; simpl in *; try done.
    rewrite !sumZ_cons. specialize (IH l1 l2 ltac:(lia) ltac:(lia) ltac:(intros i; apply (Hpt (S i)))).
    specialize (Hpt 0%nat val o o' eq_refl eq_refl eq_refl). lia.
  - assert (0 < bv_sum bv) as Hbp.
    { pose proof (quorum_pos _ Hpos (wf_total _ (vs_vals _ Hinv))). lia. }
    rewrite (slots_sum _ _ _ _ Hsb) in Hbp.
    assert (∃ i v, bv_votes bv !! i = Some (Some v)) as (i & v & Hv).
    { clear -Hbp. unfold voted_power in Hbp. revert Hbp. generalize (bv_votes bv).
      induction (p_vals P) as [|val vals IH]; intros [|o l] Hbp; simpl in Hbp;
        rewrite ?sumZ_nil, ?sumZ_cons in Hbp; try lia.
      destruct o as [v|]; [by exists 0%nat, v|]. unfold slot_weight at 1 in Hbp. simpl in Hbp.
      destruct (IH l ltac:(lia)) as (i & v & Hv). by exists (S i), v. }
    exists i, v. split; [by apply Hsub|by eapply Hbidm].
Qed.

(** C4. A reported majority is real: on every reachable vote set, if
    [TwoThirdsMajority] returns a block, then validators holding more than two
    thirds of the total power have a canonical vote in the set that carries a
    valid signature for exactly that block, height, round and type. *)
Theorem TwoThirdsMajority_sound `{!CodecLaws} (valSet : ValidatorSet) (chainID : bytes)
    (height round type_ : Z) (vs : VoteSet) (b : BlockID) :
  ValidatorSet.wf valSet → Validators valSet ≠ [] → reachable chainID height round type_ valSet vs →
  TwoThirdsMajority (Some vs) = (b, true) →
  2 * power (Validators valSet) < 3 * signed_power (Validators valSet) chainID b (vs_votes vs) ∧
  ∀ i v, vs_votes vs !! i = Some (Some v) →
    vote_ValidatorIndex v = Z.of_nat i ∧ vote_Height v = height ∧ vote_Round v = round ∧ vote_Type v = type_.
Proof.
  intros Hwf Hne Hr E. destruct (reachable_inv _ _ _ _ _ _ Hwf Hne Hr) as [Hinv HP].
  unfold TwoThirdsMajority in E. simpl in E. destruct (vs_maj23 vs) as [m|] eqn:Em; [|done].
  injection E as ->. destruct (maj_signed vs b Hinv Em) as [Hq _].
  unfold params_of in HP. injection HP as Ec Eh Er Et Ev. rewrite Ec, Ev in Hq. split.
  - unfold quorum in Hq. pose proof (wf_total _ Hwf).
    assert (0 ≤ power (Validators valSet))
      by (apply sumZ_nonneg; intros v Hv; pose proof (wf_power _ Hwf v Hv); lia).
    apply twoThirds_spec; lia.
  - intros i v Hv. destruct (inv_good _ _ _ _ _ _ (vs_core _ Hinv) i v Hv) as [A _ B C D _].
    cbn in B, C, D. split_and!; congruence.
Qed.

(** A commit made from a vote set verifies: for every reachable set of
    precommits with a majority for a block (not nil), [MakeCommit] returns a
    commit that [VerifyCommit] accepts for the same validators, chain, block and
    height. *)
Theorem MakeCommit_verifies `{!CodecLaws} (valSet : ValidatorSet) (chainID : bytes)
    (height round : Z) (vs : VoteSet) (b : BlockID) :
  ValidatorSet.wf valSet → Validators valSet ≠ [] →
  reachable chainID height round PrecommitType valSet vs →
  vs_maj23 vs = Some b → b ≠ zeroBlockID →
  ∃ commit vals', MakeCommit vs = Ret commit ∧
    VerifyCommit valSet chainID b height commit = Ret (vals', None).
Proof.
  intros Hwf Hne Hr Em Hnz. destruct (reachable_inv _ _ _ _ _ _ Hwf Hne Hr) as [Hinv HP].
  destruct (maj_signed vs b Hinv Em) as [Hq (k & vk & Hk & _)].
  unfold params_of in HP. injection HP as Ec Eh Er Et Ev. rewrite Ec, Ev in Hq.
  unfold MakeCommit. rewrite Et, Em. cbn. exists (NewCommit b (vs_votes vs)).
  set (commit := NewCommit b (vs_votes vs)).
  destruct (VerifyCommit_spec valSet chainID b height commit Hwf) as (vals' & err & E & _ & [_ Hacc]).
  exists vals'. split; [done|]. rewrite E. do 2 f_equal. apply Hacc. clear E.
  pose proof (inv_good _ _ _ _ _ _ (vs_core _ Hinv)) as Hg.
  destruct (first_precommit (vs_votes vs)) as [fp|] eqn:Ef.
  2: { rewrite first_precommit_None in Ef. exfalso. apply (Ef vk). by eapply list_elem_of_lookup_2. }
  assert (Commit_Height commit = height ∧ Commit_Round commit = round) as [HH HR].
  { destruct (proj1 (list_elem_of_lookup _ _) (first_precommit_elem _ _ Ef)) as [j Hj].
    destruct (Hg j fp Hj) as [_ _ A B _ _]. unfold Commit_Height, Commit_Round, memoizeHeightRound, commit.
    cbn. rewrite Ef. cbn. cbn in A, B. by rewrite A, B. }
  split_and!; [|cbn; by rewrite (slots_len _ _ _ _ (inv_slots _ _ _ _ _ _ (vs_core _ Hinv))), <-Ev|done|done| |].
  - unfold Commit_ValidateBasic. cbn [commit commit_BlockID commit_Precommits NewCommit].
    destruct (BlockID_IsZero b) eqn:Ez; [by apply BlockID_IsZero_spec in Ez|].
    rewrite (proj2 (Z.eqb_neq _ _)) by (apply zlen_lookup in Hk; lia).
    fold commit. rewrite HH, HR. apply validate_precommits_spec. intros i cs Hi.
    destruct (Hg i cs Hi) as [_ _ A B C _]. cbn in A, B, C. split_and!; congruence.
  - intros i cs v Hi Hv. destruct (Hg i cs Hi) as [_ (v' & Hv' & _ & Hver) _ _ _ _].
    cbn in Hv', Hver. rewrite Ev, Hv in Hv'. injection Hv' as <-. rewrite Ec in Hver.
    unfold Vote_Verify in Hver. destruct (negb (bytes_equal _ _)); [done|].
    by destruct (VerifyBytes _ _ _).
  - cbn [commit commit_Precommits NewCommit]. unfold quorum in Hq. pose proof (wf_total _ Hwf).
    assert (0 ≤ power (Validators valSet))
      by (apply sumZ_nonneg; intros v Hv; pose proof (wf_power _ Hwf v Hv); lia).
    apply twoThirds_spec; lia.
Qed.

(** The queries are exact on every reachable set: [HasTwoThirdsAny] and
    [HasAll] compare the power of the validators with a canonical vote, each
    counted once, with the total; the bit array has the bit of exactly the
    validators with a vote; and if the tracked votes for some block reach two
    thirds then a majority is reported. *)
Theorem VoteSet_queries_exact (valSet : ValidatorSet) (chainID : bytes) (height round type_ : Z)
    (vs : VoteSet) :
  ValidatorSet.wf valSet → Validators valSet ≠ [] → reachable chainID height round type_ valSet vs →
  let vals := Validators valSet in
  HasTwoThirdsAny (Some vs) = Ret (bool_decide (2 * power vals < 3 * voted_power vals (vs_votes vs))) ∧
  HasAll vs = Ret (bool_decide (voted_power vals (vs_votes vs) = power vals)) ∧
  (∃ b, VoteSet_BitArray (Some vs) = Some b ∧ Bits b = zlen vals ∧
     ∀ i o, vs_votes vs !! i = Some o → bit b (Z.of_nat i) = bool_decide (is_Some o)) ∧
  (∀ key bv, vs_votesByBlock vs !! key = Some bv →
     2 * power vals < 3 * voted_power vals (bv_votes bv) → HasTwoThirdsMajority (Some vs) = true).
Proof.
  intros Hwf Hne Hr. cbv zeta. destruct (reachable_inv _ _ _ _ _ _ Hwf Hne Hr) as [Hinv HP].
  unfold params_of in HP. injection HP as Ec Eh Er Et Ev. rewrite <-Ev.
  set (vals := Validators (vs_valSet vs)) in *.
  destruct (vs_core _ Hinv) as [[Hlen Hsum Hba] _ Hb Hm].
  change (p_vals (params_of vs)) with vals in Hlen, Hsum, Hba.
  unfold HasTwoThirdsAny, HasAll. rewrite (TotalVotingPower_wf _ (vs_vals _ Hinv)).
  cbn [mbind outcome_bind]. fold vals.
  assert (0 ≤ power vals ≤ MaxTotalVotingPower) as Hp.
  { split; [|apply (wf_total _ (vs_vals _ Hinv))]. apply sumZ_nonneg. intros v Hv.
    pose proof (wf_power _ (vs_vals _ Hinv) v Hv). lia. }
  split_and!.
  - f_equal. rewrite Hsum. pose proof (twoThirds_spec (power vals) (voted_power vals (vs_votes vs)) Hp).
    destruct (Z.ltb_spec (twoThirds (power vals)) (voted_power vals (vs_votes vs))); symmetry;
      [apply bool_decide_eq_true|apply bool_decide_eq_false]; lia.
  - f_equal. rewrite Hsum. destruct (Z.eqb_spec (voted_power vals (vs_votes vs)) (power vals)); symmetry;
      [by apply bool_decide_eq_true|by apply bool_decide_eq_false].
  - destruct Hba as (b & Eb & _ & HB & Hbit). exists b. unfold VoteSet_BitArray. simpl.
    rewrite Eb. simpl. rewrite copy_id. done.
  - intros key bv Ebv Hq. unfold HasTwoThirdsMajority. unfold maj_inv in Hm.
    destruct (vs_maj23 vs) as [m|]; [done|]. exfalso. specialize (Hm _ _ Ebv).
    destruct (Hb _ _ Ebv) as [[_ Hbs _] _ _]. change (p_vals (params_of vs)) with vals in Hbs, Hm.
    unfold quorum in Hm. rewrite Hbs in Hm.
    pose proof (proj2 (twoThirds_spec (power vals) (voted_power vals (bv_votes bv)) Hp) Hq). lia.
Qed.

End Invariant.

(** ** Behaviours against the documentation, and witnesses *)

(** A prevote without part signature crashes the node: any vote that passes all
    checks of [addVote] but has a nil [PartSig] panics in a set of prevotes. The
    part signature is not covered by the signature of the vote, so any peer can
    strip it from an honest prevote. *)
Theorem AddVote_missing_PartSig_panics `{Codec} `{Crypto} (vs : VoteSet) (vote : Vote) (val : Validator) (ps : option PartSig) :
  vs_type vs = PrevoteType →
  ValidatorSet.GetByIndex (vs_valSet vs) (vote_ValidatorIndex vote) = (vote_ValidatorAddress vote, Some val) →
  0 ≤ vote_ValidatorIndex vote → vote_ValidatorAddress vote ≠ [] →
  vote_Height vote = vs_height vs → vote_Round vote = vs_round vs → vote_Type vote = vs_type vs →
  getVote vs (vote_ValidatorIndex vote) (BlockID_Key (vote_BlockID vote)) = Ret None →
  Vote_Verify (vs_chainID vs) (val_PubKey val) vote = None →
  let stripped := mkVote (vote_Type vote) (vote_Height vote) (vote_Round vote) (vote_BlockID vote)
    (vote_Timestamp vote) (vote_ValidatorAddress vote) (vote_ValidatorIndex vote) (vote_Signature vote) None ps in
  Vote_Verify (vs_chainID vs) (val_PubKey val) stripped = None ∧
  AddVote (Some vs) (Some stripped) = Panic.
Proof.
  intros Hpv Hval Hi Ha Hh Hr Ht Hg Hver stripped. split; [exact Hver|].
  unfold AddVote, addVote. cbn [stripped vote_ValidatorIndex vote_ValidatorAddress vote_BlockID
    vote_Height vote_Round vote_Type].
  rewrite (proj2 (Z.ltb_ge _ _)) by lia.
  rewrite (proj2 (Z.eqb_neq _ _)) by (destruct (vote_ValidatorAddress vote); [done|unfold zlen; simpl; lia]).
  rewrite Hh, Hr, Ht, !Z.eqb_refl. cbn [negb orb]. rewrite Hval.
  rewrite (proj2 (bytes_equal_true _ _) eq_refl). cbn [negb]. rewrite Hg. cbn [mbind outcome_bind].
  fold stripped.
  assert (Vote_Verify (vs_chainID vs) (val_PubKey val) stripped = None) as -> by exact Hver.
  assert (addVerifiedVote vs stripped (BlockID_Key (vote_BlockID vote)) (val_VotingPower val) = Panic) as ->;
    [|done].
  unfold addVerifiedVote, collect_parts. cbn [stripped vote_Type vote_PartSig].
  rewrite Ht, Hpv, Z.eqb_refl. done.
Qed.

Section Samples.
#[local] Existing Instance sample_codec.
#[local] Existing Instance sample_codec_laws.
#[local] Existing Instance sample_crypto.

(** Validators whose address is their key. *)
Definition three_vals : ValidatorSet :=
  mkValidatorSet [mkValidator [x01] [x01] 10 0; mkValidator [x02] [x02] 20 0; mkValidator [x03] [x03] 70 0] None 0.

Lemma three_vals_wf : ValidatorSet.wf three_vals.
Proof.
  split; simpl.
  - repeat constructor.
  - intros v Hv. repeat (apply elem_of_cons in Hv as [->|Hv]; [simpl; lia|]). by apply not_elem_of_nil in Hv.
  - vm_compute. discriminate.
  - by left.
  - intros v Hv. repeat (apply elem_of_cons in Hv as [->|Hv]; [vm_compute; split; discriminate|]).
    by apply not_elem_of_nil in Hv.
Qed.

Definition sample_vote (type_ : Z) (b : byte) (idx : Z) (addr : byte) : Vote :=
  let vote sig := mkVote type_ 5 0 (sample_block b) 0 [addr] idx sig
                    (Some (mkPartSig [x0f] 1)) (Some (mkPartSig [x0e] 1)) in
  vote (addr :: Vote_SignBytes [x63] (vote [])).

Definition run (type_ : Z) (votes : list Vote) : outcome VoteSet :=
  vs ← NewVoteSet [x63] 5 0 type_ three_vals;
  foldM (λ vs v, '(vs, _, _) ← addVote vs (Some v); Ret vs) vs votes.

Definition run_or (type_ : Z) (votes : list Vote) : VoteSet :=
  match run type_ votes with
  | Ret vs => vs
  | Panic => mkVoteSet [] 0 0 0 three_vals None [] 0 None ∅ ∅ [] [] []
  end.

Lemma run_reachable type_ votes vs :
  (∀ v, v ∈ votes → parts_ok v ∧ bid_ok (vote_BlockID v) = true) →
  run type_ votes = Ret vs → reachable [x63] 5 0 type_ three_vals vs.
Proof.
  intros Hv. unfold run. destruct (NewVoteSet _ _ _ _ _) as [vs0|] eqn:E0; [|done]. cbn [mbind outcome_bind].
  intros E. exists vs0. split; [done|]. clear E0. revert vs0 E.
  induction votes as [|v votes IH]; intros vs0 E; cbn [foldM] in E; [by injection E as <-|].
  destruct (addVote vs0 (Some v)) as [[[vs1 a] e]|] eqn:Ev; [|done]. cbn [mbind outcome_bind] in E.
  eapply rtc_l; [|apply IH; [set_solver|exact E]].
  destruct (Hv v (list_elem_of_here _ _)). by eapply step_add.
Qed.

Lemma sample_vote_ok type_ b idx addr :
  parts_ok (sample_vote type_ b idx addr) ∧ bid_ok (vote_BlockID (sample_vote type_ b idx addr)) = true.
Proof.
  split; [|done]. intros _. exists (mkPartSig [x0f] 1). split; [done|]. intros _. by eexists.
Qed.

Definition majority_votes : list Vote :=
  [sample_vote PrecommitType x02 0 x01; sample_vote PrecommitType x01 2 x03; sample_vote PrecommitType x01 0 x01].

Definition majority_set : VoteSet := run_or PrecommitType majority_votes.

Lemma majority_set_reachable : reachable [x63] 5 0 PrecommitType three_vals majority_set.
Proof.
  apply (run_reachable _ majority_votes).
  - intros v Hv. repeat (apply elem_of_cons in Hv as [->|Hv]; [apply sample_vote_ok|]).
    by apply not_elem_of_nil in Hv.
  - vm_compute. reflexivity.
Qed.

Lemma AddVote_total_witness :
  ∃ vs' added err, AddVote (Some majority_set) (Some (sample_vote PrecommitType x01 1 x02)) = Ret (vs', added, err) ∧
    reachable [x63] 5 0 PrecommitType three_vals vs' ∧
    (∀ m, vs_maj23 majority_set = Some m → vs_maj23 vs' = Some m).
Proof.
  apply (AddVote_total three_vals [x63] 5 0 PrecommitType majority_set
    (sample_vote PrecommitType x01 1 x02) three_vals_wf);
    [done|exact majority_set_reachable|apply sample_vote_ok|reflexivity].
Defined.

Lemma TwoThirdsMajority_sound_witness :
  2 * power (Validators three_vals) <
    3 * signed_power (Validators three_vals) [x63] (sample_block x01) (vs_votes majority_set).
Proof.
  refine (proj1 (TwoThirdsMajority_sound three_vals [x63] 5 0 PrecommitType majority_set (sample_block x01)
    three_vals_wf _ majority_set_reachable _)); [done|vm_compute; reflexivity].
Defined.

Lemma MakeCommit_verifies_witness :
  ∃ commit vals', MakeCommit majority_set = Ret commit ∧
    VerifyCommit three_vals [x63] (sample_block x01) 5 commit = Ret (vals', None).
Proof.
  apply (MakeCommit_verifies three_vals [x63] 5 0 majority_set (sample_block x01) three_vals_wf);
    [done|exact majority_set_reachable|vm_compute; reflexivity|done].
Defined.

Lemma VoteSet_queries_exact_witness :
  HasTwoThirdsAny (Some majority_set) =
    Ret (bool_decide (2 * power (Validators three_vals) < 3 * voted_power (Validators three_vals) (vs_votes majority_set))).
Proof.
  exact (proj1 (VoteSet_queries_exact three_vals [x63] 5 0 PrecommitType majority_set three_vals_wf
    ltac:(done) majority_set_reachable)).
Defined.

Definition fresh_prevotes : VoteSet := run_or PrevoteType [].

Lemma AddVote_missing_PartSig_panics_witness :
  AddVote (Some fresh_prevotes)
    (Some (mkVote PrevoteType 5 0 (sample_block x01) 0 [x03] 2
             (vote_Signature (sample_vote PrevoteType x01 2 x03)) None None)) = Panic.
Proof.
  refine (proj2 (AddVote_missing_PartSig_panics fresh_prevotes (sample_vote PrevoteType x01 2 x03)
    (mkValidator [x03] [x03] 70 0) None _ _ _ _ _ _ _ _ _)); try done; vm_compute; reflexivity.
Defined.

(** Against the comment that all votes in [votes] have an entry in
    [votesByBlock]: a conflicting vote for the majority block replaces the
    canonical vote of its validator but is not recorded among the votes of the
    block, and [AddVote] answers that it was not added. *)
Theorem canonical_vote_not_by_block :
  ∃ vs vs' v bv err, reachable [x63] 5 0 PrecommitType three_vals vs ∧
    AddVote (Some vs) (Some v) = Ret (vs', false, Some err) ∧
    vs_votes vs' !! 0%nat = Some (Some v) ∧
    vs_votesByBlock vs' !! BlockID_Key (vote_BlockID v) = Some bv ∧ bv_votes bv !! 0%nat = Some None.
Proof.
  exists (run_or PrecommitType (take 2 majority_votes)), majority_set, (sample_vote PrecommitType x01 0 x01),
    (default (newBlockVotes false 0) (vs_votesByBlock majority_set !! BlockID_Key (sample_block x01))),
    (ErrVoteConflictingVotes [x01] (sample_vote PrecommitType x02 0 x01) (sample_vote PrecommitType x01 0 x01)).
  split_and!; [|vm_compute; reflexivity..].
  apply (run_reachable _ (take 2 majority_votes)); [|vm_compute; reflexivity].
  intros v Hv. repeat (apply elem_of_cons in Hv as [->|Hv]; [apply sample_vote_ok|]).
  by apply not_elem_of_nil in Hv.
Qed.

(** Against the comment that the memory of a vote set is bounded: the part
    signatures of a conflicting prevote are collected again each time the same
    vote is received, although the vote is rejected. *)
Theorem replayed_conflict_grows_PartSigs (n : nat) :
  ∃ vs, run PrevoteType (sample_vote PrevoteType x01 0 x01 :: replicate n (sample_vote PrevoteType x02 0 x01)) = Ret vs ∧
    length (vs_PartSigs vs) = S n ∧ vs_sum vs = 10.
Proof.
  set (a := sample_vote PrevoteType x01 0 x01). set (b := sample_vote PrevoteType x02 0 x01).
  set (add := λ vs v, '(vs, _, _) ← addVote vs (Some v); Ret vs).
  set (vs1 := run_or PrevoteType [a]).
  set (grown := λ k, mkVoteSet [x63] 5 0 PrevoteType (vs_valSet vs1) (vs_votesBitArray vs1) (vs_votes vs1)
    (vs_sum vs1) (vs_maj23 vs1) (vs_votesByBlock vs1) (vs_peerMaj23s vs1)
    (replicate k (mkPartSig [x0f] 1)) (replicate k (mkPartSig [x0e] 1)) []).
  assert (∀ k, add (grown k) b = Ret (grown (S k))) as Hstep.
  { intros k.
    assert (∀ s1 s2, addVote (mkVoteSet [x63] 5 0 PrevoteType (vs_valSet vs1) (vs_votesBitArray vs1) (vs_votes vs1)
      (vs_sum vs1) (vs_maj23 vs1) (vs_votesByBlock vs1) (vs_peerMaj23s vs1) s1 s2 []) (Some b) =
      Ret (mkVoteSet [x63] 5 0 PrevoteType (vs_valSet vs1) (vs_votesBitArray vs1) (vs_votes vs1)
      (vs_sum vs1) (vs_maj23 vs1) (vs_votesByBlock vs1) (vs_peerMaj23s vs1)
      (s1 ++ [mkPartSig [x0f] 1]) (s2 ++ [mkPartSig [x0e] 1]) [], false,
      Some (ErrVoteConflictingVotes [x01] a b))) as Hone by (intros; vm_compute; reflexivity).
    unfold add, grown at 1. rewrite Hone. cbn [mbind outcome_bind].
    unfold grown. by rewrite <-!replicate_S_end. }
  exists (grown (S n)). split_and!; [|exact (length_replicate _ _)|vm_compute; reflexivity].
  assert (∀ m k, foldM add (grown k) (replicate m b) = Ret (grown (m + k)%nat)) as Hloop.
  { induction m as [|m IH]; intros k; cbn [replicate foldM]; [done|].
    rewrite Hstep. cbn [mbind outcome_bind]. rewrite IH. do 2 f_equal. lia. }
  unfold run. assert (NewVoteSet [x63] 5 0 PrevoteType three_vals = Ret (run_or PrevoteType [])) as -> by done.
  cbn [mbind outcome_bind foldM]. fold add.
  assert (add (run_or PrevoteType []) a = Ret (grown 1%nat)) as Hfirst by (vm_compute; reflexivity).
  unfold add in Hfirst at 1. unfold add in Hloop.
  rewrite Hfirst. cbn [mbind outcome_bind]. rewrite Hloop. do 2 f_equal. lia.
Qed.

End Samples.
