(* ===== verification/HeightVoteSet.v ===== *)
(** * consensus/types/height_vote_set.go: the vote sets of all rounds of a height

    The vote sets of every round share the validator set by pointer; only its
    cached total changes through it, to the same value in each, so every vote set
    keeps its own copy. *)

From Stdlib Require Import ZArith Lia List Bool Strings.Byte.
From stdpp Require Import base list gmap sets.
From S2P Require Import Prelude BitArray Types ValidatorSet VerifyCommit VoteSet.
Local Open Scope Z_scope.

Record RoundVoteSet := mkRoundVoteSet { Prevotes : VoteSet; Precommits : VoteSet }.

Record HeightVoteSet := mkHeightVoteSet {
  hvs_chainID : bytes;
  hvs_height : Z;
  hvs_valSet : ValidatorSet;
  hvs_round : Z;
  hvs_roundVoteSets : gmap Z RoundVoteSet;
  hvs_peerCatchupRounds : gmap bytes (list Z)
}.

Definition set_round (hvs : HeightVoteSet) (round : Z) : HeightVoteSet :=
  mkHeightVoteSet (hvs_chainID hvs) (hvs_height hvs) (hvs_valSet hvs) round
    (hvs_roundVoteSets hvs) (hvs_peerCatchupRounds hvs).

Definition set_rounds (hvs : HeightVoteSet) (m : gmap Z RoundVoteSet) : HeightVoteSet :=
  mkHeightVoteSet (hvs_chainID hvs) (hvs_height hvs) (hvs_valSet hvs) (hvs_round hvs) m
    (hvs_peerCatchupRounds hvs).

Definition addRound (hvs : HeightVoteSet) (round : Z) : outcome HeightVoteSet :=
  match hvs_roundVoteSets hvs !! round with
  | Some _ => Panic
  | None =>
      prevotes ← NewVoteSet (hvs_chainID hvs) (hvs_height hvs) round PrevoteType (hvs_valSet hvs);
      precommits ← NewVoteSet (hvs_chainID hvs) (hvs_height hvs) round PrecommitType (hvs_valSet hvs);
      Ret (set_rounds hvs (<[round := mkRoundVoteSet prevotes precommits]> (hvs_roundVoteSets hvs)))
  end.

Definition Reset (hvs : HeightVoteSet) (height : Z) (valSet : ValidatorSet) : outcome HeightVoteSet :=
  hvs ← addRound (mkHeightVoteSet (hvs_chainID hvs) height valSet (hvs_round hvs) ∅ ∅) 0;
  Ret (set_round hvs 0).

Definition NewHeightVoteSet (chainID : bytes) (height : Z) (valSet : ValidatorSet) : outcome HeightVoteSet :=
  Reset (mkHeightVoteSet chainID 0 valSet 0 ∅ ∅) height valSet.

(** [for r := from; r < from + n; r++]: adds the rounds that do not exist yet. *)
Fixpoint set_round_loop (n : nat) (from : Z) (hvs : HeightVoteSet) : outcome HeightVoteSet :=
  match n with
  | O => Ret hvs
  | S n' =>
      hvs ← match hvs_roundVoteSets hvs !! from with
            | Some _ => Ret hvs
            | None => addRound hvs from
            end;
      set_round_loop n' (from + 1) hvs
  end.

Definition SetRound (hvs : HeightVoteSet) (round : Z) : outcome HeightVoteSet :=
  if negb (hvs_round hvs =? 0) && (round <? hvs_round hvs + 1) then Panic
  else
    hvs' ← set_round_loop (Z.to_nat (round - hvs_round hvs)) (hvs_round hvs + 1) hvs;
    Ret (set_round hvs' round).

(** An unknown vote type panics once the round exists. *)
Definition getVoteSet (hvs : HeightVoteSet) (round type_ : Z) : outcome (option VoteSet) :=
  match hvs_roundVoteSets hvs !! round with
  | None => Ret None
  | Some rvs =>
      if type_ =? PrevoteType then Ret (Some (Prevotes rvs))
      else if type_ =? PrecommitType then Ret (Some (Precommits rvs))
      else Panic
  end.

(** Writes back a vote set that was updated through its pointer. *)
Definition put_voteSet (hvs : HeightVoteSet) (round type_ : Z) (vs : VoteSet) : HeightVoteSet :=
  match hvs_roundVoteSets hvs !! round with
  | None => hvs
  | Some rvs =>
      set_rounds hvs (<[round :=
        if type_ =? PrevoteType then mkRoundVoteSet vs (Precommits rvs)
        else mkRoundVoteSet (Prevotes rvs) vs]> (hvs_roundVoteSets hvs))
  end.

Inductive hvs_error := GotVoteFromUnwantedRoundError | ErrInvalidVote (err : vote_error).

Section WithCodec.
Context `{Codec} `{Crypto}.

(** The final [voteSet.AddVote(vote)] through the pointer. *)
Definition add_to (hvs : HeightVoteSet) (voteSet : option VoteSet) (vote : Vote) :
    outcome (HeightVoteSet * bool * option hvs_error) :=
  '(vs, added, err) ← AddVote voteSet (Some vote);
  Ret (put_voteSet hvs (vote_Round vote) (vote_Type vote) vs, added, option_map ErrInvalidVote err).

Definition HVS_AddVote (hvs : HeightVoteSet) (vote : Vote) (peerID : bytes) :
    outcome (HeightVoteSet * bool * option hvs_error) :=
  let round := vote_Round vote in
  let type_ := vote_Type vote in
  if negb (IsVoteTypeValid type_) then Ret (hvs, false, None)
  else
    voteSet ← getVoteSet hvs round type_;
    match voteSet with
    | Some _ => add_to hvs voteSet vote
    | None =>
        let rndz := default [] (hvs_peerCatchupRounds hvs !! peerID) in
        if zlen rndz <? 2 then
          hvs ← addRound hvs round;
          voteSet ← getVoteSet hvs round type_;
          let hvs := mkHeightVoteSet (hvs_chainID hvs) (hvs_height hvs) (hvs_valSet hvs) (hvs_round hvs)
            (hvs_roundVoteSets hvs) (<[peerID := rndz ++ [round]]> (hvs_peerCatchupRounds hvs)) in
          add_to hvs voteSet vote
        else Ret (hvs, false, Some GotVoteFromUnwantedRoundError)
    end.

(** [None] for no error. *)
Definition HVS_SetPeerMaj23 (hvs : HeightVoteSet) (round type_ : Z) (peerID : bytes) (blockID : BlockID) :
    outcome (HeightVoteSet * bool) :=
  if negb (IsVoteTypeValid type_) then Ret (hvs, false)
  else
    voteSet ← getVoteSet hvs round type_;
    match voteSet with
    | None => Ret (hvs, true)
    | Some vs =>
        let '(vs', ok) := SetPeerMaj23 vs peerID blockID in
        Ret (put_voteSet hvs round type_ vs', ok)
    end.

End WithCodec.

(** The loop of [POLInfo], from round [n - 1] down. *)
Fixpoint pol_loop (n : nat) (hvs : HeightVoteSet) : outcome (Z * BlockID) :=
  match n with
  | O => Ret (-1, zeroBlockID)
  | S n' =>
      rvs ← getVoteSet hvs (Z.of_nat n') PrevoteType;
      let '(polBlockID, ok) := TwoThirdsMajority rvs in
      if (ok : bool) then Ret (Z.of_nat n', polBlockID) else pol_loop n' hvs
  end.

Definition POLInfo (hvs : HeightVoteSet) : outcome (Z * BlockID) :=
  pol_loop (Z.to_nat (hvs_round hvs + 1)) hvs.

(** ** The invariant *)

Section Invariant.
Context `{Codec} `{Crypto}.

Record hvs_inv (hvs : HeightVoteSet) : Prop := {
  hi_vals : ValidatorSet.wf (hvs_valSet hvs);
  hi_nonempty : Validators (hvs_valSet hvs) ≠ [];
  hi_height : hvs_height hvs ≠ 0;
  hi_round : 0 ≤ hvs_round hvs;
  hi_all r : 0 ≤ r ≤ hvs_round hvs → is_Some (hvs_roundVoteSets hvs !! r);
  hi_sets r rvs : hvs_roundVoteSets hvs !! r = Some rvs →
    reachable (hvs_chainID hvs) (hvs_height hvs) r PrevoteType (hvs_valSet hvs) (Prevotes rvs) ∧
    reachable (hvs_chainID hvs) (hvs_height hvs) r PrecommitType (hvs_valSet hvs) (Precommits rvs);
  hi_peers p l : hvs_peerCatchupRounds hvs !! p = Some l → zlen l ≤ 2;
  hi_tracked r : is_Some (hvs_roundVoteSets hvs !! r) →
    0 ≤ r ≤ hvs_round hvs ∨ ∃ p l, hvs_peerCatchupRounds hvs !! p = Some l ∧ r ∈ l
}.

Lemma new_reachable chainID height round type_ valSet :
  height ≠ 0 → ∃ vs, NewVoteSet chainID height round type_ valSet = Ret vs ∧
    reachable chainID height round type_ valSet vs.
Proof.
  intros Hh. unfold reachable. unfold NewVoteSet at 1. rewrite (proj2 (Z.eqb_neq _ _)) by done.
  eexists. split; [done|]. eexists. split; [|apply rtc_refl].
  unfold NewVoteSet. by rewrite (proj2 (Z.eqb_neq _ _)).
Qed.

(** What [addRound] does when the round is missing. *)
Lemma addRound_ok hvs r :
  hvs_height hvs ≠ 0 → hvs_roundVoteSets hvs !! r = None →
  ∃ rvs, addRound hvs r = Ret (set_rounds hvs (<[r := rvs]> (hvs_roundVoteSets hvs))) ∧
    reachable (hvs_chainID hvs) (hvs_height hvs) r PrevoteType (hvs_valSet hvs) (Prevotes rvs) ∧
    reachable (hvs_chainID hvs) (hvs_height hvs) r PrecommitType (hvs_valSet hvs) (Precommits rvs).
Proof.
  intros Hh Hn. unfold addRound. rewrite Hn.
  destruct (new_reachable (hvs_chainID hvs) (hvs_height hvs) r PrevoteType (hvs_valSet hvs) Hh) as (v1 & -> & R1).
  destruct (new_reachable (hvs_chainID hvs) (hvs_height hvs) r PrecommitType (hvs_valSet hvs) Hh) as (v2 & -> & R2).
  cbn [mbind outcome_bind]. by exists (mkRoundVoteSet v1 v2).
Qed.

Definition sets_ok (hvs : HeightVoteSet) (m : gmap Z RoundVoteSet) : Prop :=
  ∀ r rvs, m !! r = Some rvs →
    reachable (hvs_chainID hvs) (hvs_height hvs) r PrevoteType (hvs_valSet hvs) (Prevotes rvs) ∧
    reachable (hvs_chainID hvs) (hvs_height hvs) r PrecommitType (hvs_valSet hvs) (Precommits rvs).

Lemma set_round_loop_ok n from hvs :
  hvs_height hvs ≠ 0 → sets_ok hvs (hvs_roundVoteSets hvs) →
  ∃ m, set_round_loop n from hvs = Ret (set_rounds hvs m) ∧ sets_ok hvs m ∧
    (∀ r, is_Some (m !! r) ↔ is_Some (hvs_roundVoteSets hvs !! r) ∨ from ≤ r < from + Z.of_nat n).
Proof.
  intros Hh. revert from hvs Hh. induction n as [|n IH]; intros from hvs Hh Hok; cbn [set_round_loop].
  { exists (hvs_roundVoteSets hvs). split; [by destruct hvs|]. split; [done|]. intros r. split; [by left|intros [?|?]; [done|lia]]. }
  destruct (hvs_roundVoteSets hvs !! from) as [rvs|] eqn:E.
  - cbn [mbind outcome_bind]. destruct (IH (from + 1) hvs Hh Hok) as (m & Em & Hm & Hdom).
    exists m. split_and!; [done..|]. intros r. rewrite Hdom.
    destruct (decide (r = from)) as [->|Hne].
    + rewrite E. split; [intros _; left; by eexists|intros _; left; by eexists].
    + split; (intros [?|?]; [by left|right; lia]).
  - destruct (addRound_ok hvs from Hh E) as (rvs & -> & R1 & R2). cbn [mbind outcome_bind].
    set (hvs1 := set_rounds hvs _).
    destruct (IH (from + 1) hvs1 Hh) as (m & Em & Hm & Hdom).
    { intros r rvs' Hr. cbn in Hr. apply lookup_insert_Some in Hr as [[<- <-]|[_ Hr]]; [done|by apply Hok]. }
    exists m. split; [exact Em|]. split; [exact Hm|]. intros r. rewrite Hdom. cbn.
    destruct (decide (from = r)) as [->|Hne].
    + rewrite lookup_insert_eq. split; [intros _; right; lia|intros _; left; by eexists].
    + rewrite lookup_insert_ne by done. split; (intros [?|?]; [by left|right; lia]).
Qed.

(** The vote sets of a new height. *)
Lemma new_hvs_inv chainID height valSet :
  height ≠ 0 → ValidatorSet.wf valSet → Validators valSet ≠ [] →
  ∃ hvs, NewHeightVoteSet chainID height valSet = Ret hvs ∧ hvs_inv hvs.
Proof.
  intros Hh Hwf Hne.
  destruct (new_reachable chainID height 0 PrevoteType valSet Hh) as (v1 & E1 & R1).
  destruct (new_reachable chainID height 0 PrecommitType valSet Hh) as (v2 & E2 & R2).
  exists (mkHeightVoteSet chainID height valSet 0 {[0 := mkRoundVoteSet v1 v2]} ∅). split.
  { unfold NewHeightVoteSet, Reset, addRound. cbn [hvs_roundVoteSets hvs_chainID hvs_height hvs_valSet].
    rewrite lookup_empty, E1, E2. done. }
  split; cbn; try done.
  - intros r Hr. assert (r = 0) as -> by lia. by rewrite lookup_singleton_eq.
  - intros r rvs [<- <-]%lookup_singleton_Some. done.
  - intros r [rvs [<- _]%lookup_singleton_Some]. left. lia.
Qed.

(** Replacing one vote set of a round by a reachable one. *)
Lemma put_voteSet_ok hvs r t vs rvs :
  hvs_inv hvs → hvs_roundVoteSets hvs !! r = Some rvs → (t = PrevoteType ∨ t = PrecommitType) →
  reachable (hvs_chainID hvs) (hvs_height hvs) r t (hvs_valSet hvs) vs →
  hvs_inv (put_voteSet hvs r t vs) ∧ hvs_round (put_voteSet hvs r t vs) = hvs_round hvs ∧
  hvs_peerCatchupRounds (put_voteSet hvs r t vs) = hvs_peerCatchupRounds hvs.
Proof.
  intros [Hv Hn Hh Hr Hall Hs Hp Ht] E Htype Hvs. unfold put_voteSet. rewrite E. split; [|done].
  destruct (Hs r rvs E) as [R1 R2]. split; cbn; try done.
  - intros r' Hr'. apply lookup_insert_is_Some'. right. by apply Hall.
  - intros r' rvs' [[<- <-]|[_ H']]%lookup_insert_Some; [|by apply Hs].
    destruct Htype as [->| ->]; done.
  - intros r' Hr'. apply Ht. apply lookup_insert_is_Some' in Hr' as [<-|?]; [by rewrite E|done].
Qed.

Lemma getVoteSet_ok hvs r t rvs :
  hvs_inv hvs → hvs_roundVoteSets hvs !! r = Some rvs → (t = PrevoteType ∨ t = PrecommitType) →
  ∃ vs, getVoteSet hvs r t = Ret (Some vs) ∧
    reachable (hvs_chainID hvs) (hvs_height hvs) r t (hvs_valSet hvs) vs.
Proof.
  intros Hinv E Ht. unfold getVoteSet. rewrite E. destruct (hi_sets _ Hinv r rvs E) as [R1 R2].
  destruct Ht as [->| ->]; eexists; split; [done..|done].
Qed.

Lemma add_to_ok hvs vote rvs :
  hvs_inv hvs → hvs_roundVoteSets hvs !! vote_Round vote = Some rvs →
  (vote_Type vote = PrevoteType ∨ vote_Type vote = PrecommitType) →
  parts_ok vote → bid_ok (vote_BlockID vote) = true →
  ∃ vs hvs' added err, getVoteSet hvs (vote_Round vote) (vote_Type vote) = Ret (Some vs) ∧
    add_to hvs (Some vs) vote = Ret (hvs', added, err) ∧ hvs_inv hvs' ∧
    hvs_round hvs' = hvs_round hvs ∧ hvs_peerCatchupRounds hvs' = hvs_peerCatchupRounds hvs ∧
    err ≠ Some GotVoteFromUnwantedRoundError.
Proof.
  intros Hinv E Ht Hp Hb. destruct (getVoteSet_ok hvs _ _ _ Hinv E Ht) as (vs & Eg & Hr).
  destruct (reachable_inv _ _ _ _ _ _ (hi_vals _ Hinv) (hi_nonempty _ Hinv) Hr) as [Hvi _].
  destruct (addVote_ok vs vote Hvi Hp Hb) as (vs' & added & err & Ea & _ & _ & _).
  assert (reachable (hvs_chainID hvs) (hvs_height hvs) (vote_Round vote) (vote_Type vote) (hvs_valSet hvs) vs') as Hr'.
  { destruct Hr as (vs0 & E0 & Hst). exists vs0. split; [done|]. eapply rtc_r; [exact Hst|by eapply step_add]. }
  destruct (put_voteSet_ok hvs _ _ vs' rvs Hinv E Ht Hr') as (H1 & H2 & H3).
  exists vs, (put_voteSet hvs (vote_Round vote) (vote_Type vote) vs'), added, (option_map ErrInvalidVote err).
  split; [done|]. split; [unfold add_to, AddVote; by rewrite Ea|]. split_and!; [done..|]. by destruct err.
Qed.

(** A height's vote sets never crash and stay bounded: on every state satisfying
    the invariant (all rounds up to the current one exist, every round holds
    vote sets for its own height, round and type, every other round is a catchup
    round of some peer, and no peer has more than two of those), adding a
    basically valid vote returns a state satisfying it; a vote for an unknown
    round is refused exactly when its peer has used up its two catchup rounds. *)
Theorem HVS_AddVote_total (hvs : HeightVoteSet) (vote : Vote) (peerID : bytes) :
  hvs_inv hvs → parts_ok vote → bid_ok (vote_BlockID vote) = true → IsVoteTypeValid (vote_Type vote) = true →
  ∃ hvs' added err, HVS_AddVote hvs vote peerID = Ret (hvs', added, err) ∧ hvs_inv hvs' ∧
    hvs_round hvs' = hvs_round hvs ∧
    (err = Some GotVoteFromUnwantedRoundError ↔
       hvs_roundVoteSets hvs !! vote_Round vote = None ∧
       2 ≤ zlen (default [] (hvs_peerCatchupRounds hvs !! peerID))).
Proof.
  intros Hinv Hp Hb Htv. unfold HVS_AddVote. rewrite Htv. cbn [negb].
  assert (vote_Type vote = PrevoteType ∨ vote_Type vote = PrecommitType) as Ht.
  { unfold IsVoteTypeValid in Htv. by apply orb_true_iff in Htv as [->%Z.eqb_eq| ->%Z.eqb_eq]; [left|right]. }
  destruct (hvs_roundVoteSets hvs !! vote_Round vote) as [rvs|] eqn:E.
  - destruct (add_to_ok hvs vote rvs Hinv E Ht Hp Hb) as (vs & hvs' & added & err & Eg & Ea & H1 & H2 & H3 & H4).
    rewrite Eg. cbn [mbind outcome_bind]. rewrite Ea. exists hvs', added, err. split_and!; [done..|]. naive_solver.
  - assert (getVoteSet hvs (vote_Round vote) (vote_Type vote) = Ret None) as -> by (unfold getVoteSet; by rewrite E).
    cbn [mbind outcome_bind].
    set (rndz := default [] (hvs_peerCatchupRounds hvs !! peerID)).
    destruct (Z.ltb_spec (zlen rndz) 2) as [Hlt|Hge].
    + destruct (addRound_ok hvs (vote_Round vote) (hi_height _ Hinv) E) as (rvs & -> & R1 & R2).
      cbn [mbind outcome_bind]. set (hvs1 := set_rounds hvs _).
      set (hvs2 := mkHeightVoteSet _ _ _ _ _ (<[peerID := _]> _)).
      assert (hvs_inv hvs2) as Hinv2.
      { destruct Hinv as [A B C D F G I J]. split; cbn; try done.
        - intros r Hr. apply lookup_insert_is_Some'. right. by apply F.
        - intros r rvs' [[<- <-]|[_ Hr]]%lookup_insert_Some; [done|by apply G].
        - intros p l [[<- <-]|[_ Hl]]%lookup_insert_Some; [|by eapply I].
          unfold zlen in *. rewrite length_app. simpl. lia.
        - intros r [<-|Hr]%lookup_insert_is_Some'.
          + right. exists peerID, (rndz ++ [vote_Round vote]). rewrite lookup_insert_eq. split; [done|set_solver].
          + destruct (J r Hr) as [?|(p & l & Hl & Hin)]; [by left|right].
            destruct (decide (p = peerID)) as [->|Hne].
            * exists peerID, (rndz ++ [vote_Round vote]). rewrite lookup_insert_eq. split; [done|].
              unfold rndz. rewrite Hl. simpl. set_solver.
            * exists p, l. by rewrite lookup_insert_ne. }
      destruct (add_to_ok hvs2 vote rvs Hinv2) as (vs & hvs' & added & err & Eg & Ea & H1 & H2 & H3 & H4);
        [cbn; by rewrite lookup_insert_eq|done..|].
      change (getVoteSet hvs1 (vote_Round vote) (vote_Type vote)) with
        (getVoteSet hvs2 (vote_Round vote) (vote_Type vote)).
      rewrite Eg. cbn [mbind outcome_bind]. fold hvs2. rewrite Ea. exists hvs', added, err.
      split_and!; [done|done|by rewrite H2|]. naive_solver lia.
    + eexists _, _, _. split; [done|]. split_and!; [done..|]. split; [intros _; split; [done|lia]|done].
Qed.

(** [SetRound] moves forward without panic and keeps the invariant: the new
    round and all rounds before it have vote sets, and those that existed (also
    the catchup ones) are kept. *)
Theorem SetRound_ok (hvs : HeightVoteSet) (round : Z) :
  hvs_inv hvs → hvs_round hvs < round →
  ∃ hvs', SetRound hvs round = Ret hvs' ∧ hvs_inv hvs' ∧ hvs_round hvs' = round ∧
    (∀ r, is_Some (hvs_roundVoteSets hvs' !! r) ↔ is_Some (hvs_roundVoteSets hvs !! r) ∨ hvs_round hvs < r ≤ round).
Proof.
  intros Hinv Hlt. unfold SetRound. rewrite (proj2 (Z.ltb_ge _ _)) by lia. rewrite andb_false_r.
  destruct (set_round_loop_ok (Z.to_nat (round - hvs_round hvs)) (hvs_round hvs + 1) hvs (hi_height _ Hinv))
    as (m & -> & Hm & Hdom); [exact (hi_sets _ Hinv)|].
  cbn [mbind outcome_bind]. eexists. split; [reflexivity|].
  assert (∀ r, is_Some (m !! r) ↔ is_Some (hvs_roundVoteSets hvs !! r) ∨ hvs_round hvs < r ≤ round) as Hdom'
    by (intros r; rewrite Hdom; split; (intros [?|?]; [by left|right; lia])).
  split; [|split; [done|exact Hdom']].
  destruct Hinv as [A B C D F G I J]. split; cbn; try done; [lia|..].
  - intros r Hr. apply Hdom'. destruct (decide (r ≤ hvs_round hvs)); [left; apply F; lia|right; lia].
  - intros r [Hr|Hr]%Hdom'; [|left; lia]. destruct (J r Hr) as [?|?]; [left; lia|by right].
Qed.

Lemma maj_of_prevotes hvs r :
  hvs_inv hvs → 0 ≤ r ≤ hvs_round hvs →
  ∃ rvs, hvs_roundVoteSets hvs !! r = Some rvs ∧ getVoteSet hvs r PrevoteType = Ret (Some (Prevotes rvs)).
Proof.
  intros Hinv Hr. destruct (hi_all _ Hinv r Hr) as [rvs E]. exists rvs. split; [done|].
  unfold getVoteSet. by rewrite E.
Qed.

Definition pol_at (hvs : HeightVoteSet) (r : Z) : option BlockID :=
  hvs_roundVoteSets hvs !! r ≫= λ rvs, vs_maj23 (Prevotes rvs).

Lemma pol_loop_ok n hvs :
  hvs_inv hvs → Z.of_nat n ≤ hvs_round hvs + 1 →
  ∃ r b, pol_loop n hvs = Ret (r, b) ∧ r < Z.of_nat n ∧
    (∀ r', r < r' → 0 ≤ r' < Z.of_nat n → pol_at hvs r' = None) ∧
    ((r = -1 ∧ b = zeroBlockID) ∨ (0 ≤ r ∧ pol_at hvs r = Some b)).
Proof.
  intros Hinv. induction n as [|n IH]; intros Hn; cbn [pol_loop].
  { exists (-1), zeroBlockID. split_and!; [done|lia|lia|by left]. }
  destruct (maj_of_prevotes hvs (Z.of_nat n) Hinv ltac:(lia)) as (rvs & E & ->). cbn [mbind outcome_bind].
  assert (pol_at hvs (Z.of_nat n) = vs_maj23 (Prevotes rvs)) as Hpol by (unfold pol_at; by rewrite E).
  unfold TwoThirdsMajority. simpl. destruct (vs_maj23 (Prevotes rvs)) as [b|].
  - exists (Z.of_nat n), b. split_and!; [done|lia|lia|right; split; [lia|done]].
  - destruct IH as (r & b & -> & Hr & Habove & Hres); [lia|]. exists r, b. split_and!; [done|lia| |done].
    intros r' H1 H2. destruct (decide (r' = Z.of_nat n)) as [->|]; [done|]. apply Habove; lia.
Qed.

(** [POLInfo] is exact: it returns the last round not after the current one with
    a two-thirds majority of prevotes and that majority's block (nil included),
    and -1 if there is none. *)
Theorem POLInfo_exact (hvs : HeightVoteSet) :
  hvs_inv hvs →
  ∃ r b, POLInfo hvs = Ret (r, b) ∧
    (∀ r', r < r' ≤ hvs_round hvs → 0 ≤ r' → pol_at hvs r' = None) ∧
    ((r = -1 ∧ b = zeroBlockID) ∨ (0 ≤ r ≤ hvs_round hvs ∧ pol_at hvs r = Some b)).
Proof.
  intros Hinv. unfold POLInfo. pose proof (hi_round _ Hinv).
  destruct (pol_loop_ok (Z.to_nat (hvs_round hvs + 1)) hvs Hinv ltac:(lia)) as (r & b & E & Hr & Habove & Hres).
  exists r, b. split_and!; [done| |].
  - intros r' [Hlo Hhi] Hpos. apply Habove; lia.
  - destruct Hres as [?|[? ?]]; [by left|right; split; [lia|done]].
Qed.

End Invariant.

Section Samples.
#[local] Existing Instance sample_codec.
#[local] Existing Instance sample_crypto.

Definition sample_hvs : HeightVoteSet :=
  match NewHeightVoteSet [x63] 5 three_vals with
  | Ret h => h
  | Panic => mkHeightVoteSet [] 0 three_vals 0 ∅ ∅
  end.

Lemma sample_hvs_inv : hvs_inv sample_hvs.
Proof.
  destruct (new_hvs_inv [x63] 5 three_vals) as (hvs & E & Hi); [done|apply three_vals_wf|done|].
  unfold sample_hvs. by rewrite E.
Qed.

Lemma HVS_AddVote_total_witness :
  ∃ hvs' added err, HVS_AddVote sample_hvs (sample_vote PrevoteType x01 2 x03) [x0a] = Ret (hvs', added, err) ∧
    hvs_inv hvs'.
Proof.
  destruct (HVS_AddVote_total sample_hvs (sample_vote PrevoteType x01 2 x03) [x0a] sample_hvs_inv)
    as (hvs' & added & err & E & Hinv & _); [apply sample_vote_ok|reflexivity|reflexivity|].
  exists hvs', added, err. split; [exact E|exact Hinv].
Defined.

Lemma SetRound_ok_witness : ∃ hvs', SetRound sample_hvs 3 = Ret hvs' ∧ hvs_inv hvs'.
Proof.
  destruct (SetRound_ok sample_hvs 3 sample_hvs_inv) as (hvs' & E & Hinv & _); [vm_compute; reflexivity|].
  exists hvs'. split; [exact E|exact Hinv].
Defined.

Lemma POLInfo_exact_witness : ∃ r b, POLInfo sample_hvs = Ret (r, b) ∧ (r = -1 ∨ 0 ≤ r).
Proof.
  destruct (POLInfo_exact sample_hvs sample_hvs_inv) as (r & b & E & _ & H).
  exists r, b. split; [exact E|]. destruct H as [[H _]|[H _]]; [left; exact H|right; apply H].
Defined.

End Samples.
