(* ===== verification/PartSet.v ===== *)
(** * types/part_set.go: blocks cut into parts

    A block travels as parts of a fixed size, each with a Merkle proof against the
    hash in the part-set header. [*Part] is [option Part]; the reader's state is
    the index of the current part and what is left of it. *)

From Stdlib Require Import ZArith Lia List Bool Strings.Byte.
From stdpp Require Import base list sets.
From S2P Require Import Prelude BitArray Merkle Types.
Local Open Scope Z_scope.

Definition BlockPartSizeBytes : Z := 655360.

Record Part := mkPart { part_Index : Z; part_Bytes : bytes; part_Proof : SimpleProof }.

Inductive part_error := ErrPartNegativeIndex | ErrPartTooBig.

Definition Part_ValidateBasic (part : Part) : option part_error :=
  if part_Index part <? 0 then Some ErrPartNegativeIndex
  else if BlockPartSizeBytes <? zlen (part_Bytes part) then Some ErrPartTooBig
  else None.

Record PartSet := mkPartSet {
  ps_total : Z;
  ps_hash : bytes;
  ps_parts : list (option Part);
  ps_partsBitArray : option BitArray;
  ps_count : Z
}.

Inductive partset_error := ErrPartSetUnexpectedIndex | ErrPartSetInvalidProof.

(** [data[lo:hi]]. *)
Definition slice_range (data : bytes) (lo hi : Z) : outcome bytes :=
  if (0 <=? lo) && (lo <=? hi) && (hi <=? zlen data)
  then Ret (take (Z.to_nat (hi - lo)) (drop (Z.to_nat lo) data))
  else Panic.

(** [make([]T, n)]: panics on a negative size. *)
Definition make_slice {A} (n : Z) (x : A) : outcome (list A) :=
  if n <? 0 then Panic else Ret (replicate (Z.to_nat n) x).

Section WithHash.
Context (Sum : bytes → bytes).

(** The chunk at index [i] of the first loop of [NewPartSetFromData]. *)
Definition chunk (data : bytes) (partSize : Z) (i : nat) : outcome bytes :=
  slice_range data (wrap64 (Z.of_nat i * partSize))
    (Z.min (zlen data) (wrap64 ((Z.of_nat i + 1) * partSize))).

Definition NewPartSetFromData (data : bytes) (partSize : Z) : outcome PartSet :=
  if partSize =? 0 then Panic
  else
    let total := wrap64 (wrap64 (zlen data + partSize) - 1) ÷ partSize in
    _ ← make_slice total tt;
    '(partsBytes, partsBitArray) ← for_range (Z.to_nat total) 0
      (λ i acc,
        c ← chunk data partSize i;
        '(ba, _) ← SetIndex (snd acc) (Z.of_nat i) true;
        Ret (fst acc ++ [c], ba))
      ([], NewBitArray_len total);
    '(root, proofs) ← SimpleProofsFromByteSlices Sum partsBytes;
    let parts := imap (λ i cp, Some (mkPart (Z.of_nat i) (fst cp) (snd cp))) (zip partsBytes proofs) in
    Ret (mkPartSet total root parts partsBitArray total).

Definition NewPartSetFromHeader (header : PartSetHeader) : outcome PartSet :=
  parts ← make_slice (psh_Total header) None;
  Ret (mkPartSet (psh_Total header) (psh_Hash header) parts (NewBitArray_len (psh_Total header)) 0).

Definition PartSet_Header (ps : option PartSet) : PartSetHeader :=
  match ps with
  | None => mkPartSetHeader 0 []
  | Some ps => mkPartSetHeader (ps_total ps) (ps_hash ps)
  end.

Definition HasHeader (ps : option PartSet) (header : PartSetHeader) : bool :=
  match ps with
  | None => false
  | Some _ => PartSetHeader_Equals (PartSet_Header ps) header
  end.

Definition PartSet_BitArray (ps : PartSet) : option BitArray := BitArray.Copy (ps_partsBitArray ps).

Definition PartSet_Hash (ps : option PartSet) : bytes :=
  match ps with None => [] | Some ps => ps_hash ps end.

Definition PartSet_HashesTo (ps : option PartSet) (hash : bytes) : bool :=
  match ps with None => false | Some ps => bytes_equal (ps_hash ps) hash end.

Definition PartSet_Count (ps : option PartSet) : Z :=
  match ps with None => 0 | Some ps => ps_count ps end.

Definition PartSet_Total (ps : option PartSet) : Z :=
  match ps with None => 0 | Some ps => ps_total ps end.

Definition AddPart (ps : option PartSet) (part : Part) :
    outcome (option PartSet * bool * option partset_error) :=
  match ps with
  | None => Ret (None, false, None)
  | Some ps =>
      if ps_total ps <=? part_Index part then Ret (Some ps, false, Some ErrPartSetUnexpectedIndex)
      else
        old ← slice_get (ps_parts ps) (part_Index part);
        match old with
        | Some _ => Ret (Some ps, false, None)
        | None =>
            match Verify Sum (part_Proof part) (ps_hash ps) (part_Bytes part) with
            | Some _ => Ret (Some ps, false, Some ErrPartSetInvalidProof)
            | None =>
                parts ← slice_set (ps_parts ps) (part_Index part) (Some part);
                '(ba, _) ← SetIndex (ps_partsBitArray ps) (part_Index part) true;
                Ret (Some (mkPartSet (ps_total ps) (ps_hash ps) parts ba (ps_count ps + 1)), true, None)
            end
        end
  end.

End WithHash.

Definition GetPart (ps : PartSet) (index : Z) : outcome (option Part) := slice_get (ps_parts ps) index.

Definition IsComplete (ps : PartSet) : bool := ps_count ps =? ps_total ps.

Record PartSetReader := mkPartSetReader {
  psr_i : Z;
  psr_parts : list (option Part);
  psr_reader : bytes
}.

(** [parts[i].Bytes]: panics on an index out of range and on a nil part. *)
Definition part_bytes_at (parts : list (option Part)) (i : Z) : outcome bytes :=
  p ← slice_get parts i;
  part_Bytes <$> or_panic p.

Definition NewPartSetReader (parts : list (option Part)) : outcome PartSetReader :=
  b ← part_bytes_at parts 0;
  Ret (mkPartSetReader 0 parts b).

Definition GetReader (ps : PartSet) : outcome PartSetReader :=
  if IsComplete ps then NewPartSetReader (ps_parts ps) else Panic.

(** [Read] into a buffer of [n] bytes: the bytes read, whether [io.EOF] is
    returned, and the reader. Every second call at most moves on to the next part, so
    [fuel] of two per part left and two more is enough ([None] is never reached). *)
Fixpoint read_loop (fuel n : nat) (psr : PartSetReader) : outcome (option (bytes * bool * PartSetReader)) :=
  match fuel with
  | O => Ret None
  | S fuel' =>
      let readerLen := length (psr_reader psr) in
      if (n <=? readerLen)%nat then
        match psr_reader psr with
        | [] => Ret (Some ([], true, psr))
        | rest => Ret (Some (take n rest, false, mkPartSetReader (psr_i psr) (psr_parts psr) (drop n rest)))
        end
      else if (0 <? readerLen)%nat then
        r ← read_loop fuel' readerLen psr;
        match r with
        | None => Ret None
        | Some (b1, true, psr1) => Ret (Some (b1, true, psr1))
        | Some (b1, false, psr1) =>
            r ← read_loop fuel' (n - readerLen) psr1;
            match r with
            | None => Ret None
            | Some (b2, eof, psr2) => Ret (Some (b1 ++ b2, eof, psr2))
            end
        end
      else
        let i := psr_i psr + 1 in
        if zlen (psr_parts psr) <=? i
        then Ret (Some ([], true, mkPartSetReader i (psr_parts psr) (psr_reader psr)))
        else
          b ← part_bytes_at (psr_parts psr) i;
          read_loop fuel' n (mkPartSetReader i (psr_parts psr) b)
  end.

Definition Read (n : nat) (psr : PartSetReader) : outcome (option (bytes * bool * PartSetReader)) :=
  read_loop (2 * Z.to_nat (zlen (psr_parts psr) - psr_i psr) + 2) n psr.

(** ** Reading *)

(** Every part is there and the index is not negative. *)
Definition reader_ok (psr : PartSetReader) : Prop :=
  0 ≤ psr_i psr ∧ Forall is_Some (psr_parts psr).

Definition bytes_of (p : option Part) : bytes := match p with Some p => part_Bytes p | None => [] end.

(** What is left to read. *)
Definition content (psr : PartSetReader) : bytes :=
  psr_reader psr ++ mjoin (bytes_of <$> drop (Z.to_nat (psr_i psr + 1)) (psr_parts psr)).

Lemma part_bytes_at_ok parts i :
  Forall is_Some parts → 0 ≤ i < zlen parts →
  ∃ p, parts !! Z.to_nat i = Some p ∧ part_bytes_at parts i = Ret (bytes_of p).
Proof.
  intros Hf Hi. destruct (slice_lookup_is_Some parts i) as [_ H]. destruct (H Hi) as [p Hp].
  exists p. pose proof Hp as [_ Hl]%slice_lookup_Some. split; [done|].
  unfold part_bytes_at, slice_get. rewrite Hp. cbn [or_panic mbind outcome_bind].
  eapply Forall_lookup_1 in Hf; [|exact Hl]. destruct Hf as [q ->]. done.
Qed.

(** Steps a read may take from a state of the reader. *)
Definition read_need (psr : PartSetReader) : nat :=
  2 * Z.to_nat (zlen (psr_parts psr) - psr_i psr - 1) + (if psr_reader psr then 1 else 2).

Lemma read_loop_ok fuel n psr :
  (0 < n)%nat → reader_ok psr → (read_need psr ≤ fuel)%nat →
  ∃ psr', read_loop fuel n psr =
      Ret (Some (take n (content psr), bool_decide (length (content psr) < n)%nat, psr')) ∧
    reader_ok psr' ∧ content psr' = drop n (content psr).
Proof.
  revert n psr. induction fuel as [|fuel IH]; intros n psr Hn [Hi Hf] Hfuel.
  { unfold read_need in Hfuel. destruct (psr_reader psr); lia. }
  cbn [read_loop]. destruct psr as [i parts rest]. unfold content, read_need in *. cbn in *.
  destruct (Nat.leb_spec n (length rest)) as [Hle|Hgt].
  - destruct rest as [|b rest']; [simpl in Hle; lia|]. set (rest := b :: rest') in *.
    exists (mkPartSetReader i parts (drop n rest)). split; [|split; [split; [exact Hi|exact Hf]|]].
    + rewrite bool_decide_eq_false_2 by (rewrite length_app; lia). by rewrite take_app_le.
    + cbn [psr_reader psr_i psr_parts]. by rewrite (drop_app_le rest).
  - destruct (Nat.ltb_spec 0 (length rest)) as [Hpos|Hz].
    + destruct rest as [|b rest']; [simpl in Hpos; lia|]. set (rest := b :: rest') in *.
      destruct fuel as [|fuel]; [lia|].
      assert (read_loop (S fuel) (length rest) (mkPartSetReader i parts rest) =
        Ret (Some (rest, false, mkPartSetReader i parts []))) as ->.
      { cbn [read_loop psr_reader psr_i psr_parts]. rewrite Nat.leb_refl. unfold rest.
        by rewrite firstn_all, skipn_all. }
      cbn [mbind outcome_bind].
      destruct (IH (n - length rest)%nat (mkPartSetReader i parts [])) as (psr' & -> & Hok & Hc); [lia|done|cbn; lia|].
      cbn [mbind outcome_bind]. exists psr'.       split; [|split; [exact Hok|]].
      * cbn [psr_reader psr_i psr_parts app]. rewrite (take_app_ge rest) by lia. do 4 f_equal.
        apply bool_decide_ext. rewrite (length_app rest). lia.
      * rewrite (drop_app_ge rest) by lia. exact Hc.
    + destruct rest as [|b rest']; [|simpl in Hz; lia]. cbn [app].
      destruct (Z.leb_spec (zlen parts) (i + 1)) as [Hend|Hmore].
      * exists (mkPartSetReader (i + 1) parts []). rewrite skipn_all2 by (unfold zlen in *; lia). cbn.
        split; [|split; [split; [cbn; lia|exact Hf]|]].
        -- rewrite bool_decide_eq_true_2 by lia. by destruct n.
        -- cbn. rewrite skipn_all2 by (unfold zlen in *; lia). cbn. by destruct n.
      * destruct (part_bytes_at_ok parts (i + 1) Hf ltac:(lia)) as (p & Hp & ->). cbn [mbind outcome_bind].
        destruct (IH n (mkPartSetReader (i + 1) parts (bytes_of p))) as (psr' & -> & Hok & Hc);
          [done|split; [cbn; lia|done]|cbn; destruct (bytes_of p); lia|].
        cbn in Hc |- *.
        rewrite (drop_S parts p _ Hp), fmap_cons. cbn [mjoin list_join].
        replace (S (Z.to_nat (i + 1))) with (Z.to_nat (i + 1 + 1)) by lia.
        exists psr'. split; [done|split; [exact Hok|exact Hc]].
Qed.

(** ** Cutting data into chunks *)

(** Piece [i] of size [k]; the last one may be shorter. *)
Definition piece (k : nat) (data : bytes) (i : nat) : bytes := take k (drop (i * k) data).

Definition pieces (k n : nat) (data : bytes) : list bytes := piece k data <$> seq 0 n.

Lemma pieces_join k n data : (length data ≤ n * k)%nat → mjoin (pieces k n data) = data.
Proof.
  assert (∀ m s, (s * k + m * k ≤ n * k)%nat → (length data ≤ (s + m) * k)%nat →
    mjoin (piece k data <$> seq s m) = drop (s * k) data) as H.
  { induction m as [|m IH]; intros s Hs Hl; csimpl.
    - rewrite skipn_all2; [done|lia].
    - rewrite (IH (S s)) by lia. unfold piece. cbn [Nat.mul]. rewrite Nat.add_comm, <-drop_drop.
      apply take_drop. }
  intros Hl. unfold pieces. rewrite (H n 0%nat); [done|lia|done].
Qed.

Lemma pieces_lookup k n data i : (i < n)%nat → pieces k n data !! i = Some (piece k data i).
Proof. intros Hi. unfold pieces. rewrite list_lookup_fmap, lookup_seq_lt by done. done. Qed.

Lemma pieces_nonempty k n data : (0 < n)%nat → pieces k n data ≠ [].
Proof. intros Hn. unfold pieces. by destruct n; [lia|]. Qed.

(** The number of parts. *)
Definition parts_total (data : bytes) (partSize : Z) : Z := (zlen data + partSize - 1) / partSize.

Section Cutting.
Context (data : bytes) (partSize : Z).
Context (Hsize : 0 < partSize) (Hdata : data ≠ []) (Hfit : zlen data + partSize ≤ MaxInt64).

Let n := Z.to_nat (parts_total data partSize).

Lemma data_pos : 0 < zlen data.
Proof. clear - Hdata. unfold zlen. destruct data; [done|simpl; lia]. Qed.

Lemma parts_total_pos : 0 < parts_total data partSize.
Proof. pose proof data_pos. apply Z.div_str_pos. lia. Qed.

Lemma parts_total_bounds :
  parts_total data partSize * partSize ≤ zlen data + partSize - 1 ∧
  zlen data ≤ parts_total data partSize * partSize.
Proof.
  unfold parts_total. pose proof (Z.div_mod (zlen data + partSize - 1) partSize ltac:(lia)).
  pose proof (Z.mod_pos_bound (zlen data + partSize - 1) partSize ltac:(lia)). nia.
Qed.

Lemma chunk_ok i : (i < n)%nat → chunk data partSize i = Ret (piece (Z.to_nat partSize) data i).
Proof.
  intros Hi. unfold n in Hi. pose proof parts_total_bounds. pose proof data_pos.
  assert (0 ≤ Z.of_nat i * partSize) by nia.
  assert ((Z.of_nat i + 1) * partSize ≤ zlen data + partSize - 1) by nia.
  unfold chunk. rewrite !wrap64_id by (unfold in_int64, MinInt64 in *; lia).
  unfold slice_range. rewrite (proj2 (Z.leb_le 0 _)), (proj2 (Z.leb_le _ _)), (proj2 (Z.leb_le _ _)) by lia.
  cbn [andb]. f_equal. unfold piece. rewrite Z2Nat.inj_mul, Nat2Z.id by lia.
  destruct (decide (zlen data ≤ (Z.of_nat i + 1) * partSize)) as [Hl|Hl].
  - rewrite Z.min_l by done. rewrite !firstn_all2; [done|rewrite length_drop..];
      unfold zlen in *; pose proof (Z2Nat.inj_mul (Z.of_nat i) partSize); lia.
  - rewrite Z.min_r by lia. f_equal. lia.
Qed.

(** A bit array of [total] bits with the first [i] set. *)
Definition prefix_bits (total : Z) (i : nat) (ba : option BitArray) : Prop :=
  ∃ b, ba = Some b ∧ BitArray.wf b ∧ Bits b = total ∧
    ∀ j, 0 ≤ j → bit b j = bool_decide (j < Z.of_nat i).

Lemma cut_loop_ok m s acc ba :
  (s + m ≤ n)%nat → prefix_bits (parts_total data partSize) s ba →
  ∃ ba', for_range m s (λ i acc,
      c ← chunk data partSize i;
      '(ba, _) ← SetIndex (snd acc) (Z.of_nat i) true;
      Ret (fst acc ++ [c], ba)) (acc, ba) =
    Ret (acc ++ (piece (Z.to_nat partSize) data <$> seq s m), ba') ∧
    prefix_bits (parts_total data partSize) (s + m) ba'.
Proof.
  revert s acc ba. induction m as [|m IH]; intros s acc ba Hs Hb; cbn [for_range].
  { exists ba. rewrite app_nil_r, Nat.add_0_r. done. }
  rewrite chunk_ok by lia. cbn [mbind outcome_bind].
  destruct Hb as (b & -> & Hwf & HB & Hbit).
  destruct (setIndex_spec b (Z.of_nat s) true Hwf) as (b' & E & Hwf' & HB' & Hbit'); [unfold n in *; lia|].
  cbn [snd fst SetIndex]. rewrite E. cbn [mbind outcome_bind].
  destruct (IH (S s) (acc ++ [piece (Z.to_nat partSize) data s]) (Some b')) as (ba' & E' & Hb'); [lia| |].
  { exists b'. split_and!; [done|done|congruence|]. intros j Hj. rewrite Hbit' by done.
    destruct (Z.eqb_spec j (Z.of_nat s)) as [->|Hne].
    - symmetry. apply bool_decide_eq_true_2. lia.
    - rewrite Hbit by done. apply bool_decide_ext. lia. }
  exists ba'. split; [|by rewrite Nat.add_succ_r]. rewrite E'. csimpl. by rewrite <-app_assoc.
Qed.

End Cutting.

(** ** The invariant of a part set *)

Section Invariant.
Context (Sum : bytes → bytes).

Definition filled (p : option Part) : Z := match p with Some _ => 1 | None => 0 end.

(** Slots, count and bit array agree, and every stored part has the index of
    its slot and a proof against the hash. *)
Record ps_inv (ps : PartSet) : Prop := {
  pi_len : zlen (ps_parts ps) = ps_total ps;
  pi_count : ps_count ps = sumZ filled (ps_parts ps);
  pi_ba : 0 < ps_total ps → ∃ b, ps_partsBitArray ps = Some b ∧ BitArray.wf b ∧ Bits b = ps_total ps ∧
    ∀ i o, ps_parts ps !! i = Some o → bit b (Z.of_nat i) = bool_decide (is_Some o);
  pi_part i p : ps_parts ps !! i = Some (Some p) →
    part_Index p = Z.of_nat i ∧ Verify Sum (part_Proof p) (ps_hash ps) (part_Bytes p) = None
}.

Lemma filled_bounds l : 0 ≤ sumZ filled l ≤ zlen l.
Proof.
  induction l as [|[p|] l IH]; [done| |]; rewrite sumZ_cons; unfold zlen in *; cbn [filled length]; lia.
Qed.

Lemma filled_all l : sumZ filled l = zlen l ↔ Forall is_Some l.
Proof.
  induction l as [|o l IH]; [by split|]. rewrite sumZ_cons. pose proof (filled_bounds l).
  unfold zlen in *. destruct o as [p|]; cbn [filled length].
  - rewrite Forall_cons, <-IH. split; [intros; split; [by eexists|lia]|intros [_ ?]; lia].
  - split; [lia|]. by intros [[]%is_Some_None _]%Forall_cons.
Qed.

(** A set is complete exactly when no part is missing. *)
Lemma IsComplete_iff ps : ps_inv ps → IsComplete ps = true ↔ Forall is_Some (ps_parts ps).
Proof.
  intros Hi. unfold IsComplete. rewrite Z.eqb_eq, (pi_count _ Hi), <-(pi_len _ Hi). apply filled_all.
Qed.

Lemma from_header_ok header :
  0 ≤ psh_Total header →
  ∃ ps, NewPartSetFromHeader header = Ret ps ∧ ps_inv ps ∧ ps_total ps = psh_Total header ∧
    ps_hash ps = psh_Hash header ∧ ps_parts ps = replicate (Z.to_nat (psh_Total header)) None.
Proof.
  intros Ht. unfold NewPartSetFromHeader, make_slice. rewrite (proj2 (Z.ltb_ge _ _)) by done.
  cbn [mbind outcome_bind]. eexists. split; [done|]. split; [|done]. split; cbn.
  - unfold zlen. rewrite length_replicate. lia.
  - induction (Z.to_nat (psh_Total header)) as [|m IH]; [done|]. by rewrite replicate_S, sumZ_cons, <-IH.
  - intros Hp. destruct (NewBitArray_len_spec _ Hp) as (b & -> & Hwf & _ & HB & Hz). exists b.
    split_and!; [done..|]. intros i o [-> _]%lookup_replicate. by rewrite Hz by lia.
  - by intros i p [? _]%lookup_replicate.
Qed.

(** What [AddPart] does on each branch. *)
Inductive add_result (ps : PartSet) (part : Part) : PartSet → bool → option partset_error → Prop :=
| add_bad_index : ps_total ps ≤ part_Index part →
    add_result ps part ps false (Some ErrPartSetUnexpectedIndex)
| add_known p : ps_parts ps !! Z.to_nat (part_Index part) = Some (Some p) →
    add_result ps part ps false None
| add_bad_proof : ps_parts ps !! Z.to_nat (part_Index part) = Some None →
    Verify Sum (part_Proof part) (ps_hash ps) (part_Bytes part) ≠ None →
    add_result ps part ps false (Some ErrPartSetInvalidProof)
| add_new ba : ps_parts ps !! Z.to_nat (part_Index part) = Some None →
    Verify Sum (part_Proof part) (ps_hash ps) (part_Bytes part) = None →
    add_result ps part
      (mkPartSet (ps_total ps) (ps_hash ps)
         (<[Z.to_nat (part_Index part) := Some part]> (ps_parts ps)) ba (ps_count ps + 1)) true None.

Lemma add_part_ok ps part :
  ps_inv ps → 0 ≤ part_Index part →
  ∃ ps' added err, AddPart Sum (Some ps) part = Ret (Some ps', added, err) ∧ ps_inv ps' ∧
    add_result ps part ps' added err.
Proof.
  intros Hinv Hpos. unfold AddPart. destruct (Z.leb_spec (ps_total ps) (part_Index part)) as [Hge|Hlt].
  { exists ps, false, (Some ErrPartSetUnexpectedIndex). split_and!; [done..|]. by constructor. }
  set (i := Z.to_nat (part_Index part)). assert (part_Index part = Z.of_nat i) as Ei by lia.
  destruct (lookup_lt_is_Some_2 (ps_parts ps) i) as [o Ho].
  { pose proof (pi_len _ Hinv). unfold zlen in *. lia. }
  rewrite Ei. rewrite (slice_get_ok _ _ _ Ho). cbn [mbind outcome_bind]. destruct o as [p|].
  { exists ps, false, None. split_and!; [done..|]. by apply add_known with p. }
  destruct (Verify _ _ _ _) as [e|] eqn:EV.
  { exists ps, false, (Some ErrPartSetInvalidProof). split_and!; [done..|].
    apply add_bad_proof; [done|by rewrite EV]. }
  rewrite (slice_set_ok _ _ _ _ Ho). cbn [mbind outcome_bind].
  destruct (pi_ba _ Hinv) as (b & Hb & Hwf & HB & Hbit); [lia|].
  destruct (setIndex_spec b (Z.of_nat i) true Hwf) as (b' & E & Hwf' & HB' & Hbit'); [lia|].
  rewrite Hb. cbn [SetIndex]. rewrite E. cbn [mbind outcome_bind].
  eexists _, true, None. split; [done|]. split; [|by apply add_new]. split; cbn.
  - unfold zlen. rewrite length_insert. apply Hinv.
  - rewrite (sumZ_insert _ _ i None) by done. rewrite (pi_count _ Hinv). cbn [filled]. lia.
  - intros _. exists b'. split_and!; [done|done|congruence|]. intros j o' Hj. rewrite Hbit' by lia.
    destruct (Z.eqb_spec (Z.of_nat j) (Z.of_nat i)) as [Eji|Nji].
    + apply Nat2Z.inj in Eji as ->. rewrite list_lookup_insert_eq in Hj by (by eapply lookup_lt_Some).
      by injection Hj as <-.
    + rewrite list_lookup_insert_ne in Hj by lia. by apply Hbit.
  - intros j p Hj. destruct (decide (j = i)) as [->|Hne].
    + rewrite list_lookup_insert_eq in Hj by (by eapply lookup_lt_Some). by injection Hj as <-.
    + rewrite list_lookup_insert_ne in Hj by done. by apply (pi_part _ Hinv).
Qed.

(** ** Sets built from data *)

Record full_of (data : bytes) (partSize : Z) (ps : PartSet) : Prop := {
  fo_inv : ps_inv ps;
  fo_total : ps_total ps = parts_total data partSize;
  fo_hash : ps_hash ps = SimpleHashFromByteSlices Sum
    (pieces (Z.to_nat partSize) (Z.to_nat (parts_total data partSize)) data);
  fo_parts i : (i < Z.to_nat (parts_total data partSize))%nat →
    ∃ sp, ps_parts ps !! i = Some (Some (mkPart (Z.of_nat i) (piece (Z.to_nat partSize) data i) sp)) ∧
      Index sp = Z.of_nat i ∧ Total sp = parts_total data partSize
}.

Lemma from_data_ok data partSize :
  0 < partSize → data ≠ [] → zlen data + partSize ≤ MaxInt64 →
  ∃ ps, NewPartSetFromData Sum data partSize = Ret ps ∧ full_of data partSize ps ∧ IsComplete ps = true.
Proof.
  intros Hsize Hdata Hfit. pose proof (parts_total_pos data partSize Hsize Hdata) as Hpos.
  pose proof (data_pos data Hdata) as Hd. unfold NewPartSetFromData.
  rewrite (proj2 (Z.eqb_neq _ _)) by lia.
  rewrite !wrap64_id by (rewrite ?wrap64_id; unfold in_int64, MinInt64; lia).
  rewrite Z.quot_div_nonneg by lia. fold (parts_total data partSize).
  set (t := parts_total data partSize) in *. set (n := Z.to_nat t). unfold make_slice.
  rewrite (proj2 (Z.ltb_ge _ _)) by lia. cbn [mbind outcome_bind].
  destruct (NewBitArray_len_spec t Hpos) as (b & Eb & Hwf & _ & HB & Hz).
  destruct (cut_loop_ok data partSize Hsize Hdata Hfit n 0 [] (NewBitArray_len t)) as (ba' & -> & b' & -> & Hwf' & HB' & Hbit').
  { done. } { exists b. split_and!; [done..|]. intros j Hj. rewrite Hz by done. symmetry. apply bool_decide_eq_false_2. lia. }
  cbn [mbind outcome_bind app Nat.add]. change (piece (Z.to_nat partSize) data <$> seq 0 n)
    with (pieces (Z.to_nat partSize) n data). set (items := pieces _ n data).
  assert (length items = n) as Hlen by (unfold items, pieces; by rewrite length_fmap, length_seq).
  destruct (simple_proofs_ok Sum items) as (proofs & -> & Hpl & Hproofs); [apply pieces_nonempty; lia|].
  cbn [mbind outcome_bind]. eexists. split; [done|].
  assert (∀ i, (i < n)%nat → ∃ sp, imap (λ i cp, Some (mkPart (Z.of_nat i) cp.1 cp.2)) (zip items proofs) !! i =
      Some (Some (mkPart (Z.of_nat i) (piece (Z.to_nat partSize) data i) sp)) ∧ Index sp = Z.of_nat i ∧
      Total sp = t ∧ Verify Sum sp (SimpleHashFromByteSlices Sum items) (piece (Z.to_nat partSize) data i) = None) as Hi.
  { intros i Hi. pose proof (pieces_lookup (Z.to_nat partSize) n data i Hi) as Ep. fold items in Ep.
    destruct (Hproofs i _ Ep) as (sp & Esp & HI & HT & HV). exists sp. rewrite list_lookup_imap, lookup_zip_with, Ep.
    cbn. rewrite Esp. cbn. split_and!; [done|done| |done]. rewrite HT. unfold zlen. lia. }
  assert (length (imap (λ i cp, Some (mkPart (Z.of_nat i) cp.1 cp.2)) (zip items proofs)) = n) as Hl.
  { rewrite length_imap, length_zip_with. lia. }
  set (parts := imap _ _) in *.
  assert (Forall is_Some parts) as Hall.
  { apply Forall_lookup. intros i o Ho. destruct (Hi i) as (sp & E & _); [rewrite <-Hl; by eapply lookup_lt_Some|].
    rewrite Ho in E. injection E as ->. by eexists. }
  assert (zlen parts = t) as Hzl by (unfold zlen; lia).
  split; [|unfold IsComplete; cbn; apply Z.eqb_refl]. split; cbn; [split; cbn|done|done|].
  - done.
  - rewrite <-Hzl. symmetry. by apply filled_all.
  - intros _. exists b'. split_and!; [done..|]. intros i o Ho. rewrite Hbit' by lia.
    pose proof (lookup_lt_Some _ _ _ Ho). rewrite !bool_decide_eq_true_2; [done| |lia].
    by eapply Forall_lookup_1.
  - intros i p Hp. destruct (Hi i) as (sp & E & _ & _ & HV); [rewrite <-Hl; by eapply lookup_lt_Some|].
    rewrite Hp in E. injection E as ->. done.
  - intros i Hin. destruct (Hi i Hin) as (sp & E & HI & HT & _). exists sp. done.
Qed.

(** Adds parts one after the other, as they arrive. *)
Definition add_all (ps : PartSet) (l : list Part) : outcome (option PartSet) :=
  foldM (λ ps part, '(ps', _, _) ← AddPart Sum ps part; Ret ps') (Some ps) l.

(** The slots of [recv] that are filled hold the parts of [full]. *)
Definition agrees (full recv : PartSet) : Prop :=
  ps_inv recv ∧ ps_total recv = ps_total full ∧ ps_hash recv = ps_hash full ∧
  ∀ i p, ps_parts recv !! i = Some (Some p) → ps_parts full !! i = Some (Some p).

Lemma add_genuine full recv i part :
  ps_inv full → agrees full recv → ps_parts full !! i = Some (Some part) →
  ∃ recv' added, AddPart Sum (Some recv) part = Ret (Some recv', added, None) ∧ agrees full recv' ∧
    ps_parts recv' !! i = Some (Some part) ∧
    ∀ j, (∃ p, ps_parts recv !! j = Some (Some p)) → ∃ p, ps_parts recv' !! j = Some (Some p).
Proof.
  intros Hfull (Hinv & Ht & Hh & Hsub) Hp. destruct (pi_part _ Hfull i part Hp) as [Hidx HV].
  destruct (add_part_ok recv part Hinv ltac:(lia)) as (recv' & added & err & E & Hinv' & Hres).
  assert (Z.to_nat (part_Index part) = i) as Hn by lia.
  pose proof (zlen_lookup _ _ _ Hp) as Hb. rewrite (pi_len _ Hfull) in Hb.
  exists recv', added. destruct Hres as [Hbad|q Hq|Hno HV'|ba Hno _]; rewrite ?Hn in *.
  - lia.
  - split; [done|]. split; [done|]. split; [|done]. rewrite Hq. pose proof (Hsub _ _ Hq). congruence.
  - by rewrite Hh in HV'.
  - split; [done|]. assert (i < length (ps_parts recv))%nat by (by eapply lookup_lt_Some).
    split; [|split; cbn; [by apply list_lookup_insert_eq|]].
    + split; [done|]. split; [done|]. split; [done|]. cbn. intros j p Hj. destruct (decide (j = i)) as [->|].
      * rewrite list_lookup_insert_eq in Hj by done. congruence.
      * rewrite list_lookup_insert_ne in Hj by done. by apply Hsub.
    + intros j [p Hj]. destruct (decide (j = i)) as [->|].
      * exists part. by apply list_lookup_insert_eq.
      * exists p. by rewrite list_lookup_insert_ne.
Qed.

Lemma add_all_genuine full recv l :
  ps_inv full → agrees full recv → (∀ part, part ∈ l → Some part ∈ ps_parts full) →
  ∃ recv', add_all recv l = Ret (Some recv') ∧ agrees full recv' ∧
    ∀ i part, ps_parts full !! i = Some (Some part) →
      (∃ p, ps_parts recv !! i = Some (Some p)) ∨ part ∈ l → ps_parts recv' !! i = Some (Some part).
Proof.
  intros Hfull. revert recv. induction l as [|q l IH]; intros recv Hag Hin; unfold add_all; cbn [foldM].
  { exists recv. split; [done|]. split; [done|]. intros i part Hi [[p Hp]|[]%not_elem_of_nil].
    destruct Hag as (_ & _ & _ & Hsub). pose proof (Hsub _ _ Hp). congruence. }
  destruct (list_elem_of_lookup_1 _ _ (Hin q (list_elem_of_here _ _))) as [k Hk].
  destruct (add_genuine full recv k q Hfull Hag Hk) as (recv1 & added & -> & Hag1 & Hq & Hkeep).
  cbn [mbind outcome_bind]. destruct (IH recv1 Hag1) as (recv' & E & Hag' & Hall).
  { intros part Hp. apply Hin. set_solver. }
  exists recv'. split; [exact E|]. split; [done|]. intros i part Hi Hor. apply (Hall i part Hi).
  destruct Hor as [Hp|[->|Hp]%elem_of_cons]; [left; by apply Hkeep| |by right].
  left. destruct (pi_part _ Hfull _ _ Hi) as [H1 _]. destruct (pi_part _ Hfull _ _ Hk) as [H2 _].
  assert (i = k) as -> by lia. by exists q.
Qed.

(** The parts a set holds, in order. *)
Lemma reader_of_full data partSize ps full :
  0 < partSize → data ≠ [] → full_of data partSize full → agrees full ps →
  (∀ i part, ps_parts full !! i = Some (Some part) → ps_parts ps !! i = Some (Some part)) →
  IsComplete ps = true ∧ ∃ rd, GetReader ps = Ret rd ∧ reader_ok rd ∧ content rd = data.
Proof.
  intros Hsize Hdata [Hinv Ht Hh Hparts] (Hinv' & Ht' & _ & _) Hsame.
  pose proof (parts_total_pos data partSize Hsize Hdata) as Hpos.
  set (n := Z.to_nat (parts_total data partSize)) in *.
  assert (length (ps_parts ps) = n) as Hlen by (pose proof (pi_len _ Hinv'); unfold zlen in *; lia).
  assert (bytes_of <$> ps_parts ps = pieces (Z.to_nat partSize) n data) as Hb.
  { apply list_eq. intros i. rewrite list_lookup_fmap. destruct (decide (i < n)%nat) as [Hi|Hi].
    - destruct (Hparts i Hi) as (sp & E & _). apply Hsame in E. rewrite E, pieces_lookup by done. done.
    - rewrite !lookup_ge_None_2; [done| |lia]. unfold pieces. rewrite length_fmap, length_seq. lia. }
  assert (Forall is_Some (ps_parts ps)) as Hall.
  { apply Forall_lookup. intros i o Ho. destruct (Hparts i) as (sp & E & _);
      [rewrite <-Hlen; by eapply lookup_lt_Some|]. apply Hsame in E. rewrite Ho in E. injection E as ->. by eexists. }
  assert (IsComplete ps = true) as Hc by (by apply IsComplete_iff).
  split; [done|]. unfold GetReader. rewrite Hc. unfold NewPartSetReader.
  destruct (part_bytes_at_ok (ps_parts ps) 0 Hall) as (p & Hp & ->); [unfold zlen; lia|].
  cbn [mbind outcome_bind]. eexists. split; [done|]. split; [split; cbn; [lia|done]|].
  unfold content. cbn [psr_reader psr_i psr_parts].
  rewrite <-(pieces_join (Z.to_nat partSize) n data).
  - rewrite <-Hb. change (Z.to_nat (0 + 1)) with 1%nat. destruct (ps_parts ps) as [|p0 l]; [done|].
    cbn in Hp. injection Hp as ->. done.
  - pose proof (parts_total_bounds data partSize Hsize). unfold zlen, n in *. nia.
Qed.

(** Reading a complete part set streams its parts: with a non-empty buffer of [n]
    bytes, [Read] fills it with the next [n] bytes of what is left (all that is
    left if less), reports [io.EOF] exactly when fewer were left, and the reader
    moves on by what was read; it always terminates and does not panic. *)
Theorem Read_stream (n : nat) (psr : PartSetReader) :
  (0 < n)%nat → reader_ok psr →
  ∃ psr', Read n psr =
      Ret (Some (take n (content psr), bool_decide (length (content psr) < n)%nat, psr')) ∧
    reader_ok psr' ∧ content psr' = drop n (content psr).
Proof.
  intros Hn Hok. apply read_loop_ok; [done|done|]. unfold read_need. destruct Hok.
  destruct (psr_reader psr); lia.
Qed.

(** C32. Cutting a block into parts and reassembling it: for non-empty data and a positive
    part size, [NewPartSetFromData] gives a complete set; a set made from its
    header that is given its parts in any order, with repetitions, never panics,
    becomes complete when all were given, and its reader returns the data. *)
Theorem PartSet_roundtrip (data : bytes) (partSize : Z) (order : list Part) :
  0 < partSize → data ≠ [] → zlen data + partSize ≤ MaxInt64 →
  ∃ full recv, NewPartSetFromData Sum data partSize = Ret full ∧ IsComplete full = true ∧
    NewPartSetFromHeader (PartSet_Header (Some full)) = Ret recv ∧
    ((∀ part, part ∈ order ↔ Some part ∈ ps_parts full) →
      ∃ recv' rd rd', add_all recv order = Ret (Some recv') ∧ IsComplete recv' = true ∧
        GetReader recv' = Ret rd ∧ Read (length data) rd = Ret (Some (data, false, rd'))).
Proof.
  intros Hsize Hdata Hfit. destruct (from_data_ok data partSize Hsize Hdata Hfit) as (full & E & Hfull & Hc).
  pose proof (parts_total_pos data partSize Hsize Hdata).
  destruct (from_header_ok (PartSet_Header (Some full))) as (recv & Er & Hinv & Ht & Hh & Hp).
  { cbn. rewrite (fo_total _ _ _ Hfull). lia. }
  exists full, recv. split_and!; [done..|]. intros Hord.
  destruct (add_all_genuine full recv order (fo_inv _ _ _ Hfull)) as (recv' & Ea & Hag & Hall).
  { split; [done|]. split; [done|]. split; [done|]. intros i p. rewrite Hp. by intros [? _]%lookup_replicate. }
  { intros part. apply Hord. }
  destruct (reader_of_full data partSize recv' full Hsize Hdata Hfull Hag) as (Hc' & rd & Erd & Hok & Hcont).
  { intros i part Hi. apply (Hall i part Hi). right. apply Hord. by eapply list_elem_of_lookup_2. }
  destruct (read_loop_ok (2 * Z.to_nat (zlen (psr_parts rd) - psr_i rd) + 2) (length data) rd)
    as (rd' & Erd' & _ & _).
  { destruct data; [done|simpl; lia]. } { done. }
  { unfold read_need. destruct Hok. destruct (psr_reader rd); lia. }
  exists recv', rd, rd'. split_and!; [done..|]. unfold Read. rewrite Erd', Hcont.
  rewrite firstn_all, bool_decide_eq_false_2 by lia. done.
Qed.

(** [AddPart] of a part with a non-negative index never panics and keeps the
    invariant: the count is the number of stored parts, the bit array marks
    exactly those, and each has the index of its slot and a valid proof; a part
    is stored exactly when its slot exists and is empty and its proof verifies,
    and refused without a change otherwise. *)
Theorem AddPart_total (ps : PartSet) (part : Part) :
  ps_inv ps → 0 ≤ part_Index part →
  ∃ ps' added err, AddPart Sum (Some ps) part = Ret (Some ps', added, err) ∧ ps_inv ps' ∧
    add_result ps part ps' added err.
Proof. apply add_part_ok. Qed.

End Invariant.

Section Soundness.
Context (Sum : bytes → bytes) (Sum_length : ∀ x, length (Sum x) = 32%nat).

(** What a part set accepts comes from the data: a part that [AddPart] stores in
    a set with the header of [data] carries the bytes of one of the pieces of [data]
    (absent a hash collision), and of the piece at its own index when its proof's
    index and total say so. *)
Theorem AddPart_sound (data : bytes) (partSize : Z) (full ps ps' : PartSet) (part : Part) :
  0 < partSize → data ≠ [] → zlen data + partSize ≤ MaxInt64 →
  NewPartSetFromData Sum data partSize = Ret full →
  PartSet_Header (Some ps) = PartSet_Header (Some full) →
  let items := pieces (Z.to_nat partSize) (Z.to_nat (ps_total full)) data in
  no_collision Sum (tree_inputs Sum items) (proof_inputs Sum (part_Proof part) (part_Bytes part)) = true →
  AddPart Sum (Some ps) part = Ret (Some ps', true, None) →
  part_Bytes part ∈ items ∧
  (Total (part_Proof part) = ps_total full → Index (part_Proof part) = part_Index part →
   part_Bytes part = piece (Z.to_nat partSize) data (Z.to_nat (part_Index part))).
Proof.
  intros Hsize Hdata Hfit E Hhead items Hnc Ha.
  destruct (from_data_ok Sum data partSize Hsize Hdata Hfit) as (full' & E' & [_ Ht Hh _] & _).
  rewrite E in E'. injection E' as <-. injection Hhead as Ht' Hh'.
  pose proof (parts_total_pos data partSize Hsize Hdata).
  unfold AddPart in Ha. destruct (_ <=? _); [done|].
  apply bind_Ret in Ha as (o & Ho & Ha). destruct o; [done|].
  destruct (Verify _ _ _ _) eqn:EV; [done|]. rewrite Hh', Hh, <-Ht in EV. fold items in EV.
  assert (length items = Z.to_nat (ps_total full)) as Hl
    by (unfold items, pieces; by rewrite length_fmap, length_seq).
  destruct (verify_ok Sum Sum_length items (part_Proof part) (part_Bytes part)) as [Hin Hat].
  { apply pieces_nonempty. lia. } { exact Hnc. } { exact EV. }
  split; [done|]. intros HT HI. rewrite HI in Hat.
  assert (zlen items = ps_total full) as Hz by (unfold zlen; lia). rewrite Hz in Hat. specialize (Hat HT).
  apply slice_lookup_Some in Hat as [H0 Hl2]. unfold items in Hl2.
  rewrite pieces_lookup in Hl2; [congruence|]. rewrite <-Hl. by eapply lookup_lt_Some.
Qed.

End Soundness.

(** ** A part at the wrong index *)

Definition reindex (part : Part) (i : Z) : Part := mkPart i (part_Bytes part) (part_Proof part).

(** The index of a part is not bound to its proof: any genuine part of [data],
    relabelled with the index of any slot, is accepted by a fresh set with the
    header of [data] and stored at that slot. *)
Theorem AddPart_index_not_bound (Sum : bytes → bytes) (data : bytes) (partSize j : Z) (full : PartSet)
    (i : nat) (part : Part) :
  0 < partSize → data ≠ [] → zlen data + partSize ≤ MaxInt64 →
  NewPartSetFromData Sum data partSize = Ret full → ps_parts full !! i = Some (Some part) →
  0 ≤ j < ps_total full →
  ∃ recv recv', NewPartSetFromHeader (PartSet_Header (Some full)) = Ret recv ∧
    AddPart Sum (Some recv) (reindex part j) = Ret (Some recv', true, None) ∧
    GetPart recv' j = Ret (Some (reindex part j)).
Proof.
  intros Hsize Hdata Hfit E Hp Hj.
  destruct (from_data_ok Sum data partSize Hsize Hdata Hfit) as (full' & E' & [Hinv Ht Hh _] & _).
  rewrite E in E'. injection E' as <-. pose proof (parts_total_pos data partSize Hsize Hdata).
  destruct (from_header_ok Sum (PartSet_Header (Some full))) as (recv & Er & Hinv' & Ht' & Hh' & Hps); [cbn; lia|].
  destruct (add_part_ok Sum recv (reindex part j) Hinv') as (recv' & added & err & Ea & _ & Hres); [cbn; lia|].
  exists recv, recv'. split; [done|]. destruct (pi_part _ _ Hinv i part Hp) as [_ HV].
  assert (ps_parts recv !! Z.to_nat j = Some None) as Hno.
  { rewrite Hps. apply lookup_replicate. split; [done|]. cbn. lia. }
  inversion Hres as [Hbad| p Hq| H1 H2|ba H1 H2]; subst; cbn in *; try congruence; try lia.
  split; [exact Ea|]. unfold GetPart. cbn. apply or_panic_Ret, slice_lookup_Some. split; [lia|].
  apply list_lookup_insert_eq. by eapply lookup_lt_Some.
Qed.

(** ** Concrete runs *)

Definition sample_data : bytes := [x61; x62; x63; x64; x65].

Definition sample_set : PartSet :=
  match NewPartSetFromData pad32 sample_data 2 with
  | Ret ps => ps
  | Panic => mkPartSet 0 [] [] None 0
  end.

Definition sample_part (i : nat) : Part :=
  match ps_parts sample_set !! i with
  | Some (Some p) => p
  | _ => mkPart 0 [] (mkSimpleProof 0 0 None [])
  end.

Definition sample_empty : PartSet :=
  match NewPartSetFromHeader (PartSet_Header (Some sample_set)) with
  | Ret ps => ps
  | Panic => sample_set
  end.

Lemma sample_data_fits : zlen sample_data + 2 ≤ MaxInt64.
Proof. by vm_compute. Qed.

Lemma sample_set_eq : NewPartSetFromData pad32 sample_data 2 = Ret sample_set.
Proof. by vm_compute. Qed.

Lemma sample_empty_inv : ps_inv pad32 sample_empty.
Proof.
  destruct (from_header_ok pad32 (PartSet_Header (Some sample_set))) as (ps & E & Hinv & _); [by vm_compute|].
  unfold sample_empty. by rewrite E.
Qed.

Lemma sample_order part :
  part ∈ [sample_part 2; sample_part 0; sample_part 2; sample_part 1] ↔ Some part ∈ ps_parts sample_set.
Proof.
  assert (ps_parts sample_set = [Some (sample_part 0); Some (sample_part 1); Some (sample_part 2)]) as ->
    by (by vm_compute).
  generalize (sample_part 0) (sample_part 1) (sample_part 2). intros a b c.
  rewrite !elem_of_cons, !elem_of_nil. split.
  - intros [->|[->|[->|[->|[]]]]]; auto.
  - intros [[= ->]|[[= ->]|[[= ->]|[]]]]; auto.
Qed.

Lemma Read_stream_witness :
  ∃ psr', Read 4 (mkPartSetReader 0 (ps_parts sample_set) [x61; x62]) =
    Ret (Some ([x61; x62; x63; x64], false, psr')).
Proof.
  destruct (Read_stream 4 (mkPartSetReader 0 (ps_parts sample_set) [x61; x62])) as (psr' & E & _); [lia| |].
  { split; [vm_compute; discriminate|]. repeat constructor; by eexists. }
  exists psr'. exact E.
Defined.

Lemma PartSet_roundtrip_witness :
  ∃ recv' rd rd',
    add_all pad32 sample_empty [sample_part 2; sample_part 0; sample_part 2; sample_part 1] = Ret (Some recv') ∧
    GetReader recv' = Ret rd ∧ Read 5 rd = Ret (Some (sample_data, false, rd')).
Proof.
  destruct (PartSet_roundtrip pad32 sample_data 2 [sample_part 2; sample_part 0; sample_part 2; sample_part 1])
    as (full & recv & E & _ & Er & H); [lia|done|exact sample_data_fits|].
  rewrite sample_set_eq in E. injection E as <-.
  assert (recv = sample_empty) as -> by (unfold sample_empty; by rewrite Er).
  destruct H as (recv' & rd & rd' & Ea & _ & Eg & ERd).
  { exact sample_order. }
  exists recv', rd, rd'. split; [exact Ea|split; [exact Eg|exact ERd]].
Defined.

Lemma AddPart_total_witness :
  ∃ ps' added err, AddPart pad32 (Some sample_empty) (sample_part 1) = Ret (Some ps', added, err) ∧ ps_inv pad32 ps'.
Proof.
  destruct (AddPart_total pad32 sample_empty (sample_part 1) sample_empty_inv)
    as (ps' & added & err & E & Hinv & _); [by vm_compute|].
  exists ps', added, err. split; [exact E|exact Hinv].
Defined.

Definition sample_one : PartSet :=
  match AddPart pad32 (Some sample_empty) (sample_part 1) with
  | Ret (Some ps, _, _) => ps
  | _ => sample_empty
  end.

Lemma AddPart_sound_witness : part_Bytes (sample_part 1) = piece 2 sample_data 1.
Proof.
  apply (AddPart_sound pad32 pad32_length sample_data 2 sample_set sample_empty sample_one (sample_part 1));
    [lia|done|exact sample_data_fits|exact sample_set_eq|vm_compute; reflexivity..].
Defined.

Lemma AddPart_index_not_bound_witness :
  ∃ recv', AddPart pad32 (Some sample_empty) (reindex (sample_part 1) 0) = Ret (Some recv', true, None).
Proof.
  destruct (AddPart_index_not_bound pad32 sample_data 2 0 sample_set 1 (sample_part 1))
    as (recv & recv' & Er & Ea & _);
    [lia|done|exact sample_data_fits|exact sample_set_eq|vm_compute; reflexivity|vm_compute; split; [discriminate|reflexivity]|].
  exists recv'. assert (recv = sample_empty) as <- by (unfold sample_empty; rewrite Er; reflexivity). exact Ea.
Defined.
