(* ===== verification/PrivVal.v ===== *)
(** * privval/file.go: the file-backed signer and its double-sign protection

    A [FilePV] keeps the height, round and step it signed last, with the bytes
    and the signature, in memory and in a file. [disk] maps file paths to their
    contents; [cmn.Exit] ends the process and is a panic here; an empty path is
    the empty string. A write may fail ([write_ok] is [false]), which panics after
    the fields in memory were changed: what was in memory is then lost. *)

From Stdlib Require Import ZArith Lia List Bool Strings.Byte.
From stdpp Require Import base list gmap.
From S2P Require Import Prelude Types.
Local Open Scope Z_scope.

Definition stepNone : Z := 0.
Definition stepPropose : Z := 1.
Definition stepPrevote : Z := 2.
Definition stepPrecommit : Z := 3.

Definition voteToStep (vote : Vote) : outcome Z :=
  if vote_Type vote =? PrevoteType then Ret stepPrevote
  else if vote_Type vote =? PrecommitType then Ret stepPrecommit
  else Panic.

Record FilePVKey := mkFilePVKey {
  key_Address : bytes;
  key_PubKey : bytes;
  key_PrivKey : bytes;
  key_filePath : bytes
}.

(** A nil slice is [None]. *)
Record FilePVLastSignState := mkLastSignState {
  lss_Height : Z;
  lss_Round : Z;
  lss_Step : Z;
  lss_Signature : option bytes;
  lss_SignBytes : option bytes;
  lss_filePath : bytes
}.

Record FilePV := mkFilePV { pv_Key : FilePVKey; pv_LastSignState : FilePVLastSignState }.

Inductive pv_error :=
| ErrHeightRegression
| ErrRoundRegression
| ErrStepRegression
| ErrNoSignBytes
| ErrConflictingData
| ErrSign.

Definition CheckHRS (lss : FilePVLastSignState) (height round step : Z) : outcome (bool * option pv_error) :=
  if height <? lss_Height lss then Ret (false, Some ErrHeightRegression)
  else if lss_Height lss =? height then
    if round <? lss_Round lss then Ret (false, Some ErrRoundRegression)
    else if lss_Round lss =? round then
      if step <? lss_Step lss then Ret (false, Some ErrStepRegression)
      else if lss_Step lss =? step then
        match lss_SignBytes lss with
        | Some _ =>
            match lss_Signature lss with
            | None => Panic
            | Some _ => Ret (true, None)
            end
        | None => Ret (false, Some ErrNoSignBytes)
        end
      else Ret (false, None)
    else Ret (false, None)
  else Ret (false, None).

(** crypto.PrivKey at a key given by its bytes; signing may return an error. *)
Class Signer := {
  Sign : bytes → bytes → option bytes;
  PubKeyOf : bytes → bytes
}.

(** The decoders and the JSON encodings the signer uses. *)
Class PVCodec := {
  unmarshalVote : bytes → option CanonicalVote;
  unmarshalProposal : bytes → option CanonicalProposal;
  marshalVoteJSON : CanonicalVote → bytes;
  marshalKey : FilePVKey → bytes;
  unmarshalKey : bytes → option FilePVKey;
  marshalState : FilePVLastSignState → bytes;
  unmarshalState : bytes → option FilePVLastSignState
}.

Notation disk := (gmap bytes bytes).

(** The fields a file does not hold; empty slices are omitted from the JSON. *)
Definition stored (lss : FilePVLastSignState) : FilePVLastSignState :=
  mkLastSignState (lss_Height lss) (lss_Round lss) (lss_Step lss)
    (match lss_Signature lss with Some [] => None | s => s end)
    (match lss_SignBytes lss with Some [] => None | s => s end) [].

Section Signing.
Context `{Codec} `{Crypto} `{Signer} `{PVCodec}.

Definition save_file (d : disk) (write_ok : bool) (filePath content : bytes) : outcome disk :=
  if bytes_equal filePath [] then Panic
  else if write_ok then Ret (<[filePath := content]> d)
  else Panic.

Definition Key_Save (d : disk) (write_ok : bool) (pvKey : FilePVKey) : outcome disk :=
  save_file d write_ok (key_filePath pvKey) (marshalKey pvKey).

Definition State_Save (d : disk) (write_ok : bool) (lss : FilePVLastSignState) : outcome disk :=
  save_file d write_ok (lss_filePath lss) (marshalState lss).

Definition Save (d : disk) (write_ok : bool) (pv : FilePV) : outcome disk :=
  d ← Key_Save d write_ok (pv_Key pv);
  State_Save d write_ok (pv_LastSignState pv).

(** [privKey] is the key that was generated. *)
Definition GenFilePV (privKey keyFilePath stateFilePath : bytes) : FilePV :=
  mkFilePV
    (mkFilePVKey (PubKeyAddress (PubKeyOf privKey)) (PubKeyOf privKey) privKey keyFilePath)
    (mkLastSignState 0 0 stepNone None None stateFilePath).

Definition loadFilePV (d : disk) (keyFilePath stateFilePath : bytes) (loadState : bool) : outcome FilePV :=
  keyJSONBytes ← or_panic (d !! keyFilePath);
  pvKey ← or_panic (unmarshalKey keyJSONBytes);
  let pubKey := PubKeyOf (key_PrivKey pvKey) in
  let pvKey := mkFilePVKey (PubKeyAddress pubKey) pubKey (key_PrivKey pvKey) keyFilePath in
  pvState ← if loadState then
              stateJSONBytes ← or_panic (d !! stateFilePath);
              or_panic (unmarshalState stateJSONBytes)
            else Ret (mkLastSignState 0 0 0 None None []);
  Ret (mkFilePV pvKey
         (mkLastSignState (lss_Height pvState) (lss_Round pvState) (lss_Step pvState)
            (lss_Signature pvState) (lss_SignBytes pvState) stateFilePath)).

Definition LoadFilePV (d : disk) (keyFilePath stateFilePath : bytes) : outcome FilePV :=
  loadFilePV d keyFilePath stateFilePath true.

Definition LoadFilePVEmptyState (d : disk) (keyFilePath stateFilePath : bytes) : outcome FilePV :=
  loadFilePV d keyFilePath stateFilePath false.

Definition LoadOrGenFilePV (d : disk) (write_ok : bool) (privKey keyFilePath stateFilePath : bytes) :
    outcome (FilePV * disk) :=
  match d !! keyFilePath with
  | Some _ => pv ← LoadFilePV d keyFilePath stateFilePath; Ret (pv, d)
  | None =>
      let pv := GenFilePV privKey keyFilePath stateFilePath in
      d ← Save d write_ok pv;
      Ret (pv, d)
  end.

Definition Reset (d : disk) (write_ok : bool) (pv : FilePV) : outcome (FilePV * disk) :=
  let pv := mkFilePV (pv_Key pv) (mkLastSignState 0 0 0 None None (lss_filePath (pv_LastSignState pv))) in
  d ← Save d write_ok pv;
  Ret (pv, d).

Definition saveSigned (d : disk) (write_ok : bool) (pv : FilePV) (height round step : Z) (signBytes sig : bytes) :
    outcome (FilePV * disk) :=
  let lss := mkLastSignState height round step (Some sig) (Some signBytes)
               (lss_filePath (pv_LastSignState pv)) in
  d ← State_Save d write_ok lss;
  Ret (mkFilePV (pv_Key pv) lss, d).

Definition cvote_at (v : CanonicalVote) (t : Z) : CanonicalVote :=
  mkCanonicalVote (cvote_Type v) (cvote_Height v) (cvote_Round v) (cvote_BlockID v) t (cvote_ChainID v).

Definition cprop_at (p : CanonicalProposal) (t : Z) : CanonicalProposal :=
  mkCanonicalProposal (cprop_Type p) (cprop_Height p) (cprop_Round p) (cprop_POLRound p) (cprop_BlockID p) t
    (cprop_ChainID p).

(** [now] is the clock. *)
Definition checkVotesOnlyDifferByTimestamp (now : Z) (lastSignBytes newSignBytes : bytes) : outcome (Z * bool) :=
  lastVote ← or_panic (unmarshalVote lastSignBytes);
  newVote ← or_panic (unmarshalVote newSignBytes);
  Ret (cvote_Timestamp lastVote,
       bytes_equal (marshalVoteJSON (cvote_at newVote now)) (marshalVoteJSON (cvote_at lastVote now))).

Definition checkProposalsOnlyDifferByTimestamp (now : Z) (lastSignBytes newSignBytes : bytes) : outcome (Z * bool) :=
  lastProposal ← or_panic (unmarshalProposal lastSignBytes);
  newProposal ← or_panic (unmarshalProposal newSignBytes);
  Ret (cprop_Timestamp lastProposal,
       bytes_equal (marshalProposal (cprop_at newProposal now)) (marshalProposal (cprop_at lastProposal now))).

Definition vote_signed (vote : Vote) (timestamp : Z) (sig : bytes) : Vote :=
  mkVote (vote_Type vote) (vote_Height vote) (vote_Round vote) (vote_BlockID vote) timestamp
    (vote_ValidatorAddress vote) (vote_ValidatorIndex vote) sig (vote_PartSig vote) (vote_PartBlockSig vote).

Definition prop_signed (p : Proposal) (timestamp : Z) (sig : bytes) : Proposal :=
  mkProposal (prop_Type p) (prop_Height p) (prop_Round p) (prop_POLRound p) (prop_BlockID p) timestamp sig.

Definition nil_bytes (o : option bytes) : bytes := default [] o.

(** The vote is updated through its pointer; on an error it is unchanged. *)
Definition signVote (d : disk) (write_ok : bool) (now : Z) (pv : FilePV) (chainID : bytes) (vote : Vote) :
    outcome (FilePV * disk * Vote * option pv_error) :=
  step ← voteToStep vote;
  let lss := pv_LastSignState pv in
  '(sameHRS, err) ← CheckHRS lss (vote_Height vote) (vote_Round vote) step;
  match err with
  | Some err => Ret (pv, d, vote, Some err)
  | None =>
      let signBytes := Vote_SignBytes chainID vote in
      if (sameHRS : bool) then
        if bytes_equal signBytes (nil_bytes (lss_SignBytes lss)) then
          Ret (pv, d, vote_signed vote (vote_Timestamp vote) (nil_bytes (lss_Signature lss)), None)
        else
          '(timestamp, ok) ← checkVotesOnlyDifferByTimestamp now (nil_bytes (lss_SignBytes lss)) signBytes;
          if (ok : bool) then Ret (pv, d, vote_signed vote timestamp (nil_bytes (lss_Signature lss)), None)
          else Ret (pv, d, vote, Some ErrConflictingData)
      else
        match Sign (key_PrivKey (pv_Key pv)) signBytes with
        | None => Ret (pv, d, vote, Some ErrSign)
        | Some sig =>
            '(pv, d) ← saveSigned d write_ok pv (vote_Height vote) (vote_Round vote) step signBytes sig;
            Ret (pv, d, vote_signed vote (vote_Timestamp vote) sig, None)
        end
  end.

Definition signProposal (d : disk) (write_ok : bool) (now : Z) (pv : FilePV) (chainID : bytes) (proposal : Proposal) :
    outcome (FilePV * disk * Proposal * option pv_error) :=
  let lss := pv_LastSignState pv in
  '(sameHRS, err) ← CheckHRS lss (prop_Height proposal) (prop_Round proposal) stepPropose;
  match err with
  | Some err => Ret (pv, d, proposal, Some err)
  | None =>
      let signBytes := Proposal_SignBytes chainID proposal in
      if (sameHRS : bool) then
        if bytes_equal signBytes (nil_bytes (lss_SignBytes lss)) then
          Ret (pv, d, prop_signed proposal (prop_Timestamp proposal) (nil_bytes (lss_Signature lss)), None)
        else
          '(timestamp, ok) ← checkProposalsOnlyDifferByTimestamp now (nil_bytes (lss_SignBytes lss)) signBytes;
          if (ok : bool) then Ret (pv, d, prop_signed proposal timestamp (nil_bytes (lss_Signature lss)), None)
          else Ret (pv, d, proposal, Some ErrConflictingData)
      else
        match Sign (key_PrivKey (pv_Key pv)) signBytes with
        | None => Ret (pv, d, proposal, Some ErrSign)
        | Some sig =>
            '(pv, d) ← saveSigned d write_ok pv (prop_Height proposal) (prop_Round proposal) stepPropose signBytes sig;
            Ret (pv, d, prop_signed proposal (prop_Timestamp proposal) sig, None)
        end
  end.

(** The wrappers only add text to the error. *)
Definition SignVote := signVote.
Definition SignProposal := signProposal.

Definition set_share (s : option PartSig) (sig : bytes) : outcome (option PartSig) :=
  s ← or_panic s;
  Ret (Some (mkPartSig sig (Id s))).

(** Signs the block hash, then the Merkle root, into the shares of the vote; the
    error is [nil] on every path. *)
Definition SigCrossMerkleRoot (pv : FilePV) (MerkleRoot Blockhash : bytes) (vote : Vote) : outcome Vote :=
  match Sign (key_PrivKey (pv_Key pv)) Blockhash with
  | None => Ret vote
  | Some signature =>
      blockSig ← set_share (vote_PartBlockSig vote) signature;
      let vote := mkVote (vote_Type vote) (vote_Height vote) (vote_Round vote) (vote_BlockID vote)
        (vote_Timestamp vote) (vote_ValidatorAddress vote) (vote_ValidatorIndex vote) (vote_Signature vote)
        (vote_PartSig vote) blockSig in
      match Sign (key_PrivKey (pv_Key pv)) MerkleRoot with
      | None => Ret vote
      | Some signature =>
          partSig ← set_share (vote_PartSig vote) signature;
          Ret (mkVote (vote_Type vote) (vote_Height vote) (vote_Round vote) (vote_BlockID vote)
            (vote_Timestamp vote) (vote_ValidatorAddress vote) (vote_ValidatorIndex vote) (vote_Signature vote)
            partSig (vote_PartBlockSig vote))
      end
  end.

End Signing.

(** ** What the signer relies on *)

Class PVLaws `{Codec} `{Signer} `{PVCodec} : Prop := {
  unmarshalVote_ok : ∀ v, unmarshalVote (marshalVote v) = Some v;
  unmarshalProposal_ok : ∀ p, unmarshalProposal (marshalProposal p) = Some p;
  marshalVoteJSON_inj : ∀ v w, marshalVoteJSON v = marshalVoteJSON w → v = w;
  marshalVote_nonempty : ∀ v, marshalVote v ≠ [];
  marshalProposal_nonempty : ∀ p, marshalProposal p ≠ [];
  unmarshalKey_ok : ∀ k, option_map key_PrivKey (unmarshalKey (marshalKey k)) = Some (key_PrivKey k);
  unmarshalState_ok : ∀ lss, unmarshalState (marshalState lss) = Some (stored lss);
  Sign_nonempty : ∀ k m s, Sign k m = Some s → s ≠ []
}.

(** ** Heights, rounds and steps *)

Notation hrs := (Z * Z * Z)%type.

(** The lexicographic order. *)
Definition hrs_lt (a b : hrs) : Prop :=
  a.1.1 < b.1.1 ∨ a.1.1 = b.1.1 ∧ (a.1.2 < b.1.2 ∨ a.1.2 = b.1.2 ∧ a.2 < b.2).

Definition lss_hrs (lss : FilePVLastSignState) : hrs := (lss_Height lss, lss_Round lss, lss_Step lss).

Lemma hrs_lt_irrefl a : ¬ hrs_lt a a.
Proof. unfold hrs_lt. lia. Qed.

Lemma hrs_lt_trans a b c : hrs_lt a b → hrs_lt b c → hrs_lt a c.
Proof. unfold hrs_lt. lia. Qed.

Lemma hrs_trichotomy a b : hrs_lt a b ∨ a = b ∨ hrs_lt b a.
Proof.
  destruct a as [[a1 a2] a3], b as [[b1 b2] b3]. unfold hrs_lt. cbn.
  destruct (Z.lt_trichotomy a1 b1) as [?|[->|?]]; [lia| |lia].
  destruct (Z.lt_trichotomy a2 b2) as [?|[->|?]]; [lia| |lia].
  destruct (Z.lt_trichotomy a3 b3) as [?|[->|?]]; [lia|auto|lia].
Qed.

Lemma CheckHRS_greater lss h r s : hrs_lt (lss_hrs lss) (h, r, s) → CheckHRS lss h r s = Ret (false, None).
Proof. unfold hrs_lt, CheckHRS. cbn. intros Hlt. case_Z; try lia; done. Qed.

Lemma CheckHRS_less lss h r s :
  hrs_lt (h, r, s) (lss_hrs lss) → ∃ err, CheckHRS lss h r s = Ret (false, Some err).
Proof. unfold hrs_lt, CheckHRS. cbn. intros Hlt. case_Z; try lia; by eexists. Qed.

Lemma CheckHRS_same lss sb sg :
  lss_SignBytes lss = Some sb → lss_Signature lss = Some sg →
  CheckHRS lss (lss_Height lss) (lss_Round lss) (lss_Step lss) = Ret (true, None).
Proof. unfold CheckHRS. intros -> ->. by rewrite !Z.ltb_irrefl, !Z.eqb_refl. Qed.

Section Protection.
Context `{PVLaws} `{Crypto}.

(** A signature that left the signer. *)
Inductive event :=
| SignedVote (chainID : bytes) (vote : Vote)
| SignedProposal (chainID : bytes) (proposal : Proposal).

Definition vote_step (vote : Vote) : Z :=
  if vote_Type vote =? PrevoteType then stepPrevote else stepPrecommit.

Definition ev_hrs (e : event) : hrs :=
  match e with
  | SignedVote _ v => (vote_Height v, vote_Round v, vote_step v)
  | SignedProposal _ p => (prop_Height p, prop_Round p, stepPropose)
  end.

Definition ev_bytes (e : event) : bytes :=
  match e with
  | SignedVote c v => Vote_SignBytes c v
  | SignedProposal c p => Proposal_SignBytes c p
  end.

Definition ev_sig (e : event) : bytes :=
  match e with SignedVote _ v => vote_Signature v | SignedProposal _ p => prop_Signature p end.

Record world := mkWorld { w_pv : FilePV; w_disk : disk }.

Definition key_path (w : world) : bytes := key_filePath (pv_Key (w_pv w)).
Definition state_path (w : world) : bytes := lss_filePath (pv_LastSignState (w_pv w)).

(** A request that returns, with the signature it hands out if it has no error, or
    a restart, which loses the memory and loads the files. A request that panics
    changes no file and hands out nothing: a restart follows. *)
Inductive pv_step (w : world) : list event → world → Prop :=
| step_vote write_ok now chainID vote pv' d' vote' err :
    SignVote (w_disk w) write_ok now (w_pv w) chainID vote = Ret (pv', d', vote', err) →
    pv_step w (match err with None => [SignedVote chainID vote'] | Some _ => [] end) (mkWorld pv' d')
| step_proposal write_ok now chainID proposal pv' d' proposal' err :
    SignProposal (w_disk w) write_ok now (w_pv w) chainID proposal = Ret (pv', d', proposal', err) →
    pv_step w (match err with None => [SignedProposal chainID proposal'] | Some _ => [] end) (mkWorld pv' d')
| step_restart pv' :
    LoadFilePV (w_disk w) (key_path w) (state_path w) = Ret pv' →
    pv_step w [] (mkWorld pv' (w_disk w)).

(** Runs, with everything handed out, latest first. *)
Inductive pv_run (w : world) : list event → world → Prop :=
| run_nil : pv_run w [] w
| run_step log w1 new w2 : pv_run w log w1 → pv_step w1 new w2 → pv_run w (new ++ log) w2.

(** The last signed bytes are those of a message of that height, round and step. *)
Definition last_message (lss : FilePVLastSignState) (sb : bytes) : Prop :=
  (∃ c v, sb = Vote_SignBytes c v ∧ voteToStep v = Ret (lss_Step lss) ∧
     vote_Height v = lss_Height lss ∧ vote_Round v = lss_Round lss) ∨
  (∃ c p, sb = Proposal_SignBytes c p ∧ lss_Step lss = stepPropose ∧
     prop_Height p = lss_Height lss ∧ prop_Round p = lss_Round lss).

Definition last_ok (lss : FilePVLastSignState) : Prop :=
  (lss_SignBytes lss = None ∧ lss_Signature lss = None ∧ lss_Step lss = stepNone) ∨
  (∃ sb sg, lss_SignBytes lss = Some sb ∧ lss_Signature lss = Some sg ∧ sb ≠ [] ∧ sg ≠ [] ∧ last_message lss sb).

(** Memory and files agree, the last message is well-formed. *)
Record pv_good (w : world) : Prop := {
  pg_paths : key_path w ≠ [] ∧ state_path w ≠ [] ∧ key_path w ≠ state_path w;
  pg_load : LoadFilePV (w_disk w) (key_path w) (state_path w) = Ret (w_pv w);
  pg_last : last_ok (pv_LastSignState (w_pv w))
}.

(** What was handed out is not ahead of the last state, and a height, round and
    step has one message and one signature. *)
Record log_ok (lss : FilePVLastSignState) (log : list event) : Prop := {
  lo_last e : e ∈ log → hrs_lt (ev_hrs e) (lss_hrs lss) ∨
    ev_hrs e = lss_hrs lss ∧ lss_SignBytes lss = Some (ev_bytes e) ∧ lss_Signature lss = Some (ev_sig e);
  lo_unique e1 e2 : e1 ∈ log → e2 ∈ log → ev_hrs e1 = ev_hrs e2 →
    ev_bytes e1 = ev_bytes e2 ∧ ev_sig e1 = ev_sig e2
}.

Lemma log_ok_same lss log e :
  log_ok lss log → ev_hrs e = lss_hrs lss → lss_SignBytes lss = Some (ev_bytes e) →
  lss_Signature lss = Some (ev_sig e) → log_ok lss (e :: log).
Proof.
  intros [Hl Hu] Hh Hb Hs.
  assert (∀ e', e' ∈ log → ev_hrs e = ev_hrs e' → ev_bytes e = ev_bytes e' ∧ ev_sig e = ev_sig e') as Hone.
  { intros e' He' Ee. destruct (Hl e' He') as [Hlt|(_ & Hb' & Hs')].
    - rewrite <-Ee, Hh in Hlt. by apply hrs_lt_irrefl in Hlt.
    - rewrite Hb in Hb'. rewrite Hs in Hs'. by simplify_eq. }
  split.
  - intros e' [->|He']%elem_of_cons; [by right|by apply Hl].
  - intros e1 e2 [->|He1]%elem_of_cons [->|He2]%elem_of_cons Ee; [done|by apply Hone| |by apply Hu].
    destruct (Hone e1 He1 (eq_sym Ee)). done.
Qed.

Lemma log_ok_new lss lss' log e :
  log_ok lss log → hrs_lt (lss_hrs lss) (lss_hrs lss') → ev_hrs e = lss_hrs lss' →
  lss_SignBytes lss' = Some (ev_bytes e) → lss_Signature lss' = Some (ev_sig e) → log_ok lss' (e :: log).
Proof.
  intros [Hl Hu] Hlt Hh Hb Hs. apply log_ok_same; [|done..]. split; [|done].
  intros e' He'. left. destruct (Hl e' He') as [?|[-> _]]; [by eapply hrs_lt_trans|done].
Qed.

(** Saving a new last state keeps memory and files in agreement. *)
Lemma saveSigned_good w write_ok h r s sb sg pv' d' :
  pv_good w → saveSigned (w_disk w) write_ok (w_pv w) h r s sb sg = Ret (pv', d') →
  sb ≠ [] → sg ≠ [] → last_message (mkLastSignState h r s (Some sg) (Some sb) (state_path w)) sb →
  pv_good (mkWorld pv' d') ∧ pv_LastSignState pv' = mkLastSignState h r s (Some sg) (Some sb) (state_path w) ∧
  pv_Key pv' = pv_Key (w_pv w).
Proof.
  intros [(Hk & Hs & Hks) Hload Hlast] E Hsb Hsg Hmsg.
  unfold saveSigned, State_Save, save_file in E. cbn in E.
  fold (state_path w) in E. rewrite (proj2 (bytes_equal_false _ _)) in E by done.
  destruct write_ok; [|done]. cbn in E. injection E as <- <-. split; [|done]. split; cbn.
  - done.
  - unfold LoadFilePV, loadFilePV in Hload |- *.
    apply bind_Ret in Hload as (kb & Ek%or_panic_Ret & Hload).
    apply bind_Ret in Hload as (k & Eu%or_panic_Ret & Hload).
    apply bind_Ret in Hload as (st & _ & Hload). injection Hload as Hload.
    change (key_path (mkWorld _ _)) with (key_path w). change (state_path (mkWorld _ _)) with (state_path w).
    rewrite (lookup_insert_ne _ (state_path w) (key_path w)), Ek by congruence. cbn [or_panic mbind outcome_bind]. rewrite Eu.
    cbn [or_panic mbind outcome_bind]. rewrite lookup_insert_eq. cbn [or_panic mbind outcome_bind].
    rewrite unmarshalState_ok. cbn. f_equal. rewrite <-Hload. cbn.
    destruct sb, sg; done.
  - right. exists sb, sg. done.
Qed.

Lemma voteToStep_Ret v s : voteToStep v = Ret s → s = vote_step v ∧ (s = stepPrevote ∨ s = stepPrecommit).
Proof.
  unfold voteToStep, vote_step. destruct (_ =? _); [|destruct (_ =? _)]; intros; simplify_eq; auto.
Qed.

(** A vote that differs from the last one by its timestamp is given the bytes of
    the last one. *)
Lemma vote_retimed now c v c0 v0 sig t :
  checkVotesOnlyDifferByTimestamp now (Vote_SignBytes c0 v0) (Vote_SignBytes c v) = Ret (t, true) →
  Vote_SignBytes c (vote_signed v t sig) = Vote_SignBytes c0 v0.
Proof.
  unfold checkVotesOnlyDifferByTimestamp, Vote_SignBytes. rewrite !unmarshalVote_ok. cbn [or_panic mbind outcome_bind].
  intros [= <- E%bytes_equal_true%marshalVoteJSON_inj]. f_equal.
  exact (f_equal (λ x, cvote_at x (vote_Timestamp v0)) E).
Qed.

Lemma proposal_retimed `{!CodecLaws} now c p c0 p0 sig t :
  checkProposalsOnlyDifferByTimestamp now (Proposal_SignBytes c0 p0) (Proposal_SignBytes c p) = Ret (t, true) →
  Proposal_SignBytes c (prop_signed p t sig) = Proposal_SignBytes c0 p0.
Proof.
  unfold checkProposalsOnlyDifferByTimestamp, Proposal_SignBytes. rewrite !unmarshalProposal_ok.
  cbn [or_panic mbind outcome_bind]. intros [= <- E%bytes_equal_true%marshalProposal_inj]. f_equal.
  exact (f_equal (λ x, cprop_at x (prop_Timestamp p0)) E).
Qed.

Lemma world_eta w : mkWorld (w_pv w) (w_disk w) = w.
Proof. by destruct w. Qed.

(** The last message at the height, round and step of a vote is a vote's, at
    those of a proposal a proposal's. *)
Lemma last_is_vote lss v :
  last_ok lss → voteToStep v = Ret (lss_Step lss) →
  ∃ c0 v0 sg, lss_SignBytes lss = Some (Vote_SignBytes c0 v0) ∧ lss_Signature lss = Some sg.
Proof.
  intros Hl [_ Hs]%voteToStep_Ret.
  destruct Hl as [(_ & _ & E)|(sb & sg & Eb & Es & _ & _ & [(c & v0 & -> & _)|(c & p & _ & E & _)])].
  - rewrite E in Hs. by destruct Hs.
  - by exists c, v0, sg.
  - rewrite E in Hs. by destruct Hs.
Qed.

Lemma last_is_proposal lss :
  last_ok lss → lss_Step lss = stepPropose →
  ∃ c0 p0 sg, lss_SignBytes lss = Some (Proposal_SignBytes c0 p0) ∧ lss_Signature lss = Some sg.
Proof.
  intros Hl Hs.
  destruct Hl as [(_ & _ & E)|(sb & sg & Eb & Es & _ & _ & [(c & v0 & _ & E & _)|(c & p & -> & _)])].
  - by rewrite E in Hs.
  - apply voteToStep_Ret in E as [_ E]. rewrite Hs in E. by destruct E.
  - by exists c, p, sg.
Qed.

Lemma signVote_step w write_ok now c v pv' d' v' err log :
  pv_good w → log_ok (pv_LastSignState (w_pv w)) log →
  SignVote (w_disk w) write_ok now (w_pv w) c v = Ret (pv', d', v', err) →
  pv_good (mkWorld pv' d') ∧
  log_ok (pv_LastSignState pv') (match err with None => [SignedVote c v'] | Some _ => [] end ++ log).
Proof.
  intros Hg Hlog E. unfold SignVote, signVote in E. apply bind_Ret in E as (s & Es & E).
  set (lss := pv_LastSignState (w_pv w)) in *. pose proof (voteToStep_Ret _ _ Es) as [Hs _].
  destruct (hrs_trichotomy (lss_hrs lss) (vote_Height v, vote_Round v, s)) as [Hlt|[Heq|Hgt]].
  - rewrite (CheckHRS_greater _ _ _ _ Hlt) in E. cbn [mbind outcome_bind] in E.
    destruct (Sign _ _) as [sig|] eqn:Esig; [|injection E as <- <- <- <-; rewrite world_eta; done].
    apply bind_Ret in E as ([pv1 d1] & Esave & E). injection E as <- <- <- <-.
    destruct (saveSigned_good w write_ok _ _ _ _ _ _ _ Hg Esave) as (Hg' & Hlss & _).
    { apply marshalVote_nonempty. } { by eapply Sign_nonempty. }
    { left. exists c, v. done. }
    split; [done|]. cbn [app]. apply log_ok_new with lss; rewrite ?Hlss; try done. cbn. by rewrite Hs.
  - injection Heq as Hh Hr Hst. destruct (last_is_vote lss v (pg_last _ Hg)) as (c0 & v0 & sg & Eb & Esg);
      [by rewrite Hst|].
    rewrite <-Hh, <-Hr, <-Hst, (CheckHRS_same lss _ _ Eb Esg) in E. cbn [mbind outcome_bind] in E.
    rewrite Eb, Esg in E. cbn [nil_bytes default from_option id] in E.
    destruct (bytes_equal _ _) eqn:Eeq.
    + injection E as <- <- <- <-. rewrite world_eta. split; [done|]. cbn [app].
      apply bytes_equal_true in Eeq. apply log_ok_same; fold lss; [done|..]; cbn.
      * unfold lss_hrs. rewrite Hh, Hr, Hst, Hs. done.
      * rewrite Eb. f_equal. rewrite <-Eeq. done.
      * done.
    + apply bind_Ret in E as ([t ok] & Echk & E). destruct ok; injection E as <- <- <- <-; rewrite world_eta;
        split; try done. cbn [app]. apply log_ok_same; fold lss; [done|..]; cbn.
      * unfold lss_hrs. rewrite Hh, Hr, Hst, Hs. done.
      * rewrite Eb. f_equal. symmetry. by eapply vote_retimed.
      * done.
  - destruct (CheckHRS_less _ _ _ _ Hgt) as (e & Ee). rewrite Ee in E. cbn [mbind outcome_bind] in E.
    injection E as <- <- <- <-. rewrite world_eta. done.
Qed.

Lemma signProposal_step `{!CodecLaws} w write_ok now c p pv' d' p' err log :
  pv_good w → log_ok (pv_LastSignState (w_pv w)) log →
  SignProposal (w_disk w) write_ok now (w_pv w) c p = Ret (pv', d', p', err) →
  pv_good (mkWorld pv' d') ∧
  log_ok (pv_LastSignState pv') (match err with None => [SignedProposal c p'] | Some _ => [] end ++ log).
Proof.
  intros Hg Hlog E. unfold SignProposal, signProposal in E.
  set (lss := pv_LastSignState (w_pv w)) in *.
  destruct (hrs_trichotomy (lss_hrs lss) (prop_Height p, prop_Round p, stepPropose)) as [Hlt|[Heq|Hgt]].
  - rewrite (CheckHRS_greater _ _ _ _ Hlt) in E. cbn [mbind outcome_bind] in E.
    destruct (Sign _ _) as [sig|] eqn:Esig; [|injection E as <- <- <- <-; rewrite world_eta; done].
    apply bind_Ret in E as ([pv1 d1] & Esave & E). injection E as <- <- <- <-.
    destruct (saveSigned_good w write_ok _ _ _ _ _ _ _ Hg Esave) as (Hg' & Hlss & _).
    { apply marshalProposal_nonempty. } { by eapply Sign_nonempty. }
    { right. exists c, p. done. }
    split; [done|]. cbn [app]. apply log_ok_new with lss; rewrite ?Hlss; done.
  - injection Heq as Hh Hr Hst. destruct (last_is_proposal lss (pg_last _ Hg) Hst) as (c0 & p0 & sg & Eb & Esg).
    rewrite <-Hh, <-Hr, <-Hst, (CheckHRS_same lss _ _ Eb Esg) in E. cbn [mbind outcome_bind] in E.
    rewrite Eb, Esg in E. cbn [nil_bytes default from_option id] in E.
    destruct (bytes_equal _ _) eqn:Eeq.
    + injection E as <- <- <- <-. rewrite world_eta. split; [done|]. cbn [app].
      apply bytes_equal_true in Eeq. apply log_ok_same; fold lss; [done|..]; cbn.
      * unfold lss_hrs. by rewrite Hh, Hr, Hst.
      * rewrite Eb. f_equal. rewrite <-Eeq. done.
      * done.
    + apply bind_Ret in E as ([t ok] & Echk & E). destruct ok; injection E as <- <- <- <-; rewrite world_eta;
        split; try done. cbn [app]. apply log_ok_same; fold lss; [done|..]; cbn.
      * unfold lss_hrs. by rewrite Hh, Hr, Hst.
      * rewrite Eb. f_equal. symmetry. by eapply proposal_retimed.
      * done.
  - destruct (CheckHRS_less _ _ _ _ Hgt) as (e & Ee). rewrite Ee in E. cbn [mbind outcome_bind] in E.
    injection E as <- <- <- <-. rewrite world_eta. done.
Qed.

Lemma run_good `{!CodecLaws} w log w' :
  pv_run w log w' → pv_good w → pv_good w' ∧ log_ok (pv_LastSignState (w_pv w')) log.
Proof.
  induction 1 as [|log w1 new w2 Hrun IH Hstep]; intros Hg.
  { split; [done|]. split; [by intros ? ?%not_elem_of_nil|by intros ?? ?%not_elem_of_nil]. }
  destruct (IH Hg) as [Hg1 Hlog]. destruct Hstep as [? ? ? ? ? ? ? ? E|? ? ? ? ? ? ? ? E|pv' E].
  - by eapply signVote_step in E.
  - by eapply signProposal_step in E.
  - rewrite (pg_load _ Hg1) in E. injection E as <-. by rewrite world_eta.
Qed.

(** C6. No double signing: over any run of sign requests and restarts from a saved
    state, two votes or proposals handed out for the same height, round and step
    have the same sign bytes (so the same block, timestamp and chain) and the
    same signature, and the state a restart loads is the one in memory. *)
Theorem no_double_sign `{!CodecLaws} (w w' : world) (log : list event) (e1 e2 : event) :
  pv_good w → pv_run w log w' → e1 ∈ log → e2 ∈ log → ev_hrs e1 = ev_hrs e2 →
  ev_bytes e1 = ev_bytes e2 ∧ ev_sig e1 = ev_sig e2 ∧
  LoadFilePV (w_disk w') (key_path w') (state_path w') = Ret (w_pv w').
Proof.
  intros Hg Hrun Hin1 Hin2 Eh. destruct (run_good _ _ _ Hrun Hg) as [Hg' [_ Hu]].
  destruct (Hu e1 e2 Hin1 Hin2 Eh). split_and!; [done..|]. apply (pg_load _ Hg').
Qed.

(** The signer is live and idempotent: on a saved state, a vote of a valid type above
    the last height, round and step is signed with its own bytes when the key
    signs and the file is written; asking again after a restart, with any
    timestamp, returns the same signature with the timestamp that was signed. *)
Theorem SignVote_reissue (w : world) (now now' t' : Z) (c sig : bytes) (v : Vote) :
  pv_good w → IsVoteTypeValid (vote_Type v) = true →
  hrs_lt (lss_hrs (pv_LastSignState (w_pv w))) (vote_Height v, vote_Round v, vote_step v) →
  Sign (key_PrivKey (pv_Key (w_pv w))) (Vote_SignBytes c v) = Some sig →
  ∃ pv' d', SignVote (w_disk w) true now (w_pv w) c v =
      Ret (pv', d', vote_signed v (vote_Timestamp v) sig, None) ∧
    LoadFilePV d' (key_path w) (state_path w) = Ret pv' ∧
    SignVote d' true now' pv' c (vote_signed v t' []) =
      Ret (pv', d', vote_signed v (vote_Timestamp v) sig, None).
Proof.
  intros Hg Htype Hlt Hsig.
  assert (voteToStep v = Ret (vote_step v)) as Es.
  { unfold IsVoteTypeValid in Htype. unfold voteToStep, vote_step. by destruct (_ =? PrevoteType), (_ =? PrecommitType). }
  assert (∃ pv' d', saveSigned (w_disk w) true (w_pv w) (vote_Height v) (vote_Round v) (vote_step v)
    (Vote_SignBytes c v) sig = Ret (pv', d')) as (pv' & d' & Esave).
  { unfold saveSigned, State_Save, save_file. cbn. rewrite (proj2 (bytes_equal_false _ _)) by apply (pg_paths _ Hg).
    eexists _, _. done. }
  destruct (saveSigned_good w true _ _ _ _ _ _ _ Hg Esave) as (Hg' & Hlss & Hkey).
  { apply marshalVote_nonempty. } { by eapply Sign_nonempty. } { left. exists c, v. done. }
  exists pv', d'. split; [|split].
  - unfold SignVote, signVote. rewrite Es. cbn [mbind outcome_bind]. rewrite (CheckHRS_greater _ _ _ _ Hlt).
    cbn [mbind outcome_bind]. rewrite Hsig, Esave. done.
  - pose proof (pg_load _ Hg') as Hl. unfold key_path, state_path in *. cbn in Hl.
    rewrite Hkey, Hlss in Hl. done.
  - unfold SignVote, signVote. change (voteToStep (vote_signed v t' [])) with (voteToStep v). rewrite Es.
    cbn [mbind outcome_bind]. rewrite Hlss. unfold CheckHRS. cbn [lss_Height lss_Round lss_Step lss_SignBytes
      lss_Signature vote_signed vote_Height vote_Round]. rewrite !Z.ltb_irrefl, !Z.eqb_refl.
    cbn [mbind outcome_bind nil_bytes default from_option id].
    destruct (bytes_equal _ _) eqn:Eeq.
    + apply bytes_equal_true, (f_equal unmarshalVote) in Eeq. unfold Vote_SignBytes in Eeq.
      rewrite !unmarshalVote_ok in Eeq. unfold CanonicalizeVote in Eeq. cbn in Eeq. injection Eeq as ->. done.
    + unfold checkVotesOnlyDifferByTimestamp, Vote_SignBytes. rewrite !unmarshalVote_ok.
      cbn [or_panic mbind outcome_bind].
      rewrite (proj2 (bytes_equal_true _ _)) by done. done.
Qed.

End Protection.

(** ** Concrete runs *)

Section Witnesses.
#[local] Existing Instance sample_codec.
#[local] Existing Instance sample_codec_laws.
#[local] Existing Instance sample_crypto.

Definition sample_unmarshalVote (b : bytes) : option CanonicalVote :=
  match b with
  | x02 :: b =>
      '(t, h, r, (bh, (ph, pt)), ts, c) ← decode_bytes (A := Z * Z * Z * (bytes * (bytes * Z)) * Z * bytes) b;
      Some (mkCanonicalVote t h r (mkCanonicalBlockID bh (mkCanonicalPartSetHeader ph pt)) ts c)
  | _ => None
  end.

Definition sample_unmarshalProposal (b : bytes) : option CanonicalProposal :=
  match b with
  | x02 :: b =>
      '(t, h, r, pol, (bh, (ph, pt)), ts, c) ←
        decode_bytes (A := Z * Z * Z * Z * (bytes * (bytes * Z)) * Z * bytes) b;
      Some (mkCanonicalProposal t h r pol (mkCanonicalBlockID bh (mkCanonicalPartSetHeader ph pt)) ts c)
  | _ => None
  end.

#[local] Instance sample_signer : Signer := {| Sign k m := Some (x01 :: k ++ m); PubKeyOf k := k |}.

#[local] Instance sample_pvcodec : PVCodec := {|
  unmarshalVote := sample_unmarshalVote;
  unmarshalProposal := sample_unmarshalProposal;
  marshalVoteJSON := marshalVote;
  marshalKey k := key_PrivKey k;
  unmarshalKey b := Some (mkFilePVKey [] [] b []);
  marshalState lss := let s := stored lss in
    encode_bytes (lss_Height s, lss_Round s, lss_Step s, lss_Signature s, lss_SignBytes s);
  unmarshalState b :=
    '(h, r, s, sg, sb) ← decode_bytes (A := Z * Z * Z * option bytes * option bytes) b;
    Some (mkLastSignState h r s sg sb [])
|}.

#[local] Instance sample_pvlaws : PVLaws.
Proof.
  split.
  - intros [? ? ? [? []] ? ?]. cbn. unfold bid_tuple. cbn. by rewrite decode_encode_bytes.
  - intros [? ? ? ? [? []] ? ?]. cbn. unfold bid_tuple. cbn. by rewrite decode_encode_bytes.
  - apply marshalVote_inj.
  - done.
  - done.
  - done.
  - intros lss. cbn. by rewrite decode_encode_bytes.
  - by intros k m s [= <-].
Qed.

Definition sample_pv : FilePV := GenFilePV [x07] [x6b] [x73].

Definition sample_world : world :=
  mkWorld sample_pv (match Save ∅ true sample_pv with Ret d => d | Panic => ∅ end).

Lemma sample_world_good : pv_good sample_world.
Proof.
  split; [done|by vm_compute|]. left. done.
Qed.

Definition pv_vote (t : Z) (b : byte) : Vote :=
  mkVote PrevoteType 4 1 (mkBlockID [b] (mkPartSetHeader 1 [b])) t [x07] 0 [] None None.

(** Signs the vote, restarts, and signs it again with another time. *)
Lemma SignVote_reissue_witness :
  ∃ pv' d' v', SignVote (w_disk sample_world) true 9 (w_pv sample_world) [x63] (pv_vote 5 x01) = Ret (pv', d', v', None) ∧
    SignVote d' true 9 pv' [x63] (vote_signed (pv_vote 5 x01) 8 []) = Ret (pv', d', v', None).
Proof.
  destruct (SignVote_reissue sample_world 9 9 8 [x63] (x01 :: [x07] ++ Vote_SignBytes [x63] (pv_vote 5 x01)) (pv_vote 5 x01)
    sample_world_good) as (pv' & d' & E1 & _ & E2); [reflexivity|left; reflexivity|reflexivity|].
  exists pv', d', (vote_signed (pv_vote 5 x01) 5 (x01 :: [x07] ++ Vote_SignBytes [x63] (pv_vote 5 x01))).
  split; [exact E1|exact E2].
Defined.

Definition sample_signed : Vote :=
  vote_signed (pv_vote 5 x01) 5 (x01 :: [x07] ++ Vote_SignBytes [x63] (pv_vote 5 x01)).

Definition after (w : world) (v : Vote) : world :=
  match SignVote (w_disk w) true 9 (w_pv w) [x63] v with
  | Ret (pv, d, _, _) => mkWorld pv d
  | Panic => w
  end.

Definition sample_world1 : world := after sample_world (pv_vote 5 x01).
Definition sample_world2 : world := after sample_world1 (pv_vote 8 x01).

Lemma sample_run :
  pv_run sample_world [SignedVote [x63] sample_signed; SignedVote [x63] sample_signed] sample_world2.
Proof.
  apply (run_step _ [SignedVote [x63] sample_signed] sample_world1 [SignedVote [x63] sample_signed] sample_world2).
  - apply (run_step _ [] sample_world [SignedVote [x63] sample_signed] sample_world1); [apply run_nil|].
    apply (step_vote sample_world true 9 [x63] (pv_vote 5 x01) (w_pv sample_world1) (w_disk sample_world1)
      sample_signed None).
    vm_cast_no_check (eq_refl (Ret (w_pv sample_world1, w_disk sample_world1, sample_signed, @None pv_error))).
  - apply (step_vote sample_world1 true 9 [x63] (pv_vote 8 x01) (w_pv sample_world2) (w_disk sample_world2)
      sample_signed None).
    vm_cast_no_check (eq_refl (Ret (w_pv sample_world2, w_disk sample_world2, sample_signed, @None pv_error))).
Qed.

Lemma no_double_sign_witness :
  LoadFilePV (w_disk sample_world2) (key_path sample_world2) (state_path sample_world2) = Ret (w_pv sample_world2).
Proof.
  apply (no_double_sign sample_world sample_world2 _ (SignedVote [x63] sample_signed) (SignedVote [x63] sample_signed)
    sample_world_good sample_run); [apply list_elem_of_here|apply list_elem_of_here|reflexivity].
Defined.

End Witnesses.
