(* ===== verification/Block.v ===== *)
(** * types/block.go, types/tx.go, types/evidence.go: blocks

    Transactions with their Merkle proofs, evidence of double signing, headers,
    blocks and their basic validation. nil and empty slices are both the empty
    list; the hashes the code caches (of the commit, the data and the evidence) are
    computed again, since what they hash does not change. [enc*] are
    [cdc.MustMarshalBinaryBare] at the type of the argument. *)

From Stdlib Require Import ZArith Lia List Bool Strings.Byte.
From stdpp Require Import base list sets.
From S2P Require Import Prelude BitArray Merkle Types PartSet VoteSet ValidatorSet VerifyCommit.
Local Open Scope Z_scope.

(** ** tx.go *)

Notation Tx := (list byte) (only parsing).

Section Txs.
Context (Sum : bytes → bytes).

Definition Tx_Hash (tx : Tx) : bytes := Sum tx.

Definition Txs_Hash (txs : list Tx) : bytes := SimpleHashFromByteSlices Sum (Tx_Hash <$> txs).

(** The first index from [i] on at which [p] holds, or -1. *)
Fixpoint index_from (p : Tx → bool) (i : Z) (txs : list Tx) : Z :=
  match txs with
  | [] => -1
  | tx :: txs' => if p tx then i else index_from p (i + 1) txs'
  end.

Definition Txs_Index (txs : list Tx) (tx : Tx) : Z := index_from (λ t, bytes_equal t tx) 0 txs.

Definition Txs_IndexByHash (txs : list Tx) (hash : bytes) : Z :=
  index_from (λ t, bytes_equal (Tx_Hash t) hash) 0 txs.

Record TxProof := mkTxProof { tp_RootHash : bytes; tp_Data : Tx; tp_Proof : SimpleProof }.

Definition Txs_Proof (txs : list Tx) (i : Z) : outcome TxProof :=
  '(root, proofs) ← SimpleProofsFromByteSlices Sum (Tx_Hash <$> txs);
  tx ← slice_get txs i;
  proof ← slice_get proofs i;
  Ret (mkTxProof root tx proof).

Definition Txs_Bytes (txs : list Tx) : list bytes := (λ tx, go_copy (replicate (length tx) x00) tx) <$> txs.

Definition Txs_Size (txs : list Tx) : Z := foldl (λ totalBytes tx, wrap64 (totalBytes + zlen tx)) 0 txs.

Definition TxProof_Leaf (tp : TxProof) : bytes := Tx_Hash (tp_Data tp).

Inductive txproof_error := ErrDifferentDataHash | ErrProofIndex | ErrProofTotal | ErrProofInconsistent.

Definition TxProof_Validate (tp : TxProof) (dataHash : bytes) : option txproof_error :=
  if negb (bytes_equal dataHash (tp_RootHash tp)) then Some ErrDifferentDataHash
  else if Index (tp_Proof tp) <? 0 then Some ErrProofIndex
  else if Total (tp_Proof tp) <=? 0 then Some ErrProofTotal
  else match Verify Sum (tp_Proof tp) (tp_RootHash tp) (TxProof_Leaf tp) with
       | Some _ => Some ErrProofInconsistent
       | None => None
       end.

End Txs.

(** ** evidence.go *)

Definition MaxEvidenceBytes : Z := 484.
Definition MaxEvidenceBytesDenominator : Z := 10.

Definition MaxEvidencePerBlock (blockMaxBytes : Z) : Z * Z :=
  let maxBytes := blockMaxBytes ÷ MaxEvidenceBytesDenominator in
  (maxBytes ÷ MaxEvidenceBytes, maxBytes).

(** A nil key or vote is [None]. *)
Record DuplicateVoteEvidence := mkDVE {
  dve_PubKey : option bytes;
  dve_VoteA : option Vote;
  dve_VoteB : option Vote
}.

Inductive evidence_error :=
| ErrEvEmptyPubKey
| ErrEvEmptyVotes
| ErrEvInvalidVoteA (err : basic_error)
| ErrEvInvalidVoteB (err : basic_error).

Definition DVE_ValidateBasic (dve : DuplicateVoteEvidence) : outcome (option evidence_error) :=
  pk ← or_panic (dve_PubKey dve);
  if zlen pk =? 0 then Ret (Some ErrEvEmptyPubKey)
  else
    match dve_VoteA dve, dve_VoteB dve with
    | Some a, Some b =>
        match Vote_ValidateBasic a with
        | Some err => Ret (Some (ErrEvInvalidVoteA err))
        | None =>
            match Vote_ValidateBasic b with
            | Some err => Ret (Some (ErrEvInvalidVoteB err))
            | None => Ret None
            end
        end
    | _, _ => Ret (Some ErrEvEmptyVotes)
    end.

Inductive dve_error :=
| ErrDveHRS | ErrDveAddresses | ErrDveIndices | ErrDveSameBlock | ErrDveSanity | ErrDveVoteA | ErrDveVoteB.

Section Evidence.
Context `{Codec} `{Crypto}.

Definition DVE_Verify (dve : DuplicateVoteEvidence) (chainID pubKey : bytes) : outcome (option dve_error) :=
  a ← or_panic (dve_VoteA dve);
  b ← or_panic (dve_VoteB dve);
  Ret (if negb (vote_Height a =? vote_Height b) || negb (vote_Round a =? vote_Round b)
          || negb (vote_Type a =? vote_Type b) then Some ErrDveHRS
       else if negb (bytes_equal (vote_ValidatorAddress a) (vote_ValidatorAddress b)) then Some ErrDveAddresses
       else if negb (vote_ValidatorIndex a =? vote_ValidatorIndex b) then Some ErrDveIndices
       else if BlockID_Equals (vote_BlockID a) (vote_BlockID b) then Some ErrDveSameBlock
       else if negb (bytes_equal (PubKeyAddress pubKey) (vote_ValidatorAddress a)) then Some ErrDveSanity
       else if negb (VerifyBytes pubKey (Vote_SignBytes chainID a) (vote_Signature a)) then Some ErrDveVoteA
       else if negb (VerifyBytes pubKey (Vote_SignBytes chainID b) (vote_Signature b)) then Some ErrDveVoteB
       else None).

Definition DVE_Height (dve : DuplicateVoteEvidence) : outcome Z :=
  vote_Height <$> or_panic (dve_VoteA dve).

Definition DVE_Address (dve : DuplicateVoteEvidence) : outcome bytes :=
  PubKeyAddress <$> or_panic (dve_PubKey dve).

End Evidence.

(** ** block.go *)

Definition MaxHeaderBytes : Z := 653.
Definition MaxAminoOverheadForBlock : Z := 11.
Definition MaxVoteBytes : Z := 600.
Definition MaxChainIDLen : Z := 50.

(** version.Consensus: the block and app protocol versions. *)
Record Version := mkVersion { v_Block : Z; v_App : Z }.

#[export] Instance Version_eq_dec : EqDecision Version.
Proof. solve_decision. Defined.

Record Header := mkHeader {
  hd_Version : Version;
  hd_ChainID : bytes;
  hd_Height : Z;
  hd_Time : Z;
  hd_NumTxs : Z;
  hd_TotalTxs : Z;
  hd_LastBlockID : BlockID;
  hd_LastCommitHash : bytes;
  hd_DataHash : bytes;
  hd_ValidatorsHash : bytes;
  hd_NextValidatorsHash : bytes;
  hd_ConsensusHash : bytes;
  hd_AppHash : bytes;
  hd_LastResultsHash : bytes;
  hd_EvidenceHash : bytes;
  hd_ProposerAddress : bytes;
  hd_CrossMerkleRoot : bytes;
  hd_CmRelation : bytes
}.

Record Block := mkBlock {
  blk_Shard : bytes;
  blk_Header : Header;
  blk_Txs : list Tx;
  blk_Evidence : list DuplicateVoteEvidence;
  blk_LastCommit : option Commit
}.

Class BlockCodec := {
  encVersion : Version → bytes;
  encString : bytes → bytes;
  encInt64 : Z → bytes;
  encTime : Z → bytes;
  encBlockID : BlockID → bytes;
  encBytes : bytes → bytes;
  encCommitSig : Vote → bytes;
  encEvidence : DuplicateVoteEvidence → bytes;
  marshalBlock : Block → bytes
}.

Definition MaxDataBytes (maxBytes valsCount evidenceCount : Z) : outcome Z :=
  let maxDataBytes := wrap64 (maxBytes - MaxAminoOverheadForBlock - MaxHeaderBytes
    - valsCount * MaxVoteBytes - evidenceCount * MaxEvidenceBytes) in
  if maxDataBytes <? 0 then Panic else Ret maxDataBytes.

Definition MaxDataBytesUnknownEvidence (maxBytes valsCount : Z) : outcome Z :=
  let maxEvidenceBytes := snd (MaxEvidencePerBlock maxBytes) in
  let maxDataBytes := wrap64 (maxBytes - MaxAminoOverheadForBlock - MaxHeaderBytes
    - valsCount * MaxVoteBytes - maxEvidenceBytes) in
  if maxDataBytes <? 0 then Panic else Ret maxDataBytes.

Section Blocks.
Context (Sum : bytes → bytes) `{BlockCodec}.

(** [cdcEncode]: nothing for an empty string or slice, or a nil pointer. *)
Definition cdcEncode_string (s : bytes) : bytes := match s with [] => [] | _ => encString s end.
Definition cdcEncode_bytes (b : bytes) : bytes := match b with [] => [] | _ => encBytes b end.
Definition cdcEncode_sig (cs : option Vote) : bytes := match cs with None => [] | Some cs => encCommitSig cs end.

Definition Commit_Hash (commit : option Commit) : bytes :=
  match commit with
  | None => []
  | Some c => SimpleHashFromByteSlices Sum (cdcEncode_sig <$> commit_Precommits c)
  end.

Definition EvidenceList_Hash (evl : list DuplicateVoteEvidence) : bytes :=
  SimpleHashFromByteSlices Sum (encEvidence <$> evl).

(** The leaves of the tree, in the order of the code. *)
Definition header_leaves (h : Header) : list bytes :=
  [encVersion (hd_Version h); cdcEncode_string (hd_ChainID h); encInt64 (hd_Height h); encTime (hd_Time h);
   encInt64 (hd_NumTxs h); encInt64 (hd_TotalTxs h); encBlockID (hd_LastBlockID h);
   cdcEncode_bytes (hd_LastCommitHash h); cdcEncode_bytes (hd_DataHash h);
   cdcEncode_bytes (hd_ValidatorsHash h); cdcEncode_bytes (hd_NextValidatorsHash h);
   cdcEncode_bytes (hd_ConsensusHash h); cdcEncode_bytes (hd_AppHash h);
   cdcEncode_bytes (hd_LastResultsHash h); cdcEncode_bytes (hd_EvidenceHash h);
   cdcEncode_bytes (hd_ProposerAddress h)].

Definition Header_Hash (h : option Header) : bytes :=
  match h with
  | None => []
  | Some h => if zlen (hd_ValidatorsHash h) =? 0 then [] else SimpleHashFromByteSlices Sum (header_leaves h)
  end.

Definition Populate (h : Header) (version : Version) (chainID : bytes) (timestamp : Z) (lastBlockID : BlockID)
    (totalTxs : Z) (valHash nextValHash consensusHash appHash lastResultsHash proposerAddress : bytes) : Header :=
  {| hd_Version := version; hd_ChainID := chainID; hd_Height := hd_Height h; hd_Time := timestamp;
     hd_NumTxs := hd_NumTxs h; hd_TotalTxs := totalTxs; hd_LastBlockID := lastBlockID;
     hd_LastCommitHash := hd_LastCommitHash h; hd_DataHash := hd_DataHash h;
     hd_ValidatorsHash := valHash; hd_NextValidatorsHash := nextValHash; hd_ConsensusHash := consensusHash;
     hd_AppHash := appHash; hd_LastResultsHash := lastResultsHash; hd_EvidenceHash := hd_EvidenceHash h;
     hd_ProposerAddress := proposerAddress; hd_CrossMerkleRoot := hd_CrossMerkleRoot h;
     hd_CmRelation := hd_CmRelation h |}.

Definition or_hash (h computed : bytes) : bytes := match h with [] => computed | _ => h end.

Definition fillHeader (b : Block) : Block :=
  let h := blk_Header b in
  mkBlock (blk_Shard b)
    {| hd_Version := hd_Version h; hd_ChainID := hd_ChainID h; hd_Height := hd_Height h; hd_Time := hd_Time h;
       hd_NumTxs := hd_NumTxs h; hd_TotalTxs := hd_TotalTxs h; hd_LastBlockID := hd_LastBlockID h;
       hd_LastCommitHash := or_hash (hd_LastCommitHash h) (Commit_Hash (blk_LastCommit b));
       hd_DataHash := or_hash (hd_DataHash h) (Txs_Hash Sum (blk_Txs b));
       hd_ValidatorsHash := hd_ValidatorsHash h; hd_NextValidatorsHash := hd_NextValidatorsHash h;
       hd_ConsensusHash := hd_ConsensusHash h; hd_AppHash := hd_AppHash h;
       hd_LastResultsHash := hd_LastResultsHash h;
       hd_EvidenceHash := or_hash (hd_EvidenceHash h) (EvidenceList_Hash (blk_Evidence b));
       hd_ProposerAddress := hd_ProposerAddress h; hd_CrossMerkleRoot := hd_CrossMerkleRoot h;
       hd_CmRelation := hd_CmRelation h |}
    (blk_Txs b) (blk_Evidence b) (blk_LastCommit b).

(** [shard] is the TASKID of the environment. *)
Definition MakeBlock (shard : bytes) (height : Z) (txs : list Tx) (lastCommit : option Commit)
    (evidence : list DuplicateVoteEvidence) (pack_data : bytes) : Block :=
  fillHeader (mkBlock shard
    {| hd_Version := mkVersion 0 0; hd_ChainID := []; hd_Height := height; hd_Time := 0;
       hd_NumTxs := zlen txs; hd_TotalTxs := 0; hd_LastBlockID := zeroBlockID;
       hd_LastCommitHash := []; hd_DataHash := []; hd_ValidatorsHash := []; hd_NextValidatorsHash := [];
       hd_ConsensusHash := []; hd_AppHash := []; hd_LastResultsHash := []; hd_EvidenceHash := [];
       hd_ProposerAddress := []; hd_CrossMerkleRoot := []; hd_CmRelation := pack_data |}
    txs evidence lastCommit).

Inductive block_error :=
| ErrNilBlock | ErrChainIDTooLong | ErrNegativeHeaderHeight | ErrZeroHeaderHeight | ErrNumTxs | ErrNegativeTotalTxs
| ErrLastBlockID | ErrNilLastCommit | ErrWrongLastCommit | ErrLastCommitHash | ErrDataHash
| ErrValidatorsHash | ErrNextValidatorsHash | ErrConsensusHash | ErrLastResultsHash
| ErrEvidenceHash | ErrInvalidEvidence (i : Z) (err : evidence_error) | ErrProposerAddress.

Fixpoint validate_evidence (i : Z) (evl : list DuplicateVoteEvidence) : outcome (option block_error) :=
  match evl with
  | [] => Ret None
  | ev :: evl' =>
      err ← DVE_ValidateBasic ev;
      match err with
      | Some err => Ret (Some (ErrInvalidEvidence i err))
      | None => validate_evidence (i + 1) evl'
      end
  end.

Definition validate_last_commit (b : Block) : option block_error :=
  if 1 <? hd_Height (blk_Header b) then
    match blk_LastCommit b with
    | None => Some ErrNilLastCommit
    | Some c => match Commit_ValidateBasic c with Some _ => Some ErrWrongLastCommit | None => None end
    end
  else None.

Definition Block_ValidateBasic (b : option Block) : outcome (option block_error) :=
  match b with
  | None => Ret (Some ErrNilBlock)
  | Some b =>
      let h := blk_Header b in
      if MaxChainIDLen <? zlen (hd_ChainID h) then Ret (Some ErrChainIDTooLong)
      else if hd_Height h <? 0 then Ret (Some ErrNegativeHeaderHeight)
      else if hd_Height h =? 0 then Ret (Some ErrZeroHeaderHeight)
      else if negb (hd_NumTxs h =? zlen (blk_Txs b)) then Ret (Some ErrNumTxs)
      else if hd_TotalTxs h <? 0 then Ret (Some ErrNegativeTotalTxs)
      else if negb (BlockID_ValidateBasic (hd_LastBlockID h)) then Ret (Some ErrLastBlockID)
      else match validate_last_commit b with
      | Some err => Ret (Some err)
      | None =>
          if negb (ValidateHash (hd_LastCommitHash h)) then Ret (Some ErrLastCommitHash)
          else if negb (bytes_equal (hd_LastCommitHash h) (Commit_Hash (blk_LastCommit b)))
          then Ret (Some ErrLastCommitHash)
          else if negb (ValidateHash (hd_DataHash h)) then Ret (Some ErrDataHash)
          else if negb (bytes_equal (hd_DataHash h) (Txs_Hash Sum (blk_Txs b))) then Ret (Some ErrDataHash)
          else if negb (ValidateHash (hd_ValidatorsHash h)) then Ret (Some ErrValidatorsHash)
          else if negb (ValidateHash (hd_NextValidatorsHash h)) then Ret (Some ErrNextValidatorsHash)
          else if negb (ValidateHash (hd_ConsensusHash h)) then Ret (Some ErrConsensusHash)
          else if negb (ValidateHash (hd_LastResultsHash h)) then Ret (Some ErrLastResultsHash)
          else if negb (ValidateHash (hd_EvidenceHash h)) then Ret (Some ErrEvidenceHash)
          else
            err ← validate_evidence 0 (blk_Evidence b);
            match err with
            | Some err => Ret (Some err)
            | None =>
                if negb (bytes_equal (hd_EvidenceHash h) (EvidenceList_Hash (blk_Evidence b)))
                then Ret (Some ErrEvidenceHash)
                else if negb (zlen (hd_ProposerAddress h) =? AddressSize) then Ret (Some ErrProposerAddress)
                else Ret None
            end
      end
  end.

(** Returns the hash and the block, whose header may have been filled. *)
Definition Block_Hash (b : option Block) : bytes * option Block :=
  match b with
  | None => ([], None)
  | Some b =>
      match blk_LastCommit b with
      | None => ([], Some b)
      | Some _ => let b := fillHeader b in (Header_Hash (Some (blk_Header b)), Some b)
      end
  end.

Definition Block_HashesTo (b : option Block) (hash : bytes) : bool * option Block :=
  if zlen hash =? 0 then (false, b)
  else
    match b with
    | None => (false, b)
    | Some _ => let '(h, b) := Block_Hash b in (bytes_equal h hash, b)
    end.

Definition MakePartSet (b : option Block) (partSize : Z) : outcome (option PartSet) :=
  match b with
  | None => Ret None
  | Some b => Some <$> NewPartSetFromData Sum (marshalBlock b) partSize
  end.

Inductive signed_header_error :=
| ErrMissingHeader | ErrMissingCommit | ErrOtherChain | ErrHeightMismatch | ErrHashMismatch
| ErrSignedCommit (err : commit_error).

Definition SignedHeader_ValidateBasic (header : option Header) (commit : option Commit) (chainID : bytes) :
    option signed_header_error :=
  match header with
  | None => Some ErrMissingHeader
  | Some h =>
      match commit with
      | None => Some ErrMissingCommit
      | Some c =>
          if negb (bytes_equal (hd_ChainID h) chainID) then Some ErrOtherChain
          else if negb (Commit_Height c =? hd_Height h) then Some ErrHeightMismatch
          else if negb (bytes_equal (Header_Hash header) (bid_Hash (commit_BlockID c))) then Some ErrHashMismatch
          else match Commit_ValidateBasic c with Some err => Some (ErrSignedCommit err) | None => None end
      end
  end.

End Blocks.

(** ** Evidence from vote sets *)

Section EvidenceProofs.
Context `{Codec} `{Crypto}.

Lemma collect_parts_votes vs vote vs' : collect_parts vs vote = Ret vs' → vs_votes vs' = vs_votes vs.
Proof.
  unfold collect_parts. destruct (_ =? _); [|by intros [= ->]].
  intros (ps & _ & E)%bind_Ret. destruct (_ =? _); [by injection E as ->|].
  apply bind_Ret in E as (pbs & _ & E). by injection E as <-.
Qed.

(** A conflict is with the canonical vote of the same validator, for another block. *)
Lemma conflict_existing vs vote key pw vs' added c :
  addVerifiedVote vs vote key pw = Ret (vs', added, Some c) →
  slice_lookup (vs_votes vs) (vote_ValidatorIndex vote) = Some (Some c) ∧
  BlockID_Equals (vote_BlockID c) (vote_BlockID vote) = false.
Proof.
  unfold addVerifiedVote. intros (vs1 & E1 & E)%bind_Ret.
  apply bind_Ret in E as ([vs2 conflicting] & Ec & E).
  assert (conflicting = Some c) as ->.
  { destruct (vs_votesByBlock vs2 !! key) as [bv|], conflicting as [c'|];
      repeat (case_match || (apply bind_Ret in E as (? & _ & E))); by simplify_eq. }
  clear E. rewrite <-(collect_parts_votes _ _ _ E1). unfold add_canonical in Ec.
  apply bind_Ret in Ec as (o & Eo%or_panic_Ret & Ec). rewrite Eo. destruct o as [ex|].
  - destruct (BlockID_Equals (vote_BlockID ex) (vote_BlockID vote)) eqn:Eb; [done|].
    assert (ex = c) as ->; [|done].
    destruct (match vs_maj23 vs1 with Some m => _ | None => _ end); [|by simplify_eq].
    apply bind_Ret in Ec as (? & _ & Ec). apply bind_Ret in Ec as ([? ?] & _ & Ec). by simplify_eq.
  - apply bind_Ret in Ec as (? & _ & Ec). apply bind_Ret in Ec as ([? ?] & _ & Ec). by simplify_eq.
Qed.

(** What [addVote] checked before it reports a conflict. *)
Lemma addVote_conflict vs vote vs' added pk a b :
  addVote vs (Some vote) = Ret (vs', added, Some (ErrVoteConflictingVotes pk a b)) →
  b = vote ∧ vote_Height b = vs_height vs ∧ vote_Round b = vs_round vs ∧ vote_Type b = vs_type vs ∧
  0 ≤ vote_ValidatorIndex b ∧
  (∃ val, slice_lookup (Validators (vs_valSet vs)) (vote_ValidatorIndex b) = Some val ∧
     pk = val_PubKey val ∧ vote_ValidatorAddress b = val_Address val ∧
     Vote_Verify (vs_chainID vs) pk b = None) ∧
  slice_lookup (vs_votes vs) (vote_ValidatorIndex b) = Some (Some a) ∧
  BlockID_Equals (vote_BlockID a) (vote_BlockID b) = false.
Proof.
  unfold addVote. destruct (Z.ltb_spec (vote_ValidatorIndex vote) 0) as [|Hi]; [done|].
  destruct (_ =? 0); [done|]. destruct (_ || _ || _) eqn:Ehrs; [done|].
  apply orb_false_iff in Ehrs as [[Eh Er]%orb_false_iff Et].
  apply negb_false_iff, Z.eqb_eq in Eh, Er, Et.
  destruct (GetByIndex _ _) as [addr [val|]] eqn:Eg; [|done].
  destruct (bytes_equal _ addr) eqn:Ea; [cbn [negb]|done]. apply bytes_equal_true in Ea.
  intros (known & _ & E)%bind_Ret. destruct known as [ex|]; [by destruct (bytes_equal _ _); simplify_eq|].
  destruct (Vote_Verify _ _ _) as [err|] eqn:EV.
  { unfold Vote_Verify in EV. repeat case_match; by simplify_eq. }
  apply bind_Ret in E as ([[vs2 added2] [c|]] & Eadd & E); [|by destruct added2; simplify_eq].
  injection E as <- <- <- <- <-. destruct (conflict_existing _ _ _ _ _ _ _ Eadd) as [Hex Hb].
  unfold GetByIndex in Eg. destruct (_ || _); [done|].
  destruct (slice_lookup (Validators (vs_valSet vs)) (vote_ValidatorIndex vote)) as [v|] eqn:El; [|done].
  injection Eg as <- <-. split_and!; try done. exists v. done.
Qed.

(** A conflict reported by a vote set is proof of misbehaviour: the two votes of an
    [ErrVoteConflictingVotes] that a reachable vote set returns make evidence that
    [Verify] accepts for the key in the error, and that validator signed two
    different messages for one height, round and type. *)
Theorem conflict_is_evidence `{!CodecLaws} (valSet : ValidatorSet) (chainID : bytes) (height round type_ : Z)
    (vs vs' : VoteSet) (vote : Vote) (added : bool) (pk : bytes) (a b : Vote) :
  ValidatorSet.wf valSet → Validators valSet ≠ [] → reachable chainID height round type_ valSet vs →
  AddVote (Some vs) (Some vote) = Ret (vs', added, Some (ErrVoteConflictingVotes pk a b)) →
  DVE_Verify (mkDVE (Some pk) (Some a) (Some b)) chainID pk = Ret None ∧
  Vote_SignBytes chainID a ≠ Vote_SignBytes chainID b ∧
  VerifyBytes pk (Vote_SignBytes chainID a) (vote_Signature a) = true ∧
  VerifyBytes pk (Vote_SignBytes chainID b) (vote_Signature b) = true.
Proof.
  intros Hwf Hne Hr E. destruct (reachable_inv _ _ _ _ _ _ Hwf Hne Hr) as [Hinv HP].
  destruct (addVote_conflict _ _ _ _ _ _ _ E) as (-> & Hh & Hrd & Ht & Hi & (val & Hval & -> & Ha & HV) & Hex & Hb).
  apply slice_lookup_Some in Hex as [_ Hex]. apply slice_lookup_Some in Hval as [_ Hval].
  destruct (inv_good _ _ _ _ _ _ (vs_core _ Hinv) _ _ Hex) as [Gi (val' & Hval' & Ga & GV) Gh Gr Gt _].
  unfold params_of in Hval', GV, Gh, Gr, Gt, HP. cbn in Hval', GV, Gh, Gr, Gt. rewrite Hval in Hval'.
  injection Hval' as <-. injection HP as Hc _ _ _ _. rewrite Hc in *.
  unfold Vote_Verify in HV, GV.
  destruct (bytes_equal _ (vote_ValidatorAddress vote)) eqn:Eav; [cbn [negb] in HV|done].
  destruct (bytes_equal _ (vote_ValidatorAddress a)) eqn:Eaa; [cbn [negb] in GV|done].
  destruct (VerifyBytes _ _ (vote_Signature vote)) eqn:Esv; [|done].
  destruct (VerifyBytes _ _ (vote_Signature a)) eqn:Esa; [|done].
  split; [|split; [|done]].
  - unfold DVE_Verify. cbn [dve_VoteA dve_VoteB or_panic mbind outcome_bind].
    rewrite Gh, Gr, Gt, Hh, Hrd, Ht, !Z.eqb_refl, Ga, Ha. cbn [negb orb].
    rewrite (proj2 (bytes_equal_true _ _)) by done. cbn [negb].
    rewrite (proj2 (Z.eqb_eq _ _)) by lia. cbn [negb]. rewrite Hb, <-Ga, Eaa, Esa, Esv. done.
  - intros Esb. apply Vote_SignBytes_inj in Esb as (_ & _ & _ & _ & Ebid & _).
    by rewrite Ebid, BlockID_Equals_refl in Hb.
Qed.

End EvidenceProofs.

(** ** Blocks: validity and commitment *)

(** Amino encodings determine what they encode; those of a non-empty string or
    slice and of a signature are not empty. *)
Class BlockCodecLaws `{BlockCodec} : Prop := {
  encVersion_inj : ∀ a b, encVersion a = encVersion b → a = b;
  encString_inj : ∀ a b, encString a = encString b → a = b;
  encString_nonempty : ∀ a, a ≠ [] → encString a ≠ [];
  encInt64_inj : ∀ a b, encInt64 a = encInt64 b → a = b;
  encTime_inj : ∀ a b, encTime a = encTime b → a = b;
  encBlockID_inj : ∀ a b, encBlockID a = encBlockID b → a = b;
  encBytes_inj : ∀ a b, encBytes a = encBytes b → a = b;
  encBytes_nonempty : ∀ a, a ≠ [] → encBytes a ≠ [];
  encCommitSig_inj : ∀ a b, encCommitSig a = encCommitSig b → a = b;
  encCommitSig_nonempty : ∀ a, encCommitSig a ≠ [];
  encEvidence_inj : ∀ a b, encEvidence a = encEvidence b → a = b
}.

Section BlockProofs.
Context (Sum : bytes → bytes) (Sum_length : ∀ x, length (Sum x) = 32%nat) `{BlockCodecLaws}.

Lemma SimpleHash_valid items : ValidateHash (SimpleHashFromByteSlices Sum items) = true.
Proof.
  unfold ValidateHash. destruct items as [|x items]; [done|].
  unfold zlen. rewrite (SimpleHash_length Sum Sum_length) by done. done.
Qed.

Lemma Commit_Hash_valid c : ValidateHash (Commit_Hash Sum c) = true.
Proof. destruct c; [apply SimpleHash_valid|done]. Qed.

Lemma validate_evidence_ok i evl :
  (∀ ev, ev ∈ evl → DVE_ValidateBasic ev = Ret None) → validate_evidence i evl = Ret None.
Proof.
  revert i. induction evl as [|ev evl IH]; intros i Hev; cbn [validate_evidence]; [done|].
  rewrite Hev by set_solver. cbn [mbind outcome_bind]. apply IH. set_solver.
Qed.

(** Replaces the header of a block. *)
Definition with_header (b : Block) (h : Header) : Block :=
  mkBlock (blk_Shard b) h (blk_Txs b) (blk_Evidence b) (blk_LastCommit b).

(** [MakeBlock] followed by [Populate] produces a valid block: with a positive height,
    a valid last commit above height 1, valid evidence and well-formed state data,
    [ValidateBasic] accepts it. *)
Theorem MakeBlock_valid (shard : bytes) (height : Z) (txs : list Tx) (lastCommit : option Commit)
    (evidence : list DuplicateVoteEvidence) (pack_data : bytes)
    (version : Version) (chainID : bytes) (timestamp : Z) (lastBlockID : BlockID) (totalTxs : Z)
    (valHash nextValHash consensusHash appHash lastResultsHash proposerAddress : bytes) :
  0 < height →
  (1 < height → ∃ c, lastCommit = Some c ∧ Commit_ValidateBasic c = None) →
  (∀ ev, ev ∈ evidence → DVE_ValidateBasic ev = Ret None) →
  zlen chainID ≤ MaxChainIDLen → 0 ≤ totalTxs → BlockID_ValidateBasic lastBlockID = true →
  forallb ValidateHash [valHash; nextValHash; consensusHash; lastResultsHash] = true →
  zlen proposerAddress = AddressSize →
  let b := MakeBlock Sum shard height txs lastCommit evidence pack_data in
  Block_ValidateBasic Sum (Some (with_header b (Populate (blk_Header b) version chainID timestamp lastBlockID
    totalTxs valHash nextValHash consensusHash appHash lastResultsHash proposerAddress))) = Ret None.
Proof.
  intros Hh Hc Hev Hchain Htot Hlast Hhash Hprop b.
  cbn [forallb] in Hhash. rewrite !andb_true_iff in Hhash. destruct Hhash as (H1 & H2 & H3 & H4 & _).
  unfold Block_ValidateBasic, b, with_header.
  cbn [blk_Header blk_Txs blk_Evidence blk_LastCommit MakeBlock fillHeader Populate or_hash
       hd_Version hd_ChainID hd_Height hd_Time hd_NumTxs hd_TotalTxs hd_LastBlockID hd_LastCommitHash hd_DataHash
       hd_ValidatorsHash hd_NextValidatorsHash hd_ConsensusHash hd_AppHash hd_LastResultsHash hd_EvidenceHash
       hd_ProposerAddress hd_CrossMerkleRoot hd_CmRelation].
  rewrite (proj2 (Z.ltb_ge _ _)), (proj2 (Z.ltb_ge _ _)), (proj2 (Z.eqb_neq _ _)), Z.eqb_refl by lia.
  rewrite (proj2 (Z.ltb_ge _ _)), Hlast by lia. cbn [negb].
  match goal with |- context [validate_last_commit ?x] => assert (validate_last_commit x = None) as -> end.
  { unfold validate_last_commit. cbn. destruct (Z.ltb_spec 1 height) as [Hlt|]; [|done].
    destruct (Hc Hlt) as (c & -> & ->). done. }
  unfold Txs_Hash at 1, EvidenceList_Hash at 1. rewrite Commit_Hash_valid, !SimpleHash_valid, H1, H2, H3, H4.
  cbn [negb]. unfold bytes_equal. rewrite !bool_decide_eq_true_2 by done. cbn [negb].
  rewrite validate_evidence_ok by done. cbn [mbind outcome_bind].
  rewrite Hprop, Z.eqb_refl. done.
Qed.

(** The conditions [ValidateBasic] leaves on a block. *)
Lemma ValidateBasic_hashes b :
  Block_ValidateBasic Sum (Some b) = Ret None →
  hd_NumTxs (blk_Header b) = zlen (blk_Txs b) ∧
  hd_LastCommitHash (blk_Header b) = Commit_Hash Sum (blk_LastCommit b) ∧
  hd_DataHash (blk_Header b) = Txs_Hash Sum (blk_Txs b) ∧
  hd_EvidenceHash (blk_Header b) = EvidenceList_Hash Sum (blk_Evidence b).
Proof.
  unfold Block_ValidateBasic. intros E.
  repeat match type of E with
  | (if negb (bytes_equal ?a ?b) then _ else _) = _ =>
      destruct (bytes_equal a b) eqn:?; cbn [negb] in E; [|done]
  | (if negb (?a =? ?b) then _ else _) = _ => destruct (Z.eqb_spec a b); cbn [negb] in E; [|done]
  | (if ?c then _ else _) = _ => destruct c; [done|]
  | (match ?c with Some _ => _ | None => _ end) = _ => destruct c; [done|]
  | (_ ≫= _) = Ret _ => apply bind_Ret in E as ([?|] & _ & E); [done|]
  end.
  repeat match goal with Hb : bytes_equal _ _ = true |- _ => apply bytes_equal_true in Hb end. done.
Qed.

Lemma fillHeader_valid b : Block_ValidateBasic Sum (Some b) = Ret None → fillHeader Sum b = b.
Proof.
  intros (_ & Ec & Ed & Ee)%ValidateBasic_hashes. destruct b as [sh h txs ev lc]. destruct h. cbn in *.
  unfold fillHeader. cbn. unfold or_hash. rewrite <-Ec, <-Ed, <-Ee.
  by destruct hd_LastCommitHash0, hd_DataHash0, hd_EvidenceHash0.
Qed.

(** Everything hashed for a block. *)
Definition block_inputs (b : Block) : list bytes :=
  tree_inputs Sum (header_leaves (blk_Header b)) ++
  tree_inputs Sum (Tx_Hash Sum <$> blk_Txs b) ++ blk_Txs b ++
  match blk_LastCommit b with Some c => tree_inputs Sum (cdcEncode_sig <$> commit_Precommits c) | None => [] end ++
  tree_inputs Sum (encEvidence <$> blk_Evidence b).

Definition sig_inputs (b : Block) : list bytes :=
  match blk_LastCommit b with Some c => tree_inputs Sum (cdcEncode_sig <$> commit_Precommits c) | None => [] end.

Lemma block_inputs_sub b l :
  l = tree_inputs Sum (header_leaves (blk_Header b)) ∨ l = tree_inputs Sum (Tx_Hash Sum <$> blk_Txs b) ∨
  l = blk_Txs b ∨ l = sig_inputs b ∨ l = tree_inputs Sum (encEvidence <$> blk_Evidence b) →
  l ⊆ block_inputs b.
Proof.
  intros Hl x Hx. unfold block_inputs. rewrite !elem_of_app. fold (sig_inputs b).
  destruct Hl as [->|[->|[->|[->| ->]]]]; tauto.
Qed.

Lemma SimpleHash_inj_all l l' :
  no_collision Sum (tree_inputs Sum l) (tree_inputs Sum l') = true →
  SimpleHashFromByteSlices Sum l = SimpleHashFromByteSlices Sum l' → l = l'.
Proof.
  intros Hnc E. destruct l as [|x l]; [|by apply (SimpleHash_inj Sum Sum_length)].
  destruct l' as [|y l']; [done|]. pose proof (SimpleHash_length Sum Sum_length (y :: l') ltac:(done)) as Hl.
  by rewrite <-E in Hl.
Qed.

Lemma cdcEncode_bytes_inj a b : cdcEncode_bytes a = cdcEncode_bytes b → a = b.
Proof.
  destruct a as [|x a], b as [|y b]; cbn; intros E; [done|..].
  - symmetry in E. by apply encBytes_nonempty in E.
  - by apply encBytes_nonempty in E.
  - by apply encBytes_inj.
Qed.

Lemma cdcEncode_string_inj a b : cdcEncode_string a = cdcEncode_string b → a = b.
Proof.
  destruct a as [|x a], b as [|y b]; cbn; intros E; [done|..].
  - symmetry in E. by apply encString_nonempty in E.
  - by apply encString_nonempty in E.
  - by apply encString_inj.
Qed.

Lemma cdcEncode_sig_inj a b : cdcEncode_sig a = cdcEncode_sig b → a = b.
Proof.
  destruct a as [x|], b as [y|]; cbn; intros E; [by f_equal; apply encCommitSig_inj|..|done].
  - by apply encCommitSig_nonempty in E.
  - symmetry in E. by apply encCommitSig_nonempty in E.
Qed.

(** The fields the header hash leaves out. *)
Definition with_cross (h : Header) (root relation : bytes) : Header :=
  mkHeader (hd_Version h) (hd_ChainID h) (hd_Height h) (hd_Time h) (hd_NumTxs h) (hd_TotalTxs h) (hd_LastBlockID h)
    (hd_LastCommitHash h) (hd_DataHash h) (hd_ValidatorsHash h) (hd_NextValidatorsHash h) (hd_ConsensusHash h)
    (hd_AppHash h) (hd_LastResultsHash h) (hd_EvidenceHash h) (hd_ProposerAddress h) root relation.

Lemma header_leaves_inj h h' :
  header_leaves h = header_leaves h' → h' = with_cross h (hd_CrossMerkleRoot h') (hd_CmRelation h').
Proof.
  unfold header_leaves. intros E. injection E as E1 E2 E3 E4 E5 E6 E7 E8 E9 E10 E11 E12 E13 E14 E15 E16.
  apply encVersion_inj in E1. apply cdcEncode_string_inj in E2. apply encInt64_inj in E3, E5, E6.
  apply encTime_inj in E4. apply encBlockID_inj in E7.
  apply cdcEncode_bytes_inj in E8, E9, E10, E11, E12, E13, E14, E15, E16.
  destruct h, h'. unfold with_cross. cbn in *. subst. reflexivity.
Qed.

Lemma fmap_inj_on {A B} (f : A → B) (l l' : list A) :
  (∀ x y, x ∈ l → y ∈ l' → f x = f y → x = y) → f <$> l = f <$> l' → l = l'.
Proof.
  revert l'. induction l as [|x l IH]; intros [|y l'] Hf E; try done. csimpl in E. injection E as E1 E2.
  f_equal; [apply Hf; set_solver|apply IH; [|done]]. intros a b Ha Hb. apply Hf; set_solver.
Qed.

(** C31. The hash of a block commits to its contents: two valid blocks with the same non-empty
    hash (absent hash collisions) have the same header, except for the cross-shard
    root and relation, the same transactions, the same evidence and the same
    precommits of the last commit. The block id of the last commit is not hashed and may differ. *)
Theorem Block_Hash_commits (b b' : Block) (hash : bytes) :
  Block_ValidateBasic Sum (Some b) = Ret None → Block_ValidateBasic Sum (Some b') = Ret None →
  no_collision Sum (block_inputs b) (block_inputs b') = true →
  (Block_Hash Sum (Some b)).1 = hash → (Block_Hash Sum (Some b')).1 = hash → hash ≠ [] →
  blk_Header b' = with_cross (blk_Header b) (hd_CrossMerkleRoot (blk_Header b')) (hd_CmRelation (blk_Header b')) ∧
  blk_Txs b = blk_Txs b' ∧ blk_Evidence b = blk_Evidence b' ∧
  option_map commit_Precommits (blk_LastCommit b) = option_map commit_Precommits (blk_LastCommit b').
Proof.
  intros HV HV' Hnc Eh Eh' Hne. unfold Block_Hash in Eh, Eh'.
  destruct (blk_LastCommit b) as [c|] eqn:Ec; [|by subst]. destruct (blk_LastCommit b') as [c'|] eqn:Ec'; [|by subst].
  rewrite (fillHeader_valid b HV) in Eh. rewrite (fillHeader_valid b' HV') in Eh'. cbn [fst Header_Hash] in Eh, Eh'.
  destruct (zlen (hd_ValidatorsHash (blk_Header b)) =? 0); [by subst|].
  destruct (zlen (hd_ValidatorsHash (blk_Header b')) =? 0); [by subst|].
  assert (∀ l l', l ⊆ block_inputs b → l' ⊆ block_inputs b' → no_collision Sum l l' = true) as Hsub
    by (intros l l'; by apply no_collision_sub).
  assert (header_leaves (blk_Header b) = header_leaves (blk_Header b')) as Hleaves.
  { apply SimpleHash_inj_all; [apply Hsub; apply block_inputs_sub; tauto|exact (eq_trans Eh (eq_sym Eh'))]. }
  apply header_leaves_inj in Hleaves as Hh. split; [exact Hh|].
  destruct (ValidateBasic_hashes _ HV) as (_ & Hc1 & Hd1 & He1).
  destruct (ValidateBasic_hashes _ HV') as (_ & Hc2 & Hd2 & He2).
  rewrite Ec in Hc1. rewrite Ec' in Hc2. rewrite Hh in Hc2, Hd2, He2.
  cbn [with_cross hd_LastCommitHash hd_DataHash hd_EvidenceHash Commit_Hash] in Hc1, Hc2, Hd2, He2.
  rewrite Hc1 in Hc2. rewrite Hd1 in Hd2. rewrite He1 in He2. split_and!.
  - apply SimpleHash_inj_all in Hd2; [|apply Hsub; apply block_inputs_sub; tauto].
    eapply fmap_inj_on; [|exact Hd2]. intros x y Hx Hy Exy.
    eapply (no_collision_spec Sum _ _ x y Hnc); [| |done]; (eapply block_inputs_sub; [|done]; tauto).
  - apply SimpleHash_inj_all in He2; [|apply Hsub; apply block_inputs_sub; tauto].
    eapply fmap_inj_on; [|exact He2]. intros x y _ _. apply encEvidence_inj.
  - cbn. f_equal. apply SimpleHash_inj_all in Hc2.
    + eapply fmap_inj_on; [|exact Hc2]. intros x y _ _. apply cdcEncode_sig_inj.
    + apply Hsub; apply block_inputs_sub; unfold sig_inputs; rewrite ?Ec, ?Ec'; tauto.
Qed.

(** The header hash leaves the cross-shard fields out: replacing the cross-shard Merkle
    root and relation table of any header by any bytes does not change its hash. *)
Theorem Header_Hash_ignores_cross (h : Header) (root relation : bytes) :
  Header_Hash Sum (Some (with_cross h root relation)) = Header_Hash Sum (Some h).
Proof. done. Qed.

(** Transaction proofs: [Proof] of a transaction in the list returns a proof that
    [Validate]s against the hash of the list; and a proof that validates (absent
    hash collisions) is for a transaction of the list, the one at its index when its total
    is the number of transactions. *)
Theorem TxProof_exact (txs : list Tx) (tp : TxProof) (i : nat) (tx : Tx) :
  (txs !! i = Some tx →
   ∃ tp', Txs_Proof Sum txs (Z.of_nat i) = Ret tp' ∧ tp_Data tp' = tx ∧
     TxProof_Validate Sum tp' (Txs_Hash Sum txs) = None) ∧
  (txs ≠ [] → TxProof_Validate Sum tp (Txs_Hash Sum txs) = None →
   no_collision Sum (tree_inputs Sum (Tx_Hash Sum <$> txs)) (proof_inputs Sum (tp_Proof tp) (TxProof_Leaf Sum tp)) = true →
   no_collision Sum txs [tp_Data tp] = true →
   tp_Data tp ∈ txs ∧ (Total (tp_Proof tp) = zlen txs → slice_lookup txs (Index (tp_Proof tp)) = Some (tp_Data tp))).
Proof.
  split.
  - intros Hi. assert (Tx_Hash Sum <$> txs ≠ []) as Hne by (intros ->%fmap_nil_inv; done).
    destruct (simple_proofs_ok Sum _ Hne) as (proofs & E & _ & Hp).
    destruct (Hp i (Tx_Hash Sum tx)) as (sp & Hsp & HI & HT & HV); [by rewrite list_lookup_fmap, Hi|].
    unfold Txs_Proof. rewrite E. cbn [mbind outcome_bind]. rewrite (slice_get_ok _ _ _ Hi). cbn [mbind outcome_bind].
    rewrite (slice_get_ok _ _ _ Hsp). cbn [mbind outcome_bind]. eexists. split; [done|]. split; [done|].
    unfold TxProof_Validate. cbn [tp_RootHash tp_Proof tp_Data TxProof_Leaf].
    rewrite (proj2 (bytes_equal_true _ _)) by done. cbn [negb].
    rewrite (proj2 (Z.ltb_ge _ _)) by lia. rewrite (proj2 (Z.leb_gt _ _)).
    + unfold TxProof_Leaf. cbn [tp_Data]. by rewrite HV.
    + rewrite HT. unfold zlen. rewrite length_fmap. apply lookup_lt_Some in Hi. lia.
  - intros Hne HV Hnc Hnc'. unfold TxProof_Validate in HV.
    destruct (bytes_equal _ _) eqn:Er; [cbn [negb] in HV|done]. apply bytes_equal_true in Er.
    destruct (_ <? 0); [done|]. destruct (_ <=? 0); [done|].
    destruct (Verify _ _ _ _) eqn:EV; [done|]. rewrite <-Er in EV. unfold Txs_Hash in EV.
    destruct (verify_ok Sum Sum_length _ _ _ (ltac:(intros ->%fmap_nil_inv; done) : Tx_Hash Sum <$> txs ≠ []) Hnc EV)
      as [Hin Hat].
    assert (∀ t, t ∈ txs → Tx_Hash Sum t = TxProof_Leaf Sum tp → t = tp_Data tp) as Hinj.
    { intros t Ht Et. eapply no_collision_spec; [exact Hnc'|exact Ht|set_solver|exact Et]. }
    split.
    + apply list_elem_of_fmap in Hin as (t & Et & Ht). by rewrite <-(Hinj t Ht).
    + intros HT. unfold zlen in Hat. rewrite length_fmap in Hat. specialize (Hat HT).
      apply slice_lookup_Some in Hat as [H0' Hl]. rewrite list_lookup_fmap in Hl.
      destruct (txs !! _) as [t|] eqn:Et; [|done]. cbn in Hl. injection Hl as Hl.
      apply slice_lookup_Some. split; [done|]. rewrite Et. f_equal. apply Hinj; [by eapply list_elem_of_lookup_2|done].
Qed.

End BlockProofs.

(** ** Concrete blocks *)

Section Witnesses.
#[local] Existing Instance sample_codec.
#[local] Existing Instance sample_codec_laws.
#[local] Existing Instance sample_crypto.

Lemma conflict_is_evidence_witness :
  DVE_Verify (mkDVE (Some [x01]) (Some (sample_vote PrecommitType x02 0 x01))
    (Some (sample_vote PrecommitType x01 0 x01))) [x63] [x01] = Ret None.
Proof.
  refine (proj1 (conflict_is_evidence three_vals [x63] 5 0 PrecommitType
    (run_or PrecommitType (take 2 majority_votes)) majority_set (sample_vote PrecommitType x01 0 x01) false [x01]
    (sample_vote PrecommitType x02 0 x01) (sample_vote PrecommitType x01 0 x01) three_vals_wf _ _ _)).
  - done.
  - apply (run_reachable _ (take 2 majority_votes)); [|vm_compute; reflexivity].
    intros v Hv. repeat (apply elem_of_cons in Hv as [->|Hv]; [apply sample_vote_ok|]).
    by apply not_elem_of_nil in Hv.
  - vm_compute. reflexivity.
Defined.

Definition bid_code (b : BlockID) : bytes * (Z * bytes) :=
  (bid_Hash b, (psh_Total (bid_PartsHeader b), psh_Hash (bid_PartsHeader b))).

Definition sig_code (s : option PartSig) : option (bytes * Z) := option_map (λ s, (PeerCrossSig s, Id s)) s.

Definition vote_code (v : Vote) :=
  (vote_Type v, vote_Height v, vote_Round v, bid_code (vote_BlockID v), vote_Timestamp v,
   vote_ValidatorAddress v, vote_ValidatorIndex v, vote_Signature v, sig_code (vote_PartSig v),
   sig_code (vote_PartBlockSig v)).

Lemma bid_code_inj a b : bid_code a = bid_code b → a = b.
Proof. destruct a as [? []], b as [? []]. unfold bid_code. cbn. naive_solver. Qed.

Lemma sig_code_inj a b : sig_code a = sig_code b → a = b.
Proof. destruct a as [[]|], b as [[]|]; cbn; naive_solver. Qed.

Lemma vote_code_inj a b : vote_code a = vote_code b → a = b.
Proof.
  destruct a as [? ? ? [? []] ? ? ? ? [[]|] [[]|]], b as [? ? ? [? []] ? ? ? ? [[]|] [[]|]];
    unfold vote_code, bid_code; cbn; intros E; by simplify_eq.
Qed.

Definition dve_code (d : DuplicateVoteEvidence) :=
  (dve_PubKey d, option_map vote_code (dve_VoteA d), option_map vote_code (dve_VoteB d)).

Lemma dve_code_inj a b : dve_code a = dve_code b → a = b.
Proof.
  assert (∀ o o', option_map vote_code o = option_map vote_code o' → o = o') as Ho.
  { intros [v|] [v'|]; cbn; intros E; try done. f_equal. apply vote_code_inj. by apply (inj Some). }
  unfold dve_code. intros E.
  pose proof (f_equal (λ t, t.1.1) E) as E1. pose proof (f_equal (λ t, t.1.2) E) as E2%Ho.
  pose proof (f_equal (λ t, t.2) E) as E3%Ho. destruct a, b; cbn in *; congruence.
Qed.

#[local] Instance sample_block_codec : BlockCodec := {|
  encVersion v := encode_bytes (v_Block v, v_App v);
  encString s := x01 :: s;
  encInt64 z := encode_bytes z;
  encTime z := encode_bytes z;
  encBlockID b := encode_bytes (bid_code b);
  encBytes b := x01 :: b;
  encCommitSig v := x01 :: encode_bytes (vote_code v);
  encEvidence d := encode_bytes (dve_code d);
  marshalBlock b := x01 :: blk_Shard b
|}.

#[local] Instance sample_block_laws : BlockCodecLaws.
Proof.
  split; cbn; try done.
  - intros [a1 a2] [b1 b2] E%encode_bytes_inj. cbn in E. by injection E as -> ->.
  - by intros a b [= ->].
  - intros a b. apply encode_bytes_inj.
  - intros a b. apply encode_bytes_inj.
  - intros a b E%encode_bytes_inj. by apply bid_code_inj.
  - by intros a b [= ->].
  - intros a b [= E%encode_bytes_inj]. by apply vote_code_inj.
  - intros a b E%encode_bytes_inj. by apply dve_code_inj.
Qed.

Definition sample_txs : list bytes := [[x61]; [x62; x63]; [x64]].

Definition made_commit : Commit := NewCommit (sample_block x01) [None; None].

Definition made_block (root : bytes) : Block :=
  let b := MakeBlock pad32 [x41] 5 sample_txs (Some made_commit) [] [] in
  let h := Populate (blk_Header b) (mkVersion 1 1) [x63] 9 (sample_block x01) 3
    (replicate 32 x07) (replicate 32 x08) (replicate 32 x09) [x01] [] (replicate 20 x05) in
  with_header b (with_cross h root []).

Lemma MakeBlock_valid_witness : Block_ValidateBasic pad32 (Some (made_block [])) = Ret None.
Proof.
  apply (MakeBlock_valid pad32 pad32_length [x41] 5 sample_txs (Some made_commit) [] []
    (mkVersion 1 1) [x63] 9 (sample_block x01) 3
    (replicate 32 x07) (replicate 32 x08) (replicate 32 x09) [x01] [] (replicate 20 x05)).
  - lia.
  - intros _. exists made_commit. split; [reflexivity|vm_compute; reflexivity].
  - intros ev Hev. by apply not_elem_of_nil in Hev.
  - vm_compute. discriminate.
  - lia.
  - reflexivity.
  - reflexivity.
  - reflexivity.
Defined.

Definition block_hash : bytes := (Block_Hash pad32 (Some (made_block []))).1.

Lemma made_block_valid r : Block_ValidateBasic pad32 (Some (made_block r)) = Ret None.
Proof. vm_compute. reflexivity. Qed.

Lemma made_block_hash r : (Block_Hash pad32 (Some (made_block r))).1 = block_hash.
Proof. vm_compute. reflexivity. Qed.

Lemma made_blocks_nocol : no_collision pad32 (block_inputs pad32 (made_block [])) (block_inputs pad32 (made_block [x02])) = true.
Proof. vm_compute. reflexivity. Qed.

Lemma block_hash_nonempty : block_hash ≠ [].
Proof. vm_compute. discriminate. Qed.

(** The two blocks differ in their cross-shard root only. *)
Lemma Block_Hash_commits_witness : blk_Txs (made_block []) = blk_Txs (made_block [x02]).
Proof.
  exact (proj1 (proj2 (Block_Hash_commits pad32 pad32_length (made_block []) (made_block [x02]) block_hash
    (made_block_valid []) (made_block_valid [x02]) made_blocks_nocol (made_block_hash []) (made_block_hash [x02])
    block_hash_nonempty))).
Defined.

Definition txproof : TxProof :=
  match Txs_Proof pad32 sample_txs 1 with Ret tp => tp | Panic => mkTxProof [] [] (mkSimpleProof 0 0 None []) end.

Lemma TxProof_exact_witness : tp_Data txproof ∈ sample_txs.
Proof.
  apply (TxProof_exact pad32 pad32_length sample_txs txproof 1 [x62; x63]); [done|vm_compute; reflexivity..].
Defined.

End Witnesses.
