(* ===== verification/MedianTime.v ===== *)
(** * types/time/time.go and MedianTime of state/state.go: block time

    The time of a block is the median of the times in the precommits of the last
    commit, weighted by voting power. *)

From Stdlib Require Import ZArith Lia List Bool Strings.Byte.
From stdpp Require Import base list sets sorting.
From S2P Require Import Prelude Types ValidatorSet VerifyCommit.
Local Open Scope Z_scope.

Record WeightedTime := mkWeightedTime { wt_Time : Z; wt_Weight : Z }.

Definition NewWeightedTime (time weight : Z) : WeightedTime := mkWeightedTime time weight.

(** The zero [time.Time], in nanoseconds from the Unix epoch. *)
Definition zeroTime : Z := -62135596800000000000.

(** [Time.UnixNano]: an int64, which wraps for times before 1678 and after 2262. A time itself is not bounded. *)
Definition UnixNano (t : Z) : Z := wrap64 t.

(** The order [sort.Slice] is given: nil entries last. *)
Definition earlier (a b : option WeightedTime) : bool :=
  match a, b with
  | None, _ => false
  | Some _, None => true
  | Some a, Some b => UnixNano (wt_Time a) <? UnixNano (wt_Time b)
  end.

Fixpoint median_loop (median : Z) (l : list (option WeightedTime)) : Z :=
  match l with
  | [] => zeroTime
  | None :: l' => median_loop median l'
  | Some wt :: l' =>
      if median <=? wt_Weight wt then wt_Time wt else median_loop (wrap64 (median - wt_Weight wt)) l'
  end.

Definition WeightedMedian (weightedTimes : list (option WeightedTime)) (totalVotingPower : Z) : Z :=
  median_loop (totalVotingPower ÷ 2) (sort_Sort earlier weightedTimes).

(** One precommit: an index that is no validator's is a nil dereference. *)
Definition weighted (validators : ValidatorSet) (vote : option CommitSig) : outcome (option WeightedTime) :=
  match vote with
  | None => Ret None
  | Some vote =>
      validator ← or_panic (GetByIndex validators (vote_ValidatorIndex vote)).2;
      Ret (Some (NewWeightedTime (vote_Timestamp vote) (val_VotingPower validator)))
  end.

Definition wt_weight (o : option WeightedTime) : Z := match o with Some w => wt_Weight w | None => 0 end.

Definition MedianTime (commit : Commit) (validators : ValidatorSet) : outcome Z :=
  '(weightedTimes, totalVotingPower) ←
    foldM (λ acc vote,
      w ← weighted validators vote;
      Ret (fst acc ++ [w], wrap64 (snd acc + wt_weight w))) ([], 0) (commit_Precommits commit);
  Ret (WeightedMedian weightedTimes totalVotingPower).

(** ** The weight on either side of the median *)

Definition upto (t : Z) (o : option WeightedTime) : Z :=
  match o with Some w => if UnixNano (wt_Time w) <=? UnixNano t then wt_Weight w else 0 | None => 0 end.

Definition from (t : Z) (o : option WeightedTime) : Z :=
  match o with Some w => if UnixNano t <=? UnixNano (wt_Time w) then wt_Weight w else 0 | None => 0 end.

Definition positive_weights (l : list (option WeightedTime)) : Prop :=
  ∀ w, Some w ∈ l → 0 < wt_Weight w.

(** Sorted: no entry is earlier than one before it. *)
Definition in_order : list (option WeightedTime) → Prop :=
  StronglySorted (λ a b, earlier b a = false).

Lemma earlier_false_trans a b c : earlier b a = false → earlier c b = false → earlier c a = false.
Proof.
  destruct a as [a|], b as [b|], c as [c|]; cbn; try done.
  intros H1%Z.ltb_ge H2%Z.ltb_ge. apply Z.ltb_ge. lia.
Qed.

Lemma earlier_asym a b : earlier a b = true → earlier b a = false.
Proof.
  destruct a as [a|], b as [b|]; cbn; try done. intros H%Z.ltb_lt. apply Z.ltb_ge. lia.
Qed.

Lemma sort_insert_in_order x l : in_order l → in_order (sort_insert earlier x l).
Proof.
  induction 1 as [|y l Hs IH Hall]; cbn [sort_insert]; [by repeat constructor|].
  destruct (earlier x y) eqn:E.
  - constructor; [by constructor|]. constructor; [by apply earlier_asym|].
    eapply Forall_impl; [exact Hall|]. intros z Hz. eapply earlier_false_trans; [|exact Hz]. by apply earlier_asym.
  - constructor; [done|]. rewrite sort_insert_perm. by constructor.
Qed.

Lemma sort_in_order l : in_order (sort_Sort earlier l).
Proof. induction l as [|x l IH]; cbn; [constructor|by apply sort_insert_in_order]. Qed.

Lemma wt_weight_nonneg l : positive_weights l → 0 ≤ sumZ wt_weight l.
Proof. intros Hp. apply sumZ_nonneg. intros [w|] Hw; cbn; [|done]. specialize (Hp w Hw). lia. Qed.

Lemma from_all t l :
  (∀ w, Some w ∈ l → UnixNano t ≤ UnixNano (wt_Time w)) → sumZ (from t) l = sumZ wt_weight l.
Proof.
  intros Ht. apply sumZ_ext. intros [w|] Hw; [|done]. cbn. by rewrite (proj2 (Z.leb_le _ _)) by (by apply Ht).
Qed.

Lemma upto_nonneg t l : positive_weights l → 0 ≤ sumZ (upto t) l.
Proof.
  intros Hp. apply sumZ_nonneg. intros [w|] Hw; cbn; [|done]. specialize (Hp w Hw). destruct (_ <=? _); lia.
Qed.

(** The loop returns a time with at least the median on or before it, and all
    but less than the median on or after it. *)
Lemma median_loop_ok median l :
  in_order l → positive_weights l → 0 ≤ median ≤ MaxInt64 → median ≤ sumZ wt_weight l → 0 < sumZ wt_weight l →
  let t := median_loop median l in
  Z.max median 1 ≤ sumZ (upto t) l ∧ sumZ wt_weight l - Z.max (median - 1) 0 ≤ sumZ (from t) l.
Proof.
  intros Hs. revert median. induction Hs as [|o l Hs IH Hall]; intros median Hp Hm Hle Hpos;
    [rewrite sumZ_nil in Hpos; lia|].
  assert (positive_weights l) as Hp' by (intros w Hw; apply Hp; set_solver).
  rewrite !sumZ_cons in *. destruct o as [w|]; cbn [median_loop].
  2:{ specialize (IH median Hp' Hm). rewrite !sumZ_cons. cbn [wt_weight upto from] in *. apply IH; lia. }
  pose proof (Hp w (list_elem_of_here _ _)) as Hw. cbn [wt_weight] in *.
  assert (∀ x, Some x ∈ l → UnixNano (wt_Time w) ≤ UnixNano (wt_Time x)) as Hafter.
  { intros x Hx. rewrite Forall_forall in Hall. specialize (Hall _ Hx). cbn in Hall. by apply Z.ltb_ge. }
  destruct (Z.leb_spec median (wt_Weight w)) as [Hin|Hout].
  - rewrite !sumZ_cons. cbn [upto from]. rewrite (proj2 (Z.leb_le _ _)) by lia.
    rewrite from_all by done. pose proof (upto_nonneg (wt_Time w) l Hp'). lia.
  - rewrite wrap64_id by (unfold in_int64, MinInt64; lia).
    destruct (IH (median - wt_Weight w) Hp') as [H1 H2]; [lia|lia|lia|].
    set (t := median_loop _ l) in *. rewrite !sumZ_cons. cbn [upto from].
    assert (UnixNano (wt_Time w) ≤ UnixNano t) as Ht.
    { destruct (Z.le_gt_cases (UnixNano (wt_Time w)) (UnixNano t)) as [|Hlt]; [done|].
      assert (sumZ (upto t) l = 0) as E0; [|lia].
      rewrite (sumZ_ext (upto t) (λ _, 0)).
      - clear. induction l as [|x l IH]; [done|]. rewrite sumZ_cons, IH. done.
      - intros [x|] Hx; [|done]. cbn. specialize (Hafter x Hx). by rewrite (proj2 (Z.leb_gt _ _)) by lia. }
    rewrite (proj2 (Z.leb_le _ _)) by lia. destruct (_ <=? _); lia.
Qed.

(** The result is one of the times. *)
Lemma median_loop_elem m l :
  positive_weights l → 0 ≤ m ≤ MaxInt64 → m ≤ sumZ wt_weight l → 0 < sumZ wt_weight l →
  ∃ w, Some w ∈ l ∧ wt_Time w = median_loop m l.
Proof.
  revert m. induction l as [|o l IH]; intros m Hp Hm Hle Hpos; [rewrite sumZ_nil in Hpos; lia|].
  assert (positive_weights l) as Hp' by (intros w Hw; apply Hp; set_solver).
  rewrite sumZ_cons in *. destruct o as [w|]; cbn [median_loop wt_weight] in *.
  - pose proof (Hp w (list_elem_of_here _ _)) as Hw. destruct (Z.leb_spec m (wt_Weight w)); [exists w; split; [left|done]|].
    rewrite wrap64_id by (unfold in_int64, MinInt64; lia).
    destruct (IH (m - wt_Weight w) Hp') as (x & Hx & E); [lia..|]. exists x. split; [by right|done].
  - destruct (IH m Hp') as (x & Hx & E); [lia..|]. exists x. split; [by right|done].
Qed.

Lemma median_elem l total :
  positive_weights l → total = sumZ wt_weight l → 0 < total ≤ MaxInt64 → ∃ w, Some w ∈ l ∧ wt_Time w = WeightedMedian l total.
Proof.
  intros Hp -> Htot. unfold WeightedMedian. rewrite Z.quot_div_nonneg by lia.
  pose proof (sort_Sort_perm earlier l) as Hperm. pose proof (sumZ_perm wt_weight _ _ Hperm) as Es.
  pose proof (Z.div_le_upper_bound (sumZ wt_weight l) 2 (sumZ wt_weight l)). pose proof (Z.div_pos (sumZ wt_weight l) 2).
  destruct (median_loop_elem (sumZ wt_weight l / 2) (sort_Sort earlier l)) as (w & Hw & E); [|lia..|].
  - intros w Hw. apply Hp. by rewrite <-Hperm.
  - exists w. split; [by rewrite <-Hperm|done].
Qed.

Lemma WeightedMedian_ok l total :
  positive_weights l → total = sumZ wt_weight l → 0 < total ≤ MaxInt64 →
  let t := WeightedMedian l total in
  Z.max (total / 2) 1 ≤ sumZ (upto t) l ∧ total - Z.max (total / 2 - 1) 0 ≤ sumZ (from t) l.
Proof.
  intros Hp -> Htot. unfold WeightedMedian. rewrite Z.quot_div_nonneg by lia.
  pose proof (sort_Sort_perm earlier l) as Hperm.
  pose proof (Z.div_le_upper_bound (sumZ wt_weight l) 2 (sumZ wt_weight l)).
  pose proof (Z.div_pos (sumZ wt_weight l) 2).
  destruct (median_loop_ok (sumZ wt_weight l / 2) (sort_Sort earlier l)) as [H1 H2];
    rewrite ?Hperm; try lia.
  - apply sort_in_order.
  - intros w Hw. apply Hp. by rewrite <-Hperm.
  - set (t := median_loop _ _) in *. rewrite (sumZ_perm (upto t) _ _ Hperm) in H1.
    rewrite (sumZ_perm (from t) _ _ Hperm), (sumZ_perm wt_weight _ _ Hperm) in H2. done.
Qed.

(** ** The time of a commit *)

Section Commit.
Context (validators : ValidatorSet) (Hwf : wf validators).

(** The weight and time [MedianTime] gives a precommit. *)
Definition vote_wt (vote : option CommitSig) : option WeightedTime :=
  match vote with
  | Some v =>
      match (GetByIndex validators (vote_ValidatorIndex v)).2 with
      | Some val => Some (mkWeightedTime (vote_Timestamp v) (val_VotingPower val))
      | None => None
      end
  | None => None
  end.

(** Every precommit is of a validator. *)
Definition known (pcs : list (option CommitSig)) : Prop :=
  ∀ v, Some v ∈ pcs → is_Some (GetByIndex validators (vote_ValidatorIndex v)).2.

Definition present_power (pcs : list (option CommitSig)) : Z := sumZ (λ v, wt_weight (vote_wt v)) pcs.

Lemma GetByIndex_elem i val : (GetByIndex validators i).2 = Some val → val ∈ Validators validators.
Proof.
  unfold GetByIndex. destruct (_ || _); [done|]. destruct (slice_lookup _ _) as [v|] eqn:E; [|done].
  cbn. intros [= <-]. apply slice_lookup_Some in E as [_ E]. by eapply list_elem_of_lookup_2.
Qed.

Lemma vote_wt_pos o w : vote_wt o = Some w → 0 < wt_Weight w.
Proof.
  destruct o as [v|]; [|done]. cbn. destruct (GetByIndex _ _).2 as [val|] eqn:E; [|done]. intros [= <-].
  apply GetByIndex_elem in E. by apply (wf_power _ Hwf).
Qed.

Lemma weight_nonneg o : 0 ≤ wt_weight (vote_wt o).
Proof. destruct (vote_wt o) as [w|] eqn:E; cbn; [apply vote_wt_pos in E; lia|done]. Qed.

Lemma median_fold_ok pcs acc tot :
  known pcs → 0 ≤ tot → tot + present_power pcs ≤ MaxInt64 →
  foldM (λ acc vote, w ← weighted validators vote; Ret (fst acc ++ [w], wrap64 (snd acc + wt_weight w)))
    (acc, tot) pcs = Ret (acc ++ (vote_wt <$> pcs), tot + present_power pcs).
Proof.
  revert acc tot. induction pcs as [|o pcs IH]; intros acc tot Hk Htot Hmax; cbn [foldM].
  { by rewrite app_nil_r, Z.add_0_r. }
  assert (weighted validators o = Ret (vote_wt o)) as ->.
  { destruct o as [v|]; [|done]. cbn. destruct (Hk v (list_elem_of_here _ _)) as [val ->]. done. }
  unfold present_power in *. rewrite sumZ_cons in *. pose proof (weight_nonneg o).
  assert (0 ≤ sumZ (λ v, wt_weight (vote_wt v)) pcs) by (apply sumZ_nonneg; intros; apply weight_nonneg).
  cbn [mbind outcome_bind fst snd]. rewrite wrap64_id by (unfold in_int64, MinInt64; lia).
  rewrite IH; [|intros v Hv; apply Hk; set_solver|lia|lia].
  csimpl. rewrite <-app_assoc. do 2 f_equal. lia.
Qed.

(** C37. The block time cannot be pushed outside the honest times: if the precommits of a
    commit are of validators, and those of faulty validators have less than a third
    of the power present, [MedianTime] does not panic and returns the timestamp of one of them, whose UnixNano is between those
    of two precommits that are not faulty. When all timestamps are in the range of UnixNano (1678 to 2262) the
    time itself is between theirs; otherwise it need not be ([far_future_median]). *)
Theorem MedianTime_between_honest (commit : Commit) (faulty : CommitSig → bool) :
  known (commit_Precommits commit) → 0 < present_power (commit_Precommits commit) ≤ MaxInt64 →
  3 * sumZ (λ o, match o with Some v => if faulty v then wt_weight (vote_wt o) else 0 | None => 0 end)
        (commit_Precommits commit) < present_power (commit_Precommits commit) →
  ∃ t v1 v2, MedianTime commit validators = Ret t ∧
    (∃ v, Some v ∈ commit_Precommits commit ∧ vote_Timestamp v = t) ∧
    Some v1 ∈ commit_Precommits commit ∧ faulty v1 = false ∧ UnixNano (vote_Timestamp v1) ≤ UnixNano t ∧
    Some v2 ∈ commit_Precommits commit ∧ faulty v2 = false ∧ UnixNano t ≤ UnixNano (vote_Timestamp v2) ∧
    ((∀ v, Some v ∈ commit_Precommits commit → in_int64 (vote_Timestamp v)) → vote_Timestamp v1 ≤ t ≤ vote_Timestamp v2).
Proof.
  set (pcs := commit_Precommits commit). intros Hk Htot Hf. unfold MedianTime. fold pcs.
  rewrite median_fold_ok by (done || lia). cbn [mbind outcome_bind app]. rewrite Z.add_0_l.
  set (ws := vote_wt <$> pcs).
  assert (positive_weights ws) as Hpos.
  { intros w (o & E & _)%list_elem_of_fmap. by apply (vote_wt_pos o). }
  assert (present_power pcs = sumZ wt_weight ws) as Htw by (unfold ws; by rewrite sumZ_fmap).
  destruct (WeightedMedian_ok ws (present_power pcs) Hpos Htw Htot) as [Hlo Hhi].
  set (t := WeightedMedian ws (present_power pcs)) in *.
  unfold ws in Hlo, Hhi. rewrite sumZ_fmap in Hlo, Hhi.
  set (fp := sumZ _ pcs) in Hf.
  assert (∀ g : option CommitSig → Z, (∀ o, g o ≤ wt_weight (vote_wt o)) → fp < sumZ g pcs →
    ∃ v, Some v ∈ pcs ∧ faulty v = false ∧ 0 < g (Some v)) as Hpick.
  { intros g Hg Hlt. destruct (sumZ_lt_elem _ _ _ Hlt) as ([v|] & Hin & Hv).
    - exists v. specialize (Hg (Some v)). destruct (faulty v); [lia|done].
    - specialize (Hg None). cbn in Hg. lia. }
  assert (0 ≤ fp) as Hfp.
  { apply sumZ_nonneg. intros [v|] _; [|done]. destruct (faulty v); [apply weight_nonneg|done]. }
  destruct (Hpick (upto t ∘ vote_wt)) as (v1 & Hin1 & Hf1 & Hg1).
  { intros o. cbn. pose proof (weight_nonneg o). destruct (vote_wt o) as [w|]; cbn in *; [|done].
    destruct (_ <=? _); lia. }
  { Z.div_mod_to_equations. lia. }
  destruct (Hpick (from t ∘ vote_wt)) as (v2 & Hin2 & Hf2 & Hg2).
  { intros o. cbn. pose proof (weight_nonneg o). destruct (vote_wt o) as [w|]; cbn in *; [|done].
    destruct (_ <=? _); lia. }
  { Z.div_mod_to_equations. lia. }
  assert (∃ v, Some v ∈ pcs ∧ vote_Timestamp v = t) as (v & Hv & Ev).
  { destruct (median_elem ws (present_power pcs) Hpos Htw Htot) as (w & Hw & Et).
    apply list_elem_of_fmap in Hw as ([v|] & E & Hv); [|done]. exists v. split; [done|]. cbn in E.
    destruct (GetByIndex validators (vote_ValidatorIndex v)).2; [|done]. injection E as ->. exact Et. }
  assert (UnixNano (vote_Timestamp v1) ≤ UnixNano t) as H1.
  { cbn in Hg1. destruct (GetByIndex validators (vote_ValidatorIndex v1)).2; cbn in Hg1; [|lia].
    by destruct (Z.leb_spec (UnixNano (vote_Timestamp v1)) (UnixNano t)); [|lia]. }
  assert (UnixNano t ≤ UnixNano (vote_Timestamp v2)) as H2.
  { cbn in Hg2. destruct (GetByIndex validators (vote_ValidatorIndex v2)).2; cbn in Hg2; [|lia].
    by destruct (Z.leb_spec (UnixNano t) (UnixNano (vote_Timestamp v2))); [|lia]. }
  exists t, v1, v2. split_and!; [done|by exists v|done..|]. intros Hrange. unfold UnixNano in H1, H2.
  rewrite <-Ev in *. rewrite !wrap64_id in H1, H2 by auto. lia.
Qed.

End Commit.

(** ** A concrete commit: the second of three validators is faulty *)

Definition timed_precommit (idx t : Z) : CommitSig :=
  mkVote PrecommitType 5 0 zeroBlockID t [] idx [] None None.

Definition timed_commit : Commit :=
  NewCommit zeroBlockID
    [Some (timed_precommit 0 10); Some (timed_precommit 1 9000); Some (timed_precommit 2 12)].

Lemma MedianTime_between_honest_witness :
  ∃ t v1 v2, MedianTime timed_commit sample_vals = Ret t ∧
    vote_Timestamp v1 ≤ t ∧ t ≤ vote_Timestamp v2 ∧ vote_ValidatorIndex v1 ≠ 1 ∧ vote_ValidatorIndex v2 ≠ 1.
Proof.
  destruct (MedianTime_between_honest sample_vals sample_vals_wf timed_commit (λ v, vote_ValidatorIndex v =? 1))
    as (t & v1 & v2 & E & _ & _ & F1 & _ & _ & F2 & _ & HL).
  - intros v Hv. repeat (apply elem_of_cons in Hv as [[= ->]|Hv]; [by eexists|]). by apply not_elem_of_nil in Hv.
  - split; [vm_compute; reflexivity|vm_compute; discriminate].
  - vm_compute. reflexivity.
  - exists t, v1, v2. apply Z.eqb_neq in F1, F2. destruct HL as [L1 L2].
    { intros v Hv. repeat (apply elem_of_cons in Hv as [[= ->]|Hv]; [split; vm_compute; discriminate|]). by apply not_elem_of_nil in Hv. }
    split; [exact E|]. split; [exact L1|]. split; [exact L2|]. split; [exact F1|exact F2].
Defined.

(** A vote of a faulty validator (with a fifth of the power) dated 2^64 nanoseconds (584 years) after a correct one sorts next to it, and its time
    becomes the time of the block: centuries after every correct time. *)
Lemma far_future_median :
  MedianTime (NewCommit zeroBlockID [Some (timed_precommit 0 10); Some (timed_precommit 1 (2 ^ 64 + 11)); Some (timed_precommit 2 12)])
    (mkValidatorSet [mkValidator [x01] [x0a] 4 0; mkValidator [x02] [x0b] 2 0; mkValidator [x03] [x0c] 4 0] None 0)
  = Ret (2 ^ 64 + 11).
Proof. vm_compute. reflexivity. Qed.
