(* ===== verification/StateStore.v ===== *)
(** * state: consensus parameters, the state, its store, block validation

    types/params.go, types/results.go, state/state.go, state/store.go,
    state/validation.go and the state update of state/execution.go. The database
    maps formatted keys to amino encodings; the keys of the three families and of
    the state are distinct, so it is a record of maps from heights, and what is read is
    what was written, except for the unexported cached total of a validator set, which
    reads as zero. [cmn.Exit] on corrupt data does not arise. *)

From Stdlib Require Import ZArith Lia List Bool Strings.Byte Strings.String.
From stdpp Require Import base list gmap.
From S2P Require Import Prelude Types ValidatorSet ValidatorUpdates VerifyCommit Merkle Block.
Import ListNotations.
Local Open Scope Z_scope.
Local Open Scope list_scope.

(** ** params.go *)

Definition MaxBlockSizeBytes : Z := 1048576000.

Definition ABCIPubKeyTypeEd25519 : bytes := list_byte_of_string "ed25519".
Definition ABCIPubKeyTypeSecp256k1 : bytes := list_byte_of_string "secp256k1".
Definition ABCIPubKeyTypeBLS : bytes := list_byte_of_string "bls".

(** The keys of [ABCIPubKeyTypesToAminoNames]. *)
Definition known_key_type (t : bytes) : bool :=
  bytes_equal t ABCIPubKeyTypeEd25519 || bytes_equal t ABCIPubKeyTypeSecp256k1 || bytes_equal t ABCIPubKeyTypeBLS.

Record BlockParams := mkBlockParams { bp_MaxBytes : Z; bp_MaxGas : Z; bp_TimeIotaMs : Z }.

Record ConsensusParams := mkConsensusParams {
  cp_Block : BlockParams;
  cp_MaxAge : Z;
  cp_PubKeyTypes : list bytes
}.

#[export] Instance BlockParams_eq_dec : EqDecision BlockParams.
Proof. solve_decision. Defined.

#[export] Instance ConsensusParams_eq_dec : EqDecision ConsensusParams.
Proof. solve_decision. Defined.

Definition DefaultBlockParams : BlockParams := mkBlockParams (1024 * 1024 * 2) (-1) 1000.

Definition DefaultConsensusParams : ConsensusParams :=
  mkConsensusParams DefaultBlockParams 100000 [ABCIPubKeyTypeEd25519; ABCIPubKeyTypeBLS].

Definition IsValidPubkeyType (types : list bytes) (pubkeyType : bytes) : bool :=
  existsb (λ t, bytes_equal t pubkeyType) types.

Inductive params_error :=
| ErrMaxBytesSmall | ErrMaxBytesBig | ErrMaxGas | ErrTimeIota | ErrMaxAge | ErrNoKeyTypes | ErrUnknownKeyType.

Definition Params_Validate (params : ConsensusParams) : option params_error :=
  if bp_MaxBytes (cp_Block params) <=? 0 then Some ErrMaxBytesSmall
  else if MaxBlockSizeBytes <? bp_MaxBytes (cp_Block params) then Some ErrMaxBytesBig
  else if bp_MaxGas (cp_Block params) <? -1 then Some ErrMaxGas
  else if bp_TimeIotaMs (cp_Block params) <=? 0 then Some ErrTimeIota
  else if cp_MaxAge params <=? 0 then Some ErrMaxAge
  else if zlen (cp_PubKeyTypes params) =? 0 then Some ErrNoKeyTypes
  else if forallb known_key_type (cp_PubKeyTypes params) then None
  else Some ErrUnknownKeyType.

Definition Params_Equals (p q : ConsensusParams) : bool := bool_decide (p = q).

(** abci.ConsensusParams: each part may be nil. *)
Record ABCIParams := mkABCIParams {
  ap_Block : option (Z * Z);
  ap_MaxAge : option Z;
  ap_PubKeyTypes : option (list bytes)
}.

Definition Params_Update (params : ConsensusParams) (params2 : option ABCIParams) : ConsensusParams :=
  match params2 with
  | None => params
  | Some p2 =>
      let block := match ap_Block p2 with
                   | Some (maxBytes, maxGas) => mkBlockParams maxBytes maxGas (bp_TimeIotaMs (cp_Block params))
                   | None => cp_Block params
                   end in
      mkConsensusParams block (default (cp_MaxAge params) (ap_MaxAge p2))
        (default (cp_PubKeyTypes params) (ap_PubKeyTypes p2))
  end.

(** ** results.go and the ABCI responses of a block *)

(** The parts of abci.ResponseDeliverTx that are hashed. *)
Record ABCIResult := mkABCIResult { res_Code : Z; res_Data : bytes }.

(** abci.ValidatorUpdate: the type and the data of a key, and its power. *)
Record ValidatorUpdate := mkValidatorUpdate { vu_KeyType : bytes; vu_KeyData : bytes; vu_Power : Z }.

(** The results of the transactions, and the updates of the response to EndBlock. *)
Record ABCIResponses := mkABCIResponses {
  ar_DeliverTx : list ABCIResult;
  ar_ConsensusParamUpdates : option ABCIParams;
  ar_ValidatorUpdates : list ValidatorUpdate
}.

Definition ResultsHash (Sum : bytes → bytes) (encResult : ABCIResult → bytes) (arz : ABCIResponses) : bytes :=
  SimpleHashFromByteSlices Sum (encResult <$> ar_DeliverTx arz).

(** ** state.go *)

Record State := mkState {
  st_Version : Version;
  st_ChainID : bytes;
  st_LastBlockHeight : Z;
  st_LastBlockTotalTx : Z;
  st_LastBlockID : BlockID;
  st_LastBlockTime : Z;
  st_NextValidators : ValidatorSet;
  st_Validators : ValidatorSet;
  st_LastValidators : ValidatorSet;
  st_LastHeightValidatorsChanged : Z;
  st_ConsensusParams : ConsensusParams;
  st_LastHeightConsensusParamsChanged : Z;
  st_LastResultsHash : bytes;
  st_AppHash : bytes;
  st_SpTxBuf : list bytes;
  st_HashSignature : bytes
}.

Definition State_Copy (state : State) : State :=
  mkState (st_Version state) (st_ChainID state) (st_LastBlockHeight state) (st_LastBlockTotalTx state)
    (st_LastBlockID state) (st_LastBlockTime state)
    (Copy (st_NextValidators state)) (Copy (st_Validators state)) (Copy (st_LastValidators state))
    (st_LastHeightValidatorsChanged state) (st_ConsensusParams state) (st_LastHeightConsensusParamsChanged state)
    (st_LastResultsHash state) (st_AppHash state) [] (st_HashSignature state).

(** ** store.go *)

Definition valSetCheckpointInterval : Z := 100000.

Record ValidatorsInfo := mkValidatorsInfo { vi_ValidatorSet : option ValidatorSet; vi_LastHeightChanged : Z }.

Record ConsensusParamsInfo := mkConsensusParamsInfo { cpi_ConsensusParams : ConsensusParams; cpi_LastHeightChanged : Z }.

Record StateDB := mkStateDB {
  db_validators : gmap Z ValidatorsInfo;
  db_params : gmap Z ConsensusParamsInfo;
  db_responses : gmap Z ABCIResponses;
  db_state : option State
}.

Definition put_validators (db : StateDB) (height : Z) (info : ValidatorsInfo) : StateDB :=
  mkStateDB (<[height := info]> (db_validators db)) (db_params db) (db_responses db) (db_state db).

(** The cached total is not serialized. *)
Definition decoded (vals : ValidatorSet) : ValidatorSet := mkValidatorSet (Validators vals) (Proposer vals) 0.

Definition loadValidatorsInfo (db : StateDB) (height : Z) : option ValidatorsInfo :=
  option_map (λ info, mkValidatorsInfo (option_map decoded (vi_ValidatorSet info)) (vi_LastHeightChanged info))
    (db_validators db !! height).

Definition saveValidatorsInfo (db : StateDB) (height lastHeightChanged : Z) (valSet : ValidatorSet) : outcome StateDB :=
  if height <? lastHeightChanged then Panic
  else
    Ret (put_validators db height
      (mkValidatorsInfo
         (if (height =? lastHeightChanged) || (Z.rem height valSetCheckpointInterval =? 0) then Some valSet else None)
         lastHeightChanged)).

Definition lastStoredHeightFor (height lastHeightChanged : Z) : Z :=
  Z.max (height - Z.rem height valSetCheckpointInterval) lastHeightChanged.

(** [None] is [ErrNoValSetForHeight]. *)
Definition LoadValidators (db : StateDB) (height : Z) : outcome (option ValidatorSet) :=
  match loadValidatorsInfo db height with
  | None => Ret None
  | Some valInfo =>
      match vi_ValidatorSet valInfo with
      | Some vals => Ret (Some vals)
      | None =>
          let lastStoredHeight := lastStoredHeightFor height (vi_LastHeightChanged valInfo) in
          let stored h := loadValidatorsInfo db h ≫= vi_ValidatorSet in
          '(vals, lastStoredHeight) ←
            match stored lastStoredHeight with
            | Some vals => Ret (vals, lastStoredHeight)
            | None =>
                match stored (vi_LastHeightChanged valInfo) with
                | Some vals => Ret (vals, vi_LastHeightChanged valInfo)
                | None => Panic
                end
            end;
          vals ← IncrementProposerPriority vals (height - lastStoredHeight);
          Ret (Some vals)
      end
  end.

Definition emptyParams : ConsensusParams := mkConsensusParams (mkBlockParams 0 0 0) 0 [].

Definition saveConsensusParamsInfo (db : StateDB) (nextHeight changeHeight : Z) (params : ConsensusParams) : StateDB :=
  mkStateDB (db_validators db)
    (<[nextHeight := mkConsensusParamsInfo (if changeHeight =? nextHeight then params else emptyParams) changeHeight]>
       (db_params db)) (db_responses db) (db_state db).

(** [None] is [ErrNoConsensusParamsForHeight]. *)
Definition LoadConsensusParams (db : StateDB) (height : Z) : outcome (option ConsensusParams) :=
  match db_params db !! height with
  | None => Ret None
  | Some info =>
      if Params_Equals (cpi_ConsensusParams info) emptyParams then
        match db_params db !! cpi_LastHeightChanged info with
        | None => Panic
        | Some info2 => Ret (Some (cpi_ConsensusParams info2))
        end
      else Ret (Some (cpi_ConsensusParams info))
  end.

Definition saveABCIResponses (db : StateDB) (height : Z) (responses : ABCIResponses) : StateDB :=
  mkStateDB (db_validators db) (db_params db) (<[height := responses]> (db_responses db)) (db_state db).

Definition LoadABCIResponses (db : StateDB) (height : Z) : option ABCIResponses := db_responses db !! height.

Definition SaveState (db : StateDB) (state : State) : outcome StateDB :=
  let nextHeight := st_LastBlockHeight state + 1 in
  db ← if nextHeight =? 1 then saveValidatorsInfo db nextHeight 1 (st_Validators state) else Ret db;
  db ← saveValidatorsInfo db (nextHeight + 1) (st_LastHeightValidatorsChanged state) (st_NextValidators state);
  let db := saveConsensusParamsInfo db nextHeight (st_LastHeightConsensusParamsChanged state) (st_ConsensusParams state) in
  Ret (mkStateDB (db_validators db) (db_params db) (db_responses db) (Some state)).

Definition decoded_state (state : State) : State :=
  mkState (st_Version state) (st_ChainID state) (st_LastBlockHeight state) (st_LastBlockTotalTx state)
    (st_LastBlockID state) (st_LastBlockTime state)
    (decoded (st_NextValidators state)) (decoded (st_Validators state)) (decoded (st_LastValidators state))
    (st_LastHeightValidatorsChanged state) (st_ConsensusParams state) (st_LastHeightConsensusParamsChanged state)
    (st_LastResultsHash state) (st_AppHash state) (st_SpTxBuf state) (st_HashSignature state).

(** [None] is the empty state. *)
Definition LoadState (db : StateDB) : option State := option_map decoded_state (db_state db).

(** ** types/genesis.go and the genesis state *)

Record GenesisValidator := mkGenesisValidator { gv_Address : bytes; gv_PubKey : option bytes; gv_Power : Z }.

(** A nil slice of validators and an empty one are both []. *)
Record GenesisDoc := mkGenesisDoc {
  gd_GenesisTime : Z;
  gd_ChainID : bytes;
  gd_ConsensusParams : option ConsensusParams;
  gd_Validators : list GenesisValidator;
  gd_AppHash : bytes;
  gd_AppState : bytes
}.

Inductive genesis_error :=
| ErrNoChainID | ErrChainIDLong | ErrGenesisParams (err : params_error) | ErrNoPower | ErrIncorrectAddress.

Section Genesis.
Context `{Crypto}.

(** The loop over the validators; it fills in the missing addresses. *)
Fixpoint complete_validators (vals : list GenesisValidator) : outcome (list GenesisValidator + genesis_error) :=
  match vals with
  | [] => Ret (inl [])
  | v :: vals' =>
      if gv_Power v =? 0 then Ret (inr ErrNoPower)
      else
        pubKey ← or_panic (gv_PubKey v);
        if (0 <? zlen (gv_Address v)) && negb (bytes_equal (PubKeyAddress pubKey) (gv_Address v))
        then Ret (inr ErrIncorrectAddress)
        else
          let v := if zlen (gv_Address v) =? 0
                   then mkGenesisValidator (PubKeyAddress pubKey) (gv_PubKey v) (gv_Power v) else v in
          rest ← complete_validators vals';
          Ret (match rest with inl rest => inl (v :: rest) | inr err => inr err end)
  end.

Definition ValidateAndComplete (now : Z) (genDoc : GenesisDoc) : outcome (GenesisDoc + genesis_error) :=
  if zlen (gd_ChainID genDoc) =? 0 then Ret (inr ErrNoChainID)
  else if MaxChainIDLen <? zlen (gd_ChainID genDoc) then Ret (inr ErrChainIDLong)
  else
    match (match gd_ConsensusParams genDoc with
           | None => inl DefaultConsensusParams
           | Some params => match Params_Validate params with None => inl params | Some err => inr err end
           end) with
    | inr err => Ret (inr (ErrGenesisParams err))
    | inl params =>
        vals ← complete_validators (gd_Validators genDoc);
        Ret match vals with
            | inr err => inr err
            | inl vals =>
                inl (mkGenesisDoc (if gd_GenesisTime genDoc =? 0 then now else gd_GenesisTime genDoc)
                       (gd_ChainID genDoc) (Some params) vals (gd_AppHash genDoc) (gd_AppState genDoc))
            end
    end.

(** [initStateVersion] is a parameter: it holds the versions of package version. *)
Definition MakeGenesisState (initStateVersion : Version) (now : Z) (genDoc : GenesisDoc) :
    outcome (State + genesis_error) :=
  doc ← ValidateAndComplete now genDoc;
  match doc with
  | inr err => Ret (inr err)
  | inl genDoc =>
      '(validatorSet, nextValidatorSet) ←
        match gd_Validators genDoc with
        | [] => vals ← NewValidatorSet []; next ← NewValidatorSet []; Ret (vals, next)
        | _ =>
            validators ← mapM (λ v, pubKey ← or_panic (gv_PubKey v); Ret (NewValidator pubKey (gv_Power v)))
                           (gd_Validators genDoc);
            vals ← NewValidatorSet validators;
            next ← NewValidatorSet validators;
            next ← CopyIncrementProposerPriority next 1;
            Ret (vals, next)
        end;
      lastValidators ← NewValidatorSet [];
      params ← or_panic (gd_ConsensusParams genDoc);
      Ret (inl (mkState initStateVersion (gd_ChainID genDoc) 0 0 zeroBlockID (gd_GenesisTime genDoc)
                  nextValidatorSet validatorSet lastValidators 1 params 1 [] (gd_AppHash genDoc) [] []))
  end.

Definition LoadStateFromDBOrGenesisDoc (initStateVersion : Version) (now : Z) (stateDB : StateDB)
    (genesisDoc : GenesisDoc) : outcome (StateDB * (State + genesis_error)) :=
  match LoadState stateDB with
  | Some state => Ret (stateDB, inl state)
  | None =>
      made ← MakeGenesisState initStateVersion now genesisDoc;
      match made with
      | inr err => Ret (stateDB, inr err)
      | inl state => stateDB ← SaveState stateDB state; Ret (stateDB, inl state)
      end
  end.

End Genesis.

(** ** execution.go: the update of the state *)

Inductive val_update_error := ErrNegativePower | ErrUnsupportedKey.

Fixpoint validateValidatorUpdates (updates : list ValidatorUpdate) (types : list bytes) : option val_update_error :=
  match updates with
  | [] => None
  | valUpdate :: updates' =>
      if vu_Power valUpdate <? 0 then Some ErrNegativePower
      else if vu_Power valUpdate =? 0 then validateValidatorUpdates updates' types
      else if negb (IsValidPubkeyType types (vu_KeyType valUpdate)) then Some ErrUnsupportedKey
      else validateValidatorUpdates updates' types
  end.

Inductive state_error := ErrValidatorSetChange (err : update_error) | ErrParamsUpdate (err : params_error).

Section Update.
Context (Sum : bytes → bytes) (encResult : ABCIResult → bytes).

Definition updateState (state : State) (blockID : BlockID) (header : Header) (abciResponses : ABCIResponses)
    (validatorUpdates : list Validator) (height : Z) : outcome (State * option state_error) :=
  let flag := Z.rem height 2 =? 0 in
  '(nValSet, err, lastHeightValsChanged) ←
    match validatorUpdates with
    | [] => Ret (Copy (st_NextValidators state), None, st_LastHeightValidatorsChanged state)
    | _ =>
        '(nValSet, err) ← UpdateWithChangeSet (Copy (st_NextValidators state)) validatorUpdates;
        Ret (nValSet, err, wrap64 (hd_Height header + 1 + 1))
    end;
  match err with
  | Some err => Ret (state, Some (ErrValidatorSetChange err))
  | None =>
      nValSet ← if flag then IncrementProposerPriority nValSet 1 else Ret nValSet;
      let '(nextParams, perr, lastHeightParamsChanged) :=
        match ar_ConsensusParamUpdates abciResponses with
        | None => (st_ConsensusParams state, None, st_LastHeightConsensusParamsChanged state)
        | Some updates =>
            let nextParams := Params_Update (st_ConsensusParams state) (Some updates) in
            (nextParams, Params_Validate nextParams, wrap64 (hd_Height header + 1))
        end in
      match perr with
      | Some err => Ret (state, Some (ErrParamsUpdate err))
      | None =>
          Ret (mkState (st_Version state) (st_ChainID state) (hd_Height header)
                 (wrap64 (st_LastBlockTotalTx state + hd_NumTxs header)) blockID (hd_Time header)
                 nValSet (Copy (st_NextValidators state)) (Copy (st_Validators state)) lastHeightValsChanged
                 nextParams lastHeightParamsChanged (ResultsHash Sum encResult abciResponses) []
                 [] (st_HashSignature state), None)
      end
  end.

End Update.

(** ** validation.go *)

Inductive validate_error :=
| ErrBlockBasic (err : block_error) | ErrBlockVersion | ErrBlockChainID | ErrFirstCommit | ErrBlockTime.

Definition validateBlock (Sum : bytes → bytes) `{BlockCodec} (state : State) (block : Block) :
    outcome (option validate_error) :=
  err ← Block_ValidateBasic Sum (Some block);
  match err with
  | Some err => Ret (Some (ErrBlockBasic err))
  | None =>
      let h := blk_Header block in
      if negb (bool_decide (hd_Version h = st_Version state)) then Ret (Some ErrBlockVersion)
      else if negb (bytes_equal (hd_ChainID h) (st_ChainID state)) then Ret (Some ErrBlockChainID)
      else
        err ← if hd_Height h =? 1 then
                commit ← or_panic (blk_LastCommit block);
                Ret (negb (zlen (commit_Precommits commit) =? 0))
              else Ret false;
        if (err : bool) then Ret (Some ErrFirstCommit)
        else if (1 <? hd_Height h) && negb (st_LastBlockTime state <? hd_Time h) then Ret (Some ErrBlockTime)
        else Ret None
  end.

Inductive verify_evidence_error :=
| ErrEvidenceTooOld | ErrNoValSet | ErrNotValidator | ErrEvidence (err : dve_error).

Definition VerifyEvidence `{Codec} `{Crypto} (stateDB : StateDB) (state : State) (evidence : DuplicateVoteEvidence) :
    outcome (option verify_evidence_error) :=
  evHeight ← DVE_Height evidence;
  if cp_MaxAge (st_ConsensusParams state) <? wrap64 (st_LastBlockHeight state - evHeight)
  then Ret (Some ErrEvidenceTooOld)
  else
    valset ← LoadValidators stateDB evHeight;
    match valset with
    | None => Ret (Some ErrNoValSet)
    | Some valset =>
        addr ← DVE_Address evidence;
        match (GetByAddress valset addr).2 with
        | None => Ret (Some ErrNotValidator)
        | Some val =>
            err ← DVE_Verify evidence (st_ChainID state) (val_PubKey val);
            match err with
            | Some err => Ret (Some (ErrEvidence err))
            | None => Ret None
            end
        end
    end.

(** ** Validator sets by height *)

Definition members (vals : ValidatorSet) : list ProposerRef := map to_ref (Validators vals).

(** Advancing the proposer never panics and keeps the members. *)
Lemma Increment_ok vals times :
  wf vals → Validators vals ≠ [] → 0 < times →
  ∃ vals', IncrementProposerPriority vals times = Ret vals' ∧ wf vals' ∧ members vals' = members vals.
Proof.
  intros Hwf Hne Ht. destruct (IncrementProposerPriority_wf vals times Hwf Hne Ht) as (v & E & W & M & _). eauto.
Qed.

Lemma members_nonempty a b : members a = members b → Validators a ≠ [] → Validators b ≠ [].
Proof. unfold members. intros E Hne Hb. rewrite Hb in E. by destruct (Validators a). Qed.

Lemma wf_decoded vals : wf vals → wf (decoded vals).
Proof. intros [A B C D F]. split; try done. by left. Qed.

(** A stored set, good for the height whose members are [m]. *)
Definition good_set (m : list ProposerRef) (vals : ValidatorSet) : Prop :=
  wf vals ∧ Validators vals ≠ [] ∧ members vals = m.

Record info_ok (hist : Z → list ProposerRef) (h : Z) (info : ValidatorsInfo) : Prop := {
  io_range : 1 ≤ vi_LastHeightChanged info ≤ h;
  io_same k : vi_LastHeightChanged info ≤ k ≤ h → hist k = hist h;
  io_set : if (h =? vi_LastHeightChanged info) || (Z.rem h valSetCheckpointInterval =? 0)
           then ∃ vals, vi_ValidatorSet info = Some vals ∧ good_set (hist h) vals
           else vi_ValidatorSet info = None
}.

(** The store holds, for every height up to the next but one, its entry and the
    entry of the height of its last change. *)
Record store_ok (hist : Z → list ProposerRef) (last : Z) (db : StateDB) : Prop := {
  so_info h : 1 ≤ h ≤ last → ∃ info, db_validators db !! h = Some info ∧ info_ok hist h info;
  so_change h info : 1 ≤ h ≤ last → db_validators db !! h = Some info →
    ∃ info', db_validators db !! vi_LastHeightChanged info = Some info' ∧
      vi_LastHeightChanged info' = vi_LastHeightChanged info
}.

Lemma stored_at hist last db h :
  store_ok hist last db → 1 ≤ h ≤ last →
  (∃ info, db_validators db !! h = Some info ∧
     (h = vi_LastHeightChanged info ∨ Z.rem h valSetCheckpointInterval = 0)) →
  ∃ vals, loadValidatorsInfo db h ≫= vi_ValidatorSet = Some vals ∧ good_set (hist h) vals.
Proof.
  intros [Hi _] Hh (info & E & Hor). destruct (Hi h Hh) as (info' & E' & Hok). rewrite E in E'. injection E' as <-.
  pose proof (io_set _ _ _ Hok) as Hs.
  assert ((h =? vi_LastHeightChanged info) || (Z.rem h valSetCheckpointInterval =? 0) = true) as Hb.
  { apply orb_true_iff. destruct Hor as [Hor|Hor]; [left|right]; by apply Z.eqb_eq. }
  rewrite Hb in Hs. destruct Hs as (vals & Ev & Hwf & Hne & Hm).
  exists (decoded vals). unfold loadValidatorsInfo. rewrite E. cbn. rewrite Ev. cbn.
  split; [done|]. split_and!; [by apply wf_decoded|done|done].
Qed.

(** The set loaded for a height has the members it had. *)
Lemma LoadValidators_ok hist last db h :
  store_ok hist last db → 1 ≤ h ≤ last →
  ∃ vals, LoadValidators db h = Ret (Some vals) ∧ wf vals ∧ members vals = hist h.
Proof.
  intros Hst Hh. destruct (so_info _ _ _ Hst h Hh) as (info & E & Hok).
  pose proof (io_range _ _ _ Hok) as Hr. unfold LoadValidators.
  assert (loadValidatorsInfo db h = Some (mkValidatorsInfo (option_map decoded (vi_ValidatorSet info))
    (vi_LastHeightChanged info))) as -> by (unfold loadValidatorsInfo; by rewrite E).
  cbn [vi_ValidatorSet vi_LastHeightChanged].
  destruct (vi_ValidatorSet info) as [vals|] eqn:Ev; cbn [option_map].
  { pose proof (io_set _ _ _ Hok) as Hs. destruct (_ || _); [|congruence].
    destruct Hs as (vals' & Ev' & Hwf & Hne & Hm). rewrite Ev in Ev'. injection Ev' as <-.
    exists (decoded vals). split_and!; [done|by apply wf_decoded|done]. }
  assert (h ≠ vi_LastHeightChanged info ∧ Z.rem h valSetCheckpointInterval ≠ 0) as [Hne Hmod].
  { pose proof (io_set _ _ _ Hok) as Hs. destruct (_ || _) eqn:Eb.
    - destruct Hs as (? & Hs & _). congruence.
    - apply orb_false_iff in Eb as [E1 E2]. by apply Z.eqb_neq in E1, E2. }
  set (lc := vi_LastHeightChanged info) in *. set (c := h - Z.rem h valSetCheckpointInterval).
  pose proof (Z.rem_bound_pos h valSetCheckpointInterval ltac:(lia) ltac:(done)) as Hrem.
  assert (Z.rem c valSetCheckpointInterval = 0) as Hcm.
  { unfold c. pose proof (Z.quot_rem' h valSetCheckpointInterval) as Hq.
    replace (h - Z.rem h valSetCheckpointInterval) with ((h ÷ valSetCheckpointInterval) * valSetCheckpointInterval) by lia.
    by apply Z.rem_mul. }
  assert (0 ≤ c).
  { pose proof (Z.rem_le h valSetCheckpointInterval ltac:(lia) ltac:(done)). unfold c. lia. }
  set (s := lastStoredHeightFor h lc).
  assert (s = Z.max c lc) as Es by done.
  assert (1 ≤ s ≤ last ∧ lc ≤ s < h) as [Hs1 Hs2].
  { unfold c in Es. clear - Es Hrem Hmod Hne Hr Hh. lia. }
  destruct (stored_at hist last db s Hst Hs1) as (vals & Evals & Hwf & Hne' & Hm).
  { destruct (decide (lc ≤ c)) as [Hlc|Hlc].
    - destruct (so_info _ _ _ Hst s Hs1) as (i' & Ei' & _). exists i'. split; [done|]. right.
      replace s with c by lia. done.
    - destruct (so_change _ _ _ Hst h info Hh E) as (i' & Ei' & Elc). exists i'.
      replace s with lc by lia. split; [exact Ei'|]. left. by rewrite Elc. }
  cbn [mbind]. rewrite Evals. cbn [mbind outcome_bind].
  destruct (Increment_ok vals (h - s) Hwf Hne' ltac:(lia)) as (vals' & -> & Hwf' & Hm').
  cbn [mbind outcome_bind]. exists vals'. split_and!; [done..|]. rewrite Hm', Hm.
  apply (io_same _ _ _ Hok). lia.
Qed.

(** ** Runs: the genesis state, then one saved state per block *)

Definition emptyDB : StateDB := mkStateDB ∅ ∅ ∅ None.

Definition with_AppHash (state : State) (appHash : bytes) : State :=
  mkState (st_Version state) (st_ChainID state) (st_LastBlockHeight state) (st_LastBlockTotalTx state)
    (st_LastBlockID state) (st_LastBlockTime state) (st_NextValidators state) (st_Validators state)
    (st_LastValidators state) (st_LastHeightValidatorsChanged state) (st_ConsensusParams state)
    (st_LastHeightConsensusParamsChanged state) (st_LastResultsHash state) appHash (st_SpTxBuf state)
    (st_HashSignature state).

(** The states saved so far, newest first, and the database. *)
Inductive run `{Crypto} (Sum : bytes → bytes) (encResult : ABCIResult → bytes) : list State → StateDB → Prop :=
| run_genesis v now doc st db :
    gd_Validators doc ≠ [] →
    LoadStateFromDBOrGenesisDoc v now emptyDB doc = Ret (db, inl st) →
    run Sum encResult [st] db
| run_block st sts db bid header responses updates st' appHash db' :
    run Sum encResult (st :: sts) db →
    hd_Height header = st_LastBlockHeight st + 1 → hd_Height header + 2 ≤ MaxInt64 →
    updateState Sum encResult st bid header responses updates (hd_Height header) = Ret (st', None) →
    SaveState (saveABCIResponses db (hd_Height header) responses) (with_AppHash st' appHash) = Ret db' →
    run Sum encResult (with_AppHash st' appHash :: st :: sts) db'.

Lemma NewValidatorSet_wf valz vals :
  valz ≠ [] → NewValidatorSet valz = Ret vals → wf vals ∧ Validators vals ≠ [].
Proof.
  intros Hne. unfold NewValidatorSet.
  assert (wf (mkValidatorSet [] None 0)) as Hwf0
    by (split; simpl; [constructor|set_solver|vm_compute; discriminate|by left|set_solver]).
  destruct (updateWithChangeSet_ok _ valz false Hwf0) as (v1 & err & -> & Hwf1 & _ & Hspec).
  cbn [mbind outcome_bind]. destruct err; [done|]. destruct Hspec as (_ & _ & Hv1 & _).
  destruct (Z.ltb_spec 0 (zlen valz)) as [Hlt|Hge].
  2:{ destruct valz; [done|]. unfold zlen in Hge. simpl in Hge. lia. }
  intros E. destruct (Increment_ok v1 1 Hwf1 (Hv1 Hne) ltac:(lia)) as (v2 & E2 & Hwf2 & Hm).
  rewrite E in E2. injection E2 as <-. split; [done|]. apply (members_nonempty v1); auto.
Qed.

(** What [SaveState] writes. *)
Lemma SaveState_spec db st db' :
  SaveState db st = Ret db' →
  let n := st_LastBlockHeight st + 1 in
  let entry h lc vals := mkValidatorsInfo
    (if (h =? lc) || (Z.rem h valSetCheckpointInterval =? 0) then Some vals else None) lc in
  let db1 := if n =? 1 then <[1 := entry 1 1 (st_Validators st)]> (db_validators db) else db_validators db in
  db_validators db' = <[n + 1 := entry (n + 1) (st_LastHeightValidatorsChanged st) (st_NextValidators st)]> db1 ∧
  st_LastHeightValidatorsChanged st ≤ n + 1 ∧
  db_params db' = <[n := mkConsensusParamsInfo
    (if st_LastHeightConsensusParamsChanged st =? n then st_ConsensusParams st else emptyParams)
    (st_LastHeightConsensusParamsChanged st)]> (db_params db) ∧
  db_responses db' = db_responses db ∧ db_state db' = Some st.
Proof.
  intros E n entry db1. unfold SaveState, saveValidatorsInfo in E. fold n in E. subst db1.
  destruct (Z.eqb_spec n 1) as [En|En].
  - rewrite En in *. cbn [mbind outcome_bind] in E. rewrite Z.ltb_irrefl in E. cbn [mbind outcome_bind] in E.
    destruct (Z.ltb_spec (1 + 1) (st_LastHeightValidatorsChanged st)); [done|].
    injection E as <-. split_and!; try done.
  - cbn [mbind outcome_bind] in E. destruct (Z.ltb_spec (n + 1) (st_LastHeightValidatorsChanged st)); [done|].
    injection E as <-. split_and!; try done.
Qed.

Record vals_ok (hist : Z → list ProposerRef) (st : State) (db : StateDB) : Prop := {
  vo_height : 0 ≤ st_LastBlockHeight st;
  vo_store : store_ok hist (st_LastBlockHeight st + 2) db;
  vo_next : good_set (hist (st_LastBlockHeight st + 2)) (st_NextValidators st);
  vo_current : hist (st_LastBlockHeight st + 1) = members (st_Validators st);
  vo_changed : 1 ≤ st_LastHeightValidatorsChanged st ≤ st_LastBlockHeight st + 2;
  vo_same k : st_LastHeightValidatorsChanged st ≤ k ≤ st_LastBlockHeight st + 2 →
    hist k = hist (st_LastBlockHeight st + 2);
  vo_entry : ∃ info, db_validators db !! st_LastHeightValidatorsChanged st = Some info ∧
    vi_LastHeightChanged info = st_LastHeightValidatorsChanged st
}.

Definition params_at (db : StateDB) (h : Z) (p : ConsensusParams) : Prop :=
  ∃ info, db_params db !! h = Some info ∧ cpi_LastHeightChanged info ≤ h ∧
    ((cpi_ConsensusParams info = p ∧ p ≠ emptyParams) ∨
     (cpi_ConsensusParams info = emptyParams ∧
      ∃ info2, db_params db !! cpi_LastHeightChanged info = Some info2 ∧ cpi_ConsensusParams info2 = p)).

Lemma params_at_load db h p : params_at db h p → LoadConsensusParams db h = Ret (Some p).
Proof.
  intros (info & E & _ & Hor). unfold LoadConsensusParams, Params_Equals. rewrite E.
  destruct Hor as [[<- Hne]|[-> (info2 & E2 & <-)]].
  - by rewrite bool_decide_false.
  - by rewrite bool_decide_true, E2.
Qed.

Lemma params_at_insert db db' h k p info :
  params_at db h p → h < k → db_params db' = <[k := info]> (db_params db) → params_at db' h p.
Proof.
  intros (i & E & Hle & Hor) Hk Edb. exists i. rewrite Edb, lookup_insert_ne by lia. split_and!; [done..|].
  destruct Hor as [Hor|[Ei (info2 & E2 & Ep)]]; [by left|]. right. split; [done|].
  exists info2. by rewrite lookup_insert_ne by lia.
Qed.

Record params_ok (st : State) (db : StateDB) : Prop := {
  po_nonempty : st_ConsensusParams st ≠ emptyParams;
  po_changed : st_LastHeightConsensusParamsChanged st ≤ st_LastBlockHeight st + 1;
  po_entry : ∃ info, db_params db !! st_LastHeightConsensusParamsChanged st = Some info ∧
    cpi_ConsensusParams info = st_ConsensusParams st
}.

Lemma valid_nonempty p : Params_Validate p = None → p ≠ emptyParams.
Proof. intros E ->. vm_compute in E. discriminate. Qed.

(** What a state update does: the pipeline of validator sets advances by one place,
    the updates go to the newest set, which is the one for two heights later. *)
Definition update_spec (Sum : bytes → bytes) (encResult : ABCIResult → bytes) (st : State) (bid : BlockID)
    (header : Header) (responses : ABCIResponses) (updates : list Validator) (st' : State) : Prop :=
  st_LastBlockHeight st' = hd_Height header ∧ st_LastBlockID st' = bid ∧ st_LastBlockTime st' = hd_Time header ∧
  st_ChainID st' = st_ChainID st ∧ st_Version st' = st_Version st ∧
  st_LastValidators st' = st_Validators st ∧ st_Validators st' = st_NextValidators st ∧
  wf (st_NextValidators st') ∧ Validators (st_NextValidators st') ≠ [] ∧
  (∀ a, entry (Validators (st_NextValidators st')) a =
        apply_changes updates (entry (Validators (st_NextValidators st))) a) ∧
  (updates = [] → members (st_NextValidators st') = members (st_NextValidators st)) ∧
  st_LastHeightValidatorsChanged st' =
    (if decide (updates = []) then st_LastHeightValidatorsChanged st else wrap64 (hd_Height header + 1 + 1)) ∧
  st_ConsensusParams st' = Params_Update (st_ConsensusParams st) (ar_ConsensusParamUpdates responses) ∧
  match ar_ConsensusParamUpdates responses with
  | None => st_LastHeightConsensusParamsChanged st' = st_LastHeightConsensusParamsChanged st
  | Some _ => st_LastHeightConsensusParamsChanged st' = wrap64 (hd_Height header + 1) ∧
      Params_Validate (st_ConsensusParams st') = None
  end ∧
  st_LastResultsHash st' = ResultsHash Sum encResult responses.

Lemma apply_changes_nil old a : apply_changes [] old a = old a.
Proof. done. Qed.

(** The set that [updateState] takes on, before the rotation. *)
Lemma change_next st updates :
  wf (st_NextValidators st) → Validators (st_NextValidators st) ≠ [] → updates ≠ [] →
  ∃ n err, UpdateWithChangeSet (Copy (st_NextValidators st)) updates = Ret (n, err) ∧
    (err = None → wf n ∧ Validators n ≠ [] ∧
       ∀ a, entry (Validators n) a = apply_changes updates (entry (Validators (st_NextValidators st))) a).
Proof.
  intros Hwf Hne Hup.
  assert (Copy (st_NextValidators st) = st_NextValidators st) as -> by (by destruct (st_NextValidators st)).
  destruct (updateWithChangeSet_ok (st_NextValidators st) updates true Hwf) as (n & err & E & Hwf' & _ & Hspec).
  exists n, err. split; [exact E|]. intros ->. destruct Hspec as (_ & _ & Hn & Hent). auto.
Qed.

Lemma rotate_ok (b : bool) n :
  wf n → Validators n ≠ [] →
  ∃ n', (if b then IncrementProposerPriority n 1 else Ret n) = Ret n' ∧ wf n' ∧ Validators n' ≠ [] ∧
    members n' = members n.
Proof.
  intros Hwf Hne. destruct b; [|by exists n].
  destruct (Increment_ok n 1 Hwf Hne ltac:(lia)) as (n' & E & Hwf' & Hm).
  exists n'. split_and!; [done..| |done]. by apply (members_nonempty n).
Qed.

Lemma updateState_ok Sum encResult st bid header responses updates height :
  wf (st_NextValidators st) → Validators (st_NextValidators st) ≠ [] →
  ∃ st' err, updateState Sum encResult st bid header responses updates height = Ret (st', err) ∧
    match err with
    | Some _ => st' = st
    | None => update_spec Sum encResult st bid header responses updates st'
    end.
Proof.
  intros Hwf Hne.
  assert (∀ vals, Copy vals = vals) as Hcopy by (by intros []).
  assert (∃ n err lc, match updates with
    | [] => Ret (Copy (st_NextValidators st), None, st_LastHeightValidatorsChanged st)
    | _ => '(n, err) ← UpdateWithChangeSet (Copy (st_NextValidators st)) updates;
           Ret (n, err, wrap64 (hd_Height header + 1 + 1))
    end = Ret (n, err, lc) ∧
    (err = None → wf n ∧ Validators n ≠ [] ∧
      (∀ a, entry (Validators n) a = apply_changes updates (entry (Validators (st_NextValidators st))) a) ∧
      (updates = [] → members n = members (st_NextValidators st)) ∧
      lc = if decide (updates = []) then st_LastHeightValidatorsChanged st else wrap64 (hd_Height header + 1 + 1)))
    as (n & err & lc & E & Hspec).
  { destruct (decide (updates = [])) as [->|Hup].
    - eexists _, _, _. split; [reflexivity|]. intros _. rewrite Hcopy. by split_and!.
    - destruct (change_next st updates Hwf Hne Hup) as (n & err & E & Hspec).
      exists n, err, (wrap64 (hd_Height header + 1 + 1)). split.
      + destruct updates; [done|]. by rewrite E.
      + intros Herr. destruct (Hspec Herr) as (A & B & C). by split_and!. }
  unfold updateState. rewrite E. cbn [mbind outcome_bind].
  destruct err as [err|]; [by eexists _, _|].
  destruct (Hspec eq_refl) as (Hwfn & Hnen & Hent & Hmem & ->).
  destruct (rotate_ok (Z.rem height 2 =? 0) n Hwfn Hnen) as (n' & -> & Hwf' & Hne' & Hm'). cbn [mbind outcome_bind].
  destruct (ar_ConsensusParamUpdates responses) as [ups|] eqn:Eu.
  - destruct (Params_Validate _) as [perr|] eqn:Ev; [by eexists _, _|].
    eexists _, _. split; [reflexivity|]. unfold update_spec. rewrite Eu, !Hcopy. cbn -[wrap64 Params_Update].
    split_and!; try done; [|by intros; rewrite Hm', Hmem].
    intros a. rewrite <-Hent. by apply entry_same_members.
  - eexists _, _. split; [reflexivity|]. unfold update_spec. rewrite Eu, !Hcopy. cbn -[wrap64].
    split_and!; try done; [|by intros; rewrite Hm', Hmem].
    intros a. rewrite <-Hent. by apply entry_same_members.
Qed.

Lemma info_ok_ext hist hist' h info :
  (∀ k, 1 ≤ k ≤ h → hist' k = hist k) → info_ok hist h info → info_ok hist' h info.
Proof.
  intros Heq [R S T]. split; [done| |].
  - intros k Hk. rewrite !Heq by lia. by apply S.
  - rewrite (Heq h) by lia. done.
Qed.

Lemma store_ok_ext hist hist' last db :
  (∀ k, 1 ≤ k ≤ last → hist' k = hist k) → store_ok hist last db → store_ok hist' last db.
Proof.
  intros Heq [A B]. split; [|done]. intros h Hh. destruct (A h Hh) as (info & E & Hok).
  exists info. split; [done|]. apply (info_ok_ext hist); [|done]. intros k Hk. apply Heq. lia.
Qed.

(** Writing the entry of the next height. *)
Lemma store_extend hist last db db' lc vals :
  store_ok hist last db → 0 ≤ last → 1 ≤ lc ≤ last + 1 →
  db_validators db' = <[last + 1 := mkValidatorsInfo
    (if (last + 1 =? lc) || (Z.rem (last + 1) valSetCheckpointInterval =? 0) then Some vals else None) lc]>
    (db_validators db) →
  good_set (hist (last + 1)) vals → (∀ k, lc ≤ k ≤ last → hist k = hist (last + 1)) →
  (lc ≤ last → ∃ info, db_validators db !! lc = Some info ∧ vi_LastHeightChanged info = lc) →
  store_ok hist (last + 1) db'.
Proof.
  intros [A B] H0 Hlc Edb Hgood Hsame Hentry.
  assert (∀ h info, 1 ≤ h ≤ last + 1 → db_validators db' !! h = Some info →
    (h = last + 1 ∧ vi_LastHeightChanged info = lc) ∨ (h ≤ last ∧ db_validators db !! h = Some info)) as Hcase.
  { intros h info Hh. rewrite Edb. destruct (decide (h = last + 1)) as [->|Hne].
    - rewrite lookup_insert_eq. intros [= <-]. by left.
    - rewrite lookup_insert_ne by lia. intros. right. split; [lia|done]. }
  split.
  - intros h Hh. rewrite Edb. destruct (decide (h = last + 1)) as [->|Hne].
    + rewrite lookup_insert_eq. eexists. split; [reflexivity|]. split; cbn [vi_LastHeightChanged vi_ValidatorSet].
      * lia.
      * intros k Hk. destruct (decide (k = last + 1)) as [->|]; [done|]. apply Hsame. lia.
      * destruct (_ || _); [eauto|done].
    + rewrite lookup_insert_ne by lia. apply A. lia.
  - intros h info Hh E. destruct (Hcase h info Hh E) as [[-> Elc]|[Hle E']].
    + rewrite Elc, Edb. destruct (decide (lc = last + 1)) as [->|Hne].
      * rewrite lookup_insert_eq. by eexists.
      * rewrite lookup_insert_ne by lia. apply Hentry. lia.
    + destruct (B h info ltac:(lia) E') as (i' & Ei & Eq). exists i'.
      destruct (A h ltac:(lia)) as (i2 & E2 & Hok). rewrite E' in E2. injection E2 as <-.
      pose proof (io_range _ _ _ Hok). rewrite Edb, lookup_insert_ne by lia. done.
Qed.

Lemma vals_step Sum encResult hist st db bid header responses updates st' appHash db' :
  vals_ok hist st db →
  hd_Height header = st_LastBlockHeight st + 1 → hd_Height header + 2 ≤ MaxInt64 →
  update_spec Sum encResult st bid header responses updates st' →
  SaveState (saveABCIResponses db (hd_Height header) responses) (with_AppHash st' appHash) = Ret db' →
  let hist' k := if decide (k = st_LastBlockHeight st + 3) then members (st_NextValidators st') else hist k in
  vals_ok hist' (with_AppHash st' appHash) db'.
Proof.
  intros [Hh Hst Hnext Hcur Hch Hsame Hent] Eh Hmax
    (Elbh & _ & _ & _ & _ & _ & Ev & Hwf' & Hne' & _ & Hmem & Elc & _) Hsave hist'.
  destruct (SaveState_spec _ _ _ Hsave) as (Edb & _). cbn [st_LastBlockHeight with_AppHash] in Edb.
  rewrite Elbh, Eh in Edb. set (L := st_LastBlockHeight st) in *.
  replace (L + 1 + 1 =? 1) with false in Edb by (symmetry; apply Z.eqb_neq; lia).
  cbn [st_LastHeightValidatorsChanged st_NextValidators with_AppHash db_validators saveABCIResponses] in Edb.
  assert (st_LastHeightValidatorsChanged st' = if decide (updates = []) then st_LastHeightValidatorsChanged st else L + 3)
    as Elc'.
  { rewrite Elc. case_decide; [done|]. rewrite wrap64_id by (unfold in_int64, MinInt64; lia). lia. }
  replace (L + 1 + 1 + 1) with (L + 2 + 1) in Edb by lia.
  assert (hist' (L + 2 + 1) = members (st_NextValidators st')) as Hnew.
  { unfold hist'. by rewrite decide_True by lia. }
  assert (∀ k, k < L + 3 → hist' k = hist k) as Hold by (intros k Hk; unfold hist'; by rewrite decide_False by lia).
  assert (∀ k, st_LastHeightValidatorsChanged st' ≤ k ≤ L + 2 → hist' k = hist' (L + 2 + 1)) as Hsame'.
  { intros k Hk. rewrite Elc' in Hk. case_decide as Hu; [|lia]. rewrite Hnew, Hold, Hmem by (done || lia).
    rewrite (Hsame k) by lia. destruct Hnext as (_ & _ & Hm). by rewrite Hm. }
  assert (store_ok hist' (L + 2 + 1) db') as Hstore.
  { apply (store_extend _ _ db _ (st_LastHeightValidatorsChanged st') (st_NextValidators st')); try done.
    - apply (store_ok_ext hist); [|done]. intros k Hk. apply Hold. lia.
    - lia.
    - rewrite Elc'. case_decide; lia.
    - intros Hle. rewrite Elc' in *. case_decide; [done|lia]. }
  split; cbn [st_LastBlockHeight st_NextValidators st_Validators st_LastHeightValidatorsChanged with_AppHash];
    rewrite ?Elbh, ?Eh; replace (L + 1 + 2) with (L + 2 + 1) by lia.
  - lia.
  - done.
  - by rewrite Hnew.
  - replace (L + 1 + 1) with (L + 2) by lia. rewrite Hold, Ev by lia. by destruct Hnext as (_ & _ & ->).
  - rewrite Elc'. case_decide; lia.
  - intros k Hk. destruct (decide (k = L + 2 + 1)) as [->|]; [done|]. apply Hsame'. lia.
  - rewrite Edb. destruct (decide (st_LastHeightValidatorsChanged st' = L + 2 + 1)) as [Heq|Hneq].
    + rewrite <-Heq, lookup_insert_eq. by eexists.
    + rewrite lookup_insert_ne by done. rewrite Elc' in *. case_decide; [done|lia].
Qed.

Lemma params_step Sum encResult st db bid header responses updates st' appHash db' :
  params_ok st db →
  hd_Height header = st_LastBlockHeight st + 1 → 0 ≤ st_LastBlockHeight st → hd_Height header + 2 ≤ MaxInt64 →
  update_spec Sum encResult st bid header responses updates st' →
  SaveState (saveABCIResponses db (hd_Height header) responses) (with_AppHash st' appHash) = Ret db' →
  params_ok (with_AppHash st' appHash) db' ∧ params_at db' (st_LastBlockHeight st + 2) (st_ConsensusParams st').
Proof.
  intros [Hne Hch (pinfo & Epe & Epp)] Eh Hh Hmax
    (Elbh & _ & _ & _ & _ & _ & _ & _ & _ & _ & _ & _ & Epar & Elhp & _) Hsave.
  destruct (SaveState_spec _ _ _ Hsave) as (_ & _ & Edb & _). cbn [st_LastBlockHeight with_AppHash] in Edb.
  rewrite Elbh, Eh in Edb. set (L := st_LastBlockHeight st) in *.
  cbn [st_LastHeightConsensusParamsChanged st_ConsensusParams with_AppHash db_params saveABCIResponses] in Edb.
  destruct (ar_ConsensusParamUpdates responses) as [ups|] eqn:Eu.
  - destruct Elhp as [Elhp Hval]. apply valid_nonempty in Hval.
    rewrite wrap64_id in Elhp by (unfold in_int64, MinInt64; lia).
    rewrite Elhp, Eh, Z.eqb_refl in Edb. rewrite Eh in Elhp.
    split; [split|]; cbn [st_LastBlockHeight st_ConsensusParams st_LastHeightConsensusParamsChanged with_AppHash].
    + done.
    + lia.
    + exists (mkConsensusParamsInfo (st_ConsensusParams st') (L + 1 + 1)). by rewrite Edb, Elhp, lookup_insert_eq.
    + eexists. replace (L + 2) with (L + 1 + 1) by lia. rewrite Edb, lookup_insert_eq.
      split_and!; [done|simpl; lia|]. by left.
  - cbn [Params_Update] in Epar. rewrite Elhp in Edb. rewrite Epar in *.
    replace (st_LastHeightConsensusParamsChanged st =? L + 1 + 1) with false in Edb
      by (symmetry; apply Z.eqb_neq; lia).
    split; [split|]; cbn [st_LastBlockHeight st_ConsensusParams st_LastHeightConsensusParamsChanged with_AppHash].
    + by rewrite Epar.
    + lia.
    + exists pinfo. rewrite Edb, Elhp, Epar, lookup_insert_ne by lia. done.
    + eexists. replace (L + 2) with (L + 1 + 1) by lia. rewrite Edb, lookup_insert_eq.
      split_and!; [done|simpl; lia|]. right. split; [done|]. exists pinfo. cbn [cpi_LastHeightChanged].
      by rewrite lookup_insert_ne by lia.
Qed.

Section Runs.
Context `{Crypto} (Sum : bytes → bytes) (encResult : ABCIResult → bytes).

Lemma complete_length vals vals' : complete_validators vals = Ret (inl vals') → length vals' = length vals.
Proof.
  revert vals'. induction vals as [|v vals IH]; intros vals' E; cbn [complete_validators] in E; [by injection E as <-|].
  destruct (gv_Power v =? 0); [done|]. apply bind_Ret in E as (pk & _ & E).
  destruct (_ && _); [done|]. apply bind_Ret in E as ([rest|err] & Er & E); [|done].
  injection E as <-. simpl. by rewrite (IH _ Er).
Qed.

Lemma ValidateAndComplete_ok now doc doc' :
  ValidateAndComplete now doc = Ret (inl doc') →
  length (gd_Validators doc') = length (gd_Validators doc) ∧
  ∃ p, gd_ConsensusParams doc' = Some p ∧ p ≠ emptyParams.
Proof.
  unfold ValidateAndComplete. destruct (_ =? 0); [done|]. destruct (_ <? _); [done|].
  destruct (match gd_ConsensusParams doc with None => _ | Some p => _ end) as [p|err] eqn:Ep; [|done].
  intros ([vals|err] & Ec & E)%bind_Ret; [|done]. injection E as <-. cbn [gd_Validators gd_ConsensusParams].
  split; [by apply complete_length|]. exists p. split; [done|].
  destruct (gd_ConsensusParams doc) as [q|]; [|injection Ep as <-; by vm_compute].
  destruct (Params_Validate q) eqn:Ev; [done|]. injection Ep as <-. by apply valid_nonempty.
Qed.

Lemma MakeGenesisState_ok v now doc st :
  gd_Validators doc ≠ [] → MakeGenesisState v now doc = Ret (inl st) →
  st_LastBlockHeight st = 0 ∧ st_LastHeightValidatorsChanged st = 1 ∧ st_LastHeightConsensusParamsChanged st = 1 ∧
  good_set (members (st_Validators st)) (st_Validators st) ∧ good_set (members (st_Validators st)) (st_NextValidators st) ∧
  st_ConsensusParams st ≠ emptyParams.
Proof.
  intros Hne ([doc'|err] & Ed & E)%bind_Ret; [|done].
  destruct (ValidateAndComplete_ok _ _ _ Ed) as (Hlen & p & Ep & Hp).
  destruct (gd_Validators doc') as [|g gs] eqn:Eg; [destruct (gd_Validators doc); done|].
  apply bind_Ret in E as ([vs next] & Evs & E). rewrite Ep in E.
  apply bind_Ret in E as (lv & _ & E). cbn [mbind outcome_bind or_panic] in E. injection E as <-.
  cbn [st_LastBlockHeight st_LastHeightValidatorsChanged st_LastHeightConsensusParamsChanged st_Validators
       st_NextValidators st_ConsensusParams].
  apply bind_Ret in Evs as (validators & Em & Evs).
  assert (validators ≠ []) as Hvs.
  { cbn [mapM] in Em. apply bind_Ret in Em as (x & _ & Em). apply bind_Ret in Em as (xs & _ & Em).
    injection Em as <-. done. }
  apply bind_Ret in Evs as (vs' & E1 & Evs). rewrite E1 in Evs. cbn [mbind outcome_bind] in Evs.
  apply bind_Ret in Evs as (next' & E2 & Evs). injection Evs as <- <-.
  destruct (NewValidatorSet_wf _ _ Hvs E1) as [Hwf Hnev].
  assert (Copy vs' = vs') as Ec by (by destruct vs').
  unfold CopyIncrementProposerPriority in E2. rewrite Ec in E2.
  destruct (Increment_ok vs' 1 Hwf Hnev ltac:(lia)) as (n & E3 & Hwfn & Hm).
  rewrite E2 in E3. injection E3 as <-.
  assert (Validators next' ≠ []) by (by apply (members_nonempty vs')). by unfold good_set; split_and!.
Qed.

Lemma genesis_ok v now doc st db :
  gd_Validators doc ≠ [] → LoadStateFromDBOrGenesisDoc v now emptyDB doc = Ret (db, inl st) →
  st_LastBlockHeight st = 0 ∧ vals_ok (λ _, members (st_Validators st)) st db ∧ params_ok st db ∧
  params_at db 1 (st_ConsensusParams st) ∧ db_state db = Some st.
Proof.
  intros Hne. unfold LoadStateFromDBOrGenesisDoc. cbn [LoadState emptyDB db_state option_map].
  intros ([st'|err] & Em & E)%bind_Ret; [|done]. apply bind_Ret in E as (db' & Es & E). injection E as <- <-.
  destruct (MakeGenesisState_ok _ _ _ _ Hne Em) as (E0 & E1 & E2 & Hg1 & Hg2 & Hp).
  destruct (SaveState_spec _ _ _ Es) as (Ev & _ & Epar & _ & Est). rewrite E0, E1 in Ev. rewrite E0, E2 in Epar.
  cbn [db_validators db_params emptyDB] in Ev, Epar.
  change (0 + 1) with 1 in *. change (1 =? 1) with true in *. cbn iota in Epar, Ev.
  set (m := members (st_Validators st')) in *.
  assert (store_ok (λ _, m) 0 emptyDB) as S0 by (split; intros; lia).
  set (db1 := put_validators emptyDB 1 (mkValidatorsInfo (Some (st_Validators st')) 1)).
  assert (store_ok (λ _, m) 1 db1) as S1
    by (apply (store_extend _ 0 emptyDB _ 1 (st_Validators st')); try done; lia).
  assert (store_ok (λ _, m) 2 db') as S2.
  { apply (store_extend _ 1 db1 _ 1 (st_NextValidators st')); try done; try lia.
    intros _. eexists. cbn. by rewrite lookup_insert_eq. }
  split_and!; [done| | | |done].
  - split; rewrite ?E0, ?E1; try done; try lia. rewrite Ev, lookup_insert_ne by done.
    exists (mkValidatorsInfo (Some (st_Validators st')) 1). by rewrite lookup_insert_eq.
  - split; rewrite ?E0, ?E2; try done; try lia. rewrite Epar, lookup_insert_eq. by eexists.
  - eexists. rewrite Epar, lookup_insert_eq. split_and!; [done|done|]. by left.
Qed.

Lemma run_ok sts db :
  run Sum encResult sts db →
  ∃ st rest hist, sts = st :: rest ∧ vals_ok hist st db ∧ params_ok st db ∧ db_state db = Some st ∧
    ∀ s, s ∈ sts → 0 ≤ st_LastBlockHeight s ≤ st_LastBlockHeight st ∧
      hist (st_LastBlockHeight s + 1) = members (st_Validators s) ∧
      hist (st_LastBlockHeight s + 2) = members (st_NextValidators s) ∧
      params_at db (st_LastBlockHeight s + 1) (st_ConsensusParams s).
Proof.
  intros Hrun. induction Hrun as [v now doc st db Hne E|st sts db bid header responses updates st' appHash db' _ IH Eh Hmax Eup Es].
  - destruct (genesis_ok _ _ _ _ _ Hne E) as (E0 & Hv & Hp & Hpa & Hst).
    exists st, [], (λ _, members (st_Validators st)). split_and!; try done.
    intros s ->%list_elem_of_singleton. rewrite E0. split_and!; try done.
    by destruct (vo_next _ _ _ Hv) as (_ & _ & ->).
  - destruct IH as (st0 & rest & hist & [= <- <-] & Hv & Hp & Hst & Hall).
    destruct (vo_next _ _ _ Hv) as (Hwf & Hne & Hm).
    destruct (updateState_ok Sum encResult st bid header responses updates (hd_Height header) Hwf Hne)
      as (st1 & err & Eup' & Hspec). rewrite Eup in Eup'. injection Eup' as <- <-.
    pose proof (vo_height _ _ _ Hv) as Hh.
    pose proof (vals_step _ _ _ _ _ _ _ _ _ _ appHash db' Hv Eh Hmax Hspec Es) as Hv'.
    destruct (params_step _ _ _ _ _ _ _ _ _ appHash db' Hp Eh Hh Hmax Hspec Es) as (Hp' & Hpa').
    destruct (SaveState_spec _ _ _ Es) as (_ & _ & Epar & _ & Est').
    set (hist' := λ k, if decide (k = st_LastBlockHeight st + 3) then members (st_NextValidators st') else hist k) in *.
    assert (st_LastBlockHeight (with_AppHash st' appHash) = st_LastBlockHeight st + 1) as El.
    { destruct Hspec as (El & _). cbn. lia. }
    exists (with_AppHash st' appHash), (st :: sts), hist'. split_and!; try done.
    intros s [->|Hs]%elem_of_cons.
    + rewrite El. split_and!; try lia.
      * rewrite <-El. apply (vo_current _ _ _ Hv').
      * rewrite <-El. by destruct (vo_next _ _ _ Hv') as (_ & _ & ->).
      * replace (st_LastBlockHeight st + 1 + 1) with (st_LastBlockHeight st + 2) by lia. done.
    + destruct (Hall s Hs) as (Hr & H1 & H2 & H3). rewrite El. split_and!; try lia.
      * unfold hist'. by rewrite decide_False by lia.
      * unfold hist'. by rewrite decide_False by lia.
      * eapply params_at_insert; [exact H3| |exact Epar]. cbn [db_params saveABCIResponses]. rewrite El. lia.
Qed.

(** C26. The history of a chain is recovered from its store: after any run from a
    genesis with validators, for every state saved so far, loading the validators of the
    next height and of the one after succeeds and gives the members (addresses, keys and
    powers) that the state had for them, loading the consensus parameters of
    the next height gives the ones of the state, and loading the state gives the last one. *)
Theorem stored_history (sts : list State) (db : StateDB) (s : State) :
  run Sum encResult sts db → s ∈ sts →
  (∃ vals, LoadValidators db (st_LastBlockHeight s + 1) = Ret (Some vals) ∧ wf vals ∧
     members vals = members (st_Validators s)) ∧
  (∃ vals, LoadValidators db (st_LastBlockHeight s + 2) = Ret (Some vals) ∧ wf vals ∧
     members vals = members (st_NextValidators s)) ∧
  LoadConsensusParams db (st_LastBlockHeight s + 1) = Ret (Some (st_ConsensusParams s)) ∧
  LoadState db = option_map decoded_state (head sts).
Proof.
  intros Hrun Hs. destruct (run_ok _ _ Hrun) as (st & rest & hist & -> & Hv & _ & Est & Hall).
  destruct (Hall s Hs) as (Hr & E1 & E2 & Hpar).
  pose proof (vo_store _ _ _ Hv) as Hst. rewrite <-E1, <-E2. split_and!.
  - apply (LoadValidators_ok _ _ _ _ Hst). lia.
  - apply (LoadValidators_ok _ _ _ _ Hst). lia.
  - by apply params_at_load.
  - unfold LoadState. by rewrite Est.
Qed.

(** A state update is total on a well-formed state: on an error the state is
    returned unchanged; otherwise the validator sets move up one place, the validator changes
    are applied exactly to the set for two heights later, and the consensus parameters to
    those of the next height after they were validated. *)
Theorem updateState_total (st : State) (bid : BlockID) (header : Header) (responses : ABCIResponses)
    (updates : list Validator) (height : Z) :
  wf (st_NextValidators st) → Validators (st_NextValidators st) ≠ [] →
  ∃ st' err, updateState Sum encResult st bid header responses updates height = Ret (st', err) ∧
    match err with
    | Some _ => st' = st
    | None => update_spec Sum encResult st bid header responses updates st'
    end.
Proof. apply updateState_ok. Qed.

End Runs.

Section VerifyEvidenceProofs.
Context `{Codec} `{Crypto} (Sum : bytes → bytes) (encResult : ABCIResult → bytes).

Lemma DVE_Verify_sound ev chainID pk :
  DVE_Verify ev chainID pk = Ret None →
  ∃ a b, dve_VoteA ev = Some a ∧ dve_VoteB ev = Some b ∧
    vote_Height a = vote_Height b ∧ vote_Round a = vote_Round b ∧ vote_Type a = vote_Type b ∧
    vote_BlockID a ≠ vote_BlockID b ∧
    Vote_Verify chainID pk a = None ∧ Vote_Verify chainID pk b = None.
Proof.
  intros (a & Ea%or_panic_Ret & (b & Eb%or_panic_Ret & E)%bind_Ret)%bind_Ret. injection E as E.
  exists a, b. unfold Vote_Verify.
  repeat match type of E with (if ?c then _ else _) = None => destruct c eqn:?; [discriminate|] end.
  repeat match goal with
  | Hb : _ || _ = false |- _ => apply orb_false_iff in Hb as [? ?]
  | Hb : negb _ = false |- _ => apply negb_false_iff in Hb
  | Hb : (_ =? _) = true |- _ => apply Z.eqb_eq in Hb
  end.
  assert (vote_ValidatorAddress a = vote_ValidatorAddress b) as Eab by (by apply bytes_equal_true).
  assert (vote_BlockID a ≠ vote_BlockID b) by (intros Eq; rewrite Eq, BlockID_Equals_refl in *; discriminate).
  rewrite <-Eab. repeat match goal with Hb : bytes_equal _ _ = true |- _ => rewrite Hb
                                       | Hb : VerifyBytes _ _ _ = true |- _ => rewrite Hb end.
  by split_and!.
Qed.

(** Evidence that the state accepts is real: on a run's store, if [VerifyEvidence]
    accepts evidence of the height after a saved state, then a validator of that
    height signed two votes for the same height, round and type and
    different blocks, and the evidence is within the maximal age. *)
Theorem VerifyEvidence_sound (sts : list State) (db : StateDB) (st s : State) (ev : DuplicateVoteEvidence) :
  run Sum encResult sts db → s ∈ sts → DVE_Height ev = Ret (st_LastBlockHeight s + 1) →
  VerifyEvidence db st ev = Ret None →
  wrap64 (st_LastBlockHeight st - (st_LastBlockHeight s + 1)) ≤ cp_MaxAge (st_ConsensusParams st) ∧
  ∃ v a b, to_ref v ∈ members (st_Validators s) ∧ dve_VoteA ev = Some a ∧ dve_VoteB ev = Some b ∧
    vote_Height a = vote_Height b ∧ vote_Round a = vote_Round b ∧ vote_Type a = vote_Type b ∧
    vote_BlockID a ≠ vote_BlockID b ∧
    Vote_Verify (st_ChainID st) (val_PubKey v) a = None ∧ Vote_Verify (st_ChainID st) (val_PubKey v) b = None.
Proof.
  intros Hrun Hs Eh. unfold VerifyEvidence. rewrite Eh. cbn [mbind outcome_bind].
  destruct (Z.ltb_spec (cp_MaxAge (st_ConsensusParams st))
    (wrap64 (st_LastBlockHeight st - (st_LastBlockHeight s + 1)))) as [|Hage]; [done|].
  destruct (run_ok Sum encResult _ _ Hrun) as (st0 & rest & hist & -> & Hv & _ & _ & Hall).
  destruct (Hall s Hs) as (Hr & E1 & _ & _).
  destruct (LoadValidators_ok hist _ db (st_LastBlockHeight s + 1) (vo_store _ _ _ Hv)) as (vals & -> & Hwf & Hm); [lia|].
  cbn [mbind outcome_bind]. intros (addr & _ & E)%bind_Ret. split; [done|].
  destruct (address_cases vals addr) as [(i & v & Hl & <-)|Habs].
  - rewrite (GetByAddress_found _ _ _ (wf_sorted _ Hwf) Hl) in E. cbn [snd] in E.
    apply bind_Ret in E as ([err|] & E & ?); [done|].
    destruct (DVE_Verify_sound _ _ _ E) as (a & b & Hspec). exists v, a, b. split; [|exact Hspec].
    rewrite <-E1, <-Hm. unfold members. apply list_elem_of_fmap_2. by eapply list_elem_of_lookup_2.
  - rewrite GetByAddress_absent in E by done. done.
Qed.

End VerifyEvidenceProofs.

(** ** A concrete chain of two blocks *)

Section Witnesses.
#[local] Existing Instance sample_codec.
#[local] Existing Instance sample_crypto.

Definition gen_doc : GenesisDoc :=
  mkGenesisDoc 5 [x63] None
    [mkGenesisValidator [] (Some [x01]) 10; mkGenesisValidator [] (Some [x02]) 10] [] [].

Definition no_db : StateDB * (State + genesis_error) := (emptyDB, inr ErrNoChainID).

Definition ret_or {A} (m : outcome A) (a : A) : A := match m with Ret x => x | Panic => a end.

Definition gen_pair := ret_or (LoadStateFromDBOrGenesisDoc (mkVersion 1 1) 7 emptyDB gen_doc) no_db.

Definition empty_vals : ValidatorSet := mkValidatorSet [] None 0.

Definition empty_state : State :=
  mkState (mkVersion 0 0) [] 0 0 zeroBlockID 0 empty_vals empty_vals empty_vals 0 emptyParams 0 [] [] [] [].

Definition gen_state : State := match gen_pair.2 with inl st => st | inr _ => empty_state end.

Definition header_at (h : Z) : Header :=
  mkHeader (mkVersion 1 1) [x63] h h 0 0 zeroBlockID [] [] [] [] [] [] [] [] [] [] [].

Definition no_responses : ABCIResponses := mkABCIResponses [] None [].

Definition enc_result (r : ABCIResult) : bytes := res_Data r.

Definition updated (st : State) (updates : list Validator) : State :=
  (ret_or (updateState pad32 enc_result st (sample_block x01) (header_at (st_LastBlockHeight st + 1))
    no_responses updates (st_LastBlockHeight st + 1)) (st, None)).1.

Definition next_state (st : State) (updates : list Validator) : State := with_AppHash (updated st updates) [x0a].

Definition next_db (db : StateDB) (st : State) : StateDB :=
  ret_or (SaveState (saveABCIResponses db (st_LastBlockHeight st) no_responses) st) db.

Definition state1 : State := next_state gen_state [].
Definition db1 : StateDB := next_db gen_pair.1 state1.
Definition state2 : State := next_state state1 [NewValidator [x03] 7].
Definition db2 : StateDB := next_db db1 state2.

Lemma chain_run1 : run pad32 enc_result [state1; gen_state] db1.
Proof.
  apply (run_block _ _ gen_state [] gen_pair.1 (sample_block x01) (header_at 1) no_responses []
    (updated gen_state []) [x0a]); try (vm_compute; reflexivity); [|vm_compute; discriminate].
  apply (run_genesis _ _ (mkVersion 1 1) 7 gen_doc); [done|vm_compute; reflexivity].
Qed.

Lemma chain_run : run pad32 enc_result [state2; state1; gen_state] db2.
Proof.
  apply (run_block _ _ state1 [gen_state] db1 (sample_block x01) (header_at 2) no_responses [NewValidator [x03] 7]
    (updated state1 [NewValidator [x03] 7]) [x0a]); try (vm_compute; reflexivity); [|vm_compute; discriminate].
  apply chain_run1.
Qed.

Lemma stored_history_witness :
  ∃ vals, LoadValidators db2 3 = Ret (Some vals) ∧ wf vals ∧ members vals = members (st_NextValidators state1).
Proof.
  refine (proj1 (proj2 (stored_history pad32 enc_result [state2; state1; gen_state] db2 state1 chain_run _))).
  apply list_elem_of_further, list_elem_of_here.
Defined.

Lemma state1_next : wf (st_NextValidators state1) ∧ Validators (st_NextValidators state1) ≠ [].
Proof.
  destruct (run_ok _ _ _ _ chain_run1) as (st & rest & hist & [= <- _] & Hv & _).
  destruct (vo_next _ _ _ Hv) as (Hwf & Hne & _). done.
Qed.

Lemma updateState_total_witness :
  ∃ st' err, updateState pad32 enc_result state1 (sample_block x01) (header_at 2) no_responses
    [NewValidator [x03] 7] 2 = Ret (st', err) ∧
    match err with
    | Some _ => st' = state1
    | None => update_spec pad32 enc_result state1 (sample_block x01) (header_at 2) no_responses
                [NewValidator [x03] 7] st'
    end.
Proof.
  apply (updateState_total pad32 enc_result state1 (sample_block x01) (header_at 2) no_responses
    [NewValidator [x03] 7] 2 (proj1 state1_next) (proj2 state1_next)).
Defined.

Definition double_vote (b : byte) : Vote :=
  let vote sig := mkVote PrecommitType 2 0 (sample_block b) 0 [x01] 0 sig None None in
  vote (x01 :: Vote_SignBytes [x63] (vote [])).

Definition double_evidence : DuplicateVoteEvidence :=
  mkDVE (Some [x01]) (Some (double_vote x01)) (Some (double_vote x02)).

Lemma VerifyEvidence_sound_witness :
  wrap64 (st_LastBlockHeight state2 - (st_LastBlockHeight state1 + 1)) ≤ cp_MaxAge (st_ConsensusParams state2).
Proof.
  refine (proj1 (VerifyEvidence_sound pad32 enc_result [state2; state1; gen_state] db2 state2 state1
    double_evidence chain_run _ _ _)).
  - apply list_elem_of_further, list_elem_of_here.
  - vm_compute. reflexivity.
  - vm_compute. reflexivity.
Defined.

(** Loading validators of a past height may name another proposer than the
    state had: [LoadValidators] rotates the stored set once per height, while
    [updateState] rotates only at even heights. On a chain of one block,
    the set of height 3 is loaded with another proposer than the chain's. *)
Theorem LoadValidators_wrong_proposer :
  ∃ sts db st vals, run pad32 enc_result sts db ∧ head sts = Some st ∧
    LoadValidators db (st_LastBlockHeight st + 2) = Ret (Some vals) ∧
    Proposer vals ≠ Proposer (st_NextValidators st).
Proof.
  exists [state1; gen_state], db1, state1, (default empty_vals (ret_or (LoadValidators db1 3) None)).
  split; [apply chain_run1|]. split; [reflexivity|]. split; [vm_compute; reflexivity|]. vm_compute. discriminate.
Qed.

#[local] Existing Instance sample_block_codec.

(** [validateBlock] does not check the last commit: the checks of its size and of
    [VerifyCommit] are commented out. A block of height 5 whose last commit
    has no signature, which the last validators reject, is accepted. *)
Theorem validateBlock_accepts_unsigned_commit :
  ∃ state block commit err vals, blk_LastCommit block = Some commit ∧ 1 < hd_Height (blk_Header block) ∧
    (∀ pc, pc ∈ commit_Precommits commit → pc = None) ∧
    VerifyCommit (st_LastValidators state) (st_ChainID state) (st_LastBlockID state)
      (hd_Height (blk_Header block) - 1) commit = Ret (vals, Some err) ∧
    validateBlock pad32 state block = Ret None.
Proof.
  exists state2, (made_block []), made_commit. do 2 eexists.
  split; [vm_compute; reflexivity|]. split; [vm_compute; reflexivity|]. split.
  { intros pc Hpc. by repeat (apply elem_of_cons in Hpc as [->|Hpc]; [done|]); apply not_elem_of_nil in Hpc. }
  split; vm_compute; reflexivity.
Qed.

Definition first_block : Block :=
  let b := MakeBlock pad32 [x41] 1 sample_txs None [] [] in
  with_header b (Populate (blk_Header b) (mkVersion 1 1) [x63] 9 zeroBlockID 3
    (replicate 32 x07) (replicate 32 x08) (replicate 32 x09) [x01] [] (replicate 20 x05)).

(** A first block without a last commit passes [ValidateBasic] and then panics
    [validateBlock], which reads the precommits of the nil commit. *)
Theorem validateBlock_nil_commit_panics :
  ∃ state block, blk_LastCommit block = None ∧ Block_ValidateBasic pad32 (Some block) = Ret None ∧
    validateBlock pad32 state block = Panic.
Proof. exists gen_state, first_block. split; [done|]. split; vm_compute; reflexivity. Qed.

End Witnesses.
