(* ===== verification/BlockStore.v ===== *)
(** * blockchain/store.go, types/block_meta.go: the block store

    The database holds, under keys of five disjoint families, the meta data and the
    parts of each block, the commits found in blocks, the commits seen, and the height.
    What is read is what was written; amino writes nothing for a structure of zero values,
    which then reads as missing, and refuses to write a nil pointer, which is a panic. The height
    in memory is a field of its own: it is read from the database only by [NewBlockStore]. *)

From Stdlib Require Import ZArith Lia List Bool Strings.Byte.
From stdpp Require Import base list gmap.
From S2P Require Import Prelude Types PartSet Block.
Local Open Scope Z_scope.

Record BlockMeta := mkBlockMeta { bm_BlockID : BlockID; bm_Header : Header }.

Record BlockDB := mkBlockDB {
  db_meta : gmap Z BlockMeta;
  db_parts : gmap (Z * Z) Part;
  db_commit : gmap Z Commit;
  db_seen : gmap Z Commit;
  db_height : option Z
}.

Record BlockStore := mkBlockStore { bs_db : BlockDB; bs_height : Z }.

Definition LoadBlockStoreStateJSON (db : BlockDB) : Z := default 0 (db_height db).

Definition NewBlockStore (db : BlockDB) : BlockStore := mkBlockStore db (LoadBlockStoreStateJSON db).

Definition BS_Height (bs : BlockStore) : Z := bs_height bs.

Section WithCodec.
Context (Sum : bytes → bytes) `{BlockCodec} (unmarshalBlock : bytes → option Block).

(** Returns the block too: [Hash] may have filled its header. *)
Definition NewBlockMeta (block : Block) (blockParts : PartSet) : BlockMeta * Block :=
  let '(hash, b) := Block_Hash Sum (Some block) in
  let block := default block b in
  (mkBlockMeta (mkBlockID hash (PartSet_Header (Some blockParts))) (blk_Header block), block).

Definition LoadBlockMeta (bs : BlockStore) (height : Z) : option BlockMeta := db_meta (bs_db bs) !! height.

Definition LoadBlockPart (bs : BlockStore) (height index : Z) : option Part := db_parts (bs_db bs) !! (height, index).

Definition LoadBlock (bs : BlockStore) (height : Z) : outcome (option Block) :=
  match LoadBlockMeta bs height with
  | None => Ret None
  | Some blockMeta =>
      buf ← for_range (Z.to_nat (psh_Total (bid_PartsHeader (bm_BlockID blockMeta)))) 0
        (λ i buf, part ← or_panic (LoadBlockPart bs height (Z.of_nat i)); Ret (buf ++ part_Bytes part)) [];
      block ← or_panic (unmarshalBlock buf);
      Ret (Some block)
  end.

(** Encoded as no bytes at all. *)
Definition zero_commit (c : Commit) : bool :=
  BlockID_IsZero (commit_BlockID c) && (zlen (commit_Precommits c) =? 0).

Definition load_commit (m : gmap Z Commit) (height : Z) : option Commit :=
  c ← m !! height; if zero_commit c then None else Some c.

Definition LoadBlockCommit (bs : BlockStore) (height : Z) : option Commit := load_commit (db_commit (bs_db bs)) height.

Definition LoadSeenCommit (bs : BlockStore) (height : Z) : option Commit := load_commit (db_seen (bs_db bs)) height.

Definition put_meta (db : BlockDB) (height : Z) (m : BlockMeta) : BlockDB :=
  mkBlockDB (<[height := m]> (db_meta db)) (db_parts db) (db_commit db) (db_seen db) (db_height db).

Definition put_part (db : BlockDB) (height index : Z) (p : Part) : BlockDB :=
  mkBlockDB (db_meta db) (<[(height, index) := p]> (db_parts db)) (db_commit db) (db_seen db) (db_height db).

Definition put_commit (db : BlockDB) (height : Z) (c : Commit) : BlockDB :=
  mkBlockDB (db_meta db) (db_parts db) (<[height := c]> (db_commit db)) (db_seen db) (db_height db).

Definition put_seen (db : BlockDB) (height : Z) (c : Commit) : BlockDB :=
  mkBlockDB (db_meta db) (db_parts db) (db_commit db) (<[height := c]> (db_seen db)) (db_height db).

Definition put_height (db : BlockDB) (height : Z) : BlockDB :=
  mkBlockDB (db_meta db) (db_parts db) (db_commit db) (db_seen db) (Some height).

Definition saveBlockPart (bs : BlockStore) (db : BlockDB) (height index : Z) (part : option Part) : outcome BlockDB :=
  if negb (height =? BS_Height bs + 1) then Panic
  else p ← or_panic part; Ret (put_part db height index p).

(** Returns the store and the block, whose header may have been filled. *)
Definition SaveBlock (bs : BlockStore) (block : option Block) (blockParts : option PartSet) (seenCommit : option Commit) :
    outcome (BlockStore * Block) :=
  block ← or_panic block;
  let height := hd_Height (blk_Header block) in
  if negb (height =? BS_Height bs + 1) then Panic
  else
    blockParts ← or_panic blockParts;
    if negb (IsComplete blockParts) then Panic
    else
      let '(blockMeta, block) := NewBlockMeta block blockParts in
      let db := put_meta (bs_db bs) height blockMeta in
      db ← for_range (Z.to_nat (ps_total blockParts)) 0
        (λ i db, part ← GetPart blockParts (Z.of_nat i); saveBlockPart bs db height (Z.of_nat i) part) db;
      lastCommit ← or_panic (blk_LastCommit block);
      let db := put_commit db (height - 1) lastCommit in
      seenCommit ← or_panic seenCommit;
      let db := put_seen db height seenCommit in
      let db := put_height db height in
      Ret (mkBlockStore db height, block).

End WithCodec.

(** ** What is saved is found again *)

Section Roundtrip.
Context (Sum : bytes → bytes) `{BlockCodec} (unmarshalBlock : bytes → option Block).

(** The parts are complete and decode to the block. *)
Definition block_parts (b : Block) (ps : PartSet) : Prop :=
  Forall is_Some (ps_parts ps) ∧ zlen (ps_parts ps) = ps_total ps ∧ IsComplete ps = true ∧
  unmarshalBlock (mjoin (bytes_of <$> ps_parts ps)) = Some b.

(** The blocks saved into a store, newest first; a store may be closed and opened again. *)
Inductive saves : list (Block * PartSet * Commit) → BlockStore → Prop :=
| saves_new : saves [] (NewBlockStore (mkBlockDB ∅ ∅ ∅ ∅ None))
| saves_reopen l bs : saves l bs → saves l (NewBlockStore (bs_db bs))
| saves_block l bs b ps c bs' b' :
    saves l bs → block_parts b ps →
    SaveBlock Sum bs (Some b) (Some ps) (Some c) = Ret (bs', b') →
    saves ((b, ps, c) :: l) bs'.

Lemma save_parts bs h ps n s db :
  h = BS_Height bs + 1 → Forall is_Some (ps_parts ps) → (s + n = length (ps_parts ps))%nat →
  ∃ m, for_range n s (λ i db, part ← GetPart ps (Z.of_nat i); saveBlockPart bs db h (Z.of_nat i) part) db =
      Ret (mkBlockDB (db_meta db) m (db_commit db) (db_seen db) (db_height db)) ∧
    (∀ i p, (s ≤ i)%nat → ps_parts ps !! i = Some (Some p) → m !! (h, Z.of_nat i) = Some p) ∧
    (∀ k i, k ≠ h ∨ i < Z.of_nat s → m !! (k, i) = db_parts db !! (k, i)).
Proof.
  intros Eh Hall. revert s db. induction n as [|n IH]; intros s db Hs; cbn [for_range].
  { exists (db_parts db). split; [by destruct db|]. split; [|done].
    intros i p Hi Hp%lookup_lt_Some. lia. }
  destruct (lookup_lt_is_Some_2 (ps_parts ps) s ltac:(lia)) as [o Ho].
  pose proof Ho as Hso. eapply Forall_lookup_1 in Hso; [|exact Hall]. destruct Hso as [p ->].
  assert (GetPart ps (Z.of_nat s) = Ret (Some p)) as -> by (by apply slice_get_ok). cbn [mbind outcome_bind].
  assert (saveBlockPart bs db h (Z.of_nat s) (Some p) = Ret (put_part db h (Z.of_nat s) p)) as ->
    by (unfold saveBlockPart; by rewrite (proj2 (Z.eqb_eq _ _) Eh)).
  cbn [mbind outcome_bind].
  destruct (IH (S s) (put_part db h (Z.of_nat s) p) ltac:(lia)) as (m & E & Hm1 & Hm2).
  exists m. split; [exact E|]. split.
  - intros i q Hi Hq. destruct (decide (i = s)) as [->|Hne]; [|apply Hm1; [lia|done]].
    rewrite Hm2 by (right; lia). cbn [put_part db_parts]. rewrite lookup_insert_eq. congruence.
  - intros k i Hor. rewrite Hm2 by (destruct Hor; [by left|right; lia]). cbn [put_part db_parts].
    apply lookup_insert_ne. intros Eq. injection Eq as Ek Ei. destruct Hor; [by subst|lia].
Qed.

Lemma load_parts bs h ps n s buf :
  (∀ i p, ps_parts ps !! i = Some (Some p) → LoadBlockPart bs h (Z.of_nat i) = Some p) →
  Forall is_Some (ps_parts ps) → (s + n = length (ps_parts ps))%nat →
  for_range n s (λ i buf, part ← or_panic (LoadBlockPart bs h (Z.of_nat i)); Ret (buf ++ part_Bytes part)) buf =
  Ret (buf ++ mjoin (bytes_of <$> drop s (ps_parts ps))).
Proof.
  intros Hl Hall. revert s buf. induction n as [|n IH]; intros s buf Hs; cbn [for_range].
  { rewrite skipn_all2 by lia. cbn. by rewrite app_nil_r. }
  destruct (lookup_lt_is_Some_2 (ps_parts ps) s ltac:(lia)) as [o Ho].
  pose proof Ho as Hso. eapply Forall_lookup_1 in Hso; [|exact Hall]. destruct Hso as [p ->].
  rewrite (Hl s p Ho). cbn [or_panic mbind outcome_bind]. rewrite IH by lia.
  rewrite (drop_S _ _ _ Ho). cbn. by rewrite app_assoc.
Qed.

(** One entry of the store. *)
Definition entry_ok (bs : BlockStore) (e : Block * PartSet * Commit) : Prop :=
  let '(b, ps, c) := e in
  let h := hd_Height (blk_Header b) in
  1 ≤ h ≤ bs_height bs ∧ block_parts b ps ∧
  db_meta (bs_db bs) !! h = Some (NewBlockMeta Sum b ps).1 ∧
  (∀ i p, ps_parts ps !! i = Some (Some p) → LoadBlockPart bs h (Z.of_nat i) = Some p) ∧
  db_commit (bs_db bs) !! (h - 1) = blk_LastCommit b ∧
  db_seen (bs_db bs) !! h = Some c.

Record bs_ok (l : list (Block * PartSet * Commit)) (bs : BlockStore) : Prop := {
  bo_height : 0 ≤ bs_height bs;
  bo_db : LoadBlockStoreStateJSON (bs_db bs) = bs_height bs;
  bo_entries e : e ∈ l → entry_ok bs e
}.

Lemma meta_block b ps : blk_LastCommit (NewBlockMeta Sum b ps).2 = blk_LastCommit b.
Proof. unfold NewBlockMeta, Block_Hash. destruct (blk_LastCommit b) eqn:E; cbn; by rewrite ?E. Qed.

Lemma SaveBlock_ok l bs b ps c bs' b' :
  bs_ok l bs → block_parts b ps → SaveBlock Sum bs (Some b) (Some ps) (Some c) = Ret (bs', b') →
  bs_ok ((b, ps, c) :: l) bs'.
Proof.
  intros [H0 Hdb Hall] Hp. pose proof Hp as (Hsome & Hlen & Hcomp & _).
  unfold SaveBlock. cbn [or_panic mbind outcome_bind].
  destruct (Z.eqb_spec (hd_Height (blk_Header b)) (BS_Height bs + 1)) as [Eh|]; [|done]. cbn [negb].
  rewrite Hcomp. cbn [negb].
  destruct (NewBlockMeta Sum b ps) as [meta b1] eqn:Em.
  pose proof (meta_block b ps) as Elc. rewrite Em in Elc. cbn [snd] in Elc.
  set (h := hd_Height (blk_Header b)) in *.
  destruct (save_parts bs h ps (Z.to_nat (ps_total ps)) 0 (put_meta (bs_db bs) h meta) Eh Hsome)
    as (m & -> & Hm1 & Hm2); [unfold zlen in Hlen; lia|].
  cbn [mbind outcome_bind]. intros (lc & Elc'%or_panic_Ret & E)%bind_Ret. rewrite Elc in Elc'.
  injection E as <- <-. unfold BS_Height in Eh. split.
  - cbn. lia.
  - done.
  - intros e [->|He]%elem_of_cons.
    + unfold entry_ok. cbn. fold h. rewrite Em. split_and!; try lia; try done.
      * apply lookup_insert_eq.
      * intros i p Hi. apply Hm1; [lia|done].
      * rewrite Elc'. apply lookup_insert_eq.
      * apply lookup_insert_eq.
    + specialize (Hall e He). destruct e as [[b2 ps2] c2]. unfold entry_ok in *.
      destruct Hall as (Hr & Hbp & Hmeta & Hparts & Hcm & Hseen). cbn.
      split_and!; try lia; try done.
      * by rewrite lookup_insert_ne by lia.
      * intros i p Hi. unfold LoadBlockPart. cbn. rewrite Hm2 by (left; lia). apply (Hparts i p Hi).
      * by rewrite lookup_insert_ne by lia.
      * by rewrite lookup_insert_ne by lia.
Qed.

Lemma saves_ok l bs : saves l bs → bs_ok l bs.
Proof.
  induction 1 as [|l bs _ [H0 Hdb Hall]|l bs b ps c bs' b' _ IH Hp E].
  - split; [done|done|]. intros e He. by apply not_elem_of_nil in He.
  - split; cbn; rewrite ?Hdb; try done. intros e He. specialize (Hall e He).
    destruct e as [[b ps] c]. unfold entry_ok in *. cbn. by rewrite Hdb.
  - by eapply SaveBlock_ok.
Qed.

(** The block store keeps the chain: after any number of saved blocks and restarts,
    every block saved is loaded again from its parts, with its identifier, the commit
    seen for it, and, under the height before, the last commit it carried (unless
    these are empty); all its heights lie between 1 and the height of the store. *)
Theorem BlockStore_roundtrip (l : list (Block * PartSet * Commit)) (bs : BlockStore) (b : Block) (ps : PartSet)
    (c : Commit) :
  saves l bs → (b, ps, c) ∈ l →
  let h := hd_Height (blk_Header b) in
  1 ≤ h ≤ BS_Height bs ∧
  LoadBlock unmarshalBlock bs h = Ret (Some b) ∧
  option_map bm_BlockID (LoadBlockMeta bs h) =
    Some (mkBlockID (Block_Hash Sum (Some b)).1 (PartSet_Header (Some ps))) ∧
  (zero_commit c = false → LoadSeenCommit bs h = Some c) ∧
  (∀ lc, blk_LastCommit b = Some lc → zero_commit lc = false → LoadBlockCommit bs (h - 1) = Some lc).
Proof.
  intros Hs He h. destruct (bo_entries _ _ (saves_ok _ _ Hs) _ He) as (Hr & (Hall & Hlen & _ & Hu) & Hm & Hp & Hc & Hsn).
  fold h in Hr, Hm, Hp, Hc, Hsn.
  assert ((NewBlockMeta Sum b ps).1.(bm_BlockID) = mkBlockID (Block_Hash Sum (Some b)).1 (PartSet_Header (Some ps)))
    as Eid by (unfold NewBlockMeta; by destruct (Block_Hash Sum (Some b))).
  split; [done|]. unfold LoadBlock, LoadBlockMeta, LoadSeenCommit, LoadBlockCommit, load_commit.
  rewrite Hm, Hsn, Hc. split_and!.
  - rewrite Eid. cbn [bid_PartsHeader PartSet_Header psh_Total]. rewrite (load_parts bs h ps); try done.
    2:{ unfold zlen in Hlen. lia. }
    cbn [mbind outcome_bind app]. rewrite drop_0, Hu. done.
  - cbn. by rewrite Eid.
  - intros Hz. cbn. by rewrite Hz.
  - intros lc -> Hz. cbn. by rewrite Hz.
Qed.

End Roundtrip.

Section Witnesses.
#[local] Existing Instance sample_block_codec.

Definition one_block : Block :=
  MakeBlock Merkle.pad32 [x41; x42; x43] 1 sample_txs (Some (NewCommit zeroBlockID [])) [] [].

Definition one_unmarshal (data : bytes) : option Block :=
  if bytes_equal data (marshalBlock one_block) then Some one_block else None.

Definition one_parts : PartSet :=
  match NewPartSetFromData Merkle.pad32 (marshalBlock one_block) 2 with
  | Ret ps => ps
  | Panic => mkPartSet 0 [] [] None 0
  end.

Definition one_store : BlockStore :=
  match SaveBlock Merkle.pad32 (NewBlockStore (mkBlockDB ∅ ∅ ∅ ∅ None)) (Some one_block) (Some one_parts)
    (Some made_commit) with
  | Ret (bs, _) => bs
  | Panic => NewBlockStore (mkBlockDB ∅ ∅ ∅ ∅ None)
  end.

Lemma one_block_parts : block_parts one_unmarshal one_block one_parts.
Proof.
  split_and!; [|vm_compute; reflexivity..].
  rewrite Forall_forall. intros o Ho. vm_compute in Ho.
  repeat (apply elem_of_cons in Ho as [->|Ho]; [by eexists|]). by apply not_elem_of_nil in Ho.
Qed.

Lemma BlockStore_roundtrip_witness : LoadBlock one_unmarshal one_store 1 = Ret (Some one_block).
Proof.
  refine (proj1 (proj2 (BlockStore_roundtrip Merkle.pad32 one_unmarshal [(one_block, one_parts, made_commit)] one_store
    one_block one_parts made_commit _ _))).
  - refine (saves_block _ _ [] _ _ _ _ _ one_block (saves_new _ _) one_block_parts _).
    vm_compute. reflexivity.
  - apply list_elem_of_here.
Defined.

End Witnesses.
