(* ===== verification/Consensus.v ===== *)
(** * consensus/state.go: the round state machine

    A [ConsensusState] is passed and returned by its methods. What it sends to other
    parts (messages to itself, timeouts, steps for the log and the peers, evidence, notices
    to the mempool) is appended to [cs_out]. The answers of the other components while one input
    is handled (clock, mempool, application, decoding, cross-shard tables) are
    an [Oracle]; the signer is an interface, [PrivValidator]. Metrics, log messages, events, the
    leader's address in etcd, the notebook of errors and the test hooks are left out. Deferred functions run at the end of
    each path. The block store is the one of [BlockStore].

    [Block.Hash] fills missing hashes of a header; a block received is filled once, when it is
    complete, after which hashing does not change it. *)

From Stdlib Require Import ZArith Lia List Bool Strings.Byte Strings.String.
From stdpp Require Import base list gmap.
From S2P Require Import Prelude Types ValidatorSet VerifyCommit VoteSet HeightVoteSet PartSet Block StateStore BlockStore.
Local Open Scope Z_scope.
Local Open Scope list_scope.

(** ** Steps, configuration, messages *)

Definition RoundStepNewHeight : Z := 1.
Definition RoundStepNewRound : Z := 2.
Definition RoundStepPropose : Z := 3.
Definition RoundStepPrevote : Z := 4.
Definition RoundStepPrevoteWait : Z := 5.
Definition RoundStepPrecommit : Z := 6.
Definition RoundStepPrecommitWait : Z := 7.
Definition RoundStepCommit : Z := 8.

Record ConsensusConfig := mkConfig {
  cfg_TimeoutPropose : Z;
  cfg_TimeoutProposeDelta : Z;
  cfg_TimeoutPrevote : Z;
  cfg_TimeoutPrevoteDelta : Z;
  cfg_TimeoutPrecommit : Z;
  cfg_TimeoutPrecommitDelta : Z;
  cfg_TimeoutCommit : Z;
  cfg_SkipTimeoutCommit : bool;
  cfg_CreateEmptyBlocks : bool;
  cfg_CreateEmptyBlocksInterval : Z
}.

Definition WaitForTxs (cfg : ConsensusConfig) : bool :=
  negb (cfg_CreateEmptyBlocks cfg) || (0 <? cfg_CreateEmptyBlocksInterval cfg).

Definition cfg_Propose (cfg : ConsensusConfig) (round : Z) : Z :=
  wrap64 (cfg_TimeoutPropose cfg + wrap64 (cfg_TimeoutProposeDelta cfg * round)).

Definition cfg_Prevote (cfg : ConsensusConfig) (round : Z) : Z :=
  wrap64 (cfg_TimeoutPrevote cfg + wrap64 (cfg_TimeoutPrevoteDelta cfg * round)).

Definition cfg_Precommit (cfg : ConsensusConfig) (round : Z) : Z :=
  wrap64 (cfg_TimeoutPrecommit cfg + wrap64 (cfg_TimeoutPrecommitDelta cfg * round)).

Definition cfg_Commit (cfg : ConsensusConfig) (t : Z) : Z := t + cfg_TimeoutCommit cfg.

Inductive ConsensusMessage :=
| ProposalMessage (proposal : Proposal)
| BlockPartMessage (height round : Z) (part : Part)
| VoteMessage (vote : Vote).

Record timeoutInfo := mkTimeoutInfo { ti_Duration : Z; ti_Height : Z; ti_Round : Z; ti_Step : Z }.

(** What the state machine sends to other parts of the node. *)
Inductive effect :=
| SendInternal (msg : ConsensusMessage)
| ScheduleTimeout (ti : timeoutInfo)
| NewStep (height round step : Z)
| WriteEndHeight (height : Z)
| AddEvidence (ev : DuplicateVoteEvidence)
| SaveBlockOf (height : Z) (block : Block) (seenCommit : Commit)
| SyncRelationTable (pack : bytes) (height : Z)
| ModifyRelationTable (height : Z)
| SetCrossSendStrike (rate : bytes)
| SetCrossReceiveStrike (rate : bytes)
| SendAggregate (txs : list bytes) (height : Z)
| KillProcess.

(** The part of a decoded transaction (identypes.TX) that is used. *)
Record TX := mkTX { tx_Txtype : bytes; tx_Operate : Z; tx_args : list bytes }.

(** What the other components answer while one input is handled: the clock, the blocks
    to propose ([CreateProposalBlock]), the result of executing a block ([ApplyBlock], [None] for
    an error), [UnmarshalBinaryLengthPrefixedReader] into a block (what the pointer then holds, and
    whether it failed), [NewTX], [VerifySig], the packages of a block, whether a
    transaction is a checkpoint and agrees with the local relay list, whether packages wait to be
    merged, whether the cross-shard messages of a block could be made, [SignatureRecovery], [ParseId]. *)
Record Oracle := mkOracle {
  o_now : Z;
  o_CreateProposalBlock : Z → State → Commit → bytes → option (Block * PartSet);
  o_ApplyBlock : State → BlockID → Block → bool → option State;
  o_unmarshalBlock : option Block → PartSetReader → Z → option Block * bool;
  o_NewTX : bytes → option TX;
  o_VerifySig : TX → bool;
  o_ParsePackages : bytes → list bytes;
  o_checkpoint : bytes → option bool;
  o_packs : bool;
  o_aggregated : bool;
  o_SignatureRecovery : list bytes → list Z → option bytes;
  o_ParseId : Z
}.

(** types.PrivValidator; [None] and [true] are errors. *)
Class PrivValidator (PV : Type) := {
  pv_GetAddress : PV → bytes;
  pv_SignVote : PV → bytes → Vote → outcome (PV * option Vote);
  pv_SignProposal : PV → bytes → Proposal → outcome (PV * option Proposal);
  pv_SigCrossMerkleRoot : PV → bytes → bytes → Vote → outcome (Vote * bool)
}.

Inductive cs_error := ErrVoteHeightMismatch | ErrHeightVoteSet (err : hvs_error).

Inductive proposal_error := ErrInvalidProposalPOLRound | ErrInvalidProposalSignature.

Inductive block_part_error := ErrAddPart (err : partset_error) | ErrUnmarshalBlock.

Section Machine.
Context (Sum : bytes → bytes) `{Codec} `{Crypto} `{BlockCodec} {PV : Type} `{PrivValidator PV}.

(** ** The state *)

(** [ProposalBlock], [LockedBlock] and [ValidBlock] are pointers, and so are the three part sets. The state holds
    what they point to; [Refs] holds the addresses, so that a write through one pointer is seen through another that is
    equal to it. An address means something only where the pointer is not nil. *)
Record Refs := mkRefs {
  rf_ProposalBlock : nat;
  rf_ProposalBlockParts : nat;
  rf_LockedBlock : nat;
  rf_LockedBlockParts : nat;
  rf_ValidBlock : nat;
  rf_ValidBlockParts : nat;
  rf_next : nat
}.

(** [LockedBlock, LockedBlockParts = ProposalBlock, ProposalBlockParts], and so on. *)
Definition refs_lock (r : Refs) : Refs :=
  mkRefs (rf_ProposalBlock r) (rf_ProposalBlockParts r) (rf_ProposalBlock r) (rf_ProposalBlockParts r)
    (rf_ValidBlock r) (rf_ValidBlockParts r) (rf_next r).

Definition refs_valid (r : Refs) : Refs :=
  mkRefs (rf_ProposalBlock r) (rf_ProposalBlockParts r) (rf_LockedBlock r) (rf_LockedBlockParts r)
    (rf_ProposalBlock r) (rf_ProposalBlockParts r) (rf_next r).

Definition refs_commit (r : Refs) : Refs :=
  mkRefs (rf_LockedBlock r) (rf_LockedBlockParts r) (rf_LockedBlock r) (rf_LockedBlockParts r)
    (rf_ValidBlock r) (rf_ValidBlockParts r) (rf_next r).

(** A new proposal block, a new set of parts. *)
Definition refs_new_block (r : Refs) : Refs :=
  mkRefs (rf_next r) (rf_ProposalBlockParts r) (rf_LockedBlock r) (rf_LockedBlockParts r)
    (rf_ValidBlock r) (rf_ValidBlockParts r) (S (rf_next r)).

Definition refs_new_parts (r : Refs) : Refs :=
  mkRefs (rf_ProposalBlock r) (rf_next r) (rf_LockedBlock r) (rf_LockedBlockParts r)
    (rf_ValidBlock r) (rf_ValidBlockParts r) (S (rf_next r)).

Record ConsensusState := mkCS {
  cs_Height : Z;
  cs_Round : Z;
  cs_Step : Z;
  cs_StartTime : Z;
  cs_CommitTime : Z;
  cs_Validators : ValidatorSet;
  cs_Proposal : option Proposal;
  cs_ProposalBlock : option Block;
  cs_ProposalBlockParts : option PartSet;
  cs_LockedRound : Z;
  cs_LockedBlock : option Block;
  cs_LockedBlockParts : option PartSet;
  cs_ValidRound : Z;
  cs_ValidBlock : option Block;
  cs_ValidBlockParts : option PartSet;
  cs_Votes : option HeightVoteSet;
  cs_CommitRound : Z;
  cs_LastCommit : option VoteSet;
  cs_LastValidators : ValidatorSet;
  cs_TriggeredTimeoutPrecommit : bool;
  cs_config : ConsensusConfig;
  cs_privValidator : option PV;
  cs_blockStore : BlockStore;
  cs_state : option State;
  cs_out : list effect;
  cs_refs : Refs
}.

Definition updateRoundStep (cs : ConsensusState) (round' : Z) (step' : Z) : ConsensusState :=
  mkCS (cs_Height cs) round' step' (cs_StartTime cs) (cs_CommitTime cs) (cs_Validators cs) (cs_Proposal cs)
    (cs_ProposalBlock cs) (cs_ProposalBlockParts cs) (cs_LockedRound cs) (cs_LockedBlock cs)
    (cs_LockedBlockParts cs) (cs_ValidRound cs) (cs_ValidBlock cs) (cs_ValidBlockParts cs) (cs_Votes cs)
    (cs_CommitRound cs) (cs_LastCommit cs) (cs_LastValidators cs) (cs_TriggeredTimeoutPrecommit cs) 
    (cs_config cs) (cs_privValidator cs) (cs_blockStore cs) (cs_state cs) (cs_out cs) (cs_refs cs).

Definition set_Validators (cs : ConsensusState) (validators' : ValidatorSet) : ConsensusState :=
  mkCS (cs_Height cs) (cs_Round cs) (cs_Step cs) (cs_StartTime cs) (cs_CommitTime cs) validators' (cs_Proposal cs)
    (cs_ProposalBlock cs) (cs_ProposalBlockParts cs) (cs_LockedRound cs) (cs_LockedBlock cs)
    (cs_LockedBlockParts cs) (cs_ValidRound cs) (cs_ValidBlock cs) (cs_ValidBlockParts cs) (cs_Votes cs)
    (cs_CommitRound cs) (cs_LastCommit cs) (cs_LastValidators cs) (cs_TriggeredTimeoutPrecommit cs) 
    (cs_config cs) (cs_privValidator cs) (cs_blockStore cs) (cs_state cs) (cs_out cs) (cs_refs cs).

Definition set_Proposal (cs : ConsensusState) (proposal' : option Proposal) : ConsensusState :=
  mkCS (cs_Height cs) (cs_Round cs) (cs_Step cs) (cs_StartTime cs) (cs_CommitTime cs) (cs_Validators cs) proposal'
    (cs_ProposalBlock cs) (cs_ProposalBlockParts cs) (cs_LockedRound cs) (cs_LockedBlock cs)
    (cs_LockedBlockParts cs) (cs_ValidRound cs) (cs_ValidBlock cs) (cs_ValidBlockParts cs) (cs_Votes cs)
    (cs_CommitRound cs) (cs_LastCommit cs) (cs_LastValidators cs) (cs_TriggeredTimeoutPrecommit cs) 
    (cs_config cs) (cs_privValidator cs) (cs_blockStore cs) (cs_state cs) (cs_out cs) (cs_refs cs).

Definition set_ProposalBlock (cs : ConsensusState) (proposalBlock' : option Block) (proposalBlockParts' : option
    PartSet) : ConsensusState :=
  mkCS (cs_Height cs) (cs_Round cs) (cs_Step cs) (cs_StartTime cs) (cs_CommitTime cs) (cs_Validators cs)
    (cs_Proposal cs) proposalBlock' proposalBlockParts' (cs_LockedRound cs) (cs_LockedBlock cs)
    (cs_LockedBlockParts cs) (cs_ValidRound cs) (cs_ValidBlock cs) (cs_ValidBlockParts cs) (cs_Votes cs)
    (cs_CommitRound cs) (cs_LastCommit cs) (cs_LastValidators cs) (cs_TriggeredTimeoutPrecommit cs) 
    (cs_config cs) (cs_privValidator cs) (cs_blockStore cs) (cs_state cs) (cs_out cs) (cs_refs cs).

Definition set_Locked (cs : ConsensusState) (lockedRound' : Z) (lockedBlock' : option Block) (lockedBlockParts'
    : option PartSet) : ConsensusState :=
  mkCS (cs_Height cs) (cs_Round cs) (cs_Step cs) (cs_StartTime cs) (cs_CommitTime cs) (cs_Validators cs)
    (cs_Proposal cs) (cs_ProposalBlock cs) (cs_ProposalBlockParts cs) lockedRound' lockedBlock'
    lockedBlockParts' (cs_ValidRound cs) (cs_ValidBlock cs) (cs_ValidBlockParts cs) (cs_Votes cs)
    (cs_CommitRound cs) (cs_LastCommit cs) (cs_LastValidators cs) (cs_TriggeredTimeoutPrecommit cs) 
    (cs_config cs) (cs_privValidator cs) (cs_blockStore cs) (cs_state cs) (cs_out cs) (cs_refs cs).

Definition set_Valid (cs : ConsensusState) (validRound' : Z) (validBlock' : option Block) (validBlockParts' :
    option PartSet) : ConsensusState :=
  mkCS (cs_Height cs) (cs_Round cs) (cs_Step cs) (cs_StartTime cs) (cs_CommitTime cs) (cs_Validators cs)
    (cs_Proposal cs) (cs_ProposalBlock cs) (cs_ProposalBlockParts cs) (cs_LockedRound cs) (cs_LockedBlock cs)
    (cs_LockedBlockParts cs) validRound' validBlock' validBlockParts' (cs_Votes cs) (cs_CommitRound cs)
    (cs_LastCommit cs) (cs_LastValidators cs) (cs_TriggeredTimeoutPrecommit cs) (cs_config cs) (cs_privValidator
    cs) (cs_blockStore cs) (cs_state cs) (cs_out cs) (cs_refs cs).

Definition set_Votes (cs : ConsensusState) (votes' : option HeightVoteSet) : ConsensusState :=
  mkCS (cs_Height cs) (cs_Round cs) (cs_Step cs) (cs_StartTime cs) (cs_CommitTime cs) (cs_Validators cs)
    (cs_Proposal cs) (cs_ProposalBlock cs) (cs_ProposalBlockParts cs) (cs_LockedRound cs) (cs_LockedBlock cs)
    (cs_LockedBlockParts cs) (cs_ValidRound cs) (cs_ValidBlock cs) (cs_ValidBlockParts cs) votes'
    (cs_CommitRound cs) (cs_LastCommit cs) (cs_LastValidators cs) (cs_TriggeredTimeoutPrecommit cs) 
    (cs_config cs) (cs_privValidator cs) (cs_blockStore cs) (cs_state cs) (cs_out cs) (cs_refs cs).

Definition set_Commit (cs : ConsensusState) (commitRound' : Z) (commitTime' : Z) : ConsensusState :=
  mkCS (cs_Height cs) (cs_Round cs) (cs_Step cs) (cs_StartTime cs) commitTime' (cs_Validators cs) (cs_Proposal cs)
    (cs_ProposalBlock cs) (cs_ProposalBlockParts cs) (cs_LockedRound cs) (cs_LockedBlock cs)
    (cs_LockedBlockParts cs) (cs_ValidRound cs) (cs_ValidBlock cs) (cs_ValidBlockParts cs) (cs_Votes cs)
    commitRound' (cs_LastCommit cs) (cs_LastValidators cs) (cs_TriggeredTimeoutPrecommit cs) (cs_config cs)
    (cs_privValidator cs) (cs_blockStore cs) (cs_state cs) (cs_out cs) (cs_refs cs).

Definition set_LastCommit (cs : ConsensusState) (lastCommit' : option VoteSet) : ConsensusState :=
  mkCS (cs_Height cs) (cs_Round cs) (cs_Step cs) (cs_StartTime cs) (cs_CommitTime cs) (cs_Validators cs)
    (cs_Proposal cs) (cs_ProposalBlock cs) (cs_ProposalBlockParts cs) (cs_LockedRound cs) (cs_LockedBlock cs)
    (cs_LockedBlockParts cs) (cs_ValidRound cs) (cs_ValidBlock cs) (cs_ValidBlockParts cs) (cs_Votes cs)
    (cs_CommitRound cs) lastCommit' (cs_LastValidators cs) (cs_TriggeredTimeoutPrecommit cs) (cs_config cs)
    (cs_privValidator cs) (cs_blockStore cs) (cs_state cs) (cs_out cs) (cs_refs cs).

Definition set_Triggered (cs : ConsensusState) (triggeredTimeoutPrecommit' : bool) : ConsensusState :=
  mkCS (cs_Height cs) (cs_Round cs) (cs_Step cs) (cs_StartTime cs) (cs_CommitTime cs) (cs_Validators cs)
    (cs_Proposal cs) (cs_ProposalBlock cs) (cs_ProposalBlockParts cs) (cs_LockedRound cs) (cs_LockedBlock cs)
    (cs_LockedBlockParts cs) (cs_ValidRound cs) (cs_ValidBlock cs) (cs_ValidBlockParts cs) (cs_Votes cs)
    (cs_CommitRound cs) (cs_LastCommit cs) (cs_LastValidators cs) triggeredTimeoutPrecommit' (cs_config cs)
    (cs_privValidator cs) (cs_blockStore cs) (cs_state cs) (cs_out cs) (cs_refs cs).

Definition set_pv (cs : ConsensusState) (privValidator' : option PV) : ConsensusState :=
  mkCS (cs_Height cs) (cs_Round cs) (cs_Step cs) (cs_StartTime cs) (cs_CommitTime cs) (cs_Validators cs)
    (cs_Proposal cs) (cs_ProposalBlock cs) (cs_ProposalBlockParts cs) (cs_LockedRound cs) (cs_LockedBlock cs)
    (cs_LockedBlockParts cs) (cs_ValidRound cs) (cs_ValidBlock cs) (cs_ValidBlockParts cs) (cs_Votes cs)
    (cs_CommitRound cs) (cs_LastCommit cs) (cs_LastValidators cs) (cs_TriggeredTimeoutPrecommit cs) 
    (cs_config cs) privValidator' (cs_blockStore cs) (cs_state cs) (cs_out cs) (cs_refs cs).

Definition set_blockStore (cs : ConsensusState) (blockStore' : BlockStore) : ConsensusState :=
  mkCS (cs_Height cs) (cs_Round cs) (cs_Step cs) (cs_StartTime cs) (cs_CommitTime cs) (cs_Validators cs)
    (cs_Proposal cs) (cs_ProposalBlock cs) (cs_ProposalBlockParts cs) (cs_LockedRound cs) (cs_LockedBlock cs)
    (cs_LockedBlockParts cs) (cs_ValidRound cs) (cs_ValidBlock cs) (cs_ValidBlockParts cs) (cs_Votes cs)
    (cs_CommitRound cs) (cs_LastCommit cs) (cs_LastValidators cs) (cs_TriggeredTimeoutPrecommit cs) 
    (cs_config cs) (cs_privValidator cs) blockStore' (cs_state cs) (cs_out cs) (cs_refs cs).

Definition set_state (cs : ConsensusState) (state' : option State) : ConsensusState :=
  mkCS (cs_Height cs) (cs_Round cs) (cs_Step cs) (cs_StartTime cs) (cs_CommitTime cs) (cs_Validators cs)
    (cs_Proposal cs) (cs_ProposalBlock cs) (cs_ProposalBlockParts cs) (cs_LockedRound cs) (cs_LockedBlock cs)
    (cs_LockedBlockParts cs) (cs_ValidRound cs) (cs_ValidBlock cs) (cs_ValidBlockParts cs) (cs_Votes cs)
    (cs_CommitRound cs) (cs_LastCommit cs) (cs_LastValidators cs) (cs_TriggeredTimeoutPrecommit cs) 
    (cs_config cs) (cs_privValidator cs) (cs_blockStore cs) state' (cs_out cs) (cs_refs cs).

Definition set_out (cs : ConsensusState) (out' : list effect) : ConsensusState :=
  mkCS (cs_Height cs) (cs_Round cs) (cs_Step cs) (cs_StartTime cs) (cs_CommitTime cs) (cs_Validators cs)
    (cs_Proposal cs) (cs_ProposalBlock cs) (cs_ProposalBlockParts cs) (cs_LockedRound cs) (cs_LockedBlock cs)
    (cs_LockedBlockParts cs) (cs_ValidRound cs) (cs_ValidBlock cs) (cs_ValidBlockParts cs) (cs_Votes cs)
    (cs_CommitRound cs) (cs_LastCommit cs) (cs_LastValidators cs) (cs_TriggeredTimeoutPrecommit cs) 
    (cs_config cs) (cs_privValidator cs) (cs_blockStore cs) (cs_state cs) out' (cs_refs cs).

Definition set_refs (cs : ConsensusState) (refs' : Refs) : ConsensusState :=
  mkCS (cs_Height cs) (cs_Round cs) (cs_Step cs) (cs_StartTime cs) (cs_CommitTime cs) (cs_Validators cs)
    (cs_Proposal cs) (cs_ProposalBlock cs) (cs_ProposalBlockParts cs) (cs_LockedRound cs) (cs_LockedBlock cs)
    (cs_LockedBlockParts cs) (cs_ValidRound cs) (cs_ValidBlock cs) (cs_ValidBlockParts cs) (cs_Votes cs)
    (cs_CommitRound cs) (cs_LastCommit cs) (cs_LastValidators cs) (cs_TriggeredTimeoutPrecommit cs)
    (cs_config cs) (cs_privValidator cs) (cs_blockStore cs) (cs_state cs) (cs_out cs) refs'.

Definition emit (cs : ConsensusState) (e : effect) : ConsensusState := set_out cs (cs_out cs ++ [e]).

(** The assignments between the pointers. *)
Definition lock_proposal (cs : ConsensusState) (round : Z) : ConsensusState :=
  set_refs (set_Locked cs round (cs_ProposalBlock cs) (cs_ProposalBlockParts cs)) (refs_lock (cs_refs cs)).

Definition valid_proposal (cs : ConsensusState) (round : Z) : ConsensusState :=
  set_refs (set_Valid cs round (cs_ProposalBlock cs) (cs_ProposalBlockParts cs)) (refs_valid (cs_refs cs)).

Definition commit_locked (cs : ConsensusState) : ConsensusState :=
  set_refs (set_ProposalBlock cs (cs_LockedBlock cs) (cs_LockedBlockParts cs)) (refs_commit (cs_refs cs)).

(** [ProposalBlock = block; ProposalBlockParts = parts] with a part set that is new. *)
Definition new_parts (cs : ConsensusState) (block : option Block) (parts : PartSet) : ConsensusState :=
  set_refs (set_ProposalBlock cs block (Some parts)) (refs_new_parts (cs_refs cs)).

(** A write through a pointer that is not nil. *)
Definition written {A} (same : bool) (new : A) (x : option A) : option A :=
  match x with Some _ => if same then Some new else x | None => None end.

(** [ProposalBlockParts.AddPart] changes the set in place. *)
Definition write_parts (cs : ConsensusState) (parts : PartSet) : ConsensusState :=
  let r := cs_refs cs in
  let cs := set_ProposalBlock cs (cs_ProposalBlock cs) (Some parts) in
  let cs := set_Locked cs (cs_LockedRound cs) (cs_LockedBlock cs)
    (written (rf_LockedBlockParts r =? rf_ProposalBlockParts r)%nat parts (cs_LockedBlockParts cs)) in
  set_Valid cs (cs_ValidRound cs) (cs_ValidBlock cs)
    (written (rf_ValidBlockParts r =? rf_ProposalBlockParts r)%nat parts (cs_ValidBlockParts cs)).

(** Decoding into [&cs.ProposalBlock]: a nil pointer gets a new block, the block of another pointer is overwritten. *)
Definition decode_block (cs : ConsensusState) (b : option Block) : ConsensusState :=
  let r := cs_refs cs in
  match cs_ProposalBlock cs, b with
  | None, _ => set_refs (set_ProposalBlock cs b (cs_ProposalBlockParts cs)) (refs_new_block r)
  | Some _, None => set_ProposalBlock cs None (cs_ProposalBlockParts cs)
  | Some _, Some new =>
      let cs := set_ProposalBlock cs (Some new) (cs_ProposalBlockParts cs) in
      let cs := set_Locked cs (cs_LockedRound cs)
        (written (rf_LockedBlock r =? rf_ProposalBlock r)%nat new (cs_LockedBlock cs)) (cs_LockedBlockParts cs) in
      set_Valid cs (cs_ValidRound cs)
        (written (rf_ValidBlock r =? rf_ProposalBlock r)%nat new (cs_ValidBlock cs)) (cs_ValidBlockParts cs)
  end.

(** [cs.state] is empty only before the first [updateToState]. *)
Definition the_state (cs : ConsensusState) : outcome State := or_panic (cs_state cs).

Definition block_hash (b : option Block) : bytes := (Block_Hash Sum b).1.

Definition hashes_to (b : option Block) (hash : bytes) : bool := (Block_HashesTo Sum b hash).1.

Definition prevotes (cs : ConsensusState) (round : Z) : outcome (option VoteSet) :=
  hvs ← or_panic (cs_Votes cs); getVoteSet hvs round PrevoteType.

Definition precommits (cs : ConsensusState) (round : Z) : outcome (option VoteSet) :=
  hvs ← or_panic (cs_Votes cs); getVoteSet hvs round PrecommitType.

Definition my_address (cs : ConsensusState) : outcome bytes := pv_GetAddress <$> or_panic (cs_privValidator cs).

Definition newStep (cs : ConsensusState) : ConsensusState := emit cs (NewStep (cs_Height cs) (cs_Round cs) (cs_Step cs)).

Definition scheduleTimeout (cs : ConsensusState) (duration height round step : Z) : ConsensusState :=
  emit cs (ScheduleTimeout (mkTimeoutInfo duration height round step)).

Definition scheduleRound0 (o : Oracle) (cs : ConsensusState) : ConsensusState :=
  scheduleTimeout cs (cs_StartTime cs - o_now o) (cs_Height cs) 0 RoundStepNewHeight.

(** Sets the fields of a new height. *)
Definition reset_height (cs : ConsensusState) (height startTime : Z) (validators : ValidatorSet) (votes : HeightVoteSet)
    (lastPrecommits : option VoteSet) (lastValidators : ValidatorSet) (state : State) : ConsensusState :=
  mkCS height 0 RoundStepNewHeight startTime (cs_CommitTime cs) validators None None None (-1) None None (-1) None None
    (Some votes) (-1) lastPrecommits lastValidators false (cs_config cs) (cs_privValidator cs) (cs_blockStore cs)
    (Some state) (cs_out cs) (cs_refs cs).

Definition updateToState (o : Oracle) (cs : ConsensusState) (state : State) : outcome ConsensusState :=
  if (-1 <? cs_CommitRound cs) && (0 <? cs_Height cs) && negb (cs_Height cs =? st_LastBlockHeight state) then Panic
  else if (match cs_state cs with
           | Some st => negb (st_LastBlockHeight st + 1 =? cs_Height cs)
           | None => false
           end) then Panic
  else if (match cs_state cs with
           | Some st => st_LastBlockHeight state <=? st_LastBlockHeight st
           | None => false
           end) then Ret (newStep cs)
  else
    lastPrecommits ←
      match cs_Votes cs with
      | Some _ =>
          if -1 <? cs_CommitRound cs then
            vs ← precommits cs (cs_CommitRound cs);
            if negb (HasTwoThirdsMajority vs) then Panic else Ret vs
          else Ret None
      | None => Ret None
      end;
    let height := st_LastBlockHeight state + 1 in
    let startTime := cfg_Commit (cs_config cs) (if cs_CommitTime cs =? 0 then o_now o else cs_CommitTime cs) in
    votes ← NewHeightVoteSet (st_ChainID state) height (st_Validators state);
    Ret (newStep (reset_height cs height startTime (st_Validators state) votes lastPrecommits
                    (st_LastValidators state) state)).

(** The loop over the precommits of the seen commit. *)
Fixpoint reconstruct_loop (vs : VoteSet) (l : list (option CommitSig)) : outcome VoteSet :=
  match l with
  | [] => Ret vs
  | None :: l' => reconstruct_loop vs l'
  | Some precommit :: l' =>
      '(vs, added, err) ← AddVote (Some vs) (Some precommit);
      match added, err with
      | true, None => reconstruct_loop vs l'
      | _, _ => Panic
      end
  end.

(** [seenCommit.Round()] dereferences the commit before it is compared with nil. *)
Definition reconstructLastCommit (cs : ConsensusState) (state : State) : outcome ConsensusState :=
  if st_LastBlockHeight state =? 0 then Ret cs
  else
    seenCommit ← or_panic (LoadSeenCommit (cs_blockStore cs) (st_LastBlockHeight state));
    lastPrecommits ← NewVoteSet (st_ChainID state) (st_LastBlockHeight state) (Commit_Round seenCommit) PrecommitType
      (st_LastValidators state);
    lastPrecommits ← reconstruct_loop lastPrecommits (commit_Precommits seenCommit);
    if negb (HasTwoThirdsMajority (Some lastPrecommits)) then Panic
    else Ret (set_LastCommit cs (Some lastPrecommits)).

Definition NewConsensusState (o : Oracle) (config : ConsensusConfig) (pv : option PV) (store : BlockStore) (state : State) :
    outcome ConsensusState :=
  let noVals := mkValidatorSet [] None 0 in
  let cs := mkCS 0 0 0 0 0 noVals None None None 0 None None 0 None None None 0 None noVals false config pv store
    None [] (mkRefs 0 0 0 0 0 0 1) in
  cs ← updateToState o cs state;
  reconstructLastCommit cs state.

(** ** Proposer and votes *)

Definition isProposer (cs : ConsensusState) (address : bytes) : outcome (bool * ConsensusState) :=
  '(p, vals) ← GetProposer (cs_Validators cs);
  p ← or_panic p;
  Ret (bytes_equal (pr_Address p) address, set_Validators cs vals).

Definition isLeader (cs : ConsensusState) : outcome (bool * ConsensusState) :=
  address ← my_address cs;
  isProposer cs address.

Definition voteTime (o : Oracle) (cs : ConsensusState) : outcome Z :=
  state ← the_state cs;
  let timeIota := bp_TimeIotaMs (cp_Block (st_ConsensusParams state)) * 1000000 in
  let minVoteTime := match cs_LockedBlock cs, cs_ProposalBlock cs with
                     | Some b, _ => hd_Time (blk_Header b) + timeIota
                     | None, Some b => hd_Time (blk_Header b) + timeIota
                     | None, None => o_now o
                     end in
  Ret (if minVoteTime <? o_now o then o_now o else minVoteTime).

(** Always [true] in the code. *)
Definition JudgeBlockPakcages (o : Oracle) (cs : ConsensusState) : outcome (bool * ConsensusState) :=
  b ← or_panic (cs_ProposalBlock cs);
  match o_ParsePackages o (hd_CmRelation (blk_Header b)) with
  | [] => Ret (true, cs)
  | packs =>
      '(leader, cs) ← isLeader cs;
      Ret (true, if (leader : bool) then cs
                 else foldl (λ cs pack, emit cs (SyncRelationTable pack (hd_Height (blk_Header b)))) cs packs)
  end.

Definition vote_without_hash (vote : Vote) : Vote :=
  mkVote (vote_Type vote) (vote_Height vote) (vote_Round vote) (mkBlockID [] (bid_PartsHeader (vote_BlockID vote)))
    (vote_Timestamp vote) (vote_ValidatorAddress vote) (vote_ValidatorIndex vote) (vote_Signature vote)
    (vote_PartSig vote) (vote_PartBlockSig vote).

Definition cs_signVote (o : Oracle) (cs : ConsensusState) (type_ : Z) (hash : bytes) (header : PartSetHeader) :
    outcome (ConsensusState * option Vote) :=
  addr ← my_address cs;
  let valIndex := (GetByAddress (cs_Validators cs) addr).1 in
  time ← voteTime o cs;
  let partSig := Some (mkPartSig [] (o_ParseId o)) in
  let vote := mkVote type_ (cs_Height cs) (cs_Round cs) (mkBlockID hash header) time addr valIndex [] partSig partSig in
  '(cs, vote) ←
    if (type_ =? PrevoteType) && negb (zlen hash =? 0) then
      '(ok, cs) ← JudgeBlockPakcages o cs;
      if negb ok then Ret (cs, vote_without_hash vote)
      else
        b ← or_panic (cs_ProposalBlock cs);
        pv ← or_panic (cs_privValidator cs);
        '(vote, err) ← pv_SigCrossMerkleRoot pv (hd_CrossMerkleRoot (blk_Header b))
                         (Header_Hash Sum (Some (blk_Header b))) vote;
        Ret (cs, if (err : bool) then vote_without_hash vote else vote)
    else Ret (cs, vote);
  state ← the_state cs;
  pv ← or_panic (cs_privValidator cs);
  '(pv, signed) ← pv_SignVote pv (st_ChainID state) vote;
  Ret (set_pv cs (Some pv), signed).

Definition signAddVote (o : Oracle) (cs : ConsensusState) (type_ : Z) (hash : bytes) (header : PartSetHeader) :
    outcome ConsensusState :=
  match cs_privValidator cs with
  | None => Ret cs
  | Some pv =>
      if negb (HasAddress (cs_Validators cs) (pv_GetAddress pv)) then Ret cs
      else
        '(cs, vote) ← cs_signVote o cs type_ hash header;
        match vote with
        | Some vote => Ret (emit cs (SendInternal (VoteMessage vote)))
        | None => Ret cs
        end
  end.

Definition nilHeader : PartSetHeader := mkPartSetHeader 0 [].

(** ** Prevote *)

(** The loop over the transactions: whether all signatures are right. *)
Definition txs_signed (o : Oracle) (txs : list bytes) : bool :=
  forallb (λ tx, match o_NewTX o tx with None => true | Some t => o_VerifySig o t end) txs.

Definition defaultDoPrevote (o : Oracle) (cs : ConsensusState) : outcome ConsensusState :=
  match cs_LockedBlock cs with
  | Some b => signAddVote o cs PrevoteType (block_hash (Some b)) (PartSet_Header (cs_LockedBlockParts cs))
  | None =>
      match cs_ProposalBlock cs with
      | None => signAddVote o cs PrevoteType [] nilHeader
      | Some b =>
          state ← the_state cs;
          err ← validateBlock Sum state b;
          match err with
          | Some _ => signAddVote o cs PrevoteType [] nilHeader
          | None =>
              if txs_signed o (blk_Txs b)
              then signAddVote o cs PrevoteType (block_hash (Some b)) (PartSet_Header (cs_ProposalBlockParts cs))
              else signAddVote o cs PrevoteType [] nilHeader
          end
      end
  end.

Definition enterPrevote (o : Oracle) (cs : ConsensusState) (height round : Z) : outcome ConsensusState :=
  if negb (cs_Height cs =? height) || (round <? cs_Round cs)
     || ((cs_Round cs =? round) && (RoundStepPrevote <=? cs_Step cs)) then Ret cs
  else
    cs ← defaultDoPrevote o cs;
    Ret (newStep (updateRoundStep cs round RoundStepPrevote)).

(** ** Propose *)

Definition isProposalComplete (cs : ConsensusState) : outcome bool :=
  match cs_Proposal cs, cs_ProposalBlock cs with
  | Some p, Some _ =>
      if prop_POLRound p <? 0 then Ret true
      else vs ← prevotes cs (prop_POLRound p); Ret (HasTwoThirdsMajority vs)
  | _, _ => Ret false
  end.

Definition createProposalBlock (o : Oracle) (cs : ConsensusState) : outcome (option (Block * PartSet)) :=
  commit ←
    if cs_Height cs =? 1 then Ret (Some (NewCommit zeroBlockID []))
    else if HasTwoThirdsMajority (cs_LastCommit cs) then
      vs ← or_panic (cs_LastCommit cs); Some <$> MakeCommit vs
    else Ret None;
  match commit with
  | None => Ret None
  | Some commit =>
      proposerAddr ← my_address cs;
      state ← the_state cs;
      Ret (o_CreateProposalBlock o (cs_Height cs) state commit proposerAddr)
  end.

(** The parts of a complete set are not nil. *)
Definition send_parts (cs : ConsensusState) (blockParts : PartSet) : outcome ConsensusState :=
  for_range (Z.to_nat (ps_total blockParts)) 0
    (λ i cs, part ← GetPart blockParts (Z.of_nat i);
             part ← or_panic part;
             Ret (emit cs (SendInternal (BlockPartMessage (cs_Height cs) (cs_Round cs) part)))) cs.

Definition defaultDecideProposal (o : Oracle) (cs : ConsensusState) (height round : Z) : outcome ConsensusState :=
  chosen ← match cs_ValidBlock cs with
           | Some b => Ret (Some (b, cs_ValidBlockParts cs))
           | None => made ← createProposalBlock o cs; Ret (option_map (λ bp, (bp.1, Some bp.2)) made)
           end;
  match chosen with
  | None => Ret cs
  | Some (block, blockParts) =>
      let propBlockId := mkBlockID (block_hash (Some block)) (PartSet_Header blockParts) in
      let proposal := NewProposal (o_now o) height round (cs_ValidRound cs) propBlockId in
      state ← the_state cs;
      pv ← or_panic (cs_privValidator cs);
      '(pv, signed) ← pv_SignProposal pv (st_ChainID state) proposal;
      let cs := set_pv cs (Some pv) in
      match signed with
      | None => Ret cs
      | Some proposal =>
          blockParts ← or_panic blockParts;
          _ ← GetReader blockParts;
          send_parts (emit cs (SendInternal (ProposalMessage proposal))) blockParts
      end
  end.

(** The deferred function of [enterPropose]. *)
Definition donePropose (o : Oracle) (cs : ConsensusState) (height round : Z) : outcome ConsensusState :=
  let cs := newStep (updateRoundStep cs round RoundStepPropose) in
  complete ← isProposalComplete cs;
  if (complete : bool) then enterPrevote o cs height (cs_Round cs) else Ret cs.

Definition enterPropose (o : Oracle) (cs : ConsensusState) (height round : Z) : outcome ConsensusState :=
  if negb (cs_Height cs =? height) || (round <? cs_Round cs)
     || ((cs_Round cs =? round) && (RoundStepPropose <=? cs_Step cs)) then Ret cs
  else
    let cs := scheduleTimeout cs (cfg_Propose (cs_config cs) round) height round RoundStepPropose in
    match cs_privValidator cs with
    | None => donePropose o cs height round
    | Some pv =>
        let address := pv_GetAddress pv in
        if negb (HasAddress (cs_Validators cs) address) then donePropose o cs height round
        else
          '(mine, cs) ← isProposer cs address;
          cs ← if (mine : bool) then defaultDecideProposal o cs height round else Ret cs;
          donePropose o cs height round
    end.

(** ** New rounds *)

Definition needProofBlock (cs : ConsensusState) (height : Z) : outcome bool :=
  if height =? 1 then Ret true
  else
    state ← the_state cs;
    lastBlockMeta ← or_panic (LoadBlockMeta (cs_blockStore cs) (height - 1));
    Ret (negb (bytes_equal (st_AppHash state) (hd_AppHash (bm_Header lastBlockMeta)))).

Definition enterNewRound (o : Oracle) (cs : ConsensusState) (height round : Z) : outcome ConsensusState :=
  if negb (cs_Height cs =? height) || (round <? cs_Round cs)
     || ((cs_Round cs =? round) && negb (cs_Step cs =? RoundStepNewHeight)) then Ret cs
  else
    validators ← if cs_Round cs <? round
                 then IncrementProposerPriority (ValidatorSet.Copy (cs_Validators cs)) (round - cs_Round cs)
                 else Ret (cs_Validators cs);
    let cs := updateRoundStep cs round RoundStepNewRound in
    let cs := set_Validators cs validators in
    let cs := if round =? 0 then cs else set_ProposalBlock (set_Proposal cs None) None None in
    hvs ← or_panic (cs_Votes cs);
    hvs ← SetRound hvs (round + 1);
    let cs := set_Triggered (set_Votes cs (Some hvs)) false in
    waitForTxs ← if WaitForTxs (cs_config cs) && (round =? 0)
                 then negb <$> needProofBlock cs height else Ret false;
    if (waitForTxs : bool) then
      let interval := cfg_CreateEmptyBlocksInterval (cs_config cs) in
      Ret (if 0 <? interval then scheduleTimeout cs interval height round RoundStepNewRound else cs)
    else enterPropose o cs height round.

(** ** Waiting *)

Definition enterPrevoteWait (cs : ConsensusState) (height round : Z) : outcome ConsensusState :=
  if negb (cs_Height cs =? height) || (round <? cs_Round cs)
     || ((cs_Round cs =? round) && (RoundStepPrevoteWait <=? cs_Step cs)) then Ret cs
  else
    vs ← prevotes cs round;
    any ← HasTwoThirdsAny vs;
    if negb any then Panic
    else
      let cs := scheduleTimeout cs (cfg_Prevote (cs_config cs) round) height round RoundStepPrevoteWait in
      Ret (newStep (updateRoundStep cs round RoundStepPrevoteWait)).

Definition enterPrecommitWait (cs : ConsensusState) (height round : Z) : outcome ConsensusState :=
  if negb (cs_Height cs =? height) || (round <? cs_Round cs)
     || ((cs_Round cs =? round) && cs_TriggeredTimeoutPrecommit cs) then Ret cs
  else
    vs ← precommits cs round;
    any ← HasTwoThirdsAny vs;
    if negb any then Panic
    else
      let cs := scheduleTimeout cs (cfg_Precommit (cs_config cs) round) height round RoundStepPrecommitWait in
      Ret (newStep (set_Triggered cs true)).

(** ** Precommit *)

(** [ProposalBlockParts] for a block that is not there yet. *)
Definition await_block (cs : ConsensusState) (header : PartSetHeader) : outcome ConsensusState :=
  if HasHeader (cs_ProposalBlockParts cs) header then Ret cs
  else parts ← NewPartSetFromHeader header; Ret (new_parts cs None parts).

Definition decidePrecommit (o : Oracle) (cs : ConsensusState) (round : Z) : outcome ConsensusState :=
  vs ← prevotes cs round;
  let '(blockID, ok) := TwoThirdsMajority vs in
  if negb ok then signAddVote o cs PrecommitType [] nilHeader
  else
    hvs ← or_panic (cs_Votes cs);
    '(polRound, _) ← POLInfo hvs;
    if polRound <? round then Panic
    else if zlen (bid_Hash blockID) =? 0 then
      let cs := match cs_LockedBlock cs with None => cs | Some _ => set_Locked cs (-1) None None end in
      signAddVote o cs PrecommitType [] nilHeader
    else if hashes_to (cs_LockedBlock cs) (bid_Hash blockID) then
      let cs := set_Locked cs round (cs_LockedBlock cs) (cs_LockedBlockParts cs) in
      signAddVote o cs PrecommitType (bid_Hash blockID) (bid_PartsHeader blockID)
    else if hashes_to (cs_ProposalBlock cs) (bid_Hash blockID) then
      state ← the_state cs;
      b ← or_panic (cs_ProposalBlock cs);
      err ← validateBlock Sum state b;
      match err with
      | Some _ => Panic
      | None =>
          let cs := lock_proposal cs round in
          signAddVote o cs PrecommitType (bid_Hash blockID) (bid_PartsHeader blockID)
      end
    else
      let cs := set_Locked cs (-1) None None in
      cs ← await_block cs (bid_PartsHeader blockID);
      signAddVote o cs PrecommitType [] nilHeader.

Definition enterPrecommit (o : Oracle) (cs : ConsensusState) (height round : Z) : outcome ConsensusState :=
  if negb (cs_Height cs =? height) || (round <? cs_Round cs)
     || ((cs_Round cs =? round) && (RoundStepPrecommit <=? cs_Step cs)) then Ret cs
  else
    cs ← decidePrecommit o cs round;
    Ret (newStep (updateRoundStep cs round RoundStepPrecommit)).

(** ** Commit *)

Definition relaytx : bytes := list_byte_of_string "relaytx".
Definition DeliverTx : bytes := list_byte_of_string "DeliverTx".
Definition ShardConfigTx : bytes := list_byte_of_string "ShardConfigTx".
Definition CrossSendStrikeTx : bytes := list_byte_of_string "CrossSendStrikeTx".
Definition CrossReceiveStrikeTx : bytes := list_byte_of_string "CrossReceiveStrikeTx".

(** [ParseTxTime] only logs; it panics on contents with fewer than four fields. *)
Definition ParseTxTime (tx : TX) : outcome () :=
  if bytes_equal (tx_Txtype tx) DeliverTx || bytes_equal (tx_Txtype tx) ShardConfigTx then Ret tt
  else _ ← slice_get (tx_args tx) 3; Ret tt.

(** One iteration of the loop over the transactions of the committed block; a
    transaction that does not decode is a nil pointer. *)
Definition aggregate_tx (o : Oracle) (cs : ConsensusState) (data : bytes) : outcome ConsensusState :=
  tx ← or_panic (o_NewTX o data);
  cs ← if bytes_equal (tx_Txtype tx) CrossSendStrikeTx
       then rate ← slice_get (tx_args tx) 2; Ret (emit cs (SetCrossSendStrike rate)) else Ret cs;
  cs ← if bytes_equal (tx_Txtype tx) CrossReceiveStrikeTx
       then rate ← slice_get (tx_args tx) 2; Ret (emit cs (SetCrossReceiveStrike rate)) else Ret cs;
  if bytes_equal (tx_Txtype tx) relaytx && (tx_Operate tx =? 0) then Ret cs
  else
    _ ← if bytes_equal (tx_Txtype tx) relaytx && (tx_Operate tx =? 1) then ParseTxTime tx else Ret tt;
    _ ← ParseTxTime tx;
    Ret cs.

(** The recovery of the threshold signature, the Merkle tree, the classification of the
    transactions and the storing or sending of the messages are one effect, which takes
    place unless the tree or the signature could not be made. *)
Definition tryAddAggragate2Block (o : Oracle) (cs : ConsensusState) : outcome ConsensusState :=
  b ← or_panic (cs_ProposalBlock cs);
  match blk_Txs b with
  | [] => Ret (if o_packs o then emit cs (ModifyRelationTable (cs_Height cs)) else cs)
  | txs =>
      cs ← foldM (aggregate_tx o) cs txs;
      vs ← prevotes cs (cs_CommitRound cs);
      _ ← or_panic vs;
      Ret (if o_aggregated o
           then emit (emit cs (SendAggregate txs (cs_Height cs))) (ModifyRelationTable (cs_Height cs)) else cs)
  end.

Definition with_SpTxBuf (st : State) (buf : list bytes) : State :=
  mkState (st_Version st) (st_ChainID st) (st_LastBlockHeight st) (st_LastBlockTotalTx st) (st_LastBlockID st)
    (st_LastBlockTime st) (st_NextValidators st) (st_Validators st) (st_LastValidators st)
    (st_LastHeightValidatorsChanged st) (st_ConsensusParams st) (st_LastHeightConsensusParamsChanged st)
    (st_LastResultsHash st) (st_AppHash st) buf (st_HashSignature st).

Definition SetHashSignature (st : State) (sign : bytes) : State :=
  mkState (st_Version st) (st_ChainID st) (st_LastBlockHeight st) (st_LastBlockTotalTx st) (st_LastBlockID st)
    (st_LastBlockTime st) (st_NextValidators st) (st_Validators st) (st_LastValidators st)
    (st_LastHeightValidatorsChanged st) (st_ConsensusParams st) (st_LastHeightConsensusParamsChanged st)
    (st_LastResultsHash st) (st_AppHash st) (st_SpTxBuf st) sign.

(** Drops the transaction that was packed first, if it was the block's only one. *)
Definition drop_special (st : State) (b : Block) : State :=
  match st_SpTxBuf st, blk_Txs b with
  | tx :: rest, [tx'] => if bytes_equal tx' tx then with_SpTxBuf st rest else st
  | _, _ => st
  end.

Definition finalizeCommit (o : Oracle) (cs : ConsensusState) (height : Z) : outcome ConsensusState :=
  if negb (cs_Height cs =? height) || negb (cs_Step cs =? RoundStepCommit) then Ret cs
  else
    vs ← precommits cs (cs_CommitRound cs);
    let '(blockID, ok) := TwoThirdsMajority vs in
    if negb ok then Panic
    else if negb (HasHeader (cs_ProposalBlockParts cs) (bid_PartsHeader blockID)) then Panic
    else if negb (hashes_to (cs_ProposalBlock cs) (bid_Hash blockID)) then Panic
    else
      block ← or_panic (cs_ProposalBlock cs);
      cs ← if BS_Height (cs_blockStore cs) <? hd_Height (blk_Header block) then
             vs ← or_panic vs;
             seenCommit ← MakeCommit vs;
             '(store, _) ← SaveBlock Sum (cs_blockStore cs) (Some block) (cs_ProposalBlockParts cs) (Some seenCommit);
             Ret (emit (set_blockStore cs store) (SaveBlockOf height block seenCommit))
           else Ret cs;
      let cs := emit cs (WriteEndHeight height) in
      state ← the_state cs;
      let state := drop_special state block in
      let cs := set_state cs (Some state) in
      let stateCopy := State_Copy state in
      '(flag, cs) ← isLeader cs;
      cs ← tryAddAggragate2Block o cs;
      let bid := mkBlockID (block_hash (Some block)) (PartSet_Header (cs_ProposalBlockParts cs)) in
      match o_ApplyBlock o stateCopy bid block flag with
      | None => Ret (emit cs KillProcess)
      | Some stateCopy =>
          cs ← updateToState o cs stateCopy;
          Ret (scheduleRound0 o cs)
      end.

Definition tryFinalizeCommit (o : Oracle) (cs : ConsensusState) (height : Z) : outcome ConsensusState :=
  if negb (cs_Height cs =? height) then Panic
  else
    vs ← precommits cs (cs_CommitRound cs);
    let '(blockID, ok) := TwoThirdsMajority vs in
    if negb ok || (zlen (bid_Hash blockID) =? 0) then Ret cs
    else if negb (hashes_to (cs_ProposalBlock cs) (bid_Hash blockID)) then Ret cs
    else
      voteSet ← prevotes cs (cs_CommitRound cs);
      voteSet ← or_panic voteSet;
      state ← the_state cs;
      let cs := match o_SignatureRecovery o (PeerCrossSig <$> vs_PartHashSigs voteSet) (Id <$> vs_PartHashSigs voteSet) with
                | Some sig => set_state cs (Some (SetHashSignature state sig))
                | None => cs
                end in
      finalizeCommit o cs height.

Definition enterCommit (o : Oracle) (cs : ConsensusState) (height commitRound : Z) : outcome ConsensusState :=
  if negb (cs_Height cs =? height) || (RoundStepCommit <=? cs_Step cs) then Ret cs
  else
    vs ← precommits cs commitRound;
    let '(blockID, ok) := TwoThirdsMajority vs in
    if negb ok then Panic
    else
      let cs := if hashes_to (cs_LockedBlock cs) (bid_Hash blockID)
                then commit_locked cs else cs in
      cs ← if hashes_to (cs_ProposalBlock cs) (bid_Hash blockID) then Ret cs
           else await_block cs (bid_PartsHeader blockID);
      let cs := updateRoundStep cs (cs_Round cs) RoundStepCommit in
      let cs := newStep (set_Commit cs commitRound (o_now o)) in
      tryFinalizeCommit o cs height.

(** ** Messages *)

Definition defaultSetProposal (cs : ConsensusState) (proposal : Proposal) : outcome (ConsensusState * option proposal_error) :=
  match cs_Proposal cs with
  | Some _ => Ret (cs, None)
  | None =>
      if negb (prop_Height proposal =? cs_Height cs) || negb (prop_Round proposal =? cs_Round cs) then Ret (cs, None)
      else if (prop_POLRound proposal <? -1)
              || ((0 <=? prop_POLRound proposal) && (prop_Round proposal <=? prop_POLRound proposal))
      then Ret (cs, Some ErrInvalidProposalPOLRound)
      else
        '(p, vals) ← GetProposer (cs_Validators cs);
        p ← or_panic p;
        let cs := set_Validators cs vals in
        state ← the_state cs;
        if negb (VerifyBytes (pr_PubKey p) (Proposal_SignBytes (st_ChainID state) proposal) (prop_Signature proposal))
        then Ret (cs, Some ErrInvalidProposalSignature)
        else
          let cs := set_Proposal cs (Some proposal) in
          match cs_ProposalBlockParts cs with
          | Some _ => Ret (cs, None)
          | None =>
              parts ← NewPartSetFromHeader (bid_PartsHeader (prop_BlockID proposal));
              Ret (new_parts cs (cs_ProposalBlock cs) parts, None)
          end
  end.

(** What follows once the proposal block is complete. *)
Definition proposalCompleted (o : Oracle) (cs : ConsensusState) (height : Z) : outcome ConsensusState :=
  vs ← prevotes cs (cs_Round cs);
  let '(blockID, hasTwoThirds) := TwoThirdsMajority vs in
  let cs := if hasTwoThirds && negb (BlockID_IsZero blockID) && (cs_ValidRound cs <? cs_Round cs)
               && hashes_to (cs_ProposalBlock cs) (bid_Hash blockID)
            then valid_proposal cs (cs_Round cs) else cs in
  complete ← if cs_Step cs <=? RoundStepPropose then isProposalComplete cs else Ret false;
  if (complete : bool) then
    cs ← enterPrevote o cs height (cs_Round cs);
    if (hasTwoThirds : bool) then enterPrecommit o cs height (cs_Round cs) else Ret cs
  else if cs_Step cs =? RoundStepCommit then tryFinalizeCommit o cs height
  else Ret cs.

(** The block in a complete set of parts, with its hashes filled in by the calls of [Hash] that follow; whether decoding
    failed. The decoder is given the block that it overwrites. *)
Definition receivedBlock (o : Oracle) (cs : ConsensusState) (ps : PartSet) : outcome (option Block * bool) :=
  reader ← GetReader ps;
  state ← the_state cs;
  let '(b, failed) := o_unmarshalBlock o (cs_ProposalBlock cs) reader
    (bp_MaxBytes (cp_Block (st_ConsensusParams state))) in
  if (failed : bool) then Ret (b, true)
  else b ← or_panic b; Ret ((Block_Hash Sum (Some b)).2, false).

Definition addProposalBlockPart (o : Oracle) (cs : ConsensusState) (height : Z) (part : Part) :
    outcome (ConsensusState * bool * option block_part_error) :=
  if negb (cs_Height cs =? height) then Ret (cs, false, None)
  else
    match cs_ProposalBlockParts cs with
    | None => Ret (cs, false, None)
    | Some _ =>
        '(parts, added, err) ← AddPart Sum (cs_ProposalBlockParts cs) part;
        ps ← or_panic parts;
        let cs := write_parts cs ps in
        match err with
        | Some err => Ret (cs, added, Some (ErrAddPart err))
        | None =>
            if added && IsComplete ps then
              '(b, failed) ← receivedBlock o cs ps;
              let cs := decode_block cs b in
              if (failed : bool) then Ret (cs, added, Some ErrUnmarshalBlock)
              else
                cs ← proposalCompleted o cs height;
                Ret (cs, added, None)
            else Ret (cs, added, None)
        end
    end.

(** The first checkpoint among the transactions decides. *)
Fixpoint checkpoint_ok (o : Oracle) (txs : list bytes) : bool :=
  match txs with
  | [] => true
  | tx :: txs' => match o_checkpoint o tx with Some r => r | None => checkpoint_ok o txs' end
  end.

(** A prevote was added: unlock, valid block. *)
Definition onPolka (cs : ConsensusState) (voteRound : Z) (blockID : BlockID) : outcome ConsensusState :=
  let cs := match cs_LockedBlock cs with
            | Some _ =>
                if (cs_LockedRound cs <? voteRound) && (voteRound <=? cs_Round cs)
                   && negb (hashes_to (cs_LockedBlock cs) (bid_Hash blockID))
                then set_Locked cs (-1) None None else cs
            | None => cs
            end in
  if negb (zlen (bid_Hash blockID) =? 0) && (cs_ValidRound cs <? voteRound) && (voteRound =? cs_Round cs) then
    let cs := if hashes_to (cs_ProposalBlock cs) (bid_Hash blockID)
              then valid_proposal cs voteRound
              else set_ProposalBlock cs None (cs_ProposalBlockParts cs) in
    if HasHeader (cs_ProposalBlockParts cs) (bid_PartsHeader blockID) then Ret cs
    else
      parts ← NewPartSetFromHeader (bid_PartsHeader blockID);
      Ret (new_parts cs (cs_ProposalBlock cs) parts)
  else Ret cs.

Definition addedPrevote (o : Oracle) (cs : ConsensusState) (height voteRound : Z) : outcome ConsensusState :=
  vs ← prevotes cs voteRound;
  let '(blockID, ok) := TwoThirdsMajority vs in
  cs ← if (ok : bool) then onPolka cs voteRound blockID else Ret cs;
  any ← HasTwoThirdsAny vs;
  if (cs_Round cs <? voteRound) && any then enterNewRound o cs height voteRound
  else if (cs_Round cs =? voteRound) && (RoundStepPrevote <=? cs_Step cs) then
    complete ← isProposalComplete cs;
    if ok && (complete || (zlen (bid_Hash blockID) =? 0)) then enterPrecommit o cs height voteRound
    else if (any : bool) then enterPrevoteWait cs height voteRound
    else Ret cs
  else
    match cs_Proposal cs with
    | Some p =>
        if (0 <=? prop_POLRound p) && (prop_POLRound p =? voteRound) then
          complete ← isProposalComplete cs;
          if (complete : bool) then enterPrevote o cs height (cs_Round cs) else Ret cs
        else Ret cs
    | None => Ret cs
    end.

Definition addedPrecommit (o : Oracle) (cs : ConsensusState) (height voteRound : Z) : outcome ConsensusState :=
  vs ← precommits cs voteRound;
  let '(blockID, ok) := TwoThirdsMajority vs in
  if (ok : bool) then
    cs ← enterNewRound o cs height voteRound;
    cs ← enterPrecommit o cs height voteRound;
    if negb (zlen (bid_Hash blockID) =? 0) then
      cs ← enterCommit o cs height voteRound;
      if cfg_SkipTimeoutCommit (cs_config cs) then
        vs ← or_panic vs;
        all ← HasAll vs;
        if (all : bool) then enterNewRound o cs (cs_Height cs) 0 else Ret cs
      else Ret cs
    else enterPrecommitWait cs height voteRound
  else
    any ← HasTwoThirdsAny vs;
    if (cs_Round cs <=? voteRound) && any then
      cs ← enterNewRound o cs height voteRound;
      enterPrecommitWait cs height voteRound
    else Ret cs.

(** A straggler of the last commit. *)
Definition addLastCommitVote (o : Oracle) (cs : ConsensusState) (vote : Vote) :
    outcome (ConsensusState * bool * option cs_error) :=
  if negb ((cs_Step cs =? RoundStepNewHeight) && (vote_Type vote =? PrecommitType))
  then Ret (cs, false, Some ErrVoteHeightMismatch)
  else
    '(vs, added, err) ← AddVote (cs_LastCommit cs) (Some vote);
    let cs := set_LastCommit cs (Some vs) in
    let err := option_map (λ e, ErrHeightVoteSet (ErrInvalidVote e)) err in
    if negb added then Ret (cs, added, err)
    else
      all ← if cfg_SkipTimeoutCommit (cs_config cs) then HasAll vs else Ret false;
      cs ← if (all : bool) then enterNewRound o cs (cs_Height cs) 0 else Ret cs;
      Ret (cs, added, err).

Definition cs_addVote (o : Oracle) (cs : ConsensusState) (vote : Vote) (peerID : bytes) :
    outcome (ConsensusState * bool * option cs_error) :=
  if wrap64 (vote_Height vote + 1) =? cs_Height cs then addLastCommitVote o cs vote
  else if negb (vote_Height vote =? cs_Height cs) then Ret (cs, false, Some ErrVoteHeightMismatch)
  else
    let height := cs_Height cs in
    hvs ← or_panic (cs_Votes cs);
    '(hvs, added, err) ← HVS_AddVote hvs vote peerID;
    let cs := set_Votes cs (Some hvs) in
    let err := option_map ErrHeightVoteSet err in
    if negb added then Ret (cs, added, err)
    else if negb (match cs_ProposalBlock cs with Some b => checkpoint_ok o (blk_Txs b) | None => true end)
    then Ret (cs, false, err)
    else
      cs ← if vote_Type vote =? PrevoteType then addedPrevote o cs height (vote_Round vote)
           else if vote_Type vote =? PrecommitType then addedPrecommit o cs height (vote_Round vote)
           else Panic;
      Ret (cs, added, err).

Definition tryAddVote (o : Oracle) (cs : ConsensusState) (vote : Vote) (peerID : bytes) : outcome ConsensusState :=
  '(cs, added, err) ← cs_addVote o cs vote peerID;
  match err with
  | Some (ErrHeightVoteSet (ErrInvalidVote (ErrVoteConflictingVotes pk a b))) =>
      addr ← my_address cs;
      if bytes_equal (vote_ValidatorAddress vote) addr then Ret cs
      else Ret (emit cs (AddEvidence (mkDVE (Some pk) (Some a) (Some b))))
  | _ => Ret cs
  end.

Definition handleMsg (o : Oracle) (cs : ConsensusState) (msg : ConsensusMessage) (peerID : bytes) : outcome ConsensusState :=
  match msg with
  | ProposalMessage proposal => '(cs, _) ← defaultSetProposal cs proposal; Ret cs
  | BlockPartMessage height _ part => '(cs, _, _) ← addProposalBlockPart o cs height part; Ret cs
  | VoteMessage vote => tryAddVote o cs vote peerID
  end.

Definition handleTimeout (o : Oracle) (cs : ConsensusState) (ti : timeoutInfo) : outcome ConsensusState :=
  if negb (ti_Height ti =? cs_Height cs) || (ti_Round ti <? cs_Round cs)
     || ((ti_Round ti =? cs_Round cs) && (ti_Step ti <? cs_Step cs)) then Ret cs
  else if ti_Step ti =? RoundStepNewHeight then enterNewRound o cs (ti_Height ti) 0
  else if ti_Step ti =? RoundStepNewRound then enterPropose o cs (ti_Height ti) 0
  else if ti_Step ti =? RoundStepPropose then enterPrevote o cs (ti_Height ti) (ti_Round ti)
  else if ti_Step ti =? RoundStepPrevoteWait then enterPrecommit o cs (ti_Height ti) (ti_Round ti)
  else if ti_Step ti =? RoundStepPrecommitWait then
    cs ← enterPrecommit o cs (ti_Height ti) (ti_Round ti);
    enterNewRound o cs (ti_Height ti) (ti_Round ti + 1)
  else Panic.

Definition handleTxsAvailable (o : Oracle) (cs : ConsensusState) : outcome ConsensusState :=
  cs ← enterNewRound o cs (cs_Height cs) 0;
  enterPropose o cs (cs_Height cs) 0.

(** One iteration of [receiveRoutine]. *)
Inductive input :=
| MsgInput (msg : ConsensusMessage) (peerID : bytes)
| TimeoutInput (ti : timeoutInfo)
| TxsAvailable.

Definition receive (o : Oracle) (cs : ConsensusState) (i : input) : outcome ConsensusState :=
  match i with
  | MsgInput msg peerID => handleMsg o cs msg peerID
  | TimeoutInput ti => handleTimeout o cs ti
  | TxsAvailable => handleTxsAvailable o cs
  end.

End Machine.

Definition CompareHRS (h1 r1 s1 h2 r2 s2 : Z) : Z :=
  if h1 <? h2 then -1 else if h2 <? h1 then 1
  else if r1 <? r2 then -1 else if r2 <? r1 then 1
  else if s1 <? s2 then -1 else if s2 <? s1 then 1
  else 0.
