(* ===== verification/ConsensusProofs.v ===== *)
(** * consensus/state.go: the locking rules hold

    The invariant [Inv] of the round state machine: what it has sent so far obeys the rules that
    make consensus safe. It is stated on the [core] of a state: the position (height, round, step),
    the lock, the vote sets, and the votes, timeouts and saved blocks among what was sent.
    [M type height round block] says that a two-thirds majority exists; it is a parameter that
    contains the majorities of the vote sets. Every method preserves [Inv]. *)

From Stdlib Require Import ZArith Lia List Bool Strings.Byte.
From stdpp Require Import base list gmap.
From S2P Require Import Prelude Types ValidatorSet ValidatorUpdates VerifyCommit VoteSet HeightVoteSet PartSet Block StateStore BlockStore Consensus.
Local Open Scope Z_scope.
Local Open Scope list_scope.

(** ** Positions *)

Notation position := (Z * Z * Z)%type.

Definition plt (a b : position) : Prop :=
  a.1.1 < b.1.1 ∨ a.1.1 = b.1.1 ∧ (a.1.2 < b.1.2 ∨ a.1.2 = b.1.2 ∧ a.2 < b.2).

Definition ple (a b : position) : Prop := plt a b ∨ a = b.

Lemma ple_refl a : ple a a.
Proof. by right. Qed.

Lemma plt_trans a b c : plt a b → plt b c → plt a c.
Proof. unfold plt. lia. Qed.

Lemma ple_plt a b c : ple a b → plt b c → plt a c.
Proof. intros [?| ->] ?; [by eapply plt_trans|done]. Qed.

Lemma ple_trans a b c : ple a b → ple b c → ple a c.
Proof. intros ? [?| ->]; [left; by eapply ple_plt|done]. Qed.

Definition vote_stage (v : Vote) : Z := if vote_Type v =? PrevoteType then RoundStepPrevote else RoundStepPrecommit.

Definition vpos (v : Vote) : position := (vote_Height v, vote_Round v, vote_stage v).

(** A relation between the elements of a list and later ones. *)
Definition ordered {A} (R : A → A → Prop) (l : list A) : Prop :=
  ∀ i j x y, (i < j)%nat → l !! i = Some x → l !! j = Some y → R x y.

Lemma ordered_nil {A} (R : A → A → Prop) : ordered R [].
Proof. intros i j x y _ Hi. done. Qed.

Lemma ordered_snoc {A} (R : A → A → Prop) l x :
  ordered R l → (∀ y, y ∈ l → R y x) → ordered R (l ++ [x]).
Proof.
  intros Hl Hx i j a b Hij Hi Hj. apply lookup_lt_Some in Hj as Hlt. rewrite length_app in Hlt. simpl in Hlt.
  rewrite lookup_app_l in Hi by lia. destruct (decide (j < length l)%nat).
  - rewrite lookup_app_l in Hj by lia. eauto.
  - rewrite lookup_app_r in Hj by lia. replace (j - length l)%nat with 0%nat in Hj by lia.
    injection Hj as <-. apply Hx. by eapply list_elem_of_lookup_2.
Qed.

Lemma ordered_mono {A} (R R' : A → A → Prop) l : (∀ x y, R x y → R' x y) → ordered R l → ordered R' l.
Proof. intros Himp Hl i j x y Hij Hi Hj. eauto. Qed.

(** ** The core of a state *)

Definition votes_of (l : list effect) : list Vote :=
  omap (λ e, match e with SendInternal (VoteMessage v) => Some v | _ => None end) l.

Definition timeouts_of (l : list effect) : list timeoutInfo :=
  omap (λ e, match e with ScheduleTimeout ti => Some ti | _ => None end) l.

Definition saved_of (l : list effect) : list (Z * Block) :=
  omap (λ e, match e with SaveBlockOf h b _ => Some (h, b) | _ => None end) l.

Record core := mkCore {
  k_Height : Z;
  k_Round : Z;
  k_Step : Z;
  k_LockedRound : Z;
  k_LockedBlock : option Block;
  k_Votes : option HeightVoteSet;
  k_sent : list Vote;
  k_timeouts : list timeoutInfo;
  k_saved : list (Z * Block)
}.

Definition core_of {PV} (cs : @ConsensusState PV) : core :=
  mkCore (cs_Height cs) (cs_Round cs) (cs_Step cs) (cs_LockedRound cs) (cs_LockedBlock cs) (cs_Votes cs)
    (votes_of (cs_out cs)) (timeouts_of (cs_out cs)) (saved_of (cs_out cs)).

Definition pos (k : core) : position := (k_Height k, k_Round k, k_Step k).

(** Changes of the core. *)
Definition k_step (k : core) (round step : Z) : core :=
  mkCore (k_Height k) round step (k_LockedRound k) (k_LockedBlock k) (k_Votes k) (k_sent k) (k_timeouts k) (k_saved k).

Definition k_lock (k : core) (lr : Z) (lb : option Block) : core :=
  mkCore (k_Height k) (k_Round k) (k_Step k) lr lb (k_Votes k) (k_sent k) (k_timeouts k) (k_saved k).

Definition k_votes (k : core) (hvs : option HeightVoteSet) : core :=
  mkCore (k_Height k) (k_Round k) (k_Step k) (k_LockedRound k) (k_LockedBlock k) hvs (k_sent k) (k_timeouts k) (k_saved k).

Definition k_send (k : core) (vs : list Vote) : core :=
  mkCore (k_Height k) (k_Round k) (k_Step k) (k_LockedRound k) (k_LockedBlock k) (k_Votes k) (k_sent k ++ vs)
    (k_timeouts k) (k_saved k).

Definition k_time (k : core) (ti : timeoutInfo) : core :=
  mkCore (k_Height k) (k_Round k) (k_Step k) (k_LockedRound k) (k_LockedBlock k) (k_Votes k) (k_sent k)
    (k_timeouts k ++ [ti]) (k_saved k).

Definition k_save (k : core) (h : Z) (b : Block) : core :=
  mkCore (k_Height k) (k_Round k) (k_Step k) (k_LockedRound k) (k_LockedBlock k) (k_Votes k) (k_sent k)
    (k_timeouts k) (k_saved k ++ [(h, b)]).

(** ** Majorities *)

Definition hvs_maj (hvs : HeightVoteSet) (t r : Z) (b : BlockID) : Prop :=
  ∃ vs, getVoteSet hvs r t = Ret (Some vs) ∧ vs_maj23 vs = Some b.

Lemma TwoThirds_maj vs b : TwoThirdsMajority vs = (b, true) → ∃ v, vs = Some v ∧ vs_maj23 v = Some b.
Proof. unfold TwoThirdsMajority. destruct vs as [v|]; cbn; [|done]. destruct (vs_maj23 v) eqn:E; [|done]. intros [= ->]. eauto. Qed.

(** ** The invariant *)

Section Invariant.
Context (Sum : bytes → bytes) `{Codec} `{Crypto} `{BlockCodec}.

Notation hash_of b := (block_hash Sum (Some b)).

(** Whether the block a node is locked on is never overwritten through another pointer; what depends on it is
    claimed only then. *)
Context (intact : Prop).

Definition majorities := Z → Z → Z → BlockID → Prop.

(** The lock on a block of hash [h], taken in round [r] or renewed, or a reason to give it up:
    a later majority of prevotes for something else. *)
Definition kept (M : majorities) (k : core) (r : Z) (h : bytes) : Prop :=
  (∃ b, k_LockedBlock k = Some b ∧ hash_of b = h ∧ r ≤ k_LockedRound k) ∨
  (∃ r' b, r < r' ≤ k_Round k ∧ M PrevoteType (k_Height k) r' b ∧ bid_Hash b ≠ h).

(** Precommits are followed only by prevotes for the same block, or there is
    a later majority of prevotes for something else. *)
Definition vote_rule (M : majorities) (v w : Vote) : Prop :=
  plt (vpos v) (vpos w) ∧
  (vote_Type v = PrecommitType → vote_Type w = PrevoteType → vote_Height v = vote_Height w →
   bid_Hash (vote_BlockID v) ≠ [] → bid_Hash (vote_BlockID w) ≠ bid_Hash (vote_BlockID v) →
   ∃ r b, vote_Round v < r ≤ vote_Round w ∧ M PrevoteType (vote_Height v) r b ∧
     bid_Hash b ≠ bid_Hash (vote_BlockID v)).

Record Inv (M : majorities) (HP : Z → HeightVoteSet → Prop) (lo : position * list Vote) (k : core) : Prop := {
  iv_lo : ple lo.1 (pos k);
  iv_base : lo.2 `prefix_of` k_sent k;
  iv_votes hvs : k_Votes k = Some hvs → HP (k_Height k) hvs;
  iv_lock b : k_LockedBlock k = Some b →
    (intact → hash_of b ≠ []) ∧
    (k_LockedRound k < k_Round k ∨ k_LockedRound k = k_Round k ∧ RoundStepPrecommit ≤ k_Step k);
  iv_time ti : ti ∈ k_timeouts k →
    ti_Height ti < k_Height k ∨ ti_Height ti = k_Height k ∧ ti_Round ti ≤ k_Round k;
  iv_past v : v ∈ k_sent k → ple (vpos v) (pos k);
  iv_type v : v ∈ k_sent k → vote_Type v = PrevoteType ∨ vote_Type v = PrecommitType;
  iv_order : intact → ordered (vote_rule M) (k_sent k);
  iv_polka v : v ∈ k_sent k → vote_Type v = PrecommitType → bid_Hash (vote_BlockID v) ≠ [] →
    M PrevoteType (vote_Height v) (vote_Round v) (vote_BlockID v);
  iv_kept v : v ∈ k_sent k → vote_Type v = PrecommitType → bid_Hash (vote_BlockID v) ≠ [] →
    vote_Height v = k_Height k → intact → kept M k (vote_Round v) (bid_Hash (vote_BlockID v));
  iv_saved h b : (h, b) ∈ k_saved k →
    ∃ r bid, M PrecommitType h r bid ∧ bid_Hash bid = hash_of b ∧ hash_of b ≠ [];
  iv_round : 0 ≤ k_Round k
}.

Lemma hashes_to_eq blk h :
  hashes_to Sum (Some blk) h = negb (zlen h =? 0) && bytes_equal (hash_of blk) h.
Proof.
  unfold hashes_to, Block_HashesTo, block_hash. destruct (zlen h =? 0); [done|].
  by destruct (Block_Hash Sum (Some blk)) as [h' b'].
Qed.

Lemma hashes_to_Some b h : hashes_to Sum b h = true → ∃ blk, b = Some blk ∧ hash_of blk = h ∧ h ≠ [].
Proof.
  destruct b as [blk|].
  - rewrite hashes_to_eq. intros [Hz%negb_true_iff Heq%bytes_equal_true]%andb_true_iff.
    exists blk. split_and!; [done..|]. by intros ->.
  - unfold hashes_to, Block_HashesTo. by destruct (zlen h =? 0).
Qed.

Lemma hashes_to_false blk h : hashes_to Sum (Some blk) h = false → hash_of blk ≠ [] → h ≠ hash_of blk.
Proof.
  rewrite hashes_to_eq. intros Hf Hne ->. rewrite (proj2 (bytes_equal_true _ _) eq_refl), andb_true_r in Hf.
  apply negb_false_iff, Z.eqb_eq in Hf. destruct (hash_of blk); [done|]. unfold zlen in Hf. simpl in Hf. lia.
Qed.

Lemma kept_step M k r h round step : kept M k r h → k_Round k ≤ round → kept M (k_step k round step) r h.
Proof.
  intros [(b & ? & ? & ?)|(r' & b & ? & ? & ?)] Hle; [left; by exists b|right; exists r', b].
  cbn. split_and!; try done; lia.
Qed.

(** Moving forward. *)
Lemma Inv_step M HP lo k round step :
  Inv M HP lo k → plt (pos k) (k_Height k, round, step) →
  (round = k_Round k → k_Step k ≤ step) →
  Inv M HP lo (k_step k round step).
Proof.
  intros [J1 J0 J2 J3 J4 J5 J6 J7 J8 J9 J10 J11] Hlt Hst.
  assert (k_Round k ≤ round) as Hr by (unfold plt in Hlt; cbn in Hlt; lia).
  split; cbn; try done.
  - left. by eapply ple_plt.
  - intros b Eb. destruct (J3 b Eb) as [Hne Hor]. split; [done|].
    destruct (decide (round = k_Round k)) as [->|]; [specialize (Hst eq_refl); lia|lia].
  - intros ti Hti. destruct (J4 ti Hti); lia.
  - intros v Hv. left. eapply ple_plt; [by apply J5|done].
  - intros v Hv Ht Hne Hh Hintact. apply kept_step; [by apply J9|done].
  - lia.
Qed.

Lemma Inv_votes M HP lo k hvs :
  Inv M HP lo k → HP (k_Height k) hvs → Inv M HP lo (k_votes k (Some hvs)).
Proof. intros [J1 J0 J2 J3 J4 J5 J6 J7 J8 J9 J10 J11] Hm. split; cbn; try done. by intros h [= <-]. Qed.

Lemma Inv_time M HP lo k ti :
  Inv M HP lo k → ti_Height ti = k_Height k → ti_Round ti ≤ k_Round k → Inv M HP lo (k_time k ti).
Proof.
  intros [J1 J0 J2 J3 J4 J5 J6 J7 J8 J9 J10 J11] Hh Hr. split; cbn; try done.
  intros ti' [Hti|Hti]%elem_of_app; [by apply J4|]. apply list_elem_of_singleton in Hti as ->. right. lia.
Qed.

Lemma Inv_save M HP lo k h b r bid :
  Inv M HP lo k → M PrecommitType h r bid → bid_Hash bid = hash_of b → hash_of b ≠ [] → Inv M HP lo (k_save k h b).
Proof.
  intros [J1 J0 J2 J3 J4 J5 J6 J7 J8 J9 J10 J11] Hm He Hne. split; cbn; try done.
  intros h' b' [Hin|Hin]%elem_of_app; [by apply J10|]. apply list_elem_of_singleton in Hin as [= -> ->]. eauto.
Qed.

(** Giving up the lock because of a majority of prevotes. *)
Lemma Inv_unlock M HP lo k b r bid :
  Inv M HP lo k → k_LockedBlock k = Some b → k_LockedRound k < r ≤ k_Round k →
  M PrevoteType (k_Height k) r bid → (intact → bid_Hash bid ≠ hash_of b) → Inv M HP lo (k_lock k (-1) None).
Proof.
  intros [J1 J0 J2 J3 J4 J5 J6 J7 J8 J9 J10 J11] Eb Hr Hm Hne. split; cbn; try done.
  intros v Hv Ht Hh Hhe Hintact. specialize (Hne Hintact). destruct (J9 v Hv Ht Hh Hhe Hintact) as [(b' & Eb' & Eh & Hle)|Hright]; [|by right].
  right. exists r, bid. rewrite Eb in Eb'. injection Eb' as <-. cbn. rewrite <-Eh. split_and!; try done; lia.
Qed.

(** A vote of the current round, then the step it belongs to. *)
Lemma Inv_send M HP lo k v step :
  Inv M HP lo k → plt (pos k) (k_Height k, k_Round k, step) → vpos v = (k_Height k, k_Round k, step) →
  (vote_Type v = PrevoteType ∨ vote_Type v = PrecommitType) →
  (vote_Type v = PrevoteType → ∀ b, k_LockedBlock k = Some b → bid_Hash (vote_BlockID v) = hash_of b) →
  (vote_Type v = PrecommitType → bid_Hash (vote_BlockID v) ≠ [] →
     M PrevoteType (vote_Height v) (vote_Round v) (vote_BlockID v) ∧
     kept M (k_step k (k_Round k) step) (vote_Round v) (bid_Hash (vote_BlockID v))) →
  Inv M HP lo (k_step (k_send k [v]) (k_Round k) step).
Proof.
  intros Hinv Hlt Hpos Hty Hpre Hcom.
  assert (Inv M HP lo (k_step k (k_Round k) step)) as [J1 J0 J2 J3 J4 J5 J6 J7 J8 J9 J10 J11].
  { apply Inv_step; [done|done|]. intros _. unfold plt in Hlt. cbn in Hlt. lia. }
  pose proof (iv_past _ _ _ _ Hinv) as P5. pose proof (iv_kept _ _ _ _ Hinv) as P9.
  injection Hpos as Hvh Hvr Hvs.
  split; cbn in *; try done.
  - by apply prefix_app_r.
  - intros w [Hw|Hw]%elem_of_app; [by apply J5|]. apply list_elem_of_singleton in Hw as ->.
    right. unfold vpos, pos. cbn. by rewrite Hvh, Hvr, Hvs.
  - intros w [Hw|Hw]%elem_of_app; [by apply J6|]. by apply list_elem_of_singleton in Hw as ->.
  - intros Hintact. apply ordered_snoc; [by apply J7|]. intros w Hw. split.
    { eapply ple_plt; [by apply P5|]. unfold vpos. rewrite Hvh, Hvr, Hvs. exact Hlt. }
    intros Htw Htv Hh Hne Hdiff.
    destruct (P9 w Hw Htw Hne ltac:(congruence) Hintact) as [(b & Eb & Eh & _)|(r & b & Hr & Hm & Hb)].
    + exfalso. apply Hdiff. rewrite (Hpre Htv b Eb). done.
    + exists r, b. rewrite Hvr, Hh, Hvh. done.
  - intros w [Hw|Hw]%elem_of_app; [by apply J8|]. apply list_elem_of_singleton in Hw as ->.
    intros Ht Hne. by apply Hcom.
  - intros w [Hw|Hw]%elem_of_app; [intros; by apply J9|]. apply list_elem_of_singleton in Hw as ->.
    intros Ht Hne _ _. by apply Hcom.
Qed.

(** Locking, or locking again, on a block with a majority of prevotes in the current round. *)
Lemma Inv_lock M HP lo k b bid :
  Inv M HP lo k → k_Step k < RoundStepPrecommit → M PrevoteType (k_Height k) (k_Round k) bid →
  hash_of b = bid_Hash bid → bid_Hash bid ≠ [] →
  Inv M HP lo (k_step (k_lock k (k_Round k) (Some b)) (k_Round k) RoundStepPrecommit).
Proof.
  intros Hinv Hst Hm Eb Hne.
  assert (Inv M HP lo (k_step k (k_Round k) RoundStepPrecommit)) as [J1 J0 J2 J3 J4 J5 J6 J7 J8 J9 J10 J11].
  { apply Inv_step; [done| |lia]. unfold plt. cbn. lia. }
  pose proof (iv_lock _ _ _ _ Hinv) as P3. split; cbn in *; try done.
  - intros b' [= <-]. split; [intros _; congruence|]. right. lia.
  - intros v Hv Ht Hv0 Hh Hintact.
    destruct (J9 v Hv Ht Hv0 Hh Hintact) as [(b' & Eb' & Eh & Hle)|Hright]; [|by right]. cbn in Eb', Hle.
    destruct (P3 b' Eb') as [_ Hlr].
    destruct (decide (hash_of b' = hash_of b)) as [E|E].
    + left. exists b. cbn. split_and!; [done|congruence|lia].
    + right. exists (k_Round k), bid. cbn. split_and!; [lia|lia|done|congruence].
Qed.

(** A precommit of the current step: for nothing, or for the block of the lock. *)
Lemma Inv_precommit M HP lo k v :
  Inv M HP lo k → vpos v = pos k → vote_Type v = PrecommitType → (∀ w, w ∈ k_sent k → plt (vpos w) (pos k)) →
  (bid_Hash (vote_BlockID v) ≠ [] → M PrevoteType (k_Height k) (k_Round k) (vote_BlockID v) ∧
     ∃ b, k_LockedBlock k = Some b ∧ hash_of b = bid_Hash (vote_BlockID v) ∧ k_LockedRound k = k_Round k) →
  Inv M HP lo (k_send k [v]).
Proof.
  intros [J1 J0 J2 J3 J4 J5 J6 J7 J8 J9 J10 J11] Hpos Hty Hlt Hlock.
  pose proof Hpos as Hpos'. injection Hpos' as Hvh Hvr Hvs.
  split; cbn; try done.
  - by apply prefix_app_r.
  - intros w [Hw|Hw]%elem_of_app; [by apply J5|]. apply list_elem_of_singleton in Hw as ->. by right.
  - intros w [Hw|Hw]%elem_of_app; [by apply J6|]. apply list_elem_of_singleton in Hw as ->. by right.
  - intros Hintact. apply ordered_snoc; [by apply J7|]. intros w Hw. split; [rewrite Hpos; by apply Hlt|]. rewrite Hty. done.
  - intros w [Hw|Hw]%elem_of_app; [by apply J8|]. apply list_elem_of_singleton in Hw as ->.
    intros _ Hne. rewrite Hvh, Hvr. by apply Hlock.
  - intros w [Hw|Hw]%elem_of_app; [intros; by apply J9|]. apply list_elem_of_singleton in Hw as ->.
    intros _ Hne _ _. left. destruct (Hlock Hne) as (_ & b & Eb & Eh & Er). exists b. cbn. split_and!; [done..|lia].
Qed.

(** A new height. *)
Lemma Inv_height M HP lo k height hvs :
  Inv M HP lo k → k_Height k < height → HP height hvs →
  Inv M HP lo (mkCore height 0 RoundStepNewHeight (-1) None (Some hvs) (k_sent k) (k_timeouts k) (k_saved k)).
Proof.
  intros [J1 J0 J2 J3 J4 J5 J6 J7 J8 J9 J10 J11] Hlt Hno.
  assert (plt (pos k) (height, 0, RoundStepNewHeight)) as Hp by (left; done).
  split; cbn; try done.
  - left. by eapply ple_plt.
  - by intros h [= <-].
  - intros ti Hti. destruct (J4 ti Hti); lia.
  - intros v Hv. left. apply (ple_plt _ (pos k)); [by apply J5|done].
  - intros v Hv Ht Hne Hh _. exfalso. pose proof (J5 v Hv) as Hpv. unfold ple, plt, vpos, pos in Hpv. cbn in Hpv.
    destruct Hpv as [Hpv|Hpv]; [lia|]. injection Hpv as ? ? ?. lia.
Qed.

Lemma Inv_mono (M M' : majorities) (HP HP' : Z → HeightVoteSet → Prop) lo k :
  (∀ t h r b, M t h r b → M' t h r b) → (∀ hvs, HP (k_Height k) hvs → HP' (k_Height k) hvs) → Inv M HP lo k → Inv M' HP' lo k.
Proof.
  intros Himp HHP [J1 J0 J2 J3 J4 J5 J6 J7 J8 J9 J10 J11]. split; try done.
  - intros hvs E. eauto.
  - intros Hintact. eapply ordered_mono; [|exact (J7 Hintact)]. intros v w [Hp Hr]. split; [done|]. intros A B C D E.
    destruct (Hr A B C D E) as (r & b & ? & ? & ?). exists r, b. auto.
  - intros v Hv Ht Hne. eauto.
  - intros v Hv Ht Hne Hh Hintact. destruct (J9 v Hv Ht Hne Hh Hintact) as [?|(r & b & ? & ? & ?)]; [by left|]. right. exists r, b. auto.
  - intros h b Hb. destruct (J10 h b Hb) as (r & bid & ? & ?). exists r, bid. auto.
Qed.

(** From here on. *)
Lemma Inv_from M HP lo k : Inv M HP lo k → Inv M HP (pos k, k_sent k) k.
Proof. intros [J1 J0 J2 J3 J4 J5 J6 J7 J8 J9 J10 J11]. split; try done. apply ple_refl. Qed.

(** Writing a block of the same hash over the locked one; any block where nothing is claimed of it. *)
Lemma Inv_rewrite M HP lo k b b' :
  Inv M HP lo k → k_LockedBlock k = Some b → (intact → hash_of b' = hash_of b) →
  Inv M HP lo (k_lock k (k_LockedRound k) (Some b')).
Proof.
  intros [J1 J0 J2 J3 J4 J5 J6 J7 J8 J9 J10 J11] Eb Hh. destruct (J3 b Eb) as [Hne Hr]. split; cbn; try done.
  - intros ? [= <-]. split; [|done]. intros Hintact. rewrite Hh by done. by apply Hne.
  - intros v Hv Ht Hv0 Hhe Hintact. destruct (J9 v Hv Ht Hv0 Hhe Hintact) as [(b0 & Eb0 & Eh & Hle)|Hright]; [|by right].
    left. exists b'. rewrite Eb in Eb0. injection Eb0 as <-. cbn. split_and!; [done| |done]. rewrite <-Eh. by apply Hh.
Qed.

End Invariant.

(** ** The interface of the signer *)

(** What a vote says. *)
Definition same_message (v w : Vote) : Prop :=
  vote_Type w = vote_Type v ∧ vote_Height w = vote_Height v ∧ vote_Round w = vote_Round v ∧
  vote_BlockID w = vote_BlockID v.

(** Signing keeps what a vote says, and the shares of the threshold
    signature are made without an error. *)
Class PrivValidatorLaws `{PrivValidator PV} : Prop := {
  pv_SignVote_same pv c v pv' v' : pv_SignVote pv c v = Ret (pv', Some v') → same_message v v';
  pv_SigCross_same pv m h v v' err : pv_SigCrossMerkleRoot pv m h v = Ret (v', err) → err = false ∧ same_message v v'
}.

Section Methods.
Context (Sum : bytes → bytes) `{Codec} `{Crypto} `{BlockCodec} {PV : Type} `{PrivValidatorLaws PV}.
Context (intact : Prop) (M : majorities) (HP : Z → HeightVoteSet → Prop) (lo : position * list Vote).
Context (HP_maj : ∀ h hvs t r b, HP h hvs → hvs_maj hvs t r b → M t h r b).
Context (HP_round : ∀ h hvs round hvs', HP h hvs → 0 ≤ round → SetRound hvs (round + 1) = Ret hvs' → HP h hvs').

Notation CS := (@ConsensusState PV).
Notation hash_of b := (block_hash Sum (Some b)).
Notation ok cs := (Inv Sum intact M HP lo (core_of cs)).

Implicit Types cs : CS.

Definition frame cs := (core_of cs, cs_state cs).

Lemma core_emit cs e :
  core_of (emit cs e) =
  match e with
  | SendInternal (VoteMessage v) => k_send (core_of cs) [v]
  | ScheduleTimeout ti => k_time (core_of cs) ti
  | SaveBlockOf h b _ => k_save (core_of cs) h b
  | _ => core_of cs
  end.
Proof.
  unfold core_of, emit, k_send, k_time, k_save, votes_of, timeouts_of, saved_of. cbn. rewrite !omap_app.
  destruct e as [[]| | | | | | | | | | |]; cbn; by rewrite ?app_nil_r.
Qed.

Lemma isProposer_frame cs a b cs' : isProposer cs a = Ret (b, cs') → frame cs' = frame cs.
Proof. intros ([p vals] & _ & (q & _ & E)%bind_Ret)%bind_Ret. by injection E as _ <-. Qed.

Lemma isLeader_frame cs b cs' : isLeader cs = Ret (b, cs') → frame cs' = frame cs.
Proof. intros (a & _ & E)%bind_Ret. by eapply isProposer_frame. Qed.

Lemma emit_packs_frame packs h cs :
  frame (foldl (λ cs pack, emit cs (SyncRelationTable pack h)) cs packs) = frame cs.
Proof.
  revert cs. induction packs as [|p packs IH]; intros cs; cbn [foldl]; [done|]. rewrite IH.
  unfold frame. by rewrite core_emit.
Qed.

Lemma Judge_frame o cs b cs' : JudgeBlockPakcages o cs = Ret (b, cs') → b = true ∧ frame cs' = frame cs.
Proof.
  intros (blk & _ & E)%bind_Ret. destruct (o_ParsePackages o _) as [|p ps] eqn:Ep; [by injection E as <- <-|].
  apply bind_Ret in E as ([leader cs1] & El & E). injection E as <- <-. split; [done|].
  rewrite <-(isLeader_frame _ _ _ El). destruct leader; [done|]. exact (emit_packs_frame (p :: ps) _ cs1).
Qed.

(** What is signed is what was asked for. *)
Lemma signVote_ok o cs t hash header cs' v :
  cs_signVote Sum o cs t hash header = Ret (cs', v) →
  frame cs' = frame cs ∧
  ∀ w, v = Some w → vote_Type w = t ∧ vote_Height w = cs_Height cs ∧ vote_Round w = cs_Round cs ∧
    vote_BlockID w = mkBlockID hash header.
Proof.
  intros (addr & _ & (time & _ & E)%bind_Ret)%bind_Ret. cbn zeta in E.
  set (v0 := mkVote _ _ _ _ _ _ _ _ _ _) in E.
  apply bind_Ret in E as ([cs1 v1] & E1 & E).
  assert (frame cs1 = frame cs ∧ same_message v0 v1) as [Hf Hv1].
  { destruct (_ && _) in E1; [|by injection E1 as <- <-].
    apply bind_Ret in E1 as ([b cs2] & Ej & E1). destruct (Judge_frame _ _ _ _ Ej) as [-> Hf]. cbn [negb] in E1.
    apply bind_Ret in E1 as (blk & _ & E1). apply bind_Ret in E1 as (pv & _ & E1).
    apply bind_Ret in E1 as ([v2 err] & Es & E1). destruct (pv_SigCross_same _ _ _ _ _ _ Es) as [-> Hs].
    injection E1 as <- <-. done. }
  apply bind_Ret in E as (st & _ & E). apply bind_Ret in E as (pv & _ & E).
  apply bind_Ret in E as ([pv' signed] & Es & E). injection E as <- <-. split.
  - rewrite <-Hf. done.
  - intros w ->. destruct (pv_SignVote_same _ _ _ _ _ Es) as (-> & -> & -> & ->).
    destruct Hv1 as (-> & -> & -> & ->). done.
Qed.

Lemma signAddVote_ok o cs t hash header cs' :
  signAddVote Sum o cs t hash header = Ret cs' →
  cs_state cs' = cs_state cs ∧
  (core_of cs' = core_of cs ∨
   ∃ v, core_of cs' = k_send (core_of cs) [v] ∧ vote_Type v = t ∧ vote_Height v = cs_Height cs ∧
     vote_Round v = cs_Round cs ∧ vote_BlockID v = mkBlockID hash header).
Proof.
  unfold signAddVote. destruct (cs_privValidator cs) as [pv|]; [|by intros [= <-]; auto].
  destruct (negb _); [by intros [= <-]; auto|].
  intros ([cs1 v] & E & E')%bind_Ret. destruct (signVote_ok _ _ _ _ _ _ _ E) as [Hf Hv].
  pose proof (f_equal fst Hf) as Hc. pose proof (f_equal snd Hf) as Hs. cbn [fst snd frame] in Hc, Hs.
  destruct v as [v|]; injection E' as <-.
  - split; [done|]. right. exists v. rewrite core_emit, Hc. split; [done|]. by apply Hv.
  - split; [done|]. by left.
Qed.

(** ** Prevote *)

Lemma doPrevote_ok o cs cs' :
  defaultDoPrevote Sum o cs = Ret cs' →
  cs_state cs' = cs_state cs ∧
  (core_of cs' = core_of cs ∨
   ∃ v, core_of cs' = k_send (core_of cs) [v] ∧ vote_Type v = PrevoteType ∧ vote_Height v = cs_Height cs ∧
     vote_Round v = cs_Round cs ∧
     ∀ b, cs_LockedBlock cs = Some b → bid_Hash (vote_BlockID v) = hash_of b).
Proof.
  intros E.
  assert (∃ hash header, signAddVote Sum o cs PrevoteType hash header = Ret cs' ∧
    ∀ b, cs_LockedBlock cs = Some b → hash = hash_of b) as (hash & header & Es & Hb).
  { unfold defaultDoPrevote in E. destruct (cs_LockedBlock cs) as [b|]; [by eexists _, _; split; [exact E|intros ? [= ->]]|].
    destruct (cs_ProposalBlock cs) as [b|]; [|by eexists _, _].
    apply bind_Ret in E as (st & _ & E). apply bind_Ret in E as ([err|] & _ & E); [by eexists _, _|].
    destruct (txs_signed o (blk_Txs b)); by eexists _, _. }
  destruct (signAddVote_ok _ _ _ _ _ _ Es) as [Hs [Hc|(v & Hc & Ht & Hh & Hr & Hbid)]]; [by auto|].
  split; [done|]. right. exists v. split_and!; try done. intros b Eb. rewrite Hbid. by apply Hb.
Qed.

Lemma enterPrevote_ok o cs height round cs' :
  ok cs → round ≤ cs_Round cs → enterPrevote Sum o cs height round = Ret cs' →
  ok cs' ∧ cs_Height cs' = cs_Height cs ∧ cs_Round cs' = cs_Round cs ∧ cs_state cs' = cs_state cs.
Proof.
  intros Hinv Hr. unfold enterPrevote.
  destruct (Z.eqb_spec (cs_Height cs) height) as [Eh|]; [|by intros [= <-]].
  destruct (Z.ltb_spec round (cs_Round cs)) as [|Hge]; [by intros [= <-]|].
  assert (round = cs_Round cs) as -> by lia. rewrite Z.eqb_refl. cbn [negb orb andb].
  destruct (Z.leb_spec RoundStepPrevote (cs_Step cs)) as [|Hst]; [by intros [= <-]|].
  intros (cs1 & E & E')%bind_Ret. injection E' as <-.
  assert (plt (pos (core_of cs)) (cs_Height cs, cs_Round cs, RoundStepPrevote)) as Hlt by (unfold plt; cbn; lia).
  destruct (doPrevote_ok _ _ _ E) as [Hs Hor].
  assert (core_of (newStep (updateRoundStep cs1 (cs_Round cs) RoundStepPrevote)) =
          k_step (core_of cs1) (cs_Round cs) RoundStepPrevote) as Ec by (unfold newStep; by rewrite core_emit).
  rewrite Ec. destruct Hor as [Hc|(v & Hc & Ht & Hvh & Hvr & Hb)].
  - pose proof (f_equal k_Height Hc) as Hch. cbn in Hch.
    rewrite Hc. split_and!; try done. apply Inv_step; [done|done|]. cbn. lia.
  - pose proof (f_equal k_Height Hc) as Hch. cbn in Hch.
    rewrite Hc. split_and!; try done. apply (Inv_send Sum intact M HP lo (core_of cs) v RoundStepPrevote); try done.
    + unfold vpos, vote_stage. rewrite Ht, Hvh, Hvr. done.
    + by left.
    + rewrite Ht. done.
Qed.

(** ** Propose and new rounds *)

Lemma for_range_frame {n start} {f : nat → CS → outcome CS} cs cs' :
  (∀ i c c', f i c = Ret c' → frame c' = frame c) → for_range n start f cs = Ret cs' → frame cs' = frame cs.
Proof.
  intros Hf. revert start cs. induction n as [|n IH]; intros start cs; cbn [for_range]; [by intros [= <-]|].
  intros (c & E & E')%bind_Ret. rewrite (IH _ _ E'). by eapply Hf.
Qed.

Lemma send_parts_frame cs ps cs' : send_parts cs ps = Ret cs' → frame cs' = frame cs.
Proof.
  apply for_range_frame. intros i c c' (p & _ & (q & _ & E)%bind_Ret)%bind_Ret. injection E as <-.
  unfold frame. by rewrite core_emit.
Qed.

Lemma decideProposal_frame o cs h r cs' : defaultDecideProposal Sum o cs h r = Ret cs' → frame cs' = frame cs.
Proof.
  intros (chosen & _ & E)%bind_Ret. destruct chosen as [[blk parts]|]; [|by injection E as <-].
  apply bind_Ret in E as (st & _ & E). apply bind_Ret in E as (pv & _ & E).
  apply bind_Ret in E as ([pv' signed] & _ & E). destruct signed as [p|]; [|by injection E as <-].
  apply bind_Ret in E as (ps & _ & E). apply bind_Ret in E as (rd & _ & E).
  rewrite (send_parts_frame _ _ _ E). unfold frame. by rewrite core_emit.
Qed.

(** The fields of a core or frame that is not changed. *)
Lemma frame_fields cs cs' :
  frame cs' = frame cs →
  core_of cs' = core_of cs ∧ cs_state cs' = cs_state cs ∧ cs_Height cs' = cs_Height cs ∧
  cs_Round cs' = cs_Round cs ∧ cs_Step cs' = cs_Step cs.
Proof.
  intros Hf. pose proof (f_equal fst Hf) as Hc. pose proof (f_equal snd Hf) as Hs.
  split_and!; [exact Hc|exact Hs|exact (f_equal k_Height Hc)|exact (f_equal k_Round Hc)|exact (f_equal k_Step Hc)].
Qed.

Lemma donePropose_ok o cs height round cs' :
  ok cs → plt (pos (core_of cs)) (cs_Height cs, round, RoundStepPropose) →
  (round = cs_Round cs → cs_Step cs ≤ RoundStepPropose) →
  donePropose Sum o cs height round = Ret cs' →
  ok cs' ∧ cs_Height cs' = cs_Height cs ∧ cs_Round cs' = round ∧ cs_state cs' = cs_state cs.
Proof.
  intros Hinv Hlt Hst. unfold donePropose. cbn zeta.
  set (cs1 := newStep (updateRoundStep cs round RoundStepPropose)).
  assert (ok cs1) as H1'.
  { unfold cs1, newStep. rewrite core_emit. change (core_of (updateRoundStep cs round RoundStepPropose)) with
      (k_step (core_of cs) round RoundStepPropose). by apply Inv_step. }
  intros (b & _ & E)%bind_Ret. destruct b; [|by injection E as <-].
  destruct (enterPrevote_ok _ _ _ _ _ H1' ltac:(reflexivity) E) as (A & B & C & D). split_and!; done.
Qed.

Lemma enterPropose_ok o cs height round cs' :
  ok cs → enterPropose Sum o cs height round = Ret cs' →
  ok cs' ∧ cs_Height cs' = cs_Height cs ∧ cs_Round cs ≤ cs_Round cs' ∧ cs_state cs' = cs_state cs.
Proof.
  intros Hinv. unfold enterPropose.
  destruct (Z.eqb_spec (cs_Height cs) height) as [Eh|]; [|by intros [= <-]].
  destruct (Z.ltb_spec round (cs_Round cs)) as [|Hge]; [by intros [= <-]|]. cbn [negb orb].
  destruct ((cs_Round cs =? round) && (RoundStepPropose <=? cs_Step cs)) eqn:Eg; [by intros [= <-]|].
  assert (round = cs_Round cs → cs_Step cs < RoundStepPropose) as Hst.
  { intros ->. rewrite Z.eqb_refl in Eg. cbn in Eg. by apply Z.leb_gt in Eg. }
  cbn zeta. set (cs1 := scheduleTimeout cs _ _ _ _).
  (* the timeout is for the round that is entered *)
  assert (∀ cs2, frame cs2 = frame cs1 → donePropose Sum o cs2 height round = Ret cs' →
    ok cs' ∧ cs_Height cs' = cs_Height cs ∧ cs_Round cs ≤ cs_Round cs' ∧ cs_state cs' = cs_state cs) as Hdone.
  { intros cs2 Hf E. destruct (frame_fields _ _ Hf) as (Hc & Hs & Hh & Hr & Hsp). cbn in Hh, Hr, Hsp.
    unfold donePropose in E. cbn zeta in E. set (cs3 := newStep (updateRoundStep cs2 round RoundStepPropose)) in *.
    assert (core_of cs3 = k_time (k_step (core_of cs) round RoundStepPropose)
      (mkTimeoutInfo (cfg_Propose (cs_config cs) round) height round RoundStepPropose)) as Ec.
    { unfold cs3, newStep. rewrite core_emit.
      change (core_of (updateRoundStep cs2 round RoundStepPropose)) with (k_step (core_of cs2) round RoundStepPropose).
      rewrite Hc. unfold cs1, scheduleTimeout. by rewrite core_emit. }
    assert (ok cs3) as H3'.
    { rewrite Ec. apply Inv_time; [|cbn; lia|cbn; lia]. apply Inv_step; [done| |cbn; lia]. unfold plt. cbn. lia. }
    apply bind_Ret in E as (b & _ & E). destruct b.
    - destruct (enterPrevote_ok _ _ _ _ _ H3' ltac:(reflexivity) E) as (A & B & C & D).
      split_and!; [done|rewrite B; exact Hh|rewrite C; cbn; lia|rewrite D; exact Hs].
    - injection E as <-. split_and!; [done|exact Hh|cbn; lia|exact Hs]. }
  destruct (cs_privValidator cs1) as [pv|]; [|by apply Hdone].
  destruct (negb _); [by apply Hdone|].
  intros ([mine cs2] & Ep & (cs3 & Ed & E)%bind_Ret)%bind_Ret. apply (Hdone cs3); [|done].
  rewrite <-(isProposer_frame _ _ _ _ Ep). destruct mine; [by eapply decideProposal_frame|by injection Ed as <-].
Qed.

Lemma enterNewRound_ok o cs height round cs' :
  ok cs → enterNewRound Sum o cs height round = Ret cs' →
  ok cs' ∧ cs_Height cs' = cs_Height cs ∧ cs_Round cs ≤ cs_Round cs' ∧ cs_state cs' = cs_state cs ∧
  (cs_Height cs = height → round ≤ cs_Round cs').
Proof.
  intros Hinv. unfold enterNewRound.
  destruct (Z.eqb_spec (cs_Height cs) height) as [Eh|]; [|by intros [= <-]].
  destruct (Z.ltb_spec round (cs_Round cs)) as [|Hge]; [intros [= <-]; split_and!; (done || lia)|]. cbn [negb orb].
  destruct ((cs_Round cs =? round) && negb (cs_Step cs =? RoundStepNewHeight)) eqn:Eg.
  { apply andb_true_iff in Eg as [Er%Z.eqb_eq _]. intros [= <-]. split_and!; (done || lia). }
  assert (round = cs_Round cs → cs_Step cs = RoundStepNewHeight) as Hst.
  { intros ->. rewrite Z.eqb_refl in Eg. cbn in Eg. apply negb_false_iff in Eg. by apply Z.eqb_eq. }
  intros (vals & _ & E)%bind_Ret. cbn zeta in E. apply bind_Ret in E as (hvs & Ev%or_panic_Ret & E).
  apply bind_Ret in E as (hvs' & Es & E).
  assert (cs_Votes cs = Some hvs) as Ev' by (destruct (round =? 0); exact Ev). clear Ev.
  set (cs1 := set_Triggered _ _) in E.
  assert (frame cs1 = (k_votes (k_step (core_of cs) round RoundStepNewRound) (Some hvs'), cs_state cs)) as Hf1.
  { unfold cs1. destruct (round =? 0); reflexivity. }
  pose proof (f_equal fst Hf1) as Hc1. cbn [fst frame] in Hc1. pose proof (f_equal snd Hf1) as Hs1. cbn [snd frame] in Hs1.
  assert (ok cs1) as Hok1.
  { rewrite Hc1. apply Inv_votes; [apply Inv_step; [done| |]|].
    - unfold plt. cbn. destruct (decide (round = cs_Round cs)) as [->|]; [rewrite Hst by done; unfold RoundStepNewHeight, RoundStepNewRound|]; lia.
    - cbn. intros ->. rewrite Hst by done. done.
    - apply (HP_round _ hvs round); [by apply (iv_votes _ _ _ _ _ _ Hinv)| |done]. pose proof (iv_round _ _ _ _ _ _ Hinv) as Hr0.
      cbn in Hr0. lia. }
  clearbody cs1.
  pose proof (f_equal k_Height Hc1) as Hh1. pose proof (f_equal k_Round Hc1) as Hr1. cbn in Hh1, Hr1.
  apply bind_Ret in E as (wait & _ & E). destruct wait.
  - injection E as <-. destruct (0 <? _).
    + split_and!; [|exact Hh1|cbn; lia|exact Hs1|cbn; lia].
      unfold scheduleTimeout. rewrite core_emit. apply Inv_time; [done|cbn; lia|cbn; lia].
    + split_and!; [done|exact Hh1|lia|exact Hs1|lia].
  - destruct (enterPropose_ok _ _ _ _ _ Hok1 E) as (A & B & C & D).
    split_and!; [done|congruence|lia|congruence|lia].
Qed.

(** ** Waiting *)

Lemma enterPrevoteWait_ok cs height round cs' :
  ok cs → round ≤ cs_Round cs → enterPrevoteWait cs height round = Ret cs' →
  ok cs' ∧ cs_Height cs' = cs_Height cs ∧ cs_Round cs' = cs_Round cs ∧ cs_state cs' = cs_state cs.
Proof.
  intros Hinv Hr. unfold enterPrevoteWait.
  destruct (Z.eqb_spec (cs_Height cs) height) as [Eh|]; [|by intros [= <-]].
  destruct (Z.ltb_spec round (cs_Round cs)) as [|Hge]; [by intros [= <-]|].
  assert (round = cs_Round cs) as -> by lia. rewrite Z.eqb_refl. cbn [negb orb andb].
  destruct (Z.leb_spec RoundStepPrevoteWait (cs_Step cs)) as [|Hst]; [by intros [= <-]|].
  intros (vs & _ & (any & _ & E)%bind_Ret)%bind_Ret. destruct any; [|done]. injection E as <-.
  split_and!; [|done..]. unfold newStep. rewrite core_emit.
  unfold scheduleTimeout. set (ti := mkTimeoutInfo _ _ _ _).
  assert (core_of (updateRoundStep (emit cs (ScheduleTimeout ti)) (cs_Round cs) RoundStepPrevoteWait) =
    k_time (k_step (core_of cs) (cs_Round cs) RoundStepPrevoteWait) ti) as Ec.
  { transitivity (k_step (core_of (emit cs (ScheduleTimeout ti))) (cs_Round cs) RoundStepPrevoteWait); [done|].
    by rewrite core_emit. }
  rewrite Ec. apply Inv_time; [|done|cbn; lia].
  apply Inv_step; [done|unfold plt; cbn; lia|cbn; lia].
Qed.

Lemma enterPrecommitWait_ok cs height round cs' :
  ok cs → round ≤ cs_Round cs → enterPrecommitWait cs height round = Ret cs' →
  ok cs' ∧ cs_Height cs' = cs_Height cs ∧ cs_Round cs' = cs_Round cs ∧ cs_state cs' = cs_state cs.
Proof.
  intros Hinv Hr. unfold enterPrecommitWait.
  destruct (Z.eqb_spec (cs_Height cs) height) as [Eh|]; [|by intros [= <-]]. cbn [negb orb].
  destruct (_ || _); [by intros [= <-]|].
  intros (vs & _ & (any & _ & E)%bind_Ret)%bind_Ret. destruct any; [|done]. injection E as <-.
  split_and!; [|done..]. unfold newStep. rewrite core_emit. unfold scheduleTimeout. set (ti := mkTimeoutInfo _ _ _ _).
  change (ok (emit cs (ScheduleTimeout ti))). rewrite core_emit. by apply Inv_time.
Qed.

(** ** Precommit *)

Lemma prevotes_maj cs round vs b :
  ok cs → prevotes cs round = Ret vs → TwoThirdsMajority vs = (b, true) → M PrevoteType (cs_Height cs) round b.
Proof.
  intros Hinv (hvs & Ev%or_panic_Ret & Eg)%bind_Ret (v & -> & Em)%TwoThirds_maj.
  apply (HP_maj _ hvs); [by apply (iv_votes _ _ _ _ _ _ Hinv)|]. by exists v.
Qed.

Lemma precommits_maj cs round vs b :
  ok cs → precommits cs round = Ret vs → TwoThirdsMajority vs = (b, true) → M PrecommitType (cs_Height cs) round b.
Proof.
  intros Hinv (hvs & Ev%or_panic_Ret & Eg)%bind_Ret (v & -> & Em)%TwoThirds_maj.
  apply (HP_maj _ hvs); [by apply (iv_votes _ _ _ _ _ _ Hinv)|]. by exists v.
Qed.

Lemma await_block_frame cs header cs' : await_block cs header = Ret cs' → frame cs' = frame cs.
Proof.
  unfold await_block. destruct (HasHeader _ _); [by intros [= <-]|].
  intros (parts & _ & E)%bind_Ret. by injection E as <-.
Qed.

(** The core with the step set. *)
Notation at_precommit cs := (k_step (core_of cs) (cs_Round cs) RoundStepPrecommit).

Lemma signPrecommit_ok o cs hash header cs' :
  Inv Sum intact M HP lo (at_precommit cs) → (∀ w, w ∈ votes_of (cs_out cs) → plt (vpos w) (pos (at_precommit cs))) →
  (hash ≠ [] → M PrevoteType (cs_Height cs) (cs_Round cs) (mkBlockID hash header) ∧
     ∃ b, cs_LockedBlock cs = Some b ∧ hash_of b = hash ∧ cs_LockedRound cs = cs_Round cs) →
  signAddVote Sum o cs PrecommitType hash header = Ret cs' →
  Inv Sum intact M HP lo (at_precommit cs') ∧ cs_Height cs' = cs_Height cs ∧ cs_Round cs' = cs_Round cs ∧ cs_state cs' = cs_state cs.
Proof.
  intros Hinv Hlt Hlock E. destruct (signAddVote_ok _ _ _ _ _ _ E) as [Hs [Hc|(v & Hc & Ht & Hh & Hr & Hb)]];
    pose proof (f_equal k_Height Hc) as Hch; pose proof (f_equal k_Round Hc) as Hcr; cbn in Hch, Hcr;
    (split_and!; [|done..]); rewrite Hcr, Hc; [done|].
  apply (Inv_precommit Sum intact M HP lo (at_precommit cs) v); [done| |done|exact Hlt|].
  - unfold vpos, vote_stage. by rewrite Ht, Hh, Hr.
  - rewrite Hb. exact Hlock.
Qed.

(** What is left of the lock is given up for a majority of the current round. *)
Lemma give_up_ok cs bid :
  ok cs → cs_Step cs < RoundStepPrecommit → M PrevoteType (cs_Height cs) (cs_Round cs) bid →
  (intact → ∀ b, cs_LockedBlock cs = Some b → bid_Hash bid ≠ hash_of b) → Inv Sum intact M HP lo (k_lock (core_of cs) (-1) None).
Proof.
  intros Hinv Hst Hm Hne. destruct (cs_LockedBlock cs) as [b|] eqn:Eb.
  - apply (Inv_unlock Sum intact M HP lo (core_of cs) b (cs_Round cs) bid); [done|exact Eb| |done|intros Hintact; by apply Hne].
    destruct (iv_lock _ _ _ _ _ _ Hinv b Eb) as [_ Hlr]. cbn in Hlr |- *. lia.
  - destruct Hinv as [J1 J0 J2 J3 J4 J5 J6 J7 J8 J9 J10 J11]. split; cbn; try done.
    intros v Hv Ht Hv0 Hh Hintact. destruct (J9 v Hv Ht Hv0 Hh Hintact) as [(b' & Eb' & _)|Hright]; [|by right].
    cbn in Eb'. congruence.
Qed.

Lemma decidePrecommit_ok o cs cs' :
  ok cs → cs_Step cs < RoundStepPrecommit → decidePrecommit Sum o cs (cs_Round cs) = Ret cs' →
  Inv Sum intact M HP lo (at_precommit cs') ∧ cs_Height cs' = cs_Height cs ∧ cs_Round cs' = cs_Round cs ∧ cs_state cs' = cs_state cs.
Proof.
  intros Hinv Hst (vs & Ev & E)%bind_Ret.
  assert (∀ w, w ∈ votes_of (cs_out cs) → plt (vpos w) (pos (at_precommit cs))) as Hlt.
  { intros w Hw. eapply ple_plt; [by apply (iv_past _ _ _ _ _ _ Hinv)|]. unfold plt. cbn. lia. }
  assert (∀ k, Inv Sum intact M HP lo k → k_Height k = cs_Height cs → k_Round k = cs_Round cs → k_Step k = cs_Step cs →
    Inv Sum intact M HP lo (k_step k (cs_Round cs) RoundStepPrecommit)) as Hstep.
  { intros k Hk Eh Er Es. apply Inv_step; [done| |]; unfold plt; cbn; lia. }
  destruct (TwoThirdsMajority vs) as [bid polka] eqn:Em. destruct polka; cbn [negb] in E.
  2: { eapply signPrecommit_ok; [by apply Hstep|exact Hlt|done|exact E]. }
  pose proof (prevotes_maj _ _ _ _ Hinv Ev Em) as Hm.
  apply bind_Ret in E as (hvs & _ & E). apply bind_Ret in E as ([polRound polBid] & _ & E).
  destruct (polRound <? cs_Round cs); [done|].
  assert (intact → ∀ b, cs_LockedBlock cs = Some b → hash_of b ≠ []) as Hlb.
  { intros Hintact b Eb. by apply (iv_lock _ _ _ _ _ _ Hinv b Eb). }
  destruct (zlen (bid_Hash bid) =? 0) eqn:Ez.
  { assert (bid_Hash bid = []) as Enil. { apply Z.eqb_eq in Ez. destruct (bid_Hash bid); [done|]. unfold zlen in Ez. cbn in Ez. lia. }
    assert (Inv Sum intact M HP lo (k_lock (core_of cs) (-1) None)) as Hu.
    { eapply give_up_ok; [done..|]. intros Hintact b Eb. rewrite Enil. intros Hb. by apply (Hlb Hintact b Eb). }
    destruct (cs_LockedBlock cs) as [b|] eqn:Eb.
    - exact (signPrecommit_ok o (set_Locked cs (-1) None None) _ _ _ (Hstep _ Hu eq_refl eq_refl eq_refl) Hlt
               ltac:(done) E).
    - exact (signPrecommit_ok o cs _ _ _ (Hstep _ Hinv eq_refl eq_refl eq_refl) Hlt ltac:(done) E). }
  assert (bid_Hash bid ≠ []) as Hne. { intros Enil. rewrite Enil in Ez. done. }
  assert (mkBlockID (bid_Hash bid) (bid_PartsHeader bid) = bid) as Ebid by (by destruct bid).
  destruct (hashes_to Sum (cs_LockedBlock cs) (bid_Hash bid)) eqn:El.
  { destruct (hashes_to_Some _ _ _ El) as (b & Eb & Eh & _).
    apply (signPrecommit_ok o (set_Locked cs (cs_Round cs) (cs_LockedBlock cs) (cs_LockedBlockParts cs)) _ _ _) in E;
      [exact E| |exact Hlt|].
    - change (Inv Sum intact M HP lo (k_step (k_lock (core_of cs) (cs_Round cs) (cs_LockedBlock cs)) (cs_Round cs) RoundStepPrecommit)).
      rewrite Eb. by apply (Inv_lock Sum intact M HP lo (core_of cs) b bid).
    - intros _. rewrite Ebid. split; [done|]. exists b. done. }
  destruct (hashes_to Sum (cs_ProposalBlock cs) (bid_Hash bid)) eqn:Ep.
  { destruct (hashes_to_Some _ _ _ Ep) as (b & Eb & Eh & _).
    apply bind_Ret in E as (st & _ & E). apply bind_Ret in E as (b' & _ & E).
    apply bind_Ret in E as ([err|] & _ & E); [done|].
    apply (signPrecommit_ok o (lock_proposal cs (cs_Round cs)) _ _ _) in E;
      [exact E| |exact Hlt|].
    - change (Inv Sum intact M HP lo (k_step (k_lock (core_of cs) (cs_Round cs) (cs_ProposalBlock cs)) (cs_Round cs) RoundStepPrecommit)).
      rewrite Eb. by apply (Inv_lock Sum intact M HP lo (core_of cs) b bid).
    - intros _. rewrite Ebid. split; [done|]. exists b. done. }
  apply bind_Ret in E as (cs1 & Ea & E).
  destruct (frame_fields _ _ (await_block_frame _ _ _ Ea)) as (Hc & Hs & Hh & Hr & _).
  change (core_of (set_Locked cs (-1) None None)) with (k_lock (core_of cs) (-1) None) in Hc.
  assert (Inv Sum intact M HP lo (k_lock (core_of cs) (-1) None)) as Hu.
  { eapply give_up_ok; [done..|]. intros Hintact b Eb. rewrite Eb in El. apply (hashes_to_false Sum _ _ El). by apply Hlb. }
  cbn in Hh, Hr, Hs. rewrite <-Hh, <-Hr, <-Hs. eapply signPrecommit_ok; [| | |exact E]; [| |done].
  - rewrite Hr, Hc. by apply Hstep.
  - rewrite Hr, Hc. change (votes_of (cs_out cs1)) with (k_sent (core_of cs1)). rewrite Hc. exact Hlt.
Qed.

Lemma enterPrecommit_ok o cs height round cs' :
  ok cs → round ≤ cs_Round cs → enterPrecommit Sum o cs height round = Ret cs' →
  ok cs' ∧ cs_Height cs' = cs_Height cs ∧ cs_Round cs' = cs_Round cs ∧ cs_state cs' = cs_state cs.
Proof.
  intros Hinv Hr. unfold enterPrecommit.
  destruct (Z.eqb_spec (cs_Height cs) height) as [Eh|]; [|by intros [= <-]].
  destruct (Z.ltb_spec round (cs_Round cs)) as [|Hge]; [by intros [= <-]|].
  assert (round = cs_Round cs) as -> by lia. rewrite Z.eqb_refl. cbn [negb orb andb].
  destruct (Z.leb_spec RoundStepPrecommit (cs_Step cs)) as [|Hst]; [by intros [= <-]|].
  intros (cs1 & E & E')%bind_Ret. injection E' as <-.
  destruct (decidePrecommit_ok _ _ _ Hinv Hst E) as (A & B & C & D).
  split_and!; [|done..]. unfold newStep. rewrite core_emit.
  change (Inv Sum intact M HP lo (k_step (core_of cs1) (cs_Round cs) RoundStepPrecommit)). by rewrite <-C.
Qed.

(** ** Commit *)

(** Once a state is there it stays. *)
Definition live cs : Prop := ok cs ∧ is_Some (cs_state cs).

Lemma updateToState_ok o cs state cs' :
  live cs →
  (∀ hvs, NewHeightVoteSet (st_ChainID state) (st_LastBlockHeight state + 1) (st_Validators state) = Ret hvs →
     HP (st_LastBlockHeight state + 1) hvs) →
  updateToState o cs state = Ret cs' → live cs'.
Proof.
  intros [Hinv [st Est]] HHP. unfold updateToState. rewrite Est.
  destruct (_ && _ && _); [done|].
  destruct (Z.eqb_spec (st_LastBlockHeight st + 1) (cs_Height cs)) as [Eh|]; [cbn [negb]|done].
  destruct (Z.leb_spec (st_LastBlockHeight state) (st_LastBlockHeight st)) as [|Hlt].
  { intros [= <-]. split; [|by eexists]. unfold newStep. by rewrite core_emit. }
  intros (lp & _ & (votes & Ev & E)%bind_Ret)%bind_Ret. injection E as <-. split; [|by eexists].
  unfold newStep. rewrite core_emit.
  apply (Inv_height Sum intact M HP lo (core_of cs)); [done|cbn; lia|by apply HHP].
Qed.

Lemma aggregate_tx_frame o cs data cs' : aggregate_tx o cs data = Ret cs' → frame cs' = frame cs.
Proof.
  intros (tx & _ & (cs1 & E1 & (cs2 & E2 & E)%bind_Ret)%bind_Ret)%bind_Ret.
  assert (frame cs1 = frame cs) as H1'.
  { destruct (bytes_equal _ _) in E1; [|by injection E1 as <-]. apply bind_Ret in E1 as (rate & _ & E1). injection E1 as <-.
    unfold frame. by rewrite core_emit. }
  assert (frame cs2 = frame cs1) as H2'.
  { destruct (bytes_equal _ _) in E2; [|by injection E2 as <-]. apply bind_Ret in E2 as (rate & _ & E2). injection E2 as <-.
    unfold frame. by rewrite core_emit. }
  destruct (_ && _); [injection E as <-; congruence|].
  apply bind_Ret in E as (? & _ & E). apply bind_Ret in E as (? & _ & E). injection E as <-. congruence.
Qed.

Lemma foldM_frame {A} (f : CS → A → outcome CS) l cs cs' :
  (∀ c x c', f c x = Ret c' → frame c' = frame c) → foldM f cs l = Ret cs' → frame cs' = frame cs.
Proof.
  intros Hf. revert cs. induction l as [|x l IH]; intros cs; cbn [foldM]; [by intros [= <-]|].
  intros (c & E & E')%bind_Ret. rewrite (IH _ E'). by eapply Hf.
Qed.

Lemma aggregate_frame o cs cs' : tryAddAggragate2Block o cs = Ret cs' → frame cs' = frame cs.
Proof.
  intros (b & _ & E)%bind_Ret. destruct (blk_Txs b) as [|tx txs].
  { injection E as <-. destruct (o_packs o); [|done]. unfold frame. by rewrite core_emit. }
  apply bind_Ret in E as (cs1 & Ef & E). apply bind_Ret in E as (vs & _ & E). apply bind_Ret in E as (v & _ & E).
  injection E as <-. rewrite <-(foldM_frame _ _ _ _ (aggregate_tx_frame o) Ef).
  destruct (o_aggregated o); [|done]. unfold frame. by rewrite !core_emit.
Qed.

(** The validators of the next height, as the application gives them. *)
Definition applies (o : Oracle) : Prop :=
  ∀ st bid b flag st' hvs, o_ApplyBlock o st bid b flag = Some st' →
    NewHeightVoteSet (st_ChainID st') (st_LastBlockHeight st' + 1) (st_Validators st') = Ret hvs →
    HP (st_LastBlockHeight st' + 1) hvs.

Lemma finalizeCommit_ok o cs height cs' : live cs → applies o → finalizeCommit Sum o cs height = Ret cs' → live cs'.
Proof.
  intros [Hinv Hst] Happ. unfold finalizeCommit.
  destruct (Z.eqb_spec (cs_Height cs) height) as [Eh|]; [|by intros [= <-]]. cbn [negb orb].
  destruct (negb _); [by intros [= <-]|].
  intros (vs & Ev & E)%bind_Ret. destruct (TwoThirdsMajority vs) as [bid maj] eqn:Em. destruct maj; [cbn [negb] in E|done].
  pose proof (precommits_maj _ _ _ _ Hinv Ev Em) as Hm.
  destruct (negb _); [done|]. destruct (hashes_to Sum _ _) eqn:Ehash; [cbn [negb] in E|done].
  destruct (hashes_to_Some _ _ _ Ehash) as (b & Eb & Ehb & Hne). rewrite Eb in E. cbn [or_panic mbind outcome_bind] in E.
  apply bind_Ret in E as (cs1 & Es & E).
  assert (ok cs1 ∧ cs_state cs1 = cs_state cs) as [H1' Hs1].
  { destruct (_ <? _); [|by injection Es as <-].
    apply bind_Ret in Es as (vs' & _ & Es). apply bind_Ret in Es as (seen & _ & Es).
    apply bind_Ret in Es as ([store u] & _ & Es). injection Es as <-. split; [|done]. rewrite core_emit.
    apply (Inv_save _ _ _ _ _ (core_of cs) _ _ (cs_CommitRound cs) bid); [done|by rewrite <-Eh|done|congruence]. }
  apply bind_Ret in E as (state & _ & E). cbn zeta in E. apply bind_Ret in E as ([flag cs2] & El & E).
  apply bind_Ret in E as (cs3 & Ea & E).
  assert (live cs3) as H3'.
  { pose proof (aggregate_frame _ _ _ Ea) as F3. rewrite (isLeader_frame _ _ _ El) in F3.
    destruct (frame_fields _ _ F3) as (Hc & Hs & _). split; [|rewrite Hs; by eexists].
    rewrite Hc. change (ok (emit cs1 (WriteEndHeight height))). by rewrite core_emit. }
  destruct (o_ApplyBlock _ _ _ _ _) as [st'|] eqn:Eap.
  - apply bind_Ret in E as (cs4 & Eu & E). injection E as <-.
    destruct (updateToState_ok _ _ _ _ H3' (λ hvs, Happ _ _ _ _ _ hvs Eap) Eu) as [H4' Hs4].
    split; [|done]. unfold scheduleRound0, scheduleTimeout. rewrite core_emit.
    apply Inv_time; [done|done|exact (iv_round _ _ _ _ _ _ H4')].
  - injection E as <-. split; [|by apply H3']. rewrite core_emit. by apply H3'.
Qed.

Lemma tryFinalizeCommit_ok o cs height cs' : live cs → applies o → tryFinalizeCommit Sum o cs height = Ret cs' → live cs'.
Proof.
  intros Hl Happ. unfold tryFinalizeCommit. destruct (negb _); [done|].
  intros (vs & _ & E)%bind_Ret. destruct (TwoThirdsMajority vs) as [bid maj].
  destruct (_ || _); [by injection E as <-|]. destruct (negb _); [by injection E as <-|].
  apply bind_Ret in E as (vs1 & _ & E). apply bind_Ret in E as (vs2 & _ & E). apply bind_Ret in E as (st & _ & E).
  eapply finalizeCommit_ok; [|done|exact E]. destruct (o_SignatureRecovery _ _ _); [|done].
  split; [apply Hl|by eexists].
Qed.

Lemma enterCommit_ok o cs height round cs' : live cs → applies o → enterCommit Sum o cs height round = Ret cs' → live cs'.
Proof.
  intros [Hinv Hst] Happ. unfold enterCommit.
  destruct (Z.eqb_spec (cs_Height cs) height) as [Eh|]; [|by intros [= <-]]. cbn [negb orb].
  destruct (Z.leb_spec RoundStepCommit (cs_Step cs)) as [|Hlt]; [by intros [= <-]|].
  intros (vs & _ & E)%bind_Ret. destruct (TwoThirdsMajority vs) as [bid maj]. destruct maj; [cbn [negb] in E|done].
  set (cs1 := if hashes_to Sum (cs_LockedBlock cs) (bid_Hash bid) then _ else cs) in E.
  assert (frame cs1 = frame cs) as H1' by (unfold cs1; by destruct (hashes_to _ _ _)). clearbody cs1.
  apply bind_Ret in E as (cs2 & E2 & E).
  assert (frame cs2 = frame cs) as Hf.
  { rewrite <-H1'. destruct (hashes_to _ _ _); [by injection E2 as <-|]. by eapply await_block_frame. }
  destruct (frame_fields _ _ Hf) as (Hc & Hs & _ & Hr & _).
  eapply tryFinalizeCommit_ok; [|done|exact E]. split; [|cbn; by rewrite Hs].
  unfold newStep. rewrite core_emit. change (Inv Sum intact M HP lo (k_step (core_of cs2) (cs_Round cs2) RoundStepCommit)).
  rewrite Hc, Hr. apply Inv_step; [done| |cbn; lia]. unfold plt. cbn. lia.
Qed.

(** ** Messages *)

Lemma live_of cs cs' : live cs → ok cs' → cs_state cs' = cs_state cs → live cs'.
Proof. intros [_ Hst] Hok Hs. split; [done|]. by rewrite Hs. Qed.

Lemma live_frame cs cs' : live cs → frame cs' = frame cs → live cs'.
Proof. intros [Hinv Hst] (Hc & Hs & _)%frame_fields. split; [by rewrite Hc|by rewrite Hs]. Qed.

Lemma setProposal_frame cs p cs' err : defaultSetProposal cs p = Ret (cs', err) → frame cs' = frame cs.
Proof.
  unfold defaultSetProposal. destruct (cs_Proposal cs); [by intros [= <- _]|].
  destruct (_ || _); [by intros [= <- _]|]. destruct (_ || _); [by intros [= <- _]|].
  intros ([q vals] & _ & (p' & _ & E)%bind_Ret)%bind_Ret. cbn zeta in E. apply bind_Ret in E as (st & _ & E).
  destruct (negb _); [by injection E as <- _|]. destruct (cs_ProposalBlockParts _); [by injection E as <- _|].
  apply bind_Ret in E as (parts & _ & E). by injection E as <- _.
Qed.

Lemma proposalCompleted_ok o cs height cs' :
  live cs → applies o → proposalCompleted Sum o cs height = Ret cs' → live cs'.
Proof.
  intros Hl Happ (vs & _ & E)%bind_Ret. destruct (TwoThirdsMajority vs) as [bid maj]. cbn zeta in E.
  set (cs1 := if _ && _ && _ && _ then _ else cs) in E.
  assert (frame cs1 = frame cs) as Hf by (unfold cs1; by destruct (_ && _)). clearbody cs1.
  pose proof (live_frame _ _ Hl Hf) as H1'.
  apply bind_Ret in E as (complete & _ & E). destruct complete.
  - apply bind_Ret in E as (cs2 & E2 & E).
    destruct (enterPrevote_ok _ _ _ _ _ (proj1 H1') (Z.le_refl _) E2) as (A & _ & _ & D).
    pose proof (live_of _ _ H1' A D) as H2'. destruct maj; [|by injection E as <-].
    destruct (enterPrecommit_ok _ _ _ _ _ A (Z.le_refl _) E) as (A' & _ & _ & D'). by apply (live_of cs2).
  - destruct (_ =? _); [by eapply tryFinalizeCommit_ok|by injection E as <-].
Qed.

(** [LockedBlock] is the block that the next set of parts will be decoded into. *)
Definition shares_lock cs : Prop :=
  is_Some (cs_ProposalBlock cs) ∧ rf_LockedBlock (cs_refs cs) = rf_ProposalBlock (cs_refs cs).

(** A part that completes a set while the block is already there, and is the block of the lock, brings the same block. *)
Definition same_block (o : Oracle) cs (part : Part) : Prop :=
  ∀ ps b failed lb, AddPart Sum (cs_ProposalBlockParts cs) part = Ret (Some ps, true, None) → IsComplete ps = true →
    receivedBlock Sum o cs ps = Ret (Some b, failed) → shares_lock cs → cs_LockedBlock cs = Some lb →
    hash_of b = hash_of lb.

Lemma write_parts_frame cs ps : frame (write_parts cs ps) = frame cs.
Proof. done. Qed.

Lemma decode_block_live cs b :
  live cs →
  (intact → ∀ new lb, b = Some new → shares_lock cs → cs_LockedBlock cs = Some lb → hash_of new = hash_of lb) →
  live (decode_block cs b).
Proof.
  intros Hl Hb. unfold decode_block. destruct (cs_ProposalBlock cs) as [old|] eqn:Ep; [|by apply (live_frame cs)].
  destruct b as [new|]; [|by apply (live_frame cs)].
  destruct (cs_LockedBlock cs) as [lb|] eqn:El; [destruct (Nat.eqb_spec (rf_LockedBlock (cs_refs cs)) (rf_ProposalBlock (cs_refs cs))) as [Er|]|].
  - split; [|apply Hl]. change (cs_LockedBlock (set_ProposalBlock cs (Some new) (cs_ProposalBlockParts cs))) with (cs_LockedBlock cs).
    rewrite El. apply (Inv_rewrite Sum intact M HP lo (core_of cs) lb new); [apply Hl|exact El|].
    intros Hi. apply (Hb Hi new lb); [done| |done]. split; [by rewrite Ep|done].
  - apply (live_frame cs); [done|]. unfold frame, core_of. cbn. by rewrite El.
  - apply (live_frame cs); [done|]. unfold frame, core_of. cbn. by rewrite El.
Qed.

Lemma addPart_ok o cs height part cs' added err :
  live cs → applies o → (intact → same_block o cs part) →
  addProposalBlockPart Sum o cs height part = Ret (cs', added, err) → live cs'.
Proof.
  intros Hl Happ Hsame. unfold addProposalBlockPart. destruct (negb _); [by intros [= <- _ _]|].
  destruct (cs_ProposalBlockParts cs) as [ps0|] eqn:Eps; [|by intros [= <- _ _]].
  intros ([[parts added'] err'] & Ea & E)%bind_Ret. apply bind_Ret in E as (ps & ->%or_panic_Ret & E). cbn zeta in E.
  pose proof (live_frame cs _ Hl (write_parts_frame cs ps)) as H1'.
  destruct err'; [by injection E as <- _ _|]. destruct added'; [|by injection E as <- _ _].
  destruct (IsComplete ps) eqn:Ec; cbn [andb] in E; [|by injection E as <- _ _].
  apply bind_Ret in E as ([b failed] & Er & E).
  assert (live (decode_block (write_parts cs ps) b)) as H2'.
  { apply decode_block_live; [done|]. intros Hi new lb -> Hsh El.
    apply (Hsame Hi ps new failed lb); [by rewrite Eps|done|exact Er|exact Hsh|exact El]. }
  destruct failed; [by injection E as <- _ _|].
  apply bind_Ret in E as (cs1 & E1 & E). injection E as <- _ _. by eapply proposalCompleted_ok.
Qed.

Lemma onPolka_ok cs round bid cs' :
  ok cs → M PrevoteType (cs_Height cs) round bid → onPolka Sum cs round bid = Ret cs' →
  ok cs' ∧ cs_Height cs' = cs_Height cs ∧ cs_Round cs' = cs_Round cs ∧ cs_state cs' = cs_state cs.
Proof.
  intros Hinv Hm. unfold onPolka. cbn zeta.
  set (cs1 := match cs_LockedBlock cs with Some _ => _ | None => cs end).
  assert (ok cs1 ∧ cs_Height cs1 = cs_Height cs ∧ cs_Round cs1 = cs_Round cs ∧ cs_state cs1 = cs_state cs) as Hc1.
  { unfold cs1. destruct (cs_LockedBlock cs) as [b|] eqn:Eb; [|done].
    destruct (Z.ltb_spec (cs_LockedRound cs) round) as [Hlo|]; [|done].
    destruct (Z.leb_spec round (cs_Round cs)) as [Hhi|]; [|done].
    destruct (hashes_to Sum (Some b) (bid_Hash bid)) eqn:Eh; [done|]. cbn. split_and!; [|done..].
    apply (Inv_unlock Sum intact M HP lo (core_of cs) b round bid); [done|exact Eb|done|done|].
    intros Hintact. apply (hashes_to_false Sum _ _ Eh). by apply (iv_lock _ _ _ _ _ _ Hinv). }
  clearbody cs1. destruct (_ && _ && _); [|by intros [= <-]].
  set (cs2 := if hashes_to _ _ _ then _ else _).
  assert (frame cs2 = frame cs1) as Hf2 by (unfold cs2; by destruct (hashes_to _ _ _)). clearbody cs2.
  intros E. assert (frame cs' = frame cs1) as Hf.
  { rewrite <-Hf2. destruct (HasHeader _ _); [by injection E as <-|]. apply bind_Ret in E as (parts & _ & E). by injection E as <-. }
  destruct (frame_fields _ _ Hf) as (-> & -> & -> & -> & _). done.
Qed.

Lemma addedPrevote_ok o cs height round cs' : live cs → addedPrevote Sum o cs height round = Ret cs' → live cs'.
Proof.
  intros Hl (vs & Ev & E)%bind_Ret. destruct (TwoThirdsMajority vs) as [bid maj] eqn:Em.
  apply bind_Ret in E as (cs1 & E1 & E).
  assert (live cs1) as H1'.
  { destruct maj; [|by injection E1 as <-].
    destruct (onPolka_ok _ _ _ _ (proj1 Hl) (prevotes_maj _ _ _ _ (proj1 Hl) Ev Em) E1) as (A & _ & _ & D). by apply (live_of cs). }
  apply bind_Ret in E as (any & _ & E). destruct (_ && any).
  { destruct (enterNewRound_ok _ _ _ _ _ (proj1 H1') E) as (A & _ & _ & D & _). by apply (live_of cs1). }
  destruct (Z.eqb_spec (cs_Round cs1) round) as [Er|]; cbn [andb] in E.
  1: destruct (RoundStepPrevote <=? cs_Step cs1).
  - apply bind_Ret in E as (complete & _ & E). destruct (maj && _).
    + destruct (enterPrecommit_ok _ _ _ _ _ (proj1 H1') (Z.eq_le_incl _ _ (eq_sym Er)) E) as (A & _ & _ & D). by apply (live_of cs1).
    + destruct any; [|by injection E as <-].
      destruct (enterPrevoteWait_ok _ _ _ _ (proj1 H1') (Z.eq_le_incl _ _ (eq_sym Er)) E) as (A & _ & _ & D). by apply (live_of cs1).
  - destruct (cs_Proposal cs1) as [p|]; [|by injection E as <-]. destruct (_ && _); [|by injection E as <-].
    apply bind_Ret in E as (complete & _ & E). destruct complete; [|by injection E as <-].
    destruct (enterPrevote_ok _ _ _ _ _ (proj1 H1') (Z.le_refl _) E) as (A & _ & _ & D). by apply (live_of cs1).
  - destruct (cs_Proposal cs1) as [p|]; [|by injection E as <-]. destruct (_ && _); [|by injection E as <-].
    apply bind_Ret in E as (complete & _ & E). destruct complete; [|by injection E as <-].
    destruct (enterPrevote_ok _ _ _ _ _ (proj1 H1') (Z.le_refl _) E) as (A & _ & _ & D). by apply (live_of cs1).
Qed.

Lemma enterNewRound_live o cs height round cs' : live cs → enterNewRound Sum o cs height round = Ret cs' → live cs'.
Proof. intros Hl E. destruct (enterNewRound_ok _ _ _ _ _ (proj1 Hl) E) as (A & _ & _ & D & _). by apply (live_of cs). Qed.

Lemma addedPrecommit_ok o cs round cs' :
  live cs → applies o → addedPrecommit Sum o cs (cs_Height cs) round = Ret cs' → live cs'.
Proof.
  intros Hl Happ (vs & _ & E)%bind_Ret. destruct (TwoThirdsMajority vs) as [bid maj].
  destruct maj.
  - apply bind_Ret in E as (cs1 & E1 & E). apply bind_Ret in E as (cs2 & E2 & E).
    destruct (enterNewRound_ok _ _ _ _ _ (proj1 Hl) E1) as (A & B & _ & D & F).
    destruct (enterPrecommit_ok _ _ _ _ _ A (F eq_refl) E2) as (A2 & B2 & C2 & D2).
    assert (live cs2) as H2' by (apply (live_of cs); [done..|congruence]).
    destruct (negb _).
    + apply bind_Ret in E as (cs3 & E3 & E). pose proof (enterCommit_ok _ _ _ _ _ H2' Happ E3) as H3'.
      destruct (cfg_SkipTimeoutCommit _); [|by injection E as <-].
      apply bind_Ret in E as (v & _ & E). apply bind_Ret in E as (all & _ & E).
      destruct all; [by eapply enterNewRound_live|by injection E as <-].
    + assert (round ≤ cs_Round cs2) as Hr2 by (rewrite C2; by apply F).
      destruct (enterPrecommitWait_ok _ _ _ _ A2 Hr2 E) as (A3 & _ & _ & D3). by apply (live_of cs2).
  - apply bind_Ret in E as (any & _ & E). destruct (_ && any); [|by injection E as <-].
    apply bind_Ret in E as (cs1 & E1 & E). destruct (enterNewRound_ok _ _ _ _ _ (proj1 Hl) E1) as (A & B & _ & D & F).
    destruct (enterPrecommitWait_ok _ _ _ _ A (F eq_refl) E) as (A3 & _ & _ & D3).
    apply (live_of cs); [done..|congruence].
Qed.

Lemma addLastCommitVote_ok o cs vote cs' added err :
  live cs → addLastCommitVote Sum o cs vote = Ret (cs', added, err) → live cs'.
Proof.
  intros Hl. unfold addLastCommitVote. destruct (negb (_ && _)); [by intros [= <- _ _]|].
  intros ([[vs added'] err'] & _ & E)%bind_Ret. cbn zeta in E.
  destruct (negb added'); [injection E as <- _ _; by apply (live_frame cs)|].
  apply bind_Ret in E as (all & _ & E). apply bind_Ret in E as (cs1 & E1 & E). injection E as <- _ _.
  destruct all; [eapply enterNewRound_live; [|exact E1]|injection E1 as <-]; by apply (live_frame cs).
Qed.

(** The inputs that are taken into account: a vote keeps what is
    known of the vote sets, a part does not change the locked block, and a timeout was asked for. *)
Definition admissible (o : Oracle) cs (i : input) : Prop :=
  match i with
  | MsgInput (BlockPartMessage _ _ part) _ => intact → same_block o cs part
  | MsgInput (VoteMessage v) peerID =>
      ∀ hvs hvs' added err, HP (cs_Height cs) hvs → vote_Height v = cs_Height cs →
        HVS_AddVote hvs v peerID = Ret (hvs', added, err) → HP (cs_Height cs) hvs'
  | TimeoutInput ti => ti ∈ timeouts_of (cs_out cs)
  | _ => True
  end.

Lemma cs_addVote_ok o cs vote peerID cs' added err :
  live cs → applies o → admissible o cs (MsgInput (VoteMessage vote) peerID) →
  cs_addVote Sum o cs vote peerID = Ret (cs', added, err) → live cs'.
Proof.
  intros Hl Happ Hadm. unfold cs_addVote. destruct (_ =? cs_Height cs); [by apply addLastCommitVote_ok|].
  destruct (Z.eqb_spec (vote_Height vote) (cs_Height cs)) as [Eh|]; [cbn [negb]|by intros [= <- _ _]].
  cbn zeta. intros (hvs & Ev%or_panic_Ret & E)%bind_Ret. apply bind_Ret in E as ([[hvs' added'] err'] & Ea & E).
  cbn zeta in E. set (cs1 := set_Votes cs (Some hvs')) in E.
  assert (live cs1) as H1'.
  { split; [|apply Hl]. apply (Inv_votes Sum intact M HP lo (core_of cs)); [apply Hl|].
    apply (Hadm hvs hvs' added' err'); [by apply (iv_votes _ _ _ _ _ _ (proj1 Hl))|done|done]. }
  change (cs_Height cs) with (cs_Height cs1) in E. clearbody cs1.
  destruct (negb added'); [by injection E as <- _ _|]. destruct (negb _); [by injection E as <- _ _|].
  apply bind_Ret in E as (cs2 & E2 & E). injection E as <- _ _.
  destruct (_ =? PrevoteType); [by eapply addedPrevote_ok|].
  destruct (_ =? PrecommitType); [by eapply addedPrecommit_ok|done].
Qed.

Lemma tryAddVote_ok o cs vote peerID cs' :
  live cs → applies o → admissible o cs (MsgInput (VoteMessage vote) peerID) →
  tryAddVote Sum o cs vote peerID = Ret cs' → live cs'.
Proof.
  intros Hl Happ Hadm ([[cs1 added] err] & E1 & E)%bind_Ret.
  pose proof (cs_addVote_ok _ _ _ _ _ _ _ Hl Happ Hadm E1) as H1'.
  assert (frame cs' = frame cs1) as Hf; [|by apply (live_frame cs1)].
  destruct err as [[|[|[]]]|]; try (by injection E as <-).
  apply bind_Ret in E as (addr & _ & E). destruct (bytes_equal _ _); injection E as <-; [done|].
  unfold frame. by rewrite core_emit.
Qed.

Lemma handleTimeout_ok o cs ti cs' :
  live cs → admissible o cs (TimeoutInput ti) → handleTimeout Sum o cs ti = Ret cs' → live cs'.
Proof.
  intros Hl Hadm. unfold handleTimeout.
  destruct (Z.eqb_spec (ti_Height ti) (cs_Height cs)) as [Eh|]; [|by intros [= <-]]. cbn [negb orb].
  assert (ti_Round ti ≤ cs_Round cs) as Hr.
  { destruct (iv_time _ _ _ _ _ _ (proj1 Hl) ti Hadm) as [Hlt|[_ Hle]]; [cbn in Hlt; lia|exact Hle]. }
  destruct (_ || _); [by intros [= <-]|].
  destruct (_ =? _); [by apply enterNewRound_live|].
  destruct (_ =? _).
  { intros E. destruct (enterPropose_ok _ _ _ _ _ (proj1 Hl) E) as (A & _ & _ & D). by apply (live_of cs). }
  destruct (_ =? _).
  { intros E. destruct (enterPrevote_ok _ _ _ _ _ (proj1 Hl) Hr E) as (A & _ & _ & D). by apply (live_of cs). }
  destruct (_ =? _).
  { intros E. destruct (enterPrecommit_ok _ _ _ _ _ (proj1 Hl) Hr E) as (A & _ & _ & D). by apply (live_of cs). }
  destruct (_ =? _); [|done]. intros (cs1 & E1 & E)%bind_Ret.
  destruct (enterPrecommit_ok _ _ _ _ _ (proj1 Hl) Hr E1) as (A & _ & _ & D).
  eapply enterNewRound_live; [|exact E]. by apply (live_of cs).
Qed.

(** One iteration of [receiveRoutine] keeps the invariant. *)
Lemma receive_ok o cs i cs' : live cs → applies o → admissible o cs i → receive Sum o cs i = Ret cs' → live cs'.
Proof.
  intros Hl Happ Hadm. destruct i as [[p|h r part|v] peer|ti|]; cbn [receive handleMsg].
  - intros ([cs1 err] & E1 & E)%bind_Ret. injection E as <-. apply (live_frame cs); [done|]. by eapply setProposal_frame.
  - intros ([[cs1 added] err] & E1 & E)%bind_Ret. injection E as <-. by eapply addPart_ok.
  - by apply tryAddVote_ok.
  - by apply handleTimeout_ok.
  - intros (cs1 & E1 & E)%bind_Ret. pose proof (enterNewRound_live _ _ _ _ _ Hl E1) as H1'.
    destruct (enterPropose_ok _ _ _ _ _ (proj1 H1') E) as (A & _ & _ & D). by apply (live_of cs1).
Qed.

End Methods.

(** ** The start *)

Section Start.
Context (Sum : bytes → bytes) `{Codec} `{Crypto} `{BlockCodec} {PV : Type} `{PrivValidatorLaws PV}.

Lemma NewConsensusState_ok (intact : Prop) (M : majorities) (HP : Z → HeightVoteSet → Prop) o config (pv : option PV) store state (cs : @ConsensusState PV) :
  (∀ hvs, NewHeightVoteSet (st_ChainID state) (st_LastBlockHeight state + 1) (st_Validators state) = Ret hvs →
     HP (st_LastBlockHeight state + 1) hvs) →
  NewConsensusState o config pv store state = Ret cs →
  live Sum intact M HP (pos (core_of cs), []) cs ∧ k_sent (core_of cs) = [] ∧ cs_Height cs = st_LastBlockHeight state + 1.
Proof.
  intros HHP (cs1 & E1 & E)%bind_Ret. cbn in E1. apply bind_Ret in E1 as (hvs & Ev & E1). injection E1 as E1.
  assert (frame cs = frame cs1) as Hf.
  { unfold reconstructLastCommit in E. destruct (_ =? 0); [by injection E as <-|].
    apply bind_Ret in E as (sc & _ & E). apply bind_Ret in E as (vs & _ & E). apply bind_Ret in E as (vs' & _ & E).
    destruct (negb _); [done|]. by injection E as <-. }
  destruct (frame_fields _ _ Hf) as (Hc & Hs & Hh & _). rewrite Hh. unfold live. rewrite Hc, Hs.
  clear Hf Hc Hs Hh E. subst cs1. split; [|done]. split; [|by eexists]. unfold newStep.
  rewrite core_emit. split; cbn; try done.
  - apply ple_refl.
  - intros h [= <-]. by apply HHP.
  - intros v Hv. by apply elem_of_nil in Hv.
  - intros v Hv. by apply elem_of_nil in Hv.
  - intros v Hv. by apply elem_of_nil in Hv.
  - intros v Hv. by apply elem_of_nil in Hv.
  - intros v Hv. by apply elem_of_nil in Hv.
  - intros h b Hv. by apply elem_of_nil in Hv.
Qed.

(** ** One node *)

Notation CS := (@ConsensusState PV).

Definition timely (cs : CS) (i : input) : Prop :=
  match i with TimeoutInput ti => ti ∈ timeouts_of (cs_out cs) | _ => True end.

(** The states of a node that was started by [NewConsensusState] and [OnStart] and has handled some inputs. *)
Inductive reach : CS → Prop :=
| reach_start o config pv store state cs :
    NewConsensusState o config pv store state = Ret cs → reach (scheduleRound0 o cs)
| reach_receive o cs i cs' : reach cs → timely cs i → receive Sum o cs i = Ret cs' → reach cs'.

Notation anything := (λ _ _ _ _, True).
Notation any_votes := (λ _ _, True).

Lemma receive_live lo o cs i cs' :
  live Sum False anything any_votes lo cs → timely cs i → receive Sum o cs i = Ret cs' → live Sum False anything any_votes lo cs'.
Proof.
  intros Hl Ht. apply (receive_ok Sum False anything any_votes lo); [done|done|done|by intros ? ?|].
  destruct i as [[]| |]; cbn; done.
Qed.

Lemma reach_live cs : reach cs → ∃ lo, live Sum False anything any_votes lo cs.
Proof.
  induction 1 as [o config pv store state cs E|o cs i cs' _ [lo Hl] Ht E]; [|exists lo; by eapply receive_live].
  assert (live Sum False anything any_votes (pos (core_of cs), []) cs) as [Hinv Hst].
  { by apply (NewConsensusState_ok False anything any_votes o config pv store state cs). }
  eexists. split; [|exact Hst]. unfold scheduleRound0, scheduleTimeout. rewrite core_emit.
  apply Inv_time; [exact Hinv|done|exact (iv_round _ _ _ _ _ _ Hinv)].
Qed.

(** C3. The round state only moves forward: whatever input a node handles, if it does not panic, its
    height, round and step do not decrease (in lexicographic order), no vote is
    withdrawn, every vote it sends is for a position it has reached, and a locked block was locked in a
    round not after the current one. *)
Theorem receive_forward (o : Oracle) (cs cs' : CS) (i : input) :
  reach cs → timely cs i → receive Sum o cs i = Ret cs' →
  ple (pos (core_of cs)) (pos (core_of cs')) ∧
  votes_of (cs_out cs) `prefix_of` votes_of (cs_out cs') ∧
  (∀ v, v ∈ votes_of (cs_out cs') → ple (vpos v) (pos (core_of cs'))) ∧
  (∀ b, cs_LockedBlock cs' = Some b → cs_LockedRound cs' ≤ cs_Round cs').
Proof.
  intros [lo [Hinv Hst]]%reach_live Ht E.
  destruct (receive_live (pos (core_of cs), k_sent (core_of cs)) o cs i cs') as [Hinv' _]; [|done|done|].
  { split; [|done]. by eapply Inv_from. }
  split_and!.
  - exact (iv_lo _ _ _ _ _ _ Hinv').
  - exact (iv_base _ _ _ _ _ _ Hinv').
  - exact (iv_past _ _ _ _ _ _ Hinv').
  - intros b Eb. destruct (iv_lock _ _ _ _ _ _ Hinv' b Eb) as [_ Hor]. cbn in Hor. lia.
Qed.

End Start.
