(* ===== verification/Agreement.v ===== *)
(** * Agreement

    Honest validators that run [receive] never commit different blocks at a height. First
    the argument on a log of votes ([log_agreement]), then the vote sets as evidence of what
    was sent ([hvs_backed]), then the system: any number of nodes, each handling
    one input at a time, with an adversary that delivers what it likes except signatures of
    honest validators that were never made, and parts that overwrite the block a node is locked on: the code decodes a
    complete set of parts into [ProposalBlock] in place, and [LockedBlock] may be the same pointer.
    [lock_overwritten] of Failures.v shows what happens otherwise. *)

From Stdlib Require Import ZArith Lia List Bool Strings.Byte.
From stdpp Require Import base list gmap functions.
From S2P Require Import Prelude BitArray Types ValidatorSet ValidatorUpdates VerifyCommit VoteSet HeightVoteSet PartSet Block StateStore BlockStore Consensus ConsensusProofs.
Local Open Scope Z_scope.
Local Open Scope list_scope.

(** ** Quorums *)

(** The power of the validators at the chosen indices. *)
Fixpoint power_of (vals : list Validator) (Q : nat → bool) : Z :=
  match vals with
  | [] => 0
  | v :: vals' => (if Q 0%nat then val_VotingPower v else 0) + power_of vals' (λ i, Q (S i))
  end.

Lemma power_of_meet vals Q1 Q2 F :
  positive vals →
  power_of vals Q1 + power_of vals Q2 - power vals - power_of vals F ≤
  power_of vals (λ i, Q1 i && Q2 i && negb (F i)).
Proof.
  revert Q1 Q2 F. induction vals as [|v vals IH]; intros Q1 Q2 F Hpos; cbn [power_of]; unfold power;
    rewrite ?sumZ_nil, ?sumZ_cons; [lia|].
  specialize (IH (λ i, Q1 (S i)) (λ i, Q2 (S i)) (λ i, F (S i)) ltac:(intros w Hw; apply Hpos; set_solver)).
  pose proof (Hpos v ltac:(set_solver)). unfold power in IH.
  destruct (Q1 0%nat), (Q2 0%nat), (F 0%nat); cbn [andb negb]; lia.
Qed.

Lemma power_of_some vals Q : 0 < power_of vals Q → ∃ i v, vals !! i = Some v ∧ Q i = true.
Proof.
  revert Q. induction vals as [|v vals IH]; intros Q; cbn [power_of]; [lia|].
  destruct (Q 0%nat) eqn:E; [intros _; by exists 0%nat, v|].
  intros (i & w & Hi & Hq)%(IH (λ i, Q (S i))). by exists (S i), w.
Qed.

Definition is_quorum (vals : list Validator) (Q : nat → bool) : Prop := 2 * power vals < 3 * power_of vals Q.

(** With less than a third of the power faulty, two quorums share an honest validator. *)
Lemma quorum_meet vals F Q1 Q2 :
  positive vals → 3 * power_of vals F < power vals → is_quorum vals Q1 → is_quorum vals Q2 →
  ∃ i v, vals !! i = Some v ∧ Q1 i = true ∧ Q2 i = true ∧ F i = false.
Proof.
  unfold is_quorum. intros Hpos HF H1 H2. pose proof (power_of_meet vals Q1 Q2 F Hpos).
  destruct (power_of_some vals (λ i, Q1 i && Q2 i && negb (F i))) as (i & v & Hi & Hq); [lia|].
  exists i, v. apply andb_true_iff in Hq as [[A B]%andb_true_iff C%negb_true_iff]. done.
Qed.

(** ** A log of votes *)

Notation log := (list (nat * Vote)).

Section Log.
Context (vals : list Validator) (faulty : nat → bool) (height : Z).

(** What the log shows of height [height]: a quorum whose honest members all sent
    the vote. Nothing is said of other heights. *)
Definition backed (L : log) : majorities := λ t h r b,
  h = height → ∃ Q, is_quorum vals Q ∧
    ∀ i, Q i = true → faulty i = false → ∃ v, (i, v) ∈ L ∧ vote_Type v = t ∧ vote_Height v = h ∧ vote_Round v = r ∧
      vote_BlockID v = b.

Lemma backed_mono L L' t h r b : (∀ x, x ∈ L → x ∈ L') → backed L t h r b → backed L' t h r b.
Proof.
  intros Hsub HL Hh. destruct (HL Hh) as (Q & HQ & Hi). exists Q. split; [done|]. intros i Hq Hf.
  destruct (Hi i Hq Hf) as (v & Hv & ?). exists v. auto.
Qed.

(** Every vote of the log obeyed the rules when it was sent. *)
Definition log_ok (L : log) : Prop :=
  ∀ L1 i w L2, L = L1 ++ (i, w) :: L2 →
    (∀ v, (i, v) ∈ L1 → vote_rule (backed L1) v w) ∧
    (vote_Type w = PrecommitType → bid_Hash (vote_BlockID w) ≠ [] →
       backed L1 PrevoteType (vote_Height w) (vote_Round w) (vote_BlockID w)).

Lemma log_before L i v w :
  log_ok L → (i, v) ∈ L → (i, w) ∈ L → plt (vpos v) (vpos w) →
  ∃ L1 L2, L = L1 ++ (i, w) :: L2 ∧ (i, v) ∈ L1.
Proof.
  intros Hok Hv Hw Hlt. apply list_elem_of_split in Hw as (L1 & L2 & ->). exists L1, L2. split; [done|].
  apply elem_of_app in Hv as [Hv|[Hv|Hv]%elem_of_cons]; [done| |].
  - injection Hv as ->. exfalso. unfold plt in Hlt. lia.
  - apply list_elem_of_split in Hv as (K1 & K2 & ->). exfalso.
    destruct (Hok (L1 ++ (i, w) :: K1) i v K2) as [Hr _]; [by rewrite <-app_assoc|].
    destruct (Hr w ltac:(set_solver)) as [Hlt' _]. unfold plt in Hlt, Hlt'. lia.
Qed.

Lemma log_same L i v w : log_ok L → (i, v) ∈ L → (i, w) ∈ L → vpos v = vpos w → v = w.
Proof.
  intros Hok Hv Hw Heq. apply list_elem_of_split in Hw as (L1 & L2 & ->).
  assert (¬ plt (vpos w) (vpos w)) as Hirr by (unfold plt; lia).
  apply elem_of_app in Hv as [Hv|[Hv|Hv]%elem_of_cons]; [|by injection Hv|]; exfalso.
  - destruct (Hok L1 i w L2 eq_refl) as [Hr _]. destruct (Hr v Hv) as [Hlt _]. rewrite Heq in Hlt. done.
  - apply list_elem_of_split in Hv as (K1 & K2 & ->).
    destruct (Hok (L1 ++ (i, w) :: K1) i v K2) as [Hr _]; [by rewrite <-app_assoc|].
    destruct (Hr w ltac:(set_solver)) as [Hlt _]. rewrite Heq in Hlt. done.
Qed.

Context (Hpos : positive vals) (Hfaulty : 3 * power_of vals faulty < power vals).

(** After a quorum of precommits for a block there is no quorum of prevotes for another. *)
Lemma no_other_polka L r b :
  log_ok L → backed L PrecommitType height r b → bid_Hash b ≠ [] →
  ∀ L1 L2 r' b', L = L1 ++ L2 → r < r' → backed L1 PrevoteType height r' b' → bid_Hash b' = bid_Hash b.
Proof.
  intros Hok Hc Hne L1. induction L1 as [L1 IH] using (induction_ltof1 _ (@length _)). unfold ltof in IH.
  intros L2 r' b' -> Hlt Hp. destruct (decide (bid_Hash b' = bid_Hash b)) as [|Hdiff]; [done|exfalso].
  destruct (Hc eq_refl) as (Q & HQ & Hq). destruct (Hp eq_refl) as (Q' & HQ' & Hq').
  destruct (quorum_meet vals faulty Q Q' Hpos Hfaulty HQ HQ') as (i & val & _ & Hi & Hi' & Hf).
  destruct (Hq i Hi Hf) as (v & Hv & Tv & Ev & Rv & Bv). destruct (Hq' i Hi' Hf) as (w & Hw & Tw & Ew & Rw & Bw).
  destruct (log_before (L1 ++ L2) i v w Hok Hv) as (K1 & K2 & EK & HvK).
  { apply elem_of_app. by left. }
  { right. cbn. rewrite Ev, Ew. split; [done|]. left. lia. }
  (* the prevote is in the first part *)
  assert (length K1 < length L1)%nat as Hlen.
  { apply list_elem_of_split in Hw as (J1 & J2 & ->). destruct (decide (length K1 < length (J1 ++ (i, w) :: J2))%nat) as [|Hge]; [done|].
    exfalso. assert ((i, w) ∈ K1) as HwK.
    { apply list_elem_of_lookup_2 with (length J1). rewrite length_app in Hge. cbn in Hge.
      rewrite <-app_assoc in EK. cbn [app] in EK. apply (f_equal (lookup (length J1))) in EK.
      rewrite list_lookup_middle in EK by done. by rewrite lookup_app_l in EK by lia. }
    destruct (Hok K1 i w K2 EK) as [Hr _]. destruct (Hr w HwK) as [Hltw _]. unfold plt in Hltw. lia. }
  destruct (Hok K1 i w K2 EK) as [Hr _]. destruct (Hr v HvK) as [_ Hrule].
  destruct Hrule as (r3 & b3 & Hr3 & Hm3 & Hb3); [done|done|congruence|congruence|congruence|].
  rewrite Ev in Hm3. rewrite Bv in Hb3. apply Hb3. apply (IH K1 Hlen _ r3 b3 EK); [lia|exact Hm3].
Qed.

Lemma agreement_le L r b r' b' :
  log_ok L → backed L PrecommitType height r b → backed L PrecommitType height r' b' →
  bid_Hash b ≠ [] → bid_Hash b' ≠ [] → r ≤ r' → bid_Hash b' = bid_Hash b.
Proof.
  intros Hok Hc Hc' Hne Hne' Hle.
  destruct (Hc eq_refl) as (Q & HQ & Hq). destruct (Hc' eq_refl) as (Q' & HQ' & Hq').
  destruct (quorum_meet vals faulty Q Q' Hpos Hfaulty HQ HQ') as (i & val & _ & Hi & Hi' & Hf).
  destruct (Hq i Hi Hf) as (v & Hv & Tv & Ev & Rv & Bv). destruct (Hq' i Hi' Hf) as (w & Hw & Tw & Ew & Rw & Bw).
  destruct (decide (r = r')) as [->|].
  - assert (v = w) as ->; [|congruence]. apply (log_same L i); [done..|].
    unfold vpos, vote_stage. by rewrite Tv, Ev, Rv, Tw, Ew, Rw.
  - apply list_elem_of_split in Hw as (L1 & L2 & ->). destruct (Hok L1 i w L2 eq_refl) as [_ Hpol].
    rewrite Bw, Ew, Rw in Hpol. specialize (Hpol Tw Hne').
    apply (no_other_polka _ r b Hok Hc Hne L1 ((i, w) :: L2) r' b' eq_refl); [lia|exact Hpol].
Qed.

(** Agreement on a log that obeys the rules. *)
Lemma log_agreement L r b r' b' :
  log_ok L → backed L PrecommitType height r b → backed L PrecommitType height r' b' →
  bid_Hash b ≠ [] → bid_Hash b' ≠ [] → bid_Hash b' = bid_Hash b.
Proof.
  intros Hok Hc Hc' Hne Hne'. destruct (decide (r ≤ r')); [by eapply agreement_le|].
  symmetry. eapply agreement_le; [done|exact Hc'|exact Hc|done|done|lia].
Qed.

End Log.

(** ** Vote sets as evidence *)

(** All votes in a vote set satisfy [B]. *)
Definition all_votes (B : Vote → Prop) (vs : VoteSet) : Prop :=
  (∀ i v, vs_votes vs !! i = Some (Some v) → B v) ∧
  (∀ key bv i v, vs_votesByBlock vs !! key = Some bv → bv_votes bv !! i = Some (Some v) → B v).

Lemma slot_insert (B : Vote → Prop) (l : list (option Vote)) n vote :
  (∀ i v, l !! i = Some (Some v) → B v) → B vote →
  ∀ i v, <[n := Some vote]> l !! i = Some (Some v) → B v.
Proof. intros Hl Hb i v [(_ & [= <-] & _)|[_ Hi]]%list_lookup_insert_Some; [done|by eapply Hl]. Qed.

Lemma copy_over_all (B : Vote → Prop) votes byBlock votes' :
  (∀ i v, votes !! i = Some (Some v) → B v) → (∀ i v, byBlock !! i = Some (Some v) → B v) →
  copy_over votes byBlock = Ret votes' → ∀ i v, votes' !! i = Some (Some v) → B v.
Proof.
  intros Hv Hb. unfold copy_over. generalize (length byBlock) 0%nat. intros n.
  revert votes Hv. induction n as [|n IH]; intros votes Hv start; cbn [for_range]; [by intros [= <-]|].
  intros (votes1 & (o & Eo & E)%bind_Ret & E')%bind_Ret. eapply IH; [|exact E'].
  destruct o as [w|]; [|by injection E as <-]. apply slice_set_Ret in E as [_ ->]. apply slot_insert; [done|].
  apply or_panic_Ret in Eo. rewrite slice_lookup_nat in Eo. by eapply Hb.
Qed.

Section AddVote.
Context `{Codec} `{Crypto}.

Lemma add_canonical_all B vs vote key pw vs' c :
  all_votes B vs → B vote → add_canonical vs vote key pw = Ret (vs', c) → all_votes B vs'.
Proof.
  intros [H1 H2] Hb (o & _ & E)%bind_Ret. destruct o as [e|].
  - destruct (BlockID_Equals _ _); [done|]. destruct (match vs_maj23 vs with Some _ => _ | None => _ end);
      [|by injection E as <- _].
    apply bind_Ret in E as (votes & [_ ->]%slice_set_Ret & E). apply bind_Ret in E as ([ba u] & _ & E).
    injection E as <- _. split; [by apply slot_insert|done].
  - apply bind_Ret in E as (votes & [_ ->]%slice_set_Ret & E). apply bind_Ret in E as ([ba u] & _ & E).
    injection E as <- _. split; [by apply slot_insert|done].
Qed.

Lemma add_byBlock_all B vs vote key pw bv vs' :
  all_votes B vs → B vote → (∀ i v, bv_votes bv !! i = Some (Some v) → B v) →
  add_byBlock vs vote key pw bv = Ret vs' → all_votes B vs'.
Proof.
  intros [H1 H2] Hb Hbv ([total vals] & _ & (bv' & Eb & E)%bind_Ret)%bind_Ret.
  assert (∀ i v, bv_votes bv' !! i = Some (Some v) → B v) as Hbv'.
  { apply bind_Ret in Eb as (o & _ & Eb). destruct o; [by injection Eb as <-|].
    apply bind_Ret in Eb as ([ba u] & _ & Eb). apply bind_Ret in Eb as (votes & [_ ->]%slice_set_Ret & Eb).
    injection Eb as <-. by apply slot_insert. }
  assert (∀ k bv1 i v, <[key := bv']> (vs_votesByBlock vs) !! k = Some bv1 → bv_votes bv1 !! i = Some (Some v) → B v) as Hby.
  { intros k bv1 i v [[<- <-]|[_ Hk]]%lookup_insert_Some; [apply Hbv'|by eapply H2]. }
  cbn zeta in E. destruct (_ && _); [destruct (vs_maj23 vs)|];
    [injection E as <-; by split| |injection E as <-; by split].
  apply bind_Ret in E as (votes & Ec & E). injection E as <-. split; [|done].
  exact (copy_over_all B _ _ _ H1 Hbv' Ec).
Qed.

Lemma addVerifiedVote_all B vs vote key pw vs' added c :
  all_votes B vs → B vote → addVerifiedVote vs vote key pw = Ret (vs', added, c) → all_votes B vs' ∧ parts_ok vote.
Proof.
  intros Hall Hb (vs0 & E0 & E)%bind_Ret.
  assert (all_votes B vs0 ∧ parts_ok vote) as [H0' Hp].
  { unfold collect_parts, parts_ok in *. destruct (Z.eqb_spec (vote_Type vote) PrevoteType) as [Et|]; [|by injection E0 as <-].
    apply bind_Ret in E0 as (ps & Eps%or_panic_Ret & E0).
    destruct (Z.eqb_spec (Id ps) 0) as [Ez|]; [injection E0 as <-; split; [done|]; intros _; by exists ps|].
    apply bind_Ret in E0 as (pbs & Epbs%or_panic_Ret & E0). injection E0 as <-. split; [exact Hall|].
    intros _. exists ps. split; [done|]. intros _. by exists pbs. }
  split; [|done]. clear Hall E0 vs.
  apply bind_Ret in E as ([vs1 c1] & E1 & E). pose proof (add_canonical_all _ _ _ _ _ _ _ H0' Hb E1) as H1'.
  assert (∀ bv, (∀ i v, bv_votes bv !! i = Some (Some v) → B v) →
    ∀ vs2, add_byBlock vs1 vote key pw bv = Ret vs2 → all_votes B vs2) as Hadd.
  { intros bv Hbv vs2 E2. by eapply add_byBlock_all. }
  destruct (vs_votesByBlock vs1 !! key) as [bv|] eqn:Ebv.
  - assert (∀ i v, bv_votes bv !! i = Some (Some v) → B v) as Hbv by (intros i v; by eapply H1').
    destruct c1; [destruct (negb _); [by injection E as <- _ _|]|];
      apply bind_Ret in E as (vs2 & E2 & E); injection E as <- _ _; by eapply Hadd.
  - destruct c1; [by injection E as <- _ _|]. cbn zeta in E. apply bind_Ret in E as (vs2 & E2 & E).
    injection E as <- _ _. eapply Hadd; [|exact E2]. intros i v [? _]%lookup_replicate. done.
Qed.

(** What adding a vote does, if it returns: nothing, or the vote passed
    the checks and the invariant is kept. *)
Lemma addVote_all B vs vote vs' added err :
  vs_inv vs → all_votes B vs → B vote → bid_ok (vote_BlockID vote) = true →
  addVote vs (Some vote) = Ret (vs', added, err) →
  vs_inv vs' ∧ params_of vs' = params_of vs ∧ all_votes B vs'.
Proof.
  intros Hinv Hall Hb Hbid E.
  assert (vs' = vs ∨ parts_ok vote ∧ all_votes B vs') as [->|[Hp Hall']]; [|done|].
  { unfold addVote in E. cbn zeta in E.
    destruct (_ <? 0); [injection E as <- _ _; by left|]. destruct (_ =? 0); [injection E as <- _ _; by left|].
    destruct (_ || _); [injection E as <- _ _; by left|].
    destruct (ValidatorSet.GetByIndex _ _) as [addr [val|]]; [|injection E as <- _ _; by left].
    destruct (negb _); [injection E as <- _ _; by left|]. apply bind_Ret in E as (known & _ & E).
    destruct known; [destruct (bytes_equal _ _); injection E as <- _ _; by left|].
    destruct (Vote_Verify _ _ _); [injection E as <- _ _; by left|].
    apply bind_Ret in E as ([[vs1 a1] c1] & E1 & E).
    destruct (addVerifiedVote_all _ _ _ _ _ _ _ _ Hall Hb E1) as [Ha Hp].
    destruct c1; [injection E as <- _ _; by right|]. destruct (negb a1); [done|]. injection E as <- _ _. by right. }
  destruct (addVote_ok vs vote Hinv Hp Hbid) as (vs2 & a2 & e2 & E2 & Hi2 & HP2 & _).
  rewrite E in E2. injection E2 as <- _ _. done.
Qed.

End AddVote.

(** The validators whose vote is signed for a block. *)
Definition signers `{Codec} `{Crypto} (vals : list Validator) (chainID : bytes) (b : BlockID) (votes : list (option Vote)) (i : nat) : bool :=
  match vals !! i, votes !! i with Some val, Some o => signed chainID b val o | _, _ => false end.

Lemma signers_power `{Codec} `{Crypto} vals chainID b votes :
  power_of vals (signers vals chainID b votes) = signed_power vals chainID b votes.
Proof.
  unfold signed_power. revert votes. induction vals as [|val vals IH]; intros [|o votes]; cbn [power_of zip]; [done..| |].
  - rewrite sumZ_nil. cbn. specialize (IH []). rewrite zip_with_nil_r, sumZ_nil in IH.
    etrans; [|exact IH]. f_equal.
  - change (zip (val :: vals) (o :: votes)) with ((val, o) :: zip vals votes). rewrite sumZ_cons, <-IH. done.
Qed.

Section Evidence.
Context `{Codec} `{Crypto} `{!CodecLaws}.
Context (valSet : ValidatorSet) (chainID : bytes) (height : Z) (faulty : nat → bool).
Context (Hwf : ValidatorSet.wf valSet) (Hne : Validators valSet ≠ []).

Notation vals := (Validators valSet).

(** A signature of an honest validator was made by it. *)
Definition honest_signed (L : log) (vote : Vote) : Prop :=
  ∀ i val, vals !! i = Some val → faulty i = false →
    VerifyBytes (val_PubKey val) (Vote_SignBytes chainID vote) (vote_Signature vote) = true →
    ∃ w, (i, w) ∈ L ∧ Vote_SignBytes chainID w = Vote_SignBytes chainID vote.

Record vs_backed (L : log) (r t : Z) (vs : VoteSet) : Prop := {
  vb_inv : vs_inv vs;
  vb_params : params_of vs = mkParams chainID height r t vals;
  vb_votes : all_votes (honest_signed L) vs
}.

(** The vote sets of height [height] hold votes that were sent. *)
Definition hvs_backed (L : log) (h : Z) (hvs : HeightVoteSet) : Prop :=
  h = height → hvs_chainID hvs = chainID ∧ hvs_height hvs = height ∧ hvs_valSet hvs = valSet ∧
    ∀ r t vs, getVoteSet hvs r t = Ret (Some vs) → vs_backed L r t vs.

Lemma honest_signed_mono L L' v : (∀ x, x ∈ L → x ∈ L') → honest_signed L v → honest_signed L' v.
Proof. intros Hsub HL i val Hv Hf Hs. destruct (HL i val Hv Hf Hs) as (w & Hw & E). exists w. auto. Qed.

Lemma hvs_backed_mono L L' h hvs : (∀ x, x ∈ L → x ∈ L') → hvs_backed L h hvs → hvs_backed L' h hvs.
Proof.
  intros Hsub HL Hh. destruct (HL Hh) as (A & B & C & D). split_and!; [done..|]. intros r t vs E.
  destruct (D r t vs E) as [I P [V1 V2]]. split; [done..|]. split.
  - intros i v Hv. eapply honest_signed_mono; [done|by eapply V1].
  - intros key bv i v Hk Hv. eapply honest_signed_mono; [done|by eapply V2].
Qed.

(** A majority of a vote set is a quorum that sent the vote. *)
Lemma vs_backed_maj L r t vs b :
  vs_backed L r t vs → vs_maj23 vs = Some b → backed vals faulty height L t height r b.
Proof.
  intros [Hinv HP [Hv _]] Hm _. unfold params_of in HP. injection HP as Ec Eh Er Et Ev.
  destruct (maj_signed vs b Hinv Hm) as [Hq _]. rewrite Ec, Ev in Hq.
  exists (signers vals chainID b (vs_votes vs)). split.
  - unfold is_quorum. rewrite signers_power. unfold quorum in Hq. pose proof (wf_total _ Hwf).
    assert (0 ≤ power vals) by (apply sumZ_nonneg; intros v Hin; pose proof (wf_power _ Hwf v Hin); lia).
    apply twoThirds_spec; lia.
  - intros i Hi Hf. unfold signers in Hi. destruct (vals !! i) as [val|] eqn:Eval; [|done].
    destruct (vs_votes vs !! i) as [[v|]|] eqn:Evote; [|done..].
    unfold signed in Hi. apply andb_true_iff in Hi as [Hb%BlockID_Equals_spec Hs].
    destruct (Hv i v Evote i val Eval Hf Hs) as (w & Hw & Esb).
    apply Vote_SignBytes_inj in Esb as (_ & T & Hh & R & B & _).
    destruct (inv_good _ _ _ _ _ _ (vs_core _ Hinv) i v Evote) as [_ _ G1 G2 G3 _]. cbn in G1, G2, G3.
    exists w. split_and!; congruence.
Qed.

Lemma hvs_backed_maj L h hvs t r b :
  hvs_backed L h hvs → hvs_maj hvs t r b → backed vals faulty height L t h r b.
Proof.
  intros HL (vs & Eg & Em) Hh. destruct (HL Hh) as (_ & _ & _ & D). subst h.
  by apply (vs_backed_maj L r t vs b (D _ _ _ Eg) Em).
Qed.

Lemma new_backed L r t vs : NewVoteSet chainID height r t valSet = Ret vs → vs_backed L r t vs.
Proof.
  intros E. split; [by eapply new_inv| |]; unfold NewVoteSet in E; destruct (height =? 0); try done;
    injection E as <-; [done|]. split.
  - intros i v [? _]%lookup_replicate. done.
  - intros key bv i v Hk. cbn in Hk. by rewrite lookup_empty in Hk.
Qed.

Lemma addRound_backed L h hvs r hvs' : hvs_backed L h hvs → addRound hvs r = Ret hvs' → hvs_backed L h hvs'.
Proof.
  intros HL. unfold addRound. destruct (hvs_roundVoteSets hvs !! r) eqn:E; [done|].
  intros (pv & E1 & (pc & E2 & E3)%bind_Ret)%bind_Ret. injection E3 as <-. intros Hh.
  destruct (HL Hh) as (A & B & C & D). rewrite A, B, C in E1, E2. split_and!; [done..|].
  intros r' t vs. unfold getVoteSet. cbn [hvs_roundVoteSets set_rounds].
  destruct (decide (r' = r)) as [->|Hne'].
  - rewrite lookup_insert_eq. destruct (Z.eqb_spec t PrevoteType) as [->|]; cbn; [intros [= <-]; by apply new_backed|].
    destruct (Z.eqb_spec t PrecommitType) as [->|]; [intros [= <-]; by apply new_backed|done].
  - rewrite lookup_insert_ne by done. apply D.
Qed.

Lemma set_round_loop_backed L h n from hvs hvs' :
  hvs_backed L h hvs → set_round_loop n from hvs = Ret hvs' → hvs_backed L h hvs'.
Proof.
  revert from hvs. induction n as [|n IH]; intros from hvs HL; cbn [set_round_loop]; [by intros [= <-]|].
  destruct (hvs_roundVoteSets hvs !! from); [by apply IH|].
  intros (h1 & E1 & E2)%bind_Ret. eapply IH; [|exact E2]. by eapply addRound_backed.
Qed.

Lemma SetRound_backed L h hvs round hvs' : hvs_backed L h hvs → SetRound hvs round = Ret hvs' → hvs_backed L h hvs'.
Proof.
  intros HL. unfold SetRound. destruct (_ && _); [done|]. intros (h1 & E1 & E2)%bind_Ret. injection E2 as <-.
  pose proof (set_round_loop_backed _ _ _ _ _ _ HL E1) as H1'. exact H1'.
Qed.

Lemma NewHeightVoteSet_backed L h hvs vs' c' :
  (h = height → vs' = valSet ∧ c' = chainID) → NewHeightVoteSet c' h vs' = Ret hvs → hvs_backed L h hvs.
Proof.
  intros Heq (h1 & E1 & E2)%bind_Ret. injection E2 as <-. intros Hh. destruct (Heq Hh) as [-> ->].
  assert (hvs_backed L h h1) as Hb; [|exact (Hb Hh)].
  eapply addRound_backed; [|exact E1]. intros _. split_and!; [done..|].
  intros r t vs. unfold getVoteSet. cbn. done.
Qed.

Lemma put_voteSet_get hvs r t vs r' t' vs' :
  (t = PrevoteType ∨ t = PrecommitType) → getVoteSet (put_voteSet hvs r t vs) r' t' = Ret (Some vs') →
  (r' = r ∧ t' = t ∧ vs' = vs) ∨ getVoteSet hvs r' t' = Ret (Some vs').
Proof.
  intros Ht. unfold put_voteSet. destruct (hvs_roundVoteSets hvs !! r) as [rvs|] eqn:E; [|by right].
  unfold getVoteSet. cbn [hvs_roundVoteSets set_rounds]. destruct (decide (r' = r)) as [->|Hne'].
  - rewrite lookup_insert_eq, E. unfold PrevoteType, PrecommitType in *. destruct Ht as [->| ->]; cbn;
      destruct (Z.eqb_spec t' 1); subst; cbn; try (intros [= <-]; naive_solver);
      destruct (Z.eqb_spec t' 2); subst; cbn; try (intros [= <-]; naive_solver); done.
  - rewrite lookup_insert_ne by done. by right.
Qed.

Lemma add_to_backed L h hvs vs vote hvs' added err :
  hvs_backed L h hvs → (vote_Type vote = PrevoteType ∨ vote_Type vote = PrecommitType) →
  getVoteSet hvs (vote_Round vote) (vote_Type vote) = Ret (Some vs) →
  honest_signed L vote → bid_ok (vote_BlockID vote) = true →
  add_to hvs (Some vs) vote = Ret (hvs', added, err) → hvs_backed L h hvs'.
Proof.
  intros HL Ht Eg Hs Hbid ([[vs1 a1] e1] & E1 & E)%bind_Ret. injection E as <- _ _. intros Hh.
  destruct (HL Hh) as (A & B & C & D). destruct (D _ _ _ Eg) as [I P V].
  destruct (addVote_all _ _ _ _ _ _ I V Hs Hbid E1) as (I1 & P1 & V1).
  assert (hvs_chainID (put_voteSet hvs (vote_Round vote) (vote_Type vote) vs1) = hvs_chainID hvs ∧
    hvs_height (put_voteSet hvs (vote_Round vote) (vote_Type vote) vs1) = hvs_height hvs ∧
    hvs_valSet (put_voteSet hvs (vote_Round vote) (vote_Type vote) vs1) = hvs_valSet hvs) as (-> & -> & ->).
  { unfold put_voteSet. by destruct (hvs_roundVoteSets hvs !! _). }
  split_and!; [done..|]. intros r t v2 [(-> & -> & ->)|Hold]%put_voteSet_get; [|by apply D|done].
  split; [done|congruence|done].
Qed.

Lemma HVS_AddVote_backed L h hvs vote peerID hvs' added err :
  hvs_backed L h hvs → honest_signed L vote → bid_ok (vote_BlockID vote) = true →
  HVS_AddVote hvs vote peerID = Ret (hvs', added, err) → hvs_backed L h hvs'.
Proof.
  intros HL Hs Hbid. unfold HVS_AddVote. destruct (IsVoteTypeValid (vote_Type vote)) eqn:Etv; cbn [negb]; [|by intros [= <- _ _]].
  assert (vote_Type vote = PrevoteType ∨ vote_Type vote = PrecommitType) as Ht.
  { unfold IsVoteTypeValid in Etv. by apply orb_true_iff in Etv as [->%Z.eqb_eq| ->%Z.eqb_eq]; [left|right]. }
  intros ([vs|] & Eg & E)%bind_Ret; [by eapply add_to_backed|].
  destruct (_ <? 2); [|by injection E as <- _ _].
  apply bind_Ret in E as (h1 & E1 & E). apply bind_Ret in E as ([vs|] & Eg1 & E); [|done].
  pose proof (addRound_backed _ _ _ _ _ HL E1) as H1'.
  eapply add_to_backed; [|exact Ht| |exact Hs|exact Hbid|exact E]; [exact H1'|exact Eg1].
Qed.

End Evidence.

(** ** The system *)

Lemma ordered_split {A} (R : A → A → Prop) l1 w l2 v : ordered R (l1 ++ w :: l2) → v ∈ l1 → R v w.
Proof.
  intros Ho [i Hi]%list_elem_of_lookup. apply (Ho i (length l1)).
  - by apply lookup_lt_Some in Hi.
  - by apply lookup_app_l_Some.
  - by apply list_lookup_middle.
Qed.

Lemma vote_rule_mono (M M' : majorities) v w :
  (∀ t h r b, M t h r b → M' t h r b) → vote_rule M v w → vote_rule M' v w.
Proof.
  intros Himp [Hp Hr]. split; [done|]. intros A B C D E.
  destruct (Hr A B C D E) as (r & b & ? & ? & ?). exists r, b. auto.
Qed.

Lemma split_app {A} (l k l1 : list A) x l2 :
  l ++ k = l1 ++ x :: l2 →
  (∃ k1, l1 = l ++ k1 ∧ k = k1 ++ x :: l2) ∨ (∃ l2', l = l1 ++ x :: l2').
Proof.
  revert l1. induction l as [|y l IH]; intros l1 E; [left; by exists l1|].
  destruct l1 as [|z l1]; cbn in E; injection E as -> E; [right; by exists l|].
  destruct (IH _ E) as [(k1 & -> & ->)|(l2' & ->)]; [left; by exists k1|right; by exists l2'].
Qed.

Lemma fmap_pair_split {A B} (a a' : A) (l : list B) k1 b k2 :
  pair a <$> l = k1 ++ (a', b) :: k2 → a' = a ∧ ∃ l1 l2, l = l1 ++ b :: l2 ∧ k1 = pair a <$> l1.
Proof.
  intros (l1 & l2 & Ek & E2 & ->)%fmap_app_inv.
  apply symmetry, fmap_cons_inv in E2 as (b' & l3 & [= -> ->] & _ & ->). split; [done|]. by exists l1, l3.
Qed.

Section System.
Context (Sum : bytes → bytes) `{Codec} `{Crypto} `{!CodecLaws} `{BlockCodec} {PV : Type} `{PrivValidatorLaws PV}.
Context (valSet : ValidatorSet) (chainID : bytes) (height : Z) (faulty : nat → bool).

Notation CS := (@ConsensusState PV).
Notation sent cs := (votes_of (cs_out cs)).

(** The state from which height [height] is entered fixes its validators. *)
Definition right_validators (st : State) : Prop :=
  st_LastBlockHeight st + 1 = height → st_Validators st = valSet ∧ st_ChainID st = chainID.

(** A node at its start: [NewConsensusState], then the first timeout scheduled by [OnStart]. *)
Definition started (cs : CS) : Prop :=
  ∃ o config pv store state cs0, NewConsensusState o config pv store state = Ret cs0 ∧ right_validators state ∧
    cs = scheduleRound0 o cs0.

(** What the network and the timers may deliver: votes for the height are basically
    valid and signatures of honest validators are not forged; timeouts were
    scheduled; a part that completes a set while the locked block is what the set will be decoded into
    brings that block again; anything else is possible. *)
Definition deliverable (L : log) (o : Oracle) (cs : CS) (i : input) : Prop :=
  match i with
  | MsgInput (BlockPartMessage _ _ part) _ => same_block Sum o cs part
  | MsgInput (VoteMessage v) _ =>
      vote_Height v = height → bid_ok (vote_BlockID v) = true ∧ honest_signed valSet chainID faulty L v
  | TimeoutInput ti => ti ∈ timeouts_of (cs_out cs)
  | _ => True
  end.

Definition new_votes (cs cs' : CS) : list Vote := drop (length (sent cs)) (sent cs').

(** The nodes, and the votes sent so far with their senders. *)
Inductive run : (nat → CS) → log → Prop :=
| run_start ns : (∀ i, started (ns i)) → run ns []
| run_receive ns L i o inp cs' :
    run ns L → receive Sum o (ns i) inp = Ret cs' → deliverable L o (ns i) inp →
    (∀ st bid b flag st', o_ApplyBlock o st bid b flag = Some st' → right_validators st') →
    run (<[i := cs']> ns) (L ++ (pair i <$> new_votes (ns i) cs')).

Notation vals := (Validators valSet).
Notation backed := (backed vals faulty height).
Notation hvs_backed := (hvs_backed valSet chainID height faulty).
Notation from cs := (pos (core_of cs), sent cs).

Context (Hwf : ValidatorSet.wf valSet) (Hne : vals ≠ []).

Record run_inv (ns : nat → CS) (L : log) : Prop := {
  ri_log : log_ok vals faulty height L;
  ri_live i : live Sum True (backed L) (hvs_backed L) (from (ns i)) (ns i);
  ri_sent i v : (i, v) ∈ L ↔ v ∈ sent (ns i)
}.

Lemma started_ok cs : started cs → live Sum True (backed []) (hvs_backed []) (from cs) cs ∧ sent cs = [].
Proof.
  intros (o & config & pv & store & state & cs0 & E & Hst & ->).
  destruct (NewConsensusState_ok Sum True (backed []) (hvs_backed []) o config pv store state cs0) as (Hl & Hs & _); [|done|].
  - intros hvs. by apply NewHeightVoteSet_backed.
  - assert (sent (scheduleRound0 o cs0) = []) as ->.
    { change (k_sent (core_of (emit cs0 (ScheduleTimeout (mkTimeoutInfo (cs_StartTime cs0 - o_now o) (cs_Height cs0) 0 RoundStepNewHeight)))) = []).
      by rewrite core_emit. }
    split; [|done]. destruct Hl as [Hinv Hst']. split; [|done]. unfold scheduleRound0, scheduleTimeout.
    rewrite core_emit. apply Inv_time; [exact Hinv|done|exact (iv_round _ _ _ _ _ _ Hinv)].
Qed.

(** One step of a node: what it adds to the log. *)
Lemma node_step ns L i o inp cs' :
  run_inv ns L → receive Sum o (ns i) inp = Ret cs' → deliverable L o (ns i) inp →
  (∀ st bid b flag st', o_ApplyBlock o st bid b flag = Some st' → right_validators st') →
  live Sum True (backed L) (hvs_backed L) (from (ns i)) cs' ∧ sent cs' = sent (ns i) ++ new_votes (ns i) cs'.
Proof.
  intros [Hlog Hlive Hsent] E Hdel Happ.
  assert (live Sum True (backed L) (hvs_backed L) (from (ns i)) cs') as Hl.
  { eapply (receive_ok Sum True (backed L) (hvs_backed L)); [| |by apply Hlive| | |exact E].
    - intros h hvs t r b Hb Hm. by eapply hvs_backed_maj.
    - intros h hvs round hvs' Hb _ Es. by eapply SetRound_backed.
    - intros st bid b flag st' hvs Ea En. eapply NewHeightVoteSet_backed; [done|done| |exact En]. by eapply Happ.
    - destruct inp as [[p|h r part|v] peer|ti|]; cbn in Hdel |- *; try done.
      intros hvs hvs' added err Hb Hh Ea Hh'. destruct Hdel as [Hbid Hs]; [congruence|].
      revert Hh'. by eapply HVS_AddVote_backed. }
  split; [done|]. destruct (iv_base _ _ _ _ _ _ (proj1 Hl)) as [vs Evs]. cbn in Evs. unfold new_votes. rewrite Evs.
  by rewrite drop_app_length.
Qed.

Lemma log_ok_step ns L i cs' :
  run_inv ns L → live Sum True (backed L) (hvs_backed L) (from (ns i)) cs' → sent cs' = sent (ns i) ++ new_votes (ns i) cs' →
  log_ok vals faulty height (L ++ (pair i <$> new_votes (ns i) cs')).
Proof.
  intros [Hlog Hlive Hsent] [Hinv _] Es L1 i' w L2 EL.
  apply split_app in EL as [(K & -> & EK)|(L2' & ->)]; [|by apply (Hlog L1 i' w L2')].
  apply fmap_pair_split in EK as (-> & vs1 & vs2 & Evs & ->). rewrite Evs in Es.
  assert (∀ t h r b, backed L t h r b → backed (L ++ (pair i <$> vs1)) t h r b) as Hmono.
  { intros t h r b. apply backed_mono. set_solver. }
  assert (sent cs' = (sent (ns i) ++ vs1) ++ w :: vs2) as Es' by (by rewrite Es, <-app_assoc). split.
  - intros v Hv. apply (vote_rule_mono (backed L)); [exact Hmono|].
    pose proof (iv_order _ _ _ _ _ _ Hinv I) as Ho. cbn in Ho. rewrite Es' in Ho. apply (ordered_split _ _ _ _ _ Ho).
    apply elem_of_app. apply elem_of_app in Hv as [Hv|Hv]; [left; by apply Hsent|right].
    apply list_elem_of_fmap in Hv as (v' & [= ->] & Hv). done.
  - intros Ht Hnil. apply Hmono. apply (iv_polka _ _ _ _ _ _ Hinv w); [|done|done]. cbn. rewrite Es'. set_solver.
Qed.

Lemma system_ok ns L : run ns L → run_inv ns L.
Proof.
  induction 1 as [ns Hst|ns L i o inp cs' _ IH E Hdel Happ].
  - split.
    + intros L1 i w L2 EL. by destruct L1.
    + intros i. by apply started_ok.
    + intros i v. destruct (started_ok _ (Hst i)) as [_ ->]. split; intros Hv; by apply elem_of_nil in Hv.
  - destruct (node_step _ _ _ _ _ _ IH E Hdel Happ) as [Hl Es]. pose proof (log_ok_step _ _ _ _ IH Hl Es) as Hlog'.
    destruct IH as [Hlog Hlive Hsent]. split; [done| |].
    + intros j.
      assert (∀ k lo, Inv Sum True (backed L) (hvs_backed L) lo k →
        Inv Sum True (backed (L ++ (pair i <$> new_votes (ns i) cs'))) (hvs_backed (L ++ (pair i <$> new_votes (ns i) cs'))) lo k) as Hmono.
      { intros k lo. apply Inv_mono; [intros t h r b; apply backed_mono; set_solver|].
        intros hvs. apply hvs_backed_mono. set_solver. }
      destruct (decide (j = i)) as [->|Hji].
      * rewrite fn_lookup_insert. destruct Hl as [Hl1 Hl2]. split; [|done].
        apply Hmono. eapply Inv_from. exact Hl1.
      * rewrite fn_lookup_insert_ne by done. destruct (Hlive j) as [Hl1 Hl2]. split; [by apply Hmono|done].
    + intros j v. rewrite elem_of_app, list_elem_of_fmap, Hsent. destruct (decide (j = i)) as [->|Hji].
      * rewrite fn_lookup_insert, Es, elem_of_app. naive_solver.
      * rewrite fn_lookup_insert_ne by done. naive_solver.
Qed.

Lemma run_saved ns L i b :
  run ns L → (height, b) ∈ saved_of (cs_out (ns i)) →
  ∃ r bid, backed L PrecommitType height r bid ∧ bid_Hash bid = block_hash Sum (Some b) ∧ bid_Hash bid ≠ [].
Proof.
  intros Hrun%system_ok Hb. destruct (iv_saved _ _ _ _ _ _ (proj1 (ri_live _ _ Hrun i)) height b Hb) as (r & bid & A & B & C).
  exists r, bid. split_and!; [done..|congruence].
Qed.

(** C1. Agreement: in every run of any number of nodes that execute the state machine's [receive],
    with validators holding less than a third of the power of the height faulty and the network
    delivering anything but forged signatures and parts that overwrite a locked block with another, two nodes
    that save a block at the same height save blocks with the same hash. The exception is about one case:
    a set of parts becomes complete while [ProposalBlock] is already there and is the pointer [LockedBlock] (the set was
    replaced because a majority of prevotes has the same block hash with another part set header), and the block decoded
    in place has another hash. *)
Theorem agreement (ns : nat → CS) (L : log) (i j : nat) (b b' : Block) :
  3 * power_of vals faulty < power vals → run ns L →
  (height, b) ∈ saved_of (cs_out (ns i)) → (height, b') ∈ saved_of (cs_out (ns j)) →
  block_hash Sum (Some b) = block_hash Sum (Some b').
Proof.
  intros Hf Hrun Hi Hj.
  destruct (run_saved _ _ _ _ Hrun Hi) as (r & bid & A & B & C). destruct (run_saved _ _ _ _ Hrun Hj) as (r' & bid' & A' & B' & C').
  rewrite <-B, <-B'. symmetry.
  by apply (log_agreement vals faulty height (wf_power _ Hwf) Hf L r bid r' bid' (ri_log _ _ (system_ok _ _ Hrun))).
Qed.

(** C2. Accountability of one node: in every run (with the same exception: no complete set of parts is decoded in place
    over the locked block with a block of another hash), among the votes a node has sent, no
    two are for the same height, round and type; they come in the order of heights, rounds and
    types; every precommit for a block was preceded by a two-thirds majority of prevotes for it in that round; and
    after a precommit for a block the node prevotes for something else at that height only if
    a later round (not after that prevote's) had a majority of prevotes for something else. *)
Theorem votes_obey_lock (ns : nat → CS) (L : log) (i : nat) :
  run ns L →
  ordered (vote_rule (backed L)) (sent (ns i)) ∧
  ∀ v, v ∈ sent (ns i) → vote_Type v = PrecommitType → bid_Hash (vote_BlockID v) ≠ [] →
    backed L PrevoteType (vote_Height v) (vote_Round v) (vote_BlockID v).
Proof.
  intros Hrun%system_ok. destruct (ri_live _ _ Hrun i) as [Hinv _].
  split; [exact (iv_order _ _ _ _ _ _ Hinv I)|exact (iv_polka _ _ _ _ _ _ Hinv)].
Qed.

End System.
