(* ===== verification/Node.v ===== *)
(** * A node with the file signer, and two of them running

    privval/file.go implements the signer that the state machine asks for; its laws are proved
    here from the definitions of [PrivVal]. With it, two validators execute a height from the first timeout to
    the saved block, and the theorems of [Agreement] and [ConsensusProofs] are applied to that run. *)

From Stdlib Require Import ZArith Lia List Bool Strings.Byte.
From stdpp Require Import base list gmap functions.
From S2P Require Import Prelude Merkle Types ValidatorSet ValidatorUpdates VerifyCommit VoteSet HeightVoteSet PartSet.
From S2P Require Import PrivVal Block StateStore BlockStore Consensus ConsensusProofs Agreement.
Local Open Scope Z_scope.
Local Open Scope list_scope.

Section FileSigner.
Context `{Codec} `{Crypto} `{Signer} `{PVCodec} (write_ok : bool) (now : Z).

(** [FilePV] with its files as a [types.PrivValidator]. *)
Instance FilePV_PrivValidator : PrivValidator world := {|
  pv_GetAddress w := key_Address (pv_Key (w_pv w));
  pv_SignVote w chainID vote :=
    '(pv, d, vote, err) ← SignVote (w_disk w) write_ok now (w_pv w) chainID vote;
    Ret (mkWorld pv d, match err with None => Some vote | Some _ => None end);
  pv_SignProposal w chainID proposal :=
    '(pv, d, proposal, err) ← SignProposal (w_disk w) write_ok now (w_pv w) chainID proposal;
    Ret (mkWorld pv d, match err with None => Some proposal | Some _ => None end);
  pv_SigCrossMerkleRoot w merkleRoot blockHash vote :=
    vote ← SigCrossMerkleRoot (w_pv w) merkleRoot blockHash vote; Ret (vote, false)
|}.

Lemma FilePV_laws : PrivValidatorLaws (PV := world).
Proof.
  split.
  - intros w c v w' v' ([[[pv d] v1] err] & E & E')%bind_Ret. destruct err; [done|]. injection E' as _ <-.
    apply bind_Ret in E as (step & _ & E). apply bind_Ret in E as ([same err] & _ & E).
    destruct err; [done|]. cbn zeta in E. destruct same.
    + destruct (bytes_equal _ _); [by injection E as _ _ <-|]. apply bind_Ret in E as ([t ok] & _ & E).
      destruct ok; by injection E as _ _ <-.
    + destruct (Sign _ _); [|done]. apply bind_Ret in E as ([pv1 d1] & _ & E). by injection E as _ _ <-.
  - intros w m h v v' err (v1 & E & E')%bind_Ret. injection E' as <- <-. split; [done|].
    unfold SigCrossMerkleRoot in E. destruct (Sign _ h); [|by injection E as <-].
    apply bind_Ret in E as (s & _ & E). cbn zeta in E. destruct (Sign _ m); [|by injection E as <-].
    apply bind_Ret in E as (s' & _ & E). by injection E as <-.
Qed.

End FileSigner.

(** ** Two validators *)

Section Sample.
#[local] Existing Instance sample_codec.
#[local] Existing Instance sample_codec_laws.
#[local] Existing Instance sample_crypto.
#[local] Existing Instance sample_block_codec.
#[local] Existing Instance sample_pvcodec.

#[local] Instance key_signer : Signer := {| Sign k m := Some (k ++ m); PubKeyOf k := k |}.
#[local] Instance key_validator : PrivValidator world := FilePV_PrivValidator true 9.
#[local] Instance key_laws : PrivValidatorLaws (PV := world) := FilePV_laws true 9.

Definition two_vals : ValidatorSet := st_Validators gen_state.

Definition key_world (k : byte) : world :=
  let pv := GenFilePV [k] [x6b; k] [x73; k] in
  mkWorld pv (ret_or (Save ∅ true pv) ∅).

Definition round_config : ConsensusConfig := mkConfig 3000 500 1000 500 1000 500 1000 false true 0.

Definition empty_store : BlockStore := NewBlockStore (mkBlockDB ∅ ∅ ∅ ∅ None).

Definition proposed_block : Block :=
  let b := MakeBlock pad32 [x41] 1 sample_txs (Some (NewCommit zeroBlockID [])) [] [] in
  with_header b (Populate (blk_Header b) (mkVersion 1 1) [x63] 9 zeroBlockID 3
    (replicate 32 x07) (replicate 32 x08) (replicate 32 x09) [x01] [] (replicate 20 x05)).

Definition proposed_parts : PartSet :=
  ret_or (NewPartSetFromData pad32 (marshalBlock proposed_block) 1) (mkPartSet 0 [] [] None 0).

(** The other components: every transaction decodes to an ordinary one, the
    application answers with the state of height 1. *)
Definition sample_oracle : Oracle := {|
  o_now := 20;
  o_CreateProposalBlock _ _ _ _ := Some (proposed_block, proposed_parts);
  o_ApplyBlock _ _ _ _ := Some state1;
  o_unmarshalBlock _ _ _ := (Some proposed_block, false);
  o_NewTX _ := Some (mkTX DeliverTx 0 []);
  o_VerifySig _ := true;
  o_ParsePackages _ := [];
  o_checkpoint _ := None;
  o_packs := false;
  o_aggregated := true;
  o_SignatureRecovery _ _ := None;
  o_ParseId := 1
|}.

#[local] Instance timeoutInfo_eq_dec : EqDecision timeoutInfo.
Proof. solve_decision. Defined.

Notation CS := (@ConsensusState world).

Definition is_ret {A} (m : outcome A) : bool := match m with Ret _ => true | Panic => false end.

Lemma is_ret_eq {A} (m : outcome A) d : is_ret m = true → m = Ret (ret_or m d).
Proof. by destruct m. Qed.

Definition no_node : CS :=
  mkCS 0 0 0 0 0 empty_vals None None None 0 None None 0 None None None 0 None empty_vals false round_config None
    empty_store None [] (mkRefs 0 0 0 0 0 0 1).

Definition new_node (k : byte) : outcome CS :=
  NewConsensusState sample_oracle round_config (Some (key_world k)) empty_store gen_state.

(** Nodes 0 and 1 hold the keys of the validators. *)
Definition node_key (i : nat) : byte := match i with 0%nat => x01 | 1%nat => x02 | _ => x03 end.

Definition first_nodes (i : nat) : CS := scheduleRound0 sample_oracle (ret_or (new_node (node_key i)) no_node).

Definition all_honest (i : nat) : bool := false.

Notation run := (run pad32 two_vals [x63] 1 all_honest).
Notation deliverable := (deliverable pad32 two_vals [x63] 1 all_honest).

(** What may be delivered, decided. *)
Definition deliverable_b (L : list (nat * Vote)) (cs : CS) (i : input) : bool :=
  match i with
  | MsgInput (VoteMessage v) _ =>
      bid_ok (vote_BlockID v) &&
      forallb (λ p, implb (VerifyBytes (val_PubKey p.2) (Vote_SignBytes [x63] v) (vote_Signature v))
        (existsb (λ e, Nat.eqb e.1 p.1 && bytes_equal (Vote_SignBytes [x63] e.2) (Vote_SignBytes [x63] v)) L))
        (imap pair (Validators two_vals))
  | MsgInput (BlockPartMessage _ _ _) _ => match cs_LockedBlock cs with Some _ => false | None => true end
  | TimeoutInput ti => bool_decide (ti ∈ timeouts_of (cs_out cs))
  | _ => true
  end.

Lemma imap_pair_In {A} (l : list A) i x : l !! i = Some x → In (i, x) (imap pair l).
Proof. intros Hi. apply list_elem_of_In, list_elem_of_lookup. exists i. by rewrite list_lookup_imap, Hi. Qed.

Lemma deliverable_b_ok L o cs i : deliverable_b L cs i = true → deliverable L o cs i.
Proof.
  destruct i as [[p|h r part|v] peer|ti|]; cbn [deliverable_b Agreement.deliverable]; [by intros _| | | |by intros _].
  - destruct (cs_LockedBlock cs) eqn:El; [done|]. intros _ ps b failed lb _ _ _ _ Eb. congruence.
  - intros [Hb Hall]%andb_true_iff _. split; [done|]. intros i val Hv _ Hs. rewrite forallb_forall in Hall.
    specialize (Hall (i, val)). cbn [fst snd] in Hall. rewrite Hs in Hall. cbn [implb] in Hall.
    rewrite existsb_exists in Hall. destruct Hall as ([j w] & Hin & [Ej%Nat.eqb_eq E%bytes_equal_true]%andb_true_iff).
    + exact (imap_pair_In _ _ _ Hv).
    + cbn [fst] in Ej. subst j. exists w. split; [by apply list_elem_of_In|done].
  - apply bool_decide_eq_true.
Qed.

(** Scripts: each line chooses a node and its next input from what the system has done. *)
Notation sys := ((nat → CS) * list (nat * Vote))%type.

Definition sys_step (s : sys) (e : nat * input) : sys :=
  let cs := s.1 e.1 in
  let cs' := ret_or (receive pad32 sample_oracle cs e.2) cs in
  (<[e.1 := cs']> s.1, s.2 ++ (pair e.1 <$> new_votes cs cs')).

Fixpoint exec (s : sys) (script : list (sys → nat * input)) : sys * bool :=
  match script with
  | [] => (s, true)
  | line :: script' =>
      let e := line s in
      let ok := is_ret (receive pad32 sample_oracle (s.1 e.1) e.2) && deliverable_b s.2 (s.1 e.1) e.2 in
      let '(s', ok') := exec (sys_step s e) script' in (s', ok && ok')
  end.

Lemma exec_run script s : run s.1 s.2 → (exec s script).2 = true → run (exec s script).1.1 (exec s script).1.2.
Proof.
  revert s. induction script as [|line script IH]; intros s Hrun; cbn [exec]; [done|].
  specialize (IH (sys_step s (line s))). destruct (exec (sys_step s (line s)) script) as [s' ok'].
  cbn [fst snd] in *. intros [[Hret Hdel]%andb_true_iff Hok]%andb_true_iff. apply IH; [|done].
  unfold sys_step. cbn [fst snd]. apply (run_receive _ _ _ _ _ s.1 s.2 _ sample_oracle (line s).2); [done| | |].
  - by apply is_ret_eq.
  - by apply deliverable_b_ok.
  - intros st bid b flag st' [= <-]. intros Hh. exfalso. vm_compute in Hh. discriminate.
Qed.

Definition messages (cs : CS) : list ConsensusMessage :=
  omap (λ e, match e with SendInternal m => Some m | _ => None end) (cs_out cs).

(** The [n]-th message of node [i] is delivered to node [j]. *)
Definition deliver (i n j : nat) (s : sys) : nat * input :=
  (j, match messages (s.1 i) !! n with Some m => MsgInput m [node_key i] | None => TxsAvailable end).

Definition first_timeout (i : nat) (s : sys) : nat * input :=
  (i, TimeoutInput (mkTimeoutInfo 1000 1 0 RoundStepNewHeight)).

(** Node 0 proposes a block of two parts; both nodes prevote, precommit and commit. *)
Definition height_script : list (sys → nat * input) :=
  [first_timeout 0; first_timeout 1;
   deliver 0 0 0; deliver 0 0 1; deliver 0 1 0; deliver 0 1 1; deliver 0 2 0; deliver 0 2 1;
   deliver 0 3 0; deliver 0 3 1; deliver 1 0 0; deliver 1 0 1;
   deliver 0 4 0; deliver 0 4 1; deliver 1 1 0; deliver 1 1 1].

Definition final : sys := (exec (first_nodes, []) height_script).1.

Lemma two_vals_wf : ValidatorSet.wf two_vals ∧ Validators two_vals ≠ [].
Proof.
  apply (NewValidatorSet_wf [NewValidator [x01] 10; NewValidator [x02] 10]); [done|]. vm_compute. reflexivity.
Qed.

Lemma first_run : run first_nodes [].
Proof.
  apply run_start. intros i. exists sample_oracle, round_config, (Some (key_world (node_key i))), empty_store, gen_state,
    (ret_or (new_node (node_key i)) no_node). split; [|split; [by intros _|done]].
  apply is_ret_eq. destruct i as [|[|i]]; vm_compute; reflexivity.
Qed.

Lemma final_run : run final.1 final.2.
Proof. apply (exec_run height_script (first_nodes, []) first_run). vm_compute. reflexivity. Qed.

Definition saved_block (i : nat) : Block := default proposed_block (snd <$> head (saved_of (cs_out (final.1 i)))).

Lemma saved_at (i : nat) : (i < 2)%nat → (1, saved_block i) ∈ saved_of (cs_out (final.1 i)).
Proof.
  intros Hi. apply list_elem_of_lookup. exists 0%nat. destruct i as [|[|i]]; [vm_compute; reflexivity..|lia].
Qed.

Lemma agreement_witness : block_hash pad32 (Some (saved_block 0)) = block_hash pad32 (Some (saved_block 1)).
Proof.
  apply (agreement pad32 two_vals [x63] 1 all_honest (proj1 two_vals_wf) (proj2 two_vals_wf) final.1 final.2 0 1).
  - vm_compute. reflexivity.
  - exact final_run.
  - apply saved_at. lia.
  - apply saved_at. lia.
Defined.

Lemma votes_obey_lock_witness : ordered (vote_rule (backed (Validators two_vals) all_honest 1 final.2)) (votes_of (cs_out (final.1 0%nat))).
Proof.
  exact (proj1 (votes_obey_lock pad32 two_vals [x63] 1 all_honest (proj1 two_vals_wf) (proj2 two_vals_wf) final.1 final.2 0%nat
    final_run)).
Defined.

Definition first_round : CS := ret_or (receive pad32 sample_oracle (first_nodes 0) (first_timeout 0 (first_nodes, [])).2) no_node.

Lemma first_round_eq : receive pad32 sample_oracle (first_nodes 0) (first_timeout 0 (first_nodes, [])).2 = Ret first_round.
Proof. apply is_ret_eq. vm_compute. reflexivity. Qed.

Lemma receive_forward_witness : ple (pos (core_of (first_nodes 0))) (pos (core_of first_round)).
Proof.
  refine (proj1 (receive_forward pad32 sample_oracle (first_nodes 0) first_round (first_timeout 0 (first_nodes, [])).2 _ _
    first_round_eq)).
  - apply (reach_start _ sample_oracle round_config (Some (key_world x01)) empty_store gen_state).
    apply is_ret_eq. vm_compute. reflexivity.
  - vm_compute. left.
Defined.

End Sample.
