(* ===== verification/Failures.v ===== *)
(** * consensus/state.go: inputs that stop a node

    [receiveRoutine] recovers from a panic by logging it and stopping the consensus. Each theorem here shows a
    state the machine reaches and an input, possible in practice, on which it panics. *)

From Stdlib Require Import ZArith Lia List Bool Strings.Byte.
From stdpp Require Import base list gmap functions.
From S2P Require Import Prelude Merkle Types ValidatorSet VerifyCommit VoteSet HeightVoteSet PartSet.
From S2P Require Import PrivVal Block StateStore BlockStore Consensus ConsensusProofs Agreement Node.
Local Open Scope Z_scope.
Local Open Scope list_scope.

#[local] Existing Instance sample_codec.
#[local] Existing Instance sample_crypto.
#[local] Existing Instance sample_block_codec.
#[local] Existing Instance key_validator.
#[local] Existing Instance key_laws.
#[local] Existing Instance timeoutInfo_eq_dec.

Notation CS := (@ConsensusState world).

Definition timely_b (cs : CS) (i : input) : bool :=
  match i with TimeoutInput ti => bool_decide (ti ∈ timeouts_of (cs_out cs)) | _ => true end.

(** A node handles inputs one after the other; each is chosen from its state. *)
Fixpoint play (o : Oracle) (cs : CS) (l : list (CS → input)) : CS * bool :=
  match l with
  | [] => (cs, true)
  | line :: l' =>
      let i := line cs in
      let '(cs', ok) := play o (ret_or (receive pad32 o cs i) cs) l' in
      (cs', is_ret (receive pad32 o cs i) && timely_b cs i && ok)
  end.

Lemma play_reach o l cs : reach pad32 cs → (play o cs l).2 = true → reach pad32 (play o cs l).1.
Proof.
  revert cs. induction l as [|line l IH]; intros cs Hr; cbn [play]; [done|].
  specialize (IH (ret_or (receive pad32 o cs (line cs)) cs)).
  destruct (play o (ret_or (receive pad32 o cs (line cs)) cs) l) as [cs' ok]. cbn [fst snd] in *.
  intros [[Hret Ht]%andb_true_iff Hok]%andb_true_iff. apply IH; [|done].
  apply (reach_receive _ o cs (line cs)); [done| |by destruct (receive _ _ _ _)].
  destruct (line cs); [done| |done]. cbn [timely_b timely] in *. by apply bool_decide_eq_true in Ht.
Qed.

Definition node0 : CS := first_nodes 0.

Lemma node0_reach : reach pad32 node0.
Proof.
  apply (reach_start _ sample_oracle round_config (Some (key_world x01)) empty_store gen_state).
  apply is_ret_eq. vm_compute. reflexivity.
Qed.

Definition timeout (duration round step : Z) (cs : CS) : input := TimeoutInput (mkTimeoutInfo duration 1 round step).

(** The node's own [n]-th message comes back. *)
Definition own (n : nat) (cs : CS) : input :=
  match messages cs !! n with Some m => MsgInput m [] | None => TxsAvailable end.

(** The second validator votes as the node did in its [n]-th message. *)
Definition echo (n : nat) (cs : CS) : input :=
  match messages cs !! n with
  | Some (VoteMessage v) =>
      let vote sig := mkVote (vote_Type v) (vote_Height v) (vote_Round v) (vote_BlockID v) 20 [x02] 1 sig
        (vote_PartSig v) (vote_PartBlockSig v) in
      MsgInput (VoteMessage (vote (x02 :: Vote_SignBytes [x63] (vote [])))) [x02]
  | _ => TxsAvailable
  end.

(** A precommit of the second validator for nothing. *)
Definition nil_precommit (cs : CS) : input :=
  let vote sig := mkVote PrecommitType 1 0 zeroBlockID 20 [x02] 1 sig None None in
  MsgInput (VoteMessage (vote (x02 :: Vote_SignBytes [x63] (vote [])))) [x02].

(** The node proposes, both validators prevote, the node precommits. *)
Definition locking : list (CS → input) :=
  [timeout 1000 0 RoundStepNewHeight; own 0; own 1; own 2; own 3; echo 3; own 4].

(** ** A lock without a proposal *)

Definition locked_script : list (CS → input) := locking ++ [nil_precommit; timeout 1000 0 RoundStepPrecommitWait].

Definition locked_node : CS := (play sample_oracle node0 locked_script).1.

Section Locked.
Context (Sum : bytes → bytes) `{Codec} `{Crypto} `{BlockCodec} {PV : Type} `{PrivValidator PV}.

(** Prevoting for a block when there is no proposal block. *)
Lemma prevote_without_proposal o (cs : @ConsensusState PV) pv hash header :
  cs_ProposalBlock cs = None → hash ≠ [] → cs_privValidator cs = Some pv →
  HasAddress (cs_Validators cs) (pv_GetAddress pv) = true → signAddVote Sum o cs PrevoteType hash header = Panic.
Proof.
  intros Hp Hh Hv Ha. unfold signAddVote. rewrite Hv, Ha. cbn [negb]. unfold cs_signVote, my_address. rewrite Hv. cbn.
  destruct (voteTime o cs) as [t|]; [|done]. cbn. destruct (Z.eqb_spec (zlen hash) 0) as [Ez|]; cbn.
  { destruct hash; [done|]. unfold zlen in Ez. cbn in Ez. lia. }
  unfold JudgeBlockPakcages. by rewrite Hp.
Qed.

(** C38. A validator that is locked on a block panics in every round that reaches the prevote step without a
    proposal block: whatever the rest of its state, the timeout of its propose step makes it prevote the locked block,
    and [signVote] then reads the packages of [ProposalBlock], which is nil. *)
Theorem locked_without_proposal_panics (o : Oracle) (cs : @ConsensusState PV) (pv : PV) (b : Block) (ti : timeoutInfo) :
  cs_LockedBlock cs = Some b → block_hash Sum (Some b) ≠ [] → cs_ProposalBlock cs = None →
  cs_privValidator cs = Some pv → HasAddress (cs_Validators cs) (pv_GetAddress pv) = true →
  cs_Step cs ≤ RoundStepPropose →
  ti_Height ti = cs_Height cs → ti_Round ti = cs_Round cs → ti_Step ti = RoundStepPropose →
  receive Sum o cs (TimeoutInput ti) = Panic.
Proof.
  intros Hl Hh Hp Hv Ha Hs Eh Er Es. cbn [receive]. unfold handleTimeout. rewrite Eh, Er, Es, !Z.eqb_refl, Z.ltb_irrefl.
  rewrite (proj2 (Z.ltb_ge _ _) Hs). cbn. unfold enterPrevote. rewrite !Z.eqb_refl, Z.ltb_irrefl. cbn [negb orb andb].
  unfold RoundStepPropose, RoundStepPrevote in *. destruct (Z.leb_spec 4 (cs_Step cs)); [lia|].
  unfold defaultDoPrevote. rewrite Hl. by rewrite (prevote_without_proposal o cs pv).
Qed.

End Locked.

(** The state is reached: the node locks on its proposal, the other validator precommits nil, and no proposal comes in
    the next round. *)
Lemma locked_node_reach : reach pad32 locked_node.
Proof. apply play_reach; [exact node0_reach|vm_compute; reflexivity]. Qed.

Definition propose_timeout : timeoutInfo := mkTimeoutInfo 3500 1 1 RoundStepPropose.

Definition locked_signer : world := default (key_world x01) (cs_privValidator locked_node).

Lemma locked_node_lock : cs_LockedBlock locked_node = Some proposed_block ∧ cs_ProposalBlock locked_node = None.
Proof. split; vm_compute; reflexivity. Qed.

Lemma default_some {A} (d : A) (o : option A) : (if o then true else false) = true → o = Some (default d o).
Proof. by destruct o. Qed.

Lemma locked_node_signer :
  cs_privValidator locked_node = Some locked_signer ∧
  HasAddress (cs_Validators locked_node) (pv_GetAddress locked_signer) = true.
Proof. split; [apply default_some|]; vm_compute; reflexivity. Qed.

Lemma locked_node_position :
  cs_Height locked_node = 1 ∧ cs_Round locked_node = 1 ∧ cs_Step locked_node = RoundStepPropose.
Proof. split_and!; vm_compute; reflexivity. Qed.

Lemma proposed_block_hash : block_hash pad32 (Some proposed_block) ≠ [].
Proof. vm_compute. discriminate. Qed.

Lemma locked_without_proposal_panics_witness :
  reach pad32 locked_node ∧ receive pad32 sample_oracle locked_node (TimeoutInput propose_timeout) = Panic.
Proof.
  destruct locked_node_lock as [Hl Hp], locked_node_signer as [Hv Ha], locked_node_position as (Eh & Er & Es).
  split; [exact locked_node_reach|].
  apply (locked_without_proposal_panics pad32 sample_oracle locked_node locked_signer proposed_block propose_timeout
    Hl proposed_block_hash Hp Hv Ha); [rewrite Es; apply Z.le_refl|rewrite Eh; reflexivity|rewrite Er; reflexivity|reflexivity].
Defined.

Lemma propose_timeout_timely : timely locked_node (TimeoutInput propose_timeout).
Proof. apply (list_elem_of_lookup_2 _ 3). vm_compute. reflexivity. Qed.

(** ** The locked block overwritten *)

(** The second validator has three quarters of the power. *)
Definition heavy_doc : GenesisDoc :=
  mkGenesisDoc 5 [x63] None
    [mkGenesisValidator [] (Some [x01]) 10; mkGenesisValidator [] (Some [x02]) 30] [] [].

Definition heavy_state : State :=
  match (ret_or (LoadStateFromDBOrGenesisDoc (mkVersion 1 1) 7 emptyDB heavy_doc) no_db).2 with
  | inl st => st
  | inr _ => empty_state
  end.

Definition light_node : CS :=
  scheduleRound0 sample_oracle
    (ret_or (NewConsensusState sample_oracle round_config (Some (key_world x01)) empty_store heavy_state) no_node).

Definition other_block : Block :=
  with_header proposed_block (Populate (blk_Header proposed_block) (mkVersion 1 1) [x63] 10 zeroBlockID 3
    (replicate 32 x07) (replicate 32 x08) (replicate 32 x09) [x01] [] (replicate 20 x05)).

(** Other bytes, split into parts: another header. *)
Definition other_parts : PartSet :=
  ret_or (NewPartSetFromData pad32 [x02] 1) (mkPartSet 0 [] [] None 0).

(** The first bytes decode to one block, the others to another. *)
Definition two_blocks : Oracle := {|
  o_now := 20;
  o_CreateProposalBlock _ _ _ _ := None;
  o_ApplyBlock _ _ _ _ := Some state1;
  o_unmarshalBlock _ reader _ :=
    (Some (if bytes_equal (psr_reader reader) [x01] then proposed_block else other_block), false);
  o_NewTX _ := Some (mkTX DeliverTx 0 []);
  o_VerifySig _ := true;
  o_ParsePackages _ := [];
  o_checkpoint _ := None;
  o_packs := false;
  o_aggregated := true;
  o_SignatureRecovery _ _ := None;
  o_ParseId := 1
|}.

Definition heavy_proposal (cs : CS) : input :=
  let p sig := mkProposal ProposalType 1 0 (-1)
    (mkBlockID (block_hash pad32 (Some proposed_block)) (PartSet_Header (Some proposed_parts))) 20 sig in
  MsgInput (ProposalMessage (p (x02 :: Proposal_SignBytes [x63] (p [])))) [x02].

Definition part_of (ps : PartSet) (i : Z) (cs : CS) : input :=
  match GetPart ps i with Ret (Some part) => MsgInput (BlockPartMessage 1 0 part) [x02] | _ => TxsAvailable end.

(** The second validator prevotes the block with the header of the other parts. *)
Definition heavy_prevote (cs : CS) : input :=
  let partSig := Some (mkPartSig [] 1) in
  let vote sig := mkVote PrevoteType 1 0
    (mkBlockID (block_hash pad32 (Some proposed_block)) (PartSet_Header (Some other_parts))) 20 [x02] 1 sig partSig partSig in
  MsgInput (VoteMessage (vote (x02 :: Vote_SignBytes [x63] (vote [])))) [x02].

Definition overwrite_script : list (CS → input) :=
  [timeout 1000 0 RoundStepNewHeight; heavy_proposal; part_of proposed_parts 0; part_of proposed_parts 1; heavy_prevote].

Definition shared_node : CS := (play two_blocks light_node overwrite_script).1.

Lemma shared_node_reach : reach pad32 shared_node.
Proof.
  apply play_reach; [|vm_compute; reflexivity].
  apply (reach_start _ sample_oracle round_config (Some (key_world x01)) empty_store heavy_state).
  apply is_ret_eq. vm_compute. reflexivity.
Qed.

(** Whether the node sent a precommit for the block. *)
Definition precommitted (cs : CS) (b : Block) : bool :=
  existsb (λ v, (vote_Type v =? PrecommitType) && bytes_equal (bid_Hash (vote_BlockID v)) (block_hash pad32 (Some b)))
    (votes_of (cs_out cs)).

Definition overwritten : CS := ret_or (receive pad32 two_blocks shared_node (part_of other_parts 0 shared_node)) shared_node.

(** A lock can change without a majority of prevotes. The majority that a node locks on may name another part set
    header than the parts it has; it keeps the block, waits for the other parts, and decodes them into
    [ProposalBlock], which is the pointer [LockedBlock]. The node is then locked, in the same round, on a block that it did
    not precommit. *)
Theorem lock_overwritten :
  ∃ (o : Oracle) (cs cs' : CS) (i : input) (b b' : Block),
    reach pad32 cs ∧ timely cs i ∧ receive pad32 o cs i = Ret cs' ∧
    cs_LockedBlock cs = Some b ∧ precommitted cs b = true ∧
    cs_LockedBlock cs' = Some b' ∧ cs_LockedRound cs' = cs_LockedRound cs ∧
    votes_of (cs_out cs') = votes_of (cs_out cs) ∧ block_hash pad32 (Some b') ≠ block_hash pad32 (Some b).
Proof.
  exists two_blocks, shared_node, overwritten, (part_of other_parts 0 shared_node), proposed_block, other_block.
  split; [exact shared_node_reach|]. split; [vm_compute; exact I|].
  split; [apply is_ret_eq; vm_compute; reflexivity|].
  split_and!; try (vm_compute; reflexivity). vm_compute. discriminate.
Qed.

(** ** Transactions that do not decode *)

Definition undecodable : Oracle := {|
  o_now := 20;
  o_CreateProposalBlock _ _ _ _ := Some (proposed_block, proposed_parts);
  o_ApplyBlock _ _ _ _ := Some state1;
  o_unmarshalBlock _ _ _ := (Some proposed_block, false);
  o_NewTX _ := None;
  o_VerifySig _ := true;
  o_ParsePackages _ := [];
  o_checkpoint _ := None;
  o_packs := false;
  o_aggregated := true;
  o_SignatureRecovery _ _ := None;
  o_ParseId := 1
|}.

Definition undecodable_node : CS := (play undecodable node0 locking).1.

(** A block with a transaction that [NewTX] cannot decode is voted for (the check of the signatures before the
    prevote skips such a transaction) and stops every node when it is committed:
    [tryAddAggragate2Block] ignores the error of [NewTX] and reads the nil transaction. *)
Theorem undecodable_tx_panics :
  ∃ (o : Oracle) (cs : CS) (vote : Vote) (b : Block) (tx : bytes),
    reach pad32 cs ∧ cs_LockedBlock cs = Some b ∧ tx ∈ blk_Txs b ∧ o_NewTX o tx = None ∧ txs_signed o (blk_Txs b) = true ∧
    vote_Type vote = PrecommitType ∧ receive pad32 o cs (MsgInput (VoteMessage vote) [x02]) = Panic.
Proof.
  exists undecodable, undecodable_node,
    (match echo 4 undecodable_node with MsgInput (VoteMessage v) _ => v | _ => sample_vote PrecommitType x01 0 x01 end),
    proposed_block, [x61].
  split; [apply play_reach; [exact node0_reach|vm_compute; reflexivity]|].
  split; [vm_compute; reflexivity|]. split; [apply list_elem_of_here|]. split_and!; vm_compute; reflexivity.
Qed.

(** ** Blocks of another height *)

Definition far_block : Block :=
  let b := MakeBlock pad32 [x41] 5 sample_txs (Some made_commit) [] [] in
  with_header b (Populate (blk_Header b) (mkVersion 1 1) [x63] 9 (sample_block x01) 3
    (replicate 32 x07) (replicate 32 x08) (replicate 32 x09) [x01] [] (replicate 20 x05)).

Definition far : Oracle := {|
  o_now := 20;
  o_CreateProposalBlock _ _ _ _ := Some (far_block, proposed_parts);
  o_ApplyBlock _ _ _ _ := Some state1;
  o_unmarshalBlock _ _ _ := (Some far_block, false);
  o_NewTX _ := Some (mkTX DeliverTx 0 []);
  o_VerifySig _ := true;
  o_ParsePackages _ := [];
  o_checkpoint _ := None;
  o_packs := false;
  o_aggregated := true;
  o_SignatureRecovery _ _ := None;
  o_ParseId := 1
|}.

Definition far_node : CS := (play far node0 locking).1.

(** A proposer can stop all nodes with a block of another height: [validateBlock] no longer compares the
    height with the state's, so the block is prevoted, locked and precommitted at
    height 1, and [SaveBlock] panics on it when it is committed. *)
Theorem wrong_height_block_panics :
  ∃ (o : Oracle) (cs : CS) (vote : Vote) (b : Block),
    reach pad32 cs ∧ cs_LockedBlock cs = Some b ∧ hd_Height (blk_Header b) ≠ cs_Height cs ∧
    vote_Type vote = PrecommitType ∧ receive pad32 o cs (MsgInput (VoteMessage vote) [x02]) = Panic.
Proof.
  exists far, far_node,
    (match echo 4 far_node with MsgInput (VoteMessage v) _ => v | _ => sample_vote PrecommitType x01 0 x01 end), far_block.
  split; [apply play_reach; [exact node0_reach|vm_compute; reflexivity]|].
  split; [vm_compute; reflexivity|]. split; [vm_compute; discriminate|]. split; vm_compute; reflexivity.
Qed.

(** ** Votes and commits that are not there *)

Section Missing.
Context (Sum : bytes → bytes) `{Codec} `{Crypto} `{BlockCodec} {PV : Type} `{PrivValidator PV}.

(** On a new chain any peer can stop a node until its first round begins: a precommit
    of height 0 counts as a late vote of the last commit, which is nil at height 1, and adding to it panics. *)
Theorem early_precommit_panics (o o' : Oracle) (config : ConsensusConfig) (pv : option PV) (store : BlockStore)
    (state : State) (cs : @ConsensusState PV) (vote : Vote) (peerID : bytes) :
  NewConsensusState o config pv store state = Ret cs → st_LastBlockHeight state = 0 →
  vote_Type vote = PrecommitType → vote_Height vote = 0 →
  receive Sum o' (scheduleRound0 o cs) (MsgInput (VoteMessage vote) peerID) = Panic.
Proof.
  intros (cs1 & E1 & E)%bind_Ret Hh Ht Hv. unfold reconstructLastCommit in E. rewrite Hh in E. cbn in E. injection E as <-.
  cbn in E1. apply bind_Ret in E1 as (hvs & _ & E1). injection E1 as <-. rewrite Hh.
  cbn [receive handleMsg]. unfold tryAddVote, cs_addVote. rewrite Hv. cbn. unfold addLastCommitVote. rewrite Ht. done.
Qed.

(** A node whose store has no commit for the last block does not start: [reconstructLastCommit]
    asks the commit for its round before it compares it with nil, so the branch
    written for that case is never taken. *)
Theorem missing_seen_commit_panics (o : Oracle) (config : ConsensusConfig) (pv : option PV) (store : BlockStore) (state : State) :
  st_LastBlockHeight state ≠ 0 → LoadSeenCommit store (st_LastBlockHeight state) = None →
  NewConsensusState o config pv store state = Panic.
Proof.
  intros Hh Hn. unfold NewConsensusState. cbn. destruct (NewHeightVoteSet _ _ _) as [hvs|]; [cbn|done].
  unfold reconstructLastCommit. cbn. rewrite (proj2 (Z.eqb_neq _ _) Hh), Hn. done.
Qed.

End Missing.

Definition zero_vote : Vote := mkVote PrecommitType 0 0 zeroBlockID 20 (replicate 20 x01) 0 [x01] None None.

Lemma early_precommit_panics_witness :
  Vote_ValidateBasic zero_vote = None ∧
  receive pad32 sample_oracle (first_nodes 0) (MsgInput (VoteMessage zero_vote) [x02]) = Panic.
Proof.
  split; [reflexivity|].
  apply (early_precommit_panics pad32 sample_oracle sample_oracle round_config (Some (key_world x01)) empty_store gen_state
    (ret_or (new_node x01) no_node)); [apply is_ret_eq; vm_compute; reflexivity|vm_compute; reflexivity|reflexivity|reflexivity].
Defined.

Lemma missing_seen_commit_panics_witness :
  NewConsensusState sample_oracle round_config (Some (key_world x01)) empty_store state1 = Panic.
Proof. apply missing_seen_commit_panics; [vm_compute; discriminate|vm_compute; reflexivity]. Defined.
