(* ===== verification/CList.v ===== *)
(** * The concurrent list (libs/clist/clist.go)

    A [CList] is a doubly linked list of [CElement]s. The heap of elements of one list is [elems]:
    an address is an index, a fresh element goes to the end, nothing is ever freed. A wait group
    made by [waitGroup1] and the channel made beside it are always released together, so the pair is one
    boolean, true once it is released; releasing it twice panics, as [Done] on a zero counter and [close] on a closed
    channel do. Removed elements keep their links, which is what lets other goroutines go on
    iterating. The methods that hold the lock from beginning to end are one step each. [PushBackToMem], which nothing but
    the mempool's unused [insertTx] calls, takes the lock in parts and not at all for its first steps: it is given
    step by step, as the composition of its parts when nothing comes in between, and it is not among the steps
    whose interleavings [cl_reach] considers; [PushBackToMem_loses_wakeup] is an interleaving that goes wrong.

    [rep] is the representation predicate: the addresses of the list in order, and the links and wait groups they
    determine. The methods are shown to act on it as list operations, [for_each] is the loop
    [for e := l.Front(); e != nil; e = e.Next()] of the callers, and [live_after] is what a goroutine
    that holds a removed element still sees. *)

From Stdlib Require Import ZArith Lia Sorting.Sorted.
From stdpp Require Import base list sets sorting.
From S2P Require Import Prelude.
Local Open Scope Z_scope.

(** ** Elements *)
Notation addr := nat.

Record CElement (V : Type) := mkCElement {
  ce_prev : option addr;
  ce_prevDone : bool;
  ce_next : option addr;
  ce_nextDone : bool;
  ce_removed : bool;
  ce_Value : V;
}.
Arguments mkCElement {V}.
Arguments ce_prev {V}.
Arguments ce_prevDone {V}.
Arguments ce_next {V}.
Arguments ce_nextDone {V}.
Arguments ce_removed {V}.
Arguments ce_Value {V}.

Record CList (V : Type) := mkCList {
  cl_wgDone : bool;
  cl_head : option addr;
  cl_tail : option addr;
  cl_len : Z;
  cl_maxLen : Z;
  elems : list (CElement V);
}.
Arguments mkCList {V}.
Arguments cl_wgDone {V}.
Arguments cl_head {V}.
Arguments cl_tail {V}.
Arguments cl_len {V}.
Arguments cl_maxLen {V}.
Arguments elems {V}.

Section operations.
Context {V : Type}.
Implicit Types (c : CElement V) (s : CList V).

(** Dereferencing a pointer; nil panics. *)
Definition deref s (p : option addr) : outcome (CElement V) :=
  l ← or_panic p; or_panic (elems s !! l).

Definition with_elem s (l : addr) (c : CElement V) : CList V :=
  mkCList (cl_wgDone s) (cl_head s) (cl_tail s) (cl_len s) (cl_maxLen s) (<[l := c]> (elems s)).

(** Releases a wait group and its channel. *)
Definition release (d : bool) : outcome bool := if d then Panic else Ret true.

Definition Next s (l : addr) : outcome (option addr) := c ← deref s (Some l); mret (ce_next c).
Definition Prev s (l : addr) : outcome (option addr) := c ← deref s (Some l); mret (ce_prev c).
Definition Removed s (l : addr) : outcome bool := c ← deref s (Some l); mret (ce_removed c).

(** The blocking reads: [None] when the goroutine goes to sleep on the wait group. *)
Definition NextWait s (l : addr) : outcome (option (option addr)) :=
  c ← deref s (Some l);
  mret (if bool_decide (is_Some (ce_next c)) || ce_removed c then Some (ce_next c) else None).

Definition PrevWait s (l : addr) : outcome (option (option addr)) :=
  c ← deref s (Some l);
  mret (if bool_decide (is_Some (ce_prev c)) || ce_removed c then Some (ce_prev c) else None).

Definition DetachNext s (l : addr) : outcome (CList V) :=
  c ← deref s (Some l);
  if negb (ce_removed c) then Panic else
  mret (with_elem s l
    (mkCElement (ce_prev c) (ce_prevDone c) None (ce_nextDone c) (ce_removed c) (ce_Value c))).

Definition DetachPrev s (l : addr) : outcome (CList V) :=
  c ← deref s (Some l);
  if negb (ce_removed c) then Panic else
  mret (with_elem s l
    (mkCElement None (ce_prevDone c) (ce_next c) (ce_nextDone c) (ce_removed c) (ce_Value c))).

(** The wait group of a link that changes from [old] to [new]. *)
Definition relink (old new : option addr) (d : bool) : outcome bool :=
  match old, new with
  | Some _, None => Ret false
  | None, Some _ => release d
  | _, _ => Ret d
  end.

Definition SetNext s (p : option addr) (newNext : option addr) : outcome (CList V) :=
  l ← or_panic p; c ← deref s p;
  d ← relink (ce_next c) newNext (ce_nextDone c);
  mret (with_elem s l
    (mkCElement (ce_prev c) (ce_prevDone c) newNext d (ce_removed c) (ce_Value c))).

Definition SetPrev s (p : option addr) (newPrev : option addr) : outcome (CList V) :=
  l ← or_panic p; c ← deref s p;
  d ← relink (ce_prev c) newPrev (ce_prevDone c);
  mret (with_elem s l
    (mkCElement newPrev d (ce_next c) (ce_nextDone c) (ce_removed c) (ce_Value c))).

Definition SetRemoved s (l : addr) : outcome (CList V) :=
  c ← deref s (Some l);
  dp ← (if ce_prev c is None then release (ce_prevDone c) else mret (ce_prevDone c));
  dn ← (if ce_next c is None then release (ce_nextDone c) else mret (ce_nextDone c));
  mret (with_elem s l (mkCElement (ce_prev c) dp (ce_next c) dn true (ce_Value c))).

(** ** Lists *)
Definition Init s : CList V := mkCList false None None 0 (cl_maxLen s) (elems s).

Definition newWithMax (maxLength : Z) : CList V :=
  Init (mkCList false None None 0 maxLength []).

Definition MaxLength : Z := MaxInt64.
Definition New : CList V := newWithMax MaxLength.

Definition Len s : Z := cl_len s.
Definition Front s : option addr := cl_head s.
Definition Back s : option addr := cl_tail s.

(** [None] when the goroutine goes to sleep on the list's wait group. *)
Definition FrontWait s : option addr := cl_head s.
Definition BackWait s : option addr := cl_tail s.

(** The fresh element of [PushBack]; its address is the number of elements so far. *)
Definition new_elem (v : V) : CElement V := mkCElement None false None false false v.

Definition with_list s (wg : bool) (h t : option addr) (n : Z) : CList V :=
  mkCList wg h t n (cl_maxLen s) (elems s).

(** The beginning [PushBack] and [PushBackToMem] share, the latter without the lock: a new element, the release of the
    goroutines that wait for one, the length. *)
Definition push_new (s : CList V) (v : V) : CList V :=
  mkCList (cl_wgDone s) (cl_head s) (cl_tail s) (cl_len s) (cl_maxLen s) (elems s ++ [new_elem v]).

Definition push_release (s : CList V) : outcome (CList V) :=
  wg ← (if cl_len s =? 0 then release (cl_wgDone s) else mret (cl_wgDone s));
  mret (with_list s wg (cl_head s) (cl_tail s) (cl_len s)).

Definition push_count (s : CList V) : outcome (CList V) :=
  if cl_maxLen s <=? cl_len s then Panic else
  mret (with_list s (cl_wgDone s) (cl_head s) (cl_tail s) (wrap64 (cl_len s + 1))).

Definition push_start (s : CList V) (v : V) : outcome (CList V) :=
  s ← push_release (push_new s v); push_count s.

(** Linking the element [e] behind the tail. *)
Definition link_tail s (e : addr) : outcome (CList V) :=
  s ← SetPrev s (Some e) (cl_tail s);
  s ← SetNext s (cl_tail s) (Some e);
  mret (with_list s (cl_wgDone s) (cl_head s) (Some e) (cl_len s)).

Definition PushBack s (v : V) : outcome (addr * CList V) :=
  let e := length (elems s) in
  s ← push_start s v;
  s ← (if cl_tail s is None then mret (with_list s (cl_wgDone s) (Some e) (Some e) (cl_len s))
       else link_tail s e);
  mret (e, s).

(** The loop of [PushBackToMem] that looks for the first element of smaller value;
    [fuel] bounds the number of elements visited. *)
Fixpoint find_smaller (GetValue : V → Z) (fuel : nat) s (c : option addr) (cur : Z) :
    outcome (option addr) :=
  match c, fuel with
  | None, _ => Ret None
  | Some _, O => Panic
  | Some l, S fuel =>
      e ← deref s (Some l);
      if GetValue (ce_Value e) <? cur then Ret (Some l)
      else find_smaller GetValue fuel s (ce_next e) cur
  end.

(** Where [PushBackToMem] puts its element: in an empty list, or before the first element of smaller value, or behind the
    tail. The search holds the read lock only. *)
Inductive place := InEmpty | Before (c : addr) | AtEnd.

Definition mem_search (GetValue : V → Z) s (e : addr) : outcome place :=
  if cl_tail s is None then Ret InEmpty
  else
    new ← deref s (Some e);
    c ← find_smaller GetValue (length (elems s)) s (cl_head s) (GetValue (ce_Value new));
    Ret (if c is Some c then Before c else AtEnd).

(** The write under the lock. *)
Definition mem_link s (e : addr) (at_ : place) : outcome (CList V) :=
  match at_ with
  | InEmpty => mret (with_list s (cl_wgDone s) (Some e) (Some e) (cl_len s))
  | Before c =>
      p ← Prev s c;
      s ← SetNext s p (Some e);
      p ← Prev s c;
      s ← SetPrev s (Some e) p;
      s ← SetNext s (Some e) (Some c);
      SetPrev s (Some c) (Some e)
  | AtEnd => link_tail s e
  end.

(** All of it, when no other goroutine touches the list meanwhile. *)
Definition PushBackToMem (GetValue : V → Z) s (v : V) : outcome (addr * CList V) :=
  let e := length (elems s) in
  s ← push_start s v;
  at_ ← mem_search GetValue s e;
  s ← mem_link s e at_;
  mret (e, s).

(** Connecting the neighbours of a removed element, or moving the head and the tail. *)
Definition set_head_or_next s (prev next : option addr) : outcome (CList V) :=
  if prev is None then mret (with_list s (cl_wgDone s) next (cl_tail s) (cl_len s))
  else SetNext s prev next.

Definition set_tail_or_prev s (prev next : option addr) : outcome (CList V) :=
  if next is None then mret (with_list s (cl_wgDone s) (cl_head s) prev (cl_len s))
  else SetPrev s next prev.

Definition Remove s (e : addr) : outcome (V * CList V) :=
  c ← deref s (Some e);
  let prev := ce_prev c in
  let next := ce_next c in
  if bool_decide (cl_head s = None) || bool_decide (cl_tail s = None) then Panic else
  if bool_decide (prev = None) && negb (bool_decide (cl_head s = Some e)) then Panic else
  if bool_decide (next = None) && negb (bool_decide (cl_tail s = Some e)) then Panic else
  let wg := if cl_len s =? 1 then false else cl_wgDone s in
  let s := with_list s wg (cl_head s) (cl_tail s) (wrap64 (cl_len s - 1)) in
  s ← set_head_or_next s prev next;
  s ← set_tail_or_prev s prev next;
  s ← SetRemoved s e;
  mret (ce_Value c, s).

(** Writing through the pointer an element holds; links and wait groups are untouched. *)
Definition modify s (l : addr) (f : V → V) : CList V :=
  mkCList (cl_wgDone s) (cl_head s) (cl_tail s) (cl_len s) (cl_maxLen s)
    (alter (λ c, mkCElement (ce_prev c) (ce_prevDone c) (ce_next c) (ce_nextDone c)
                   (ce_removed c) (f (ce_Value c))) l (elems s)).
End operations.

(** [for e := l.Front(); e != nil; e = e.Next() { body }], where the body may change the state
    and may return early with a result. [fuel] bounds the number of iterations. *)
Fixpoint for_each {V S R} (view : S → CList V) (body : addr → V → S → outcome (S * option R))
    (fuel : nat) (e : option addr) (s : S) : outcome (S * option R) :=
  match e, fuel with
  | None, _ => Ret (s, None)
  | Some _, O => Panic
  | Some l, Datatypes.S fuel =>
      c ← deref (view s) (Some l);
      '(s, r) ← body l (ce_Value c) s;
      match r with
      | Some r => Ret (s, Some r)
      | None => n ← Next (view s) l; for_each view body fuel n s
      end
  end.

(** The loop from the front; no list is longer than its heap. *)
Definition for_list {V S R} (view : S → CList V) (body : addr → V → S → outcome (S * option R))
    (s : S) : outcome (S * option R) :=
  for_each view body (length (elems (view s))) (Front (view s)) s.

(** ** The representation *)
Section representation.
Context {V : Type}.
Implicit Types (s : CList V) (xs : list (addr * V)).

Definition some (o : option addr) : bool := if o then true else false.

(** An element of the list between [p] and [n]. *)
Definition node (p n : option addr) (v : V) : CElement V := mkCElement p (some p) n (some n) false v.

Definition links s xs : Prop := ∀ pre l v post,
  xs = pre ++ (l, v) :: post →
  elems s !! l = Some (node (fst <$> last pre) (fst <$> head post) v).

Record rep s xs : Prop := mkRep {
  rep_NoDup : NoDup xs.*1;
  rep_head : cl_head s = fst <$> head xs;
  rep_tail : cl_tail s = fst <$> last xs;
  rep_len : cl_len s = zlen xs;
  rep_max : zlen xs ≤ cl_maxLen s ≤ MaxInt64;
  rep_wg : cl_wgDone s = bool_decide (xs ≠ []);
  rep_links : links s xs;
  (** Every other element was removed, and whoever waited on it was woken up. *)
  rep_removed : ∀ l c, elems s !! l = Some c → l ∉ xs.*1 →
    ce_removed c = true ∧ ce_prevDone c = true ∧ ce_nextDone c = true;
}.

Lemma relink_some old new : relink old new (some old) = Ret (some new).
Proof. by destruct old, new. Qed.

Lemma SetNext_node s l p n v n' :
  elems s !! l = Some (node p n v) → SetNext s (Some l) n' = Ret (with_elem s l (node p n' v)).
Proof.
  intros H. unfold SetNext, deref, node. simpl. rewrite H. simpl.
  rewrite relink_some. done.
Qed.

Lemma SetPrev_node s l p n v p' :
  elems s !! l = Some (node p n v) → SetPrev s (Some l) p' = Ret (with_elem s l (node p' n v)).
Proof.
  intros H. unfold SetPrev, deref, node. simpl. rewrite H. simpl.
  rewrite relink_some. done.
Qed.

Definition dead (p n : option addr) (v : V) : CElement V := mkCElement p true n true true v.

Lemma SetRemoved_node s l p n v :
  elems s !! l = Some (node p n v) → SetRemoved s l = Ret (with_elem s l (dead p n v)).
Proof.
  intros H. unfold SetRemoved, deref, node, dead. simpl. rewrite H. simpl.
  by destruct p, n.
Qed.

Lemma rep_lookup s pre l v post :
  rep s (pre ++ (l, v) :: post) →
  elems s !! l = Some (node (fst <$> last pre) (fst <$> head post) v).
Proof. intros H. by eapply (rep_links _ _ H). Qed.

Lemma rep_lt s xs l v : rep s xs → (l, v) ∈ xs → (l < length (elems s))%nat.
Proof.
  intros H (pre & post & ->)%list_elem_of_split.
  eapply lookup_lt_Some, rep_lookup, H.
Qed.

Lemma rep_value s xs l v : rep s xs → (l, v) ∈ xs →
  ∃ c, elems s !! l = Some c ∧ ce_Value c = v ∧ ce_removed c = false.
Proof.
  intros H (pre & post & ->)%list_elem_of_split.
  eexists. split; [by eapply rep_lookup|done].
Qed.

Lemma rep_length s xs : rep s xs → (length xs ≤ length (elems s))%nat.
Proof.
  intros H. rewrite <-(length_fmap fst xs), <-(length_seq (length (elems s)) 0).
  apply submseteq_length, NoDup_submseteq; [apply (rep_NoDup _ _ H)|].
  intros l ([l' v] & -> & Hin)%list_elem_of_fmap.
  apply elem_of_seq. simpl. pose proof (rep_lt s xs l' v H Hin). lia.
Qed.

Lemma rep_Len s xs : rep s xs → Len s = zlen xs.
Proof. apply rep_len. Qed.

(** The elements determine the list. *)
Lemma rep_unique_values s xs l v w : rep s xs → (l, v) ∈ xs → (l, w) ∈ xs → v = w.
Proof.
  intros H H1 H2. destruct (rep_value _ _ _ _ H H1) as (c & Hc & <- & _).
  destruct (rep_value _ _ _ _ H H2) as (c' & Hc' & <- & _). congruence.
Qed.

Lemma newWithMax_rep (n : Z) : 0 ≤ n ≤ MaxInt64 → rep (newWithMax n) [].
Proof.
  intros Hn. split; simpl; try done.
  - constructor.
  - intros pre l v post H. by destruct pre.
Qed.

Lemma New_rep : rep New [].
Proof. apply newWithMax_rep. by unfold MaxInt64. Qed.

(** Reading does not depend on what else the heap holds. *)
Lemma Next_rep s pre l v post :
  rep s (pre ++ (l, v) :: post) → Next s l = Ret (fst <$> head post).
Proof. intros H. unfold Next, deref. simpl. by rewrite (rep_lookup _ _ _ _ _ H). Qed.

(** ** Pushing *)
Lemma links_app_inv xs (y : addr * V) pre l v post :
  xs ++ [y] = pre ++ (l, v) :: post →
  (post = [] ∧ xs = pre ∧ y = (l, v)) ∨
  (∃ post', post = post' ++ [y] ∧ xs = pre ++ (l, v) :: post').
Proof.
  intros H. destruct post as [|z post' _] using rev_ind.
  - left. apply app_inj_tail in H as [-> ->]. done.
  - right. exists post'. rewrite app_comm_cons, app_assoc in H.
    apply app_inj_tail in H as [-> ->]. done.
Qed.

Lemma push_start_rep s xs v :
  rep s xs → zlen xs < cl_maxLen s →
  push_start s v =
    Ret (mkCList true (cl_head s) (cl_tail s) (zlen xs + 1) (cl_maxLen s) (elems s ++ [new_elem v])).
Proof.
  intros H Hlen. unfold push_start, push_release, push_count. cbn [push_new cl_len cl_wgDone cl_head cl_tail cl_maxLen].
  rewrite (rep_len _ _ H), (rep_wg _ _ H).
  pose proof (rep_max _ _ H). pose proof (zlen_nonneg xs).
  assert (E : (if zlen xs =? 0 then release (bool_decide (xs ≠ [])) else mret (bool_decide (xs ≠ []))) = Ret true).
  { destruct xs as [|x xs]; [done|]. by rewrite (proj2 (Z.eqb_neq (zlen (x :: xs)) 0)) by (unfold zlen; simpl; lia). }
  rewrite E. cbn [mbind outcome_bind mret outcome_ret with_list push_new cl_len cl_wgDone cl_head cl_tail cl_maxLen elems].
  rewrite (proj2 (Z.leb_gt _ _) Hlen).
  by rewrite (wrap64_id (zlen xs + 1)) by (unfold in_int64, MinInt64 in *; lia).
Qed.

Lemma rep_tail_Some s xs t w : rep s (xs ++ [(t, w)]) → cl_tail s = Some t.
Proof. intros H. rewrite (rep_tail _ _ H), last_snoc. done. Qed.

(** Pushing appends, at a fresh address. *)
Lemma PushBack_rep s xs v :
  rep s xs → zlen xs < cl_maxLen s →
  ∃ s', PushBack s v = Ret (length (elems s), s') ∧ rep s' (xs ++ [(length (elems s), v)]) ∧
    cl_maxLen s' = cl_maxLen s ∧ length (elems s') = S (length (elems s)) ∧
    (∀ l, l ∉ xs.*1 → l ≠ length (elems s) → elems s' !! l = elems s !! l).
Proof.
  intros H Hlen. unfold PushBack. rewrite (push_start_rep _ _ _ H Hlen). simpl.
  set (e := length (elems s)).
  assert (Hfresh : e ∉ xs.*1).
  { intros ([l w] & E & Hin)%list_elem_of_fmap. pose proof (rep_lt _ _ _ _ H Hin).
    simpl in E. lia. }
  assert (Hnew : (elems s ++ [new_elem v]) !! e = Some (node None None v)).
  { rewrite lookup_app_r by done. by rewrite Nat.sub_diag. }
  assert (Hold : ∀ l, l ≠ e → (elems s ++ [new_elem v]) !! l = elems s !! l).
  { intros l Hl. destruct (decide (l < e)%nat); [by apply lookup_app_l|].
    rewrite lookup_ge_None_2 by (rewrite length_app; simpl; subst e; lia).
    by rewrite lookup_ge_None_2 by (subst e; lia). }
  assert (Hsz : length (elems s ++ [new_elem v]) = S e) by (rewrite length_app; simpl; subst e; lia).
  destruct xs as [|[t w] ys _] using rev_ind.
  - rewrite (rep_tail _ _ H). simpl. eexists. split_and!; [done| |done|done|intros; by apply Hold].
    split; simpl; try done.
    + apply NoDup_singleton.
    + pose proof (rep_max _ _ H). unfold zlen in *. simpl in *. lia.
    + intros pre l w post E. destruct pre as [|? [|]]; simplify_eq/=. done.
    + intros l c Hl Hn. apply (rep_removed _ _ H l); [|set_solver].
      by rewrite Hold in Hl by set_solver.
  - rewrite (rep_tail_Some _ _ _ _ H). unfold link_tail. simpl.
    assert (Ht : (t < e)%nat) by (eapply (rep_lt _ _ t w H); set_solver).
    rewrite (SetPrev_node _ e None None v) by exact Hnew. simpl.
    assert (Hte : (<[e:=node (Some t) None v]> (elems s ++ [new_elem v])) !! t =
      Some (node (fst <$> last ys) None w)).
    { rewrite list_lookup_insert_ne by lia. rewrite Hold by lia. by apply (rep_lookup _ _ _ _ _ H). }
    rewrite (SetNext_node _ t (fst <$> last ys) None w) by exact Hte. simpl.
    eexists. split_and!; [done| |done|simpl; by rewrite !length_insert|].
    2: { intros l Hl Hle. rewrite fmap_app in Hl. csimpl in Hl. simpl.
         rewrite list_lookup_insert_ne by set_solver. rewrite list_lookup_insert_ne by done.
         by apply Hold. }
    split; simpl.
    + rewrite fmap_app. apply NoDup_app. split_and!; [apply (rep_NoDup _ _ H)| |apply NoDup_singleton].
      intros x Hx ->%list_elem_of_singleton. done.
    + rewrite (rep_head _ _ H). by destruct ys.
    + by rewrite last_snoc.
    + unfold zlen. rewrite !length_app. simpl. lia.
    + pose proof (rep_max _ _ H). unfold zlen in *. rewrite !length_app in *. simpl in *. lia.
    + symmetry. apply bool_decide_eq_true. by destruct ys.
    + intros pre l w' post [(-> & <- & [= <- <-])|(post' & -> & E)]%links_app_inv; simpl.
      * rewrite list_lookup_insert_ne by lia.
        rewrite list_lookup_insert_eq by (rewrite length_app; simpl; lia).
        by rewrite last_snoc.
      * pose proof (rep_links _ _ H _ _ _ _ E) as Hl.
        apply links_app_inv in E as [(-> & -> & [= -> ->])|(post'' & -> & ->)].
        -- rewrite list_lookup_insert_eq by (rewrite length_insert, length_app; lia). done.
        -- assert (l ≠ t ∧ (l < e)%nat) as [? ?].
           { pose proof (rep_NoDup _ _ H) as Hnd.
             rewrite !fmap_app, fmap_cons in Hnd. simpl in Hnd.
             apply NoDup_app in Hnd as (Hnd & Hd & _). split; [|eapply (rep_lt _ _ l w' H); set_solver].
             intros ->. apply (Hd t); set_solver. }
           rewrite !list_lookup_insert_ne by lia. rewrite Hold by lia. rewrite Hl.
           by destruct post''.
    + intros l c Hl Hn. rewrite !fmap_app in Hn. simpl in Hn.
      rewrite !list_lookup_insert_ne in Hl by set_solver.
      apply (rep_removed _ _ H l); [|rewrite fmap_app; set_solver].
      by rewrite Hold in Hl by set_solver.
Qed.
(** ** Removing *)

(** The links that remain when the element between [pre] and [post] is taken out, if only it and
    its neighbours were written to. *)
Lemma links_remove s s' pre e v post :
  links s (pre ++ (e, v) :: post) →
  NoDup (pre ++ (e, v) :: post).*1 →
  (∀ l, l ≠ e → Some l ≠ fst <$> last pre → Some l ≠ fst <$> head post →
    elems s' !! l = elems s !! l) →
  (∀ pre' p w, pre = pre' ++ [(p, w)] →
    elems s' !! p = Some (node (fst <$> last pre') (fst <$> head post) w)) →
  (∀ n w post', post = (n, w) :: post' →
    elems s' !! n = Some (node (fst <$> last pre) (fst <$> head post') w)) →
  links s' (pre ++ post).
Proof.
  intros Hl Hnd Hother Hlast Hhead pre1 l w post1 E.
  rewrite fmap_app, fmap_cons in Hnd. simpl in Hnd.
  apply NoDup_app in Hnd as (Hnd1 & Hd & [He Hnd2]%NoDup_cons).
  apply app_eq_app in E as (k & [[-> E]|[-> E]]).
  - destruct k as [|x k]; simpl in E; [rewrite app_nil_r in *; by eapply Hhead|].
    injection E as <- ->.
    destruct k as [|[m u] k _] using rev_ind; [by eapply Hlast|].
    rewrite Hother.
    + rewrite (Hl pre1 l w (k ++ [(m, u)] ++ (e, v) :: post)) by by simplify_list_eq.
      by destruct k.
    + intros ->. apply (Hd e); rewrite ?fmap_app, ?fmap_cons; set_solver.
    + rewrite app_comm_cons, app_assoc, last_snoc. intros [= ->].
      rewrite !fmap_app, fmap_cons, fmap_app in Hnd1. simpl in Hnd1.
      apply NoDup_app in Hnd1 as (_ & _ & [Hx _]%NoDup_cons). set_solver.
    + destruct post as [|[n x] post]; [done|]. intros [= ->].
      apply (Hd n); rewrite ?fmap_app, ?fmap_cons; set_solver.
  - subst post. destruct k as [|[m u] k]; [rewrite app_nil_r in *; by eapply Hhead|].
    csimpl in *. rewrite fmap_app in Hd, He, Hnd2. csimpl in *.
    apply NoDup_cons in Hnd2 as [Hm Hnd2].
    rewrite Hother.
    + rewrite (Hl (pre ++ (e, v) :: (m, u) :: k) l w post1) by by simplify_list_eq.
      rewrite !last_app_cons. done.
    + intros ->. set_solver.
    + destruct pre as [|[p x] pre _] using rev_ind; [done|]. rewrite last_snoc. intros [= ->].
      apply (Hd p); rewrite ?fmap_app; set_solver.
    + intros [= ->]. set_solver.
Qed.

(** The first half of [Remove]: the predecessor, or the head, skips the element. *)
Lemma unlink_prev s s0 pre e v post :
  rep s (pre ++ (e, v) :: post) → elems s0 = elems s → cl_head s0 = cl_head s →
  ∃ s1,
    set_head_or_next s0 (fst <$> last pre) (fst <$> head post) = Ret s1 ∧
    (cl_head s1 = fst <$> head (pre ++ post) ∧ cl_tail s1 = cl_tail s0 ∧ cl_len s1 = cl_len s0 ∧
     cl_maxLen s1 = cl_maxLen s0 ∧ cl_wgDone s1 = cl_wgDone s0) ∧
    length (elems s1) = length (elems s0) ∧
    (∀ l, Some l ≠ fst <$> last pre → elems s1 !! l = elems s !! l) ∧
    (∀ pre' p w, pre = pre' ++ [(p, w)] →
      elems s1 !! p = Some (node (fst <$> last pre') (fst <$> head post) w)).
Proof.
  intros H HE Hh. unfold set_head_or_next. destruct pre as [|[p w] pre _] using rev_ind.
  - simpl. eexists. split_and!; [done|done..|intros l _; simpl; by rewrite HE|]. intros pre' p w E. by destruct pre'.
  - rewrite <-app_assoc in H. simpl in H. rewrite last_snoc. simpl.
    pose proof (rep_lookup _ _ _ _ _ H) as Hp.
    rewrite (SetNext_node s0 p (fst <$> last pre) (Some e) w) by by rewrite HE.
    eexists. split_and!; [done|..|].
    + simpl. rewrite Hh, (rep_head _ _ H). by destruct pre.
    + done.
    + done.
    + done.
    + done.
    + simpl. by rewrite length_insert.
    + intros l Hl. simpl. rewrite list_lookup_insert_ne by congruence. by rewrite HE.
    + intros pre' p' w' [-> [= <- <-]]%app_inj_tail. simpl.
      rewrite list_lookup_insert_eq; [done|]. rewrite HE. by eapply lookup_lt_Some.
Qed.

(** The second half: the successor, or the tail, points back past the element. *)
Lemma unlink_next s s0 pre e v post :
  rep s (pre ++ (e, v) :: post) → cl_tail s0 = cl_tail s →
  (∀ l, Some l ≠ fst <$> last pre → elems s0 !! l = elems s !! l) →
  ∃ s1,
    set_tail_or_prev s0 (fst <$> last pre) (fst <$> head post) = Ret s1 ∧
    (cl_head s1 = cl_head s0 ∧ cl_tail s1 = fst <$> last (pre ++ post) ∧ cl_len s1 = cl_len s0 ∧
     cl_maxLen s1 = cl_maxLen s0 ∧ cl_wgDone s1 = cl_wgDone s0) ∧
    length (elems s1) = length (elems s0) ∧
    (∀ l, Some l ≠ fst <$> head post → elems s1 !! l = elems s0 !! l) ∧
    (∀ n w post', post = (n, w) :: post' →
      elems s1 !! n = Some (node (fst <$> last pre) (fst <$> head post') w)).
Proof.
  intros H Ht HE. unfold set_tail_or_prev. destruct post as [|[n w] post].
  - simpl. rewrite app_nil_r. eexists. split_and!; [done|done..|]. intros n w post' E. done.
  - simpl. pose proof (rep_NoDup _ _ H) as Hnd. rewrite fmap_app in Hnd. csimpl in Hnd.
    apply NoDup_app in Hnd as (_ & Hd & _).
    replace (pre ++ (e, v) :: (n, w) :: post) with ((pre ++ [(e, v)]) ++ (n, w) :: post) in H
      by by rewrite <-app_assoc.
    pose proof (rep_lookup _ _ _ _ _ H) as Hn. rewrite last_snoc in Hn. simpl in Hn.
    assert (Hne : Some n ≠ fst <$> last pre).
    { destruct pre as [|[p x] pre _] using rev_ind; [done|]. rewrite last_snoc. intros [= ->].
      apply (Hd p); rewrite ?fmap_app; set_solver. }
    rewrite (SetPrev_node s0 n (Some e) (fst <$> head post) w) by by rewrite HE.
    assert (n < length (elems s0))%nat.
    { eapply lookup_lt_Some. rewrite HE; done. }
    eexists. split_and!; [done|..|].
    + done.
    + simpl. rewrite Ht, (rep_tail _ _ H), !last_app_cons. done.
    + done.
    + done.
    + done.
    + simpl. by rewrite length_insert.
    + intros l Hl. simpl. by rewrite list_lookup_insert_ne by congruence.
    + intros n' w' post' [= <- <- <-]. simpl. by rewrite list_lookup_insert_eq.
Qed.

(** An element, its predecessor and its successor are three elements. *)
Lemma neighbours_distinct (pre : list (addr * V)) (e : addr) (v : V) (post : list (addr * V)) :
  NoDup (pre ++ (e, v) :: post).*1 →
  Some e ≠ fst <$> last pre ∧ Some e ≠ fst <$> head post ∧
  (∀ p : addr, Some p = fst <$> last pre → Some p ≠ fst <$> head post).
Proof.
  rewrite fmap_app. csimpl. intros (_ & Hd & [He _]%NoDup_cons)%NoDup_app.
  assert (Hin : ∀ p, Some p = fst <$> last pre → p ∈ pre.*1).
  { intros p. destruct pre as [|[q x] pre _] using rev_ind; [done|]. rewrite last_snoc.
    intros [= ->]. rewrite fmap_app. set_solver. }
  assert (Hout : ∀ p, Some p = fst <$> head post → p ∈ post.*1).
  { intros p. destruct post as [|[q x] post]; [done|]. intros [= ->]. csimpl. set_solver. }
  split_and!.
  - intros E%Hin. apply (Hd e); set_solver.
  - intros E%Hout. done.
  - intros p E%Hin E'%Hout. apply (Hd p); set_solver.
Qed.

(** The guards of [Remove] pass for an element of the list. *)
Lemma Remove_guards s pre e v post :
  rep s (pre ++ (e, v) :: post) →
  bool_decide (cl_head s = None) || bool_decide (cl_tail s = None) = false ∧
  bool_decide ((fst <$> last pre) = @None addr) && negb (bool_decide (cl_head s = Some e)) = false ∧
  bool_decide ((fst <$> head post) = @None addr) && negb (bool_decide (cl_tail s = Some e)) = false.
Proof.
  intros H. rewrite (rep_head _ _ H), (rep_tail _ _ H), last_app_cons.
  assert (∃ y, last ((e, v) :: post) = Some y) as [y Hy].
  { destruct post as [|? ? _] using rev_ind; [by eexists|]. rewrite app_comm_cons, last_snoc. by eexists. }
  split_and!.
  - rewrite Hy. by destruct pre.
  - destruct pre as [|? ? _] using rev_ind; simpl; [by rewrite bool_decide_eq_true_2|by rewrite last_snoc].
  - destruct post; simpl; [by rewrite (bool_decide_eq_true_2 (Some e = Some e))|done].
Qed.

Lemma wg_after_remove s pre e v post :
  rep s (pre ++ (e, v) :: post) →
  (if cl_len s =? 1 then false else cl_wgDone s) = bool_decide (pre ++ post ≠ []).
Proof.
  intros H. rewrite (rep_len _ _ H), (rep_wg _ _ H). unfold zlen.
  rewrite length_app, length_cons, Nat.add_succ_r, <-length_app.
  rewrite (bool_decide_eq_true_2 (pre ++ (e, v) :: post ≠ [])) by by destruct pre.
  destruct (pre ++ post) as [|x l]; [done|].
  by destruct (Z.eqb_spec (Z.of_nat (S (length (x :: l)))) 1); [simpl in *; lia|].
Qed.

(** Removing an element of the list takes it out and leaves it its links. *)
Lemma Remove_rep s pre e v post :
  rep s (pre ++ (e, v) :: post) →
  ∃ s', Remove s e = Ret (v, s') ∧ rep s' (pre ++ post) ∧
    elems s' !! e = Some (dead (fst <$> last pre) (fst <$> head post) v) ∧
    cl_maxLen s' = cl_maxLen s ∧ length (elems s') = length (elems s) ∧
    (∀ l, l ∉ (pre ++ (e, v) :: post).*1 → elems s' !! l = elems s !! l).
Proof.
  intros H. unfold Remove, deref. simpl. pose proof (rep_lookup _ _ _ _ _ H) as He.
  rewrite He. simpl. destruct (Remove_guards _ _ _ _ _ H) as (-> & -> & ->).
  set (s0 := with_list s _ _ _ _).
  destruct (unlink_prev s s0 pre e v post H) as (s1 & -> & (Hh1 & Ht1 & Hl1 & Hm1 & Hw1) & Hlen1 & HE1 & HP1);
    [done..|]. simpl.
  destruct (unlink_next s s1 pre e v post H) as (s2 & -> & (Hh2 & Ht2 & Hl2 & Hm2 & Hw2) & Hlen2 & HE2 & HN2);
    [by rewrite Ht1|done|]. simpl.
  pose proof (rep_NoDup _ _ H) as Hnd.
  destruct (neighbours_distinct _ _ _ _ Hnd) as (Hep & Hen & Hpn).
  rewrite (SetRemoved_node s2 e (fst <$> last pre) (fst <$> head post) v)
    by (rewrite HE2, HE1 by done; exact He). simpl.
  assert (Hlt : (e < length (elems s2))%nat).
  { rewrite Hlen2, Hlen1. by eapply lookup_lt_Some. }
  assert (Hframe : ∀ l, l ∉ (pre ++ (e, v) :: post).*1 →
    elems (with_elem s2 e (dead (fst <$> last pre) (fst <$> head post) v)) !! l = elems s !! l).
  { intros l. rewrite fmap_app. csimpl. intros Hl. simpl.
    rewrite list_lookup_insert_ne by set_solver. rewrite HE2, HE1; [done|..].
    - destruct pre as [|[p x] pre _] using rev_ind; [done|]. rewrite last_snoc.
      intros [= ->]. rewrite fmap_app in Hl. set_solver.
    - destruct post as [|[n x] post]; [done|]. intros [= ->]. set_solver. }
  eexists. split_and!; [done| | | | |done].
  - split; simpl.
    + rewrite fmap_app in *. csimpl in Hnd.
      apply NoDup_app in Hnd as (? & ? & [? ?]%NoDup_cons). apply NoDup_app. set_solver.
    + by rewrite Hh2.
    + done.
    + rewrite Hl2, Hl1. simpl. rewrite (rep_len _ _ H).
      pose proof (rep_max _ _ H) as Hm. pose proof (zlen_nonneg post). pose proof (zlen_nonneg pre).
      unfold zlen in *. rewrite !length_app in *. simpl in *.
      rewrite wrap64_id by (unfold in_int64, MinInt64; lia). lia.
    + rewrite Hm2, Hm1. simpl. pose proof (rep_max _ _ H) as Hm.
      unfold zlen in *. rewrite !length_app in *. simpl in *. lia.
    + rewrite Hw2, Hw1. apply (wg_after_remove _ _ _ _ _ H).
    + apply (links_remove s _ pre e v post); [apply (rep_links _ _ H)|done|..]; simpl.
      * intros l H1 H2 H3. rewrite list_lookup_insert_ne by done. by rewrite HE2, HE1.
      * intros pre' p w ->. rewrite last_snoc in Hep, Hpn. simpl in *.
        rewrite list_lookup_insert_ne by congruence. rewrite HE2 by by apply Hpn. by eapply HP1.
      * intros n w post' E. rewrite list_lookup_insert_ne by (intros ->; by subst post).
        by eapply HN2.
    + intros l c Hc Hn. destruct (decide (l = e)) as [->|Hne].
      * rewrite list_lookup_insert_eq in Hc by done. by simplify_eq.
      * rewrite fmap_app in Hn. assert (l ∉ (pre ++ (e, v) :: post).*1) as Hl
          by (rewrite fmap_app; csimpl; set_solver).
        apply (rep_removed _ _ H l); [|done]. by rewrite <-Hframe.
  - simpl. by rewrite list_lookup_insert_eq.
  - simpl. by rewrite Hm2, Hm1.
  - simpl. by rewrite length_insert, Hlen2, Hlen1.
Qed.

(** Cutting the links of a removed element changes nothing for the list. *)
Lemma removed_update_rep s xs l c c' :
  rep s xs → elems s !! l = Some c → ce_removed c = true →
  ce_removed c' = true → ce_prevDone c' = ce_prevDone c → ce_nextDone c' = ce_nextDone c →
  rep (with_elem s l c') xs.
Proof.
  intros H Hl Hc Hc' Hp Hn.
  assert (Hout : l ∉ xs.*1).
  { intros ([l' v] & -> & Hin)%list_elem_of_fmap.
    destruct (rep_value _ _ _ _ H Hin) as (d & Hd & _ & ?). simpl in *. congruence. }
  destruct H as [H1 H2 H3 H4 H5 H6 H7 H8]. split; try done.
  - intros pre m v post E. simpl. rewrite list_lookup_insert_ne; [by eapply H7|].
    intros ->. apply Hout. rewrite E, fmap_app. csimpl. set_solver.
  - intros m d Hm Hn'. simpl in Hm. destruct (decide (m = l)) as [->|].
    + rewrite list_lookup_insert_eq in Hm by by eapply lookup_lt_Some.
      destruct (H8 _ _ Hl Hout) as (_ & ? & ?). simplify_eq. rewrite Hp, Hn. done.
    + rewrite list_lookup_insert_ne in Hm by done. by eapply H8.
Qed.

Lemma DetachPrev_rep s xs l c :
  rep s xs → elems s !! l = Some c → ce_removed c = true →
  ∃ s', DetachPrev s l = Ret s' ∧ rep s' xs ∧ cl_maxLen s' = cl_maxLen s ∧
    length (elems s') = length (elems s) ∧
    (∀ m, m ≠ l → elems s' !! m = elems s !! m) ∧ Next s' l = Next s l.
Proof.
  intros H Hl Hc. unfold DetachPrev, deref. simpl. rewrite Hl. simpl. rewrite Hc. simpl.
  eexists. split_and!; [done|by eapply removed_update_rep|done|simpl; by rewrite length_insert|..].
  - intros m Hm. simpl. by rewrite list_lookup_insert_ne.
  - unfold Next, deref. simpl.
    rewrite list_lookup_insert_eq by by eapply lookup_lt_Some. by rewrite Hl.
Qed.

Lemma DetachNext_rep s xs l c :
  rep s xs → elems s !! l = Some c → ce_removed c = true →
  ∃ s', DetachNext s l = Ret s' ∧ rep s' xs.
Proof.
  intros H Hl Hc. unfold DetachNext, deref. simpl. rewrite Hl. simpl. rewrite Hc. simpl.
  eexists. split; [done|by eapply removed_update_rep].
Qed.

(** A key occurs at one place only. *)
Lemma NoDup_split_unique pre (l : addr) (v : V) post pre' v' post' :
  NoDup (pre ++ (l, v) :: post).*1 →
  pre ++ (l, v) :: post = pre' ++ (l, v') :: post' → pre = pre' ∧ v = v' ∧ post = post'.
Proof.
  intros Hnd E.
  assert (length pre = length pre') as Hlen.
  { apply (NoDup_lookup _ _ _ l Hnd).
    - by rewrite list_lookup_fmap, list_lookup_middle.
    - by rewrite E, list_lookup_fmap, list_lookup_middle. }
  apply app_inj_1 in E as [-> [= -> ->]]; done.
Qed.

(** Writing to the value of an element. *)
Lemma modify_rep s pre l v post f :
  rep s (pre ++ (l, v) :: post) → rep (modify s l f) (pre ++ (l, f v) :: post).
Proof.
  intros H. pose proof (rep_lookup _ _ _ _ _ H) as Hl.
  assert (Hkeys : (pre ++ (l, f v) :: post).*1 = (pre ++ (l, v) :: post).*1).
  { by rewrite !fmap_app. }
  assert (Hnd := rep_NoDup _ _ H).
  split.
  - by rewrite Hkeys.
  - simpl. rewrite (rep_head _ _ H). by destruct pre.
  - simpl. rewrite (rep_tail _ _ H), !last_app_cons. by destruct post.
  - simpl. rewrite (rep_len _ _ H). unfold zlen. by rewrite !length_app.
  - simpl. pose proof (rep_max _ _ H) as Hm. unfold zlen in *. by rewrite length_app in *.
  - simpl. rewrite (rep_wg _ _ H). by destruct pre.
  - intros pre1 m w post1 E. simpl.
    destruct (decide (m = l)) as [->|Hne].
    + rewrite list_lookup_alter_eq, Hl. simpl.
      rewrite <-Hkeys in Hnd.
      by destruct (NoDup_split_unique _ _ _ _ _ _ _ Hnd E) as (-> & -> & ->).
    + rewrite list_lookup_alter_ne by done.
      destruct (app_eq_app _ _ _ _ E) as (k & [[-> E2]|[-> E2]]); destruct k as [|x k]; simplify_list_eq.
      * rewrite (rep_links _ _ H pre1 m w (k ++ (l, v) :: post)) by by simplify_list_eq.
        by destruct k.
      * rewrite (rep_links _ _ H (pre ++ (l, v) :: k) m w post1) by by simplify_list_eq.
        rewrite !last_app_cons. by destruct k.
  - intros m c Hm Hn. rewrite Hkeys in Hn. simpl in Hm.
    rewrite list_lookup_alter_ne in Hm; [by apply (rep_removed _ _ H m)|].
    intros ->. apply Hn. rewrite fmap_app. csimpl. set_solver.
Qed.

(** ** Loops over a list

    If every iteration keeps [I] (the visited part, the rest, the state) and leaves the visited
    element pointing at the rest, the loop visits exactly the elements it started with. *)
Lemma for_each_rule {S R} (view : S → CList V) (body : addr → V → S → outcome (S * option R))
    (I : list (addr * V) → list (addr * V) → S → Prop) (Q : S → R → Prop) :
  (∀ pre l v rest (s : S), I pre ((l, v) :: rest) s →
    (∃ c, elems (view s) !! l = Some c ∧ ce_Value c = v) ∧
    ∃ (s' : S) r, body l v s = Ret (s', r) ∧
      match r with
      | Some x => Q s' x
      | None => I (pre ++ [(l, v)]) rest s' ∧ Next (view s') l = Ret (fst <$> head rest)
      end) →
  ∀ rest pre fuel (s : S), (length rest ≤ fuel)%nat → I pre rest s →
    ∃ (s' : S) r, for_each view body fuel (fst <$> head rest) s = Ret (s', r) ∧
      match r with Some x => Q s' x | None => I (pre ++ rest) [] s' end.
Proof.
  intros Hbody. induction rest as [|[l v] rest IH]; intros pre fuel s Hf HI.
  - exists s, None. rewrite app_nil_r. by destruct fuel.
  - destruct fuel as [|fuel]; simpl in Hf; [lia|].
    destruct (Hbody _ _ _ _ _ HI) as [(c & Hc & Hv) (s' & r & Hb & Hr)].
    simpl. unfold deref. simpl. rewrite Hc. simpl. rewrite Hv, Hb. simpl.
    destruct r as [x|]; [by exists s', (Some x)|]. destruct Hr as [HI' ->]. simpl.
    destruct (IH (pre ++ [(l, v)]) fuel s' ltac:(lia) HI') as (s2 & r & -> & Hr).
    exists s2, r. rewrite <-app_assoc in Hr. done.
Qed.

Lemma for_list_rule {S R} (view : S → CList V) (body : addr → V → S → outcome (S * option R))
    (I : list (addr * V) → list (addr * V) → S → Prop) (Q : S → R → Prop) xs (s : S) :
  (∀ pre l v rest (s : S), I pre ((l, v) :: rest) s →
    (∃ c, elems (view s) !! l = Some c ∧ ce_Value c = v) ∧
    ∃ (s' : S) r, body l v s = Ret (s', r) ∧
      match r with
      | Some x => Q s' x
      | None => I (pre ++ [(l, v)]) rest s' ∧ Next (view s') l = Ret (fst <$> head rest)
      end) →
  rep (view s) xs → I [] xs s →
  ∃ (s' : S) r, for_list view body s = Ret (s', r) ∧
    match r with Some x => Q s' x | None => I xs [] s' end.
Proof.
  intros Hbody H HI. unfold for_list, Front. rewrite (rep_head _ _ H).
  apply (for_each_rule view body I Q Hbody xs [] _ s); [by apply rep_length|done].
Qed.

(** ** Reachable lists

    What goroutines do with a list: push, remove an element that is in it, cut links of a removed
    one. *)
Inductive cl_step (s : CList V) : CList V → Prop :=
| step_push v l s' : Len s < cl_maxLen s → PushBack s v = Ret (l, s') → cl_step s s'
| step_remove l c s' v : elems s !! l = Some c → ce_removed c = false →
    Remove s l = Ret (v, s') → cl_step s s'
| step_detach_next l s' : DetachNext s l = Ret s' → cl_step s s'
| step_detach_prev l s' : DetachPrev s l = Ret s' → cl_step s s'.

Lemma detach_removed s l c s' :
  elems s !! l = Some c → DetachNext s l = Ret s' ∨ DetachPrev s l = Ret s' → ce_removed c = true.
Proof.
  intros Hl. unfold DetachNext, DetachPrev, deref. simpl. rewrite Hl. simpl.
  by destruct (ce_removed c); intros [|].
Qed.

Lemma detach_lookup s l s' :
  DetachNext s l = Ret s' ∨ DetachPrev s l = Ret s' → ∃ c, elems s !! l = Some c.
Proof.
  unfold DetachNext, DetachPrev, deref. simpl.
  destruct (elems s !! l) as [c|]; [by exists c|]. by intros [|].
Qed.

Lemma live_in_list s xs l c :
  rep s xs → elems s !! l = Some c → ce_removed c = false →
  ∃ pre v post, xs = pre ++ (l, v) :: post.
Proof.
  intros H Hl Hc. destruct (decide (l ∈ xs.*1)) as [Hin|Hout].
  - apply list_elem_of_fmap in Hin as ([l' v] & -> & (pre & post & ->)%list_elem_of_split). eauto.
  - destruct (rep_removed _ _ H _ _ Hl Hout). congruence.
Qed.

Lemma cl_step_rep s xs s' : rep s xs → cl_step s s' → ∃ xs', rep s' xs'.
Proof.
  intros H [v l s1 Hlen Hp|l c s1 v Hl Hc Hr|l s1 Hd|l s1 Hd].
  - rewrite (rep_Len _ _ H) in Hlen.
    destruct (PushBack_rep _ _ v H Hlen) as (s2 & E & H2 & _).
    rewrite E in Hp. inv_ret. eauto.
  - destruct (live_in_list _ _ _ _ H Hl Hc) as (pre & w & post & ->).
    destruct (Remove_rep _ _ _ _ _ H) as (s2 & E & H2 & _).
    rewrite E in Hr. inv_ret. eauto.
  - destruct (detach_lookup s l s1 (or_introl Hd)) as [c Hl].
    destruct (DetachNext_rep _ _ _ _ H Hl (detach_removed _ _ _ _ Hl (or_introl Hd))) as (s2 & E & H2).
    rewrite E in Hd. inv_ret. eauto.
  - destruct (detach_lookup s l s1 (or_intror Hd)) as [c Hl].
    destruct (DetachPrev_rep _ _ _ _ H Hl (detach_removed _ _ _ _ Hl (or_intror Hd))) as (s2 & E & H2 & _).
    rewrite E in Hd. inv_ret. eauto.
Qed.

Inductive cl_reach : CList V → Prop :=
| reach_new n : 0 ≤ n ≤ MaxInt64 → cl_reach (newWithMax n)
| reach_step s s' : cl_reach s → cl_step s s' → cl_reach s'.

Lemma cl_reach_rep s : cl_reach s → ∃ xs, rep s xs.
Proof.
  induction 1 as [n Hn|s s' _ [xs H] Hs]; [exists []; by apply newWithMax_rep|].
  by eapply cl_step_rep.
Qed.

(** A goroutine that waits for an element, or for a neighbour of one, waits on a group that is
    not released, and is never asleep when there is something to return: no wakeup is lost. *)
Lemma waits_agree s xs :
  rep s xs →
  (FrontWait s = None ↔ cl_wgDone s = false) ∧ (BackWait s = None ↔ cl_wgDone s = false) ∧
  ∀ l c, elems s !! l = Some c →
    (NextWait s l = Ret None ↔ ce_nextDone c = false) ∧
    (PrevWait s l = Ret None ↔ ce_prevDone c = false).
Proof.
  intros H. split_and!.
  - unfold FrontWait. rewrite (rep_head _ _ H), (rep_wg _ _ H). by destruct xs.
  - unfold BackWait. rewrite (rep_tail _ _ H), (rep_wg _ _ H).
    destruct xs as [|x xs _] using rev_ind; [done|]. rewrite last_snoc.
    rewrite bool_decide_eq_true_2 by by destruct xs. done.
  - intros l c Hl. unfold NextWait, PrevWait, deref. simpl. rewrite Hl. simpl.
    destruct (ce_removed c) eqn:Hc.
    + assert (l ∉ xs.*1) as Hout.
      { intros ([l' v] & -> & Hin)%list_elem_of_fmap.
        destruct (rep_value _ _ _ _ H Hin) as (d & Hd & _ & ?). simpl in *. congruence. }
      destruct (rep_removed _ _ H _ _ Hl Hout) as (_ & -> & ->). by rewrite !orb_true_r.
    + destruct (live_in_list _ _ _ _ H Hl Hc) as (pre & v & post & ->).
      rewrite (rep_lookup _ _ _ _ _ H) in Hl. injection Hl as <-. simpl.
      by destruct (fst <$> last pre), (fst <$> head post).
Qed.

(** ** Iterating while elements are removed

    Elements are pushed at growing addresses, so the list is sorted by age. A removed element
    still points past itself, and no younger element of the list lies before the place it points at. *)
Definition next_ok s xs (l n : addr) : Prop :=
  (l < n < length (elems s))%nat ∧ ∀ m, m ∈ xs.*1 → (l < m)%nat → (n ≤ m)%nat.

Definition ordered s xs : Prop :=
  StronglySorted lt xs.*1 ∧
  ∀ l c n, elems s !! l = Some c → ce_next c = Some n → next_ok s xs l n.

Lemma sorted_split (pre post : list (addr * V)) l v :
  StronglySorted lt (pre ++ (l, v) :: post).*1 →
  (∀ m, m ∈ pre.*1 → (m < l)%nat) ∧ (∀ m, m ∈ post.*1 → (l < m)%nat) ∧
  StronglySorted lt (pre ++ post).*1.
Proof.
  rewrite !fmap_app. csimpl. intros (Hc & H1 & H2)%StronglySorted_app.
  apply StronglySorted_cons in H2 as [Hf H2]. rewrite Forall_forall in Hf. split_and!.
  - intros m Hm. apply Hc; set_solver.
  - done.
  - apply StronglySorted_app. split_and!; [set_solver|done|done].
Qed.

Lemma sorted_live_next s xs l c n :
  rep s xs → StronglySorted lt xs.*1 → l ∈ xs.*1 → elems s !! l = Some c → ce_next c = Some n →
  next_ok s xs l n.
Proof.
  intros H Hs ([l' v] & -> & (pre & post & ->)%list_elem_of_split)%list_elem_of_fmap Hl Hn.
  simpl in *. rewrite (rep_lookup _ _ _ _ _ H) in Hl. injection Hl as <-. simpl in Hn.
  destruct post as [|[k w] post]; [done|]. injection Hn as ->.
  destruct (sorted_split _ _ _ _ Hs) as (Hpre & Hpost & _). split; [split|].
  - apply Hpost. csimpl. set_solver.
  - eapply (rep_lt s _ n w H). set_solver.
  - intros m. rewrite fmap_app. csimpl. intros [Hm|[->|Hm]%elem_of_cons]%elem_of_app Hlt.
    + specialize (Hpre _ Hm). lia.
    + lia.
    + apply elem_of_cons in Hm as [->|Hm]; [done|].
      replace (pre ++ (l', v) :: (n, w) :: post) with ((pre ++ [(l', v)]) ++ (n, w) :: post) in Hs
        by by rewrite <-app_assoc.
      destruct (sorted_split _ _ _ _ Hs) as (_ & Hp & _). specialize (Hp _ Hm). lia.
Qed.

Lemma PushBack_ordered s xs v s' :
  rep s xs → ordered s xs → rep s' (xs ++ [(length (elems s), v)]) →
  length (elems s') = S (length (elems s)) →
  (∀ l, l ∉ xs.*1 → l ≠ length (elems s) → elems s' !! l = elems s !! l) →
  ordered s' (xs ++ [(length (elems s), v)]).
Proof.
  intros H [Hs Hn] H' Hlen Hframe.
  assert (Hlt : ∀ m, m ∈ xs.*1 → (m < length (elems s))%nat).
  { intros m ([m' w] & -> & Hin)%list_elem_of_fmap. by eapply rep_lt. }
  assert (Hs' : StronglySorted lt (xs ++ [(length (elems s), v)]).*1).
  { rewrite fmap_app. apply StronglySorted_app. split_and!; [|done|repeat constructor].
    intros a b Ha ->%list_elem_of_singleton. by apply Hlt. }
  split; [done|]. intros l c n Hl Hc.
  destruct (decide (l ∈ (xs ++ [(length (elems s), v)]).*1)) as [Hin|Hout].
  { by eapply sorted_live_next. }
  rewrite fmap_app in Hout. csimpl in Hout. rewrite Hframe in Hl by set_solver.
  destruct (Hn _ _ _ Hl Hc) as [Hr Hm]. split; [lia|].
  intros m. rewrite fmap_app. csimpl. intros [Hin| ->%list_elem_of_singleton]%elem_of_app ?; [by apply Hm|lia].
Qed.

Lemma Remove_ordered s pre e v post s' :
  rep s (pre ++ (e, v) :: post) → ordered s (pre ++ (e, v) :: post) → rep s' (pre ++ post) →
  elems s' !! e = Some (dead (fst <$> last pre) (fst <$> head post) v) →
  length (elems s') = length (elems s) →
  (∀ l, l ∉ (pre ++ (e, v) :: post).*1 → elems s' !! l = elems s !! l) →
  ordered s' (pre ++ post).
Proof.
  intros H [Hs Hn] H' He Hlen Hframe.
  assert (Hsub : ∀ m, m ∈ (pre ++ post).*1 → m ∈ (pre ++ (e, v) :: post).*1).
  { intros m. rewrite !fmap_app. csimpl. set_solver. }
  destruct (sorted_split _ _ _ _ Hs) as (_ & _ & Hs').
  split; [done|]. intros l c n Hl Hc.
  destruct (decide (l ∈ (pre ++ post).*1)) as [Hin|Hout]; [by eapply sorted_live_next|].
  assert (∃ c0, elems s !! l = Some c0 ∧ ce_next c0 = Some n) as (c0 & Hl0 & Hc0).
  { destruct (decide (l = e)) as [->|Hne].
    - rewrite He in Hl. simplify_eq. eexists. by split; [by apply rep_lookup in H|].
    - exists c. split; [|done]. rewrite <-Hframe; [done|].
      rewrite fmap_app in *. csimpl. set_solver. }
  destruct (Hn _ _ _ Hl0 Hc0) as [Hr Hm]. split; [by rewrite Hlen|].
  intros m Hin. apply Hm. by apply Hsub.
Qed.

Lemma detach_ordered s xs l c c' :
  ordered s xs → elems s !! l = Some c → ce_next c' = None ∨ ce_next c' = ce_next c →
  ordered (with_elem s l c') xs.
Proof.
  intros [Hs Hn] Hl Hc'. split; [done|]. intros m d n Hm Hd. simpl in Hm.
  unfold next_ok. simpl. rewrite length_insert.
  destruct (decide (m = l)) as [->|].
  - rewrite list_lookup_insert_eq in Hm by by eapply lookup_lt_Some. simplify_eq.
    destruct Hc' as [?|E]; [congruence|]. rewrite E in Hd. by eapply Hn.
  - rewrite list_lookup_insert_ne in Hm by done. by eapply Hn.
Qed.

Lemma cl_step_ordered s xs s' :
  rep s xs → ordered s xs → cl_step s s' → ∃ xs', rep s' xs' ∧ ordered s' xs'.
Proof.
  intros H Ho Hstep. destruct (cl_step_rep _ _ _ H Hstep) as [xs' H'].
  destruct Hstep as [v l s1 Hlen Hp|l c s1 v Hl Hc Hr|l s1 Hd|l s1 Hd].
  - rewrite (rep_Len _ _ H) in Hlen.
    destruct (PushBack_rep _ _ v H Hlen) as (s2 & E & H2 & _ & ? & ?).
    rewrite E in Hp. inv_ret. eexists. split; [done|]. by eapply PushBack_ordered.
  - destruct (live_in_list _ _ _ _ H Hl Hc) as (pre & w & post & ->).
    destruct (Remove_rep _ _ _ _ _ H) as (s2 & E & H2 & ? & _ & ? & ?).
    rewrite E in Hr. inv_ret. eexists. split; [done|]. by eapply Remove_ordered.
  - destruct (detach_lookup s l s1 (or_introl Hd)) as [c Hl].
    destruct (DetachNext_rep _ _ _ _ H Hl (detach_removed _ _ _ _ Hl (or_introl Hd))) as (s2 & E & H2).
    rewrite E in Hd. inv_ret. exists xs. split; [done|].
    unfold DetachNext, deref in E. simpl in E. rewrite Hl in E. simpl in E.
    destruct (ce_removed c); simplify_eq/=. inv_ret. eapply detach_ordered; [done..|]. by left.
  - destruct (detach_lookup s l s1 (or_intror Hd)) as [c Hl].
    destruct (DetachPrev_rep _ _ _ _ H Hl (detach_removed _ _ _ _ Hl (or_intror Hd))) as (s2 & E & H2 & _).
    rewrite E in Hd. inv_ret. exists xs. split; [done|].
    unfold DetachPrev, deref in E. simpl in E. rewrite Hl in E. simpl in E.
    destruct (ce_removed c); simplify_eq/=. inv_ret. eapply detach_ordered; [done..|]. by right.
Qed.

Lemma cl_reach_ordered s : cl_reach s → ∃ xs, rep s xs ∧ ordered s xs.
Proof.
  induction 1 as [n Hn|s s' _ (xs & H & Ho) Hs].
  - exists []. split; [by apply newWithMax_rep|]. split; [constructor|]. done.
  - by eapply cl_step_ordered.
Qed.

(** The elements a goroutine visits after [l] by [Next]. *)
Fixpoint walk (fuel : nat) s (l : addr) : list addr :=
  match fuel with
  | O => []
  | S fuel =>
      match Next s l with
      | Ret (Some n) => n :: walk fuel s n
      | _ => []
      end
  end.

(** Every younger element of the list is visited, unless the walk reached the end of a removed
    element, which happens only where the tail was removed or [DetachNext] was called. *)
Lemma walk_complete s xs fuel l c m :
  rep s xs → ordered s xs → elems s !! l = Some c → (length (elems s) - l ≤ fuel)%nat →
  m ∈ xs.*1 → (l < m)%nat →
  m ∈ walk fuel s l ∨
  ∃ d c', d ∈ l :: walk fuel s l ∧ (d < m)%nat ∧ elems s !! d = Some c' ∧ ce_removed c' = true ∧
    ce_next c' = None.
Proof.
  intros H Ho. revert l c. induction fuel as [|fuel IH]; intros l c Hl Hf Hm Hlt.
  { apply lookup_lt_Some in Hl. lia. }
  simpl. unfold Next, deref. simpl. rewrite Hl. simpl.
  destruct (ce_next c) as [n|] eqn:Hc.
  - destruct (proj2 Ho _ _ _ Hl Hc) as [Hr Hle]. specialize (Hle m Hm Hlt).
    destruct (decide (n = m)) as [->|Hne]; [left; set_solver|].
    destruct (lookup_lt_is_Some_2 (elems s) n ltac:(lia)) as [c2 Hc2].
    destruct (IH n c2 Hc2 ltac:(lia) Hm ltac:(lia)) as [Hin|(d & c' & Hd & ?)].
    + left. set_solver.
    + right. exists d, c'. split; [set_solver|done].
  - right. exists l, c. split_and!; [set_solver|done|done| |done].
    destruct (ce_removed c) eqn:Hrem; [done|].
    destruct (live_in_list _ _ _ _ H Hl Hrem) as (pre & v & post & ->).
    rewrite (rep_lookup _ _ _ _ _ H) in Hl. injection Hl as <-. simpl in Hc.
    destruct post as [|? post]; [|done].
    destruct (sorted_split _ _ _ _ (proj1 Ho)) as (Hpre & _). rewrite fmap_app in Hm. csimpl in Hm.
    apply elem_of_app in Hm as [Hm| ->%list_elem_of_singleton]; [|lia]. specialize (Hpre _ Hm). lia.
Qed.

End representation.

(** ** Theorems *)

(** C24. On every list that goroutines can build with [PushBack], [Remove] of elements of the list, [DetachNext] and
    [DetachPrev], the methods the running program uses, a goroutine in [FrontWait], [BackWait], [NextWait] or
    [PrevWait] goes to sleep only on a wait group that is not released, and the group is released exactly when there is
    an element to return or the element was removed: no wakeup is lost. Lists that [PushBackToMem] has touched are not
    among them: there a wakeup can be lost. *)
Theorem clist_no_lost_wakeups {V} (s : CList V) :
  cl_reach s →
  (FrontWait s = None ↔ cl_wgDone s = false) ∧ (BackWait s = None ↔ cl_wgDone s = false) ∧
  ∀ l c, elems s !! l = Some c →
    (NextWait s l = Ret None ↔ ce_nextDone c = false) ∧
    (PrevWait s l = Ret None ↔ ce_prevDone c = false).
Proof. intros [xs H]%cl_reach_rep. by eapply waits_agree. Qed.

(** A goroutine that holds any element, removed or not, reaches every younger element of the
    list by following [Next], unless on the way it stands on a removed element without
    successor (the tail at the time it was removed). *)
Theorem clist_iterator_complete {V} (s : CList V) l c m cm :
  cl_reach s → elems s !! l = Some c → elems s !! m = Some cm → ce_removed cm = false →
  (l < m)%nat →
  m ∈ walk (length (elems s)) s l ∨
  ∃ d c', d ∈ l :: walk (length (elems s)) s l ∧ (d < m)%nat ∧ elems s !! d = Some c' ∧
    ce_removed c' = true ∧ ce_next c' = None.
Proof.
  intros (xs & H & Ho)%cl_reach_ordered Hl Hm Hlive Hlt.
  destruct (live_in_list _ _ _ _ H Hm Hlive) as (pre & v & post & ->).
  eapply walk_complete; [done|done|done|lia| |done]. rewrite fmap_app. csimpl. set_solver.
Qed.

(** [PushBackToMem] dereferences nil when the new value is larger than every value of a non-empty list:
    the place found is the head, whose [Prev] is nil. *)
Theorem PushBackToMem_front_panics {V} (GetValue : V → Z) (s : CList V) h w xs v :
  rep s ((h, w) :: xs) → zlen ((h, w) :: xs) < cl_maxLen s → GetValue w < GetValue v →
  PushBackToMem GetValue s v = Panic.
Proof.
  intros H Hlen Hv. unfold PushBackToMem. rewrite (push_start_rep _ _ _ H Hlen). cbn [mbind outcome_bind].
  unfold mem_search. simpl.
  pose proof (rep_tail _ _ H) as Ht.
  assert (∃ t, cl_tail s = Some t) as [t ->].
  { rewrite Ht. destruct xs as [|x xs _] using rev_ind; [by eexists|].
    rewrite app_comm_cons, last_snoc. by eexists. }
  rewrite (rep_head _ _ H). simpl.
  pose proof (rep_lookup s [] h w xs H) as Hh. simpl in Hh.
  assert (Hh' : (elems s ++ [new_elem v]) !! h = Some (node None (fst <$> head xs) w)).
  { rewrite lookup_app_l; [done|]. by eapply lookup_lt_Some. }
  unfold deref at 1. simpl. rewrite lookup_app_r, Nat.sub_diag by done. simpl.
  rewrite length_app, Nat.add_comm. simpl. unfold deref. simpl. rewrite Hh'. simpl.
  rewrite (proj2 (Z.ltb_lt _ _) Hv). simpl. unfold Prev, deref. simpl. rewrite Hh'. done.
Qed.

(** A list of three elements, the middle one removed. *)
Definition after {A} (m : outcome (A * CList Z)) : CList Z :=
  match m with Ret (_, s) => s | Panic => New end.

Definition one_s : CList Z := after (PushBack New 10).
Definition two_s : CList Z := after (PushBack one_s 20).
Definition full_s : CList Z := after (PushBack two_s 30).
Definition three_s : CList Z := after (Remove full_s 1%nat).

Lemma three_reach : cl_reach three_s.
Proof.
  assert (H1 : PushBack New 10 = Ret (0%nat, one_s)) by (vm_compute; reflexivity).
  assert (H2 : PushBack one_s 20 = Ret (1%nat, two_s)) by (vm_compute; reflexivity).
  assert (H3 : PushBack two_s 30 = Ret (2%nat, full_s)) by (vm_compute; reflexivity).
  assert (H4 : Remove full_s 1%nat = Ret (20, three_s)) by (vm_compute; reflexivity).
  eapply (reach_step full_s).
  2: { eapply (step_remove full_s 1%nat); [vm_compute; reflexivity|done|exact H4]. }
  eapply (reach_step two_s); [|eapply (step_push two_s 30); [by vm_compute|exact H3]].
  eapply (reach_step one_s); [|eapply (step_push one_s 20); [by vm_compute|exact H2]].
  eapply (reach_step (newWithMax MaxLength)); [|eapply (step_push _ 10); [by vm_compute|exact H1]].
  constructor. unfold MaxLength, MaxInt64. lia.
Qed.

Lemma clist_no_lost_wakeups_witness :
  (NextWait three_s 2%nat = Ret None ↔ Some false = ce_nextDone <$> elems three_s !! 2%nat).
Proof.
  destruct (clist_no_lost_wakeups three_s three_reach) as (_ & _ & H).
  destruct (elems three_s !! 2%nat) as [c|] eqn:E; [|by vm_compute in E].
  rewrite (proj1 (H 2%nat c E)). simpl. split; [by intros ->|]. intros E2. by injection E2 as <-.
Defined.

Lemma clist_iterator_complete_witness : 2%nat ∈ walk 3 three_s 1.
Proof.
  destruct (elems three_s !! 1%nat) as [c|] eqn:H1; [|by vm_compute in H1].
  destruct (elems three_s !! 2%nat) as [cm|] eqn:H2; [|by vm_compute in H2].
  assert (H3 : ce_removed cm = false) by (vm_compute in H2; injection H2 as <-; reflexivity).
  destruct (clist_iterator_complete three_s 1 c 2 cm three_reach H1 H2 H3 ltac:(lia)) as [H|H];
    [exact H|]. replace (walk 3 three_s 1) with [2%nat] by (vm_compute; reflexivity). by apply list_elem_of_singleton.
Defined.

Lemma PushBackToMem_front_panics_witness :
  ∃ s, PushBack (V := Z) New 10 = Ret (0%nat, s) ∧ PushBackToMem (λ z, z) s 20 = Panic.
Proof.
  destruct (PushBack_rep (V := Z) New [] 10 New_rep ltac:(done)) as (s & E & H & Hm & _).
  exists s. split; [exact E|].
  apply (PushBackToMem_front_panics (λ z, z) s 0%nat 10 [] 20); [exact H|rewrite Hm; done|lia].
Defined.

(** Nothing stops an element from being removed twice: removing the middle element of three
    again succeeds and leaves a list of two elements whose length is one. *)
Theorem double_remove_corrupts_length :
  ∃ s', Remove three_s 1%nat = Ret (20, s') ∧
    Len s' = 1 ∧ Front s' = Some 0%nat ∧ walk 3 s' 0 = [2%nat].
Proof. exists (after (Remove three_s 1%nat)). split_and!; vm_compute; reflexivity. Qed.

(** [PushBackToMem] by steps, with a [Remove] between two of them. *)
Definition result_of (m : outcome (CList Z)) : CList Z := match m with Ret s => s | Panic => New end.
Definition mem_1 : CList Z := result_of (push_release (push_new one_s 5)).
Definition mem_2 : CList Z := after (Remove mem_1 0%nat).
Definition mem_3 : CList Z := result_of (push_count mem_2).
Definition mem_4 : CList Z := result_of (mem_link mem_3 1%nat InEmpty).

(** The only element of the list goes after its presence made [PushBackToMem] release nothing and before the length
    is counted: the new element is alone in a list whose wait group is not released, and a goroutine that called
    [FrontWait] on the empty list sleeps on. *)
Theorem PushBackToMem_loses_wakeup :
  push_release (push_new one_s 5) = Ret mem_1 ∧ Remove mem_1 0%nat = Ret (10, mem_2) ∧ FrontWait mem_2 = None ∧
  push_count mem_2 = Ret mem_3 ∧ mem_search (λ z, z) mem_3 1%nat = Ret InEmpty ∧
  mem_link mem_3 1%nat InEmpty = Ret mem_4 ∧ Front mem_4 = Some 1%nat ∧ Len mem_4 = 1 ∧ cl_wgDone mem_4 = false.
Proof. split_and!; vm_compute; reflexivity. Qed.
