(* ===== verification/TxCache.v ===== *)
(** * The cache of seen transactions (mempool/mempool.go)

    [mapTxCache] is a map from hashes of transactions to elements of a [container/list], which is ordered from
    the least to the most recently seen; [nopTxCache] remembers nothing. An element of the [container/list] is
    named by the number of elements made before it. [inv] ties map and list together and [abs] is the
    abstract cache, the hashes from the oldest to the newest; the methods refine [lru_push] and
    removal on it. *)

From Stdlib Require Import ZArith Lia Strings.Byte.
From stdpp Require Import base list gmap sets.
From S2P Require Import Prelude.
Local Open Scope Z_scope.

(** ** container/list, as far as it is used *)
Record List := mkList { li_made : nat; li_items : list (nat * bytes) }.

Definition list_New : List := mkList 0 [].
Definition list_Len (l : List) : Z := zlen (li_items l).
Definition list_Front (l : List) : option (nat * bytes) := head (li_items l).

(** [Init] empties the list; elements made later are new ones. *)
Definition list_Init (l : List) : List := mkList (li_made l) [].

Definition list_PushBack (l : List) (h : bytes) : nat * List :=
  (li_made l, mkList (S (li_made l)) (li_items l ++ [(li_made l, h)])).

(** An element that is not in the list is left alone. *)
Definition list_Remove (l : List) (e : nat) : List :=
  mkList (li_made l) (filter (λ x, x.1 ≠ e) (li_items l)).

Definition list_MoveToBack (l : List) (e : nat) : List :=
  mkList (li_made l) (filter (λ x, x.1 ≠ e) (li_items l) ++ filter (λ x, x.1 = e) (li_items l)).

(** ** mapTxCache *)
Record mapTxCache := mkMapTxCache {
  ca_size : Z;
  ca_map : gmap bytes nat;
  ca_list : List;
}.

Section cache.
(** sha256 *)
Variable sha256 : bytes → bytes.

Definition txKey (tx : bytes) : bytes := sha256 tx.

Definition newMapTxCache (cacheSize : Z) : mapTxCache := mkMapTxCache cacheSize ∅ list_New.

Definition mapTxCache_Reset (c : mapTxCache) : mapTxCache :=
  mkMapTxCache (ca_size c) ∅ (list_Init (ca_list c)).

Definition mapTxCache_Push (c : mapTxCache) (tx : bytes) : outcome (bool * mapTxCache) :=
  let txHash := txKey tx in
  match ca_map c !! txHash with
  | Some moved => Ret (false, mkMapTxCache (ca_size c) (ca_map c) (list_MoveToBack (ca_list c) moved))
  | None =>
      '(m, l) ← (if ca_size c <=? list_Len (ca_list c) then
                   popped ← or_panic (list_Front (ca_list c));
                   mret (delete popped.2 (ca_map c), list_Remove (ca_list c) popped.1)
                 else mret (ca_map c, ca_list c));
      let '(e, l) := list_PushBack l txHash in
      mret (true, mkMapTxCache (ca_size c) (<[txHash := e]> m) l)
  end.

Definition mapTxCache_Remove (c : mapTxCache) (tx : bytes) : mapTxCache :=
  let txHash := txKey tx in
  let popped := ca_map c !! txHash in
  mkMapTxCache (ca_size c) (delete txHash (ca_map c))
    (match popped with Some e => list_Remove (ca_list c) e | None => ca_list c end).

(** ** The interface [txCache] and its two implementations *)
Inductive txCache :=
| MapTxCache (c : mapTxCache)
| NopTxCache.

Definition cache_Reset (c : txCache) : txCache :=
  match c with MapTxCache c => MapTxCache (mapTxCache_Reset c) | NopTxCache => NopTxCache end.

Definition cache_Push (c : txCache) (tx : bytes) : outcome (bool * txCache) :=
  match c with
  | MapTxCache c => '(b, c) ← mapTxCache_Push c tx; mret (b, MapTxCache c)
  | NopTxCache => mret (true, NopTxCache)
  end.

Definition cache_Remove (c : txCache) (tx : bytes) : txCache :=
  match c with MapTxCache c => MapTxCache (mapTxCache_Remove c tx) | NopTxCache => NopTxCache end.

End cache.

(** ** The abstract cache *)
Definition abs (c : mapTxCache) : list bytes := (li_items (ca_list c)).*2.

Definition lru_push (size : Z) (l : list bytes) (h : bytes) : list bytes :=
  if decide (h ∈ l) then filter (λ x, x ≠ h) l ++ [h]
  else (if size <=? zlen l then tail l else l) ++ [h].

Record inv (c : mapTxCache) : Prop := mkInv {
  inv_size : 1 ≤ ca_size c;
  inv_len : zlen (abs c) ≤ ca_size c;
  inv_ids : NoDup (li_items (ca_list c)).*1;
  inv_fresh : ∀ i h, (i, h) ∈ li_items (ca_list c) → (i < li_made (ca_list c))%nat;
  inv_map : ∀ h i, ca_map c !! h = Some i ↔ (i, h) ∈ li_items (ca_list c);
}.

Lemma inv_NoDup c : inv c → NoDup (abs c).
Proof.
  intros [_ _ Hids _ Hmap]. unfold abs.
  assert (∀ i j h, (i, h) ∈ li_items (ca_list c) → (j, h) ∈ li_items (ca_list c) → i = j) as Hinj.
  { intros i j h Hi%Hmap Hj%Hmap. congruence. }
  clear Hmap. induction (li_items (ca_list c)) as [|[i h] l IH]; csimpl in *; [constructor|].
  apply NoDup_cons in Hids as [Hi Hids]. apply NoDup_cons. split.
  - intros ([j h'] & -> & Hj)%list_elem_of_fmap. apply Hi. simpl in *.
    rewrite (Hinj i j h') by set_solver. apply list_elem_of_fmap. by exists (j, h').
  - apply IH; [done|]. set_solver.
Qed.

Lemma newMapTxCache_inv n : 1 ≤ n → inv (newMapTxCache n).
Proof.
  intros Hn. split; simpl; [done|unfold zlen; simpl; lia|constructor|set_solver|].
  intros h i. rewrite lookup_empty. set_solver.
Qed.

Lemma Reset_inv c : inv c → inv (mapTxCache_Reset c) ∧ abs (mapTxCache_Reset c) = [].
Proof.
  intros [Hs _ _ _ _]. split; [|done].
  split; simpl; [done|unfold zlen; simpl; lia|constructor|set_solver|].
  intros h i. rewrite lookup_empty. set_solver.
Qed.

Lemma key_in_map c h : inv c → h ∈ abs c ↔ is_Some (ca_map c !! h).
Proof.
  intros H. unfold abs. rewrite list_elem_of_fmap. split.
  - intros ([i h'] & -> & Hin). exists i. by apply (inv_map _ H).
  - intros [i Hi%(inv_map _ H)]. by exists (i, h).
Qed.

(** The items other than the one of a hash, by number and by hash. *)
Lemma filter_ids c h i :
  inv c → (i, h) ∈ li_items (ca_list c) →
  (filter (λ x, x.1 ≠ i) (li_items (ca_list c))).*2 = filter (λ x, x ≠ h) (abs c) ∧
  (filter (λ x, x.1 = i) (li_items (ca_list c))).*2 = [h] .
Proof.
  intros H Hin. pose proof (inv_NoDup _ H) as Hnd. pose proof (inv_ids _ H) as Hids.
  unfold abs in *. revert Hin Hnd Hids. generalize (li_items (ca_list c)) as l.
  intros l (l1 & l2 & ->)%list_elem_of_split. rewrite !fmap_app. csimpl.
  intros (_ & Hd & [Hh _]%NoDup_cons)%NoDup_app (_ & Hd' & [Hi _]%NoDup_cons)%NoDup_app.
  assert (∀ x, x ∈ l1 ∨ x ∈ l2 → x.1 ≠ i ∧ x.2 ≠ h) as Hne.
  { intros [j k] Hx. simpl. split; intros ->.
    - destruct Hx as [Hx|Hx]; apply (list_elem_of_fmap_2 fst) in Hx; simpl in Hx; set_solver.
    - destruct Hx as [Hx|Hx]; apply (list_elem_of_fmap_2 snd) in Hx; simpl in Hx; set_solver. }
  rewrite !filter_app, !filter_cons. simpl.
  destruct (decide (i ≠ i)) as [|_]; [done|]. destruct (decide (h ≠ h)) as [|_]; [done|].
  destruct (decide (i = i)) as [_|]; [|done].
  assert (∀ l : list (nat * bytes), (∀ x, x ∈ l → x.1 ≠ i ∧ x.2 ≠ h) →
    filter (λ x, x.1 ≠ i) l = l ∧ filter (λ x, x.1 = i) l = [] ∧
    filter (λ x, x ≠ h) l.*2 = l.*2) as Hall.
  { clear. induction l as [|x l IH]; intros Hx; [done|]. csimpl. rewrite !filter_cons.
    destruct (Hx x ltac:(set_solver)) as [H1 H2].
    destruct (decide (x.1 ≠ i)) as [_|]; [|done]. destruct (decide (x.1 = i)); [done|].
    destruct (decide (x.2 ≠ h)) as [_|]; [|done].
    destruct IH as (-> & -> & ->); [set_solver|done]. }
  destruct (Hall l1) as (-> & -> & ->); [set_solver|].
  destruct (Hall l2) as (-> & -> & ->); [set_solver|].
  rewrite !fmap_app. done.
Qed.
(** Making room: the oldest entry goes when the cache is full. *)
Lemma evict c :
  inv c →
  ∃ m l, (if ca_size c <=? list_Len (ca_list c) then
            popped ← or_panic (list_Front (ca_list c));
            mret (delete popped.2 (ca_map c), list_Remove (ca_list c) popped.1)
          else mret (ca_map c, ca_list c)) = Ret (m, l) ∧
    li_made l = li_made (ca_list c) ∧ NoDup (li_items l).*1 ∧
    (∀ x, x ∈ li_items l → x ∈ li_items (ca_list c)) ∧
    (∀ h i, m !! h = Some i ↔ (i, h) ∈ li_items l) ∧
    (li_items l).*2 = (if ca_size c <=? zlen (abs c) then tail (abs c) else abs c) ∧
    zlen (li_items l) < ca_size c.
Proof.
  intros H. pose proof (inv_NoDup _ H) as Hnd. destruct H as [Hs Hl Hids Hf Hm].
  unfold list_Len, abs, zlen in *. rewrite length_fmap in *.
  destruct (Z.leb_spec (ca_size c) (Z.of_nat (length (li_items (ca_list c))))) as [Hfull|Hroom].
  2: { exists (ca_map c), (ca_list c). split_and!; try done. }
  unfold list_Front.
  destruct (li_items (ca_list c)) as [|[i0 h0] rest] eqn:E; [simpl in *; lia|].
  csimpl in *. eexists _, _. split; [done|]. simpl. rewrite E.
  apply NoDup_cons in Hids as [Hi0 Hids]. apply NoDup_cons in Hnd as [Hh0 Hnd].
  rewrite filter_cons. simpl. destruct (decide (i0 ≠ i0)) as [|_]; [done|].
  assert (filter (λ x : nat * bytes, x.1 ≠ i0) rest = rest) as ->.
  { clear -Hi0. induction rest as [|[j h] rest IH]; [done|]. rewrite filter_cons. csimpl in *.
    rewrite decide_True by set_solver. rewrite IH; [done|set_solver]. }
  split_and!; [done|done|set_solver| |done|lia].
  intros h i. destruct (decide (h = h0)) as [->|Hne].
  - rewrite lookup_delete_eq. split; [done|]. intros Hx%(list_elem_of_fmap_2 snd). done.
  - rewrite lookup_delete_ne by done. rewrite Hm. set_solver.
Qed.

(** At most [k] entries are younger than [h]. *)
Definition recent (k : Z) (l : list bytes) (h : bytes) : Prop :=
  ∃ a b, l = a ++ h :: b ∧ zlen b ≤ k.

Lemma lru_push_recent size l h x k :
  recent k l h → 0 ≤ k → k + 1 < size → recent (k + 1) (lru_push size l x) h.
Proof.
  intros (a & b & -> & Hb) Hk0 Hk. unfold lru_push.
  destruct (decide (x = h)) as [->|Hne].
  { rewrite decide_True by set_solver. eexists _, []. split; [done|]. unfold zlen. simpl. lia. }
  destruct (decide (x ∈ a ++ h :: b)) as [Hin|Hout].
  - rewrite filter_app, filter_cons. rewrite decide_True by done.
    exists (filter (λ y, y ≠ x) a), (filter (λ y, y ≠ x) b ++ [x]). split; [by rewrite <-app_assoc|].
    pose proof (length_filter (λ y, y ≠ x) b). unfold zlen in *. rewrite length_app. simpl. lia.
  - destruct (Z.leb_spec size (zlen (a ++ h :: b))) as [Hfull|].
    + destruct a as [|y a].
      { unfold zlen in *. simpl in *. lia. }
      exists a, (b ++ [x]). simpl. split; [by rewrite <-app_assoc|].
      unfold zlen in *. rewrite length_app. simpl. lia.
    + exists a, (b ++ [x]). split; [by rewrite <-app_assoc|].
      unfold zlen in *. rewrite length_app. simpl. lia.
Qed.

Lemma lru_push_last size l h : recent 0 (lru_push size l h) h.
Proof. unfold lru_push. destruct (decide _); [|destruct (_ <=? _)]; eexists _, []; done. Qed.

Lemma recent_in k l h : recent k l h → h ∈ l.
Proof. intros (a & b & -> & _). set_solver. Qed.


Section refinement.
Variable sha256 : bytes → bytes.
Notation txKey := (txKey sha256).
Notation mapTxCache_Push := (mapTxCache_Push sha256).
Notation mapTxCache_Remove := (mapTxCache_Remove sha256).

(** ** Refinement *)
Lemma Push_hit c tx i :
  inv c → ca_map c !! txKey tx = Some i →
  ∃ c', mapTxCache_Push c tx = Ret (false, c') ∧ inv c' ∧
    abs c' = lru_push (ca_size c) (abs c) (txKey tx) ∧ ca_size c' = ca_size c.
Proof.
  intros H Hi. unfold mapTxCache_Push. rewrite Hi. eexists. split; [done|].
  pose proof (proj1 (inv_map _ H _ _) Hi) as Hin.
  destruct (filter_ids _ _ _ H Hin) as [E1 E2].
  assert (Hp : li_items (list_MoveToBack (ca_list c) i) ≡ₚ li_items (ca_list c)).
  { simpl. rewrite Permutation_app_comm.
    apply (filter_app_complement (λ x : nat * bytes, x.1 = i)). }
  split_and!; [| |done].
  - split; simpl in *.
    + apply (inv_size _ H).
    + unfold abs, zlen. simpl. rewrite Hp. apply (inv_len _ H).
    + rewrite Hp. apply (inv_ids _ H).
    + intros j h. rewrite Hp. apply (inv_fresh _ H).
    + intros h j. rewrite Hp. apply (inv_map _ H).
  - unfold abs at 1. simpl. rewrite fmap_app, E1, E2. unfold lru_push.
    rewrite decide_True; [done|]. apply key_in_map; [done|]. by exists i.
Qed.

Lemma Push_miss c tx :
  inv c → ca_map c !! txKey tx = None →
  ∃ c', mapTxCache_Push c tx = Ret (true, c') ∧ inv c' ∧
    abs c' = lru_push (ca_size c) (abs c) (txKey tx) ∧ ca_size c' = ca_size c.
Proof.
  intros H Hi. unfold mapTxCache_Push. rewrite Hi.
  destruct (evict _ H) as (m & l & -> & Hmade & Hids & Hsub & Hm & Habs & Hlen). simpl.
  eexists. split; [done|].
  assert (Hnot : txKey tx ∉ abs c).
  { rewrite key_in_map by done. rewrite Hi. by intros [? ?]. }
  assert (Hnot' : txKey tx ∉ (li_items l).*2).
  { intros (x & E & Hj%Hsub)%list_elem_of_fmap. apply Hnot. rewrite E.
    by apply list_elem_of_fmap_2. }
  split_and!; [| |done].
  - split; simpl.
    + apply (inv_size _ H).
    + unfold abs, zlen in *. simpl. rewrite length_fmap, length_app. simpl. lia.
    + rewrite fmap_app. csimpl. apply NoDup_app. split_and!; [done| |apply NoDup_singleton].
      intros j ([j' h] & E & Hj%Hsub%(inv_fresh _ H))%list_elem_of_fmap Ej%list_elem_of_singleton.
      simpl in *. lia.
    + intros j h [Hj%Hsub%(inv_fresh _ H)|Hj]%elem_of_app; [lia|].
      apply list_elem_of_singleton in Hj as [= -> ->]. lia.
    + intros h j. rewrite elem_of_app, list_elem_of_singleton, <-Hm.
      destruct (decide (h = txKey tx)) as [->|Hne].
      * rewrite lookup_insert_eq. split; [intros [= ->]; by right|].
        intros [Hj|[= ->]]; [|done]. apply Hm, (list_elem_of_fmap_2 snd) in Hj. done.
      * rewrite lookup_insert_ne by done. naive_solver.
  - unfold abs at 1. simpl. rewrite fmap_app, Habs. unfold lru_push. by rewrite decide_False.
Qed.

Lemma Push_ok c tx :
  inv c →
  ∃ c', mapTxCache_Push c tx = Ret (bool_decide (txKey tx ∉ abs c), c') ∧ inv c' ∧
    abs c' = lru_push (ca_size c) (abs c) (txKey tx) ∧ ca_size c' = ca_size c.
Proof.
  intros H. destruct (ca_map c !! txKey tx) as [i|] eqn:Hi.
  - rewrite bool_decide_eq_false_2; [by eapply Push_hit|]. rewrite key_in_map by done. eauto.
  - rewrite bool_decide_eq_true_2; [by eapply Push_miss|]. rewrite key_in_map by done.
    rewrite Hi. by intros [? ?].
Qed.

Lemma Remove_ok c tx :
  inv c → inv (mapTxCache_Remove c tx) ∧
    abs (mapTxCache_Remove c tx) = filter (λ x, x ≠ txKey tx) (abs c) ∧
    ca_size (mapTxCache_Remove c tx) = ca_size c.
Proof.
  intros H. unfold mapTxCache_Remove. destruct (ca_map c !! txKey tx) as [i|] eqn:Hi.
  - pose proof (proj1 (inv_map _ H _ _) Hi) as Hin.
    destruct (filter_ids _ _ _ H Hin) as [E1 _]. pose proof (inv_NoDup _ H) as Hnd.
    split_and!; [|exact E1|done]. destruct H as [Hs Hl Hids Hf Hm]. split; simpl.
    + done.
    + unfold abs, zlen in *. simpl. rewrite length_fmap in *.
      pose proof (length_filter (λ x : nat * bytes, x.1 ≠ i) (li_items (ca_list c))). lia.
    + eapply sublist_NoDup; [exact Hids|]. apply fmap_sublist, sublist_filter.
    + intros j h [_ Hj]%list_elem_of_filter. by eapply Hf.
    + intros h j. rewrite list_elem_of_filter, <-Hm. simpl.
      destruct (decide (h = txKey tx)) as [->|Hne].
      * rewrite lookup_delete_eq. naive_solver.
      * rewrite lookup_delete_ne by done. split; [|naive_solver]. intros Hj. split; [|done].
        intros ->. apply Hne. apply Hm in Hj. clear -Hids Hj Hin.
        apply list_elem_of_lookup in Hj as [a Ha]. apply list_elem_of_lookup in Hin as [b Hb].
        assert (a = b) as ->; [|by simplify_eq].
        eapply (NoDup_lookup _ _ _ i Hids); by rewrite list_lookup_fmap, ?Ha, ?Hb.
  - assert (Hnot : txKey tx ∉ abs c).
    { rewrite key_in_map by done. rewrite Hi. by intros [? ?]. }
    assert (abs c = filter (λ x, x ≠ txKey tx) (abs c)) as E.
    { clear -Hnot. induction (abs c) as [|x l IH]; [done|]. rewrite filter_cons.
      rewrite decide_True by set_solver. f_equal. apply IH. set_solver. }
    split_and!; [|exact E|done]. destruct H as [Hs Hl Hids Hf Hm]. split; simpl; try done.
    intros h j. by rewrite delete_id.
Qed.

(** ** Sequences of operations *)
Inductive cache_op := OpPush (tx : bytes) | OpRemove (tx : bytes) | OpReset.

(** One operation: the answer of [Push] (true for the others) and the new cache. *)
Definition cache_do (c : mapTxCache) (op : cache_op) : outcome (bool * mapTxCache) :=
  match op with
  | OpPush tx => mapTxCache_Push c tx
  | OpRemove tx => Ret (true, mapTxCache_Remove c tx)
  | OpReset => Ret (true, mapTxCache_Reset c)
  end.

Fixpoint cache_run (c : mapTxCache) (ops : list cache_op) : outcome (list bool * mapTxCache) :=
  match ops with
  | [] => Ret ([], c)
  | op :: ops => '(b, c) ← cache_do c op; '(bs, c) ← cache_run c ops; Ret (b :: bs, c)
  end.

(** The same on the list of hashes, oldest first. *)
Definition lru_do (size : Z) (l : list bytes) (op : cache_op) : bool * list bytes :=
  match op with
  | OpPush tx => (bool_decide (txKey tx ∉ l), lru_push size l (txKey tx))
  | OpRemove tx => (true, filter (λ x, x ≠ txKey tx) l)
  | OpReset => (true, [])
  end.

Fixpoint lru_run (size : Z) (l : list bytes) (ops : list cache_op) : list bool * list bytes :=
  match ops with
  | [] => ([], l)
  | op :: ops =>
      let '(b, l) := lru_do size l op in
      let '(bs, l) := lru_run size l ops in (b :: bs, l)
  end.

Lemma cache_do_ok c op :
  inv c → ∃ c', cache_do c op = Ret ((lru_do (ca_size c) (abs c) op).1, c') ∧ inv c' ∧
    abs c' = (lru_do (ca_size c) (abs c) op).2 ∧ ca_size c' = ca_size c.
Proof.
  intros H. destruct op as [tx|tx|]; simpl.
  - by apply Push_ok.
  - destruct (Remove_ok c tx H) as (? & ? & ?). by eexists.
  - destruct (Reset_inv c H). by eexists.
Qed.

Lemma cache_run_ok ops : ∀ c,
  inv c → ∃ c', cache_run c ops = Ret ((lru_run (ca_size c) (abs c) ops).1, c') ∧ inv c' ∧
    abs c' = (lru_run (ca_size c) (abs c) ops).2 ∧ ca_size c' = ca_size c.
Proof.
  induction ops as [|op ops IH]; intros c H; simpl; [by exists c|].
  destruct (cache_do_ok c op H) as (c1 & -> & H1 & E1 & S1). simpl.
  destruct (IH c1 H1) as (c2 & -> & H2 & E2 & S2). simpl. rewrite S1, E1 in *.
  destruct (lru_do (ca_size c) (abs c) op) as [b l]. simpl in *.
  destruct (lru_run (ca_size c) l ops) as [bs l']. simpl in *. by exists c2.
Qed.

Lemma lru_pushes_recent size txs : ∀ l h k,
  recent k l h → 0 ≤ k → k + zlen txs < size →
  recent (k + zlen txs) (lru_run size l (OpPush <$> txs)).2 h.
Proof.
  induction txs as [|tx txs IH]; intros l h k Hr Hk Hlt.
  - unfold zlen. simpl. by rewrite Z.add_0_r.
  - csimpl. unfold zlen in Hlt. simpl in Hlt.
    assert (Hlt' : k + 1 + zlen txs < size) by (unfold zlen; lia).
    pose proof (zlen_nonneg txs).
    assert (H1 : recent (k + 1) (lru_push size l (txKey tx)) h) by (apply lru_push_recent; [done|lia|lia]).
    specialize (IH _ h (k + 1) H1 ltac:(lia) Hlt').
    destruct (lru_run size (lru_push size l (txKey tx)) (OpPush <$> txs)) as [bs l']. simpl in *.
    replace (k + zlen (tx :: txs)) with (k + 1 + zlen txs) by (unfold zlen; simpl; lia). done.
Qed.

End refinement.

(** ** Theorems *)

(** Run on any sequence of [Push], [Remove] and [Reset], the cache gives the answers of a
    least-recently-used list of hashes of its size, never panics, and ends with the entries of that list. *)
Theorem cache_refines_lru sha256 size ops :
  1 ≤ size →
  ∃ c, cache_run sha256 (newMapTxCache size) ops = Ret ((lru_run sha256 size [] ops).1, c) ∧
    abs c = (lru_run sha256 size [] ops).2 ∧ NoDup (abs c) ∧ zlen (abs c) ≤ size.
Proof.
  intros H. destruct (cache_run_ok sha256 ops _ (newMapTxCache_inv size H)) as (c & E & Hi & Ha & Hs).
  exists c. split_and!; [exact E|exact Ha|by apply inv_NoDup|].
  simpl in Hs. rewrite <-Hs. apply (inv_len _ Hi).
Qed.

Lemma cache_refines_lru_witness :
  ∃ c, cache_run id (newMapTxCache 2) [OpPush [x00]; OpPush [x01]; OpPush [x00]; OpPush [x02]; OpPush [x01]]
    = Ret ([true; true; false; true; true], c) ∧ abs c = [[x02]; [x01]].
Proof.
  destruct (cache_refines_lru id 2
    [OpPush [x00]; OpPush [x01]; OpPush [x00]; OpPush [x02]; OpPush [x01]] ltac:(lia))
    as (c & H1 & H2 & _). exists c. split; [rewrite H1|rewrite H2]; vm_compute; reflexivity.
Defined.

(** A transaction that was pushed is refused again as long as fewer than [size] other pushes
    followed, whatever was pushed and whatever the cache held before. *)
Theorem cache_remembers sha256 c tx txs :
  inv c → zlen txs < ca_size c →
  ∃ b bs c1 c2, cache_run sha256 c (OpPush tx :: (OpPush <$> txs)) = Ret (b :: bs, c1) ∧
    mapTxCache_Push sha256 c1 tx = Ret (false, c2).
Proof.
  intros H Hlen. simpl. destruct (Push_ok sha256 c tx H) as (c0 & -> & H0 & E0 & S0). simpl.
  destruct (cache_run_ok sha256 (OpPush <$> txs) c0 H0) as (c1 & -> & H1 & E1 & S1). simpl.
  destruct (Push_ok sha256 c1 tx H1) as (c2 & E2 & _).
  do 4 eexists. split; [done|]. rewrite E2, bool_decide_eq_false_2; [done|].
  intros Hn. apply Hn. rewrite E1, E0, S0.
  eapply (recent_in (0 + zlen txs)), lru_pushes_recent; [apply lru_push_last|lia|lia].
Qed.

Lemma cache_remembers_witness :
  ∃ b bs c1 c2, cache_run id (newMapTxCache 3) (OpPush [x00] :: (OpPush <$> [[x01]; [x02]])) = Ret (b :: bs, c1) ∧
    mapTxCache_Push id c1 [x00] = Ret (false, c2).
Proof. apply cache_remembers; [by apply newMapTxCache_inv|unfold zlen; simpl; lia]. Defined.
