(* ===== verification/Strconv.v ===== *)
(** * Decimal numbers and string splitting of the Go library

    [strconv.FormatInt(n, 10)] and [strconv.Itoa], [strconv.Atoi], [strings.Split] and the [%v] format of a byte
    slice, as accounts, the mempool and the stores use them. Strings are byte lists. *)

From Stdlib Require Import ZArith Lia Bool Strings.Byte.
From stdpp Require Import base list.
From S2P Require Import Prelude.
Local Open Scope Z_scope.

(** ** Formatting *)
Definition digit (d : Z) : byte := byte_of_Z (48 + d).

(** The digits of [n] in front of [acc]; [fuel] digits at most. An int64 has at most 19. *)
Fixpoint fmt_digits (fuel : nat) (n : Z) (acc : bytes) : bytes :=
  match fuel with
  | O => acc
  | S fuel => if n <? 10 then digit n :: acc else fmt_digits fuel (n / 10) (digit (n mod 10) :: acc)
  end.

Definition minus : byte := x2d.
Definition plus : byte := x2b.

Definition FormatInt (n : Z) : bytes :=
  if n <? 0 then minus :: fmt_digits 20 (- n) [] else fmt_digits 20 n [].

Definition Itoa (n : Z) : bytes := FormatInt n.

(** ** Parsing *)
Inductive num_error := ErrSyntax | ErrRange.

Definition is_digit (c : byte) : bool := (48 <=? byte_Z c) && (byte_Z c <=? 57).

Definition MaxUint64 : Z := 2 ^ 64 - 1.

(** The loop of [strconv.ParseUint] in base 10: the value so far, and the error that stopped it. *)
Fixpoint parse_uint_loop (s : bytes) (n : Z) : Z * option num_error :=
  match s with
  | [] => (n, None)
  | c :: s =>
      if negb (is_digit c) then (0, Some ErrSyntax)
      else if MaxUint64 / 10 + 1 <=? n then (MaxUint64, Some ErrRange)
      else let n1 := n * 10 + (byte_Z c - 48) in
           if MaxUint64 <? n1 then (MaxUint64, Some ErrRange)
           else parse_uint_loop s n1
  end.

Definition ParseUint (s : bytes) : Z * option num_error :=
  if bool_decide (s = []) then (0, Some ErrSyntax) else parse_uint_loop s 0.

(** [strconv.Atoi]: a value is returned beside a range error too. *)
Definition Atoi (s : bytes) : Z * option num_error :=
  match s with
  | [] => (0, Some ErrSyntax)
  | c :: r =>
      let neg := bool_decide (c = minus) in
      let body := if neg || bool_decide (c = plus) then r else s in
      match ParseUint body with
      | (_, Some ErrSyntax) => (0, Some ErrSyntax)
      | (un, err) =>
          if negb neg && (2 ^ 63 <=? un) then (2 ^ 63 - 1, Some ErrRange)
          else if neg && (2 ^ 63 <? un) then (- 2 ^ 63, Some ErrRange)
          else (if neg then - un else un, None)
      end
  end.

(** ** strings.Split with a one-byte separator *)
Fixpoint Split (s : bytes) (sep : byte) : list bytes :=
  match s with
  | [] => [[]]
  | c :: r =>
      if bool_decide (c = sep) then [] :: Split r sep
      else match Split r sep with
           | [] => [[c]]
           | p :: ps => (c :: p) :: ps
           end
  end.

(** The [%v] format of a byte slice: decimal numbers in brackets. *)
Definition space : byte := x20.

Fixpoint join_space (parts : list bytes) : bytes :=
  match parts with
  | [] => []
  | [p] => p
  | p :: ps => p ++ space :: join_space ps
  end.

Definition fmt_v (bz : bytes) : bytes :=
  x5b :: join_space ((λ b, FormatInt (byte_Z b)) <$> bz) ++ [x5d].

(** ** Round trip *)
Lemma byte_Z_of_Z z : 0 ≤ z < 256 → byte_Z (byte_of_Z z) = z.
Proof.
  intros Hz. unfold byte_of_Z, byte_Z. rewrite Z.mod_small by lia.
  destruct (Byte.of_N (Z.to_N z)) as [b|] eqn:E.
  - apply Byte.to_of_N in E. rewrite E. lia.
  - apply Byte.of_N_None_iff in E. lia.
Qed.

Lemma byte_Z_digit d : 0 ≤ d < 10 → byte_Z (digit d) = 48 + d.
Proof. intros Hd. unfold digit. apply byte_Z_of_Z. lia. Qed.

Lemma is_digit_digit d : 0 ≤ d < 10 → is_digit (digit d) = true.
Proof. intros Hd. unfold is_digit. rewrite byte_Z_digit by done. case_Z; lia || done. Qed.

Lemma parse_step d s v :
  0 ≤ d < 10 → 0 ≤ v → v * 10 + d ≤ 2 ^ 63 →
  parse_uint_loop (digit d :: s) v = parse_uint_loop s (v * 10 + d).
Proof.
  intros Hd Hv Hle. simpl. rewrite is_digit_digit by done. simpl. rewrite byte_Z_digit by done.
  replace (v * 10 + (48 + d - 48)) with (v * 10 + d) by lia.
  assert (E : MaxUint64 / 10 + 1 = 1844674407370955162) by reflexivity. rewrite E.
  unfold MaxUint64. case_Z; lia || done.
Qed.

Lemma parse_digits fuel : ∀ n acc,
  0 ≤ n < 10 ^ Z.of_nat fuel → n ≤ 2 ^ 63 → (0 < fuel)%nat →
  parse_uint_loop (fmt_digits fuel n acc) 0 = parse_uint_loop acc n.
Proof.
  induction fuel as [|fuel IH]; intros n acc Hn Hle Hf; [lia|]. cbn [fmt_digits].
  destruct (Z.ltb_spec n 10).
  - rewrite parse_step by lia. done.
  - assert (Hp : 10 ^ Z.of_nat (S fuel) = 10 * 10 ^ Z.of_nat fuel).
    { rewrite Nat2Z.inj_succ, Z.pow_succ_r; lia. }
    pose proof (Z.div_mod n 10 ltac:(lia)). pose proof (Z.mod_pos_bound n 10 ltac:(lia)).
    destruct fuel as [|fuel]; [simpl in Hn; lia|].
    rewrite Hp in Hn. rewrite IH; [|split; [apply Z.div_pos|apply Z.div_lt_upper_bound]; lia|lia|lia].
    rewrite parse_step by lia. f_equal. lia.
Qed.

Lemma fmt_digits_cons fuel : ∀ n acc,
  0 ≤ n → (0 < fuel)%nat → ∃ c r, fmt_digits fuel n acc = c :: r ∧ (c ≠ minus ∧ c ≠ plus).
Proof.
  assert (Hd : ∀ d, 0 ≤ d < 10 → digit d ≠ minus ∧ digit d ≠ plus).
  { intros d Hd. split; intros E; apply (f_equal byte_Z) in E; rewrite byte_Z_digit in E by done;
      [change (byte_Z minus) with 45 in E|change (byte_Z plus) with 43 in E]; lia. }
  assert (Hm : ∀ fuel n c r, c ≠ minus ∧ c ≠ plus → 0 ≤ n →
    ∃ c' r', fmt_digits fuel n (c :: r) = c' :: r' ∧ (c' ≠ minus ∧ c' ≠ plus)).
  { clear fuel. induction fuel as [|fuel IH]; intros n c r Hc Hn; simpl; [eauto|].
    destruct (Z.ltb_spec n 10); [eexists _, _; split; [done|]; apply Hd; lia|].
    apply IH; [apply Hd; apply Z.mod_pos_bound; lia|]. apply Z.div_pos; lia. }
  intros n acc Hn Hf. destruct fuel as [|fuel]; [lia|]. simpl.
  destruct (Z.ltb_spec n 10); [eexists _, _; split; [done|]; apply Hd; lia|].
  apply Hm; [apply Hd; apply Z.mod_pos_bound; lia|]. apply Z.div_pos; lia.
Qed.

(** Reading what was printed, for every int64. *)
Lemma Atoi_Itoa n : in_int64 n → Atoi (Itoa n) = (n, None).
Proof.
  unfold in_int64, MinInt64, MaxInt64, Itoa, FormatInt. intros Hn.
  assert (H20 : 2 ^ 63 < 10 ^ Z.of_nat 20) by (vm_compute; reflexivity).
  destruct (Z.ltb_spec n 0).
  - destruct (fmt_digits_cons 20 (- n) [] ltac:(lia) ltac:(lia)) as (c & r & E & _).
    unfold Atoi. rewrite (bool_decide_eq_true_2 (minus = minus)) by done. simpl orb. cbv iota.
    unfold ParseUint. rewrite bool_decide_eq_false_2 by by rewrite E.
    rewrite parse_digits by lia. simpl. case_Z; try lia. f_equal. lia.
  - destruct (fmt_digits_cons 20 n [] ltac:(lia) ltac:(lia)) as (c & r & E & Hc1 & Hc2).
    unfold Atoi. rewrite E.
    rewrite !bool_decide_eq_false_2 by done. simpl orb. cbv iota.
    unfold ParseUint. rewrite bool_decide_eq_false_2 by done. rewrite <-E.
    rewrite parse_digits by lia. simpl. case_Z; try lia. done.
Qed.

Lemma Itoa_inj a b : in_int64 a → in_int64 b → Itoa a = Itoa b → a = b.
Proof. intros Ha Hb E. apply (f_equal Atoi) in E. rewrite !Atoi_Itoa in E by done. congruence. Qed.
