(* ===== verification/Account.v ===== *)
(** * Accounts and snapshots (account/account.go)

    Balances are decimal strings in a database, one per account. [Check] lets every parsed
    transaction pass (the failing returns are commented out in the code), [Save] moves an amount, and the
    increments of [snapshotCache] are merged into the snapshot every few blocks.

    The package's variables [db], [snapshot] and [snapshotCache] are one record of state.
    [json.Unmarshal] into a [TxArg] is a parameter. A Go map is a gmap; [range] over the cache visits its
    keys once each, in the order of [map_to_list]. *)

From Stdlib Require Import ZArith Lia Strings.Byte String.
From stdpp Require Import base list gmap sets.
From S2P Require Import Prelude Strconv ValidatorSet.
Local Open Scope Z_scope.

(** Names in the code are Go string literals. *)
Definition str (s : string) : bytes := String.list_byte_of_string s.

(** ** Data *)
Record AccountLog := mkAccountLog {
  al_ID : bytes;
  al_TxType : bytes;
  al_From : bytes;
  al_To : bytes;
  al_Time : bytes;
  al_Amount : Z;
  al_Operate : Z;
  al_Logtype : Z;
}.

(** [new(AccountLog)] *)
Definition zero_log : AccountLog := mkAccountLog [] [] [] [] [] 0 0 0.

Record TxArg := mkTxArg {
  ta_ID : bytes;
  ta_TxType : bytes;
  ta_Sender : bytes;
  ta_Receiver : bytes;
  ta_Content : bytes;
  ta_TxSignature : bytes;
  ta_Operate : Z;
}.

Record Snapshot := mkSnapshot {
  sn_Version : Z;
  sn_Content : option (gmap bytes bytes);
  sn_ValSet : option ValidatorSet;
  sn_NextValSet : option ValidatorSet;
}.

Record accounts := mkAccounts {
  ac_db : gmap bytes bytes;
  ac_snapshot : Snapshot;
  ac_cache : gmap bytes Z;
}.

(** ** Strings and numbers *)
Definition byte2digit (digitByte : option bytes) : Z := (Atoi (default [] digitByte)).1.
Definition digit2byte (num : Z) : bytes := Itoa num.

Definition getState (a : accounts) (key : bytes) : option bytes := ac_db a !! key.

Definition setState (a : accounts) (key val : bytes) : accounts :=
  mkAccounts (<[key := val]> (ac_db a)) (ac_snapshot a) (ac_cache a).

(** ** Parsing *)
Section parse.
(** [json.Unmarshal] into a fresh [TxArg]; [None] is an error. *)
Variable unmarshalTxArg : bytes → option TxArg.

Definition underscore : byte := x5f.

Definition parseTx (tx : bytes) : option AccountLog :=
  match unmarshalTxArg tx with
  | None => None
  | Some txArgs =>
      if negb (bytes_equal (ta_TxType txArgs) (str "tx")) then
        Some (mkAccountLog [] (ta_TxType txArgs) [] [] [] 0 0 0)
      else
        match Split (ta_Content txArgs) underscore with
        | [a0; a1; a2; a3] =>
            match Atoi a2 with
            | (_, Some _) => None
            | (amount, None) =>
                Some (mkAccountLog (ta_ID txArgs) (ta_TxType txArgs) a0 a1 a3 amount (ta_Operate txArgs) 0)
            end
        | _ => None
        end
  end.

Definition NewAccountLog (tx : bytes) : option AccountLog := parseTx tx.
End parse.

(** ** Checking and saving *)

(** Every branch of the code returns true. *)
Definition Check (a : accounts) (l : AccountLog) : bool :=
  if bytes_equal (al_TxType l) (str "checkpoint") || bytes_equal (al_TxType l) (str "addtx") then true
  else if al_Amount l <=? 0 then true
  else if bytes_equal (al_TxType l) (str "relaytx") && (al_Operate l =? 1) then true
  else
    let balanceToStr := getState a (al_To l) in
    let balanceFromStr := getState a (al_From l) in
    if negb (bytes_equal (al_From l) []) && bool_decide (balanceFromStr = None)
       && negb (bytes_equal (al_TxType l) (str "init")) then true
    else if negb (bytes_equal (al_From l) []) && bool_decide (balanceToStr = None)
            && negb (bytes_equal (al_TxType l) (str "relaytx") && (al_Operate l =? 0)) then true
    else if negb (bytes_equal (al_From l) []) && (byte2digit balanceFromStr <? al_Amount l) then true
    else true.

(** [oldVal + amount] and [oldVal - amount] on Go's int. *)
Definition SetSnapshotCache (a : accounts) (key : bytes) (amount : Z) (incr : bool) : accounts :=
  if bytes_equal key [] then a else
  let oldVal := default 0 (ac_cache a !! key) in
  let new := if incr then wrap64 (oldVal + amount) else wrap64 (oldVal - amount) in
  mkAccounts (ac_db a) (ac_snapshot a) (<[key := new]> (ac_cache a)).

(** The expense and the income of [Save]. *)
Definition save_from (a : accounts) (l : AccountLog) : accounts :=
  if negb (bytes_equal (al_TxType l) (str "relaytx")) || (al_Operate l =? 0) then
    if negb (bytes_equal (al_From l) []) then
      let balanceFrom := byte2digit (getState a (al_From l)) in
      setState a (al_From l) (digit2byte (wrap64 (balanceFrom - al_Amount l)))
    else a
  else a.

Definition save_to (a : accounts) (l : AccountLog) : accounts :=
  if negb (bytes_equal (al_TxType l) (str "relaytx")) || (al_Operate l =? 1) then
    let balanceTo :=
      if negb (bytes_equal (al_From l) []) then
        wrap64 (byte2digit (getState a (al_To l)) + al_Amount l)
      else al_Amount l in
    setState a (al_To l) (digit2byte balanceTo)
  else a.

Definition Save (a : accounts) (l : AccountLog) : accounts :=
  if bytes_equal (al_TxType l) (str "checkpoint") || bytes_equal (al_TxType l) (str "addtx") then a
  else
    let a := save_from a l in
    let a := save_to a l in
    let a := SetSnapshotCache a (al_From l) (al_Amount l) false in
    SetSnapshotCache a (al_To l) (al_Amount l) true.

(** ** Snapshots *)

(** The merge of one increment into the content. *)
Definition merge_one (content : gmap bytes bytes) (kv : bytes * Z) : gmap bytes bytes :=
  let oldVal := byte2digit (content !! kv.1) in
  <[kv.1 := Itoa (wrap64 (oldVal + kv.2))]> content.

Definition GenerateSnapshotFast (a : accounts) (version : Z) (set nextset : ValidatorSet) : accounts :=
  let content := default ∅ (sn_Content (ac_snapshot a)) in
  let tempSnapshotCache := ac_cache a in
  let content := foldl merge_one content (map_to_list tempSnapshotCache) in
  mkAccounts (ac_db a)
    (mkSnapshot version (Some content) (Some (Copy set)) (Some (Copy nextset))) ∅.

(** [db.Iterator("0", "z")]: the keys from "0" up to and without "z". *)
Definition in_range (k : bytes) : bool :=
  match bytes_compare (str "0") k with
  | Gt => false
  | _ => match bytes_compare k (str "z") with Lt => true | _ => false end
  end.

Definition GetAllStates (a : accounts) : gmap bytes bytes :=
  filter (λ kv, in_range kv.1 = true) (ac_db a).

Definition GenerateSnapshot (a : accounts) (version : Z) (set nextset : ValidatorSet) : accounts :=
  mkAccounts (ac_db a)
    (mkSnapshot version (Some (GetAllStates a)) (Some (Copy set)) (Some (Copy nextset))) (ac_cache a).

Definition GetSnapshot (a : accounts) : Snapshot := ac_snapshot a.
Definition SetSnapshot (a : accounts) (newSnapshot : Snapshot) : accounts :=
  mkAccounts (ac_db a) newSnapshot (ac_cache a).

(** The transactions of a block, as [execBlockOnProxyApp] saves them. *)
Definition save_txs (unmarshalTxArg : bytes → option TxArg) (a : accounts) (txs : list bytes) : accounts :=
  foldl (λ a tx, match NewAccountLog unmarshalTxArg tx with Some l => Save a l | None => a end) a txs.

(** ** Balances *)
Definition balance (a : accounts) (k : bytes) : Z := byte2digit (getState a k).

(** What the log adds to the balance of [k]. *)
Definition delta (l : AccountLog) (k : bytes) : Z :=
  (if decide (k = al_To l) then al_Amount l else 0) -
  (if decide (k = al_From l) then al_Amount l else 0).

(** A log of a transaction of type "tx" with a sender. *)
Definition transfer (l : AccountLog) : Prop := al_TxType l = str "tx" ∧ al_From l ≠ [].

Lemma Atoi_range s : in_int64 (Atoi s).1.
Proof.
  assert (Hloop : ∀ s n, 0 ≤ n ≤ MaxUint64 → 0 ≤ (parse_uint_loop s n).1 ≤ MaxUint64).
  { clear. induction s as [|c s IH]; intros n Hn; simpl; [done|].
    destruct (is_digit c) eqn:Hd; simpl; [|unfold MaxUint64; lia].
    unfold is_digit in Hd. apply andb_true_iff in Hd as [Hd1%Z.leb_le Hd2%Z.leb_le].
    destruct (Z.leb_spec (MaxUint64 / 10 + 1) n); simpl; [unfold MaxUint64; lia|].
    destruct (Z.ltb_spec MaxUint64 (n * 10 + (byte_Z c - 48))); simpl; [unfold MaxUint64; lia|].
    apply IH. lia. }
  destruct s as [|c r]; [by vm_compute|]. unfold Atoi, ParseUint.
  set (body := if _ || _ then r else c :: r).
  assert (Hu : 0 ≤ (if bool_decide (body = []) then (0, Some ErrSyntax) else parse_uint_loop body 0).1
            ≤ MaxUint64).
  { destruct (bool_decide (body = [])); [by vm_compute|apply Hloop; by vm_compute]. }
  destruct (if bool_decide (body = []) then _ else _) as [un [[]|]]; simpl in Hu;
    unfold in_int64, MinInt64, MaxInt64; destruct (bool_decide (c = minus)); simpl; case_Z; simpl; lia.
Qed.

Lemma balance_range a k : in_int64 (balance a k).
Proof. apply Atoi_range. Qed.

Lemma byte2digit_of n : in_int64 n → byte2digit (Some (digit2byte n)) = n.
Proof. intros Hn. unfold byte2digit, digit2byte. simpl. by rewrite Atoi_Itoa. Qed.

Lemma wrap64_add_r a b : wrap64 (a + wrap64 b) = wrap64 (a + b).
Proof. rewrite Z.add_comm, wrap64_add_l. f_equal. lia. Qed.

Lemma wrap64_idem a : wrap64 (wrap64 a) = wrap64 a.
Proof. apply wrap64_id, wrap64_range. Qed.

Lemma balance_setState a k v k' :
  balance (setState a k v) k' = if decide (k' = k) then byte2digit (Some v) else balance a k'.
Proof.
  unfold balance, getState, setState. simpl. destruct (decide (k' = k)) as [->|].
  - by rewrite lookup_insert_eq.
  - by rewrite lookup_insert_ne.
Qed.

Lemma balance_SetSnapshotCache a k v b k' : balance (SetSnapshotCache a k v b) k' = balance a k'.
Proof. unfold SetSnapshotCache. by destruct (bytes_equal k []). Qed.

Lemma transfer_guards l :
  transfer l → bytes_equal (al_TxType l) (str "checkpoint") = false ∧
    bytes_equal (al_TxType l) (str "addtx") = false ∧
    bytes_equal (al_TxType l) (str "relaytx") = false ∧ bytes_equal (al_From l) [] = false.
Proof.
  intros [-> Hf]. split_and!; try by vm_compute. by apply bytes_equal_false.
Qed.

(** Saving a transfer moves its amount from one balance to the other. *)
Lemma Save_balance a l k :
  transfer l → balance (Save a l) k = wrap64 (balance a k + delta l k).
Proof.
  intros Ht. destruct (transfer_guards _ Ht) as (H1 & H2 & H3 & H4).
  unfold Save. rewrite H1, H2. simpl. rewrite !balance_SetSnapshotCache.
  unfold save_to, save_from. rewrite H3, H4. simpl.
  rewrite !balance_setState. fold (balance (setState a (al_From l)
    (digit2byte (wrap64 (byte2digit (getState a (al_From l)) - al_Amount l)))) (al_To l)).
  rewrite balance_setState. rewrite !byte2digit_of by apply wrap64_range.
  fold (balance a (al_From l)). fold (balance a (al_To l)). unfold delta.
  pose proof (balance_range a k) as Hr.
  destruct (decide (k = al_To l)) as [->|], (decide (_ = al_From l)) as [E|]; rewrite ?E in *;
    rewrite ?wrap64_add_l; f_equal; try lia.
  symmetry. rewrite Z.add_0_r. by apply wrap64_id.
Qed.

(** ** Snapshots *)
Definition snap (a : accounts) (k : bytes) : Z :=
  byte2digit (default ∅ (sn_Content (ac_snapshot a)) !! k).
Definition cached (a : accounts) (k : bytes) : Z := default 0 (ac_cache a !! k).

(** Snapshot and increments together give the balance of every named account. *)
Definition tracks (a : accounts) : Prop :=
  ∀ k, k ≠ [] → balance a k = wrap64 (snap a k + cached a k).

Lemma cached_SetSnapshotCache a k v b k' :
  k' ≠ [] → cached (SetSnapshotCache a k v b) k' =
    if decide (k' = k) then wrap64 (cached a k' + (if b then v else - v)) else cached a k'.
Proof.
  intros Hk. unfold SetSnapshotCache. destruct (bytes_equal k []) eqn:E.
  - apply bytes_equal_true in E as ->. by rewrite decide_False.
  - unfold cached. simpl. destruct (decide (k' = k)) as [->|].
    + rewrite lookup_insert_eq. simpl. destruct b; f_equal; lia.
    + by rewrite lookup_insert_ne.
Qed.

Lemma snap_SetSnapshotCache a k v b k' : snap (SetSnapshotCache a k v b) k' = snap a k'.
Proof. unfold SetSnapshotCache. by destruct (bytes_equal k []). Qed.

Lemma Save_snap a l k : snap (Save a l) k = snap a k.
Proof.
  unfold Save. destruct (_ || _); [done|]. rewrite !snap_SetSnapshotCache.
  unfold save_to, save_from, setState, snap. by repeat case_match.
Qed.

Lemma Save_cached a l k :
  transfer l → k ≠ [] → wrap64 (cached (Save a l) k) = wrap64 (cached a k + delta l k).
Proof.
  intros Ht Hk. destruct (transfer_guards _ Ht) as (H1 & H2 & H3 & H4).
  unfold Save. rewrite H1, H2. simpl. rewrite !cached_SetSnapshotCache by done.
  unfold save_to, save_from. rewrite H3, H4. simpl. unfold cached. simpl. fold (cached a k).
  unfold delta.
  destruct (decide (k = al_To l)), (decide (k = al_From l));
    rewrite ?wrap64_idem, ?wrap64_add_l, ?wrap64_idem; f_equal; lia.
Qed.

Lemma Save_tracks a l : transfer l → tracks a → tracks (Save a l).
Proof.
  intros Ht Ha k Hk. rewrite Save_balance, Save_snap by done. rewrite (Ha k Hk).
  rewrite wrap64_add_l. rewrite <-(wrap64_add_r _ (cached _ _)), Save_cached by done.
  rewrite wrap64_add_r. f_equal. lia.
Qed.

Lemma merge_all_lookup kvs content k :
  NoDup kvs.*1 →
  byte2digit (foldl merge_one content kvs !! k) =
    wrap64 (byte2digit (content !! k) + default 0 ((list_to_map kvs : gmap bytes Z) !! k)).
Proof.
  revert content. induction kvs as [|[k0 v0] kvs IH]; intros content Hnd.
  - simpl. rewrite lookup_empty. simpl. rewrite Z.add_0_r. symmetry. apply wrap64_id, Atoi_range.
  - csimpl in Hnd. apply NoDup_cons in Hnd as [Hk0 Hnd]. simpl. rewrite IH by done.
    unfold merge_one. simpl. destruct (decide (k = k0)) as [->|Hne].
    + rewrite !lookup_insert_eq. rewrite byte2digit_of by apply wrap64_range.
      rewrite not_elem_of_list_to_map_1 by done. simpl. rewrite Z.add_0_r. apply wrap64_idem.
    + by rewrite !lookup_insert_ne.
Qed.

Lemma GenerateSnapshotFast_snap a v s n k :
  snap (GenerateSnapshotFast a v s n) k = wrap64 (snap a k + cached a k).
Proof.
  unfold snap, GenerateSnapshotFast. cbn -[foldl]. rewrite merge_all_lookup by apply NoDup_fst_map_to_list.
  by rewrite list_to_map_to_list.
Qed.

Lemma GenerateSnapshotFast_tracks a v s n :
  tracks a → tracks (GenerateSnapshotFast a v s n).
Proof.
  intros Ha k Hk. rewrite GenerateSnapshotFast_snap. unfold cached at 2. simpl.
  rewrite lookup_empty. simpl. rewrite Z.add_0_r, wrap64_idem. by apply Ha.
Qed.

(** ** Runs of blocks and snapshots *)
Inductive event :=
| EvSave (l : AccountLog)
| EvSnapshot (version : Z) (set nextset : ValidatorSet).

Definition do_event (a : accounts) (e : event) : accounts :=
  match e with
  | EvSave l => Save a l
  | EvSnapshot v s n => GenerateSnapshotFast a v s n
  end.

Definition event_ok (e : event) : Prop := match e with EvSave l => transfer l | _ => True end.

(** The state of a process that starts with an empty database. *)
Definition start : accounts := mkAccounts ∅ (mkSnapshot 0 None None None) ∅.

Lemma events_track es a : Forall event_ok es → tracks a → tracks (foldl do_event a es).
Proof.
  revert a. induction es as [|e es IH]; intros a Hes Ha; [done|].
  apply Forall_cons in Hes as [He Hes]. simpl. apply IH; [done|].
  destruct e; [by apply Save_tracks|by apply GenerateSnapshotFast_tracks].
Qed.

Lemma start_tracks : tracks start.
Proof. intros k _. unfold balance, snap, cached, getState. simpl. by rewrite !lookup_empty. Qed.

(** The incremental snapshot is exact: from an empty database, after any transfers and
    snapshots, a snapshot holds the balance of every named account. *)
Theorem snapshot_exact es v s n k :
  Forall event_ok es → k ≠ [] →
  let a := GenerateSnapshotFast (foldl do_event start es) v s n in snap a k = balance a k.
Proof.
  intros Hes Hk a. subst a. rewrite GenerateSnapshotFast_snap. symmetry.
  apply (events_track es start Hes start_tracks k Hk).
Qed.

(** Sums of balances are preserved modulo 2^64. *)
Lemma Save_total a l ks :
  transfer l → NoDup ks → al_From l ∈ ks → al_To l ∈ ks →
  wrap64 (sumZ (balance (Save a l)) ks) = wrap64 (sumZ (balance a) ks).
Proof.
  intros Ht Hnd Hf Hto.
  assert (Hmod : ∀ ks : list bytes, wrap64 (sumZ (balance (Save a l)) ks) =
    wrap64 (sumZ (balance a) ks + sumZ (delta l) ks)).
  { clear ks Hnd Hf Hto. induction ks as [|k ks IH]; [done|]. rewrite !sumZ_cons.
    rewrite <-wrap64_add_r, IH, wrap64_add_r, Save_balance, wrap64_add_l by done. f_equal. lia. }
  rewrite Hmod. f_equal.
  assert (Hone : ∀ (v : Z) (x : bytes) ks, NoDup ks → x ∈ ks →
    sumZ (λ k, if decide (k = x) then v else 0) ks = v).
  { clear. intros v x ks Hnd (l1 & l2 & ->)%list_elem_of_split.
    apply NoDup_app in Hnd as (_ & Hd & [Hx _]%NoDup_cons).
    assert (Hz : ∀ l : list bytes, x ∉ l → sumZ (λ k, if decide (k = x) then v else 0) l = 0).
    { clear. induction l as [|y l IH]; intros Hl; [done|]. rewrite sumZ_cons, IH by set_solver.
      rewrite decide_False; [done|set_solver]. }
    rewrite sumZ_app, sumZ_cons, !Hz by set_solver. rewrite decide_True by done. lia. }
  rewrite (sumZ_ext (delta l) (λ k, (if decide (k = al_To l) then al_Amount l else 0) +
    (if decide (k = al_From l) then - al_Amount l else 0))).
  2: { intros k _. unfold delta. destruct (decide (k = al_To l)), (decide (k = al_From l)); lia. }
  rewrite sumZ_plus, !Hone by done. lia.
Qed.

(** What a transaction parses to: nothing, a log without accounts, or a payment. *)
Lemma parse_shape um tx l :
  NewAccountLog um tx = Some l →
  (al_From l = [] ∧ al_To l = []) ∨ al_TxType l = str "tx".
Proof.
  unfold NewAccountLog, parseTx. destruct (um tx) as [arg|]; [|done].
  destruct (bytes_equal (ta_TxType arg) (str "tx")) eqn:E; simpl.
  - apply bytes_equal_true in E. repeat case_match; try done. intros [= <-]. by right.
  - intros [= <-]. by left.
Qed.

(** A log without accounts leaves named balances alone. *)
Lemma Save_anonymous a l k :
  al_From l = [] → al_To l = [] → k ≠ [] → balance (Save a l) k = balance a k.
Proof.
  intros Hf Ht Hk. unfold Save. destruct (_ || _); [done|]. rewrite !balance_SetSnapshotCache.
  unfold save_to, save_from. rewrite Hf, Ht. simpl.
  destruct (negb _ || (al_Operate l =? 1)), (negb _ || (al_Operate l =? 0)); simpl;
    rewrite ?balance_setState, ?decide_False; done.
Qed.

(** C36. Executing the transactions of a block neither creates nor destroys money: the sum of the
    balances of any set of named accounts that contains every payer and payee is unchanged (modulo 2^64, Go's int), as long
    as no payment has an empty payer. *)
Theorem blocks_conserve_money um txs a ks :
  NoDup ks → [] ∉ ks →
  (∀ tx l, tx ∈ txs → NewAccountLog um tx = Some l →
    (al_From l ∈ ks ∧ al_To l ∈ ks) ∨ (al_From l = [] ∧ al_To l = [])) →
  wrap64 (sumZ (balance (save_txs um a txs)) ks) = wrap64 (sumZ (balance a) ks).
Proof.
  intros Hnd Hnil. revert a. induction txs as [|tx txs IH]; intros a Htxs; [done|].
  unfold save_txs in *. simpl. rewrite IH by (intros; eapply Htxs; [by apply elem_of_cons; right|done]).
  destruct (NewAccountLog um tx) as [l|] eqn:El; [|done].
  destruct (Htxs tx l ltac:(by apply elem_of_cons; left) El) as [[Hf Ht]|[Hf Ht]].
  - apply Save_total; [|done..]. split; [|intros E; by rewrite E in Hf].
    destruct (parse_shape _ _ _ El) as [[E _]|?]; [|done]. rewrite E in Hf. done.
  - f_equal. apply sumZ_ext. intros k Hk. apply Save_anonymous; [done|done|intros ->; done].
Qed.

(** A payment with an empty payer does not add to the balance of its payee but overwrites it, and the
    next snapshot no longer agrees with the database. *)
Theorem empty_payer_overwrites :
  let pay := mkAccountLog [] (str "tx") [] (str "bob") [] 5 0 0 in
  let a := Save (Save start pay) pay in
  balance a (str "bob") = 5 ∧
  ∀ v s n, snap (GenerateSnapshotFast a v s n) (str "bob") = 10.
Proof.
  split; [vm_compute; reflexivity|]. intros v s n. rewrite GenerateSnapshotFast_snap.
  vm_compute. reflexivity.
Qed.

(** Nothing is checked before a payment is saved: a payer without funds ends with a negative
    balance, though [Check] looked at the transaction. *)
Theorem overdraft_accepted :
  let pay := mkAccountLog [] (str "tx") (str "eve") (str "bob") [] 7 0 0 in
  Check start pay = true ∧ balance (Save start pay) (str "eve") = -7.
Proof. split; vm_compute; reflexivity. Qed.

(** ** Witnesses *)
Definition pay (from to : string) (n : Z) : AccountLog :=
  mkAccountLog [] (str "tx") (str from) (str to) [] n 0 0.

Lemma snapshot_exact_witness :
  ∃ a, snap a (str "bob") = 4 ∧ snap a (str "bob") = balance a (str "bob").
Proof.
  set (no_vals := mkValidatorSet [] None 0).
  pose (es := [EvSave (pay "alice" "bob" 6); EvSnapshot 1 no_vals no_vals; EvSave (pay "bob" "carol" 2)]).
  exists (GenerateSnapshotFast (foldl do_event start es) 2 no_vals no_vals).
  split; [vm_compute; reflexivity|].
  apply (snapshot_exact es 2 no_vals no_vals (str "bob")); [|done].
  repeat constructor; done.
Defined.

(** A parser for the witness: a transaction [from; to; amount] of one byte each. *)
Definition toy_arg (tx : bytes) : option TxArg :=
  match tx with
  | [f; t; n] => Some (mkTxArg [] (str "tx") [] [] [f; underscore; t; underscore; n; underscore; n] [] 0)
  | _ => None
  end.

Lemma blocks_conserve_money_witness :
  let txs := [[x61; x62; x35]; [x62; x63; x32]; []] in
  balance (save_txs toy_arg start txs) [x62] = 3 ∧
  wrap64 (sumZ (balance (save_txs toy_arg start txs)) [[x61]; [x62]; [x63]]) =
    wrap64 (sumZ (balance start) [[x61]; [x62]; [x63]]).
Proof.
  split; [vm_compute; reflexivity|].
  apply blocks_conserve_money; [by apply (bool_decide_unpack _)|by apply (bool_decide_unpack _)|].
  intros tx l Hin El. left.
  repeat (apply elem_of_cons in Hin as [->|Hin]; [vm_compute in El; simplify_eq; simpl; set_solver|]).
  by apply not_elem_of_nil in Hin.
Defined.
