(* ===== verification/Identypes.v ===== *)
(** * Transactions and cross-shard messages (identypes, checkdb)

    The decoded transaction [TX] and the message [CrossMessages] by which a shard hands relayed
    transactions to another. JSON and gzip are parameters ([IdenCodec]); the environment variable
    TASKID, the name of the shard, is one too. A [[]byte] whose nil value matters is an option.

    [checkdb] keeps, for every message a shard has already packed, the receipt to send back. *)

From Stdlib Require Import ZArith Lia Strings.Byte String.
From stdpp Require Import base list gmap.
From S2P Require Import Prelude KeyPath Strconv Account.
Local Open Scope Z_scope.

(** ** Data *)
Record TX := mkTX {
  Txtype : bytes;
  Sender : bytes;
  Receiver : bytes;
  tx_ID : bytes;
  Content : bytes;
  TxSignature : bytes;
  Operate : Z;
  tx_Height : Z;
}.

Record Package := mkPackage {
  pk_CrossMerkleRoot : bytes;
  pk_Height : Z;
  pk_CmID : bytes;
  pk_SrcZone : bytes;
  pk_DesZone : bytes;
  pk_SrcIndex : bytes;
  pk_Timestamp : Z;
}.

Record CrossMessages := mkCrossMessages {
  cm_ID : bytes;
  cm_Txlist : list bytes;
  cm_Sig : bytes;
  cm_Pubkeys : bytes;
  cm_CrossMerkleRoot : option bytes;
  cm_TreePath : bytes;
  cm_SrcZone : bytes;
  cm_DesZone : bytes;
  cm_Height : Z;
  cm_Packages : list Package;
  cm_ConfirmPackSigs : bytes;
  cm_SrcIndex : bytes;
  cm_Timestamp : Z;
  cm_CompressedData : bytes;
  cm_IsCompressed : bool;
}.

(** Replaces the list, the compressed data and the flag. *)
Definition with_txlist (cm : CrossMessages) (l : list bytes) (d : bytes) (c : bool) : CrossMessages :=
  mkCrossMessages (cm_ID cm) l (cm_Sig cm) (cm_Pubkeys cm) (cm_CrossMerkleRoot cm) (cm_TreePath cm)
    (cm_SrcZone cm) (cm_DesZone cm) (cm_Height cm) (cm_Packages cm) (cm_ConfirmPackSigs cm)
    (cm_SrcIndex cm) (cm_Timestamp cm) d c.

(** JSON, gzip and the environment. [unmarshalCM] is what the pointer passed to [json.Unmarshal] holds
    afterwards, nil for the input [null]; [decodeCM] is nil on an error; [unmarshalTxlist] gives the
    slice after the call and whether it succeeded; [gunzip] is all that could be read, [None] on an error
    other than an unexpected end. *)
Class IdenCodec := {
  unmarshalTX : bytes → option TX;
  marshalTX : TX → bytes;
  unmarshalTxArg : bytes → option TxArg;
  unmarshalCM : bytes → option CrossMessages;
  decodeCM : bytes → option CrossMessages;
  marshalCM : CrossMessages → bytes;
  unmarshalPackages : bytes → list Package;
  marshalTxlist : list bytes → option bytes;
  unmarshalTxlist : bytes → list bytes → list bytes * bool;
  gzip : bytes → option bytes;
  gunzip : bytes → option bytes;
  getShard : bytes;
}.

(** Decoding inverts encoding. *)
Class IdenCodecLaws `{IdenCodec} : Prop := {
  txlist_roundtrip : ∀ l d old, marshalTxlist l = Some d → unmarshalTxlist d old = (l, true);
  gzip_roundtrip : ∀ d z, gzip d = Some z → gunzip z = Some d;
}.

Definition ConfigTx : bytes := str "configtx".
Definition relaytx : bytes := str "relaytx".

Section identypes.
Context `{IdenCodec}.

Definition NewTX (data : bytes) : option TX := unmarshalTX data.

(** [UpdateTx] on a non-nil transaction. *)
Definition UpdateTx (tx : TX) : TX :=
  let tx := if bytes_equal (Txtype tx) relaytx && bytes_equal (Sender tx) getShard
            then mkTX (Txtype tx) (Sender tx) (Receiver tx) (tx_ID tx) (Content tx) (TxSignature tx) 1 (tx_Height tx)
            else tx in
  if bytes_equal (Txtype tx) relaytx && bytes_equal (Receiver tx) getShard
  then mkTX (str "addtx") (Sender tx) (Receiver tx) (tx_ID tx) (Content tx) (TxSignature tx) (Operate tx) (tx_Height tx)
  else tx.

Definition ParsePackages (data : bytes) : list Package := unmarshalPackages data.

(** The message afterwards, and whether it worked. *)
Definition Compress (cm : CrossMessages) : CrossMessages * bool :=
  if cm_IsCompressed cm then (cm, true) else
  match marshalTxlist (cm_Txlist cm) with
  | None => (cm, false)
  | Some origin_data =>
      match gzip origin_data with
      | None => (cm, false)
      | Some z => (with_txlist cm [] z true, true)
      end
  end.

Definition Decompression (cm : CrossMessages) : CrossMessages * bool :=
  if negb (cm_IsCompressed cm) then (cm, true) else
  match gunzip (cm_CompressedData cm) with
  | None => (cm, false)
  | Some data_de =>
      match unmarshalTxlist data_de (cm_Txlist cm) with
      | (l, false) => (with_txlist cm l (cm_CompressedData cm) true, false)
      | (l, true) => (with_txlist cm l [] false, true)
      end
  end.

(** [mempool.ParseData] and [ParseData1]: a message without a Merkle root is not one; a nil
    message is dereferenced. *)
Definition ParseData (data : bytes) : outcome (option CrossMessages) :=
  cm ← or_panic (unmarshalCM data);
  mret (if bool_decide (cm_CrossMerkleRoot cm = None) then None else Some cm).

(** ** checkdb *)
Definition calcAddTxMetaKey (id : bytes) : bytes := str "ID:" ++ fmt_v id.

Definition checkdb_Save (db : gmap bytes bytes) (key : bytes) (value : CrossMessages) : gmap bytes bytes :=
  <[calcAddTxMetaKey key := marshalCM value]> db.

Definition checkdb_Search (db : gmap bytes bytes) (key : bytes) : option CrossMessages :=
  decodeCM (default [] (db !! calcAddTxMetaKey key)).

(** ** Properties *)

(** Compressing and decompressing an uncompressed message gives it back, up to old compressed data. *)
Lemma Decompression_Compress `{!IdenCodecLaws} cm cm' :
  cm_IsCompressed cm = false → Compress cm = (cm', true) →
  Decompression cm' = (with_txlist cm (cm_Txlist cm) [] false, true).
Proof.
  intros Hc. unfold Compress. rewrite Hc.
  destruct (marshalTxlist (cm_Txlist cm)) as [d|] eqn:Em; [|done].
  destruct (gzip d) as [z|] eqn:Ez; [|done]. intros [= <-].
  unfold Decompression. simpl. rewrite (gzip_roundtrip _ _ Ez).
  rewrite (txlist_roundtrip _ _ [] Em). done.
Qed.
End identypes.
