(* ===== verification/Mempool.v ===== *)
(** * The mempool (mempool/mempool.go)

    Transactions that passed the application's check wait in a [CList] until a block commits them. This
    file has the operations; MempoolProofs.v has the properties.

    The fields of the struct are grouped by what changes together: [Pool] (list, map, size in bytes and
    cache), [Recheck], [Notify], [Cross] (the tables of cross-shard messages and the receipts in
    [checkdb]). Requests sent to the application and not yet answered are [mp_pending]; the answers come
    in order and run [reqResCb] and [globalCb] ([respond]). The lock [proxyMtx] makes each method one
    step. Logs, metrics, the write-ahead log of the mempool and messages sent to other shards
    leave no trace in the state. JSON, gzip, the BLS scheme, the amino sizes and the clock are
    parameters. *)

From Stdlib Require Import ZArith Lia Bool Strings.Byte String.
From stdpp Require Import base list gmap sets.
From S2P Require Import Prelude CList TxCache Merkle KeyPath Strconv Account Identypes.
Local Open Scope Z_scope.

(** ** Data *)
Record mempoolTx := mkMempoolTx {
  mt_height : Z;
  mt_gasWanted : Z;
  mt_tx : bytes;
  mt_senders : gset Z;
}.

Record shardfilter := mkShardfilter { sf_Name : bytes; sf_Upttime : Z }.

Record CrossMessage := mkCrossMessage { cg_Content : CrossMessages; cg_Height : Z }.

Record RelationTable := mkRelationTable {
  rl_CsHeight : Z;
  rl_CmHeight : Z;
  rl_CmHash : bytes;
  rl_CmID : bytes;
  rl_RlID : bytes;
  rl_Packages : bytes;
  rl_ComfirmPackSig : bytes;
  rl_SrcZone : bytes;
  rl_DesZone : bytes;
  rl_SrcIndex : bytes;
  rl_Timestamp : Z;
}.

(** The part of [abci.ResponseCheckTx] that is used. *)
Record ResponseCheckTx := mkResponseCheckTx { rs_Code : Z; rs_GasWanted : Z }.

Definition CodeTypeOK : Z := 0.

(** [cfg.MempoolConfig] *)
Record MempoolConfig := mkMempoolConfig {
  cf_Size : Z;
  cf_MaxTxsBytes : Z;
  cf_CacheSize : Z;
  cf_Recheck : bool;
}.

Record Pool := mkPool {
  p_txs : CList mempoolTx;
  p_txsMap : gmap bytes addr;
  p_txsBytes : Z;
  p_cache : txCache;
}.

Record Recheck := mkRecheck {
  rc_cursor : option addr;
  rc_end : option addr;
  rc_rechecking : Z;
}.

(** [ch_chan] is nil until [EnableTxsAvailable], then whether the channel of capacity one is full. *)
Record Notify := mkNotify { ch_notified : bool; ch_chan : option bool }.

Record Cross := mkCross {
  cr_cmDB : list CrossMessage;
  cr_RlDB : list RelationTable;
  cr_checkdb : gmap bytes bytes;
}.

(** A request of [CheckTxAsync]: the first check of a transaction from a peer, or a recheck. *)
Inductive request := FirstCheck (tx : bytes) (peerID : Z) | ReCheck (tx : bytes).

Definition PreCheckFunc : Type := bytes → bool.
Definition PostCheckFunc : Type := bytes → ResponseCheckTx → bool.

Record Mempool := mkMempool {
  mp_config : MempoolConfig;
  mp_pool : Pool;
  mp_preCheck : option PreCheckFunc;
  mp_postCheck : option PostCheckFunc;
  mp_recheck : Recheck;
  mp_notify : Notify;
  mp_height : Z;
  mp_cross : Cross;
  mp_ShardFilters : CList shardfilter;
  mp_strikes : Z * Z;
  mp_pending : list request;
}.

Definition with_pool (m : Mempool) (p : Pool) : Mempool :=
  mkMempool (mp_config m) p (mp_preCheck m) (mp_postCheck m) (mp_recheck m) (mp_notify m)
    (mp_height m) (mp_cross m) (mp_ShardFilters m) (mp_strikes m) (mp_pending m).
Definition with_recheck (m : Mempool) (r : Recheck) : Mempool :=
  mkMempool (mp_config m) (mp_pool m) (mp_preCheck m) (mp_postCheck m) r (mp_notify m)
    (mp_height m) (mp_cross m) (mp_ShardFilters m) (mp_strikes m) (mp_pending m).
Definition with_notify (m : Mempool) (n : Notify) : Mempool :=
  mkMempool (mp_config m) (mp_pool m) (mp_preCheck m) (mp_postCheck m) (mp_recheck m) n
    (mp_height m) (mp_cross m) (mp_ShardFilters m) (mp_strikes m) (mp_pending m).
Definition with_cross (m : Mempool) (c : Cross) : Mempool :=
  mkMempool (mp_config m) (mp_pool m) (mp_preCheck m) (mp_postCheck m) (mp_recheck m) (mp_notify m)
    (mp_height m) c (mp_ShardFilters m) (mp_strikes m) (mp_pending m).
Definition with_filters (m : Mempool) (f : CList shardfilter) : Mempool :=
  mkMempool (mp_config m) (mp_pool m) (mp_preCheck m) (mp_postCheck m) (mp_recheck m) (mp_notify m)
    (mp_height m) (mp_cross m) f (mp_strikes m) (mp_pending m).
Definition with_pending (m : Mempool) (q : list request) : Mempool :=
  mkMempool (mp_config m) (mp_pool m) (mp_preCheck m) (mp_postCheck m) (mp_recheck m) (mp_notify m)
    (mp_height m) (mp_cross m) (mp_ShardFilters m) (mp_strikes m) q.

(** [CrossSendStrike] and [CrossReceiveStrike], the shares of messages that are dropped on
    purpose; [rand_num] is the random number below 100. *)
Definition GetCrossSendStrike (m : Mempool) : Z := (mp_strikes m).1.
Definition GetCrossReceiveStrike (m : Mempool) : Z := (mp_strikes m).2.

Definition with_strikes (m : Mempool) (s : Z * Z) : Mempool :=
  mkMempool (mp_config m) (mp_pool m) (mp_preCheck m) (mp_postCheck m) (mp_recheck m) (mp_notify m)
    (mp_height m) (mp_cross m) (mp_ShardFilters m) s (mp_pending m).

Definition SetCrossSendStrike (m : Mempool) (rate : Z) : Mempool := with_strikes m (rate, (mp_strikes m).2).
Definition SetCrossReceiveStrike (m : Mempool) (rate : Z) : Mempool := with_strikes m ((mp_strikes m).1, rate).
Definition CheckSendSeed (m : Mempool) (rand_num : Z) : bool := GetCrossSendStrike m <=? rand_num.
Definition CheckReceiveSeed (m : Mempool) (rand_num : Z) : bool := GetCrossReceiveStrike m <=? rand_num.

Inductive mem_error :=
| ErrMempoolIsFull
| ErrTxTooLarge
| ErrPreCheck
| ErrTxInCache
| ErrDecompression
| ErrCrossMessageSig
| ErrParse
| ErrIllegalTx
| ErrAppConn
| ErrStateDB.

Definition maxTxSize : Z := 40485760 - 8.
Definition UnknownPeerID : Z := 0.

Section mempool.
Context `{IdenCodec}.
(** sha256, [amino.UvarintSize], the BLS key of a message and its verification. *)
Variable sha256 : bytes → bytes.
Variable UvarintSize : Z → Z.
Variable GetPubkeyFromByte : bytes → option bytes.
Variable VerifyBytes : bytes → bytes → bytes → bool.

Notation txKey := (txKey sha256).

(** ** Filters *)

(** [types.ComputeAminoOverhead] for field number 1: the key is [1 << 3 | 2]. *)
Definition ComputeAminoOverhead (tx : bytes) : Z := UvarintSize 10 + UvarintSize (zlen tx).

(** True is an error. *)
Definition PreCheckAminoMaxBytes (maxBytes : Z) : PreCheckFunc :=
  λ tx, maxBytes <? zlen tx + ComputeAminoOverhead tx.

Definition PostCheckMaxGas (maxGas : Z) : PostCheckFunc :=
  λ tx res, if maxGas =? -1 then false
            else if rs_GasWanted res <? 0 then true
            else maxGas <? rs_GasWanted res.

(** ** Identifiers *)
Definition CmID (cm : CrossMessages) : bytes :=
  hex_encode true (sha256 (FormatInt (cm_Height cm)) ++ default [] (cm_CrossMerkleRoot cm)).

Definition RlID (rl : RelationTable) : bytes :=
  hex_encode true (sha256 (FormatInt (rl_CmHeight rl)) ++ rl_CmHash rl).

(** ** The tables of cross-shard messages *)
Definition newcmDB : list CrossMessage := [].

Definition with_cmDB (c : Cross) (db : list CrossMessage) : Cross := mkCross db (cr_RlDB c) (cr_checkdb c).
Definition with_RlDB (c : Cross) (db : list RelationTable) : Cross := mkCross (cr_cmDB c) db (cr_checkdb c).

Definition AddCrossMessagesDB (c : Cross) (tcm : CrossMessages) : Cross :=
  with_cmDB c (cr_cmDB c ++ [mkCrossMessage tcm 0]).

Definition package_matches (p : Package) (m : CrossMessage) : bool :=
  (cm_Height (cg_Content m) =? pk_Height p) &&
  bytes_equal (default [] (cm_CrossMerkleRoot (cg_Content m))) (pk_CrossMerkleRoot p).

(** The inner loop: the first match goes, then [break]. *)
Fixpoint remove_first {A} (f : A → bool) (l : list A) : list A :=
  match l with
  | [] => []
  | x :: l => if f x then l else x :: remove_first f l
  end.

Definition RemoveCrossMessagesDB (c : Cross) (tcm : CrossMessages) : Cross :=
  with_cmDB c (foldl (λ db p, remove_first (package_matches p) db) (cr_cmDB c) (cm_Packages tcm)).

Definition ModifyCrossMessagelist := RemoveCrossMessagesDB.

(** One entry of [UpdatecmDB]: its new age, and whether it is sent. *)
Definition age (m : CrossMessage) : CrossMessage * bool :=
  if cg_Height m =? 0 then (mkCrossMessage (cg_Content m) (cg_Height m + 1), true)
  else if cg_Height m =? 20 then (mkCrossMessage (cg_Content m) 1, true)
  else (mkCrossMessage (cg_Content m) (wrap64 (cg_Height m + 1)), false).

Definition UpdatecmDB (c : Cross) : Cross * list CrossMessages :=
  (with_cmDB c ((λ m, (age m).1) <$> cr_cmDB c),
   cg_Content <$> filter (λ m, (age m).2 = true) (cr_cmDB c)).

Definition GetAllCrossMessages (c : Cross) : list CrossMessages := cg_Content <$> cr_cmDB c.

Definition new_relation (height : Z) (cmHeight : Z) (cmHash cmID src des idx : bytes) (t : Z) : RelationTable :=
  let rl := mkRelationTable height cmHeight cmHash cmID [] [] [] src des idx t in
  mkRelationTable height cmHeight cmHash cmID (RlID rl) [] [] src des idx t.

Definition AddRelationTable (c : Cross) (cm : CrossMessages) (height : Z) (cmID : bytes) : Cross :=
  with_RlDB c (cr_RlDB c ++
    [new_relation height (cm_Height cm) (default [] (cm_CrossMerkleRoot cm)) (cm_ID cm)
       (cm_SrcZone cm) (cm_DesZone cm) (cm_SrcIndex cm) (cm_Timestamp cm)]).

Definition SyncRelationTable (c : Cross) (pack : Package) (height : Z) : Cross :=
  with_RlDB c (cr_RlDB c ++
    [new_relation height (pk_Height pack) (pk_CrossMerkleRoot pack) (pk_CmID pack)
       (pk_SrcZone pack) (pk_DesZone pack) [] (pk_Timestamp pack)]).

Definition relation_package (rl : RelationTable) : Package :=
  mkPackage (rl_CmHash rl) (rl_CmHeight rl) (rl_CmID rl) (rl_SrcZone rl) (rl_DesZone rl)
    (rl_SrcIndex rl) (rl_Timestamp rl).

Definition SearchRelationTable (c : Cross) (Height : Z) : list Package :=
  relation_package <$> filter (λ rl, rl_CsHeight rl = Height) (cr_RlDB c).

Definition ModifyRelationTable (c : Cross) (packages ConfirmPackSig : bytes) (Height : Z) : Cross :=
  with_RlDB c ((λ rl, if rl_CsHeight rl =? Height then
      mkRelationTable (rl_CsHeight rl) (rl_CmHeight rl) (rl_CmHash rl) (rl_CmID rl) (rl_RlID rl)
        packages ConfirmPackSig (rl_SrcZone rl) (rl_DesZone rl) (rl_SrcIndex rl) (rl_Timestamp rl)
    else rl) <$> cr_RlDB c).

(** The receipt that is kept when a relation is dropped. *)
Definition receipt (rl : RelationTable) : CrossMessages :=
  mkCrossMessages [] [] [] [] (Some (rl_CmHash rl)) [] (rl_SrcZone rl) (rl_DesZone rl) (rl_CmHeight rl)
    (ParsePackages (rl_Packages rl)) (rl_ComfirmPackSig rl) (rl_SrcIndex rl) (rl_Timestamp rl) [] false.

(** The loop stops at the first relation with the name. *)
Definition RemoveRelationTable (c : Cross) (rlid : bytes) : Cross :=
  match list_find (λ rl, rl_RlID rl = rlid) (cr_RlDB c) with
  | Some (_, rl) =>
      let cm := receipt rl in
      mkCross (cr_cmDB c) (remove_first (λ rl, bytes_equal (rl_RlID rl) rlid) (cr_RlDB c))
        (checkdb_Save (cr_checkdb c) (CmID cm) cm)
  | None => c
  end.

(** ** Filters of shards *)
Definition set_Upttime (t : Z) (f : shardfilter) : shardfilter := mkShardfilter (sf_Name f) t.

(** The index of the list by name; of equal names the last counts. *)
Definition filter_index (l : CList shardfilter) : outcome (gmap bytes addr) :=
  '(idx, _) ← for_list (λ _, l) (λ e f idx, Ret (<[sf_Name f := e]> idx, @None unit)) ∅;
  mret idx.

Definition add_filter (now : Z) (st : CList shardfilter * gmap bytes addr) (name : bytes) :
    outcome (CList shardfilter * gmap bytes addr) :=
  let '(l, idx) := st in
  match idx !! name with
  | Some e => mret (modify l e (λ f, if sf_Upttime f <? now then set_Upttime now f else f), idx)
  | None => '(e, l) ← PushBack l (mkShardfilter name now); mret (l, <[name := e]> idx)
  end.

Definition remove_filter (st : CList shardfilter * gmap bytes addr) (name : bytes) :
    outcome (CList shardfilter * gmap bytes addr) :=
  let '(l, idx) := st in
  match idx !! name with
  | Some e => '(_, l) ← Remove l e; mret (l, idx)
  | None => mret (l, idx)
  end.

(** [now] is [time.Now().Unix()]. *)
Definition UpdateShardFliters (m : Mempool) (now : Z) (addlist removeList : list bytes) : outcome Mempool :=
  idx ← filter_index (mp_ShardFilters m);
  st ← foldM (add_filter now) (mp_ShardFilters m, idx) addlist;
  '(l, _) ← foldM remove_filter st removeList;
  mret (with_filters m l).

(** [now] in nanoseconds; a filter that was not renewed for 30 seconds goes. *)
Definition stale_filters (m : Mempool) (now : Z) : outcome (list bytes) :=
  '(names, _) ← for_list (λ _, mp_ShardFilters m) (λ e f names,
    Ret (if 30 * 10 ^ 9 <? now - sf_Upttime f * 10 ^ 9 then names ++ [sf_Name f] else names, @None unit)) [];
  mret names.

Definition autoremove (m : Mempool) (now : Z) : outcome Mempool :=
  removeList ← stale_filters m now;
  if bool_decide (removeList = []) then mret m
  else UpdateShardFliters m (now / 10 ^ 9) [] removeList.

Definition GetShardFilters (m : Mempool) (now : Z) : outcome (Mempool * gset bytes) :=
  m ← autoremove m now;
  '(names, _) ← for_list (λ _, mp_ShardFilters m) (λ e f names,
    Ret ({[sf_Name f]} ∪ names, @None unit)) ∅;
  mret (m, names).

(** ** The pool *)
Definition Size (m : Mempool) : Z := Len (p_txs (mp_pool m)).
Definition TxsBytes (m : Mempool) : Z := p_txsBytes (mp_pool m).
Definition TxsFront (m : Mempool) : option addr := Front (p_txs (mp_pool m)).

Definition addTx (p : Pool) (memTx : mempoolTx) : outcome Pool :=
  '(e, l) ← PushBack (p_txs p) memTx;
  mret (mkPool l (<[txKey (mt_tx memTx) := e]> (p_txsMap p))
          (wrap64 (p_txsBytes p + zlen (mt_tx memTx))) (p_cache p)).

Definition removeTx (p : Pool) (tx : bytes) (elem : addr) (removeFromCache : bool) : outcome Pool :=
  '(_, l) ← Remove (p_txs p) elem;
  l ← DetachPrev l elem;
  mret (mkPool l (delete (txKey tx) (p_txsMap p)) (wrap64 (p_txsBytes p + - zlen tx))
          (if removeFromCache then cache_Remove sha256 (p_cache p) tx else p_cache p)).

Definition Flush (m : Mempool) : outcome Mempool :=
  let cache := cache_Reset (p_cache (mp_pool m)) in
  '(l, _) ← for_list id (λ e _ l,
    '(_, l) ← Remove l e; l ← DetachPrev l e; mret (l, @None unit)) (p_txs (mp_pool m));
  mret (with_pool m (mkPool l ∅ 0 cache)).

(** [GetValue], the order of the unused [insertTx]. *)
Definition GetValue (memTx : mempoolTx) : Z :=
  match NewTX (mt_tx memTx) with
  | None => 0
  | Some tmp_tx =>
      if bytes_equal (Txtype tmp_tx) relaytx then 10
      else if bytes_equal (Txtype tmp_tx) ConfigTx then 20 else 0
  end.

Definition insertTx (p : Pool) (memTx : mempoolTx) : outcome Pool :=
  '(e, l) ← PushBackToMem GetValue (p_txs p) memTx;
  mret (mkPool l (<[txKey (mt_tx memTx) := e]> (p_txsMap p))
          (wrap64 (p_txsBytes p + zlen (mt_tx memTx))) (p_cache p)).

(** ** Notification *)
Definition EnableTxsAvailable (m : Mempool) : Mempool :=
  with_notify m (mkNotify (ch_notified (mp_notify m)) (Some false)).

Definition notifyTxsAvailable (m : Mempool) : outcome Mempool :=
  if Size m =? 0 then Panic else
  match ch_chan (mp_notify m) with
  | Some _ =>
      if ch_notified (mp_notify m) then mret m
      else mret (with_notify m (mkNotify true (Some true)))
  | None => mret m
  end.

(** ** Checking a cross-shard message *)
Definition CheckCrossMessageSig (cm : CrossMessages) : bool :=
  match GetPubkeyFromByte (cm_Pubkeys cm) with
  | None => false
  | Some pubkey =>
      if negb (VerifyBytes pubkey (default [] (cm_CrossMerkleRoot cm)) (cm_Sig cm)) then false
      else match SimpleTreeFromByteSlices sha256 (cm_Txlist cm) with
           | None => false
           | Some smt =>
               let currentRoot := tree_ComputeRootHash smt in
               if zlen currentRoot =? 0 then false
               else VerifyTreePath sha256 (Some currentRoot) (cm_TreePath cm) (cm_CrossMerkleRoot cm)
           end
  end.

(** The loop over the transactions of a message. *)
Fixpoint check_txlist (a : accounts) (txs : list bytes) : option mem_error :=
  match txs with
  | [] => None
  | tx :: txs =>
      match NewAccountLog unmarshalTxArg tx with
      | None => Some ErrParse
      | Some accountLog => if Check a accountLog then check_txlist a txs else Some ErrIllegalTx
      end
  end.

Definition CheckCrossMessageWithInfo (a : accounts) (c : Cross) (cm : CrossMessages) :
    Cross * option mem_error :=
  let '(cm, res) := Decompression cm in
  if negb res then (c, Some ErrDecompression) else
  if negb (CheckCrossMessageSig cm) then (c, Some ErrCrossMessageSig) else
  let c := if bool_decide (cm_Packages cm = []) then c else ModifyCrossMessagelist c cm in
  (c, check_txlist a (cm_Txlist cm)).

(** ** CheckTx *)

(** The sender of a transaction that is already in the pool. *)
Definition record_sender (p : Pool) (tx : bytes) (peerID : Z) : Pool :=
  match p_txsMap p !! txKey tx with
  | Some e => mkPool (modify (p_txs p) e (λ t, mkMempoolTx (mt_height t) (mt_gasWanted t) (mt_tx t)
                                               ({[peerID]} ∪ mt_senders t)))
                (p_txsMap p) (p_txsBytes p) (p_cache p)
  | None => p
  end.

(** The checks between the cache and the application; [checkdb] is set for receipts. *)
Definition check_content (a : accounts) (c : Cross) (tx : bytes) (checkdb : bool) :
    outcome (Cross * option mem_error) :=
  cm ← ParseData tx;
  match cm with
  | Some cm => mret (if checkdb then (c, None) else CheckCrossMessageWithInfo a c cm)
  | None =>
      tmp_tx ← or_panic (NewTX tx);
      mret (c, match NewAccountLog unmarshalTxArg tx with
               | None => Some ErrParse
               | Some accountLog => if Check a accountLog then None else Some ErrIllegalTx
               end)
  end.

(** [appErr] is whether [proxyAppConn.Error()] reports an error. *)
Definition CheckTxWithInfo (a : accounts) (m : Mempool) (tx : bytes) (peerID : Z) (checkdb appErr : bool) :
    outcome (Mempool * option mem_error) :=
  let p := mp_pool m in
  if (cf_Size (mp_config m) <=? Size m) || (cf_MaxTxsBytes (mp_config m) <? wrap64 (zlen tx + p_txsBytes p))
  then mret (m, Some ErrMempoolIsFull) else
  if maxTxSize <? zlen tx then mret (m, Some ErrTxTooLarge) else
  if match mp_preCheck m with Some f => f tx | None => false end then mret (m, Some ErrPreCheck) else
  '(fresh, cache) ← cache_Push sha256 (p_cache p) tx;
  let p := mkPool (p_txs p) (p_txsMap p) (p_txsBytes p) cache in
  if negb fresh then mret (with_pool m (record_sender p tx peerID), Some ErrTxInCache) else
  let m := with_pool m p in
  '(c, err) ← check_content a (mp_cross m) tx checkdb;
  let m := with_cross m c in
  match err with
  | Some err => mret (m, Some err)
  | None =>
      if appErr then mret (m, Some ErrAppConn)
      else mret (with_pending m (mp_pending m ++ [FirstCheck tx peerID]), None)
  end.

Inductive db_status := DBReceipt | DBReturned | DBNone.

Definition CheckDB (c : Cross) (tx : bytes) : outcome (Cross * db_status) :=
  cm ← ParseData tx;
  mret match cm with
       | Some cm =>
           if bytes_equal (cm_SrcZone cm) getShard then (ModifyCrossMessagelist c cm, DBReceipt)
           else match checkdb_Search (cr_checkdb c) (CmID cm) with
                | Some _ => (c, DBReturned)
                | None => (c, DBNone)
                end
       | None => (c, DBNone)
       end.

Definition CheckTx (a : accounts) (m : Mempool) (tx : bytes) (appErr : bool) :
    outcome (Mempool * option mem_error) :=
  '(c, status) ← CheckDB (mp_cross m) tx;
  let m := with_cross m c in
  match status with
  | DBReceipt => CheckTxWithInfo a m tx UnknownPeerID true appErr
  | DBNone => CheckTxWithInfo a m tx UnknownPeerID false appErr
  | DBReturned => mret (m, Some ErrStateDB)
  end.

Definition SearchPackageExist (m : Mempool) (pack : Package) : bool :=
  bool_decide (is_Some (p_txsMap (mp_pool m) !! pk_CmID pack)).

(** ** Answers of the application; [None] is an answer of another type. *)
Definition tx_ok (m : Mempool) (tx : bytes) (r : ResponseCheckTx) : bool :=
  (rs_Code r =? CodeTypeOK) &&
  negb match mp_postCheck m with Some f => f tx r | None => false end.

Definition resCbFirstTime (m : Mempool) (tx : bytes) (peerID : Z) (res : option ResponseCheckTx) :
    outcome Mempool :=
  match res with
  | None => mret m
  | Some r =>
      if tx_ok m tx r then
        p ← addTx (mp_pool m) (mkMempoolTx (mp_height m) (rs_GasWanted r) tx {[peerID]});
        cm ← ParseData tx;
        _ ← (if cm is None then tmp_tx ← or_panic (NewTX tx); mret tt else mret tt);
        notifyTxsAvailable (with_pool m p)
      else
        let p := mp_pool m in
        mret (with_pool m (mkPool (p_txs p) (p_txsMap p) (p_txsBytes p) (cache_Remove sha256 (p_cache p) tx)))
  end.

Definition resCbRecheck (m : Mempool) (tx : bytes) (res : option ResponseCheckTx) : outcome Mempool :=
  match res with
  | None => mret m
  | Some r =>
      cur ← or_panic (rc_cursor (mp_recheck m));
      c ← deref (p_txs (mp_pool m)) (Some cur);
      if negb (bytes_equal tx (mt_tx (ce_Value c))) then Panic else
      m ← (if tx_ok m tx r then mret m
           else p ← removeTx (mp_pool m) tx cur true; mret (with_pool m p));
      next ← (if bool_decide (Some cur = rc_end (mp_recheck m)) then mret None
              else Next (p_txs (mp_pool m)) cur);
      let rechecking := if next is None then 0 else rc_rechecking (mp_recheck m) in
      let m := with_recheck m (mkRecheck next (rc_end (mp_recheck m)) rechecking) in
      if next is None then (if 0 <? Size m then notifyTxsAvailable m else mret m) else mret m
  end.

Definition globalCb (m : Mempool) (tx : bytes) (res : option ResponseCheckTx) : outcome Mempool :=
  if rc_cursor (mp_recheck m) is None then mret m else resCbRecheck m tx res.

Definition reqResCb (m : Mempool) (tx : bytes) (peerID : Z) (res : option ResponseCheckTx) : outcome Mempool :=
  if rc_cursor (mp_recheck m) is Some _ then Panic else resCbFirstTime m tx peerID res.

(** The answer to the oldest request runs its own callback, then the global one. *)
Definition respond (m : Mempool) (res : option ResponseCheckTx) : outcome Mempool :=
  match mp_pending m with
  | [] => mret m
  | FirstCheck tx peerID :: q =>
      m ← reqResCb (with_pending m q) tx peerID res; globalCb m tx res
  | ReCheck tx :: q => globalCb (with_pending m q) tx res
  end.

(** ** Reaping *)

(** The transactions of a message that go into the block; an undecodable one is dereferenced. *)
Fixpoint relay_txs (txs : list bytes) : outcome (list bytes) :=
  match txs with
  | [] => mret []
  | tx :: txs =>
      tmp_tx ← or_panic (NewTX tx);
      rest ← relay_txs txs;
      mret (if bytes_equal (Txtype tmp_tx) relaytx then tx :: rest else rest)
  end.

Record reap := mkReap { re_cross : Cross; re_txs : list bytes; re_bytes : Z; re_gas : Z }.

(** One iteration of the loop: [Some tt] is [return txs], [Some] with a cleared list [return nil]. *)
Definition reap_cm (maxBytes maxGas height : Z) (memTx : mempoolTx) (cm : CrossMessages) (s : reap) :
    outcome (reap * option unit) :=
  let '(cm, res) := Decompression cm in
  if negb res then mret (s, None) else
  byte_txlist ← relay_txs (cm_Txlist cm);
  let '(cm, res) := Compress cm in
  if negb res then mret (mkReap (re_cross s) [] (re_bytes s) (re_gas s), Some tt) else
  let aminoOverhead := ComputeAminoOverhead (mt_tx memTx) in
  if (-1 <? maxBytes) &&
     (wrap64 (maxBytes - 1500000) <? wrap64 (re_bytes s + zlen (mt_tx memTx) + aminoOverhead))
  then mret (s, Some tt) else
  let cross := AddRelationTable (re_cross s) cm height (cm_ID cm) in
  let totalBytes := wrap64 (re_bytes s + (zlen (mt_tx memTx) + aminoOverhead)) in
  let newTotalGas := wrap64 (re_gas s + mt_gasWanted memTx) in
  if (-1 <? maxGas) && (maxGas <? newTotalGas)
  then mret (mkReap cross (re_txs s) totalBytes (re_gas s), Some tt) else
  mret (mkReap cross (re_txs s ++ byte_txlist) totalBytes newTotalGas, None).

Definition reap_tx (maxBytes maxGas : Z) (memTx : mempoolTx) (s : reap) : outcome (reap * option unit) :=
  tmp_tx ← or_panic (NewTX (mt_tx memTx));
  let aminoOverhead := ComputeAminoOverhead (mt_tx memTx) in
  if (-1 <? maxBytes) &&
     (wrap64 (maxBytes - 1500000) <? wrap64 (re_bytes s + zlen (mt_tx memTx) + aminoOverhead))
  then mret (s, Some tt) else
  let totalBytes := wrap64 (re_bytes s + (zlen (mt_tx memTx) + aminoOverhead)) in
  let newTotalGas := wrap64 (re_gas s + mt_gasWanted memTx) in
  if (-1 <? maxGas) && (maxGas <? newTotalGas)
  then mret (mkReap (re_cross s) (re_txs s) totalBytes (re_gas s), Some tt) else
  mret (mkReap (re_cross s) (re_txs s ++ [mt_tx memTx]) totalBytes newTotalGas, None).

Definition reap_one (maxBytes maxGas height : Z) (memTx : mempoolTx) (s : reap) :
    outcome (reap * option unit) :=
  cm ← ParseData (mt_tx memTx);
  match cm with
  | Some cm => reap_cm maxBytes maxGas height memTx cm s
  | None => reap_tx maxBytes maxGas memTx s
  end.

(** [None] while the wait for [rechecking] to become 0 lasts, which is with the lock held. *)
Definition ReapMaxBytesMaxGas (m : Mempool) (maxBytes maxGas height : Z) :
    outcome (option (Mempool * list bytes)) :=
  if 0 <? rc_rechecking (mp_recheck m) then mret None else
  '(s, _) ← for_list (λ _, p_txs (mp_pool m)) (λ _ memTx, reap_one maxBytes maxGas height memTx)
             (mkReap (mp_cross m) [] 0 0);
  mret (Some (with_cross m (re_cross s), re_txs s)).

Definition ReapMaxTxs (m : Mempool) (max : Z) : outcome (option (list bytes)) :=
  let max := if max <? 0 then Len (p_txs (mp_pool m)) else max in
  if 0 <? rc_rechecking (mp_recheck m) then mret None else
  '(txs, _) ← for_list (λ _, p_txs (mp_pool m)) (λ _ memTx txs,
    mret (if zlen txs <=? max then (txs ++ [mt_tx memTx], None) else (txs, Some tt))) [];
  mret (Some txs).

(** The first configuration transaction; [None] is nil. *)
Definition ReapDeliverTx (m : Mempool) : outcome (option bytes) :=
  '(_, r) ← for_list (λ _, p_txs (mp_pool m)) (λ _ memTx (_ : unit),
    mret (tt, match NewTX (mt_tx memTx) with
              | Some tx => if bytes_equal (Txtype tx) ConfigTx then Some (mt_tx memTx) else None
              | None => None
              end)) tt;
  mret r.

(** Relayed transactions first; [None] when one cannot be decoded. *)
Definition SortTxs (m : Mempool) : outcome (option (CList mempoolTx)) :=
  '(st, r) ← for_list (λ _, p_txs (mp_pool m)) (λ _ memTx st,
    match NewTX (mt_tx memTx) with
    | None => mret (st, Some tt)
    | Some tmp_tx =>
        if bytes_equal (Txtype tmp_tx) relaytx then
          '(_, l) ← PushBack st.1 memTx; mret ((l, st.2), None)
        else '(_, l) ← PushBack st.2 memTx; mret ((st.1, l), None)
    end) (New, New);
  match r with
  | Some _ => mret None
  | None =>
      '(st, _) ← for_list snd (λ e memTx st,
        '(_, l) ← PushBack st.1 memTx; '(_, c) ← Remove st.2 e; mret ((l, c), @None unit)) st;
      mret (Some st.1)
  end.

(** ** Updating after a block *)
Definition DetectTx (tx : bytes) : outcome bool :=
  parsetx ← or_panic (NewTX tx);
  mret (bytes_equal (Txtype parsetx) relaytx && bytes_equal (Receiver parsetx) getShard).

(** The names of the relations packed at a height. *)
Definition packed (c : Cross) (height : Z) : gset bytes :=
  list_to_set (RlID <$> filter (λ rl, rl_CsHeight rl = height) (cr_RlDB c)).

Definition RemoveCm (m : Mempool) (height : Z) : outcome Mempool :=
  let CmsMap := packed (mp_cross m) height in
  '(m, _) ← for_list (λ m, p_txs (mp_pool m)) (λ e memTx m,
    cm ← ParseData (mt_tx memTx);
    match cm with
    | Some cm =>
        if bool_decide (CmID cm ∈ CmsMap) then
          p ← removeTx (mp_pool m) (mt_tx memTx) e false;
          let m := with_pool m p in
          mret (with_cross m (RemoveRelationTable (mp_cross m) (CmID cm)), @None unit)
        else mret (m, None)
    | None => mret (m, None)
    end) m;
  mret m.

(** The string under which a committed transaction may be in the pool. *)
Definition committed_key (tx : bytes) : outcome (option bytes) :=
  d ← DetectTx tx;
  if (d : bool) then mret None else
  tx1 ← or_panic (NewTX tx);
  mret (Some (if (Operate tx1 =? 1) && bytes_equal (Txtype tx1) relaytx && bytes_equal (Sender tx1) getShard
              then marshalTX (mkTX (Txtype tx1) (Sender tx1) (Receiver tx1) (tx_ID tx1) (Content tx1)
                                (TxSignature tx1) 0 (tx_Height tx1))
              else tx)).

Definition committed_keys (txs : list bytes) : outcome (gset bytes) :=
  foldM (λ (s : gset bytes) tx, k ← committed_key tx;
           mret (if k is Some k then {[k]} ∪ s else s)) ∅ txs.

Definition is_config (tx : bytes) : bool :=
  match NewTX tx with Some t => bytes_equal (Txtype t) ConfigTx | None => false end.

Definition removeTxs (p : Pool) (txs : list bytes) : outcome (Pool * list bytes) :=
  txsMap ← committed_keys txs;
  '(st, _) ← for_list (λ st, p_txs st.1) (λ e memTx st,
    if bool_decide (mt_tx memTx ∈ txsMap) then
      p ← removeTx st.1 (mt_tx memTx) e false; mret ((p, st.2), @None unit)
    else if is_config (mt_tx memTx) then mret (st, None)
    else mret ((st.1, st.2 ++ [mt_tx memTx]), None)) (p, []);
  mret st.

Definition recheckTxs (m : Mempool) (txs : list bytes) : Mempool :=
  if bool_decide (txs = []) then m else
  let l := p_txs (mp_pool m) in
  with_pending (with_recheck m (mkRecheck (Front l) (Back l) 1)) (mp_pending m ++ (ReCheck <$> txs)).

(** The committed transactions go into the cache. *)
Definition push_committed (c : txCache) (txs : list bytes) : outcome txCache :=
  foldM (λ c tx, d ← DetectTx tx;
    if (d : bool) then mret c else '(_, c) ← cache_Push sha256 c tx; mret c) c txs.

Definition or_else {A} (x y : option A) : option A := if x is Some _ then x else y.

Definition Update (m : Mempool) (height : Z) (txs : list bytes) (preCheck : option PreCheckFunc)
    (postCheck : option PostCheckFunc) : outcome Mempool :=
  let m := mkMempool (mp_config m) (mp_pool m) (or_else preCheck (mp_preCheck m))
    (or_else postCheck (mp_postCheck m)) (mp_recheck m) (mkNotify false (ch_chan (mp_notify m)))
    (if 0 <? mp_height m then height else mp_height m) (mp_cross m) (mp_ShardFilters m)
    (mp_strikes m) (mp_pending m) in
  let p := mp_pool m in
  cache ← push_committed (p_cache p) txs;
  let m := with_pool m (mkPool (p_txs p) (p_txsMap p) (p_txsBytes p) cache) in
  m ← RemoveCm m height;
  '(p, txsLeft) ← removeTxs (mp_pool m) txs;
  let m := with_pool m p in
  if bool_decide (txsLeft = []) then mret m
  else if cf_Recheck (mp_config m) then mret (recheckTxs m txsLeft)
  else notifyTxsAvailable m.

(** ** Construction *)
Definition NewMempool (config : MempoolConfig) (height : Z) (db : gmap bytes bytes) : Mempool :=
  mkMempool config
    (mkPool New ∅ 0 (if 0 <? cf_CacheSize config then MapTxCache (newMapTxCache (cf_CacheSize config)) else NopTxCache))
    None None (mkRecheck None None 0) (mkNotify false None) height (mkCross newcmDB [] db) New (0, 0) [].
End mempool.
