(* ===== verification/MempoolProofs.v ===== *)
(** * Properties of the mempool

    [pool_inv] ties the pool to the list of transactions it stands for; [mem_inv] adds what the answers of
    the application rely on: every waiting transaction can be decoded, and the requests of a recheck are the transactions from the
    cursor to the end mark, in order. The steps of a mempool preserve it, and no answer can make it
    panic. *)

From Stdlib Require Import ZArith Lia Bool Strings.Byte String.
From stdpp Require Import base list gmap sets.
From S2P Require Import Prelude CList TxCache Merkle KeyPath Strconv Account Identypes Mempool.
Local Open Scope Z_scope.

Section proofs.
Context `{IdenCodec}.
Variable sha256 : bytes → bytes.
(** Whether no transaction is accepted while the pool holds one with its key; what depends on it is claimed only then. *)
Variable distinct : Prop.

Notation txKey := (txKey sha256).
Notation addTx := (addTx sha256).
Notation removeTx := (removeTx sha256).
Notation removeTxs := (removeTxs sha256).
Notation RemoveCm := (RemoveCm sha256).
Notation Update := (Update sha256).
Notation respond := (respond sha256).

Implicit Types (p : Pool) (m : Mempool) (xs : list (addr * mempoolTx)).

(** ** The pool *)
Definition cache_inv (c : txCache) : Prop :=
  match c with MapTxCache c => TxCache.inv c | NopTxCache => True end.

Record pool_inv p xs : Prop := mkPoolInv {
  pi_rep : rep (p_txs p) xs;
  pi_bytes : p_txsBytes p = wrap64 (sumZ (λ t, zlen (mt_tx t)) xs.*2);
  (** Every entry of the map points to an element of the list that holds the transaction. *)
  pi_map : ∀ k e, p_txsMap p !! k = Some e → ∃ t, (e, t) ∈ xs ∧ txKey (mt_tx t) = k;
  (** And every element has its entry. *)
  pi_index : distinct → ∀ e t, (e, t) ∈ xs → p_txsMap p !! txKey (mt_tx t) = Some e;
  pi_cache : cache_inv (p_cache p);
}.

Lemma pool_Len p xs : pool_inv p xs → Len (p_txs p) = zlen xs.
Proof. intros [Hr _ _ _ _]. by apply rep_Len. Qed.

Lemma cache_Push_ok c tx : cache_inv c → ∃ b c', cache_Push sha256 c tx = Ret (b, c') ∧ cache_inv c'.
Proof.
  destruct c as [c|]; simpl; intros Hc.
  - destruct (Push_ok sha256 c tx Hc) as (c' & -> & Hi & _). simpl. eauto.
  - eauto.
Qed.

Lemma cache_Remove_ok c tx : cache_inv c → cache_inv (cache_Remove sha256 c tx).
Proof. destruct c as [c|]; simpl; [|done]. intros Hc. by apply Remove_ok. Qed.

Lemma cache_Reset_ok c : cache_inv c → cache_inv (cache_Reset c).
Proof. destruct c as [c|]; simpl; [|done]. intros Hc. by apply Reset_inv. Qed.

Lemma with_cache_inv p xs c :
  pool_inv p xs → cache_inv c → pool_inv (mkPool (p_txs p) (p_txsMap p) (p_txsBytes p) c) xs.
Proof. intros [? ? ? ? ?] ?. by split. Qed.

Lemma addTx_ok p xs t :
  pool_inv p xs → Len (p_txs p) < cl_maxLen (p_txs p) → (distinct → p_txsMap p !! txKey (mt_tx t) = None) →
  ∃ p' e, addTx p t = Ret p' ∧ pool_inv p' (xs ++ [(e, t)]) ∧
    cl_maxLen (p_txs p') = cl_maxLen (p_txs p).
Proof.
  intros Hp Hlen Hfresh. rewrite (pool_Len _ _ Hp) in Hlen. destruct Hp as [Hr Hb Hm Hi Hc].
  destruct (PushBack_rep _ _ t Hr Hlen) as (l & E & Hr' & Hmax & _).
  unfold Mempool.addTx. rewrite E. simpl. eexists _, _. split_and!; [done| |done].
  split; simpl; [done| | | |done].
  - rewrite fmap_app, Hb, sumZ_app. csimpl. rewrite sumZ_cons, sumZ_nil, wrap64_add_l.
    f_equal. lia.
  - intros k e. destruct (decide (k = txKey (mt_tx t))) as [->|Hne].
    + rewrite lookup_insert_eq. intros [= <-]. exists t. split; [set_solver|done].
    + rewrite lookup_insert_ne by done. intros (t' & Hin & Hk)%Hm. exists t'. split; [set_solver|done].
  - intros Hu e t' [Hin|Hin]%elem_of_app.
    + rewrite lookup_insert_ne; [by apply Hi|]. intros Ek. specialize (Hi Hu _ _ Hin). rewrite <-Ek, Hfresh in Hi by done. done.
    + apply list_elem_of_singleton in Hin as [= -> ->]. apply lookup_insert_eq.
Qed.

Lemma removeTx_ok p pre e t post b :
  pool_inv p (pre ++ (e, t) :: post) →
  ∃ p', removeTx p (mt_tx t) e b = Ret p' ∧ pool_inv p' (pre ++ post) ∧
    Next (p_txs p') e = Ret (fst <$> head post) ∧ cl_maxLen (p_txs p') = cl_maxLen (p_txs p).
Proof.
  intros [Hr Hb Hm Hi Hc]. unfold Mempool.removeTx. pose proof (rep_NoDup _ _ Hr) as Hnd.
  destruct (Remove_rep _ _ _ _ _ Hr) as (l & -> & Hr' & He & Hmax & _ & _). simpl.
  destruct (DetachPrev_rep l _ e _ Hr' He eq_refl) as (l' & -> & Hr'' & Hmax' & _ & _ & Hn). simpl.
  eexists. split; [done|]. split_and!; simpl; [|rewrite Hn|congruence].
  - split; simpl; [done| | | |].
    + rewrite Hb, wrap64_add_l. f_equal. rewrite !fmap_app. csimpl. rewrite !sumZ_app, sumZ_cons. lia.
    + intros k e'. destruct (decide (k = txKey (mt_tx t))) as [->|Hne].
      { by rewrite lookup_delete_eq. }
      rewrite lookup_delete_ne by done. intros (t' & Hin & Hk)%Hm. exists t'. split; [|done].
      apply elem_of_app. apply elem_of_app in Hin as [?|[E|?]%elem_of_cons]; [by left| |by right].
      simplify_eq.
    + intros Hu e' t' Hin. assert ((e', t') ∈ pre ++ (e, t) :: post) as Hin' by set_solver.
      rewrite lookup_delete_ne; [by apply Hi|]. intros Ek.
      pose proof (Hi Hu _ _ Hin') as E1. rewrite <-Ek, (Hi Hu e t) in E1 by set_solver. injection E1 as <-.
      rewrite fmap_app in Hnd. csimpl in Hnd. apply NoDup_app in Hnd as (_ & Hd & [Hne _]%NoDup_cons).
      apply elem_of_app in Hin as [Hin|Hin].
      * apply (Hd e); [by apply (list_elem_of_fmap_2' fst _ (e, t'))|left].
      * apply Hne. by apply (list_elem_of_fmap_2' fst _ (e, t')).
    + destruct b; [by apply cache_Remove_ok|done].
  - unfold Next, deref. simpl. by rewrite He.
Qed.

(** Writing down another sender changes neither order nor bytes. *)
Definition same_txs (g : addr * mempoolTx → addr * mempoolTx) : Prop :=
  ∀ x, (g x).1 = x.1 ∧ mt_tx (g x).2 = mt_tx x.2.

Lemma record_sender_ok p xs tx peer :
  pool_inv p xs → ∃ g, same_txs g ∧ pool_inv (record_sender sha256 p tx peer) (g <$> xs) ∧
    cl_maxLen (p_txs (record_sender sha256 p tx peer)) = cl_maxLen (p_txs p).
Proof.
  intros Hp. unfold record_sender. destruct (p_txsMap p !! txKey tx) as [e|] eqn:E.
  2: { exists id. by rewrite list_fmap_id. }
  destruct (pi_map _ _ Hp _ _ E) as (t & (pre & post & ->)%list_elem_of_split & Hk).
  set (f := λ t : mempoolTx, _).
  exists (λ x, if decide (x.1 = e) then (x.1, f x.2) else x).
  split; [by intros [a u]; simpl; destruct (decide (a = e))|].
  destruct Hp as [Hr Hb Hm Hi Hc].
  assert (Hmap : (λ x, if decide (x.1 = e) then (x.1, f x.2) else x) <$> pre ++ (e, t) :: post =
    pre ++ (e, f t) :: post).
  { pose proof (rep_NoDup _ _ Hr) as Hnd. rewrite fmap_app in Hnd. rewrite fmap_app. csimpl in *.
    apply NoDup_app in Hnd as (_ & Hd & [He _]%NoDup_cons). rewrite decide_True by done.
    assert (Hid : ∀ l : list (addr * mempoolTx), e ∉ l.*1 →
      (λ x, if decide (x.1 = e) then (x.1, f x.2) else x) <$> l = l).
    { clear. induction l as [|[a u] l IH]; intros Hl; [done|]. csimpl in *.
      rewrite decide_False by set_solver. rewrite IH by set_solver. done. }
    rewrite !Hid by set_solver. done. }
  rewrite Hmap. split; [|done].
  split; simpl; [by apply modify_rep| | | |done].
  - rewrite Hb. f_equal. by rewrite !fmap_app, !sumZ_app.
  - intros k e' (t' & Hin & Hk')%Hm.
    apply elem_of_app in Hin as [?|[[= -> ->]|?]%elem_of_cons].
    + exists t'. split; [set_solver|done].
    + exists (f t). split; [set_solver|done].
    + exists t'. split; [set_solver|done].
  - intros Hu e' t' [Hin|[[= -> ->]|Hin]%elem_of_cons]%elem_of_app; [apply Hi; [done|set_solver]| |apply Hi; [done|set_solver]].
    change (mt_tx (f t)) with (mt_tx t). apply Hi; [done|set_solver].
Qed.

Lemma NewMempool_pool config height db : pool_inv (mp_pool (NewMempool config height db)) [].
Proof.
  split; simpl; [apply New_rep|done| | |].
  - intros k e. by rewrite lookup_empty.
  - intros _ e t Hin. by apply elem_of_nil in Hin.
  - destruct (Z.ltb_spec 0 (cf_CacheSize config)); simpl; [|done]. apply newMapTxCache_inv. lia.
Qed.

(** ** Loops that remove *)

(** A value the loop variable may have: the element the invariant speaks of. *)
Lemma pool_elem p pre e t post :
  pool_inv p (pre ++ (e, t) :: post) →
  (∃ c, elems (p_txs p) !! e = Some c ∧ ce_Value c = t) ∧
  Next (p_txs p) e = Ret (fst <$> head post).
Proof.
  intros [Hr _ _ _ _]. split; [|by eapply Next_rep].
  destruct (rep_value _ _ e t Hr ltac:(set_solver)) as (c & ? & ? & _). eauto.
Qed.

Definition keep (K : gset bytes) (x : addr * mempoolTx) : Prop := mt_tx x.2 ∉ K.

Definition left_over (K : gset bytes) (x : addr * mempoolTx) : Prop :=
  keep K x ∧ is_config (mt_tx x.2) = false.

#[local] Instance keep_dec K x : Decision (keep K x).
Proof. unfold keep. apply _. Defined.
#[local] Instance left_over_dec K x : Decision (left_over K x).
Proof. unfold left_over. apply _. Defined.

(** [removeTxs] takes out exactly the committed transactions and returns the others, but for
    configuration transactions. *)
Lemma removeTxs_ok p xs txs K :
  pool_inv p xs → committed_keys txs = Ret K →
  ∃ p', removeTxs p txs = Ret (p', (λ x, mt_tx x.2) <$> filter (left_over K) xs) ∧
    pool_inv p' (filter (keep K) xs) ∧ cl_maxLen (p_txs p') = cl_maxLen (p_txs p).
Proof.
  intros Hp HK. unfold Mempool.removeTxs. rewrite HK. simpl.
  pose (I := λ pre rest (st : Pool * list bytes),
    pool_inv st.1 (filter (keep K) pre ++ rest) ∧
    st.2 = (λ x, mt_tx x.2) <$> filter (left_over K) pre ∧
    cl_maxLen (p_txs st.1) = cl_maxLen (p_txs p)).
  edestruct (for_list_rule (λ st : Pool * list bytes, p_txs st.1)
    (λ e memTx st,
      if bool_decide (mt_tx memTx ∈ K) then
        p ← removeTx st.1 (mt_tx memTx) e false; mret ((p, st.2), @None unit)
      else if is_config (mt_tx memTx) then mret (st, None)
      else mret ((st.1, st.2 ++ [mt_tx memTx]), None)) I (λ _ _, False) xs (p, []))
    as ([p' left] & r & E & HI).
  - intros pre l t rest [q out] (Hq & Hout & Hmax). simpl in *.
    destruct (pool_elem _ _ _ _ _ Hq) as [Hv Hn]. split; [done|].
    unfold I. rewrite !filter_app, !filter_cons, !filter_nil.
    destruct (decide (mt_tx t ∈ K)) as [Hin|Hout'].
    + rewrite bool_decide_eq_true_2 by done.
      destruct (removeTx_ok _ _ _ _ _ false Hq) as (q' & -> & Hq' & Hn' & Hm'). simpl.
      eexists _, _. split; [done|]. simpl.
      assert (¬ keep K (l, t)) as Hk by (intros Hk; by apply Hk).
      rewrite decide_False by done. rewrite decide_False by by intros [? _].
      rewrite !app_nil_r. split_and!; [done|done|congruence|done].
    + rewrite bool_decide_eq_false_2 by done. assert (keep K (l, t)) as Hk by done.
      rewrite decide_True by done. rewrite <-app_assoc. simpl.
      destruct (is_config (mt_tx t)) eqn:Ec; eexists _, _; (split; [done|]); simpl.
      * rewrite decide_False by (intros [_ E]; simpl in E; congruence). rewrite app_nil_r. done.
      * rewrite decide_True by done. rewrite fmap_app. subst out. done.
  - apply (pi_rep _ _ Hp).
  - unfold I. simpl. split_and!; [done..].
  - destruct r as [|]; [done|]. rewrite E. unfold I in HI. simpl in HI. destruct HI as (Hq & -> & Hm).
    rewrite app_nil_r in Hq. by exists p'.
Qed.

(** What every transaction that passed [check_content] satisfies. *)
Definition decodable (tx : bytes) : Prop :=
  ∃ cm, ParseData tx = Ret cm ∧ (cm = None → is_Some (NewTX tx)).

(** Whether the transaction is a message whose relation is in [K]. *)
Definition in_packed (K : gset bytes) (x : addr * mempoolTx) : bool :=
  match ParseData (mt_tx x.2) with
  | Ret (Some cm) => bool_decide (CmID sha256 cm ∈ K)
  | _ => false
  end.

(** [RemoveCm] takes out exactly the messages whose relation was packed at the height. *)
Lemma RemoveCm_ok m xs height :
  pool_inv (mp_pool m) xs → Forall (λ x, decodable (mt_tx x.2)) xs →
  ∃ p' c', RemoveCm m height = Ret (with_cross (with_pool m p') c') ∧
    pool_inv p' (filter (λ x, in_packed (packed sha256 (mp_cross m) height) x = false) xs) ∧
    cl_maxLen (p_txs p') = cl_maxLen (p_txs (mp_pool m)).
Proof.
  intros Hp Hd. unfold Mempool.RemoveCm. cbv zeta. set (K := packed sha256 (mp_cross m) height).
  pose (I := λ (pre rest : list (addr * mempoolTx)) m1, ∃ p1 c1,
    m1 = with_cross (with_pool m p1) c1 ∧ Forall (λ x, decodable (mt_tx x.2)) rest ∧
    pool_inv p1 (filter (λ x, in_packed K x = false) pre ++ rest) ∧
    cl_maxLen (p_txs p1) = cl_maxLen (p_txs (mp_pool m))).
  edestruct (for_list_rule (λ m, p_txs (mp_pool m)) (λ e memTx m,
    cm ← ParseData (mt_tx memTx);
    match cm with
    | Some cm =>
        if bool_decide (CmID sha256 cm ∈ K) then
          p ← removeTx (mp_pool m) (mt_tx memTx) e false;
          mret (with_cross (with_pool m p)
            (RemoveRelationTable sha256 (mp_cross (with_pool m p)) (CmID sha256 cm)), @None unit)
        else mret (m, None)
    | None => mret (m, None)
    end) I (λ _ _, False) xs m) as (m' & r & E & HI).
  - intros pre l t rest m1 (p1 & c1 & -> & Hf & Hq & Hmax).
    apply Forall_cons in Hf as [(cm & Hcm & _) Hf]. simpl in Hcm.
    destruct (pool_elem _ _ _ _ _ Hq) as [Hv Hn]. split; [done|]. simpl. rewrite Hcm. simpl.
    assert (Hin : in_packed K (l, t) =
      match cm with Some cm => bool_decide (CmID sha256 cm ∈ K) | None => false end).
    { unfold in_packed. simpl. by rewrite Hcm. }
    assert (Hkeep : in_packed K (l, t) = false →
      I (pre ++ [(l, t)]) rest (with_cross (with_pool m p1) c1)).
    { intros E. exists p1, c1. rewrite filter_app, filter_cons, filter_nil. rewrite decide_True by done.
      by rewrite <-app_assoc. }
    destruct cm as [cm|]; [|by eexists _, _; split; [done|split; [apply Hkeep|]]].
    destruct (bool_decide (CmID sha256 cm ∈ K)) eqn:Eb; [|by eexists _, _; split; [done|split; [apply Hkeep|]]].
    destruct (removeTx_ok _ _ _ _ _ false Hq) as (q' & -> & Hq' & Hn' & Hm'). simpl.
    eexists _, _. split; [done|]. split; [|done].
    eexists q', _. split; [done|]. rewrite filter_app, filter_cons, filter_nil.
    rewrite decide_False by by rewrite Hin. rewrite app_nil_r. split_and!; [done|done|congruence].
  - apply (pi_rep _ _ Hp).
  - exists (mp_pool m), (mp_cross m). split_and!; [by destruct m|done..].
  - destruct r as [|]; [done|]. rewrite E. simpl. destruct HI as (p' & c' & -> & _ & Hq & Hm).
    rewrite app_nil_r in Hq. by exists p', c'.
Qed.

(** ** The state of a recheck

    The pool is [pre ++ mid ++ post]: the transactions already rechecked, those whose answers are
    awaited (the cursor is at the first, the end mark at the last), and those added since. The requests of [mid] come before
    those of the [firsts]. *)
Definition plain (tx : bytes) : Prop := is_config tx = false.

Definition first_check (f : bytes * Z) : request := FirstCheck f.1 f.2.
Definition recheck_of (x : addr * mempoolTx) : request := ReCheck (mt_tx x.2).

Record rcs m (pre mid post : list (addr * mempoolTx)) (firsts : list (bytes * Z)) : Prop := mkRcs {
  rcs_pool : pool_inv (mp_pool m) (pre ++ mid ++ post);
  rcs_max : cl_maxLen (p_txs (mp_pool m)) = MaxLength;
  rcs_good : Forall (λ x, decodable (mt_tx x.2) ∧ plain (mt_tx x.2)) (pre ++ mid ++ post);
  rcs_cursor : rc_cursor (mp_recheck m) = fst <$> head mid;
  rcs_end : mid ≠ [] → rc_end (mp_recheck m) = fst <$> last mid;
  rcs_flag : rc_rechecking (mp_recheck m) = if bool_decide (mid = []) then 0 else 1;
  rcs_pending : mp_pending m = (recheck_of <$> mid) ++ (first_check <$> firsts);
  rcs_firsts : Forall (λ f, decodable f.1 ∧ plain f.1) firsts;
}.

Lemma notify_ok m : 0 < Size m → ∃ n, notifyTxsAvailable m = Ret (with_notify m n).
Proof.
  intros Hs. unfold notifyTxsAvailable. rewrite (proj2 (Z.eqb_neq _ _)) by lia.
  destruct (ch_chan (mp_notify m)) eqn:E; [destruct (ch_notified (mp_notify m)) eqn:En|].
  all: try by eexists. all: exists (mp_notify m); by destruct m.
Qed.

Lemma rcs_notify m n pre mid post firsts :
  rcs m pre mid post firsts → rcs (with_notify m n) pre mid post firsts.
Proof. intros [? ? ? ? ? ? ? ?]. by split. Qed.

Lemma rcs_Size m pre mid post firsts :
  rcs m pre mid post firsts → Size m = zlen (pre ++ mid ++ post).
Proof. intros Hr. apply pool_Len, (rcs_pool _ _ _ _ _ Hr). Qed.

(** The answer to the first check of a transaction. *)
Lemma respond_first m pre post tx peer firsts r :
  rcs m pre [] post ((tx, peer) :: firsts) → Size m < MaxLength →
  (distinct → p_txsMap (mp_pool m) !! txKey tx = None) →
  ∃ m' post', respond m (Some r) = Ret m' ∧ rcs m' pre [] post' firsts ∧
    (λ x, mt_tx x.2) <$> post' =
      ((λ x, mt_tx x.2) <$> post) ++ (if tx_ok m tx r then [tx] else []).
Proof.
  intros [Hp Hm Hg Hc He Hf Hq Hfs] Hs Hfresh.
  apply Forall_cons in Hfs as [[Hd Hpl] Hfs]. csimpl in *.
  unfold Mempool.respond. rewrite Hq.
  change (first_check <$> (tx, peer) :: firsts) with (FirstCheck tx peer :: (first_check <$> firsts)).
  cbv iota. set (m1 := with_pending m (first_check <$> firsts)).
  unfold reqResCb. change (rc_cursor (mp_recheck m1)) with (rc_cursor (mp_recheck m)). rewrite Hc. simpl.
  change (tx_ok m1 tx r) with (tx_ok m tx r). destruct (tx_ok m tx r) eqn:Eok.
  - destruct (addTx_ok (mp_pool m) (pre ++ post)
      (mkMempoolTx (mp_height m) (rs_GasWanted r) tx {[peer]}) Hp) as (p' & e & -> & Hp' & Hm').
    { rewrite Hm. done. } { exact Hfresh. }
    simpl. destruct Hd as (cm & Hcm & Hn). rewrite Hcm. simpl.
    replace (if cm is Some _ then mret () else or_panic (NewTX tx) ≫= λ _, mret ()) with (Ret ())
      by (destruct cm; [done|]; by destruct (Hn eq_refl) as [? ->]). simpl.
    destruct (notify_ok (with_pool m1 p')) as (n & ->).
    { unfold Size. simpl. rewrite (pool_Len _ _ Hp'). unfold zlen. rewrite length_app. simpl. lia. }
    simpl. unfold globalCb. simpl. rewrite Hc. simpl.
    eexists _, (post ++ [(e, _)]). split; [done|]. split.
    + apply rcs_notify. split; simpl; try done.
      * by rewrite app_assoc.
      * congruence.
      * rewrite app_assoc. apply Forall_app. split; [done|]. apply Forall_singleton. simpl.
        split; [by exists cm|done].
    + by rewrite fmap_app.
  - simpl. unfold globalCb. simpl. rewrite Hc. simpl. eexists _, post. split; [done|].
    rewrite app_nil_r. split; [|done]. split; simpl; try done.
    apply with_cache_inv; [done|]. apply cache_Remove_ok, (pi_cache _ _ Hp).
Qed.

(** The answer to a recheck: the transaction stays or goes, and the cursor moves on. *)
Lemma respond_recheck m pre e t mid post firsts r :
  rcs m pre ((e, t) :: mid) post firsts →
  ∃ m', respond m (Some r) = Ret m' ∧
    rcs m' (if tx_ok m (mt_tx t) r then pre ++ [(e, t)] else pre) mid post firsts ∧
    mp_postCheck m' = mp_postCheck m.
Proof.
  intros [Hp Hm Hg Hc He Hf Hq Hfs]. csimpl in *.
  unfold Mempool.respond. rewrite Hq. unfold recheck_of at 1. cbv iota.
  set (m1 := with_pending m ((recheck_of <$> mid) ++ (first_check <$> firsts))).
  unfold globalCb, resCbRecheck.
  change (mp_recheck m1) with (mp_recheck m). change (mp_pool m1) with (mp_pool m).
  rewrite Hc. cbn [mbind outcome_bind or_panic].
  destruct (pool_elem _ _ _ _ _ Hp) as [(c & Hce & Hcv) Hn].
  unfold deref. simpl. rewrite Hce. simpl. rewrite Hcv.
  rewrite (proj2 (bytes_equal_true (mt_tx t) (mt_tx t)) eq_refl). simpl.
  change (tx_ok m1 (mt_tx t) r) with (tx_ok m (mt_tx t) r).
  (** the pool after the answer *)
  assert (∃ p', (if tx_ok m (mt_tx t) r then mret m1
      else p ← removeTx (mp_pool m) (mt_tx t) e true; mret (with_pool m1 p)) = Ret (with_pool m1 p') ∧
    pool_inv p' ((if tx_ok m (mt_tx t) r then pre ++ [(e, t)] else pre) ++ mid ++ post) ∧
    cl_maxLen (p_txs p') = MaxLength ∧ Next (p_txs p') e = Ret (fst <$> head (mid ++ post)))
    as (p' & -> & Hp' & Hm' & Hn').
  { destruct (tx_ok m (mt_tx t) r).
    - exists (mp_pool m). split_and!; [done|by rewrite <-app_assoc|done|done].
    - destruct (removeTx_ok _ _ _ _ _ true Hp) as (p' & -> & ? & ? & ?). exists p'.
      split_and!; [done|done|congruence|done]. }
  simpl. rewrite (He ltac:(done)).
  assert (Hnext : (if bool_decide (Some e = fst <$> last ((e, t) :: mid)) then mret None
      else Next (p_txs p') e) = Ret (fst <$> head mid)).
  { destruct mid as [|[e2 t2] mid]; [by rewrite bool_decide_eq_true_2|].
    rewrite bool_decide_eq_false_2; [by rewrite Hn'|].
    pose proof (rep_NoDup _ _ (pi_rep _ _ Hp)) as Hnd. rewrite fmap_app in Hnd. csimpl in Hnd.
    apply NoDup_app in Hnd as (_ & _ & [Hne _]%NoDup_cons). rewrite fmap_app in Hne.
    rewrite last_cons_cons. intros E. apply Hne. rewrite app_comm_cons. apply elem_of_app. left.
    destruct (last ((e2, t2) :: mid)) as [y|] eqn:El; [|done]. injection E as ->.
    change (y.1 ∈ ((e2, t2) :: mid).*1). apply list_elem_of_fmap_2, (last_Some_elem_of _ _ El). }
  rewrite Hnext. simpl.
  assert (Hfin : ∀ fl, fl = (if bool_decide (mid = []) then 0 else 1) →
    rcs (with_recheck (with_pool m1 p') (mkRecheck (fst <$> head mid) (fst <$> last ((e, t) :: mid)) fl))
      (if tx_ok m (mt_tx t) r then pre ++ [(e, t)] else pre) mid post firsts).
  { intros fl ->. split; simpl; try done.
    - apply Forall_app in Hg as [Hg1 Hg2]. apply Forall_cons in Hg2 as [Hg2 Hg3].
      apply Forall_app. split; [|done]. destruct (tx_ok m (mt_tx t) r); [|done].
      apply Forall_app. split; [done|]. by apply Forall_singleton.
    - destruct mid; [done|]. by rewrite last_cons_cons. }
  destruct mid as [|[e2 t2] mid]; simpl in *.
  - specialize (Hfin 0 eq_refl). set (m2 := with_recheck _ _) in *.
    destruct (Z.ltb_spec 0 (Size m2)); [|by exists m2].
    destruct (notify_ok m2) as (n & ->); [done|]. eexists. split_and!; [done|by apply rcs_notify|done].
  - rewrite Hf. eexists. split_and!; [done|by apply Hfin|done].
Qed.

(** ** CheckTx *)
Variable GetPubkeyFromByte : bytes → option bytes.
Variable VerifyBytes : bytes → bytes → bytes → bool.
Notation CheckTx := (CheckTx sha256 GetPubkeyFromByte VerifyBytes).
Notation CheckTxWithInfo := (CheckTxWithInfo sha256 GetPubkeyFromByte VerifyBytes).

Lemma check_content_ok a c tx b :
  decodable tx → ∃ c' err, check_content sha256 GetPubkeyFromByte VerifyBytes a c tx b = Ret (c', err).
Proof.
  intros (cm & Hcm & Hn). unfold check_content. rewrite Hcm. simpl. destruct cm as [cm|]; simpl.
  - by destruct (if b then _ else _) as [c' err]; eauto.
  - destruct (Hn eq_refl) as [x ->]. simpl. eauto.
Qed.

Lemma fmap_same_txs g (mid : list (addr * mempoolTx)) :
  same_txs g → (g <$> mid).*1 = mid.*1 ∧ (recheck_of <$> (g <$> mid)) = (recheck_of <$> mid).
Proof.
  intros Hg. induction mid as [|x mid [IH1 IH2]]; [done|]. csimpl. rewrite IH1, IH2.
  unfold recheck_of at 1 3. destruct (Hg x) as [-> ->]. done.
Qed.

Lemma rcs_same_txs m p' g pre mid post firsts :
  same_txs g → rcs m pre mid post firsts → pool_inv p' (g <$> pre ++ mid ++ post) →
  cl_maxLen (p_txs p') = MaxLength →
  rcs (with_pool m p') (g <$> pre) (g <$> mid) (g <$> post) firsts.
Proof.
  intros Hg [Hp Hm Hgood Hc He Hf Hq Hfs] Hp' Hm'.
  destruct (fmap_same_txs g mid Hg) as [Hk Hr].
  assert (Hhead : fst <$> head (g <$> mid) = fst <$> head mid).
  { destruct mid as [|x mid]; [done|]. simpl. by rewrite (proj1 (Hg x)). }
  assert (Hlast : fst <$> last (g <$> mid) = fst <$> last mid).
  { rewrite fmap_last. destruct (last mid) as [x|]; simpl; [|done]. by rewrite (proj1 (Hg x)). }
  split; simpl; try done.
  - by rewrite !fmap_app in Hp'.
  - rewrite <-!fmap_app. apply Forall_fmap. eapply Forall_impl; [exact Hgood|].
    intros x [Hx1 Hx2]. simpl. by rewrite (proj2 (Hg x)).
  - by rewrite Hhead.
  - intros Hne. rewrite Hlast. apply He. intros ->. done.
  - rewrite Hf. by destruct mid.
  - by rewrite Hr.
Qed.

Lemma rcs_with_cross m c pre mid post firsts :
  rcs m pre mid post firsts → rcs (with_cross m c) pre mid post firsts.
Proof. intros [? ? ? ? ? ? ? ?]. by split. Qed.

Lemma CheckTxWithInfo_ok a m tx peer b appErr pre mid post firsts :
  rcs m pre mid post firsts → decodable tx → plain tx →
  ∃ m' err pre' mid' post' firsts', CheckTxWithInfo a m tx peer b appErr = Ret (m', err) ∧
    rcs m' pre' mid' post' firsts'.
Proof.
  intros Hr Hd Hpl. unfold Mempool.CheckTxWithInfo.
  destruct (_ || _); [by eexists _, _, _, _, _, _|].
  destruct (maxTxSize <? zlen tx); [by eexists _, _, _, _, _, _|].
  destruct (match mp_preCheck m with Some f => f tx | None => false end); [by eexists _, _, _, _, _, _|].
  pose proof (rcs_pool _ _ _ _ _ Hr) as Hp.
  destruct (cache_Push_ok (p_cache (mp_pool m)) tx (pi_cache _ _ Hp)) as (fresh & c & -> & Hc). simpl.
  pose proof (with_cache_inv _ _ _ Hp Hc) as Hp1.
  destruct fresh; simpl.
  - destruct (check_content_ok a (mp_cross m) tx b Hd) as (c' & err & ->). simpl.
    set (p1 := mkPool _ _ _ _) in *.
    assert (Hr1 : rcs (with_pool m p1) pre mid post firsts).
    { destruct Hr. by split. }
    apply (rcs_with_cross _ c') in Hr1.
    destruct err as [err|]; [by eexists _, _, _, _, _, _|].
    destruct appErr; [by eexists _, _, _, _, _, _|].
    eexists _, None, pre, mid, post, (firsts ++ [(tx, peer)]). split; [done|].
    destruct Hr1 as [? ? ? ? ? ? Hq Hfs]. split; simpl in *; try done.
    + rewrite Hq, fmap_app, <-app_assoc. done.
    + apply Forall_app. split; [done|]. by apply Forall_singleton.
  - destruct (record_sender_ok _ _ tx peer Hp1) as (g & Hg & Hp2 & Hm2).
    eexists _, _, (g <$> pre), (g <$> mid), (g <$> post), firsts. split; [done|].
    apply rcs_same_txs; [done|done|done|]. rewrite Hm2. apply (rcs_max _ _ _ _ _ Hr).
Qed.

Lemma CheckTx_ok a m tx appErr pre mid post firsts :
  rcs m pre mid post firsts → decodable tx → plain tx →
  ∃ m' err pre' mid' post' firsts', CheckTx a m tx appErr = Ret (m', err) ∧
    rcs m' pre' mid' post' firsts'.
Proof.
  intros Hr Hd Hpl. unfold Mempool.CheckTx, CheckDB.
  destruct (Hd) as (cm & -> & _). simpl.
  assert (∃ c status, match cm with
       | Some cm =>
           if bytes_equal (cm_SrcZone cm) getShard then (ModifyCrossMessagelist (mp_cross m) cm, DBReceipt)
           else match checkdb_Search (cr_checkdb (mp_cross m)) (CmID sha256 cm) with
                | Some _ => (mp_cross m, DBReturned)
                | None => (mp_cross m, DBNone)
                end
       | None => (mp_cross m, DBNone)
       end = (c, status)) as (c & status & ->).
  { destruct cm; [|eauto]. repeat case_match; eauto. }
  apply (rcs_with_cross _ c) in Hr. destruct status.
  - by apply (CheckTxWithInfo_ok a _ tx UnknownPeerID true appErr _ _ _ _ Hr).
  - by eexists _, _, _, _, _, _.
  - by apply (CheckTxWithInfo_ok a _ tx UnknownPeerID false appErr _ _ _ _ Hr).
Qed.

(** ** Update *)
Lemma committed_keys_ok txs :
  Forall (λ tx, is_Some (NewTX tx)) txs → ∃ K, committed_keys txs = Ret K.
Proof.
  unfold committed_keys. generalize (∅ : gset bytes) as s.
  induction txs as [|tx txs IH]; intros s Hd; simpl; [eauto|].
  apply Forall_cons in Hd as [[x Hx] Hd]. unfold committed_key, DetectTx. rewrite Hx. simpl.
  destruct (_ && _); simpl; apply IH; done.
Qed.

Lemma push_committed_ok c txs :
  cache_inv c → Forall (λ tx, is_Some (NewTX tx)) txs →
  ∃ c', push_committed sha256 c txs = Ret c' ∧ cache_inv c'.
Proof.
  unfold push_committed. revert c. induction txs as [|tx txs IH]; intros c Hc Hd; simpl; [eauto|].
  apply Forall_cons in Hd as [[x Hx] Hd]. unfold DetectTx. rewrite Hx. simpl.
  destruct (_ && _); simpl; [by apply IH|].
  destruct (cache_Push_ok c tx Hc) as (b & c' & -> & Hc'). simpl. by apply IH.
Qed.

(** An update with a transaction that does not decode panics. *)
Lemma push_committed_decodable c txs c' :
  push_committed sha256 c txs = Ret c' → Forall (λ tx, is_Some (NewTX tx)) txs.
Proof.
  unfold push_committed. revert c. induction txs as [|tx txs IH]; intros c; simpl; [constructor|].
  intros (c1 & E1 & E2)%bind_Ret. constructor; [|by eapply IH].
  unfold DetectTx in E1. destruct (NewTX tx) as [x|]; [eauto|done].
Qed.

Lemma Update_decodable m height txs pc qc m' :
  Update m height txs pc qc = Ret m' → Forall (λ tx, is_Some (NewTX tx)) txs.
Proof. unfold Mempool.Update. cbv zeta. intros (c & E & _)%bind_Ret. by eapply push_committed_decodable. Qed.

(** The pool after a block: neither packed messages nor committed transactions. *)
Definition survives (c : Cross) (height : Z) (K : gset bytes) (x : addr * mempoolTx) : Prop :=
  keep K x ∧ in_packed (packed sha256 c height) x = false.

#[local] Instance survives_dec c height K x : Decision (survives c height K x).
Proof. unfold survives. apply _. Defined.

Lemma survivors c height K xs :
  filter (keep K) (filter (λ x, in_packed (packed sha256 c height) x = false) xs) =
  filter (survives c height K) xs.
Proof. rewrite list_filter_filter. apply list_filter_iff. intros x. done. Qed.

Lemma filter_left_over K xs :
  Forall (λ x, decodable (mt_tx x.2) ∧ plain (mt_tx x.2)) xs → filter (left_over K) xs = filter (keep K) xs.
Proof.
  induction xs as [|x xs IH]; intros Hf; [done|]. apply Forall_cons in Hf as [[_ Hx] Hf].
  rewrite !filter_cons, IH by done.
  destruct (decide (keep K x)).
  - by rewrite decide_True.
  - rewrite decide_False; [done|]. by intros [? _].
Qed.

Lemma Forall_filter {A} (P Q : A → Prop) `{∀ x, Decision (Q x)} l : Forall P l → Forall P (filter Q l).
Proof. rewrite !Forall_forall. intros Hl x [_ Hx]%list_elem_of_filter. by apply Hl. Qed.

Lemma Update_ok m xs height txs pc qc :
  rcs m xs [] [] [] → Forall (λ tx, is_Some (NewTX tx)) txs →
  ∃ m' K, Update m height txs pc qc = Ret m' ∧ committed_keys txs = Ret K ∧
    let ys := filter (survives (mp_cross m) height K) xs in
    (if cf_Recheck (mp_config m) then rcs m' [] ys [] [] else rcs m' ys [] [] []).
Proof.
  intros [Hp Hm Hg Hc _ Hf Hq _] Hd. rewrite !app_nil_r in *. simpl in *.
  destruct (committed_keys_ok _ Hd) as [K HK].
  unfold Mempool.Update. cbv zeta. cbn [mp_pool].
  destruct (push_committed_ok _ _ (pi_cache _ _ Hp) Hd) as (c & -> & Hcache).
  cbn [mbind outcome_bind].
  pose proof (with_cache_inv _ _ _ Hp Hcache) as Hp1.
  set (m1 := with_pool _ _).
  assert (Hdec : Forall (λ x, decodable (mt_tx x.2)) xs).
  { eapply Forall_impl; [exact Hg|]. by intros x [? _]. }
  destruct (RemoveCm_ok m1 xs height Hp1 Hdec) as (p2 & c2 & -> & Hp2 & Hm2).
  cbn [mbind outcome_bind]. cbn [mp_pool with_cross with_pool].
  destruct (removeTxs_ok p2 _ txs K Hp2 HK) as (p3 & -> & Hp3 & Hm3).
  cbn [mbind outcome_bind]. rewrite filter_left_over by by apply Forall_filter.
  rewrite survivors in *. change (mp_cross m1) with (mp_cross m) in *.
  set (ys := filter (survives (mp_cross m) height K) xs) in *.
  assert (Hgy : Forall (λ x, decodable (mt_tx x.2) ∧ plain (mt_tx x.2)) ys) by by apply Forall_filter.
  set (m2 := with_pool (with_cross (with_pool m1 p2) c2) p3).
  assert (Hm4 : cl_maxLen (p_txs p3) = MaxLength) by (rewrite Hm3, Hm2; exact Hm).
  assert (Hidle : ∀ n, rcs (with_notify m2 n) ys [] [] []).
  { intros n. split; simpl; rewrite ?app_nil_r; done. }
  destruct (bool_decide_reflect ((λ x, mt_tx x.2) <$> ys = [])) as [He|Hne].
  - apply fmap_nil_inv in He. exists m2, K. split_and!; [done|done|]. cbv zeta. fold ys.
    rewrite He in *. specialize (Hidle (mp_notify m2)). by destruct (cf_Recheck (mp_config m)).
  - change (cf_Recheck (mp_config m2)) with (cf_Recheck (mp_config m)).
    destruct (cf_Recheck (mp_config m)).
    + eexists _, K. split_and!; [done|done|]. unfold recheckTxs.
      rewrite bool_decide_eq_false_2 by done. cbv zeta. fold ys.
      assert (ys ≠ []) by (intros E; by rewrite E in Hne).
      split; simpl; rewrite ?app_nil_r; try done.
      * unfold Front. apply (rep_head _ _ (pi_rep _ _ Hp3)).
      * intros _. unfold Back. apply (rep_tail _ _ (pi_rep _ _ Hp3)).
      * by rewrite bool_decide_eq_false_2.
      * rewrite Hq. simpl. rewrite <-list_fmap_compose. done.
    + destruct (notify_ok m2) as (n & E).
      { unfold Size. simpl. rewrite (pool_Len _ _ Hp3). unfold zlen. destruct ys; [done|simpl; lia]. }
      rewrite E. eexists _, K. split_and!; [done|done|]. apply Hidle.
Qed.

(** ** Flush *)
Lemma Flush_ok m xs :
  rcs m xs [] [] [] → ∃ m', Flush m = Ret m' ∧ rcs m' [] [] [] [].
Proof.
  intros [Hp Hm Hg Hc He Hf Hq Hfs]. rewrite !app_nil_r in *. unfold Flush.
  pose (I := λ (pre rest : list (addr * mempoolTx)) (l : CList mempoolTx), rep l rest ∧ cl_maxLen l = MaxLength).
  edestruct (for_list_rule id (λ e (_ : mempoolTx) l, '(_, l) ← Remove l e; l ← DetachPrev l e; mret (l, @None unit))
    I (λ _ _, False) xs (p_txs (mp_pool m))) as (l' & r & E & HI).
  - intros pre e t rest l [Hr Hmax]. cbn [id]. split.
    { destruct (rep_value _ _ e t Hr ltac:(set_solver)) as (c & ? & ? & _). eauto. }
    destruct (Remove_rep l [] e t rest Hr) as (l1 & -> & Hr1 & He1 & Hm1 & _ & _). simpl.
    destruct (DetachPrev_rep l1 _ e _ Hr1 He1 eq_refl) as (l2 & -> & Hr2 & Hm2 & _ & _ & Hn). simpl.
    eexists _, _. split; [done|]. simpl. split; [split; [exact Hr2|congruence]|].
    rewrite Hn. unfold Next, deref. simpl. by rewrite He1.
  - apply (pi_rep _ _ Hp).
  - split; [apply (pi_rep _ _ Hp)|done].
  - destruct r as [|]; [done|]. rewrite E. destruct HI as [Hr Hmax]. simpl. eexists. split; [done|].
    split; simpl; try done. split; simpl; [done|done| | |by apply cache_Reset_ok, (pi_cache _ _ Hp)].
    + intros k e. by rewrite lookup_empty.
    + intros _ e t Hin. by apply elem_of_nil in Hin.
Qed.

(** ** Runs of a mempool

    Transactions arrive from clients and peers, the application answers in order, blocks are
    committed and the pool is flushed once every answer is in (consensus flushes the connection and holds the lock), and the tables
    of messages change. No transaction that arrives is a configuration transaction; one that is not decodable panics or
    is refused before it is decoded. *)

(** The transaction whose first check is answered next is not in the pool. *)
Definition fresh m : Prop :=
  match mp_pending m with
  | FirstCheck tx _ :: _ => p_txsMap (mp_pool m) !! txKey tx = None
  | _ => True
  end.

Inductive mem_step (a : accounts) m : Mempool → Prop :=
| step_check tx appErr m' err : plain tx →
    CheckTx a m tx appErr = Ret (m', err) → mem_step a m m'
| step_peer tx peer b appErr m' err : plain tx →
    CheckTxWithInfo a m tx peer b appErr = Ret (m', err) → mem_step a m m'
| step_respond r m' : Size m < MaxLength → (distinct → fresh m) → respond m (Some r) = Ret m' → mem_step a m m'
| step_update height txs pc qc m' : mp_pending m = [] → Update m height txs pc qc = Ret m' → mem_step a m m'
| step_flush m' : mp_pending m = [] → Flush m = Ret m' → mem_step a m m'
| step_cross c : mem_step a m (with_cross m c).

Inductive mem_reach : Mempool → Prop :=
| mem_start config height db : mem_reach (NewMempool config height db)
| mem_next a m m' : mem_reach m → mem_step a m m' → mem_reach m'.

(** A transaction is decodable, or its content is not checked with a result. *)
Lemma decodable_or_panic a c tx b :
  decodable tx ∨ ParseData tx = Panic ∨ check_content sha256 GetPubkeyFromByte VerifyBytes a c tx b = Panic.
Proof.
  unfold decodable, check_content. destruct (ParseData tx) as [[cm|]|]; [left; by exists (Some cm)| |by right; left].
  destruct (NewTX tx) as [x|]; [left; exists None; eauto|right; right; done].
Qed.

Lemma CheckTxWithInfo_step a m tx peer b appErr pre mid post firsts m' err :
  rcs m pre mid post firsts → plain tx → CheckTxWithInfo a m tx peer b appErr = Ret (m', err) →
  ∃ pre' mid' post' firsts', rcs m' pre' mid' post' firsts'.
Proof.
  intros Hr Hpl E. destruct (decodable_or_panic a (mp_cross m) tx b) as [Hd|Hpanic].
  { destruct (CheckTxWithInfo_ok a m tx peer b appErr _ _ _ _ Hr Hd Hpl) as (m2 & ? & ? & ? & ? & ? & E2 & ?).
    rewrite E2 in E. inv_ret. eauto. }
  revert E. unfold Mempool.CheckTxWithInfo.
  destruct (_ || _); [intros [= <- <-]; eauto|].
  destruct (maxTxSize <? zlen tx); [intros [= <- <-]; eauto|].
  destruct (match mp_preCheck m with Some f => f tx | None => false end); [intros [= <- <-]; eauto|].
  pose proof (rcs_pool _ _ _ _ _ Hr) as Hp.
  destruct (cache_Push_ok (p_cache (mp_pool m)) tx (pi_cache _ _ Hp)) as (fr & c & -> & Hc). simpl.
  destruct fr; simpl.
  - intros E. exfalso. destruct Hpanic as [Hpd|Hcc]; [unfold check_content in E; by rewrite Hpd in E|].
    change (mp_cross (with_pool m _)) with (mp_cross m) in E. by rewrite Hcc in E.
  - intros [= <- <-]. destruct (record_sender_ok _ _ tx peer (with_cache_inv _ _ _ Hp Hc)) as (g & Hg & Hp2 & Hm2).
    exists (g <$> pre), (g <$> mid), (g <$> post), firsts.
    apply rcs_same_txs; [done|done|done|]. rewrite Hm2. apply (rcs_max _ _ _ _ _ Hr).
Qed.

Lemma CheckTx_step a m tx appErr pre mid post firsts m' err :
  rcs m pre mid post firsts → plain tx → CheckTx a m tx appErr = Ret (m', err) →
  ∃ pre' mid' post' firsts', rcs m' pre' mid' post' firsts'.
Proof.
  intros Hr Hpl ([c status] & _ & E)%bind_Ret. apply (rcs_with_cross _ c) in Hr. cbv zeta in E. destruct status.
  - by eapply CheckTxWithInfo_step.
  - injection E as <- <-. eauto.
  - by eapply CheckTxWithInfo_step.
Qed.

Lemma rcs_idle m pre mid post firsts :
  rcs m pre mid post firsts → mp_pending m = [] → mid = [] ∧ firsts = [] ∧ rcs m (pre ++ post) [] [] [].
Proof.
  intros Hr Hq. pose proof (rcs_pending _ _ _ _ _ Hr) as E. rewrite Hq in E. symmetry in E.
  apply app_eq_nil in E as [E1%fmap_nil_inv E2%fmap_nil_inv]. subst.
  split_and!; [done..|]. destruct Hr as [? ? ? ? ? ? ? ?]. simpl in *. split; rewrite ?app_nil_r; done.
Qed.

Lemma respond_ok m pre mid post firsts r :
  rcs m pre mid post firsts → Size m < MaxLength → (distinct → fresh m) →
  ∃ m' pre' mid' post' firsts', respond m (Some r) = Ret m' ∧ rcs m' pre' mid' post' firsts'.
Proof.
  intros Hr Hs Hfresh. destruct mid as [|[e t] mid].
  - destruct firsts as [|[tx peer] firsts].
    + unfold Mempool.respond. rewrite (rcs_pending _ _ _ _ _ Hr). simpl. eauto 10.
    + destruct (respond_first _ _ _ _ _ _ r Hr Hs) as (m' & post' & ? & ? & _); [|by eauto 10].
      intros Hu. specialize (Hfresh Hu). unfold fresh in Hfresh. by rewrite (rcs_pending _ _ _ _ _ Hr) in Hfresh.
  - destruct (respond_recheck _ _ _ _ _ _ _ r Hr) as (m' & ? & ? & _). eauto 10.
Qed.

Lemma reach_rcs m : mem_reach m → ∃ pre mid post firsts, rcs m pre mid post firsts.
Proof.
  induction 1 as [config height db|a m m' _ (pre & mid & post & firsts & Hr) Hs].
  - exists [], [], [], []. split; simpl; try done. apply (NewMempool_pool config height db).
  - destruct Hs as [tx appErr m' err Hpl E|tx peer b appErr m' err Hpl E|r m' Hs Hfr E
      |height txs pc qc m' Hq E|m' Hq E|c].
    + by eapply CheckTx_step.
    + by eapply CheckTxWithInfo_step.
    + destruct (respond_ok _ _ _ _ _ r Hr Hs Hfr) as (m2 & ? & ? & ? & ? & E2 & ?).
      rewrite E2 in E. inv_ret. eauto.
    + destruct (rcs_idle _ _ _ _ _ Hr Hq) as (_ & _ & Hr').
      destruct (Update_ok _ _ height txs pc qc Hr' (Update_decodable _ _ _ _ _ _ E)) as (m2 & K & E2 & _ & Hm2).
      rewrite E2 in E. inv_ret. destruct (cf_Recheck (mp_config m)); eauto.
    + destruct (rcs_idle _ _ _ _ _ Hr Hq) as (_ & _ & Hr'). destruct (Flush_ok _ _ Hr') as (m2 & E2 & Hm2).
      rewrite E2 in E. inv_ret. eauto.
    + apply (rcs_with_cross _ c) in Hr. eauto.
Qed.

(** The application's answers to everything that is pending, given by a verdict on transactions. *)
Definition request_tx (q : request) : bytes := match q with FirstCheck tx _ => tx | ReCheck tx => tx end.

Fixpoint answer (n : nat) m (v : bytes → ResponseCheckTx) : outcome Mempool :=
  match n, mp_pending m with
  | S n, q :: _ => m ← respond m (Some (v (request_tx q))); answer n m v
  | _, _ => mret m
  end.

Definition passes m (v : bytes → ResponseCheckTx) (x : addr * mempoolTx) : Prop :=
  tx_ok m (mt_tx x.2) (v (mt_tx x.2)) = true.

#[local] Instance passes_dec m v x : Decision (passes m v x).
Proof. unfold passes. apply _. Defined.

Lemma answer_recheck v mid : ∀ m pre post,
  rcs m pre mid post [] →
  ∃ m', answer (length mid) m v = Ret m' ∧
    rcs m' (pre ++ filter (passes m v) mid) [] post [].
Proof.
  induction mid as [|[e t] mid IH]; intros m pre post Hr.
  - exists m. split; [done|]. by rewrite app_nil_r.
  - simpl. pose proof (rcs_pending _ _ _ _ _ Hr) as Hq. csimpl in Hq. rewrite Hq.
    unfold recheck_of at 1. simpl request_tx.
    destruct (respond_recheck _ _ _ _ _ _ _ (v (mt_tx t)) Hr) as (m1 & -> & Hr1 & Hpc). simpl.
    destruct (IH _ _ _ Hr1) as (m2 & -> & Hr2). exists m2. split; [done|].
    assert (Hsame : filter (passes m1 v) mid = filter (passes m v) mid).
    { apply list_filter_iff. intros x. unfold passes, tx_ok. by rewrite Hpc. }
    rewrite Hsame in Hr2. rewrite filter_cons.
    destruct (tx_ok m (mt_tx t) (v (mt_tx t))) eqn:Eok.
    + rewrite decide_True by done. by rewrite <-app_assoc in Hr2.
    + rewrite decide_False; [done|]. unfold passes. simpl. by rewrite Eok.
Qed.
End proofs.

(** Nothing is claimed less when nothing is said of the transactions. *)
Lemma reach_any `{IdenCodec} sha256 distinct pk vf m : mem_reach sha256 distinct pk vf m → mem_reach sha256 False pk vf m.
Proof.
  induction 1 as [config height db|a m m' _ IH Hs]; [apply mem_start|]. apply (mem_next _ _ _ _ a m); [done|].
  destruct Hs; [by eapply step_check|by eapply step_peer|by eapply step_respond|by eapply step_update|by eapply step_flush|apply step_cross].
Qed.

(** ** Theorems *)

(** C20. Take a mempool to which no configuration transaction was sent and which was updated and flushed only when no request was
    pending. The counters and the map agree with the list: [Size] is the number
    of transactions, [TxsBytes] the sum of their sizes modulo 2^64, and every entry of [txsMap] leads to an element of the list
    that holds the transaction of that key. If moreover no transaction was accepted while the pool held it ([distinct]), every element
    of the list has its entry in [txsMap]. *)
Theorem mempool_consistent `{IdenCodec} sha256 distinct pk vf m :
  mem_reach sha256 distinct pk vf m →
  ∃ xs, rep (p_txs (mp_pool m)) xs ∧ Size m = zlen xs ∧
    TxsBytes m = wrap64 (sumZ (λ t, zlen (mt_tx t)) xs.*2) ∧
    (∀ k e, p_txsMap (mp_pool m) !! k = Some e → ∃ t, (e, t) ∈ xs ∧ txKey sha256 (mt_tx t) = k) ∧
    (distinct → ∀ e t, (e, t) ∈ xs → p_txsMap (mp_pool m) !! txKey sha256 (mt_tx t) = Some e).
Proof.
  intros (pre & mid & post & firsts & Hr)%reach_rcs. exists (pre ++ mid ++ post).
  pose proof (rcs_pool _ _ _ _ _ _ _ Hr) as [? ? ? ? ?]. split_and!; [done| |done|done|done].
  by eapply rcs_Size.
Qed.

(** C18. Take a mempool to which no configuration transaction was sent and which was updated and flushed only when no request was
    pending. No answer of the application to a request makes it panic as long as the list is not full: requests and recheck cursor
    stay in step, and when no request is pending the recheck is over, so that [Reap] does not wait. *)
Theorem mempool_answers_safe `{IdenCodec} sha256 distinct pk vf m r :
  mem_reach sha256 distinct pk vf m → Size m < MaxLength →
  (∃ m', respond sha256 m (Some r) = Ret m') ∧
  (mp_pending m = [] → rc_cursor (mp_recheck m) = None ∧ rc_rechecking (mp_recheck m) = 0).
Proof.
  intros (pre & mid & post & firsts & Hr)%reach_any%reach_rcs Hs. split.
  - destruct (respond_ok _ _ _ _ _ _ _ r Hr Hs) as (m' & ? & ? & ? & ? & E & _); [done|]. eauto.
  - intros Hq. destruct (rcs_idle _ _ _ _ _ _ _ Hr Hq) as (_ & _ & Hr').
    split; [apply (rcs_cursor _ _ _ _ _ _ _ Hr')|apply (rcs_flag _ _ _ _ _ _ _ Hr')].
Qed.

(** C19. Take a mempool to which no configuration transaction was sent, with no request pending and rechecks on, and a block of
    decodable transactions. [Update] followed by the application's answers leaves exactly the transactions that
    were not committed with the block, are not messages packed in it, and still pass; then the recheck is over. *)
Theorem update_then_recheck `{IdenCodec} sha256 distinct pk vf m height txs pc qc v :
  mem_reach sha256 distinct pk vf m → mp_pending m = [] → cf_Recheck (mp_config m) = true →
  Forall (λ tx, is_Some (NewTX tx)) txs →
  ∃ xs m1 m2 K, rep (p_txs (mp_pool m)) xs ∧ committed_keys txs = Ret K ∧
    Update sha256 m height txs pc qc = Ret m1 ∧ answer sha256 (length (mp_pending m1)) m1 v = Ret m2 ∧
    rep (p_txs (mp_pool m2))
      (filter (λ x, tx_ok m1 (mt_tx x.2) (v (mt_tx x.2)) = true ∧ mt_tx x.2 ∉ K ∧
                    in_packed sha256 (packed sha256 (mp_cross m) height) x = false) xs) ∧
    mp_pending m2 = [] ∧ rc_rechecking (mp_recheck m2) = 0.
Proof.
  intros (pre & mid & post & firsts & Hr)%reach_rcs Hq Hre Hd.
  destruct (rcs_idle _ _ _ _ _ _ _ Hr Hq) as (_ & _ & Hr').
  destruct (Update_ok _ _ _ _ height txs pc qc Hr' Hd) as (m1 & K & E1 & EK & Hm1).
  rewrite Hre in Hm1. destruct (answer_recheck _ _ v _ _ _ _ Hm1) as (m2 & E2 & Hm2).
  exists (pre ++ post), m1, m2, K.
  pose proof (rcs_pool _ _ _ _ _ _ _ Hr') as Hp'. rewrite !app_nil_r in Hp'.
  pose proof (rcs_pool _ _ _ _ _ _ _ Hm2) as Hp2. rewrite !app_nil_r in Hp2.
  split_and!; [apply (pi_rep _ _ _ _ Hp')|done|done| | | |].
  - rewrite (rcs_pending _ _ _ _ _ _ _ Hm1), app_nil_r, length_fmap. done.
  - pose proof (pi_rep _ _ _ _ Hp2) as Hrep. simpl in Hrep. rewrite list_filter_filter in Hrep.
    erewrite list_filter_iff; [exact Hrep|]. intros x. unfold passes, survives, keep. done.
  - apply (rcs_pending _ _ _ _ _ _ _ Hm2).
  - apply (rcs_flag _ _ _ _ _ _ _ Hm2).
Qed.
