(* ===== verification/MempoolFacts.v ===== *)
(** * Further properties of the mempool

    What [Reap] returns, the order [SortTxs] makes, the tables of cross-shard messages, bounds of the pool, and what
    goes wrong: configuration transactions and rechecks, unflushed updates, undecodable
    transactions, relations of transactions that are not packed. *)

From Stdlib Require Import ZArith Lia Bool Strings.Byte String.
From stdpp Require Import base list gmap sets.
From S2P Require Import Prelude CList TxCache Merkle KeyPath Strconv Account Identypes Mempool MempoolProofs.
Local Open Scope Z_scope.

Section facts.
Context `{IdenCodec}.
Variable sha256 : bytes → bytes.
Variable UvarintSize : Z → Z.

(** ** Reaping ordinary transactions *)
Definition reap_size (t : mempoolTx) : Z := zlen (mt_tx t) + ComputeAminoOverhead UvarintSize (mt_tx t).

(** A transaction that is not a cross-shard message. *)
Definition ordinary (tx : bytes) : Prop := ParseData tx = Ret None ∧ is_Some (NewTX tx).

Definition within (limit total : Z) : Prop := limit ≤ -1 ∨ total ≤ limit.

(** The transactions [txs] are the longest prefix of [ts] within the limits: bytes with room for
    1500000 more, and gas. *)
Definition best_prefix (maxBytes maxGas : Z) (ts : list mempoolTx) (txs : list bytes) : Prop :=
  ∃ pre rest, ts = pre ++ rest ∧ txs = mt_tx <$> pre ∧
    (pre = [] ∨ maxBytes ≤ -1 ∨ sumZ reap_size pre ≤ maxBytes - 1500000) ∧
    (pre = [] ∨ within maxGas (sumZ mt_gasWanted pre)) ∧
    (∀ t rest', rest = t :: rest' →
      (-1 < maxBytes ∧ maxBytes - 1500000 < sumZ reap_size (pre ++ [t])) ∨
      (-1 < maxGas ∧ maxGas < sumZ mt_gasWanted (pre ++ [t]))).

Definition small (maxBytes maxGas : Z) (ts : list mempoolTx) : Prop :=
  in_int64 maxBytes ∧ in_int64 maxGas ∧
  (∀ t, t ∈ ts → 0 ≤ reap_size t ∧ 0 ≤ mt_gasWanted t) ∧
  sumZ reap_size ts ≤ 2 ^ 62 ∧ sumZ mt_gasWanted ts ≤ 2 ^ 62.

Lemma small_prefix maxBytes maxGas pre rest :
  small maxBytes maxGas (pre ++ rest) →
  0 ≤ sumZ reap_size pre ≤ 2 ^ 62 ∧ 0 ≤ sumZ mt_gasWanted pre ≤ 2 ^ 62.
Proof.
  intros (_ & _ & Hpos & Hb & Hg). rewrite !sumZ_app in *.
  assert (0 ≤ sumZ reap_size pre ∧ 0 ≤ sumZ reap_size rest ∧
    0 ≤ sumZ mt_gasWanted pre ∧ 0 ≤ sumZ mt_gasWanted rest) as (? & ? & ? & ?).
  { split_and!; apply sumZ_nonneg; intros t Ht; destruct (Hpos t); set_solver. }
  lia.
Qed.

Definition reap_state (c : Cross) (pre : list mempoolTx) : reap :=
  mkReap c (mt_tx <$> pre) (sumZ reap_size pre) (sumZ mt_gasWanted pre).

Lemma reap_step maxBytes maxGas height c pre t rest :
  ordinary (mt_tx t) → small maxBytes maxGas (pre ++ t :: rest) →
  let bytes' := sumZ reap_size (pre ++ [t]) in
  let gas' := sumZ mt_gasWanted (pre ++ [t]) in
  reap_one sha256 UvarintSize maxBytes maxGas height t (reap_state c pre) =
    if (-1 <? maxBytes) && (wrap64 (maxBytes - 1500000) <? bytes') then Ret (reap_state c pre, Some tt)
    else if (-1 <? maxGas) && (maxGas <? gas')
    then Ret (mkReap c (mt_tx <$> pre) bytes' (sumZ mt_gasWanted pre), Some tt)
    else Ret (reap_state c (pre ++ [t]), None).
Proof.
  intros [Hcm [x Hx]] Hsm bytes' gas'.
  assert (Hpre : small maxBytes maxGas ((pre ++ [t]) ++ rest)) by by rewrite <-app_assoc.
  pose proof (small_prefix _ _ _ _ Hpre) as [Hb Hg].
  assert (Eb : bytes' = sumZ reap_size pre + zlen (mt_tx t) + ComputeAminoOverhead UvarintSize (mt_tx t)).
  { subst bytes'. rewrite sumZ_app, sumZ_cons, sumZ_nil. unfold reap_size at 2. lia. }
  assert (Eg : gas' = sumZ mt_gasWanted pre + mt_gasWanted t).
  { subst gas'. rewrite sumZ_app, sumZ_cons, sumZ_nil. lia. }
  unfold reap_one. rewrite Hcm. simpl. unfold reap_tx. rewrite Hx. simpl.
  replace (sumZ reap_size pre + (zlen (mt_tx t) + ComputeAminoOverhead UvarintSize (mt_tx t))) with bytes' by lia.
  rewrite <-Eb, <-Eg.
  rewrite (wrap64_id bytes') by (unfold in_int64, MinInt64, MaxInt64; subst bytes'; lia).
  rewrite (wrap64_id gas') by (unfold in_int64, MinInt64, MaxInt64; subst gas'; lia).
  destruct (_ && _); [done|]. destruct (_ && _); [done|].
  unfold reap_state. rewrite fmap_app. done.
Qed.

Lemma ReapMaxBytesMaxGas_ok m xs maxBytes maxGas height :
  rep (p_txs (mp_pool m)) xs → Forall (λ x, ordinary (mt_tx x.2)) xs →
  rc_rechecking (mp_recheck m) = 0 → -1 ≤ maxBytes → small maxBytes maxGas xs.*2 →
  ∃ txs, ReapMaxBytesMaxGas sha256 UvarintSize m maxBytes maxGas height = Ret (Some (m, txs)) ∧
    best_prefix maxBytes maxGas xs.*2 txs.
Proof.
  intros Hr Ho Hre Hmb Hsm. unfold ReapMaxBytesMaxGas. rewrite Hre. simpl.
  assert (Hw : wrap64 (maxBytes - 1500000) = maxBytes - 1500000).
  { destruct Hsm as [Hi _]. apply wrap64_id. unfold in_int64, MinInt64, MaxInt64 in *. lia. }
  pose (fits := λ pre : list mempoolTx, (pre = [] ∨ maxBytes ≤ -1 ∨ sumZ reap_size pre ≤ maxBytes - 1500000) ∧
    (pre = [] ∨ within maxGas (sumZ mt_gasWanted pre))).
  pose (I := λ (pre rest : list (addr * mempoolTx)) (s : reap),
    pre ++ rest = xs ∧ s = reap_state (mp_cross m) pre.*2 ∧ fits pre.*2).
  edestruct (for_list_rule (λ _ : reap, p_txs (mp_pool m))
    (λ _ memTx, reap_one sha256 UvarintSize maxBytes maxGas height memTx) I
    (λ s _, re_cross s = mp_cross m ∧ best_prefix maxBytes maxGas xs.*2 (re_txs s)) xs
    (mkReap (mp_cross m) [] 0 0)) as (s & r & E & HI).
  - intros pre l t rest s (Hxs & -> & Hfit).
    pose proof Hr as Hr'. rewrite <-Hxs in Hr'. split.
    { destruct (rep_value _ _ l t Hr' ltac:(set_solver)) as (c & ? & ? & _). eauto. }
    assert (Hot : ordinary (mt_tx t)).
    { rewrite <-Hxs, Forall_app, Forall_cons in Ho. apply Ho. }
    assert (Hsm' : small maxBytes maxGas (pre.*2 ++ t :: rest.*2)).
    { rewrite <-Hxs, fmap_app in Hsm. done. }
    rewrite (reap_step _ _ _ _ _ _ _ Hot Hsm'), Hw.
    assert (Hbest : (-1 < maxBytes ∧ maxBytes - 1500000 < sumZ reap_size (pre.*2 ++ [t])) ∨
      (-1 < maxGas ∧ maxGas < sumZ mt_gasWanted (pre.*2 ++ [t])) →
      best_prefix maxBytes maxGas xs.*2 (mt_tx <$> pre.*2)).
    { intros Hover. exists pre.*2, (t :: rest.*2). rewrite <-Hxs, fmap_app.
      destruct Hfit. split_and!; [done..|]. by intros t' rest' [= <- <-]. }
    destruct ((-1 <? maxBytes) && _) eqn:Eb.
    { apply andb_true_iff in Eb as [Eb1%Z.ltb_lt Eb2%Z.ltb_lt].
      eexists _, (Some tt). split; [done|]. split; [done|]. simpl. apply Hbest. by left. }
    destruct ((-1 <? maxGas) && _) eqn:Eg.
    { apply andb_true_iff in Eg as [Eg1%Z.ltb_lt Eg2%Z.ltb_lt].
      eexists _, (Some tt). split; [done|]. split; [done|]. simpl. apply Hbest. by right. }
    eexists _, None. split; [done|]. split; [|by eapply Next_rep].
    split_and!; [by rewrite <-app_assoc|by rewrite fmap_app|].
    rewrite fmap_app. csimpl. apply andb_false_iff in Eb, Eg. rewrite !Z.ltb_ge in Eb, Eg.
    split; right; [lia|]. unfold within. lia.
  - done.
  - split_and!; [done|done|]. by split; left.
  - rewrite E. simpl. destruct r as [[]|].
    + destruct HI as [-> Hb]. exists (re_txs s). split; [by destruct m|done].
    + destruct HI as (_ & -> & Hfit). exists (mt_tx <$> xs.*2). split; [by destruct m|].
      exists xs.*2, []. destruct Hfit. rewrite app_nil_r. split_and!; done.
Qed.

End facts.

Section lists.
Context `{IdenCodec}.

(** ** Reaping a number of transactions *)
Lemma ReapMaxTxs_ok m xs max :
  rep (p_txs (mp_pool m)) xs → rc_rechecking (mp_recheck m) = 0 → 0 ≤ max →
  ReapMaxTxs m max = Ret (Some (mt_tx <$> take (S (Z.to_nat max)) xs.*2)).
Proof.
  intros Hr Hre Hmax. unfold ReapMaxTxs. rewrite Hre, (proj2 (Z.ltb_ge max 0)) by done. simpl.
  pose (I := λ (pre rest : list (addr * mempoolTx)) (txs : list bytes),
    pre ++ rest = xs ∧ txs = mt_tx <$> pre.*2 ∧ zlen txs ≤ max + 1).
  edestruct (for_list_rule (λ _ : list bytes, p_txs (mp_pool m)) (λ _ memTx txs,
    mret (if zlen txs <=? max then (txs ++ [mt_tx memTx], None) else (txs, Some tt))) I
    (λ txs _, txs = mt_tx <$> take (S (Z.to_nat max)) xs.*2) xs []) as (txs & r & E & HI).
  - intros pre l t rest txs (Hxs & -> & Hlen). pose proof Hr as Hr'. rewrite <-Hxs in Hr'. split.
    { destruct (rep_value _ _ l t Hr' ltac:(set_solver)) as (c & ? & ? & _). eauto. }
    destruct (Z.leb_spec (zlen (mt_tx <$> pre.*2)) max) as [Hle|Hgt].
    + eexists _, None. split; [done|]. split; [|by eapply Next_rep].
      split_and!; [by rewrite <-app_assoc|by rewrite !fmap_app|].
      unfold zlen in *. rewrite length_app. simpl. lia.
    + eexists _, (Some tt). split; [done|]. rewrite <-Hxs, fmap_app, take_app_le.
      * rewrite firstn_all2; [done|]. unfold zlen in *. rewrite !length_fmap in *. lia.
      * unfold zlen in *. rewrite !length_fmap in *. lia.
  - done.
  - split_and!; [done|done|]. unfold zlen. simpl. lia.
  - rewrite E. simpl. destruct r as [|]; [by subst|]. destruct HI as (_ & -> & Hlen).
    rewrite firstn_all2; [done|]. unfold zlen in Hlen. rewrite !length_fmap in *. lia.
Qed.

(** ** Sorting *)
Definition is_relay (t : mempoolTx) : Prop :=
  ∃ x, NewTX (mt_tx t) = Some x ∧ Txtype x = relaytx.

#[export] Instance is_relay_dec t : Decision (is_relay t).
Proof.
  unfold is_relay. destruct (NewTX (mt_tx t)) as [x|].
  - destruct (decide (Txtype x = relaytx)); [left; by exists x|right; by intros (? & [= ->] & ?)].
  - right. by intros (? & ? & _).
Defined.

Lemma push_max (l : CList mempoolTx) xs t :
  rep l xs → cl_maxLen l = MaxLength → zlen xs < MaxLength →
  ∃ e l', PushBack l t = Ret (e, l') ∧ rep l' (xs ++ [(e, t)]) ∧ cl_maxLen l' = MaxLength.
Proof.
  intros Hr Hm Hlen. destruct (PushBack_rep l xs t Hr) as (l' & E & Hr' & Hm' & _).
  { by rewrite Hm. }
  exists (length (elems l)), l'. split_and!; [done|done|congruence].
Qed.

Lemma zlen_values {A B} (l : list (A * B)) (k : list B) : l.*2 = k → zlen l = zlen k.
Proof. intros <-. unfold zlen. by rewrite length_fmap. Qed.

(** Moving one list behind another, as the second loop does. *)
Lemma sort_move rs cs (st : CList mempoolTx * CList mempoolTx) :
  rep st.1 rs → rep st.2 cs → cl_maxLen st.1 = MaxLength → zlen rs + zlen cs < MaxLength →
  ∃ st' zs, for_list snd (λ e memTx st,
      '(_, l) ← PushBack st.1 memTx; '(_, c) ← Remove st.2 e; mret ((l, c), @None unit)) st = Ret (st', None) ∧
    rep st'.1 zs ∧ zs.*2 = rs.*2 ++ cs.*2.
Proof.
  intros Hr Hc Hm Hlen.
  pose (I := λ (pre rest : list (addr * mempoolTx)) (st : CList mempoolTx * CList mempoolTx),
    ∃ zs, rep st.1 zs ∧ zs.*2 = rs.*2 ++ pre.*2 ∧ rep st.2 rest ∧ cl_maxLen st.1 = MaxLength ∧
      pre ++ rest = cs).
  edestruct (for_list_rule (snd : CList mempoolTx * CList mempoolTx → _) (λ e memTx st,
      '(_, l) ← PushBack st.1 memTx; '(_, c) ← Remove st.2 e; mret ((l, c), @None unit)) I
      (λ _ _, False) cs st) as (st' & r & E & HI).
  - intros pre l t rest [l1 l2] (zs & Hz & Hv & Hl2 & Hmax & Hcs). simpl in *. split.
    { destruct (rep_value _ _ l t Hl2 ltac:(set_solver)) as (c & ? & ? & _). eauto. }
    destruct (push_max l1 zs t Hz Hmax) as (e & l1' & -> & Hz' & Hm').
    { rewrite (zlen_values _ _ Hv). subst cs. unfold zlen in *. rewrite !length_app, !length_fmap in *. lia. }
    simpl. destruct (Remove_rep l2 [] l t rest Hl2) as (l2' & -> & Hl2' & Hd & _). simpl.
    eexists _, None. split; [done|]. split.
    + exists (zs ++ [(e, t)]). simpl. rewrite !fmap_app, Hv, <-app_assoc. csimpl.
      split_and!; [done|done|done|done|by rewrite <-app_assoc].
    + unfold Next, deref. simpl. by rewrite Hd.
  - done.
  - exists rs. simpl. rewrite app_nil_r. split_and!; done.
  - destruct r; [done|]. destruct HI as (zs & ? & ? & _). eauto.
Qed.

Lemma SortTxs_ok m xs :
  rep (p_txs (mp_pool m)) xs → Forall (λ x, is_Some (NewTX (mt_tx x.2))) xs → zlen xs < MaxLength →
  ∃ l zs, SortTxs m = Ret (Some l) ∧ rep l zs ∧
    zs.*2 = filter is_relay xs.*2 ++ filter (λ t, ¬ is_relay t) xs.*2.
Proof.
  intros Hr Hd Hlen. unfold SortTxs.
  pose (I := λ (pre rest : list (addr * mempoolTx)) (st : CList mempoolTx * CList mempoolTx),
    ∃ rs cs, rep st.1 rs ∧ rep st.2 cs ∧ rs.*2 = filter is_relay pre.*2 ∧
      cs.*2 = filter (λ t, ¬ is_relay t) pre.*2 ∧ cl_maxLen st.1 = MaxLength ∧
      cl_maxLen st.2 = MaxLength ∧ pre ++ rest = xs).
  edestruct (for_list_rule (λ _ : CList mempoolTx * CList mempoolTx, p_txs (mp_pool m)) (λ _ memTx st,
    match NewTX (mt_tx memTx) with
    | None => mret (st, Some tt)
    | Some tmp_tx =>
        if bytes_equal (Txtype tmp_tx) relaytx then
          '(_, l) ← PushBack st.1 memTx; mret ((l, st.2), None)
        else '(_, l) ← PushBack st.2 memTx; mret ((st.1, l), None)
    end) I (λ _ _, False) xs (New, New)) as (st & r & E & HI).
  - intros pre l t rest [l1 l2] (rs & cs & H1 & H2 & V1 & V2 & M1 & M2 & Hxs). simpl in *.
    pose proof Hr as Hr'. rewrite <-Hxs in Hr'. split.
    { destruct (rep_value _ _ l t Hr' ltac:(set_solver)) as (c & ? & ? & _). eauto. }
    assert (is_Some (NewTX (mt_tx t))) as [x Hx].
    { rewrite <-Hxs, Forall_app, Forall_cons in Hd. apply Hd. }
    assert (Hb1 : zlen rs < MaxLength ∧ zlen cs < MaxLength).
    { rewrite (zlen_values _ _ V1), (zlen_values _ _ V2). rewrite <-Hxs in Hlen. unfold zlen in *.
      pose proof (length_filter is_relay pre.*2). pose proof (length_filter (λ t, ¬ is_relay t) pre.*2).
      rewrite length_app, length_fmap in *. simpl in *. lia. }
    rewrite Hx. destruct (bytes_equal (Txtype x) relaytx) eqn:Eb.
    + apply bytes_equal_true in Eb. assert (is_relay t) by by exists x.
      destruct (push_max l1 rs t H1 M1) as (e & l1' & -> & H1' & M1'); [lia|]. simpl.
      eexists _, None. split; [done|]. split; [|by eapply Next_rep].
      exists (rs ++ [(e, t)]), cs. simpl. rewrite !fmap_app, !filter_app. csimpl.
      rewrite !filter_cons, !filter_nil. rewrite decide_True by done. rewrite decide_False by tauto.
      rewrite V1, V2, app_nil_r. split_and!; [done..|]. by rewrite <-app_assoc.
    + apply bytes_equal_false in Eb. assert (¬ is_relay t) by (intros (y & Hy & ?); congruence).
      destruct (push_max l2 cs t H2 M2) as (e & l2' & -> & H2' & M2'); [lia|]. simpl.
      eexists _, None. split; [done|]. split; [|by eapply Next_rep].
      exists rs, (cs ++ [(e, t)]). simpl. rewrite !fmap_app, !filter_app. csimpl.
      rewrite !filter_cons, !filter_nil. rewrite decide_False by done. rewrite decide_True by done.
      rewrite V1, V2, app_nil_r. split_and!; [done..|]. by rewrite <-app_assoc.
  - done.
  - exists [], []. split_and!; try done; apply New_rep.
  - destruct r; [done|]. rewrite E. cbn [mbind outcome_bind].
    destruct HI as (rs & cs & H1 & H2 & V1 & V2 & M1 & M2 & _).
    destruct (sort_move rs cs st H1 H2 M1) as (st' & zs & -> & Hz & Vz).
    { pose proof (filter_app_complement is_relay xs.*2) as Hp%Permutation_length.
      rewrite (zlen_values _ _ V1), (zlen_values _ _ V2). unfold zlen in *.
      rewrite length_app, length_fmap in Hp. lia. }
    simpl. eexists _, zs. split_and!; [done|done|]. by rewrite Vz, V1, V2.
Qed.

(** ** Resending cross-shard messages *)
Fixpoint cm_updates (n : nat) (c : Cross) : Cross :=
  match n with O => c | S n => (UpdatecmDB (cm_updates n c)).1 end.

(** The age of a message after [n] blocks. *)
Definition age_after (n : nat) : Z :=
  match n with O => 0 | S n => Z.of_nat n mod 20 + 1 end.

Lemma age_step n cm :
  age (mkCrossMessage cm (age_after n)) = (mkCrossMessage cm (age_after (S n)), bool_decide (Z.of_nat n mod 20 = 0)).
Proof.
  unfold age. simpl cg_Height. simpl cg_Content. destruct n as [|n]; [done|].
  cbn [age_after]. pose proof (Z.mod_pos_bound (Z.of_nat n) 20 ltac:(lia)) as Hb.
  rewrite (proj2 (Z.eqb_neq (Z.of_nat n mod 20 + 1) 0)) by lia.
  assert (Hs : Z.of_nat (S n) mod 20 = if Z.of_nat n mod 20 =? 19 then 0 else Z.of_nat n mod 20 + 1).
  { rewrite Nat2Z.inj_succ. unfold Z.succ. rewrite Z.add_mod by lia. change (1 mod 20) with 1.
    destruct (Z.eqb_spec (Z.of_nat n mod 20) 19) as [->|]; [done|]. apply Z.mod_small. lia. }
  rewrite Hs. destruct (Z.eqb_spec (Z.of_nat n mod 20 + 1) 20), (Z.eqb_spec (Z.of_nat n mod 20) 19); try lia.
  - by rewrite bool_decide_eq_true_2.
  - rewrite bool_decide_eq_false_2 by lia. f_equal. f_equal.
    apply wrap64_id. unfold in_int64, MinInt64, MaxInt64. lia.
Qed.

Lemma cm_updates_ages n c cms :
  cr_cmDB c = (λ cm, mkCrossMessage cm 0) <$> cms →
  cr_cmDB (cm_updates n c) = (λ cm, mkCrossMessage cm (age_after n)) <$> cms.
Proof.
  intros Hc. induction n as [|n IH]; [done|]. simpl. rewrite IH, <-list_fmap_compose.
  apply list_fmap_ext. intros i cm _. simpl. by rewrite age_step.
Qed.

(** ** Expansion of messages *)
Lemma relay_txs_all l :
  Forall (λ tx, ∃ x, NewTX tx = Some x ∧ Txtype x = relaytx) l → relay_txs l = Ret l.
Proof.
  induction 1 as [|tx l (x & Hx & Ht) _ IH]; [done|]. simpl. rewrite Hx. simpl. rewrite IH. simpl.
  by rewrite Ht, (proj2 (bytes_equal_true _ _) eq_refl).
Qed.
End lists.

(** ** Theorems *)

(** C35. From a pool of ordinary transactions whose sizes and gas are not negative and sum up to at most 2^62,
    [ReapMaxBytesMaxGas] returns the longest prefix of the
    list, in order, whose bytes (with the amino overhead) are at most [maxBytes] - 1500000 and whose gas is at most
    [maxGas], where -1 means no limit, and changes nothing. The 1500000 bytes taken off are the code's: a limit below
    them gives no transaction, not those that fit it. *)
Theorem reap_longest_prefix `{IdenCodec} sha256 UvarintSize m xs maxBytes maxGas height :
  rep (p_txs (mp_pool m)) xs → Forall (λ x, ordinary (mt_tx x.2)) xs →
  rc_rechecking (mp_recheck m) = 0 → -1 ≤ maxBytes → small UvarintSize maxBytes maxGas xs.*2 →
  ∃ txs, ReapMaxBytesMaxGas sha256 UvarintSize m maxBytes maxGas height = Ret (Some (m, txs)) ∧
    best_prefix UvarintSize maxBytes maxGas xs.*2 txs.
Proof. apply ReapMaxBytesMaxGas_ok. Qed.

(** A limit from 0 up to the 1500000 bytes taken off it gives no transaction at all, however small the transactions are. *)
Theorem reap_small_limit_empty `{IdenCodec} sha256 UvarintSize m xs maxBytes maxGas height :
  rep (p_txs (mp_pool m)) xs → Forall (λ x, ordinary (mt_tx x.2)) xs →
  rc_rechecking (mp_recheck m) = 0 → 0 ≤ maxBytes < 1500000 → small UvarintSize maxBytes maxGas xs.*2 →
  ReapMaxBytesMaxGas sha256 UvarintSize m maxBytes maxGas height = Ret (Some (m, [])).
Proof.
  intros Hrep Hord Hrc Hb Hsm.
  destruct (ReapMaxBytesMaxGas_ok sha256 UvarintSize m xs maxBytes maxGas height) as (txs & E & pre & rest & El & -> & Hsz & _);
    [done..|lia|done|]. rewrite E. destruct Hsz as [->|[|Hsz]]; [done|lia|].
  rewrite El in Hsm. destruct (small_prefix _ _ _ _ _ Hsm). lia.
Qed.


(** [ReapMaxTxs max] returns one transaction more than [max], when the pool has them. *)
Theorem reap_max_txs_one_too_many `{IdenCodec} m xs max :
  rep (p_txs (mp_pool m)) xs → rc_rechecking (mp_recheck m) = 0 → 0 ≤ max →
  ReapMaxTxs m max = Ret (Some (mt_tx <$> take (S (Z.to_nat max)) xs.*2)).
Proof. apply ReapMaxTxs_ok. Qed.

(** [SortTxs] is a stable partition: the relayed transactions in order, then the others in
    order. *)
Theorem sort_txs_partition `{IdenCodec} m xs :
  rep (p_txs (mp_pool m)) xs → Forall (λ x, is_Some (NewTX (mt_tx x.2))) xs → zlen xs < MaxLength →
  ∃ l zs, SortTxs m = Ret (Some l) ∧ rep l zs ∧
    zs.*2 = filter is_relay xs.*2 ++ filter (λ t, ¬ is_relay t) xs.*2.
Proof. apply SortTxs_ok. Qed.

(** Messages waiting for a receipt are sent with the next block and again every twenty
    blocks, and at no other block. *)
Theorem messages_resent_every_20 c cms n :
  cr_cmDB c = (λ cm, mkCrossMessage cm 0) <$> cms →
  (UpdatecmDB (cm_updates n c)).2 = if decide (Z.of_nat n mod 20 = 0) then cms else [].
Proof.
  intros Hc. unfold UpdatecmDB. simpl. rewrite (cm_updates_ages _ _ _ Hc).
  assert (Hs : ∀ cms : list CrossMessages,
    cg_Content <$> filter (λ m, (age m).2 = true) ((λ cm, mkCrossMessage cm (age_after n)) <$> cms) =
    if decide (Z.of_nat n mod 20 = 0) then cms else []).
  { clear. induction cms as [|cm cms IH]; [by destruct (decide _)|]. csimpl. rewrite filter_cons.
    destruct (decide (Z.of_nat n mod 20 = 0)) as [E|E].
    - rewrite decide_True; [csimpl; by rewrite IH|]. rewrite age_step. simpl. by apply bool_decide_eq_true_2.
    - rewrite decide_False; [done|]. rewrite age_step. simpl. by rewrite bool_decide_eq_false_2. }
  apply Hs.
Qed.

(** A message is counted at its compressed size but put into the block expanded: whatever
    the size of the relayed transactions it holds, they are all reaped if the message itself fits. *)
Theorem reap_ignores_expanded_size `{IdenCodec} sha256 UvarintSize m e t cm cm' l maxBytes height :
  rep (p_txs (mp_pool m)) [(e, t)] → rc_rechecking (mp_recheck m) = 0 →
  ParseData (mt_tx t) = Ret (Some cm) → Decompression cm = (cm', true) → cm_Txlist cm' = l →
  (Compress cm').2 = true → Forall (λ tx, ∃ x, NewTX tx = Some x ∧ Txtype x = relaytx) l →
  wrap64 (zlen (mt_tx t) + ComputeAminoOverhead UvarintSize (mt_tx t)) ≤ wrap64 (maxBytes - 1500000) →
  ∃ m', ReapMaxBytesMaxGas sha256 UvarintSize m maxBytes (-1) height = Ret (Some (m', l)).
Proof.
  intros Hr Hre Hp Hd Hl Hc Hrel Hfit. unfold ReapMaxBytesMaxGas. rewrite Hre. simpl.
  assert (∃ s, reap_one sha256 UvarintSize maxBytes (-1) height t (mkReap (mp_cross m) [] 0 0) =
    Ret (s, None) ∧ re_txs s = l) as (s & Hs & <-).
  { unfold reap_one. rewrite Hp. simpl.
    unfold reap_cm. rewrite Hd. cbn [negb]. rewrite Hl, (relay_txs_all _ Hrel). cbn [mbind outcome_bind].
    destruct (Compress cm') as [cm2 b2]. simpl in Hc. subst b2. cbn [negb re_bytes re_gas re_txs re_cross].
    rewrite Z.add_0_l, (proj2 (Z.ltb_ge _ _) Hfit), andb_false_r. simpl. eauto. }
  unfold for_list, Front. rewrite (rep_head _ _ Hr).
  pose proof (rep_length _ _ Hr) as Hlen. simpl in Hlen.
  destruct (length (elems (p_txs (mp_pool m)))) as [|k]; [lia|].
  pose proof (rep_lookup _ [] e t [] Hr) as Hlk. simpl in Hlk.
  cbn [for_each fmap option_fmap option_map head fst]. unfold Next, deref. cbn [mbind outcome_bind or_panic]. rewrite Hlk.
  cbn [mbind outcome_bind or_panic ce_Value node mret outcome_ret ce_next]. rewrite Hs.
  cbn [mbind outcome_bind]. destruct k; simpl; eauto.
Qed.

(** A transaction that JSON decodes to nil (such as [null]) makes [CheckTx] dereference nil,
    whatever the state of the mempool. *)
Theorem null_tx_panics `{IdenCodec} sha256 pk vf a m tx appErr :
  unmarshalCM tx = None → CheckTx sha256 pk vf a m tx appErr = Panic.
Proof. intros Hn. unfold CheckTx, CheckDB, ParseData. by rewrite Hn. Qed.

(** A transaction that is no message and that [NewTX] cannot decode makes [CheckTx]
    dereference nil once it has passed the limits and the cache. *)
Theorem undecodable_tx_panics_mempool `{IdenCodec} sha256 pk vf a m tx peer b appErr c :
  Size m < cf_Size (mp_config m) → wrap64 (zlen tx + TxsBytes m) ≤ cf_MaxTxsBytes (mp_config m) →
  zlen tx ≤ maxTxSize → mp_preCheck m = None → cache_Push sha256 (p_cache (mp_pool m)) tx = Ret (true, c) →
  ParseData tx = Ret None → NewTX tx = None →
  CheckTxWithInfo sha256 pk vf a m tx peer b appErr = Panic.
Proof.
  intros Hs Hb Hl Hpre Hc Hp Hn. unfold CheckTxWithInfo. unfold TxsBytes in Hb.
  rewrite (proj2 (Z.leb_gt _ _) Hs), (proj2 (Z.ltb_ge _ _) Hb), (proj2 (Z.ltb_ge _ _) Hl), Hpre. simpl.
  rewrite Hc. simpl. unfold check_content. rewrite Hp. simpl. by rewrite Hn.
Qed.
