(* ===== verification/MempoolSamples.v ===== *)
(** * Concrete mempools: witnesses, and what goes wrong

    A small codec: the first byte of a transaction is its type. [c] is a configuration transaction, [r] a relayed one, [m] a
    cross-shard message with the height in the second byte and its compressed transactions behind, [x] cannot be
    decoded, [p] decodes but is no account transaction, the empty string is [null]. A list of equal transactions is compressed to its
    length and one copy. The code the parameters stand for has the laws the codec has ([toy_laws]). *)

From Stdlib Require Import ZArith Lia Bool Strings.Byte String.
From stdpp Require Import base list gmap sets.
From S2P Require Import Prelude CList TxCache Merkle KeyPath Strconv Account Identypes Mempool.
From S2P Require Import MempoolProofs MempoolFacts.
Local Open Scope Z_scope.

Definition toy_tx (ty tx : bytes) : TX := mkTX ty [] [] [] tx [] 0 0.

Definition toy_cm (root : option bytes) (h : Z) (packs : list Package) (data : bytes) : CrossMessages :=
  mkCrossMessages [] [] [] [] root [] [] [] h packs [] [] 0 data true.

Definition all_equal (l : list bytes) : bool :=
  match l with [] => false | x :: l => forallb (bytes_equal x) l end.

#[export] Instance toy : IdenCodec := {|
  unmarshalTX tx := match tx with
    | [] => None
    | c :: _ => if decide (c = x78) then None
                else Some (toy_tx (if decide (c = x63) then ConfigTx
                                   else if decide (c = x72) then relaytx else str "tx") tx)
    end;
  marshalTX t := Content t;
  unmarshalTxArg tx := match tx with
    | [] => None
    | c :: _ => if decide (c = x70) then None else Some (mkTxArg [] (str "other") [] [] [] [] 0)
    end;
  unmarshalCM tx := match tx with
    | [] => None
    | c :: r => if decide (c = x6d)
                then Some (toy_cm (Some [x01]) (byte_Z (default x00 (head r))) [] (tail r))
                else Some (toy_cm None 0 [] [])
    end;
  decodeCM b := match b with [] => None | _ => Some (toy_cm (Some [x01]) 0 [] []) end;
  marshalCM cm := [x01];
  unmarshalPackages _ := [];
  marshalTxlist l := if all_equal l && (zlen l <? 256) then Some (byte_of_Z (zlen l) :: default [] (head l)) else None;
  unmarshalTxlist d old := match d with
    | [] => (old, false)
    | n :: tx => (replicate (Z.to_nat (byte_Z n)) tx, true)
    end;
  gzip d := Some d;
  gunzip d := Some d;
  getShard := [x41];
|}.

Lemma toy_laws : IdenCodecLaws.
Proof.
  split.
  - intros l d old. simpl. destruct (all_equal l) eqn:Ea; [|done].
    destruct (Z.ltb_spec (zlen l) 256) as [Hl|]; [|done]. intros [= <-]. f_equal.
    destruct l as [|x l]; [done|]. simpl in Ea. simpl head. cbn [default from_option].
    rewrite byte_Z_of_Z by (pose proof (zlen_nonneg (x :: l)); lia).
    unfold zlen. rewrite Nat2Z.id. simpl. f_equal.
    apply forallb_True in Ea || apply Is_true_eq_left in Ea. 
    clear Hl. induction l as [|y l IH]; [done|]. simpl in *.
    apply andb_prop_elim in Ea as [Hy Ea]. apply bool_decide_unpack in Hy as <-. f_equal. by apply IH.
  - intros d z. by intros [= <-].
Qed.

(** A pool of at most ten transactions and 1000 bytes. *)
Definition conf (recheck : bool) : MempoolConfig := mkMempoolConfig 10 1000 5 recheck.
Definition no_accounts : accounts := start.
Definition pk (_ : bytes) : option bytes := None.
Definition vf (_ _ _ : bytes) : bool := false.
Definition size1 (_ : Z) : Z := 1.

Notation check := (CheckTx id pk vf no_accounts).
Definition ok (gas : Z) : option ResponseCheckTx := Some (mkResponseCheckTx 0 gas).

(** A transaction checked by the application at once. *)
Definition add (m : Mempool) (tx : bytes) (gas : Z) : outcome Mempool :=
  '(m, _) ← check m tx false; respond id m (ok gas).

Definition adds (m : Mempool) (txs : list bytes) : outcome Mempool := foldM (λ m tx, add m tx 1) m txs.

Definition got {A} (d : A) (m : outcome A) : A := match m with Ret a => a | Panic => d end.

(** The transactions of a pool, in order. *)
Definition pool_txs (m : Mempool) : list bytes :=
  match for_list (λ _, p_txs (mp_pool m)) (λ _ t acc, Ret (acc ++ [mt_tx t], @None unit)) [] with
  | Ret (l, _) => l
  | Panic => []
  end.

Definition empty_pool (recheck : bool) : Mempool := NewMempool (conf recheck) 1 ∅.

Definition tx1 : bytes := [x74; x01].
Definition tx2 : bytes := [x74; x02].
Definition tx3 : bytes := [x74; x03].
Definition config_tx : bytes := [x63].

(** ** What goes wrong *)

(** A configuration transaction in the pool breaks the recheck after a block. If it is the
    last one, the application answers everything and the mempool still waits: proposing the next block never
    returns, and the answer to the next transaction panics. If another follows it, the first answer panics. *)
Theorem config_tx_breaks_recheck :
  (∃ m, (m ← adds (empty_pool true) [tx1; config_tx]; m ← Update id m 2 [] None None; respond id m (ok 1)) = Ret m ∧
    mp_pending m = [] ∧ ReapMaxBytesMaxGas id size1 m (-1) (-1) 3 = Ret None ∧ add m tx2 1 = Panic) ∧
  (m ← adds (empty_pool true) [config_tx; tx1]; m ← Update id m 2 [] None None; respond id m (ok 1)) = Panic.
Proof.
  split; [|vm_compute; reflexivity].
  exists (got (empty_pool true)
    (m ← adds (empty_pool true) [tx1; config_tx]; m ← Update id m 2 [] None None; respond id m (ok 1))).
  split_and!; vm_compute; reflexivity.
Qed.

(** [ApplyDelviverTx] updates the mempool without the lock and without flushing the
    connection: if a transaction waits for its first answer then, that answer panics. *)
Theorem unflushed_update_panics :
  ∃ m m1 m2, adds (empty_pool true) [tx1] = Ret m ∧ check m tx2 false = Ret (m1, None) ∧
    Update id m1 (-1) [config_tx] None None = Ret m2 ∧ respond id m2 (ok 1) = Panic.
Proof.
  set (m := got (empty_pool true) (adds (empty_pool true) [tx1])).
  set (m1 := (got (m, None) (check m tx2 false)).1).
  exists m, m1, (got m1 (Update id m1 (-1) [config_tx] None None)).
  split_and!; vm_compute; reflexivity.
Qed.

(** [ApplyDelviverTx] passes height -1 to [Update]; from then on the mempool's height is -1 for ever. *)
Theorem deliver_freezes_height :
  ∃ m m1 m2, adds (empty_pool false) [config_tx] = Ret m ∧ mp_height m = 1 ∧
    Update id m (-1) [config_tx] None None = Ret m1 ∧ mp_height m1 = -1 ∧
    Update id m1 7 [] None None = Ret m2 ∧ mp_height m2 = -1.
Proof.
  set (m := got (empty_pool false) (adds (empty_pool false) [config_tx])).
  set (m1 := got m (Update id m (-1) [config_tx] None None)).
  exists m, m1, (got m1 (Update id m1 7 [] None None)).
  split_and!; vm_compute; reflexivity.
Qed.

(** A pool with one message that was let in before: two relayed transactions at height 5. *)
Definition message : bytes := [x6d; x05; x02; x72].
Definition with_message : Mempool :=
  let m := empty_pool false in
  match addTx id (mp_pool m) (mkMempoolTx 1 5 message ∅) with
  | Ret p => with_pool m p
  | Panic => m
  end.

(** [ReapMaxBytesMaxGas] notes the relation of a message before it checks the gas. A
    message over the gas limit is left out of the block but counts as packed: when the block commits, the message is removed and a receipt
    that it was handled is stored, though none of its transactions was executed. *)
Theorem unpacked_message_lost :
  ∃ m1 m2, ReapMaxBytesMaxGas id size1 with_message (-1) 3 9 = Ret (Some (m1, [])) ∧
    pool_txs m1 = [message] ∧ Update id m1 9 [] None None = Ret m2 ∧ pool_txs m2 = [] ∧
    cr_checkdb (mp_cross with_message) = ∅ ∧ size (cr_checkdb (mp_cross m2)) = 1%nat.
Proof.
  set (m1 := got with_message (r ← ReapMaxBytesMaxGas id size1 with_message (-1) 3 9;
    mret (default with_message (fst <$> r)))).
  exists m1, (got m1 (Update id m1 9 [] None None)). split_and!; vm_compute; reflexivity.
Qed.

(** A transaction that fails the mempool's own checks stays in the cache: sent again, it
    is refused as already seen and is not examined. *)
Theorem rejected_tx_stays_cached :
  ∃ m1 m2, check (empty_pool false) [x70] false = Ret (m1, Some ErrParse) ∧
    check m1 [x70] false = Ret (m2, Some ErrTxInCache).
Proof.
  set (m1 := (got (empty_pool false, None) (check (empty_pool false) [x70] false)).1).
  exists m1, (got (m1, None) (check m1 [x70] false)).1. split_and!; vm_compute; reflexivity.
Qed.

(** Two transactions that remove the same shard in one block panic: the index of the
    filters still leads to the element that the first removed. *)
Theorem duplicate_shard_removal_panics :
  ∃ m, UpdateShardFliters (empty_pool false) 0 [[x61]; [x62]] [] = Ret m ∧
    UpdateShardFliters m 0 [] [[x61]; [x61]] = Panic.
Proof.
  exists (got (empty_pool false) (UpdateShardFliters (empty_pool false) 0 [[x61]; [x62]] [])).
  split; vm_compute; reflexivity.
Qed.

(** ** Witnesses *)
Lemma add_reach m m' tx gas :
  mem_reach id True pk vf m → plain tx → add m tx gas = Ret m' →
  (∀ m1 err, check m tx false = Ret (m1, err) → Size m1 < MaxLength ∧ fresh id m1) → mem_reach id True pk vf m'.
Proof.
  intros Hm Hp E Hs. unfold add in E. apply bind_Ret in E as ([m1 err] & E1 & E2). destruct (Hs _ _ E1) as [Hs1 Hs2].
  eapply (mem_next id True pk vf no_accounts m1); [|eapply step_respond; [exact Hs1|done|exact E2]].
  eapply (mem_next id True pk vf no_accounts m); [done|]. by eapply step_check.
Qed.

Definition sample1 : Mempool := got (empty_pool true) (add (empty_pool true) tx1 1).
Definition sample2 : Mempool := got sample1 (add sample1 tx2 1).

Definition fresh_b (m : Mempool) : bool :=
  match mp_pending m with FirstCheck tx _ :: _ => bool_decide (p_txsMap (mp_pool m) !! txKey id tx = None) | _ => true end.

Lemma check_size m tx n :
  match check m tx false with Ret (m1, _) => (Size m1 <? n) && fresh_b m1 | Panic => true end = true →
  ∀ m1 err, check m tx false = Ret (m1, err) → Size m1 < n ∧ fresh id m1.
Proof.
  intros H m1 err E. rewrite E in H. apply andb_true_iff in H as [H1%Z.ltb_lt H2]. split; [done|].
  unfold fresh, fresh_b in *. destruct (mp_pending m1) as [|[]]; [done| |done]. by apply bool_decide_eq_true in H2.
Qed.

Lemma sample2_reach : mem_reach id True pk vf sample2.
Proof.
  assert (E1 : add (empty_pool true) tx1 1 = Ret sample1) by (vm_compute; reflexivity).
  assert (E2 : add sample1 tx2 1 = Ret sample2) by (vm_compute; reflexivity).
  apply (add_reach sample1 sample2 tx2 1); [|done|exact E2|apply check_size; vm_compute; reflexivity].
  apply (add_reach (empty_pool true) sample1 tx1 1); [constructor|done|exact E1|apply check_size; vm_compute; reflexivity].
Qed.

Lemma mempool_consistent_witness :
  ∃ xs, rep (p_txs (mp_pool sample2)) xs ∧ Size sample2 = zlen xs ∧ Size sample2 = 2 ∧ TxsBytes sample2 = 4 ∧
    ∀ e t, (e, t) ∈ xs → p_txsMap (mp_pool sample2) !! txKey id (mt_tx t) = Some e.
Proof.
  destruct (mempool_consistent id True pk vf sample2 sample2_reach) as (xs & H1 & H2 & _ & _ & H3).
  exists xs. split_and!; [exact H1|exact H2|vm_compute; reflexivity|vm_compute; reflexivity|exact (H3 I)].
Defined.

Lemma mempool_answers_safe_witness : ∃ m', respond id sample2 (ok 1) = Ret m'.
Proof.
  apply (mempool_answers_safe id True pk vf sample2 (mkResponseCheckTx 0 1) sample2_reach).
  apply Z.ltb_lt. vm_compute. reflexivity.
Defined.

(** The application refuses [tx1] after the block; [tx3] was committed. *)
Definition verdict (tx : bytes) : ResponseCheckTx :=
  mkResponseCheckTx (if decide (tx = tx1) then 1 else 0) 1.

Lemma update_then_recheck_witness :
  ∃ m1 m2, Update id sample2 2 [tx3] None None = Ret m1 ∧
    answer id (length (mp_pending m1)) m1 verdict = Ret m2 ∧ mp_pending m2 = [].
Proof.
  destruct (update_then_recheck id True pk vf sample2 2 [tx3] None None verdict sample2_reach)
    as (xs & m1 & m2 & K & _ & _ & H1 & H2 & _ & H3 & _);
    [vm_compute; reflexivity|vm_compute; reflexivity|by repeat constructor|].
  exists m1, m2. split_and!; [exact H1|exact H2|exact H3].
Defined.

Lemma update_then_recheck_keeps_tx2 :
  (m ← Update id sample2 2 [tx3] None None; m ← answer id 2 m verdict; mret (pool_txs m)) = Ret [tx2].
Proof. vm_compute. reflexivity. Qed.

(** The representation of a concrete pool. *)
Definition t_ (tx : bytes) (gas : Z) : mempoolTx := mkMempoolTx 1 gas tx {[0]}.

Definition pushed (ts : list mempoolTx) : outcome (list (addr * mempoolTx) * CList mempoolTx) :=
  foldM (λ st t, '(e, l) ← PushBack st.2 t; mret (st.1 ++ [(e, t)], l)) ([], New) ts.

Lemma pushed_rep (ts : list mempoolTx) : ∀ (xs : list (addr * mempoolTx)) (l : CList mempoolTx) xs' l',
  foldM (λ st t, '(e, l) ← PushBack st.2 t; mret (st.1 ++ [(e, t)], l)) (xs, l) ts = Ret (xs', l') →
  rep l xs → cl_maxLen l = MaxLength → zlen xs + zlen ts < MaxLength → rep l' xs'.
Proof.
  induction ts as [|t ts IH]; intros xs l xs' l' E Hr Hm Hlen; simpl in E.
  - by inv_ret.
  - assert (zlen (t :: ts) = zlen ts + 1) as Hz by (unfold zlen; simpl; lia).
    pose proof (zlen_nonneg ts).
    destruct (push_max l xs t Hr Hm) as (e & l2 & E2 & Hr2 & Hm2); [lia|].
    rewrite E2 in E. simpl in E. eapply IH; [exact E|done|done|].
    unfold zlen in *. rewrite length_app. simpl. lia.
Qed.

Definition pool_of (ts : list mempoolTx) : Mempool :=
  let m := empty_pool true in
  match pushed ts with
  | Ret (_, l) => with_pool m (mkPool l ∅ 0 NopTxCache)
  | Panic => m
  end.

Definition pairs (ts : list mempoolTx) : list (addr * mempoolTx) :=
  match pushed ts with Ret (xs, _) => xs | Panic => [] end.

Lemma pool_of_rep ts : zlen ts < MaxLength → rep (p_txs (mp_pool (pool_of ts))) (pairs ts).
Proof.
  intros Hl. unfold pool_of, pairs, pushed.
  destruct (foldM _ _ ts) as [[xs l]|] eqn:E; simpl; [|apply New_rep].
  eapply pushed_rep; [exact E|apply New_rep|done|]. done.
Qed.

Lemma reap_longest_prefix_witness :
  ∃ txs, ReapMaxBytesMaxGas id size1 (pool_of [t_ tx1 1; t_ tx2 5; t_ tx3 1]) 1500100 3 2 =
      Ret (Some (pool_of [t_ tx1 1; t_ tx2 5; t_ tx3 1], txs)) ∧
    best_prefix size1 1500100 3 (pairs [t_ tx1 1; t_ tx2 5; t_ tx3 1]).*2 txs.
Proof.
  apply reap_longest_prefix; [by apply pool_of_rep| |vm_compute; reflexivity|lia|].
  - change (pairs _) with [(0%nat, t_ tx1 1); (1%nat, t_ tx2 5); (2%nat, t_ tx3 1)].
    repeat constructor; by eexists.
  - change (pairs _).*2 with [t_ tx1 1; t_ tx2 5; t_ tx3 1].
    split_and!; [by vm_compute|by vm_compute| |by vm_compute|by vm_compute].
    intros t Ht. repeat (apply elem_of_cons in Ht as [->|Ht]; [by vm_compute|]).
    by apply not_elem_of_nil in Ht.
Defined.

Lemma reap_max_txs_one_too_many_witness :
  ReapMaxTxs (pool_of [t_ tx1 1; t_ tx2 1; t_ tx3 1]) 1 = Ret (Some [tx1; tx2]).
Proof.
  rewrite (reap_max_txs_one_too_many _ (pairs [t_ tx1 1; t_ tx2 1; t_ tx3 1]) 1);
    [vm_compute; reflexivity|by apply pool_of_rep|vm_compute; reflexivity|lia].
Defined.

Lemma sort_txs_partition_witness :
  ∃ l zs, SortTxs (pool_of [t_ tx1 1; t_ [x72] 1; t_ tx2 1]) = Ret (Some l) ∧ rep l zs ∧
    zs.*2 = [t_ [x72] 1; t_ tx1 1; t_ tx2 1].
Proof.
  destruct (sort_txs_partition (pool_of [t_ tx1 1; t_ [x72] 1; t_ tx2 1])
    (pairs [t_ tx1 1; t_ [x72] 1; t_ tx2 1])) as (l & zs & H1 & H2 & H3);
    [by apply pool_of_rep| |vm_compute; reflexivity|].
  - change (pairs _) with [(0%nat, t_ tx1 1); (1%nat, t_ [x72] 1); (2%nat, t_ tx2 1)].
    repeat constructor; by eexists.
  - exists l, zs. split_and!; [exact H1|exact H2|]. rewrite H3. vm_compute. reflexivity.
Defined.

Lemma messages_resent_every_20_witness :
  (UpdatecmDB (cm_updates 20 (mkCross [mkCrossMessage (toy_cm None 1 [] []) 0] [] ∅))).2 = [toy_cm None 1 [] []].
Proof.
  rewrite (messages_resent_every_20 _ [toy_cm None 1 [] []] 20); [vm_compute; reflexivity|reflexivity].
Defined.

(** Three hundred bytes of transactions in a message of seven. *)
Definition packed_message : bytes := [x6d; x05; x64; x72; x00; x00].

Lemma reap_ignores_expanded_size_witness :
  ∃ m', ReapMaxBytesMaxGas id size1 (pool_of [t_ packed_message 1]) 1500008 (-1) 2 =
    Ret (Some (m', replicate 100 [x72; x00; x00])).
Proof.
  set (cm := toy_cm (Some [x01]) 5 [] [x64; x72; x00; x00]).
  apply (reap_ignores_expanded_size id size1 _ 0%nat (t_ packed_message 1) cm
    (with_txlist cm (replicate 100 [x72; x00; x00]) [] false));
    [apply (pool_of_rep [t_ packed_message 1]); vm_compute; reflexivity|vm_compute; reflexivity..| |].
  - apply Forall_replicate. by eexists.
  - vm_compute. by intros.
Defined.

Lemma null_tx_panics_witness : check (empty_pool true) [] false = Panic.
Proof. apply null_tx_panics. reflexivity. Defined.

Lemma undecodable_tx_panics_mempool_witness :
  CheckTxWithInfo id pk vf no_accounts (empty_pool true) [x78] 3 false false = Panic.
Proof.
  eapply undecodable_tx_panics_mempool; vm_compute; try reflexivity; by intros.
Defined.
