(* ===== verification/DB.v ===== *)
(** * Key-value databases (libs/db)

    The interface [DB] of libs/db/types.go as a class with its contract [DBLaws], the in-memory
    database [MemDB] (mem_db.go) and its batches (mem_batch.go), the database [prefixDB] that
    lives under a prefix of another one (prefix_db.go), and prefix ranges (util.go).

    A nil slice as a key or a start is an empty one, as in the code; a nil [end] is [None]. [Close], [Print] and
    [Stats] are left out, and locks: each operation is atomic. The files and the bindings of LevelDB are not
    modelled. *)

From Stdlib Require Import ZArith Lia Bool Strings.Byte.
From stdpp Require Import base list gmap sets sorting.
From S2P Require Import Prelude KeyPath.
Local Open Scope Z_scope.

(** ** The interface *)

Class DB (D : Type) := {
  Itr : Type;
  db_Get : D → bytes → option bytes;
  db_Has : D → bytes → bool;
  db_Set : D → bytes → bytes → D;
  db_Delete : D → bytes → D;
  db_Iterator : D → bytes → option bytes → outcome Itr;
  db_ReverseIterator : D → bytes → option bytes → outcome Itr;
  itr_Valid : Itr → bool;
  itr_Next : Itr → outcome Itr;
  itr_Key : Itr → outcome bytes;
  itr_Value : D → Itr → outcome (option bytes);
  itr_fuel : Itr → nat  (* a bound on the number of calls of Next, for the loops *)
}.
Arguments Itr D {_}.

(** ** util.go *)

(** On the reversed slice: the loop of the code runs from the last byte. *)
Fixpoint incr_rev (bz : bytes) : option bytes :=
  match bz with
  | [] => None
  | b :: r => if byte_Z b <? 255 then Some (byte_of_Z (byte_Z b + 1) :: r) else cons x00 <$> incr_rev r
  end.

Definition cpIncr (bz : bytes) : outcome (option bytes) :=
  if zlen bz =? 0 then Panic else Ret (reverse <$> incr_rev (reverse bz)).

Definition IsKeyInDomain (key start : bytes) (end_ : option bytes) : bool :=
  match bytes_compare key start with
  | Lt => false
  | _ =>
      match end_ with
      | Some e => match bytes_compare e key with Gt => true | _ => false end
      | None => true
      end
  end.

Definition IteratePrefix `{DB D} (d : D) (prefix : bytes) : outcome (Itr D) :=
  if zlen prefix =? 0 then db_Iterator d [] None
  else e ← cpIncr prefix; db_Iterator d prefix e.

(** ** mem_db.go *)

Record MemDB := mkMemDB { mem_db : gmap bytes bytes }.

Definition NewMemDB : MemDB := mkMemDB ∅.

Definition MemDB_Get (db : MemDB) (key : bytes) : option bytes := mem_db db !! key.
Definition MemDB_Has (db : MemDB) (key : bytes) : bool := bool_decide (is_Some (mem_db db !! key)).
Definition SetNoLock (db : MemDB) (key value : bytes) : MemDB := mkMemDB (<[key := value]> (mem_db db)).
Definition DeleteNoLock (db : MemDB) (key : bytes) : MemDB := mkMemDB (delete key (mem_db db)).
Definition MemDB_Set (db : MemDB) (key value : bytes) : MemDB := SetNoLock db key value.
Definition MemDB_Delete (db : MemDB) (key : bytes) : MemDB := DeleteNoLock db key.

Record memDBIterator := mkMemDBIterator {
  mi_cur : Z;
  mi_keys : list bytes;
  mi_start : bytes;
  mi_end : option bytes
}.

Definition string_less (a b : bytes) : bool :=
  match bytes_compare a b with Lt => true | _ => false end.

(** The keys of a Go map come in an unspecified order; sorting makes it irrelevant. *)
Definition getSortedKeys (db : MemDB) (start : bytes) (end_ : option bytes) (rev : bool) : list bytes :=
  let keys := filter (λ k, IsKeyInDomain k start end_ = true) (map_to_list (mem_db db)).*1 in
  let keys := sort_Sort string_less keys in
  if rev then reverse keys else keys.

Definition newMemDBIterator (keys : list bytes) (start : bytes) (end_ : option bytes) : memDBIterator :=
  mkMemDBIterator 0 keys start end_.

Definition MemDB_Iterator (db : MemDB) (start : bytes) (end_ : option bytes) : memDBIterator :=
  newMemDBIterator (getSortedKeys db start end_ false) start end_.
Definition MemDB_ReverseIterator (db : MemDB) (start : bytes) (end_ : option bytes) : memDBIterator :=
  newMemDBIterator (getSortedKeys db start end_ true) start end_.

Definition mi_Valid (itr : memDBIterator) : bool := (0 <=? mi_cur itr) && (mi_cur itr <? zlen (mi_keys itr)).

Definition assertIsValid (itr : memDBIterator) : outcome unit := if mi_Valid itr then Ret tt else Panic.

Definition mi_Next (itr : memDBIterator) : outcome memDBIterator :=
  _ ← assertIsValid itr; Ret (mkMemDBIterator (mi_cur itr + 1) (mi_keys itr) (mi_start itr) (mi_end itr)).

Definition mi_Key (itr : memDBIterator) : outcome bytes :=
  _ ← assertIsValid itr; slice_get (mi_keys itr) (mi_cur itr).

(** The value is read from the database when it is asked for. *)
Definition mi_Value (db : MemDB) (itr : memDBIterator) : outcome (option bytes) :=
  _ ← assertIsValid itr; key ← slice_get (mi_keys itr) (mi_cur itr); Ret (MemDB_Get db key).

#[export] Instance MemDB_DB : DB MemDB := {|
  Itr := memDBIterator;
  db_Get := MemDB_Get; db_Has := MemDB_Has; db_Set := MemDB_Set; db_Delete := MemDB_Delete;
  db_Iterator d s e := Ret (MemDB_Iterator d s e);
  db_ReverseIterator d s e := Ret (MemDB_ReverseIterator d s e);
  itr_Valid := mi_Valid; itr_Next := mi_Next; itr_Key := mi_Key; itr_Value := mi_Value;
  itr_fuel i := (length (mi_keys i) - Z.to_nat (mi_cur i))%nat
|}.

(** ** mem_batch.go *)

Inductive operation := opSet (key value : bytes) | opDelete (key : bytes).

Record memBatch := mkMemBatch { mb_ops : list operation }.

Definition NewBatch : memBatch := mkMemBatch [].
Definition mBatch_Set (b : memBatch) (key value : bytes) : memBatch := mkMemBatch (mb_ops b ++ [opSet key value]).
Definition mBatch_Delete (b : memBatch) (key : bytes) : memBatch := mkMemBatch (mb_ops b ++ [opDelete key]).
Definition mBatch_Close (b : memBatch) : memBatch := mkMemBatch [].

Definition do_op (db : MemDB) (op : operation) : MemDB :=
  match op with
  | opSet key value => SetNoLock db key value
  | opDelete key => DeleteNoLock db key
  end.

Definition mBatch_write (db : MemDB) (b : memBatch) : MemDB := foldl do_op db (mb_ops b).

(** ** prefix_db.go *)

Record prefixDB (D : Type) := mkPrefixDB { pdb_prefix : bytes; pdb_db : D }.
Arguments mkPrefixDB {D}.
Arguments pdb_prefix {D}.
Arguments pdb_db {D}.

Record prefixIterator (I : Type) := mkPrefixIterator {
  pi_prefix : bytes;
  pi_start : bytes;
  pi_end : option bytes;
  pi_source : I;
  pi_valid : bool
}.
Arguments mkPrefixIterator {I}.
Arguments pi_prefix {I}.
Arguments pi_start {I}.
Arguments pi_end {I}.
Arguments pi_source {I}.
Arguments pi_valid {I}.

Section prefix_db.
Context {D : Type} `{DB D}.

Definition NewPrefixDB (d : D) (prefix : bytes) : prefixDB D := mkPrefixDB prefix d.

Definition prefixed (pdb : prefixDB D) (key : bytes) : bytes := pdb_prefix pdb ++ key.

Definition pdb_Get (pdb : prefixDB D) (key : bytes) : option bytes := db_Get (pdb_db pdb) (prefixed pdb key).
Definition pdb_Has (pdb : prefixDB D) (key : bytes) : bool := db_Has (pdb_db pdb) (prefixed pdb key).
Definition pdb_Set (pdb : prefixDB D) (key value : bytes) : prefixDB D :=
  mkPrefixDB (pdb_prefix pdb) (db_Set (pdb_db pdb) (prefixed pdb key) value).
Definition pdb_Delete (pdb : prefixDB D) (key : bytes) : prefixDB D :=
  mkPrefixDB (pdb_prefix pdb) (db_Delete (pdb_db pdb) (prefixed pdb key)).

(** Whether the source stands on a key with the prefix; Go evaluates [Key] only on a valid source. *)
Definition source_in (prefix : bytes) (source : Itr D) : outcome bool :=
  if negb (itr_Valid source) then Ret false else k ← itr_Key source; Ret (HasPrefix k prefix).

Definition newPrefixIterator (prefix start : bytes) (end_ : option bytes) (source : Itr D) :
    outcome (prefixIterator (Itr D)) :=
  b ← source_in prefix source; Ret (mkPrefixIterator prefix start end_ source b).

Definition prefix_end (pdb : prefixDB D) (end_ : option bytes) : outcome (option bytes) :=
  match end_ with None => cpIncr (pdb_prefix pdb) | Some e => Ret (Some (pdb_prefix pdb ++ e)) end.

Definition pdb_Iterator (pdb : prefixDB D) (start : bytes) (end_ : option bytes) :
    outcome (prefixIterator (Itr D)) :=
  pend ← prefix_end pdb end_;
  i ← db_Iterator (pdb_db pdb) (pdb_prefix pdb ++ start) pend;
  newPrefixIterator (pdb_prefix pdb) start end_ i.

Definition pdb_ReverseIterator (pdb : prefixDB D) (start : bytes) (end_ : option bytes) :
    outcome (prefixIterator (Itr D)) :=
  pend ← prefix_end pdb end_;
  i ← db_ReverseIterator (pdb_db pdb) (pdb_prefix pdb ++ start) pend;
  newPrefixIterator (pdb_prefix pdb) start end_ i.

Definition pi_Valid (itr : prefixIterator (Itr D)) : bool := pi_valid itr && itr_Valid (pi_source itr).

Definition pi_Next (itr : prefixIterator (Itr D)) : outcome (prefixIterator (Itr D)) :=
  if negb (pi_valid itr) then Panic
  else
    source ← itr_Next (pi_source itr);
    b ← source_in (pi_prefix itr) source;
    Ret (mkPrefixIterator (pi_prefix itr) (pi_start itr) (pi_end itr) source (b && pi_valid itr)).

Definition stripPrefix (key prefix : bytes) : outcome bytes :=
  if zlen key <? zlen prefix then Panic
  else if negb (bytes_equal (take (length prefix) key) prefix) then Panic
  else Ret (drop (length prefix) key).

Definition pi_Key (itr : prefixIterator (Itr D)) : outcome bytes :=
  if negb (pi_valid itr) then Panic else k ← itr_Key (pi_source itr); stripPrefix k (pi_prefix itr).

Definition pi_Value (pdb : prefixDB D) (itr : prefixIterator (Itr D)) : outcome (option bytes) :=
  if negb (pi_valid itr) then Panic else itr_Value (pdb_db pdb) (pi_source itr).
End prefix_db.

#[export] Instance prefixDB_DB {D} `{DB D} : DB (prefixDB D) := {|
  Itr := prefixIterator (Itr D);
  db_Get := pdb_Get; db_Has := pdb_Has; db_Set := pdb_Set; db_Delete := pdb_Delete;
  db_Iterator := pdb_Iterator; db_ReverseIterator := pdb_ReverseIterator;
  itr_Valid := pi_Valid; itr_Next := pi_Next; itr_Key := pi_Key; itr_Value := pi_Value;
  itr_fuel i := itr_fuel (pi_source i)
|}.

(** A batch of a prefixed database passes on the operations with prefixed keys. *)
Definition prefixBatch_Set (prefix : bytes) (b : memBatch) (key value : bytes) : memBatch :=
  mBatch_Set b (prefix ++ key) value.
Definition prefixBatch_Delete (prefix : bytes) (b : memBatch) (key : bytes) : memBatch :=
  mBatch_Delete b (prefix ++ key).

(** ** The loop [for ; itr.Valid(); itr.Next()]

    The body sees key and value, changes a state and says whether to go on. *)
Fixpoint itr_loop {D S} `{DB D} (body : bytes → option bytes → S → outcome (S * bool)) (fuel : nat)
    (d : D) (i : Itr D) (st : S) : outcome S :=
  match fuel with
  | O => Ret st
  | Datatypes.S fuel =>
      if itr_Valid i then
        k ← itr_Key i; v ← itr_Value d i; '(st', go) ← body k v st;
        if (go : bool) then i ← itr_Next i; itr_loop body fuel d i st' else Ret st'
      else Ret st
  end.

Definition for_itr {D S} `{DB D} (body : bytes → option bytes → S → outcome (S * bool)) (d : D) (i : Itr D)
    (st : S) : outcome S := itr_loop body (itr_fuel i) d i st.

Fixpoint fold_entries {S} (body : bytes → option bytes → S → outcome (S * bool)) (l : list (bytes * bytes))
    (st : S) : outcome S :=
  match l with
  | [] => Ret st
  | (k, v) :: l => '(st', go) ← body k (Some v) st; if (go : bool) then fold_entries body l st' else Ret st'
  end.

(** ** The contract *)

(** The entries of a map with their keys in a range, in ascending order. *)
Definition in_domain (m : gmap bytes bytes) (start : bytes) (end_ : option bytes) (l : list (bytes * bytes)) : Prop :=
  StronglySorted bytes_lt l.*1 ∧
  ∀ k v, (k, v) ∈ l ↔ m !! k = Some v ∧ IsKeyInDomain k start end_ = true.

Class DBLaws (D : Type) `{DB D} := {
  db_ok : D → Prop;
  contents : D → gmap bytes bytes;
  itr_at : D → Itr D → list (bytes * bytes) → Prop;
  law_Get (d : D) k : db_ok d → db_Get d k = contents d !! k;
  law_Has (d : D) k : db_ok d → db_Has d k = bool_decide (is_Some (contents d !! k));
  law_Set (d : D) k v : db_ok d → db_ok (db_Set d k v) ∧ contents (db_Set d k v) = <[k := v]> (contents d);
  law_Delete (d : D) k : db_ok d → db_ok (db_Delete d k) ∧ contents (db_Delete d k) = delete k (contents d);
  law_Iterator (d : D) s e : db_ok d →
    ∃ i l, db_Iterator d s e = Ret i ∧ itr_at d i l ∧ in_domain (contents d) s e l;
  law_ReverseIterator (d : D) s e : db_ok d →
    ∃ i l, db_ReverseIterator d s e = Ret i ∧ itr_at d i (reverse l) ∧ in_domain (contents d) s e l;
  law_nil (d : D) (i : Itr D) : itr_at d i [] → itr_Valid i = false;
  law_cons (d : D) (i : Itr D) k v l : itr_at d i ((k, v) :: l) →
    itr_Valid i = true ∧ itr_Key i = Ret k ∧ itr_Value d i = Ret (Some v) ∧
    ∃ i', itr_Next i = Ret i' ∧ itr_at d i' l;
  law_fuel (d : D) (i : Itr D) l : itr_at d i l → (length l ≤ itr_fuel i)%nat
}.

(** A loop over an iterator is a fold over the entries it stands for. *)
Lemma itr_loop_ok {D S} `{DBLaws D} (body : bytes → option bytes → S → outcome (S * bool)) l fuel d i st :
  itr_at d i l → (length l ≤ fuel)%nat → itr_loop body fuel d i st = fold_entries body l st.
Proof.
  revert fuel i st. induction l as [|[k v] l IH]; intros fuel i st Hi Hf.
  - destruct fuel; simpl; [done|]. by rewrite (law_nil _ _ Hi).
  - destruct fuel as [|fuel]; [simpl in Hf; lia|]. simpl.
    destruct (law_cons _ _ _ _ _ Hi) as (-> & -> & -> & i' & Hn & Hi'). simpl.
    destruct (body k (Some v) st) as [[st' []]|]; simpl; [|done..].
    rewrite Hn. simpl. apply IH; [done|simpl in Hf; lia].
Qed.

Lemma for_itr_ok {D S} `{DBLaws D} (body : bytes → option bytes → S → outcome (S * bool)) l d i st :
  itr_at d i l → for_itr body d i st = fold_entries body l st.
Proof. intros Hi. apply itr_loop_ok; [done|by eapply law_fuel]. Qed.

(** ** Order of keys and prefixes *)

Definition bytes_le (a b : bytes) : Prop := bytes_compare a b ≠ Gt.

Lemma compare_app p a b : bytes_compare (p ++ a) (p ++ b) = bytes_compare a b.
Proof. induction p as [|x p IH]; simpl; [done|]. by rewrite Z.compare_refl. Qed.

Lemma IsKeyInDomain_spec k s e :
  IsKeyInDomain k s e = true ↔ bytes_le s k ∧ (∀ x, e = Some x → bytes_lt k x).
Proof.
  unfold IsKeyInDomain, bytes_le, bytes_lt. rewrite (bytes_compare_antisym k s).
  assert (He : ∀ x, bytes_compare k x = Lt ↔ bytes_compare x k = Gt).
  { intros x. rewrite (bytes_compare_antisym x k). destruct (bytes_compare x k); naive_solver. }
  destruct (bytes_compare k s); simpl;
    (destruct e as [x|]; [specialize (He x); destruct (bytes_compare x k)|]; naive_solver).
Qed.

(** Keys between two keys with a prefix have the prefix. *)
Lemma between_prefix p a k b : bytes_le (p ++ a) k → bytes_lt k (p ++ b) → ∃ c, k = p ++ c.
Proof.
  unfold bytes_le, bytes_lt. revert k. induction p as [|x p IH]; intros k Hle Hlt; [by exists k|].
  destruct k as [|y k]; simpl in *; [done|].
  destruct (Z.compare_spec (byte_Z x) (byte_Z y)) as [E|E|E], (Z.compare_spec (byte_Z y) (byte_Z x)); try lia; try done.
  apply byte_Z_inj in E as ->. destruct (IH k Hle Hlt) as [c ->]. by exists c.
Qed.

Lemma byte_succ b : byte_Z b < 255 → byte_Z (byte_of_Z (byte_Z b + 1)) = byte_Z b + 1.
Proof.
  intros Hb. unfold byte_of_Z. assert (0 ≤ byte_Z b) by (unfold byte_Z; lia).
  rewrite Z.mod_small by lia.
  destruct (Byte.of_N (Z.to_N (byte_Z b + 1))) as [c|] eqn:E.
  - apply Byte.to_of_N in E. unfold byte_Z at 1. rewrite E. lia.
  - apply Byte.of_N_None_iff in E. lia.
Qed.

Lemma byte_le_255 b : byte_Z b ≤ 255.
Proof. unfold byte_Z. pose proof (Byte.to_N_bounded b). lia. Qed.

(** Incrementing the last byte bounds the keys with the prefix. *)
Lemma prefix_range q b k :
  byte_Z b < 255 →
  (bytes_le (q ++ [b]) k ∧ bytes_lt k (q ++ [byte_of_Z (byte_Z b + 1)])) ↔ ∃ c, k = (q ++ [b]) ++ c.
Proof.
  intros Hb. split.
  - intros [Hle Hlt]. destruct (between_prefix q [b] k _ Hle Hlt) as [c ->].
    unfold bytes_le, bytes_lt in *. rewrite compare_app in Hle, Hlt.
    destruct c as [|y c]; [done|]. simpl in Hle, Hlt. rewrite byte_succ in Hlt by done.
    destruct (Z.compare_spec (byte_Z b) (byte_Z y)) as [E|E|E]; [|exfalso|done].
    + apply byte_Z_inj in E as ->. exists c. by rewrite <-app_assoc.
    + destruct (Z.compare_spec (byte_Z y) (byte_Z b + 1)) as [E'|E'|E']; [by destruct c|lia|done].
  - intros [c ->]. unfold bytes_le, bytes_lt. rewrite <-!app_assoc, !compare_app. simpl.
    rewrite Z.compare_refl, byte_succ by done. split; [by destruct c|].
    by destruct (Z.compare_spec (byte_Z b) (byte_Z b + 1)) as [E|E|E]; [lia| |lia].
Qed.

(** Prefixes on which [cpIncr] ends the range of the prefix exactly. *)
Definition plain_prefix (p : bytes) : Prop := ∃ q b, p = q ++ [b] ∧ byte_Z b < 255.

Lemma cpIncr_plain q b : byte_Z b < 255 → cpIncr (q ++ [b]) = Ret (Some (q ++ [byte_of_Z (byte_Z b + 1)])).
Proof.
  intros Hb. unfold cpIncr. destruct (Z.eqb_spec (zlen (q ++ [b])) 0) as [E|_].
  { unfold zlen in E. rewrite length_app in E. simpl in E. lia. }
  rewrite reverse_app. simpl. destruct (Z.ltb_spec (byte_Z b) 255); [|lia]. simpl.
  by rewrite reverse_cons, reverse_involutive.
Qed.

(** A range of keys with the prefix, and what remains of them without it. *)
Lemma prefixed_domain p k s e pend :
  plain_prefix p →
  match e with None => cpIncr p = Ret pend | Some x => pend = Some (p ++ x) end →
  IsKeyInDomain k (p ++ s) pend = true ↔ ∃ c, k = p ++ c ∧ IsKeyInDomain c s e = true.
Proof.
  intros (q & b & -> & Hb) He. rewrite IsKeyInDomain_spec.
  setoid_rewrite IsKeyInDomain_spec. destruct e as [x|].
  - subst pend. split.
    + intros [Hs Hx]. specialize (Hx _ eq_refl). destruct (between_prefix _ _ _ _ Hs Hx) as [c ->].
      unfold bytes_le, bytes_lt in *. rewrite compare_app in Hs, Hx. exists c. naive_solver.
    + intros (c & -> & Hs & Hx). specialize (Hx _ eq_refl). unfold bytes_le, bytes_lt in *.
      rewrite compare_app. split; [done|]. intros ? [= <-]. by rewrite compare_app.
  - rewrite cpIncr_plain in He by done. injection He as <-. split.
    + intros [Hs Hx]. specialize (Hx _ eq_refl).
      assert (∃ c, k = (q ++ [b]) ++ c) as [c ->].
      { apply prefix_range; [done|]. split; [|done]. intros Hgt. apply Hs. clear -Hgt.
        revert k Hgt. induction (q ++ [b]) as [|y l IH]; intros [|z k]; simpl; try done.
        destruct (byte_Z y ?= byte_Z z); auto. }
      unfold bytes_le in *. rewrite compare_app in Hs. exists c. naive_solver.
    + intros (c & -> & Hs & _). unfold bytes_le. rewrite compare_app. split; [done|]. intros ? [= <-].
      apply prefix_range; [done|]. by exists c.
Qed.

(** ** [MemDB] keeps the contract *)

Lemma sort_insert_strings x l :
  StronglySorted bytes_lt l → x ∉ l → StronglySorted bytes_lt (sort_insert string_less x l).
Proof.
  induction l as [|y l IH]; intros Hs Hx; simpl; [by repeat constructor|].
  inversion Hs as [|? ? Hs' Hy]; subst. unfold string_less at 1.
  destruct (bytes_compare x y) eqn:E.
  - apply bytes_compare_eq in E as ->. by destruct Hx; left.
  - constructor; [done|]. constructor; [done|]. eapply Forall_impl; [exact Hy|].
    intros z Hz. by eapply bytes_lt_trans.
  - constructor; [apply IH; [done|]; intros ?; apply Hx; by right|].
    apply Forall_forall. intros z. rewrite sort_insert_perm, elem_of_cons. intros [->|Hz].
    + by apply bytes_compare_Gt.
    + by eapply Forall_forall in Hy.
Qed.

Lemma sort_strings l : NoDup l → StronglySorted bytes_lt (sort_Sort string_less l).
Proof.
  induction 1 as [|x l Hx Hl IH]; simpl; [constructor|]. apply sort_insert_strings; [done|].
  by rewrite sort_Sort_perm.
Qed.

(** The entries of the keys, in order. *)
Definition entries (m : gmap bytes bytes) (ks : list bytes) : list (bytes * bytes) :=
  (λ k, (k, default [] (m !! k))) <$> ks.

Lemma entries_keys m ks : (entries m ks).*1 = ks.
Proof. unfold entries. rewrite <-list_fmap_compose. apply list_fmap_id. Qed.

Lemma getSortedKeys_domain db s e :
  in_domain (mem_db db) s e (entries (mem_db db) (getSortedKeys db s e false)).
Proof.
  unfold in_domain. rewrite entries_keys. unfold getSortedKeys. split.
  - apply sort_strings, NoDup_filter, NoDup_fst_map_to_list.
  - intros k v. unfold entries. rewrite list_elem_of_fmap. setoid_rewrite sort_Sort_perm.
    setoid_rewrite list_elem_of_filter. setoid_rewrite list_elem_of_fmap. split.
    + intros (k' & [= -> ->] & Hd & ([k'' v'] & -> & Hin)). simpl in *.
      apply elem_of_map_to_list in Hin. by rewrite Hin.
    + intros [Hk Hd]. exists k. rewrite Hk. split_and!; [done..|]. exists (k, v).
      by rewrite elem_of_map_to_list.
Qed.

Definition mi_at (db : MemDB) (i : memDBIterator) (l : list (bytes * bytes)) : Prop :=
  0 ≤ mi_cur i ∧ l = entries (mem_db db) (drop (Z.to_nat (mi_cur i)) (mi_keys i)) ∧
  Forall (λ k, is_Some (mem_db db !! k)) (mi_keys i).

Lemma sorted_keys_present db s e r : Forall (λ k, is_Some (mem_db db !! k)) (getSortedKeys db s e r).
Proof.
  apply Forall_forall. intros k. unfold getSortedKeys.
  assert (k ∈ sort_Sort string_less (filter (λ k, IsKeyInDomain k s e = true) (map_to_list (mem_db db)).*1) →
    is_Some (mem_db db !! k)).
  { rewrite sort_Sort_perm, list_elem_of_filter, list_elem_of_fmap. intros (_ & [k' v] & -> & Hin).
    apply elem_of_map_to_list in Hin. by exists v. }
  destruct r; rewrite ?elem_of_reverse; done.
Qed.

Lemma mi_at_cons db i k v l :
  mi_at db i ((k, v) :: l) →
  mi_Valid i = true ∧ mi_Key i = Ret k ∧ mi_Value db i = Ret (Some v) ∧
  ∃ i', mi_Next i = Ret i' ∧ mi_at db i' l.
Proof.
  intros (H0 & Hl & Hp). destruct (drop _ _) as [|k' r] eqn:Ed; [done|].
  simpl in Hl. injection Hl as -> Hv Hr.
  assert (Hk : mi_keys i !! Z.to_nat (mi_cur i) = Some k').
  { rewrite <-(Nat.add_0_r (Z.to_nat _)), <-lookup_drop, Ed. done. }
  pose proof (lookup_lt_Some _ _ _ Hk) as Hlt.
  assert (Hval : mi_Valid i = true).
  { unfold mi_Valid, zlen. destruct (Z.leb_spec 0 (mi_cur i)), (Z.ltb_spec (mi_cur i) (Z.of_nat (length (mi_keys i))));
      try done; lia. }
  assert (Hget : slice_get (mi_keys i) (mi_cur i) = Ret k').
  { rewrite <-(Z2Nat.id (mi_cur i)) by done. by apply slice_get_ok. }
  unfold mi_Key, mi_Value, mi_Next, assertIsValid. rewrite Hval, Hget. simpl.
  split_and!; [done..| |].
  - unfold MemDB_Get. destruct (Forall_lookup_1 _ _ _ _ Hp Hk) as [v' E].
    rewrite E in *. simpl in Hv. by subst.
  - eexists. split; [done|]. split_and!; simpl; [lia| |done].
    replace (Z.to_nat (mi_cur i + 1)) with (S (Z.to_nat (mi_cur i))) by lia.
    rewrite (drop_S _ _ _ Hk) in Ed. injection Ed as Ed. by rewrite Ed.
Qed.

#[local] Obligation Tactic := intros; try done.

#[export] Program Instance MemDB_laws : DBLaws MemDB := {|
  db_ok _ := True; contents := mem_db; itr_at := mi_at
|}.
Next Obligation.
  exists (MemDB_Iterator d s e), (entries (mem_db d) (getSortedKeys d s e false)).
  split_and!; [done| |apply getSortedKeys_domain]. split_and!; [simpl; lia|done|apply sorted_keys_present].
Qed.
Next Obligation.
  exists (MemDB_ReverseIterator d s e), (entries (mem_db d) (getSortedKeys d s e false)).
  split_and!; [done| |apply getSortedKeys_domain]. split_and!; [simpl; lia| |apply sorted_keys_present].
  unfold entries. rewrite <-fmap_reverse. done.
Qed.
Next Obligation.
  destruct H as (H0 & Hl & _). simpl. unfold mi_Valid. destruct (drop _ _) eqn:E; [|done].
  apply (f_equal length) in E. rewrite length_drop in E. simpl in E. unfold zlen.
  destruct (Z.ltb_spec (mi_cur i) (Z.of_nat (length (mi_keys i)))); [lia|]. by rewrite andb_false_r.
Qed.
Next Obligation. by apply mi_at_cons. Qed.
Next Obligation. destruct H as (H0 & -> & _). unfold entries. by rewrite length_fmap, length_drop. Qed.

(** ** [prefixDB] keeps the contract when the database below does *)

Lemma HasPrefix_spec k p : HasPrefix k p = true ↔ ∃ c, k = p ++ c.
Proof.
  unfold HasPrefix. rewrite bytes_equal_true. split.
  - intros E. exists (drop (length p) k). by rewrite <-E at 1; rewrite take_drop.
  - intros [c ->]. by rewrite take_app_length.
Qed.

(** The part of a map under a prefix. *)
Definition under (p : bytes) (m : gmap bytes bytes) : gmap bytes bytes :=
  list_to_map ((λ kv, (drop (length p) kv.1, kv.2)) <$> filter (λ kv, HasPrefix kv.1 p = true) (map_to_list m)).

Lemma under_lookup p m k : under p m !! k = m !! (p ++ k).
Proof.
  unfold under. set (l := _ <$> _).
  assert (Hl : ∀ c v, (c, v) ∈ l ↔ m !! (p ++ c) = Some v).
  { intros c v. unfold l. rewrite list_elem_of_fmap. setoid_rewrite list_elem_of_filter. split.
    - intros ([k' v'] & [= -> ->] & Hp & Hin). simpl in *. apply HasPrefix_spec in Hp as [c ->].
      rewrite drop_app_length. by apply elem_of_map_to_list.
    - intros Hm. exists (p ++ c, v). simpl. rewrite drop_app_length, HasPrefix_spec, elem_of_map_to_list. eauto. }
  assert (Hnd : NoDup l.*1).
  { unfold l. rewrite <-list_fmap_compose. apply NoDup_fmap_2_strong; [|apply NoDup_filter, NoDup_map_to_list].
    intros [k1 v1] [k2 v2] H1 H2. rewrite list_elem_of_filter, elem_of_map_to_list, HasPrefix_spec in H1, H2.
    destruct H1 as [[c1 E1] H1], H2 as [[c2 E2] H2]. simpl in *. subst. rewrite !drop_app_length. intros ->. naive_solver. }
  destruct (m !! (p ++ k)) as [v|] eqn:E.
  - apply elem_of_list_to_map_1; [done|]. by apply Hl.
  - apply not_elem_of_list_to_map_1. intros ([k' v] & -> & Hin)%list_elem_of_fmap. apply Hl in Hin. naive_solver.
Qed.

Lemma under_insert p m k v : under p (<[p ++ k := v]> m) = <[k := v]> (under p m).
Proof.
  apply map_eq. intros k'. rewrite under_lookup. destruct (decide (k' = k)) as [->|Hne].
  - by rewrite !lookup_insert_eq.
  - rewrite !lookup_insert_ne, under_lookup; [done..|]. intros E%app_inv_head. done.
Qed.

Lemma under_delete p m k : under p (delete (p ++ k) m) = delete k (under p m).
Proof.
  apply map_eq. intros k'. rewrite under_lookup. destruct (decide (k' = k)) as [->|Hne].
  - by rewrite !lookup_delete_eq.
  - rewrite !lookup_delete_ne, under_lookup; [done..|]. intros E%app_inv_head. done.
Qed.

Definition strip (p : bytes) (l : list (bytes * bytes)) : list (bytes * bytes) :=
  (λ kv, (drop (length p) kv.1, kv.2)) <$> l.

Lemma strip_reverse p l : strip p (reverse l) = reverse (strip p l).
Proof. apply fmap_reverse. Qed.

Section prefix_laws.
Context {D : Type} `{DBLaws D}.

Definition with_prefix (p : bytes) (l : list (bytes * bytes)) : Prop := Forall (λ kv, HasPrefix kv.1 p = true) l.

Definition pi_at (pdb : prefixDB D) (i : prefixIterator (Itr D)) (l : list (bytes * bytes)) : Prop :=
  ∃ src, itr_at (pdb_db pdb) (pi_source i) src ∧ with_prefix (pi_prefix i) src ∧ l = strip (pi_prefix i) src ∧
    pi_valid i = bool_decide (src ≠ []).

Lemma source_in_ok d i l p :
  itr_at d i l → with_prefix p l → source_in p i = Ret (bool_decide (l ≠ [])).
Proof.
  intros Hi Hp. unfold source_in. destruct l as [|[k v] l].
  - by rewrite (law_nil _ _ Hi).
  - destruct (law_cons _ _ _ _ _ Hi) as (-> & -> & _). simpl. apply Forall_cons in Hp as [Hp _].
    simpl in Hp. by rewrite Hp.
Qed.

Lemma prefix_domain p m s e pend l :
  plain_prefix p →
  match e with None => cpIncr p = Ret pend | Some x => pend = Some (p ++ x) end →
  in_domain m (p ++ s) pend l → with_prefix p l ∧ in_domain (under p m) s e (strip p l).
Proof.
  intros Hp He [Hs Hl].
  assert (Hw : ∀ k v, (k, v) ∈ l → ∃ c, k = p ++ c ∧ IsKeyInDomain c s e = true).
  { intros k v [_ Hk]%Hl. by eapply prefixed_domain in Hk. }
  split; [|split].
  - apply Forall_forall. intros [k v] (c & -> & _)%Hw. apply HasPrefix_spec. by exists c.
  - unfold strip. rewrite <-list_fmap_compose.
    clear Hl. induction l as [|[k v] l IH]; [constructor|]. csimpl in *. inversion Hs as [|? ? Hs' Hk]; subst.
    constructor; [apply IH; [done|]; intros; eapply Hw; by right|].
    apply Forall_forall. intros k2 ([k' v'] & -> & Hin)%list_elem_of_fmap. simpl.
    destruct (Hw k v ltac:(by left)) as (c & -> & _), (Hw k' v' ltac:(by right)) as (c' & -> & _).
    rewrite !drop_app_length. rewrite Forall_forall in Hk. specialize (Hk (p ++ c')).
    unfold bytes_lt in Hk. rewrite compare_app in Hk. apply Hk. apply list_elem_of_fmap. by exists (p ++ c', v').
  - intros k v. rewrite under_lookup. unfold strip. rewrite list_elem_of_fmap. split.
    + intros ([k' v'] & [= -> ->] & Hin). destruct (Hw _ _ Hin) as (c & -> & Hc). simpl. rewrite drop_app_length.
      split; [|done]. by apply Hl in Hin as [Hin _].
    + intros [Hm Hd]. exists (p ++ k, v). simpl. rewrite drop_app_length. split; [done|]. apply Hl. split; [done|].
      eapply prefixed_domain; [done..|]. eauto.
Qed.

Lemma prefix_end_ok (pdb : prefixDB D) e :
  plain_prefix (pdb_prefix pdb) →
  ∃ pend, prefix_end pdb e = Ret pend ∧
    match e with None => cpIncr (pdb_prefix pdb) = Ret pend | Some x => pend = Some (pdb_prefix pdb ++ x) end.
Proof.
  intros (q & b & E & Hb). unfold prefix_end. destruct e as [x|]; [eauto|].
  rewrite E, cpIncr_plain by done. eauto.
Qed.

Lemma reverse_not_nil {A} (l : list A) : bool_decide (reverse l ≠ []) = bool_decide (l ≠ []).
Proof. apply bool_decide_ext. destruct l as [|x l]; [done|]. rewrite reverse_cons. split; [done|]. by destruct (reverse l). Qed.

#[local] Obligation Tactic := intros; try done.

#[export] Program Instance prefixDB_laws : DBLaws (prefixDB D) := {|
  db_ok pdb := db_ok (pdb_db pdb) ∧ plain_prefix (pdb_prefix pdb);
  contents pdb := under (pdb_prefix pdb) (contents (pdb_db pdb));
  itr_at := pi_at
|}.
Next Obligation. destruct H1. rewrite under_lookup. by apply (law_Get (pdb_db d)). Qed.
Next Obligation. destruct H1. rewrite under_lookup. by apply (law_Has (pdb_db d)). Qed.
Next Obligation.
  destruct H1 as [H1 H2]. destruct (law_Set (pdb_db d) (prefixed d k) v H1) as [H3 E].
  simpl. split; [done|]. rewrite E. apply under_insert.
Qed.
Next Obligation.
  destruct H1 as [H1 H2]. destruct (law_Delete (pdb_db d) (prefixed d k) H1) as [H3 E].
  simpl. split; [done|]. rewrite E. apply under_delete.
Qed.
Next Obligation.
  destruct H1 as [H1 H2]. simpl. unfold pdb_Iterator.
  destruct (prefix_end_ok d e H2) as (pend & -> & He). simpl.
  destruct (law_Iterator (pdb_db d) (pdb_prefix d ++ s) pend H1) as (i & l & -> & Hi & Hl). simpl.
  destruct (prefix_domain _ _ _ _ _ _ H2 He Hl) as [Hw Hd].
  unfold newPrefixIterator. rewrite (source_in_ok _ _ _ _ Hi Hw). simpl.
  eexists _, _. split; [done|]. split; [|exact Hd]. exists l. done.
Qed.
Next Obligation.
  destruct H1 as [H1 H2]. simpl. unfold pdb_ReverseIterator.
  destruct (prefix_end_ok d e H2) as (pend & -> & He). simpl.
  destruct (law_ReverseIterator (pdb_db d) (pdb_prefix d ++ s) pend H1) as (i & l & -> & Hi & Hl). simpl.
  destruct (prefix_domain _ _ _ _ _ _ H2 He Hl) as [Hw Hd].
  assert (Hw' : with_prefix (pdb_prefix d) (reverse l)) by (apply Forall_reverse; done).
  unfold newPrefixIterator. rewrite (source_in_ok _ _ _ _ Hi Hw'). simpl.
  eexists _, _. split; [done|]. split; [|exact Hd]. exists (reverse l).
  split_and!; [done..|by rewrite strip_reverse|done].
Qed.
Next Obligation.
  destruct H1 as ([|x src] & H1 & _ & H2 & H3); [|done]. simpl. unfold pi_Valid. by rewrite H3.
Qed.
Next Obligation.
  destruct H1 as ([|[k' v'] src] & H1 & H2 & H3 & H4); [done|]. injection H3 as -> -> ->.
  apply Forall_cons in H2 as [Hk Hw]. simpl in Hk.
  destruct (law_cons _ _ _ _ _ H1) as (E1 & E2 & E3 & i' & E4 & Hi'). simpl.
  unfold pi_Valid, pi_Key, pi_Value, pi_Next. rewrite H4, E1, E2, E3, E4. simpl.
  split_and!; [done| |done|].
  - unfold stripPrefix. apply HasPrefix_spec in Hk as [c ->]. rewrite drop_app_length, take_app_length.
    unfold zlen. rewrite length_app. destruct (Z.ltb_spec (Z.of_nat (length (pi_prefix i) + length c)) (Z.of_nat (length (pi_prefix i)))); [lia|].
    unfold bytes_equal. by rewrite bool_decide_eq_true_2.
  - rewrite (source_in_ok _ _ _ _ Hi' Hw). simpl. eexists. split; [done|]. exists src. simpl. by rewrite andb_true_r.
Qed.
Next Obligation.
  destruct H1 as (src & H1 & _ & -> & _). unfold strip. rewrite length_fmap. exact (law_fuel _ _ _ H1).
Qed.
End prefix_laws.

(** ** Theorems *)

(** All entries that an iterator visits. *)
Definition collect `{DB D} (d : D) (i : Itr D) : outcome (list (bytes * option bytes)) :=
  for_itr (λ k v acc, Ret (acc ++ [(k, v)], true)) d i [].

Lemma collect_ok `{DBLaws D} (d : D) i l : itr_at d i l → collect d i = Ret ((λ kv, (kv.1, Some kv.2)) <$> l).
Proof.
  intros Hi. unfold collect. rewrite (for_itr_ok _ _ _ _ _ Hi). clear Hi.
  enough (∀ acc, fold_entries (λ k v acc, Ret (acc ++ [(k, v)], true)) l acc =
    Ret (acc ++ ((λ kv, (kv.1, Some kv.2)) <$> l))) as E by apply E.
  induction l as [|[k v] l IH]; intros acc; simpl; [by rewrite app_nil_r|].
  rewrite IH. by rewrite <-app_assoc.
Qed.

Lemma IteratePrefix_ok `{DBLaws D} (d : D) p :
  db_ok d → p = [] ∨ plain_prefix p →
  ∃ i l, IteratePrefix d p = Ret i ∧ itr_at d i l ∧ StronglySorted bytes_lt l.*1 ∧
    ∀ k v, (k, v) ∈ l ↔ contents d !! k = Some v ∧ HasPrefix k p = true.
Proof.
  intros Hd [->|Hp].
  - destruct (law_Iterator d [] None Hd) as (i & l & Hi & Ha & Hs & Hl).
    exists i, l. split_and!; [done..|]. intros k v. rewrite Hl, HasPrefix_spec, IsKeyInDomain_spec.
    split; intros [Hk _]; (split; [done|]); [by exists k|]. unfold bytes_le. by destruct k.
  - unfold IteratePrefix. pose proof Hp as (q & b & E & Hb).
    destruct (Z.eqb_spec (zlen p) 0) as [E0|_].
    { subst p. unfold zlen in E0. rewrite length_app in E0. simpl in E0. lia. }
    assert (∃ pend, cpIncr p = Ret pend) as [pend He] by (subst p; rewrite cpIncr_plain by done; eauto).
    rewrite He. simpl. destruct (law_Iterator d p pend Hd) as (i & l & Hi & Ha & Hs & Hl).
    exists i, l. split_and!; [done..|]. intros k v. rewrite Hl, HasPrefix_spec.
    rewrite <-(app_nil_r p) at 1. rewrite (prefixed_domain p k [] None pend Hp He).
    split; [intros [Hk (c & -> & _)]; eauto|]. intros [Hk [c ->]]. split; [done|]. exists c. split; [done|].
    apply IsKeyInDomain_spec. split; [|done]. unfold bytes_le. by destruct c.
Qed.

(** On every database that keeps the contract, a prefix range visits exactly the entries whose keys have the
    prefix, in strictly ascending order of keys, when the last byte of the prefix is not 0xFF. *)
Theorem iterate_prefix_exact `{DBLaws D} (d : D) p :
  db_ok d → p = [] ∨ plain_prefix p →
  ∃ i l, IteratePrefix d p = Ret i ∧ collect d i = Ret ((λ kv, (kv.1, Some kv.2)) <$> l) ∧
    StronglySorted bytes_lt l.*1 ∧ ∀ k v, (k, v) ∈ l ↔ contents d !! k = Some v ∧ HasPrefix k p = true.
Proof.
  intros Hd Hp. destruct (IteratePrefix_ok d p Hd Hp) as (i & l & Hi & Ha & Hs).
  exists i, l. split_and!; [done|by apply collect_ok|apply Hs..].
Qed.

(** Writes through the interface. *)
Definition do_write `{DB D} (d : D) (op : operation) : D :=
  match op with opSet k v => db_Set d k v | opDelete k => db_Delete d k end.

Definition map_write (m : gmap bytes bytes) (op : operation) : gmap bytes bytes :=
  match op with opSet k v => <[k := v]> m | opDelete k => delete k m end.

Lemma writes_ok `{DBLaws D} ops (d : D) :
  db_ok d → db_ok (foldl do_write d ops) ∧ contents (foldl do_write d ops) = foldl map_write (contents d) ops.
Proof.
  revert d. induction ops as [|op ops IH]; intros d Hd; simpl; [done|].
  assert (db_ok (do_write d op) ∧ contents (do_write d op) = map_write (contents d) op) as [H1 <-].
  { destruct op; [by apply law_Set|by apply law_Delete]. }
  by apply IH.
Qed.

(** The writes as the database below sees them. *)
Definition prefix_op (p : bytes) (op : operation) : operation :=
  match op with opSet k v => opSet (p ++ k) v | opDelete k => opDelete (p ++ k) end.

Lemma prefix_writes `{DB D} ops (pdb : prefixDB D) :
  foldl do_write pdb ops = mkPrefixDB (pdb_prefix pdb) (foldl do_write (pdb_db pdb) (prefix_op (pdb_prefix pdb) <$> ops)).
Proof.
  revert pdb. induction ops as [|op ops IH]; intros [p d]; [done|]. simpl foldl. rewrite IH. by destruct op.
Qed.

Lemma map_writes_ne ops m k :
  (∀ op, op ∈ ops → match op with opSet k' _ | opDelete k' => k ≠ k' end) → foldl map_write m ops !! k = m !! k.
Proof.
  revert m. induction ops as [|op ops IH]; intros m Hk; [done|]. simpl.
  rewrite IH by (intros; apply Hk; by right). specialize (Hk op ltac:(by left)).
  destruct op; simpl; [by rewrite lookup_insert_ne|by rewrite lookup_delete_ne].
Qed.

Lemma iterate_collect `{DBLaws D} (d : D) s e :
  db_ok d →
  (∃ i l, db_Iterator d s e = Ret i ∧ collect d i = Ret ((λ kv, (kv.1, Some kv.2)) <$> l) ∧ in_domain (contents d) s e l) ∧
  (∃ i l, db_ReverseIterator d s e = Ret i ∧ collect d i = Ret ((λ kv, (kv.1, Some kv.2)) <$> reverse l) ∧
     in_domain (contents d) s e l).
Proof.
  intros Hd. split.
  - destruct (law_Iterator d s e Hd) as (i & l & Hi & Ha & Hl). exists i, l. split_and!; [done|by apply collect_ok|apply Hl..].
  - destruct (law_ReverseIterator d s e Hd) as (i & l & Hi & Ha & Hl). exists i, l.
    split_and!; [done|by apply collect_ok|apply Hl..].
Qed.

(** C34. Under a prefix whose last byte is not 0xFF, a prefixed database is a database of its own inside the one it shares.
    After any writes through it, its [Get] and [Has] read a map written the same way, its iterators visit exactly the
    entries of that map with keys in the range, in ascending and in descending order of keys, and [Get] of the
    database below gives what it gave before for every key without the prefix. *)
Theorem prefix_db_isolated `{DBLaws D} (d : D) p ops :
  db_ok d → plain_prefix p →
  let pdb := foldl do_write (NewPrefixDB d p) ops in
  let m := foldl map_write (under p (contents d)) ops in
  (∀ k, db_Get pdb k = m !! k ∧ db_Has pdb k = bool_decide (is_Some (m !! k))) ∧
  (∀ s e, (∃ i l, db_Iterator pdb s e = Ret i ∧ collect pdb i = Ret ((λ kv, (kv.1, Some kv.2)) <$> l) ∧ in_domain m s e l) ∧
     (∃ i l, db_ReverseIterator pdb s e = Ret i ∧ collect pdb i = Ret ((λ kv, (kv.1, Some kv.2)) <$> reverse l) ∧
        in_domain m s e l)) ∧
  (∀ k, HasPrefix k p = false → db_Get (pdb_db pdb) k = db_Get d k).
Proof.
  intros Hd Hp pdb m. destruct (writes_ok ops (NewPrefixDB d p)) as [Hok Hc]; [done|].
  change (contents pdb = m) in Hc. split_and!.
  - intros k. rewrite <-Hc. split; [by apply law_Get|by apply law_Has].
  - intros s e. rewrite <-Hc. by apply iterate_collect.
  - intros k Hk. unfold pdb. rewrite prefix_writes. simpl.
    destruct (writes_ok (prefix_op p <$> ops) d Hd) as [H1 H2].
    rewrite !law_Get, H2 by done. apply map_writes_ne.
    intros op (op' & -> & _)%list_elem_of_fmap. apply not_true_iff_false in Hk. rewrite HasPrefix_spec in Hk.
    destruct op'; intros ->; apply Hk; eauto.
Qed.

(** ** A small database *)

Definition demo_db : MemDB :=
  MemDB_Set (MemDB_Set (MemDB_Set NewMemDB [x01; xff; x07] [x0a]) [x02] [x0b]) [x01] [x0c].

Lemma demo_prefix : plain_prefix [x01].
Proof. exists [], x01. by vm_compute. Qed.

Lemma iterate_prefix_exact_witness :
  plain_prefix [x01] ∧ ∃ i l, IteratePrefix demo_db [x01] = Ret i ∧
    collect demo_db i = Ret ((λ kv, (kv.1, Some kv.2)) <$> l) ∧ StronglySorted bytes_lt l.*1 ∧
    ∀ k v, (k, v) ∈ l ↔ contents demo_db !! k = Some v ∧ HasPrefix k [x01] = true.
Proof. split; [apply demo_prefix|]. apply (iterate_prefix_exact demo_db [x01]); [done|right; apply demo_prefix]. Defined.

Lemma prefix_db_isolated_witness :
  let pdb := foldl do_write (NewPrefixDB demo_db [x01]) [opSet [x05] [x06]; opDelete []] in
  let m := foldl map_write (under [x01] (contents demo_db)) [opSet [x05] [x06]; opDelete []] in
  (∀ k, db_Get pdb k = m !! k ∧ db_Has pdb k = bool_decide (is_Some (m !! k))) ∧
  (∀ k, HasPrefix k [x01] = false → db_Get (pdb_db pdb) k = db_Get demo_db k).
Proof.
  destruct (prefix_db_isolated demo_db [x01] [opSet [x05] [x06]; opDelete []]) as (H1 & _ & H3);
    [done|apply demo_prefix|]. split; [exact H1|exact H3].
Defined.

(** When the prefix ends in 0xFF, [cpIncr] carries and the range also holds keys without the prefix: a scan of the
    keys under 01FF also visits the key 02. A prefixed database stops at such a key; going backwards it starts at it, so that
    its reverse iterator is empty although the database has an entry. *)
Theorem prefix_range_overshoots :
  (∃ i, IteratePrefix demo_db [x01; xff] = Ret i ∧
    collect demo_db i = Ret [([x01; xff; x07], Some [x0a]); ([x02], Some [x0b])]) ∧
  (let pdb := NewPrefixDB demo_db [x01; xff] in
   pdb_Has pdb [x07] = true ∧
   (∃ i, pdb_Iterator pdb [] None = Ret i ∧ collect pdb i = Ret [([x07], Some [x0a])]) ∧
   ∃ i, pdb_ReverseIterator pdb [] None = Ret i ∧ collect pdb i = Ret []).
Proof.
  split; [|split_and!; [done| |]]; (eexists; split; [vm_compute; reflexivity|vm_compute; reflexivity]).
Qed.

(** An empty prefix has no range: every scan of a database prefixed with nothing panics. *)
Theorem empty_prefix_panics (d : MemDB) s : pdb_Iterator (NewPrefixDB d []) s None = Panic.
Proof. reflexivity. Qed.
