(* ===== verification/Evidence.v ===== *)
(** * The evidence pool (evidence/store.go, evidence/pool.go, evidence/reactor.go)

    Evidence of double signing is verified, kept in a database under three kinds of keys (all evidence, evidence to
    broadcast, evidence to propose) and in a concurrent list for the reactor. The database is any type with the
    interface of [DB]; the amino encoding of an [EvidenceInfo] and the hash are parameters.

    A nil evidence of an [EvidenceInfo] is [None]. The message of a peer comes decoded; the peer's consensus state
    is its height, if it has one. *)

From Stdlib Require Import ZArith Lia Bool Strings.Byte String.
From stdpp Require Import base list gmap sets sorting.
From S2P Require Import Prelude KeyPath Types ValidatorSet Block StateStore CList Account DB.
Local Open Scope Z_scope.

(** ** evidence/store.go *)

Record EvidenceInfo := mkEvidenceInfo {
  ei_Committed : bool;
  ei_Priority : Z;
  ei_Evidence : option DuplicateVoteEvidence
}.

(** [cdc] on an [EvidenceInfo]. *)
Class InfoCodec := { encInfo : EvidenceInfo → bytes; decInfo : bytes → option EvidenceInfo }.

Class InfoCodecLaws `{InfoCodec} : Prop := {
  decInfo_encInfo : ∀ ei, decInfo (encInfo ei) = Some ei;
  encInfo_nonempty : ∀ ei, encInfo ei ≠ []
}.

Definition baseKeyLookup : bytes := str "evidence-lookup".
Definition baseKeyOutqueue : bytes := str "evidence-outqueue".
Definition baseKeyPending : bytes := str "evidence-pending".

(** [w] hexadecimal digits of a number. *)
Fixpoint hexw (w : nat) (n : Z) : bytes :=
  match w with O => [] | S w => hex_digit true (n / 16 ^ Z.of_nat w mod 16) :: hexw w n end.

(** [fmt.Sprintf("%0.16X", h)]: sixteen digits, after a sign for a negative number. *)
Definition bE (h : Z) : bytes := if h <? 0 then x2d :: hexw 16 (- h) else hexw 16 h.

Definition keyLookupFromHeightAndHash (height : Z) (hash : bytes) : bytes :=
  baseKeyLookup ++ slash :: bE height ++ slash :: hex_encode true hash.

Section store.
Context (Sum : bytes → bytes) `{BlockCodec} `{InfoCodec} {D : Type} `{DB D}.

Definition DVE_Hash (dve : DuplicateVoteEvidence) : bytes := Sum (encEvidence dve).

Definition keyLookup (evidence : DuplicateVoteEvidence) : outcome bytes :=
  h ← DVE_Height evidence; Ret (keyLookupFromHeightAndHash h (DVE_Hash evidence)).

Definition keyOutqueue (evidence : DuplicateVoteEvidence) (priority : Z) : outcome bytes :=
  h ← DVE_Height evidence;
  Ret (baseKeyOutqueue ++ slash :: bE priority ++ slash :: bE h ++ slash :: hex_encode true (DVE_Hash evidence)).

Definition keyPending (evidence : DuplicateVoteEvidence) : outcome bytes :=
  h ← DVE_Height evidence;
  Ret (baseKeyPending ++ slash :: bE h ++ slash :: hex_encode true (DVE_Hash evidence)).

(** The body of the loop: [count] and the evidence so far. *)
Definition list_body (maxNum : Z) (k : bytes) (val : option bytes) (st : Z * list (option DuplicateVoteEvidence)) :
    outcome ((Z * list (option DuplicateVoteEvidence)) * bool) :=
  let '(count, evidence) := st in
  if count =? maxNum then Ret (st, false)
  else
    ei ← or_panic (decInfo (default [] val));
    Ret ((wrap64 (count + 1), evidence ++ [ei_Evidence ei]), true).

Definition listEvidence (store : D) (prefixKey : bytes) (maxNum : Z) : outcome (list (option DuplicateVoteEvidence)) :=
  iter ← IteratePrefix store prefixKey;
  r ← for_itr (list_body maxNum) store iter (0, []);
  Ret r.2.

Definition PriorityEvidence (store : D) : outcome (list (option DuplicateVoteEvidence)) :=
  l ← listEvidence store baseKeyOutqueue (-1); Ret (reverse l).

Definition PendingEvidence (store : D) (maxNum : Z) : outcome (list (option DuplicateVoteEvidence)) :=
  listEvidence store baseKeyPending maxNum.

Definition no_info : EvidenceInfo := mkEvidenceInfo false 0 None.

Definition GetEvidenceInfo (store : D) (height : Z) (hash : bytes) : outcome EvidenceInfo :=
  let val := default [] (db_Get store (keyLookupFromHeightAndHash height hash)) in
  if zlen val =? 0 then Ret no_info else or_panic (decInfo val).

Definition getEvidenceInfo (store : D) (evidence : DuplicateVoteEvidence) : outcome EvidenceInfo :=
  h ← DVE_Height evidence; GetEvidenceInfo store h (DVE_Hash evidence).

Definition AddNewEvidence (store : D) (evidence : DuplicateVoteEvidence) (priority : Z) : outcome (D * bool) :=
  ei ← getEvidenceInfo store evidence;
  match ei_Evidence ei with
  | Some _ => Ret (store, false)
  | None =>
      let eiBytes := encInfo (mkEvidenceInfo false priority (Some evidence)) in
      key ← keyOutqueue evidence priority;
      let store := db_Set store key eiBytes in
      key ← keyPending evidence;
      let store := db_Set store key eiBytes in
      key ← keyLookup evidence;
      Ret (db_Set store key eiBytes, true)
  end.

Definition MarkEvidenceAsBroadcasted (store : D) (evidence : DuplicateVoteEvidence) : outcome D :=
  ei ← getEvidenceInfo store evidence;
  match ei_Evidence ei with
  | None => Ret store
  | Some _ => key ← keyOutqueue evidence (ei_Priority ei); Ret (db_Delete store key)
  end.

Definition MarkEvidenceAsCommitted (store : D) (evidence : DuplicateVoteEvidence) : outcome D :=
  store ← MarkEvidenceAsBroadcasted store evidence;
  pendingKey ← keyPending evidence;
  let store := db_Delete store pendingKey in
  lookupKey ← keyLookup evidence;
  Ret (db_Set store lookupKey (encInfo (mkEvidenceInfo true 0 (Some evidence)))).
End store.

(** ** evidence/pool.go *)

Record EvidencePool (D : Type) := mkEvidencePool {
  ep_store : D;
  ep_list : CList DuplicateVoteEvidence;
  ep_stateDB : StateDB;
  ep_state : State
}.
Arguments mkEvidencePool {D}.
Arguments ep_store {D}.
Arguments ep_list {D}.
Arguments ep_stateDB {D}.
Arguments ep_state {D}.

Section pool.
Context (Sum : bytes → bytes) `{BlockCodec} `{InfoCodec} `{Codec} `{Crypto} {D : Type} `{DB D}.

(** The state of a database without one is the zero value; it is an argument here. *)
Definition NewEvidencePool (zero : State) (stateDB : StateDB) (evidenceDB : D) : EvidencePool D :=
  mkEvidencePool evidenceDB New stateDB (default zero (LoadState stateDB)).

Definition EvidenceFront (p : EvidencePool D) : option addr := Front (ep_list p).

Definition AddEvidence (p : EvidencePool D) (evidence : DuplicateVoteEvidence) :
    outcome (EvidencePool D * option verify_evidence_error) :=
  err ← VerifyEvidence (ep_stateDB p) (ep_state p) evidence;
  match err with
  | Some e => Ret (p, Some e)
  | None =>
      h ← DVE_Height evidence;
      valset ← LoadValidators (ep_stateDB p) h;
      valset ← or_panic valset;
      address ← DVE_Address evidence;
      val ← or_panic (GetByAddress valset address).2;
      '(store, added) ← AddNewEvidence Sum (ep_store p) evidence (val_VotingPower val);
      if negb added then Ret (mkEvidencePool store (ep_list p) (ep_stateDB p) (ep_state p), None)
      else
        '(_, l) ← PushBack (ep_list p) evidence;
        Ret (mkEvidencePool store l (ep_stateDB p) (ep_state p), None)
  end.

Definition evMapKey (ev : DuplicateVoteEvidence) : bytes := DVE_Hash Sum ev.

Definition remove_body (height maxAge : Z) (blockEvidenceMap : gset bytes) (e : addr) (ev : DuplicateVoteEvidence)
    (l : CList DuplicateVoteEvidence) : outcome (CList DuplicateVoteEvidence * option unit) :=
  h ← DVE_Height ev;
  if bool_decide (evMapKey ev ∈ blockEvidenceMap) || (h <? wrap64 (height - maxAge)) then
    '(_, l) ← Remove l e; l ← DetachPrev l e; Ret (l, None)
  else Ret (l, None).

Definition removeEvidence (l : CList DuplicateVoteEvidence) (height maxAge : Z) (blockEvidenceMap : gset bytes) :
    outcome (CList DuplicateVoteEvidence) :=
  r ← for_list id (remove_body height maxAge blockEvidenceMap) l; Ret r.1.

Definition mark_body (st : D * gset bytes) (ev : DuplicateVoteEvidence) : outcome (D * gset bytes) :=
  store ← MarkEvidenceAsCommitted Sum st.1 ev; Ret (store, {[evMapKey ev]} ∪ st.2).

Definition pool_MarkEvidenceAsCommitted (p : EvidencePool D) (height : Z) (evidence : list DuplicateVoteEvidence) :
    outcome (EvidencePool D) :=
  '(store, blockEvidenceMap) ← foldM mark_body (ep_store p, ∅) evidence;
  l ← removeEvidence (ep_list p) height (cp_MaxAge (st_ConsensusParams (ep_state p))) blockEvidenceMap;
  Ret (mkEvidencePool store l (ep_stateDB p) (ep_state p)).

Definition pool_Update (p : EvidencePool D) (block : Block) (state : State) : outcome (EvidencePool D) :=
  if negb (st_LastBlockHeight state =? hd_Height (blk_Header block)) then Panic
  else
    pool_MarkEvidenceAsCommitted (mkEvidencePool (ep_store p) (ep_list p) (ep_stateDB p) state)
      (hd_Height (blk_Header block)) (blk_Evidence block).

Definition IsCommitted (p : EvidencePool D) (evidence : DuplicateVoteEvidence) : outcome bool :=
  ei ← getEvidenceInfo Sum (ep_store p) evidence;
  Ret (bool_decide (is_Some (ei_Evidence ei)) && ei_Committed ei).

(** ** evidence/reactor.go *)

Fixpoint EvidenceList_ValidateBasic (evs : list DuplicateVoteEvidence) : outcome (option evidence_error) :=
  match evs with
  | [] => Ret None
  | ev :: evs =>
      err ← DVE_ValidateBasic ev;
      match err with Some e => Ret (Some e) | None => EvidenceList_ValidateBasic evs end
  end.

(** The second result says that the peer is stopped; the loop goes on after bad evidence. *)
Fixpoint add_list (p : EvidencePool D) (stop : bool) (evs : list DuplicateVoteEvidence) :
    outcome (EvidencePool D * bool) :=
  match evs with
  | [] => Ret (p, stop)
  | ev :: evs =>
      '(p, err) ← AddEvidence p ev;
      add_list p (match err with Some _ => true | None => stop end) evs
  end.

Definition reactor_Receive (p : EvidencePool D) (msg : option (list DuplicateVoteEvidence)) :
    outcome (EvidencePool D * bool) :=
  match msg with
  | None => Ret (p, true)
  | Some evs =>
      err ← EvidenceList_ValidateBasic evs;
      match err with Some _ => Ret (p, true) | None => add_list p false evs end
  end.

Definition checkSendEvidenceMessage (p : EvidencePool D) (peerHeight : option Z) (ev : DuplicateVoteEvidence) :
    outcome (option (list DuplicateVoteEvidence) * bool) :=
  evHeight ← DVE_Height ev;
  match peerHeight with
  | None => Ret (None, true)
  | Some peerHeight =>
      if peerHeight <? evHeight then Ret (None, true)
      else if wrap64 (evHeight + cp_MaxAge (st_ConsensusParams (ep_state p))) <? peerHeight then Ret (None, false)
      else Ret (Some [ev], false)
  end.
End pool.

(** ** Order of the keys *)

Definition then_ (c d : comparison) : comparison := match c with Eq => d | _ => c end.

Lemma then_eq c d : then_ c d = Eq ↔ c = Eq ∧ d = Eq.
Proof. destruct c; naive_solver. Qed.

Definition nibbles_ok : bool :=
  forallb (λ a, forallb (λ b, bool_decide
    ((byte_Z (hex_digit true (Z.of_nat a)) ?= byte_Z (hex_digit true (Z.of_nat b))) = (Z.of_nat a ?= Z.of_nat b)))
    (seq 0 16)) (seq 0 16).

Lemma hex_digit_compare a b :
  0 ≤ a < 16 → 0 ≤ b < 16 → (byte_Z (hex_digit true a) ?= byte_Z (hex_digit true b)) = (a ?= b).
Proof.
  intros Ha Hb. assert (H : nibbles_ok = true) by (vm_compute; reflexivity).
  unfold nibbles_ok in H. rewrite forallb_forall in H.
  specialize (H (Z.to_nat a) ltac:(apply in_seq; lia)). rewrite forallb_forall in H.
  specialize (H (Z.to_nat b) ltac:(apply in_seq; lia)). apply bool_decide_eq_true_1 in H.
  by rewrite !Z2Nat.id in H by lia.
Qed.

(** Numbers of the same width compare as their digits do. *)
Lemma hexw_compare w a b x y :
  bytes_compare (hexw w a ++ x) (hexw w b ++ y) =
  then_ (a mod 16 ^ Z.of_nat w ?= b mod 16 ^ Z.of_nat w) (bytes_compare x y).
Proof.
  induction w as [|w IH].
  { simpl. rewrite !Z.mod_1_r. done. }
  cbn [hexw app bytes_compare]. rewrite hex_digit_compare by (apply Z.mod_pos_bound; lia).
  rewrite IH. clear IH. set (P := 16 ^ Z.of_nat w).
  assert (HP : 0 < P) by (apply Z.pow_pos_nonneg; lia).
  replace (16 ^ Z.of_nat (S w)) with (P * 16) by (unfold P; rewrite Nat2Z.inj_succ, Z.pow_succ_r by lia; lia).
  rewrite !Z.rem_mul_r by lia.
  pose proof (Z.mod_pos_bound a P HP). pose proof (Z.mod_pos_bound b P HP).
  generalize dependent (a mod P). generalize dependent (b mod P).
  generalize (a / P mod 16). generalize (b / P mod 16). intros hb ha rb Hrb ra Hra.
  destruct (Z.compare_spec ha hb) as [->|?|?]; simpl.
  - destruct (Z.compare_spec ra rb), (Z.compare_spec (ra + P * hb) (rb + P * hb)); try done; lia.
  - destruct (Z.compare_spec (ra + P * ha) (rb + P * hb)); [nia|done|nia].
  - destruct (Z.compare_spec (ra + P * ha) (rb + P * hb)); [nia|nia|done].
Qed.

Lemma hex_byte_hexw b : hex_byte true b = hexw 2 (byte_Z b).
Proof.
  unfold hex_byte. cbn [hexw]. rewrite Z.div_1_r. repeat f_equal.
  change (16 ^ Z.of_nat 1) with 16. rewrite Z.mod_small; [done|].
  pose proof (byte_le_255 b). unfold byte_Z in *. split; [apply Z.div_pos; lia|].
  apply Z.div_lt_upper_bound; lia.
Qed.

Lemma hex_encode_compare a b : bytes_compare (hex_encode true a) (hex_encode true b) = bytes_compare a b.
Proof.
  revert b. induction a as [|x a IH]; intros [|y b]; [done..|].
  change (hex_encode true (x :: a)) with (hex_byte true x ++ hex_encode true a).
  change (hex_encode true (y :: b)) with (hex_byte true y ++ hex_encode true b).
  rewrite !hex_byte_hexw, hexw_compare, IH. simpl bytes_compare.
  change (16 ^ Z.of_nat 2) with 256. pose proof (byte_le_255 x). pose proof (byte_le_255 y).
  unfold byte_Z in *. rewrite !Z.mod_small by lia. by destruct (_ ?= _).
Qed.

(** Heights and priorities. *)
Definition int_ok (h : Z) : Prop := 0 ≤ h ≤ MaxInt64.

Lemma bE_compare a b x y :
  int_ok a → int_ok b → bytes_compare (bE a ++ x) (bE b ++ y) = then_ (a ?= b) (bytes_compare x y).
Proof.
  intros Ha Hb. unfold int_ok, MaxInt64 in *. unfold bE.
  destruct (Z.ltb_spec a 0), (Z.ltb_spec b 0); try lia.
  rewrite hexw_compare. change (16 ^ Z.of_nat 16) with 18446744073709551616. by rewrite !Z.mod_small by lia.
Qed.

(** The rest of a key: height and hash. *)
Definition hkey (id : Z * bytes) : bytes := bE id.1 ++ slash :: hex_encode true id.2.

Definition id_compare (a b : Z * bytes) : comparison := then_ (a.1 ?= b.1) (bytes_compare a.2 b.2).

Lemma hkey_compare a b : int_ok a.1 → int_ok b.1 → bytes_compare (hkey a) (hkey b) = id_compare a b.
Proof.
  intros Ha Hb. unfold hkey. rewrite bE_compare by done. cbn [bytes_compare].
  rewrite Z.compare_refl. by rewrite hex_encode_compare.
Qed.

Lemma id_compare_eq a b : id_compare a b = Eq ↔ a = b.
Proof.
  destruct a as [h s], b as [h' s']. unfold id_compare. simpl.
  rewrite then_eq, Z.compare_eq_iff, bytes_compare_eq. naive_solver.
Qed.

Definition lkey (id : Z * bytes) : bytes := baseKeyLookup ++ slash :: hkey id.
Definition pkey (id : Z * bytes) : bytes := baseKeyPending ++ slash :: hkey id.
Definition okey (prio : Z) (id : Z * bytes) : bytes := baseKeyOutqueue ++ slash :: bE prio ++ slash :: hkey id.

Lemma cons_compare x a b : bytes_compare (x :: a) (x :: b) = bytes_compare a b.
Proof. simpl. by rewrite Z.compare_refl. Qed.

Lemma pkey_compare a b : int_ok a.1 → int_ok b.1 → bytes_compare (pkey a) (pkey b) = id_compare a b.
Proof. intros. unfold pkey. rewrite compare_app, cons_compare. by apply hkey_compare. Qed.

Lemma okey_compare p q a b :
  int_ok p → int_ok q → int_ok a.1 → int_ok b.1 →
  bytes_compare (okey p a) (okey q b) = then_ (p ?= q) (id_compare a b).
Proof.
  intros. unfold okey. rewrite compare_app, cons_compare, bE_compare, cons_compare by done. by rewrite hkey_compare.
Qed.

Lemma lkey_inj a b : int_ok a.1 → int_ok b.1 → lkey a = lkey b → a = b.
Proof.
  intros Ha Hb E%bytes_compare_eq. unfold lkey in E. rewrite compare_app, cons_compare, hkey_compare in E by done.
  by apply id_compare_eq.
Qed.

Lemma pkey_inj a b : int_ok a.1 → int_ok b.1 → pkey a = pkey b → a = b.
Proof. intros Ha Hb E%bytes_compare_eq. rewrite pkey_compare in E by done. by apply id_compare_eq. Qed.

Lemma okey_inj p q a b :
  int_ok p → int_ok q → int_ok a.1 → int_ok b.1 → okey p a = okey q b → p = q ∧ a = b.
Proof.
  intros ? ? ? ? E%bytes_compare_eq. rewrite okey_compare, then_eq, Z.compare_eq_iff, id_compare_eq in E by done. done.
Qed.

(** Keys of different kinds differ. *)
Lemma pkey_lkey a b : pkey a ≠ lkey b.
Proof. done. Qed.
Lemma okey_lkey p a b : okey p a ≠ lkey b.
Proof. done. Qed.

Lemma pending_plain : plain_prefix baseKeyPending.
Proof. exists (str "evidence-pendin"), x67. by vm_compute. Qed.

Lemma outqueue_plain : plain_prefix baseKeyOutqueue.
Proof. exists (str "evidence-outqueu"), x65. by vm_compute. Qed.

(** ** The store refines a table of evidence

    One entry for each height and hash: the evidence, its priority, whether it is committed and whether it waits for
    broadcast. *)
Record entry := mkEntry { en_ev : DuplicateVoteEvidence; en_prio : Z; en_committed : bool; en_queued : bool }.

Notation table := (gmap (Z * bytes) entry).

Definition table_add (A : table) (id : Z * bytes) (ev : DuplicateVoteEvidence) (prio : Z) : table * bool :=
  match A !! id with
  | Some _ => (A, false)
  | None => (<[id := mkEntry ev prio false true]> A, true)
  end.

Definition table_broadcast (A : table) (id : Z * bytes) : table :=
  alter (λ s, mkEntry (en_ev s) (en_prio s) (en_committed s) false) id A.

Definition table_commit (A : table) (id : Z * bytes) (ev : DuplicateVoteEvidence) : table :=
  <[id := mkEntry ev (default 0 (en_prio <$> A !! id)) true false]> A.

Definition entry_info (s : entry) : EvidenceInfo :=
  mkEvidenceInfo (en_committed s) (if en_committed s then 0 else en_prio s) (Some (en_ev s)).

Definition pending (s : entry) : Prop := en_committed s = false.
Definition queued (s : entry) : Prop := en_queued s = true.

Section refinement.
Context (Sum : bytes → bytes) `{BlockCodec} `{InfoCodecLaws}.

Definition id_of (ev : DuplicateVoteEvidence) (id : Z * bytes) : Prop :=
  DVE_Height ev = Ret id.1 ∧ DVE_Hash Sum ev = id.2 ∧ int_ok id.1.

Definition entry_ok (id : Z * bytes) (s : entry) : Prop :=
  id_of (en_ev s) id ∧ int_ok (en_prio s) ∧ (en_committed s = true → en_queued s = false).

(** What the database holds under the three kinds of keys. *)
Record holds (m : gmap bytes bytes) (A : table) : Prop := mkHolds {
  holds_ok : map_Forall entry_ok A;
  holds_lookup : ∀ id, int_ok id.1 → m !! lkey id = (λ s, encInfo (entry_info s)) <$> A !! id;
  holds_pending : ∀ k v, HasPrefix k baseKeyPending = true →
    m !! k = Some v ↔ ∃ id s, A !! id = Some s ∧ pending s ∧ k = pkey id ∧
      v = encInfo (mkEvidenceInfo false (en_prio s) (Some (en_ev s)));
  holds_queued : ∀ k v, HasPrefix k baseKeyOutqueue = true →
    m !! k = Some v ↔ ∃ id s, A !! id = Some s ∧ queued s ∧ k = okey (en_prio s) id ∧
      v = encInfo (mkEvidenceInfo false (en_prio s) (Some (en_ev s)))
}.

Lemma pkey_prefix id : HasPrefix (pkey id) baseKeyPending = true.
Proof. apply HasPrefix_spec. eauto. Qed.
Lemma okey_prefix p id : HasPrefix (okey p id) baseKeyOutqueue = true.
Proof. apply HasPrefix_spec. eauto. Qed.

Lemma holds_empty : holds ∅ ∅.
Proof.
  split; [done|intros id _; by rewrite !lookup_empty|..];
    (intros k v _; rewrite lookup_empty; split; [done|]; intros (id & s & E & _); by rewrite lookup_empty in E).
Qed.

(** Keys with one prefix are not keys of another kind. *)
Lemma pending_other k id p : HasPrefix k baseKeyPending = true → k ≠ lkey id ∧ k ≠ okey p id.
Proof. rewrite HasPrefix_spec. intros [c ->]. done. Qed.
Lemma queued_other k id : HasPrefix k baseKeyOutqueue = true → k ≠ lkey id ∧ k ≠ pkey id.
Proof. rewrite HasPrefix_spec. intros [c ->]. done. Qed.

Lemma holds_add m A id ev prio :
  holds m A → A !! id = None → id_of ev id → int_ok prio →
  let i := encInfo (mkEvidenceInfo false prio (Some ev)) in
  holds (<[lkey id := i]> (<[pkey id := i]> (<[okey prio id := i]> m))) (<[id := mkEntry ev prio false true]> A).
Proof.
  intros [Hok Hl Hp Hq] Hid Hev Hprio i. assert (Hint : int_ok id.1) by apply Hev. split.
  - apply map_Forall_insert_2; [|done]. by split_and!.
  - intros id' Hid'. destruct (decide (id' = id)) as [->|Hne].
    + by rewrite !lookup_insert_eq.
    + rewrite lookup_insert_ne by (intros E; by apply lkey_inj in E).
      rewrite (lookup_insert_ne _ (pkey id)), (lookup_insert_ne _ (okey prio id)), lookup_insert_ne;
        [by apply Hl|done|apply okey_lkey|apply pkey_lkey].
  - intros k v Hk. destruct (pending_other k id prio Hk) as [N1 N2].
    rewrite lookup_insert_ne by congruence. destruct (decide (k = pkey id)) as [->|Hne].
    + rewrite lookup_insert_eq. split.
      * intros [= <-]. exists id, (mkEntry ev prio false true). by rewrite lookup_insert_eq.
      * intros (id' & s & Hs & Hpe & E & ->). destruct (decide (id' = id)) as [->|Hne'].
        { rewrite lookup_insert_eq in Hs. by injection Hs as <-. }
        rewrite lookup_insert_ne in Hs by done. apply pkey_inj in E; [by subst|done|].
        by destruct (Hok _ _ Hs) as [(_ & _ & ?) _].
    + rewrite !lookup_insert_ne by congruence. rewrite (Hp k v Hk). split; intros (id' & s & Hs & Hpe & -> & ->).
      * exists id', s. rewrite lookup_insert_ne; [done|]. intros ->. congruence.
      * exists id', s. rewrite lookup_insert_ne in Hs; [done|]. intros ->. congruence.
  - intros k v Hk. destruct (queued_other k id Hk) as [N1 N2].
    rewrite !(lookup_insert_ne _ _ k) by congruence. destruct (decide (k = okey prio id)) as [->|Hne].
    + rewrite lookup_insert_eq. split.
      * intros [= <-]. exists id, (mkEntry ev prio false true). by rewrite lookup_insert_eq.
      * intros (id' & s & Hs & Hpe & E & ->). destruct (decide (id' = id)) as [->|Hne'].
        { rewrite lookup_insert_eq in Hs. by injection Hs as <-. }
        rewrite lookup_insert_ne in Hs by done. destruct (Hok _ _ Hs) as [(_ & _ & ?) [? _]].
        apply okey_inj in E as [_ E]; [by subst|done..].
    + rewrite lookup_insert_ne by congruence. rewrite (Hq k v Hk). split; intros (id' & s & Hs & Hpe & -> & ->).
      * exists id', s. rewrite lookup_insert_ne; [done|]. intros ->. congruence.
      * exists id', s. destruct (decide (id' = id)) as [->|?].
        { rewrite lookup_insert_eq in Hs. injection Hs as <-. done. }
        by rewrite lookup_insert_ne in Hs.
Qed.
Lemma entry_prio_ok id s : entry_ok id s → int_ok (ei_Priority (entry_info s)).
Proof. intros (_ & Hs & _). unfold entry_info. simpl. by destruct (en_committed s). Qed.

Lemma holds_broadcast m A id s :
  holds m A → A !! id = Some s →
  holds (delete (okey (ei_Priority (entry_info s)) id) m) (table_broadcast A id).
Proof.
  intros [Hok Hl Hp Hq] Hid. pose proof (Hok _ _ Hid) as Hs. pose proof (entry_prio_ok _ _ Hs) as Hprio.
  assert (Hint : int_ok id.1) by apply Hs. unfold table_broadcast. split.
  - intros id' s'. destruct (decide (id' = id)) as [->|Hne].
    + rewrite lookup_alter_eq, Hid. intros [= <-]. by destruct Hs as (? & ? & _).
    + rewrite lookup_alter_ne by done. apply Hok.
  - intros id' Hid'. rewrite lookup_delete_ne by apply okey_lkey. rewrite Hl by done.
    destruct (decide (id' = id)) as [->|Hne]; [by rewrite lookup_alter_eq, Hid|by rewrite lookup_alter_ne].
  - intros k v Hk. rewrite lookup_delete_ne by (apply not_eq_sym, pending_other; done). rewrite (Hp k v Hk).
    split; intros (id' & s' & Hs' & Hpe & -> & ->).
    + destruct (decide (id' = id)) as [->|Hne].
      * exists id, (mkEntry (en_ev s') (en_prio s') (en_committed s') false). by rewrite lookup_alter_eq, Hs'.
      * exists id', s'. by rewrite lookup_alter_ne.
    + destruct (decide (id' = id)) as [->|Hne].
      * exists id, s. rewrite lookup_alter_eq, Hid in Hs'. by injection Hs' as <-.
      * exists id', s'. by rewrite lookup_alter_ne in Hs'.
  - intros k v Hk. destruct (decide (k = okey (ei_Priority (entry_info s)) id)) as [->|Hne].
    + rewrite lookup_delete_eq. split; [done|]. intros (id' & s' & Hs' & Hqu & E & _). exfalso.
      destruct (decide (id' = id)) as [->|Hne']; [rewrite lookup_alter_eq, Hid in Hs'; by injection Hs' as <-|].
      rewrite lookup_alter_ne in Hs' by done. destruct (Hok _ _ Hs') as ((_ & _ & ?) & ? & _).
      by apply okey_inj in E as [_ <-].
    + rewrite lookup_delete_ne by done. rewrite (Hq k v Hk). split; intros (id' & s' & Hs' & Hqu & -> & ->).
      * destruct (decide (id' = id)) as [->|Hne']; [|exists id', s'; by rewrite lookup_alter_ne].
        rewrite Hid in Hs'. injection Hs' as <-. destruct Hne. unfold entry_info. simpl.
        destruct (en_committed s) eqn:E; [|done]. destruct Hs as (_ & _ & Hc). unfold queued in Hqu. by rewrite Hc in Hqu.
      * destruct (decide (id' = id)) as [->|Hne']; [rewrite lookup_alter_eq, Hid in Hs'; by injection Hs' as <-|].
        exists id', s'. by rewrite lookup_alter_ne in Hs'.
Qed.

Lemma holds_commit m A id ev :
  holds m A → (∀ s, A !! id = Some s → en_queued s = false) → id_of ev id →
  holds (<[lkey id := encInfo (mkEvidenceInfo true 0 (Some ev))]> (delete (pkey id) m)) (table_commit A id ev).
Proof.
  intros [Hok Hl Hp Hq] Hnq Hev. assert (Hint : int_ok id.1) by apply Hev. unfold table_commit. split.
  - apply map_Forall_insert_2; [|done]. split_and!; [done| |done]. simpl.
    destruct (A !! id) as [s|] eqn:E; [by destruct (Hok _ _ E) as (_ & ? & _)|done].
  - intros id' Hid'. destruct (decide (id' = id)) as [->|Hne]; [by rewrite !lookup_insert_eq|].
    rewrite lookup_insert_ne by (intros E; by apply lkey_inj in E).
    rewrite lookup_delete_ne by apply pkey_lkey. by rewrite lookup_insert_ne, Hl.
  - intros k v Hk. rewrite lookup_insert_ne by (apply not_eq_sym, (pending_other k id 0 Hk)).
    destruct (decide (k = pkey id)) as [->|Hne].
    + rewrite lookup_delete_eq. split; [done|]. intros (id' & s & Hs & Hpe & E & _). exfalso.
      destruct (decide (id' = id)) as [->|Hne']; [rewrite lookup_insert_eq in Hs; by injection Hs as <-|].
      rewrite lookup_insert_ne in Hs by done. destruct (Hok _ _ Hs) as ((_ & _ & ?) & _).
      by apply pkey_inj in E.
    + rewrite lookup_delete_ne by done. rewrite (Hp k v Hk). split; intros (id' & s & Hs & Hpe & -> & ->).
      * exists id', s. rewrite lookup_insert_ne; [done|]. by intros ->.
      * destruct (decide (id' = id)) as [->|Hne']; [done|]. exists id', s. by rewrite lookup_insert_ne in Hs.
  - intros k v Hk. destruct (queued_other k id Hk) as [N1 N2].
    rewrite lookup_insert_ne, lookup_delete_ne by done. rewrite (Hq k v Hk).
    split; intros (id' & s & Hs & Hqu & -> & ->).
    + exists id', s. rewrite lookup_insert_ne; [done|]. intros ->. unfold queued in Hqu. by rewrite (Hnq _ Hs) in Hqu.
    + destruct (decide (id' = id)) as [->|Hne']; [rewrite lookup_insert_eq in Hs; by injection Hs as <-|].
      exists id', s. by rewrite lookup_insert_ne in Hs.
Qed.
End refinement.

Section store_proofs.
Context (Sum : bytes → bytes) `{BlockCodec} `{InfoCodecLaws} {D : Type} `{DBLaws D}.
Implicit Types (d : D) (A : table).

Definition store_rep d A : Prop := db_ok d ∧ holds Sum (contents d) A.

Lemma DVE_Height_id ev id : id_of Sum ev id → DVE_Height ev = Ret id.1 ∧ DVE_Hash Sum ev = id.2.
Proof. by intros (? & ? & _). Qed.

Lemma getEvidenceInfo_ok d A ev id :
  store_rep d A → id_of Sum ev id →
  getEvidenceInfo Sum d ev = Ret (default no_info (entry_info <$> A !! id)).
Proof.
  intros [Hd HA] (Eh & Es & Hi). unfold getEvidenceInfo. rewrite Eh. cbn [mbind outcome_bind].
  unfold GetEvidenceInfo. rewrite law_Get by done.
  change (keyLookupFromHeightAndHash id.1 (DVE_Hash Sum ev)) with (lkey (id.1, DVE_Hash Sum ev)).
  rewrite Es, <-surjective_pairing, (holds_lookup _ _ _ HA) by done. destruct (A !! id) as [s|]; simpl; [|done].
  destruct (Z.eqb_spec (zlen (encInfo (entry_info s))) 0) as [E|_].
  { unfold zlen in E. destruct (encInfo (entry_info s)) eqn:E'; [|simpl in E; lia]. by apply encInfo_nonempty in E'. }
  by rewrite decInfo_encInfo.
Qed.

Lemma keys_ok ev id : id_of Sum ev id →
  keyLookup Sum ev = Ret (lkey id) ∧ keyPending Sum ev = Ret (pkey id) ∧
  ∀ p, keyOutqueue Sum ev p = Ret (okey p id).
Proof.
  intros (Eh & Es & _). destruct id as [h s]. simpl in *. unfold keyLookup, keyPending, keyOutqueue.
  rewrite Eh, Es. done.
Qed.

Lemma AddNewEvidence_ok d A ev id prio :
  store_rep d A → id_of Sum ev id → int_ok prio →
  ∃ d', AddNewEvidence Sum d ev prio = Ret (d', (table_add A id ev prio).2) ∧
    store_rep d' (table_add A id ev prio).1.
Proof.
  intros HA Hev Hprio. unfold AddNewEvidence, table_add. rewrite (getEvidenceInfo_ok _ _ _ _ HA Hev). simpl.
  destruct (A !! id) as [s|] eqn:E; simpl; [by exists d|].
  destruct (keys_ok _ _ Hev) as (-> & -> & Ko). rewrite Ko. simpl. eexists. split; [done|].
  destruct HA as [Hd HA].
  destruct (law_Set d (okey prio id) (encInfo (mkEvidenceInfo false prio (Some ev))) Hd) as [Hd1 E1].
  destruct (law_Set _ (pkey id) (encInfo (mkEvidenceInfo false prio (Some ev))) Hd1) as [Hd2 E2].
  destruct (law_Set _ (lkey id) (encInfo (mkEvidenceInfo false prio (Some ev))) Hd2) as [Hd3 E3].
  split; [done|]. rewrite E3, E2, E1. by apply holds_add.
Qed.

Lemma MarkEvidenceAsBroadcasted_ok d A ev id :
  store_rep d A → id_of Sum ev id →
  ∃ d', MarkEvidenceAsBroadcasted Sum d ev = Ret d' ∧ store_rep d' (table_broadcast A id).
Proof.
  intros HA Hev. unfold MarkEvidenceAsBroadcasted. rewrite (getEvidenceInfo_ok _ _ _ _ HA Hev). simpl.
  destruct (A !! id) as [s|] eqn:E.
  - destruct (keys_ok _ _ Hev) as (_ & _ & Ko). cbn [default fmap option_fmap option_map entry_info ei_Evidence].
    rewrite Ko. simpl. eexists. split; [done|]. destruct HA as [Hd HA].
    destruct (law_Delete d (okey (ei_Priority (entry_info s)) id) Hd) as [Hd1 E1]. split; [exact Hd1|].
    assert (HB : holds Sum (contents (db_Delete d (okey (ei_Priority (entry_info s)) id))) (table_broadcast A id))
      by (rewrite E1; by apply holds_broadcast).
    exact HB.
  - exists d. split; [done|]. unfold table_broadcast. rewrite alter_id; [done|]. intros x Hx. by rewrite E in Hx.
Qed.

Lemma MarkEvidenceAsCommitted_ok d A ev id :
  store_rep d A → id_of Sum ev id →
  ∃ d', MarkEvidenceAsCommitted Sum d ev = Ret d' ∧ store_rep d' (table_commit A id ev).
Proof.
  intros HA Hev. unfold MarkEvidenceAsCommitted.
  destruct (MarkEvidenceAsBroadcasted_ok _ _ _ _ HA Hev) as (d1 & -> & [Hd1 HA1]).
  destruct (keys_ok _ _ Hev) as (-> & -> & _). simpl. eexists. split; [done|].
  destruct (law_Delete _ (pkey id) Hd1) as [Hd2 E2].
  destruct (law_Set _ (lkey id) (encInfo (mkEvidenceInfo true 0 (Some ev))) Hd2) as [Hd3 E3].
  split; [done|]. rewrite E3, E2.
  assert (E : table_commit A id ev = table_commit (table_broadcast A id) id ev).
  { unfold table_commit, table_broadcast. rewrite lookup_alter_eq, insert_alter_eq. by destruct (A !! id). }
  rewrite E. apply holds_commit; [done| |done]. intros s. unfold table_broadcast. rewrite lookup_alter_eq.
  destruct (A !! id); [|done]. by intros [= <-].
Qed.
(** *** Listing *)

Definition cut {X} (maxNum : Z) (l : list X) : list X := if maxNum <? 0 then l else take (Z.to_nat maxNum) l.

Definition plain_info (s : entry) : EvidenceInfo := mkEvidenceInfo false (en_prio s) (Some (en_ev s)).

Lemma list_body_step maxNum k s count acc :
  in_int64 (count + 1) →
  list_body maxNum k (Some (encInfo (plain_info s))) (count, acc) =
    if count =? maxNum then Ret ((count, acc), false) else Ret ((count + 1, acc ++ [Some (en_ev s)]), true).
Proof. intros Hc. unfold list_body. destruct (count =? maxNum); [done|]. simpl. by rewrite decInfo_encInfo, wrap64_id. Qed.

Lemma list_fold maxNum (key : (Z * bytes) * entry → bytes) es count acc :
  -1 ≤ maxNum → 0 ≤ count → (maxNum = -1 ∨ count ≤ maxNum) → count + zlen es ≤ MaxInt64 →
  ∃ count', fold_entries (list_body maxNum) ((λ e, (key e, encInfo (plain_info e.2))) <$> es) (count, acc) =
    Ret (count', acc ++ ((λ e, Some (en_ev e.2)) <$> cut (if maxNum <? 0 then -1 else maxNum - count) es)).
Proof.
  revert count acc. induction es as [|e es IH]; intros count acc M1 M2 M3 M4.
  - exists count. simpl. unfold cut. by destruct (_ <? 0); rewrite ?take_nil, app_nil_r.
  - unfold zlen in *. simpl length in M4. rewrite fmap_cons. cbn [fold_entries].
    rewrite list_body_step by (unfold in_int64, MaxInt64, MinInt64 in *; lia).
    destruct (Z.eqb_spec count maxNum) as [->|Hne].
    + exists maxNum. unfold cut. destruct (Z.ltb_spec maxNum 0); [lia|]. rewrite Z.sub_diag. simpl. by rewrite app_nil_r.
    + cbn [mbind outcome_bind]. destruct (IH (count + 1) (acc ++ [Some (en_ev e.2)])) as [c ->]; [lia..|]. exists c. f_equal. f_equal.
      rewrite <-app_assoc. simpl. f_equal. unfold cut. destruct (Z.ltb_spec maxNum 0); [done|].
      destruct (Z.ltb_spec (maxNum - (count + 1)) 0), (Z.ltb_spec (maxNum - count) 0); try lia.
      by replace (Z.to_nat (maxNum - count)) with (S (Z.to_nat (maxNum - (count + 1)))) by lia.
Qed.

Lemma list_of_keys {X} (f : X → bytes * bytes) (P : X → Prop) (l : list (bytes * bytes)) :
  (∀ kv, kv ∈ l → ∃ x, P x ∧ kv = f x) → ∃ xs, l = f <$> xs ∧ Forall P xs.
Proof.
  induction l as [|kv l IH]; intros Hl; [by exists []|].
  destruct IH as (xs & -> & Hxs); [intros; apply Hl; by right|].
  destruct (Hl kv ltac:(by left)) as (x & Hx & ->). exists (x :: xs). auto.
Qed.

Lemma listEvidence_ok d A prefix (key : (Z * bytes) * entry → bytes) (P : entry → Prop) maxNum :
  store_rep d A → plain_prefix prefix → -1 ≤ maxNum → Z.of_nat (size A) ≤ MaxInt64 →
  (∀ k v, HasPrefix k prefix = true → contents d !! k = Some v ↔
    ∃ id s, A !! id = Some s ∧ P s ∧ k = key (id, s) ∧ v = encInfo (plain_info s)) →
  (∀ id s, HasPrefix (key (id, s)) prefix = true) →
  (∀ id s id' s', A !! id = Some s → A !! id' = Some s' → key (id, s) = key (id', s') → id = id') →
  ∃ es, listEvidence d prefix maxNum = Ret ((λ e, Some (en_ev e.2)) <$> cut maxNum es) ∧
    StronglySorted (λ a b, bytes_lt (key a) (key b)) es ∧ ∀ id s, (id, s) ∈ es ↔ A !! id = Some s ∧ P s.
Proof.
  intros [Hd HA] Hpre Hmax Hsize Hkeys Hhas Hinj.
  destruct (IteratePrefix_ok d prefix Hd (or_intror Hpre)) as (i & l & Hi & Hat & Hs & Hl).
  destruct (list_of_keys (λ e : (Z * bytes) * entry, (key e, encInfo (plain_info e.2)))
    (λ e, A !! e.1 = Some e.2 ∧ P e.2) l) as (es & -> & Hes).
  { intros [k v] [Hk Hp]%Hl. apply Hkeys in Hk as (id & s & H1' & H2' & -> & ->); [|done]. by exists (id, s). }
  assert (Hmem : ∀ id s, (id, s) ∈ es ↔ A !! id = Some s ∧ P s).
  { intros id s. split; [intros Hin; exact (proj1 (Forall_forall _ _) Hes _ Hin)|]. intros [Hid HP].
    assert (Hin : (key (id, s), encInfo (plain_info s)) ∈
      (λ e : (Z * bytes) * entry, (key e, encInfo (plain_info e.2))) <$> es).
    { apply Hl. split; [|apply Hhas]. apply Hkeys; [apply Hhas|]. by exists id, s. }
    apply list_elem_of_fmap in Hin as ([id' s'] & E & Hin). injection E as E _.
    destruct (proj1 (Forall_forall _ _) Hes _ Hin) as [Hid' _]. simpl in Hid'.
    pose proof (Hinj _ _ _ _ Hid Hid' E) as <-. rewrite Hid in Hid'. by injection Hid' as <-. }
  assert (Hsort : StronglySorted (λ a b, bytes_lt (key a) (key b)) es).
  { rewrite <-list_fmap_compose in Hs. clear -Hs. induction es as [|e es IH]; [constructor|].
    csimpl in Hs. inversion Hs as [|? ? Hs' He]; subst. constructor; [by apply IH|].
    rewrite Forall_fmap in He. exact He. }
  exists es. split_and!; [|done|done]. unfold listEvidence. rewrite Hi. simpl. rewrite (for_itr_ok _ _ _ _ _ Hat).
  assert (Hlen : zlen es ≤ MaxInt64).
  { assert (Hle : (length es.*1 ≤ size (dom A))%nat).
    { rewrite <-(size_list_to_set (C := gset (Z * bytes)) es.*1).
      - apply subseteq_size. intros id. rewrite elem_of_list_to_set, elem_of_dom.
        intros ([id' s] & -> & Hin)%list_elem_of_fmap. apply Hmem in Hin as [? _]. by exists s.
      - clear -Hsort Hinj Hmem. assert (Hes : ∀ e, e ∈ es → A !! e.1 = Some e.2) by (intros [] Hin; by apply Hmem).
        clear Hmem. induction Hsort as [|e es Hs IH He]; csimpl; constructor.
        + intros ([id s] & E & Hin)%list_elem_of_fmap. rewrite Forall_forall in He. specialize (He _ Hin).
          destruct e as [id' s']. simpl in E. subst id'.
          pose proof (Hes (id, s') ltac:(by left)). pose proof (Hes (id, s) ltac:(by right)). simpl in *.
          assert (s' = s) as -> by congruence. by apply bytes_lt_irrefl in He.
        + apply IH. intros. apply Hes. by right. }
    rewrite length_fmap, size_dom in Hle. unfold zlen. lia. }
  destruct (list_fold maxNum key es 0 []) as [c ->]; [lia..|]. simpl. unfold cut. rewrite Z.sub_0_r.
  by destruct (maxNum <? 0) eqn:E; rewrite ?E.
Qed.

Lemma PendingEvidence_ok d A maxNum :
  store_rep d A → -1 ≤ maxNum → Z.of_nat (size A) ≤ MaxInt64 →
  ∃ es, PendingEvidence d maxNum = Ret ((λ e, Some (en_ev e.2)) <$> cut maxNum es) ∧
    StronglySorted (λ a b, id_compare a.1 b.1 = Lt) es ∧ ∀ id s, (id, s) ∈ es ↔ A !! id = Some s ∧ pending s.
Proof.
  intros HA Hmax Hsize. pose proof HA as [_ [Hok _ Hp _]].
  destruct (listEvidence_ok d A baseKeyPending (λ e, pkey e.1) pending maxNum HA pending_plain Hmax Hsize Hp)
    as (es & E & Hs & Hm).
  - intros id s. apply pkey_prefix.
  - intros id s id' s' [(_ & _ & ?) _]%Hok [(_ & _ & ?) _]%Hok. by apply pkey_inj.
  - exists es. split_and!; [done| |done]. assert (Hes : Forall (λ e, int_ok e.1.1) es).
    { apply Forall_forall. intros [id s] Hin. apply Hm in Hin as [[(_ & _ & ?) _]%Hok _]. done. }
    clear -Hs Hes. induction Hs as [|e es Hs IH He]; constructor.
    + apply IH. by inversion Hes.
    + apply Forall_cons in Hes as [Q1 Q2]. rewrite Forall_forall in *. intros e' Hin.
      rewrite <-pkey_compare; [by apply He|done|by apply Q2].
Qed.

(** By priority, then height, then hash. *)
Definition prio_compare (a b : (Z * bytes) * entry) : comparison :=
  then_ (en_prio a.2 ?= en_prio b.2) (id_compare a.1 b.1).

Lemma PriorityEvidence_ok d A :
  store_rep d A → Z.of_nat (size A) ≤ MaxInt64 →
  ∃ es, PriorityEvidence d = Ret ((λ e, Some (en_ev e.2)) <$> reverse es) ∧
    StronglySorted (λ a b, prio_compare a b = Lt) es ∧ ∀ id s, (id, s) ∈ es ↔ A !! id = Some s ∧ queued s.
Proof.
  intros HA Hsize. pose proof HA as [_ [Hok _ _ Hq]].
  destruct (listEvidence_ok d A baseKeyOutqueue (λ e, okey (en_prio e.2) e.1) queued (-1) HA outqueue_plain
    ltac:(lia) Hsize Hq) as (es & E & Hs & Hm).
  - intros id s. apply okey_prefix.
  - intros id s id' s' [(_ & _ & ?) [? _]]%Hok [(_ & _ & ?) [? _]]%Hok HE. by apply okey_inj in HE as [_ ?].
  - exists es. split_and!; [|..|done].
    { unfold PriorityEvidence. rewrite E. simpl. unfold cut. simpl. by rewrite fmap_reverse. }
    assert (Hes : Forall (λ e, int_ok e.1.1 ∧ int_ok (en_prio e.2)) es).
    { apply Forall_forall. intros [id s] Hin. apply Hm in Hin as [[(_ & _ & ?) [? _]]%Hok _]. done. }
    clear -Hs Hes. induction Hs as [|e es Hs IH He]; constructor.
    + apply IH. by inversion Hes.
    + apply Forall_cons in Hes as [[Q1 Q1'] Q2]. rewrite Forall_forall in *. intros e' Hin.
      destruct (Q2 _ Hin). unfold prio_compare. rewrite <-okey_compare; [by apply He|done..].
Qed.
End store_proofs.

(** ** The pool *)

Section pool_proofs.
Context (Sum : bytes → bytes) `{BlockCodec} `{InfoCodecLaws} `{Codec} `{Crypto} {D : Type} `{DBLaws D}.
Implicit Types (p : EvidencePool D) (A : table) (xs : list (addr * DuplicateVoteEvidence)).

Definition kept (height maxAge : Z) (M : gset bytes) (x : addr * DuplicateVoteEvidence) : Prop :=
  evMapKey Sum x.2 ∉ M ∧ ∀ h, DVE_Height x.2 = Ret h → wrap64 (height - maxAge) ≤ h.

#[local] Instance kept_dec height maxAge M x : Decision (kept height maxAge M x).
Proof.
  unfold kept. destruct (DVE_Height x.2) as [h|].
  - destruct (decide (evMapKey Sum x.2 ∉ M ∧ wrap64 (height - maxAge) ≤ h)) as [[]|N].
    + left. split; [done|]. intros ? [= <-]. done.
    + right. intros [? Hh]. apply N. auto.
  - destruct (decide (evMapKey Sum x.2 ∉ M)); [left; done|right; naive_solver].
Defined.

Definition has_height (x : addr * DuplicateVoteEvidence) : Prop := ∃ h, DVE_Height x.2 = Ret h.

(** The loop takes out exactly the evidence that is committed or too old. *)
Lemma removeEvidence_ok l xs height maxAge M :
  rep l xs → Forall has_height xs →
  ∃ l', removeEvidence Sum l height maxAge M = Ret l' ∧ rep l' (filter (kept height maxAge M) xs) ∧
    cl_maxLen l' = cl_maxLen l.
Proof.
  intros Hl Hh. unfold removeEvidence.
  pose (I := λ pre rest (s : CList DuplicateVoteEvidence),
    rep s (filter (kept height maxAge M) pre ++ rest) ∧ Forall has_height rest ∧ cl_maxLen s = cl_maxLen l).
  edestruct (for_list_rule id (remove_body Sum height maxAge M) I (λ _ _, False) xs l) as (l' & r & E & HI).
  - intros pre e ev rest s (Hs & Hrest & Hmax). apply Forall_cons in Hrest as [[h Eh] Hrest]. simpl in Eh.
    split.
    { exists (node (fst <$> last (filter (kept height maxAge M) pre)) (fst <$> head rest) ev).
      split; [by apply rep_lookup|done]. }
    unfold remove_body, id. rewrite Eh. cbn [mbind outcome_bind]. unfold I.
    rewrite filter_app, filter_cons, filter_nil.
    destruct (decide (kept height maxAge M (e, ev))) as [Hk|Hk].
    + rewrite bool_decide_eq_false_2 by apply Hk. destruct Hk as [_ Hk]. specialize (Hk h Eh).
      destruct (Z.ltb_spec h (wrap64 (height - maxAge))); [lia|]. simpl.
      eexists _, _. split; [done|]. simpl. rewrite <-app_assoc. split; [done|]. by eapply Next_rep.
    + assert (bool_decide (evMapKey Sum ev ∈ M) || (h <? wrap64 (height - maxAge)) = true) as ->.
      { apply orb_true_iff. rewrite bool_decide_eq_true, Z.ltb_lt.
        destruct (decide (evMapKey Sum ev ∈ M)); [by left|right]. destruct (Z.lt_ge_cases h (wrap64 (height - maxAge)));
          [done|]. destruct Hk. split; [done|]. simpl. intros h' Eh'. rewrite Eh in Eh'. by injection Eh' as <-. }
      destruct (Remove_rep _ _ _ _ _ Hs) as (s1 & -> & Hs1 & He & Hm1 & _). cbn [mbind outcome_bind].
      destruct (DetachPrev_rep _ _ _ _ Hs1 He eq_refl) as (s2 & -> & Hs2 & Hm2 & _ & _ & Hn).
      cbn [mbind outcome_bind]. eexists _, _. split; [done|]. simpl. rewrite app_nil_r.
      split; [split_and!; [done..|congruence]|]. rewrite Hn. unfold Next, deref. simpl. by rewrite He.
  - exact Hl.
  - done.
  - rewrite E. destruct r; [done|]. simpl. exists l'. destruct HI as (HI & _ & Hm). rewrite app_nil_r in HI. done.
Qed.

(** The list holds pending evidence. *)
Record pool_rep p A xs : Prop := mkPoolRep {
  pr_store : store_rep Sum (ep_store p) A;
  pr_list : rep (ep_list p) xs;
  pr_max : cl_maxLen (ep_list p) = MaxLength;
  pr_pending : Forall (λ x, ∃ id s, id_of Sum x.2 id ∧ A !! id = Some s ∧ pending s) xs
}.

Lemma pr_heights p A xs : pool_rep p A xs → Forall has_height xs.
Proof. intros [_ _ _ Hp]. eapply Forall_impl; [exact Hp|]. intros x (id & s & (E & _) & _). by exists id.1. Qed.

(** The priority the pool gives to evidence. *)
Definition priority_of p (ev : DuplicateVoteEvidence) : outcome Z :=
  h ← DVE_Height ev; valset ← LoadValidators (ep_stateDB p) h; valset ← or_panic valset;
  address ← DVE_Address ev; val ← or_panic (GetByAddress valset address).2; Ret (val_VotingPower val).

(** Evidence that verifies has a priority, so that it is added without a panic. *)
Lemma verified_priority p ev :
  VerifyEvidence (ep_stateDB p) (ep_state p) ev = Ret None → ∃ prio, priority_of p ev = Ret prio.
Proof.
  unfold VerifyEvidence, priority_of. destruct (DVE_Height ev) as [h|]; [|done]. cbn [mbind outcome_bind].
  destruct (_ <? _); [done|]. destruct (LoadValidators (ep_stateDB p) h) as [[vals|]|]; [|done..].
  cbn [mbind outcome_bind or_panic]. destruct (DVE_Address ev) as [addr|]; [|done]. cbn [mbind outcome_bind].
  destruct (GetByAddress vals addr).2; [|done]. simpl. eauto.
Qed.

Lemma AddEvidence_ok p A xs ev id err :
  pool_rep p A xs → id_of Sum ev id → Len (ep_list p) < MaxLength →
  (∀ prio, priority_of p ev = Ret prio → int_ok prio) →
  VerifyEvidence (ep_stateDB p) (ep_state p) ev = Ret err →
  ∃ p' A' xs', AddEvidence Sum p ev = Ret (p', err) ∧ pool_rep p' A' xs' ∧
    match err with
    | Some _ => A' = A
    | None => ∃ prio, priority_of p ev = Ret prio ∧ A' = (table_add A id ev prio).1
    end.
Proof.
  intros Hp Hev Hlen Hprio Hv. unfold AddEvidence. rewrite Hv. simpl. destruct err as [e|]; [by exists p, A, xs|].
  destruct (verified_priority _ _ Hv) as [prio Eprio]. specialize (Hprio _ Eprio).
  pose proof Eprio as Eprio'. unfold priority_of in Eprio'.
  destruct (DVE_Height ev) as [h|]; [|done]. cbn [mbind outcome_bind] in *.
  destruct (LoadValidators (ep_stateDB p) h) as [[vals|]|]; [|done..]. cbn [mbind outcome_bind or_panic] in *.
  destruct (DVE_Address ev) as [addr|]; [|done]. cbn [mbind outcome_bind] in *.
  destruct (GetByAddress vals addr).2 as [val|]; [|done]. simpl in *. injection Eprio' as ->.
  destruct Hp as [Hs Hl Hm Hpe]. destruct (AddNewEvidence_ok _ _ _ _ _ _ Hs Hev Hprio) as (d' & -> & Hs').
  simpl. unfold table_add in *. destruct (A !! id) as [s|] eqn:E; simpl in *.
  - eexists _, A, xs. split; [done|]. split; [by split|]. by exists prio.
  - rewrite (rep_Len _ _ Hl) in Hlen. destruct (PushBack_rep _ _ ev Hl) as (l' & -> & Hl' & Hm' & _); [by rewrite Hm|].
    simpl. eexists _, _, _. split; [done|]. split; [|by exists prio]. split; simpl; [done|done|congruence|].
    apply Forall_app. split.
    + eapply Forall_impl; [exact Hpe|]. intros x (id' & s' & ? & Hs1 & ?). exists id', s'.
      split_and!; [done| |done]. rewrite lookup_insert_ne; [done|]. intros <-. congruence.
    + apply Forall_singleton. exists id, (mkEntry ev prio false true). by rewrite lookup_insert_eq.
Qed.

(** Committing the evidence of a block. *)
Fixpoint commit_all A (evs : list ((Z * bytes) * DuplicateVoteEvidence)) : table :=
  match evs with [] => A | (id, ev) :: evs => commit_all (table_commit A id ev) evs end.

Definition ids_of (evs : list DuplicateVoteEvidence) (ids : list ((Z * bytes) * DuplicateVoteEvidence)) : Prop :=
  ids.*2 = evs ∧ Forall (λ x, id_of Sum x.2 x.1) ids.

Lemma mark_all_ok ids d A M :
  store_rep Sum d A → Forall (λ x : (Z * bytes) * DuplicateVoteEvidence, id_of Sum x.2 x.1) ids →
  ∃ d', foldM (mark_body Sum) (d, M) ids.*2 = Ret (d', list_to_set (evMapKey Sum <$> ids.*2) ∪ M) ∧
    store_rep Sum d' (commit_all A ids).
Proof.
  revert d A M. induction ids as [|[id ev] ids IH]; intros d A M Hd Hids.
  { exists d. csimpl. by rewrite (left_id_L ∅ _). }
  apply Forall_cons in Hids as [Hev Hids]. csimpl.
  destruct (MarkEvidenceAsCommitted_ok _ _ _ _ _ Hd Hev) as (d1 & E1 & Hd1).
  assert (Eb : mark_body Sum (d, M) ev = Ret (d1, {[evMapKey Sum ev]} ∪ M)).
  { unfold mark_body. cbn [fst snd] in *. by rewrite E1. }
  cbn [foldM snd]. rewrite Eb. cbn [mbind outcome_bind].
  destruct (IH d1 _ ({[evMapKey Sum ev]} ∪ M) Hd1 Hids) as (d2 & -> & Hd2). exists d2. split; [|done].
  f_equal. f_equal. set_solver.
Qed.

Lemma commit_all_lookup ids A id s :
  commit_all A ids !! id = Some s →
  (A !! id = Some s ∧ id ∉ ids.*1) ∨ (en_committed s = true ∧ id ∈ ids.*1).
Proof.
  revert A. induction ids as [|[id' ev] ids IH]; intros A; simpl; [left; split; [done|set_solver]|].
  intros [[E N]|[E N]]%IH; [|right; set_solver]. unfold table_commit in E.
  destruct (decide (id = id')) as [->|Hne].
  - rewrite lookup_insert_eq in E. injection E as <-. right. set_solver.
  - rewrite lookup_insert_ne in E by done. left. set_solver.
Qed.

Lemma commit_all_not ids A id : id ∉ ids.*1 → commit_all A ids !! id = A !! id.
Proof.
  revert A. induction ids as [|[id' ev] ids IH]; intros A N; simpl; [done|]. csimpl in N.
  rewrite IH by set_solver. unfold table_commit. rewrite lookup_insert_ne by set_solver. done.
Qed.

Lemma pool_Update_ok p A xs block state ids :
  pool_rep p A xs → ids_of (blk_Evidence block) ids → st_LastBlockHeight state = hd_Height (blk_Header block) →
  ∃ p' xs', pool_Update Sum p block state = Ret p' ∧ pool_rep p' (commit_all A ids) xs' ∧
    ep_state p' = state ∧ ep_stateDB p' = ep_stateDB p.
Proof.
  intros Hp [E Hids] Hh. pose proof (pr_heights _ _ _ Hp) as Hhs. destruct Hp as [Hs Hl Hm Hpe].
  unfold pool_Update. rewrite Hh, Z.eqb_refl. simpl.
  unfold pool_MarkEvidenceAsCommitted. simpl. rewrite <-E.
  destruct (mark_all_ok ids _ _ ∅ Hs Hids) as (d' & -> & Hd'). simpl.
  destruct (removeEvidence_ok _ _ (hd_Height (blk_Header block)) (cp_MaxAge (st_ConsensusParams state))
    (list_to_set (evMapKey Sum <$> ids.*2) ∪ ∅) Hl Hhs) as (l' & -> & Hl' & Hm'). simpl.
  eexists _, _. split; [done|]. split_and!; [|done..]. split; simpl; [done|done|congruence|].
  apply Forall_forall. intros [e ev] [[Hk _] Hin]%list_elem_of_filter. simpl in *.
  destruct (proj1 (Forall_forall _ _) Hpe _ Hin) as (id & s & Hid & HA & Hps). exists id, s. simpl in *.
  split_and!; [done| |done]. rewrite commit_all_not; [done|]. intros ([id' ev'] & -> & Hin')%list_elem_of_fmap.
  apply Hk. apply elem_of_union_l, elem_of_list_to_set, list_elem_of_fmap. exists ev'. split.
  - unfold evMapKey. destruct (proj1 (Forall_forall _ _) Hids _ Hin') as (_ & E' & _), Hid as (_ & E'' & _).
    simpl in *. congruence.
  - apply list_elem_of_fmap. by exists (id', ev').
Qed.
End pool_proofs.

(** ** Runs of the pool

    Beside each pool the table that it stands for. The state database is shared: the rest of the node writes it. *)

Section runs.
Context (Sum : bytes → bytes) `{BlockCodec} `{InfoCodecLaws} `{Codec} `{Crypto} {D : Type} `{DBLaws D}.
Implicit Types (p : EvidencePool D) (A : table).

Definition table_after p A (id : Z * bytes) (ev : DuplicateVoteEvidence) (err : option verify_evidence_error) : table :=
  match err, priority_of p ev with None, Ret prio => (table_add A id ev prio).1 | _, _ => A end.

Definition with_stateDB p (sdb : StateDB) : EvidencePool D := mkEvidencePool (ep_store p) (ep_list p) sdb (ep_state p).
Definition with_store p (d : D) : EvidencePool D := mkEvidencePool d (ep_list p) (ep_stateDB p) (ep_state p).

Inductive pool_step : EvidencePool D * table → EvidencePool D * table → Prop :=
| ps_add p A ev id p' err :
    id_of Sum ev id → Len (ep_list p) < MaxLength → (∀ prio, priority_of p ev = Ret prio → int_ok prio) →
    AddEvidence Sum p ev = Ret (p', err) → pool_step (p, A) (p', table_after p A id ev err)
| ps_update p A block state ids p' :
    ids_of Sum (blk_Evidence block) ids → pool_Update Sum p block state = Ret p' →
    pool_step (p, A) (p', commit_all A ids)
| ps_broadcast p A ev id d' :
    id_of Sum ev id → MarkEvidenceAsBroadcasted Sum (ep_store p) ev = Ret d' →
    pool_step (p, A) (with_store p d', table_broadcast A id)
| ps_restart p A zero : pool_step (p, A) (NewEvidencePool zero (ep_stateDB p) (ep_store p), A)
| ps_statedb p A sdb : pool_step (p, A) (with_stateDB p sdb, A).

Definition pool_reach p A : Prop :=
  ∃ zero sdb d, db_ok d ∧ contents d = ∅ ∧ rtc pool_step (NewEvidencePool zero sdb d, ∅) (p, A).

Lemma new_pool_rep zero sdb d A : store_rep Sum d A → pool_rep Sum (NewEvidencePool zero sdb d) A [].
Proof. intros Hd. split; simpl; [done|apply New_rep|done|done]. Qed.

Lemma pool_step_rep p A p' A' xs :
  pool_rep Sum p A xs → pool_step (p, A) (p', A') → ∃ xs', pool_rep Sum p' A' xs'.
Proof.
  intros Hp Hst.
  inversion Hst as [? ? ev id ? err Hid Hlen Hprio E|? ? block state ids ? Hids E|? ? ev id d' Hid E|? ? zero|? ? sdb]; subst.
  - assert (VerifyEvidence (ep_stateDB p) (ep_state p) ev = Ret err) as Hv.
    { pose proof E as E'. unfold AddEvidence in E'. apply bind_Ret in E' as ([e|] & Ev & E'); [by injection E' as <- <-|].
      destruct err as [e|]; [|done]. exfalso. apply bind_Ret in E' as (h & _ & E'). apply bind_Ret in E' as (v & _ & E').
      apply bind_Ret in E' as (v' & _ & E'). apply bind_Ret in E' as (a & _ & E'). apply bind_Ret in E' as (w & _ & E').
      apply bind_Ret in E' as ([d b] & _ & E'). destruct (negb b); [done|]. by apply bind_Ret in E' as ([] & _ & E'). }
    destruct (AddEvidence_ok _ _ _ _ _ _ _ Hp Hid Hlen Hprio Hv) as (p1 & A1 & xs' & E1 & Hp1 & HA1).
    rewrite E in E1. injection E1 as <-. exists xs'. unfold table_after.
    destruct err as [e|]; [by subst|]. by destruct HA1 as (prio & -> & ->).
  - assert (st_LastBlockHeight state = hd_Height (blk_Header block)) as Hh.
    { unfold pool_Update in E. destruct (Z.eqb_spec (st_LastBlockHeight state) (hd_Height (blk_Header block))); done. }
    destruct (pool_Update_ok _ _ _ _ _ _ _ Hp Hids Hh) as (p1 & xs' & E1 & Hp1 & _). rewrite E in E1.
    injection E1 as <-. eauto.
  - destruct (MarkEvidenceAsBroadcasted_ok _ _ _ _ _ (pr_store _ _ _ _ Hp) Hid) as (d1 & E1 & Hd1).
    rewrite E in E1. injection E1 as <-. exists xs. destruct Hp as [? ? ? Hpe]. split; simpl; [done..|].
    eapply Forall_impl; [exact Hpe|]. intros x (id' & s & Hid' & Hs & Hps). unfold table_broadcast.
    destruct (decide (id' = id)) as [->|Hne].
    + exists id, (mkEntry (en_ev s) (en_prio s) (en_committed s) false). by rewrite lookup_alter_eq, Hs.
    + exists id', s. by rewrite lookup_alter_ne.
  - exists []. apply new_pool_rep, Hp.
  - exists xs. by destruct Hp.
Qed.

Lemma pool_steps_rep p A p' A' xs :
  pool_rep Sum p A xs → rtc pool_step (p, A) (p', A') → ∃ xs', pool_rep Sum p' A' xs'.
Proof.
  intros Hp Hst. remember (p, A) as pa eqn:E. remember (p', A') as pa' eqn:E'.
  revert p A xs Hp E. induction Hst as [pa|pa [p1 A1] pa' Hs Hst IH]; intros p A xs Hp ->.
  - injection E' as -> ->. eauto.
  - destruct (pool_step_rep _ _ _ _ _ Hp Hs) as [xs1 Hp1]. eauto.
Qed.

Lemma pool_reach_rep p A : pool_reach p A → ∃ xs, pool_rep Sum p A xs.
Proof.
  intros (zero & sdb & d & Hd & E & Hst). eapply pool_steps_rep; [|exact Hst].
  apply new_pool_rep. split; [done|]. rewrite E. apply holds_empty.
Qed.

(** Entries are never dropped, committed ones stay committed, pending ones keep their evidence. *)
Definition keeps (s s' : entry) : Prop :=
  (en_committed s = true → en_committed s' = true) ∧
  (en_committed s' = false → en_ev s' = en_ev s ∧ en_prio s' = en_prio s).

#[local] Instance keeps_preorder : PreOrder keeps.
Proof.
  split.
  - by intros s.
  - intros a b c [H1' H2'] [H3' H4']. split; [auto|]. intros Hc. destruct (H4' Hc) as [-> ->].
    apply H2'. destruct (en_committed b) eqn:E; [|done]. rewrite H3' in Hc by done. done.
Qed.

Lemma commit_keeps A id ev id' s : A !! id' = Some s → ∃ s', table_commit A id ev !! id' = Some s' ∧ keeps s s'.
Proof.
  intros Hs. unfold table_commit. destruct (decide (id' = id)) as [->|Hne].
  - rewrite lookup_insert_eq. by eexists.
  - rewrite lookup_insert_ne by done. exists s. done.
Qed.

Lemma commit_all_keeps ids A id s : A !! id = Some s → ∃ s', commit_all A ids !! id = Some s' ∧ keeps s s'.
Proof.
  revert A s. induction ids as [|[id' ev] ids IH]; intros A s Hs; simpl; [by exists s|].
  destruct (commit_keeps A id' ev id s Hs) as (s1 & Hs1 & K1). destruct (IH _ _ Hs1) as (s2 & Hs2 & K2).
  exists s2. split; [done|by etrans].
Qed.

Lemma pool_step_keeps p A p' A' id s :
  pool_step (p, A) (p', A') → A !! id = Some s → ∃ s', A' !! id = Some s' ∧ keeps s s'.
Proof.
  intros Hst Hs.
  inversion Hst as [? ? ev id0 ? err Hid Hlen Hprio E|? ? block state ids ? Hids E|? ? ev id0 d' Hid E|? ? zero|? ? sdb]; subst.
  - exists s. split; [|done]. unfold table_after, table_add. destruct err, (priority_of p ev); try done.
    destruct (A !! id0) eqn:E0; simpl; [done|]. rewrite lookup_insert_ne; [done|]. congruence.
  - by apply commit_all_keeps.
  - unfold table_broadcast. destruct (decide (id = id0)) as [->|Hne].
    + rewrite lookup_alter_eq, Hs. by eexists.
    + rewrite lookup_alter_ne by done. by exists s.
  - by exists s.
  - by exists s.
Qed.

Lemma pool_steps_keep p A p' A' id s :
  rtc pool_step (p, A) (p', A') → A !! id = Some s → ∃ s', A' !! id = Some s' ∧ keeps s s'.
Proof.
  intros Hst. remember (p, A) as pa eqn:E. remember (p', A') as pa' eqn:E'.
  revert p A s E. induction Hst as [pa|pa [p1 A1] pa' Hs Hst IH]; intros p A s -> HA.
  - injection E' as -> ->. by exists s.
  - destruct (pool_step_keeps _ _ _ _ _ _ Hs HA) as (s1 & Hs1 & K1).
    destruct (IH E' _ _ _ eq_refl Hs1) as (s2 & Hs2 & K2). exists s2. split; [done|by etrans].
Qed.
End runs.
