(* ===== verification/EvidenceFacts.v ===== *)
(** * What the evidence pool guarantees

    Theorems on the runs of [Evidence], and a run on the chain of [StateStore] with the in-memory database of [DB]
    on which their hypotheses hold. *)

From Stdlib Require Import ZArith Lia Bool Strings.Byte String.
From stdpp Require Import base list gmap sets sorting.
From S2P Require Import Prelude Merkle KeyPath Types ValidatorSet Block StateStore CList Account DB Evidence.
Local Open Scope Z_scope.

Section theorems.
Context (Sum : bytes → bytes) `{BlockCodec} `{InfoCodecLaws} `{Codec} `{Crypto} {D : Type} `{DBLaws D}.

(** C21. Every reachable pool answers as the table of evidence that its run describes: the pending evidence is
    exactly the uncommitted evidence, by ascending height and hash and cut at the limit; the evidence to broadcast comes by
    descending priority; [IsCommitted] is right; the list for the reactor holds pending evidence only. *)
Theorem evidence_pool_refines (p : EvidencePool D) (A : table) :
  pool_reach Sum p A → Z.of_nat (size A) ≤ MaxInt64 →
  (∀ maxNum, -1 ≤ maxNum → ∃ es,
    PendingEvidence (ep_store p) maxNum = Ret ((λ e, Some (en_ev e.2)) <$> cut maxNum es) ∧
    StronglySorted (λ a b, id_compare a.1 b.1 = Lt) es ∧ ∀ id s, (id, s) ∈ es ↔ A !! id = Some s ∧ pending s) ∧
  (∃ es, PriorityEvidence (ep_store p) = Ret ((λ e, Some (en_ev e.2)) <$> reverse es) ∧
    StronglySorted (λ a b, prio_compare a b = Lt) es ∧ ∀ id s, (id, s) ∈ es ↔ A !! id = Some s ∧ queued s) ∧
  (∀ ev id, id_of Sum ev id → IsCommitted Sum p ev = Ret (default false (en_committed <$> A !! id))) ∧
  ∃ xs, rep (ep_list p) xs ∧ Forall (λ x, ∃ id s, id_of Sum x.2 id ∧ A !! id = Some s ∧ pending s) xs.
Proof.
  intros Hr Hsize. destruct (pool_reach_rep _ _ _ Hr) as [xs Hp]. pose proof (pr_store _ _ _ _ Hp) as Hs. split_and!.
  - intros maxNum Hmax. exact (PendingEvidence_ok _ _ _ _ Hs Hmax Hsize).
  - exact (PriorityEvidence_ok _ _ _ Hs Hsize).
  - intros ev id Hid. unfold IsCommitted. rewrite (getEvidenceInfo_ok _ _ _ _ _ Hs Hid). simpl.
    by destruct (A !! id) as [s|].
  - exists xs. split; apply Hp.
Qed.

(** Evidence is never forgotten, over any later run and over restarts: what the pool knows it still knows, what is
    committed stays committed, and what is still uncommitted is the same evidence with the same priority. *)
Theorem evidence_never_forgotten (p p' : EvidencePool D) (A A' : table) ev id i :
  pool_reach Sum p A → rtc (pool_step Sum) (p, A) (p', A') → id_of Sum ev id →
  getEvidenceInfo Sum (ep_store p) ev = Ret i → is_Some (ei_Evidence i) →
  ∃ i', getEvidenceInfo Sum (ep_store p') ev = Ret i' ∧ is_Some (ei_Evidence i') ∧
    (ei_Committed i = true → ei_Committed i' = true) ∧ (ei_Committed i' = false → i' = i).
Proof.
  intros Hr Hst Hid. destruct (pool_reach_rep _ _ _ Hr) as [xs Hp]. destruct (pool_steps_rep _ _ _ _ _ _ Hp Hst) as [xs' Hp'].
  rewrite (getEvidenceInfo_ok _ _ _ _ _ (pr_store _ _ _ _ Hp) Hid).
  rewrite (getEvidenceInfo_ok _ _ _ _ _ (pr_store _ _ _ _ Hp') Hid). intros [= <-] Hk.
  destruct (A !! id) as [s|] eqn:E; [|by destruct Hk].
  destruct (pool_steps_keep _ _ _ _ _ _ _ Hst E) as (s' & -> & K1 & K2). simpl. eexists. split; [done|]. simpl.
  split_and!; [eauto|exact K1|]. intros Hc. destruct (K2 Hc) as [E1 E2]. unfold entry_info. rewrite E1, E2, Hc.
  destruct (en_committed s) eqn:Ec; [|done]. by rewrite K1 in Hc.
Qed.

(** The pool does not panic: evidence whose verification answers is added or refused with that answer, and a
    block whose height is the state's updates the pool. *)
Theorem evidence_pool_total (p : EvidencePool D) (A : table) :
  pool_reach Sum p A →
  (∀ ev id err, id_of Sum ev id → Len (ep_list p) < MaxLength →
    (∀ prio, priority_of p ev = Ret prio → int_ok prio) →
    VerifyEvidence (ep_stateDB p) (ep_state p) ev = Ret err → ∃ p', AddEvidence Sum p ev = Ret (p', err)) ∧
  (∀ block state ids, ids_of Sum (blk_Evidence block) ids →
    st_LastBlockHeight state = hd_Height (blk_Header block) → ∃ p', pool_Update Sum p block state = Ret p').
Proof.
  intros Hr. destruct (pool_reach_rep _ _ _ Hr) as [xs Hp]. split.
  - intros ev id err Hid Hlen Hprio Hv. destruct (AddEvidence_ok _ _ _ _ _ _ _ Hp Hid Hlen Hprio Hv) as (p' & ? & ? & E & _).
    eauto.
  - intros block state ids Hids Hh. destruct (pool_Update_ok _ _ _ _ _ _ _ Hp Hids Hh) as (p' & ? & E & _). eauto.
Qed.

(** Evidence that grew too old leaves the list but not the database: after the update it is still offered for the
    next block, while the state of that update rejects it, so that the proposed block is invalid. *)
Theorem expired_evidence_still_proposed (p : EvidencePool D) (A : table) id s block state :
  pool_reach Sum p A → Z.of_nat (size A) ≤ MaxInt64 → A !! id = Some s → pending s →
  blk_Evidence block = [] → st_LastBlockHeight state = hd_Height (blk_Header block) →
  cp_MaxAge (st_ConsensusParams state) < wrap64 (st_LastBlockHeight state - id.1) →
  ∃ p' evs, pool_Update Sum p block state = Ret p' ∧ PendingEvidence (ep_store p') (-1) = Ret evs ∧
    Some (en_ev s) ∈ evs ∧ VerifyEvidence (ep_stateDB p') (ep_state p') (en_ev s) = Ret (Some ErrEvidenceTooOld).
Proof.
  intros Hr Hsize Hs Hps Hb Hh Hage. destruct (pool_reach_rep _ _ _ Hr) as [xs Hp].
  assert (Hids : ids_of Sum (blk_Evidence block) []) by (by rewrite Hb).
  destruct (pool_Update_ok _ _ _ _ _ _ _ Hp Hids Hh) as (p' & xs' & E & Hp' & Est & _).
  destruct (PendingEvidence_ok _ _ _ (-1) (pr_store _ _ _ _ Hp') ltac:(lia) Hsize) as (es & E' & _ & Hes).
  exists p', ((λ e, Some (en_ev e.2)) <$> es). split_and!; [done|done| |].
  - apply list_elem_of_fmap. exists (id, s). split; [done|]. by apply Hes.
  - destruct (holds_ok _ _ _ (proj2 (pr_store _ _ _ _ Hp)) _ _ Hs) as [(Eh & _ & _) _].
    unfold VerifyEvidence. rewrite Eh. simpl. rewrite Est. by destruct (Z.ltb_spec (cp_MaxAge (st_ConsensusParams state))
      (wrap64 (st_LastBlockHeight state - id.1))); [|lia].
Qed.

(** A restart empties the list for the reactor while the pending evidence stays in the database: from then
    on the node does not broadcast it, though the store promises that uncommitted evidence is continuously broadcast. *)
Theorem restart_stops_broadcast (p : EvidencePool D) (A : table) id s zero :
  pool_reach Sum p A → Z.of_nat (size A) ≤ MaxInt64 → A !! id = Some s → pending s →
  let p' := NewEvidencePool zero (ep_stateDB p) (ep_store p) in
  EvidenceFront p' = None ∧ ∃ evs, PendingEvidence (ep_store p') (-1) = Ret evs ∧ Some (en_ev s) ∈ evs.
Proof.
  intros Hr Hsize Hs Hps p'. destruct (pool_reach_rep _ _ _ Hr) as [xs Hp]. split; [done|].
  destruct (PendingEvidence_ok _ _ _ (-1) (pr_store _ _ _ _ Hp) ltac:(lia) Hsize) as (es & E' & _ & Hes).
  eexists. split; [exact E'|]. apply list_elem_of_fmap. exists (id, s). split; [done|]. by apply Hes.
Qed.

(** The reactor sends evidence exactly to peers that can judge it: it waits for a peer that has not reached the
    height of the evidence, and skips one for which the evidence is too old. *)
Theorem evidence_sent_iff (p : EvidencePool D) peerHeight ev h :
  DVE_Height ev = Ret h → in_int64 (h + cp_MaxAge (st_ConsensusParams (ep_state p))) →
  ∃ msg retry, checkSendEvidenceMessage p peerHeight ev = Ret (msg, retry) ∧
    (msg = Some [ev] ↔ ∃ ph, peerHeight = Some ph ∧ h ≤ ph ≤ h + cp_MaxAge (st_ConsensusParams (ep_state p))) ∧
    (retry = true ↔ ∀ ph, peerHeight = Some ph → ph < h).
Proof.
  intros Eh Hr. unfold checkSendEvidenceMessage. rewrite Eh. simpl. rewrite wrap64_id by done.
  destruct peerHeight as [ph|]; [|eexists _, _; naive_solver].
  destruct (Z.ltb_spec ph h); [|destruct (Z.ltb_spec (h + cp_MaxAge (st_ConsensusParams (ep_state p))) ph)];
    (eexists _, _; split; [done|]); split; split.
  - done.
  - intros (? & [= <-] & ?). lia.
  - by intros _ ? [= <-].
  - done.
  - done.
  - intros (? & [= <-] & ?). lia.
  - done.
  - intros Hlt. specialize (Hlt ph eq_refl). lia.
  - intros _. exists ph. split; [done|lia].
  - done.
  - done.
  - intros Hlt. specialize (Hlt ph eq_refl). lia.
Qed.
End theorems.

(** ** A run: one validator is caught *)

Definition bid_decode (c : bytes * (Z * bytes)) : BlockID := mkBlockID c.1 (mkPartSetHeader c.2.1 c.2.2).

Section sample.
#[local] Existing Instance sample_codec.
#[local] Existing Instance sample_crypto.
#[local] Existing Instance sample_block_codec.

Definition part_code (s : PartSig) : bytes * Z := (PeerCrossSig s, Id s).
Definition part_decode (c : bytes * Z) : PartSig := mkPartSig c.1 c.2.

Definition vote_pairs (v : Vote) :=
  ((vote_Type v, vote_Height v, vote_Round v, bid_code (vote_BlockID v)),
   (vote_Timestamp v, vote_ValidatorAddress v, vote_ValidatorIndex v, vote_Signature v),
   (part_code <$> vote_PartSig v, part_code <$> vote_PartBlockSig v)).

Definition vote_unpair (c : (Z * Z * Z * (bytes * (Z * bytes))) * (Z * bytes * Z * bytes) *
    (option (bytes * Z) * option (bytes * Z))) : Vote :=
  let '((t, h, r, b), (ts, a, i, s), (x, y)) := c in
  mkVote t h r (bid_decode b) ts a i s (part_decode <$> x) (part_decode <$> y).

Lemma parts_back (o : option PartSig) : part_decode <$> (part_code <$> o) = o.
Proof. by destruct o as [[]|]. Qed.

Lemma vote_back v : vote_unpair (vote_pairs v) = v.
Proof. destruct v as [? ? ? [? []] ? ? ? ? x y]. unfold vote_pairs, vote_unpair. simpl. by rewrite !parts_back. Qed.

#[local] Arguments vote_pairs : simpl never.
#[local] Arguments vote_unpair : simpl never.

Lemma votes_back (o : option Vote) : vote_unpair <$> (vote_pairs <$> o) = o.
Proof. destruct o; simpl; [by rewrite vote_back|done]. Qed.

Definition info_code (ei : EvidenceInfo) :=
  (ei_Committed ei, ei_Priority ei,
   (λ d, (dve_PubKey d, vote_pairs <$> dve_VoteA d, vote_pairs <$> dve_VoteB d)) <$> ei_Evidence ei).

Definition info_decode (b : bytes) : option EvidenceInfo :=
  (λ c : bool * Z * option (option bytes * option _ * option _), let '(k, p, e) := c in
    mkEvidenceInfo k p ((λ d, let '(pk, a, b) := d in mkDVE pk (vote_unpair <$> a) (vote_unpair <$> b)) <$> e))
  <$> decode_bytes (tail b).

#[local] Instance sample_info : InfoCodec :=
  {| encInfo ei := x01 :: encode_bytes (info_code ei); decInfo := info_decode |}.

#[local] Instance sample_info_laws : InfoCodecLaws.
Proof.
  split; [|done]. intros [k p [[pk a b]|]]; unfold decInfo, encInfo; cbn; unfold info_decode; cbn [tail];
    rewrite decode_encode_bytes; cbn; by rewrite ?votes_back.
Qed.

Definition pool0 : EvidencePool MemDB := NewEvidencePool state2 db2 NewMemDB.

Definition ev_id : Z * bytes := (2, DVE_Hash pad32 double_evidence).

Definition pool1 : EvidencePool MemDB :=
  match AddEvidence pad32 pool0 double_evidence with Ret (p, _) => p | Panic => pool0 end.

Definition caught : entry := mkEntry double_evidence 10 false true.

Lemma ev_id_ok : id_of pad32 double_evidence ev_id.
Proof. split_and!; [vm_compute; reflexivity|reflexivity|done]. Qed.

Lemma pool0_reach : pool_reach pad32 pool0 ∅.
Proof. by exists state2, db2, NewMemDB. Qed.

Lemma pool0_priority : priority_of pool0 double_evidence = Ret 10.
Proof. vm_compute. reflexivity. Qed.

Lemma pool0_verifies : VerifyEvidence (ep_stateDB pool0) (ep_state pool0) double_evidence = Ret None.
Proof. vm_compute. reflexivity. Qed.

Lemma pool0_priorities prio : priority_of pool0 double_evidence = Ret prio → int_ok prio.
Proof. rewrite pool0_priority. by intros [= <-]. Qed.

Lemma pool1_step : pool_step pad32 (pool0, ∅) (pool1, {[ev_id := caught]}).
Proof.
  destruct (pool_reach_rep _ _ _ pool0_reach) as [xs Hp].
  destruct (AddEvidence_ok _ _ _ _ _ _ _ Hp ev_id_ok ltac:(done) pool0_priorities pool0_verifies)
    as (p' & A' & xs' & E & _).
  assert (E1 : AddEvidence pad32 pool0 double_evidence = Ret (pool1, None)) by (unfold pool1; by rewrite E).
  assert (EA : table_after pool0 ∅ ev_id double_evidence None = {[ev_id := caught]}).
  { unfold table_after. by rewrite pool0_priority. }
  rewrite <-EA. eapply ps_add; [apply ev_id_ok|done|apply pool0_priorities|exact E1].
Qed.

Lemma pool1_reach : pool_reach pad32 pool1 {[ev_id := caught]}.
Proof.
  exists state2, db2, NewMemDB. split_and!; [done|done|]. apply rtc_once, pool1_step.
Qed.

Lemma one_entry : Z.of_nat (size ({[ev_id := caught]} : table)) ≤ MaxInt64.
Proof. rewrite map_size_singleton. done. Qed.

Lemma evidence_pool_refines_witness :
  ∃ es, PendingEvidence (ep_store pool1) 5 = Ret ((λ e, Some (en_ev e.2)) <$> cut 5 es) ∧
    StronglySorted (λ a b, id_compare a.1 b.1 = Lt) es ∧
    ∀ id s, (id, s) ∈ es ↔ ({[ev_id := caught]} : table) !! id = Some s ∧ pending s.
Proof.
  apply (proj1 (evidence_pool_refines pad32 pool1 {[ev_id := caught]} pool1_reach one_entry)). lia.
Defined.

Lemma evidence_never_forgotten_witness :
  ∃ i', getEvidenceInfo pad32 (ep_store (NewEvidencePool state2 db2 (ep_store pool1))) double_evidence = Ret i' ∧
    is_Some (ei_Evidence i') ∧ (false = true → ei_Committed i' = true) ∧
    (ei_Committed i' = false → i' = entry_info caught).
Proof.
  destruct (pool_reach_rep _ _ _ pool1_reach) as [xs Hp].
  apply (evidence_never_forgotten pad32 pool1 (NewEvidencePool state2 db2 (ep_store pool1)) {[ev_id := caught]}
    {[ev_id := caught]} double_evidence ev_id (entry_info caught)).
  - apply pool1_reach.
  - eapply rtc_l; [apply (ps_statedb _ _ _ db2)|]. apply rtc_once, (ps_restart _ (with_stateDB pool1 db2)).
  - apply ev_id_ok.
  - rewrite (getEvidenceInfo_ok _ _ _ _ _ (pr_store _ _ _ _ Hp) ev_id_ok), lookup_singleton_eq. done.
  - by eexists.
Defined.

Lemma evidence_pool_total_witness : ∃ p', AddEvidence pad32 pool0 double_evidence = Ret (p', None).
Proof.
  apply (proj1 (evidence_pool_total pad32 pool0 ∅ pool0_reach) double_evidence ev_id None);
    [apply ev_id_ok|done|apply pool0_priorities|apply pool0_verifies].
Defined.

Definition late_state : State :=
  mkState (mkVersion 0 0) [] 200000 0 zeroBlockID 0 empty_vals empty_vals empty_vals 0
    (mkConsensusParams (mkBlockParams 0 0 0) 100000 []) 0 [] [] [] [].

Definition late_block : Block := mkBlock [] (header_at 200000) [] [] None.

Lemma expired_evidence_still_proposed_witness :
  ∃ p' evs, pool_Update pad32 pool1 late_block late_state = Ret p' ∧ PendingEvidence (ep_store p') (-1) = Ret evs ∧
    Some double_evidence ∈ evs ∧
    VerifyEvidence (ep_stateDB p') (ep_state p') double_evidence = Ret (Some ErrEvidenceTooOld).
Proof.
  apply (expired_evidence_still_proposed pad32 pool1 {[ev_id := caught]} ev_id caught late_block late_state).
  - apply pool1_reach.
  - apply one_entry.
  - apply lookup_singleton_eq.
  - done.
  - done.
  - done.
  - vm_compute. reflexivity.
Defined.

Lemma restart_stops_broadcast_witness :
  EvidenceFront (NewEvidencePool state2 (ep_stateDB pool1) (ep_store pool1)) = None.
Proof.
  apply (restart_stops_broadcast pad32 pool1 {[ev_id := caught]} ev_id caught state2 pool1_reach one_entry
    (lookup_singleton_eq _ _) eq_refl).
Defined.

Lemma evidence_sent_iff_witness :
  ∃ msg retry, checkSendEvidenceMessage pool0 (Some 2) double_evidence = Ret (msg, retry) ∧
    (msg = Some [double_evidence] ↔ ∃ ph, Some 2 = Some ph ∧
      2 ≤ ph ≤ 2 + cp_MaxAge (st_ConsensusParams (ep_state pool0))) ∧
    (retry = true ↔ ∀ ph, Some 2 = Some ph → ph < 2).
Proof. apply (evidence_sent_iff pool0 (Some 2) double_evidence 2); [vm_compute; reflexivity|vm_compute; done]. Defined.
End sample.
