(* ===== verification/BlockPool.v ===== *)
(** * Fast sync: the pool of requested blocks (blockchain/pool.go)

    The pool asks peers for blocks of consecutive heights; for each height a requester runs in a goroutine of its own. Here
    the state of the pool and of all requesters is one record, and the goroutines are steps on it: each critical section
    of the code is one step, and steps of different goroutines interleave freely.

    Requesters live in a heap, since the goroutine of one that is no longer in the map goes on. The order in which
    Go ranges over the map of peers is an argument. The rate a monitor reports and whether the start is five seconds
    ago are arguments; a monitor is present or nil, a timer nil, stopped or running. What is sent on the channels
    is appended to lists. [numPending] is an int32 that stays small; it is not wrapped. *)

From Stdlib Require Import ZArith Lia Bool Strings.Byte.
From stdpp Require Import base list gmap sets relations.
From S2P Require Import Prelude Types Block.
Local Open Scope Z_scope.

Notation ID := bytes (only parsing).

Definition maxTotalRequesters : Z := 600.
Definition maxPendingRequests : Z := maxTotalRequesters.
Definition maxPendingRequestsPerPeer : Z := 20.
Definition minRecvRate : Z := 7680.
Definition maxDiffBetweenCurrentAndReceivedBlockHeight : Z := 100.

(** ** Peers *)

Record bpPeer := mkPeer {
  pe_height : Z;
  pe_numPending : Z;
  pe_recvMonitor : bool;          (* not nil *)
  pe_timeout : option bool;       (* nil, or a timer and whether it runs *)
  pe_didTimeout : bool
}.

Definition newBPPeer (height : Z) : bpPeer := mkPeer height 0 false None false.

Definition resetMonitor (p : bpPeer) : bpPeer :=
  mkPeer (pe_height p) (pe_numPending p) true (pe_timeout p) (pe_didTimeout p).

Definition resetTimeout (p : bpPeer) : bpPeer :=
  mkPeer (pe_height p) (pe_numPending p) (pe_recvMonitor p) (Some true) (pe_didTimeout p).

Definition incrPending (p : bpPeer) : bpPeer :=
  let p := if pe_numPending p =? 0 then resetTimeout (resetMonitor p) else p in
  mkPeer (pe_height p) (pe_numPending p + 1) (pe_recvMonitor p) (pe_timeout p) (pe_didTimeout p).

Definition decrPending (p : bpPeer) : outcome bpPeer :=
  let p := mkPeer (pe_height p) (pe_numPending p - 1) (pe_recvMonitor p) (pe_timeout p) (pe_didTimeout p) in
  if pe_numPending p =? 0 then
    _ ← or_panic (pe_timeout p);
    Ret (mkPeer (pe_height p) (pe_numPending p) (pe_recvMonitor p) (Some false) (pe_didTimeout p))
  else if pe_recvMonitor p then Ret (resetTimeout p)
  else Panic.

Definition set_height (h : Z) (p : bpPeer) : bpPeer :=
  mkPeer h (pe_numPending p) (pe_recvMonitor p) (pe_timeout p) (pe_didTimeout p).

Definition set_didTimeout (p : bpPeer) : bpPeer :=
  mkPeer (pe_height p) (pe_numPending p) (pe_recvMonitor p) (pe_timeout p) true.

(** ** Requesters *)

(** Where the goroutine of a requester is: picking a peer, having picked it, having set [peerID], in the wait loop,
    returned. *)
Inductive phase := Picking | Picked (peer : ID) | Sending (peer : ID) | Waiting | Returned.

Record bpRequester := mkRequester {
  rq_height : Z;
  rq_gotBlockCh : bool;
  rq_redoCh : option ID;
  rq_peerID : ID;
  rq_block : option Block;
  rq_stopped : bool;
  rq_pc : phase
}.

Definition newBPRequester (height : Z) : bpRequester := mkRequester height false None [] None false Picking.

Definition set_pc (pc : phase) (r : bpRequester) : bpRequester :=
  mkRequester (rq_height r) (rq_gotBlockCh r) (rq_redoCh r) (rq_peerID r) (rq_block r) (rq_stopped r) pc.

Definition rq_Stop (r : bpRequester) : bpRequester :=
  mkRequester (rq_height r) (rq_gotBlockCh r) (rq_redoCh r) (rq_peerID r) (rq_block r) true (rq_pc r).

Definition setBlock (r : bpRequester) (block : Block) (peerID : ID) : bpRequester * bool :=
  if bool_decide (is_Some (rq_block r)) || negb (bytes_equal (rq_peerID r) peerID) then (r, false)
  else (mkRequester (rq_height r) true (rq_redoCh r) (rq_peerID r) (Some block) (rq_stopped r) (rq_pc r), true).

(** The channel holds one entry; a second one is dropped. *)
Definition redo (r : bpRequester) (peerId : ID) : bpRequester :=
  match rq_redoCh r with
  | None => mkRequester (rq_height r) (rq_gotBlockCh r) (Some peerId) (rq_peerID r) (rq_block r) (rq_stopped r) (rq_pc r)
  | Some _ => r
  end.

(** ** The pool *)

Record BlockPool := mkPool {
  bp_running : bool;
  bp_heap : list bpRequester;
  bp_requesters : gmap Z nat;
  bp_height : Z;
  bp_peers : gmap ID bpPeer;
  bp_maxPeerHeight : Z;
  bp_numPending : Z;
  bp_requestsCh : list (Z * ID);
  bp_errorsCh : list ID
}.

Definition NewBlockPool (start : Z) : BlockPool := mkPool true [] ∅ start ∅ 0 0 [] [].

Definition with_heap (p : BlockPool) (heap : list bpRequester) : BlockPool :=
  mkPool (bp_running p) heap (bp_requesters p) (bp_height p) (bp_peers p) (bp_maxPeerHeight p) (bp_numPending p)
    (bp_requestsCh p) (bp_errorsCh p).
Definition with_peers (p : BlockPool) (peers : gmap ID bpPeer) (max : Z) : BlockPool :=
  mkPool (bp_running p) (bp_heap p) (bp_requesters p) (bp_height p) peers max (bp_numPending p)
    (bp_requestsCh p) (bp_errorsCh p).
Definition with_numPending (p : BlockPool) (n : Z) : BlockPool :=
  mkPool (bp_running p) (bp_heap p) (bp_requesters p) (bp_height p) (bp_peers p) (bp_maxPeerHeight p) n
    (bp_requestsCh p) (bp_errorsCh p).

(** What a snapshot response does to the pool, without its lock (blockchain/reactor.go). *)
Definition with_height (p : BlockPool) (h : Z) : BlockPool :=
  mkPool (bp_running p) (bp_heap p) (bp_requesters p) h (bp_peers p) (bp_maxPeerHeight p) (bp_numPending p)
    (bp_requestsCh p) (bp_errorsCh p).

Definition sendError (p : BlockPool) (peerID : ID) : BlockPool :=
  if negb (bp_running p) then p
  else mkPool (bp_running p) (bp_heap p) (bp_requesters p) (bp_height p) (bp_peers p) (bp_maxPeerHeight p)
    (bp_numPending p) (bp_requestsCh p) (bp_errorsCh p ++ [peerID]).

Definition sendRequest (p : BlockPool) (height : Z) (peerID : ID) : BlockPool :=
  if negb (bp_running p) then p
  else mkPool (bp_running p) (bp_heap p) (bp_requesters p) (bp_height p) (bp_peers p) (bp_maxPeerHeight p)
    (bp_numPending p) (bp_requestsCh p ++ [(height, peerID)]) (bp_errorsCh p).

Definition GetStatus (p : BlockPool) : Z * Z * Z :=
  (bp_height p, bp_numPending p, Z.of_nat (size (bp_requesters p))).

(** [waited]: more than five seconds since the start. *)
Definition IsCaughtUp (p : BlockPool) (waited : bool) : bool :=
  if Z.of_nat (size (bp_peers p)) =? 0 then false
  else
    let receivedBlockOrTimedOut := (0 <? bp_height p) || waited in
    let ourChainIsLongestAmongPeers :=
      (bp_maxPeerHeight p =? 0) || (wrap64 (bp_maxPeerHeight p - 1) <=? bp_height p) in
    receivedBlockOrTimedOut && ourChainIsLongestAmongPeers.

Definition requester_at (p : BlockPool) (height : Z) : option bpRequester :=
  i ← bp_requesters p !! height; bp_heap p !! i.

Definition PeekTwoBlocks (p : BlockPool) : option Block * option Block :=
  (requester_at p (bp_height p) ≫= rq_block, requester_at p (wrap64 (bp_height p + 1)) ≫= rq_block).

Definition PopRequest (p : BlockPool) : outcome BlockPool :=
  match bp_requesters p !! bp_height p with
  | Some i =>
      Ret (mkPool (bp_running p) (alter rq_Stop i (bp_heap p)) (delete (bp_height p) (bp_requesters p))
        (wrap64 (bp_height p + 1)) (bp_peers p) (bp_maxPeerHeight p) (bp_numPending p) (bp_requestsCh p) (bp_errorsCh p))
  | None => Panic
  end.

(** [for _, requester := range pool.requesters]. *)
Definition redo_all (p : BlockPool) (peerID : ID) : BlockPool :=
  with_heap p (foldl (λ heap hi,
    alter (λ r, if bytes_equal (rq_peerID r) peerID then redo r peerID else r) hi.2 heap)
    (bp_heap p) (map_to_list (bp_requesters p))).

Definition max_height (peers : gmap ID bpPeer) : Z :=
  foldl (λ max kv, if max <? pe_height kv.2 then pe_height kv.2 else max) 0 (map_to_list peers).

Definition updateMaxPeerHeight (p : BlockPool) : BlockPool := with_peers p (bp_peers p) (max_height (bp_peers p)).

Definition removePeer (p : BlockPool) (peerID : ID) : BlockPool :=
  let p := redo_all p peerID in
  match bp_peers p !! peerID with
  | Some peer =>
      let p := with_peers p (delete peerID (bp_peers p)) (bp_maxPeerHeight p) in
      if pe_height peer =? bp_maxPeerHeight p then updateMaxPeerHeight p else p
  | None => p
  end.

Definition RemovePeer := removePeer.

Definition RedoRequest (p : BlockPool) (height : Z) : outcome (BlockPool * ID) :=
  request ← or_panic (requester_at p height);
  let peerID := rq_peerID request in
  Ret (if bytes_equal peerID [] then p else removePeer p peerID, peerID).

Definition AddBlock (p : BlockPool) (peerID : ID) (block : Block) : outcome BlockPool :=
  match bp_requesters p !! hd_Height (blk_Header block) with
  | None =>
      let diff := wrap64 (bp_height p - hd_Height (blk_Header block)) in
      let diff := if diff <? 0 then wrap64 (- diff) else diff in
      Ret (if maxDiffBetweenCurrentAndReceivedBlockHeight <? diff then sendError p peerID else p)
  | Some i =>
      requester ← or_panic (bp_heap p !! i);
      let '(requester, ok) := setBlock requester block peerID in
      if ok then
        let p := with_numPending (with_heap p (<[i := requester]> (bp_heap p))) (bp_numPending p - 1) in
        match bp_peers p !! peerID with
        | Some peer =>
            peer ← decrPending peer; Ret (with_peers p (<[peerID := peer]> (bp_peers p)) (bp_maxPeerHeight p))
        | None => Ret p
        end
      else Ret (sendError p peerID)
  end.

Definition SetPeerHeight (p : BlockPool) (peerID : ID) (height : Z) : BlockPool :=
  let peer := match bp_peers p !! peerID with Some peer => set_height height peer | None => newBPPeer height end in
  with_peers p (<[peerID := peer]> (bp_peers p))
    (if bp_maxPeerHeight p <? height then height else bp_maxPeerHeight p).

(** The loop over the peers, in the order of [ids]. *)
Fixpoint pick (p : BlockPool) (minHeight : Z) (ids : list ID) : BlockPool * option ID :=
  match ids with
  | [] => (p, None)
  | id :: ids =>
      match bp_peers p !! id with
      | None => pick p minHeight ids
      | Some peer =>
          if pe_didTimeout peer then pick (removePeer p id) minHeight ids
          else if maxPendingRequestsPerPeer <=? pe_numPending peer then pick p minHeight ids
          else if pe_height peer <? minHeight then pick p minHeight ids
          else (with_peers p (<[id := incrPending peer]> (bp_peers p)) (bp_maxPeerHeight p), Some id)
      end
  end.

Definition pickIncrAvailablePeer (p : BlockPool) (minHeight : Z) (order : list ID) : BlockPool * option ID :=
  pick p minHeight order.

Definition makeNextRequester (p : BlockPool) : BlockPool :=
  let nextHeight := wrap64 (bp_height p + Z.of_nat (size (bp_requesters p))) in
  if bp_maxPeerHeight p <? nextHeight then p
  else
    mkPool (bp_running p) (bp_heap p ++ [newBPRequester nextHeight])
      (<[nextHeight := length (bp_heap p)]> (bp_requesters p)) (bp_height p) (bp_peers p) (bp_maxPeerHeight p)
      (bp_numPending p + 1) (bp_requestsCh p) (bp_errorsCh p).

(** [rate]: what the monitor of a peer reports. *)
Fixpoint remove_timed_out (p : BlockPool) (rate : ID → Z) (ids : list ID) : outcome BlockPool :=
  match ids with
  | [] => Ret p
  | id :: ids =>
      match bp_peers p !! id with
      | None => remove_timed_out p rate ids
      | Some peer =>
          '(p, timedOut) ←
            (if negb (pe_didTimeout peer) && (0 <? pe_numPending peer) then
               if pe_recvMonitor peer then
                 Ret (if negb (rate id =? 0) && (rate id <? minRecvRate)
                      then (sendError (with_peers p (<[id := set_didTimeout peer]> (bp_peers p)) (bp_maxPeerHeight p)) id, true)
                      else (p, pe_didTimeout peer))
               else Panic
             else Ret (p, pe_didTimeout peer));
          remove_timed_out (if (timedOut : bool) then removePeer p id else p) rate ids
      end
  end.

Definition removeTimedoutPeers (p : BlockPool) (rate : ID → Z) (order : list ID) : outcome BlockPool :=
  remove_timed_out p rate order.

(** One turn of [makeRequestersRoutine], the sleep left out. *)
Definition makeRequesters (p : BlockPool) (rate : ID → Z) (order : list ID) : outcome BlockPool :=
  let '(_, numPending, lenRequesters) := GetStatus p in
  if maxPendingRequests <=? numPending then removeTimedoutPeers p rate order
  else if maxTotalRequesters <=? lenRequesters then removeTimedoutPeers p rate order
  else Ret (makeNextRequester p).

(** The timer of a peer fires. *)
Definition onTimeout (p : BlockPool) (id : ID) : BlockPool :=
  match bp_peers p !! id with
  | Some peer =>
      let p := sendError p id in
      with_peers p (<[id := set_didTimeout peer]> (bp_peers p)) (bp_maxPeerHeight p)
  | None => p
  end.

(** ** The goroutine of a requester *)

(** [reset]: the block is given up, so a request is pending again. *)
Definition reset (p : BlockPool) (i : nat) (r : bpRequester) : BlockPool :=
  with_numPending
    (with_heap p (<[i := mkRequester (rq_height r) (rq_gotBlockCh r) None [] None (rq_stopped r) Picking]> (bp_heap p)))
    (if rq_block r then bp_numPending p + 1 else bp_numPending p).

(** What the select statement of the wait loop may choose. *)
Inductive choice := OnPoolQuit | OnQuit | OnRedo | OnGotBlock.

Definition drop_redo (r : bpRequester) : bpRequester :=
  mkRequester (rq_height r) (rq_gotBlockCh r) None (rq_peerID r) (rq_block r) (rq_stopped r) (rq_pc r).
Definition drop_got (r : bpRequester) : bpRequester :=
  mkRequester (rq_height r) false (rq_redoCh r) (rq_peerID r) (rq_block r) (rq_stopped r) (rq_pc r).
Definition set_peerID (id : ID) (r : bpRequester) : bpRequester :=
  mkRequester (rq_height r) (rq_gotBlockCh r) (rq_redoCh r) id (rq_block r) (rq_stopped r) (Sending id).

Definition put (p : BlockPool) (i : nat) (r : bpRequester) : BlockPool := with_heap p (<[i := r]> (bp_heap p)).

(** One step of [requestRoutine]; [None] when it cannot move that way. *)
Definition requestRoutine (p : BlockPool) (i : nat) (order : list ID) (ch : choice) : option BlockPool :=
  r ← bp_heap p !! i;
  match rq_pc r with
  | Picking =>
      if rq_stopped r || negb (bp_running p) then Some (put p i (set_pc Returned r))
      else
        match pickIncrAvailablePeer p (rq_height r) order with
        | (p, None) => Some p
        | (p, Some id) => r ← bp_heap p !! i; Some (put p i (set_pc (Picked id) r))
        end
  | Picked id => Some (put p i (set_peerID id r))
  | Sending id => Some (put (sendRequest p (rq_height r) id) i (set_pc Waiting r))
  | Waiting =>
      match ch with
      | OnPoolQuit => if bp_running p then None else Some (put p i (set_pc Returned (rq_Stop r)))
      | OnQuit => if rq_stopped r then Some (put p i (set_pc Returned r)) else None
      | OnRedo =>
          match rq_redoCh r with
          | None => None
          | Some id => Some (if bytes_equal id (rq_peerID r) then reset p i r else put p i (drop_redo r))
          end
      | OnGotBlock => if rq_gotBlockCh r then Some (put p i (drop_got r)) else None
      end
  | Returned => None
  end.
