(* ===== verification/BlockPoolProofs.v ===== *)
(** * Invariants of the fast sync pool under every interleaving

    The pool of [BlockPool] with the goroutines of its requesters as a step relation; the invariant that every
    step keeps, and runs that show what the invariant cannot exclude. A snapshot response, which writes the pool's height
    from another package without the lock, is a step of its own; [snapshots] says whether a run may have
    it. A write of it in the middle of another critical section, a data race in Go, is not modelled. *)

From Stdlib Require Import ZArith Lia Bool Strings.Byte.
From stdpp Require Import base list gmap sets relations.
From S2P Require Import Prelude Types Block BlockPool.
Local Open Scope Z_scope.

(** ** Steps *)

Definition no_overflow (p : BlockPool) : Prop :=
  0 ≤ bp_height p ∧ bp_height p + Z.of_nat (size (bp_requesters p)) + 1 < MaxInt64.

(** Whether a snapshot response of a peer may arrive: it sets the height of the pool and touches no requester. *)
Section snapshots.
Context (snapshots : Prop).

(** A turn of [makeRequestersRoutine] reads the counters in one critical section and acts on them in another one, so
    that making a requester and dropping slow peers are steps of their own, whatever the counters are. *)
Inductive bp_step (p : BlockPool) : BlockPool → Prop :=
| st_next : no_overflow p → bp_step p (makeNextRequester p)
| st_slow rate order p' : removeTimedoutPeers p rate order = Ret p' → bp_step p p'
| st_block peerID block p' : peerID ≠ [] → AddBlock p peerID block = Ret p' → bp_step p p'
| st_height peerID h : peerID ≠ [] → bp_step p (SetPeerHeight p peerID h)
| st_remove peerID : peerID ≠ [] → bp_step p (RemovePeer p peerID)
| st_timeout id : bp_step p (onTimeout p id)
| st_pop p' : no_overflow p → PopRequest p = Ret p' → bp_step p p'
| st_redo h p' id : RedoRequest p h = Ret (p', id) → bp_step p p'
| st_request i order ch p' : requestRoutine p i order ch = Some p' → bp_step p p'
| st_snapshot version : snapshots → 0 < version < 0x7fffffff → bp_step p (with_height p (wrap64 (version + 1)))
| st_quit : bp_step p (mkPool false (bp_heap p) (bp_requesters p) (bp_height p) (bp_peers p) (bp_maxPeerHeight p)
    (bp_numPending p) (bp_requestsCh p) (bp_errorsCh p)).

Definition bp_reach (start : Z) (p : BlockPool) : Prop := rtc bp_step (NewBlockPool start) p.

Lemma st_make p rate order p' : no_overflow p → makeRequesters p rate order = Ret p' → bp_step p p'.
Proof.
  intros Ho. unfold makeRequesters. simpl. destruct (_ <=? _); [by apply st_slow|].
  destruct (_ <=? _); [by apply st_slow|]. intros [= <-]. by apply st_next.
Qed.

(** ** The invariant *)

(** A requester has a peer only after it has picked one, and is asked to redo only the request to its peer. *)
Record rq_ok (r : bpRequester) : Prop := mkRqOk {
  rq_ok_pick : match rq_pc r with Picking | Picked _ => rq_peerID r = [] ∧ rq_block r = None ∧ rq_redoCh r = None
               | _ => True end;
  rq_ok_redo : ∀ id, rq_redoCh r = Some id → id = rq_peerID r;
  rq_ok_block : ∀ b, rq_block r = Some b → hd_Height (blk_Header b) = rq_height r
}.

Record peer_ok (max : Z) (id : bytes) (peer : bpPeer) : Prop := mkPeerOk {
  peer_ok_id : id ≠ [];
  peer_ok_max : pe_height peer ≤ max;
  peer_ok_pending : pe_numPending peer ≤ maxPendingRequestsPerPeer;
  peer_ok_monitor : 0 < pe_numPending peer → pe_recvMonitor peer = true ∧ is_Some (pe_timeout peer)
}.

(** The heights whose block is missing. *)
Definition missing (p : BlockPool) (h : Z) : Prop := ∃ r, requester_at p h = Some r ∧ rq_block r = None.

#[local] Instance missing_dec p h : Decision (missing p h).
Proof.
  unfold missing. destruct (requester_at p h) as [r|].
  - destruct (rq_block r) eqn:E; [right|left]; [|by exists r]. intros (r' & [= <-] & ?). congruence.
  - right. by intros (r & ? & _).
Defined.

Definition unresolved (p : BlockPool) : gset Z := filter (missing p) (dom (bp_requesters p)).

Record bp_inv (p : BlockPool) : Prop := mkBpInv {
  inv_start : 0 ≤ bp_height p;
  (** Lost once a snapshot has moved the height. *)
  inv_range : ¬ snapshots → ∀ h, is_Some (bp_requesters p !! h) ↔
    bp_height p ≤ h < bp_height p + Z.of_nat (size (bp_requesters p));
  inv_ptr : ∀ h i, bp_requesters p !! h = Some i → ∃ r, bp_heap p !! i = Some r ∧ rq_height r = h;
  inv_heap : Forall rq_ok (bp_heap p);
  inv_peers : map_Forall (peer_ok (bp_maxPeerHeight p)) (bp_peers p);
  inv_pending : Z.of_nat (size (unresolved p)) ≤ bp_numPending p
}.

Lemma unresolved_spec p h : h ∈ unresolved p ↔ missing p h.
Proof.
  unfold unresolved. rewrite elem_of_filter, elem_of_dom. split; [by intros [? _]|]. intros Hm. split; [done|].
  destruct Hm as (r & Hr & _). unfold requester_at in Hr. destruct (bp_requesters p !! h) eqn:E; [eauto|done].
Qed.

(** Requesters of different heights are different. *)
Lemma inv_inj p h h' i :
  bp_inv p → bp_requesters p !! h = Some i → bp_requesters p !! h' = Some i → h = h'.
Proof.
  intros Hp H1 H2. destruct (inv_ptr _ Hp _ _ H1) as (r & E & <-), (inv_ptr _ Hp _ _ H2) as (r' & E' & <-).
  congruence.
Qed.

(** The invariant only depends on part of the state. *)
Lemma inv_ext p p' :
  bp_requesters p' = bp_requesters p → bp_height p' = bp_height p → bp_heap p' = bp_heap p →
  bp_numPending p' = bp_numPending p → map_Forall (peer_ok (bp_maxPeerHeight p')) (bp_peers p') →
  bp_inv p → bp_inv p'.
Proof.
  intros E1 E2 E3 E4 Hpe [H1 H2 H3 H4 H5 H6]. split; rewrite ?E1, ?E2, ?E3, ?E4; try done.
  replace (unresolved p') with (unresolved p); [done|]. apply set_eq. intros h. rewrite !unresolved_spec.
  unfold missing, requester_at. by rewrite E1, E3.
Qed.

(** ** Changing one requester *)

(** A requester with the same height, and its block changed as the count says. *)
Lemma inv_put p i r r' n :
  bp_inv p → bp_heap p !! i = Some r → rq_ok r' → rq_height r' = rq_height r →
  (match rq_block r, rq_block r' with
   | Some _, None => bp_numPending p + 1 ≤ n
   | None, Some _ => bp_requesters p !! rq_height r = Some i ∧ bp_numPending p - 1 ≤ n
   | _, _ => bp_numPending p ≤ n
   end) →
  bp_inv (with_numPending (put p i r') n).
Proof.
  intros Hp Hi Hok Hh Hn.
  assert (Hlook : ∀ h, requester_at (with_numPending (put p i r') n) h =
    if decide (bp_requesters p !! h = Some i) then Some r' else requester_at p h).
  { intros h. unfold requester_at. simpl. destruct (bp_requesters p !! h) as [j|] eqn:Ej; simpl.
    - destruct (decide (Some j = Some i)) as [[= ->]|Hne].
      + rewrite list_lookup_insert_eq; [done|]. by eapply lookup_lt_Some.
      + apply list_lookup_insert_ne. congruence.
    - done. }
  pose proof Hp as [H1 H2 H3 H4 H5 H6]. split; simpl; [done|done| | |done|].
  - intros h j Hj. destruct (H3 _ _ Hj) as (s & Hs & Hsh). destruct (decide (j = i)) as [->|Hne].
    + exists r'. rewrite list_lookup_insert_eq by (by eapply lookup_lt_Some). split; [done|]. congruence.
    + exists s. by rewrite list_lookup_insert_ne.
  - by apply Forall_insert.
  - assert (Hset : ∀ h, h ∈ unresolved (with_numPending (put p i r') n) ↔
      if decide (bp_requesters p !! h = Some i) then rq_block r' = None else h ∈ unresolved p).
    { intros h. rewrite (unresolved_spec (with_numPending _ _)). unfold missing at 1. rewrite Hlook.
      destruct (decide (bp_requesters p !! h = Some i)); [naive_solver|]. by rewrite unresolved_spec. }
    assert (Hlive : ∀ h, bp_requesters p !! h = Some i → h = rq_height r ∧ (h ∈ unresolved p ↔ rq_block r = None)).
    { intros h E. destruct (H3 _ _ E) as (s & Hs & <-). assert (s = r) as -> by congruence. split; [done|].
      rewrite unresolved_spec. unfold missing, requester_at. rewrite E. simpl. rewrite Hi. naive_solver. }
    set (U := unresolved p) in *. set (U' := unresolved (with_numPending (put p i r') n)) in *.
    destruct (rq_block r) as [b|] eqn:Eb, (rq_block r') as [b'|] eqn:Eb'.
    + assert (Hsub : U' ⊆ U) by (intros h; rewrite Hset; case_decide; done).
      apply subseteq_size in Hsub. lia.
    + assert (Hsub : U' ⊆ {[rq_height r]} ∪ U).
      { intros h. rewrite Hset. case_decide as E; [|set_solver].
        destruct (Hlive _ E) as [-> _]. set_solver. }
      apply subseteq_size in Hsub. pose proof (size_union_alt {[rq_height r]} U) as Hu. rewrite size_singleton in Hu.
      assert (size (U ∖ {[rq_height r]}) ≤ size U)%nat by (apply subseteq_size; set_solver). lia.
    + destruct Hn as [E Hn]. destruct (Hlive _ E) as [_ Hin].
      assert (Hsub : U' ⊆ U ∖ {[rq_height r]}).
      { intros h. rewrite Hset. destruct (decide (bp_requesters p !! h = Some i)) as [E'|N]; [done|]. intros Hh'.
        apply elem_of_difference. split; [done|]. intros ->%elem_of_singleton. done. }
      apply subseteq_size in Hsub.
      assert (Hsz : size (U ∖ {[rq_height r]}) = (size U - 1)%nat).
      { rewrite size_difference by (apply singleton_subseteq_l, Hin; done). by rewrite size_singleton. }
      assert (size U ≠ 0%nat); [|lia]. intros E0%size_empty_inv. fold_leibniz. rewrite E0 in Hin. set_solver.
    + assert (Hsub : U' ⊆ U).
      { intros h. rewrite Hset. case_decide as E; [|done]. intros _. by apply Hlive. }
      apply subseteq_size in Hsub. lia.
Qed.

(** Same block or none before: only the requester itself changes. *)
Lemma inv_put_same p i r r' :
  bp_inv p → bp_heap p !! i = Some r → rq_ok r' → rq_height r' = rq_height r → rq_block r' = rq_block r →
  bp_inv (put p i r').
Proof.
  intros Hp Hi Hok Hh Hb. assert (E : put p i r' = with_numPending (put p i r') (bp_numPending p)) by done.
  rewrite E. eapply inv_put; [done..|]. rewrite Hb. destruct (rq_block r); lia.
Qed.

Lemma alter_insert (f : bpRequester → bpRequester) (i : nat) (heap : list bpRequester) :
  alter f i heap = match heap !! i with Some r => <[i := f r]> heap | None => heap end.
Proof.
  revert i. induction heap as [|x heap IH]; intros [|i]; try done. simpl. change (list_alter f i heap) with (alter f i heap).
  rewrite IH. by destruct (heap !! i).
Qed.

Lemma inv_heap_at p i r : bp_inv p → bp_heap p !! i = Some r → rq_ok r.
Proof. intros Hp Hi. exact (Forall_lookup_1 _ _ _ _ (inv_heap _ Hp) Hi). Qed.

(** ** Peers *)

Definition redo_if (peerID : bytes) (r : bpRequester) : bpRequester :=
  if bytes_equal (rq_peerID r) peerID then redo r peerID else r.

Lemma redo_if_ok peerID r :
  peerID ≠ [] → rq_ok r → rq_ok (redo_if peerID r) ∧ rq_height (redo_if peerID r) = rq_height r ∧
    rq_block (redo_if peerID r) = rq_block r.
Proof.
  intros Hne Hr. pose proof Hr as [H1 H2 H3]. unfold redo_if, bytes_equal. case_bool_decide as E; [|done].
  unfold redo. destruct (rq_redoCh r) eqn:Er; [done|]. split_and!; [|done..]. split; simpl; [|naive_solver|done].
  destruct (rq_pc r); [destruct H1; congruence..|done|done|done].
Qed.

Lemma redo_all_inv p peerID : peerID ≠ [] → bp_inv p → bp_inv (redo_all p peerID).
Proof.
  intros Hne Hp. unfold redo_all.
  enough (H : ∀ (l : list (Z * nat)) heap, bp_inv (with_heap p heap) →
    bp_inv (with_heap p (foldl (λ heap hi, alter (redo_if peerID) hi.2 heap) heap l))).
  { apply (H (map_to_list (bp_requesters p)) (bp_heap p)). by destruct p. }
  intros l. induction l as [|[h i] l IH]; intros heap Hh; simpl; [done|]. apply IH. rewrite alter_insert.
  destruct (heap !! i) as [r|] eqn:Ei; [|done].
  destruct (redo_if_ok peerID r Hne) as (Q1 & Q2 & Q3); [by eapply inv_heap_at; [exact Hh|]|].
  exact (inv_put_same (with_heap p heap) i r _ Hh Ei Q1 Q2 Q3).
Qed.

Lemma max_height_ge peers id peer : peers !! id = Some peer → pe_height peer ≤ max_height peers.
Proof.
  intros Hp. apply elem_of_map_to_list in Hp. unfold max_height. revert Hp. generalize (map_to_list peers).
  assert (Hmono : ∀ l m, m ≤ foldl (λ max (kv : bytes * bpPeer), if max <? pe_height kv.2 then pe_height kv.2 else max) m l).
  { induction l as [|kv l IH]; intros m; simpl; [lia|]. etrans; [|apply IH]. destruct (Z.ltb_spec m (pe_height kv.2)); lia. }
  intros l. generalize 0. induction l as [|kv l IH]; intros m; [by intros ?%not_elem_of_nil|].
  intros [<-|Hin]%elem_of_cons; simpl; [|by apply IH]. etrans; [|apply Hmono].
  simpl. destruct (Z.ltb_spec m (pe_height peer)); lia.
Qed.

Lemma peers_max peers max : map_Forall (peer_ok max) peers → map_Forall (peer_ok (max_height peers)) peers.
Proof.
  intros Hp id peer Hid. destruct (Hp _ _ Hid) as [P1 P2 P3 P4]. split; [done| |done|done].
  by eapply max_height_ge.
Qed.

Lemma inv_peers_only p peers max :
  map_Forall (peer_ok max) peers → bp_inv p → bp_inv (with_peers p peers max).
Proof. intros Hpe. by apply inv_ext. Qed.

Lemma removePeer_inv p peerID : peerID ≠ [] → bp_inv p → bp_inv (removePeer p peerID).
Proof.
  intros Hne Hp. unfold removePeer. pose proof (redo_all_inv p peerID Hne Hp) as Hq.
  set (q := redo_all p peerID) in *. destruct (bp_peers q !! peerID) as [peer|]; [|done].
  assert (Hd : map_Forall (peer_ok (bp_maxPeerHeight q)) (delete peerID (bp_peers q)))
    by apply map_Forall_delete, (inv_peers _ Hq).
  case_match; [|by apply inv_peers_only].
  unfold updateMaxPeerHeight. apply inv_peers_only; [|by apply inv_peers_only]. simpl. by eapply peers_max.
Qed.

Lemma sendError_inv p id : bp_inv p → bp_inv (sendError p id).
Proof. intros Hp. unfold sendError. destruct (negb _); [done|]. by eapply inv_ext; [..|exact Hp]; try done; apply Hp. Qed.

Lemma sendRequest_inv p h id : bp_inv p → bp_inv (sendRequest p h id).
Proof. intros Hp. unfold sendRequest. destruct (negb _); [done|]. by eapply inv_ext; [..|exact Hp]; try done; apply Hp. Qed.

Lemma sendRequest_heap p h id : bp_heap (sendRequest p h id) = bp_heap p.
Proof. unfold sendRequest. by destruct (negb _). Qed.

Lemma sendError_peers p id : bp_peers (sendError p id) = bp_peers p ∧ bp_maxPeerHeight (sendError p id) = bp_maxPeerHeight p.
Proof. unfold sendError. by destruct (negb _). Qed.

Lemma peer_ok_weaken max max' id peer : max ≤ max' → peer_ok max id peer → peer_ok max' id peer.
Proof. intros ? [? ? ? ?]. split; try done. lia. Qed.

Lemma SetPeerHeight_inv p peerID h : peerID ≠ [] → bp_inv p → bp_inv (SetPeerHeight p peerID h).
Proof.
  intros Hne Hp. unfold SetPeerHeight. apply inv_peers_only; [|done].
  set (max := if _ <? _ then _ else _).
  assert (Hmax : bp_maxPeerHeight p ≤ max ∧ h ≤ max)
    by (unfold max; destruct (Z.ltb_spec (bp_maxPeerHeight p) h); lia).
  apply map_Forall_insert_2.
  - destruct (bp_peers p !! peerID) as [peer|] eqn:E.
    + destruct (inv_peers _ Hp _ _ E) as [P1 P2 P3 P4]. split; simpl; [done|lia|done|done].
    + split; simpl; [done|lia|done|lia].
  - eapply map_Forall_impl; [apply Hp|]. intros id peer. apply peer_ok_weaken. lia.
Qed.

Lemma set_didTimeout_ok max id peer : peer_ok max id peer → peer_ok max id (set_didTimeout peer).
Proof. by intros [? ? ? ?]. Qed.

Lemma onTimeout_inv p id : bp_inv p → bp_inv (onTimeout p id).
Proof.
  intros Hp. unfold onTimeout. destruct (bp_peers p !! id) as [peer|] eqn:E; [|done].
  destruct (sendError_peers p id) as [-> ->]. apply inv_peers_only; [|by apply sendError_inv].
  apply map_Forall_insert_2; [apply set_didTimeout_ok; by apply (inv_peers _ Hp)|apply Hp].
Qed.

Lemma incrPending_ok max id peer :
  peer_ok max id peer → pe_numPending peer < maxPendingRequestsPerPeer → peer_ok max id (incrPending peer).
Proof.
  intros [P1 P2 P3 P4] Hlt. unfold incrPending.
  destruct (Z.eqb_spec (pe_numPending peer) 0) as [E|E]; split; simpl; try done; try lia.
  intros Hpos. apply P4. lia.
Qed.

Lemma pick_inv ids p minHeight : bp_inv p → bp_inv (pick p minHeight ids).1.
Proof.
  revert p. induction ids as [|id ids IH]; intros p Hp; simpl; [done|].
  destruct (bp_peers p !! id) as [peer|] eqn:E; [|by apply IH].
  pose proof (inv_peers _ Hp _ _ E) as Hpe.
  destruct (pe_didTimeout peer); [apply IH, removePeer_inv; [apply Hpe|done]|].
  destruct (Z.leb_spec maxPendingRequestsPerPeer (pe_numPending peer)); [by apply IH|].
  destruct (pe_height peer <? minHeight); [by apply IH|]. simpl.
  apply inv_peers_only; [|done]. apply map_Forall_insert_2; [by apply incrPending_ok|apply Hp].
Qed.

(** Peers that time out are removed without a panic. *)
Lemma remove_timed_out_inv ids p rate :
  bp_inv p → ∃ p', remove_timed_out p rate ids = Ret p' ∧ bp_inv p'.
Proof.
  revert p. induction ids as [|id ids IH]; intros p Hp; simpl; [eauto|].
  destruct (bp_peers p !! id) as [peer|] eqn:E; [|by apply IH].
  pose proof (inv_peers _ Hp _ _ E) as Hpe.
  assert (Hset : bp_inv (sendError (with_peers p (<[id := set_didTimeout peer]> (bp_peers p)) (bp_maxPeerHeight p)) id)).
  { apply sendError_inv, inv_peers_only; [|done]. apply map_Forall_insert_2; [by apply set_didTimeout_ok|apply Hp]. }
  destruct (negb (pe_didTimeout peer) && (0 <? pe_numPending peer)) eqn:Ec.
  - apply andb_true_iff in Ec as [_ Hpos%Z.ltb_lt]. destruct (peer_ok_monitor _ _ _ Hpe Hpos) as [-> _].
    destruct (negb _ && _); simpl; apply IH.
    + apply removePeer_inv; [apply Hpe|done].
    + destruct (pe_didTimeout peer); [apply removePeer_inv; [apply Hpe|done]|done].
  - simpl. apply IH. destruct (pe_didTimeout peer); [apply removePeer_inv; [apply Hpe|done]|done].
Qed.

(** ** The other operations *)

Lemma decrPending_ok max id peer peer' :
  peer_ok max id peer → decrPending peer = Ret peer' → peer_ok max id peer'.
Proof.
  intros [P1 P2 P3 P4]. unfold decrPending. simpl. destruct (Z.eqb_spec (pe_numPending peer - 1) 0) as [E|E].
  - intros (t & Et & Er)%bind_Ret. injection Er as <-. split; simpl; [done|done|lia|lia].
  - destruct (pe_recvMonitor peer) eqn:Em; [|done]. intros [= <-]. split; simpl; [done|done|lia|]. intros. eauto.
Qed.

Lemma AddBlock_inv p peerID block p' :
  peerID ≠ [] → bp_inv p → AddBlock p peerID block = Ret p' → bp_inv p'.
Proof.
  intros Hne Hp. unfold AddBlock. destruct (bp_requesters p !! hd_Height (blk_Header block)) as [i|] eqn:Ei.
  2:{ intros [= <-]. case_match; [by apply sendError_inv|done]. }
  destruct (inv_ptr _ Hp _ _ Ei) as (r & Hr & Hh). rewrite Hr. cbn [or_panic mbind outcome_bind].
  unfold setBlock. destruct (bool_decide (is_Some (rq_block r)) || negb (bytes_equal (rq_peerID r) peerID)) eqn:E.
  { intros [= <-]. by apply sendError_inv. }
  apply orb_false_iff in E as [Eb Ep]. apply bool_decide_eq_false_1 in Eb. apply negb_false_iff, bytes_equal_true in Ep.
  set (r' := mkRequester _ _ _ _ _ _ _).
  assert (Hq : bp_inv (with_numPending (put p i r') (bp_numPending p - 1))).
  { apply (inv_put p i r r'); [done|done| |done|].
    - pose proof (inv_heap_at _ _ _ Hp Hr) as [Q1 Q2 Q3]. split; simpl; [|done|by intros ? [= <-]].
      destruct (rq_pc r); [destruct Q1; congruence..|done|done|done].
    - unfold r'. simpl. destruct (rq_block r); [by destruct Eb|]. rewrite Hh. split; [done|lia]. }
  change (with_numPending (with_heap p (<[i := r']> (bp_heap p))) (bp_numPending p - 1)) with
    (with_numPending (put p i r') (bp_numPending p - 1)).
  set (q := with_numPending _ _) in *. cbn iota zeta.
  destruct (bp_peers q !! peerID) as [peer|] eqn:Epe; [|by intros [= <-]].
  intros (peer' & Ed & Er)%bind_Ret. injection Er as <-. apply inv_peers_only; [|done].
  apply map_Forall_insert_2; [|apply Hq]. eapply decrPending_ok; [|exact Ed]. by apply (inv_peers _ Hq).
Qed.

Lemma makeNextRequester_inv p : no_overflow p → bp_inv p → bp_inv (makeNextRequester p).
Proof.
  intros [H0 Hov] Hp. unfold makeNextRequester. rewrite wrap64_id by (unfold in_int64, MinInt64, MaxInt64 in *; lia).
  set (n := bp_height p + Z.of_nat (size (bp_requesters p))). destruct (bp_maxPeerHeight p <? n); [done|].
  pose proof Hp as [R1 R2 R4 R5 R6 R7]. set (p' := mkPool _ _ _ _ _ _ _ _ _).
  assert (Hsz : ¬ snapshots → size (bp_requesters p') = S (size (bp_requesters p))).
  { intros Hns. simpl. apply map_size_insert_None. destruct (bp_requesters p !! n) eqn:E; [|done].
    assert (is_Some (bp_requesters p !! n)) as Q by eauto. apply (R2 Hns) in Q. unfold n in Q. lia. }
  assert (Hat : ∀ h, requester_at p' h = if decide (h = n) then Some (newBPRequester n) else requester_at p h).
  { intros h. unfold requester_at. simpl. destruct (decide (h = n)) as [->|Hne].
    - rewrite lookup_insert_eq. simpl. apply lookup_snoc_Some. by right.
    - rewrite lookup_insert_ne by done. destruct (bp_requesters p !! h) as [i|] eqn:E; [|done]. simpl.
      destruct (R4 _ _ E) as (r & Hr & _). rewrite Hr. by apply lookup_app_l_Some. }
  split.
  - done.
  - intros Hns h. rewrite Hsz by done. simpl. destruct (decide (h = n)) as [->|Hne].
    + rewrite lookup_insert_eq. unfold n. split; [lia|eauto].
    + rewrite lookup_insert_ne by done. rewrite (R2 Hns). unfold n in Hne. lia.
  - intros h i. simpl. destruct (decide (h = n)) as [->|Hne].
    + rewrite lookup_insert_eq. intros [= <-]. exists (newBPRequester n). split; [|done]. apply lookup_snoc_Some. by right.
    + rewrite lookup_insert_ne by done. intros E. destruct (R4 _ _ E) as (r & Hr & Hh). exists r. split; [|done].
      by apply lookup_app_l_Some.
  - simpl. apply Forall_app. split; [done|]. apply Forall_singleton. by split.
  - done.
  - assert (Hsub : unresolved p' ⊆ {[n]} ∪ unresolved p).
    { intros h. rewrite unresolved_spec. unfold missing. rewrite Hat. destruct (decide (h = n)); [set_solver|].
      intros Hm. apply elem_of_union_r, unresolved_spec. done. }
    apply subseteq_size in Hsub. rewrite size_union_alt, size_singleton in Hsub.
    assert (size (unresolved p ∖ {[n]}) ≤ size (unresolved p))%nat by (apply subseteq_size; set_solver).
    simpl. lia.
Qed.

Lemma makeRequesters_inv p rate order :
  no_overflow p → bp_inv p → ∃ p', makeRequesters p rate order = Ret p' ∧ bp_inv p'.
Proof.
  intros Ho Hp. unfold makeRequesters. simpl.
  destruct (_ <=? _); [by apply remove_timed_out_inv|]. destruct (_ <=? _); [by apply remove_timed_out_inv|].
  eexists. split; [done|]. by apply makeNextRequester_inv.
Qed.

(** A snapshot moves the height under the requesters. *)
Lemma with_height_inv p version :
  snapshots → 0 < version < 0x7fffffff → bp_inv p → bp_inv (with_height p (wrap64 (version + 1))).
Proof.
  intros Hsn Hv [R1 R2 R4 R5 R6 R7]. split; simpl; try done.
  rewrite wrap64_id by (unfold in_int64, MinInt64, MaxInt64; lia). lia.
Qed.

Lemma PopRequest_inv p p' : no_overflow p → bp_inv p → PopRequest p = Ret p' → bp_inv p'.
Proof.
  intros [H0 Hov] Hp. unfold PopRequest. destruct (bp_requesters p !! bp_height p) as [i|] eqn:Ei; [|done].
  intros [= <-]. rewrite wrap64_id by (unfold in_int64, MinInt64, MaxInt64 in *; lia).
  destruct (inv_ptr _ Hp _ _ Ei) as (r & Hr & Hh). rewrite alter_insert, Hr.
  assert (Hq : bp_inv (put p i (rq_Stop r))).
  { eapply inv_put_same; [done|done| |done|done]. by destruct (inv_heap_at _ _ _ Hp Hr). }
  change (bp_inv (mkPool (bp_running p) (<[i := rq_Stop r]> (bp_heap p)) (delete (bp_height p) (bp_requesters p))
    (bp_height p + 1) (bp_peers p) (bp_maxPeerHeight p) (bp_numPending p) (bp_requestsCh p) (bp_errorsCh p))) with
    (let q := put p i (rq_Stop r) in
     bp_inv (mkPool (bp_running q) (bp_heap q) (delete (bp_height q) (bp_requesters q))
    (bp_height q + 1) (bp_peers q) (bp_maxPeerHeight q) (bp_numPending q) (bp_requestsCh q) (bp_errorsCh q))).
  change (bp_requesters p !! bp_height p = Some i) with
    (bp_requesters (put p i (rq_Stop r)) !! bp_height (put p i (rq_Stop r)) = Some i) in Ei.
  revert Hq Ei. generalize (put p i (rq_Stop r)). clear. intros q Hq Ei. simpl.
  pose proof Hq as [R1 R2 R4 R5 R6 R7].
  assert (Hsz : S (size (delete (bp_height q) (bp_requesters q))) = size (bp_requesters q)).
  { rewrite map_size_delete_Some by eauto. destruct (size (bp_requesters q)) eqn:E; [|lia].
    apply map_size_empty_inv in E. rewrite E in Ei. by rewrite lookup_empty in Ei. }
  split; simpl.
  - lia.
  - intros Hns h. destruct (decide (h = bp_height q)) as [->|Hne].
    + rewrite lookup_delete_eq. split; [by intros []|lia].
    + rewrite lookup_delete_ne by done. rewrite (R2 Hns). lia.
  - intros h j E. apply lookup_delete_Some in E as [_ E]. by apply R4.
  - done.
  - done.
  - set (p2 := mkPool _ _ _ _ _ _ _ _ _). assert (Hsub : unresolved p2 ⊆ unresolved q).
    { intros h. rewrite !unresolved_spec. unfold missing, requester_at. simpl.
      destruct (decide (h = bp_height q)) as [->|Hne]; [rewrite lookup_delete_eq; by intros (? & ? & _)|].
      by rewrite lookup_delete_ne. }
    apply subseteq_size in Hsub. lia.
Qed.

Lemma RedoRequest_inv p h p' id : bp_inv p → RedoRequest p h = Ret (p', id) → bp_inv p'.
Proof.
  intros Hp. unfold RedoRequest. intros (r & _ & E)%bind_Ret. injection E as <- <-.
  unfold bytes_equal. case_bool_decide; [done|]. by apply removePeer_inv.
Qed.

(** Picking a peer does not touch a requester without a peer. *)
Lemma redo_all_none p peerID i r :
  peerID ≠ [] → rq_peerID r = [] → bp_heap p !! i = Some r → bp_heap (redo_all p peerID) !! i = Some r.
Proof.
  intros Hne Hr Hi. unfold redo_all. simpl. revert Hi. generalize (bp_heap p).
  induction (map_to_list (bp_requesters p)) as [|[h j] l IH]; intros heap Hi; simpl; [done|]. apply IH.
  rewrite alter_insert. destruct (heap !! j) as [s|] eqn:Ej; [|done].
  destruct (decide (j = i)) as [->|Hji]; [|by rewrite list_lookup_insert_ne].
  assert (s = r) as -> by congruence. rewrite list_lookup_insert_eq by (by eapply lookup_lt_Some).
  unfold bytes_equal. by rewrite bool_decide_eq_false_2 by congruence.
Qed.

Lemma removePeer_heap p peerID : bp_heap (removePeer p peerID) = bp_heap (redo_all p peerID).
Proof. unfold removePeer. by repeat case_match. Qed.

Lemma pick_none ids p minHeight i r :
  bp_inv p → rq_peerID r = [] → bp_heap p !! i = Some r → bp_heap (pick p minHeight ids).1 !! i = Some r.
Proof.
  intros Hp Hr. revert p Hp. induction ids as [|id ids IH]; intros p Hp Hi; simpl; [done|].
  destruct (bp_peers p !! id) as [peer|] eqn:E; [|by apply IH]. pose proof (inv_peers _ Hp _ _ E) as Hpe.
  repeat case_match; try (by apply IH); [|done].
  apply IH; [apply removePeer_inv; [apply Hpe|done]|]. rewrite removePeer_heap. apply redo_all_none; [apply Hpe|done..].
Qed.

Lemma requestRoutine_inv p i order ch p' : bp_inv p → requestRoutine p i order ch = Some p' → bp_inv p'.
Proof.
  intros Hp. unfold requestRoutine. destruct (bp_heap p !! i) as [r|] eqn:Er; [|done]. cbn [mbind option_bind].
  pose proof (inv_heap_at _ _ _ Hp Er) as Hr. pose proof Hr as [Q1 Q2 Q3].
  destruct (rq_pc r) as [|id|id| |] eqn:Epc; [| | | |done].
  - destruct (rq_stopped r || negb (bp_running p)); [intros [= <-]; eapply inv_put_same; [done|done|by split|done|done]|].
    unfold pickIncrAvailablePeer. pose proof (pick_inv order p (rq_height r) Hp) as Hq.
    pose proof (pick_none order p (rq_height r) i r Hp (proj1 Q1) Er) as Hpick.
    destruct (pick p (rq_height r) order) as [q [id|]]; [|by intros [= <-]]. simpl in Hq, Hpick. rewrite Hpick.
    cbn [mbind option_bind]. intros [= <-]. eapply inv_put_same; [done|done|by split|done|done].
  - intros [= <-]. eapply inv_put_same; [done|done| |done|done].
    destruct Q1 as (_ & Eb & Ere). split; simpl; [done|congruence|congruence].
  - intros [= <-]. eapply inv_put_same; [by apply sendRequest_inv|by rewrite sendRequest_heap|by split|done|done].
  - destruct ch.
    + destruct (bp_running p); [done|]. intros [= <-]. eapply inv_put_same; [done|done|by split|done|done].
    + destruct (rq_stopped r); [|done]. intros [= <-]. eapply inv_put_same; [done|done|by split|done|done].
    + destruct (rq_redoCh r) as [id|]; [|done]. intros [= <-]. case_match.
      * unfold reset.
        apply (inv_put p i r (mkRequester (rq_height r) (rq_gotBlockCh r) None [] None (rq_stopped r) Picking));
          [done|done|by split|done|]. simpl. destruct (rq_block r); lia.
      * eapply inv_put_same; [done|done| |done|done]. split; simpl; [by rewrite Epc|done|done].
    + destruct (rq_gotBlockCh r); [|done]. intros [= <-]. eapply inv_put_same; [done|done| |done|done].
      split; simpl; [by rewrite Epc|done|done].
Qed.

Lemma NewBlockPool_inv start : 0 ≤ start < MaxInt64 → bp_inv (NewBlockPool start).
Proof.
  intros Hs. split; simpl; [lia| |intros ? ?; by rewrite lookup_empty|done|done|].
  - rewrite map_size_empty. intros _ h. rewrite lookup_empty. split; [by intros []|lia].
  - replace (unresolved (NewBlockPool start)) with (∅ : gset Z); [by rewrite size_empty|].
    apply set_eq. intros h. rewrite unresolved_spec. split; [by intros ?%elem_of_empty|].
    intros (r & Hr & _). unfold requester_at in Hr. simpl in Hr. by rewrite lookup_empty in Hr.
Qed.

Lemma bp_step_inv p p' : bp_inv p → bp_step p p' → bp_inv p'.
Proof.
  intros Hp Hst.
  destruct Hst as [Ho|rate order p' E|id b p' Hid E|id h Hid|id Hid|id|p' Ho E|h p' id E|i order ch p' E|v Hsn Hv|].
  - by apply makeNextRequester_inv.
  - destruct (remove_timed_out_inv order p rate Hp) as (q & E' & Hq). unfold removeTimedoutPeers in E.
    rewrite E in E'. by injection E' as <-.
  - by eapply AddBlock_inv.
  - by apply SetPeerHeight_inv.
  - by apply removePeer_inv.
  - by apply onTimeout_inv.
  - by eapply PopRequest_inv.
  - by eapply RedoRequest_inv.
  - by eapply requestRoutine_inv.
  - by apply with_height_inv.
  - by eapply inv_ext; [..|exact Hp]; try done; apply Hp.
Qed.

Lemma bp_reach_inv start p : 0 ≤ start < MaxInt64 → bp_reach start p → bp_inv p.
Proof.
  intros Hs Hr. pose proof (NewBlockPool_inv start Hs) as H0. unfold bp_reach in Hr. revert H0 Hr.
  generalize (NewBlockPool start). intros q Hq Hr. induction Hr as [|q q' p Hst _ IH]; [done|].
  apply IH. by eapply bp_step_inv.
Qed.

(** ** Theorems *)

(** C22. Under every interleaving of the goroutines and of snapshot responses, the requester of a height is a requester
    for that height, a block that it holds has that height, the count of pending requests is at least the number of
    requesters without a block (it can be more), no peer has more than twenty requests or more than the greatest
    height; and as long as no snapshot response has set the pool's height, the requesters are those of
    consecutive heights from the pool's height on. *)
Theorem block_pool_consistent start p :
  0 ≤ start < MaxInt64 → bp_reach start p →
  (∀ h i, bp_requesters p !! h = Some i → ∃ r, requester_at p h = Some r ∧ rq_height r = h ∧
     ∀ b, rq_block r = Some b → hd_Height (blk_Header b) = h) ∧
  Z.of_nat (size (unresolved p)) ≤ bp_numPending p ∧
  (∀ id peer, bp_peers p !! id = Some peer →
    pe_numPending peer ≤ maxPendingRequestsPerPeer ∧ pe_height peer ≤ bp_maxPeerHeight p) ∧
  (¬ snapshots →
    ∀ h, is_Some (requester_at p h) ↔ bp_height p ≤ h < bp_height p + Z.of_nat (size (bp_requesters p))).
Proof.
  intros Hs Hr. pose proof (bp_reach_inv _ _ Hs Hr) as Hp. split_and!.
  - intros h i E. destruct (inv_ptr _ Hp _ _ E) as (r & Hi & <-). exists r. unfold requester_at. rewrite E. simpl.
    split_and!; [done|done|]. apply (rq_ok_block _ (inv_heap_at _ _ _ Hp Hi)).
  - apply Hp.
  - intros id peer Hid. destruct (inv_peers _ Hp _ _ Hid). done.
  - intros Hns h. rewrite <-(inv_range _ Hp Hns h). unfold requester_at.
    destruct (bp_requesters p !! h) as [i|] eqn:E; simpl; [|done].
    destruct (inv_ptr _ Hp _ _ E) as (r & -> & _). split; intros; eauto.
Qed.

(** The two blocks at the front, and asking for both again. *)
Lemma peek_heights p a b :
  bp_inv p → no_overflow p → PeekTwoBlocks p = (Some a, Some b) →
  hd_Height (blk_Header a) = bp_height p ∧ hd_Height (blk_Header b) = bp_height p + 1 ∧
  is_Some (bp_requesters p !! bp_height p) ∧ is_Some (bp_requesters p !! (bp_height p + 1)).
Proof.
  intros Hp [H0 Hov] Hpk. unfold PeekTwoBlocks in Hpk.
  rewrite wrap64_id in Hpk by (unfold in_int64, MinInt64, MaxInt64 in *; lia). injection Hpk as Ha Hb.
  assert (Hget : ∀ h c, requester_at p h ≫= rq_block = Some c →
    hd_Height (blk_Header c) = h ∧ is_Some (bp_requesters p !! h)).
  { intros h c. unfold requester_at. destruct (bp_requesters p !! h) as [i|] eqn:E; [|done]. simpl.
    destruct (inv_ptr _ Hp _ _ E) as (r & Hi & <-). rewrite Hi. simpl. intros Hc. split; [|eauto].
    by apply (rq_ok_block _ (inv_heap_at _ _ _ Hp Hi)). }
  destruct (Hget _ _ Ha), (Hget _ _ Hb). done.
Qed.

Lemma RedoRequest_ok p h :
  bp_inv p → is_Some (bp_requesters p !! h) →
  ∃ p' id, RedoRequest p h = Ret (p', id) ∧ bp_inv p' ∧ bp_requesters p' = bp_requesters p.
Proof.
  intros Hp [i Hi]. destruct (inv_ptr _ Hp _ _ Hi) as (r & Hr & _).
  assert (Hat : requester_at p h = Some r) by (unfold requester_at; by rewrite Hi). unfold RedoRequest. rewrite Hat. simpl.
  eexists _, _. split; [done|]. unfold bytes_equal. case_bool_decide; [done|]. split; [by apply removePeer_inv|].
  unfold removePeer. by repeat case_match.
Qed.

Lemma redo_two p a b :
  bp_inv p → no_overflow p → PeekTwoBlocks p = (Some a, Some b) →
  ∃ p' id, RedoRequest p (hd_Height (blk_Header a)) = Ret (p', id) ∧
    ∃ p'' id', RedoRequest p' (hd_Height (blk_Header b)) = Ret (p'', id').
Proof.
  intros Hp Ho Hpk. destruct (peek_heights _ _ _ Hp Ho Hpk) as (-> & -> & H1 & H2).
  destruct (RedoRequest_ok _ _ Hp H1) as (p' & id & E & Hp' & Eq). exists p', id. split; [done|]. rewrite <-Eq in H2.
  destruct (RedoRequest_ok _ _ Hp' H2) as (p'' & id' & E' & _). eauto.
Qed.

(** The two blocks that fast sync looks at next have the pool's height and the one above, so that the second's
    last commit is about the first; taking the first one or asking for both again does not panic, nor does a turn of
    the routine that makes requests. *)
Theorem peeked_blocks_consecutive start p a b :
  0 ≤ start < MaxInt64 → bp_reach start p → no_overflow p → PeekTwoBlocks p = (Some a, Some b) →
  hd_Height (blk_Header a) = bp_height p ∧ hd_Height (blk_Header b) = bp_height p + 1 ∧
  (∃ p', PopRequest p = Ret p' ∧ bp_height p' = bp_height p + 1) ∧
  (∃ p' id, RedoRequest p (hd_Height (blk_Header a)) = Ret (p', id) ∧
     ∃ p'' id', RedoRequest p' (hd_Height (blk_Header b)) = Ret (p'', id')) ∧
  ∀ rate order, ∃ p', makeRequesters p rate order = Ret p'.
Proof.
  intros Hs Hr Ho Hpk. pose proof (bp_reach_inv _ _ Hs Hr) as Hp.
  destruct (peek_heights _ _ _ Hp Ho Hpk) as (E1 & E2 & [i Hi] & _). split_and!; [done|done| |by apply redo_two|].
  - unfold PopRequest. rewrite Hi. eexists. split; [done|]. simpl. destruct Ho. rewrite wrap64_id; [done|].
    unfold in_int64, MinInt64, MaxInt64 in *. lia.
  - intros rate order. destruct (makeRequesters_inv p rate order Ho Hp) as (p' & E & _). eauto.
Qed.

(** A block panics the pool only if it comes from a peer of which nothing is expected. *)
Theorem AddBlock_panics_only_unexpected start p peerID block :
  0 ≤ start < MaxInt64 → bp_reach start p → AddBlock p peerID block = Panic →
  ∃ peer, bp_peers p !! peerID = Some peer ∧ pe_numPending peer ≤ 0.
Proof.
  intros Hs Hr E. pose proof (bp_reach_inv _ _ Hs Hr) as Hp. unfold AddBlock in E.
  destruct (bp_requesters p !! hd_Height (blk_Header block)) as [i|] eqn:Ei; [|done].
  destruct (inv_ptr _ Hp _ _ Ei) as (r & Hi & _). rewrite Hi in E. cbn [or_panic mbind outcome_bind] in E.
  destruct (setBlock r block peerID) as [r' []]; [|done]. cbn iota zeta in E. simpl in E.
  destruct (bp_peers p !! peerID) as [peer|] eqn:Epe; [|done]. exists peer. split; [done|].
  destruct (Z.le_gt_cases (pe_numPending peer) 0) as [|Hpos]; [done|]. exfalso.
  destruct (peer_ok_monitor _ _ _ (inv_peers _ Hp _ _ Epe)) as [Em [t Et]]; [lia|].
  unfold decrPending in E. simpl in E. rewrite Em, Et in E. by destruct (pe_numPending peer - 1 =? 0).
Qed.

End snapshots.

(** ** Runs *)

Definition peerA : bytes := [x41].
Definition peerB : bytes := [x42].

Definition bare_header (h : Z) : Header :=
  mkHeader (mkVersion 0 0) [] h 0 0 0 (mkBlockID [] (mkPartSetHeader 0 [])) [] [] [] [] [] [] [] [] [] [] [].
Definition bare_block (h : Z) : Block := mkBlock [] (bare_header h) [] [] None.

Definition ret_pool (m : outcome BlockPool) (p : BlockPool) : BlockPool := match m with Ret p => p | Panic => p end.
Definition make (p : BlockPool) : BlockPool := ret_pool (makeRequesters p (λ _, 0) []) p.
Definition turn (p : BlockPool) (i : nat) (ch : choice) : BlockPool := default p (requestRoutine p i [peerA; peerB] ch).

(** One peer, one requester that has picked it. *)
Definition picked : BlockPool := turn (make (SetPeerHeight (NewBlockPool 1) peerA 10)) 0 OnQuit.
(** The requester waits for the peer. *)
Definition asked : BlockPool := turn (turn picked 0 OnQuit) 0 OnQuit.

Lemma picked_reach snapshots : bp_reach snapshots 1 picked.
Proof.
  eapply rtc_l; [by apply (st_height _ _ peerA 10)|].
  eapply rtc_l; [apply (st_make _ _ (λ _, 0) []); [vm_compute; done|vm_compute; reflexivity]|].
  apply rtc_once, (st_request _ _ 0 [peerA; peerB] OnQuit). vm_compute. reflexivity.
Qed.

Lemma asked_reach snapshots : bp_reach snapshots 1 asked.
Proof.
  unfold bp_reach. etrans; [apply picked_reach|].
  eapply rtc_l; [apply (st_request _ _ 0 [peerA; peerB] OnQuit); vm_compute; reflexivity|].
  apply rtc_once, (st_request _ _ 0 [peerA; peerB] OnQuit). vm_compute. reflexivity.
Qed.

(** A peer that is dropped and reported again before its requester notices panics the node with the block it was asked for:
    the new record of the peer has no monitor. *)
Theorem late_block_panics :
  ∃ p, bp_reach False 1 p ∧ AddBlock p peerA (bare_block 1) = Panic.
Proof.
  exists (SetPeerHeight (RemovePeer asked peerA) peerA 10). split; [|vm_compute; reflexivity].
  unfold bp_reach. etrans; [apply asked_reach|].
  eapply rtc_l; [by apply (st_remove _ _ peerA)|]. by apply rtc_once, (st_height _ _ peerA 10).
Qed.

(** A peer removed between being picked and being noted leaves its requester waiting for an answer that cannot come:
    the request is to a peer that the pool no longer knows, nothing tells the requester to ask another one, and no choice
    of its select statement is ready. *)
Theorem request_to_removed_peer_is_lost :
  ∃ p r, bp_reach False 1 p ∧ requester_at p (bp_height p) = Some r ∧ rq_pc r = Waiting ∧ rq_block r = None ∧
    bp_peers p !! rq_peerID r = None ∧ (∀ order ch, requestRoutine p 0 order ch = None) ∧
    bp_requesters p = {[bp_height p := 0%nat]}.
Proof.
  set (p := turn (turn (SetPeerHeight (RemovePeer picked peerA) peerB 10) 0 OnQuit) 0 OnQuit).
  exists p, (mkRequester 1 false None peerA None false Waiting). split; [|split_and!; try (vm_compute; reflexivity)].
  - unfold bp_reach. etrans; [apply picked_reach|]. eapply rtc_l; [by apply (st_remove _ _ peerA)|].
    eapply rtc_l; [by apply (st_height _ _ peerB 10)|].
    eapply rtc_l; [apply (st_request _ _ 0 [peerA; peerB] OnQuit); vm_compute; reflexivity|].
    apply rtc_once, (st_request _ _ 0 [peerA; peerB] OnQuit). vm_compute. reflexivity.
  - intros order []; vm_compute; reflexivity.
Qed.

(** A peer that reports a great height and then a small one leaves the greatest height behind when it goes: with only
    peers that are not ahead of this node, the node never finds itself caught up. *)
Theorem stale_height_blocks_sync :
  ∃ p, bp_reach False 6 p ∧ map_Forall (λ _ peer, pe_height peer < bp_height p) (bp_peers p) ∧ bp_peers p ≠ ∅ ∧
    ∀ waited, IsCaughtUp p waited = false.
Proof.
  exists (RemovePeer (SetPeerHeight (SetPeerHeight (SetPeerHeight (NewBlockPool 6) peerA 1000) peerA 5) peerB 5) peerA).
  split_and!.
  - eapply rtc_l; [by apply (st_height _ _ peerA 1000)|]. eapply rtc_l; [by apply (st_height _ _ peerA 5)|].
    eapply rtc_l; [by apply (st_height _ _ peerB 5)|]. by apply rtc_once, (st_remove _ _ peerA).
  - apply (bool_decide_eq_true_1 (map_Forall (λ _ peer, pe_height peer < _) _)). vm_compute. reflexivity.
  - intros E%(f_equal size). vm_compute in E. done.
  - intros waited. destruct waited; vm_compute; reflexivity.
Qed.

(** A block that is given up between being looked at and being taken stays counted as pending for good; after six hundred
    of them the pool asks for no more blocks. *)
Theorem pending_count_leaks :
  ∃ p, bp_reach False 1 p ∧ bp_requesters p = ∅ ∧ bp_numPending p = 1.
Proof.
  set (p1 := ret_pool (AddBlock asked peerA (bare_block 1)) asked). set (p2 := turn (RemovePeer p1 peerA) 0 OnRedo).
  exists (ret_pool (PopRequest p2) p2). split_and!; [|vm_compute; reflexivity|vm_compute; reflexivity].
  unfold bp_reach. etrans; [apply asked_reach|].
  eapply rtc_l; [apply (st_block _ _ peerA (bare_block 1) p1); [done|vm_compute; reflexivity]|].
  eapply rtc_l; [by apply (st_remove _ _ peerA)|].
  eapply rtc_l; [apply (st_request _ _ 0 [peerA; peerB] OnRedo p2); vm_compute; reflexivity|].
  apply rtc_once, st_pop; [vm_compute; done|vm_compute; reflexivity].
Qed.

(** Two requesters with their blocks. *)
Definition two_asked : BlockPool := turn (turn (turn (make asked) 1 OnQuit) 1 OnQuit) 1 OnQuit.
Definition both : BlockPool :=
  let p := ret_pool (AddBlock two_asked peerA (bare_block 1)) two_asked in ret_pool (AddBlock p peerA (bare_block 2)) p.

Lemma both_reach : bp_reach False 1 both.
Proof.
  unfold bp_reach. etrans; [apply asked_reach|].
  eapply rtc_l; [apply (st_make _ _ (λ _, 0) []); [vm_compute; done|vm_compute; reflexivity]|].
  do 3 (eapply rtc_l; [apply (st_request _ _ 1 [peerA; peerB] OnQuit); vm_compute; reflexivity|]).
  eapply rtc_l; [apply (st_block _ _ peerA (bare_block 1)); [done|vm_compute; reflexivity]|].
  apply rtc_once, (st_block _ _ peerA (bare_block 2)); [done|vm_compute; reflexivity].
Qed.

Lemma block_pool_consistent_witness :
  Z.of_nat (size (unresolved both)) ≤ bp_numPending both ∧
  (is_Some (requester_at both 2) ↔ bp_height both ≤ 2 < bp_height both + Z.of_nat (size (bp_requesters both))).
Proof.
  destruct (block_pool_consistent False 1 both (conj Z.le_0_1 eq_refl) both_reach) as (_ & Hn & _ & Hr).
  split; [exact Hn|exact (Hr (λ x, x) 2)].
Defined.

Lemma peeked_blocks_consecutive_witness : ∃ p', PopRequest both = Ret p' ∧ bp_height p' = bp_height both + 1.
Proof.
  refine (proj1 (proj2 (proj2 (peeked_blocks_consecutive False 1 both (bare_block 1) (bare_block 2)
    (conj Z.le_0_1 eq_refl) both_reach _ _)))); [vm_compute; done|vm_compute; reflexivity].
Defined.

Lemma AddBlock_panics_only_unexpected_witness :
  ∃ peer, bp_peers (SetPeerHeight (RemovePeer asked peerA) peerA 10) !! peerA = Some peer ∧ pe_numPending peer ≤ 0.
Proof.
  apply (AddBlock_panics_only_unexpected False 1 _ _ (bare_block 1)); [done| |vm_compute; reflexivity].
  unfold bp_reach. etrans; [apply asked_reach|].
  eapply rtc_l; [by apply (st_remove _ _ peerA)|]. by apply rtc_once, (st_height _ _ peerA 10).
Defined.

(** After a snapshot response the requesters are those of the heights before it: none is at the pool's height, the two blocks
    that fast sync looks at are not there, and the next requester made is not the one for the pool's height either. *)
Theorem snapshot_strands_requesters :
  ∃ p, bp_reach True 1 p ∧ bp_height p = 6 ∧ bp_requesters p ≠ ∅ ∧ requester_at p (bp_height p) = None ∧
    PeekTwoBlocks p = (None, None) ∧ requester_at (makeNextRequester p) (bp_height p) = None.
Proof.
  exists (with_height asked (wrap64 (5 + 1))). split_and!; [|vm_compute; reflexivity| |vm_compute; reflexivity..].
  - unfold bp_reach. etrans; [apply (asked_reach True)|]. apply rtc_once, st_snapshot; [done|lia].
  - intros E%(f_equal size). vm_compute in E. done.
Qed.
