(* ===== verification/FastSync.v ===== *)
(** * Fast sync: the reactor (blockchain/reactor.go)

    Messages of peers, the sync step of [poolRoutine] over the pool, the block store and the
    state, and the snapshots of accounts that this program adds to fast sync.

    A message comes decoded; the contents of a snapshot message, JSON in the code, are decoded too. The execution of a block
    ([ApplyBlock]) and the decoding of a stored block are parameters. What is sent to peers is a list of messages; [true] as the last
    result says that the sender is stopped. The variable [IsNewPeer], which a snapshot sets and nothing reads, is left out. *)

From Stdlib Require Import ZArith Lia Bool Strings.Byte.
From stdpp Require Import base list gmap sets relations.
From S2P Require Import Prelude Merkle Types ValidatorSet VerifyCommit PartSet Block StateStore BlockStore Account.
From S2P Require Import BlockPool BlockPoolProofs.
Local Open Scope Z_scope.

Inductive BlockchainMessage :=
| bcBlockRequestMessage (Height : Z)
| bcNoBlockResponseMessage (Height : Z)
| bcBlockResponseMessage (b : option Block)
| bcStatusRequestMessage (Height : Z)
| bcStatusResponseMessage (Height : Z)
| bcSnapshotRequestMessage
| bcSnapshotResponseMessage (Version : Z) (Content : gmap bytes bytes) (ValSet NextVal : ValidatorSet).

Record BlockchainReactor := mkReactor {
  bc_initialState : State;
  bc_store : BlockStore;
  bc_pool : BlockPool;
  bc_accounts : accounts   (* the variables of package account *)
}.

Definition with_pool (bcR : BlockchainReactor) (p : BlockPool) : BlockchainReactor :=
  mkReactor (bc_initialState bcR) (bc_store bcR) p (bc_accounts bcR).

(** The fields a snapshot or the sync loop sets. *)
Definition set_validators (st : State) (height : Z) (vals next : ValidatorSet) : State :=
  mkState (st_Version st) (st_ChainID st) height (st_LastBlockTotalTx st) (st_LastBlockID st) (st_LastBlockTime st)
    next vals (st_LastValidators st) (st_LastHeightValidatorsChanged st) (st_ConsensusParams st)
    (st_LastHeightConsensusParamsChanged st) (st_LastResultsHash st) (st_AppHash st) (st_SpTxBuf st) (st_HashSignature st).

Section reactor.
Context (Sum : bytes → bytes) `{BlockCodec} `{Codec} `{Crypto} (unmarshalBlock : bytes → option Block).

Definition NewBlockchainReactor (state : State) (store : BlockStore) (a : accounts) : outcome BlockchainReactor :=
  if negb (st_LastBlockHeight state =? BS_Height store) then Panic
  else Ret (mkReactor state store (NewBlockPool (wrap64 (BS_Height store + 1))) a).

Definition msg_ValidateBasic (msg : BlockchainMessage) : outcome bool :=
  match msg with
  | bcBlockRequestMessage h | bcNoBlockResponseMessage h | bcStatusRequestMessage h | bcStatusResponseMessage h =>
      Ret (0 <=? h)
  | bcBlockResponseMessage b => err ← Block_ValidateBasic Sum b; Ret (match err with None => true | Some _ => false end)
  | bcSnapshotRequestMessage | bcSnapshotResponseMessage _ _ _ _ => Ret true
  end.

Definition respondToPeer (bcR : BlockchainReactor) (height : Z) : outcome BlockchainMessage :=
  block ← LoadBlock unmarshalBlock (bc_store bcR) height;
  Ret (match block with
       | Some b => bcBlockResponseMessage (Some b)
       | None => bcNoBlockResponseMessage height
       end).

(** The answer to a snapshot request; the public keys are part of the validators here. *)
Definition send_snapshot (bcR : BlockchainReactor) : outcome BlockchainMessage :=
  let snapshot := GetSnapshot (bc_accounts bcR) in
  vals ← or_panic (sn_ValSet snapshot);
  next ← or_panic (sn_NextValSet snapshot);
  Ret (bcSnapshotResponseMessage (sn_Version snapshot) (default ∅ (sn_Content snapshot)) vals next).

Definition SetStates (a : accounts) (content : gmap bytes bytes) : accounts :=
  foldl (λ a kv, setState a kv.1 kv.2) a (map_to_list content).

Definition receive_snapshot (bcR : BlockchainReactor) (version : Z) (content : gmap bytes bytes)
    (vals next : ValidatorSet) : BlockchainReactor :=
  let a := SetStates (bc_accounts bcR) content in
  let a := SetSnapshot a (mkSnapshot version (Some content) (Some vals) (Some next)) in
  if (0 <? version) && (version <? 0x7fffffff) then
    mkReactor (set_validators (bc_initialState bcR) version vals next)
      (mkBlockStore (bs_db (bc_store bcR)) version) (with_height (bc_pool bcR) (wrap64 (version + 1))) a
  else mkReactor (bc_initialState bcR) (bc_store bcR) (bc_pool bcR) a.

Definition Receive (bcR : BlockchainReactor) (src : bytes) (msg : option BlockchainMessage) :
    outcome (BlockchainReactor * list BlockchainMessage * bool) :=
  match msg with
  | None => Ret (bcR, [], true)
  | Some msg =>
      ok ← msg_ValidateBasic msg;
      if negb ok then Ret (bcR, [], true)
      else
        match msg with
        | bcBlockRequestMessage height => m ← respondToPeer bcR height; Ret (bcR, [m], false)
        | bcBlockResponseMessage b =>
            b ← or_panic b; p ← AddBlock (bc_pool bcR) src b; Ret (with_pool bcR p, [], false)
        | bcStatusRequestMessage _ => Ret (bcR, [bcStatusResponseMessage (BS_Height (bc_store bcR))], false)
        | bcStatusResponseMessage height =>
            Ret (with_pool bcR (SetPeerHeight (bc_pool bcR) src height), [], false)
        | bcNoBlockResponseMessage _ => Ret (bcR, [], false)
        | bcSnapshotRequestMessage => m ← send_snapshot bcR; Ret (bcR, [m], false)
        | bcSnapshotResponseMessage version content vals next =>
            Ret (receive_snapshot bcR version content vals next, [], false)
        end
  end.

(** The case [<-didProcessCh] of [poolRoutine]: the reactor and the running state. *)
Definition try_sync (ApplyBlock : State → BlockID → Block → outcome (option State))
    (bcR : BlockchainReactor) (state : State) : outcome (BlockchainReactor * State) :=
  match PeekTwoBlocks (bc_pool bcR) with
  | (Some first, Some second) =>
      parts ← MakePartSet Sum (Some first) BlockPartSizeBytes;
      firstParts ← or_panic parts;
      let '(hash, filled) := Block_Hash Sum (Some first) in
      let first := default first filled in
      let firstID := mkBlockID hash (PartSet_Header (Some firstParts)) in
      let vals := Copy (st_Validators (bc_initialState bcR)) in
      let next := Copy (st_NextValidators (bc_initialState bcR)) in
      commit ← or_panic (blk_LastCommit second);
      '(vals, err) ← VerifyCommit vals (st_ChainID (bc_initialState bcR)) firstID (hd_Height (blk_Header first)) commit;
      let state := set_validators state (st_LastBlockHeight state) vals next in
      match err with
      | Some _ =>
          '(p, _) ← RedoRequest (bc_pool bcR) (hd_Height (blk_Header first));
          '(p, _) ← RedoRequest p (hd_Height (blk_Header second));
          Ret (with_pool bcR p, state)
      | None =>
          p ← PopRequest (bc_pool bcR);
          '(store, first) ← SaveBlock Sum (bc_store bcR) (Some first) (Some firstParts) (Some commit);
          applied ← ApplyBlock state firstID first;
          state ← or_panic applied;
          Ret (mkReactor (bc_initialState bcR) store p (bc_accounts bcR), state)
      end
  | _ => Ret (bcR, state)
  end.

(** The case of the switch to consensus: the state handed over, if the node is caught up. *)
Definition switch_to_consensus (bcR : BlockchainReactor) (state : State) (waited : bool) : option State :=
  let '(height, _, _) := GetStatus (bc_pool bcR) in
  if IsCaughtUp (bc_pool bcR) waited
  then Some (set_validators state (wrap64 (height - 1)) (Copy (st_Validators (bc_initialState bcR))) (st_NextValidators state))
  else None.
End reactor.

(** ** Theorems *)

Section theorems.
Context (Sum : bytes → bytes) `{BlockCodec} `{Codec} `{Crypto} (unmarshalBlock : bytes → option Block).

Lemma Copy_eq (vals : ValidatorSet) : Copy vals = vals.
Proof. by destruct vals. Qed.

Lemma SaveBlock_effect bs block ps c bs' b' :
  SaveBlock Sum bs (Some block) (Some ps) (Some c) = Ret (bs', b') →
  bs_height bs' = bs_height bs + 1 ∧ hd_Height (blk_Header block) = bs_height bs + 1 ∧
  db_seen (bs_db bs') !! (bs_height bs + 1) = Some c.
Proof.
  unfold SaveBlock. cbn [or_panic mbind outcome_bind]. unfold BS_Height.
  destruct (Z.eqb_spec (hd_Height (blk_Header block)) (bs_height bs + 1)) as [Eh|]; [|done]. cbn [negb].
  destruct (IsComplete ps); [|done]. cbn [negb]. destruct (NewBlockMeta Sum block ps) as [meta b1].
  intros (db & _ & E)%bind_Ret. apply bind_Ret in E as (lc & _ & E). cbn [or_panic mbind outcome_bind] in E.
  injection E as <- <-. simpl. rewrite Eh. split_and!; [done|done|]. apply lookup_insert_eq.
Qed.

(** The identifier fast sync computes for a block. *)
Definition sync_id (first : Block) (ps : PartSet) : BlockID :=
  mkBlockID (Block_Hash Sum (Some first)).1 (PartSet_Header (Some ps)).

Lemma fill_height (b : Block) : hd_Height (blk_Header (default b (Block_Hash Sum (Some b)).2)) = hd_Height (blk_Header b).
Proof. unfold Block_Hash. by destruct (blk_LastCommit b). Qed.

(** C23. Fast sync saves a block only when the next block carries a commit for it, of its identifier and height, that is signed
    by more than two thirds of the validators the node started with; the commit is kept with the block, whose height is the next of
    the store. *)
Theorem synced_blocks_verified AB bcR state bcR' state' :
  wf (st_Validators (bc_initialState bcR)) → try_sync Sum AB bcR state = Ret (bcR', state') →
  bc_store bcR' = bc_store bcR ∨
  ∃ first second ps commit, PeekTwoBlocks (bc_pool bcR) = (Some first, Some second) ∧
    MakePartSet Sum (Some first) BlockPartSizeBytes = Ret (Some ps) ∧ blk_LastCommit second = Some commit ∧
    commit_accepted (st_Validators (bc_initialState bcR)) (st_ChainID (bc_initialState bcR)) (sync_id first ps)
      (hd_Height (blk_Header first)) commit ∧
    hd_Height (blk_Header first) = bs_height (bc_store bcR) + 1 ∧
    bs_height (bc_store bcR') = bs_height (bc_store bcR) + 1 ∧
    db_seen (bs_db (bc_store bcR')) !! (bs_height (bc_store bcR) + 1) = Some commit.
Proof.
  intros Hwf. unfold try_sync. destruct (PeekTwoBlocks (bc_pool bcR)) as [[first|] [second|]] eqn:Epk;
    [|by intros [= <- <-]; left..].
  intros (parts & Eparts & E)%bind_Ret. apply bind_Ret in E as (ps & Eps & E). apply or_panic_Ret in Eps as ->.
  pose proof (fill_height first) as Hfill. unfold sync_id.
  destruct (Block_Hash Sum (Some first)) as [hash filled] eqn:Eh. cbn [fst snd] in *.
  apply bind_Ret in E as (commit & Ec & E). apply or_panic_Ret in Ec as Ec.
  rewrite !Copy_eq in E.
  destruct (VerifyCommit_spec (st_Validators (bc_initialState bcR)) (st_ChainID (bc_initialState bcR))
    (mkBlockID hash (PartSet_Header (Some ps))) (hd_Height (blk_Header (default first filled))) commit Hwf)
    as (vals & err & Ev & _ & Hacc).
  rewrite Ev in E. cbn [mbind outcome_bind] in E. destruct err as [err|].
  - apply bind_Ret in E as ([p1 ?] & _ & E). apply bind_Ret in E as ([p2 ?] & _ & E). injection E as <- <-. by left.
  - right. apply bind_Ret in E as (p & _ & E). apply bind_Ret in E as ([store b'] & Es & E).
    apply bind_Ret in E as (applied & _ & E). apply bind_Ret in E as (st & _ & E). injection E as <- <-.
    destruct (SaveBlock_effect _ _ _ _ _ _ Es) as (E1 & E2 & E3). rewrite Hfill in E2, Hacc.
    exists first, second, ps, commit. rewrite Eh. split_and!; [done|done|done|by apply Hacc|done|done|done].
Qed.

(** Every block is checked against the validators of the start: when the chain's validator set has changed in size, the next
    block is refused whatever its signatures, nothing is saved, and the peers that sent the two blocks are dropped, now and at
    every later attempt. *)
Theorem validator_change_stops_sync AB bcR state snapshots start first second ps commit :
  0 ≤ start < MaxInt64 → bp_reach snapshots start (bc_pool bcR) → no_overflow (bc_pool bcR) →
  PeekTwoBlocks (bc_pool bcR) = (Some first, Some second) →
  MakePartSet Sum (Some first) BlockPartSizeBytes = Ret (Some ps) → blk_LastCommit second = Some commit →
  Commit_ValidateBasic commit = None →
  zlen (Validators (st_Validators (bc_initialState bcR))) ≠ zlen (commit_Precommits commit) →
  ∃ bcR' state' p id id', try_sync Sum AB bcR state = Ret (bcR', state') ∧ bc_store bcR' = bc_store bcR ∧
    RedoRequest (bc_pool bcR) (hd_Height (blk_Header first)) = Ret (p, id) ∧
    RedoRequest p (hd_Height (blk_Header second)) = Ret (bc_pool bcR', id').
Proof.
  intros Hs Hr Ho Hpk Hps Hc Hcb Hne. unfold try_sync. rewrite Hpk, Hps. cbn [mbind outcome_bind or_panic].
  pose proof (fill_height first) as Hfill. destruct (Block_Hash Sum (Some first)) as [hash filled]. cbn [fst snd] in *.
  rewrite Hc. cbn [mbind outcome_bind or_panic]. rewrite !Copy_eq. unfold VerifyCommit. rewrite Hcb. unfold Size.
  destruct (Z.eqb_spec (zlen (Validators (st_Validators (bc_initialState bcR)))) (zlen (commit_Precommits commit)));
    [done|]. cbn [negb mbind outcome_bind].
  assert (Hredo : ∃ p id, RedoRequest (bc_pool bcR) (hd_Height (blk_Header first)) = Ret (p, id) ∧
    ∃ p' id', RedoRequest p (hd_Height (blk_Header second)) = Ret (p', id')).
  { pose proof (bp_reach_inv _ _ _ Hs Hr) as Hp. apply (redo_two _ _ _ _ Hp Ho Hpk). }
  destruct Hredo as (p & id & E1 & p' & id' & E2). rewrite Hfill, E1. cbn [mbind outcome_bind]. rewrite E2.
  cbn [mbind outcome_bind]. eexists _, _, _, _, _. split; [done|]. split_and!; [done|done|exact E2].
Qed.

Lemma SetStates_lookup content a k :
  getState (SetStates a content) k = match content !! k with Some v => Some v | None => getState a k end.
Proof.
  unfold SetStates. pose proof (NoDup_fst_map_to_list content) as Hnd.
  assert (Hl : ∀ l a, NoDup l.*1 → getState (foldl (λ a (kv : bytes * bytes), setState a kv.1 kv.2) a l) k =
    match (list_to_map l : gmap bytes bytes) !! k with Some v => Some v | None => getState a k end).
  { induction l as [|[k' v'] l IH]; intros b Hl; simpl; [by rewrite lookup_empty|]. csimpl in Hl.
    apply NoDup_cons in Hl as [Hn Hl]. rewrite IH by done. unfold setState, getState. simpl.
    destruct (decide (k = k')) as [->|Hne].
    - rewrite not_elem_of_list_to_map_1 by done. by rewrite !lookup_insert_eq.
    - by rewrite !lookup_insert_ne. }
  rewrite Hl by done. by rewrite list_to_map_to_list.
Qed.

(** A snapshot is taken from any peer at any time, asked for or not, and nothing in it is checked: it sets the balances, the
    heights of store and pool, and the validators against which fast sync verifies the following blocks. *)
Theorem snapshot_from_any_peer bcR src version content vals next :
  0 < version < 0x7fffffff →
  ∃ bcR', Receive Sum unmarshalBlock bcR src (Some (bcSnapshotResponseMessage version content vals next)) =
      Ret (bcR', [], false) ∧
    BS_Height (bc_store bcR') = version ∧ bp_height (bc_pool bcR') = version + 1 ∧
    st_Validators (bc_initialState bcR') = vals ∧ st_NextValidators (bc_initialState bcR') = next ∧
    ∀ k v, content !! k = Some v → getState (bc_accounts bcR') k = Some v.
Proof.
  intros Hv. simpl. unfold receive_snapshot.
  destruct (Z.ltb_spec 0 version), (Z.ltb_spec version 2147483647); try lia. simpl.
  eexists. split; [done|]. simpl. split_and!; [done| |done|done|].
  - apply wrap64_id. unfold in_int64, MinInt64, MaxInt64. lia.
  - intros k v Hk. unfold SetSnapshot, getState. simpl.
    pose proof (SetStates_lookup content (bc_accounts bcR) k) as E. unfold getState in E. by rewrite E, Hk.
Qed.

(** A node that has made no snapshot yet panics when any peer asks for one. *)
Theorem snapshot_request_panics bcR src :
  sn_ValSet (GetSnapshot (bc_accounts bcR)) = None →
  Receive Sum unmarshalBlock bcR src (Some bcSnapshotRequestMessage) = Panic.
Proof. intros E. simpl. unfold send_snapshot. by rewrite E. Qed.
End theorems.

(** ** One block synced *)

Section sample.
#[local] Existing Instance sample_codec.
#[local] Existing Instance sample_crypto.
#[local] Existing Instance sample_block_codec.

Definition sync_vals : ValidatorSet := mkValidatorSet [NewValidator [x01] 10] None 0.

Definition sync_state : State :=
  mkState (mkVersion 0 0) [x63] 4 0 zeroBlockID 0 sync_vals sync_vals sync_vals 0 emptyParams 0 [] [] [] [].

Definition sync_first : Block := made_block [].

Definition sync_parts : PartSet :=
  match MakePartSet pad32 (Some sync_first) BlockPartSizeBytes with
  | Ret (Some ps) => ps
  | _ => mkPartSet 0 [] [] None 0
  end.

Definition sync_vote : Vote :=
  let vote sig := mkVote PrecommitType 5 0 (sync_id pad32 sync_first sync_parts) 0 [x01] 0 sig None None in
  vote (x01 :: Vote_SignBytes [x63] (vote [])).

Definition sync_commit (n : nat) : Commit :=
  NewCommit (sync_id pad32 sync_first sync_parts) (Some sync_vote :: replicate n None).

Definition sync_second (n : nat) : Block := mkBlock [] (bare_header 6) [] [] (Some (sync_commit n)).

(** The pool after peer A has sent the blocks of heights 5 and 6. *)
Definition pool_asked : BlockPool :=
  turn (turn (turn (make (turn (turn (turn (make (SetPeerHeight (NewBlockPool 5) peerA 10)) 0 OnQuit) 0 OnQuit) 0 OnQuit))
    1 OnQuit) 1 OnQuit) 1 OnQuit.

Definition sync_pool (n : nat) : BlockPool :=
  let p := ret_pool (AddBlock pool_asked peerA sync_first) pool_asked in ret_pool (AddBlock p peerA (sync_second n)) p.

Definition sync_reactor (n : nat) : BlockchainReactor :=
  mkReactor sync_state (mkBlockStore (mkBlockDB ∅ ∅ ∅ ∅ None) 4) (sync_pool n) start.

Definition apply_ok (st : State) (id : BlockID) (b : Block) : outcome (option State) := Ret (Some st).

Definition after_sync : BlockchainReactor * State :=
  match try_sync pad32 apply_ok (sync_reactor 0) sync_state with Ret r => r | Panic => (sync_reactor 0, sync_state) end.

Lemma sync_vals_wf : wf sync_vals.
Proof.
  split.
  - repeat constructor.
  - intros v [->|[]%elem_of_nil]%elem_of_cons. done.
  - vm_compute. discriminate.
  - by left.
  - intros v [->|[]%elem_of_nil]%elem_of_cons. vm_compute. split; discriminate.
Qed.

Lemma after_sync_saved : try_sync pad32 apply_ok (sync_reactor 0) sync_state = Ret after_sync ∧
  bs_height (bc_store after_sync.1) = 5.
Proof. split; vm_compute; reflexivity. Qed.

Lemma synced_blocks_verified_witness :
  bc_store after_sync.1 = bc_store (sync_reactor 0) ∨
  ∃ first second ps commit, PeekTwoBlocks (bc_pool (sync_reactor 0)) = (Some first, Some second) ∧
    MakePartSet pad32 (Some first) BlockPartSizeBytes = Ret (Some ps) ∧ blk_LastCommit second = Some commit ∧
    commit_accepted sync_vals [x63] (sync_id pad32 first ps) (hd_Height (blk_Header first)) commit ∧
    hd_Height (blk_Header first) = 4 + 1 ∧ bs_height (bc_store after_sync.1) = 4 + 1 ∧
    db_seen (bs_db (bc_store after_sync.1)) !! (4 + 1) = Some commit.
Proof.
  exact (synced_blocks_verified pad32 apply_ok (sync_reactor 0) sync_state after_sync.1 after_sync.2 sync_vals_wf
    (eq_trans (proj1 after_sync_saved) (f_equal Ret (surjective_pairing after_sync)))).
Defined.

Lemma sync_pool_reach : bp_reach False 5 (sync_pool 1).
Proof.
  assert (Hasked : bp_reach False 5 pool_asked).
  { eapply rtc_l; [by apply (st_height _ _ peerA 10)|].
    eapply rtc_l; [apply (st_make _ _ (λ _, 0) []); [vm_compute; done|vm_compute; reflexivity]|].
    do 3 (eapply rtc_l; [apply (st_request _ _ 0 [peerA; peerB] OnQuit); vm_compute; reflexivity|]).
    eapply rtc_l; [apply (st_make _ _ (λ _, 0) []); [vm_compute; done|vm_compute; reflexivity]|].
    do 2 (eapply rtc_l; [apply (st_request _ _ 1 [peerA; peerB] OnQuit); vm_compute; reflexivity|]).
    apply rtc_once, (st_request _ _ 1 [peerA; peerB] OnQuit). vm_compute. reflexivity. }
  unfold bp_reach. etrans; [exact Hasked|].
  apply (rtc_l _ _ (ret_pool (AddBlock pool_asked peerA sync_first) pool_asked)).
  - apply (st_block _ _ peerA sync_first); [done|vm_compute; reflexivity].
  - apply rtc_once, (st_block _ _ peerA (sync_second 1)); [done|vm_compute; reflexivity].
Qed.

Lemma validator_change_stops_sync_witness :
  ∃ bcR' state' p id id', try_sync pad32 apply_ok (sync_reactor 1) sync_state = Ret (bcR', state') ∧
    bc_store bcR' = bc_store (sync_reactor 1) ∧
    RedoRequest (bc_pool (sync_reactor 1)) (hd_Height (blk_Header sync_first)) = Ret (p, id) ∧
    RedoRequest p (hd_Height (blk_Header (sync_second 1))) = Ret (bc_pool bcR', id').
Proof.
  apply (validator_change_stops_sync pad32 apply_ok (sync_reactor 1) sync_state False 5 sync_first (sync_second 1) sync_parts
    (sync_commit 1)).
  - done.
  - exact sync_pool_reach.
  - vm_compute. done.
  - vm_compute. reflexivity.
  - vm_compute. reflexivity.
  - reflexivity.
  - vm_compute. reflexivity.
  - vm_compute. discriminate.
Defined.

Lemma snapshot_from_any_peer_witness :
  ∃ bcR', Receive pad32 (λ _, None) (sync_reactor 0) peerB (Some (bcSnapshotResponseMessage 900 ∅ sync_vals sync_vals)) =
      Ret (bcR', [], false) ∧
    BS_Height (bc_store bcR') = 900 ∧ bp_height (bc_pool bcR') = 900 + 1 ∧
    st_Validators (bc_initialState bcR') = sync_vals ∧ st_NextValidators (bc_initialState bcR') = sync_vals ∧
    ∀ k v, (∅ : gmap bytes bytes) !! k = Some v → getState (bc_accounts bcR') k = Some v.
Proof. apply (snapshot_from_any_peer pad32 (λ _, None) (sync_reactor 0) peerB 900). lia. Defined.

Lemma snapshot_request_panics_witness :
  Receive pad32 (λ _, None) (sync_reactor 0) peerB (Some bcSnapshotRequestMessage) = Panic.
Proof. apply (snapshot_request_panics pad32 (λ _, None) (sync_reactor 0) peerB). reflexivity. Defined.
End sample.
