(* ===== verification/Lite.v ===== *)
(** * The light client (lite/commit.go, lite/base_verifier.go, lite/dynamic_verifier.go, lite/provider.go)

    A light client follows the headers of a chain without its blocks: it keeps full commits it
    trusts (a header, its commit and the validator sets of its height and the next) and accepts a new
    header when enough of a trusted set signed it, asking an untrusted source for
    the commits in between by bisection.

    The provider of trusted commits and the source are classes. A source has a state of its own and may answer
    anything; a Go call on the network is a function of that state. The pending map of [Verify] only
    orders concurrent calls and is left out. The recursion of [updateToHeight] takes fuel: [None] means that the fuel is used up. *)

From Stdlib Require Import ZArith Lia Bool Strings.Byte.
From stdpp Require Import base list gmap sets.
From S2P Require Import Prelude Merkle Types ValidatorSet VerifyCommit Block.
Local Open Scope Z_scope.

(** ** Data *)

Record SignedHeader := mkSignedHeader { sh_Header : option Header; sh_Commit : option Commit }.

Record FullCommit := mkFullCommit {
  fc_SignedHeader : SignedHeader;
  fc_Validators : option ValidatorSet;
  fc_NextValidators : option ValidatorSet
}.

Inductive lite_error :=
| ErrNeedValidators | ErrVHash | ErrNeedNextValidators | ErrNextVHash
| ErrSignedHeader (err : signed_header_error)
| ErrVerify (err : verify_commit_error)
| ErrWrongChainID | ErrOldHeight | ErrUnexpectedValidators
| ErrCommitNotFound | ErrUnknownValidators | ErrOther.

(** [types.IsErrTooMuchChange] of an error a verification returned. *)
Definition too_much_change (err : lite_error) : bool :=
  match err with ErrVerify e => IsErrTooMuchChange e | _ => false end.

(** The amino encoding of the key and power of a validator. *)
Class ValidatorCodec := { encValidator : bytes → Z → bytes }.

Class PersistentProvider (T : Type) := {
  LatestFullCommit : T → bytes → Z → Z → outcome (FullCommit + lite_error);
  ProviderValidatorSet : T → bytes → Z → outcome (ValidatorSet + lite_error);
  SaveFullCommit : T → FullCommit → outcome (T * option lite_error)
}.

Class Source (S : Type) := {
  src_LatestFullCommit : S → bytes → Z → Z → S * (FullCommit + lite_error);
  src_ValidatorSet : S → bytes → Z → S * (option ValidatorSet + lite_error)
}.

Section lite.
Context (Sum : bytes → bytes) `{ValidatorCodec} `{BlockCodec} `{Codec} `{Crypto}.

Definition Validator_Bytes (v : Validator) : bytes := encValidator (val_PubKey v) (val_VotingPower v).

Definition ValidatorSet_Hash (vals : ValidatorSet) : bytes :=
  match Validators vals with
  | [] => []
  | l => SimpleHashFromByteSlices Sum (Validator_Bytes <$> l)
  end.

(** ** Full commits *)

Definition NewFullCommit (signedHeader : SignedHeader) (valset nextValset : option ValidatorSet) : FullCommit :=
  mkFullCommit signedHeader valset nextValset.

Definition fc_Height (fc : FullCommit) : outcome Z :=
  hdr ← or_panic (sh_Header (fc_SignedHeader fc)); Ret (hd_Height hdr).

Definition fc_ChainID (fc : FullCommit) : outcome bytes :=
  hdr ← or_panic (sh_Header (fc_SignedHeader fc)); Ret (hd_ChainID hdr).

(** The validator set of the result has its total power cached. *)
Definition ValidateFull (fc : FullCommit) (chainID : bytes) : outcome (FullCommit * option lite_error) :=
  let sh := fc_SignedHeader fc in
  vals ← or_panic (fc_Validators fc);
  if Size vals =? 0 then Ret (fc, Some ErrNeedValidators)
  else
    hdr ← or_panic (sh_Header sh);
    if negb (bytes_equal (hd_ValidatorsHash hdr) (ValidatorSet_Hash vals)) then Ret (fc, Some ErrVHash)
    else
      next ← or_panic (fc_NextValidators fc);
      if Size next =? 0 then Ret (fc, Some ErrNeedNextValidators)
      else if negb (bytes_equal (hd_NextValidatorsHash hdr) (ValidatorSet_Hash next)) then Ret (fc, Some ErrNextVHash)
      else
        match SignedHeader_ValidateBasic Sum (sh_Header sh) (sh_Commit sh) chainID with
        | Some err => Ret (fc, Some (ErrSignedHeader err))
        | None =>
            cmt ← or_panic (sh_Commit sh);
            '(vals, err) ← VerifyCommit vals (hd_ChainID hdr) (commit_BlockID cmt) (hd_Height hdr) cmt;
            Ret (mkFullCommit sh (Some vals) (fc_NextValidators fc), option_map ErrVerify err)
        end.

(** ** The base verifier *)

Record BaseVerifier := mkBaseVerifier { bv_chainID : bytes; bv_height : Z; bv_valset : ValidatorSet }.

Definition NewBaseVerifier (chainID : bytes) (height : Z) (valset : option ValidatorSet) : outcome BaseVerifier :=
  if IsNilOrEmpty valset then Panic
  else vals ← or_panic valset; Ret (mkBaseVerifier chainID height vals).

Definition bv_Verify (bv : BaseVerifier) (signedHeader : SignedHeader) : outcome (BaseVerifier * option lite_error) :=
  hdr ← or_panic (sh_Header signedHeader);
  if negb (bytes_equal (hd_ChainID hdr) (bv_chainID bv)) then Ret (bv, Some ErrWrongChainID)
  else if hd_Height hdr <? bv_height bv then Ret (bv, Some ErrOldHeight)
  else if negb (bytes_equal (hd_ValidatorsHash hdr) (ValidatorSet_Hash (bv_valset bv)))
  then Ret (bv, Some ErrUnexpectedValidators)
  else
    match SignedHeader_ValidateBasic Sum (sh_Header signedHeader) (sh_Commit signedHeader) (bv_chainID bv) with
    | Some err => Ret (bv, Some (ErrSignedHeader err))
    | None =>
        cmt ← or_panic (sh_Commit signedHeader);
        '(vals, err) ← VerifyCommit (bv_valset bv) (bv_chainID bv) (commit_BlockID cmt) (hd_Height hdr) cmt;
        Ret (mkBaseVerifier (bv_chainID bv) (bv_height bv) vals, option_map ErrVerify err)
    end.

(** ** The dynamic verifier *)

Section dynamic.
Context {T S : Type} `{PersistentProvider T} `{HS : Source S} (chainID : bytes).

Definition verifyAndSave (t : T) (trustedFC sourceFC : FullCommit) : outcome (T * option lite_error) :=
  th ← fc_Height trustedFC;
  sh ← fc_Height sourceFC;
  if sh <=? th then Panic
  else
    next ← or_panic (fc_NextValidators trustedFC);
    vals ← or_panic (fc_Validators sourceFC);
    cmt ← or_panic (sh_Commit (fc_SignedHeader sourceFC));
    '(_, _, err) ← VerifyFutureCommit next vals chainID (commit_BlockID cmt) sh cmt;
    match err with
    | Some err => Ret (t, Some (ErrVerify err))
    | None => SaveFullCommit t sourceFC
    end.

(** The [FOR_LOOP] of [updateToHeight]; [rec] is its recursive call. *)
Fixpoint update_loop (rec : T → S → Z → outcome (option (T * S * (FullCommit + lite_error)))) (fuel : nat)
    (h : Z) (sourceFC : FullCommit) (t : T) (s : S) : outcome (option (T * S * (FullCommit + lite_error))) :=
  match fuel with
  | O => Ret None
  | Datatypes.S fuel =>
      r ← LatestFullCommit t chainID 1 h;
      match r with
      | inr err => Ret (Some (t, s, inr err))
      | inl trustedFC =>
          start ← fc_Height trustedFC;
          if start =? h then Ret (Some (t, s, inl trustedFC))
          else
            '(t, err) ← verifyAndSave t trustedFC sourceFC;
            match err with
            | None => Ret (Some (t, s, inl sourceFC))
            | Some err =>
                if too_much_change err then
                  end_ ← fc_Height sourceFC;
                  if negb (start <? end_) then Panic
                  else
                    let mid := Z.quot (wrap64 (start + end_)) 2 in
                    r ← rec t s mid;
                    match r with
                    | None => Ret None
                    | Some (t, s, inr err) => Ret (Some (t, s, inr err))
                    | Some (t, s, inl _) => update_loop rec fuel h sourceFC t s
                    end
                else Ret (Some (t, s, inr err))
            end
      end
  end.

Fixpoint updateToHeight (fuel : nat) (t : T) (s : S) (h : Z) : outcome (option (T * S * (FullCommit + lite_error))) :=
  match fuel with
  | O => Ret None
  | Datatypes.S fuel =>
      let '(s, r) := src_LatestFullCommit s chainID h h in
      match r with
      | inr err => Ret (Some (t, s, inr err))
      | inl sourceFC =>
          sh ← fc_Height sourceFC;
          if negb (sh =? h) then Ret (Some (t, s, inr ErrCommitNotFound))
          else
            '(sourceFC, err) ← ValidateFull sourceFC chainID;
            match err with
            | Some err => Ret (Some (t, s, inr err))
            | None => update_loop (updateToHeight fuel) (Datatypes.S fuel) h sourceFC t s
            end
      end
  end.

(** The end of [Verify]: the header is checked against the trusted set and, when the
    source knows the next set, stored. *)
Definition check_and_trust (t : T) (s : S) (trustedFC : FullCommit) (shdr : SignedHeader) : outcome (T * S * option lite_error) :=
  hdr ← or_panic (sh_Header shdr);
  th ← fc_Height trustedFC;
  cert ← NewBaseVerifier chainID (wrap64 (th + 1)) (fc_NextValidators trustedFC);
  '(cert, err) ← bv_Verify cert shdr;
  match err with
  | Some err => Ret (t, s, Some err)
  | None =>
      match src_ValidatorSet s chainID (wrap64 (hd_Height hdr + 1)) with
      | (s, inr ErrUnknownValidators) => Ret (t, s, None)
      | (s, inr err) => Ret (t, s, Some err)
      | (s, inl nextValset) =>
          '(nfc, err) ← ValidateFull (mkFullCommit shdr (Some (bv_valset cert)) nextValset) chainID;
          match err with
          | Some err => Ret (t, s, Some err)
          | None => '(t, err) ← SaveFullCommit t nfc; Ret (t, s, err)
          end
      end
  end.

Definition next_hash (fc : FullCommit) : outcome bytes :=
  next ← or_panic (fc_NextValidators fc); Ret (ValidatorSet_Hash next).

(** The middle of [Verify], once the header is not one already trusted. *)
Definition verify_new (fuel : nat) (t : T) (s : S) (shdr : SignedHeader) : outcome (option (T * S * option lite_error)) :=
  hdr ← or_panic (sh_Header shdr);
  let prevHeight := wrap64 (hd_Height hdr - 1) in
  r ← LatestFullCommit t chainID 1 prevHeight;
  match r with
  | inr err => Ret (Some (t, s, Some err))
  | inl trustedFC =>
      th ← fc_Height trustedFC;
      nh ← next_hash trustedFC;
      if bytes_equal nh (hd_ValidatorsHash hdr) then Some <$> check_and_trust t s trustedFC shdr
      else if th =? prevHeight then Ret (Some (t, s, Some ErrUnexpectedValidators))
      else
        r ← updateToHeight fuel t s prevHeight;
        match r with
        | None => Ret None
        | Some (t, s, inr err) => Ret (Some (t, s, Some err))
        | Some (t, s, inl trustedFC) =>
            nh ← next_hash trustedFC;
            if bytes_equal nh (hd_ValidatorsHash hdr) then Some <$> check_and_trust t s trustedFC shdr
            else Ret (Some (t, s, Some ErrUnexpectedValidators))
        end
  end.

Definition dv_Verify (fuel : nat) (t : T) (s : S) (shdr : SignedHeader) : outcome (option (T * S * option lite_error)) :=
  hdr ← or_panic (sh_Header shdr);
  r ← LatestFullCommit t chainID (hd_Height hdr) (hd_Height hdr);
  match r with
  | inl fc =>
      if bytes_equal (Header_Hash Sum (sh_Header (fc_SignedHeader fc))) (Header_Hash Sum (sh_Header shdr))
      then Ret (Some (t, s, None))
      else verify_new fuel t s shdr
  | inr ErrCommitNotFound => verify_new fuel t s shdr
  | inr err => Ret (Some (t, s, Some err))
  end.

Definition LastTrustedHeight (t : T) : outcome Z :=
  r ← LatestFullCommit t chainID 1 MaxInt64;
  match r with inl fc => fc_Height fc | inr _ => Panic end.
End dynamic.
End lite.
