(* ===== verification/LiteProofs.v ===== *)
(** * The light client accepts only genuine headers

    What a provider of trusted commits promises ([TrustedLaws]), what may be assumed of a source, and the safety of
    [dv_Verify]: as long as no more than two thirds of a genuine validator set sign anything but the genuine
    headers, a header that is accepted or stored is genuine, whatever the source answers. *)

From Stdlib Require Import ZArith Lia Bool Strings.Byte.
From stdpp Require Import base list gmap sets.
From S2P Require Import Prelude Merkle Types ValidatorSet VerifyCommit Block Lite.
Local Open Scope Z_scope.

(** ** Power of the validators that signed *)

Definition key_power (v : Validator) : bytes * Z := (val_PubKey v, val_VotingPower v).

(** The same keys with the same powers: all that the hash of a set covers. *)
Definition same_keys (l l' : list Validator) : Prop := key_power <$> l = key_power <$> l'.

(** A cached total is the one the code computes. *)
Definition cached_ok (vals : ValidatorSet) : Prop :=
  totalVotingPower vals = 0 ∨ updateTotalVotingPower vals = Ret vals.

Definition precommits_at (h : Z) (pcs : list (option CommitSig)) : Prop :=
  ∀ cs, Some cs ∈ pcs → vote_Height cs = h ∧ vote_Type cs = PrecommitType.

Section power.
Context `{Codec} `{Crypto} (chainID : bytes).

(** The power of the validators of a list that signed a block in some precommit. *)
Definition voted_power (l : list Validator) (bid : BlockID) (pcs : list (option CommitSig)) : Z :=
  sumZ (λ v, if existsb (signed chainID bid v) pcs then val_VotingPower v else 0) l.

Lemma sumZ_key_power (f : bytes * Z → Z) l l' :
  same_keys l l' → sumZ (λ v, f (key_power v)) l = sumZ (λ v, f (key_power v)) l'.
Proof. intros E. by rewrite <-!(sumZ_fmap f key_power), E. Qed.

Lemma power_keys l l' : same_keys l l' → power l = power l'.
Proof. apply (sumZ_key_power snd). Qed.

Lemma voted_power_keys l l' bid pcs : same_keys l l' → voted_power l bid pcs = voted_power l' bid pcs.
Proof.
  apply (sumZ_key_power (λ kp, if existsb (λ cs, match cs with
    | Some p => BlockID_Equals bid (vote_BlockID p) && VerifyBytes kp.1 (Vote_SignBytes chainID p) (vote_Signature p)
    | None => false end) pcs then kp.2 else 0)).
Qed.

Lemma positive_keys l l' :
  same_keys l l' → (∀ v, v ∈ l → 0 < val_VotingPower v) → ∀ v, v ∈ l' → 0 < val_VotingPower v.
Proof.
  intros E Hp v Hv. apply (list_elem_of_fmap_2 key_power) in Hv. rewrite <-E in Hv.
  apply list_elem_of_fmap_1 in Hv as (w & Ew & Hw). specialize (Hp w Hw). by injection Ew as _ ->.
Qed.

Lemma signed_power_voted l bid pcs :
  (∀ v, v ∈ l → 0 < val_VotingPower v) → signed_power l chainID bid pcs ≤ voted_power l bid pcs.
Proof.
  enough (∀ qcs, (∀ c, c ∈ qcs → c ∈ pcs) → (∀ v, v ∈ l → 0 < val_VotingPower v) →
    sumZ (weight chainID bid) (zip l qcs) ≤ voted_power l bid pcs) as Hgo by (intros ?; by apply Hgo).
  unfold voted_power. induction l as [|v l IH]; intros qcs Hsub Hp; [by destruct qcs|].
  rewrite sumZ_cons. pose proof (Hp v (list_elem_of_here _ _)) as Hv.
  destruct qcs as [|c qcs]; simpl.
  - rewrite sumZ_nil. enough (0 ≤ sumZ (λ v, if existsb (signed chainID bid v) pcs then val_VotingPower v else 0) l)
      by (destruct (existsb _ _); lia).
    apply sumZ_nonneg. intros w Hw. pose proof (Hp w (list_elem_of_further _ _ _ Hw)). destruct (existsb _ _); lia.
  - rewrite sumZ_cons. specialize (IH qcs ltac:(set_solver) ltac:(set_solver)).
    enough (weight chainID bid (v, c) ≤ if existsb (signed chainID bid v) pcs then val_VotingPower v else 0) by lia.
    unfold weight. simpl. destruct (signed chainID bid v c) eqn:Es; [|destruct (existsb _ _); lia].
    assert (existsb (signed chainID bid v) pcs = true) as ->; [|lia].
    apply existsb_exists. exists c. split; [apply list_elem_of_In; set_solver|done].
Qed.

Lemma old_signed_voted l bid pcs :
  (∀ v, v ∈ l → 0 < val_VotingPower v) →
  sumZ (λ v, if old_signed chainID bid v pcs then val_VotingPower v else 0) l ≤ voted_power l bid pcs.
Proof.
  intros Hp. unfold voted_power. apply sumZ_le. intros v Hv. specialize (Hp v Hv).
  destruct (old_signed chainID bid v pcs) eqn:E; [|destruct (existsb _ _); lia].
  apply existsb_exists in E as (c & Hc & [Hs _]%andb_true_iff).
  assert (existsb (signed chainID bid v) pcs = true) as -> by (apply existsb_exists; eauto). lia.
Qed.

Lemma cached_powers_ok V l :
  cached_ok V → same_keys (Validators V) l → (∀ v, v ∈ l → 0 < val_VotingPower v) → power l ≤ MaxTotalVotingPower →
  powers_ok V.
Proof.
  intros Hc Hk Hp Ht. assert (∀ v, v ∈ Validators V → 0 < val_VotingPower v) as Hp'.
  { eapply positive_keys; [|exact Hp]. symmetry. exact Hk. }
  rewrite <-(power_keys _ _ Hk) in Ht. split; [done|done|]. destruct Hc as [|Hc]; [by left|right].
  unfold updateTotalVotingPower in Hc. rewrite add_power_sum in Hc by (done || lia). cbn in Hc. injection Hc as Hc.
  rewrite <-Hc. simpl. lia.
Qed.

Lemma validate_precommits_at h r pcs : validate_precommits h r pcs = None → precommits_at h pcs.
Proof.
  induction pcs as [|[c|] pcs IH]; simpl; intros E cs Hcs; [by apply elem_of_nil in Hcs| |].
  - destruct (validate_precommit h r c) eqn:Ev; [done|]. apply elem_of_cons in Hcs as [[= ->]|Hcs]; [|by apply IH].
    unfold validate_precommit in Ev. repeat case_match; try done.
    rewrite negb_false_iff, Z.eqb_eq in *. done.
  - apply elem_of_cons in Hcs as [|Hcs]; [done|by apply IH].
Qed.

(** [VerifyCommit] changes nothing of a set but its cached total. *)
Lemma TotalVotingPower_same vals total vals' :
  TotalVotingPower vals = Ret (total, vals') → Validators vals' = Validators vals ∧ (cached_ok vals → cached_ok vals').
Proof.
  unfold TotalVotingPower. destruct (totalVotingPower vals =? 0); [|by intros [= <- <-]].
  destruct (updateTotalVotingPower vals) as [v|] eqn:E; [|done]. cbn. intros [= <- <-].
  unfold updateTotalVotingPower in E. apply bind_Ret in E as (sum & Es & [= <-]). split; [done|].
  intros _. right. unfold updateTotalVotingPower. cbn. rewrite Es. done.
Qed.

Lemma VerifyCommit_same vals bid h c vals' err :
  VerifyCommit vals chainID bid h c = Ret (vals', err) →
  Validators vals' = Validators vals ∧ (cached_ok vals → cached_ok vals').
Proof.
  unfold VerifyCommit. destruct (Commit_ValidateBasic c); [by intros [= <- <-]|].
  repeat (destruct (negb _); [by intros [= <- <-]|]).
  intros ([t|e] & Et & E)%bind_Ret; [|by injection E as <- <-].
  apply bind_Ret in E as ([total v] & Ev%TotalVotingPower_same & E). by destruct (_ <? _); injection E as <- <-.
Qed.
End power.

(** ** The contracts *)

(** What a provider of trusted commits promises: it gives back only headers and validator sets that were
    stored in it. *)
Class TrustedLaws (T : Type) `{PersistentProvider T} (chainID : bytes) := {
  trusted_ok : T → Prop;
  stored_header : T → Header → Prop;
  stored_vs : T → Z → list Validator → Prop;
  law_latest (t : T) a b fc : trusted_ok t → LatestFullCommit t chainID a b = Ret (inl fc) →
    ∃ hdr V N, sh_Header (fc_SignedHeader fc) = Some hdr ∧ fc_Validators fc = Some V ∧ fc_NextValidators fc = Some N ∧
      stored_header t hdr ∧ stored_vs t (hd_Height hdr) (Validators V) ∧
      stored_vs t (wrap64 (hd_Height hdr + 1)) (Validators N) ∧ cached_ok V ∧ cached_ok N;
  law_save (t t' : T) fc err hdr V N : trusted_ok t → SaveFullCommit t fc = Ret (t', err) →
    sh_Header (fc_SignedHeader fc) = Some hdr → hd_ChainID hdr = chainID → 1 ≤ hd_Height hdr < MaxInt64 →
    fc_Validators fc = Some V → fc_NextValidators fc = Some N →
    trusted_ok t' ∧ (∀ x, stored_header t' x → stored_header t x ∨ x = hdr) ∧
    (∀ h l, stored_vs t' h l → stored_vs t h l ∨ h = hd_Height hdr ∧ l = Validators V ∨
       h = wrap64 (hd_Height hdr + 1) ∧ l = Validators N)
}.

Class ValidatorCodecLaws `{ValidatorCodec} : Prop := {
  encValidator_inj : ∀ k p k' p', encValidator k p = encValidator k' p' → k = k' ∧ p = p'
}.

Section safety.
Context (Sum : bytes → bytes) (Sum_length : ∀ x, length (Sum x) = 32%nat).
Context `{ValidatorCodecLaws} `{BlockCodecLaws} `{Codec} `{Crypto}.
Context {T S : Type} (chainID : bytes) `{HT : TrustedLaws T chainID} `{HS : Source S}.

(** The strings anybody has hashed: the hash has no collision among them. *)
Context (U : bytes → Prop) (HU : ∀ x y, U x → U y → Sum x = Sum y → x = y).

Definition hashed (l : list bytes) : Prop := ∀ x, x ∈ tree_inputs Sum l → U x.
Definition hashed_header (hdr : Header) : Prop := hashed (header_leaves hdr).
Definition hashed_set (vals : ValidatorSet) : Prop := hashed (Validator_Bytes <$> Validators vals).

(** A source answers with what has been hashed, and with sets whose cached total, if any, was computed. *)
Definition set_ok (o : option ValidatorSet) : Prop := ∀ vals, o = Some vals → hashed_set vals ∧ cached_ok vals.

Record source_ok : Prop := mkSourceOk {
  so_commit s a b s' fc : src_LatestFullCommit s chainID a b = (s', inl fc) →
    (∀ hdr, sh_Header (fc_SignedHeader fc) = Some hdr → hashed_header hdr) ∧
    set_ok (fc_Validators fc) ∧ set_ok (fc_NextValidators fc);
  so_set s h s' o : src_ValidatorSet s chainID h = (s', inl o) → set_ok o
}.

(** The genuine chain up to its height [top]: its headers name the hashes of its validator sets, and more than two thirds of
    the power of a set never precommit, at its height or later, another block than one of the chain. *)
Context (chain : Z → Header) (gvals : Z → ValidatorSet) (top : Z) (Htop : top < MaxInt64).

Record genuine_chain : Prop := mkGenuineChain {
  gc_height h : 1 ≤ h ≤ top → hd_Height (chain h) = h;
  gc_vals h : 1 ≤ h ≤ top → hd_ValidatorsHash (chain h) = ValidatorSet_Hash Sum (gvals h);
  gc_next h : 1 ≤ h ≤ top → hd_NextValidatorsHash (chain h) = ValidatorSet_Hash Sum (gvals (h + 1));
  gc_powers h : 1 ≤ h ≤ top + 1 → powers_ok (gvals h);
  gc_nonempty h : 1 ≤ h ≤ top + 1 → Validators (gvals h) ≠ [];
  gc_header h : 1 ≤ h ≤ top → hashed_header (chain h);
  gc_set h : 1 ≤ h ≤ top + 1 → hashed_set (gvals h);
  gc_nofork h0 h bid pcs : 1 ≤ h0 ≤ h → h0 ≤ top + 1 → precommits_at h pcs →
    2 * power (Validators (gvals h0)) < 3 * voted_power chainID (Validators (gvals h0)) bid pcs →
    h ≤ top ∧ bid_Hash bid = Header_Hash Sum (Some (chain h))
}.

Definition genuine_header (hdr : Header) : Prop :=
  1 ≤ hd_Height hdr ≤ top ∧ hashed_header hdr ∧
  Header_Hash Sum (Some hdr) = Header_Hash Sum (Some (chain (hd_Height hdr))).

Definition genuine_set (h : Z) (l : list Validator) : Prop := same_keys l (Validators (gvals h)).

Record genuine_store (t : T) : Prop := mkGenuineStore {
  gs_ok : trusted_ok t;
  gs_header hdr : stored_header t hdr → genuine_header hdr;
  gs_vs h l : stored_vs t h l → genuine_set h l
}.

Context (HG : genuine_chain) (HSO : source_ok).

Lemma hash_list_inj l l' :
  hashed l → hashed l' → SimpleHashFromByteSlices Sum l = SimpleHashFromByteSlices Sum l' → l = l'.
Proof.
  intros Hl Hl'. apply (SimpleHash_inj_all Sum Sum_length). unfold no_collision.
  apply forallb_forall. intros a Ha%list_elem_of_In. apply forallb_forall. intros b Hb%list_elem_of_In.
  destruct (bytes_equal (Sum a) (Sum b)) eqn:E; [|done]. apply bytes_equal_true in E.
  apply HU in E as ->; [|by apply Hl|by apply Hl']. simpl. by apply bytes_equal_true.
Qed.

Lemma Header_Hash_chain h :
  1 ≤ h ≤ top → Header_Hash Sum (Some (chain h)) = SimpleHashFromByteSlices Sum (header_leaves (chain h)).
Proof.
  intros Hh. simpl. rewrite (gc_vals HG) by done. unfold ValidatorSet_Hash.
  destruct (Validators (gvals h)) as [|v l] eqn:E; [apply (gc_nonempty HG) in E; [done|lia]|].
  assert (zlen (SimpleHashFromByteSlices Sum (Validator_Bytes <$> v :: l)) = 32) as ->; [|done].
  unfold zlen. by rewrite (SimpleHash_length Sum Sum_length) by done.
Qed.

Lemma Header_Hash_inj hdr h :
  1 ≤ h ≤ top → hashed_header hdr → Header_Hash Sum (Some hdr) = Header_Hash Sum (Some (chain h)) →
  header_leaves hdr = header_leaves (chain h).
Proof.
  intros Hh Hx E. rewrite Header_Hash_chain in E by done. simpl in E.
  destruct (zlen (hd_ValidatorsHash hdr) =? 0).
  - pose proof (SimpleHash_length Sum Sum_length (header_leaves (chain h)) ltac:(done)) as Hl. by rewrite <-E in Hl.
  - apply hash_list_inj; [done|by apply (gc_header HG)|done].
Qed.

Lemma genuine_fields hdr :
  genuine_header hdr →
  hd_ValidatorsHash hdr = ValidatorSet_Hash Sum (gvals (hd_Height hdr)) ∧
  hd_NextValidatorsHash hdr = ValidatorSet_Hash Sum (gvals (hd_Height hdr + 1)).
Proof.
  intros (Hh & Hx & E). apply Header_Hash_inj in E; [|lia|done]. apply header_leaves_inj in E.
  pose proof (gc_vals HG (hd_Height hdr) ltac:(lia)) as Ev. pose proof (gc_next HG (hd_Height hdr) ltac:(lia)) as En.
  rewrite E in Ev, En. split; [exact Ev|exact En].
Qed.

Lemma set_of_hash vals h :
  1 ≤ h ≤ top + 1 → hashed_set vals → ValidatorSet_Hash Sum vals = ValidatorSet_Hash Sum (gvals h) → genuine_set h (Validators vals).
Proof.
  intros Hh Hx. unfold hashed_set, ValidatorSet_Hash, genuine_set, same_keys in *.
  pose proof (gc_set HG h Hh) as Hg. unfold hashed_set in Hg. pose proof (gc_nonempty HG h Hh) as Hne.
  destruct (Validators (gvals h)) as [|g gl] eqn:Eg; [done|].
  destruct (Validators vals) as [|v l] eqn:Ev; intros E.
  - assert (Validator_Bytes <$> g :: gl ≠ []) as Hl%(SimpleHash_length Sum Sum_length) by done. by rewrite <-E in Hl.
  - apply hash_list_inj in E; [|done|done]. revert E. generalize (v :: l) (g :: gl). intros a.
    induction a as [|x a IH]; intros [|y b] E; try done. csimpl in E. injection E as E1 E2.
    apply encValidator_inj in E1 as [E3 E4]. csimpl. f_equal; [|by apply IH]. unfold key_power. by rewrite E3, E4.
Qed.

(** ** Each check of the code *)

(** What [SignedHeader_ValidateBasic] checks. *)
Lemma SignedHeader_ok hdr oc :
  SignedHeader_ValidateBasic Sum (Some hdr) oc chainID = None →
  ∃ c, oc = Some c ∧ hd_ChainID hdr = chainID ∧ Header_Hash Sum (Some hdr) = bid_Hash (commit_BlockID c) ∧
    precommits_at (hd_Height hdr) (commit_Precommits c).
Proof.
  unfold SignedHeader_ValidateBasic. destruct oc as [c|]; [|done].
  destruct (bytes_equal (hd_ChainID hdr) chainID) eqn:E1; [cbn [negb]|done].
  destruct (Z.eqb_spec (Commit_Height c) (hd_Height hdr)) as [E2|]; [cbn [negb]|done].
  destruct (bytes_equal (Header_Hash Sum (Some hdr)) _) eqn:E3; [cbn [negb]|done].
  destruct (Commit_ValidateBasic c) eqn:E4; [done|]. intros _. apply bytes_equal_true in E1, E3.
  exists c. split_and!; [done..|]. rewrite <-E2. unfold Commit_ValidateBasic in E4.
  destruct (BlockID_IsZero _); [done|]. destruct (_ =? 0); [done|]. by eapply validate_precommits_at.
Qed.

Lemma genuine_powers h V : 1 ≤ h ≤ top + 1 → genuine_set h (Validators V) → cached_ok V → powers_ok V.
Proof.
  intros Hh Hk Hc. destruct (gc_powers HG h Hh) as [Hp Ht _]. by eapply cached_powers_ok.
Qed.

(** A header signed by more than two thirds of a genuine set of its height or before is genuine. *)
Lemma signed_genuine h0 V hdr c :
  1 ≤ h0 ≤ hd_Height hdr → h0 ≤ top + 1 → hashed_header hdr → genuine_set h0 (Validators V) →
  Header_Hash Sum (Some hdr) = bid_Hash (commit_BlockID c) → precommits_at (hd_Height hdr) (commit_Precommits c) →
  2 * power (Validators V) < 3 * voted_power chainID (Validators V) (commit_BlockID c) (commit_Precommits c) →
  genuine_header hdr.
Proof.
  intros Hh Hm Hx Hk Eh Hp Hq. rewrite (power_keys _ _ Hk), (voted_power_keys chainID _ _ _ _ Hk) in Hq.
  destruct (gc_nofork HG h0 _ _ (commit_Precommits c) Hh Hm Hp Hq) as [Ht Eb]. split; [lia|]. split; [done|]. by rewrite Eh.
Qed.

Lemma VerifyCommit_voted V bid h c V' :
  powers_ok V → VerifyCommit V chainID bid h c = Ret (V', None) →
  2 * power (Validators V) < 3 * voted_power chainID (Validators V) bid (commit_Precommits c).
Proof.
  intros Hok E. destruct (VerifyCommit_powers V chainID bid h c Hok) as (v & e & E' & _ & Hacc).
  rewrite E in E'. injection E' as <- <-. destruct (proj1 Hacc eq_refl) as (_ & _ & _ & _ & _ & Hq).
  pose proof (signed_power_voted chainID _ bid (commit_Precommits c) (po_power _ Hok)). lia.
Qed.

(** The parts of a full commit that [ValidateFull] accepts. *)
Record full (fc : FullCommit) (hdr : Header) (V N : ValidatorSet) (c : Commit) : Prop := mkFull {
  fu_hdr : sh_Header (fc_SignedHeader fc) = Some hdr;
  fu_cmt : sh_Commit (fc_SignedHeader fc) = Some c;
  fu_vals : fc_Validators fc = Some V;
  fu_next : fc_NextValidators fc = Some N;
  fu_chain : hd_ChainID hdr = chainID;
  fu_vhash : hd_ValidatorsHash hdr = ValidatorSet_Hash Sum V;
  fu_nhash : hd_NextValidatorsHash hdr = ValidatorSet_Hash Sum N;
  fu_hash : Header_Hash Sum (Some hdr) = bid_Hash (commit_BlockID c);
  fu_at : precommits_at (hd_Height hdr) (commit_Precommits c);
  fu_hashed : hashed_header hdr;
  fu_vset : hashed_set V ∧ cached_ok V;
  fu_nset : hashed_set N ∧ cached_ok N
}.

Lemma ValidateFull_ok fc fc' :
  ValidateFull Sum fc chainID = Ret (fc', None) →
  (∀ hdr, sh_Header (fc_SignedHeader fc) = Some hdr → hashed_header hdr) →
  set_ok (fc_Validators fc) → set_ok (fc_NextValidators fc) →
  fc_SignedHeader fc' = fc_SignedHeader fc ∧ ∃ hdr V N c, full fc' hdr V N c.
Proof.
  unfold ValidateFull. intros (V & EV%or_panic_Ret & E)%bind_Ret Hh HV HN. destruct (Size V =? 0); [done|].
  apply bind_Ret in E as (hdr & Ehdr%or_panic_Ret & E). destruct (bytes_equal _ (ValidatorSet_Hash Sum V)) eqn:E1; [|done].
  cbn [negb] in E. apply bind_Ret in E as (N & EN%or_panic_Ret & E). destruct (Size N =? 0); [done|].
  destruct (bytes_equal _ (ValidatorSet_Hash Sum N)) eqn:E2; [|done]. cbn [negb] in E. rewrite Ehdr in E.
  destruct (SignedHeader_ValidateBasic _ _ _ _) eqn:E3; [done|].
  apply SignedHeader_ok in E3 as (c & Ec & E4 & E5 & E6). rewrite Ec in E. cbn [or_panic mbind outcome_bind] in E.
  apply bind_Ret in E as ([V' err] & E7 & E). destruct err; [done|]. injection E as <-. rewrite E4 in E7.
  apply VerifyCommit_same in E7 as [E7 E8]. apply bytes_equal_true in E1, E2. split; [done|].
  exists hdr, V', N, c. specialize (HV V EV). specialize (HN N EN). specialize (Hh hdr Ehdr). destruct HV as [HV1 HV2].
  split; cbn [fc_SignedHeader fc_Validators fc_NextValidators]; try done.
  - rewrite E1. unfold ValidatorSet_Hash. by rewrite E7.
  - unfold hashed_set. rewrite E7. auto.
Qed.

(** A full commit with a genuine header has genuine sets, and storing it keeps the store genuine. *)
Lemma full_sets fc hdr V N c :
  full fc hdr V N c → genuine_header hdr →
  genuine_set (hd_Height hdr) (Validators V) ∧ genuine_set (wrap64 (hd_Height hdr + 1)) (Validators N).
Proof.
  intros HF HH. pose proof HH as ((Hh & Hm) & _). destruct (genuine_fields hdr HH) as [Ev En].
  rewrite wrap64_id by (unfold in_int64, MinInt64, MaxInt64 in *; lia).
  split; (apply set_of_hash; [lia|apply HF|]); [by rewrite <-Ev, (fu_vhash _ _ _ _ _ HF)|by rewrite <-En, (fu_nhash _ _ _ _ _ HF)].
Qed.

Lemma save_genuine t fc t' err hdr V N c :
  genuine_store t → full fc hdr V N c → genuine_header hdr → SaveFullCommit t fc = Ret (t', err) → genuine_store t'.
Proof.
  intros [Hok Hsh Hvs] HF HH E. pose proof HH as ((Hh & Hm) & _).
  destruct (law_save t t' fc err hdr V N Hok E (fu_hdr _ _ _ _ _ HF) (fu_chain _ _ _ _ _ HF)
    ltac:(lia) (fu_vals _ _ _ _ _ HF) (fu_next _ _ _ _ _ HF)) as (Hok' & Hsh' & Hvs').
  destruct (full_sets _ _ _ _ _ HF HH) as [HV HN]. split; [done| |].
  - by intros x [?| ->]%Hsh'; [apply Hsh|].
  - by intros h l [?|[[-> ->]|[-> ->]]]%Hvs'; [apply Hvs| |].
Qed.

(** What a genuine store gives back. *)
Record trusted (fc : FullCommit) (hdr : Header) (N : ValidatorSet) : Prop := mkTrusted {
  tr_hdr : sh_Header (fc_SignedHeader fc) = Some hdr;
  tr_genuine : genuine_header hdr;
  tr_next : fc_NextValidators fc = Some N;
  tr_set : genuine_set (hd_Height hdr + 1) (Validators N);
  tr_cached : cached_ok N
}.

Lemma latest_genuine t a b fc :
  genuine_store t → LatestFullCommit t chainID a b = Ret (inl fc) → ∃ hdr N, trusted fc hdr N.
Proof.
  intros [Hok Hsh Hvs] E. destruct (law_latest t a b fc Hok E) as (hdr & V & N & Eh & _ & EN & H1' & _ & H3' & _ & Hc).
  apply Hsh in H1' as HH. pose proof HH as ((Hh & Hm) & _).
  exists hdr, N. split; try done. rewrite wrap64_id in H3' by (unfold in_int64, MinInt64, MaxInt64 in *; lia). by apply Hvs.
Qed.

Lemma full_trusted fc hdr V N c : full fc hdr V N c → genuine_header hdr → trusted fc hdr N.
Proof.
  intros HF HH. destruct (full_sets _ _ _ _ _ HF HH) as [_ HN]. pose proof HH as ((Hh & Hm) & _).
  rewrite wrap64_id in HN by (unfold in_int64, MinInt64, MaxInt64 in *; lia). by split; [apply HF|..|apply HF| |apply HF].
Qed.

Lemma verifyAndSave_genuine t tfc sfc t' err thdr tN hdr V N c :
  genuine_store t → trusted tfc thdr tN → full sfc hdr V N c →
  verifyAndSave chainID t tfc sfc = Ret (t', err) →
  genuine_store t' ∧ (err = None → genuine_header hdr).
Proof.
  intros HGS HTr HF. unfold verifyAndSave, fc_Height.
  rewrite (tr_hdr _ _ _ HTr), (fu_hdr _ _ _ _ _ HF). cbn [or_panic mbind outcome_bind].
  destruct (Z.leb_spec (hd_Height hdr) (hd_Height thdr)) as [|Hlt]; [done|].
  rewrite (tr_next _ _ _ HTr), (fu_vals _ _ _ _ _ HF), (fu_cmt _ _ _ _ _ HF). cbn [or_panic mbind outcome_bind].
  intros ([[o n] e] & Ev & E)%bind_Ret. destruct e as [e|]; [by injection E as <- <-|].
  pose proof (tr_genuine _ _ _ HTr) as ((Hh & Ht) & _).
  pose proof (genuine_powers (hd_Height thdr + 1) tN ltac:(lia) (tr_set _ _ _ HTr) (tr_cached _ _ _ HTr)) as Hok.
  apply VerifyFutureCommit_old in Ev as (_ & _ & Hq); [|done].
  pose proof (old_signed_voted chainID _ (commit_BlockID c) (commit_Precommits c) (po_power _ Hok)) as Hle.
  assert (genuine_header hdr) as HH.
  { eapply (signed_genuine (hd_Height thdr + 1) tN); [lia|lia|apply HF|apply HTr|apply HF|apply HF|lia]. }
  split; [by eapply save_genuine|done].
Qed.

(** ** The bisection *)

(** What a call of [updateToHeight] leaves behind. *)
Definition update_good (r : option (T * S * (FullCommit + lite_error))) : Prop :=
  match r with
  | None => True
  | Some (t, _, inr _) => genuine_store t
  | Some (t, _, inl fc) => genuine_store t ∧ ∃ hdr N, trusted fc hdr N
  end.

Lemma tr_height fc hdr N : trusted fc hdr N → fc_Height fc = Ret (hd_Height hdr).
Proof. intros HTr. unfold fc_Height. by rewrite (tr_hdr _ _ _ HTr). Qed.

Lemma fu_height fc hdr V N c : full fc hdr V N c → fc_Height fc = Ret (hd_Height hdr).
Proof. intros HF. unfold fc_Height. by rewrite (fu_hdr _ _ _ _ _ HF). Qed.

Lemma tr_hashed fc hdr N : trusted fc hdr N → hashed_set N.
Proof.
  intros HTr. pose proof (tr_genuine _ _ _ HTr) as ((Hh & Ht) & _). pose proof (tr_set _ _ _ HTr) as Hk.
  pose proof (gc_set HG (hd_Height hdr + 1) ltac:(lia)) as Hg. unfold hashed_set in *.
  assert (∀ l : list Validator, Validator_Bytes <$> l = (λ kp, encValidator kp.1 kp.2) <$> (key_power <$> l)) as Eb
    by (intros l; rewrite <-list_fmap_compose; done).
  by rewrite Eb, Hk, <-Eb.
Qed.

Lemma update_loop_genuine rec fuel h sfc t s r hdr V N c :
  (∀ t s h r, genuine_store t → rec t s h = Ret r → update_good r) →
  genuine_store t → full sfc hdr V N c →
  update_loop chainID rec fuel h sfc t s = Ret r → update_good r.
Proof.
  intros Hrec HGS HF. revert t s HGS. induction fuel as [|fuel IH]; intros t s HGS E; cbn [update_loop] in E; [by injection E as <-|].
  apply bind_Ret in E as ([tfc|e] & El & E); [|by injection E as <-].
  destruct (latest_genuine _ _ _ _ HGS El) as (thdr & tN & HTr).
  rewrite (tr_height _ _ _ HTr) in E. cbn [mbind outcome_bind] in E.
  destruct (hd_Height thdr =? h); [injection E as <-; split; eauto|].
  apply bind_Ret in E as ([t' err] & Ev & E). destruct (verifyAndSave_genuine _ _ _ _ _ _ _ _ _ _ _ HGS HTr HF Ev) as [HGS' Hgen].
  destruct err as [err|].
  2: { injection E as <-. split; [done|]. exists hdr, N. eapply full_trusted; [done|by apply Hgen]. }
  destruct (too_much_change err); [|by injection E as <-].
  rewrite (fu_height _ _ _ _ _ HF) in E. cbn [mbind outcome_bind] in E.
  destruct (negb _); [done|]. apply bind_Ret in E as (r' & Er & E).
  apply Hrec in Er; [|done]. destruct r' as [[[t1 s1] [fc|e1]]|]; [|by injection E as <-..].
  by apply (IH t1 s1); [apply Er|].
Qed.

Lemma updateToHeight_genuine fuel t s h r :
  genuine_store t → updateToHeight Sum chainID fuel t s h = Ret r → update_good r.
Proof.
  revert t s h r. induction fuel as [|fuel IH]; intros t s h r HGS E; cbn [updateToHeight] in E; [by injection E as <-|].
  destruct (src_LatestFullCommit s chainID h h) as [s1 [sfc|e]] eqn:Es; [|by injection E as <-].
  destruct (so_commit HSO _ _ _ _ _ Es) as (Hh & HV & HN).
  apply bind_Ret in E as (sh & Esh & E). destruct (Z.eqb_spec sh h) as [->|]; [cbn [negb] in E|by injection E as <-].
  apply bind_Ret in E as ([sfc' [err|]] & Ef & E); [by injection E as <-|].
  destruct (ValidateFull_ok _ _ Ef Hh HV HN) as (_ & hdr & V & N & c & HF).
  eapply update_loop_genuine; [|exact HGS|exact HF|exact E]. intros. by eapply IH.
Qed.

(** ** [Verify] *)

(** An error before the header is accepted. *)
Ltac refused Ev E := injection Ev as <- <-; cbn in E; injection E as <-; by split.

Definition verify_good (shdr : SignedHeader) (r : option (T * S * option lite_error)) : Prop :=
  match r with
  | None => True
  | Some (t, _, err) => genuine_store t ∧ (err = None → ∃ hdr, sh_Header shdr = Some hdr ∧ genuine_header hdr)
  end.

Lemma check_and_trust_genuine t s tfc shdr hdr thdr tN r :
  genuine_store t → trusted tfc thdr tN → sh_Header shdr = Some hdr → hashed_header hdr →
  check_and_trust Sum chainID t s tfc shdr = Ret r → verify_good shdr (Some r).
Proof.
  intros HGS HTr Eh Hx. unfold check_and_trust, fc_Height. rewrite Eh, (tr_hdr _ _ _ HTr), (tr_next _ _ _ HTr).
  cbn [or_panic mbind outcome_bind]. intros (cert & Ec & E)%bind_Ret. unfold NewBaseVerifier in Ec.
  destruct (IsNilOrEmpty _); [done|]. injection Ec as <-.
  pose proof (tr_genuine _ _ _ HTr) as ((Hh & Ht) & _).
  rewrite (wrap64_id (hd_Height thdr + 1)) in E by (unfold in_int64, MinInt64, MaxInt64 in *; lia).
  apply bind_Ret in E as ([cert err] & Ev & E). unfold bv_Verify in Ev. rewrite Eh in Ev.
  cbn [or_panic mbind outcome_bind bv_chainID bv_height bv_valset] in Ev.
  destruct (bytes_equal (hd_ChainID hdr) chainID); [cbn [negb] in Ev|refused Ev E].
  destruct (Z.ltb_spec (hd_Height hdr) (hd_Height thdr + 1)) as [|Hge]; [refused Ev E|].
  destruct (bytes_equal (hd_ValidatorsHash hdr) _) eqn:Ehash; [cbn [negb] in Ev|refused Ev E].
  destruct (SignedHeader_ValidateBasic _ _ _ _) eqn:Esb; [refused Ev E|].
  apply SignedHeader_ok in Esb as (c & Ec & _ & Ebid & Hat). rewrite Ec in Ev. cbn [or_panic mbind outcome_bind] in Ev.
  apply bind_Ret in Ev as ([V' verr] & Evc & Ev). injection Ev as <- <-.
  destruct verr as [verr|]; cbn [option_map bv_valset] in E; [injection E as <-; by split|].
  pose proof (genuine_powers (hd_Height thdr + 1) tN ltac:(lia) (tr_set _ _ _ HTr) (tr_cached _ _ _ HTr)) as Hok.
  pose proof (VerifyCommit_voted _ _ _ _ _ Hok Evc) as Hq. destruct (VerifyCommit_same _ _ _ _ _ _ _ Evc) as [EV' Hc'].
  assert (genuine_header hdr) as HH.
  { eapply (signed_genuine (hd_Height thdr + 1) tN); [lia|lia|done|apply HTr|exact Ebid|exact Hat|exact Hq]. }
  destruct (src_ValidatorSet s chainID _) as [s1 [next|e]] eqn:Es; [|destruct e; injection E as <-; split; eauto].
  apply bind_Ret in E as ([nfc [err|]] & Ef & E); [injection E as <-; by split|].
  apply ValidateFull_ok in Ef as (Esame & hdr' & V & N & c' & HF); [| | |by eapply (so_set HSO)].
  - apply bind_Ret in E as ([t' err] & Esv & E). injection E as <-.
    pose proof (fu_hdr _ _ _ _ _ HF) as Eh'. rewrite Esame in Eh'. cbn in Eh'. rewrite Eh in Eh'. injection Eh' as <-.
    split; [by eapply save_genuine|eauto].
  - cbn. rewrite Eh. by intros ? [= <-].
  - cbn. intros ? [= <-]. unfold hashed_set. rewrite EV'. split; [by eapply tr_hashed|apply Hc', HTr].
Qed.

Lemma verify_new_genuine fuel t s shdr hdr r :
  genuine_store t → sh_Header shdr = Some hdr → hashed_header hdr →
  verify_new Sum chainID fuel t s shdr = Ret r → verify_good shdr r.
Proof.
  intros HGS Eh Hx. unfold verify_new. rewrite Eh. cbn [or_panic mbind outcome_bind].
  assert (∀ t s fc thdr N r, genuine_store t → trusted fc thdr N →
    Some <$> check_and_trust Sum chainID t s fc shdr = Ret r → verify_good shdr r) as Hcheck.
  { intros t1 s1 fc thdr N r' HG1 HTr E. destruct (check_and_trust _ _ _ _ _ _) as [r1|] eqn:Ec; [|done]. injection E as <-.
    by eapply check_and_trust_genuine. }
  intros ([tfc|e] & El & E)%bind_Ret; [|injection E as <-; by split].
  destruct (latest_genuine _ _ _ _ HGS El) as (thdr & tN & HTr).
  rewrite (tr_height _ _ _ HTr) in E. cbn [mbind outcome_bind] in E. apply bind_Ret in E as (nh & _ & E).
  destruct (bytes_equal nh _); [exact (Hcheck _ _ _ _ _ _ HGS HTr E)|]. destruct (_ =? _); [injection E as <-; by split|].
  apply bind_Ret in E as (r' & Eu & E). apply updateToHeight_genuine in Eu; [|done].
  destruct r' as [[[t1 s1] [fc|e]]|]; [|injection E as <-; by split..]. destruct Eu as (HG1 & hdr1 & N1 & HTr1).
  apply bind_Ret in E as (nh1 & _ & E). destruct (bytes_equal nh1 _); [exact (Hcheck _ _ _ _ _ _ HG1 HTr1 E)|injection E as <-; by split].
Qed.

(** C9. The light client accepts only genuine headers: from a store of genuine commits, whatever an untrusted source answers
    and however deep the bisection goes, [Verify] keeps the store genuine, and a header it accepts
    is the header of the chain at its height. The assumptions are on the validators (no more than
    two thirds of the power of a genuine set precommit another block) and on the hash (no collision among the strings
    anybody has hashed). *)
Theorem light_client_sound (fuel : nat) (t t' : T) (s s' : S) (shdr : SignedHeader) (hdr : Header) (err : option lite_error) :
  genuine_store t → sh_Header shdr = Some hdr → hashed_header hdr →
  dv_Verify Sum chainID fuel t s shdr = Ret (Some (t', s', err)) →
  genuine_store t' ∧ (err = None → genuine_header hdr).
Proof.
  intros HGS Eh Hx E. unfold dv_Verify in E. rewrite Eh in E. cbn [or_panic mbind outcome_bind] in E.
  assert (∀ r, verify_good shdr r → r = Some (t', s', err) → genuine_store t' ∧ (err = None → genuine_header hdr)) as Hgood.
  { intros r Hr ->. destruct Hr as [HG' Herr]. split; [done|]. intros Hn. destruct (Herr Hn) as (h' & Eh' & HH).
    rewrite Eh in Eh'. by injection Eh' as <-. }
  apply bind_Ret in E as ([fc|e] & El & E).
  - destruct (latest_genuine _ _ _ _ HGS El) as (thdr & tN & HTr).
    destruct (bytes_equal _ _) eqn:Eb; [|eapply Hgood; [by eapply verify_new_genuine|done]].
    injection E as <- <- <-. split; [done|]. intros _. apply bytes_equal_true in Eb.
    rewrite (tr_hdr _ _ _ HTr) in Eb. pose proof (tr_genuine _ _ _ HTr) as ((Hh & Ht) & _ & Eg). rewrite Eb in Eg.
    pose proof (Header_Hash_inj _ _ (conj Hh Ht) Hx Eg) as Hl. apply header_leaves_inj in Hl.
    assert (hd_Height hdr = hd_Height thdr) as Ehh.
    { pose proof (gc_height HG _ (conj Hh Ht)) as Ehc. rewrite Hl in Ehc. exact Ehc. }
    split; [lia|]. split; [done|]. by rewrite Ehh.
  - destruct e; try (injection E as <- <- <-; by split). eapply Hgood; [by eapply verify_new_genuine|done].
Qed.
End safety.
