(* ===== verification/LiteDB.v ===== *)
(** * Providers of the light client (lite/dbprovider.go, lite/multiprovider.go)

    [DBProvider] keeps full commits in a database: the signed header and the validator set of a height under keys made of the
    chain identifier and ten decimal digits. Amino is a parameter. Without a limit it refines a pair of maps indexed by heights,
    which makes it a provider the light client can trust ([TrustedLaws]). *)

From Stdlib Require Import ZArith Lia Bool Strings.Byte Strings.String.
From stdpp Require Import base list gmap sets sorting.
From S2P Require Import Prelude Merkle KeyPath Types ValidatorSet VerifyCommit Block Strconv DB Account.
From S2P Require Import Lite LiteProofs.
Local Open Scope Z_scope.

(** ** Keys *)

(** [w] decimal digits of a number. *)
Fixpoint decw (w : nat) (n : Z) : bytes :=
  match w with O => [] | S w => digit (n / 10 ^ Z.of_nat w mod 10) :: decw w n end.

(** [fmt.Sprintf("%010d", n)]: at least ten characters, a sign included. *)
Definition fmt010d (n : Z) : bytes :=
  if n <? 0 then minus :: (if - n <? 10 ^ 9 then decw 9 (- n) else fmt_digits 20 (- n) [])
  else if n <? 10 ^ 10 then decw 10 n else Itoa n.

Definition signedHeaderKey (chainID : bytes) (height : Z) : bytes :=
  chainID ++ slash :: fmt010d height ++ slash :: str "sh".

Definition validatorSetKey (chainID : bytes) (height : Z) : bytes :=
  chainID ++ slash :: fmt010d height ++ slash :: str "vs".

(** The longest prefix whose bytes satisfy a predicate, and the rest. *)
Fixpoint span (p : byte → bool) (l : bytes) : bytes * bytes :=
  match l with
  | [] => ([], [])
  | c :: r => if p c then let '(a, b) := span p r in (c :: a, b) else ([], l)
  end.

Definition newline : byte := x0a.

(** The regular expression of the code: some bytes without a slash, a slash, digits, a slash and the rest of the line (a dot
    does not match a newline). *)
Definition match_key (key : bytes) : option (bytes * bytes * bytes) :=
  match span (λ c, negb (bool_decide (c = slash))) key with
  | (chainID, _ :: rest) =>
      if bool_decide (chainID = []) then None
      else
        match span is_digit rest with
        | (digits, c :: part) =>
            if bool_decide (c = slash) && forallb (λ b, negb (bool_decide (b = newline))) part
            then Some (chainID, digits, part) else None
        | (_, []) => None
        end
  | (_, []) => None
  end.

Definition parseKey (key : bytes) : option (bytes * Z * bytes) :=
  match match_key key with
  | None => None
  | Some (chainID, heightStr, part) =>
      match Atoi heightStr with
      | (heightInt, None) => Some (chainID, heightInt, part)
      | (_, Some _) => None
      end
  end.

Definition parseSignedHeaderKey (key : bytes) : option (bytes * Z) :=
  match parseKey key with
  | Some (chainID, height, part) => if bool_decide (part = str "sh") then Some (chainID, height) else None
  | None => None
  end.

Definition parseChainKeyPrefix (key : bytes) : option (bytes * Z) :=
  match parseKey key with Some (chainID, height, _) => Some (chainID, height) | None => None end.

(** ** DBProvider *)

(** Amino on a pointer to a validator set and on a signed header; [None] is an error. *)
Class LiteCodec := {
  encVals : option ValidatorSet → option bytes;
  decVals : bytes → option ValidatorSet;
  encSH : SignedHeader → option bytes;
  decSH : bytes → option SignedHeader
}.

Record DBProvider (D : Type) := mkDBProvider { dbp_db : D; dbp_limit : Z }.
Arguments mkDBProvider {_} _ _.
Arguments dbp_db {_} _.
Arguments dbp_limit {_} _.

Section provider.
Context {D : Type} `{DB D} `{LiteCodec}.

Definition NewDBProvider (db : D) : DBProvider D := mkDBProvider db 0.

Definition SetLimit (dbp : DBProvider D) (limit : Z) : DBProvider D := mkDBProvider (dbp_db dbp) limit.

(** The loop of [deleteAfterN]: the database, the last height and the heights seen; it stops at a key it cannot parse. *)
Definition delete_body (after : Z) (key : bytes) (_ : option bytes) (st : D * Z * Z) : outcome ((D * Z * Z) * bool) :=
  let '(db, lastHeight, numSeen) := st in
  match parseChainKeyPrefix key with
  | None => Ret (st, false)
  | Some (_, height) =>
      let '(lastHeight, numSeen) := if height <? lastHeight then (height, wrap64 (numSeen + 1)) else (lastHeight, numSeen) in
      Ret ((if after <? numSeen then db_Delete db key else db, lastHeight, numSeen), true)
  end.

Definition deleteAfterN (dbp : DBProvider D) (chainID : bytes) (after : Z) : outcome (DBProvider D) :=
  itr ← db_ReverseIterator (dbp_db dbp) (signedHeaderKey chainID 1) (Some (signedHeaderKey chainID MaxInt64 ++ [x00]));
  '(db, _, _) ← for_itr (delete_body after) (dbp_db dbp) itr (dbp_db dbp, MaxInt64, 0);
  Ret (mkDBProvider db (dbp_limit dbp)).

(** The batch is written by [WriteSync], after all three encodings. *)
Definition dbp_SaveFullCommit (dbp : DBProvider D) (fc : FullCommit) : outcome (DBProvider D * option lite_error) :=
  chainID ← fc_ChainID fc;
  height ← fc_Height fc;
  match encVals (fc_Validators fc) with
  | None => Ret (dbp, Some ErrOther)
  | Some vsBz =>
      match encVals (fc_NextValidators fc) with
      | None => Ret (dbp, Some ErrOther)
      | Some nvsBz =>
          match encSH (fc_SignedHeader fc) with
          | None => Ret (dbp, Some ErrOther)
          | Some shBz =>
              let batch := [opSet (validatorSetKey chainID height) vsBz;
                            opSet (validatorSetKey chainID (wrap64 (height + 1))) nvsBz;
                            opSet (signedHeaderKey chainID height) shBz] in
              let dbp := mkDBProvider (foldl do_write (dbp_db dbp) batch) (dbp_limit dbp) in
              dbp ← (if 0 <? dbp_limit dbp then deleteAfterN dbp chainID (dbp_limit dbp) else Ret dbp);
              Ret (dbp, None)
          end
      end
  end.

Definition getValidatorSet (dbp : DBProvider D) (chainID : bytes) (height : Z) : outcome (ValidatorSet + lite_error) :=
  match db_Get (dbp_db dbp) (validatorSetKey chainID height) with
  | None => Ret (inr ErrUnknownValidators)
  | Some vsBz =>
      match decVals vsBz with
      | None => Ret (inr ErrOther)
      | Some valset => '(_, valset) ← TotalVotingPower valset; Ret (inl valset)
      end
  end.

Definition dbp_ValidatorSet (dbp : DBProvider D) (chainID : bytes) (height : Z) := getValidatorSet dbp chainID height.

Definition fillFullCommit (dbp : DBProvider D) (sh : SignedHeader) : outcome (FullCommit + lite_error) :=
  hdr ← or_panic (sh_Header sh);
  r ← getValidatorSet dbp (hd_ChainID hdr) (hd_Height hdr);
  match r with
  | inr err => Ret (inr err)
  | inl valset =>
      r ← getValidatorSet dbp (hd_ChainID hdr) (wrap64 (hd_Height hdr + 1));
      match r with
      | inr err => Ret (inr err)
      | inl nextValset => Ret (inl (mkFullCommit sh (Some valset) (Some nextValset)))
      end
  end.

(** The loop of [LatestFullCommit] stops at the first key of a signed header. *)
Definition latest_body (dbp : DBProvider D) (key : bytes) (value : option bytes) (st : option (FullCommit + lite_error)) :
    outcome (option (FullCommit + lite_error) * bool) :=
  match parseSignedHeaderKey key with
  | None => Ret (st, true)
  | Some _ =>
      match decSH (default [] value) with
      | None => Ret (Some (inr ErrOther), false)
      | Some sh => r ← fillFullCommit dbp sh; Ret (Some r, false)
      end
  end.

Definition dbp_LatestFullCommit (dbp : DBProvider D) (chainID : bytes) (minHeight maxHeight : Z) :
    outcome (FullCommit + lite_error) :=
  let minHeight := if minHeight <=? 0 then 1 else minHeight in
  let maxHeight := if maxHeight =? 0 then MaxInt64 else maxHeight in
  itr ← db_ReverseIterator (dbp_db dbp) (signedHeaderKey chainID minHeight) (Some (signedHeaderKey chainID maxHeight ++ [x00]));
  r ← for_itr (latest_body dbp) (dbp_db dbp) itr None;
  Ret (default (inr ErrCommitNotFound) r).
End provider.

#[export] Instance DBProvider_provider {D} `{DB D} `{LiteCodec} : PersistentProvider (DBProvider D) := {|
  LatestFullCommit := dbp_LatestFullCommit;
  ProviderValidatorSet := dbp_ValidatorSet;
  SaveFullCommit := dbp_SaveFullCommit
|}.

(** ** multiProvider: several providers in a row *)

Section multi.
Context {P : Type} `{PersistentProvider P}.

Definition zero_fc : FullCommit := mkFullCommit (mkSignedHeader None None) None None.

(** [fc == (FullCommit{})]: all pointers are nil. *)
Definition is_zero_fc (fc : FullCommit) : bool :=
  match fc with mkFullCommit (mkSignedHeader None None) None None => true | _ => false end.

Fixpoint multi_SaveFullCommit (mc : list P) (fc : FullCommit) : outcome (list P * option lite_error) :=
  match mc with
  | [] => Ret ([], None)
  | p :: mc =>
      '(p, err) ← SaveFullCommit p fc;
      match err with
      | Some err => Ret (p :: mc, Some err)
      | None => '(mc, err) ← multi_SaveFullCommit mc fc; Ret (p :: mc, err)
      end
  end.

(** The loop over the providers; [fc] is the best commit so far. *)
Fixpoint multi_loop (mc : list P) (chainID : bytes) (minHeight maxHeight : Z) (fc : FullCommit) :
    outcome (FullCommit + lite_error) :=
  match mc with
  | [] => Ret (if is_zero_fc fc then inr ErrCommitNotFound else inl fc)
  | p :: mc =>
      r ← LatestFullCommit p chainID minHeight maxHeight;
      match r with
      | inr ErrCommitNotFound => multi_loop mc chainID minHeight maxHeight fc
      | inr err => Ret (inr err)
      | inl fc_ =>
          fc ← (if is_zero_fc fc then Ret fc_
                else h_ ← fc_Height fc_; h ← fc_Height fc; Ret (if h <? h_ then fc_ else fc));
          h ← fc_Height fc;
          if h =? maxHeight then Ret (inl fc) else multi_loop mc chainID minHeight maxHeight fc
      end
  end.

Definition multi_LatestFullCommit (mc : list P) (chainID : bytes) (minHeight maxHeight : Z) : outcome (FullCommit + lite_error) :=
  multi_loop mc chainID minHeight maxHeight zero_fc.

Fixpoint multi_ValidatorSet (mc : list P) (chainID : bytes) (height : Z) : outcome (ValidatorSet + lite_error) :=
  match mc with
  | [] => Ret (inr ErrUnknownValidators)
  | p :: mc =>
      r ← ProviderValidatorSet p chainID height;
      match r with
      | inl valset => Ret (inl valset)
      | inr _ => multi_ValidatorSet mc chainID height
      end
  end.
End multi.

#[export] Instance multi_provider {P} `{PersistentProvider P} : PersistentProvider (list P) := {|
  LatestFullCommit := multi_LatestFullCommit;
  ProviderValidatorSet := multi_ValidatorSet;
  SaveFullCommit := multi_SaveFullCommit
|}.

(** ** Keys and their order *)

Lemma decw_compare w a b x y :
  bytes_compare (decw w a ++ x) (decw w b ++ y) =
  match a mod 10 ^ Z.of_nat w ?= b mod 10 ^ Z.of_nat w with Eq => bytes_compare x y | c => c end.
Proof.
  induction w as [|w IH].
  { simpl. rewrite !Z.mod_1_r. done. }
  cbn [decw app bytes_compare].
  pose proof (Z.mod_pos_bound (a / 10 ^ Z.of_nat w) 10 ltac:(lia)). pose proof (Z.mod_pos_bound (b / 10 ^ Z.of_nat w) 10 ltac:(lia)).
  rewrite !byte_Z_digit by lia. rewrite IH. clear IH. set (P := 10 ^ Z.of_nat w) in *.
  assert (0 < P) as HP by (apply Z.pow_pos_nonneg; lia).
  replace (10 ^ Z.of_nat (S w)) with (P * 10) by (unfold P; rewrite Nat2Z.inj_succ, Z.pow_succ_r by lia; lia).
  rewrite !Z.rem_mul_r by lia.
  pose proof (Z.mod_pos_bound a P HP). pose proof (Z.mod_pos_bound b P HP).
  generalize dependent (a mod P). generalize dependent (b mod P).
  generalize dependent (a / P mod 10). generalize dependent (b / P mod 10). intros hb Hhb ha Hha rb Hrb ra Hra.
  destruct (Z.compare_spec (48 + ha) (48 + hb)) as [?|?|?]; simpl.
  - replace ha with hb by lia.
    destruct (Z.compare_spec ra rb), (Z.compare_spec (ra + P * hb) (rb + P * hb)); try done; lia.
  - destruct (Z.compare_spec (ra + P * ha) (rb + P * hb)); [nia|done|nia].
  - destruct (Z.compare_spec (ra + P * ha) (rb + P * hb)); [nia|nia|done].
Qed.

Definition ten_digits (h : Z) : Prop := 0 ≤ h < 10 ^ 10.

Lemma fmt010d_ten h : ten_digits h → fmt010d h = decw 10 h.
Proof. intros [Hp Hl]. unfold fmt010d. case_Z; lia || done. Qed.

Lemma key_compare c a b x y :
  ten_digits a → ten_digits b →
  bytes_compare (c ++ slash :: fmt010d a ++ x) (c ++ slash :: fmt010d b ++ y) =
  match a ?= b with Eq => bytes_compare x y | r => r end.
Proof.
  intros Ha Hb. rewrite !fmt010d_ten by done. rewrite compare_app. cbn [bytes_compare]. rewrite Z.compare_refl, decw_compare.
  change (10 ^ Z.of_nat 10) with (10 ^ 10). unfold ten_digits in *. by rewrite !Z.mod_small by lia.
Qed.

(** The key of the greatest height is above those of heights below 9223372036 only. *)
Definition height_ok (h : Z) : Prop := 1 ≤ h < 9223372036.

Lemma height_ten h : height_ok h → ten_digits h.
Proof. unfold height_ok, ten_digits. lia. Qed.

Lemma key_below_max c h x y :
  height_ok h → bytes_compare (c ++ slash :: fmt010d h ++ x) (c ++ slash :: fmt010d MaxInt64 ++ y) = Lt.
Proof.
  intros Hh. rewrite fmt010d_ten by by apply height_ten.
  assert (fmt010d MaxInt64 = decw 10 9223372036 ++ str "854775807") as -> by (vm_compute; reflexivity).
  rewrite compare_app, <-app_assoc. cbn [bytes_compare]. rewrite Z.compare_refl, decw_compare.
  unfold height_ok in Hh. change (10 ^ Z.of_nat 10) with (10 ^ 10). rewrite !Z.mod_small by lia.
  by destruct (Z.compare_spec h 9223372036); [lia| |lia].
Qed.

(** *** Parsing *)

Lemma parse_decw w n s v :
  0 ≤ v → 0 ≤ n → v * 10 ^ Z.of_nat w + n mod 10 ^ Z.of_nat w ≤ 2 ^ 63 →
  parse_uint_loop (decw w n ++ s) v = parse_uint_loop s (v * 10 ^ Z.of_nat w + n mod 10 ^ Z.of_nat w).
Proof.
  revert v. induction w as [|w IH]; intros v Hv Hn Hle.
  { simpl. rewrite Z.mod_1_r. f_equal. lia. }
  cbn [decw app]. rewrite Nat2Z.inj_succ, Z.pow_succ_r in * by lia. set (P := 10 ^ Z.of_nat w) in *.
  assert (0 < P) as HP by (apply Z.pow_pos_nonneg; lia).
  replace (10 * P) with (P * 10) in * by lia. rewrite Z.rem_mul_r in * by lia.
  pose proof (Z.mod_pos_bound (n / P) 10 ltac:(lia)). pose proof (Z.mod_pos_bound n P ltac:(lia)).
  rewrite parse_step by nia. rewrite IH by nia. f_equal. lia.
Qed.

Lemma Atoi_fmt010d h : 0 ≤ h ≤ MaxInt64 → Atoi (fmt010d h) = (h, None).
Proof.
  unfold MaxInt64. intros Hh. unfold fmt010d. destruct (Z.ltb_spec h 0); [lia|].
  destruct (Z.ltb_spec h (10 ^ 10)) as [Hs|]; [|apply Atoi_Itoa; unfold in_int64, MinInt64, MaxInt64; lia].
  assert (∃ d, 0 ≤ d < 10 ∧ decw 10 h = digit d :: decw 9 h) as (d & Hd & E).
  { eexists. split; [|reflexivity]. apply Z.mod_pos_bound. lia. }
  assert (digit d ≠ minus ∧ digit d ≠ plus) as [Hm Hp].
  { split; intros Ed; apply (f_equal byte_Z) in Ed; rewrite byte_Z_digit in Ed by done;
      [change (byte_Z minus) with 45 in Ed|change (byte_Z plus) with 43 in Ed]; lia. }
  unfold Atoi. rewrite E. rewrite !bool_decide_eq_false_2 by done. cbn [orb]. cbv iota. rewrite <-E.
  unfold ParseUint. rewrite bool_decide_eq_false_2 by by rewrite E. rewrite <-(app_nil_r (decw 10 h)).
  rewrite parse_decw; [|lia|lia|change (10 ^ Z.of_nat 10) with (10 ^ 10); rewrite Z.mod_small; lia].
  change (10 ^ Z.of_nat 10) with (10 ^ 10). rewrite Z.mod_small by lia. simpl. case_Z; lia || done.
Qed.

Lemma fmt010d_inj a b : 0 ≤ a ≤ MaxInt64 → 0 ≤ b ≤ MaxInt64 → fmt010d a = fmt010d b → a = b.
Proof. intros Ha Hb E. apply (f_equal Atoi) in E. rewrite !Atoi_fmt010d in E by done. congruence. Qed.

Lemma span_app p a c r : Forall (λ x, p x = true) a → p c = false → span p (a ++ c :: r) = (a, c :: r).
Proof. induction 1 as [|x a Hx Ha IH]; intros Hc; simpl; [by rewrite Hc|]. rewrite Hx. by rewrite (IH Hc). Qed.

Lemma decw_digits w n : Forall (λ x, is_digit x = true) (decw w n).
Proof. induction w as [|w IH]; constructor; [|done]. apply is_digit_digit, Z.mod_pos_bound. lia. Qed.

Lemma fmt_digits_digits fuel : ∀ n acc,
  0 ≤ n → Forall (λ x, is_digit x = true) acc → Forall (λ x, is_digit x = true) (fmt_digits fuel n acc).
Proof.
  induction fuel as [|fuel IH]; intros n acc Hn Ha; simpl; [done|].
  destruct (Z.ltb_spec n 10); [constructor; [apply is_digit_digit; lia|done]|].
  apply IH; [apply Z.div_pos; lia|]. constructor; [apply is_digit_digit, Z.mod_pos_bound; lia|done].
Qed.

Lemma fmt010d_digits h : 0 ≤ h → Forall (λ x, is_digit x = true) (fmt010d h).
Proof.
  intros Hh. unfold fmt010d, Itoa, FormatInt. destruct (Z.ltb_spec h 0); [lia|].
  destruct (h <? 10 ^ 10); [apply decw_digits|by apply fmt_digits_digits].
Qed.

Definition chain_ok (chainID : bytes) : Prop := chainID ≠ [] ∧ slash ∉ chainID.

Lemma parseKey_key c h part :
  chain_ok c → 0 ≤ h ≤ MaxInt64 → newline ∉ part → parseKey (c ++ slash :: fmt010d h ++ slash :: part) = Some (c, h, part).
Proof.
  intros [Hne Hns] Hh Hnl. unfold parseKey, match_key. rewrite span_app.
  2: { apply Forall_forall. intros x Hx. apply negb_true_iff, bool_decide_eq_false_2. by intros ->. }
  2: by rewrite bool_decide_eq_true_2.
  rewrite bool_decide_eq_false_2 by done. rewrite span_app; [|by apply fmt010d_digits; lia|done].
  rewrite bool_decide_eq_true_2 by done. cbn [andb].
  assert (forallb (λ b, negb (bool_decide (b = newline))) part = true) as ->.
  { apply forallb_forall. intros x Hx%list_elem_of_In. apply negb_true_iff, bool_decide_eq_false_2. by intros ->. }
  by rewrite Atoi_fmt010d.
Qed.

Lemma parse_sh c h : chain_ok c → 0 ≤ h ≤ MaxInt64 → parseSignedHeaderKey (signedHeaderKey c h) = Some (c, h).
Proof.
  intros Hc Hh. unfold parseSignedHeaderKey, signedHeaderKey. rewrite parseKey_key; [|done|done|].
  - by rewrite bool_decide_eq_true_2.
  - vm_compute. intros Hx. repeat (apply elem_of_cons in Hx as [Hx|Hx]; [done|]). by apply elem_of_nil in Hx.
Qed.

Lemma parse_vs c h : chain_ok c → 0 ≤ h ≤ MaxInt64 → parseSignedHeaderKey (validatorSetKey c h) = None.
Proof.
  intros Hc Hh. unfold parseSignedHeaderKey, validatorSetKey. rewrite parseKey_key; [|done|done|].
  - by rewrite bool_decide_eq_false_2.
  - vm_compute. intros Hx. repeat (apply elem_of_cons in Hx as [Hx|Hx]; [done|]). by apply elem_of_nil in Hx.
Qed.

Lemma sh_ne_vs c h c' h' : signedHeaderKey c h ≠ validatorSetKey c' h'.
Proof.
  unfold signedHeaderKey, validatorSetKey. intros E. apply (f_equal reverse) in E.
  rewrite !reverse_app, !reverse_cons, !reverse_app, !reverse_cons, <-!app_assoc in E. done.
Qed.

Lemma signedHeaderKey_inj c a b : 0 ≤ a ≤ MaxInt64 → 0 ≤ b ≤ MaxInt64 → signedHeaderKey c a = signedHeaderKey c b → a = b.
Proof.
  unfold signedHeaderKey. intros Ha Hb E%(inj (app c)). injection E as E. apply app_inj_2 in E as [E _]; [|done]. by apply fmt010d_inj.
Qed.

Lemma validatorSetKey_inj c a b : 0 ≤ a ≤ MaxInt64 → 0 ≤ b ≤ MaxInt64 → validatorSetKey c a = validatorSetKey c b → a = b.
Proof.
  unfold validatorSetKey. intros Ha Hb E%(inj (app c)). injection E as E. apply app_inj_2 in E as [E _]; [|done]. by apply fmt010d_inj.
Qed.

(** ** The provider keeps what it is given *)

(** What is relied on of amino: decoding gives back what was encoded, without the caches of the structures. *)
Class LiteCodecLaws `{LiteCodec} : Prop := {
  encVals_total v : is_Some (encVals (Some v));
  decVals_enc v bz : encVals (Some v) = Some bz → ∃ v', decVals bz = Some v' ∧ Validators v' = Validators v;
  decVals_fresh bz v : decVals bz = Some v → totalVotingPower v = 0;
  encSH_total sh : is_Some (encSH sh);
  decSH_enc sh bz : encSH sh = Some bz → ∃ sh', decSH bz = Some sh' ∧ sh_Header sh' = sh_Header sh ∧
    option_map (λ c, (commit_BlockID c, commit_Precommits c)) (sh_Commit sh') =
    option_map (λ c, (commit_BlockID c, commit_Precommits c)) (sh_Commit sh)
}.

Section laws.
Context {D : Type} `{DBLaws D} `{LiteCodecLaws} (chainID : bytes) (Hchain : chain_ok chainID).

(** The writes of [SaveFullCommit]. *)
Definition saved_map (m : gmap bytes bytes) (h : Z) (vsBz nvsBz shBz : bytes) : gmap bytes bytes :=
  <[signedHeaderKey chainID h := shBz]> (<[validatorSetKey chainID (wrap64 (h + 1)) := nvsBz]>
    (<[validatorSetKey chainID h := vsBz]> m)).

Lemma save_writes dbp fc hdr V N :
  db_ok (dbp_db dbp) → dbp_limit dbp = 0 → sh_Header (fc_SignedHeader fc) = Some hdr → hd_ChainID hdr = chainID →
  fc_Validators fc = Some V → fc_NextValidators fc = Some N →
  ∃ dbp' vsBz nvsBz shBz, dbp_SaveFullCommit dbp fc = Ret (dbp', None) ∧ dbp_limit dbp' = 0 ∧ db_ok (dbp_db dbp') ∧
    encVals (Some V) = Some vsBz ∧ encVals (Some N) = Some nvsBz ∧ encSH (fc_SignedHeader fc) = Some shBz ∧
    contents (dbp_db dbp') = saved_map (contents (dbp_db dbp)) (hd_Height hdr) vsBz nvsBz shBz.
Proof.
  intros Hd Hl Eh Ec EV EN. unfold dbp_SaveFullCommit, fc_ChainID, fc_Height. rewrite Eh, EV, EN.
  cbn [or_panic mbind outcome_bind]. rewrite Ec.
  destruct (encVals_total V) as [vsBz Ev], (encVals_total N) as [nvsBz En], (encSH_total (fc_SignedHeader fc)) as [shBz Es].
  rewrite Ev, En, Es. cbn [dbp_limit]. rewrite Hl. cbn [Z.ltb Z.compare mbind outcome_bind].
  set (ops := [opSet _ vsBz; _; _]). destruct (writes_ok ops (dbp_db dbp) Hd) as [Hd' Hc].
  eexists _, vsBz, nvsBz, shBz. split_and!; [reflexivity|done|exact Hd'|done..|]. cbn [dbp_db]. rewrite Hc. done.
Qed.

Lemma lookup_saved m h vsBz nvsBz shBz k bz :
  saved_map m h vsBz nvsBz shBz !! k = Some bz →
  k = signedHeaderKey chainID h ∧ bz = shBz ∨ k = validatorSetKey chainID (wrap64 (h + 1)) ∧ bz = nvsBz ∨
  k = validatorSetKey chainID h ∧ bz = vsBz ∨ m !! k = Some bz.
Proof.
  unfold saved_map. intros E. destruct (decide (k = signedHeaderKey chainID h)) as [->|].
  { rewrite lookup_insert_eq in E. injection E as <-. by left. }
  rewrite lookup_insert_ne in E by done. right.
  destruct (decide (k = validatorSetKey chainID (wrap64 (h + 1)))) as [->|].
  { rewrite lookup_insert_eq in E. injection E as <-. by left. }
  rewrite lookup_insert_ne in E by done. right.
  destruct (decide (k = validatorSetKey chainID h)) as [->|].
  { rewrite lookup_insert_eq in E. injection E as <-. by left. }
  rewrite lookup_insert_ne in E by done. by right.
Qed.

Lemma wrap64_succ h : 1 ≤ h < MaxInt64 → wrap64 (h + 1) = h + 1.
Proof. intros Hh. apply wrap64_id. unfold in_int64, MinInt64, MaxInt64 in *. lia. Qed.

(** *** As a provider to trust *)

Definition header_at (m : gmap bytes bytes) (hdr : Header) : Prop :=
  ∃ key bz sh, m !! key = Some bz ∧ is_Some (parseSignedHeaderKey key) ∧ decSH bz = Some sh ∧ sh_Header sh = Some hdr.

Definition set_at (m : gmap bytes bytes) (h : Z) (l : list Validator) : Prop :=
  0 ≤ h ≤ MaxInt64 ∧ ∃ bz v, m !! validatorSetKey chainID h = Some bz ∧ decVals bz = Some v ∧ Validators v = l.

Definition dbp_ok (dbp : DBProvider D) : Prop :=
  db_ok (dbp_db dbp) ∧ dbp_limit dbp = 0 ∧
  ∀ hdr, header_at (contents (dbp_db dbp)) hdr → hd_ChainID hdr = chainID ∧ 1 ≤ hd_Height hdr < MaxInt64.

Lemma getValidatorSet_stored dbp h v :
  db_ok (dbp_db dbp) → 0 ≤ h ≤ MaxInt64 → getValidatorSet dbp chainID h = Ret (inl v) →
  set_at (contents (dbp_db dbp)) h (Validators v) ∧ cached_ok v.
Proof.
  intros Hd Hh. unfold getValidatorSet. rewrite law_Get by done.
  destruct (contents (dbp_db dbp) !! validatorSetKey chainID h) as [bz|] eqn:Eb; [|done].
  destruct (decVals bz) as [v0|] eqn:Ev; [|done]. intros ([total v'] & Et & E)%bind_Ret. injection E as <-.
  apply TotalVotingPower_same in Et as [Es Hc]. split; [|apply Hc; left; by eapply decVals_fresh].
  split; [done|]. exists bz, v0. done.
Qed.

(** A loop of [LatestFullCommit] that returns a commit found it in one of the entries. *)
Lemma latest_loop_found dbp l fc :
  fold_entries (latest_body dbp) l None = Ret (Some (inl fc)) →
  ∃ k bz sh, (k, bz) ∈ l ∧ is_Some (parseSignedHeaderKey k) ∧ decSH bz = Some sh ∧ fillFullCommit dbp sh = Ret (inl fc).
Proof.
  induction l as [|[k bz] l IH]; [done|]. cbn [fold_entries]. intros ([st go] & Eb & E)%bind_Ret. unfold latest_body in Eb.
  destruct (parseSignedHeaderKey k) eqn:Ek.
  - change (default [] (Some bz)) with bz in Eb. destruct (decSH bz) as [sh|] eqn:Es; [|by injection Eb as <- <-].
    apply bind_Ret in Eb as (r & Ef & [= <- <-]). injection E as ->.
    exists k, bz, sh. rewrite Ek. split_and!; [set_solver|by eexists|done|done].
  - injection Eb as <- <-. destruct (IH E) as (k' & bz' & sh & Hin & ?). exists k', bz', sh. split; [set_solver|done].
Qed.

#[local] Obligation Tactic := idtac.

#[export] Program Instance DBProvider_trusted : TrustedLaws (DBProvider D) chainID := {|
  trusted_ok := dbp_ok;
  stored_header dbp := header_at (contents (dbp_db dbp));
  stored_vs dbp := set_at (contents (dbp_db dbp))
|}.
Next Obligation.
  intros dbp a b fc (Hd & Hl & Hinv) E. cbn [LatestFullCommit DBProvider_provider] in E. unfold dbp_LatestFullCommit in E.
  set (lo := if a <=? 0 then 1 else a) in E. set (hi := if b =? 0 then MaxInt64 else b) in E.
  destruct (law_ReverseIterator (dbp_db dbp) (signedHeaderKey chainID lo) (Some (signedHeaderKey chainID hi ++ [x00])) Hd)
    as (i & l & Ei & Hat & _ & Hdom). rewrite Ei in E. cbn [mbind outcome_bind] in E.
  rewrite (for_itr_ok _ _ _ _ _ Hat) in E. apply bind_Ret in E as (r & Ef & E). injection E as E.
  destruct r as [r|]; [|done]. simpl in E. subst r. apply latest_loop_found in Ef as (k & bz & sh & Hin & Hk & Es & Ef).
  apply elem_of_reverse, Hdom in Hin as [Hm _]. unfold fillFullCommit in Ef.
  apply bind_Ret in Ef as (hdr & Eh%or_panic_Ret & Ef).
  assert (header_at (contents (dbp_db dbp)) hdr) as Hst by (exists k, bz, sh; done).
  destruct (Hinv _ Hst) as [Ec Hh]. rewrite Ec, wrap64_succ in Ef by done.
  apply bind_Ret in Ef as ([v|] & Ev & Ef); [|done]. apply bind_Ret in Ef as ([n|] & En & Ef); [|done]. injection Ef as <-.
  apply getValidatorSet_stored in Ev as [Hv Hcv]; [|done|unfold MaxInt64 in *; lia].
  apply getValidatorSet_stored in En as [Hn Hcn]; [|done|unfold MaxInt64 in *; lia].
  exists hdr, v, n. cbn [fc_SignedHeader fc_Validators fc_NextValidators]. rewrite wrap64_succ by done. done.
Qed.
Next Obligation.
  intros dbp dbp' fc err hdr V N (Hd & Hl & Hinv) E Eh Ec Hh EV EN. cbn [SaveFullCommit DBProvider_provider] in E.
  destruct (save_writes dbp fc hdr V N Hd Hl Eh Ec EV EN) as (d1 & vsBz & nvsBz & shBz & E1 & Hl' & Hd' & Ev & En & Es & Hc).
  rewrite E in E1. injection E1 as <- ->. rewrite Hc.
  assert (∀ x, header_at (saved_map (contents (dbp_db dbp)) (hd_Height hdr) vsBz nvsBz shBz) x →
    header_at (contents (dbp_db dbp)) x ∨ x = hdr) as Hx.
  { intros x (k & bz & sh & Hk & Hp & Hs & Hx). apply lookup_saved in Hk as [[-> ->]|[[-> ->]|[[-> ->]|Hk]]].
    - right. destruct (decSH_enc _ _ Es) as (sh' & Es' & Eh' & _). rewrite Hs in Es'. injection Es' as <-. congruence.
    - rewrite wrap64_succ, parse_vs in Hp by (done || unfold MaxInt64 in *; lia). by destruct Hp.
    - rewrite parse_vs in Hp by (done || unfold MaxInt64 in *; lia). by destruct Hp.
    - left. by exists k, bz, sh. }
  split_and!; [split_and!; [done..|]|exact Hx|].
  - intros x. rewrite Hc. intros [?| ->]%Hx; [by apply Hinv|done].
  - intros h l (Hb & bz & v & Hk & Hv & <-). rewrite wrap64_succ by done. apply lookup_saved in Hk as [[E1 ->]|[[E1 ->]|[[E1 ->]|Hk]]].
    + symmetry in E1. by apply sh_ne_vs in E1.
    + rewrite wrap64_succ in E1 by done. apply validatorSetKey_inj in E1 as ->; [|done|unfold MaxInt64 in *; lia].
      destruct (decVals_enc _ _ En) as (v' & Ev' & <-). rewrite Hv in Ev'. injection Ev' as <-. auto.
    + apply validatorSetKey_inj in E1 as ->; [|done|unfold MaxInt64 in *; lia].
      destruct (decVals_enc _ _ Ev) as (v' & Ev' & <-). rewrite Hv in Ev'. injection Ev' as <-. auto.
    + left. split; [done|]. by exists bz, v.
Qed.

(** ** Refinement: maps from heights to headers and sets *)

(** The total power of the set can be computed. *)
Definition summable (v : ValidatorSet) : Prop :=
  (∀ w, w ∈ Validators v → 0 < val_VotingPower w) ∧ power (Validators v) ≤ MaxTotalVotingPower.

Record rep (dbp : DBProvider D) (A : gmap Z SignedHeader) (V : gmap Z ValidatorSet) : Prop := mkRep {
  rp_db : db_ok (dbp_db dbp);
  rp_limit : dbp_limit dbp = 0;
  rp_header h sh : A !! h = Some sh → height_ok h ∧ is_Some (V !! h) ∧ is_Some (V !! (h + 1)) ∧
    ∃ hdr, sh_Header sh = Some hdr ∧ hd_Height hdr = h ∧ hd_ChainID hdr = chainID;
  rp_set h v : V !! h = Some v → 1 ≤ h ≤ 9223372036 ∧ summable v;
  rp_contents k bz : contents (dbp_db dbp) !! k = Some bz ↔
    (∃ h sh, A !! h = Some sh ∧ k = signedHeaderKey chainID h ∧ encSH sh = Some bz) ∨
    (∃ h v, V !! h = Some v ∧ k = validatorSetKey chainID h ∧ encVals (Some v) = Some bz)
}.

(** What [LatestFullCommit] returns for a height. *)
Definition commit_at (A : gmap Z SignedHeader) (V : gmap Z ValidatorSet) (h : Z) (fc : FullCommit) : Prop :=
  ∃ sh v n v' n', A !! h = Some sh ∧ V !! h = Some v ∧ V !! (h + 1) = Some n ∧
    sh_Header (fc_SignedHeader fc) = sh_Header sh ∧
    option_map (λ c, (commit_BlockID c, commit_Precommits c)) (sh_Commit (fc_SignedHeader fc)) =
    option_map (λ c, (commit_BlockID c, commit_Precommits c)) (sh_Commit sh) ∧
    fc_Validators fc = Some v' ∧ Validators v' = Validators v ∧
    fc_NextValidators fc = Some n' ∧ Validators n' = Validators n.

Lemma getValidatorSet_rep dbp A V h v :
  rep dbp A V → V !! h = Some v → ∃ v', getValidatorSet dbp chainID h = Ret (inl v') ∧ Validators v' = Validators v.
Proof.
  intros HR Hv. destruct (encVals_total v) as [bz Ebz]. unfold getValidatorSet. rewrite law_Get by apply HR.
  assert (contents (dbp_db dbp) !! validatorSetKey chainID h = Some bz) as -> by (apply HR; eauto 10).
  destruct (decVals_enc _ _ Ebz) as (w & Ew & Es). rewrite Ew.
  destruct (rp_set _ _ _ HR _ _ Hv) as [_ [Hp Ht]].
  assert (powers_ok w) as Hok by (split; rewrite ?Es; [done|done|left; by eapply decVals_fresh]).
  rewrite TotalVotingPower_ok by done. eexists. split; [reflexivity|]. exact Es.
Qed.

Lemma fill_rep dbp A V h sh sh' :
  rep dbp A V → A !! h = Some sh → sh_Header sh' = sh_Header sh →
  option_map (λ c, (commit_BlockID c, commit_Precommits c)) (sh_Commit sh') =
  option_map (λ c, (commit_BlockID c, commit_Precommits c)) (sh_Commit sh) →
  ∃ fc, fillFullCommit dbp sh' = Ret (inl fc) ∧ commit_at A V h fc.
Proof.
  intros HR Hh E1 E2. destruct (rp_header _ _ _ HR _ _ Hh) as (Hok & [v Hv] & [n Hn] & hdr & Ehdr & <- & Ec).
  unfold fillFullCommit. rewrite E1, Ehdr. cbn [or_panic mbind outcome_bind]. rewrite Ec.
  destruct (getValidatorSet_rep _ _ _ _ _ HR Hv) as (v' & -> & Ev). cbn [mbind outcome_bind].
  rewrite wrap64_succ by (unfold height_ok, MaxInt64 in *; lia).
  destruct (getValidatorSet_rep _ _ _ _ _ HR Hn) as (n' & -> & En). eexists. split; [reflexivity|].
  exists sh, v, n, v', n'. done.
Qed.

Lemma latest_body_skip dbp k v st : parseSignedHeaderKey k = None → latest_body dbp k v st = Ret (st, true).
Proof. intros E. unfold latest_body. by rewrite E. Qed.

(** Either no key of a list parses, or there is a first one that does. *)
Lemma first_parsed (l : list (bytes * bytes)) :
  (∀ k bz, (k, bz) ∈ l → parseSignedHeaderKey k = None) ∨
  ∃ l1 k bz l2, l = l1 ++ (k, bz) :: l2 ∧ (∀ k' bz', (k', bz') ∈ l1 → parseSignedHeaderKey k' = None) ∧
    is_Some (parseSignedHeaderKey k).
Proof.
  induction l as [|[k bz] l IH]; [left; set_solver|]. destruct (parseSignedHeaderKey k) as [p|] eqn:Ek.
  { right. exists [], k, bz, l. split_and!; [done|set_solver|by eexists]. }
  destruct IH as [Hno|(l1 & k' & bz' & l2 & -> & H1' & H2')]; [left|right].
  - intros k1 b1 [[= -> ->]|?]%elem_of_cons; eauto.
  - exists ((k, bz) :: l1), k', bz', l2. split_and!; [done| |done]. intros k1 b1 [[= -> ->]|?]%elem_of_cons; eauto.
Qed.

(** The loop passes over the keys that are not of signed headers. *)
Lemma latest_loop_skip dbp l1 k bz l2 :
  (∀ k' bz', (k', bz') ∈ l1 → parseSignedHeaderKey k' = None) → is_Some (parseSignedHeaderKey k) →
  fold_entries (latest_body dbp) (l1 ++ (k, bz) :: l2) None =
  match decSH bz with
  | None => Ret (Some (inr ErrOther))
  | Some sh => r ← fillFullCommit dbp sh; Ret (Some r)
  end.
Proof.
  intros Hskip [p Hk]. induction l1 as [|[k1 b1] l1 IH]; cbn [app fold_entries].
  - unfold latest_body. rewrite Hk. simpl. destruct (decSH bz); [|done]. by destruct (fillFullCommit _ _).
  - rewrite latest_body_skip by (apply (Hskip k1 b1); set_solver). cbn [mbind outcome_bind]. apply IH. set_solver.
Qed.

Lemma latest_loop_none dbp l :
  (∀ k bz, (k, bz) ∈ l → parseSignedHeaderKey k = None) → fold_entries (latest_body dbp) l None = Ret None.
Proof.
  induction l as [|[k b] l IH]; intros Hskip; [done|]. cbn [fold_entries].
  rewrite latest_body_skip by (apply (Hskip k b); set_solver). cbn [mbind outcome_bind]. apply IH. set_solver.
Qed.

(** The bounds of a query: up to a height of ten digits, or without a limit. *)
Definition bound_ok (hi : Z) : Prop := hi = MaxInt64 ∨ 1 ≤ hi < 10 ^ 10.

Lemma in_range lo hi h :
  1 ≤ lo < 10 ^ 10 → bound_ok hi → height_ok h →
  IsKeyInDomain (signedHeaderKey chainID h) (signedHeaderKey chainID lo) (Some (signedHeaderKey chainID hi ++ [x00])) = true ↔
  lo ≤ h ≤ hi.
Proof.
  intros Hlo Hhi Hh. pose proof (height_ten _ Hh) as Ht. rewrite IsKeyInDomain_spec.
  assert (bytes_le (signedHeaderKey chainID lo) (signedHeaderKey chainID h) ↔ lo ≤ h) as ->.
  { unfold bytes_le, signedHeaderKey. rewrite key_compare by (unfold ten_digits in *; lia || done).
    rewrite bytes_compare_refl. destruct (Z.compare_spec lo h); split; (lia || done). }
  assert (bytes_lt (signedHeaderKey chainID h) (signedHeaderKey chainID hi ++ [x00]) ↔ h ≤ hi) as Hlt.
  { unfold bytes_lt, signedHeaderKey. rewrite <-app_assoc. cbn [app]. rewrite <-app_assoc. destruct Hhi as [->|Hhi].
    - rewrite key_below_max by done. unfold height_ok, MaxInt64 in *. split; [lia|done].
    - rewrite key_compare by (unfold ten_digits in *; lia || done).
      destruct (Z.compare_spec h hi) as [->| |]; split; (lia || done). }
  rewrite <-Hlt. split; [intros [? Hx]; auto|intros [? Hx]; split; [done|]; by intros x [= <-]].
Qed.

Lemma sh_keys_order a b : height_ok a → height_ok b → bytes_lt (signedHeaderKey chainID a) (signedHeaderKey chainID b) ↔ a < b.
Proof.
  intros Ha%height_ten Hb%height_ten. unfold bytes_lt, signedHeaderKey. rewrite key_compare by done. rewrite bytes_compare_refl.
  destruct (Z.compare_spec a b); split; (lia || done).
Qed.

Definition query_lo (lo : Z) : Z := if lo <=? 0 then 1 else lo.
Definition query_hi (hi : Z) : Z := if hi =? 0 then MaxInt64 else hi.

Lemma latest_rep dbp A V lo hi :
  rep dbp A V → query_lo lo < 10 ^ 10 → bound_ok (query_hi hi) →
  (∀ h, query_lo lo ≤ h ≤ query_hi hi → A !! h = None) ∧
    dbp_LatestFullCommit dbp chainID lo hi = Ret (inr ErrCommitNotFound) ∨
  ∃ h fc, query_lo lo ≤ h ≤ query_hi hi ∧ dbp_LatestFullCommit dbp chainID lo hi = Ret (inl fc) ∧ commit_at A V h fc ∧
    ∀ h', h < h' ≤ query_hi hi → A !! h' = None.
Proof.
  intros HR Hlo Hhi. unfold dbp_LatestFullCommit. change (if lo <=? 0 then 1 else lo) with (query_lo lo).
  change (if hi =? 0 then MaxInt64 else hi) with (query_hi hi).
  assert (1 ≤ query_lo lo) as Hlo1 by (unfold query_lo; case_Z; lia).
  revert Hlo Hlo1 Hhi. generalize (query_lo lo) (query_hi hi). clear lo hi. intros lo hi Hlo Hlo1 Hhi.
  destruct (law_ReverseIterator (dbp_db dbp) (signedHeaderKey chainID lo) (Some (signedHeaderKey chainID hi ++ [x00])) (rp_db _ _ _ HR))
    as (i & l & Ei & Hat & Hsort & Hdom). rewrite Ei. cbn [mbind outcome_bind]. rewrite (for_itr_ok _ _ _ _ _ Hat).
  assert (∀ k bz, (k, bz) ∈ l → parseSignedHeaderKey k = None ∨
    ∃ h sh, A !! h = Some sh ∧ k = signedHeaderKey chainID h ∧ encSH sh = Some bz ∧ lo ≤ h ≤ hi) as Hent.
  { intros k bz Hin. apply Hdom in Hin as [Hm Hr]. apply (rp_contents _ _ _ HR) in Hm as [(h & sh & HA & -> & Es)|(h & v & HV & -> & _)].
    - right. exists h, sh. destruct (rp_header _ _ _ HR _ _ HA) as (Hh & _). rewrite in_range in Hr by done. done.
    - left. apply parse_vs; [done|]. destruct (rp_set _ _ _ HR _ _ HV) as [? _]. unfold MaxInt64. lia. }
  assert (∀ h sh, A !! h = Some sh → lo ≤ h ≤ hi → ∃ bz, (signedHeaderKey chainID h, bz) ∈ l ∧ encSH sh = Some bz) as Hback.
  { intros h sh HA Hr. destruct (encSH_total sh) as [bz Es]. exists bz. split; [|done]. apply Hdom.
    destruct (rp_header _ _ _ HR _ _ HA) as (Hh & _). split; [apply HR; eauto 10|by apply in_range]. }
  destruct (first_parsed (reverse l)) as [Hno|(l1 & k & bz & l2 & El & Hskip & Hk)].
  - left. rewrite latest_loop_none by done. split; [|done]. intros h Hr. destruct (A !! h) as [sh|] eqn:HA; [|done].
    destruct (Hback _ _ HA Hr) as (bz & Hin & _). apply elem_of_reverse, Hno in Hin.
    destruct (rp_header _ _ _ HR _ _ HA) as (Hh & _). rewrite parse_sh in Hin by (done || unfold height_ok, MaxInt64 in *; lia). done.
  - right. rewrite El, latest_loop_skip by done.
    destruct (Hent k bz) as [E|(h & sh & HA & -> & Es & Hr)]; [apply elem_of_reverse; rewrite El; set_solver|by rewrite E in Hk; destruct Hk|].
    destruct (decSH_enc _ _ Es) as (sh' & -> & E1 & E2). destruct (fill_rep _ _ _ _ _ _ HR HA E1 E2) as (fc & -> & Hfc).
    exists h, fc. split_and!; [lia|lia|done|done|]. intros h' Hr'. destruct (A !! h') as [sh2|] eqn:HA'; [|done].
    destruct (Hback _ _ HA' ltac:(lia)) as (bz' & Hin & _). destruct (rp_header _ _ _ HR _ _ HA) as (Hh & _).
    destruct (rp_header _ _ _ HR _ _ HA') as (Hh' & _). exfalso.
    assert (l = reverse l2 ++ (signedHeaderKey chainID h, bz) :: reverse l1) as El'.
    { rewrite <-(reverse_involutive l), El, reverse_app, reverse_cons, <-app_assoc. done. }
    rewrite El' in Hin. rewrite El', fmap_app in Hsort. apply elem_of_app in Hin as [Hin|[Hin|Hin]%elem_of_cons].
    + assert (bytes_lt (signedHeaderKey chainID h') (signedHeaderKey chainID h)) as Hlt.
      { eapply StronglySorted_app_1_elem_of; [exact Hsort|by apply (list_elem_of_fmap_2 fst) in Hin|csimpl; set_solver]. }
      apply sh_keys_order in Hlt; [lia|done|done].
    + injection Hin as Hin _. apply signedHeaderKey_inj in Hin; unfold height_ok, MaxInt64 in *; lia.
    + apply elem_of_reverse, Hskip in Hin. rewrite parse_sh in Hin by (done || unfold height_ok, MaxInt64 in *; lia). done.
Qed.

(** Saving a commit enters its header and its two sets. *)
Lemma save_rep dbp A V fc hdr vals next :
  rep dbp A V → sh_Header (fc_SignedHeader fc) = Some hdr → hd_ChainID hdr = chainID → height_ok (hd_Height hdr) →
  fc_Validators fc = Some vals → fc_NextValidators fc = Some next → summable vals → summable next →
  ∃ dbp', dbp_SaveFullCommit dbp fc = Ret (dbp', None) ∧
    rep dbp' (<[hd_Height hdr := fc_SignedHeader fc]> A) (<[hd_Height hdr + 1 := next]> (<[hd_Height hdr := vals]> V)).
Proof.
  intros HR Eh Ec Hh EV EN Hv Hn.
  destruct (save_writes dbp fc hdr vals next (rp_db _ _ _ HR) (rp_limit _ _ _ HR) Eh Ec EV EN)
    as (dbp' & vsBz & nvsBz & shBz & E & Hl & Hd & Ev & En & Es & Hc).
  exists dbp'. split; [done|]. set (h := hd_Height hdr) in *.
  assert (1 ≤ h < 9223372036) as Hb by done.
  assert (wrap64 (h + 1) = h + 1) as Hw by (apply wrap64_succ; unfold MaxInt64; lia).
  assert (∀ a, a = h ∨ a = h + 1 → 0 ≤ a ≤ MaxInt64) as Hab by (unfold MaxInt64; lia).
  assert (∀ a sh, A !! a = Some sh → 0 ≤ a ≤ MaxInt64) as HA64.
  { intros a sh Ha. destruct (rp_header _ _ _ HR _ _ Ha) as (Hx & _). unfold height_ok, MaxInt64 in *. lia. }
  assert (∀ a v, V !! a = Some v → 0 ≤ a ≤ MaxInt64) as HV64.
  { intros a v Ha. destruct (rp_set _ _ _ HR _ _ Ha) as (Hx & _). unfold MaxInt64 in *. lia. }
  split; [done|done| | |].
  - intros a sh. rewrite !lookup_insert_is_Some, lookup_insert_Some. intros [[<- <-]|[Hne Ha]].
    + split_and!; [done|destruct (decide (h = h + 1)); auto|auto|]. by exists hdr.
    + destruct (rp_header _ _ _ HR _ _ Ha) as (? & ? & ? & ?). split_and!; [done| | |done].
      * destruct (decide (h + 1 = a)); [by left|right; split; [done|]; auto].
      * destruct (decide (h + 1 = a + 1)); [by left|right; split; [done|]]. destruct (decide (h = a + 1)); auto.
  - intros a v. rewrite lookup_insert_Some. intros [[<- <-]|[Hne Ha]]; [split; [lia|done]|].
    apply lookup_insert_Some in Ha as [[<- <-]|[Hne' Ha]]; [split; [lia|done]|by eapply (rp_set _ _ _ HR)].
  - intros k bz. rewrite Hc. unfold saved_map. rewrite Hw. split.
    + intros Hk. rewrite lookup_insert_Some in Hk. destruct Hk as [[<- <-]|[Hk1 Hk]].
      { left. exists h, (fc_SignedHeader fc). by rewrite lookup_insert_eq. }
      rewrite lookup_insert_Some in Hk. destruct Hk as [[<- <-]|[Hk2 Hk]].
      { right. exists (h + 1), next. by rewrite lookup_insert_eq. }
      rewrite lookup_insert_Some in Hk. destruct Hk as [[<- <-]|[Hk3 Hk]].
      { right. exists h, vals. rewrite lookup_insert_ne by lia. by rewrite lookup_insert_eq. }
      apply (rp_contents _ _ _ HR) in Hk as [(a & sh & Ha & -> & ?)|(a & v & Ha & -> & ?)].
      * left. exists a, sh. rewrite lookup_insert_ne; [done|]. by intros <-.
      * right. exists a, v. rewrite !lookup_insert_ne; [done| |]; by intros <-.
    + intros [(a & sh & Ha & -> & Ea)|(a & v & Ha & -> & Ea)].
      * apply lookup_insert_Some in Ha as [[<- <-]|[Hne Ha]].
        { rewrite lookup_insert_eq. congruence. }
        rewrite !lookup_insert_ne; [apply HR; eauto 10|intros E1; by apply (eq_sym) in E1; apply sh_ne_vs in E1..|].
        intros E1%signedHeaderKey_inj; [done|by apply Hab; left|by eapply HA64].
      * rewrite lookup_insert_ne by apply sh_ne_vs.
        apply lookup_insert_Some in Ha as [[<- <-]|[Hne Ha]].
        { rewrite lookup_insert_eq. congruence. }
        apply lookup_insert_Some in Ha as [[<- <-]|[Hne' Ha]].
        { rewrite lookup_insert_ne; [rewrite lookup_insert_eq; congruence|].
          intros E1%validatorSetKey_inj; [lia|by apply Hab; right|by apply Hab; left]. }
        rewrite !lookup_insert_ne; [apply HR; eauto 10| |].
        -- intros E1%validatorSetKey_inj; [done|by apply Hab; left|by eapply HV64].
        -- intros E1%validatorSetKey_inj; [done|by apply Hab; right|by eapply HV64].
Qed.

(** A full commit that can be stored, and its entry in the maps. *)
Definition storable (fc : FullCommit) : Prop :=
  ∃ hdr vals next, sh_Header (fc_SignedHeader fc) = Some hdr ∧ hd_ChainID hdr = chainID ∧ height_ok (hd_Height hdr) ∧
    fc_Validators fc = Some vals ∧ fc_NextValidators fc = Some next ∧ summable vals ∧ summable next.

Definition enter (m : gmap Z SignedHeader * gmap Z ValidatorSet) (fc : FullCommit) : gmap Z SignedHeader * gmap Z ValidatorSet :=
  match sh_Header (fc_SignedHeader fc), fc_Validators fc, fc_NextValidators fc with
  | Some hdr, Some vals, Some next =>
      (<[hd_Height hdr := fc_SignedHeader fc]> m.1, <[hd_Height hdr + 1 := next]> (<[hd_Height hdr := vals]> m.2))
  | _, _, _ => m
  end.

(** Saving several commits in turn; an error or a panic stops. *)
Fixpoint save_all (dbp : DBProvider D) (fcs : list FullCommit) : option (DBProvider D) :=
  match fcs with
  | [] => Some dbp
  | fc :: fcs => match dbp_SaveFullCommit dbp fc with Ret (dbp, None) => save_all dbp fcs | _ => None end
  end.

Lemma save_all_rep dbp A V fcs :
  rep dbp A V → Forall storable fcs →
  ∃ dbp', save_all dbp fcs = Some dbp' ∧ rep dbp' (foldl enter (A, V) fcs).1 (foldl enter (A, V) fcs).2.
Proof.
  intros HR HF. revert dbp A V HR. induction HF as [|fc fcs Hfc HF IH]; intros dbp A V HR; simpl; [by exists dbp|].
  destruct Hfc as (hdr & vals & next & Eh & Ec & Hh & EV & EN & Hv & Hn).
  destruct (save_rep dbp A V fc hdr vals next HR Eh Ec Hh EV EN Hv Hn) as (dbp1 & -> & HR1).
  unfold enter at 2 4. rewrite Eh, EV, EN. by apply IH.
Qed.

Lemma empty_rep d : db_ok d → contents d = ∅ → rep (NewDBProvider d) ∅ ∅.
Proof.
  intros Hd Hc. split; [done|done|by intros ? ? ?%lookup_empty_Some..|]. intros k bz. cbn [NewDBProvider dbp_db]. rewrite Hc. split.
  - by intros ?%lookup_empty_Some.
  - by intros [(? & ? & ?%lookup_empty_Some & _)|(? & ? & ?%lookup_empty_Some & _)].
Qed.

(** The provider over a database refines a map of full commits indexed by heights: after any sequence of saves into an empty
    database without a limit, a query for a range of heights returns the commit saved last for the greatest height of the range
    that has one, with the validator sets saved last for that height and the next, and no commit when
    there is none. Heights have ten digits at most, below 9223372036, above which the order of the keys is not the order of the heights. *)
Theorem db_provider_refines (d : D) (fcs : list FullCommit) :
  db_ok d → contents d = ∅ → Forall storable fcs →
  ∃ dbp, save_all (NewDBProvider d) fcs = Some dbp ∧
    let A := (foldl enter (∅, ∅) fcs).1 in
    let V := (foldl enter (∅, ∅) fcs).2 in
    ∀ lo hi, query_lo lo < 10 ^ 10 → bound_ok (query_hi hi) →
      (∀ h, query_lo lo ≤ h ≤ query_hi hi → A !! h = None) ∧
        dbp_LatestFullCommit dbp chainID lo hi = Ret (inr ErrCommitNotFound) ∨
      ∃ h fc, query_lo lo ≤ h ≤ query_hi hi ∧ dbp_LatestFullCommit dbp chainID lo hi = Ret (inl fc) ∧ commit_at A V h fc ∧
        ∀ h', h < h' ≤ query_hi hi → A !! h' = None.
Proof.
  intros Hd Hc HF. destruct (save_all_rep _ _ _ _ (empty_rep d Hd Hc) HF) as (dbp & E & HR).
  exists dbp. split; [done|]. intros A V lo hi. by apply latest_rep.
Qed.
End laws.

(** ** Several providers *)

Section multi_laws.
Context {P : Type} `{PersistentProvider P} (chainID : bytes).

(** The provider answers with a commit of the range, or with none. *)
Definition answers (p : P) (lo hi : Z) (o : option (Z * FullCommit)) : Prop :=
  match o with
  | None => LatestFullCommit p chainID lo hi = Ret (inr ErrCommitNotFound)
  | Some (h, fc) => LatestFullCommit p chainID lo hi = Ret (inl fc) ∧ fc_Height fc = Ret h ∧ h ≤ hi
  end.

Lemma height_not_zero fc h : fc_Height fc = Ret h → is_zero_fc fc = false.
Proof. by destruct fc as [[[h0|] c] v n]. Qed.

Lemma multi_loop_best mc lo hi os fc h :
  Forall2 (λ p o, answers p lo hi o) mc os → fc_Height fc = Ret h → h ≤ hi →
  ∃ h' fc', multi_loop mc chainID lo hi fc = Ret (inl fc') ∧ fc_Height fc' = Ret h' ∧ h ≤ h' ∧
    (h' = h ∧ fc' = fc ∨ Some (h', fc') ∈ os) ∧ (∀ k gc, Some (k, gc) ∈ os → k ≤ h').
Proof.
  intros HF. revert fc h. induction HF as [|p o mc os Ho HF IH]; intros fc h Hh Hle; cbn [multi_loop].
  { rewrite (height_not_zero _ _ Hh). exists h, fc. split_and!; [done|done|lia|by left|set_solver]. }
  destruct o as [[k gc]|]; simpl in Ho.
  - destruct Ho as (-> & Hk & Hkle). cbn [mbind outcome_bind]. rewrite (height_not_zero _ _ Hh), Hk, Hh. cbn [mbind outcome_bind].
    assert (∃ m best, (if h <? k then gc else fc) = best ∧ fc_Height best = Ret m ∧ h ≤ m ∧ k ≤ m ∧ m ≤ hi ∧
      (m = h ∧ best = fc ∨ m = k ∧ best = gc)) as (m & best & -> & Hm & ? & ? & ? & Hcase).
    { destruct (Z.ltb_spec h k); [exists k, gc|exists h, fc]; split_and!; (done || lia || auto). }
    rewrite Hm. cbn [mbind outcome_bind]. destruct (Z.eqb_spec m hi) as [->|Hne].
    + exists hi, best. split_and!; [done|done|lia| |].
      * destruct Hcase as [[? ?]|[-> ->]]; [left; done|right; set_solver].
      * intros k' gc' [[= -> ->]|Hin]%elem_of_cons; [lia|].
        apply list_elem_of_lookup in Hin as [i Hi]. destruct (Forall2_lookup_r _ _ _ _ _ HF Hi) as (q & _ & Hq). simpl in Hq. lia.
    + destruct (IH best m Hm ltac:(lia)) as (h' & fc' & E & Hh' & Hge & Hin & Hall). exists h', fc'.
      split_and!; [done|done|lia| |].
      * destruct Hin as [[-> ->]|Hin]; [|right; set_solver]. destruct Hcase as [[-> ->]|[-> ->]]; [by left|right; set_solver].
      * intros k' gc' [[= -> ->]|Hin']%elem_of_cons; [lia|by eapply Hall].
  - rewrite Ho. cbn [mbind outcome_bind]. destruct (IH fc h Hh Hle) as (h' & fc' & E & Hh' & Hge & Hin & Hall).
    exists h', fc'. split_and!; [done|done|done| |].
    + destruct Hin; [by left|right; set_solver].
    + intros k' gc' [|Hin']%elem_of_cons; [done|by eapply Hall].
Qed.

(** Several providers answer with the greatest of their commits, or with none when none of them has one. *)
Lemma multi_latest_best mc lo hi os :
  Forall2 (λ p o, answers p lo hi o) mc os →
  (Forall (λ o, o = None) os ∧ multi_LatestFullCommit mc chainID lo hi = Ret (inr ErrCommitNotFound)) ∨
  ∃ h fc, multi_LatestFullCommit mc chainID lo hi = Ret (inl fc) ∧ Some (h, fc) ∈ os ∧
    ∀ k gc, Some (k, gc) ∈ os → k ≤ h.
Proof.
  unfold multi_LatestFullCommit. induction 1 as [|p o mc os Ho HF IH]; [by left|]. cbn [multi_loop].
  destruct o as [[k gc]|]; simpl in Ho.
  - right. destruct Ho as (-> & Hk & Hkle). cbn [mbind outcome_bind is_zero_fc zero_fc]. rewrite Hk. cbn [mbind outcome_bind].
    destruct (Z.eqb_spec k hi) as [->|Hne].
    + exists hi, gc. split_and!; [done|set_solver|]. intros k' gc' [[= -> ->]|Hin]%elem_of_cons; [lia|].
      apply list_elem_of_lookup in Hin as [i Hi]. destruct (Forall2_lookup_r _ _ _ _ _ HF Hi) as (q & _ & Hq). simpl in Hq. lia.
    + destruct (multi_loop_best mc lo hi os gc k HF Hk Hkle) as (h' & fc' & E & _ & Hge & Hin & Hall). exists h', fc'.
      split_and!; [done|destruct Hin as [[-> ->]|]; set_solver|].
      intros k' gc' [[= -> ->]|Hin']%elem_of_cons; [lia|by eapply Hall].
  - rewrite Ho. cbn [mbind outcome_bind]. destruct IH as [[Hn E]|(h & fc & E & Hin & Hall)]; [left; by split; [constructor|]|].
    right. exists h, fc. split_and!; [done|set_solver|]. intros k gc [|Hin']%elem_of_cons; [done|by eapply Hall].
Qed.
End multi_laws.
