(* ===== verification/LiteFacts.v ===== *)
(** * The light client: bisection succeeds, hostile sources, samples

    With an honest source the bisection of [updateToHeight] ends and reaches its height, with fuel for the distance. With a hostile
    one it can run for ever or panic. The limit of a [DBProvider] keeps one commit less than it says. *)

From Stdlib Require Import ZArith Lia Bool Strings.Byte Strings.String.
From stdpp Require Import base list gmap sets sorting.
From S2P Require Import Prelude Merkle KeyPath Types ValidatorSet VerifyCommit Block Strconv Account DB.
From S2P Require Import EvidenceFacts Lite LiteProofs LiteDB.
Local Open Scope Z_scope.

Section bisection.
Context (Sum : bytes → bytes) `{ValidatorCodec} `{BlockCodec} `{Codec} `{Crypto}.
Context {T S : Type} `{PersistentProvider T} `{HS : Source S} (chainID : bytes).

(** The call of [VerifyFutureCommit] in [verifyAndSave]. *)
Definition future (trustedFC sourceFC : FullCommit) : outcome (option verify_commit_error) :=
  next ← or_panic (fc_NextValidators trustedFC);
  vals ← or_panic (fc_Validators sourceFC);
  cmt ← or_panic (sh_Commit (fc_SignedHeader sourceFC));
  h ← fc_Height sourceFC;
  '(_, _, err) ← VerifyFutureCommit next vals chainID (commit_BlockID cmt) h cmt;
  Ret err.

Lemma verifyAndSave_future t tfc sfc a b err :
  fc_Height tfc = Ret a → fc_Height sfc = Ret b → a < b → future tfc sfc = Ret err →
  verifyAndSave chainID t tfc sfc =
  match err with Some e => Ret (t, Some (ErrVerify e)) | None => SaveFullCommit t sfc end.
Proof.
  intros Ha Hb Hlt E. unfold verifyAndSave. rewrite Ha, Hb. cbn [mbind outcome_bind].
  destruct (Z.leb_spec b a); [lia|]. unfold future in E. rewrite Hb in E.
  apply bind_Ret in E as (next & -> & E). apply bind_Ret in E as (vals & -> & E). apply bind_Ret in E as (cmt & -> & E).
  cbn [mbind outcome_bind] in E |- *. apply bind_Ret in E as ([[o n] e] & -> & [= <-]). done.
Qed.

(** A source that offers, right after a trusted height, a valid commit of a set that shares nothing with the trusted one, sends the
    bisection back to the trusted height again and again. *)
Lemma update_loop_stuck (rec : T → S → Z → outcome (option (T * S * (FullCommit + lite_error)))) n h t s tfc sfc a got needed :
  LatestFullCommit t chainID 1 h = Ret (inl tfc) → fc_Height tfc = Ret a → fc_Height sfc = Ret h → 0 ≤ a → h = a + 1 → h < 2 ^ 62 →
  future tfc sfc = Ret (Some (ErrTooMuchChange got needed)) →
  (rec t s a = Ret None ∨ ∃ fc, rec t s a = Ret (Some (t, s, inl fc))) →
  update_loop chainID rec n h sfc t s = Ret None.
Proof.
  intros El Ha Hh Ha0 Eh Hb Ef Hrec. induction n as [|n IH]; [done|]. cbn [update_loop]. rewrite El. cbn [mbind outcome_bind].
  rewrite Ha. cbn [mbind outcome_bind]. destruct (Z.eqb_spec a h); [lia|].
  rewrite (verifyAndSave_future t tfc sfc a h _ Ha Hh ltac:(lia) Ef). cbn [mbind outcome_bind too_much_change IsErrTooMuchChange].
  rewrite Hh. cbn [mbind outcome_bind]. destruct (Z.ltb_spec a h); [cbn [negb]|lia].
  assert (Z.quot (wrap64 (a + h)) 2 = a) as ->.
  { rewrite wrap64_id by (unfold in_int64, MinInt64, MaxInt64; lia). rewrite Z.quot_div_nonneg by lia. subst h.
    replace (a + (a + 1)) with (1 + a * 2) by lia. by rewrite Z.div_add by lia. }
  destruct Hrec as [->|(fc & ->)]; [done|]. cbn [mbind outcome_bind]. exact IH.
Qed.

Lemma updateToHeight_stuck t (s : S) tfc sfc sfc' bfc bfc' a got needed fuel :
  LatestFullCommit t chainID 1 (a + 1) = Ret (inl tfc) → LatestFullCommit t chainID 1 a = Ret (inl tfc) →
  fc_Height tfc = Ret a → 0 ≤ a → a + 1 < 2 ^ 62 →
  src_LatestFullCommit s chainID (a + 1) (a + 1) = (s, inl sfc) → fc_Height sfc = Ret (a + 1) →
  ValidateFull Sum sfc chainID = Ret (sfc', None) → fc_Height sfc' = Ret (a + 1) →
  src_LatestFullCommit s chainID a a = (s, inl bfc) → fc_Height bfc = Ret a →
  ValidateFull Sum bfc chainID = Ret (bfc', None) →
  future tfc sfc' = Ret (Some (ErrTooMuchChange got needed)) →
  updateToHeight Sum chainID fuel t s (a + 1) = Ret None.
Proof.
  intros El1 El2 Ha Ha0 Hb Es1 Hs1 Ev1 Hs1' Es2 Hs2 Ev2 Ef. destruct fuel as [|fuel]; [done|]. cbn [updateToHeight].
  rewrite Es1, Hs1. cbn [mbind outcome_bind]. rewrite Z.eqb_refl, Ev1. cbn [negb mbind outcome_bind].
  eapply update_loop_stuck; [exact El1|exact Ha|exact Hs1'|done|done|done|exact Ef|].
  destruct fuel as [|fuel]; [by left|right]. cbn [updateToHeight]. rewrite Es2, Hs2. cbn [mbind outcome_bind].
  rewrite Z.eqb_refl, Ev2. cbn [negb mbind outcome_bind update_loop]. rewrite El2. cbn [mbind outcome_bind].
  rewrite Ha. cbn [mbind outcome_bind]. rewrite Z.eqb_refl. eauto.
Qed.
(** An honest source, a provider that keeps what it is given, and validator sets that change little enough from one height to
    the next: up to [top], the source offers the commits [C], the provider holds commits of the heights of a set and
    returns the greatest one, and a commit that is not accepted fails for too much change only, never from one height to the next. *)
Context (ok : T → gset Z → Prop) (R : FullCommit → Z → Prop) (offer C : Z → FullCommit) (top : Z).

Record honest : Prop := mkHonest {
  ho_source s k : 1 ≤ k ≤ top → ∃ s', src_LatestFullCommit s chainID k k = (s', inl (offer k));
  ho_height k : 1 ≤ k ≤ top → fc_Height (offer k) = Ret k ∧ fc_Height (C k) = Ret k;
  ho_valid k : 1 ≤ k ≤ top → ValidateFull Sum (offer k) chainID = Ret (C k, None);
  ho_latest t X h : ok t X → 1 ≤ h ≤ top → (∃ k, k ∈ X ∧ 1 ≤ k ≤ h) →
    ∃ k fc, LatestFullCommit t chainID 1 h = Ret (inl fc) ∧ fc_Height fc = Ret k ∧ R fc k ∧ 1 ≤ k ≤ h ∧ k ∈ X ∧
      ∀ k', k' ∈ X → k' ≤ h → k' ≤ k;
  ho_save t X k : ok t X → 1 ≤ k ≤ top → ∃ t', SaveFullCommit t (C k) = Ret (t', None) ∧ ok t' ({[k]} ∪ X);
  ho_link fc a b : R fc a → 1 ≤ a < b → b ≤ top →
    ∃ err, future fc (C b) = Ret err ∧ (err = None ∨ ∃ got needed, err = Some (ErrTooMuchChange got needed)) ∧
      (b = a + 1 → err = None)
}.

Context (HH : honest) (Htop : top < 2 ^ 62).

(** What a call that succeeds leaves. *)
Definition reached (X : gset Z) (h : Z) (r : outcome (option (T * S * (FullCommit + lite_error)))) : Prop :=
  ∃ t s fc X', r = Ret (Some (t, s, inl fc)) ∧ fc_Height fc = Ret h ∧ ok t X' ∧ X ⊆ X' ∧ h ∈ X'.

Lemma reached_mono X X' h r : X ⊆ X' → reached X' h r → reached X h r.
Proof. intros Hs (t & s & fc & Y & ? & ? & ? & ? & ?). exists t, s, fc, Y. split_and!; [done..|set_solver|done]. Qed.

Lemma update_loop_reaches rec fuel n h t s X k :
  (∀ t s X m k, ok t X → k ∈ X → 1 ≤ k ≤ m → m ≤ top → m - k < Z.of_nat fuel → reached X m (rec t s m)) →
  ok t X → k ∈ X → 1 ≤ k ≤ h → h ≤ top → h - k ≤ Z.of_nat fuel → h - k < Z.of_nat n →
  reached X h (update_loop chainID rec n h (C h) t s).
Proof.
  intros Hrec. revert t s X k. induction n as [|n IH]; intros t s X k Hok Hk Hkh Hh Hf Hn; [lia|]. cbn [update_loop].
  destruct (ho_latest HH t X h Hok ltac:(lia) ltac:(eauto)) as (a & fc & -> & Ha & HR & Hah & HaX & Hmax).
  pose proof (Hmax k Hk ltac:(lia)) as Hka. cbn [mbind outcome_bind]. rewrite Ha. cbn [mbind outcome_bind].
  destruct (Z.eqb_spec a h) as [->|Hne]; [by exists t, s, fc, X|].
  destruct (ho_height HH h ltac:(lia)) as [_ Hb]. destruct (ho_link HH fc a h HR ltac:(lia) Hh) as (err & Ef & Herr & Hadj).
  rewrite (verifyAndSave_future t fc (C h) a h err Ha Hb ltac:(lia) Ef). destruct err as [err|].
  2: { destruct (ho_save HH t X h Hok ltac:(lia)) as (t' & -> & Hok'). cbn [mbind outcome_bind].
       exists t', s, (C h), ({[h]} ∪ X). split_and!; [done..|set_solver|set_solver]. }
  destruct Herr as [|(got & needed & [= ->])]; [done|]. cbn [mbind outcome_bind too_much_change IsErrTooMuchChange].
  rewrite Hb. cbn [mbind outcome_bind]. destruct (Z.ltb_spec a h); [cbn [negb]|lia].
  assert (h ≠ a + 1) as Hgap by (intros ->; by specialize (Hadj eq_refl)).
  rewrite wrap64_id by (unfold in_int64, MinInt64, MaxInt64; lia). rewrite Z.quot_div_nonneg by lia.
  pose proof (Z.div_mod (a + h) 2 ltac:(lia)). pose proof (Z.mod_pos_bound (a + h) 2 ltac:(lia)).
  destruct (Hrec t s X ((a + h) / 2) a Hok HaX ltac:(lia) ltac:(lia) ltac:(lia)) as (t1 & s1 & fc1 & X1 & -> & _ & Hok1 & HX1 & Hm).
  cbn [mbind outcome_bind]. eapply reached_mono; [exact HX1|]. apply (IH t1 s1 X1 ((a + h) / 2)); (done || lia).
Qed.

(** C33. The bisection ends: with an honest source, a provider that keeps its commits and sets that never change too much
    from one height to the next, [updateToHeight] reaches every height of the chain from any trusted height below it, with as much
    fuel as the distance, and the provider then holds a commit of that height and all it held before. *)
Theorem bisection_reaches (fuel : nat) (t : T) (s : S) (X : gset Z) (h k : Z) :
  ok t X → k ∈ X → 1 ≤ k ≤ h → h ≤ top → h - k < Z.of_nat fuel →
  ∃ t' s' fc X', updateToHeight Sum chainID fuel t s h = Ret (Some (t', s', inl fc)) ∧ fc_Height fc = Ret h ∧
    ok t' X' ∧ X ⊆ X' ∧ h ∈ X'.
Proof.
  enough (∀ t s X h k, ok t X → k ∈ X → 1 ≤ k ≤ h → h ≤ top → h - k < Z.of_nat fuel →
    reached X h (updateToHeight Sum chainID fuel t s h)) as Hgo by (intros; by eapply Hgo).
  clear t s X h k. induction fuel as [|fuel IH]; intros t s X h k Hok Hk Hkh Hh Hf; [lia|]. cbn [updateToHeight].
  destruct (ho_source HH s h ltac:(lia)) as (s1 & ->). destruct (ho_height HH h ltac:(lia)) as [-> _].
  cbn [mbind outcome_bind]. rewrite Z.eqb_refl. cbn [negb]. rewrite (ho_valid HH h) by lia. cbn [mbind outcome_bind].
  eapply (update_loop_reaches _ fuel); [|done|done|done|done|lia|lia]. intros. by eapply IH.
Qed.

End bisection.

(** ** A provider and a source in memory *)

(** The cached total is not stored. *)
Definition forget (v : ValidatorSet) : ValidatorSet := mkValidatorSet (Validators v) (Proposer v) 0.

Definition forget_fc (fc : FullCommit) : FullCommit :=
  mkFullCommit (fc_SignedHeader fc) (option_map forget (fc_Validators fc)) (option_map forget (fc_NextValidators fc)).

Definition height_in (lo hi : Z) (fc : FullCommit) : option Z :=
  match sh_Header (fc_SignedHeader fc) with
  | Some hdr => if (lo <=? hd_Height hdr) && (hd_Height hdr <=? hi) then Some (hd_Height hdr) else None
  | None => None
  end.

(** The first commit of the greatest height in a range. *)
Fixpoint best (lo hi : Z) (l : list FullCommit) : option (Z * FullCommit) :=
  match l with
  | [] => None
  | fc :: l =>
      match height_in lo hi fc, best lo hi l with
      | Some h, Some (k, gc) => if h <? k then Some (k, gc) else Some (h, fc)
      | Some h, None => Some (h, fc)
      | None, r => r
      end
  end.

Definition list_latest (l : list FullCommit) (lo hi : Z) : FullCommit + lite_error :=
  match best lo hi l with Some (_, fc) => inl fc | None => inr ErrCommitNotFound end.

Definition list_set (l : list FullCommit) (h : Z) : option ValidatorSet + lite_error :=
  match best h h l with
  | Some (_, fc) => inl (fc_Validators fc)
  | None => match best (h - 1) (h - 1) l with Some (_, fc) => inl (fc_NextValidators fc) | None => inr ErrUnknownValidators end
  end.

Record memory := mkMemory { mem_commits : list FullCommit }.

#[local] Instance memory_provider : PersistentProvider memory := {|
  LatestFullCommit t _ lo hi := Ret (list_latest (mem_commits t) lo hi);
  ProviderValidatorSet t _ h :=
    Ret (match list_set (mem_commits t) h with inl (Some v) => inl v | _ => inr ErrUnknownValidators end);
  SaveFullCommit t fc := Ret (mkMemory (forget_fc fc :: mem_commits t), None)
|}.

(** A source that has the commits of a list, and no state. *)
Definition peer_source (l : list FullCommit) : Source unit := {|
  src_LatestFullCommit s _ lo hi := (s, list_latest l lo hi);
  src_ValidatorSet s _ h := (s, list_set l h)
|}.

Lemma best_none lo hi l fc h : best lo hi l = None → fc ∈ l → height_in lo hi fc = Some h → False.
Proof.
  induction l as [|z l IH]; intros Eb Hy Hm; [by apply elem_of_nil in Hy|]. cbn [best] in Eb.
  apply elem_of_cons in Hy as [->|Hy]; repeat case_match; simplify_eq; eauto.
Qed.

Lemma best_spec lo hi l h fc :
  best lo hi l = Some (h, fc) → fc ∈ l ∧ height_in lo hi fc = Some h ∧ ∀ gc k, gc ∈ l → height_in lo hi gc = Some k → k ≤ h.
Proof.
  revert h fc. induction l as [|x l IH]; intros h fc; [done|]. cbn [best]. destruct (height_in lo hi x) as [hx|] eqn:Ex.
  - destruct (best lo hi l) as [[k gc]|] eqn:Eb.
    + specialize (IH _ _ eq_refl) as (Hin & Hh & Hall). destruct (Z.ltb_spec hx k); intros [= <- <-]; (split_and!; [set_solver|done|]);
        intros y m [->|Hy]%elem_of_cons Hm; [simplify_eq; lia|by eapply Hall|simplify_eq; lia|specialize (Hall _ _ Hy Hm); lia].
    + intros [= <- <-]. split_and!; [set_solver|done|]. intros y m [->|Hy]%elem_of_cons Hm; [simplify_eq; lia|].
      by destruct (best_none _ _ _ _ _ Eb Hy Hm).
  - intros E. specialize (IH _ _ E) as (Hin & Hh & Hall). split_and!; [set_solver|done|].
    intros y m [->|Hy]%elem_of_cons Hm; [congruence|by eapply Hall].
Qed.

(** A commit in memory is complete, and its totals are not cached. *)
Definition complete (fc : FullCommit) : Prop :=
  ∃ hdr V N, sh_Header (fc_SignedHeader fc) = Some hdr ∧ fc_Validators fc = Some V ∧ fc_NextValidators fc = Some N ∧
    totalVotingPower V = 0 ∧ totalVotingPower N = 0.

#[local] Obligation Tactic := idtac.

#[local] Program Instance memory_trusted chainID : TrustedLaws memory chainID := {|
  trusted_ok t := ∀ fc, fc ∈ mem_commits t → complete fc;
  stored_header t hdr := ∃ fc, fc ∈ mem_commits t ∧ sh_Header (fc_SignedHeader fc) = Some hdr;
  stored_vs t h l := ∃ fc hdr, fc ∈ mem_commits t ∧ sh_Header (fc_SignedHeader fc) = Some hdr ∧
    ((∃ V, fc_Validators fc = Some V ∧ h = hd_Height hdr ∧ l = Validators V) ∨
     (∃ N, fc_NextValidators fc = Some N ∧ h = wrap64 (hd_Height hdr + 1) ∧ l = Validators N))
|}.
Next Obligation.
  intros chainID t a b fc Hok E. cbn in E. injection E as E. unfold list_latest in E.
  destruct (best a b (mem_commits t)) as [[h gc]|] eqn:Eb; [|done]. injection E as ->. apply best_spec in Eb as (Hin & _ & _).
  destruct (Hok _ Hin) as (hdr & V & N & Eh & EV & EN & HV & HN). exists hdr, V, N. split_and!; [done..| | | |by left|by left].
  - by exists fc.
  - exists fc, hdr. split_and!; [done|done|left; by exists V].
  - exists fc, hdr. split_and!; [done|done|right; by exists N].
Qed.
Next Obligation.
  intros chainID t t' fc err hdr V N Hok E Eh Ec Hh EV EN. cbn in E. injection E as <- <-. cbn [mem_commits]. split_and!.
  - intros x [->|Hx]%elem_of_cons; [|by apply Hok]. exists hdr, (forget V), (forget N). cbn. by rewrite EV, EN.
  - intros x (y & [->|Hy]%elem_of_cons & Hx); [right; cbn in Hx; congruence|left; by exists y].
  - intros h l (y & hy & [->|Hy]%elem_of_cons & Hhy & Hl); [right|left; by exists y, hy].
    cbn in Hhy, Hl. rewrite EV, EN in Hl. rewrite Eh in Hhy. injection Hhy as <-. cbn in Hl.
    destruct Hl as [(x & [= <-] & -> & ->)|(x & [= <-] & -> & ->)]; auto.
Qed.

(** ** A chain of three headers whose validators change *)

Section sample.
#[local] Existing Instance sample_codec.
#[local] Existing Instance sample_codec_laws.
#[local] Existing Instance sample_block_codec.
#[local] Existing Instance sample_block_laws.

#[local] Instance sample_validators : ValidatorCodec := {| encValidator k p := x01 :: encode_bytes (k, p) |}.

#[local] Instance sample_validators_laws : ValidatorCodecLaws.
Proof. split. cbn. intros k p k' p' [= E%encode_bytes_inj]. by injection E as -> ->. Qed.

(** A hash of 32 bytes to compute with. *)
Definition lite_sum (x : bytes) : bytes :=
  let n := foldl (λ a b, Z.land (a * 33 + byte_Z b + 7) 65535) 21057 x in
  [byte_of_Z (Z.land n 255); byte_of_Z (Z.shiftr n 8)] ++ replicate 30 x00.

Lemma lite_sum_length x : length (lite_sum x) = 32%nat.
Proof. done. Qed.

Definition lite_chain : bytes := [x63].
Definition one_val (k : byte) : ValidatorSet := mkValidatorSet [mkValidator [k] [k] 10 0] None 0.

(** One validator for the heights 1 and 2, another one from 3 on. *)
Definition lite_vals (h : Z) : ValidatorSet := one_val (if h <=? 2 then x0a else x0b).

Definition lite_header_of (h : Z) (v n : ValidatorSet) : Header :=
  mkHeader (mkVersion 0 0) lite_chain h 0 0 0 (mkBlockID [] (mkPartSetHeader 0 [])) [] []
    (ValidatorSet_Hash lite_sum v) (ValidatorSet_Hash lite_sum n) [] [] [] [] [] [] [].

Definition lite_header (h : Z) : Header := lite_header_of h (lite_vals h) (lite_vals (h + 1)).

Definition lite_bid (hdr : Header) : BlockID := mkBlockID (Header_Hash lite_sum (Some hdr)) (mkPartSetHeader 1 []).

(** The precommit of the only validator of a set for a header; the signature of [sample_crypto] is the key and the message. *)
Definition lite_vote (k : byte) (hdr : Header) : Vote :=
  let vote sig := mkVote PrecommitType (hd_Height hdr) 0 (lite_bid hdr) 0 [k] 0 sig None None in
  vote (k :: Vote_SignBytes lite_chain (vote [])).

Definition lite_commit (k : byte) (hdr : Header) (v n : ValidatorSet) : FullCommit :=
  mkFullCommit (mkSignedHeader (Some hdr) (Some (NewCommit (lite_bid hdr) [Some (lite_vote k hdr)]))) (Some v) (Some n).

Definition lite_fc (h : Z) : FullCommit :=
  lite_commit (if h <=? 2 then x0a else x0b) (lite_header h) (lite_vals h) (lite_vals (h + 1)).

Definition lite_commits : list FullCommit := [lite_fc 1; lite_fc 2; lite_fc 3].
#[local] Instance lite_source : Source unit := peer_source lite_commits.
Definition lite_store : memory := mkMemory [lite_fc 1].

(** The keys that sign, each one message per height; nobody else's signature is valid. *)
Definition lite_messages : list (bytes * bytes) :=
  [([x0a], Vote_SignBytes lite_chain (lite_vote x0a (lite_header 1)));
   ([x0a], Vote_SignBytes lite_chain (lite_vote x0a (lite_header 2)));
   ([x0b], Vote_SignBytes lite_chain (lite_vote x0b (lite_header 3)))].

#[local] Instance lite_crypto : Crypto := {|
  VerifyBytes pk msg sig := bool_decide ((pk, msg) ∈ lite_messages);
  PubKeyAddress pk := pk
|}.

Definition lite_result : outcome (option (memory * unit * option lite_error)) :=
  dv_Verify lite_sum lite_chain 5 lite_store () (fc_SignedHeader (lite_fc 3)).

Lemma lite_verified : ∃ t, lite_result = Ret (Some (t, (), None)) ∧ length (mem_commits t) = 3%nat.
Proof. eexists. vm_compute. split; reflexivity. Qed.

(** Everything that is hashed for the chain. *)
Definition lite_inputs : list bytes :=
  remove_dups (mjoin (tree_inputs lite_sum <$>
    [header_leaves (lite_header 1); header_leaves (lite_header 2); header_leaves (lite_header 3);
     Validator_Bytes <$> Validators (one_val x0a); Validator_Bytes <$> Validators (one_val x0b)])).

Lemma lite_inputs_nodup : NoDup (lite_sum <$> lite_inputs).
Proof. apply (bool_decide_eq_true_1 _). vm_compute. reflexivity. Qed.

Lemma lite_no_collision x y : x ∈ lite_inputs → y ∈ lite_inputs → lite_sum x = lite_sum y → x = y.
Proof.
  intros [i Hi]%list_elem_of_lookup [j Hj]%list_elem_of_lookup E.
  assert (i = j) as ->; [|congruence].
  eapply (NoDup_lookup _ _ _ (lite_sum x) lite_inputs_nodup); rewrite list_lookup_fmap; [by rewrite Hi|by rewrite Hj, E].
Qed.

Lemma lite_hashed l :
  l ∈ [header_leaves (lite_header 1); header_leaves (lite_header 2); header_leaves (lite_header 3);
     Validator_Bytes <$> Validators (one_val x0a); Validator_Bytes <$> Validators (one_val x0b)] →
  hashed lite_sum (.∈ lite_inputs) l.
Proof.
  intros Hl x Hx. unfold lite_inputs. apply elem_of_remove_dups, list_elem_of_join. exists (tree_inputs lite_sum l).
  split; [done|]. by apply list_elem_of_fmap_2.
Qed.

Lemma three h : 1 ≤ h ≤ 3 → h = 1 ∨ h = 2 ∨ h = 3.
Proof. lia. Qed.

(** A block that the validator of a height or of an earlier one signed is the one of the chain. *)
Lemma lite_signed k bid pcs h :
  precommits_at h pcs → 2 * 10 < 3 * voted_power lite_chain [mkValidator [k] [k] 10 0] bid pcs →
  ∃ m, m ∈ [1; 2; 3] ∧ h = m ∧ bid = lite_bid (lite_header m).
Proof.
  intros Hat Hq. unfold voted_power in Hq. rewrite sumZ_cons, sumZ_nil in Hq.
  destruct (existsb _ pcs) eqn:Ee; [|cbn in Hq; lia]. apply existsb_exists in Ee as ([cs|] & Hcs & Hs); [|done].
  apply list_elem_of_In, Hat in Hcs as [Hh _]. cbn in Hs. apply andb_true_iff in Hs as [->%BlockID_Equals_spec Hv].
  apply bool_decide_eq_true_1 in Hv.
  assert (∀ m b, m ∈ [1; 2; 3] → Vote_SignBytes lite_chain cs = Vote_SignBytes lite_chain (lite_vote b (lite_header m)) →
    ∃ m, m ∈ [1; 2; 3] ∧ h = m ∧ vote_BlockID cs = lite_bid (lite_header m)) as Hone.
  { intros m b Hm (_ & _ & E1 & _ & E2 & _)%Vote_SignBytes_inj. exists m. split; [done|]. split; [|exact E2]. rewrite <-Hh, E1. done. }
  unfold lite_messages in Hv.
  apply elem_of_cons in Hv as [E%(f_equal snd)|Hv]; [apply (Hone 1 x0a); [set_solver|exact E]|].
  apply elem_of_cons in Hv as [E%(f_equal snd)|Hv]; [apply (Hone 2 x0a); [set_solver|exact E]|].
  apply elem_of_cons in Hv as [E%(f_equal snd)|Hv]; [apply (Hone 3 x0b); [set_solver|exact E]|]. by apply elem_of_nil in Hv.
Qed.

Lemma lite_genuine : genuine_chain lite_sum lite_chain (.∈ lite_inputs) lite_header lite_vals 3.
Proof.
  split.
  - done.
  - done.
  - done.
  - intros h _. split; [|vm_compute; discriminate|by left]. intros v [->|[]%elem_of_nil]%elem_of_cons. done.
  - done.
  - intros h [->|[->| ->]]%three; apply lite_hashed; set_solver.
  - intros h _. apply lite_hashed. unfold lite_vals. destruct (h <=? 2); set_solver.
  - intros h0 h bid pcs _ _ Hat Hq. destruct (lite_signed _ bid pcs h Hat Hq) as (m & Hm & -> & ->). split; [|done].
    repeat (apply elem_of_cons in Hm as [->|Hm]; [done|]). by apply elem_of_nil in Hm.
Qed.

Lemma lite_fc_ok fc :
  fc ∈ lite_commits → (∀ hdr, sh_Header (fc_SignedHeader fc) = Some hdr → hashed_header lite_sum (.∈ lite_inputs) hdr) ∧
    set_ok lite_sum (.∈ lite_inputs) (fc_Validators fc) ∧ set_ok lite_sum (.∈ lite_inputs) (fc_NextValidators fc).
Proof.
  assert (∀ h, set_ok lite_sum (.∈ lite_inputs) (Some (lite_vals h))) as Hset.
  { intros h V [= <-]. split; [|by left]. apply lite_hashed. unfold lite_vals. destruct (h <=? 2); set_solver. }
  intros Hfc. assert (∃ h, (h = 1 ∨ h = 2 ∨ h = 3) ∧ fc = lite_fc h) as (h & Hh & ->).
  { apply elem_of_cons in Hfc as [->|Hfc]; [exists 1; auto|]. apply elem_of_cons in Hfc as [->|Hfc]; [exists 2; auto|].
    apply elem_of_cons in Hfc as [->|Hfc]; [exists 3; auto|]. by apply elem_of_nil in Hfc. }
  split_and!; [|apply Hset..]. intros hdr E. assert (hdr = lite_header h) as -> by (by injection E as <-).
  apply lite_hashed. destruct Hh as [->|[->| ->]];
    [by apply (list_elem_of_lookup_2 _ 0)|by apply (list_elem_of_lookup_2 _ 1)|by apply (list_elem_of_lookup_2 _ 2)].
Qed.

Lemma list_latest_in l lo hi fc : list_latest l lo hi = inl fc → fc ∈ l.
Proof. unfold list_latest. destruct (best lo hi l) as [[h gc]|] eqn:E; [|done]. intros [= ->]. by apply best_spec in E as [? _]. Qed.

Lemma lite_source_ok : source_ok lite_sum lite_chain (.∈ lite_inputs).
Proof.
  split.
  - intros s a b s' fc [= _ E%list_latest_in]. by apply lite_fc_ok.
  - intros s h s' o [= _ E]. unfold list_set in E. destruct (best h h lite_commits) as [[k fc]|] eqn:Eb.
    { injection E as <-. apply best_spec in Eb as [Hin _]. by apply lite_fc_ok. }
    destruct (best (h - 1) (h - 1) lite_commits) as [[k fc]|] eqn:Eb2; [|done].
    injection E as <-. apply best_spec in Eb2 as [Hin _]. by apply lite_fc_ok.
Qed.

Lemma lite_store_genuine : genuine_store lite_sum lite_chain (.∈ lite_inputs) lite_header lite_vals 3 lite_store.
Proof.
  split.
  - intros fc [->|[]%elem_of_nil]%elem_of_cons. by eexists _, _, _.
  - intros hdr (fc & [->|[]%elem_of_nil]%elem_of_cons & [= <-]). split; [done|]. split; [|done]. apply lite_hashed. set_solver.
  - intros h l (fc & hdr & [->|[]%elem_of_nil]%elem_of_cons & [= <-] & [(V & [= <-] & -> & ->)|(N & [= <-] & -> & ->)]); done.
Qed.

Definition lite_after : memory :=
  match lite_result with Ret (Some (t, _, _)) => t | _ => lite_store end.

Lemma light_client_sound_witness :
  genuine_store lite_sum lite_chain (.∈ lite_inputs) lite_header lite_vals 3 lite_after ∧
  ((None : option lite_error) = None → genuine_header lite_sum (.∈ lite_inputs) lite_header 3 (lite_header 3)).
Proof.
  refine (light_client_sound lite_sum lite_sum_length lite_chain (.∈ lite_inputs) lite_no_collision lite_header lite_vals 3 _
    lite_genuine lite_source_ok 5 lite_store lite_after () () (fc_SignedHeader (lite_fc 3)) (lite_header 3) None
    lite_store_genuine _ _ _).
  - done.
  - done.
  - apply lite_hashed. set_solver.
  - vm_compute. reflexivity.
Defined.

(** *** Bisection: from height 1 to 3, over 2 *)

(** The commit of the source once validated: its total power is cached. *)
Definition lite_checked (h : Z) : FullCommit :=
  mkFullCommit (fc_SignedHeader (lite_fc h)) (Some (mkValidatorSet (Validators (lite_vals h)) None 10)) (Some (lite_vals (h + 1))).

Definition lite_ok (t : memory) (X : gset Z) : Prop :=
  (∀ fc, fc ∈ mem_commits t → ∃ h, 1 ≤ h ≤ 3 ∧ h ∈ X ∧ fc = lite_fc h) ∧
  ∀ h, h ∈ X → 1 ≤ h ≤ 3 ∧ lite_fc h ∈ mem_commits t.

Lemma height_in_lite lo hi h : height_in lo hi (lite_fc h) = if (lo <=? h) && (h <=? hi) then Some h else None.
Proof. done. Qed.

Lemma lite_valid h : h = 1 ∨ h = 2 ∨ h = 3 → ValidateFull lite_sum (lite_fc h) lite_chain = Ret (lite_checked h, None).
Proof. intros [->|[->| ->]]; vm_compute; reflexivity. Qed.

Lemma lite_future :
  future lite_chain (lite_fc 1) (lite_checked 2) = Ret None ∧ future lite_chain (lite_fc 2) (lite_checked 3) = Ret None ∧
  future lite_chain (lite_fc 1) (lite_checked 3) = Ret (Some (ErrTooMuchChange 0 7)).
Proof. split_and!; vm_compute; reflexivity. Qed.

Lemma lite_best lo hi l h : 1 ≤ h → lite_fc h ∈ l → lo ≤ h ≤ hi → is_Some (best lo hi l).
Proof.
  intros Hh Hin Hr. destruct (best lo hi l) eqn:E; [done|]. destruct (best_none _ _ _ _ h E Hin).
  rewrite height_in_lite. case_Z; lia || done.
Qed.

Lemma lite_honest : honest lite_sum lite_chain lite_ok (λ fc h, fc = lite_fc h) lite_fc lite_checked 3.
Proof.
  split.
  - intros [] k [->|[->| ->]]%three; by exists ().
  - intros k _. done.
  - intros k Hk%three. by apply lite_valid.
  - intros t X h [Hl HX] Hh (k & Hk & Hkh). destruct (HX k Hk) as [_ Hin].
    destruct (lite_best 1 h _ k ltac:(lia) Hin ltac:(lia)) as [[m fc] Eb]. exists m, fc.
    pose proof (best_spec _ _ _ _ _ Eb) as (Hfc & Hm & Hall). destruct (Hl _ Hfc) as (m' & Hm' & HmX & ->).
    rewrite height_in_lite in Hm. destruct (Z.leb_spec 1 m'), (Z.leb_spec m' h); try done. injection Hm as ->.
    split_and!; [by cbn; unfold list_latest; rewrite Eb|done|done|lia|lia|done|]. intros k' Hk' Hle.
    destruct (HX k' Hk') as [? Hin']. eapply Hall; [exact Hin'|]. rewrite height_in_lite. case_Z; lia || done.
  - intros t X k [Hl HX] Hk. eexists. split; [reflexivity|]. assert (forget_fc (lite_checked k) = lite_fc k) as Ef by done.
    cbn [mem_commits]. rewrite Ef. clear Ef. split; cbn [mem_commits].
    + intros fc [->|Hfc]%elem_of_cons; [exists k; split_and!; [lia|lia|set_solver|done]|].
      destruct (Hl _ Hfc) as (h & ? & ? & ?). exists h. split_and!; [lia|lia|set_solver|done].
    + intros h [->%elem_of_singleton|Hx]%elem_of_union; [split; [lia|apply list_elem_of_here]|].
      destruct (HX h Hx). split; [done|by apply list_elem_of_further].
  - destruct lite_future as (E1 & E2 & E3). intros fc a b -> Ha Hb.
    assert (a = 1 ∧ b = 2 ∨ a = 2 ∧ b = 3 ∨ a = 1 ∧ b = 3) as [[-> ->]|[[-> ->]|[-> ->]]] by lia.
    + exists None. auto.
    + exists None. auto.
    + eexists. split; [exact E3|]. split; [eauto|lia].
Qed.

Lemma bisection_reaches_witness :
  ∃ t' s' fc X', updateToHeight lite_sum lite_chain 3 lite_store () 3 = Ret (Some (t', s', inl fc)) ∧ fc_Height fc = Ret 3 ∧
    lite_ok t' X' ∧ {[1]} ⊆ X' ∧ 3 ∈ X'.
Proof.
  refine (bisection_reaches lite_sum lite_chain lite_ok (λ fc h, fc = lite_fc h) lite_fc lite_checked 3 lite_honest _ 3 lite_store ()
    {[1]} 3 1 _ _ _ _ _).
  - reflexivity.
  - split.
    + intros fc [->|[]%elem_of_nil]%elem_of_cons. exists 1. split_and!; [lia|lia|set_solver|done].
    + intros h ->%elem_of_singleton. split; [lia|apply list_elem_of_here].
  - set_solver.
  - lia.
  - lia.
  - lia.
Defined.
End sample.

(** ** Hostile sources *)

Section hostile.
#[local] Existing Instance sample_codec.
#[local] Existing Instance sample_block_codec.
#[local] Existing Instance sample_crypto.
#[local] Existing Instance sample_validators.

(** A commit of height 2 with a set of the attacker's own, signed by it. *)
Definition forged_fc : FullCommit :=
  lite_commit x0c (lite_header_of 2 (one_val x0c) (one_val x0c)) (one_val x0c) (one_val x0c).

Definition forged_checked : FullCommit :=
  mkFullCommit (fc_SignedHeader forged_fc) (Some (mkValidatorSet (Validators (one_val x0c)) None 10)) (Some (one_val x0c)).

Definition hostile_source : Source unit := peer_source [lite_fc 1; forged_fc].

(** A source that offers, right after the last trusted height, a commit of a validator set of its own, keeps [updateToHeight] busy
    for ever: the middle of the two heights is the trusted one, which needs no update, and the loop starts again. No amount of fuel is
    enough, while the comment promises an error or a commit. *)
Theorem hostile_source_diverges (fuel : nat) :
  updateToHeight (HS := hostile_source) lite_sum lite_chain fuel lite_store () 2 = Ret None.
Proof.
  refine (updateToHeight_stuck (HS := hostile_source) lite_sum lite_chain lite_store () (lite_fc 1) forged_fc forged_checked (lite_fc 1)
    (lite_checked 1) 1 0 7 fuel _ _ _ _ _ _ _ _ _ _ _ _ _); vm_compute; (reflexivity || discriminate).
Qed.

(** A set whose total power is above the limit. *)
Definition heavy_vals : ValidatorSet := mkValidatorSet [mkValidator [x0c] [x0c] MaxInt64 0] None 0.

Definition heavy_fc : FullCommit :=
  lite_commit x0c (lite_header_of 2 heavy_vals heavy_vals) heavy_vals heavy_vals.

(** A source that offers a commit of a set with too much power stops the light client: the sum of the powers
    panics before the commit is compared with anything trusted. *)
Theorem heavy_source_panics :
  updateToHeight (HS := peer_source [lite_fc 1; heavy_fc]) lite_sum lite_chain 5 lite_store () 2 = Panic.
Proof. vm_compute. reflexivity. Qed.
End hostile.

(** ** The database of commits *)

Section database.
#[local] Existing Instance sample_codec.
#[local] Existing Instance sample_block_codec.
#[local] Existing Instance sample_validators.

Definition vals_code (v : ValidatorSet) : list (bytes * bytes * (Z * Z)) :=
  (λ w, (val_Address w, val_PubKey w, (val_VotingPower w, val_ProposerPriority w))) <$> Validators v.

Definition vals_decode (c : list (bytes * bytes * (Z * Z))) : ValidatorSet :=
  mkValidatorSet ((λ x, mkValidator x.1.1 x.1.2 x.2.1 x.2.2) <$> c) None 0.

Definition header_code (h : Header) : list bytes * list Z * (bytes * (Z * bytes)) :=
  ([hd_ChainID h; hd_LastCommitHash h; hd_DataHash h; hd_ValidatorsHash h; hd_NextValidatorsHash h; hd_ConsensusHash h;
    hd_AppHash h; hd_LastResultsHash h; hd_EvidenceHash h; hd_ProposerAddress h; hd_CrossMerkleRoot h; hd_CmRelation h],
   [v_Block (hd_Version h); v_App (hd_Version h); hd_Height h; hd_Time h; hd_NumTxs h; hd_TotalTxs h],
   bid_code (hd_LastBlockID h)).

Definition header_decode (c : list bytes * list Z * (bytes * (Z * bytes))) : option Header :=
  match c with
  | ([a; b; c; d; e; f; g; h; i; j; k; l], [vb; va; ht; t; n; total], bid) =>
      Some (mkHeader (mkVersion vb va) a ht t n total (bid_decode bid) b c d e f g h i j k l)
  | _ => None
  end.

Definition commit_code (c : Commit) := (bid_code (commit_BlockID c), (λ o : option Vote, vote_pairs <$> o) <$> commit_Precommits c).

Definition sh_code (sh : SignedHeader) := (header_code <$> sh_Header sh, commit_code <$> sh_Commit sh).

Definition sh_decode (c : option (list bytes * list Z * (bytes * (Z * bytes))) * option (_ * _)) : SignedHeader :=
  mkSignedHeader (c.1 ≫= header_decode)
    ((λ d, NewCommit (bid_decode d.1) (option_map vote_unpair <$> d.2)) <$> c.2).

#[local] Instance sample_lite : LiteCodec := {|
  encVals o := (λ v, x01 :: encode_bytes (vals_code v)) <$> o;
  decVals bz := vals_decode <$> decode_bytes (tail bz);
  encSH sh := Some (x01 :: encode_bytes (sh_code sh));
  decSH bz := sh_decode <$> decode_bytes (tail bz)
|}.

Lemma bid_back b : bid_decode (bid_code b) = b.
Proof. by destruct b as [? []]. Qed.

Lemma header_back h : header_decode (header_code h) = Some h.
Proof. destruct h as [[] ? ? ? ? ? bid]. unfold header_code, header_decode. simpl. by rewrite bid_back. Qed.

Lemma precommits_back (l : list (option Vote)) :
  option_map vote_unpair <$> ((λ o : option Vote, vote_pairs <$> o) <$> l) = l.
Proof.
  induction l as [|o l IH]; [done|]. rewrite !fmap_cons, IH. f_equal. apply votes_back.
Qed.

#[local] Instance sample_lite_laws : LiteCodecLaws.
Proof.
  split.
  - intros v. by eexists.
  - intros v bz [= <-]. unfold decVals, sample_lite. cbn [tail]. rewrite decode_encode_bytes. eexists. split; [reflexivity|].
    unfold vals_decode, vals_code. cbn [Validators]. rewrite <-list_fmap_compose. rewrite <-(list_fmap_id (Validators v)) at 2.
    apply list_fmap_ext. by intros i [].
  - intros bz v E. unfold decVals, sample_lite in E. destruct (decode_bytes (tail bz)); [|done]. by injection E as <-.
  - intros sh. by eexists.
  - intros [h c] bz [= <-]. unfold decSH, sample_lite. cbn [tail]. rewrite decode_encode_bytes. eexists. split; [reflexivity|].
    unfold sh_decode, sh_code. cbn [fst snd sh_Header sh_Commit]. split.
    + destruct h as [h|]; [|done]. exact (header_back h).
    + destruct c as [c|]; [|done]. unfold commit_code. cbn [fmap option_fmap option_map fst snd NewCommit commit_BlockID commit_Precommits].
      by rewrite bid_back, precommits_back.
Qed.

Lemma lite_storable h : 1 ≤ h ≤ 3 → storable lite_chain (lite_fc h).
Proof.
  intros Hh. exists (lite_header h), (lite_vals h), (lite_vals (h + 1)).
  assert (∀ v, summable (lite_vals v)) as Hsum.
  { intros v. split; [|vm_compute; discriminate]. intros w [->|[]%elem_of_nil]%elem_of_cons. done. }
  split_and!; [done|done|unfold height_ok; cbn; lia|done..].
Qed.

Lemma db_provider_refines_witness :
  ∃ dbp, save_all (NewDBProvider NewMemDB) [lite_fc 2; lite_fc 1; lite_fc 3] = Some dbp ∧
    let A := (foldl enter (∅, ∅) [lite_fc 2; lite_fc 1; lite_fc 3]).1 in
    let V := (foldl enter (∅, ∅) [lite_fc 2; lite_fc 1; lite_fc 3]).2 in
    ∀ lo hi, query_lo lo < 10 ^ 10 → bound_ok (query_hi hi) →
      (∀ h, query_lo lo ≤ h ≤ query_hi hi → A !! h = None) ∧
        dbp_LatestFullCommit dbp lite_chain lo hi = Ret (inr ErrCommitNotFound) ∨
      ∃ h fc, query_lo lo ≤ h ≤ query_hi hi ∧ dbp_LatestFullCommit dbp lite_chain lo hi = Ret (inl fc) ∧ commit_at A V h fc ∧
        ∀ h', h < h' ≤ query_hi hi → A !! h' = None.
Proof.
  refine (db_provider_refines lite_chain _ NewMemDB [lite_fc 2; lite_fc 1; lite_fc 3] _ _ _).
  - split; [done|]. vm_compute. intros [Hx|Hx]%elem_of_cons; [done|by apply elem_of_nil in Hx].
  - done.
  - done.
  - constructor; [apply lite_storable; lia|]. constructor; [apply lite_storable; lia|]. constructor; [apply lite_storable; lia|done].
Defined.

(** What a provider returns as the height of its latest commit. *)
Definition latest_height (dbp : DBProvider MemDB) (chainID : bytes) : outcome (Z + lite_error) :=
  r ← dbp_LatestFullCommit dbp chainID 1 0;
  match r with inl fc => h ← fc_Height fc; Ret (inl h) | inr err => Ret (inr err) end.

Definition saved_with (limit : Z) (fcs : list FullCommit) : DBProvider MemDB :=
  foldl (λ dbp fc, match dbp_SaveFullCommit dbp fc with Ret (dbp, _) => dbp | Panic => dbp end)
    (SetLimit (NewDBProvider NewMemDB) limit) fcs.

(** A limit of one keeps no commit: the next validator set counts as a height of its own, so the commit just saved is
    the second one and is deleted. A limit of two keeps one. *)
Theorem limit_counts_next_set :
  latest_height (saved_with 1 [lite_fc 1]) lite_chain = Ret (inr ErrCommitNotFound) ∧
  latest_height (saved_with 2 [lite_fc 1; lite_fc 2]) lite_chain = Ret (inl 2) ∧
  dbp_LatestFullCommit (saved_with 2 [lite_fc 1; lite_fc 2]) lite_chain 1 1 = Ret (inr ErrCommitNotFound).
Proof. split_and!; vm_compute; reflexivity. Qed.

(** A chain identifier with a slash, which a genesis document may have, makes keys that do not parse: what is saved is never found. *)
Definition slash_fc : FullCommit :=
  match sh_Header (fc_SignedHeader (lite_fc 1)) with
  | Some h => mkFullCommit (mkSignedHeader (Some (Populate h (hd_Version h) [x63; slash; x64] 0 (hd_LastBlockID h) 0 [] [] [] [] [] [])) None)
      (fc_Validators (lite_fc 1)) (fc_NextValidators (lite_fc 1))
  | None => lite_fc 1
  end.

Theorem slash_chain_not_found :
  latest_height (saved_with 0 [slash_fc]) [x63; slash; x64] = Ret (inr ErrCommitNotFound).
Proof. vm_compute. reflexivity. Qed.
End database.
