(* ===== verification/PeerState.v ===== *)
(** * What a node knows of a peer (consensus/reactor.go, consensus/types/peer_round_state.go)

    [PeerState] is what the reactor believes a peer has: its height, round and step, the parts of the proposal and
    the votes it holds. The votes are bit arrays behind pointers, and the code shares them: [CatchupCommit] may be
    the same array as [Precommits], and the copies [GetRoundState] gives to the gossip routines point to the arrays of
    the state. So the arrays live in a store, [ps_heap], and the fields are addresses of it ([None] is nil); an array
    that arrives in a message is a new object of the store.

    Each operation runs under the mutex of the state; [ps_op] lists them, and the routines of several goroutines
    are sequences of them. Messages come decoded by amino, which fills the two fields of a bit array
    independently and leaves a missing pointer nil. The clock is a parameter. *)

From Stdlib Require Import ZArith Lia Bool Strings.Byte.
From stdpp Require Import base list.
From S2P Require Import Prelude BitArray Types ValidatorSet VoteSet PartSet Consensus.
Local Open Scope Z_scope.

(** ** The messages *)

Record NewRoundStepMessage := mkNewRoundStep {
  nrs_Height : Z;
  nrs_Round : Z;
  nrs_Step : Z;
  nrs_SecondsSinceStartTime : Z;
  nrs_LastCommitRound : Z
}.

Record NewValidBlockMessage := mkNewValidBlock {
  nvb_Height : Z;
  nvb_Round : Z;
  nvb_BlockPartsHeader : PartSetHeader;
  nvb_BlockParts : option BitArray;
  nvb_IsCommit : bool
}.

Record ProposalPOLMessage := mkProposalPOL {
  pol_Height : Z;
  pol_ProposalPOLRound : Z;
  pol_ProposalPOL : option BitArray
}.

Record HasVoteMessage := mkHasVote { hv_Height : Z; hv_Round : Z; hv_Type : Z; hv_Index : Z }.

Record VoteSetMaj23Message := mkVoteSetMaj23 {
  vsm_Height : Z;
  vsm_Round : Z;
  vsm_Type : Z;
  vsm_BlockID : BlockID
}.

Record VoteSetBitsMessage := mkVoteSetBits {
  vsb_Height : Z;
  vsb_Round : Z;
  vsb_Type : Z;
  vsb_BlockID : BlockID;
  vsb_Votes : option BitArray
}.

Inductive Message :=
| MsgNewRoundStep (m : NewRoundStepMessage)
| MsgNewValidBlock (m : NewValidBlockMessage)
| MsgProposal (proposal : option Proposal)
| MsgProposalPOL (m : ProposalPOLMessage)
| MsgBlockPart (height round : Z) (part : option Part)
| MsgVote (vote : option Vote)
| MsgHasVote (m : HasVoteMessage)
| MsgVoteSetMaj23 (m : VoteSetMaj23Message)
| MsgVoteSetBits (m : VoteSetBitsMessage).

Inductive message_error :=
| ErrMsgNegativeHeight
| ErrMsgNegativeRound
| ErrMsgInvalidStep
| ErrMsgInvalidLastCommitRound
| ErrMsgWrongBlockPartsHeader
| ErrMsgBlockPartsSize
| ErrMsgNegativePOLRound
| ErrMsgEmptyPOL
| ErrMsgWrongPart (err : part_error)
| ErrMsgInvalidType
| ErrMsgNegativeIndex
| ErrMsgWrongBlockID
| ErrMsgBasic (err : basic_error).

(** [RoundStepType.IsValid]. *)
Definition Step_IsValid (step : Z) : bool := (1 <=? step) && (step <=? 8).

Definition NewRoundStep_ValidateBasic (m : NewRoundStepMessage) : option message_error :=
  if nrs_Height m <? 0 then Some ErrMsgNegativeHeight
  else if nrs_Round m <? 0 then Some ErrMsgNegativeRound
  else if negb (Step_IsValid (nrs_Step m)) then Some ErrMsgInvalidStep
  else if ((nrs_Height m =? 1) && negb (nrs_LastCommitRound m =? -1))
          || ((1 <? nrs_Height m) && (nrs_LastCommitRound m <? -1))
  then Some ErrMsgInvalidLastCommitRound
  else None.

Definition NewValidBlock_ValidateBasic (m : NewValidBlockMessage) : option message_error :=
  if nvb_Height m <? 0 then Some ErrMsgNegativeHeight
  else if nvb_Round m <? 0 then Some ErrMsgNegativeRound
  else if negb (PartSetHeader_ValidateBasic (nvb_BlockPartsHeader m)) then Some ErrMsgWrongBlockPartsHeader
  else if negb (BitArray.Size (nvb_BlockParts m) =? psh_Total (nvb_BlockPartsHeader m)) then Some ErrMsgBlockPartsSize
  else None.

Definition ProposalPOL_ValidateBasic (m : ProposalPOLMessage) : option message_error :=
  if pol_Height m <? 0 then Some ErrMsgNegativeHeight
  else if pol_ProposalPOLRound m <? 0 then Some ErrMsgNegativePOLRound
  else if BitArray.Size (pol_ProposalPOL m) =? 0 then Some ErrMsgEmptyPOL
  else None.

(** [m.Part.ValidateBasic()] reads through the pointer. *)
Definition BlockPart_ValidateBasic (height round : Z) (part : option Part) : outcome (option message_error) :=
  if height <? 0 then Ret (Some ErrMsgNegativeHeight)
  else if round <? 0 then Ret (Some ErrMsgNegativeRound)
  else part ← or_panic part; Ret (option_map ErrMsgWrongPart (Part_ValidateBasic part)).

Definition HasVote_ValidateBasic (m : HasVoteMessage) : option message_error :=
  if hv_Height m <? 0 then Some ErrMsgNegativeHeight
  else if hv_Round m <? 0 then Some ErrMsgNegativeRound
  else if negb (IsVoteTypeValid (hv_Type m)) then Some ErrMsgInvalidType
  else if hv_Index m <? 0 then Some ErrMsgNegativeIndex
  else None.

Definition VoteSetMaj23_ValidateBasic (m : VoteSetMaj23Message) : option message_error :=
  if vsm_Height m <? 0 then Some ErrMsgNegativeHeight
  else if vsm_Round m <? 0 then Some ErrMsgNegativeRound
  else if negb (IsVoteTypeValid (vsm_Type m)) then Some ErrMsgInvalidType
  else if negb (BlockID_ValidateBasic (vsm_BlockID m)) then Some ErrMsgWrongBlockID
  else None.

Definition VoteSetBits_ValidateBasic (m : VoteSetBitsMessage) : option message_error :=
  if vsb_Height m <? 0 then Some ErrMsgNegativeHeight
  else if vsb_Round m <? 0 then Some ErrMsgNegativeRound
  else if negb (IsVoteTypeValid (vsb_Type m)) then Some ErrMsgInvalidType
  else if negb (BlockID_ValidateBasic (vsb_BlockID m)) then Some ErrMsgWrongBlockID
  else None.

Definition Message_ValidateBasic (msg : Message) : outcome (option message_error) :=
  match msg with
  | MsgNewRoundStep m => Ret (NewRoundStep_ValidateBasic m)
  | MsgNewValidBlock m => Ret (NewValidBlock_ValidateBasic m)
  | MsgProposal p => p ← or_panic p; Ret (option_map ErrMsgBasic (Proposal_ValidateBasic p))
  | MsgProposalPOL m => Ret (ProposalPOL_ValidateBasic m)
  | MsgBlockPart h r p => BlockPart_ValidateBasic h r p
  | MsgVote v => v ← or_panic v; Ret (option_map ErrMsgBasic (Vote_ValidateBasic v))
  | MsgHasVote m => Ret (HasVote_ValidateBasic m)
  | MsgVoteSetMaj23 m => Ret (VoteSetMaj23_ValidateBasic m)
  | MsgVoteSetBits m => Ret (VoteSetBits_ValidateBasic m)
  end.

(** ** The state *)

(** A [*cmn.BitArray]. *)
Notation ptr := (option nat) (only parsing).

Record PeerRoundState := mkPRS {
  prs_Height : Z;
  prs_Round : Z;
  prs_Step : Z;
  prs_StartTime : Z;
  prs_Proposal : bool;
  prs_ProposalBlockPartsHeader : PartSetHeader;
  prs_ProposalBlockParts : ptr;
  prs_ProposalPOLRound : Z;
  prs_ProposalPOL : ptr;
  prs_Prevotes : ptr;
  prs_Precommits : ptr;
  prs_LastCommitRound : Z;
  prs_LastCommit : ptr;
  prs_CatchupCommitRound : Z;
  prs_CatchupCommit : ptr
}.

Record PeerState := mkPS {
  ps_heap : list BitArray;
  ps_PRS : PeerRoundState;
  ps_Votes : Z;
  ps_BlockParts : Z
}.

Definition zeroHeader : PartSetHeader := mkPartSetHeader 0 [].

(** The zero time is the number 0. *)
Definition NewPeerState : PeerState :=
  mkPS [] (mkPRS 0 (-1) 0 0 false zeroHeader None (-1) None None None (-1) None (-1) None) 0 0.

Definition GetRoundState (ps : PeerState) : PeerRoundState := ps_PRS ps.

Definition GetHeight (ps : PeerState) : Z := prs_Height (ps_PRS ps).

(** *** The store *)

(** The array a pointer leads to. *)
Definition deref (h : list BitArray) (p : ptr) : option BitArray := p ≫= λ a, h !! a.

(** A new object. *)
Definition alloc (h : list BitArray) (b : option BitArray) : list BitArray * ptr :=
  match b with None => (h, None) | Some b => (h ++ [b], Some (length h)) end.

(** Writes the array behind a pointer. *)
Definition store (h : list BitArray) (p : ptr) (b : option BitArray) : list BitArray :=
  match p, b with Some a, Some b => <[a := b]> h | _, _ => h end.

Definition set_heap (ps : PeerState) (h : list BitArray) : PeerState :=
  mkPS h (ps_PRS ps) (ps_Votes ps) (ps_BlockParts ps).

Definition set_PRS (ps : PeerState) (h : list BitArray) (prs : PeerRoundState) : PeerState :=
  mkPS h prs (ps_Votes ps) (ps_BlockParts ps).

(** The assignments to the fields of the round state. *)
Definition with_parts (prs : PeerRoundState) (header : PartSetHeader) (parts : ptr) : PeerRoundState :=
  mkPRS (prs_Height prs) (prs_Round prs) (prs_Step prs) (prs_StartTime prs) (prs_Proposal prs) header parts
    (prs_ProposalPOLRound prs) (prs_ProposalPOL prs) (prs_Prevotes prs) (prs_Precommits prs)
    (prs_LastCommitRound prs) (prs_LastCommit prs) (prs_CatchupCommitRound prs) (prs_CatchupCommit prs).

Definition with_proposal (prs : PeerRoundState) (proposal : bool) : PeerRoundState :=
  mkPRS (prs_Height prs) (prs_Round prs) (prs_Step prs) (prs_StartTime prs) proposal
    (prs_ProposalBlockPartsHeader prs) (prs_ProposalBlockParts prs) (prs_ProposalPOLRound prs) (prs_ProposalPOL prs)
    (prs_Prevotes prs) (prs_Precommits prs) (prs_LastCommitRound prs) (prs_LastCommit prs)
    (prs_CatchupCommitRound prs) (prs_CatchupCommit prs).

Definition with_POL (prs : PeerRoundState) (round : Z) (pol : ptr) : PeerRoundState :=
  mkPRS (prs_Height prs) (prs_Round prs) (prs_Step prs) (prs_StartTime prs) (prs_Proposal prs)
    (prs_ProposalBlockPartsHeader prs) (prs_ProposalBlockParts prs) round pol
    (prs_Prevotes prs) (prs_Precommits prs) (prs_LastCommitRound prs) (prs_LastCommit prs)
    (prs_CatchupCommitRound prs) (prs_CatchupCommit prs).

Definition with_votes (prs : PeerRoundState) (prevotes precommits : ptr) : PeerRoundState :=
  mkPRS (prs_Height prs) (prs_Round prs) (prs_Step prs) (prs_StartTime prs) (prs_Proposal prs)
    (prs_ProposalBlockPartsHeader prs) (prs_ProposalBlockParts prs) (prs_ProposalPOLRound prs) (prs_ProposalPOL prs)
    prevotes precommits (prs_LastCommitRound prs) (prs_LastCommit prs)
    (prs_CatchupCommitRound prs) (prs_CatchupCommit prs).

Definition with_last (prs : PeerRoundState) (round : Z) (commit : ptr) : PeerRoundState :=
  mkPRS (prs_Height prs) (prs_Round prs) (prs_Step prs) (prs_StartTime prs) (prs_Proposal prs)
    (prs_ProposalBlockPartsHeader prs) (prs_ProposalBlockParts prs) (prs_ProposalPOLRound prs) (prs_ProposalPOL prs)
    (prs_Prevotes prs) (prs_Precommits prs) round commit
    (prs_CatchupCommitRound prs) (prs_CatchupCommit prs).

Definition with_catchup (prs : PeerRoundState) (round : Z) (commit : ptr) : PeerRoundState :=
  mkPRS (prs_Height prs) (prs_Round prs) (prs_Step prs) (prs_StartTime prs) (prs_Proposal prs)
    (prs_ProposalBlockPartsHeader prs) (prs_ProposalBlockParts prs) (prs_ProposalPOLRound prs) (prs_ProposalPOL prs)
    (prs_Prevotes prs) (prs_Precommits prs) (prs_LastCommitRound prs) (prs_LastCommit prs) round commit.

Definition with_HRS (prs : PeerRoundState) (height round step startTime : Z) : PeerRoundState :=
  mkPRS height round step startTime (prs_Proposal prs)
    (prs_ProposalBlockPartsHeader prs) (prs_ProposalBlockParts prs) (prs_ProposalPOLRound prs) (prs_ProposalPOL prs)
    (prs_Prevotes prs) (prs_Precommits prs) (prs_LastCommitRound prs) (prs_LastCommit prs)
    (prs_CatchupCommitRound prs) (prs_CatchupCommit prs).

(** *** The proposal *)

Definition SetHasProposal (ps : PeerState) (proposal : Proposal) : outcome PeerState :=
  let prs := ps_PRS ps in
  if negb (prs_Height prs =? prop_Height proposal) || negb (prs_Round prs =? prop_Round proposal) then Ret ps
  else if prs_Proposal prs then Ret ps
  else
    let prs := with_proposal prs true in
    match prs_ProposalBlockParts prs with
    | Some _ => Ret (set_PRS ps (ps_heap ps) prs)
    | None =>
        let header := bid_PartsHeader (prop_BlockID proposal) in
        b ← NewBitArray (psh_Total header);
        let '(h, parts) := alloc (ps_heap ps) b in
        Ret (set_PRS ps h (with_POL (with_parts prs header parts) (prop_POLRound proposal) None))
    end.

Definition InitProposalBlockParts (ps : PeerState) (partsHeader : PartSetHeader) : outcome PeerState :=
  match prs_ProposalBlockParts (ps_PRS ps) with
  | Some _ => Ret ps
  | None =>
      b ← NewBitArray (psh_Total partsHeader);
      let '(h, parts) := alloc (ps_heap ps) b in
      Ret (set_PRS ps h (with_parts (ps_PRS ps) partsHeader parts))
  end.

(** [p.SetIndex(index, true)]. *)
Definition set_bit (ps : PeerState) (p : ptr) (index : Z) : outcome PeerState :=
  '(b, _) ← SetIndex (deref (ps_heap ps) p) index true;
  Ret (set_heap ps (store (ps_heap ps) p b)).

Definition SetHasProposalBlockPart (ps : PeerState) (height round index : Z) : outcome PeerState :=
  let prs := ps_PRS ps in
  if negb (prs_Height prs =? height) || negb (prs_Round prs =? round) then Ret ps
  else set_bit ps (prs_ProposalBlockParts prs) index.

(** *** The votes *)

Definition getVoteBitArray (prs : PeerRoundState) (height round type_ : Z) : ptr :=
  if negb (IsVoteTypeValid type_) then None
  else if prs_Height prs =? height then
    if prs_Round prs =? round then
      (if type_ =? PrevoteType then prs_Prevotes prs else prs_Precommits prs)
    else if prs_CatchupCommitRound prs =? round then
      (if type_ =? PrevoteType then None else prs_CatchupCommit prs)
    else if prs_ProposalPOLRound prs =? round then
      (if type_ =? PrevoteType then prs_ProposalPOL prs else None)
    else None
  else if prs_Height prs =? wrap64 (height + 1) then
    if prs_LastCommitRound prs =? round then
      (if type_ =? PrevoteType then None else prs_LastCommit prs)
    else None
  else None.

Definition ensureCatchupCommitRound (ps : PeerState) (height round numValidators : Z) : PeerState :=
  let prs := ps_PRS ps in
  if negb (prs_Height prs =? height) then ps
  else if prs_CatchupCommitRound prs =? round then ps
  else if round =? prs_Round prs then set_PRS ps (ps_heap ps) (with_catchup prs round (prs_Precommits prs))
  else
    let '(h, p) := alloc (ps_heap ps) (NewBitArray_len numValidators) in
    set_PRS ps h (with_catchup prs round p).

(** [if p == nil { p = cmn.NewBitArray(numValidators) }]. The number of validators is always the length of a slice, here and
    above. *)
Definition ensure (h : list BitArray) (p : ptr) (numValidators : Z) : list BitArray * ptr :=
  match p with Some _ => (h, p) | None => alloc h (NewBitArray_len numValidators) end.

Definition ensureVoteBitArrays (ps : PeerState) (height numValidators : Z) : PeerState :=
  let prs := ps_PRS ps in
  if prs_Height prs =? height then
    let '(h, prevotes) := ensure (ps_heap ps) (prs_Prevotes prs) numValidators in
    let '(h, precommits) := ensure h (prs_Precommits prs) numValidators in
    let '(h, catchup) := ensure h (prs_CatchupCommit prs) numValidators in
    let '(h, pol) := ensure h (prs_ProposalPOL prs) numValidators in
    set_PRS ps h (with_POL (with_catchup (with_votes prs prevotes precommits) (prs_CatchupCommitRound prs) catchup)
                    (prs_ProposalPOLRound prs) pol)
  else if prs_Height prs =? wrap64 (height + 1) then
    let '(h, last) := ensure (ps_heap ps) (prs_LastCommit prs) numValidators in
    set_PRS ps h (with_last prs (prs_LastCommitRound prs) last)
  else ps.

Definition EnsureVoteBitArrays (ps : PeerState) (height numValidators : Z) : PeerState :=
  ensureVoteBitArrays ps height numValidators.

(** The counters return their new value. *)
Definition RecordVote (ps : PeerState) : PeerState * Z :=
  let n := wrap64 (ps_Votes ps + 1) in (mkPS (ps_heap ps) (ps_PRS ps) n (ps_BlockParts ps), n).

Definition RecordBlockPart (ps : PeerState) : PeerState * Z :=
  let n := wrap64 (ps_BlockParts ps + 1) in (mkPS (ps_heap ps) (ps_PRS ps) (ps_Votes ps) n, n).

Definition setHasVote (ps : PeerState) (height round type_ index : Z) : outcome PeerState :=
  match getVoteBitArray (ps_PRS ps) height round type_ with
  | Some a => set_bit ps (Some a) index
  | None => Ret ps
  end.

Definition SetHasVote (ps : PeerState) (vote : Vote) : outcome PeerState :=
  setHasVote ps (vote_Height vote) (vote_Round vote) (vote_Type vote) (vote_ValidatorIndex vote).

(** *** The messages of the peer about itself *)

(** [tmtime.Now().Add(-1 * time.Duration(seconds) * time.Second)]. *)
Definition start_time (now seconds : Z) : Z := now + wrap64 (wrap64 (-1 * seconds) * 1000000000).

(** The assignments one after the other: each conditional assignment reads what those before it wrote. *)
Definition ApplyNewRoundStepMessage (now : Z) (ps : PeerState) (msg : NewRoundStepMessage) : PeerState :=
  let prs := ps_PRS ps in
  if CompareHRS (nrs_Height msg) (nrs_Round msg) (nrs_Step msg) (prs_Height prs) (prs_Round prs) (prs_Step prs) <=? 0
  then ps
  else
    let psHeight := prs_Height prs in
    let psRound := prs_Round prs in
    let psCatchupCommitRound := prs_CatchupCommitRound prs in
    let psCatchupCommit := prs_CatchupCommit prs in
    let prs := with_HRS prs (nrs_Height msg) (nrs_Round msg) (nrs_Step msg)
                 (start_time now (nrs_SecondsSinceStartTime msg)) in
    let prs :=
      if negb (psHeight =? nrs_Height msg) || negb (psRound =? nrs_Round msg)
      then with_votes (with_POL (with_parts (with_proposal prs false) zeroHeader None) (-1) None) None None
      else prs in
    let prs :=
      if (psHeight =? nrs_Height msg) && negb (psRound =? nrs_Round msg)
         && (nrs_Round msg =? psCatchupCommitRound)
      then with_votes prs (prs_Prevotes prs) psCatchupCommit
      else prs in
    let prs :=
      if negb (psHeight =? nrs_Height msg) then
        let prs :=
          if (wrap64 (psHeight + 1) =? nrs_Height msg) && (psRound =? nrs_LastCommitRound msg)
          then with_last prs (nrs_LastCommitRound msg) (prs_Precommits prs)
          else with_last prs (nrs_LastCommitRound msg) None in
        with_catchup prs (-1) None
      else prs in
    set_PRS ps (ps_heap ps) prs.

Definition ApplyNewValidBlockMessage (ps : PeerState) (msg : NewValidBlockMessage) : PeerState :=
  let prs := ps_PRS ps in
  if negb (prs_Height prs =? nvb_Height msg) then ps
  else if negb (prs_Round prs =? nvb_Round msg) && negb (nvb_IsCommit msg) then ps
  else
    let '(h, parts) := alloc (ps_heap ps) (nvb_BlockParts msg) in
    set_PRS ps h (with_parts prs (nvb_BlockPartsHeader msg) parts).

Definition ApplyProposalPOLMessage (ps : PeerState) (msg : ProposalPOLMessage) : PeerState :=
  let prs := ps_PRS ps in
  if negb (prs_Height prs =? pol_Height msg) then ps
  else if negb (prs_ProposalPOLRound prs =? pol_ProposalPOLRound msg) then ps
  else
    let '(h, pol) := alloc (ps_heap ps) (pol_ProposalPOL msg) in
    set_PRS ps h (with_POL prs (prs_ProposalPOLRound prs) pol).

Definition ApplyHasVoteMessage (ps : PeerState) (msg : HasVoteMessage) : outcome PeerState :=
  if negb (prs_Height (ps_PRS ps) =? hv_Height msg) then Ret ps
  else setHasVote ps (hv_Height msg) (hv_Round msg) (hv_Type msg) (hv_Index msg).

Definition ApplyVoteSetBitsMessage (ps : PeerState) (msg : VoteSetBitsMessage) (ourVotes : option BitArray) :
    outcome PeerState :=
  match getVoteBitArray (ps_PRS ps) (vsb_Height msg) (vsb_Round msg) (vsb_Type msg) with
  | None => Ret ps
  | Some a =>
      let votes := deref (ps_heap ps) (Some a) in
      match ourVotes with
      | None => Ret (set_heap ps (store (ps_heap ps) (Some a) (Update votes (vsb_Votes msg))))
      | Some _ =>
          otherVotes ← Sub votes ourVotes;
          hasVotes ← Or otherVotes (vsb_Votes msg);
          Ret (set_heap ps (store (ps_heap ps) (Some a) (Update votes hasVotes)))
      end
  end.

(** ** The operations, one for each way to hold the mutex *)

Inductive ps_op :=
| OpNewRoundStep (now : Z) (m : NewRoundStepMessage)
| OpNewValidBlock (m : NewValidBlockMessage)
| OpProposalPOL (m : ProposalPOLMessage)
| OpHasVote (m : HasVoteMessage)
| OpVoteSetBits (m : VoteSetBitsMessage) (ourVotes : option BitArray)
| OpProposal (p : Proposal)
| OpInitParts (header : PartSetHeader)
| OpBlockPart (height round index : Z)
| OpCatchup (height round numValidators : Z)
| OpEnsure (height numValidators : Z)
| OpVote (vote : Vote)
| OpRecordVote
| OpRecordBlockPart.

Definition apply_op (ps : PeerState) (op : ps_op) : outcome PeerState :=
  match op with
  | OpNewRoundStep now m => Ret (ApplyNewRoundStepMessage now ps m)
  | OpNewValidBlock m => Ret (ApplyNewValidBlockMessage ps m)
  | OpProposalPOL m => Ret (ApplyProposalPOLMessage ps m)
  | OpHasVote m => ApplyHasVoteMessage ps m
  | OpVoteSetBits m ours => ApplyVoteSetBitsMessage ps m ours
  | OpProposal p => SetHasProposal ps p
  | OpInitParts header => InitProposalBlockParts ps header
  | OpBlockPart h r i => SetHasProposalBlockPart ps h r i
  | OpCatchup h r n => Ret (ensureCatchupCommitRound ps h r n)
  | OpEnsure h n => Ret (ensureVoteBitArrays ps h n)
  | OpVote v => SetHasVote ps v
  | OpRecordVote => Ret (RecordVote ps).1
  | OpRecordBlockPart => Ret (RecordBlockPart ps).1
  end.

Definition run_ops (ops : list ps_op) (ps : PeerState) : outcome PeerState := foldM apply_op ps ops.
