(* ===== verification/PeerStateProofs.v ===== *)
(** * What the reactor believes of a peer is what it was told

    Every array of a peer state's store is given a [tag], the height, round and type of the votes it stands for; the
    fields of the round state lead to arrays of the right tag, whichever of them are the same object. From this
    invariant: no operation panics as long as the arrays a peer sends have as many words as their size needs, the position of
    the peer never moves back, and a vote counts as known only after an operation that announced it. *)

From Stdlib Require Import ZArith Lia Bool Strings.Byte.
From stdpp Require Import base list.
From S2P Require Import Prelude Types PartSet Consensus ConsensusProofs BitArray PeerState.
Local Open Scope Z_scope.

(** ** Bit arrays from outside *)

(** Well-formed, and of a size that can be allocated. *)
Definition sized (a : BitArray) : Prop := wf a ∧ Bits a ≤ maxBits.

(** Only the words are known to be words. *)
Definition words (b : option BitArray) : Prop := ∀ a, b = Some a → Forall is_word (Elems a) ∧ Bits a ≤ maxBits.

Definition wf_opt (b : option BitArray) : Prop := ∀ a, b = Some a → sized a.

(** A bit of an array that may be nil. *)
Definition hasb (b : option BitArray) (i : Z) : bool := match b with Some a => bit a i | None => false end.

Lemma Update_spec a o :
  sized a → words o → ∃ a', Update (Some a) o = Some a' ∧ sized a' ∧ Bits a' = Bits a ∧
    ∀ i, 0 ≤ i → bit a' i = true → bit a i = true ∨ hasb o i = true.
Proof.
  intros [Ha Hm] Ho. destruct o as [o|]; [|exists a; unfold sized; naive_solver].
  cbn [Update]. eexists. split; [done|]. split; [split; [|exact Hm]|split; [done|]].
  - apply wf_update; [done|apply length_go_copy|]. unfold go_copy. apply Forall_app.
    split; [apply Forall_take; by apply Ho|apply Forall_drop, Ha].
  - intros i Hi. cbn [hasb]. rewrite !bit_word by done. cbn [Elems]. unfold word, go_copy.
    set (k := Z.to_nat (i / 64)).
    destruct (decide (k < length (take (length (Elems a)) (Elems o)))%nat) as [Hk|Hk].
    + rewrite lookup_app_l by done. rewrite length_take in Hk. rewrite lookup_take_lt by lia. by right.
    + rewrite lookup_app_r, length_take, lookup_drop by lia. rewrite length_take in Hk.
      intros E. left. rewrite <-E. do 2 f_equal.
      destruct (decide (k < length (Elems a))%nat); [f_equal; lia|].
      by rewrite !lookup_ge_None_2 by lia.
Qed.

(** The raw bits of a difference, also past the size. *)
Lemma Sub_bits a b :
  sized a → wf b → ∃ c, Sub (Some a) (Some b) = Ret (Some c) ∧ sized c ∧ Bits c = Bits a ∧
    ∀ i, 0 ≤ i → bit c i = bit a i && negb (bit b i).
Proof.
  intros [Ha Hm] Hb. pose proof (wf_pos _ Ha).
  destruct (or_sub_spec (λ x y, Z.land x (not64 y)) (λ x y, x && negb y) a b (Bits a))
    as (es & Hes & Hwf & Hbit); auto; try lia.
  { intros x y Hx Hy. apply is_word_land; [done|]. by apply is_word_not64. }
  { intros x y j Hx Hy Hj. by rewrite Z.land_spec, testbit_not64. }
  { intros x. apply andb_true_r. }
  unfold Sub. rewrite copyBits_small by lia. simpl in Hes |- *. rewrite Hes. simpl.
  eexists. split; [done|]. split; [by split|]. split; [done|]. intros i Hi.
  destruct (decide (i / 64 < zlen (zero_elems (Bits a)))) as [Hlt|Hge]; [by apply Hbit|].
  rewrite length_zero_elems in Hge by lia.
  rewrite (bit_past a) by (rewrite ?(wf_len _ Ha); lia).
  apply bit_past; [done|]. rewrite (wf_len _ Hwf). simpl. lia.
Qed.

(** A union with any array of words. *)
Lemma Or_bits a o :
  sized a → words o → ∃ c, Or (Some a) o = Ret (Some c) ∧ Forall is_word (Elems c) ∧ Bits c ≤ maxBits ∧
    ∀ i, 0 ≤ i → bit c i = true → bit a i = true ∨ hasb o i = true.
Proof.
  intros [Ha Hma] Ho. destruct o as [b|].
  2: { cbn [Or Copy fmap option_fmap option_map]. rewrite copy_id. exists a. split; [done|]. split; [apply Ha|auto]. }
  destruct (Ho b eq_refl) as [Hwo Hmb]. pose proof (wf_pos _ Ha). cbn [Or]. rewrite copyBits_small by lia. cbn [mbind outcome_bind].
  destruct (update_copy_spec Z.lor orb a b (Z.max (Bits a) (Bits b))
              (Nat.min (length (Elems a)) (length (Elems b)))) as (es & Hes & Hwf & Hbit);
    auto using is_word_lor; [lia| |lia|intros; apply Z.lor_spec|].
  { pose proof (length_zero_elems_wf a (Z.max (Bits a) (Bits b)) Ha ltac:(lia)). lia. }
  rewrite Hes. simpl. eexists. split; [done|]. split; [apply Hwf|]. split; [cbn; lia|].
  intros i Hi E. cbn [hasb].
  destruct (decide (i / 64 < zlen (zero_elems (Z.max (Bits a) (Bits b))))) as [Hlt|Hge].
  - simpl in E, Hbit. rewrite Hbit in E by done.
    destruct (_ <? _); [by apply orb_true_iff|by left].
  - rewrite length_zero_elems in Hge by lia.
    rewrite bit_past in E; [done|done|]. rewrite (wf_len _ Hwf). simpl. lia.
Qed.

(** ** The invariant *)

(** What an array stands for: the parts of a block, votes, or the precommits of the height before [H]. *)
Inductive tag := TParts | TVotes (height round type_ : Z) | TLast (H round : Z).

Section invariant.
(** [K h r t i]: it was announced that the peer has vote [i] of height [h], round [r] and type [t]. *)
Context (K : Z → Z → Z → Z → Prop).

Definition tagged (tg : tag) (i : Z) : Prop :=
  match tg with
  | TParts => True
  | TVotes h r t => K h r t i
  | TLast H r => ∃ h, wrap64 (h + 1) = H ∧ K h r PrecommitType i
  end.

Record heap_ok (tags : list tag) (h : list BitArray) : Prop := {
  ho_len : length tags = length h;
  ho_wf : Forall sized h;
  ho_known a b tg i : h !! a = Some b → tags !! a = Some tg → 0 ≤ i → bit b i = true → tagged tg i
}.

Definition ptr_ok (tags : list tag) (p : option nat) (tg : tag) : Prop :=
  ∀ a, p = Some a → tags !! a = Some tg.

Record prs_ok (tags : list tag) (prs : PeerRoundState) : Prop := {
  po_parts : ptr_ok tags (prs_ProposalBlockParts prs) TParts;
  po_pol : ptr_ok tags (prs_ProposalPOL prs) (TVotes (prs_Height prs) (prs_ProposalPOLRound prs) PrevoteType);
  po_prevotes : ptr_ok tags (prs_Prevotes prs) (TVotes (prs_Height prs) (prs_Round prs) PrevoteType);
  po_precommits : ptr_ok tags (prs_Precommits prs) (TVotes (prs_Height prs) (prs_Round prs) PrecommitType);
  po_last : ptr_ok tags (prs_LastCommit prs) (TLast (prs_Height prs) (prs_LastCommitRound prs));
  po_catchup : ptr_ok tags (prs_CatchupCommit prs)
    (TVotes (prs_Height prs) (prs_CatchupCommitRound prs) PrecommitType)
}.

Definition ps_ok (ps : PeerState) : Prop := ∃ tags, heap_ok tags (ps_heap ps) ∧ prs_ok tags (ps_PRS ps).

Lemma ptr_ok_mono tags tags' p tg : tags `prefix_of` tags' → ptr_ok tags p tg → ptr_ok tags' p tg.
Proof. intros Hp H a Ha. eapply prefix_lookup_Some; [by apply H|done]. Qed.

Lemma ptr_ok_nil tags tg : ptr_ok tags None tg.
Proof. intros a. done. Qed.

Lemma prs_ok_mono tags tags' prs : tags `prefix_of` tags' → prs_ok tags prs → prs_ok tags' prs.
Proof. intros Hp []. constructor; by eapply ptr_ok_mono. Qed.

(** A new object. *)
Lemma alloc_ok tags h b tg :
  heap_ok tags h → wf_opt b → (∀ i, 0 ≤ i → hasb b i = true → tagged tg i) →
  ∃ tags', tags `prefix_of` tags' ∧ heap_ok tags' (alloc h b).1 ∧ ptr_ok tags' (alloc h b).2 tg.
Proof.
  intros [Hl Hw Hk] Hb Ht. destruct b as [b|]; cbn [alloc fst snd].
  2: { exists tags. split; [done|]. split; [done|]. apply ptr_ok_nil. }
  exists (tags ++ [tg]). split; [by eexists|]. split.
  - split.
    + rewrite !length_app. simpl. lia.
    + apply Forall_app. split; [done|]. constructor; [by apply Hb|done].
    + intros a c tg' i Ha Hta Hi E.
      apply lookup_app_Some in Ha as [Ha|[Hge Ha]].
      * apply (Hk a c tg' i Ha); [|done|done]. rewrite lookup_app_l in Hta; [done|].
        apply lookup_lt_Some in Ha. lia.
      * apply list_lookup_singleton_Some in Ha as [Ea <-]. rewrite lookup_app_r in Hta by lia.
        rewrite Hl, Ea in Hta. injection Hta as <-. by apply Ht.
  - intros a Ha. injection Ha as <-. rewrite lookup_app_r, Hl, Nat.sub_diag by lia. done.
Qed.

Lemma NewBitArray_opt n : n ≤ maxBits → wf_opt (NewBitArray_len n) ∧ ∀ i, 0 ≤ i → hasb (NewBitArray_len n) i = false.
Proof.
  intros Hm. destruct (decide (0 < n)) as [Hn|Hn].
  - destruct (NewBitArray_len_spec n Hn) as (b & -> & Hw & _ & HB & Hz). split; [|done]. intros ? [= <-]. split; [done|lia].
  - unfold NewBitArray_len. rewrite (proj2 (Z.leb_le n 0)) by lia. done.
Qed.

Lemma alloc_new_ok tags h n tg :
  heap_ok tags h → n ≤ maxBits →
  ∃ tags', tags `prefix_of` tags' ∧ heap_ok tags' (alloc h (NewBitArray_len n)).1 ∧
    ptr_ok tags' (alloc h (NewBitArray_len n)).2 tg.
Proof.
  intros H Hm. destruct (NewBitArray_opt n Hm) as [Hw Hz]. apply alloc_ok; [done..|].
  intros i Hi E. by rewrite Hz in E.
Qed.

Lemma ensure_ok tags h p n tg :
  heap_ok tags h → ptr_ok tags p tg → n ≤ maxBits →
  ∃ tags', tags `prefix_of` tags' ∧ heap_ok tags' (ensure h p n).1 ∧ ptr_ok tags' (ensure h p n).2 tg.
Proof.
  intros Hh Hp Hm. destruct p as [a|]; [by exists tags|]. by apply alloc_new_ok.
Qed.

(** Writing an array through a pointer. *)
Lemma store_ok tags h a b tg :
  heap_ok tags h → tags !! a = Some tg → sized b → (∀ i, 0 ≤ i → bit b i = true → tagged tg i) →
  heap_ok tags (<[a := b]> h).
Proof.
  intros [Hl Hw Hk] Ha Hb Ht. split; [by rewrite length_insert|by apply Forall_insert|].
  intros a' c tg' i Hc Htg Hi E. apply list_lookup_insert_Some in Hc as [(-> & -> & _)|[_ Hc]]; [|by eapply Hk].
  rewrite Ha in Htg. injection Htg as <-. by apply Ht.
Qed.

(** A pointer leads to a well-formed array. *)
Lemma deref_ok tags h a tg : heap_ok tags h → tags !! a = Some tg → ∃ b, h !! a = Some b ∧ sized b.
Proof.
  intros [Hl Hw _] Ha. apply lookup_lt_Some in Ha. rewrite Hl in Ha.
  destruct (lookup_lt_is_Some_2 h a Ha) as [b Hb]. exists b. split; [done|]. by eapply Forall_lookup_1.
Qed.

Lemma set_bit_ok tags ps p index tg :
  heap_ok tags (ps_heap ps) → ptr_ok tags p tg → 0 ≤ index → tagged tg index →
  ∃ h, set_bit ps p index = Ret (set_heap ps h) ∧ heap_ok tags h.
Proof.
  intros Hh Hp Hi Ht. unfold set_bit. destruct p as [a|]; [|by exists (ps_heap ps)].
  specialize (Hp a eq_refl). destruct (deref_ok _ _ _ _ Hh Hp) as (b & Hb & Hw).
  cbn [deref mbind option_bind]. rewrite Hb. cbn [SetIndex].
  destruct (decide (index < Bits b)) as [Hlt|Hge].
  - destruct (setIndex_spec b index true (proj1 Hw) ltac:(lia)) as (b' & -> & Hw' & HB' & Hbit). cbn.
    eexists. split; [done|]. apply (store_ok tags _ a b' tg Hh Hp); [split; [done|]; rewrite HB'; apply Hw|].
    intros i Hi0. rewrite Hbit by done. destruct (Z.eqb_spec i index) as [->|_]; [done|].
    intros E. by eapply ho_known.
  - unfold setIndex. rewrite (proj2 (Z.leb_le (Bits b) index)) by lia. cbn.
    eexists. split; [done|]. apply (store_ok tags _ a b tg Hh Hp Hw). intros i Hi0 E. by eapply ho_known.
Qed.

(** The array found for a vote stands for that vote. *)
Lemma getVoteBitArray_tag tags prs h r t a :
  prs_ok tags prs → getVoteBitArray prs h r t = Some a →
  tags !! a = Some (TVotes h r t) ∨
  t = PrecommitType ∧ prs_Height prs = wrap64 (h + 1) ∧ tags !! a = Some (TLast (prs_Height prs) r).
Proof.
  intros [H1 H2 H3 H4 H5 H6]. unfold getVoteBitArray, IsVoteTypeValid.
  destruct (Z.eqb_spec t PrevoteType) as [->|Hp]; [|destruct (Z.eqb_spec t PrecommitType) as [->|Hc]];
    cbn [orb negb]; try done;
    repeat case_match; rewrite ?Z.eqb_eq in *; intros E; subst; try done; auto.
Qed.

(** ... so a justified bit may be set in it. *)
Lemma setHasVote_ok ps h r t i :
  ps_ok ps → 0 ≤ i → K h r t i → ∃ ps', setHasVote ps h r t i = Ret ps' ∧ ps_ok ps' ∧ ps_PRS ps' = ps_PRS ps.
Proof.
  intros (tags & Hh & Hp) Hi HK. unfold setHasVote.
  destruct (getVoteBitArray (ps_PRS ps) h r t) as [a|] eqn:E; [|exists ps; split; [done|split; [by exists tags|done]]].
  assert (∃ tg, tags !! a = Some tg ∧ tagged tg i) as (tg & Ht & Hj).
  { destruct (getVoteBitArray_tag _ _ _ _ _ _ Hp E) as [Ht|(-> & Eh & Ht)]; [by eexists|].
    eexists. split; [done|]. rewrite Eh. by exists h. }
  destruct (set_bit_ok tags ps (Some a) i tg Hh) as (h' & -> & Hh'); [by intros ? [= <-]|done|done|].
  eexists. split; [done|]. split; [|done]. by exists tags.
Qed.

End invariant.

(** ** Every operation keeps it *)

(** What the reactor checks of a message before it applies it; and what it does not check: the words and the size of its arrays, and
    the number of parts of a proposal. *)
Definition op_ok (op : ps_op) : Prop :=
  match op with
  | OpNewValidBlock m => wf_opt (nvb_BlockParts m)
  | OpProposalPOL m => wf_opt (pol_ProposalPOL m)
  | OpHasVote m => 0 ≤ hv_Index m
  | OpVoteSetBits m ours => words (vsb_Votes m) ∧ wf_opt ours
  | OpProposal p => psh_Total (bid_PartsHeader (prop_BlockID p)) ≤ maxBits
  | OpInitParts header => psh_Total header ≤ maxBits
  | OpCatchup _ _ n | OpEnsure _ n => n ≤ maxBits
  | OpBlockPart _ _ i => 0 ≤ i
  | OpVote v => 0 ≤ vote_ValidatorIndex v
  | _ => True
  end.

(** The operation says that the peer has a vote: the peer claimed it, sent it, or was sent it. *)
Definition announces (op : ps_op) (h r t i : Z) : Prop :=
  match op with
  | OpProposalPOL m =>
      h = pol_Height m ∧ r = pol_ProposalPOLRound m ∧ t = PrevoteType ∧ hasb (pol_ProposalPOL m) i = true
  | OpHasVote m => h = hv_Height m ∧ r = hv_Round m ∧ t = hv_Type m ∧ i = hv_Index m
  | OpVoteSetBits m _ => h = vsb_Height m ∧ r = vsb_Round m ∧ t = vsb_Type m ∧ hasb (vsb_Votes m) i = true
  | OpVote v => h = vote_Height v ∧ r = vote_Round v ∧ t = vote_Type v ∧ i = vote_ValidatorIndex v
  | _ => False
  end.

Section operations.
Context (K : Z → Z → Z → Z → Prop).

Lemma new_ok : ps_ok K NewPeerState.
Proof. exists []. split; [by split|]. constructor; apply ptr_ok_nil. Qed.

(** The store grows; the fields that keep their meaning keep their arrays. *)
Ltac grow H :=
  let tags' := fresh "tags'" in let Hpre := fresh "Hpre" in let Hh' := fresh "Hh'" in let Hp' := fresh "Hp'" in
  destruct H as (tags' & Hpre & Hh' & Hp').

Lemma NewValidBlock_ok ps m : ps_ok K ps → wf_opt (nvb_BlockParts m) → ps_ok K (ApplyNewValidBlockMessage ps m).
Proof.
  intros (tags & Hh & Hp) Hb. unfold ApplyNewValidBlockMessage.
  case_match; [by exists tags|]. case_match; [by exists tags|].
  grow (alloc_ok K tags (ps_heap ps) (nvb_BlockParts m) TParts Hh Hb ltac:(done)).
  destruct (alloc _ _) as [h p]. exists tags'. split; [done|].
  destruct (prs_ok_mono _ _ _ Hpre Hp). by constructor.
Qed.

Lemma InitParts_ok ps header :
  ps_ok K ps → psh_Total header ≤ maxBits → ∃ ps', InitProposalBlockParts ps header = Ret ps' ∧ ps_ok K ps'.
Proof.
  intros (tags & Hh & Hp) Hm. unfold InitProposalBlockParts. case_match; [eexists; split; [done|by exists tags]|].
  rewrite NewBitArray_small by done. cbn [mbind outcome_bind].
  grow (alloc_new_ok K tags (ps_heap ps) (psh_Total header) TParts Hh Hm).
  destruct (alloc _ _) as [h p]. eexists. split; [done|]. exists tags'. split; [done|].
  destruct (prs_ok_mono _ _ _ Hpre Hp). by constructor.
Qed.

Lemma SetHasProposal_ok ps p :
  ps_ok K ps → psh_Total (bid_PartsHeader (prop_BlockID p)) ≤ maxBits → ∃ ps', SetHasProposal ps p = Ret ps' ∧ ps_ok K ps'.
Proof.
  intros (tags & Hh & Hp) Hm. unfold SetHasProposal.
  case_match; [eexists; split; [done|by exists tags]|]. case_match; [eexists; split; [done|by exists tags]|].
  cbn [with_proposal prs_ProposalBlockParts]. case_match; [eexists; split; [done|]; exists tags; split; [done|]; destruct Hp; by constructor|].
  rewrite NewBitArray_small by done. cbn [mbind outcome_bind].
  grow (alloc_new_ok K tags (ps_heap ps) (psh_Total (bid_PartsHeader (prop_BlockID p))) TParts Hh Hm).
  destruct (alloc _ _) as [h q]. eexists. split; [done|]. exists tags'. split; [done|].
  destruct (prs_ok_mono _ _ _ Hpre Hp). by constructor.
Qed.

Lemma ProposalPOL_ok ps m :
  ps_ok K ps → wf_opt (pol_ProposalPOL m) →
  (∀ i, 0 ≤ i → hasb (pol_ProposalPOL m) i = true → K (pol_Height m) (pol_ProposalPOLRound m) PrevoteType i) →
  ps_ok K (ApplyProposalPOLMessage ps m).
Proof.
  intros (tags & Hh & Hp) Hb HK. unfold ApplyProposalPOLMessage.
  case_match eqn:E1; [by exists tags|]. case_match eqn:E2; [by exists tags|].
  apply negb_false_iff, Z.eqb_eq in E1, E2.
  grow (alloc_ok K tags (ps_heap ps) (pol_ProposalPOL m)
    (TVotes (prs_Height (ps_PRS ps)) (prs_ProposalPOLRound (ps_PRS ps)) PrevoteType) Hh Hb
    ltac:(cbn; rewrite E1, E2; exact HK)).
  destruct (alloc _ _) as [h p]. exists tags'. split; [done|].
  destruct (prs_ok_mono _ _ _ Hpre Hp). by constructor.
Qed.

Lemma Catchup_ok ps h r n : ps_ok K ps → n ≤ maxBits → ps_ok K (ensureCatchupCommitRound ps h r n).
Proof.
  intros (tags & Hh & Hp) Hm. unfold ensureCatchupCommitRound.
  case_match; [by exists tags|]. case_match; [by exists tags|]. case_match eqn:E.
  - apply Z.eqb_eq in E as ->. exists tags. split; [done|]. destruct Hp. by constructor.
  - grow (alloc_new_ok K tags (ps_heap ps) n (TVotes (prs_Height (ps_PRS ps)) r PrecommitType) Hh Hm).
    destruct (alloc _ _) as [h' p]. exists tags'. split; [done|].
    destruct (prs_ok_mono _ _ _ Hpre Hp). by constructor.
Qed.

Lemma Ensure_ok ps h n : ps_ok K ps → n ≤ maxBits → ps_ok K (ensureVoteBitArrays ps h n).
Proof.
  intros (tags & Hh & Hp) Hm. unfold ensureVoteBitArrays. case_match.
  - pose proof (ensure_ok K _ _ _ n _ Hh (po_prevotes _ _ Hp) Hm) as G1. grow G1.
    destruct (ensure _ (prs_Prevotes _) _) as [h1 q1]. apply (prs_ok_mono _ _ _ Hpre) in Hp.
    pose proof (ensure_ok K _ h1 _ n _ Hh' (po_precommits _ _ Hp) Hm) as G2. grow G2.
    destruct (ensure _ (prs_Precommits _) _) as [h2 q2]. apply (prs_ok_mono _ _ _ Hpre0) in Hp.
    apply (ptr_ok_mono _ _ _ _ Hpre0) in Hp'.
    pose proof (ensure_ok K _ h2 _ n _ Hh'0 (po_catchup _ _ Hp) Hm) as G3. grow G3.
    destruct (ensure _ (prs_CatchupCommit _) _) as [h3 q3]. apply (prs_ok_mono _ _ _ Hpre1) in Hp.
    apply (ptr_ok_mono _ _ _ _ Hpre1) in Hp', Hp'0.
    pose proof (ensure_ok K _ h3 _ n _ Hh'1 (po_pol _ _ Hp) Hm) as G4. grow G4.
    destruct (ensure _ (prs_ProposalPOL _) _) as [h4 q4]. apply (prs_ok_mono _ _ _ Hpre2) in Hp.
    apply (ptr_ok_mono _ _ _ _ Hpre2) in Hp', Hp'0, Hp'1.
    eexists. split; [done|]. destruct Hp. by constructor.
  - case_match; [|by exists tags].
    grow (ensure_ok K _ _ _ n _ Hh (po_last _ _ Hp) Hm).
    destruct (ensure _ _ _) as [h' q]. exists tags'. split; [done|].
    destruct (prs_ok_mono _ _ _ Hpre Hp). by constructor.
Qed.

Lemma NewRoundStep_ok now ps m : ps_ok K ps → ps_ok K (ApplyNewRoundStepMessage now ps m).
Proof.
  intros (tags & Hh & Hp). exists tags. unfold ApplyNewRoundStepMessage. case_match; [by split|].
  split; [done|]. destruct Hp as [H1 H2 H3 H4 H5 H6]. cbn [ps_PRS set_PRS].
  destruct (Z.eqb_spec (prs_Height (ps_PRS ps)) (nrs_Height m)) as [Eh|Nh];
    destruct (Z.eqb_spec (prs_Round (ps_PRS ps)) (nrs_Round m)) as [Er|Nr]; cbn [negb andb orb].
  - constructor; cbn; rewrite <-?Eh, <-?Er; done.
  - destruct (Z.eqb_spec (nrs_Round m) (prs_CatchupCommitRound (ps_PRS ps))) as [Ec|Nc];
      constructor; cbn; rewrite <-?Eh, ?Ec; done.
  - case_match; by constructor.
  - case_match; by constructor.
Qed.

Lemma BlockPart_ok ps h r i :
  ps_ok K ps → 0 ≤ i → ∃ ps', SetHasProposalBlockPart ps h r i = Ret ps' ∧ ps_ok K ps' ∧ ps_PRS ps' = ps_PRS ps.
Proof.
  intros (tags & Hh & Hp) Hi. unfold SetHasProposalBlockPart.
  case_match; [exists ps; split; [done|split; [by exists tags|done]]|].
  destruct (set_bit_ok K tags ps _ i _ Hh (po_parts _ _ Hp) Hi I) as (h' & -> & Hh').
  eexists. split; [done|]. split; [|done]. by exists tags.
Qed.

(** Whatever the sizes of the array in the message. *)
Lemma VoteSetBits_ok ps m ours :
  ps_ok K ps → words (vsb_Votes m) → wf_opt ours →
  (∀ i, 0 ≤ i → hasb (vsb_Votes m) i = true → K (vsb_Height m) (vsb_Round m) (vsb_Type m) i) →
  ∃ ps', ApplyVoteSetBitsMessage ps m ours = Ret ps' ∧ ps_ok K ps' ∧ ps_PRS ps' = ps_PRS ps.
Proof.
  intros (tags & Hh & Hp) Hw Ho HK. unfold ApplyVoteSetBitsMessage.
  destruct (getVoteBitArray _ _ _ _) as [a|] eqn:E; [|exists ps; split; [done|split; [by exists tags|done]]].
  assert (∃ tg, tags !! a = Some tg ∧ ∀ i, 0 ≤ i → hasb (vsb_Votes m) i = true → tagged K tg i) as (tg & Ht & Hj).
  { destruct (getVoteBitArray_tag _ _ _ _ _ _ Hp E) as [Ht|(Et & Eh & Ht)].
    - eexists. split; [done|]. intros i Hi Hb. by apply HK.
    - eexists. split; [done|]. intros i Hi Hb. rewrite Eh. exists (vsb_Height m). split; [done|].
      rewrite <-Et. by apply HK. }
  destruct (deref_ok K _ _ _ _ Hh Ht) as (b & Hb & Hwb).
  assert (∀ o, words o → (∀ i, 0 ≤ i → hasb o i = true → tagged K tg i) →
    ∃ ps', Ret (set_heap ps (store (ps_heap ps) (Some a) (Update (Some b) o))) = Ret ps' ∧ ps_ok K ps' ∧
      ps_PRS ps' = ps_PRS ps) as Hupd.
  { intros o Hwo Hto. destruct (Update_spec b o Hwb Hwo) as (b' & -> & Hw' & _ & Hbit). cbn [store].
    eexists. split; [done|]. split; [|done]. exists tags. split; [|done].
    apply (store_ok K tags _ a b' tg Hh Ht Hw'). intros i Hi Hbi.
    destruct (Hbit i Hi Hbi); [by eapply ho_known|by apply Hto]. }
  cbn [deref mbind option_bind]. rewrite Hb. destruct ours as [ours|]; [|by apply Hupd].
  destruct (Sub_bits b ours Hwb (proj1 (Ho ours eq_refl))) as (c & -> & Hwc & _ & Hc). cbn [mbind outcome_bind].
  destruct (Or_bits c (vsb_Votes m) Hwc Hw) as (d & -> & Hwd & Hmd & Hd). cbn [mbind outcome_bind].
  apply Hupd; [by intros ? [= <-]|]. cbn [hasb]. intros i Hi Hbi.
  destruct (Hd i Hi Hbi) as [Hci|Hmi]; [|by apply Hj].
  rewrite Hc in Hci by done. apply andb_true_iff in Hci as [Hbb _]. by eapply ho_known.
Qed.

Lemma apply_op_ok ps op :
  ps_ok K ps → op_ok op → (∀ h r t i, 0 ≤ i → announces op h r t i → K h r t i) →
  ∃ ps', apply_op ps op = Ret ps' ∧ ps_ok K ps'.
Proof.
  intros Hok Hop HK. destruct op; cbn [apply_op op_ok announces] in *; try (by eexists).
  - eexists. split; [done|]. by apply NewRoundStep_ok.
  - eexists. split; [done|]. by apply NewValidBlock_ok.
  - eexists. split; [done|]. apply ProposalPOL_ok; auto.
  - unfold ApplyHasVoteMessage. case_match; [by eexists|].
    destruct (setHasVote_ok K ps (hv_Height m) (hv_Round m) (hv_Type m) (hv_Index m)) as (ps' & -> & ? & _);
      [done|done|by apply HK|by eexists].
  - destruct Hop as [Hw Ho].
    destruct (VoteSetBits_ok ps m ourVotes) as (ps' & -> & ? & _); auto; by eexists.
  - by apply SetHasProposal_ok.
  - by apply InitParts_ok.
  - destruct (BlockPart_ok ps height round index) as (ps' & -> & ? & _); [done|done|by eexists].
  - eexists. split; [done|]. by apply Catchup_ok.
  - eexists. split; [done|]. by apply Ensure_ok.
  - unfold SetHasVote.
    destruct (setHasVote_ok K ps (vote_Height vote) (vote_Round vote) (vote_Type vote) (vote_ValidatorIndex vote))
      as (ps' & -> & ? & _); [done|done|by apply HK|by eexists].
Qed.

Lemma run_ops_ok ops ps :
  ps_ok K ps → Forall op_ok ops → (∀ op h r t i, op ∈ ops → 0 ≤ i → announces op h r t i → K h r t i) →
  ∃ ps', run_ops ops ps = Ret ps' ∧ ps_ok K ps'.
Proof.
  unfold run_ops. revert ps. induction ops as [|op ops IH]; intros ps Hok Hops HK; cbn [foldM]; [by eexists|].
  apply Forall_cons in Hops as [Hop Hops].
  destruct (apply_op_ok ps op Hok Hop) as (ps1 & -> & Hok1).
  { intros h r t i. apply HK. by left. }
  cbn [mbind outcome_bind]. apply IH; [done|done|]. intros op' h r t i Hin. apply HK. by right.
Qed.

End operations.

(** ** The peer moves forward *)

Definition peer_pos (ps : PeerState) : position :=
  (prs_Height (ps_PRS ps), prs_Round (ps_PRS ps), prs_Step (ps_PRS ps)).

Lemma set_bit_PRS ps p i ps' : set_bit ps p i = Ret ps' → ps_PRS ps' = ps_PRS ps.
Proof. unfold set_bit. intros ([b r] & _ & [= <-])%bind_Ret. done. Qed.

Lemma NewRoundStep_forward now ps m : ple (peer_pos ps) (peer_pos (ApplyNewRoundStepMessage now ps m)).
Proof.
  unfold ApplyNewRoundStepMessage. case_match eqn:E; [by right|]. apply Z.leb_gt in E.
  assert (plt (peer_pos ps) (nrs_Height m, nrs_Round m, nrs_Step m)) as Hlt.
  { unfold CompareHRS in E. unfold plt, peer_pos. cbn. repeat case_match; rewrite ?Z.ltb_lt, ?Z.ltb_ge in *; lia. }
  left. unfold peer_pos at 2. cbn [ps_PRS set_PRS]. repeat case_match; exact Hlt.
Qed.

Lemma apply_forward ps op ps' : apply_op ps op = Ret ps' → ple (peer_pos ps) (peer_pos ps').
Proof.
  assert (∀ q, ps_PRS q = ps_PRS ps → ple (peer_pos ps) (peer_pos q)) as Hsame.
  { intros q E. right. unfold peer_pos. by rewrite E. }
  assert (∀ h r t i q, setHasVote ps h r t i = Ret q → ps_PRS q = ps_PRS ps) as Hvote.
  { intros h r t i q. unfold setHasVote. case_match; [apply set_bit_PRS|congruence]. }
  destruct op; cbn [apply_op]; intros E; try (injection E as <-); try (by right).
  - apply NewRoundStep_forward.
  - unfold ApplyNewValidBlockMessage. repeat case_match; by right.
  - unfold ApplyProposalPOLMessage. repeat case_match; by right.
  - apply Hsame. unfold ApplyHasVoteMessage in E. case_match; [congruence|by eapply Hvote].
  - apply Hsame. unfold ApplyVoteSetBitsMessage in E. repeat case_match; try congruence; try (injection E as <-; done).
    apply bind_Ret in E as (? & _ & E). apply bind_Ret in E as (? & _ & E). by injection E as <-.
  - unfold SetHasProposal in E. repeat case_match; try (injection E as <-; by right).
    apply bind_Ret in E as (? & _ & E). case_match. injection E as <-. by right.
  - unfold InitProposalBlockParts in E. case_match; [injection E as <-; by right|].
    apply bind_Ret in E as (? & _ & E). case_match. injection E as <-. by right.
  - apply Hsame. unfold SetHasProposalBlockPart in E. case_match; [congruence|by eapply set_bit_PRS].
  - unfold ensureCatchupCommitRound. repeat case_match; by right.
  - unfold ensureVoteBitArrays. repeat case_match; by right.
  - apply Hsame. by eapply Hvote.
Qed.

Lemma run_forward ops ps ps' : run_ops ops ps = Ret ps' → ple (peer_pos ps) (peer_pos ps').
Proof.
  unfold run_ops. revert ps. induction ops as [|op ops IH]; intros ps; cbn [foldM]; [intros [= <-]; by right|].
  intros (ps1 & E1 & E)%bind_Ret. eapply ple_trans; [by eapply apply_forward|by apply IH].
Qed.

Lemma run_app ops ops' ps : run_ops (ops ++ ops') ps = run_ops ops ps ≫= run_ops ops'.
Proof.
  unfold run_ops. revert ps. induction ops as [|op ops IH]; intros ps; cbn [foldM app]; [done|].
  destruct (apply_op ps op) as [ps1|]; [apply IH|done].
Qed.

