(* ===== verification/ConsensusReactor.v ===== *)
(** * The consensus reactor (consensus/reactor.go)

    [Receive] handles a message of a peer; the gossip routines send it what it lacks. A routine is a loop of
    iterations: an iteration reads the round state of the node ([rs]) and of the peer ([prs], a copy whose pointers
    lead into the store of the peer state), and then acts on the peer state. In [gossipData] the reading part and the
    acting part are two definitions, because other goroutines may change the peer state between them.

    The node's round state is a [ConsensusState] of Consensus; the vote sets of a height hide behind the interface
    [VoteSetReader], which a commit of the block store has too. Sending is an oracle: [Send k] says whether the k-th
    call of [peer.Send] of the iteration succeeds, [RandIntn k] is the source of the k-th random choice. *)

From Stdlib Require Import ZArith Lia Bool Strings.Byte.
From stdpp Require Import base list gmap.
From S2P Require Import Prelude BitArray Types ValidatorSet VoteSet HeightVoteSet PartSet Block StateStore BlockStore Consensus PeerState.
Local Open Scope Z_scope.

(** ** types/vote_set.go: the interface of vote sets and commits *)

Class VoteSetReader (A : Type) := {
  rd_Height : A → outcome Z;
  rd_Round : A → outcome Z;
  rd_Type : A → Z;
  rd_Size : A → Z;
  rd_BitArray : A → outcome (option BitArray);
  rd_GetByIndex : A → Z → outcome (option Vote);
  rd_IsCommit : A → outcome bool
}.

#[export] Instance VoteSet_reader : VoteSetReader (option VoteSet) := {|
  rd_Height v := Ret (VoteSet_Height v);
  rd_Round v := Ret (VoteSet_Round v);
  rd_Type := VoteSet_Type;
  rd_Size := VoteSet_Size;
  rd_BitArray v := Ret (VoteSet_BitArray v);
  rd_GetByIndex := VoteSet_GetByIndex;
  rd_IsCommit v := Ret (VoteSet_IsCommit v)
|}.

(** A nil commit has a size and a type, and nothing else. *)
#[export] Instance Commit_reader : VoteSetReader (option Commit) := {|
  rd_Height c := Commit_Height <$> or_panic c;
  rd_Round c := Commit_Round <$> or_panic c;
  rd_Type _ := PrecommitType;
  rd_Size := Commit_Size;
  rd_BitArray c := c ← or_panic c; fst <$> Commit_BitArray c;
  rd_GetByIndex c i := c ← or_panic c; Commit_GetByIndex c i;
  rd_IsCommit c := Commit_IsCommit <$> or_panic c
|}.

(** ** Choosing and sending a vote *)

Section pick.
Context {A : Type} `{VoteSetReader A}.

(** [ensureCatchupCommitRound] and [ensureVoteBitArrays] for a vote set. *)
Definition lazily_set (ps : PeerState) (votes : A) : outcome PeerState :=
  height ← rd_Height votes;
  round ← rd_Round votes;
  isCommit ← rd_IsCommit votes;
  let ps := if (isCommit : bool) then ensureCatchupCommitRound ps height round (rd_Size votes) else ps in
  Ret (ensureVoteBitArrays ps height (rd_Size votes)).

(** The second result is [None] for [(nil, false)] and [Some v] for [(v, true)]; [v] may be nil. *)
Definition PickVoteToSend (RandIntn : Z → Z) (ps : PeerState) (votes : A) :
    outcome (PeerState * option (option Vote)) :=
  if rd_Size votes =? 0 then Ret (ps, None)
  else
    height ← rd_Height votes;
    round ← rd_Round votes;
    ps ← lazily_set ps votes;
    match getVoteBitArray (ps_PRS ps) height round (rd_Type votes) with
    | None => Ret (ps, None)
    | Some a =>
        ours ← rd_BitArray votes;
        missing ← Sub ours (deref (ps_heap ps) (Some a));
        '(index, ok) ← PickRandom RandIntn missing;
        if (ok : bool) then vote ← rd_GetByIndex votes index; Ret (ps, Some vote) else Ret (ps, None)
    end.

(** The result is the vote that was sent. [SetHasVote] reads through the pointer. *)
Definition PickSendVote (RandIntn : Z → Z) (send : bool) (ps : PeerState) (votes : A) :
    outcome (PeerState * option Vote) :=
  '(ps, picked) ← PickVoteToSend RandIntn ps votes;
  match picked with
  | None => Ret (ps, None)
  | Some vote =>
      if send then
        vote ← or_panic vote;
        ps ← SetHasVote ps vote;
        Ret (ps, Some vote)
      else Ret (ps, None)
  end.

End pick.

(** ** Receive *)

Definition StateChannel : Z := 32.
Definition DataChannel : Z := 33.
Definition VoteChannel : Z := 34.
Definition VoteSetBitsChannel : Z := 35.
Definition maxMsgSize : Z := 1048576.

Inductive reactor_effect :=
| StopPeerForError
| TrySendVoteSetBits (m : VoteSetBitsMessage)
| EnqueuePeerMsg (msg : ConsensusMessage).

Inductive decode_error := ErrMsgTooBig | ErrMsgDecode.

Section reactor.
Context `{Codec} `{Crypto} {PV : Type}.
(** [cdc.UnmarshalBinaryBare] into a message. *)
Context (unmarshalMsg : bytes → option Message).

Notation CS := (ConsensusState (PV := PV)).

Definition decodeMsg (bz : bytes) : Message + decode_error :=
  if maxMsgSize <? zlen bz then inr ErrMsgTooBig
  else match unmarshalMsg bz with Some m => inl m | None => inr ErrMsgDecode end.

(** [votes.Prevotes(round).BitArrayByBlockID(id)], or the precommits. *)
Definition our_votes (votes : HeightVoteSet) (round type_ : Z) (blockID : BlockID) : outcome (option BitArray) :=
  if type_ =? PrevoteType then
    vs ← getVoteSet votes round PrevoteType; Ret (BitArrayByBlockID vs blockID)
  else if type_ =? PrecommitType then
    vs ← getVoteSet votes round PrecommitType; Ret (BitArrayByBlockID vs blockID)
  else Panic.

Definition receive_state (now : Z) (peerID : bytes) (cs : CS) (ps : PeerState) (msg : Message) :
    outcome (PeerState * CS * list reactor_effect) :=
  match msg with
  | MsgNewRoundStep m => Ret (ApplyNewRoundStepMessage now ps m, cs, [])
  | MsgNewValidBlock m => Ret (ApplyNewValidBlockMessage ps m, cs, [])
  | MsgHasVote m => ps ← ApplyHasVoteMessage ps m; Ret (ps, cs, [])
  | MsgVoteSetMaj23 m =>
      if negb (cs_Height cs =? vsm_Height m) then Ret (ps, cs, [])
      else
        votes ← or_panic (cs_Votes cs);
        '(votes, ok) ← HVS_SetPeerMaj23 votes (vsm_Round m) (vsm_Type m) peerID (vsm_BlockID m);
        let cs := set_Votes cs (Some votes) in
        if negb ok then Ret (ps, cs, [StopPeerForError])
        else
          ourVotes ← our_votes votes (vsm_Round m) (vsm_Type m) (vsm_BlockID m);
          Ret (ps, cs, [TrySendVoteSetBits
            (mkVoteSetBits (vsm_Height m) (vsm_Round m) (vsm_Type m) (vsm_BlockID m) ourVotes)])
  | _ => Ret (ps, cs, [])
  end.

(** The pointers of a message on this channel were read by [ValidateBasic]. *)
Definition receive_data (cs : CS) (ps : PeerState) (msg : Message) :
    outcome (PeerState * CS * list reactor_effect) :=
  match msg with
  | MsgProposal p =>
      p ← or_panic p; ps ← SetHasProposal ps p; Ret (ps, cs, [EnqueuePeerMsg (ProposalMessage p)])
  | MsgProposalPOL m => Ret (ApplyProposalPOLMessage ps m, cs, [])
  | MsgBlockPart h r part =>
      part ← or_panic part;
      ps ← SetHasProposalBlockPart ps h r (part_Index part);
      Ret (ps, cs, [EnqueuePeerMsg (BlockPartMessage h r part)])
  | _ => Ret (ps, cs, [])
  end.

Definition receive_vote (cs : CS) (ps : PeerState) (msg : Message) :
    outcome (PeerState * CS * list reactor_effect) :=
  match msg with
  | MsgVote v =>
      let height := cs_Height cs in
      let ps := EnsureVoteBitArrays ps height (ValidatorSet.Size (cs_Validators cs)) in
      let ps := EnsureVoteBitArrays ps (wrap64 (height - 1)) (VoteSet_Size (cs_LastCommit cs)) in
      v ← or_panic v;
      ps ← SetHasVote ps v;
      Ret (ps, cs, [EnqueuePeerMsg (VoteMessage v)])
  | _ => Ret (ps, cs, [])
  end.

Definition receive_bits (cs : CS) (ps : PeerState) (msg : Message) :
    outcome (PeerState * CS * list reactor_effect) :=
  match msg with
  | MsgVoteSetBits m =>
      if cs_Height cs =? vsb_Height m then
        votes ← or_panic (cs_Votes cs);
        ourVotes ← our_votes votes (vsb_Round m) (vsb_Type m) (vsb_BlockID m);
        ps ← ApplyVoteSetBitsMessage ps m ourVotes;
        Ret (ps, cs, [])
      else ps ← ApplyVoteSetBitsMessage ps m None; Ret (ps, cs, [])
  | _ => Ret (ps, cs, [])
  end.

(** The dispatch on the channel, once the message is valid and the peer's state is found. *)
Definition receive_on (fastSync : bool) (chID now : Z) (peerID : bytes) (cs : CS) (ps : PeerState) (msg : Message) :
    outcome (PeerState * CS * list reactor_effect) :=
  if chID =? StateChannel then receive_state now peerID cs ps msg
  else if chID =? DataChannel then (if fastSync then Ret (ps, cs, []) else receive_data cs ps msg)
  else if chID =? VoteChannel then (if fastSync then Ret (ps, cs, []) else receive_vote cs ps msg)
  else if chID =? VoteSetBitsChannel then (if fastSync then Ret (ps, cs, []) else receive_bits cs ps msg)
  else Ret (ps, cs, []).

(** [src.Get(types.PeerStateKey)] is [None] until [AddPeer] has run. *)
Definition Receive (running fastSync : bool) (chID now : Z) (peerID : bytes) (cs : CS) (src : option PeerState)
    (msgBytes : bytes) : outcome (option PeerState * CS * list reactor_effect) :=
  if negb running then Ret (src, cs, [])
  else
    match decodeMsg msgBytes with
    | inr _ => Ret (src, cs, [StopPeerForError])
    | inl msg =>
        err ← Message_ValidateBasic msg;
        match err with
        | Some _ => Ret (src, cs, [StopPeerForError])
        | None =>
            ps ← or_panic src;
            '(ps, cs, out) ← receive_on fastSync chID now peerID cs ps msg;
            Ret (Some ps, cs, out)
        end
    end.

(** ** What the node says of itself *)

(** [int(time.Since(rs.StartTime).Seconds())] in whole seconds. *)
Definition makeRoundStepMessage (now : Z) (rs : CS) : NewRoundStepMessage :=
  mkNewRoundStep (cs_Height rs) (cs_Round rs) (cs_Step rs) ((now - cs_StartTime rs) ÷ 1000000000)
    (VoteSet_Round (cs_LastCommit rs)).

Definition broadcastNewValidBlockMessage (rs : CS) : outcome NewValidBlockMessage :=
  parts ← or_panic (cs_ProposalBlockParts rs);
  Ret (mkNewValidBlock (cs_Height rs) (cs_Round rs) (PartSet_Header (Some parts)) (PartSet_BitArray parts)
         (cs_Step rs =? RoundStepCommit)).

Definition broadcastHasVoteMessage (vote : Vote) : HasVoteMessage :=
  mkHasVote (vote_Height vote) (vote_Round vote) (vote_Type vote) (vote_ValidatorIndex vote).

(** The new state of the peer, and the message it is sent. *)
Definition AddPeer (running fastSync : bool) (now : Z) (rs : CS) (src : option PeerState) :
    option PeerState * option NewRoundStepMessage :=
  if negb running then (src, None)
  else (Some NewPeerState, if fastSync then None else Some (makeRoundStepMessage now rs)).

(** The node leaves fast sync: the new value of [fastSync] is false. Starting the state machine and the choice to skip the write-ahead
    log are not modelled. *)
Definition SwitchToConsensus (o : Oracle) (cs : CS) (state : State) : outcome (CS * bool) :=
  cs ← reconstructLastCommit cs state;
  cs ← updateToState o cs state;
  Ret (cs, false).

(** ** Sending the proposal and its parts *)

Inductive data_action :=
| SendPart (height round index : Z) (part : option Part)
| InitParts (header : PartSetHeader)
| SendProposal (proposal : Proposal) (pol : option ProposalPOLMessage)
| SleepData.

(** [gossipDataForCatchup] up to the call of [Send]. *)
Definition gossipDataForCatchup (RandIntn : Z → Z) (bs : BlockStore) (prs : PeerRoundState) (h : list BitArray) :
    outcome data_action :=
  '(index, ok) ← PickRandom RandIntn (Not (deref h (prs_ProposalBlockParts prs)));
  if (ok : bool) then
    match LoadBlockMeta bs (prs_Height prs) with
    | None => Ret SleepData
    | Some blockMeta =>
        if negb (PartSetHeader_Equals (bid_PartsHeader (bm_BlockID blockMeta)) (prs_ProposalBlockPartsHeader prs))
        then Ret SleepData
        else match LoadBlockPart bs (prs_Height prs) index with
             | None => Ret SleepData
             | Some part => Ret (SendPart (prs_Height prs) (prs_Round prs) index (Some part))
             end
    end
  else Ret SleepData.

(** The part of the body after the first [if]: no part of the current proposal is to be sent. *)
Definition gossipData_rest (RandIntn : Z → Z) (rs : CS) (prs : PeerRoundState) (h : list BitArray) :
    outcome data_action :=
  if (0 <? prs_Height prs) && (prs_Height prs <? cs_Height rs) then
    match prs_ProposalBlockParts prs with
    | None =>
        blockMeta ← or_panic (LoadBlockMeta (cs_blockStore rs) (prs_Height prs));
        Ret (InitParts (bid_PartsHeader (bm_BlockID blockMeta)))
    | Some _ => gossipDataForCatchup RandIntn (cs_blockStore rs) prs h
    end
  else if negb (cs_Height rs =? prs_Height prs) || negb (cs_Round rs =? prs_Round prs) then Ret SleepData
  else
    match cs_Proposal rs with
    | Some proposal =>
        if prs_Proposal prs then Ret SleepData
        else if 0 <=? prop_POLRound proposal then
          polVotes ← prevotes rs (prop_POLRound proposal);
          Ret (SendProposal proposal
                 (Some (mkProposalPOL (cs_Height rs) (prop_POLRound proposal) (VoteSet_BitArray polVotes))))
        else Ret (SendProposal proposal None)
    | None => Ret SleepData
    end.

(** One iteration of the loop: what to do next, from a copy [prs] of the peer's round state. The height and the round
    of a part of the current proposal are the node's own; what is recorded is the peer's (see [gossipData_act]). *)
Definition gossipData_decide (RandIntn : Z → Z) (rs : CS) (prs : PeerRoundState) (h : list BitArray) :
    outcome data_action :=
  match cs_ProposalBlockParts rs with
  | Some parts =>
      if HasHeader (Some parts) (prs_ProposalBlockPartsHeader prs) then
        missing ← Sub (PartSet_BitArray parts) (BitArray.Copy (deref h (prs_ProposalBlockParts prs)));
        '(index, ok) ← PickRandom RandIntn missing;
        if (ok : bool) then
          part ← GetPart parts index;
          Ret (SendPart (cs_Height rs) (cs_Round rs) index part)
        else gossipData_rest RandIntn rs prs h
      else gossipData_rest RandIntn rs prs h
  | None => gossipData_rest RandIntn rs prs h
  end.

(** The rest of the iteration, on the peer state of that moment. *)
Definition gossipData_act (send : bool) (prs : PeerRoundState) (act : data_action) (ps : PeerState) :
    outcome PeerState :=
  match act with
  | SendPart _ _ index _ =>
      if send then SetHasProposalBlockPart ps (prs_Height prs) (prs_Round prs) index else Ret ps
  | InitParts header => InitProposalBlockParts ps header
  | SendProposal proposal _ => if send then SetHasProposal ps proposal else Ret ps
  | SleepData => Ret ps
  end.

(** ** Sending votes *)

Section gossip_votes.
Context (RandIntn : nat → Z → Z) (Send : nat → bool).

(** [if cond { if ps.PickSendVote(votes) { return true } }], the k-th of its kind. *)
Definition try_send {A} `{VoteSetReader A} (k : nat) (cond : bool) (votes : outcome A)
    (rest : PeerState → outcome (PeerState * option Vote)) (ps : PeerState) : outcome (PeerState * option Vote) :=
  if cond then
    votes ← votes;
    '(ps, sent) ← PickSendVote (RandIntn k) (Send k) ps votes;
    match sent with Some v => Ret (ps, Some v) | None => rest ps end
  else rest ps.

(** The prevotes of [prs.ProposalPOLRound] are skipped when they are nil; [PickSendVote] sends nothing then either. *)
Definition gossipVotesForHeight (rs : CS) (prs : PeerRoundState) : PeerState → outcome (PeerState * option Vote) :=
  let round_ok := negb (prs_Round prs =? -1) && (prs_Round prs <=? cs_Round rs) in
  try_send 0 (prs_Step prs =? RoundStepNewHeight) (Ret (cs_LastCommit rs))
  (try_send 1 ((prs_Step prs <=? RoundStepPropose) && round_ok && negb (prs_ProposalPOLRound prs =? -1))
    (prevotes rs (prs_ProposalPOLRound prs))
  (try_send 2 ((prs_Step prs <=? RoundStepPrevoteWait) && round_ok) (prevotes rs (prs_Round prs))
  (try_send 3 ((prs_Step prs <=? RoundStepPrecommitWait) && round_ok) (precommits rs (prs_Round prs))
  (try_send 4 round_ok (prevotes rs (prs_Round prs))
  (try_send 5 (negb (prs_ProposalPOLRound prs =? -1)) (prevotes rs (prs_ProposalPOLRound prs))
    (λ ps, Ret (ps, None))))))).

(** One iteration: the vote that was sent, or the routine sleeps. *)
Definition gossipVotes (rs : CS) (prs : PeerRoundState) : PeerState → outcome (PeerState * option Vote) :=
  let catchup :=
    try_send 6 (negb (prs_Height prs =? 0) && (cs_Height rs =? wrap64 (prs_Height prs + 1))) (Ret (cs_LastCommit rs))
    (try_send 7 (negb (prs_Height prs =? 0) && (wrap64 (prs_Height prs + 2) <=? cs_Height rs))
      (Ret (LoadBlockCommit (cs_blockStore rs) (prs_Height prs)))
      (λ ps, Ret (ps, None))) in
  if cs_Height rs =? prs_Height prs then λ ps,
    '(ps, sent) ← gossipVotesForHeight rs prs ps;
    match sent with Some v => Ret (ps, Some v) | None => catchup ps end
  else catchup.

End gossip_votes.

(** ** Telling the peer of majorities *)

Definition maj23_msg (height round type_ : Z) (vs : option VoteSet) : option VoteSetMaj23Message :=
  match TwoThirdsMajority vs with
  | (maj23, true) => Some (mkVoteSetMaj23 height round type_ maj23)
  | (_, false) => None
  end.

Definition query_prevotes (rs : CS) (prs : PeerRoundState) : outcome (option VoteSetMaj23Message) :=
  if cs_Height rs =? prs_Height prs then
    vs ← prevotes rs (prs_Round prs); Ret (maj23_msg (prs_Height prs) (prs_Round prs) PrevoteType vs)
  else Ret None.

Definition query_precommits (rs : CS) (prs : PeerRoundState) : outcome (option VoteSetMaj23Message) :=
  if cs_Height rs =? prs_Height prs then
    vs ← precommits rs (prs_Round prs); Ret (maj23_msg (prs_Height prs) (prs_Round prs) PrecommitType vs)
  else Ret None.

Definition query_POL (rs : CS) (prs : PeerRoundState) : outcome (option VoteSetMaj23Message) :=
  if (cs_Height rs =? prs_Height prs) && (0 <=? prs_ProposalPOLRound prs) then
    vs ← prevotes rs (prs_ProposalPOLRound prs);
    Ret (maj23_msg (prs_Height prs) (prs_ProposalPOLRound prs) PrevoteType vs)
  else Ret None.

Definition LoadCommit (bs : BlockStore) (height : Z) : option Commit :=
  if height =? BS_Height bs then LoadSeenCommit bs height else LoadBlockCommit bs height.

(** [commit.Round()] and [commit.BlockID] read through the pointer. *)
Definition query_catchup (bs : BlockStore) (prs : PeerRoundState) : outcome (option VoteSetMaj23Message) :=
  if negb (prs_CatchupCommitRound prs =? -1) && (0 <? prs_Height prs) && (prs_Height prs <=? BS_Height bs) then
    commit ← or_panic (LoadCommit bs (prs_Height prs));
    Ret (Some (mkVoteSetMaj23 (prs_Height prs) (Commit_Round commit) PrecommitType (commit_BlockID commit)))
  else Ret None.

(** ** Statistics *)

Definition votesToContributeToBecomeGoodPeer : Z := 10000.
Definition blocksToContributeToBecomeGoodPeer : Z := 10000.

(** One message of [statsMsgQueue]: the peer's new state and whether it is marked as good. The outer option of
    [peer] is whether the switch knows the peer, the inner one its state. *)
Definition peerStats (peer : option (option PeerState)) (msg : ConsensusMessage) :
    outcome (option (option PeerState) * bool) :=
  match peer with
  | None => Ret (None, false)
  | Some ps =>
      ps ← or_panic ps;
      match msg with
      | VoteMessage _ =>
          let '(ps, numVotes) := RecordVote ps in
          Ret (Some (Some ps), Z.rem numVotes votesToContributeToBecomeGoodPeer =? 0)
      | BlockPartMessage _ _ _ =>
          let '(ps, numParts) := RecordBlockPart ps in
          Ret (Some (Some ps), Z.rem numParts blocksToContributeToBecomeGoodPeer =? 0)
      | ProposalMessage _ => Ret (Some (Some ps), false)
      end
  end.

End reactor.
