(* ===== verification/ConsensusReactorProofs.v ===== *)
(** * The reactor: votes are sent once, and nothing panics

    The two kinds of vote sets behind the interface [VoteSetReader] satisfy [reads]; against it, [PickSendVote] sends a
    vote that the peer is not known to have, and repeating it sends each missing vote exactly once. Then every
    branch of [Receive] and of the gossip routines is total on well-formed bit arrays. *)

From Stdlib Require Import ZArith Lia Bool Strings.Byte.
From stdpp Require Import base list gmap sorting.
From S2P Require Import Prelude Types ValidatorSet VoteSet HeightVoteSet PartSet Block StateStore BlockStore Consensus.
From S2P Require Import BitArray PeerState PeerStateProofs ConsensusReactor.
Local Open Scope Z_scope.

(** ** The interface *)

(** A vote set of height [h] and round [r] whose votes are at the positions of [b]. *)
Record reads {A} `{VoteSetReader A} (votes : A) (h r : Z) (b : BitArray) : Prop := {
  re_height : rd_Height votes = Ret h;
  re_round : rd_Round votes = Ret r;
  re_type : IsVoteTypeValid (rd_Type votes) = true;
  re_commit : ∃ c, rd_IsCommit votes = Ret c;
  re_bits : rd_BitArray votes = Ret (Some b);
  re_wf : sized b;
  re_size : Bits b = rd_Size votes;
  re_votes i : 0 ≤ i < Bits b → bit b i = true →
    ∃ v, rd_GetByIndex votes i = Ret (Some v) ∧ vote_Height v = h ∧ vote_Round v = r ∧
      vote_Type v = rd_Type votes ∧ vote_ValidatorIndex v = i
}.

(** Empty, or as above. *)
Definition readable {A} `{VoteSetReader A} (votes : A) : Prop :=
  rd_Size votes = 0 ∨ ∃ h r b, reads votes h r b.

Lemma VoteSet_reads `{Codec} `{Crypto} vs :
  vs_inv vs → IsVoteTypeValid (vs_type vs) = true → VoteSet_Size (Some vs) ≤ maxBits →
  ∃ b, reads (Some vs) (vs_height vs) (vs_round vs) b.
Proof.
  intros Hi Ht Hm. destruct (vs_core _ Hi) as [Hs Hg _ _]. destruct (slots_ba _ _ _ _ Hs) as (b & Eb & Hw & HB & Hbit).
  exists b. split; try done; cbn.
  - by eexists.
  - rewrite Eb. cbn. by rewrite copy_id.
  - split; [done|]. rewrite HB. exact Hm.
  - intros i Hlt Hbi. rewrite HB in Hlt.
    pose proof (slots_len _ _ _ _ Hs) as Hlen. cbn in HB, Hlen, Hlt.
    destruct (lookup_lt_is_Some_2 (vs_votes vs) (Z.to_nat i)) as [o Ho]; [unfold zlen in Hlt; lia|].
    pose proof (Hbit _ _ Ho) as Ei. rewrite Z2Nat.id, Hbi in Ei by lia.
    symmetry in Ei. apply bool_decide_eq_true in Ei as [v ->].
    destruct (Hg _ _ Ho) as [Gi _ Gh Gr Gt _]. exists v. rewrite Z2Nat.id in Gi by lia.
    split; [|done]. rewrite <-(Z2Nat.id i) by lia. by apply slice_get_ok.
Qed.

(** The loop of [Commit.BitArray] fills the array. *)
Lemma commit_bits_loop (l : list (option Vote)) n s (b : BitArray) :
  (s + n = length l)%nat → wf b → Bits b = zlen l →
  ∃ b', for_range n s (λ i b, precommit ← slice_get l (Z.of_nat i);
      fst <$> BitArray.SetIndex b (Z.of_nat i) (bool_decide (is_Some precommit))) (Some b) = Ret (Some b') ∧
    wf b' ∧ Bits b' = zlen l ∧
    ∀ j, 0 ≤ j → bit b' j = if bool_decide (Z.of_nat s ≤ j < zlen l)
                            then bool_decide (is_Some (mjoin (l !! Z.to_nat j))) else bit b j.
Proof.
  revert s b. induction n as [|n IH]; intros s b Hs Hw HB; cbn [for_range].
  { exists b. split; [done|]. split; [done|]. split; [done|]. intros j Hj.
    rewrite bool_decide_false; [done|]. unfold zlen. lia. }
  destruct (lookup_lt_is_Some_2 l s ltac:(lia)) as [o Ho]. rewrite (slice_get_ok _ _ _ Ho).
  cbn [mbind outcome_bind BitArray.SetIndex].
  destruct (setIndex_spec b (Z.of_nat s) (bool_decide (is_Some o)) Hw) as (b1 & -> & Hw1 & HB1 & Hb1);
    [rewrite HB; unfold zlen; lia|]. cbn [mbind outcome_bind fmap outcome_fmap fst].
  destruct (IH (S s) b1) as (b' & E & Hw' & HB' & Hb'); [lia|done|congruence|].
  exists b'. split; [exact E|]. split; [done|]. split; [done|]. intros j Hj. rewrite Hb', Hb1 by done.
  destruct (Z.eqb_spec j (Z.of_nat s)) as [->|Hne].
  - rewrite bool_decide_false by lia. rewrite (bool_decide_true (Z.of_nat s ≤ _ < _)) by (unfold zlen; lia).
    by rewrite Nat2Z.id, Ho.
  - by rewrite (bool_decide_ext (Z.of_nat (S s) ≤ j < zlen l) (Z.of_nat s ≤ j < zlen l)) by lia.
Qed.

(** The votes of a commit are precommits of one height and round, each in the place its index says, and not more than an array can have. *)
Definition commit_aligned (c : Commit) : Prop :=
  zlen (commit_Precommits c) ≤ maxBits ∧ ∀ i v, commit_Precommits c !! i = Some (Some v) →
    vote_Type v = PrecommitType ∧ vote_Height v = Commit_Height c ∧ vote_Round v = Commit_Round c ∧
    vote_ValidatorIndex v = Z.of_nat i.

Lemma Commit_reads c :
  commit_Precommits c ≠ [] → commit_bitArray c = None → commit_aligned c →
  ∃ b, reads (Some c) (Commit_Height c) (Commit_Round c) b.
Proof.
  intros Hne Hba [Hm Hal].
  assert (0 < zlen (commit_Precommits c)) as Hpos
    by (unfold zlen; destruct (commit_Precommits c); [done|simpl; lia]).
  destruct (NewBitArray_len_spec _ Hpos) as (b0 & E0 & Hw0 & _ & HB0 & Hz0).
  destruct (commit_bits_loop (commit_Precommits c) (length (commit_Precommits c)) 0 b0) as (b & E & Hw & HB & Hbit);
    [done|done|done|].
  exists b. split; try done; cbn.
  - by eexists.
  - unfold Commit_BitArray. rewrite Hba, E0, E. done.
  - split; [done|lia].
  - intros i Hi Hbi. rewrite Hbit, bool_decide_true in Hbi by lia.
    apply bool_decide_eq_true in Hbi as [v Hv].
    destruct (commit_Precommits c !! Z.to_nat i) as [o|] eqn:Ho; [|done]. cbn in Hv. subst o.
    destruct (Hal _ _ Ho) as (Ht & Hh & Hr & Hidx). rewrite Z2Nat.id in Hidx by lia.
    exists v. split; [|done]. unfold Commit_GetByIndex. rewrite <-(Z2Nat.id i) by lia. by apply slice_get_ok.
Qed.

(** ** Choosing a vote *)

(** The arrays of height [h] are there; for a commit, its round is the one caught up to. *)
Definition settled (prs : PeerRoundState) (h r : Z) (c : bool) : Prop :=
  (prs_Height prs = h → (c = true → prs_CatchupCommitRound prs = r) ∧
     is_Some (prs_Prevotes prs) ∧ is_Some (prs_Precommits prs) ∧ is_Some (prs_CatchupCommit prs) ∧
     is_Some (prs_ProposalPOL prs)) ∧
  (prs_Height prs ≠ h → prs_Height prs = wrap64 (h + 1) → is_Some (prs_LastCommit prs)).

Lemma ensure_is_Some h p n : 0 < n → is_Some (ensure h p n).2.
Proof.
  intros Hn. destruct p; [by eexists|]. cbn. destruct (NewBitArray_len_spec n Hn) as (b & -> & _). by eexists.
Qed.

Lemma ensure_Some h p n : is_Some p → ensure h p n = (h, p).
Proof. by intros [a ->]. Qed.

Lemma ensureVote_settles ps h r n c :
  0 < n → (c = true → prs_Height (ps_PRS ps) = h → prs_CatchupCommitRound (ps_PRS ps) = r) →
  settled (ps_PRS (ensureVoteBitArrays ps h n)) h r c.
Proof.
  intros Hn Hc. unfold ensureVoteBitArrays.
  destruct (Z.eqb_spec (prs_Height (ps_PRS ps)) h) as [Eh|Nh].
  - pose proof (ensure_is_Some (ps_heap ps) (prs_Prevotes (ps_PRS ps)) n Hn) as H1. destruct (ensure _ _ _) as [h1 q1].
    pose proof (ensure_is_Some h1 (prs_Precommits (ps_PRS ps)) n Hn) as H2. destruct (ensure _ _ _) as [h2 q2].
    pose proof (ensure_is_Some h2 (prs_CatchupCommit (ps_PRS ps)) n Hn) as H3. destruct (ensure _ _ _) as [h3 q3].
    pose proof (ensure_is_Some h3 (prs_ProposalPOL (ps_PRS ps)) n Hn) as H4. destruct (ensure _ _ _) as [h4 q4].
    split; cbn; [|done]. intros _. split; [auto|]. done.
  - destruct (Z.eqb_spec (prs_Height (ps_PRS ps)) (wrap64 (h + 1))) as [El|Nl].
    + pose proof (ensure_is_Some (ps_heap ps) (prs_LastCommit (ps_PRS ps)) n Hn) as H1. destruct (ensure _ _ _) as [h1 q1].
      by split; cbn.
    + by split.
Qed.

Lemma settled_ensureVote ps h r n c : settled (ps_PRS ps) h r c → ensureVoteBitArrays ps h n = ps.
Proof.
  intros [Hs Hl]. unfold ensureVoteBitArrays.
  destruct (Z.eqb_spec (prs_Height (ps_PRS ps)) h) as [Eh|Nh].
  - destruct (Hs Eh) as (_ & H1 & H2 & H3 & H4). rewrite !ensure_Some by done. destruct ps as [? []]. done.
  - destruct (Z.eqb_spec (prs_Height (ps_PRS ps)) (wrap64 (h + 1))) as [El|Nl]; [|done].
    rewrite ensure_Some by auto. destruct ps as [? []]. done.
Qed.

Section picking.
Context {A : Type} `{VoteSetReader A} (votes : A) (h r : Z) (b : BitArray) (Hreads : reads votes h r b).
Lemma size_pos : 0 < rd_Size votes.
Proof. rewrite <-(re_size _ _ _ _ Hreads). apply wf_pos, (re_wf _ _ _ _ Hreads). Qed.

Lemma size_small : rd_Size votes ≤ maxBits.
Proof. rewrite <-(re_size _ _ _ _ Hreads). apply Hreads. Qed.

(** The votes of the set that are not in an array of the peer. *)
Definition missing (k : BitArray) : list Z :=
  keep (λ i, bit b i && negb (bit k i)) (zseq 0 (Z.to_nat (Bits b))).

Lemma missing_spec k i : i ∈ missing k ↔ 0 ≤ i < Bits b ∧ bit b i = true ∧ bit k i = false.
Proof.
  unfold missing, keep. rewrite list_elem_of_filter, elem_of_zseq, andb_true_iff, negb_true_iff.
  pose proof (wf_pos _ (proj1 (re_wf _ _ _ _ Hreads))). rewrite Z2Nat.id by lia. intuition lia.
Qed.

Lemma missing_NoDup k : NoDup (missing k).
Proof.
  unfold missing, keep. apply NoDup_filter. unfold zseq. apply NoDup_fmap_2; [|apply NoDup_seq].
  intros x y E. lia.
Qed.

Context (K : Z → Z → Z → Z → Prop).

Lemma lazily_set_settles ps c :
  rd_IsCommit votes = Ret c →
  ∃ ps', lazily_set ps votes = Ret ps' ∧ settled (ps_PRS ps') h r c ∧ (ps_ok K ps → ps_ok K ps') ∧
    peer_pos ps' = peer_pos ps.
Proof.
  intros Hc. unfold lazily_set. rewrite (re_height _ _ _ _ Hreads), (re_round _ _ _ _ Hreads), Hc.
  cbn [mbind outcome_bind]. eexists. split; [done|].
  assert (∀ q, peer_pos (ensureVoteBitArrays q h (rd_Size votes)) = peer_pos q) as Hpos
    by (intros q; unfold ensureVoteBitArrays; repeat case_match; done).
  split; [|split].
  - apply ensureVote_settles; [apply size_pos|]. intros ->. unfold ensureCatchupCommitRound.
    case_match eqn:E1; [rewrite negb_true_iff, Z.eqb_neq in E1; done|].
    case_match eqn:E2; [by apply Z.eqb_eq in E2|]. case_match; [done|].
    destruct (alloc _ _). done.
  - intros Hok. pose proof size_small. apply Ensure_ok; [|done]. destruct c; [by apply Catchup_ok|done].
  - rewrite Hpos. destruct c; [|done]. unfold ensureCatchupCommitRound. repeat case_match; done.
Qed.

Lemma settled_lazily_set ps c :
  rd_IsCommit votes = Ret c → settled (ps_PRS ps) h r c → lazily_set ps votes = Ret ps.
Proof.
  intros Hc Hs. unfold lazily_set. rewrite (re_height _ _ _ _ Hreads), (re_round _ _ _ _ Hreads), Hc.
  cbn [mbind outcome_bind]. f_equal.
  assert ((if c then ensureCatchupCommitRound ps h r (rd_Size votes) else ps) = ps) as ->;
    [|by eapply settled_ensureVote].
  destruct c; [|done]. unfold ensureCatchupCommitRound.
  destruct (Z.eqb_spec (prs_Height (ps_PRS ps)) h) as [Eh|_]; cbn [negb]; [|done].
  destruct Hs as [Hs _]. destruct (Hs Eh) as [E _]. by rewrite E, Z.eqb_refl.
Qed.

Context (RandIntn : Z → Z) (Hrand : ∀ n, 0 < n → 0 ≤ RandIntn n < n).

(** The choice among the missing votes. *)
Lemma pick_missing k :
  wf k →
  ∃ c, Sub (Some b) (Some k) = Ret (Some c) ∧
    if bool_decide (missing k = []) then PickRandom RandIntn (Some c) = Ret (0, false)
    else ∃ i, PickRandom RandIntn (Some c) = Ret (i, true) ∧ i ∈ missing k.
Proof.
  intros Hk. destruct (Sub_bits b k (re_wf _ _ _ _ Hreads) Hk) as (c & E & Hw & HB & Hbit).
  exists c. split; [done|]. unfold PickRandom. rewrite (getTrueIndices_spec c (proj1 Hw)). cbn [mbind outcome_bind].
  assert (keep (bit c) (zseq 0 (Z.to_nat (Bits c))) = missing k) as ->.
  { rewrite HB. apply keep_ext. intros i Hi%elem_of_zseq. apply Hbit. lia. }
  case_bool_decide as Em; [by rewrite Em|].
  assert (0 < zlen (missing k)) as Hl by (unfold zlen; destruct (missing k); [done|simpl; lia]).
  rewrite (proj2 (Z.eqb_neq _ _)) by lia.
  pose proof (Hrand _ Hl) as Hr.
  destruct (lookup_lt_is_Some_2 (missing k) (Z.to_nat (RandIntn (zlen (missing k))))) as [i Hi].
  { unfold zlen in *. lia. }
  pose proof (slice_get_ok _ _ _ Hi) as Hg. rewrite Z2Nat.id in Hg by lia. rewrite Hg.
  exists i. split; [done|]. by eapply list_elem_of_lookup_2.
Qed.

(** A vote of the set, that position [i] holds. *)
Definition vote_at (i : Z) (v : Vote) : Prop :=
  rd_GetByIndex votes i = Ret (Some v) ∧ vote_Height v = h ∧ vote_Round v = r ∧
  vote_Type v = rd_Type votes ∧ vote_ValidatorIndex v = i.

(** On a settled state the pick is decided by the array of the peer for this vote set. *)
Lemma pick_settled ps c tags :
  rd_IsCommit votes = Ret c → settled (ps_PRS ps) h r c → heap_ok K tags (ps_heap ps) → prs_ok tags (ps_PRS ps) →
  match getVoteBitArray (ps_PRS ps) h r (rd_Type votes) with
  | None => PickVoteToSend RandIntn ps votes = Ret (ps, None)
  | Some a => ∃ k, ps_heap ps !! a = Some k ∧ sized k ∧
      if bool_decide (missing k = []) then PickVoteToSend RandIntn ps votes = Ret (ps, None)
      else ∃ i v, PickVoteToSend RandIntn ps votes = Ret (ps, Some (Some v)) ∧ i ∈ missing k ∧ vote_at i v
  end.
Proof.
  intros Hc Hs Hh Hp. pose proof size_pos.
  unfold PickVoteToSend. rewrite (proj2 (Z.eqb_neq (rd_Size votes) 0)) by lia.
  rewrite (re_height _ _ _ _ Hreads), (re_round _ _ _ _ Hreads), (settled_lazily_set ps c Hc Hs).
  cbn [mbind outcome_bind].
  destruct (getVoteBitArray _ _ _ _) as [a|] eqn:Ea; [|done].
  assert (∃ tg, tags !! a = Some tg) as [tg Htg]
    by (destruct (getVoteBitArray_tag _ _ _ _ _ _ Hp Ea) as [?|(_ & _ & ?)]; by eexists).
  destruct (deref_ok K _ _ _ _ Hh Htg) as (k & Hk & Hw). exists k. split; [done|]. split; [done|].
  rewrite (re_bits _ _ _ _ Hreads). cbn [mbind outcome_bind deref option_bind]. rewrite Hk.
  destruct (pick_missing k (proj1 Hw)) as (d & -> & Hpick). cbn [mbind outcome_bind].
  case_bool_decide; [by rewrite Hpick|]. destruct Hpick as (i & -> & Hi). cbn [mbind outcome_bind].
  apply missing_spec in Hi as Hb. destruct (re_votes _ _ _ _ Hreads i) as (v & Ev & Hv); [tauto..|].
  rewrite Ev. exists i, v. split; [done|]. split; [done|]. by split.
Qed.

(** The second call finds the state as the first one left it. *)
Lemma pick_after_lazily_set ps ps1 c :
  rd_IsCommit votes = Ret c → lazily_set ps votes = Ret ps1 → settled (ps_PRS ps1) h r c →
  PickVoteToSend RandIntn ps votes = PickVoteToSend RandIntn ps1 votes.
Proof.
  intros Hc E1 Hs. pose proof size_pos. unfold PickVoteToSend.
  rewrite (proj2 (Z.eqb_neq (rd_Size votes) 0)) by lia.
  rewrite (re_height _ _ _ _ Hreads), (re_round _ _ _ _ Hreads). cbn [mbind outcome_bind].
  by rewrite E1, (settled_lazily_set ps1 c Hc Hs).
Qed.

Lemma PickVoteToSend_ok ps :
  ps_ok K ps →
  ∃ ps' o, PickVoteToSend RandIntn ps votes = Ret (ps', o) ∧ ps_ok K ps' ∧
    ∀ v, o = Some v → ∃ i vote a k, v = Some vote ∧ vote_at i vote ∧
      getVoteBitArray (ps_PRS ps') h r (rd_Type votes) = Some a ∧ ps_heap ps' !! a = Some k ∧ i ∈ missing k.
Proof.
  intros Hok. destruct (re_commit _ _ _ _ Hreads) as [c Hc].
  destruct (lazily_set_settles ps c Hc) as (ps1 & E1 & Hs & Hok1 & _).
  specialize (Hok1 Hok). pose proof Hok1 as (tags & Hh & Hp).
  rewrite (pick_after_lazily_set ps ps1 c Hc E1 Hs).
  pose proof (pick_settled ps1 c tags Hc Hs Hh Hp) as Hpick.
  destruct (getVoteBitArray (ps_PRS ps1) h r (rd_Type votes)) as [a|] eqn:Ea;
    [|by exists ps1, None].
  destruct Hpick as (k & Hk & Hw & Hpick). case_bool_decide; [by exists ps1, None|].
  destruct Hpick as (i & v & -> & Hi & Hv). exists ps1, (Some (Some v)). split; [done|]. split; [done|].
  intros ? [= <-]. by exists i, v, a, k.
Qed.

(** ... and sending it: the votes of the set then count as known. *)
Lemma PickSendVote_ok send ps :
  ps_ok K ps → (send = true → ∀ i, 0 ≤ i → bit b i = true → K h r (rd_Type votes) i) →
  ∃ ps' sent, PickSendVote RandIntn send ps votes = Ret (ps', sent) ∧ ps_ok K ps'.
Proof.
  intros Hok HK. unfold PickSendVote.
  destruct (PickVoteToSend_ok ps Hok) as (ps1 & o & -> & Hok1 & Ho). cbn [mbind outcome_bind].
  destruct o as [v|]; [|by exists ps1, None]. destruct send; [|by exists ps1, None].
  destruct (Ho v eq_refl) as (i & vote & a & k & -> & (_ & Eh & Er & Et & Ei) & _ & _ & Hi).
  apply missing_spec in Hi as (Hi & Hb & _). cbn [or_panic mbind outcome_bind]. unfold SetHasVote.
  destruct (setHasVote_ok K ps1 (vote_Height vote) (vote_Round vote) (vote_Type vote) (vote_ValidatorIndex vote))
    as (ps2 & -> & Hok2 & _); [done|lia| |by exists ps2, (Some vote)].
  rewrite Eh, Er, Et, Ei. apply HK; [done|lia|done].
Qed.

End picking.

(** ** Repeating it *)

(** [PickSendVote] until there is nothing to send, with a connection that takes every message. *)
Fixpoint send_votes {A} `{VoteSetReader A} (RandIntn : nat → Z → Z) (n : nat) (ps : PeerState) (votes : A) :
    outcome (PeerState * list Vote) :=
  match n with
  | O => Ret (ps, [])
  | S n =>
      '(ps, sent) ← PickSendVote (RandIntn n) true ps votes;
      match sent with
      | None => Ret (ps, [])
      | Some v => '(ps, vs) ← send_votes RandIntn n ps votes; Ret (ps, v :: vs)
      end
  end.

Section repeating.
Context {A : Type} `{VoteSetReader A} (votes : A) (h r : Z) (b : BitArray) (Hreads : reads votes h r b).
Context (RandIntn : nat → Z → Z) (Hrand : ∀ j n, 0 < n → 0 ≤ RandIntn j n < n).

Let safe : PeerState → Prop := ps_ok (λ _ _ _ _, True).

(** One vote less is missing. *)
Lemma missing_set k k' i :
  i ∈ missing b k → (∀ j, 0 ≤ j → bit k' j = if j =? i then true else bit k j) →
  missing b k ≡ₚ i :: missing b k'.
Proof.
  intros Hi Hbit. apply NoDup_Permutation.
  - by eapply missing_NoDup.
  - constructor; [|by eapply missing_NoDup]. rewrite (missing_spec votes h r b Hreads).
    intros (Hr & _ & E). rewrite Hbit, Z.eqb_refl in E by lia. done.
  - intros j. rewrite elem_of_cons, !(missing_spec votes h r b Hreads).
    apply (missing_spec votes h r b Hreads) in Hi.
    destruct (decide (j = i)) as [->|Hne]; [naive_solver|].
    split.
    + intros (Hj & Hb & E). right. split; [done|]. split; [done|].
      rewrite Hbit by lia. by rewrite (proj2 (Z.eqb_neq _ _)).
    + intros [?|(Hj & Hb & E)]; [done|]. split; [done|]. split; [done|].
      rewrite Hbit in E by lia. by rewrite (proj2 (Z.eqb_neq j i)) in E.
Qed.

Lemma send_votes_settled n ps c a k :
  rd_IsCommit votes = Ret c → settled (ps_PRS ps) h r c → safe ps →
  getVoteBitArray (ps_PRS ps) h r (rd_Type votes) = Some a → ps_heap ps !! a = Some k → Bits b ≤ Bits k →
  (length (missing b k) < n)%nat →
  ∃ ps' k' sent, send_votes RandIntn n ps votes = Ret (ps', sent) ∧ safe ps' ∧ ps_PRS ps' = ps_PRS ps ∧
    ps_heap ps' !! a = Some k' ∧ Bits k' = Bits k ∧ missing b k' = [] ∧
    (vote_ValidatorIndex <$> sent) ≡ₚ missing b k ∧
    Forall (λ v, vote_at votes h r (vote_ValidatorIndex v) v) sent.
Proof.
  intros Hc. revert ps k. induction n as [|n IH]; intros ps k Hs Hok Ha Hk HB Hn; [lia|].
  pose proof Hok as (tags & Hh & Hp).
  pose proof (pick_settled votes h r b Hreads _ (RandIntn n) (Hrand n) ps c tags Hc Hs Hh Hp) as Hpick.
  rewrite Ha in Hpick. destruct Hpick as (k0 & Hk0 & Hwk & Hpick). rewrite Hk in Hk0. injection Hk0 as <-.
  cbn [send_votes]. unfold PickSendVote. case_bool_decide as Em.
  { rewrite Hpick. cbn. exists ps, k, []. rewrite Em. repeat split; auto. }
  destruct Hpick as (i & v & -> & Hi & Hv). cbn [mbind outcome_bind or_panic].
  pose proof Hv as (_ & Eh & Er & Et & Ei). unfold SetHasVote, setHasVote. rewrite Eh, Er, Et, Ei, Ha.
  apply (missing_spec votes h r b Hreads) in Hi as Hi'.
  destruct (setIndex_spec k i true (proj1 Hwk) ltac:(lia)) as (k1 & E1 & Hw1 & HB1 & Hb1).
  assert (set_bit ps (Some a) i = Ret (set_heap ps (<[a := k1]> (ps_heap ps)))) as ->
    by (unfold set_bit; cbn [deref mbind option_bind]; rewrite Hk; cbn [SetIndex]; by rewrite E1).
  cbn [mbind outcome_bind].
  pose proof (missing_set k k1 i Hi Hb1) as Hperm.
  assert (∃ tg, tags !! a = Some tg ∧ ∀ j, tagged (λ _ _ _ _, True) tg j) as (tg & Htg & Htrue).
  { destruct (getVoteBitArray_tag _ _ _ _ _ _ Hp Ha) as [?|(_ & EH & ?)]; eexists; (split; [done|]); [done|].
    intros j. by exists h. }
  destruct (IH (set_heap ps (<[a := k1]> (ps_heap ps))) k1) as (ps' & k' & sent & -> & Hok' & HP & Hk' & HB' & Hm & Hs' & Hall);
    [done| |done|apply list_lookup_insert_eq; by eapply lookup_lt_Some|lia|..].
  { exists tags. split; [|done]. eapply store_ok; [done|done|split; [done|]; rewrite HB1; apply Hwk|]. intros j _ _. apply Htrue. }
  { apply Permutation_length in Hperm. cbn in Hperm. lia. }
  cbn [mbind outcome_bind]. exists ps', k', (v :: sent). split; [done|]. split; [done|]. split; [done|].
  split; [done|]. split; [congruence|]. split; [done|]. split.
  - rewrite fmap_cons, Ei, Hperm. by constructor.
  - constructor; [by rewrite Ei|done].
Qed.

End repeating.

(** C12. Gossip sends each vote once. Take a vote set, or a commit whose votes carry their positions, behind the interface
    [VoteSetReader], a peer state that the operations can reach, and the peer's array for that height, round and type, which
    has to exist and to be at least as long as the set (a shorter one gets votes again and again). Calling
    [PickSendVote] again and again with nothing else happening in between (any random choices, a connection that accepts the
    messages) ends within as many calls as there are validators, plus one that finds nothing; the votes sent are exactly
    those of the set the peer was not known to have, each of them once; and then the peer is known to have all of them. *)
Theorem votes_sent_once {A : Type} `{VoteSetReader A} (votes : A) (h r : Z) (b : BitArray) (RandIntn : nat → Z → Z)
    (ops : list ps_op) (ps ps1 : PeerState) (a : nat) (k : BitArray) :
  reads votes h r b → (∀ j n, 0 < n → 0 ≤ RandIntn j n < n) →
  Forall op_ok ops → run_ops ops NewPeerState = Ret ps →
  lazily_set ps votes = Ret ps1 → getVoteBitArray (ps_PRS ps1) h r (rd_Type votes) = Some a →
  ps_heap ps1 !! a = Some k → Bits b ≤ Bits k →
  ∃ ps' k' sent, send_votes RandIntn (S (Z.to_nat (rd_Size votes))) ps votes = Ret (ps', sent) ∧
    (vote_ValidatorIndex <$> sent) ≡ₚ missing b k ∧
    (∀ v, v ∈ sent → rd_GetByIndex votes (vote_ValidatorIndex v) = Ret (Some v)) ∧
    ps_heap ps' !! a = Some k' ∧ (∀ i, 0 ≤ i < rd_Size votes → bit b i = true → bit k' i = true) ∧
    (∀ send, PickSendVote (RandIntn 0%nat) send ps' votes = Ret (ps', None)).
Proof.
  intros Hreads Hrand Hops Hrun E1 Ha Hk HB. pose proof (re_size _ _ _ _ Hreads) as Hsize.
  pose proof (wf_pos _ (proj1 (re_wf _ _ _ _ Hreads))) as Hpos.
  destruct (run_ops_ok (λ _ _ _ _, True) ops NewPeerState (new_ok _) Hops) as (ps0 & E0 & Hok); [done|].
  rewrite Hrun in E0. injection E0 as <-.
  destruct (re_commit _ _ _ _ Hreads) as [c Hc].
  destruct (lazily_set_settles votes h r b Hreads (λ _ _ _ _, True) ps c Hc) as (ps2 & E2 & Hs & Hok1 & _).
  rewrite E1 in E2. injection E2 as <-. specialize (Hok1 Hok).
  assert (length (missing b k) ≤ Z.to_nat (rd_Size votes))%nat as Hlen.
  { rewrite <-Hsize. unfold missing, keep. etrans; [apply length_filter|]. unfold zseq. by rewrite length_fmap, length_seq. }
  destruct (send_votes_settled votes h r b Hreads RandIntn Hrand (S (Z.to_nat (rd_Size votes))) ps1 c a k)
    as (ps' & k' & sent & E & Hok' & HP & Hk' & HB' & Hm & Hperm & Hall); auto; [lia|].
  exists ps', k', sent. split.
  { rewrite <-E. cbn [send_votes]. unfold PickSendVote.
    by rewrite (pick_after_lazily_set votes h r b Hreads _ ps ps1 c Hc E1 Hs). }
  split; [done|]. split; [|split; [done|split]].
  - intros v Hv. rewrite Forall_forall in Hall. by destruct (Hall v Hv).
  - intros i Hi Hb. destruct (bit k' i) eqn:Ei; [done|].
    assert (i ∈ missing b k') as Hin by (apply (missing_spec votes h r b Hreads); split; [lia|done]).
    rewrite Hm in Hin. by apply not_elem_of_nil in Hin.
  - intros send. destruct Hok' as (tags & Hh & Hp).
    rewrite <-HP in Hs, Ha.
    pose proof (pick_settled votes h r b Hreads (λ _ _ _ _, True) (RandIntn 0%nat) (Hrand 0%nat) ps' c tags
                  Hc Hs Hh Hp) as Hpick.
    rewrite Ha in Hpick. destruct Hpick as (k2 & Hk2 & _ & Hpick). rewrite Hk' in Hk2. injection Hk2 as <-.
    rewrite bool_decide_true in Hpick by done. unfold PickSendVote. by rewrite Hpick.
Qed.

(** ** Nothing panics *)

Definition safe : PeerState → Prop := ps_ok (λ _ _ _ _, True).

(** Every state that the operations reach is safe. *)
Lemma run_safe ops ps : Forall op_ok ops → run_ops ops NewPeerState = Ret ps → safe ps.
Proof.
  intros Hops Hrun. destruct (run_ops_ok (λ _ _ _ _, True) ops NewPeerState (new_ok _) Hops) as (ps0 & E0 & Hok); [done|].
  rewrite Hrun in E0. by injection E0 as <-.
Qed.

Lemma op_safe op ps : safe ps → op_ok op → ∃ ps', apply_op ps op = Ret ps' ∧ safe ps'.
Proof. intros Hs Ho. by apply apply_op_ok. Qed.

(** The number of parts a proposal announces. *)
Definition parts_total (p : Proposal) : Z := psh_Total (bid_PartsHeader (prop_BlockID p)).

(** What no check covers: no pointer is nil that [ValidateBasic] reads through, the arrays that are
    stored have their words, and arrays and proposals are of sizes that can be allocated. *)
Definition msg_ok (msg : Message) : Prop :=
  match msg with
  | MsgProposal p => ∃ q, p = Some q ∧ parts_total q ≤ maxBits
  | MsgBlockPart _ _ p => is_Some p
  | MsgVote v => is_Some v
  | MsgNewValidBlock m => wf_opt (nvb_BlockParts m)
  | MsgProposalPOL m => wf_opt (pol_ProposalPOL m)
  | MsgVoteSetBits m => words (vsb_Votes m)
  | _ => True
  end.

Section total.
Context (Sum : bytes → bytes) `{Codec} `{Crypto} {PV : Type}.

Notation CS := (ConsensusState (PV := PV)).

(** What the routines rely on in the node: its vote sets and proposal are built by their operations, and the
    block store has every block below the current height, with commits whose votes are in their places. *)
Record node_ok (rs : CS) : Prop := {
  no_votes : ∃ hvs, cs_Votes rs = Some hvs ∧ hvs_inv hvs ∧ ValidatorSet.Size (hvs_valSet hvs) ≤ maxBits;
  no_validators : ValidatorSet.Size (cs_Validators rs) ≤ maxBits;
  no_last vs : cs_LastCommit rs = Some vs →
    vs_inv vs ∧ IsVoteTypeValid (vs_type vs) = true ∧ VoteSet_Size (Some vs) ≤ maxBits;
  no_proposal p : cs_Proposal rs = Some p → parts_total p ≤ maxBits;
  no_headers k m : LoadBlockMeta (cs_blockStore rs) k = Some m → psh_Total (bid_PartsHeader (bm_BlockID m)) ≤ maxBits;
  no_parts p : cs_ProposalBlockParts rs = Some p → ps_inv Sum p ∧ 0 < ps_total p ≤ maxBits;
  no_metas k : 0 < k < cs_Height rs → is_Some (LoadBlockMeta (cs_blockStore rs) k);
  no_commits k c : LoadBlockCommit (cs_blockStore rs) k = Some c → commit_bitArray c = None ∧ commit_aligned c;
  no_seen k : 0 < k ≤ BS_Height (cs_blockStore rs) → is_Some (LoadCommit (cs_blockStore rs) k)
}.

Lemma valid_type t : IsVoteTypeValid t = true → t = PrevoteType ∨ t = PrecommitType.
Proof. unfold IsVoteTypeValid. rewrite orb_true_iff, !Z.eqb_eq. done. Qed.

(** The vote set of a round, if there is one, satisfies its invariant. *)
Lemma getVoteSet_total hvs r t :
  hvs_inv hvs → IsVoteTypeValid t = true →
  ∃ o, getVoteSet hvs r t = Ret o ∧
    ∀ vs, o = Some vs → vs_inv vs ∧ vs_type vs = t ∧ VoteSet_Size (Some vs) = ValidatorSet.Size (hvs_valSet hvs).
Proof.
  intros Hi Ht. unfold getVoteSet. destruct (hvs_roundVoteSets hvs !! r) as [rvs|] eqn:E; [|by eexists].
  destruct (hi_sets _ Hi r rvs E) as [R1 R2].
  destruct (valid_type t Ht) as [->| ->]; cbn; eexists; (split; [done|]); intros ? [= <-].
  - destruct (reachable_inv _ _ _ _ _ _ (hi_vals _ Hi) (hi_nonempty _ Hi) R1) as [Hv HP]. split; [done|].
    injection HP as _ _ _ -> HV. split; [done|]. cbn. unfold ValidatorSet.Size. by rewrite HV.
  - destruct (reachable_inv _ _ _ _ _ _ (hi_vals _ Hi) (hi_nonempty _ Hi) R2) as [Hv HP]. split; [done|].
    injection HP as _ _ _ -> HV. split; [done|]. cbn. unfold ValidatorSet.Size. by rewrite HV.
Qed.

Lemma VoteSet_readable (o : option VoteSet) :
  (∀ vs, o = Some vs → vs_inv vs ∧ IsVoteTypeValid (vs_type vs) = true ∧ VoteSet_Size (Some vs) ≤ maxBits) → readable o.
Proof.
  intros Ho. destruct o as [vs|]; [|by left]. destruct (Ho vs eq_refl) as (Hi & Ht & Hm).
  destruct (VoteSet_reads vs Hi Ht Hm) as [b Hb]. right. by eexists _, _, _.
Qed.

Lemma Commit_readable (o : option Commit) :
  (∀ c, o = Some c → commit_bitArray c = None ∧ commit_aligned c) → readable o.
Proof.
  intros Ho. destruct o as [c|]; [|by left]. destruct (Ho c eq_refl) as [Hb Ha].
  destruct (decide (commit_Precommits c = [])) as [E|Hne].
  - left. cbn. by rewrite E.
  - destruct (Commit_reads c Hne Hb Ha) as [b Hr]. right. by eexists _, _, _.
Qed.

(** The arrays a vote set gives out are well formed. *)
Lemma BitArrayByBlockID_wf (o : option VoteSet) b :
  (∀ vs, o = Some vs → vs_inv vs ∧ VoteSet_Size (Some vs) ≤ maxBits) → wf_opt (BitArrayByBlockID o b).
Proof.
  intros Ho a. destruct o as [vs|]; [|done]. cbn. destruct (vs_votesByBlock vs !! BlockID_Key b) as [bv|] eqn:E; [|done].
  destruct (Ho vs eq_refl) as [Hi Hm]. destruct (vs_core _ Hi) as [_ _ Hb _]. destruct (Hb _ _ E) as [Hs _ _].
  destruct (slots_ba _ _ _ _ Hs) as (x & -> & Hw & HB & _). cbn. rewrite copy_id. intros [= <-]. split; [done|].
  rewrite HB. exact Hm.
Qed.

Lemma our_votes_total hvs r t b :
  hvs_inv hvs → ValidatorSet.Size (hvs_valSet hvs) ≤ maxBits → IsVoteTypeValid t = true →
  ∃ o, our_votes hvs r t b = Ret o ∧ wf_opt o.
Proof.
  intros Hi Hm Ht. unfold our_votes.
  destruct (valid_type t Ht) as [->| ->]; cbn -[getVoteSet].
  - destruct (getVoteSet_total hvs r PrevoteType Hi) as (o & -> & Ho); [done|]. eexists. split; [done|].
    apply BitArrayByBlockID_wf. intros vs E. destruct (Ho vs E) as (? & _ & ->). done.
  - destruct (getVoteSet_total hvs r PrecommitType Hi) as (o & -> & Ho); [done|]. eexists. split; [done|].
    apply BitArrayByBlockID_wf. intros vs E. destruct (Ho vs E) as (? & _ & ->). done.
Qed.

(** The claim of a peer keeps the vote sets of the height in order. *)
Lemma HVS_SetPeerMaj23_total hvs r t peer b :
  hvs_inv hvs → IsVoteTypeValid t = true →
  ∃ hvs' ok, HVS_SetPeerMaj23 hvs r t peer b = Ret (hvs', ok) ∧ hvs_inv hvs' ∧ hvs_valSet hvs' = hvs_valSet hvs.
Proof.
  intros Hi Ht. unfold HVS_SetPeerMaj23. rewrite Ht. cbn [negb]. pose proof (valid_type t Ht) as Ht'.
  destruct (hvs_roundVoteSets hvs !! r) as [rvs|] eqn:E.
  - destruct (getVoteSet_ok hvs r t rvs Hi E Ht') as (vs & -> & vs0 & E0 & Hst). cbn [mbind outcome_bind].
    assert (reachable (hvs_chainID hvs) (hvs_height hvs) r t (hvs_valSet hvs) (SetPeerMaj23 vs peer b).1) as Hreach.
    { exists vs0. split; [done|]. eapply rtc_r; [exact Hst|apply step_peer]. }
    destruct (SetPeerMaj23 vs peer b) as [vs' ok]. eexists _, _. split; [done|].
    split; [by apply (put_voteSet_ok hvs r t vs' rvs Hi E Ht')|]. unfold put_voteSet. repeat case_match; done.
  - assert (getVoteSet hvs r t = Ret None) as -> by (unfold getVoteSet; by rewrite E). by eexists _, _.
Qed.

Lemma set_Votes_ok (rs : CS) hvs :
  node_ok rs → hvs_inv hvs → ValidatorSet.Size (hvs_valSet hvs) ≤ maxBits → node_ok (set_Votes rs (Some hvs)).
Proof. intros [] Hi Hm. split; try done. by exists hvs. Qed.

(** *** Receive *)

(** One message of each kind, on its channel. *)
Ltac by_op op :=
  match goal with Hs : safe ?ps |- _ =>
    destruct (op_safe op ps Hs) as (? & Eop & ?); [done|]; cbn [apply_op] in Eop
  end.

Lemma receive_state_total now peerID (cs : CS) ps msg :
  node_ok cs → safe ps → Message_ValidateBasic msg = Ret None → msg_ok msg →
  ∃ ps' cs' out, receive_state now peerID cs ps msg = Ret (ps', cs', out) ∧ safe ps' ∧ node_ok cs'.
Proof.
  intros Hn Hs Hv Hm. destruct msg; cbn [receive_state msg_ok] in *; try (by eexists _, _, _).
  - eexists _, _, _. split; [done|]. split; [by apply NewRoundStep_ok|done].
  - eexists _, _, _. split; [done|]. split; [by apply NewValidBlock_ok|done].
  - assert (0 ≤ hv_Index m) as Hi.
    { cbn in Hv. unfold HasVote_ValidateBasic in Hv. repeat case_match; try done. by apply Z.ltb_ge. }
    by_op (OpHasVote m). rewrite Eop. by eexists _, _, _.
  - assert (IsVoteTypeValid (vsm_Type m) = true) as Ht.
    { cbn in Hv. unfold VoteSetMaj23_ValidateBasic in Hv. repeat case_match; try done. by apply negb_false_iff. }
    case_match; [by eexists _, _, _|]. destruct (no_votes _ Hn) as (hvs & -> & Hi & Hmx). cbn [or_panic mbind outcome_bind].
    destruct (HVS_SetPeerMaj23_total hvs (vsm_Round m) (vsm_Type m) peerID (vsm_BlockID m) Hi Ht)
      as (hvs' & ok & -> & Hi' & Hv'). cbn [mbind outcome_bind]. rewrite <-Hv' in Hmx.
    pose proof (set_Votes_ok cs hvs' Hn Hi' Hmx) as Hn'.
    destruct ok; cbn [negb]; [|by eexists _, _, _].
    destruct (our_votes_total hvs' (vsm_Round m) (vsm_Type m) (vsm_BlockID m) Hi' Hmx Ht) as (o & -> & _).
    by eexists _, _, _.
Qed.

Lemma receive_data_total (cs : CS) ps msg :
  node_ok cs → safe ps → Message_ValidateBasic msg = Ret None → msg_ok msg →
  ∃ ps' out, receive_data cs ps msg = Ret (ps', cs, out) ∧ safe ps'.
Proof.
  intros Hn Hs Hv Hm. destruct msg; cbn [receive_data msg_ok] in *; try (by eexists _, _).
  - destruct Hm as (p & -> & Hm). cbn [or_panic mbind outcome_bind]. by_op (OpProposal p). rewrite Eop. by eexists _, _.
  - eexists _, _. split; [done|]. by apply ProposalPOL_ok.
  - destruct Hm as [p ->]. cbn in Hv |- *. unfold BlockPart_ValidateBasic in Hv. do 2 (case_match; [done|]).
    injection Hv as Hv. assert (0 ≤ part_Index p) as Hi.
    { unfold Part_ValidateBasic in Hv. case_match eqn:E; [done|]. by apply Z.ltb_ge. }
    by_op (OpBlockPart height round (part_Index p)). rewrite Eop. by eexists _, _.
Qed.

Lemma receive_vote_total (cs : CS) ps msg :
  node_ok cs → safe ps → Message_ValidateBasic msg = Ret None → msg_ok msg →
  ∃ ps' out, receive_vote cs ps msg = Ret (ps', cs, out) ∧ safe ps'.
Proof.
  intros Hn Hs Hv Hm. destruct msg; cbn [receive_vote msg_ok] in *; try (by eexists _, _).
  destruct Hm as [v ->]. cbn in Hv. assert (0 ≤ vote_ValidatorIndex v) as Hi.
  { unfold Vote_ValidateBasic in Hv. repeat case_match; try done. by apply Z.ltb_ge. }
  apply (Ensure_ok _ _ (cs_Height cs) (ValidatorSet.Size (cs_Validators cs))) in Hs; [|by apply no_validators].
  apply (Ensure_ok _ _ (wrap64 (cs_Height cs - 1)) (VoteSet_Size (cs_LastCommit cs))) in Hs;
    [|destruct (cs_LastCommit cs) as [vs|] eqn:El; [by apply (no_last _ Hn vs El)|done]].
  destruct (op_safe (OpVote v) _ Hs Hi) as (ps' & Eop & Hs'). cbn [apply_op] in Eop.
  unfold EnsureVoteBitArrays. cbn [or_panic mbind outcome_bind]. rewrite Eop. by eexists _, _.
Qed.

Lemma receive_bits_total (cs : CS) ps msg :
  node_ok cs → safe ps → Message_ValidateBasic msg = Ret None → msg_ok msg →
  ∃ ps' out, receive_bits cs ps msg = Ret (ps', cs, out) ∧ safe ps'.
Proof.
  intros Hn Hs Hv Hm. destruct msg; cbn [receive_bits msg_ok] in *; try (by eexists _, _).
  assert (IsVoteTypeValid (vsb_Type m) = true) as Ht.
  { cbn in Hv. unfold VoteSetBits_ValidateBasic in Hv. repeat case_match; try done. by apply negb_false_iff. }
  case_match.
  - destruct (no_votes _ Hn) as (hvs & -> & Hi & Hmx). cbn [or_panic mbind outcome_bind].
    destruct (our_votes_total hvs (vsb_Round m) (vsb_Type m) (vsb_BlockID m) Hi Hmx Ht) as (o & -> & Ho).
    by_op (OpVoteSetBits m o). cbn [mbind outcome_bind]. rewrite Eop. by eexists _, _.
  - by_op (OpVoteSetBits m None). rewrite Eop. by eexists _, _.
Qed.

Lemma Receive_total unmarshalMsg running fastSync chID now peerID (cs : CS) ps bz :
  node_ok cs → safe ps → (∀ msg, unmarshalMsg bz = Some msg → msg_ok msg) →
  ∃ ps' cs' out, Receive unmarshalMsg running fastSync chID now peerID cs (Some ps) bz = Ret (Some ps', cs', out) ∧
    safe ps' ∧ node_ok cs'.
Proof.
  intros Hn Hs Hm. unfold Receive, decodeMsg. destruct running; cbn [negb]; [|by eexists _, _, _].
  case_match eqn:Ed; [|by eexists _, _, _].
  assert (msg_ok m) as Hok.
  { case_match; [done|]. destruct (unmarshalMsg bz) as [m'|] eqn:E; [|done]. injection Ed as ->. by apply Hm. }
  assert (∃ e, Message_ValidateBasic m = Ret e) as [e Ev].
  { destruct m; cbn [Message_ValidateBasic msg_ok] in *; try (by eexists);
      [destruct Hok as (x & -> & _)|destruct Hok as [x ->]..]; try (by eexists).
    unfold BlockPart_ValidateBasic. repeat case_match; by eexists. }
  rewrite Ev. cbn [mbind outcome_bind]. destruct e as [e|]; [by eexists _, _, _|]. cbn [or_panic mbind outcome_bind].
  assert (∃ ps' cs' out, receive_on fastSync chID now peerID cs ps m = Ret (ps', cs', out) ∧ safe ps' ∧ node_ok cs')
    as (ps' & cs' & out & -> & ? & ?); [|by eexists _, _, _].
  unfold receive_on. destruct (chID =? StateChannel); [by apply receive_state_total|].
  destruct (chID =? DataChannel).
  { destruct fastSync; [by exists ps, cs, []|].
    destruct (receive_data_total cs ps m) as (? & ? & -> & ?); [done..|]. by eexists _, _, _. }
  destruct (chID =? VoteChannel).
  { destruct fastSync; [by exists ps, cs, []|].
    destruct (receive_vote_total cs ps m) as (? & ? & -> & ?); [done..|]. by eexists _, _, _. }
  destruct (chID =? VoteSetBitsChannel); [|by exists ps, cs, []].
  destruct fastSync; [by exists ps, cs, []|].
  destruct (receive_bits_total cs ps m) as (? & ? & -> & ?); [done..|]. by eexists _, _, _.
Qed.

(** *** The gossip routines *)

Lemma PickRandom_total RandIntn (o : option BitArray) :
  (∀ n, 0 < n → 0 ≤ RandIntn n < n) → wf_opt o →
  ∃ i ok, PickRandom RandIntn o = Ret (i, ok) ∧ (ok = true → 0 ≤ i < BitArray.Size o ∧ hasb o i = true).
Proof.
  intros Hrand Ho. destruct o as [b|]; [|by exists 0, false]. specialize (Ho b eq_refl) as [Ho _].
  unfold PickRandom. rewrite (getTrueIndices_spec b Ho). cbn [mbind outcome_bind].
  set (l := keep (bit b) (zseq 0 (Z.to_nat (Bits b)))).
  destruct (Z.eqb_spec (zlen l) 0) as [|Hne]; [by exists 0, false|].
  pose proof (Hrand (zlen l) ltac:(pose proof (zlen_nonneg l); lia)) as Hr.
  destruct (lookup_lt_is_Some_2 l (Z.to_nat (RandIntn (zlen l)))) as [i Hi]; [unfold zlen in *; lia|].
  pose proof (slice_get_ok _ _ _ Hi) as Hg. rewrite Z2Nat.id in Hg by lia. rewrite Hg.
  exists i, true. split; [done|]. intros _. apply list_elem_of_lookup_2 in Hi. unfold l, keep in Hi.
  apply list_elem_of_filter in Hi as [Hb Hz%elem_of_zseq]. pose proof (wf_pos _ Ho). cbn. split; [lia|done].
Qed.

(** A pointer into a safe store leads nowhere or to a well-formed array, whenever it was read. *)
Lemma deref_safe ps p : safe ps → wf_opt (deref (ps_heap ps) p).
Proof.
  intros (tags & Hh & _) b. destruct p as [a|]; [|done]. cbn. intros Hb. by eapply Forall_lookup_1; [apply Hh|].
Qed.

Lemma Sub_total a b : wf_opt a → wf_opt b → ∃ c, Sub a b = Ret c ∧ wf_opt c ∧
  ∀ i, 0 ≤ i < BitArray.Size c → i < BitArray.Size a.
Proof.
  intros Ha Hb. destruct a as [a|], b as [b|]; try (exists None; split_and!; [done|done|cbn; lia]).
  destruct (Sub_bits a b (Ha a eq_refl) (proj1 (Hb b eq_refl))) as (c & -> & Hw & HB & _).
  exists (Some c). split; [done|]. split; [by intros ? [= <-]|]. cbn. lia.
Qed.

Context (Rand : nat → Z → Z) (Hrand : ∀ j n, 0 < n → 0 ≤ Rand j n < n).

Definition action_ok (act : data_action) : Prop :=
  match act with
  | SendPart _ _ index _ => 0 ≤ index
  | InitParts header => psh_Total header ≤ maxBits
  | SendProposal p _ => parts_total p ≤ maxBits
  | _ => True
  end.

Lemma catchup_total (rs : CS) prs ps j :
  safe ps → ∃ act, gossipDataForCatchup (Rand j) (cs_blockStore rs) prs (ps_heap ps) = Ret act ∧ action_ok act.
Proof.
  intros Hs. unfold gossipDataForCatchup.
  destruct (PickRandom_total (Rand j) (Not (deref (ps_heap ps) (prs_ProposalBlockParts prs))) (Hrand j))
    as (i & ok & -> & Hi).
  { pose proof (deref_safe ps (prs_ProposalBlockParts prs) Hs) as Hw.
    destruct (deref _ _) as [b|]; [|done]. intros ? [= <-]. destruct (Hw b eq_refl) as [Hwb Hmb].
    destruct (not_spec b Hwb) as (? & HB & _). split; [done|]. by rewrite HB. }
  cbn [mbind outcome_bind]. destruct ok; [|by exists SleepData]. destruct (Hi eq_refl) as [Hr _].
  case_match; [|by exists SleepData]. case_match; [by exists SleepData|]. case_match; [|by exists SleepData].
  eexists. split; [done|]. cbn. lia.
Qed.

Lemma gossipData_rest_total (rs : CS) prs ps j :
  node_ok rs → safe ps → ∃ act, gossipData_rest (Rand j) rs prs (ps_heap ps) = Ret act ∧ action_ok act.
Proof.
  intros Hn Hs. unfold gossipData_rest. case_match eqn:Eh.
  - case_match; [by apply catchup_total|].
    apply andb_true_iff in Eh as [E1%Z.ltb_lt E2%Z.ltb_lt].
    destruct (no_metas _ Hn (prs_Height prs)) as [m Em]; [lia|]. rewrite Em. eexists. split; [done|]. by eapply no_headers.
  - case_match; [by exists SleepData|]. case_match eqn:Epr; [|by exists SleepData]. case_match; [by exists SleepData|].
    pose proof (no_proposal _ Hn _ Epr). case_match; [|by eexists]. unfold prevotes. destruct (no_votes _ Hn) as (hvs & -> & Hi & Hmx). cbn [or_panic mbind outcome_bind].
    destruct (getVoteSet_total hvs (prop_POLRound p) PrevoteType Hi eq_refl) as (o & -> & _). by eexists.
Qed.

Lemma gossipData_total (rs : CS) prs ps j :
  node_ok rs → safe ps → ∃ act, gossipData_decide (Rand j) rs prs (ps_heap ps) = Ret act ∧ action_ok act.
Proof.
  intros Hn Hs. unfold gossipData_decide.
  destruct (cs_ProposalBlockParts rs) as [parts|] eqn:Ep; [|by apply gossipData_rest_total].
  case_match; [|by apply gossipData_rest_total].
  destruct (no_parts _ Hn parts Ep) as [Hi [Hpos Hmp]]. destruct (pi_ba _ _ Hi Hpos) as (b & Eb & Hwb & HB & _).
  assert (PartSet_BitArray parts = Some b) as -> by (unfold PartSet_BitArray; rewrite Eb; cbn; by rewrite copy_id).
  destruct (Sub_total (Some b) (BitArray.Copy (deref (ps_heap ps) (prs_ProposalBlockParts prs)))) as (c & -> & Hwc & Hc).
  { intros ? [= <-]. split; [done|lia]. }
  { pose proof (deref_safe ps (prs_ProposalBlockParts prs) Hs) as Hw.
    destruct (deref _ _); cbn; [rewrite copy_id|]; done. }
  cbn [mbind outcome_bind]. destruct (PickRandom_total (Rand j) c (Hrand j) Hwc) as (i & ok & -> & Hr).
  cbn [mbind outcome_bind]. destruct ok; [|by apply gossipData_rest_total]. destruct (Hr eq_refl) as [Hlt _].
  specialize (Hc i Hlt). cbn in Hc. rewrite HB, <-(pi_len _ _ Hi) in Hc.
  destruct (lookup_lt_is_Some_2 (ps_parts parts) (Z.to_nat i)) as [p Hp]; [unfold zlen in Hc; lia|].
  pose proof (slice_get_ok _ _ _ Hp) as Hg. rewrite Z2Nat.id in Hg by lia. unfold GetPart. rewrite Hg.
  eexists. split; [done|]. cbn. lia.
Qed.

Lemma act_total send prs act ps :
  action_ok act → safe ps → ∃ ps', gossipData_act send prs act ps = Ret ps' ∧ safe ps'.
Proof.
  intros Ha Hs. destruct act; cbn [gossipData_act action_ok] in *.
  - destruct send; [|by eexists]. by apply (op_safe (OpBlockPart _ _ index)).
  - by apply InitParts_ok.
  - destruct send; [by apply SetHasProposal_ok|by eexists].
  - by eexists.
Qed.

(** One more attempt to send a vote. *)
Lemma try_send_total {A} `{VoteSetReader A} Send k cond (votes : outcome A) rest ps :
  (∃ v, votes = Ret v ∧ readable v) →
  (∀ ps, safe ps → ∃ ps' sent, rest ps = Ret (ps', sent) ∧ safe ps') → safe ps →
  ∃ ps' sent, try_send Rand Send k cond votes rest ps = Ret (ps', sent) ∧ safe ps'.
Proof.
  intros (v & -> & Hv) Hrest Hs. unfold try_send. destruct cond; [|by apply Hrest]. cbn [mbind outcome_bind].
  assert (∃ ps1 sent, PickSendVote (Rand k) (Send k) ps v = Ret (ps1, sent) ∧ safe ps1) as (ps1 & sent & -> & Hs1).
  { destruct Hv as [E|(h & r & b & Hr)].
    - exists ps, None. unfold PickSendVote, PickVoteToSend. by rewrite E.
    - by apply (PickSendVote_ok v h r b Hr _ (Rand k) (Hrand k)). }
  cbn [mbind outcome_bind]. destruct sent; [by eexists _, _|by apply Hrest].
Qed.

Lemma prevotes_readable (rs : CS) r : node_ok rs → ∃ v, prevotes rs r = Ret v ∧ readable v.
Proof.
  intros Hn. unfold prevotes. destruct (no_votes _ Hn) as (hvs & -> & Hi & Hmx). cbn [or_panic mbind outcome_bind].
  destruct (getVoteSet_total hvs r PrevoteType Hi eq_refl) as (o & -> & Ho). eexists. split; [done|].
  apply VoteSet_readable. intros vs E. destruct (Ho vs E) as (? & -> & ->). done.
Qed.

Lemma precommits_readable (rs : CS) r : node_ok rs → ∃ v, precommits rs r = Ret v ∧ readable v.
Proof.
  intros Hn. unfold precommits. destruct (no_votes _ Hn) as (hvs & -> & Hi & Hmx). cbn [or_panic mbind outcome_bind].
  destruct (getVoteSet_total hvs r PrecommitType Hi eq_refl) as (o & -> & Ho). eexists. split; [done|].
  apply VoteSet_readable. intros vs E. destruct (Ho vs E) as (? & -> & ->). done.
Qed.

Lemma last_readable (rs : CS) : node_ok rs → ∃ v, Ret (cs_LastCommit rs) = Ret v ∧ readable v.
Proof. intros Hn. eexists. split; [done|]. apply VoteSet_readable, no_last, Hn. Qed.

Lemma gossipVotes_total Send (rs : CS) prs ps :
  node_ok rs → safe ps → ∃ ps' sent, gossipVotes Rand Send rs prs ps = Ret (ps', sent) ∧ safe ps'.
Proof.
  intros Hn.
  assert (∀ q, safe q → ∃ ps' sent, Ret (q, None : option Vote) = Ret (ps', sent) ∧ safe ps') as Hend
    by (intros q; by eexists _, _).
  assert (∀ q, safe q → ∃ ps' sent, gossipVotesForHeight Rand Send rs prs q = Ret (ps', sent) ∧ safe ps') as Hheight.
  { intros q. unfold gossipVotesForHeight.
    repeat first [by apply Hend | apply try_send_total; [by auto using prevotes_readable, precommits_readable, last_readable|intros ?]]. }
  assert (∃ v, Ret (LoadBlockCommit (cs_blockStore rs) (prs_Height prs)) = Ret v ∧ readable v) as Hcommit.
  { eexists. split; [done|]. apply Commit_readable. intros c. by apply no_commits. }
  revert ps. unfold gossipVotes. set (catchup := try_send Rand Send 6 _ _ _).
  assert (∀ q, safe q → ∃ ps' sent, catchup q = Ret (ps', sent) ∧ safe ps') as Hcatch.
  { intros q. apply try_send_total; [by apply last_readable|]. intros ?. apply try_send_total; [done|exact Hend]. }
  destruct (cs_Height rs =? prs_Height prs); [|exact Hcatch]. intros ps Hs.
  destruct (Hheight ps Hs) as (ps1 & sent & -> & Hs1). cbn [mbind outcome_bind].
  destruct sent; [by eexists _, _|by apply Hcatch].
Qed.

Lemma query_total (rs : CS) prs :
  node_ok rs → (∃ m, query_prevotes rs prs = Ret m) ∧ (∃ m, query_precommits rs prs = Ret m) ∧
    (∃ m, query_POL rs prs = Ret m) ∧ (∃ m, query_catchup (cs_blockStore rs) prs = Ret m).
Proof.
  intros Hn. unfold query_prevotes, query_precommits, query_POL, query_catchup.
  destruct (prevotes_readable rs (prs_Round prs) Hn) as (v1 & -> & _).
  destruct (precommits_readable rs (prs_Round prs) Hn) as (v2 & -> & _).
  destruct (prevotes_readable rs (prs_ProposalPOLRound prs) Hn) as (v3 & -> & _).
  split; [case_match; by eexists|]. split; [case_match; by eexists|]. split; [case_match; by eexists|].
  case_match eqn:E; [|by eexists]. apply andb_true_iff in E as [[_ E1%Z.ltb_lt]%andb_true_iff E2%Z.leb_le].
  destruct (no_seen _ Hn (prs_Height prs)) as [c ->]; [lia|]. by eexists.
Qed.


End total.
