(* ===== verification/ConsensusReactorFacts.v ===== *)
(** * Where the reactor fails, and samples

    What the hypotheses of [reactor_never_panics] exclude: bit arrays without their words, which pass every check and crash
    a gossip goroutine; commits whose votes name other validators; a store that starts at a snapshot. Then a vote that is sent
    for ever, a part that is never sent, and precommits that are forgotten. The witnesses of the reactor's theorems follow. *)

From Stdlib Require Import ZArith Lia Bool Strings.Byte.
From stdpp Require Import base list gmap.
From S2P Require Import Prelude Merkle Types ValidatorSet VerifyCommit VoteSet HeightVoteSet PartSet Block StateStore BlockStore Consensus ConsensusProofs Node.
From S2P Require Import BitArray PeerState PeerStateProofs ConsensusReactor ConsensusReactorProofs.
Local Open Scope Z_scope.

(** ** An array without words *)

(** The peer says that it is at height 1, round 0. *)
Definition low_step : NewRoundStepMessage := mkNewRoundStep 1 0 1 0 (-1).

(** A set of one part, whose bit array has one bit and no word: the encoding of [Elems] is left out. *)
Definition empty_words : NewValidBlockMessage :=
  mkNewValidBlock 1 0 (mkPartSetHeader 1 []) (Some (mkBitArray 1 [])) false.

Definition poisoned (now : Z) : PeerState :=
  ApplyNewValidBlockMessage (ApplyNewRoundStepMessage now NewPeerState low_step) empty_words.

Lemma poisoned_eq now :
  poisoned now = mkPS [mkBitArray 1 []]
    (mkPRS 1 0 1 (start_time now 0) false (mkPartSetHeader 1 []) (Some 0%nat) (-1) None None None (-1) None (-1) None) 0 0.
Proof. reflexivity. Qed.

(** C39. Two messages of any peer crash a node. Both pass ValidateBasic, which compares the number of bits with the number of parts
    but not with the number of words; the state they leave makes the data routine of every node above height 1 panic at its
    next iteration (unless the node's own proposal has the sender's empty header), for any random choice. The routine runs in a
    goroutine of its own, so the process ends. *)
Theorem empty_words_crash_gossip {PV : Type} (RandIntn : Z → Z) (now : Z) (rs : ConsensusState (PV := PV)) :
  1 < cs_Height rs → HasHeader (cs_ProposalBlockParts rs) (nvb_BlockPartsHeader empty_words) = false →
  Message_ValidateBasic (MsgNewRoundStep low_step) = Ret None ∧
  Message_ValidateBasic (MsgNewValidBlock empty_words) = Ret None ∧
  gossipData_decide RandIntn rs (GetRoundState (poisoned now)) (ps_heap (poisoned now)) = Panic.
Proof.
  intros Hh Hd. split; [reflexivity|]. split; [reflexivity|]. rewrite poisoned_eq. cbn [GetRoundState ps_PRS ps_heap].
  set (prs := mkPRS _ _ _ _ _ _ _ _ _ _ _ _ _ _ _).
  assert (gossipData_rest RandIntn rs prs [mkBitArray 1 []] = Panic) as Hrest.
  { unfold gossipData_rest, prs. cbn [prs_Height prs_ProposalBlockParts].
    rewrite (proj2 (Z.ltb_lt 1 (cs_Height rs)) Hh). reflexivity. }
  unfold gossipData_decide. destruct (cs_ProposalBlockParts rs) as [parts|]; [|exact Hrest].
  change (prs_ProposalBlockPartsHeader prs) with (nvb_BlockPartsHeader empty_words). rewrite Hd. exact Hrest.
Qed.

(** ** A proposal of too many parts *)

(** A proposal for the round of a peer that announces close to 2^63 parts, which passes every check, panics in the goroutine that receives it: the number of
    words of the bit array for its parts wraps to a negative one. *)
Theorem huge_proposal_panics {PV : Type} (rs : ConsensusState (PV := PV)) (ps : PeerState) (p : Proposal) :
  prs_Height (ps_PRS ps) = prop_Height p → prs_Round (ps_PRS ps) = prop_Round p → prs_Proposal (ps_PRS ps) = false →
  prs_ProposalBlockParts (ps_PRS ps) = None → MaxInt64 - 63 < parts_total p ≤ MaxInt64 →
  receive_data rs ps (MsgProposal (Some p)) = Panic.
Proof.
  intros Hh Hr Hp Hb Ht. cbn [receive_data or_panic mbind outcome_bind]. unfold SetHasProposal.
  rewrite Hh, Hr, !Z.eqb_refl, Hp. cbn [negb orb with_proposal prs_ProposalBlockParts]. rewrite Hb.
  fold (parts_total p). by rewrite (huge_size_panics _ Ht).
Qed.

(** Such a proposal, and the state of a peer that has just said where it is. *)
Definition huge_proposal : Proposal :=
  mkProposal ProposalType 1 0 (-1) (mkBlockID (replicate 32 x01) (mkPartSetHeader MaxInt64 (replicate 32 x02))) 0 [x01].

Lemma huge_proposal_panics_sample {PV : Type} (rs : ConsensusState (PV := PV)) now :
  Message_ValidateBasic (MsgProposal (Some huge_proposal)) = Ret None ∧
  receive_data rs (ApplyNewRoundStepMessage now NewPeerState low_step) (MsgProposal (Some huge_proposal)) = Panic.
Proof. split; [reflexivity|]. apply huge_proposal_panics; try reflexivity. vm_compute. split; [reflexivity|discriminate]. Qed.

(** ** A commit whose votes name the wrong validator *)

Definition with_index (i : Z) (v : Vote) : Vote :=
  mkVote (vote_Type v) (vote_Height v) (vote_Round v) (vote_BlockID v) (vote_Timestamp v) (vote_ValidatorAddress v) i
    (vote_Signature v) (vote_PartSig v) (vote_PartBlockSig v).

(** The same signatures with another index in each vote. *)
Definition reindex (i : Z) (c : Commit) : Commit :=
  mkCommit (commit_BlockID c) (option_map (with_index i) <$> commit_Precommits c) (commit_height c) (commit_round c)
    (commit_bitArray c).

Section reindexed.
Context `{Codec} `{Crypto}.
Context (i : Z).

Lemma first_precommit_reindex l :
  first_precommit (option_map (with_index i) <$> l) = option_map (with_index i) (first_precommit l).
Proof. induction l as [|[v|] l IH]; [done|done|exact IH]. Qed.

Lemma Height_reindex c : Commit_Height (reindex i c) = Commit_Height c ∧ Commit_Round (reindex i c) = Commit_Round c.
Proof.
  unfold Commit_Height, Commit_Round, memoizeHeightRound. cbn [reindex commit_height commit_Precommits].
  destruct (0 <? commit_height c); [done|]. rewrite first_precommit_reindex.
  by destruct (first_precommit (commit_Precommits c)).
Qed.

Lemma ValidateBasic_reindex c : Commit_ValidateBasic (reindex i c) = Commit_ValidateBasic c.
Proof.
  unfold Commit_ValidateBasic. destruct (Height_reindex c) as [-> ->]. cbn [reindex commit_BlockID commit_Precommits].
  unfold zlen. rewrite length_fmap. do 2 (case_match; [done|]).
  generalize (commit_Precommits c). intros l. induction l as [|[v|] l IH]; [done| |exact IH].
  rewrite fmap_cons. cbn [option_map validate_precommits].
  change (validate_precommit (Commit_Height c) (Commit_Round c) (with_index i v))
    with (validate_precommit (Commit_Height c) (Commit_Round c) v). by rewrite IH.
Qed.

(** The sign bytes do not contain the index. *)
Lemma VerifyCommit_reindex vals chainID blockID height c :
  VerifyCommit vals chainID blockID height (reindex i c) = VerifyCommit vals chainID blockID height c.
Proof.
  unfold VerifyCommit. rewrite ValidateBasic_reindex. destruct (Height_reindex c) as [-> _].
  cbn [reindex commit_BlockID commit_Precommits]. unfold zlen. rewrite length_fmap.
  assert (∀ l idx t, tally_loop vals chainID blockID idx (option_map (with_index i) <$> l) t =
    tally_loop vals chainID blockID idx l t) as Htally.
  { induction l as [|[v|] l IH]; intros idx t; [done| |apply IH]. rewrite fmap_cons. cbn [option_map tally_loop].
    destruct (or_panic _) as [val|]; [|done]. cbn [mbind outcome_bind].
    change (Vote_SignBytes chainID (with_index i v)) with (Vote_SignBytes chainID v). cbn [with_index vote_Signature vote_BlockID].
    case_match; [done|]. apply IH. }
  by rewrite Htally.
Qed.

Lemma slice_get_fmap {A B} (f : A → B) (l : list A) j : slice_get (f <$> l) j = f <$> slice_get l j.
Proof.
  unfold slice_get, slice_lookup. case_match; [|done]. rewrite list_lookup_fmap. by destruct (l !! _).
Qed.

Lemma BitArray_reindex c : commit_bitArray c = None →
  fst <$> Commit_BitArray (reindex i c) = fst <$> Commit_BitArray c.
Proof.
  intros E. unfold Commit_BitArray. cbn [reindex commit_bitArray commit_Precommits]. rewrite E.
  unfold zlen. rewrite length_fmap. generalize (NewBitArray_len (Z.of_nat (length (commit_Precommits c)))).
  set (l := commit_Precommits c).
  assert (∀ n s o, for_range n s (λ j b, precommit ← slice_get (option_map (with_index i) <$> l) (Z.of_nat j);
        fst <$> BitArray.SetIndex b (Z.of_nat j) (bool_decide (is_Some precommit))) o =
      for_range n s (λ j b, precommit ← slice_get l (Z.of_nat j);
        fst <$> BitArray.SetIndex b (Z.of_nat j) (bool_decide (is_Some precommit))) o) as Hloop.
  { induction n as [|n IH]; intros s o; [done|]. cbn [for_range]. rewrite slice_get_fmap.
    destruct (slice_get l (Z.of_nat s)) as [[v|]|]; cbn [fmap outcome_fmap mbind outcome_bind option_map]; [| |done].
    - rewrite (bool_decide_ext (is_Some (Some (with_index i v))) (is_Some (Some v))) by (split; by eexists).
      destruct (SetIndex _ _ _); [apply IH|done].
    - destruct (SetIndex _ _ _); [apply IH|done]. }
  intros o. rewrite Hloop. by destruct (for_range _ _ _ _).
Qed.

(** The pick is the same but for the index of the vote. *)
Lemma Pick_reindex RandIntn ps ps1 v c :
  commit_bitArray c = None →
  PickVoteToSend RandIntn ps (Some c) = Ret (ps1, Some (Some v)) →
  PickVoteToSend RandIntn ps (Some (reindex i c)) = Ret (ps1, Some (Some (with_index i v))).
Proof.
  intros Hb. unfold PickVoteToSend, lazily_set. destruct (Height_reindex c) as [Hh Hr].
  pose proof (BitArray_reindex c Hb) as Hba.
  cbn [rd_Size rd_Height rd_Round rd_IsCommit rd_BitArray rd_GetByIndex rd_Type Commit_reader Commit_Size or_panic
       mbind outcome_bind fmap outcome_fmap] in *.
  assert (zlen (commit_Precommits (reindex i c)) = zlen (commit_Precommits c)) as Hl
    by (unfold zlen; cbn [reindex commit_Precommits]; by rewrite length_fmap).
  assert (Commit_IsCommit (reindex i c) = Commit_IsCommit c) as Hc by (unfold Commit_IsCommit; by rewrite Hl).
  rewrite Hh, Hr, Hba, Hl, Hc. destruct (zlen (commit_Precommits c) =? 0); [done|].
  destruct (getVoteBitArray _ _ _ _) as [a|]; [|done].
  destruct (fst <$> Commit_BitArray c) as [ours|]; [|done]. cbn [mbind outcome_bind].
  destruct (Sub _ _) as [miss|]; [|done]. cbn [mbind outcome_bind].
  destruct (PickRandom RandIntn miss) as [[index ok]|]; [|done]. cbn [mbind outcome_bind]. destruct ok; [|done].
  unfold Commit_GetByIndex. cbn [reindex commit_Precommits]. rewrite slice_get_fmap.
  destruct (slice_get (commit_Precommits c) index) as [o|]; [|done]. cbn [mbind outcome_bind fmap outcome_fmap].
  intros [= <- ->]. done.
Qed.

End reindexed.

(** C40. A commit is verified by its signatures alone, and these do not cover the index of the validator in a vote. So the proposer of
    a block can put other indices into its LastCommit: ValidateBasic and VerifyCommit answer as before. With the index -64,
    whenever the vote routine would send a vote of the commit to a lagging peer, it panics instead (SetIndex
    looks for word -1), in every node that has stored the block. *)
Theorem misindexed_commit_crashes_gossip `{Codec} `{Crypto} (c : Commit) :
  commit_bitArray c = None → commit_aligned c →
  Commit_ValidateBasic (reindex (-64) c) = Commit_ValidateBasic c ∧
  (∀ vals chainID blockID height,
     VerifyCommit vals chainID blockID height (reindex (-64) c) = VerifyCommit vals chainID blockID height c) ∧
  ∀ RandIntn ps ps1 v, (∀ n, 0 < n → 0 ≤ RandIntn n < n) → safe ps →
    PickVoteToSend RandIntn ps (Some c) = Ret (ps1, Some v) →
    PickSendVote RandIntn true ps (Some (reindex (-64) c)) = Panic.
Proof.
  intros Hb Ha. split; [apply ValidateBasic_reindex|]. split; [intros; apply VerifyCommit_reindex|].
  intros RandIntn ps ps1 v Hrand Hs Hpick.
  destruct (decide (commit_Precommits c = [])) as [E|Hne].
  { unfold PickVoteToSend in Hpick. cbn [rd_Size Commit_reader Commit_Size] in Hpick. by rewrite E in Hpick. }
  destruct (Commit_reads c Hne Hb Ha) as [b Hreads].
  destruct (PickVoteToSend_ok _ _ _ _ Hreads _ RandIntn Hrand ps Hs) as (ps2 & o & E & Hok & Ho).
  rewrite Hpick in E. injection E as <- <-.
  destruct (Ho v eq_refl) as (i & vote & a & k & -> & (_ & Eh & Er & Et & _) & Hget & Hk & _).
  unfold PickSendVote. rewrite (Pick_reindex (-64) _ _ _ _ _ Hb Hpick). cbn [mbind outcome_bind or_panic].
  unfold SetHasVote, setHasVote. cbn [with_index vote_Height vote_Round vote_Type vote_ValidatorIndex].
  rewrite Eh, Er, Et, Hget. unfold set_bit. cbn [deref mbind option_bind]. rewrite Hk. cbn [SetIndex]. unfold setIndex.
  destruct Hok as (tags & Hh & _). pose proof (Forall_lookup_1 _ _ _ _ (ho_wf _ _ _ Hh) Hk) as [Hw _].
  pose proof (wf_pos _ Hw). rewrite (proj2 (Z.leb_gt (Bits k) (-64))) by lia. done.
Qed.

(** ** A store that begins at a snapshot *)

(** A node whose store has no block at the peer's height, as after a snapshot, which sets the height of the store without the
    blocks below it. *)
Theorem missing_block_crashes_gossip {PV : Type} (RandIntn : Z → Z) (now : Z) (rs : ConsensusState (PV := PV)) :
  1 < cs_Height rs → HasHeader (cs_ProposalBlockParts rs) zeroHeader = false → LoadBlockMeta (cs_blockStore rs) 1 = None →
  let ps := ApplyNewRoundStepMessage now NewPeerState low_step in
  gossipData_decide RandIntn rs (GetRoundState ps) (ps_heap ps) = Panic.
Proof.
  intros Hh Hd Hm ps.
  assert (ps = mkPS [] (mkPRS 1 0 1 (start_time now 0) false zeroHeader None (-1) None None None (-1) None (-1) None) 0 0)
    as -> by reflexivity.
  cbn [GetRoundState ps_PRS ps_heap]. set (prs := mkPRS _ _ _ _ _ _ _ _ _ _ _ _ _ _ _).
  assert (gossipData_rest RandIntn rs prs [] = Panic) as Hrest.
  { unfold gossipData_rest, prs. cbn [prs_Height prs_ProposalBlockParts].
    rewrite (proj2 (Z.ltb_lt 1 (cs_Height rs)) Hh), Hm. reflexivity. }
  unfold gossipData_decide. destruct (cs_ProposalBlockParts rs) as [parts|]; [|exact Hrest].
  change (prs_ProposalBlockPartsHeader prs) with zeroHeader. rewrite Hd. exact Hrest.
Qed.

(** ** The array of a peer that is too short *)

(** A peer may send a POL bit array of any positive size. Votes past its end are sent again and again: nothing records
    that they were sent, and the vote routine does not sleep after it has sent one. *)
Theorem short_array_resends_forever {A : Type} `{VoteSetReader A} (votes : A) (h r : Z) (b : BitArray)
    (RandIntn : nat → Z → Z) (ps : PeerState) (c : bool) (a : nat) (k : BitArray) (n : nat) :
  reads votes h r b → (∀ j n, 0 < n → 0 ≤ RandIntn j n < n) → safe ps →
  rd_IsCommit votes = Ret c → settled (ps_PRS ps) h r c →
  getVoteBitArray (ps_PRS ps) h r (rd_Type votes) = Some a → ps_heap ps !! a = Some k →
  missing b k ≠ [] → (∀ i, i ∈ missing b k → Bits k ≤ i) →
  ∃ sent, send_votes RandIntn n ps votes = Ret (ps, sent) ∧ length sent = n.
Proof.
  intros Hreads Hrand Hok Hc Hs Ha Hk Hne Hshort. pose proof Hok as (tags & Hh & Hp).
  induction n as [|n IH]; [by exists []|].
  pose proof (pick_settled votes h r b Hreads _ (RandIntn n) (Hrand n) ps c tags Hc Hs Hh Hp) as Hpick.
  rewrite Ha in Hpick. destruct Hpick as (k0 & Hk0 & Hwk & Hpick). rewrite Hk in Hk0. injection Hk0 as <-.
  rewrite bool_decide_false in Hpick by done. destruct Hpick as (i & v & E & Hi & _ & Eh & Er & Et & Ei).
  assert (PickSendVote (RandIntn n) true ps votes = Ret (ps, Some v)) as Esend.
  { unfold PickSendVote. rewrite E. cbn [mbind outcome_bind or_panic]. unfold SetHasVote, setHasVote, set_bit.
    rewrite Eh, Er, Et, Ei, Ha. cbn [deref mbind option_bind]. rewrite Hk. cbn [SetIndex]. unfold setIndex.
    rewrite (proj2 (Z.leb_le (Bits k) i)) by auto. cbn. rewrite list_insert_id by done. by destruct ps. }
  cbn [send_votes]. rewrite Esend. cbn [mbind outcome_bind]. destruct IH as (sent & -> & Hl). cbn [mbind outcome_bind].
  exists (v :: sent). split; [done|]. cbn. by rewrite Hl.
Qed.

(** ** A part that counts as sent for another block *)

(** Between the decision to send part [index] of a block and the record of it, the peer may announce another block for the same
    height and round: the part is then recorded for that block, and is never sent to the peer. *)
Theorem part_recorded_for_other_block (ps : PeerState) (m : NewValidBlockMessage) (b : BitArray) (height round index : Z)
    (part : option Part) :
  nvb_BlockParts m = Some b → wf b → 0 ≤ index < Bits b → bit b index = false →
  nvb_Height m = prs_Height (ps_PRS ps) → nvb_Round m = prs_Round (ps_PRS ps) →
  ∃ ps' b', gossipData_act true (GetRoundState ps) (SendPart height round index part) (ApplyNewValidBlockMessage ps m) = Ret ps' ∧
    prs_ProposalBlockPartsHeader (ps_PRS ps') = nvb_BlockPartsHeader m ∧
    deref (ps_heap ps') (prs_ProposalBlockParts (ps_PRS ps')) = Some b' ∧ bit b' index = true.
Proof.
  intros Hb Hw Hi _ Hh Hr. unfold ApplyNewValidBlockMessage. rewrite Hh, Hr, !Z.eqb_refl, Hb. cbn [negb andb alloc].
  unfold gossipData_act, SetHasProposalBlockPart, GetRoundState. cbn [ps_PRS set_PRS with_parts prs_Height prs_Round].
  rewrite !Z.eqb_refl. cbn [negb orb prs_ProposalBlockParts]. unfold set_bit. cbn [ps_heap set_PRS deref mbind option_bind
    with_parts prs_ProposalBlockParts].
  rewrite lookup_app_r, Nat.sub_diag by lia. cbn [list_lookup lookup SetIndex].
  destruct (setIndex_spec b index true Hw Hi) as (b' & -> & _ & _ & Hbit). cbn [mbind outcome_bind store].
  eexists _, b'. split; [done|]. cbn [set_heap ps_PRS set_PRS with_parts prs_ProposalBlockPartsHeader prs_ProposalBlockParts
    ps_heap deref mbind option_bind]. split; [done|]. split.
  - apply list_lookup_insert_eq. rewrite length_app. cbn. lia.
  - by rewrite Hbit, Z.eqb_refl by lia.
Qed.

(** ** The precommits of the last height *)

(** When the peer moves to another height the precommits it was known to have are dropped, although the code says that they
    are shifted to LastCommit: the field they are copied from was cleared a few lines above. *)
Theorem last_commit_always_dropped (now : Z) (ps : PeerState) (m : NewRoundStepMessage) :
  prs_Height (ps_PRS ps) < nrs_Height m →
  prs_Height (ps_PRS (ApplyNewRoundStepMessage now ps m)) = nrs_Height m ∧
  prs_LastCommitRound (ps_PRS (ApplyNewRoundStepMessage now ps m)) = nrs_LastCommitRound m ∧
  prs_LastCommit (ps_PRS (ApplyNewRoundStepMessage now ps m)) = None.
Proof.
  intros Hlt. unfold ApplyNewRoundStepMessage, CompareHRS.
  rewrite (proj2 (Z.ltb_ge (nrs_Height m) (prs_Height (ps_PRS ps)))) by lia.
  rewrite (proj2 (Z.ltb_lt (prs_Height (ps_PRS ps)) (nrs_Height m))) by lia.
  rewrite (proj2 (Z.eqb_neq (prs_Height (ps_PRS ps)) (nrs_Height m))) by lia. cbn [Z.leb Z.compare negb orb andb].
  case_match; done.
Qed.

(** ** Witnesses *)

Section witnesses.
#[local] Existing Instance sample_codec.
#[local] Existing Instance sample_crypto.

(** A peer that is at height 5, round 0, and claims the prevote of validator 2. *)
Definition sample_ops : list ps_op :=
  [OpNewRoundStep 0 (mkNewRoundStep 5 0 4 0 0); OpEnsure 5 3; OpHasVote (mkHasVote 5 0 PrevoteType 2)].

Lemma sample_ops_ok : Forall op_ok sample_ops.
Proof. apply Forall_cons; split; [done|]. apply Forall_cons; split; [vm_compute; discriminate|]. constructor; [cbn; lia|done]. Qed.

Definition sample_peer : PeerState := match run_ops sample_ops NewPeerState with Ret ps => ps | Panic => NewPeerState end.

Lemma sample_peer_eq : run_ops sample_ops NewPeerState = Ret sample_peer.
Proof. vm_compute. reflexivity. Qed.


Definition first_choice (j : nat) (n : Z) : Z := 0.

Lemma first_choice_ok j n : 0 < n → 0 ≤ first_choice j n < n.
Proof. unfold first_choice. lia. Qed.

(** The precommits of validators 0 and 2. *)
Definition set_bits : BitArray := mkBitArray 3 [5].

Lemma majority_reads : reads (Some majority_set) 5 0 set_bits.
Proof.
  destruct (reachable_inv _ _ _ _ _ _ three_vals_wf ltac:(done) majority_set_reachable) as [Hi _].
  destruct (VoteSet_reads majority_set Hi) as [b Hb]; [vm_compute; reflexivity|vm_compute; discriminate|].
  pose proof (re_bits _ _ _ _ Hb) as E. vm_compute in E. injection E as <-. exact Hb.
Qed.

Definition settled_peer : PeerState :=
  match lazily_set sample_peer (Some majority_set) with Ret ps => ps | Panic => NewPeerState end.

Lemma votes_sent_once_witness :
  ∃ ps' sent, send_votes first_choice 4 sample_peer (Some majority_set) = Ret (ps', sent) ∧
    (vote_ValidatorIndex <$> sent) ≡ₚ [0; 2].
Proof.
  destruct (votes_sent_once (Some majority_set) 5 0 set_bits first_choice sample_ops sample_peer settled_peer 1%nat
              (mkBitArray 3 [0]) majority_reads first_choice_ok sample_ops_ok sample_peer_eq)
    as (ps' & k' & sent & E & Hperm & _); [vm_compute; reflexivity..|vm_compute; discriminate|].
  exists ps', sent. split; [exact E|exact Hperm].
Defined.

Definition new_height (h : Z) : ConsensusState (PV := unit) :=
  mkCS h 0 1 0 0 three_vals None None None (-1) None None (-1) None None
    (match NewHeightVoteSet [x63] h three_vals with Ret hvs => Some hvs | Panic => None end)
    (-1) None three_vals false round_config None empty_store None [] (mkRefs 0 0 0 0 0 0 1).

Lemma new_height_ok (Sum : bytes → bytes) : node_ok Sum (new_height 1).
Proof.
  destruct (new_hvs_inv [x63] 1 three_vals) as (hvs & E & Hi); [done|apply three_vals_wf|done|].
  split; unfold new_height; cbn [cs_Votes cs_LastCommit cs_ProposalBlockParts cs_Height cs_blockStore]; try done.
  - rewrite E. exists hvs. split; [done|]. split; [done|]. injection E as <-. vm_compute. discriminate.
  - intros k Hk. lia.
  - intros k Hk. cbn in Hk. lia.
Qed.

(** An array of three parts with its word. *)
Definition honest_parts : NewValidBlockMessage :=
  mkNewValidBlock 1 0 (mkPartSetHeader 3 []) (Some (mkBitArray 3 [0])) false.


Lemma empty_words_crash_gossip_witness :
  gossipData_decide (first_choice 0) (new_height 2) (GetRoundState (poisoned 0)) (ps_heap (poisoned 0)) = Panic.
Proof.
  apply (empty_words_crash_gossip (first_choice 0) 0 (new_height 2)); [cbn; lia|reflexivity].
Defined.

Definition sample_commit : Commit :=
  NewCommit (sample_block x01)
    [Some (sample_vote PrecommitType x01 0 x01); None; Some (sample_vote PrecommitType x01 2 x03)].

Lemma sample_commit_aligned : commit_aligned sample_commit.
Proof.
  split; [vm_compute; discriminate|]. intros i v. destruct i as [|[|[|i]]]; cbn; [| | |done]; intros E; try done; injection E as <-; repeat split.
Qed.

Lemma sample_peer_safe : safe sample_peer.
Proof. by apply (run_safe sample_ops); [apply sample_ops_ok|apply sample_peer_eq]. Qed.

Lemma misindexed_commit_crashes_gossip_witness :
  snd <$> VerifyCommit three_vals [x63] (sample_block x01) 5 (reindex (-64) sample_commit) = Ret None ∧
  PickSendVote (first_choice 0) true sample_peer (Some (reindex (-64) sample_commit)) = Panic.
Proof.
  destruct (misindexed_commit_crashes_gossip sample_commit eq_refl sample_commit_aligned) as (_ & HV & HP).
  split; [rewrite HV; vm_compute; reflexivity|]. eapply HP; [apply first_choice_ok|apply sample_peer_safe|vm_compute; reflexivity].
Defined.

End witnesses.
