(* ===== verification/Ticker.v ===== *)
(** * The timeout ticker (consensus/ticker.go)

    One timer serves all timeouts: the routine reads the timeouts to schedule from one channel, keeps the latest in [ti], and a
    goroutine sends the timeout on when the timer fires. A timer is stopped, running, or has put its tick into its
    channel. The duration plays no part in the order of events, so a running timer may expire at any time. *)

From Stdlib Require Import ZArith Lia Bool.
From stdpp Require Import base list sorting.
From S2P Require Import Prelude Consensus ConsensusProofs.
Local Open Scope Z_scope.

(** [time.Timer]: [Expired] has a value in its channel. *)
Inductive timer := Stopped | Running (duration : Z) | Expired.

Record timeoutTicker := mkTicker {
  tk_ti : timeoutInfo;              (* the variable of timeoutRoutine *)
  tk_timer : timer;
  tk_tickChan : list timeoutInfo;
  tk_sending : list timeoutInfo;    (* goroutines that wait to send *)
  tk_tockChan : list timeoutInfo
}.

Definition tickTockBufferSize : Z := 10.

Definition zeroTimeout : timeoutInfo := mkTimeoutInfo 0 0 0 0.

(** [stopTimer] stops the timer and drains its channel. *)
Definition stopTimer (t : timer) : timer := Stopped.

Definition NewTimeoutTicker : timeoutTicker := mkTicker zeroTimeout (stopTimer (Running 0)) [] [] [].

(** [None] while the channel is full. *)
Definition ScheduleTimeout (t : timeoutTicker) (ti : timeoutInfo) : option timeoutTicker :=
  if tickTockBufferSize <=? zlen (tk_tickChan t) then None
  else Some (mkTicker (tk_ti t) (tk_timer t) (tk_tickChan t ++ [ti]) (tk_sending t) (tk_tockChan t)).

(** The ticks that the routine skips. *)
Definition is_old (ti newti : timeoutInfo) : bool :=
  if ti_Height newti <? ti_Height ti then true
  else if ti_Height newti =? ti_Height ti then
    if ti_Round newti <? ti_Round ti then true
    else if ti_Round newti =? ti_Round ti then (0 <? ti_Step ti) && (ti_Step newti <=? ti_Step ti)
    else false
  else false.

(** [case newti := <-t.tickChan]. *)
Definition on_tick (t : timeoutTicker) : option timeoutTicker :=
  match tk_tickChan t with
  | [] => None
  | newti :: rest =>
      if is_old (tk_ti t) newti
      then Some (mkTicker (tk_ti t) (tk_timer t) rest (tk_sending t) (tk_tockChan t))
      else Some (mkTicker newti (Running (ti_Duration newti)) rest (tk_sending t) (tk_tockChan t))
  end.

(** [case <-t.timer.C]: a goroutine is started with the timeout. *)
Definition on_timer (t : timeoutTicker) : option timeoutTicker :=
  match tk_timer t with
  | Expired => Some (mkTicker (tk_ti t) Stopped (tk_tickChan t) (tk_sending t ++ [tk_ti t]) (tk_tockChan t))
  | _ => None
  end.

(** The clock puts the tick into the channel of a running timer. *)
Definition expire (t : timeoutTicker) : option timeoutTicker :=
  match tk_timer t with
  | Running _ => Some (mkTicker (tk_ti t) Expired (tk_tickChan t) (tk_sending t) (tk_tockChan t))
  | _ => None
  end.

(** The i-th goroutine sends. *)
Definition send_tock (t : timeoutTicker) (i : nat) : option timeoutTicker :=
  if tickTockBufferSize <=? zlen (tk_tockChan t) then None
  else
    toi ← tk_sending t !! i;
    Some (mkTicker (tk_ti t) (tk_timer t) (tk_tickChan t) (delete i (tk_sending t)) (tk_tockChan t ++ [toi])).

(** The consumer of [Chan()]. *)
Definition recv_tock (t : timeoutTicker) : option (timeoutInfo * timeoutTicker) :=
  match tk_tockChan t with
  | [] => None
  | toi :: rest => Some (toi, mkTicker (tk_ti t) (tk_timer t) (tk_tickChan t) (tk_sending t) rest)
  end.

(** ** Runs

    The timeouts scheduled, fired (in the order of the routine) and received so far. The state machine schedules timeouts
    for its steps, which are positive, at heights and rounds that are not negative. *)

Definition scheduled_ok (ti : timeoutInfo) : Prop := 0 ≤ ti_Height ti ∧ 0 ≤ ti_Round ti ∧ 0 < ti_Step ti.

Inductive ticks : list timeoutInfo → list timeoutInfo → list timeoutInfo → timeoutTicker → Prop :=
| ticks_new : ticks [] [] [] NewTimeoutTicker
| ticks_schedule S F R t ti t' :
    ticks S F R t → scheduled_ok ti → ScheduleTimeout t ti = Some t' → ticks (S ++ [ti]) F R t'
| ticks_tick S F R t t' : ticks S F R t → on_tick t = Some t' → ticks S F R t'
| ticks_expire S F R t t' : ticks S F R t → expire t = Some t' → ticks S F R t'
| ticks_fire S F R t t' : ticks S F R t → on_timer t = Some t' → ticks S (F ++ [tk_ti t]) R t'
| ticks_send S F R t i t' : ticks S F R t → send_tock t i = Some t' → ticks S F R t'
| ticks_recv S F R t toi t' : ticks S F R t → recv_tock t = Some (toi, t') → ticks S F (R ++ [toi]) t'.

Definition tpos (ti : timeoutInfo) : position := (ti_Height ti, ti_Round ti, ti_Step ti).

(** The order of timeouts. *)
Definition tlt (a b : timeoutInfo) : Prop := plt (tpos a) (tpos b).

(** The current timeout is waiting for its timer; otherwise the timer is stopped, and the timeout has fired. *)
Definition armed (t : timeoutTicker) : bool := match tk_timer t with Stopped => false | _ => true end.

Record ticker_inv (S F R : list timeoutInfo) (t : timeoutTicker) : Prop := {
  tv_ti : tk_ti t = zeroTimeout ∨ tk_ti t ∈ S ∧ scheduled_ok (tk_ti t);
  tv_chan ti : ti ∈ tk_tickChan t → ti ∈ S ∧ scheduled_ok ti;
  tv_fired ti : ti ∈ F → ti ∈ S;
  tv_sorted : StronglySorted tlt F;
  tv_last ti : ti ∈ F → tlt ti (tk_ti t) ∨ ti = tk_ti t;
  tv_armed : armed t = true → tk_ti t ∈ S ∧ scheduled_ok (tk_ti t) ∧ ∀ ti, ti ∈ F → tlt ti (tk_ti t);
  tv_stopped : armed t = false → tk_ti t = zeroTimeout ∨ tk_ti t ∈ F;
  tv_sent : R ++ tk_tockChan t ++ tk_sending t ≡ₚ F;
  (* a timeout that was read from the channel is not after the current one *)
  tv_seen ti : ti ∈ S → ti ∈ tk_tickChan t ∨ tlt ti (tk_ti t) ∨ tpos ti = tpos (tk_ti t);
  tv_ok ti : ti ∈ S → scheduled_ok ti
}.

(** A tick that is not skipped is later than everything before. *)
Lemma is_old_spec ti newti :
  scheduled_ok newti → ti = zeroTimeout ∨ scheduled_ok ti →
  if is_old ti newti then tlt newti ti ∨ tpos newti = tpos ti else tlt ti newti.
Proof.
  intros (H1 & H2 & H3) Hti. unfold is_old, tlt, plt, tpos. cbn.
  destruct (Z.ltb_spec (ti_Height newti) (ti_Height ti)); [lia|].
  destruct (Z.eqb_spec (ti_Height newti) (ti_Height ti)) as [Eh|]; [|lia].
  destruct (Z.ltb_spec (ti_Round newti) (ti_Round ti)); [lia|].
  destruct (Z.eqb_spec (ti_Round newti) (ti_Round ti)) as [Er|]; [|lia].
  destruct (Z.ltb_spec 0 (ti_Step ti)); cbn [andb].
  - destruct (Z.leb_spec (ti_Step newti) (ti_Step ti)); [|lia].
    destruct (decide (ti_Step newti = ti_Step ti)) as [Es|]; [right; congruence|lia].
  - lia.
Qed.

Lemma tlt_trans a b c : tlt a b → tlt b c → tlt a c.
Proof. apply plt_trans. Qed.

Lemma sorted_snoc (F : list timeoutInfo) ti :
  StronglySorted tlt F → (∀ x, x ∈ F → tlt x ti) → StronglySorted tlt (F ++ [ti]).
Proof.
  induction 1 as [|x F HF IH Hall]; intros Hx; cbn; [by repeat constructor|].
  constructor; [apply IH; intros y Hy; apply Hx; by right|].
  apply Forall_app. split; [done|]. constructor; [|done]. apply Hx. by left.
Qed.

Lemma ticks_inv S F R t : ticks S F R t → ticker_inv S F R t.
Proof.
  induction 1 as [|S F R t ti t' _ IH Hti E|S F R t t' _ IH E|S F R t t' _ IH E|S F R t t' _ IH E|S F R t i t' _ IH E
                 |S F R t toi t' _ IH E].
  - split; cbn; auto; try done; try (by intros ? ?%elem_of_nil). constructor.
  - destruct IH as [I1 I2 I3 I4 I5 I6 I7 I8 I9 I10]. unfold ScheduleTimeout in E. case_match; [done|]. injection E as <-.
    split; cbn; auto.
    + destruct I1 as [?|[? ?]]; [by left|]. right. split; [|done]. apply elem_of_app. by left.
    + intros x [Hx|Hx]%elem_of_app; rewrite elem_of_app; [destruct (I2 x Hx); auto|].
      apply list_elem_of_singleton in Hx as ->. split; [right; by apply list_elem_of_singleton|done].
    + intros x Hx. apply elem_of_app. auto.
    + intros Ha. destruct (I6 Ha) as (? & ? & ?). split; [apply elem_of_app; by left|done].
    + intros x [Hx|Hx]%elem_of_app; rewrite elem_of_app; [destruct (I9 x Hx) as [?|?]; auto|]. left. by right.
    + intros x [Hx|Hx]%elem_of_app; [auto|]. by apply list_elem_of_singleton in Hx as ->.
  - destruct IH as [I1 I2 I3 I4 I5 I6 I7 I8 I9 I10]. unfold on_tick in E.
    destruct (tk_tickChan t) as [|newti rest] eqn:Ec; [done|].
    destruct (I2 newti (list_elem_of_here _ _)) as [HS Hok].
    pose proof (is_old_spec (tk_ti t) newti Hok) as Hold.
    destruct (is_old (tk_ti t) newti).
    + injection E as <-. split; cbn; auto.
      * intros x Hx. apply I2. by right.
      * intros x Hx. destruct (I9 x Hx) as [Hc|?]; [|auto]. apply elem_of_cons in Hc as [->|?]; [|auto].
        right. apply Hold. destruct I1 as [?|[_ ?]]; auto.
    + injection E as <-. assert (tlt (tk_ti t) newti) as Hlt by (apply Hold; destruct I1 as [?|[_ ?]]; auto).
      assert (∀ x, x ∈ F → tlt x newti) as Hf.
      { intros x Hx. destruct (I5 x Hx) as [?| ->]; [by eapply tlt_trans|done]. }
      split; cbn; auto; try done.
      * intros x Hx. apply I2. by right.
      * intros x Hx. destruct (I9 x Hx) as [Hc|[?|Ep]].
        -- apply elem_of_cons in Hc as [->|?]; auto.
        -- right. left. by eapply tlt_trans.
        -- right. left. unfold tlt in *. by rewrite Ep.
  - destruct IH as [I1 I2 I3 I4 I5 I6 I7 I8 I9 I10]. unfold expire in E. destruct (tk_timer t) eqn:Et; try done.
    injection E as <-. unfold armed in *. rewrite Et in *. split; cbn; auto.
  - destruct IH as [I1 I2 I3 I4 I5 I6 I7 I8 I9 I10]. unfold on_timer in E. destruct (tk_timer t) eqn:Et; try done.
    injection E as <-. unfold armed in *. rewrite Et in *. destruct (I6 eq_refl) as (HS & Hok & Hlt).
    split; cbn; auto; try done.
    + intros x [Hx|Hx]%elem_of_app; [auto|]. by apply list_elem_of_singleton in Hx as ->.
    + by apply sorted_snoc.
    + intros x [Hx|Hx]%elem_of_app; [auto|]. apply list_elem_of_singleton in Hx. by right.
    + intros _. right. apply elem_of_app. right. by apply list_elem_of_singleton.
    + rewrite !app_assoc. rewrite app_assoc in I8. by rewrite I8.
  - destruct IH as [I1 I2 I3 I4 I5 I6 I7 I8 I9 I10]. unfold send_tock in E. case_match; [done|].
    destruct (tk_sending t !! i) as [toi|] eqn:Ei; [|done]. injection E as <-. split; cbn; auto.
    rewrite <-I8, <-(app_assoc (tk_tockChan t)). do 2 f_equiv. symmetry. by apply delete_Permutation.
  - destruct IH as [I1 I2 I3 I4 I5 I6 I7 I8 I9 I10]. unfold recv_tock in E. destruct (tk_tockChan t) as [|x rest] eqn:Ec; [done|].
    injection E as <- <-. split; cbn; auto. by rewrite <-app_assoc.
Qed.

(** C13. The ticker keeps the latest timeout and no other. In every run of its routine, its timer, the goroutines it starts and their
    consumer: the timeouts fire in strictly increasing order of height, round and step, so each fires at most once
    and none fires after a later one has replaced it; only scheduled timeouts fire; what the consumer has received, with what is under
    way, is what has fired; and no timeout is lost: every timeout scheduled and read was replaced by a later one, or its step has
    fired, or the timer is still set for it. *)
Theorem ticker_fires_latest (S F R : list timeoutInfo) (t : timeoutTicker) :
  ticks S F R t →
  StronglySorted tlt F ∧ (∀ ti, ti ∈ F → ti ∈ S) ∧ R ++ tk_tockChan t ++ tk_sending t ≡ₚ F ∧
  (∀ ti, ti ∈ S → ti ∈ tk_tickChan t ∨ tlt ti (tk_ti t) ∨
     tpos ti = tpos (tk_ti t) ∧ (armed t = true ∨ tk_ti t ∈ F)).
Proof.
  intros [I1 I2 I3 I4 I5 I6 I7 I8 I9 I10]%ticks_inv. split; [done|]. split; [done|]. split; [done|].
  intros ti Hti. destruct (I9 ti Hti) as [?|[?|?]]; [auto|auto|]. right. right. split; [done|].
  destruct (armed t); [by left|right]. destruct (I7 eq_refl) as [Ez|?]; [|done].
  destruct (I10 ti Hti) as (_ & _ & Hs). match goal with E : tpos ti = _ |- _ => rewrite Ez in E; injection E end.
  cbn. lia.
Qed.

(** Two timeouts are scheduled, the second replaces the first and fires. *)
Definition first_timeout : timeoutInfo := mkTimeoutInfo 1000 1 0 1.
Definition second_timeout : timeoutInfo := mkTimeoutInfo 3000 1 0 3.

Definition after_second : timeoutTicker := mkTicker second_timeout Stopped [] [] [].

Lemma sample_ticks : ticks [first_timeout; second_timeout] [second_timeout] [second_timeout] after_second.
Proof.
  pose proof ticks_new as T.
  eapply (ticks_schedule [] [] [] _ first_timeout) in T; [|unfold scheduled_ok; cbn; lia|reflexivity].
  eapply (ticks_schedule _ _ _ _ second_timeout) in T; [|unfold scheduled_ok; cbn; lia|reflexivity].
  eapply ticks_tick in T; [|reflexivity]. eapply ticks_tick in T; [|reflexivity].
  eapply ticks_expire in T; [|reflexivity]. eapply ticks_fire in T; [|reflexivity].
  eapply (ticks_send _ _ _ _ 0%nat) in T; [|reflexivity]. eapply ticks_recv in T; [|reflexivity]. exact T.
Qed.

Lemma ticker_fires_latest_witness :
  StronglySorted tlt [second_timeout] ∧
  ∀ ti, ti ∈ [first_timeout; second_timeout] → ti ∈ tk_tickChan after_second ∨ tlt ti second_timeout ∨
    tpos ti = tpos second_timeout ∧ (armed after_second = true ∨ second_timeout ∈ [second_timeout]).
Proof.
  destruct (ticker_fires_latest _ _ _ _ sample_ticks) as (HS & _ & _ & HL). split; [exact HS|exact HL].
Defined.
