(* ===== verification/WAL.v ===== *)
(** * The write-ahead log and its replay (consensus/wal.go, consensus/replay.go, libs/autofile/group.go)

    The state machine logs each message before it handles it, and a mark at the end of each height; after a crash it replays what
    follows the last mark. A record is a checksum, a length and the amino encoding of the message.

    The files of the group are byte strings, oldest first. A reader of the group is the list of the bytes from the beginning of a
    file to the end of the last one: [Read] continues with the next file where one ends. While the state machine replays, it writes
    to the same group (its steps and the end of the height); the group has a buffer, so any beginning of these bytes may be in
    the files when the reader gets there. Amino is a parameter; the checksum of hash/crc32 is written out. *)

From Stdlib Require Import ZArith Lia Bool Strings.Byte.
From stdpp Require Import base list sorting countable gmap.
From S2P Require Import Prelude Merkle Types PartSet Block StateStore BlockStore Consensus.
Local Open Scope Z_scope.

(** ** Messages *)

Inductive WALMessage :=
| EventDataRoundState (height round : Z) (step : bytes)
| MsgInfo (msg : ConsensusMessage) (peerID : bytes)
| TimeoutInfo (ti : timeoutInfo)
| EndHeightMessage (height : Z).

Record TimedWALMessage := mkTimed { tw_Time : Z; tw_Msg : WALMessage }.

Class WALCodec := {
  marshalWAL : TimedWALMessage → bytes;
  unmarshalWAL : bytes → option TimedWALMessage
}.

Class WALCodecLaws `{WALCodec} : Prop := {
  unmarshal_marshal : ∀ m, unmarshalWAL (marshalWAL m) = Some m;
  marshal_nonempty : ∀ m, marshalWAL m ≠ []
}.

(** ** hash/crc32 with the Castagnoli polynomial, bit by bit *)

Definition castagnoli : Z := 0x82f63b78.

Definition crc_bit (c : Z) : Z :=
  if Z.testbit c 0 then Z.lxor (Z.shiftr c 1) castagnoli else Z.shiftr c 1.

Definition crc_byte (c : Z) (b : byte) : Z := Nat.iter 8 crc_bit (Z.lxor c (byte_Z b)).

Definition Checksum (data : bytes) : Z := Z.lxor (foldl crc_byte 0xffffffff data) 0xffffffff.

(** [binary.BigEndian.PutUint32] and [Uint32]. *)
Definition be32 (n : Z) : bytes :=
  [byte_of_Z (Z.shiftr n 24); byte_of_Z (Z.shiftr n 16); byte_of_Z (Z.shiftr n 8); byte_of_Z n].

Definition uint32 (b : bytes) : Z := foldl (λ acc x, acc * 256 + byte_Z x) 0 b.

(** ** Writing *)

Definition maxMsgSizeBytes : Z := 1048576.

Section wal.
Context `{WALCodec}.

(** [None] when the message is too big, on which [Write] panics. *)
Definition Encode (v : TimedWALMessage) : option bytes :=
  let data := marshalWAL v in
  let crc := Checksum data in
  let length := zlen data mod 2 ^ 32 in
  if maxMsgSizeBytes <? length then None
  else Some (be32 crc ++ be32 length ++ go_copy (replicate (Z.to_nat length) x00) data).

(** The group: its files, oldest first; the last is the head. *)
Definition Write (now : Z) (files : list bytes) (msg : WALMessage) : outcome (list bytes) :=
  enc ← or_panic (Encode (mkTimed now msg));
  match last files with
  | None => Ret [enc]
  | Some head => Ret (removelast files ++ [head ++ enc])
  end.

(** [Group.RotateFile]: the head is closed, a new one begins. *)
Definition RotateFile (files : list bytes) : list bytes := files ++ [[]].

(** A new log begins with the mark of height 0. *)
Definition wal_OnStart (now : Z) (files : list bytes) : outcome (list bytes) :=
  if zlen (default [] (last files)) =? 0 then Write now files (EndHeightMessage 0) else Ret files.

(** ** Reading *)

(** [GroupReader.Read] into a slice of [n] bytes: what was read, what remains, and whether the end was met before
    the slice was full. An empty slice is an error. *)
Inductive read_result := ReadOk (data rest : bytes) | ReadEOF | ReadEmptySlice.

Definition Read (n : nat) (rd : bytes) : read_result :=
  if (n =? 0)%nat then ReadEmptySlice
  else if (length rd <? n)%nat then ReadEOF
  else ReadOk (take n rd) (drop n rd).

Inductive corruption :=
| FailedToReadLength | LengthTooBig | FailedToReadData | ChecksumMismatch | FailedToDecode.

Inductive decoded :=
| DecMsg (m : TimedWALMessage)
| DecEOF
| DecCorrupt (cause : corruption).

(** Returns what remains to be read; a read that meets the end has consumed everything. *)
Definition Decode (rd : bytes) : decoded * bytes :=
  match Read 4 rd with
  | ReadOk b rd =>
      let crc := uint32 b in
      match Read 4 rd with
      | ReadOk b rd =>
          let length := uint32 b in
          if maxMsgSizeBytes <? length then (DecCorrupt LengthTooBig, rd)
          else
            match Read (Z.to_nat length) rd with
            | ReadOk data rd =>
                if negb (Checksum data =? crc) then (DecCorrupt ChecksumMismatch, rd)
                else match unmarshalWAL data with
                     | Some m => (DecMsg m, rd)
                     | None => (DecCorrupt FailedToDecode, rd)
                     end
            | ReadEOF => (DecCorrupt FailedToReadData, [])
            | ReadEmptySlice => (DecCorrupt FailedToReadData, rd)
            end
      | _ => (DecCorrupt FailedToReadLength, [])
      end
  | _ => (DecEOF, [])
  end.

(** *** SearchForEndHeight *)

Inductive search_result := Found (rd : bytes) | NotFound | SearchCorrupt (cause : corruption).

(** The inner loop on one reader: found, or the last height seen when the end is met. *)
Inductive file_result := FileFound (rd : bytes) | FileEOF (lastHeightFound : Z) | FileCorrupt (cause : corruption).

Fixpoint search_file (fuel : nat) (ignoreCorruption : bool) (height : Z) (lastHeightFound : Z) (rd : bytes) :
    option file_result :=
  match fuel with
  | O => None
  | S fuel =>
      match Decode rd with
      | (DecEOF, _) => Some (FileEOF lastHeightFound)
      | (DecCorrupt c, rd) =>
          if ignoreCorruption then search_file fuel ignoreCorruption height lastHeightFound rd else Some (FileCorrupt c)
      | (DecMsg m, rd) =>
          match tw_Msg m with
          | EndHeightMessage h =>
              if h =? height then Some (FileFound rd) else search_file fuel ignoreCorruption height h rd
          | _ => search_file fuel ignoreCorruption height lastHeightFound rd
          end
      end
  end.

(** Each [Decode] consumes a byte or meets the end, so a reader of [n] bytes needs [n + 2] iterations at most, one of them for
    data that is corrupt and one for the end. *)
Definition search_one (ignoreCorruption : bool) (height lastHeightFound : Z) (rd : bytes) : option file_result :=
  search_file (S (S (length rd))) ignoreCorruption height lastHeightFound rd.

(** The loop over the files, from the last to the first; [n] files are left. *)
Fixpoint search_loop (ignoreCorruption : bool) (height lastHeightFound : Z) (files : list bytes) (n : nat) :
    option search_result :=
  match n with
  | O => Some NotFound
  | S n =>
      r ← search_one ignoreCorruption height lastHeightFound (mjoin (drop n files));
      match r with
      | FileFound rd => Some (Found rd)
      | FileCorrupt c => Some (SearchCorrupt c)
      | FileEOF lastHeightFound =>
          if (0 <? lastHeightFound) && (lastHeightFound <? height) then Some NotFound
          else search_loop ignoreCorruption height lastHeightFound files n
      end
  end.

Definition SearchForEndHeight (ignoreCorruption : bool) (height : Z) (files : list bytes) : option search_result :=
  search_loop ignoreCorruption height (-1) files (length files).

(** ** Replay *)

Section replay.
Context (Sum : bytes → bytes) `{Codec} `{Crypto} `{BlockCodec} {PV : Type} `{PrivValidator PV}.

Notation CS := (ConsensusState (PV := PV)).

Inductive replay_error :=
| ErrEndHeightExists
| ErrNoEndHeight
| ErrReplayCorrupt (cause : corruption).

(** [readReplayMessage] without a subscription: the playback checks of steps are skipped. *)
Definition readReplayMessage (o : Oracle) (cs : CS) (msg : TimedWALMessage) : outcome CS :=
  match tw_Msg msg with
  | EndHeightMessage _ => Ret cs
  | EventDataRoundState _ _ _ => Ret cs
  | MsgInfo m peerID => handleMsg Sum o cs m peerID
  | TimeoutInfo ti => handleTimeout Sum o cs ti
  end.

(** The loop of [catchupReplay]; [o k] are the answers of the environment to the [k]-th message. The first element of [grow] is
    what reached the end of the last file since the previous message was read, the second what will before the
    next one, and so on. *)
Fixpoint replay_loop (fuel : nat) (o : nat → Oracle) (k : nat) (grow : list bytes) (cs : CS) (rd : bytes) :
    outcome (CS * option replay_error) :=
  match fuel with
  | O => Panic
  | S fuel =>
      match Decode (rd ++ default [] (head grow)) with
      | (DecEOF, _) => Ret (cs, None)
      | (DecCorrupt c, _) => Ret (cs, Some (ErrReplayCorrupt c))
      | (DecMsg m, rd) => cs ← readReplayMessage (o k) cs m; replay_loop fuel o (S k) (drop 1 grow) cs rd
      end
  end.

(** A search that runs out of fuel is a panic here; it does not ([search_one] has enough). The loop reads a byte at least in each
    iteration but the last, so one iteration more than there are bytes is enough. *)
Definition catchupReplay (o : nat → Oracle) (grow : list bytes) (cs : CS) (csHeight : Z) (files : list bytes) :
    outcome (CS * option replay_error) :=
  r ← or_panic (SearchForEndHeight true csHeight files);
  match r with
  | SearchCorrupt c => Ret (cs, Some (ErrReplayCorrupt c))
  | Found _ => Ret (cs, Some ErrEndHeightExists)
  | NotFound =>
      r ← or_panic (SearchForEndHeight true (csHeight - 1) files);
      match r with
      | SearchCorrupt c => Ret (cs, Some (ErrReplayCorrupt c))
      | NotFound => Ret (cs, Some ErrNoEndHeight)
      | Found rd => replay_loop (S (length rd + length (mjoin grow))) o 0 grow cs rd
      end
  end.

(** [OnStart]: whether the node starts. A corrupt log stops it, any other error is only logged. *)
Definition start_after_replay (err : option replay_error) : bool :=
  match err with Some (ErrReplayCorrupt _) => false | _ => true end.

End replay.
End wal.

(** ** Bytes *)

Lemma uint32_be32 n : 0 ≤ n < 2 ^ 32 → uint32 (be32 n) = n.
Proof.
  intros Hn. unfold uint32, be32. cbn [foldl]. rewrite !byte_Z_mod, !Z.shiftr_div_pow2 by lia.
  change (2 ^ 24) with 16777216. change (2 ^ 16) with 65536. change (2 ^ 8) with 256. change (2 ^ 32) with 4294967296 in Hn.
  rewrite (Z.mod_small (n / 16777216) 256) by (split; [apply Z.div_pos; lia|apply Z.div_lt_upper_bound; lia]).
  assert (n / 65536 = n / 256 / 256) as -> by (by rewrite Z.div_div).
  assert (n / 16777216 = n / 256 / 256 / 256) as -> by (by rewrite !Z.div_div).
  pose proof (Z.div_mod n 256 ltac:(lia)). pose proof (Z.div_mod (n / 256) 256 ltac:(lia)).
  pose proof (Z.div_mod (n / 256 / 256) 256 ltac:(lia)). lia.
Qed.

(** A checksum has 32 bits. *)
Definition is32 (c : Z) : Prop := 0 ≤ c < 2 ^ 32.

Lemma is32_lxor a b : is32 a → is32 b → is32 (Z.lxor a b).
Proof.
  intros [Ha1 Ha2] [Hb1 Hb2]. assert (0 ≤ Z.lxor a b) as Hx by (apply Z.lxor_nonneg; lia). split; [done|].
  destruct (decide (Z.lxor a b = 0)) as [->|Hne]; [lia|].
  apply Z.log2_lt_pow2; [lia|]. eapply Z.le_lt_trans; [by apply Z.log2_lxor|].
  apply Z.max_lub_lt.
  - destruct (decide (a = 0)) as [->|]; [done|]. apply Z.log2_lt_pow2; lia.
  - destruct (decide (b = 0)) as [->|]; [done|]. apply Z.log2_lt_pow2; lia.
Qed.

Lemma is32_crc_bit c : is32 c → is32 (crc_bit c).
Proof.
  intros [H1 H2].
  assert (is32 (Z.shiftr c 1)) as Hs.
  { rewrite Z.shiftr_div_pow2 by lia. change (2 ^ 1) with 2. split; [apply Z.div_pos; lia|].
    apply Z.div_lt_upper_bound; lia. }
  unfold crc_bit. case_match; [|done]. apply is32_lxor; [done|]. unfold is32, castagnoli. lia.
Qed.

Lemma is32_crc_byte c b : is32 c → is32 (crc_byte c b).
Proof.
  intros Hc. unfold crc_byte.
  assert (is32 (Z.lxor c (byte_Z b))) as Hx.
  { apply is32_lxor; [done|]. pose proof (byte_Z_bounds b). unfold is32. lia. }
  generalize dependent (Z.lxor c (byte_Z b)). intros x Hx.
  cbn [Nat.iter nat_rect]. by repeat apply is32_crc_bit.
Qed.

Lemma Checksum_range data : is32 (Checksum data).
Proof.
  unfold Checksum. apply is32_lxor; [|unfold is32; lia].
  assert (∀ c, is32 c → is32 (foldl crc_byte c data)) as Hf.
  { induction data as [|b l IH]; intros c Hc; cbn [foldl]; [done|]. by apply IH, is32_crc_byte. }
  apply Hf. unfold is32. lia.
Qed.

(** The check value of the CRC catalogue: the checksum of "123456789". *)
Example Checksum_check : Checksum [x31; x32; x33; x34; x35; x36; x37; x38; x39] = 0xe3069283.
Proof. vm_compute. reflexivity. Qed.

(** ** Records *)

Section records.
Context `{WALCodecLaws}.

(** The message is not too big to be logged. *)
Definition fits (m : TimedWALMessage) : Prop := zlen (marshalWAL m) ≤ maxMsgSizeBytes.

Definition record (m : TimedWALMessage) : bytes :=
  be32 (Checksum (marshalWAL m)) ++ be32 (zlen (marshalWAL m)) ++ marshalWAL m.

Definition enc (ms : list TimedWALMessage) : bytes := mjoin (record <$> ms).

Lemma Encode_record m : fits m → Encode m = Some (record m).
Proof.
  unfold fits, Encode, record, maxMsgSizeBytes. intros Hf. pose proof (zlen_nonneg (marshalWAL m)).
  rewrite Z.mod_small by lia. rewrite (proj2 (Z.ltb_ge _ _)) by lia.
  rewrite go_copy_same_length; [done|]. rewrite length_replicate. unfold zlen. lia.
Qed.

Lemma length_record m : length (record m) = (8 + length (marshalWAL m))%nat.
Proof. unfold record. rewrite !length_app. done. Qed.

Lemma enc_cons m ms : enc (m :: ms) = record m ++ enc ms.
Proof. done. Qed.

Lemma enc_app ms ms' : enc (ms ++ ms') = enc ms ++ enc ms'.
Proof. induction ms as [|m ms IH]; [done|]. cbn [app]. by rewrite !enc_cons, IH, app_assoc. Qed.

Lemma length_enc ms : (length ms ≤ length (enc ms))%nat.
Proof. induction ms as [|m ms IH]; [done|]. rewrite enc_cons, length_app, length_record. cbn. lia. Qed.

Lemma Read_app a b : a ≠ [] → Read (length a) (a ++ b) = ReadOk a b.
Proof.
  intros Ha. unfold Read. rewrite length_app.
  rewrite (proj2 (Nat.eqb_neq _ _)) by (destruct a; [done|simpl; lia]).
  rewrite (proj2 (Nat.ltb_ge _ _)) by lia. by rewrite take_app_length, drop_app_length.
Qed.

Lemma Read_short n rd : (0 < n)%nat → (length rd < n)%nat → Read n rd = ReadEOF.
Proof.
  intros Hn Hl. unfold Read. rewrite (proj2 (Nat.eqb_neq _ _)) by lia. by rewrite (proj2 (Nat.ltb_lt _ _)).
Qed.

(** A record that was written is read back, whatever follows it. *)
Lemma Decode_record m rest : fits m → Decode (record m ++ rest) = (DecMsg m, rest).
Proof.
  intros Hf. pose proof (zlen_nonneg (marshalWAL m)). unfold fits, maxMsgSizeBytes in Hf.
  unfold Decode, record. rewrite <-!app_assoc.
  rewrite (Read_app (be32 (Checksum (marshalWAL m)))) by done.
  rewrite (Read_app (be32 (zlen (marshalWAL m)))) by done.
  rewrite (uint32_be32 (zlen _)) by lia. unfold maxMsgSizeBytes. rewrite (proj2 (Z.ltb_ge _ _)) by lia.
  assert (Z.to_nat (zlen (marshalWAL m)) = length (marshalWAL m)) as -> by (unfold zlen; lia).
  rewrite Read_app by apply marshal_nonempty.
  rewrite uint32_be32 by apply Checksum_range. rewrite Z.eqb_refl. cbn [negb]. by rewrite unmarshal_marshal.
Qed.

(** What a torn record, cut short by a crash, reads as: the end of the log when less than the checksum was written. *)
Lemma Decode_torn m torn :
  fits m → torn `prefix_of` record m → torn ≠ record m →
  ∃ c, Decode torn = (if (length torn <? 4)%nat then DecEOF else DecCorrupt c, []).
Proof.
  intros Hf [tail E] Hne. unfold fits, maxMsgSizeBytes in Hf. pose proof (zlen_nonneg (marshalWAL m)).
  assert (length torn < length (record m))%nat as Hlen.
  { rewrite E, length_app. destruct tail; [by rewrite app_nil_r in E|]. cbn. lia. }
  rewrite length_record in Hlen. unfold Decode.
  destruct (Nat.ltb_spec (length torn) 4) as [H4|H4]; [exists FailedToReadLength; by rewrite Read_short by lia|].
  assert (∃ t1, torn = be32 (Checksum (marshalWAL m)) ++ t1) as [t1 ->].
  { exists (drop 4 torn). assert (be32 (Checksum (marshalWAL m)) = take 4 torn) as ->; [|by rewrite take_drop].
    apply (f_equal (take 4)) in E. rewrite take_app_le in E by lia. rewrite <-E. done. }
  rewrite (Read_app (be32 _)) by done. unfold record in E. rewrite <-app_assoc in E. apply app_inv_head in E.
  rewrite length_app in Hlen. cbn [length be32] in Hlen.
  destruct (decide (length t1 < 4)%nat) as [H8|H8].
  { exists FailedToReadLength. by rewrite Read_short by lia. }
  assert (∃ t2, t1 = be32 (zlen (marshalWAL m)) ++ t2) as [t2 ->].
  { exists (drop 4 t1). assert (be32 (zlen (marshalWAL m)) = take 4 t1) as ->; [|by rewrite take_drop].
    apply (f_equal (take 4)) in E. rewrite (take_app_le t1) in E by lia. rewrite <-E. done. }
  rewrite length_app in Hlen. cbn [length be32] in Hlen.
  rewrite (Read_app (be32 _)) by done. rewrite uint32_be32 by lia. unfold maxMsgSizeBytes. rewrite (proj2 (Z.ltb_ge _ _)) by lia.
  exists FailedToReadData. rewrite Read_short by (unfold zlen in *; lia). done.
Qed.

(** The end of a log: nothing, or a torn record. *)
Definition torn_end (torn : bytes) : Prop :=
  torn = [] ∨ ∃ m, fits m ∧ torn `prefix_of` record m ∧ torn ≠ record m.

Lemma Decode_end torn :
  torn_end torn → ∃ c, Decode torn = (if (length torn <? 4)%nat then DecEOF else DecCorrupt c, []).
Proof.
  intros [->|(m & Hf & Hp & Hne)]; [by exists FailedToReadLength|]. by apply (Decode_torn m).
Qed.

(** Reading a log to its end. *)
Fixpoint decode_all (fuel : nat) (rd : bytes) : list TimedWALMessage * decoded :=
  match fuel with
  | O => ([], DecEOF)
  | S fuel =>
      match Decode rd with
      | (DecMsg m, rd) => let '(ms, e) := decode_all fuel rd in (m :: ms, e)
      | (e, _) => ([], e)
      end
  end.

Lemma decode_all_enc fuel ms torn :
  Forall fits ms → torn_end torn → (length ms < fuel)%nat →
  ∃ c, decode_all fuel (enc ms ++ torn) = (ms, if (length torn <? 4)%nat then DecEOF else DecCorrupt c).
Proof.
  intros Hf Ht. revert fuel. induction Hf as [|m ms Hm _ IH]; intros [|fuel] Hl; cbn in Hl; try lia; cbn [decode_all].
  - destruct (Decode_end torn Ht) as [c E]. exists c. cbn [enc]. change (enc [] ++ torn) with torn. rewrite E.
    by destruct (length torn <? 4)%nat.
  - rewrite enc_cons, <-app_assoc, Decode_record by done.
    destruct (IH fuel ltac:(lia)) as [c ->]. by exists c.
Qed.

(** A prefix of a log is its first records and the beginning of the next. *)
Lemma prefix_records ms p :
  Forall fits ms → p `prefix_of` enc ms →
  ∃ k torn, p = enc (take k ms) ++ torn ∧ torn_end torn ∧
    (k < length ms → ∃ m, ms !! k = Some m ∧ torn `prefix_of` record m ∧ torn ≠ record m)%nat.
Proof.
  intros Hf. revert p. induction Hf as [|m ms Hm Hms IH]; intros p Hp.
  { apply prefix_nil_inv in Hp as ->. exists 0%nat, []. split; [done|]. split; [by left|]. cbn. lia. }
  rewrite enc_cons in Hp. destruct (decide (length p < length (record m))%nat) as [Hlt|Hge].
  - exists 0%nat, p. assert (p `prefix_of` record m ∧ p ≠ record m) as Hpm.
    { split; [|by intros ->; lia]. destruct Hp as [tail E].
      apply (f_equal (take (length (record m)))) in E. rewrite take_app_length, take_app_ge in E by lia.
      eexists. exact E. }
    split; [done|]. split; [right; by exists m|]. intros _. by exists m.
  - assert (∃ p', p = record m ++ p') as [p' ->].
    { destruct Hp as [tail E]. exists (drop (length (record m)) p).
      apply (f_equal (take (length (record m)))) in E. rewrite take_app_length, take_app_le in E by lia.
      rewrite E at 1. by rewrite take_drop. }
    apply prefix_app_inv in Hp. destruct (IH p' Hp) as (k & torn & -> & Ht & Hk).
    exists (S k), torn. cbn [take]. rewrite enc_cons, <-app_assoc. split; [done|]. split; [done|].
    cbn. intros Hl. apply Hk. lia.
Qed.

(** C27. A crash loses at most the last record. Cut the log of any messages at any byte: the decoder returns exactly the messages whose
    records are complete, in order and without inventing one, and then reports the end of the log or corrupt data; it is the end if
    and only if less than a checksum of the next record was written. *)
Theorem log_survives_crash (ms : list TimedWALMessage) (p : bytes) :
  Forall fits ms → p `prefix_of` enc ms →
  ∃ k torn c, p = enc (take k ms) ++ torn ∧
    (k < length ms → ∃ m, ms !! k = Some m ∧ torn `prefix_of` record m ∧ torn ≠ record m)%nat ∧
    decode_all (S (length p)) p = (take k ms, if (length torn <? 4)%nat then DecEOF else DecCorrupt c).
Proof.
  intros Hf Hp. destruct (prefix_records ms p Hf Hp) as (k & torn & -> & Ht & Hk).
  destruct (decode_all_enc (S (length (enc (take k ms) ++ torn))) (take k ms) torn) as [c E]; [by apply Forall_take|done| |].
  - rewrite length_app. pose proof (length_enc (take k ms)). lia.
  - by exists k, torn, c.
Qed.

(** ** Searching *)

Definition mark (m : TimedWALMessage) : option Z :=
  match tw_Msg m with EndHeightMessage h => Some h | _ => None end.

Definition marks (ms : list TimedWALMessage) : list Z := omap mark ms.

(** The messages after the first mark of a height. *)
Fixpoint after_mark (h : Z) (ms : list TimedWALMessage) : option (list TimedWALMessage) :=
  match ms with
  | [] => None
  | m :: ms => if decide (mark m = Some h) then Some ms else after_mark h ms
  end.

Lemma after_mark_None h ms : after_mark h ms = None ↔ h ∉ marks ms.
Proof.
  induction ms as [|m ms IH]; cbn [after_mark marks omap list_omap]; [split; [intros _; apply not_elem_of_nil|done]|].
  unfold marks in IH. case_decide as E.
  - rewrite E. split; [done|]. rewrite elem_of_cons. tauto.
  - rewrite IH. destruct (mark m) as [h'|]; [|done]. rewrite elem_of_cons. naive_solver.
Qed.

Lemma after_mark_app h ms ms' post :
  h ∉ marks ms → after_mark h ms' = Some post → after_mark h (ms ++ ms') = Some post.
Proof.
  intros Hn E. induction ms as [|m ms IH]; [done|]. cbn [app after_mark marks omap list_omap] in *.
  unfold marks in IH. destruct (mark m) as [h'|]; [|by rewrite decide_False by done; apply IH].
  rewrite elem_of_cons in Hn. rewrite decide_False by naive_solver. apply IH. tauto.
Qed.

Lemma last_default {A} (l : list A) x d d' : List.last (x :: l) d = List.last (x :: l) d'.
Proof. revert x. induction l as [|y l IH]; intros x; [done|]. apply IH. Qed.

(** The inner loop: the first mark of the height, or the last mark seen. *)
Lemma search_file_enc fuel h l ms torn :
  Forall fits ms → torn_end torn → (length ms + 1 < fuel)%nat →
  search_file fuel true h l (enc ms ++ torn) =
  Some (match after_mark h ms with Some post => FileFound (enc post ++ torn) | None => FileEOF (List.last (marks ms) l) end).
Proof.
  intros Hf Ht. revert fuel l. induction Hf as [|m ms Hm _ IH]; intros [|fuel] l Hl; cbn in Hl; try lia; cbn [search_file].
  - change (enc [] ++ torn) with torn. destruct (Decode_end torn Ht) as [c ->].
    destruct (length torn <? 4)%nat; [done|]. destruct fuel; [lia|]. done.
  - rewrite enc_cons, <-app_assoc, Decode_record by done. cbn [after_mark].
    assert (marks (m :: ms) = match mark m with Some y => y :: marks ms | None => marks ms end) as -> by done.
    assert (mark m = match tw_Msg m with EndHeightMessage h => Some h | _ => None end) as Em by done.
    destruct (tw_Msg m) as [| | |h']; rewrite Em; case_decide as Ed; try done; try (apply IH; lia).
    + injection Ed as ->. by rewrite Z.eqb_refl.
    + rewrite (proj2 (Z.eqb_neq h' h)) by congruence. rewrite IH by lia. case_match; [done|]. do 2 f_equal.
      destruct (marks ms) as [|y k]; [done|]. exact (last_default k y h' l).
Qed.

Context (init : list (list TimedWALMessage)) (tail : list TimedWALMessage) (torn : bytes).

(** The files of a log; the head may end with a torn record. *)
Definition log_files : list bytes := (enc <$> init) ++ [enc tail ++ torn].

Definition log : list TimedWALMessage := mjoin init ++ tail.

Context (Hfits : Forall fits log) (Htorn : torn_end torn) (Hsorted : StronglySorted Z.lt (marks log)).

(** A reader from the n-th file. *)
Lemma reader_from n :
  (n ≤ length init)%nat → mjoin (drop n log_files) = enc (mjoin (drop n init) ++ tail) ++ torn.
Proof.
  intros Hn. unfold log_files. rewrite drop_app_le by (by rewrite length_fmap). rewrite <-fmap_drop, enc_app.
  generalize (drop n init). intros l. induction l as [|ms l IH].
  - cbn. by rewrite app_nil_r.
  - rewrite fmap_cons. change (mjoin (ms :: l)) with (ms ++ mjoin l).
    change (mjoin ((enc ms :: (enc <$> l)) ++ [enc tail ++ torn])) with (enc ms ++ mjoin ((enc <$> l) ++ [enc tail ++ torn])).
    rewrite IH, enc_app, !app_assoc. done.
Qed.

Lemma log_split n : log = mjoin (take n init) ++ (mjoin (drop n init) ++ tail).
Proof. unfold log. rewrite app_assoc, <-join_app, take_drop. done. Qed.

Lemma marks_app ms ms' : marks (ms ++ ms') = marks ms ++ marks ms'.
Proof. apply omap_app. Qed.

Lemma sorted_last (l : list Z) x d : StronglySorted Z.lt l → x ∈ l → x ≤ List.last l d.
Proof.
  intros Hs. revert x. induction Hs as [|y l Hs IH Hy]; intros x Hx; [by apply not_elem_of_nil in Hx|].
  destruct l as [|z l]; [by apply list_elem_of_singleton in Hx as ->|].
  change (List.last (y :: z :: l) d) with (List.last (z :: l) d).
  apply elem_of_cons in Hx as [->|Hx]; [|by apply IH].
  rewrite Forall_forall in Hy. pose proof (Hy z (list_elem_of_here _ _)). pose proof (IH z (list_elem_of_here _ _)). lia.
Qed.

(** The last mark of a reader is not less than any mark of the log. *)
Lemma last_mark n h :
  marks (mjoin (drop n init) ++ tail) ≠ [] → h ∈ marks log → h ≤ List.last (marks (mjoin (drop n init) ++ tail)) (-1).
Proof.
  intros Hne Hh. rewrite (log_split n), marks_app in Hh. pose proof Hsorted as Hs. rewrite (log_split n), marks_app in Hs.
  set (k := marks (mjoin (drop n init) ++ tail)) in *.
  assert (StronglySorted Z.lt k) as Hk by (by eapply StronglySorted_app_1_r).
  apply elem_of_app in Hh as [Hh|Hh]; [|by apply sorted_last].
  destruct k as [|y k]; [done|].
  pose proof (StronglySorted_app_1_elem_of _ _ _ h y Hs Hh (list_elem_of_here _ _)). pose proof (sorted_last _ y (-1) Hk (list_elem_of_here _ _)). lia.
Qed.

(** The messages from the n-th file on; none after the last file. *)
Definition suf (n : nat) : list TimedWALMessage := if decide (n ≤ length init)%nat then mjoin (drop n init) ++ tail else [].

Lemma suf_last n : marks (suf n) = [] → marks (suf (S n)) = [].
Proof.
  unfold suf. repeat case_decide; try done; [|lia].
  destruct (lookup_lt_is_Some_2 init n ltac:(lia)) as [ms Hms]. rewrite (drop_S _ _ _ Hms).
  change (mjoin (ms :: drop (S n) init)) with (ms ++ mjoin (drop (S n) init)). rewrite <-app_assoc, marks_app.
  by intros [_ ?]%app_nil.
Qed.

(** A height in the marks of a suffix is found at the same place in the whole log. *)
Lemma after_mark_log n h post :
  (n ≤ length init)%nat → after_mark h (suf n) = Some post → after_mark h log = Some post.
Proof.
  unfold suf. intros Hn. rewrite decide_True by done. intros E. rewrite (log_split n). apply after_mark_app; [|done].
  intros Hin. pose proof Hsorted as Hs. rewrite (log_split n), marks_app in Hs.
  assert (h ∈ marks (mjoin (drop n init) ++ tail)) as Hin'.
  { destruct (decide (h ∈ marks (mjoin (drop n init) ++ tail))) as [|Hne]; [done|]. apply after_mark_None in Hne. congruence. }
  pose proof (StronglySorted_app_1_elem_of _ _ _ h h Hs Hin Hin'). lia.
Qed.

Lemma search_files_spec h n l :
  (n ≤ S (length init))%nat → h ∉ marks (suf n) → l = List.last (marks (suf n)) (-1) →
  search_loop true h l log_files n =
  Some (match after_mark h log with Some post => Found (enc post ++ torn) | None => NotFound end).
Proof.
  revert l. induction n as [|n IH]; intros l Hn Hh Hl; cbn [search_loop].
  { unfold suf in Hh. rewrite decide_True in Hh by lia. change (mjoin (drop 0 init) ++ tail) with log in Hh. apply after_mark_None in Hh. by rewrite Hh. }
  assert (suf n = mjoin (drop n init) ++ tail) as Es by (unfold suf; by rewrite decide_True by lia).
  assert (Forall fits (suf n)) as Hf.
  { rewrite Es. pose proof Hfits as Ha. rewrite (log_split n) in Ha. by apply Forall_app in Ha as [_ ?]. }
  unfold search_one. rewrite reader_from, <-Es by lia.
  rewrite (search_file_enc _ h l (suf n) torn Hf Htorn).
  2: { rewrite length_app. pose proof (length_enc (suf n)). lia. }
  cbn [mbind option_bind].
  destruct (after_mark h (suf n)) as [post|] eqn:Ea; [by rewrite (after_mark_log n h post) by (done || lia)|].
  assert (List.last (marks (suf n)) l = List.last (marks (suf n)) (-1)) as ->.
  { destruct (marks (suf n)) as [|y k] eqn:Em; [|apply last_default]. cbn. rewrite Hl, suf_last by done. done. }
  apply after_mark_None in Ea as Hnot.
  destruct (_ && _) eqn:Ec; [|by apply IH; [lia|done|done]].
  apply andb_true_iff in Ec as [E1%Z.ltb_lt E2%Z.ltb_lt].
  assert (after_mark h log = None) as ->; [|done]. apply after_mark_None. intros Hin.
  pose proof (last_mark n h) as Hlast. rewrite <-Es in Hlast.
  assert (h ≤ List.last (marks (suf n)) (-1)); [|lia]. apply Hlast; [|done]. intros En. rewrite En in E1. cbn in E1. lia.
Qed.

(** The search is exact on a log whose marks increase. *)
Lemma Search_exact h :
  SearchForEndHeight true h log_files =
  Some (match after_mark h log with Some post => Found (enc post ++ torn) | None => NotFound end).
Proof.
  unfold SearchForEndHeight. assert (length log_files = S (length init)) as ->
    by (unfold log_files; rewrite length_app, length_fmap; cbn; lia).
  apply search_files_spec; [done| |]; unfold suf; rewrite decide_False by lia; [apply not_elem_of_nil|done].
Qed.

(** ** Replay *)

Context (Sum : bytes → bytes) `{Codec} `{Crypto} `{BlockCodec} {PV : Type} `{PrivValidator PV}.

(** What a message of the log was to the state machine. *)
Definition input_of (m : TimedWALMessage) : option input :=
  match tw_Msg m with
  | MsgInfo msg peerID => Some (MsgInput msg peerID)
  | TimeoutInfo ti => Some (TimeoutInput ti)
  | _ => None
  end.

(** The machine receives the inputs of a log again; [o] as in [replay_loop]. *)
Fixpoint reexecute (o : nat → Oracle) (k : nat) (cs : ConsensusState (PV := PV)) (ms : list TimedWALMessage) :
    outcome (ConsensusState (PV := PV)) :=
  match ms with
  | [] => Ret cs
  | m :: ms =>
      cs ← match input_of m with Some i => receive Sum (o k) cs i | None => Ret cs end;
      reexecute o (S k) cs ms
  end.

Lemma readReplay_input o cs m :
  readReplayMessage Sum o cs m = match input_of m with Some i => receive Sum o cs i | None => Ret cs end.
Proof. unfold readReplayMessage, input_of. by destruct (tw_Msg m). Qed.

Lemma mjoin_head_tail (l : list bytes) : mjoin l = default [] (head l) ++ mjoin (drop 1 l).
Proof. by destruct l. Qed.

(** The records that are there are handled, whatever arrives meanwhile. *)
Lemma replay_records fuel o k grow cs ms rest :
  Forall fits ms →
  replay_loop Sum (length ms + fuel) o k grow cs (enc ms ++ rest) =
  (cs' ← reexecute o k cs ms;
   replay_loop Sum fuel o (k + length ms) (drop (length ms) grow) cs' (rest ++ mjoin (take (length ms) grow))).
Proof.
  intros Hf. revert k grow cs rest. induction Hf as [|m ms Hm _ IH]; intros k grow cs rest.
  { cbn [reexecute mbind outcome_bind length Nat.add drop take]. rewrite Nat.add_0_r.
    change (enc [] ++ rest) with rest. change (mjoin (@nil bytes)) with (@nil byte). by rewrite app_nil_r, drop_0. }
  cbn [length Nat.add replay_loop reexecute]. rewrite enc_cons, <-!app_assoc, Decode_record by done.
  rewrite readReplay_input. destruct (match input_of m with Some i => _ | None => _ end) as [cs1|]; [|done].
  cbn [mbind outcome_bind]. rewrite IH. destruct (reexecute o (S k) cs1 ms) as [cs2|]; [|done]. cbn [mbind outcome_bind].
  replace (S k + length ms)%nat with (k + S (length ms))%nat by lia.
  destruct grow as [|g grow]; cbn [default head drop take].
  - rewrite drop_nil, take_nil. change (mjoin (@nil bytes)) with (@nil byte). by rewrite !app_nil_r.
  - change (mjoin (g :: take (length ms) grow)) with (g ++ mjoin (take (length ms) grow)). by rewrite app_assoc.
Qed.

(** What the machine writes while it replays: steps and the end of the height. *)
Definition no_input (m : TimedWALMessage) : Prop := input_of m = None.

(** A reader of such records changes nothing; it stops at their end, or where one was flushed in part. *)
Lemma replay_written fuel o k grow cs rd ms :
  Forall fits ms → Forall no_input ms → rd ++ mjoin grow `prefix_of` enc ms → (length (rd ++ mjoin grow) < fuel)%nat →
  ∃ err, replay_loop Sum fuel o k grow cs rd = Ret (cs, err).
Proof.
  revert k grow rd ms. induction fuel as [|fuel IH]; intros k grow rd ms Hf Hn Hp Hl; [lia|]. cbn [replay_loop].
  rewrite (mjoin_head_tail grow), app_assoc in Hp, Hl.
  set (now := rd ++ default [] (head grow)) in *. clearbody now.
  destruct ms as [|m ms].
  { apply prefix_nil_inv, app_eq_nil in Hp as [-> _]. change (Decode []) with (DecEOF, @nil byte). by eexists. }
  apply Forall_cons in Hf as [Hm Hf], Hn as [Hi Hn]. rewrite enc_cons in Hp.
  destruct (decide (length now < length (record m))%nat) as [Hlt|Hge].
  - destruct (Decode_end now) as [c ->]; [|destruct (length now <? 4)%nat; by eexists].
    right. exists m. split; [done|]. split.
    + destruct Hp as [z Hz]. exists (drop (length now) (record m)).
      rewrite <-(take_drop (length now) (record m)) at 1. f_equal.
      apply (f_equal (take (length now))) in Hz. rewrite <-app_assoc, (take_app_length now) in Hz.
      by rewrite take_app_le in Hz by lia.
    + intros ->. lia.
  - assert (∃ rest, now = record m ++ rest) as [rest ->].
    { destruct Hp as [z Hz]. exists (drop (length (record m)) now).
      apply (f_equal (take (length (record m)))) in Hz. rewrite take_app_length in Hz.
      rewrite <-app_assoc, take_app_le in Hz by lia. rewrite Hz at 1. by rewrite take_drop. }
    rewrite Decode_record by done. rewrite readReplay_input, Hi. cbn [mbind outcome_bind].
    rewrite <-app_assoc in Hp, Hl. apply prefix_app_inv in Hp.
    apply (IH _ _ _ ms); [done|done|done|]. rewrite length_app, length_record in Hl. lia.
Qed.

Lemma after_mark_fits h ms post : Forall fits ms → after_mark h ms = Some post → Forall fits post.
Proof.
  induction ms as [|m ms IH]; cbn [after_mark]; [done|]. intros [_ Hf]%Forall_cons E.
  case_decide; [by injection E as <-|by apply IH].
Qed.

(** C7. Recovery repeats the height. Take the files of a log, whose end-of-height marks increase, cut anywhere in its last record by a
    crash, and a node at height [h] whose log has the mark of [h - 1] and not that of [h]. The node appends to the log
    while it replays, and [grow] says how much of it reaches the files before each read. Then, first, the machine is handed the
    messages and timeouts logged after the mark, in their order, before anything else. Second, if the log ended with
    a whole record and only records without an input (steps and ends of heights) are appended, it is handed nothing else, wherever
    the appended bytes are cut when the reader gets there. Third, if nothing is appended, it is handed nothing else either, and
    corrupt data is reported, so that the node refuses to start, exactly when at least the checksum of the torn
    record was written. *)
Theorem replay_reexecutes_height (o : nat → Oracle) (grow : list bytes) (cs : ConsensusState (PV := PV)) (h : Z)
    (post : list TimedWALMessage) :
  after_mark (h - 1) log = Some post → h ∉ marks log →
  let replay := catchupReplay Sum o grow cs h log_files in
  (∃ fuel, replay =
    (cs' ← reexecute o 0 cs post;
     replay_loop Sum fuel o (length post) (drop (length post) grow) cs' (torn ++ mjoin (take (length post) grow)))) ∧
  (∀ ms, torn = [] → Forall fits ms → Forall no_input ms → mjoin grow `prefix_of` enc ms →
    match reexecute o 0 cs post with
    | Ret cs' => ∃ err, replay = Ret (cs', err)
    | Panic => replay = Panic
    end) ∧
  (grow = [] →
    ∃ c, let err := if (length torn <? 4)%nat then None else Some (ErrReplayCorrupt c) in
      start_after_replay err = (length torn <? 4)%nat ∧ replay = (cs' ← reexecute o 0 cs post; Ret (cs', err))).
Proof.
  intros Hpost Hno. cbv zeta. pose proof (after_mark_fits _ _ _ Hfits Hpost) as Hf.
  assert (∃ fuel, (length torn + length (mjoin grow) < fuel)%nat ∧ catchupReplay Sum o grow cs h log_files =
    (cs' ← reexecute o 0 cs post;
     replay_loop Sum fuel o (length post) (drop (length post) grow) cs' (torn ++ mjoin (take (length post) grow))))
    as (fuel & Hfuel & ->).
  { unfold catchupReplay. rewrite !Search_exact.
    rewrite (proj2 (after_mark_None h log)) by done. cbn [or_panic mbind outcome_bind]. rewrite Hpost. cbn [or_panic mbind outcome_bind].
    pose proof (length_enc post) as Hle.
    exists (S (length (enc post ++ torn) + length (mjoin grow)) - length post)%nat. rewrite length_app. split; [lia|].
    rewrite <-(replay_records _ o 0 grow cs post torn Hf). f_equal. lia. }
  split; [by exists fuel|]. split.
  - intros ms Et Hms Hin Hp. destruct (reexecute o 0 cs post) as [cs'|]; [|done]. cbn [mbind outcome_bind].
    assert (mjoin (take (length post) grow) ++ mjoin (drop (length post) grow) = mjoin grow) as Ej
      by (by rewrite <-join_app, take_drop).
    apply (replay_written _ _ _ _ _ _ ms); [done|done|by rewrite Et, app_nil_l, Ej|]. rewrite Et, app_nil_l, Ej. lia.
  - intros ->. destruct (Decode_end torn Htorn) as [c Ed]. exists c. split; [by destruct (length torn <? 4)%nat|].
    destruct (reexecute o 0 cs post) as [cs'|]; [|done]. cbn [mbind outcome_bind]. rewrite drop_nil, take_nil.
    destruct fuel as [|fuel]; [lia|]. cbn [replay_loop head default]. change (mjoin (@nil bytes)) with (@nil byte).
    rewrite !app_nil_r, Ed. by destruct (length torn <? 4)%nat.
Qed.

End records.

(** ** A log written after a torn checksum

    A record of which less than the checksum was written reads as the end of the log, so the node starts and writes on after it. The
    next record cannot be read then: a part of its checksum is taken for its length. *)
Theorem torn_checksum_spoils_next `{WALCodec} (torn rest : bytes) (m : TimedWALMessage) (b : byte) :
  (1 ≤ length torn ≤ 3)%nat → be32 (Checksum (marshalWAL m)) !! (4 - length torn)%nat = Some b → b ≠ x00 →
  fst (Decode torn) = DecEOF ∧ fst (Decode (torn ++ record m ++ rest)) = DecCorrupt LengthTooBig.
Proof.
  intros Hl Hb Hne.
  assert (0 < byte_Z b) as Hpos.
  { pose proof (byte_Z_bounds b). destruct (decide (byte_Z b = 0)) as [E|]; [|lia]. destruct Hne. by apply byte_Z_inj. }
  assert (∀ d1 d2 d3, maxMsgSizeBytes < uint32 [b; d1; d2; d3]) as Hbig.
  { intros d1 d2 d3. unfold uint32, maxMsgSizeBytes. cbn [foldl].
    pose proof (byte_Z_bounds d1). pose proof (byte_Z_bounds d2). pose proof (byte_Z_bounds d3). lia. }
  assert (∀ c1 c2 c3 c4 d1 d2 d3 r, fst (Decode (c1 :: c2 :: c3 :: c4 :: b :: d1 :: d2 :: d3 :: r)) = DecCorrupt LengthTooBig) as Hdec.
  { intros c1 c2 c3 c4 d1 d2 d3 r. unfold Decode.
    change (c1 :: _) with ([c1; c2; c3; c4] ++ b :: d1 :: d2 :: d3 :: r). rewrite (Read_app [c1; c2; c3; c4]) by done.
    change (b :: _) with ([b; d1; d2; d3] ++ r). rewrite (Read_app [b; d1; d2; d3]) by done.
    by rewrite (proj2 (Z.ltb_lt _ _) (Hbig d1 d2 d3)). }
  split; [unfold Decode; by rewrite Read_short by lia|].
  unfold record, be32 in *. destruct torn as [|t1 [|t2 [|t3 [|]]]]; cbn in Hl; try lia;
    cbn in Hb; injection Hb as <-; cbn [app]; apply Hdec.
Qed.

(** ** Witnesses *)

Section witnesses.

#[local] Instance PartSetHeader_countable : Countable PartSetHeader.
Proof.
  refine (inj_countable' (λ x, (psh_Total x, psh_Hash x)) (λ y, mkPartSetHeader y.1 y.2) _). by intros [].
Defined.

#[local] Instance BlockID_countable : Countable BlockID.
Proof. refine (inj_countable' (λ x, (bid_Hash x, bid_PartsHeader x)) (λ y, mkBlockID y.1 y.2) _). by intros []. Defined.

#[local] Instance PartSig_countable : Countable PartSig.
Proof. refine (inj_countable' (λ x, (PeerCrossSig x, Id x)) (λ y, mkPartSig y.1 y.2) _). by intros []. Defined.

#[local] Instance Proposal_eq_dec : EqDecision Proposal.
Proof. solve_decision. Defined.

#[local] Instance Proposal_countable : Countable Proposal.
Proof.
  refine (inj_countable' (λ x, (prop_Type x, prop_Height x, prop_Round x, prop_POLRound x, prop_BlockID x, prop_Timestamp x, prop_Signature x))
    (λ '(a, b, c, d, e, f, g), mkProposal a b c d e f g) _). by intros [].
Defined.

#[local] Instance SimpleProof_eq_dec : EqDecision SimpleProof.
Proof. solve_decision. Defined.

#[local] Instance SimpleProof_countable : Countable SimpleProof.
Proof.
  refine (inj_countable' (λ x, (Total x, Index x, LeafHash x, Aunts x)) (λ '(a, b, c, d), mkSimpleProof a b c d) _). by intros [].
Defined.

#[local] Instance Part_eq_dec : EqDecision Part.
Proof. solve_decision. Defined.

#[local] Instance Part_countable : Countable Part.
Proof.
  refine (inj_countable' (λ x, (part_Index x, part_Bytes x, part_Proof x)) (λ '(a, b, c), mkPart a b c) _). by intros [].
Defined.

#[local] Instance Vote_countable : Countable Vote.
Proof.
  refine (inj_countable' (λ x, (vote_Type x, vote_Height x, vote_Round x, vote_BlockID x, vote_Timestamp x,
    vote_ValidatorAddress x, vote_ValidatorIndex x, vote_Signature x, vote_PartSig x, vote_PartBlockSig x))
    (λ '(a, b, c, d, e, f, g, h, i, j), mkVote a b c d e f g h i j) _). by intros [].
Defined.

#[local] Instance ConsensusMessage_eq_dec : EqDecision ConsensusMessage.
Proof. solve_decision. Defined.

#[local] Instance ConsensusMessage_countable : Countable ConsensusMessage.
Proof.
  refine (inj_countable'
    (λ x, match x with
          | ProposalMessage p => inl (inl p)
          | BlockPartMessage h r p => inl (inr (h, r, p))
          | VoteMessage v => inr v
          end)
    (λ y, match y with
          | inl (inl p) => ProposalMessage p
          | inl (inr (h, r, p)) => BlockPartMessage h r p
          | inr v => VoteMessage v
          end) _). by intros [].
Defined.

#[local] Instance timeout_eq_dec : EqDecision timeoutInfo.
Proof. solve_decision. Defined.

#[local] Instance timeout_countable : Countable timeoutInfo.
Proof.
  refine (inj_countable' (λ x, (ti_Duration x, ti_Height x, ti_Round x, ti_Step x)) (λ '(a, b, c, d), mkTimeoutInfo a b c d) _).
  by intros [].
Defined.

#[local] Instance WALMessage_eq_dec : EqDecision WALMessage.
Proof. solve_decision. Defined.

#[local] Instance TimedWALMessage_eq_dec : EqDecision TimedWALMessage.
Proof. solve_decision. Defined.

#[local] Instance TimedWALMessage_countable : Countable TimedWALMessage.
Proof.
  refine (inj_countable'
    (λ x, (tw_Time x, match tw_Msg x with
          | EventDataRoundState h r s => inl (inl (h, r, s))
          | MsgInfo m p => inl (inr (m, p))
          | TimeoutInfo ti => inr (inl ti)
          | EndHeightMessage h => inr (inr h)
          end))
    (λ y, mkTimed y.1 match y.2 with
          | inl (inl (h, r, s)) => EventDataRoundState h r s
          | inl (inr (m, p)) => MsgInfo m p
          | inr (inl ti) => TimeoutInfo ti
          | inr (inr h) => EndHeightMessage h
          end) _). by intros [? []].
Defined.

(** A concrete codec. *)
#[local] Instance sample_wal_codec : WALCodec := {|
  marshalWAL m := x01 :: encode_bytes m;
  unmarshalWAL b := match b with [] => None | _ :: b => decode_bytes b end
|}.

#[local] Instance sample_wal_laws : WALCodecLaws.
Proof. split; [intros m; apply decode_encode_bytes|done]. Qed.

(** The log of a node at height 1. *)
Definition height0_end : TimedWALMessage := mkTimed 7 (EndHeightMessage 0).
Definition height1_timeout : TimedWALMessage := mkTimed 8 (TimeoutInfo (mkTimeoutInfo 3000 1 0 RoundStepPropose)).

Lemma sample_fits : Forall fits [height0_end; height1_timeout].
Proof. repeat constructor; vm_compute; discriminate. Qed.

Lemma log_survives_crash_witness :
  ∃ k torn c, take 9 (enc [height0_end; height1_timeout]) = enc (take k [height0_end; height1_timeout]) ++ torn ∧
    decode_all (S (length (take 9 (enc [height0_end; height1_timeout])))) (take 9 (enc [height0_end; height1_timeout])) =
      (take k [height0_end; height1_timeout], if (length torn <? 4)%nat then DecEOF else DecCorrupt c).
Proof.
  destruct (log_survives_crash [height0_end; height1_timeout] (take 9 (enc [height0_end; height1_timeout])) sample_fits)
    as (k & torn & c & E & _ & D); [apply prefix_take|]. exists k, torn, c. split; [exact E|exact D].
Defined.

(** Five bytes of a record: its checksum, and one byte of its length. *)
Definition sample_torn : bytes := take 5 (record height1_timeout).

Lemma sample_torn_end : torn_end sample_torn.
Proof.
  right. exists height1_timeout. split; [apply (Forall_inv (Forall_inv_tail sample_fits))|]. split; [apply prefix_take|].
  intros E. apply (f_equal length) in E. unfold sample_torn in E. rewrite length_take, length_record in E. lia.
Qed.

#[local] Existing Instance sample_codec.
#[local] Existing Instance sample_crypto.
#[local] Existing Instance sample_block_codec.

(** A node without a key. *)
#[local] Instance no_key : PrivValidator unit := {|
  pv_GetAddress _ := [];
  pv_SignVote k _ _ := Ret (k, None);
  pv_SignProposal k _ _ := Ret (k, None);
  pv_SigCrossMerkleRoot _ _ _ v := Ret (v, true)
|}.

(** It waits for the proposal of height 1, round 0. *)
Definition keyless : ConsensusState (PV := unit) :=
  mkCS 1 0 RoundStepPropose 0 0 empty_vals None None None (-1) None None (-1) None None None (-1) None empty_vals false
    (mkConfig 3000 500 1000 500 1000 500 1000 false true 0) None (NewBlockStore (mkBlockDB ∅ ∅ ∅ ∅ None)) None []
    (mkRefs 0 0 0 0 0 0 1).

Definition quiet_oracle : Oracle :=
  mkOracle 20 (λ _ _ _ _, None) (λ _ _ _ _, None) (λ _ _ _, (None, true)) (λ _, None) (λ _, true) (λ _, []) (λ _, None)
    false true (λ _ _, None) 1.

(** The logged end of the wait for the proposal moves the restarted node to the prevote step, as it did before the crash. *)
Lemma replay_reexecutes_height_witness :
  ∃ c cs, catchupReplay pad32 (λ _, quiet_oracle) [] keyless 1 (log_files [[height0_end]] [height1_timeout] sample_torn) =
    Ret (cs, Some (ErrReplayCorrupt c)) ∧ cs_Step cs = RoundStepPrevote.
Proof.
  destruct (replay_reexecutes_height [[height0_end]] [height1_timeout] sample_torn sample_fits sample_torn_end
              ltac:(repeat constructor) pad32 (λ _, quiet_oracle) [] keyless 1 [height1_timeout]) as (_ & _ & Hq);
    [reflexivity|by intros ?%list_elem_of_singleton|].
  destruct (Hq eq_refl) as (c & _ & E). exists c. eexists. rewrite E. cbn [reexecute input_of tw_Msg height1_timeout].
  unfold sample_torn. rewrite length_take, length_record. split; [reflexivity|reflexivity].
Defined.

End witnesses.
