(* ===== verification/Exec.v ===== *)
(** * state/execution.go, types/protobuf.go: executing a block

    A block is validated, handed to the application transaction by transaction, its results are saved, the state
    is updated, the application commits, and the state is saved. The application is a class with the calls of an ABCI
    connection; [None] is an error of the connection. What a node keeps is a record: the database of the state, the
    accounts and the application. The calls to the mempool, the evidence pool and the network are recorded in a list.

    The code keeps the accounts in the database of the state ([NewBlockExecutor] hands it to [InitAccountDB]). The record
    keeps them apart, which is the same thing as long as no account has the name of a key of the state ([apart]); a
    payment to or from such a name overwrites a part of the state, and the model does not follow that. A snapshot of version
    v1.0 lists the whole database in the code, the entries of the state included, and only the accounts here.

    [ApplyBlock] is the composition of stages, cut where the code allows a test to crash it ([fail.Fail]). *)

From Stdlib Require Import ZArith Lia Bool Strings.Byte String.
From stdpp Require Import base list gmap.
From S2P Require Import Prelude Types ValidatorSet Block StateStore Strconv Account Identypes Consensus.
Local Open Scope Z_scope.

(** ** types/protobuf.go *)

Definition int32 (z : Z) : Z := (z + 2 ^ 31) mod 2 ^ 32 - 2 ^ 31.

Record ABCIBlockID := mkABCIBlockID { abid_Hash : bytes; abid_Total : Z; abid_PartsHash : bytes }.

Record ABCIHeader := mkABCIHeader {
  ah_VersionBlock : Z;
  ah_VersionApp : Z;
  ah_ChainID : bytes;
  ah_Height : Z;
  ah_Time : Z;
  ah_NumTxs : Z;
  ah_TotalTxs : Z;
  ah_LastBlockId : ABCIBlockID;
  ah_LastCommitHash : bytes;
  ah_DataHash : bytes;
  ah_ValidatorsHash : bytes;
  ah_NextValidatorsHash : bytes;
  ah_ConsensusHash : bytes;
  ah_AppHash : bytes;
  ah_LastResultsHash : bytes;
  ah_EvidenceHash : bytes;
  ah_ProposerAddress : bytes
}.

Definition TM2PB_BlockID (blockID : BlockID) : ABCIBlockID :=
  mkABCIBlockID (bid_Hash blockID) (int32 (psh_Total (bid_PartsHeader blockID))) (psh_Hash (bid_PartsHeader blockID)).

Definition TM2PB_Header (h : Header) : ABCIHeader :=
  mkABCIHeader (v_Block (hd_Version h)) (v_App (hd_Version h)) (hd_ChainID h) (hd_Height h) (hd_Time h) (hd_NumTxs h)
    (hd_TotalTxs h) (TM2PB_BlockID (hd_LastBlockID h)) (hd_LastCommitHash h) (hd_DataHash h) (hd_ValidatorsHash h)
    (hd_NextValidatorsHash h) (hd_ConsensusHash h) (hd_AppHash h) (hd_LastResultsHash h) (hd_EvidenceHash h)
    (hd_ProposerAddress h).

Record ABCIValidator := mkABCIValidator { av_Address : bytes; av_Power : Z }.

Definition TM2PB_Validator `{Crypto} (val : Validator) : ABCIValidator :=
  mkABCIValidator (PubKeyAddress (val_PubKey val)) (val_VotingPower val).

(** A key as its type and its data, and as the bytes the other components know it by. *)
Class KeyCodec := {
  pubKeyOf : bytes → bytes → bytes;
  abciPubKey : bytes → option (bytes * bytes)
}.

Definition PubKeyEd25519Size : Z := 32.
Definition PubKeySecp256k1Size : Z := 33.

Section keys.
Context `{KeyCodec}.

(** Panics on a key of an unknown type. *)
Definition TM2PB_ValidatorUpdate (val : Validator) : outcome ValidatorUpdate :=
  '(keyType, data) ← or_panic (abciPubKey (val_PubKey val));
  Ret (mkValidatorUpdate keyType data (val_VotingPower val)).

Definition TM2PB_ValidatorUpdates (vals : ValidatorSet) : outcome (list ValidatorUpdate) :=
  mapM TM2PB_ValidatorUpdate (Validators vals).

Definition TM2PB_ConsensusParams (params : ConsensusParams) : ABCIParams :=
  mkABCIParams (Some (bp_MaxBytes (cp_Block params), bp_MaxGas (cp_Block params))) (Some (cp_MaxAge params))
    (Some (cp_PubKeyTypes params)).

Definition PB2TM_PubKey (keyType data : bytes) : option bytes :=
  if bytes_equal keyType ABCIPubKeyTypeEd25519 then
    if negb (zlen data =? PubKeyEd25519Size) then None else Some (pubKeyOf keyType data)
  else if bytes_equal keyType ABCIPubKeyTypeSecp256k1 then
    if negb (zlen data =? PubKeySecp256k1Size) then None else Some (pubKeyOf keyType data)
  else if bytes_equal keyType ABCIPubKeyTypeBLS then Some (pubKeyOf keyType data)
  else None.

Definition PB2TM_ValidatorUpdates `{Crypto} (vals : list ValidatorUpdate) : option (list Validator) :=
  mapM (λ v, pub ← PB2TM_PubKey (vu_KeyType v) (vu_KeyData v); Some (NewValidator pub (vu_Power v))) vals.

End keys.

(** ** Requests *)

Record VoteInfo := mkVoteInfo { vti_Validator : ABCIValidator; vti_SignedLastBlock : bool }.

Record LastCommitInfo := mkLastCommitInfo { lci_Round : Z; lci_Votes : list VoteInfo }.

Record ABCIEvidence := mkABCIEvidence {
  ae_Validator : ABCIValidator;
  ae_Height : Z;
  ae_Time : Z;
  ae_TotalVotingPower : Z
}.

Record RequestBeginBlock := mkRequestBeginBlock {
  rbb_Hash : bytes;
  rbb_Header : ABCIHeader;
  rbb_LastCommitInfo : LastCommitInfo;
  rbb_ByzantineValidators : list ABCIEvidence
}.

Record RequestInitChain := mkRequestInitChain {
  ric_Time : Z;
  ric_ChainId : bytes;
  ric_ConsensusParams : ABCIParams;
  ric_Validators : list ValidatorUpdate;
  ric_AppStateBytes : bytes
}.

(** ** Keys of the state (state/store.go) *)

Definition has_prefix (p k : bytes) : bool := bytes_equal (take (length p) k) p.

Definition state_key (k : bytes) : bool :=
  bytes_equal k (str "stateKey") || has_prefix (str "validatorsKey:") k || has_prefix (str "consensusParamsKey:") k
  || has_prefix (str "abciResponsesKey:") k.

(** The accounts that a transaction writes are not keys of the state. *)
Definition apart (unmarshalTxArg : bytes → option TxArg) (tx : bytes) : Prop :=
  match NewAccountLog unmarshalTxArg tx with
  | Some l => state_key (al_From l) = false ∧ state_key (al_To l) = false
  | None => True
  end.

(** ** The application (proxy/app_conn.go)

    The calls of the consensus connection. A response to InitChain or EndBlock is the updates of parameters and
    validators in it. *)
Class AppConnConsensus (A : Type) := {
  InitChainSync : A → RequestInitChain → outcome (option (A * (option ABCIParams * list ValidatorUpdate)));
  BeginBlockSync : A → RequestBeginBlock → outcome (option A);
  DeliverTxAsync : A → bytes → outcome (option (A * ABCIResult));
  EndBlockSync : A → Z → outcome (option (A * (option ABCIParams * list ValidatorUpdate)));
  CommitSync : A → outcome (option (A * bytes))
}.

(** ** state/execution.go *)

Section exec.
Context (Sum : bytes → bytes) (encResult : ABCIResult → bytes) (unmarshalTxArg : bytes → option TxArg)
  (NewTX : bytes → option Identypes.TX).
Context `{Crypto} `{BlockCodec} `{KeyCodec}.

(** The evidence of a block, with what the application is told of it. *)
Definition evidence_info (stateDB : StateDB) (time : Z) (ev : DuplicateVoteEvidence) : outcome ABCIEvidence :=
  height ← DVE_Height ev;
  valset ← LoadValidators stateDB height;
  valset ← or_panic valset;
  address ← DVE_Address ev;
  val ← or_panic (GetByAddress valset address).2;
  '(total, _) ← TotalVotingPower valset;
  Ret (mkABCIEvidence (TM2PB_Validator val) height time total).

(** A validator signed the last block if its place in the commit is filled; a place past the end is not. *)
Definition vote_infos (precommits : list (option CommitSig)) (vals : list Validator) : list VoteInfo :=
  imap (λ i val, mkVoteInfo (TM2PB_Validator val) match precommits !! i with Some (Some _) => true | _ => false end) vals.

Definition getBeginBlockValidatorInfo (block : Block) (lastValSet : ValidatorSet) (stateDB : StateDB) :
    outcome (LastCommitInfo * list ABCIEvidence) :=
  lastCommit ← or_panic (blk_LastCommit block);
  let voteInfos := vote_infos (commit_Precommits lastCommit) (Validators lastValSet) in
  byzVals ← mapM (evidence_info stateDB (hd_Time (blk_Header block))) (blk_Evidence block);
  Ret (mkLastCommitInfo (int32 (Commit_Round lastCommit)) voteInfos, byzVals).

Section app.
Context {A : Type} `{AppConnConsensus A}.

(** The loop over the transactions. The results are written to the slots of the responses in the order of the
    answers; [None] is an error of the connection. *)
Fixpoint deliver_txs (app : A) (acc : accounts) (slots : list (option ABCIResult)) (txIndex : Z) (txs : list Tx) :
    outcome (A * accounts * option (list (option ABCIResult))) :=
  match txs with
  | [] => Ret (app, acc, Some slots)
  | tx :: txs =>
      res ← DeliverTxAsync app tx;
      match res with
      | None => Ret (app, acc, None)
      | Some (app, txRes) =>
          slots ← slice_set slots txIndex (Some txRes);
          deliver_txs app (save_txs unmarshalTxArg acc [tx]) slots (txIndex + 1) txs
      end
  end.

(** [NewABCIResponses]: a slot for each transaction the header announces. *)
Definition NewABCIResponses (block : Block) : outcome (list (option ABCIResult)) :=
  let n := hd_NumTxs (blk_Header block) in
  if n <? 0 then Panic else Ret (replicate (Z.to_nat n) None).

Definition request_of (stateDB : StateDB) (lastValSet : ValidatorSet) (block : Block) : outcome RequestBeginBlock :=
  '(commitInfo, byzVals) ← getBeginBlockValidatorInfo block lastValSet stateDB;
  let '(hash, filled) := Block_Hash Sum (Some block) in
  Ret (mkRequestBeginBlock hash (TM2PB_Header (blk_Header (default block filled))) commitInfo byzVals).

(** The results, and the updates of EndBlock; [None] is an error of the connection. *)
Definition execBlockOnProxyApp (app : A) (acc : accounts) (block : Block) (lastValSet : ValidatorSet) (stateDB : StateDB) :
    outcome (A * accounts * option (list (option ABCIResult) * (option ABCIParams * list ValidatorUpdate))) :=
  slots ← NewABCIResponses block;
  req ← request_of stateDB lastValSet block;
  begun ← BeginBlockSync app req;
  match begun with
  | None => Ret (app, acc, None)
  | Some app =>
      '(app, acc, slots) ← deliver_txs app acc slots 0 (blk_Txs block);
      match slots with
      | None => Ret (app, acc, None)
      | Some slots =>
          ended ← EndBlockSync app (hd_Height (blk_Header block));
          match ended with
          | None => Ret (app, acc, None)
          | Some (app, updates) => Ret (app, acc, Some (slots, updates))
          end
      end
  end.

(** The responses that are saved; a slot without a result is a nil pointer. *)
Definition to_responses (slots : list (option ABCIResult)) (updates : option ABCIParams * list ValidatorUpdate) :
    outcome ABCIResponses :=
  results ← mapM or_panic slots; Ret (mkABCIResponses results updates.1 updates.2).

(** Executes and commits a block without touching the state. *)
Definition ExecCommitBlock (app : A) (acc : accounts) (block : Block) (lastValSet : ValidatorSet) (stateDB : StateDB) :
    outcome (A * accounts * option bytes) :=
  '(app, acc, res) ← execBlockOnProxyApp app acc block lastValSet stateDB;
  match res with
  | None => Ret (app, acc, None)
  | Some _ =>
      committed ← CommitSync app;
      match committed with
      | None => Ret (app, acc, None)
      | Some (app, data) => Ret (app, acc, Some data)
      end
  end.

(** *** ApplyBlock *)

(** What a node keeps. *)
Record node_data := mkNode { nd_db : StateDB; nd_acc : accounts; nd_app : A }.

(** Calls to other components. *)
Inductive exec_call :=
| CallUpdateShardFliters (addlist removeList : list bytes)
| CallMempoolUpdate (height : Z) (txs : list Tx)
| CallEvidenceUpdate (block : Block) (state : State)
| CallCheckRelayTxs (block : Block) (flag : bool).

Inductive exec_error :=
| ErrInvalidBlock (err : validate_error)
| ErrProxyAppConn
| ErrValidatorUpdates (err : val_update_error)
| ErrPubKey
| ErrUpdateState (err : state_error)
| ErrCommit.

(** What ApplyBlock reads: the configured way to make snapshots, and the errors of the mempool. *)
Record exec_env := mkEnv { en_SnapshotVersion : bytes; en_FlushErr : bool; en_UpdateErr : bool }.

Definition SNAPSHOT_INTERVAL : Z := 10.

(** GenerateSnapshotWithSecurity does the same and remembers a hash that only its users read. *)
Definition GenerateSnapshotWithSecurity (a : accounts) (version : Z) (set nextset : ValidatorSet) : accounts :=
  GenerateSnapshotFast a version set nextset.

Definition take_snapshot (env : exec_env) (acc : accounts) (state : State) (block : Block) : accounts :=
  let currentHeight := wrap64 (hd_Height (blk_Header block) - 1) in
  if (0 <? currentHeight) && (Z.rem currentHeight SNAPSHOT_INTERVAL =? 0)
     && negb (bytes_equal (en_SnapshotVersion env) []) then
    let val := Copy (st_Validators state) in
    let nextval := Copy (st_NextValidators state) in
    if bytes_equal (en_SnapshotVersion env) (str "v1.0") then GenerateSnapshot acc currentHeight val nextval
    else if bytes_equal (en_SnapshotVersion env) (str "v2.0") then GenerateSnapshotFast acc currentHeight val nextval
    else GenerateSnapshotWithSecurity acc currentHeight val nextval
  else acc.

(** The shards that the transactions of a block add and remove. *)
Fixpoint shard_lists (txs : list Tx) (addlist removeList : list bytes) : outcome (list bytes * list bytes) :=
  match txs with
  | [] => Ret (addlist, removeList)
  | tx :: txs =>
      match NewTX tx with
      | Some tptx =>
          if negb (bytes_equal (Txtype tptx) ShardConfigTx) then shard_lists txs addlist removeList
          else
            let parts := Split (Content tptx) underscore in
            shardname ← slice_get parts 0;
            operation ← slice_get parts 2;
            if bytes_equal operation (str "1") then shard_lists txs (addlist ++ [shardname]) removeList
            else shard_lists txs addlist (removeList ++ [shardname])
      | None => shard_lists txs addlist removeList
      end
  end.

(** Up to the execution: the snapshot of the last height, the validation, the shard filters. *)
Definition apply_prepare (env : exec_env) (nd : node_data) (state : State) (block : Block) :
    outcome (node_data * list exec_call * option exec_error) :=
  let nd := mkNode (nd_db nd) (take_snapshot env (nd_acc nd) state block) (nd_app nd) in
  err ← validateBlock Sum state block;
  match err with
  | Some err => Ret (nd, [], Some (ErrInvalidBlock err))
  | None =>
      '(addlist, removeList) ← shard_lists (blk_Txs block) [] [];
      Ret (nd, [CallUpdateShardFliters addlist removeList], None)
  end.

(** The execution, and the responses to be saved. *)
Definition apply_exec (nd : node_data) (state : State) (block : Block) : outcome (node_data * option ABCIResponses) :=
  '(app, acc, res) ← execBlockOnProxyApp (nd_app nd) (nd_acc nd) block (st_LastValidators state) (nd_db nd);
  let nd := mkNode (nd_db nd) acc app in
  match res with
  | None => Ret (nd, None)
  | Some (slots, updates) => responses ← to_responses slots updates; Ret (nd, Some responses)
  end.

Definition apply_responses (nd : node_data) (block : Block) (responses : ABCIResponses) : node_data :=
  mkNode (saveABCIResponses (nd_db nd) (hd_Height (blk_Header block)) responses) (nd_acc nd) (nd_app nd).

(** The new state. *)
Definition apply_update (state : State) (blockID : BlockID) (block : Block) (responses : ABCIResponses) :
    outcome (State * option exec_error) :=
  let updates := ar_ValidatorUpdates responses in
  match validateValidatorUpdates updates (cp_PubKeyTypes (st_ConsensusParams state)) with
  | Some err => Ret (state, Some (ErrValidatorUpdates err))
  | None =>
      match PB2TM_ValidatorUpdates updates with
      | None => Ret (state, Some ErrPubKey)
      | Some validatorUpdates =>
          '(state, err) ← updateState Sum encResult state blockID (blk_Header block) responses validatorUpdates
                            (hd_Height (blk_Header block));
          Ret (state, option_map ErrUpdateState err)
      end
  end.

(** [BlockExecutor.Commit]: the hash of the application, [None] on an error. *)
Definition apply_commit (env : exec_env) (nd : node_data) (block : Block) :
    outcome (node_data * list exec_call * option bytes) :=
  if en_FlushErr env then Ret (nd, [], None)
  else
    res ← CommitSync (nd_app nd);
    match res with
    | None => Ret (nd, [], None)
    | Some (app, data) =>
        Ret (mkNode (nd_db nd) (nd_acc nd) app, [CallMempoolUpdate (hd_Height (blk_Header block)) (blk_Txs block)],
             if en_UpdateErr env then None else Some data)
    end.

Definition apply_save (nd : node_data) (state : State) (appHash : bytes) : outcome (node_data * State) :=
  let state := with_AppHash state appHash in
  db ← SaveState (nd_db nd) state;
  Ret (mkNode db (nd_acc nd) (nd_app nd), state).

Definition ApplyBlock (env : exec_env) (nd : node_data) (state : State) (blockID : BlockID) (block : Block) (flag : bool) :
    outcome (node_data * list exec_call * (State * option exec_error)) :=
  '(nd, filters, err) ← apply_prepare env nd state block;
  match err with
  | Some err => Ret (nd, filters, (state, Some err))
  | None =>
      '(nd, responses) ← apply_exec nd state block;
      match responses with
      | None => Ret (nd, filters, (state, Some ErrProxyAppConn))
      | Some responses =>
          let nd := apply_responses nd block responses in
          '(state, err) ← apply_update state blockID block responses;
          match err with
          | Some err => Ret (nd, filters, (state, Some err))
          | None =>
              '(nd, update, appHash) ← apply_commit env nd block;
              match appHash with
              | None => Ret (nd, filters ++ update, (state, Some ErrCommit))
              | Some appHash =>
                  let evidence := CallEvidenceUpdate block state in
                  '(nd, state) ← apply_save nd state appHash;
                  Ret (nd, filters ++ update ++ [evidence; CallCheckRelayTxs block flag], (state, None))
              end
          end
      end
  end.

End app.
End exec.
