(* ===== verification/Handshake.v ===== *)
(** * consensus/replay.go: the handshake with the application

    When a node starts it asks the application for the height it has committed, and replays the blocks it lacks. A block that was saved
    but not applied is applied now: with the application, or, if that had already committed the block, with a mock of it which
    answers from the saved responses. *)

From Stdlib Require Import ZArith Lia Bool Strings.Byte.
From stdpp Require Import base list gmap.
From S2P Require Import Prelude Types ValidatorSet Block StateStore BlockStore Account Identypes Consensus Exec.
Local Open Scope Z_scope.

(** The query connection: height, hash and version of the application. *)
Class AppConnQuery (A : Type) := {
  InfoSync : A → outcome (option (Z * bytes * Z))
}.

(** ** The mock application *)

Record mockProxyApp := mkMock { mk_appHash : bytes; mk_txCount : Z; mk_responses : ABCIResponses }.

#[export] Instance mock_conn : AppConnConsensus mockProxyApp := {|
  InitChainSync m _ := Ret (Some (m, (None, [])));
  BeginBlockSync m _ := Ret (Some m);
  DeliverTxAsync m _ :=
    r ← slice_get (ar_DeliverTx (mk_responses m)) (mk_txCount m);
    Ret (Some (mkMock (mk_appHash m) (mk_txCount m + 1) (mk_responses m), r));
  EndBlockSync m _ :=
    Ret (Some (mkMock (mk_appHash m) 0 (mk_responses m),
               (ar_ConsensusParamUpdates (mk_responses m), ar_ValidatorUpdates (mk_responses m))));
  CommitSync m := Ret (Some (m, mk_appHash m))
|}.

Definition newMockProxyApp (appHash : bytes) (abciResponses : ABCIResponses) : mockProxyApp :=
  mkMock appHash 0 abciResponses.

Inductive handshake_error :=
| ErrInfo
| ErrNegativeHeight
| ErrInitChain
| ErrInitChainKeys
| ErrNoGenesisValidators
| ErrAppBlockHeightTooHigh (coreHeight appHeight : Z)
| ErrNoABCIResponses
| ErrReplayExec
| ErrReplayApply (err : exec_error).

(** The panic of [checkAppHash]. *)
Definition checkAppHash (state : State) (appHash : bytes) : outcome unit :=
  if bytes_equal (st_AppHash state) appHash then Ret tt else Panic.

Definition with_AppVersion (state : State) (app : Z) : State :=
  mkState (mkVersion (v_Block (st_Version state)) app) (st_ChainID state) (st_LastBlockHeight state)
    (st_LastBlockTotalTx state) (st_LastBlockID state) (st_LastBlockTime state) (st_NextValidators state)
    (st_Validators state) (st_LastValidators state) (st_LastHeightValidatorsChanged state) (st_ConsensusParams state)
    (st_LastHeightConsensusParamsChanged state) (st_LastResultsHash state) (st_AppHash state) (st_SpTxBuf state)
    (st_HashSignature state).

Definition with_Genesis (state : State) (vals next : ValidatorSet) (params : ConsensusParams) : State :=
  mkState (st_Version state) (st_ChainID state) (st_LastBlockHeight state) (st_LastBlockTotalTx state)
    (st_LastBlockID state) (st_LastBlockTime state) next vals (st_LastValidators state)
    (st_LastHeightValidatorsChanged state) params (st_LastHeightConsensusParamsChanged state) (st_LastResultsHash state)
    (st_AppHash state) (st_SpTxBuf state) (st_HashSignature state).

Section handshake.
Context (Sum : bytes → bytes) (encResult : ABCIResult → bytes) (unmarshalTxArg : bytes → option TxArg)
  (NewTX : bytes → option Identypes.TX) (unmarshalBlock : bytes → option Block) (SnapshotVersion : bytes).
Context `{Crypto} `{BlockCodec} `{KeyCodec}.

(** MockMempool reports no error. *)
Definition mock_env : exec_env := mkEnv SnapshotVersion false false.

(** [replayBlock] on any connection. A nil block or a nil meta is dereferenced. *)
Definition replayBlock {B} `{AppConnConsensus B} (store : BlockStore) (nd : node_data (A := B)) (state : State) (height : Z) :
    outcome (node_data (A := B) * (State + exec_error)) :=
  block ← LoadBlock unmarshalBlock store height;
  block ← or_panic block;
  meta ← or_panic (LoadBlockMeta store height);
  '(nd, _, (state, err)) ← ApplyBlock Sum encResult unmarshalTxArg NewTX mock_env nd state (bm_BlockID meta) block false;
  Ret (nd, match err with None => inl state | Some err => inr err end).

Section real.
Context {A : Type} `{AppConnConsensus A} `{AppConnQuery A}.
Context (store : BlockStore) (genDoc : GenesisDoc).

(** The loop of [replayBlocks]: [n] blocks from height [i] on. *)
Fixpoint replay_range (n : nat) (i : Z) (nd : node_data (A := A)) (state : State) (appHash : bytes) :
    outcome (node_data (A := A) * option bytes) :=
  match n with
  | O => Ret (nd, Some appHash)
  | S n =>
      block ← LoadBlock unmarshalBlock store i;
      block ← or_panic block;
      '(app, acc, res) ← ExecCommitBlock Sum unmarshalTxArg (nd_app nd) (nd_acc nd) block (st_LastValidators state) (nd_db nd);
      let nd := mkNode (nd_db nd) acc app in
      match res with
      | None => Ret (nd, None)
      | Some appHash => replay_range n (i + 1) nd state appHash
      end
  end.

Definition replayBlocks (nd : node_data (A := A)) (state : State) (appBlockHeight storeBlockHeight : Z) (mutateState : bool) :
    outcome (node_data (A := A) * (bytes + handshake_error)) :=
  let finalBlock := if mutateState then storeBlockHeight - 1 else storeBlockHeight in
  '(nd, res) ← replay_range (Z.to_nat (finalBlock - appBlockHeight)) (appBlockHeight + 1) nd state [];
  match res with
  | None => Ret (nd, inr ErrReplayExec)
  | Some appHash =>
      if mutateState then
        '(nd, res) ← replayBlock store nd state storeBlockHeight;
        match res with
        | inr err => Ret (nd, inr (ErrReplayApply err))
        | inl state => _ ← checkAppHash state (st_AppHash state); Ret (nd, inl (st_AppHash state))
        end
      else _ ← checkAppHash state appHash; Ret (nd, inl appHash)
  end.

(** The first part of [ReplayBlocks]: an application at height 0 gets the genesis, and a state at height 0 its answer. *)
Definition init_chain (nd : node_data (A := A)) (state : State) :
    outcome (node_data (A := A) * (State + handshake_error)) :=
  validators ← mapM (λ v, pubKey ← or_panic (gv_PubKey v); Ret (NewValidator pubKey (gv_Power v))) (gd_Validators genDoc);
  validatorSet ← NewValidatorSet validators;
  nextVals ← TM2PB_ValidatorUpdates validatorSet;
  params ← or_panic (gd_ConsensusParams genDoc);
  res ← InitChainSync (nd_app nd)
          (mkRequestInitChain (gd_GenesisTime genDoc) (gd_ChainID genDoc) (TM2PB_ConsensusParams params) nextVals
             (gd_AppState genDoc));
  match res with
  | None => Ret (nd, inr ErrInitChain)
  | Some (app, (resParams, resValidators)) =>
      let nd := mkNode (nd_db nd) (nd_acc nd) app in
      if st_LastBlockHeight state =? 0 then
        let finish vals next :=
          let state := with_Genesis state vals next (Params_Update (st_ConsensusParams state) resParams) in
          db ← SaveState (nd_db nd) state;
          Ret (mkNode db (nd_acc nd) (nd_app nd), inl state) in
        match resValidators with
        | [] =>
            if zlen (gd_Validators genDoc) =? 0 then Ret (nd, inr ErrNoGenesisValidators)
            else finish (st_Validators state) (st_NextValidators state)
        | _ =>
            match PB2TM_ValidatorUpdates resValidators with
            | None => Ret (nd, inr ErrInitChainKeys)
            | Some vals => v ← NewValidatorSet vals; n ← NewValidatorSet vals; finish v n
            end
        end
      else Ret (nd, inl state)
  end.

(** The decision by the heights of the store, the state and the application. *)
Definition replay_cases (nd : node_data (A := A)) (state : State) (appHash : bytes) (appBlockHeight : Z) :
    outcome (node_data (A := A) * (bytes + handshake_error)) :=
  let storeBlockHeight := BS_Height store in
  let stateBlockHeight := st_LastBlockHeight state in
  if storeBlockHeight =? 0 then _ ← checkAppHash state appHash; Ret (nd, inl appHash)
  else if storeBlockHeight <? appBlockHeight then Ret (nd, inr (ErrAppBlockHeightTooHigh storeBlockHeight appBlockHeight))
  else if storeBlockHeight =? stateBlockHeight then
    if appBlockHeight <? storeBlockHeight then replayBlocks nd state appBlockHeight storeBlockHeight false
    else _ ← checkAppHash state appHash; Ret (nd, inl appHash)
  else if storeBlockHeight =? stateBlockHeight + 1 then
    if appBlockHeight <? stateBlockHeight then replayBlocks nd state appBlockHeight storeBlockHeight true
    else if appBlockHeight =? stateBlockHeight then
      '(nd, res) ← replayBlock store nd state storeBlockHeight;
      Ret (nd, match res with inl state => inl (st_AppHash state) | inr err => inr (ErrReplayApply err) end)
    else
      match LoadABCIResponses (nd_db nd) storeBlockHeight with
      | None => Ret (nd, inr ErrNoABCIResponses)
      | Some abciResponses =>
          let mockApp := newMockProxyApp appHash abciResponses in
          '(mock, res) ← replayBlock store (mkNode (nd_db nd) (nd_acc nd) mockApp) state storeBlockHeight;
          Ret (mkNode (nd_db mock) (nd_acc mock) (nd_app nd),
               match res with inl state => inl (st_AppHash state) | inr err => inr (ErrReplayApply err) end)
      end
  else Ret (nd, inl appHash).

Definition ReplayBlocks (nd : node_data (A := A)) (state : State) (appHash : bytes) (appBlockHeight : Z) :
    outcome (node_data (A := A) * (bytes + handshake_error)) :=
  if appBlockHeight =? 0 then
    '(nd, res) ← init_chain nd state;
    match res with
    | inr err => Ret (nd, inr err)
    | inl state => replay_cases nd state appHash appBlockHeight
    end
  else replay_cases nd state appHash appBlockHeight.

Definition Handshake (nd : node_data (A := A)) (initialState : State) :
    outcome (node_data (A := A) * option handshake_error) :=
  res ← InfoSync (nd_app nd);
  match res with
  | None => Ret (nd, Some ErrInfo)
  | Some (blockHeight, appHash, appVersion) =>
      if blockHeight <? 0 then Ret (nd, Some ErrNegativeHeight)
      else
        let initialState := with_AppVersion initialState appVersion in
        db ← SaveState (nd_db nd) initialState;
        '(nd, res) ← ReplayBlocks (mkNode db (nd_acc nd) (nd_app nd)) initialState appHash blockHeight;
        Ret (nd, match res with inl _ => None | inr err => Some err end)
  end.

End real.
End handshake.
