(* ===== verification/HandshakeProofs.v ===== *)
(** * A crash while a block is committed

    A node may stop at any point of [ApplyBlock], also between two writes to its database. On the next start the handshake brings the
    application and the state to where they would be without the crash. *)

From Stdlib Require Import ZArith Lia Bool Strings.Byte String.
From stdpp Require Import base list gmap.
From S2P Require Import Prelude Types ValidatorSet ValidatorUpdates Block StateStore BlockStore Account Identypes Consensus Exec.
From S2P Require Import Handshake.
Local Open Scope Z_scope.

(** ** States that differ in what is not saved, or not needed

    The cached totals of the validator sets are not serialized; the buffer of special transactions and the signature of the
    hash play no part in the execution of a block. *)
Definition strip (st : State) : State :=
  mkState (st_Version st) (st_ChainID st) (st_LastBlockHeight st) (st_LastBlockTotalTx st)
    (st_LastBlockID st) (st_LastBlockTime st)
    (decoded (st_NextValidators st)) (decoded (st_Validators st)) (decoded (st_LastValidators st))
    (st_LastHeightValidatorsChanged st) (st_ConsensusParams st) (st_LastHeightConsensusParamsChanged st)
    (st_LastResultsHash st) (st_AppHash st) [] [].

Definition alike (s t : State) : Prop := strip s = strip t.

#[export] Instance alike_equiv : Equivalence alike.
Proof. split; unfold alike; [done|by intros ??|by intros ??? -> ->]. Qed.

Lemma alike_decoded s : alike (decoded_state s) s.
Proof. reflexivity. Qed.

Lemma decoded_eq v w : decoded v = decoded w ↔ Validators v = Validators w ∧ Proposer v = Proposer w.
Proof. unfold decoded. split; [by intros [= -> ->]|by intros [-> ->]]. Qed.

(** *** Cached totals do not matter *)

Section caches.
Context (v w : ValidatorSet) (Hv : wf v) (Hw : wf w) (E : decoded v = decoded w).

Lemma total_decoded : TotalVotingPower v = TotalVotingPower w.
Proof.
  apply decoded_eq in E as [E1 E2]. rewrite !TotalVotingPower_wf by done. unfold with_total. by rewrite E1, E2.
Qed.

Lemma increment_decoded n : IncrementProposerPriority v n = IncrementProposerPriority w n.
Proof.
  unfold IncrementProposerPriority. rewrite total_decoded. apply decoded_eq in E as [E1 _]. unfold IsNilOrEmpty. by rewrite E1.
Qed.

Lemma change_decoded ups n :
  ups ≠ [] → UpdateWithChangeSet v ups = Ret (n, None) → UpdateWithChangeSet w ups = Ret (n, None).
Proof.
  intros Hne. unfold UpdateWithChangeSet, updateWithChangeSet.
  destruct (zlen ups <=? 0) eqn:El; [destruct ups; [done|]; apply Z.leb_le in El; unfold zlen in El; cbn in El; lia|].
  destruct (processChanges ups) as [[u d]|]; [|done]. destruct (_ && _); [done|].
  assert (verifyRemovals d v = verifyRemovals d w) as ->.
  { apply decoded_eq in E as [E1 _]. unfold verifyRemovals, GetByAddress. by rewrite E1. }
  destruct (verifyRemovals d w) as [ok|]; [|done]. cbn [mbind outcome_bind]. destruct ok; [|done]. cbn [negb].
  unfold verifyUpdates. by rewrite total_decoded.
Qed.

End caches.

Lemma Copy_id v : Copy v = v.
Proof. by destruct v. Qed.

Section execution.
Context (Sum : bytes → bytes) (encResult : ABCIResult → bytes) (um : bytes → option TxArg)
  (NewTX : bytes → option Identypes.TX).
Context `{Crypto} `{BlockCodec} `{KeyCodec}.

Lemma updateState_alike s t bid hd r ups h s' :
  alike s t → wf (st_NextValidators s) → wf (st_NextValidators t) →
  updateState Sum encResult s bid hd r ups h = Ret (s', None) →
  ∃ t', updateState Sum encResult t bid hd r ups h = Ret (t', None) ∧ alike s' t' ∧
    st_HashSignature t' = st_HashSignature t.
Proof.
  intros Ha Hs Ht. unfold updateState. rewrite !Copy_id.
  pose proof Ha as [= Ev Ec Eh Et Eb Ei En1 En2 Ev1 Ev2 El1 El2 Elh Ep Elp Er Eah].
  assert (decoded (st_NextValidators s) = decoded (st_NextValidators t)) as En by (by apply decoded_eq).
  rewrite <-Elh, <-Ep, <-Elp. intros E. apply bind_Ret in E as ([[nv err] lh] & E1 & E). destruct err; [done|].
  assert (∃ nv', match ups with
      | [] => Ret (st_NextValidators t, None, st_LastHeightValidatorsChanged s)
      | _ => '(n, err) ← UpdateWithChangeSet (st_NextValidators t) ups; Ret (n, err, wrap64 (hd_Height hd + 1 + 1))
      end = Ret (nv', None, lh) ∧ decoded nv = decoded nv' ∧
    ∀ k, IncrementProposerPriority nv k = IncrementProposerPriority nv' k) as (nv' & -> & Enn & Einc).
  { destruct ups as [|u ups].
    - injection E1 as <- <-. eexists. split_and!; [done..|]. intros k. by apply increment_decoded.
    - apply bind_Ret in E1 as ([n err] & E1 & E2). injection E2 as -> -> <-.
      apply (change_decoded _ _ Hs Ht En) in E1; [|done]. exists nv. rewrite E1. split_and!; done. }
  cbn [mbind outcome_bind].
  assert (∀ n : ValidatorSet, (if Z.rem h 2 =? 0 then IncrementProposerPriority nv 1 else Ret nv) = Ret n →
    ∃ n', (if Z.rem h 2 =? 0 then IncrementProposerPriority nv' 1 else Ret nv') = Ret n' ∧ decoded n = decoded n') as Hrot.
  { intros n En'. rewrite <-(Einc 1). case_match; [by exists n|]. injection En' as <-. by exists nv'. }
  apply bind_Ret in E as (n & Erot & E). destruct (Hrot n Erot) as (n' & Erot' & Ed). rewrite Erot'. cbn [mbind outcome_bind].
  destruct (match ar_ConsensusParamUpdates r with Some _ => _ | None => _ end) as [[np perr] lp]. destruct perr; [done|].
  injection E as <-. eexists. split; [done|]. split; [|done]. unfold alike, strip.
  cbn [st_Version st_ChainID st_LastBlockHeight st_LastBlockTotalTx st_LastBlockID st_LastBlockTime st_NextValidators
    st_Validators st_LastValidators st_LastHeightValidatorsChanged st_ConsensusParams st_LastHeightConsensusParamsChanged
    st_LastResultsHash st_AppHash].
  assert (decoded (st_Validators s) = decoded (st_Validators t)) as -> by (by apply decoded_eq). by rewrite Ed, En, Ev, Ec, Et.
Qed.

(** *** Accounts do not influence the application *)

Lemma save_txs_cons a tx txs : save_txs um a (tx :: txs) = save_txs um (save_txs um a [tx]) txs.
Proof. reflexivity. Qed.

Section connection.
Context {A : Type} `{AppConnConsensus A}.

Lemma deliver_ok (app : A) acc slots i txs app' acc' slots' :
  deliver_txs um app acc slots i txs = Ret (app', acc', Some slots') →
  acc' = save_txs um acc txs ∧
  ∀ acc2, deliver_txs um app acc2 slots i txs = Ret (app', save_txs um acc2 txs, Some slots').
Proof.
  revert app acc slots i. induction txs as [|tx txs IH]; intros app acc slots i; cbn [deliver_txs].
  { intros [= <- <- <-]. split; [done|]. by intros acc2. }
  intros E. apply bind_Ret in E as ([[app1 r]|] & E1 & E); [|done].
  apply bind_Ret in E as (slots1 & E2 & E). apply IH in E as [-> E]. split; [done|]. intros acc2.
  rewrite E1. cbn [mbind outcome_bind]. rewrite E2. cbn [mbind outcome_bind]. by rewrite E.
Qed.

(** The results fill the slots from the first. *)
Lemma deliver_slots (app : A) acc pre m txs app' acc' slots' :
  deliver_txs um app acc (pre ++ replicate m None) (zlen pre) txs = Ret (app', acc', Some slots') →
  ∃ rs, length rs = length txs ∧ (length txs ≤ m)%nat ∧ slots' = pre ++ (Some <$> rs) ++ replicate (m - length txs) None.
Proof.
  revert app acc pre m. induction txs as [|tx txs IH]; intros app acc pre m; cbn [deliver_txs].
  { intros [= <- <- <-]. exists []. split_and!; cbn; [done|lia|]. by rewrite Nat.sub_0_r. }
  intros E. apply bind_Ret in E as ([[app1 r]|] & E1 & E); [|done].
  apply bind_Ret in E as (slots1 & [Hb ->]%slice_set_Ret & E).
  destruct m as [|m]. { unfold zlen in Hb. rewrite length_app in Hb. cbn in Hb. lia. }
  assert (<[Z.to_nat (zlen pre) := Some r]> (pre ++ replicate (S m) None) = (pre ++ [Some r]) ++ replicate m None) as Ei.
  { unfold zlen. rewrite Nat2Z.id, insert_app_r_alt by lia. rewrite Nat.sub_diag. cbn. by rewrite <-app_assoc. }
  rewrite Ei in E. replace (zlen pre + 1) with (zlen (pre ++ [Some r])) in E
    by (unfold zlen; rewrite length_app; cbn; lia).
  apply IH in E as (rs & Hl & Hm & ->). exists (r :: rs). split_and!; [cbn; lia|cbn; lia|].
  rewrite <-app_assoc. done.
Qed.

End connection.

(** The mock application gives the results it was made with. *)
Lemma deliver_mock h c r acc pre m txs rs rest :
  drop c (ar_DeliverTx r) = rs ++ rest → length rs = length txs → (length txs ≤ m)%nat →
  deliver_txs um (mkMock h (Z.of_nat c) r) acc (pre ++ replicate m None) (zlen pre) txs =
    Ret (mkMock h (Z.of_nat (c + length txs)) r, save_txs um acc txs,
         Some (pre ++ (Some <$> rs) ++ replicate (m - length txs) None)).
Proof.
  revert c acc pre m rs. induction txs as [|tx txs IH]; intros c acc pre m rs Hd Hl Hm; cbn [deliver_txs].
  { destruct rs; [|done]. cbn. by rewrite Nat.sub_0_r, Nat.add_0_r. }
  destruct rs as [|x rs]; [done|]. destruct m as [|m]; [cbn in Hm; lia|].
  assert (ar_DeliverTx r !! c = Some x) as Hx.
  { rewrite <-(Nat.add_0_r c), <-lookup_drop, Hd. done. }
  cbn [DeliverTxAsync mock_conn mk_responses mk_txCount mk_appHash]. rewrite (slice_get_ok _ _ _ Hx). cbn [mbind outcome_bind].
  assert (slice_set (pre ++ replicate (S m) None) (zlen pre) (Some x) = Ret ((pre ++ [Some x]) ++ replicate m None)) as ->.
  { apply slice_set_Ret. split; [unfold zlen; rewrite length_app; cbn; lia|].
    unfold zlen. rewrite Nat2Z.id, insert_app_r_alt by lia. rewrite Nat.sub_diag. cbn. by rewrite <-app_assoc. }
  cbn [mbind outcome_bind]. replace (zlen pre + 1) with (zlen (pre ++ [Some x])) by (unfold zlen; rewrite length_app; cbn; lia).
  replace (Z.of_nat c + 1) with (Z.of_nat (S c)) by lia.
  assert (drop (S c) (ar_DeliverTx r) = rs ++ rest) as Hd'.
  { rewrite <-Nat.add_1_r, <-drop_drop, Hd. done. }
  rewrite (IH (S c) (save_txs um acc [tx]) (pre ++ [Some x]) m rs Hd') by (cbn in *; lia).
  rewrite <-save_txs_cons, <-app_assoc. do 3 f_equal. f_equal. cbn [length]. lia.
Qed.

(** *** The stages on alike states *)

Lemma load_ext (db db' : StateDB) h :
  (∀ k, loadValidatorsInfo db k = loadValidatorsInfo db' k) → LoadValidators db h = LoadValidators db' h.
Proof. intros E. unfold LoadValidators. rewrite E. case_match; [|done]. case_match; [done|]. by rewrite !E. Qed.

Lemma request_ext (db db' : StateDB) v v' block :
  (∀ k, loadValidatorsInfo db k = loadValidatorsInfo db' k) → Validators v = Validators v' →
  request_of Sum db v block = request_of Sum db' v' block.
Proof.
  intros E Ev. unfold request_of, getBeginBlockValidatorInfo. rewrite Ev.
  assert (∀ t l, mapM (evidence_info db t) l = mapM (evidence_info db' t) l) as El.
  { intros t l. induction l as [|ev l IH]; [done|]. cbn [mapM]. rewrite IH.
    assert (evidence_info db t ev = evidence_info db' t ev) as ->; [|done].
    unfold evidence_info. destruct (DVE_Height ev) as [h|]; [|done]. cbn [mbind outcome_bind]. by rewrite (load_ext db db') by done. }
  by rewrite El.
Qed.

(** What was loaded for a block does not depend on entries of later heights. *)
Lemma request_past (db db' : StateDB) bound v v' block req :
  0 ≤ bound → (∀ k i, loadValidatorsInfo db k = Some i → k ≤ bound ∧ vi_LastHeightChanged i ≤ k) →
  (∀ k, k ≤ bound → loadValidatorsInfo db k = loadValidatorsInfo db' k) → Validators v = Validators v' →
  request_of Sum db v block = Ret req → request_of Sum db' v' block = Ret req.
Proof.
  intros H0' Hb Hd Ev. unfold request_of, getBeginBlockValidatorInfo. rewrite Ev.
  assert (∀ h vals, LoadValidators db h = Ret (Some vals) → LoadValidators db' h = Ret (Some vals)) as Hload.
  { intros h vals. unfold LoadValidators. destruct (loadValidatorsInfo db h) as [i|] eqn:Ei; [|done].
    destruct (Hb h i Ei) as [Hh Hi]. rewrite <-Hd, Ei by done. destruct (vi_ValidatorSet i); [done|].
    assert (lastStoredHeightFor h (vi_LastHeightChanged i) ≤ bound) as Hls.
    { unfold lastStoredHeightFor, valSetCheckpointInterval. pose proof (Z.quot_rem' h 100000). pose proof (Z.rem_bound_abs h 100000).
      destruct (Z_le_gt_dec 0 h); [pose proof (Z.rem_nonneg h 100000)|pose proof (Z.rem_nonpos h 100000)]; lia. }
    rewrite <-!Hd by lia. done. }
  assert (∀ t l infos, mapM (evidence_info db t) l = Ret infos → mapM (evidence_info db' t) l = Ret infos) as El.
  { intros t l. induction l as [|ev l IH]; intros infos; cbn [mapM]; [done|].
    intros (x & Ex & (xs & Exs & E)%bind_Ret)%bind_Ret. rewrite (IH _ Exs).
    assert (evidence_info db' t ev = Ret x) as ->; [|exact E]. unfold evidence_info in *.
    apply bind_Ret in Ex as (h & -> & Ex). cbn [mbind outcome_bind]. apply bind_Ret in Ex as ([vals|] & Ev' & Ex); [|done].
    by rewrite (Hload _ _ Ev'). }
  intros ((ci & byz) & E1 & E2)%bind_Ret. apply bind_Ret in E1 as (lc & -> & E1). cbn [mbind outcome_bind].
  apply bind_Ret in E1 as (infos & Ei & E1). rewrite (El _ _ _ Ei). cbn [mbind outcome_bind]. injection E1 as <- <-. exact E2.
Qed.

Lemma take_snapshot_db env acc st block : ac_db (take_snapshot env acc st block) = ac_db acc.
Proof. unfold take_snapshot. by repeat case_match. Qed.

Lemma validateBlock_alike s t block : alike s t → validateBlock Sum s block = validateBlock Sum t block.
Proof. intros Ha. injection Ha as Ev Ec _ _ _ Ei. unfold validateBlock. by rewrite Ev, Ec, Ei. Qed.

Lemma apply_update_alike s t bid block r s' :
  alike s t → wf (st_NextValidators s) → wf (st_NextValidators t) →
  apply_update Sum encResult s bid block r = Ret (s', None) →
  ∃ t', apply_update Sum encResult t bid block r = Ret (t', None) ∧ alike s' t' ∧ st_HashSignature t' = st_HashSignature t.
Proof.
  intros Ha Hs Ht. unfold apply_update. pose proof Ha as [= _ _ _ _ _ _ _ _ _ _ _ _ _ Ep]. rewrite Ep.
  case_match; [done|]. case_match; [|done]. intros E. apply bind_Ret in E as ([s1 [err|]] & E1 & E); [done|].
  injection E as <-. destruct (updateState_alike _ _ _ _ _ _ _ _ Ha Hs Ht E1) as (t' & -> & Ha' & Hsig). by exists t'.
Qed.

Lemma prepare_ok {A} env (nd : node_data (A := A)) s block nd' calls :
  apply_prepare Sum NewTX env nd s block = Ret (nd', calls, None) →
  nd_db nd' = nd_db nd ∧ nd_app nd' = nd_app nd ∧ ac_db (nd_acc nd') = ac_db (nd_acc nd) ∧
  ∀ B env2 (nd2 : node_data (A := B)) t, alike s t →
    apply_prepare Sum NewTX env2 nd2 t block =
      Ret (mkNode (nd_db nd2) (take_snapshot env2 (nd_acc nd2) t block) (nd_app nd2), calls, None).
Proof.
  unfold apply_prepare. intros E. apply bind_Ret in E as ([err|] & E1 & E); [done|].
  apply bind_Ret in E as ([add rem] & E2 & E). injection E as <- <-. cbn [nd_db nd_app nd_acc]. split_and!; [done..|apply take_snapshot_db|].
  intros B env2 nd2 t Ha. rewrite <-(validateBlock_alike s t block Ha), E1. cbn [mbind outcome_bind]. rewrite E2. done.
Qed.

Lemma to_responses_ok slots ups r :
  to_responses slots ups = Ret r → slots = Some <$> ar_DeliverTx r ∧ ups = (ar_ConsensusParamUpdates r, ar_ValidatorUpdates r).
Proof.
  unfold to_responses. intros E. apply bind_Ret in E as (rs & E & [= <-]). destruct ups. cbn. split; [|done].
  revert rs E. induction slots as [|[x|] slots IH]; intros rs E; cbn [mapM] in E; [by injection E as <-| |done].
  cbn [or_panic mbind outcome_bind] in E. apply bind_Ret in E as (rs1 & E1 & [= <-]). cbn. f_equal. by apply IH.
Qed.

Lemma to_responses_all r :
  to_responses (Some <$> ar_DeliverTx r) (ar_ConsensusParamUpdates r, ar_ValidatorUpdates r) = Ret r.
Proof.
  unfold to_responses. assert (∀ l : list ABCIResult, mapM or_panic (Some <$> l) = Ret l) as Hl.
  { intros l. induction l as [|x l IH]; [done|]. cbn [fmap list_fmap mapM or_panic mbind outcome_bind]. by rewrite IH. }
  rewrite Hl. by destruct r.
Qed.

Lemma NewABCIResponses_ok block slots :
  NewABCIResponses block = Ret slots → ∃ m, slots = replicate m None.
Proof. unfold NewABCIResponses. case_match; [done|]. intros [= <-]. by eexists. Qed.

(** The steps of a successful execution. *)
Lemma exec_inv {A} `{AppConnConsensus A} (app : A) acc block v db app' acc' res :
  execBlockOnProxyApp Sum um app acc block v db = Ret (app', acc', Some res) →
  ∃ m req app1 app2, NewABCIResponses block = Ret (replicate m None) ∧ request_of Sum db v block = Ret req ∧
    BeginBlockSync app req = Ret (Some app1) ∧
    deliver_txs um app1 acc (replicate m None) 0 (blk_Txs block) = Ret (app2, acc', Some res.1) ∧
    EndBlockSync app2 (hd_Height (blk_Header block)) = Ret (Some (app', res.2)).
Proof.
  unfold execBlockOnProxyApp. intros E. apply bind_Ret in E as (slots & E1 & E).
  destruct (NewABCIResponses_ok _ _ E1) as [m ->]. apply bind_Ret in E as (req & E2 & E).
  apply bind_Ret in E as ([app1|] & E3 & E); [|done]. apply bind_Ret in E as ([[app2 acc2] [slots2|]] & E4 & E); [|done].
  apply bind_Ret in E as ([[app3 ups]|] & E5 & E); [|done]. injection E as <- <- <-. by exists m, req, app1, app2.
Qed.

(** Executed again, on the same application with the same request, a block gives the same results. *)
Lemma apply_exec_again {A} `{AppConnConsensus A} (nd : node_data (A := A)) s block nd' r :
  apply_exec Sum um nd s block = Ret (nd', Some r) →
  nd_db nd' = nd_db nd ∧ nd_acc nd' = save_txs um (nd_acc nd) (blk_Txs block) ∧
  ∀ (nd2 : node_data (A := A)) t, nd_app nd2 = nd_app nd →
    request_of Sum (nd_db nd2) (st_LastValidators t) block = request_of Sum (nd_db nd) (st_LastValidators s) block →
    apply_exec Sum um nd2 t block =
      Ret (mkNode (nd_db nd2) (save_txs um (nd_acc nd2) (blk_Txs block)) (nd_app nd'), Some r).
Proof.
  unfold apply_exec. intros E. apply bind_Ret in E as ([[app acc] [res|]] & E1 & E); [|done].
  destruct res as [slots ups]. apply bind_Ret in E as (r' & Er & [= <- <-]). cbn [nd_db nd_acc nd_app].
  destruct (exec_inv _ _ _ _ _ _ _ _ E1) as (m & req & app1 & app2 & En & Eq & Eb & Ed & Ee). cbn [fst snd] in *.
  destruct (deliver_ok _ _ _ _ _ _ _ _ Ed) as [-> Ed2]. split_and!; [done..|].
  intros nd2 t Happ Hreq. unfold execBlockOnProxyApp. rewrite En, Hreq, Eq, Happ. cbn [mbind outcome_bind].
  rewrite Eb. cbn [mbind outcome_bind]. rewrite Ed2. cbn [mbind outcome_bind]. rewrite Ee. cbn [mbind outcome_bind].
  rewrite Er. done.
Qed.

(** So does the mock application made from the saved responses. *)
Lemma apply_exec_mock {A} `{AppConnConsensus A} (nd : node_data (A := A)) s block nd' r :
  apply_exec Sum um nd s block = Ret (nd', Some r) →
  ∀ (nd2 : node_data (A := mockProxyApp)) t h, nd_app nd2 = newMockProxyApp h r →
    request_of Sum (nd_db nd2) (st_LastValidators t) block = request_of Sum (nd_db nd) (st_LastValidators s) block →
    apply_exec Sum um nd2 t block =
      Ret (mkNode (nd_db nd2) (save_txs um (nd_acc nd2) (blk_Txs block)) (mkMock h 0 r), Some r).
Proof.
  unfold apply_exec. intros E. apply bind_Ret in E as ([[app acc] [res|]] & E1 & E); [|done].
  destruct res as [slots ups]. apply bind_Ret in E as (r' & Er & [= <- <-]).
  destruct (exec_inv _ _ _ _ _ _ _ _ E1) as (m & req & app1 & app2 & En & Eq & Eb & Ed & Ee). cbn [fst snd] in *.
  destruct (deliver_slots app1 (nd_acc nd) [] m _ _ _ _ Ed) as (rs & Hl & Hm & Es). cbn [List.app] in Es.
  apply to_responses_ok in Er as [Er ->].
  assert (m - length (blk_Txs block) = 0)%nat as Hz.
  { destruct (m - length (blk_Txs block))%nat as [|k]; [done|]. exfalso.
    assert (None ∈ Some <$> ar_DeliverTx r') as (x & ? & _)%list_elem_of_fmap; [|done].
    rewrite <-Er, Es. apply elem_of_app. right. left. }
  rewrite Hz in Es. cbn [replicate] in Es. rewrite app_nil_r in Es.
  assert (rs = ar_DeliverTx r') as -> by (apply (inj (fmap Some)); by rewrite <-Er, Es).
  intros nd2 t h Happ Hreq. unfold execBlockOnProxyApp. rewrite En, Hreq, Eq, Happ. cbn [mbind outcome_bind BeginBlockSync mock_conn].
  change (newMockProxyApp h r') with (mkMock h (Z.of_nat 0) r').
  pose proof (deliver_mock h 0 r' (nd_acc nd2) [] m (blk_Txs block) (ar_DeliverTx r') []) as Hmock.
  cbn [List.app] in Hmock. change (zlen (A := option ABCIResult) []) with 0 in Hmock.
  rewrite Hmock by (try rewrite app_nil_r; done). cbn [mbind outcome_bind EndBlockSync mock_conn mk_appHash mk_responses].
  rewrite Hz. cbn [replicate]. rewrite app_nil_r, to_responses_all. done.
Qed.

(** The stages of a successful [ApplyBlock]. *)
Lemma ApplyBlock_inv {A} `{AppConnConsensus A} env (nd : node_data (A := A)) s bid block flag nd' calls s' :
  ApplyBlock Sum encResult um NewTX env nd s bid block flag = Ret (nd', calls, (s', None)) →
  ∃ nd1 c1 nd2 r s1 nd3 c3 hash, apply_prepare Sum NewTX env nd s block = Ret (nd1, c1, None) ∧
    apply_exec Sum um nd1 s block = Ret (nd2, Some r) ∧ apply_update Sum encResult s bid block r = Ret (s1, None) ∧
    apply_commit env (apply_responses nd2 block r) block = Ret (nd3, c3, Some hash) ∧ apply_save nd3 s1 hash = Ret (nd', s').
Proof.
  unfold ApplyBlock. intros E. apply bind_Ret in E as ([[nd1 c1] [err|]] & E1 & E); [done|].
  apply bind_Ret in E as ([nd2 [r|]] & E2 & E); [|done]. apply bind_Ret in E as ([s1 [err|]] & E3 & E); [done|].
  apply bind_Ret in E as ([[nd3 c3] [hash|]] & E4 & E); [|done]. apply bind_Ret in E as ([nd4 s4] & E5 & E).
  injection E as <- <- <-. by exists nd1, c1, nd2, r, s1, nd3, c3, hash.
Qed.

(** And of one on any connection that executes the block with the results [r] and then commits. *)
Lemma ApplyBlock_finish {B} `{AppConnConsensus B} env (nd : node_data (A := B)) t bid block nd1 c1 b r t1 b' hash :
  en_FlushErr env = false → en_UpdateErr env = false →
  apply_prepare Sum NewTX env nd t block = Ret (nd1, c1, None) →
  apply_exec Sum um nd1 t block = Ret (mkNode (nd_db nd1) (save_txs um (nd_acc nd1) (blk_Txs block)) b, Some r) →
  apply_update Sum encResult t bid block r = Ret (t1, None) → CommitSync b = Ret (Some (b', hash)) →
  (∃ db0 d0 s0, SaveState db0 s0 = Ret d0 ∧ st_LastBlockHeight t1 = st_LastBlockHeight s0 ∧
     st_LastHeightValidatorsChanged t1 = st_LastHeightValidatorsChanged s0) →
  ∃ nd' calls, ApplyBlock Sum encResult um NewTX env nd t bid block false = Ret (nd', calls, (with_AppHash t1 hash, None)) ∧
    nd_app nd' = b' ∧ nd_acc nd' = save_txs um (nd_acc nd1) (blk_Txs block) ∧
    db_state (nd_db nd') = Some (with_AppHash t1 hash).
Proof.
  intros Hf Hu E1 E2 E3 E4 (db0 & d0 & s0 & Es & Hh & Hc).
  assert (∀ db, ∃ d, SaveState db (with_AppHash t1 hash) = Ret d ∧ db_state d = Some (with_AppHash t1 hash)) as Hsave.
  { intros db. assert (∃ d, SaveState db (with_AppHash t1 hash) = Ret d) as [d Ed].
    { revert Es. unfold SaveState, saveValidatorsInfo, with_AppHash.
      cbn [st_LastBlockHeight st_LastHeightValidatorsChanged st_Validators st_NextValidators]. rewrite Hh, Hc.
      destruct (Z.eqb_spec (st_LastBlockHeight s0 + 1) 1) as [->|]; cbn [mbind outcome_bind].
      - rewrite Z.ltb_irrefl. cbn [mbind outcome_bind]. case_match; [done|]. intros _. by eexists.
      - case_match; [done|]. intros _. by eexists. }
    exists d. split; [done|]. by destruct (SaveState_spec _ _ _ Ed) as (_ & _ & _ & _ & ?). }
  unfold ApplyBlock. rewrite E1. cbn [mbind outcome_bind]. rewrite E2. cbn [mbind outcome_bind]. rewrite E3. cbn [mbind outcome_bind].
  unfold apply_commit, apply_responses. cbn [nd_app nd_db nd_acc]. rewrite Hf, E4. cbn [mbind outcome_bind]. rewrite Hu.
  cbn [mbind outcome_bind]. unfold apply_save. cbn [nd_app nd_db nd_acc].
  destruct (Hsave (saveABCIResponses (nd_db nd1) (hd_Height (blk_Header block)) r)) as (d & -> & Hd).
  cbn [mbind outcome_bind]. eexists _, _. split_and!; done.
Qed.

End execution.

(** ** Crashes *)

Section crash.
Context (Sum : bytes → bytes) (encResult : ABCIResult → bytes) (um : bytes → option TxArg)
  (NewTX : bytes → option Identypes.TX) (unmarshalBlock : bytes → option Block) (SnapshotVersion : bytes).
Context `{Crypto} `{BlockCodec} `{KeyCodec}.
Context {A : Type} `{AppConnConsensus A} `{AppConnQuery A} (Restart : A → A) (appVersion : Z).

(** What ABCI asks of an application: it keeps what it committed and nothing else, and knows the height and the hash of
    its last commit. *)
Class AppLaws : Prop := {
  restart_begin a req a' : BeginBlockSync a req = Ret (Some a') → Restart a' = Restart a;
  restart_deliver a tx a' r : DeliverTxAsync a tx = Ret (Some (a', r)) → Restart a' = Restart a;
  restart_end a h a' u : EndBlockSync a h = Ret (Some (a', u)) → Restart a' = Restart a;
  restart_commit a a' data : CommitSync a = Ret (Some (a', data)) → Restart a' = a';
  info_commit a h a1 u a2 data : EndBlockSync a h = Ret (Some (a1, u)) → CommitSync a1 = Ret (Some (a2, data)) →
    InfoSync a2 = Ret (Some (h, data, appVersion))
}.

Notation node := (node_data (A := A)).

(** What a crash leaves: the databases; snapshots are kept in memory only. *)
Definition restart (nd : node) : node :=
  mkNode (nd_db nd) (mkAccounts (ac_db (nd_acc nd)) (mkSnapshot 0 None None None) ∅) (Restart (nd_app nd)).

(** Start with the state of the database. *)
Definition recover (store : BlockStore) (genDoc : GenesisDoc) (nd : node) : outcome (node * option handshake_error) :=
  state ← or_panic (LoadState (nd_db nd));
  Handshake Sum encResult um NewTX unmarshalBlock SnapshotVersion store genDoc nd state.

(** The transfers of the first [k] transactions have been saved; with [half], the payer of the next one has paid too. *)
Definition half_saved (a : accounts) (tx : bytes) : accounts :=
  match NewAccountLog um tx with
  | Some l => if bytes_equal (al_TxType l) (str "checkpoint") || bytes_equal (al_TxType l) (str "addtx") then a else save_from a l
  | None => a
  end.

Definition saved_part (a : accounts) (txs : list Tx) (k : nat) (half : bool) : accounts :=
  let a := save_txs um a (take k txs) in
  match txs !! k with Some tx => if half then half_saved a tx else a | None => a end.

(** The database while [SaveState] writes: the validators of the next height (on the first block also those of this one), then the
    parameters; the state itself is written last. *)
Inductive saving (db : StateDB) (state : State) : StateDB → Prop :=
| saving_first db1 :
    (if st_LastBlockHeight state + 1 =? 1 then saveValidatorsInfo db (st_LastBlockHeight state + 1) 1 (st_Validators state)
     else Ret db) = Ret db1 →
    saving db state db1
| saving_next db1 db2 :
    saving db state db1 →
    saveValidatorsInfo db1 (st_LastBlockHeight state + 1 + 1) (st_LastHeightValidatorsChanged state) (st_NextValidators state) =
      Ret db2 →
    saving db state db2
| saving_params db1 :
    saving db state db1 →
    saving db state (saveConsensusParamsInfo db1 (st_LastBlockHeight state + 1) (st_LastHeightConsensusParamsChanged state)
      (st_ConsensusParams state)).

(** The points of [ApplyBlock] at which the node may stop: the transfers of [k] transactions have been saved, and half of the next
    one ([half]); [committed] says whether the state was saved too. *)
Inductive crash (env : exec_env) (nd : node) (s : State) (bid : BlockID) (block : Block) : nat → bool → bool → node → Prop :=
| crash_start : crash env nd s bid block 0 false false nd
| crash_prepared nd1 c1 : apply_prepare Sum NewTX env nd s block = Ret (nd1, c1, None) → crash env nd s bid block 0 false false nd1
| crash_delivering nd1 c1 slots req app1 k app2 acc2 slots2 :
    apply_prepare Sum NewTX env nd s block = Ret (nd1, c1, None) → NewABCIResponses block = Ret slots →
    request_of Sum (nd_db nd1) (st_LastValidators s) block = Ret req → BeginBlockSync (nd_app nd1) req = Ret (Some app1) →
    deliver_txs um app1 (nd_acc nd1) slots 0 (take k (blk_Txs block)) = Ret (app2, acc2, Some slots2) →
    crash env nd s bid block k false false (mkNode (nd_db nd1) acc2 app2)
| crash_delivered nd1 c1 slots req app1 k app2 acc2 slots2 tx app3 r half :
    apply_prepare Sum NewTX env nd s block = Ret (nd1, c1, None) → NewABCIResponses block = Ret slots →
    request_of Sum (nd_db nd1) (st_LastValidators s) block = Ret req → BeginBlockSync (nd_app nd1) req = Ret (Some app1) →
    deliver_txs um app1 (nd_acc nd1) slots 0 (take k (blk_Txs block)) = Ret (app2, acc2, Some slots2) →
    blk_Txs block !! k = Some tx → DeliverTxAsync app2 tx = Ret (Some (app3, r)) →
    crash env nd s bid block k half false (mkNode (nd_db nd1) (if half then half_saved acc2 tx else acc2) app3)
| crash_executed nd1 c1 nd2 r :
    apply_prepare Sum NewTX env nd s block = Ret (nd1, c1, None) → apply_exec Sum um nd1 s block = Ret (nd2, Some r) →
    crash env nd s bid block (length (blk_Txs block)) false false nd2
| crash_responses nd1 c1 nd2 r :
    apply_prepare Sum NewTX env nd s block = Ret (nd1, c1, None) → apply_exec Sum um nd1 s block = Ret (nd2, Some r) →
    crash env nd s bid block (length (blk_Txs block)) false false (apply_responses nd2 block r)
| crash_committed nd1 c1 nd2 r nd3 c3 hash :
    apply_prepare Sum NewTX env nd s block = Ret (nd1, c1, None) → apply_exec Sum um nd1 s block = Ret (nd2, Some r) →
    apply_commit env (apply_responses nd2 block r) block = Ret (nd3, c3, Some hash) →
    crash env nd s bid block (length (blk_Txs block)) false false nd3
| crash_saving nd1 c1 nd2 r s1 nd3 c3 hash db4 :
    apply_prepare Sum NewTX env nd s block = Ret (nd1, c1, None) → apply_exec Sum um nd1 s block = Ret (nd2, Some r) →
    apply_update Sum encResult s bid block r = Ret (s1, None) →
    apply_commit env (apply_responses nd2 block r) block = Ret (nd3, c3, Some hash) →
    saving (nd_db nd3) (with_AppHash s1 hash) db4 →
    crash env nd s bid block (length (blk_Txs block)) false false (mkNode db4 (nd_acc nd3) (nd_app nd3))
| crash_saved nd1 c1 nd2 r s1 nd3 c3 hash nd4 s4 :
    apply_prepare Sum NewTX env nd s block = Ret (nd1, c1, None) → apply_exec Sum um nd1 s block = Ret (nd2, Some r) →
    apply_update Sum encResult s bid block r = Ret (s1, None) →
    apply_commit env (apply_responses nd2 block r) block = Ret (nd3, c3, Some hash) → apply_save nd3 s1 hash = Ret (nd4, s4) →
    crash env nd s bid block (length (blk_Txs block)) false true nd4.

(** A node between two blocks: [saved] is the state in its database, [mem] the one in memory. The database has the validators of
    no later height than the next, and each entry names a height before it. *)
Record at_rest (nd : node) (saved mem : State) : Prop := {
  re_saved : ∃ db0, SaveState db0 saved = Ret (nd_db nd);
  re_height : 0 < st_LastBlockHeight saved;
  re_past k i : loadValidatorsInfo (nd_db nd) k = Some i → k ≤ st_LastBlockHeight saved + 2 ∧ vi_LastHeightChanged i ≤ k;
  re_mem : alike saved mem;
  re_wf_saved : wf (st_NextValidators saved);
  re_wf_mem : wf (st_NextValidators mem);
  re_version : v_App (st_Version saved) = appVersion;
  re_app : Restart (nd_app nd) = nd_app nd;
  re_info : InfoSync (nd_app nd) = Ret (Some (st_LastBlockHeight saved, st_AppHash saved, appVersion))
}.

(** The block has been saved and is the last one of the store. *)
Record last_stored (store : BlockStore) (bid : BlockID) (block : Block) : Prop := {
  ls_height : BS_Height store = hd_Height (blk_Header block);
  ls_block : LoadBlock unmarshalBlock store (BS_Height store) = Ret (Some block);
  ls_meta : ∃ meta, LoadBlockMeta store (BS_Height store) = Some meta ∧ bm_BlockID meta = bid
}.

(** *** Lemmas *)

Lemma save_from_db a b l : ac_db a = ac_db b → ac_db (save_from a l) = ac_db (save_from b l).
Proof.
  intros E. unfold save_from, getState, setState. rewrite E. destruct (_ || _); [|exact E].
  destruct (negb _); [|exact E]. reflexivity.
Qed.

Lemma half_saved_db a b tx : ac_db a = ac_db b → ac_db (half_saved a tx) = ac_db (half_saved b tx).
Proof.
  intros E. unfold half_saved. destruct (NewAccountLog um tx) as [l|]; [|exact E].
  destruct (_ || _); [exact E|by apply save_from_db].
Qed.

(** Transactions that keep apart from the keys of the state do not write under them. *)
Section state_keys.
Context (key : bytes) (Hkey : state_key key = true).

Lemma save_from_apart a l : state_key (al_From l) = false → ac_db (save_from a l) !! key = ac_db a !! key.
Proof.
  intros Hf. unfold save_from. destruct (_ || _); [|done]. destruct (negb _); [|done].
  cbn [setState ac_db]. rewrite lookup_insert_ne; [done|]. congruence.
Qed.

Lemma save_to_apart a l : state_key (al_To l) = false → ac_db (save_to a l) !! key = ac_db a !! key.
Proof.
  intros Hf. unfold save_to. destruct (_ || _); [|done]. cbn [setState ac_db]. rewrite lookup_insert_ne; [done|]. congruence.
Qed.

Lemma cache_db a k x i : ac_db (SetSnapshotCache a k x i) = ac_db a.
Proof. unfold SetSnapshotCache. by destruct (bytes_equal _ _). Qed.

Lemma save_txs_apart a txs : Forall (apart um) txs → ac_db (save_txs um a txs) !! key = ac_db a !! key.
Proof.
  intros Hf. revert a. induction Hf as [|tx txs Ht _ IH]; intros a; [done|]. rewrite save_txs_cons, IH.
  unfold save_txs. cbn [foldl]. unfold apart in Ht. destruct (NewAccountLog um tx) as [l|]; [|done]. destruct Ht as [Hfrom Hto].
  unfold Save. destruct (_ || _); [done|]. by rewrite !cache_db, save_to_apart, save_from_apart.
Qed.

Lemma saved_part_apart a txs k half : Forall (apart um) txs → ac_db (saved_part a txs k half) !! key = ac_db a !! key.
Proof.
  intros Hf. assert (∀ n, ac_db (save_txs um a (take n txs)) !! key = ac_db a !! key) as Ht.
  { intros n. apply save_txs_apart. by apply Forall_take. }
  unfold saved_part. destruct (txs !! k) as [tx|] eqn:E; [|apply Ht]. destruct half; [|apply Ht].
  rewrite Forall_lookup in Hf. specialize (Hf _ _ E). unfold half_saved, apart in *.
  destruct (NewAccountLog um tx) as [l|]; [|apply Ht]. destruct Hf as [Hfrom _]. destruct (_ || _); [apply Ht|].
  by rewrite save_from_apart, Ht.
Qed.

End state_keys.

Lemma saved_part_all a txs : saved_part a txs (length txs) false = save_txs um a txs.
Proof. unfold saved_part. rewrite take_ge by done. by case_match. Qed.

(** What is written before the state concerns later heights only. *)
Lemma saving_later db st db' :
  0 < st_LastBlockHeight st → saving db st db' →
  db_state db' = db_state db ∧ db_responses db' = db_responses db ∧
  ∀ k, k ≤ st_LastBlockHeight st + 1 → db_validators db' !! k = db_validators db !! k.
Proof.
  intros Hh. induction 1 as [db1 E|db1 db2 _ (A1 & A2 & A3) E|db1 _ IH]; [| |exact IH].
  - rewrite (proj2 (Z.eqb_neq (st_LastBlockHeight st + 1) 1)) in E by lia. by injection E as <-.
  - unfold saveValidatorsInfo in E. case_match; [done|]. injection E as <-. split_and!; [exact A1|exact A2|].
    intros k Hk. cbn [put_validators db_validators]. rewrite lookup_insert_ne by lia. by apply A3.
Qed.

Lemma Save_db a b l : ac_db a = ac_db b → ac_db (Save a l) = ac_db (Save b l).
Proof.
  intros E. unfold Save. destruct (_ || _); [exact E|].
  assert (∀ a b k x i, ac_db a = ac_db b → ac_db (SetSnapshotCache a k x i) = ac_db (SetSnapshotCache b k x i)) as Hc.
  { intros ????? Ei. unfold SetSnapshotCache. destruct (bytes_equal _ _); exact Ei. }
  pose proof (λ a b, save_from_db a b l) as Hfrom.
  assert (∀ a b, ac_db a = ac_db b → ac_db (save_to a l) = ac_db (save_to b l)) as Hto.
  { intros ?? Ei. unfold save_to, getState, setState. rewrite Ei. destruct (_ || _); [|exact Ei]. cbn [ac_db]. reflexivity. }
  auto.
Qed.

Lemma save_txs_db a b txs : ac_db a = ac_db b → ac_db (save_txs um a txs) = ac_db (save_txs um b txs).
Proof.
  revert a b. induction txs as [|tx txs IH]; intros a b E; [exact E|].
  rewrite (save_txs_cons um a), (save_txs_cons um b). apply IH. unfold save_txs. cbn [foldl].
  destruct (NewAccountLog um tx); [by apply Save_db|exact E].
Qed.

Lemma deliver_restart `{!AppLaws} app acc slots i txs app' acc' slots' :
  deliver_txs um app acc slots i txs = Ret (app', acc', Some slots') → Restart app' = Restart app.
Proof.
  revert app acc slots i. induction txs as [|tx txs IH]; intros app acc slots i; cbn [deliver_txs]; [by intros [= <- _ _]|].
  intros E. apply bind_Ret in E as ([[app1 r]|] & E1 & E); [|done]. apply bind_Ret in E as (slots1 & E2 & E).
  apply IH in E as ->. by apply restart_deliver in E1.
Qed.

Lemma exec_restart `{!AppLaws} (nd : node) s block nd' r :
  apply_exec Sum um nd s block = Ret (nd', Some r) →
  Restart (nd_app nd') = Restart (nd_app nd) ∧
  ∃ a u, EndBlockSync a (hd_Height (blk_Header block)) = Ret (Some (nd_app nd', u)).
Proof.
  unfold apply_exec. intros E. apply bind_Ret in E as ([[app acc] [res|]] & E1 & E); [|done]. destruct res as [slots ups].
  apply bind_Ret in E as (r' & Er & [= <- <-]). cbn [nd_app].
  destruct (exec_inv _ _ _ _ _ _ _ _ _ _ E1) as (m & req & app1 & app2 & _ & _ & Eb & Ed & Ee). cbn [fst snd] in *. split.
  - rewrite (restart_end _ _ _ _ Ee), (deliver_restart _ _ _ _ _ _ _ _ Ed). by apply restart_begin in Eb.
  - by exists app2, ups.
Qed.

(** *** The recovery *)

Section recovery.
Context (env : exec_env) (nd : node) (saved mem : State) (bid : BlockID) (block : Block) (flag : bool)
  (nd' : node) (calls : list exec_call) (st' : State) (store : BlockStore) (genDoc : GenesisDoc).
Hypothesis Hrest : at_rest nd saved mem.
Hypothesis Hstore : last_stored store bid block.
Hypothesis Hheight : hd_Height (blk_Header block) = st_LastBlockHeight saved + 1.
Hypothesis Hrun : ApplyBlock Sum encResult um NewTX env nd mem bid block flag = Ret (nd', calls, (st', None)).

(** The heights whose validators the database of the node has. *)
Notation bound := (st_LastBlockHeight saved + 2).

(** The state is saved again when the handshake begins; no load tells the difference. *)
Lemma resaved db :
  (∀ k, k ≤ bound → db_validators db !! k = db_validators (nd_db nd) !! k) →
  ∃ d, SaveState db (decoded_state saved) = Ret d ∧ db_responses d = db_responses db ∧
    db_state d = Some (decoded_state saved) ∧ ∀ k, k ≤ bound → loadValidatorsInfo (nd_db nd) k = loadValidatorsInfo d k.
Proof.
  intros Edb. destruct (re_saved _ _ _ Hrest) as [db0 E0]. pose proof (re_height _ _ _ Hrest) as Hh.
  destruct (SaveState_spec _ _ _ E0) as (Ev & Hlc & _). cbn zeta in Ev.
  assert (st_LastBlockHeight saved + 1 =? 1 = false) as En by (apply Z.eqb_neq; lia). rewrite En in Ev.
  assert (∃ d, SaveState db (decoded_state saved) = Ret d) as [d Ed].
  { unfold SaveState, saveValidatorsInfo. cbn [decoded_state st_LastBlockHeight st_LastHeightValidatorsChanged].
    rewrite En. cbn [mbind outcome_bind]. rewrite (proj2 (Z.ltb_ge _ _)) by lia. by eexists. }
  exists d. destruct (SaveState_spec _ _ _ Ed) as (Ev' & _ & _ & Hr & Hs). split_and!; [done..|].
  cbn zeta in Ev'. cbn [decoded_state st_LastBlockHeight st_LastHeightValidatorsChanged st_NextValidators] in Ev'.
  rewrite En in Ev'. intros k Hk. unfold loadValidatorsInfo. rewrite Ev'. specialize (Edb k Hk). rewrite Ev in Edb |- *.
  destruct (decide (k = st_LastBlockHeight saved + 1 + 1)) as [->|]; [|by rewrite (lookup_insert_ne (db_validators db)) by done; rewrite Edb].
  rewrite !lookup_insert_eq. cbn [option_map vi_ValidatorSet vi_LastHeightChanged]. by case_match.
Qed.

(** The handshake of a node whose database still has the old state. *)
Lemma recover_cases (ndc : node) h hash :
  (∀ k, k ≤ bound → db_validators (nd_db ndc) !! k = db_validators (nd_db nd) !! k) → db_state (nd_db ndc) = Some saved →
  InfoSync (nd_app ndc) = Ret (Some (h, hash, appVersion)) → 0 < h →
  ∃ d, db_responses d = db_responses (nd_db ndc) ∧ (∀ k, k ≤ bound → loadValidatorsInfo (nd_db nd) k = loadValidatorsInfo d k) ∧
    recover store genDoc ndc =
      '(n, res) ← replay_cases Sum encResult um NewTX unmarshalBlock SnapshotVersion store
                    (mkNode d (nd_acc ndc) (nd_app ndc)) (decoded_state saved) hash h;
      Ret (n, match res with inl _ => None | inr err => Some err end).
Proof.
  intros Hv Hs Hi Hh. destruct (resaved _ Hv) as (d & Ed & Hr & _ & Hl). exists d. split_and!; [done..|].
  unfold recover, LoadState. rewrite Hs. cbn [option_map or_panic mbind outcome_bind]. unfold Handshake. rewrite Hi.
  cbn [mbind outcome_bind]. rewrite (proj2 (Z.ltb_ge h 0)) by lia.
  assert (with_AppVersion (decoded_state saved) appVersion = decoded_state saved) as ->.
  { rewrite <-(re_version _ _ _ Hrest). unfold with_AppVersion, decoded_state.
    cbn [st_Version st_ChainID st_LastBlockHeight st_LastBlockTotalTx st_LastBlockID st_LastBlockTime st_NextValidators
      st_Validators st_LastValidators st_LastHeightValidatorsChanged st_ConsensusParams st_LastHeightConsensusParamsChanged
      st_LastResultsHash st_AppHash st_SpTxBuf st_HashSignature]. by destruct (st_Version saved). }
  rewrite Ed. cbn [mbind outcome_bind]. unfold ReplayBlocks. rewrite (proj2 (Z.eqb_neq h 0)) by lia. done.
Qed.

(** The block applied from the store, on any connection that gives its results. *)
Lemma replayBlock_ok {B} `{AppConnConsensus B} (n : node_data (A := B)) nd1 c1 r s1 b b' hash :
  apply_prepare Sum NewTX env nd mem block = Ret (nd1, c1, None) → apply_update Sum encResult mem bid block r = Ret (s1, None) →
  (∃ db0 d0, SaveState db0 (with_AppHash s1 hash) = Ret d0) →
  (∀ acc, apply_exec Sum um (mkNode (nd_db n) acc (nd_app n)) (decoded_state saved) block =
     Ret (mkNode (nd_db n) (save_txs um acc (blk_Txs block)) b, Some r)) →
  CommitSync b = Ret (Some (b', hash)) →
  ∃ n' t, replayBlock Sum encResult um NewTX unmarshalBlock SnapshotVersion store n (decoded_state saved) (BS_Height store) =
      Ret (n', inl t) ∧ nd_app n' = b' ∧ db_state (nd_db n') = Some t ∧ alike (with_AppHash s1 hash) t ∧
    st_AppHash t = hash ∧ st_HashSignature t = st_HashSignature saved ∧
    ac_db (nd_acc n') = ac_db (save_txs um (nd_acc n) (blk_Txs block)).
Proof.
  intros E1 E2 (db0 & d0 & Es) E3 E4. destruct Hrest as [_ _ _ Hmem Hws Hwm _ _ _].
  assert (alike mem (decoded_state saved)) as Ha by (by rewrite alike_decoded).
  destruct (apply_update_alike _ _ _ _ _ _ _ _ Ha Hwm (wf_decoded _ Hws) E2) as (t1 & Et & Hat & Hsig).
  destruct (prepare_ok _ _ _ _ _ _ _ _ E1) as (_ & _ & _ & Hp).
  specialize (Hp B (mock_env SnapshotVersion) n _ Ha).
  destruct (ApplyBlock_finish Sum encResult um NewTX (mock_env SnapshotVersion) n (decoded_state saved) bid block _ c1 b r t1 b' hash
              eq_refl eq_refl Hp (E3 _) Et E4) as (n' & calls' & Eap & Hb & Hacc & Hdb).
  { exists db0, d0, (with_AppHash s1 hash). injection Hat as _ _ Eh _ _ _ _ _ _ _ _ _ Ec. done. }
  exists n', (with_AppHash t1 hash). destruct Hstore as [_ Hblock (meta & Hmeta & Hid)]. split.
  { unfold replayBlock. rewrite Hblock. cbn [mbind outcome_bind or_panic]. rewrite Hmeta. cbn [mbind outcome_bind or_panic].
    rewrite Hid, Eap. done. }
  split_and!; [done|done| |done|done|].
  - injection Hat. intros. unfold alike, strip, with_AppHash.
    cbn [st_Version st_ChainID st_LastBlockHeight st_LastBlockTotalTx st_LastBlockID st_LastBlockTime st_NextValidators
      st_Validators st_LastValidators st_LastHeightValidatorsChanged st_ConsensusParams st_LastHeightConsensusParamsChanged
      st_LastResultsHash st_AppHash]. f_equal; first [done|by apply decoded_eq].
  - rewrite Hacc. apply save_txs_db. cbn [nd_acc]. apply take_snapshot_db.
Qed.

Lemma apply_update_fields s b blk r s1 :
  apply_update Sum encResult s b blk r = Ret (s1, None) →
  st_LastBlockHeight s1 = hd_Height (blk_Header blk) ∧ st_Version s1 = st_Version s ∧ st_HashSignature s1 = st_HashSignature s.
Proof.
  unfold apply_update. case_match; [done|]. case_match; [|done]. intros E.
  apply bind_Ret in E as ([s2 [err|]] & E1 & [= <-]). unfold updateState in E1.
  apply bind_Ret in E1 as ([[nv err] lh] & _ & E1). destruct err; [done|]. apply bind_Ret in E1 as (nv' & _ & E1).
  destruct (match ar_ConsensusParamUpdates r with Some _ => _ | None => _ end) as [[np perr] lp]. destruct perr; [done|].
  by injection E1 as <-.
Qed.

(** The application is asked the same again. *)
Lemma same_request d nd1 c1 nd2 r :
  (∀ k, k ≤ bound → loadValidatorsInfo (nd_db nd) k = loadValidatorsInfo d k) →
  apply_prepare Sum NewTX env nd mem block = Ret (nd1, c1, None) → apply_exec Sum um nd1 mem block = Ret (nd2, Some r) →
  request_of Sum d (st_LastValidators (decoded_state saved)) block =
  request_of Sum (nd_db nd1) (st_LastValidators mem) block.
Proof.
  intros Hd E1 E2. assert (nd_db nd1 = nd_db nd) as Edb by apply (prepare_ok _ _ _ _ _ _ _ _ E1).
  unfold apply_exec in E2. apply bind_Ret in E2 as ([[app acc] [res|]] & Ex & E); [|done]; clear E.
  destruct (exec_inv _ _ _ _ _ _ _ _ _ _ Ex) as (m & req & app1 & app2 & _ & Eq & _). rewrite Eq. rewrite Edb in Eq.
  pose proof (re_height _ _ _ Hrest) as Hh.
  apply (request_past _ (nd_db nd) d bound (st_LastValidators mem)); [lia|exact (re_past _ _ _ Hrest)|done| |done].
  injection (re_mem _ _ _ Hrest) as _ _ _ _ _ _ _ _ _ _ Elv. by rewrite <-Elv.
Qed.

(** A crash before the application committed: it restarts at the old height and executes the block again. *)
Lemma recover_real (ndc : node) :
  (∀ k, k ≤ bound → db_validators (nd_db ndc) !! k = db_validators (nd_db nd) !! k) → db_state (nd_db ndc) = Some saved → nd_app ndc = nd_app nd →
  ∃ n t, recover store genDoc ndc = Ret (n, None) ∧ nd_app n = nd_app nd' ∧ db_state (nd_db n) = Some t ∧ alike st' t ∧
    st_HashSignature t = st_HashSignature saved ∧ ac_db (nd_acc n) = ac_db (save_txs um (nd_acc ndc) (blk_Txs block)).
Proof.
  intros Hv Hs Happ.
  destruct (ApplyBlock_inv _ _ _ _ _ _ _ _ _ _ _ _ _ Hrun) as (nd1 & c1 & nd2 & r & s1 & nd3 & c3 & hash & E1 & E2 & E3 & E4 & E5).
  pose proof (re_height _ _ _ Hrest) as Hh. destruct Hstore as [Hsh _ _].
  destruct (recover_cases ndc (st_LastBlockHeight saved) (st_AppHash saved) Hv Hs) as (d & _ & Hl & ->).
  { rewrite Happ. apply Hrest. } { done. }
  unfold replay_cases. cbn [decoded_state st_LastBlockHeight]. rewrite Hsh, Hheight.
  rewrite (proj2 (Z.eqb_neq (st_LastBlockHeight saved + 1) 0)) by lia.
  rewrite (proj2 (Z.ltb_ge (st_LastBlockHeight saved + 1) (st_LastBlockHeight saved))) by lia.
  rewrite (proj2 (Z.eqb_neq (st_LastBlockHeight saved + 1) (st_LastBlockHeight saved))) by lia. rewrite Z.eqb_refl, Z.ltb_irrefl, Z.eqb_refl.
  destruct (prepare_ok _ _ _ _ _ _ _ _ E1) as (Hd1 & Ha1 & _). destruct (apply_exec_again _ _ _ _ _ _ _ E2) as (_ & _ & Hagain).
  unfold apply_commit in E4. destruct (en_FlushErr env); [done|]. apply bind_Ret in E4 as ([[app3 data]|] & Ec & E4); [|done].
  destruct (en_UpdateErr env); [done|]. injection E4 as <- _ <-. unfold apply_save in E5.
  apply bind_Ret in E5 as (db5 & Es & [= <- <-]). cbn [nd_app].
  destruct (replayBlock_ok (mkNode d (nd_acc ndc) (nd_app ndc)) nd1 c1 r s1 (nd_app nd2) app3 data E1 E3)
    as (n' & t & Er & Hb & Hdb & Hat & _ & Hsig & Hacc).
  - by eexists _, _.
  - intros acc. cbn [nd_db nd_app]. apply (Hagain (mkNode d acc (nd_app ndc))); cbn [nd_app nd_db].
    + by rewrite Happ, Ha1.
    + by apply (same_request d nd1 c1 nd2 r).
  - exact Ec.
  - rewrite Hsh, Hheight in Er. rewrite Er. cbn [mbind outcome_bind]. exists n', t. split_and!; done.
Qed.

(** A crash after it committed and before the state was saved: the saved responses stand for it. *)
Lemma recover_mock (ndc : node) nd1 c1 nd2 r hash :
  apply_prepare Sum NewTX env nd mem block = Ret (nd1, c1, None) → apply_exec Sum um nd1 mem block = Ret (nd2, Some r) →
  (∀ k, k ≤ bound → db_validators (nd_db ndc) !! k = db_validators (nd_db nd) !! k) → db_state (nd_db ndc) = Some saved →
  db_responses (nd_db ndc) !! hd_Height (blk_Header block) = Some r → nd_app ndc = nd_app nd' → st_AppHash st' = hash →
  InfoSync (nd_app nd') = Ret (Some (hd_Height (blk_Header block), hash, appVersion)) →
  ∃ n t, recover store genDoc ndc = Ret (n, None) ∧ nd_app n = nd_app nd' ∧ db_state (nd_db n) = Some t ∧ alike st' t ∧
    st_HashSignature t = st_HashSignature saved ∧ ac_db (nd_acc n) = ac_db (save_txs um (nd_acc ndc) (blk_Txs block)).
Proof.
  intros E1 E2 Hv Hs Hr Happ Hhash Hinfo. pose proof (re_height _ _ _ Hrest) as Hh. destruct Hstore as [Hsh _ _].
  destruct (ApplyBlock_inv _ _ _ _ _ _ _ _ _ _ _ _ _ Hrun) as (x1 & x2 & x3 & r' & s1 & nd3 & c3 & hash' & E1' & E2' & E3 & _ & E5).
  rewrite E1 in E1'. injection E1' as <- <-. rewrite E2 in E2'. injection E2' as <- <-.
  unfold apply_save in E5. apply bind_Ret in E5 as (db5 & Es & [= <- <-]). cbn [nd_app with_AppHash st_AppHash] in *. subst hash'.
  destruct (recover_cases ndc (hd_Height (blk_Header block)) hash Hv Hs) as (d & Hdr & Hl & ->); [by rewrite Happ|lia|].
  unfold replay_cases. cbn [decoded_state st_LastBlockHeight nd_db]. rewrite Hsh, Z.ltb_irrefl, !Hheight.
  rewrite (proj2 (Z.eqb_neq (st_LastBlockHeight saved + 1) 0)) by lia.
  rewrite (proj2 (Z.eqb_neq (st_LastBlockHeight saved + 1) (st_LastBlockHeight saved))) by lia. rewrite Z.eqb_refl.
  rewrite (proj2 (Z.ltb_ge (st_LastBlockHeight saved + 1) (st_LastBlockHeight saved))) by lia.
  unfold LoadABCIResponses. rewrite Hdr, <-Hheight, Hr.
  destruct (prepare_ok _ _ _ _ _ _ _ _ E1) as (Hd1 & _).
  destruct (replayBlock_ok (mkNode d (nd_acc ndc) (newMockProxyApp hash r)) nd1 c1 r s1 (mkMock hash 0 r) (mkMock hash 0 r) hash E1 E3)
    as (n' & t & Er & _ & Hdb & Hat & _ & Hsig & Hacc).
  - by eexists _, _.
  - intros acc. cbn [nd_db nd_app]. apply (apply_exec_mock _ _ _ _ _ _ _ E2 (mkNode d acc (newMockProxyApp hash r))); [done|].
    cbn [nd_db]. by apply (same_request d nd1 c1 nd2 r).
  - done.
  - rewrite Hsh in Er. cbn [nd_acc nd_app]. rewrite Er. cbn [mbind outcome_bind]. eexists _, t. split_and!; done.
Qed.

(** A crash after the state was saved: there is nothing to do. *)
Lemma recover_done (ndc : node) :
  nd_db ndc = nd_db nd' → nd_app ndc = nd_app nd' →
  InfoSync (nd_app nd') = Ret (Some (hd_Height (blk_Header block), st_AppHash st', appVersion)) →
  ∃ n t, recover store genDoc ndc = Ret (n, None) ∧ nd_app n = nd_app nd' ∧ db_state (nd_db n) = Some t ∧ alike st' t ∧
    st_HashSignature t = st_HashSignature st' ∧ nd_acc n = nd_acc ndc.
Proof.
  intros Hdb Happ Hinfo. pose proof (re_height _ _ _ Hrest) as Hh. destruct Hstore as [Hsh _ _].
  destruct (ApplyBlock_inv _ _ _ _ _ _ _ _ _ _ _ _ _ Hrun) as (nd1 & c1 & nd2 & r & s1 & nd3 & c3 & hash & _ & _ & E3 & _ & E5).
  destruct (apply_update_fields _ _ _ _ _ E3) as (Hh1 & Hver & _).
  unfold apply_save in E5. apply bind_Ret in E5 as (db5 & Es & [= <- <-]). cbn [nd_app nd_db] in *.
  destruct (SaveState_spec _ _ _ Es) as (_ & Hlc & _ & _ & Hst). cbn [with_AppHash st_LastBlockHeight st_LastHeightValidatorsChanged] in Hlc.
  unfold recover, LoadState. rewrite Hdb, Hst. cbn [option_map or_panic mbind outcome_bind]. unfold Handshake. rewrite Happ, Hinfo, Hdb.
  cbn [mbind outcome_bind]. rewrite (proj2 (Z.ltb_ge (hd_Height (blk_Header block)) 0)) by lia.
  set (t := with_AppVersion (decoded_state (with_AppHash s1 hash)) appVersion).
  assert (alike (with_AppHash s1 hash) t) as Hat.
  { unfold t. rewrite <-(re_version _ _ _ Hrest).
    assert (st_Version saved = st_Version s1) as -> by (rewrite Hver; by injection (re_mem _ _ _ Hrest)).
    unfold alike, strip, with_AppVersion, decoded_state, with_AppHash.
    cbn [st_Version st_ChainID st_LastBlockHeight st_LastBlockTotalTx st_LastBlockID st_LastBlockTime st_NextValidators
      st_Validators st_LastValidators st_LastHeightValidatorsChanged st_ConsensusParams st_LastHeightConsensusParamsChanged
      st_LastResultsHash st_AppHash]. by destruct (st_Version s1). }
  assert (∃ d, SaveState db5 t = Ret d ∧ db_state d = Some t) as (d & Ed & Hd).
  { assert (∃ d, SaveState db5 t = Ret d) as [d Ed].
    { unfold SaveState, saveValidatorsInfo, t. cbn [with_AppVersion decoded_state with_AppHash st_LastBlockHeight st_LastHeightValidatorsChanged].
      rewrite (proj2 (Z.eqb_neq (st_LastBlockHeight s1 + 1) 1)) by lia. cbn [mbind outcome_bind].
      rewrite (proj2 (Z.ltb_ge _ _)) by lia. by eexists. }
    exists d. split; [done|]. by destruct (SaveState_spec _ _ _ Ed) as (_ & _ & _ & _ & ?). }
  rewrite Ed. cbn [mbind outcome_bind]. unfold ReplayBlocks. rewrite (proj2 (Z.eqb_neq (hd_Height (blk_Header block)) 0)) by lia.
  unfold replay_cases. change (st_LastBlockHeight t) with (st_LastBlockHeight s1). rewrite Hsh, Hh1, Z.ltb_irrefl, Z.eqb_refl.
  rewrite (proj2 (Z.eqb_neq (hd_Height (blk_Header block)) 0)) by lia. unfold checkAppHash. change (st_AppHash t) with hash.
  cbn [with_AppHash st_AppHash]. rewrite (proj2 (bytes_equal_true hash hash) eq_refl). cbn [mbind outcome_bind].
  eexists _, t. split_and!; done.
Qed.

Lemma save_txs_app a l k : save_txs um a (l ++ k) = save_txs um (save_txs um a l) k.
Proof. unfold save_txs. by rewrite foldl_app. Qed.

(** What every crash before the state is saved leaves: the old state, and the old entries of all heights that were there. *)
Lemma crash_left k half ndc :
  crash env nd mem bid block k half false ndc →
  (∀ j, j ≤ bound → db_validators (nd_db ndc) !! j = db_validators (nd_db nd) !! j) ∧ db_state (nd_db ndc) = db_state (nd_db nd) ∧
  ac_db (nd_acc ndc) = ac_db (saved_part (nd_acc nd) (blk_Txs block) k half).
Proof.
  assert (∀ nd1 c1 nd2 r, apply_prepare Sum NewTX env nd mem block = Ret (nd1, c1, None) →
    apply_exec Sum um nd1 mem block = Ret (nd2, Some r) → nd_db nd2 = nd_db nd ∧
    ac_db (nd_acc nd2) = ac_db (saved_part (nd_acc nd) (blk_Txs block) (length (blk_Txs block)) false)) as Hexec.
  { intros nd1 c1 nd2 r E Ee. destruct (prepare_ok _ _ _ _ _ _ _ _ E) as (Hdb & _ & Hacc & _).
    destruct (apply_exec_again _ _ _ _ _ _ _ Ee) as (Hd2 & Ha2 & _). rewrite Hd2, Ha2, saved_part_all. split; [done|]. by apply save_txs_db. }
  assert (∀ nd2 r nd3 c3 hash, apply_commit env (apply_responses nd2 block r) block = Ret (nd3, c3, Some hash) →
    db_validators (nd_db nd3) = db_validators (nd_db nd2) ∧ db_state (nd_db nd3) = db_state (nd_db nd2) ∧ nd_acc nd3 = nd_acc nd2) as Hcom.
  { intros nd2 r nd3 c3 hash Ec. unfold apply_commit in Ec. destruct (en_FlushErr env); [done|].
    apply bind_Ret in Ec as ([[app3 data]|] & _ & Ec); [|done]. destruct (en_UpdateErr env); [done|]. by injection Ec as <- _ _. }
  intros Hc. inversion Hc as [|x1 x2 E|x1 x2 x3 x4 x5 ? x6 x7 x8 E E2 E3 E4 Ed|x1 x2 x3 x4 x5 ? x6 x7 x8 tx x9 x10 ? E E2 E3 E4 Ed Etx Edt
    |x1 x2 x3 x4 E Ee|x1 x2 x3 x4 E Ee|x1 x2 x3 x4 x5 x6 x7 E Ee Ec|x1 x2 x3 x4 s1 x5 x6 x7 db4 E Ee Eu Ec Esv|]; subst.
  - split_and!; [done..|]. unfold saved_part. rewrite take_0. by case_match.
  - destruct (prepare_ok _ _ _ _ _ _ _ _ E) as (Hdb & _ & Hacc & _). rewrite Hdb. split_and!; [done..|]. rewrite Hacc.
    unfold saved_part. rewrite take_0. by case_match.
  - destruct (prepare_ok _ _ _ _ _ _ _ _ E) as (Hdb & _ & Hacc & _). cbn [nd_db nd_acc]. rewrite Hdb. split_and!; [done..|].
    apply deliver_ok in Ed as [-> _]. unfold saved_part. case_match; by apply save_txs_db.
  - destruct (prepare_ok _ _ _ _ _ _ _ _ E) as (Hdb & _ & Hacc & _). cbn [nd_db nd_acc]. rewrite Hdb. split_and!; [done..|].
    apply deliver_ok in Ed as [-> _]. unfold saved_part. rewrite Etx. destruct half; [apply half_saved_db|]; by apply save_txs_db.
  - destruct (Hexec _ _ _ _ E Ee) as [-> ->]. done.
  - destruct (Hexec _ _ _ _ E Ee) as [Hd Ha]. cbn [apply_responses nd_db nd_acc saveABCIResponses db_validators db_state]. by rewrite Hd, Ha.
  - destruct (Hexec _ _ _ _ E Ee) as [Hd Ha], (Hcom _ _ _ _ _ Ec) as (-> & -> & ->). by rewrite Hd, Ha.
  - destruct (Hexec _ _ _ _ E Ee) as [Hd Ha], (Hcom _ _ _ _ _ Ec) as (Hc1 & Hc2 & Hc3). cbn [nd_db nd_acc]. rewrite Hc3, Ha.
    destruct (apply_update_fields _ _ _ _ _ Eu) as (Hh1 & _). pose proof (re_height _ _ _ Hrest) as Hh.
    destruct (saving_later _ (with_AppHash s1 x7) _ ltac:(cbn; lia) Esv) as (B1 & _ & B3). cbn [with_AppHash st_LastBlockHeight] in B3.
    split_and!; [|by rewrite B1, Hc2, Hd|done]. intros j Hj. rewrite B3 by lia. by rewrite Hc1, Hd.
Qed.

(** The node after the block. *)
Lemma run_facts `{!AppLaws} :
  Restart (nd_app nd') = nd_app nd' ∧
  InfoSync (nd_app nd') = Ret (Some (hd_Height (blk_Header block), st_AppHash st', appVersion)) ∧
  ac_db (nd_acc nd') = ac_db (save_txs um (nd_acc nd) (blk_Txs block)).
Proof.
  destruct (ApplyBlock_inv _ _ _ _ _ _ _ _ _ _ _ _ _ Hrun) as (nd1 & c1 & nd2 & r & s1 & nd3 & c3 & hash & E1 & E2 & _ & E4 & E5).
  destruct (exec_restart _ _ _ _ _ E2) as (_ & a & u & Eend). destruct (apply_exec_again _ _ _ _ _ _ _ E2) as (_ & Hacc & _).
  destruct (prepare_ok _ _ _ _ _ _ _ _ E1) as (_ & _ & Hacc1 & _).
  unfold apply_commit in E4. destruct (en_FlushErr env); [done|]. apply bind_Ret in E4 as ([[app3 data]|] & Ec & E4); [|done].
  destruct (en_UpdateErr env); [done|]. injection E4 as <- _ <-. unfold apply_save in E5.
  apply bind_Ret in E5 as (db5 & _ & [= <- <-]). cbn [apply_responses nd_app nd_acc with_AppHash st_AppHash] in *.
  split_and!; [by apply restart_commit in Ec|by apply (info_commit _ _ _ _ _ _ Eend Ec)|]. rewrite Hacc. by apply save_txs_db.
Qed.

(** The application after a crash: as before the block, or as after it. *)
Lemma crash_app `{!AppLaws} k half ndc :
  crash env nd mem bid block k half false ndc →
  nd_app (restart ndc) = nd_app nd ∨
  nd_app (restart ndc) = nd_app nd' ∧
    InfoSync (nd_app nd') = Ret (Some (hd_Height (blk_Header block), st_AppHash st', appVersion)) ∧
    ∃ nd1 c1 nd2 r, apply_prepare Sum NewTX env nd mem block = Ret (nd1, c1, None) ∧
      apply_exec Sum um nd1 mem block = Ret (nd2, Some r) ∧
      db_responses (nd_db ndc) !! hd_Height (blk_Header block) = Some r.
Proof.
  intros Hc. pose proof (re_app _ _ _ Hrest) as Hidle.
  assert (∀ x1 x2 x3 x4 x5 x6 x7, apply_prepare Sum NewTX env nd mem block = Ret (x1, x2, None) →
    apply_exec Sum um x1 mem block = Ret (x3, Some x4) → apply_commit env (apply_responses x3 block x4) block = Ret (x5, x6, Some x7) →
    Restart (nd_app x5) = nd_app nd' ∧ db_responses (nd_db x5) !! hd_Height (blk_Header block) = Some x4) as Hcom.
  { intros x1 x2 x3 x4 x5 x6 x7 E Ee Ec.
    destruct (ApplyBlock_inv _ _ _ _ _ _ _ _ _ _ _ _ _ Hrun)
      as (y1 & y2 & y3 & r' & s1 & nd3 & c3 & hash' & E1' & E2' & _ & E4' & E5).
    rewrite E in E1'. injection E1' as <- <-. rewrite Ee in E2'. injection E2' as <- <-. rewrite Ec in E4'. injection E4' as <- <- <-.
    destruct run_facts as (Hr & _ & _). unfold apply_save in E5. apply bind_Ret in E5 as (db5 & _ & [= E5 _]). rewrite <-E5 in Hr |- *.
    unfold apply_commit in Ec. destruct (en_FlushErr env); [done|]. apply bind_Ret in Ec as ([[app3 data]|] & _ & Ec); [|done].
    destruct (en_UpdateErr env); [done|]. injection Ec as <- _ _. split; [exact Hr|apply lookup_insert_eq]. }
  destruct run_facts as (_ & Hi & _).
  inversion Hc as [|x1 x2 E|x1 x2 x3 x4 x5 ? x6 x7 x8 E E2 E3 E4 Ed|x1 x2 x3 x4 x5 ? x6 x7 x8 tx x9 x10 ? E E2 E3 E4 Ed Etx Edt
    |x1 x2 x3 x4 E Ee|x1 x2 x3 x4 E Ee|x1 x2 x3 x4 x5 x6 x7 E Ee Ec|x1 x2 x3 x4 s1 x5 x6 x7 db4 E Ee Eu Ec Esv|];
    subst; [by left|..]; destruct (prepare_ok _ _ _ _ _ _ _ _ E) as (_ & Happ & _ & _).
  - left. cbn [restart nd_app]. by rewrite Happ.
  - left. cbn [restart nd_app]. rewrite (deliver_restart _ _ _ _ _ _ _ _ Ed), (restart_begin _ _ _ E4). by rewrite Happ.
  - left. cbn [restart nd_app]. rewrite (restart_deliver _ _ _ _ Edt), (deliver_restart _ _ _ _ _ _ _ _ Ed), (restart_begin _ _ _ E4).
    by rewrite Happ.
  - left. cbn [restart nd_app]. by rewrite (proj1 (exec_restart _ _ _ _ _ Ee)), Happ.
  - left. cbn [restart nd_app apply_responses]. by rewrite (proj1 (exec_restart _ _ _ _ _ Ee)), Happ.
  - right. destruct (Hcom _ _ _ _ _ _ _ E Ee Ec) as [Hr Hl]. split_and!; [exact Hr|exact Hi|]. by exists x1, x2, x3, x4.
  - right. destruct (Hcom _ _ _ _ _ _ _ E Ee Ec) as [Hr Hl]. split_and!; [exact Hr|exact Hi|]. exists x1, x2, x3, x4.
    split_and!; [done..|]. destruct (apply_update_fields _ _ _ _ _ Eu) as (Hh1 & _). pose proof (re_height _ _ _ Hrest) as Hh.
    destruct (saving_later _ (with_AppHash s1 x7) _ ltac:(cbn; lia) Esv) as (_ & B2 & _). cbn [nd_db]. by rewrite B2.
Qed.

(** C8. A crash while a block is committed does no harm to consensus. Take a node between two blocks, with the state of its
    database and the application in step, and a block that is saved in the store and that ApplyBlock would apply; no account that it
    writes has the name of a key of the state, with which the accounts share their database. Stop the node at any point of
    ApplyBlock (before, between or after the transactions, between the writes of a payer and a payee, before and after the responses
    are saved and the application commits, between the writes of the new state, after them) and start it again: the
    handshake succeeds and leaves the application and the state where the uninterrupted run leaves them, with two exceptions.
    The signature of the last hash is the one that was saved, unless the new state was; and the transfers of the block are saved to the
    accounts once more, on top of those, and of the half of one, that had been saved before the crash. No account was written under
    a key of the state. *)
Theorem crash_recovered `{!AppLaws} (k : nat) (half committed : bool) (ndc : node) :
  Forall (apart um) (blk_Txs block) → crash env nd mem bid block k half committed ndc →
  ∃ n s, recover store genDoc (restart ndc) = Ret (n, None) ∧
    nd_app n = nd_app nd' ∧ LoadState (nd_db n) = Some s ∧ alike s st' ∧
    st_HashSignature s = st_HashSignature (if committed then st' else saved) ∧
    ac_db (nd_acc n) =
      ac_db (save_txs um (saved_part (nd_acc nd) (blk_Txs block) k half) (if committed then [] else blk_Txs block)) ∧
    ∀ key, state_key key = true → ac_db (nd_acc n) !! key = ac_db (nd_acc nd) !! key.
Proof.
  intros Hap Hc.
  assert (∀ (n : node) txs', Forall (apart um) txs' →
    ac_db (nd_acc n) = ac_db (save_txs um (saved_part (nd_acc nd) (blk_Txs block) k half) txs') →
    ∀ key, state_key key = true → ac_db (nd_acc n) !! key = ac_db (nd_acc nd) !! key) as Hkeys.
  { intros n txs' Ht' En key Hkey. by rewrite En, (save_txs_apart key Hkey), (saved_part_apart key Hkey). }
  destruct committed.
  - destruct run_facts as (Hr & Hi & Hacc).
    destruct (ApplyBlock_inv _ _ _ _ _ _ _ _ _ _ _ _ _ Hrun)
      as (y1 & y2 & y3 & r' & z1 & y4 & y5 & hash' & E1' & E2' & E3' & E4' & E5').
    inversion Hc as [| | | | | | | |x1 x2 x3 x4 s1 x5 x6 hash x7 s4 E1 E2 E3 E4 E5]; subst. rewrite E1 in E1'. injection E1' as <- <-.
    rewrite E2 in E2'. injection E2' as <- <-. rewrite E3 in E3'. injection E3' as <-. rewrite E4 in E4'. injection E4' as <- <- <-.
    rewrite E5 in E5'. injection E5' as -> ->.
    destruct (recover_done (restart nd')) as (n & t & Er & Hn & Ht & Ha & Hsig & Hb); [done|done|done|].
    assert (ac_db (nd_acc n) = ac_db (save_txs um (saved_part (nd_acc nd) (blk_Txs block) (length (blk_Txs block)) false) [])) as En.
    { rewrite Hb, saved_part_all. exact Hacc. }
    exists n, (decoded_state t). unfold LoadState. rewrite Ht. split_and!; [done..| |exact Hsig|exact En|by apply (Hkeys n [])].
    by rewrite alike_decoded.
  - destruct (crash_left _ _ _ Hc) as (Hv & Hs & Hacc). destruct (re_saved _ _ _ Hrest) as [db0 E0].
    destruct (SaveState_spec _ _ _ E0) as (_ & _ & _ & _ & Hst). rewrite Hst in Hs.
    assert (∃ n t, recover store genDoc (restart ndc) = Ret (n, None) ∧ nd_app n = nd_app nd' ∧ db_state (nd_db n) = Some t ∧
      alike st' t ∧ st_HashSignature t = st_HashSignature saved ∧
      ac_db (nd_acc n) = ac_db (save_txs um (nd_acc (restart ndc)) (blk_Txs block))) as (n & t & Er & Hn & Ht & Ha & Hsig & Hb).
    { destruct (crash_app _ _ _ Hc) as [Happ|(Happ & Hi & nd1 & c1 & nd2 & r & E1 & E2 & Hr)].
      - by apply recover_real.
      - by eapply recover_mock. }
    assert (ac_db (nd_acc n) = ac_db (save_txs um (saved_part (nd_acc nd) (blk_Txs block) k half) (blk_Txs block))) as En.
    { rewrite Hb. by apply save_txs_db. }
    exists n, (decoded_state t). unfold LoadState. rewrite Ht. split_and!; [done..| |exact Hsig|exact En|by apply (Hkeys n (blk_Txs block))].
    by rewrite alike_decoded.
Qed.

End recovery.
End crash.
