(* ===== verification/HandshakeFacts.v ===== *)
(** * The handshake on concrete nodes, and what it accepts *)

From Stdlib Require Import ZArith Lia Bool Strings.Byte String.
From stdpp Require Import base list gmap.
From S2P Require Import Prelude Merkle Types ValidatorSet ValidatorUpdates VerifyCommit PartSet Block StateStore BlockStore Account Identypes.
From S2P Require Import Consensus Exec Handshake HandshakeProofs.
Local Open Scope Z_scope.

(** ** A gap between the store and the state

    The panics for a store that is not at the height of the state or one above it have been commented out. The handshake then reports
    success, without a replay and without a look at the hash of the application. *)
Theorem handshake_ignores_gap (Sum : bytes → bytes) (encResult : ABCIResult → bytes) (um : bytes → option TxArg)
    (NewTX : bytes → option Identypes.TX) (unmarshalBlock : bytes → option Block) (version : bytes) `{Crypto} `{BlockCodec} `{KeyCodec}
    {A : Type} `{AppConnConsensus A} `{AppConnQuery A} (store : BlockStore) (genDoc : GenesisDoc)
    (nd : node_data (A := A)) (state : State) (h : Z) (hash : bytes) (v : Z) :
  InfoSync (nd_app nd) = Ret (Some (h, hash, v)) → 0 < h ≤ BS_Height store →
  BS_Height store ≠ st_LastBlockHeight state → BS_Height store ≠ st_LastBlockHeight state + 1 →
  is_Some (match SaveState (nd_db nd) (with_AppVersion state v) with Ret d => Some d | Panic => None end) →
  ∃ d, Handshake Sum encResult um NewTX unmarshalBlock version store genDoc nd state =
    Ret (mkNode d (nd_acc nd) (nd_app nd), None).
Proof.
  intros Hi Hh Hne Hne1 [d Ed]. exists d. destruct (SaveState _ _) as [d'|] eqn:Es; [|done]. injection Ed as <-.
  unfold Handshake. rewrite Hi. cbn [mbind outcome_bind]. rewrite (proj2 (Z.ltb_ge h 0)) by lia. rewrite Es. cbn [mbind outcome_bind].
  unfold ReplayBlocks. rewrite (proj2 (Z.eqb_neq h 0)) by lia. unfold replay_cases.
  change (st_LastBlockHeight (with_AppVersion state v)) with (st_LastBlockHeight state).
  rewrite (proj2 (Z.eqb_neq (BS_Height store) 0)) by lia. rewrite (proj2 (Z.ltb_ge (BS_Height store) h)) by lia.
  rewrite (proj2 (Z.eqb_neq _ _) Hne), (proj2 (Z.eqb_neq _ _) Hne1). done.
Qed.

(** ** A node with an application that counts transactions *)

Record counter := mkCounter { ct_height : Z; ct_hash : bytes; ct_pending : Z; ct_count : nat }.

#[local] Instance counter_conn : AppConnConsensus counter := {|
  InitChainSync a _ := Ret (Some (a, (None, [])));
  BeginBlockSync a _ := Ret (Some (mkCounter (ct_height a) (ct_hash a) (ct_pending a) 0));
  DeliverTxAsync a _ :=
    Ret (Some (mkCounter (ct_height a) (ct_hash a) (ct_pending a) (S (ct_count a)), mkABCIResult 0 []));
  EndBlockSync a h := Ret (Some (mkCounter (ct_height a) (ct_hash a) h (ct_count a), (None, [])));
  CommitSync a := let hash := replicate (ct_count a) x01 in Ret (Some (mkCounter (ct_pending a) hash 0 0, hash))
|}.

#[local] Instance counter_query : AppConnQuery counter := {| InfoSync a := Ret (Some (ct_height a, ct_hash a, 1)) |}.

Definition counter_restart (a : counter) : counter := mkCounter (ct_height a) (ct_hash a) 0 0.

#[local] Instance counter_laws : AppLaws counter_restart 1.
Proof.
  split; cbn; intros; simplify_eq; try done.
Qed.

#[local] Existing Instance sample_codec.
#[local] Existing Instance sample_crypto.
#[local] Existing Instance sample_block_codec.
#[local] Instance sample_keys : KeyCodec := {| pubKeyOf _ d := d; abciPubKey k := Some ([], k) |}.

(** A block of height 2 in which a pays 5 to b. *)
Definition block2 : Block :=
  let b := MakeBlock pad32 [x41] 2 [[x61; x62; x35]] (Some made_commit) [] [] in
  with_header b (Populate (blk_Header b) (mkVersion 1 1) [x63] 20 (sample_block x01) 3
    (replicate 32 x07) (replicate 32 x08) (replicate 32 x09) [x01] [] (replicate 20 x05)).

Definition block2_id : BlockID := mkBlockID [x02] (mkPartSetHeader 1 [x03]).

Definition sample_unmarshal (b : bytes) : option Block := if bytes_equal b [x42] then Some block2 else None.

(** The store after the block was saved in one part. *)
Definition store2 : BlockStore :=
  mkBlockStore (mkBlockDB {[2 := mkBlockMeta block2_id (blk_Header block2)]}
    {[(2, 0) := mkPart 0 [x42] (mkSimpleProof 1 0 None [])]} ∅ ∅ (Some 2)) 2.

Definition node1 : node_data := mkNode db1 start (mkCounter 1 [x0a] 0 0).

Definition plain_env : exec_env := mkEnv [] false false.

(** The state in memory has a signature that the database has not. *)
Definition mem1 : State := SetHashSignature state1 [x77].

Notation crash2 := (crash pad32 enc_result toy_arg (λ _, None) plain_env node1 mem1 block2_id block2).

(** The run, and a crash just before its end, when the application has committed and the state is not saved. *)
Lemma handshake_run :
  ∃ nd' calls st' ndc, ApplyBlock pad32 enc_result toy_arg (λ _, None) plain_env node1 mem1 block2_id block2 false =
      Ret (nd', calls, (st', None)) ∧
    balance (nd_acc nd') [x62] = 5 ∧ st_LastBlockHeight st' = 2 ∧ nd_app nd' = mkCounter 2 [x01] 0 0 ∧ crash2 1 false false ndc.
Proof.
  eexists _, _, _, _. split; [vm_compute; reflexivity|]. split; [vm_compute; reflexivity|]. split; [vm_compute; reflexivity|].
  split; [vm_compute; reflexivity|]. eapply (crash_committed _ _ _ _ plain_env node1 mem1 block2_id block2).
  - vm_compute. reflexivity.
  - vm_compute. reflexivity.
  - vm_compute. reflexivity.
Qed.

Lemma node1_at_rest : at_rest counter_restart 1 node1 state1 mem1.
Proof.
  split; try (vm_compute; reflexivity).
  - exists (saveABCIResponses gen_pair.1 1 no_responses). vm_compute. reflexivity.
  - intros k i Hi. unfold loadValidatorsInfo in Hi.
    assert (map_Forall (λ k i, (k <=? 3) && (vi_LastHeightChanged i <=? k) = true) (db_validators db1)) as Hall
      by (apply (bool_decide_eq_true_1 _); vm_compute; reflexivity).
    destruct (db_validators (nd_db node1) !! k) as [j|] eqn:Ej; [|done]. injection Hi as <-. specialize (Hall k j Ej).
    apply andb_true_iff in Hall as [H1%Z.leb_le H2%Z.leb_le]. split; [exact H1|exact H2].
  - apply state1_next.
  - apply state1_next.
Qed.

Lemma store2_last : last_stored sample_unmarshal store2 block2_id block2.
Proof. split; [vm_compute; reflexivity..|]. eexists. split; [reflexivity|reflexivity]. Qed.

Lemma block2_apart : Forall (apart toy_arg) (blk_Txs block2).
Proof. repeat constructor; vm_compute; reflexivity. Qed.

(** After the crash b has received 10 for the 5 that a paid, and the signature is lost; everything else is as without the crash. *)
Lemma crash_recovered_witness :
  ∃ ndc n s, crash2 1 false false ndc ∧
    recover pad32 enc_result toy_arg (λ _, None) sample_unmarshal [] store2 gen_doc (restart counter_restart ndc) = Ret (n, None) ∧
    nd_app n = mkCounter 2 [x01] 0 0 ∧ LoadState (nd_db n) = Some s ∧ st_LastBlockHeight s = 2 ∧ st_HashSignature s = [] ∧
    balance (nd_acc n) [x62] = 10.
Proof.
  destruct handshake_run as (nd' & calls & st' & ndc & Erun & _ & Hh & Happ & Hc).
  destruct (crash_recovered pad32 enc_result toy_arg (λ _, None) sample_unmarshal [] counter_restart 1 plain_env node1 state1 mem1
              block2_id block2 false nd' calls st' store2 gen_doc node1_at_rest store2_last eq_refl Erun 1 false false ndc block2_apart Hc)
    as (n & s & Er & Hn & Hs & Ha & Hsig & Hb & _).
  exists ndc, n, s. split; [exact Hc|]. split; [exact Er|]. split; [by rewrite Hn|]. split; [exact Hs|]. split.
  { injection Ha as _ _ Eh. by rewrite Eh. }
  split; [exact Hsig|]. unfold balance, getState. rewrite Hb. vm_compute. reflexivity.
Defined.

(** ** What a snapshot of the whole database contains

    The accounts are in the database of the state, and [GetAllStates] lists the keys from "0" to "z": the entries of the state are
    among them. *)
Lemma state_entries_in_snapshot :
  forallb (λ k, state_key k && in_range k)
    [str "stateKey"; str "validatorsKey:1"; str "consensusParamsKey:1"; str "abciResponsesKey:1"] = true.
Proof. vm_compute. reflexivity. Qed.
