(* ===== verification/CrossShard.v ===== *)
(** * types/tx_utils.go: the messages a block sends to other shards

    The transactions of a committed block are put into buckets by their destination; each bucket gets a Merkle tree, the roots of these
    trees, and last that of the transactions of the own shard, the leaves of another one. A bucket for another shard becomes a message with the
    signed root and the path of its own root to it. The receiving shard checks signature and path ([CheckCrossMessageSig]).

    A Go map is iterated in an arbitrary order: the messages come in the order of [map_to_list]. *)

From Stdlib Require Import ZArith Lia Bool Strings.Byte String.
From stdpp Require Import base list gmap.
From S2P Require Import Prelude Merkle KeyPath Strconv Account Identypes Mempool.
Local Open Scope Z_scope.

Notation buckets := (gmap bytes (list bytes)).

Section crossshard.
Context `{IdenCodec}.
(** [sha256], and the index of the node from its environment ([GetIndex]). *)
Context (sha256 : bytes → bytes) (GetIndex : bytes).

(** ** Destinations *)

Definition addtx : bytes := str "addtx".

(** The bucket of a transaction in [ClassifyTxbySingle]: one for each destination and content. *)
Definition dest_single (tx : TX) : bytes :=
  if bytes_equal (Txtype tx) addtx then str "des_" ++ Sender tx ++ str "_" ++ Content tx
  else if bytes_equal (Txtype tx) relaytx then str "des_" ++ Receiver tx ++ str "_" ++ Content tx
  else [].

(** And in [ClassifyTx]: one for each destination. *)
Definition dest (tx : TX) : bytes :=
  if bytes_equal (Txtype tx) addtx then Sender tx
  else if bytes_equal (Txtype tx) relaytx then Receiver tx
  else [].

(** One iteration of the loop over the transactions. *)
Definition classify_tx (des : TX → bytes) (b : buckets) (txbyte : bytes) : buckets :=
  match NewTX txbyte with
  | None => b
  | Some tx =>
      let tx := UpdateTx tx in
      match b !! des tx with
      | Some l => <[des tx := l ++ [marshalTX tx]]> b
      | None => <[des tx := [marshalTX tx]]> b
      end
  end.

(** The transactions without a destination join those of the own shard. *)
Definition merge_own (b : buckets) : buckets :=
  match b !! [] with
  | Some txlists => delete [] (<[getShard := default [] (b !! getShard) ++ txlists]> b)
  | None => b
  end.

Definition ClassifyTxbySingle (txs : list bytes) : buckets := merge_own (foldl (classify_tx dest_single) ∅ txs).

Definition ClassifyTx (txs : list bytes) : buckets := merge_own (foldl (classify_tx dest) ∅ txs).

(** [sort.Sort(sort.StringSlice(keys))]. *)
Definition sorted_keys (b : buckets) : list bytes :=
  sort_Sort (λ x y, match bytes_compare x y with Lt => true | _ => false end) (map_to_list b).*1.

(** The order of the transactions of a proposal: those for other shards first. *)
Definition HandleSortTx (txs : list bytes) : list bytes :=
  let b := ClassifyTx txs in
  mjoin ((λ shard, if bytes_equal shard getShard then [] else default [] (b !! shard)) <$> sorted_keys b)
    ++ default [] (b !! getShard).

(** ** The trees *)

(** The loop over the shards: the roots of the others, the trees, and the root of the own shard; [None] is an error. *)
Fixpoint shard_trees (b : buckets) (keys : list bytes) (roots : list bytes) (trees : gmap bytes SimpleMerkleTree) (own : bytes) :
    option (list bytes * gmap bytes SimpleMerkleTree * bytes) :=
  match keys with
  | [] => Some (roots, trees, own)
  | shard :: keys =>
      merkleTree ← SimpleTreeFromByteSlices sha256 (default [] (b !! shard));
      let trees := <[shard := merkleTree]> trees in
      if bytes_equal shard getShard then shard_trees b keys roots trees (tree_ComputeRootHash merkleTree)
      else shard_trees b keys (roots ++ [tree_ComputeRootHash merkleTree]) trees own
  end.

Definition generate_tree (b : buckets) : option TxMerkleTree :=
  '(roots, trees, own) ← shard_trees b (sorted_keys b) [] ∅ [];
  rootTree ← SimpleTreeFromByteSlices sha256 (roots ++ [own]);
  Some (mkTxMerkleTree (Some rootTree) trees).

Definition GenerateMerkleTree (txs : list bytes) : option TxMerkleTree := generate_tree (ClassifyTx txs).

Definition GenerateMerkleTreebySingle (txs : list bytes) : option TxMerkleTree := generate_tree (ClassifyTxbySingle txs).

(** ** The messages *)

Definition NewCrossMessage (txs : list bytes) (signature pubkey crossMerkleRoot treepath srcZone DesZone : bytes) (Height t : Z) :
    CrossMessages :=
  mkCrossMessages (replicate 32 x00) txs signature pubkey (Some crossMerkleRoot) treepath srcZone DesZone Height [] [] GetIndex t
    [] false.

Definition CmKey (cm : bytes) : bytes := sha256 cm.

Definition with_ID (cm : CrossMessages) (id : bytes) : CrossMessages :=
  mkCrossMessages id (cm_Txlist cm) (cm_Sig cm) (cm_Pubkeys cm) (cm_CrossMerkleRoot cm) (cm_TreePath cm) (cm_SrcZone cm)
    (cm_DesZone cm) (cm_Height cm) (cm_Packages cm) (cm_ConfirmPackSigs cm) (cm_SrcIndex cm) (cm_Timestamp cm)
    (cm_CompressedData cm) (cm_IsCompressed cm).

(** One bucket; [None] when the bucket is skipped. *)
Definition bucket_message (mts : TxMerkleTree) (signature pubkey : bytes) (height now : Z) (shard : bytes) (listval : list bytes) :
    outcome (option CrossMessages) :=
  if bytes_equal shard getShard || bytes_equal shard [] then Ret None
  else
    let args := Split shard underscore in
    target ← slice_get args 1;
    mt ← or_panic (Find mts shard);
    rootTree ← or_panic (RootTree mts);
    treepath ← GetPathByValue sha256 rootTree (tree_ComputeRootHash mt);
    if bytes_equal treepath [] then Ret None
    else
      let cm := NewCrossMessage listval signature pubkey (tree_ComputeRootHash rootTree) treepath getShard target height now in
      Ret (Some (with_ID cm (CmKey (marshalCM cm)))).

(** The loop over the buckets; [now] is the clock at each of them. *)
Fixpoint bucket_messages (mts : TxMerkleTree) (signature pubkey : bytes) (height : Z) (now : bytes → Z)
    (l : list (bytes * list bytes)) : outcome (list CrossMessages) :=
  match l with
  | [] => Ret []
  | (shard, listval) :: l =>
      cm ← bucket_message mts signature pubkey height (now shard) shard listval;
      cms ← bucket_messages mts signature pubkey height now l;
      Ret (match cm with Some cm => cm :: cms | None => cms end)
  end.

Definition ClassifyTxFromBlock (mts : TxMerkleTree) (txs : list bytes) (signature pubkey : bytes) (height : Z) (now : bytes → Z) :
    outcome (list CrossMessages) :=
  match txs with
  | [] => Ret []
  | _ => bucket_messages mts signature pubkey height now (map_to_list (ClassifyTxbySingle txs))
  end.

(** ** Buckets *)

(** The transactions of a block that decode, as they are sent on. *)
Definition updated (txs : list bytes) : list TX := omap (λ t, UpdateTx <$> NewTX t) txs.

Lemma updated_snoc txs t :
  updated (txs ++ [t]) = updated txs ++ match NewTX t with Some tx => [UpdateTx tx] | None => [] end.
Proof. unfold updated. rewrite omap_app. f_equal. cbn. by destruct (NewTX t). Qed.

Section classify.
Context (des : TX → bytes).

Definition classified (txs : list bytes) : buckets := foldl (classify_tx des) ∅ txs.

(** The transactions of a bucket, in their order. *)
Definition bucket (txs : list bytes) (k : bytes) : list bytes := marshalTX <$> filter (λ tx, des tx = k) (updated txs).

Lemma bucket_snoc txs t k :
  bucket (txs ++ [t]) k = bucket txs k ++
    match NewTX t with Some tx => if decide (des (UpdateTx tx) = k) then [marshalTX (UpdateTx tx)] else [] | None => [] end.
Proof.
  unfold bucket. rewrite updated_snoc, filter_app, fmap_app. f_equal. destruct (NewTX t) as [tx|]; [|done].
  rewrite filter_cons, filter_nil. by case_decide.
Qed.

Lemma classified_lookup txs k :
  classified txs !! k = match bucket txs k with [] => None | l => Some l end.
Proof.
  revert k. induction txs as [|t txs IH] using rev_ind; intros k; [done|].
  unfold classified. rewrite foldl_app. cbn [foldl]. fold (classified txs). rewrite bucket_snoc. unfold classify_tx.
  destruct (NewTX t) as [tx|]; [|rewrite app_nil_r; apply IH]. rewrite IH. set (x := marshalTX (UpdateTx tx)).
  assert (match bucket txs (des (UpdateTx tx)) with
          | [] => None | b :: l => Some (b :: l) end = None ∧ bucket txs (des (UpdateTx tx)) = [] ∨
          ∃ l, bucket txs (des (UpdateTx tx)) = l ∧ l ≠ [] ∧ match bucket txs (des (UpdateTx tx)) with
          | [] => None | b :: l => Some (b :: l) end = Some l) as [[-> Eb]|(l & El & Hl & ->)].
  { destruct (bucket txs (des (UpdateTx tx))); [by left|right]. by eexists. }
  - destruct (decide (des (UpdateTx tx) = k)) as [<-|Hne].
    + by rewrite lookup_insert_eq, Eb.
    + by rewrite lookup_insert_ne, IH, app_nil_r by done.
  - destruct (decide (des (UpdateTx tx) = k)) as [<-|Hne].
    + rewrite lookup_insert_eq, El. by destruct l.
    + by rewrite lookup_insert_ne, IH, app_nil_r by done.
Qed.

Lemma classified_Some txs k l : classified txs !! k = Some l → l ≠ [] ∧ l = bucket txs k.
Proof. rewrite classified_lookup. destruct (bucket txs k); [done|]. by intros [= <-]. Qed.

(** A new entry for a key. *)
Lemma join_insert (m : buckets) k x :
  mjoin (map_to_list (<[k := default [] (m !! k) ++ [x]]> m)).*2 ≡ₚ x :: mjoin (map_to_list m).*2.
Proof.
  rewrite <-insert_delete_eq, map_to_list_insert by apply lookup_delete_eq. cbn [fmap list_fmap mjoin list_join].
  destruct (m !! k) as [l|] eqn:E; cbn [default].
  - rewrite <-(map_to_list_delete m k l) by done. cbn [fmap list_fmap mjoin list_join snd]. rewrite <-app_assoc.
    cbn [app]. by rewrite <-Permutation_middle.
  - by rewrite delete_id by done.
Qed.

(** The buckets with a destination hold the transactions with one. *)
Lemma classified_join txs :
  mjoin (map_to_list (delete [] (classified txs))).*2 ≡ₚ marshalTX <$> filter (λ tx, des tx ≠ []) (updated txs).
Proof.
  induction txs as [|t txs IH] using rev_ind; [done|].
  rewrite updated_snoc, filter_app, fmap_app. unfold classified. rewrite foldl_app. cbn [foldl]. fold (classified txs).
  unfold classify_tx. destruct (NewTX t) as [tx|]; [|by rewrite filter_nil, app_nil_r].
  rewrite filter_cons, filter_nil. set (k := des (UpdateTx tx)). set (x := marshalTX (UpdateTx tx)).
  assert (match classified txs !! k with Some l => <[k := l ++ [x]]> (classified txs) | None => <[k := [x]]> (classified txs) end =
    <[k := default [] (classified txs !! k) ++ [x]]> (classified txs)) as -> by (by destruct (classified txs !! k)).
  case_decide as Hk.
  - rewrite delete_insert_ne by done. rewrite <-(lookup_delete_ne (classified txs) [] k) by done.
    rewrite join_insert, IH. cbn [fmap list_fmap]. by rewrite Permutation_app_comm.
  - rewrite Hk, delete_insert_eq, IH. cbn. by rewrite app_nil_r.
Qed.

End classify.

(** *** The order of a proposal *)

Lemma join_cons {A} (l : list A) ls : mjoin (l :: ls) = l ++ mjoin ls.
Proof. done. Qed.

Lemma join_lookup (m : buckets) k :
  mjoin (map_to_list m).*2 ≡ₚ default [] (m !! k) ++ mjoin (map_to_list (delete k m)).*2.
Proof.
  destruct (m !! k) as [l|] eqn:E; [by rewrite <-(map_to_list_delete m k l)|]. by rewrite delete_id.
Qed.

(** Merging keeps the transactions, when the own shard has a name. *)
Lemma merge_own_join (b : buckets) :
  getShard ≠ [] → mjoin (map_to_list (merge_own b)).*2 ≡ₚ mjoin (map_to_list b).*2.
Proof.
  intros Hg. unfold merge_own. destruct (b !! []) as [t|] eqn:E; [|done]. rewrite delete_insert_ne by done.
  rewrite (join_lookup _ getShard), (join_lookup b []), (join_lookup (delete [] b) getShard), E.
  rewrite lookup_insert_eq, delete_insert_eq, lookup_delete_ne by done. cbn [default id].
  rewrite (app_assoc t). by rewrite (Permutation_app_comm t).
Qed.

Lemma sorted_join (b : buckets) g :
  mjoin ((λ k, if bytes_equal k g then [] else default [] (b !! k)) <$> sorted_keys b) ≡ₚ mjoin (map_to_list (delete g b)).*2.
Proof.
  assert (sorted_keys b ≡ₚ (map_to_list b).*1) as -> by apply sort_Sort_perm. rewrite <-list_fmap_compose.
  assert (∀ l : list (bytes * list bytes), (∀ kl, kl ∈ l → b !! kl.1 = Some kl.2 ∧ kl.1 ≠ g) →
    mjoin (((λ k, if bytes_equal k g then [] else default [] (b !! k)) ∘ fst) <$> l) = mjoin l.*2) as Hl.
  { intros l. induction l as [|[k v] l IH]; intros Hin; [done|]. rewrite !fmap_cons, !join_cons.
    rewrite IH by (intros kl Hkl; apply Hin; by right). destruct (Hin (k, v)) as [E Hk]; [by left|]. cbn [compose fst snd] in *.
    f_equal. apply bytes_equal_false in Hk. cbn. by rewrite Hk, E. }
  rewrite <-Hl; [|by intros [k v] [? ?]%elem_of_map_to_list%lookup_delete_Some]. destruct (b !! g) as [l|] eqn:E; [|by rewrite delete_id].
  rewrite <-(map_to_list_delete b g l) by done. rewrite fmap_cons, join_cons. cbn [compose fst].
  assert (bytes_equal g g = true) as -> by (by apply bytes_equal_true). done.
Qed.

(** The order of a proposal loses no transaction that decodes and adds none, when the own shard has a name (TASKID is set); the
    transactions of the own shard come last. *)
Theorem HandleSortTx_perm txs :
  getShard ≠ [] → HandleSortTx txs ≡ₚ marshalTX <$> updated txs ∧
    ∃ others, HandleSortTx txs = others ++ default [] (ClassifyTx txs !! getShard).
Proof.
  intros Hg. split; [|by eexists]. unfold HandleSortTx.
  rewrite sorted_join, (Permutation_app_comm _ (default [] _)), <-(join_lookup (ClassifyTx txs)).
  unfold ClassifyTx. rewrite merge_own_join by done. fold (classified dest txs).
  rewrite (join_lookup _ []), classified_join, classified_lookup.
  assert (default [] match bucket dest txs [] with [] => None | l => Some l end = bucket dest txs []) as -> by (by destruct (bucket dest txs [])).
  unfold bucket. rewrite <-fmap_app. apply Permutation.Permutation_map. induction (updated txs) as [|tx l IH]; [done|].
  rewrite !filter_cons. destruct (decide (dest tx = [])) as [E|E].
  - rewrite decide_False by (by intros ?). cbn. by rewrite IH.
  - rewrite decide_True by done. by rewrite <-Permutation_middle, IH.
Qed.

(** Without a name of the own shard its transactions are dropped from every proposal. *)
Lemma HandleSortTx_nameless txs :
  getShard = [] → Forall (λ tx, dest tx = []) (updated txs) → HandleSortTx txs = [].
Proof.
  intros Hg Hd. assert (ClassifyTx txs = ∅) as E; [|unfold HandleSortTx; by rewrite E].
  apply map_eq. intros k. rewrite lookup_empty. unfold ClassifyTx, merge_own. fold (classified dest txs). rewrite Hg.
  destruct (classified dest txs !! k) as [l|] eqn:Ek.
  - destruct (classified_Some _ _ _ _ Ek) as [Hl El]. assert (k = []) as ->.
    { destruct l as [|y l]; [done|]. assert (y ∈ bucket dest txs k) as Hy by (rewrite <-El; left).
      apply list_elem_of_fmap in Hy as (tx & _ & [Hk Htx]%list_elem_of_filter). rewrite <-Hk. by apply (proj1 (Forall_forall _ _) Hd). }
    rewrite Ek. apply lookup_delete_eq.
  - destruct (classified dest txs !! []) eqn:E0; [|done]. destruct (decide (k = [])) as [->|Hk]; [apply lookup_delete_eq|].
    by rewrite lookup_delete_ne, lookup_insert_ne.
Qed.

(** ** Trees *)

Section trees.
Hypothesis sha256_length : ∀ x, length (sha256 x) = 32%nat.

Lemma tree_of items :
  items ≠ [] → ∃ t, SimpleTreeFromByteSlices sha256 items = Some t ∧ tree_ComputeRootHash t ≠ [].
Proof.
  intros Hne. destruct (trails_spec sha256 items Hne [] closed_nil) as (h & leaves & root & E & B).
  unfold SimpleTreeFromByteSlices. rewrite E. eexists. split; [done|]. unfold tree_ComputeRootHash. cbn [tree_heap tree_Root].
  destruct items as [|x items]; [done|].
  destruct (trails_leaf sha256 _ _ _ _ 0 x E eq_refl) as (?&?&?&?&?&?&?&Hr). rewrite Hr. intros E0.
  pose proof (SimpleHash_length sha256 sha256_length (x :: items) Hne) as Hl. by rewrite E0 in Hl.
Qed.

(** The loop over the shards gives each its tree, and each other shard a leaf of the last tree. *)
Lemma shard_trees_ok (b : buckets) keys roots trees own :
  (∀ k, k ∈ keys → default [] (b !! k) ≠ []) →
  ∃ roots' trees' own', shard_trees b keys roots trees own = Some (roots', trees', own') ∧
    (∀ x, x ∈ roots → x ∈ roots') ∧
    (∀ k t, trees !! k = Some t → SimpleTreeFromByteSlices sha256 (default [] (b !! k)) = Some t → trees' !! k = Some t) ∧
    ∀ k t, k ∈ keys → SimpleTreeFromByteSlices sha256 (default [] (b !! k)) = Some t →
      trees' !! k = Some t ∧ (k ≠ getShard → tree_ComputeRootHash t ∈ roots').
Proof.
  revert roots trees own. induction keys as [|k0 keys IH]; intros roots trees own Hne; cbn [shard_trees].
  { eexists _, _, _. split_and!; [done..|]. by intros k t ?%not_elem_of_nil. }
  destruct (tree_of (default [] (b !! k0))) as (t0 & E0 & _); [by apply Hne; left|]. rewrite E0. cbn [mbind option_bind].
  assert (∀ k, k ∈ keys → default [] (b !! k) ≠ []) as Hne' by (intros k Hk; apply Hne; by right).
  assert (∀ (trees' : gmap bytes SimpleMerkleTree) k t,
    (∀ k t, <[k0 := t0]> trees !! k = Some t → SimpleTreeFromByteSlices sha256 (default [] (b !! k)) = Some t → trees' !! k = Some t) →
    trees !! k = Some t → SimpleTreeFromByteSlices sha256 (default [] (b !! k)) = Some t → trees' !! k = Some t) as Hkeep.
  { intros trees' k t Hold Hk Ht. apply Hold; [|done]. destruct (decide (k0 = k)) as [<-|];
      [rewrite lookup_insert_eq; congruence|by rewrite lookup_insert_ne]. }
  destruct (bytes_equal k0 getShard) eqn:Eo.
  - destruct (IH roots (<[k0 := t0]> trees) (tree_ComputeRootHash t0) Hne') as (r' & t' & o' & E & H1 & H2 & H3).
    exists r', t', o'. split_and!; [done|done|by intros; eapply Hkeep|]. intros k t [->|Hk]%elem_of_cons Ht; [|by apply H3].
    split; [apply H2; [rewrite lookup_insert_eq; congruence|done]|]. apply bytes_equal_true in Eo. done.
  - destruct (IH (roots ++ [tree_ComputeRootHash t0]) (<[k0 := t0]> trees) own Hne') as (r' & t' & o' & E & H1 & H2 & H3).
    exists r', t', o'. split_and!; [done| |by intros; eapply Hkeep|].
    + intros x Hx. apply H1, elem_of_app. by left.
    + intros k t [->|Hk]%elem_of_cons Ht; [|by apply H3].
      split; [apply H2; [rewrite lookup_insert_eq; congruence|done]|]. intros _. apply H1, elem_of_app. right.
      rewrite E0 in Ht. injection Ht as ->. by apply list_elem_of_singleton.
Qed.

Lemma elem_of_sorted_keys (b : buckets) k : k ∈ sorted_keys b ↔ is_Some (b !! k).
Proof.
  unfold sorted_keys. rewrite sort_Sort_perm, list_elem_of_fmap. split.
  - intros ([k' l] & -> & Hl%elem_of_map_to_list). by eexists.
  - intros [l Hl]. exists (k, l). split; [done|]. by apply elem_of_map_to_list.
Qed.

(** The tree of a map of buckets, with a path for each bucket of another shard. *)
Lemma generate_tree_ok (b : buckets) :
  (∀ k l, b !! k = Some l → l ≠ []) →
  ∃ mts rt, generate_tree b = Some mts ∧ RootTree mts = Some rt ∧
    ∀ k l, b !! k = Some l → k ≠ getShard →
    ∃ t path, SimpleTreeFromByteSlices sha256 l = Some t ∧ tree_ComputeRootHash t ≠ [] ∧ Find mts k = Some t ∧
      GetPathByValue sha256 rt (tree_ComputeRootHash t) = Ret path ∧
      VerifyTreePath sha256 (Some (tree_ComputeRootHash t)) path (Some (tree_ComputeRootHash rt)) = true.
Proof.
  intros Hne. unfold generate_tree.
  destruct (shard_trees_ok b (sorted_keys b) [] ∅ []) as (roots & trees & own & -> & _ & _ & Ht).
  { intros k [l Hl]%elem_of_sorted_keys. rewrite Hl. by eapply Hne. }
  cbn [mbind option_bind]. destruct (tree_of (roots ++ [own])) as (rt & Ert & _); [by destruct roots|].
  rewrite Ert. cbn [mbind option_bind]. eexists _, rt. split_and!; [done..|]. intros k l Hl Hk.
  destruct (tree_of l) as (t & Et & Hn); [by eapply Hne|].
  destruct (Ht k t) as [Hf Hroot]; [by apply elem_of_sorted_keys|by rewrite Hl|]. specialize (Hroot Hk).
  destruct (TreePath_complete sha256 (roots ++ [own]) (tree_ComputeRootHash t)) as (smt & path & E1 & E2 & _ & E4).
  { rewrite length_app. destruct roots; [by apply not_elem_of_nil in Hroot|]. cbn. lia. }
  { apply elem_of_app. by left. } { done. }
  rewrite Ert in E1. injection E1 as <-. exists t, path. split_and!; done.
Qed.

(** *** Keys *)

Lemma dest_single_key tx : dest_single tx = [] ∨ ∃ r, dest_single tx = str "des_" ++ r.
Proof. unfold dest_single. destruct (bytes_equal _ addtx); [right; by eexists|]. destruct (bytes_equal _ relaytx); [right; by eexists|by left]. Qed.

Lemma Split_nonempty l c : ∃ p ps, Split l c = p :: ps.
Proof. induction l as [|x l (p & ps & IH)]; cbn; [by eexists _, _|]. rewrite IH. case_bool_decide; by eexists _, _. Qed.

Lemma Split_first c p r : c ∉ p → Split (p ++ c :: r) c = p :: Split r c.
Proof.
  induction p as [|x p IH]; intros Hc; cbn [Split app].
  - by rewrite bool_decide_true.
  - rewrite not_elem_of_cons in Hc. destruct Hc as [Hx Hp]. rewrite bool_decide_false by congruence. by rewrite IH.
Qed.

(** The second part of a key: what stands between the first two underscores. *)
Lemma key_target r : ∃ p ps, Split r underscore = p :: ps ∧ slice_get (Split (str "des_" ++ r) underscore) 1 = Ret p.
Proof.
  destruct (Split_nonempty r underscore) as (p & ps & E). exists p, ps. split; [done|].
  change (str "des_" ++ r) with (str "des" ++ underscore :: r). rewrite Split_first by (by apply (bool_decide_unpack _)).
  rewrite E. done.
Qed.

(** The target in the key of a transaction. *)
Lemma dest_target tx :
  dest_single tx ≠ [] → underscore ∉ dest tx → slice_get (Split (dest_single tx) underscore) 1 = Ret (dest tx).
Proof.
  intros Hne Hu. assert (dest_single tx = str "des_" ++ dest tx ++ str "_" ++ Content tx) as ->.
  { revert Hne. unfold dest_single, dest. by repeat destruct (bytes_equal _ _). }
  change (str "des_" ++ dest tx ++ str "_" ++ Content tx) with (str "des" ++ underscore :: (dest tx ++ underscore :: Content tx)).
  by rewrite Split_first, Split_first by (done || by apply (bool_decide_unpack _)).
Qed.

Lemma merge_own_lookup (b : buckets) k l :
  merge_own b !! k = Some l → k ≠ getShard → k ≠ [] ∧ b !! k = Some l.
Proof.
  unfold merge_own. intros E Hk. destruct (b !! []) as [t|] eqn:E0.
  - apply lookup_delete_Some in E as [Hne E]. rewrite lookup_insert_ne in E by done. by split.
  - split; [|done]. intros ->. by rewrite E0 in E.
Qed.

(** The key of a bucket with transactions for another shard. *)
Lemma single_key txs k : bucket dest_single txs k ≠ [] → k ≠ [] → ∃ r, k = str "des_" ++ r.
Proof.
  unfold bucket. intros Hl Hne. destruct (filter (λ tx, dest_single tx = k) (updated txs)) as [|tx rest] eqn:Ef; [done|].
  assert (tx ∈ filter (λ tx, dest_single tx = k) (updated txs)) as [Hd _]%list_elem_of_filter by (rewrite Ef; left).
  destruct (dest_single_key tx) as [E0|[r Er]]; [congruence|]. exists r. by rewrite <-Hd, Er.
Qed.

Lemma single_buckets txs k l :
  ClassifyTxbySingle txs !! k = Some l → l ≠ [] ∧ (k ≠ getShard → ∃ r, k = str "des_" ++ r ∧ l = bucket dest_single txs k).
Proof.
  unfold ClassifyTxbySingle. change (foldl (classify_tx dest_single) ∅ txs) with (classified dest_single txs). intros E.
  destruct (decide (k = getShard)) as [->|Hk].
  - split; [|done]. revert E. unfold merge_own. destruct (classified dest_single txs !! []) as [t|] eqn:E0.
    + intros [_ E]%lookup_delete_Some. rewrite lookup_insert_eq in E. injection E as <-.
      apply classified_Some in E0 as [Ht _]. intros [_ ?]%app_eq_nil. done.
    + intros E. by apply classified_Some in E as [? _].
  - destruct (merge_own_lookup _ _ _ E Hk) as [Hne Eb]. apply classified_Some in Eb as [Hl ->]. split; [done|]. intros _.
    destruct (single_key txs k Hl Hne) as [r Er]. by exists r.
Qed.

(** *** Messages *)

Context (txs : list bytes) (sig pub : bytes) (height : Z) (now : bytes → Z).

Record message_of (rt : SimpleMerkleTree) (k : bytes) (l : list bytes) (cm : CrossMessages) : Prop := {
  mo_txs : cm_Txlist cm = l;
  mo_sig : cm_Sig cm = sig;
  mo_pub : cm_Pubkeys cm = pub;
  mo_root : cm_CrossMerkleRoot cm = Some (tree_ComputeRootHash rt);
  mo_target : slice_get (Split k underscore) 1 = Ret (cm_DesZone cm);
  mo_path : ∃ t, SimpleTreeFromByteSlices sha256 l = Some t ∧ tree_ComputeRootHash t ≠ [] ∧
    VerifyTreePath sha256 (Some (tree_ComputeRootHash t)) (cm_TreePath cm) (Some (tree_ComputeRootHash rt)) = true
}.

(** A bucket for another shard. *)
Definition foreign (kl : bytes * list bytes) : Prop := kl.1 ≠ getShard ∧ kl.1 ≠ [].

#[local] Instance foreign_dec kl : Decision (foreign kl).
Proof. unfold foreign. apply _. Defined.

Lemma messages_ok :
  ∃ mts rt cms, GenerateMerkleTreebySingle txs = Some mts ∧ RootTree mts = Some rt ∧
    bucket_messages mts sig pub height now (map_to_list (ClassifyTxbySingle txs)) = Ret cms ∧
    Forall2 (λ kl cm, message_of rt kl.1 kl.2 cm) (filter foreign (map_to_list (ClassifyTxbySingle txs))) cms.
Proof.
  destruct (generate_tree_ok (ClassifyTxbySingle txs)) as (mts & rt & Eg & Ert & Hp).
  { intros k l E. by apply single_buckets in E as [? _]. }
  exists mts, rt.
  assert (∀ l, (∀ kl, kl ∈ l → ClassifyTxbySingle txs !! kl.1 = Some kl.2) →
    ∃ cms, bucket_messages mts sig pub height now l = Ret cms ∧
      Forall2 (λ kl cm, message_of rt kl.1 kl.2 cm) (filter foreign l) cms) as Hl.
  { intros l. induction l as [|[k v] l IH]; intros Hin; cbn [bucket_messages]; [by exists []|].
    destruct IH as (cms & Ec & Hc); [intros kl Hkl; apply Hin; by right|].
    rewrite filter_cons. unfold bucket_message. destruct (bytes_equal k getShard || bytes_equal k []) eqn:Eo.
    - cbn [mbind outcome_bind]. rewrite Ec. cbn [mbind outcome_bind]. exists cms. split; [done|].
      rewrite decide_False; [done|]. intros [Hf1 Hf2]. cbn in *.
      apply orb_true_iff in Eo as [E%bytes_equal_true|E%bytes_equal_true]; done.
    - apply orb_false_iff in Eo as [Eo1%bytes_equal_false Eo2%bytes_equal_false].
      pose proof (Hin (k, v) ltac:(by left)) as Ek. cbn in Ek.
      destruct (single_buckets _ _ _ Ek) as [_ Hr]. destruct (Hr Eo1) as (r & -> & _).
      destruct (key_target r) as (p & ps & _ & Et). rewrite Et. cbn [mbind outcome_bind].
      destruct (Hp _ _ Ek Eo1) as (t & path & E1 & Hn & Ef & E2 & E3).
      rewrite Ef. cbn [or_panic mbind outcome_bind]. rewrite Ert. cbn [or_panic mbind outcome_bind]. rewrite E2. cbn [mbind outcome_bind].
      destruct (bytes_equal path []) eqn:Ep; [apply bytes_equal_true in Ep; by rewrite Ep in E3|].
      cbn [mbind outcome_bind]. rewrite Ec. cbn [mbind outcome_bind]. eexists. split; [done|].
      rewrite decide_True by done. constructor; [|done]. split; cbn; [done..|by exists t]. }
  destruct (Hl (map_to_list (ClassifyTxbySingle txs))) as (cms & Ec & Hc); [by intros [k v] ?%elem_of_map_to_list|].
  exists cms. by split_and!.
Qed.

Context (GetPubkeyFromByte : bytes → option bytes) (VerifyBytes : bytes → bytes → bytes → bool).

(** Every transaction for another shard is in one bucket for another shard. *)
Lemma foreign_buckets :
  ¬ str "des_" `prefix_of` getShard →
  filter foreign (map_to_list (ClassifyTxbySingle txs)) ≡ₚ map_to_list (delete [] (classified dest_single txs)).
Proof.
  intros Hs. apply NoDup_Permutation; [apply NoDup_filter, NoDup_map_to_list|apply NoDup_map_to_list|]. intros [k l].
  rewrite list_elem_of_filter, !elem_of_map_to_list, lookup_delete_Some. unfold foreign. cbn [fst]. split.
  - intros [[Hk Hne] E]. destruct (merge_own_lookup _ _ _ E Hk) as [_ E']. by split.
  - intros [Hne E]. destruct (classified_Some _ _ _ _ E) as [Hl El]. assert (k ≠ getShard) as Hk.
    { intros ->. apply Hs. destruct (single_key txs getShard) as [r ->]; [by rewrite <-El|done|by exists r]. }
    split; [done|]. unfold ClassifyTxbySingle, merge_own. fold (classified dest_single txs).
    destruct (classified dest_single txs !! []); [|done]. by rewrite lookup_delete_ne, lookup_insert_ne.
Qed.

(** C14. Whatever the transactions of a block, the messages for other shards can be made (no panic, a tree with every root), and the shard
    that receives one accepts it, provided the key of the sender verifies the signature of the root: it rebuilds the tree of the
    bucket from the transactions of the message, and the path in the message leads from its root to the signed root. This holds also for a
    block with a single destination and for one without transactions of the own shard. *)
Theorem cross_messages_accepted :
  ∃ mts rt cms, GenerateMerkleTreebySingle txs = Some mts ∧ RootTree mts = Some rt ∧
    ClassifyTxFromBlock mts txs sig pub height now = Ret cms ∧
    ∀ pk, GetPubkeyFromByte pub = Some pk → VerifyBytes pk (tree_ComputeRootHash rt) sig = true →
      Forall (λ cm, CheckCrossMessageSig sha256 GetPubkeyFromByte VerifyBytes cm = true) cms.
Proof.
  destruct messages_ok as (mts & rt & cms & Eg & Er & Ec & Hc). destruct txs as [|tx txs'] eqn:Etx.
  { exists mts, rt, []. by split_and!. }
  rewrite <-Etx in *. exists mts, rt, cms. split_and!; [done..|by rewrite Etx in *|].
  intros pk Hpk Hv. clear -Hc Hpk Hv. induction Hc as [|kl cm kls cms Hm _ IH]; constructor; [|done].
  unfold CheckCrossMessageSig.
  destruct Hm as [Ht Hs Hb Hroot _ (t & Et & Hn & Hp)]. rewrite Hb, Hpk, Hroot, Hs. cbn [default id].
  rewrite Hv. cbn [negb].
  rewrite Ht, Et. destruct (zlen (tree_ComputeRootHash t) =? 0) eqn:Ez; [|done].
  apply Z.eqb_eq in Ez. unfold zlen in Ez. destruct (tree_ComputeRootHash t); [done|cbn in Ez; lia].
Qed.

(** C15. The messages of a block hold every transaction with a destination exactly once and no other, as long as the name of the own shard
    does not start with des_ as the keys of the buckets do; and the shard a message goes to is the destination of each of its
    transactions, unless that name has an underscore (then the target is cut there). *)
Theorem cross_txs_delivered :
  ¬ str "des_" `prefix_of` getShard →
  ∃ mts cms, GenerateMerkleTreebySingle txs = Some mts ∧ ClassifyTxFromBlock mts txs sig pub height now = Ret cms ∧
    mjoin (cm_Txlist <$> cms) ≡ₚ marshalTX <$> filter (λ tx, dest_single tx ≠ []) (updated txs) ∧
    Forall (λ cm, Forall (λ b, ∃ tx, tx ∈ updated txs ∧ b = marshalTX tx ∧ (underscore ∉ dest tx → cm_DesZone cm = dest tx))
      (cm_Txlist cm)) cms.
Proof.
  intros Hs. destruct messages_ok as (mts & rt & cms & Eg & _ & Ec & Hc). exists mts, cms. split; [done|]. split_and!.
  - rewrite <-Ec. unfold ClassifyTxFromBlock. by destruct txs.
  - rewrite <-classified_join, <-(foreign_buckets Hs). clear -Hc.
    induction Hc as [|kl cm kls cms Hm _ IH]; [done|]. cbn [fmap list_fmap mjoin list_join]. by rewrite IH, (mo_txs _ _ _ _ Hm).
  - apply (Forall2_Forall_r _ _ _ _ Hc), Forall_forall. intros [k l] [[Hk Hne] Hl%elem_of_map_to_list]%list_elem_of_filter cm Hm.
    rewrite (mo_txs _ _ _ _ Hm). destruct (single_buckets _ _ _ Hl) as [_ Hb]. destruct (Hb Hk) as (r & -> & ->).
    apply Forall_forall. intros b (tx & -> & [Hd Htx]%list_elem_of_filter)%list_elem_of_fmap. exists tx. split_and!; [done..|].
    intros Hu. pose proof (mo_target _ _ _ _ Hm) as Ht. cbn [fst] in Ht. rewrite <-Hd in Ht.
    rewrite (dest_target tx) in Ht; [by injection Ht as <-|by rewrite Hd|done].
Qed.

End trees.

End crossshard.
