(* ===== verification/CrossShardFacts.v ===== *)
(** * Messages of a concrete block

    A small codec: the first byte of a transaction is its type ([r] relayed, [x] undecodable, any other one local), the last one its content and what
    stands between them the receiver. The node belongs to shard [A]. *)

From Stdlib Require Import ZArith Lia Bool Strings.Byte String.
From stdpp Require Import base list gmap.
From S2P Require Import Prelude Merkle KeyPath Strconv Account Identypes Mempool CrossShard.
Local Open Scope Z_scope.

Definition codec (shard : bytes) : IdenCodec := {|
  unmarshalTX tx := match tx with
    | [] => None
    | c :: r => if decide (c = x78) then None
                else Some (mkTX (if decide (c = x72) then relaytx else str "tx") (str "A") (take (length r - 1) r) [] (drop (length r - 1) r) [] 0 0)
    end;
  marshalTX t := (if bytes_equal (Txtype t) relaytx then x72 else x74) :: Receiver t ++ Content t;
  unmarshalTxArg _ := None;
  unmarshalCM _ := None;
  decodeCM _ := None;
  marshalCM cm := mjoin (cm_Txlist cm);
  unmarshalPackages _ := [];
  marshalTxlist _ := None;
  unmarshalTxlist d old := (old, false);
  gzip d := Some d;
  gunzip d := Some d;
  getShard := shard;
|}.

#[local] Instance node_codec : IdenCodec := codec (str "A").

(** Two transactions for shard B, one of them twice, one for C, a local one, and one that does not decode. *)
Definition block_txs : list bytes := [str "rB1"; str "tZ0"; str "rC5"; str "rB1"; str "x"; str "rB2"].

Definition any_key (b : bytes) : option bytes := Some b.
Definition any_sig (_ _ _ : bytes) : bool := true.

Definition messages (txs : list bytes) : outcome (list CrossMessages) :=
  mts ← or_panic (GenerateMerkleTreebySingle pad32 txs);
  ClassifyTxFromBlock pad32 [x30] mts txs [x01] [x02] 7 (λ _, 9).

Lemma cross_messages_accepted_witness :
  ∃ cms, messages block_txs = Ret cms ∧ length cms = 3%nat ∧
    Forall (λ cm, CheckCrossMessageSig pad32 any_key any_sig cm = true) cms.
Proof.
  destruct (cross_messages_accepted pad32 [x30] pad32_length block_txs [x01] [x02] 7 (λ _, 9) any_key any_sig) as (mts & rt & cms & E1 & _ & E2 & Hc).
  assert (messages block_txs = Ret cms) as E by (unfold messages; rewrite E1; exact E2).
  exists cms. split; [exact E|]. split; [|exact (Hc [x02] eq_refl eq_refl)].
  assert ((length <$> messages block_txs) = Ret 3%nat) as El by (vm_compute; reflexivity).
  rewrite E in El. injection El as El. exact El.
Defined.

Lemma cross_txs_delivered_witness :
  ∃ cms, messages block_txs = Ret cms ∧ mjoin (cm_Txlist <$> cms) ≡ₚ [str "rB1"; str "rC5"; str "rB1"; str "rB2"].
Proof.
  destruct (cross_txs_delivered pad32 [x30] pad32_length block_txs [x01] [x02] 7 (λ _, 9)) as (mts & cms & E1 & E2 & Hp & _).
  { by intros [k ?]. }
  exists cms. split; [unfold messages; rewrite E1; exact E2|]. rewrite Hp.
  assert ((marshalTX <$> filter (λ tx, dest_single tx ≠ []) (updated block_txs)) = [str "rB1"; str "rC5"; str "rB1"; str "rB2"]) as ->
    by (vm_compute; reflexivity).
  reflexivity.
Defined.

(** A receiver with an underscore: the message goes to the shard named by the part before it. *)
Lemma underscore_cuts_target :
  match messages [str "rB_C1"] with Ret [cm] => cm_DesZone cm = str "B" | _ => False end.
Proof. vm_compute. reflexivity. Qed.

(** The order of a proposal, with and without TASKID. *)
Lemma proposal_order :
  HandleSortTx block_txs = [str "rB1"; str "rB1"; str "rB2"; str "rC5"; str "tZ0"] ∧
  @HandleSortTx (codec []) [str "t1"; str "t2"] = [].
Proof. split; vm_compute; reflexivity. Qed.
