(* ===== verification/SecretConn.v ===== *)
(** * p2p/conn/secret_connection.go: the encrypted connection of two peers

    Data is cut into frames of 1024 bytes with their length in front, and each frame is sealed with a key for its direction and a nonce
    that counts the frames. The connection under it is a byte string: what was written to it, or what an attacker made of it.
    The cipher (chacha20poly1305), the curve and the key derivation are parameters; signatures too. *)

From Stdlib Require Import ZArith Lia Bool Strings.Byte.
From stdpp Require Import base list.
From S2P Require Import Prelude.
Local Open Scope Z_scope.

(** ** Little-endian integers *)

(** [binary.LittleEndian.PutUint32], with n = 4, and [PutUint64], with n = 8. *)
Fixpoint le_bytes (n : nat) (z : Z) : bytes :=
  match n with O => [] | S n => byte_of_Z z :: le_bytes n (z / 256) end.

Definition le_uint (b : bytes) : Z := foldr (λ x acc, byte_Z x + 256 * acc) 0 b.

(** ** Constants *)

Definition dataLenSize : nat := 4.
Definition dataMaxSize : nat := 1024.
Definition totalFrameSize : nat := dataMaxSize + dataLenSize.
Definition aeadSizeOverhead : nat := 16.
Definition aeadKeySize : nat := 32.
Definition aeadNonceSize : nat := 12.

(** The size of a sealed frame. *)
Definition sealedSize : nat := totalFrameSize + aeadSizeOverhead.

(** [aead.Seal] and [aead.Open] by key and nonce, without additional data. *)
Class Aead := {
  Seal : bytes → bytes → bytes → bytes;
  Open : bytes → bytes → bytes → option bytes;
}.

(** A frame opens to what was sealed, and sealing adds the tag. *)
Class AeadLaws `{Aead} : Prop := {
  Open_Seal : ∀ k n p, Open k n (Seal k n p) = Some p;
  Seal_length : ∀ k n p, length (Seal k n p) = (length p + aeadSizeOverhead)%nat;
}.

Record SecretConnection := mkSC {
  sc_recvSecret : bytes;
  sc_sendSecret : bytes;
  sc_recvBuffer : bytes;
  sc_recvNonce : bytes;
  sc_sendNonce : bytes;
}.

Inductive sc_error :=
| ErrSmallOrderRemotePubKey
| ErrSharedSecretIsZero
| ErrChallenge
| ErrInvalidKey
| ErrConnWrite
| ErrUnexpectedEOF
| ErrDecrypt
| ErrChunkLength.

Definition incrNonce (nonce : bytes) : bytes :=
  let counter := le_uint (drop 4 nonce) in
  take 4 nonce ++ le_bytes 8 ((counter + 1) mod 2 ^ 64).

Section conn.
Context `{Aead}.

(** ** Writing *)

(** A frame: length, data, zeros. *)
Definition make_frame (chunk : bytes) : bytes :=
  let frame := replicate totalFrameSize x00 in
  let frame := go_copy frame (le_bytes 4 (zlen chunk mod 2 ^ 32)) in
  take dataLenSize frame ++ go_copy (drop dataLenSize frame) chunk.

Definition with_sendNonce (sc : SecretConnection) (nonce : bytes) : SecretConnection :=
  mkSC (sc_recvSecret sc) (sc_sendSecret sc) (sc_recvBuffer sc) (sc_recvNonce sc) nonce.

(** The loop of [Write]: the frames written to the connection, the bytes they hold, and the error. [werr i] tells whether the i-th write to the
    connection fails. The fuel is the number of bytes. *)
Fixpoint write_loop (fuel : nat) (werr : nat → bool) (sc : SecretConnection) (data : bytes) (n : Z) :
    SecretConnection * list bytes * Z * option sc_error :=
  match fuel with
  | O => (sc, [], n, None)
  | S fuel =>
      if zlen data <=? 0 then (sc, [], n, None)
      else
        let '(chunk, data) := if (dataMaxSize <? length data)%nat then (take dataMaxSize data, drop dataMaxSize data) else (data, []) in
        let frame := make_frame chunk in
        if negb (length (sc_sendSecret sc) =? aeadKeySize)%nat then (sc, [], n, Some ErrInvalidKey)
        else
          let sealedFrame := Seal (sc_sendSecret sc) (sc_sendNonce sc) frame in
          let sc := with_sendNonce sc (incrNonce (sc_sendNonce sc)) in
          if werr O then (sc, [], n, Some ErrConnWrite)
          else
            let '(sc, frames, n, err) := write_loop fuel (λ i, werr (S i)) sc data (n + zlen chunk) in
            (sc, sealedFrame :: frames, n, err)
  end.

Definition Write (werr : nat → bool) (sc : SecretConnection) (data : bytes) :
    SecretConnection * list bytes * Z * option sc_error :=
  write_loop (length data) werr sc data 0.

(** ** Reading *)

Definition with_recv (sc : SecretConnection) (buffer nonce : bytes) : SecretConnection :=
  mkSC (sc_recvSecret sc) (sc_sendSecret sc) buffer nonce (sc_sendNonce sc).

(** Read into a slice of the given length from a connection with the bytes [rd]: the connection afterwards and the bytes copied, or the error. *)
Definition Read (sc : SecretConnection) (rd : bytes) (len : nat) : SecretConnection * bytes * (bytes + sc_error) :=
  if 0 <? zlen (sc_recvBuffer sc) then
    let n := Nat.min len (length (sc_recvBuffer sc)) in
    (with_recv sc (drop n (sc_recvBuffer sc)) (sc_recvNonce sc), rd, inl (take n (sc_recvBuffer sc)))
  else
    if (length rd <? sealedSize)%nat then (sc, [], inr ErrUnexpectedEOF)
    else
      let sealedFrame := take sealedSize rd in
      let rd := drop sealedSize rd in
      if negb (length (sc_recvSecret sc) =? aeadKeySize)%nat then (sc, rd, inr ErrInvalidKey)
      else
        match Open (sc_recvSecret sc) (sc_recvNonce sc) sealedFrame with
        | None => (sc, rd, inr ErrDecrypt)
        | Some frame =>
            let sc := with_recv sc (sc_recvBuffer sc) (incrNonce (sc_recvNonce sc)) in
            let chunkLength := le_uint (take dataLenSize frame) in
            if Z.of_nat dataMaxSize <? chunkLength then (sc, rd, inr ErrChunkLength)
            else
              let chunk := take (Z.to_nat chunkLength) (drop dataLenSize frame) in
              let n := Nat.min len (length chunk) in
              (with_recv sc (drop n chunk) (sc_recvNonce sc), rd, inl (take n chunk))
        end.

End conn.

(** ** The handshake *)

Definition hex32 (first : bytes) (last : byte) : bytes := first ++ replicate (31 - length first) xff ++ [last].

(** The points of small order. *)
Definition blacklist : list bytes := [
  replicate 32 x00;
  x01 :: replicate 31 x00;
  [xe0; xeb; x7a; x7c; x3b; x41; xb8; xae; x16; x56; xe3; xfa; xf1; x9f; xc4; x6a; xda; x09; x8d; xeb; x9c; x32; xb1; xfd; x86; x62; x05; x16;
   x5f; x49; xb8; x00];
  [x5f; x9c; x95; xbc; xa3; x50; x8c; x24; xb1; xd0; xb1; x55; x9c; x83; xef; x5b; x04; x44; x5c; xc4; x58; x1c; x8e; x86; xd8; x22; x4e; xdd;
   xd0; x9f; x11; x57];
  hex32 [xec] x7f;
  hex32 [xed] x7f;
  hex32 [xee] x7f
].

Definition hasSmallOrder (pubKey : bytes) : bool := existsb (bytes_equal pubKey) blacklist.

Definition sort32 (foo bar : bytes) : bytes * bytes :=
  match bytes_compare foo bar with Lt => (foo, bar) | _ => (bar, foo) end.

(** [curve25519.ScalarMult] by private and public key, the 96 bytes of [hkdf], and signatures. *)
Class HandshakeCrypto := {
  ScalarMult : bytes → bytes → bytes;
  ephPublic : bytes → bytes;
  hkdf : bytes → bytes;
  authPublic : bytes → bytes;
  authSign : bytes → bytes → bytes;
  authVerify : bytes → bytes → bytes → bool;
}.

(** Both sides compute the same secret; the derived data has its length; a signature verifies. *)
Class HandshakeLaws `{HandshakeCrypto} : Prop := {
  dh_agree : ∀ a b, ScalarMult a (ephPublic b) = ScalarMult b (ephPublic a);
  hkdf_length : ∀ s, length (hkdf s) = (2 * aeadKeySize + 32)%nat;
  sign_verifies : ∀ k m, authVerify (authPublic k) m (authSign k m) = true;
}.

Section handshake.
Context `{HandshakeCrypto}.

Definition computeDHSecret (remPubKey locPrivKey : bytes) : bytes + sc_error :=
  let shrKey := ScalarMult locPrivKey remPubKey in
  if bytes_equal shrKey (replicate 32 x00) then inr ErrSharedSecretIsZero else inl shrKey.

(** The keys for receiving and for sending, and the challenge. *)
Definition deriveSecretAndChallenge (dhSecret : bytes) (locIsLeast : bool) : bytes * bytes * bytes :=
  let res := hkdf dhSecret in
  let challenge := take 32 (drop (2 * aeadKeySize) res) in
  let key1 := take aeadKeySize res in
  let key2 := take aeadKeySize (drop aeadKeySize res) in
  if locIsLeast then (key1, key2, challenge) else (key2, key1, challenge).

(** The first half of [MakeSecretConnection], after the ephemeral keys were exchanged: the connection, the challenge and its signature. *)
Definition make_connection (locPrivKey locEphPriv remEphPub : bytes) : (SecretConnection * bytes * bytes) + sc_error :=
  if hasSmallOrder remEphPub then inr ErrSmallOrderRemotePubKey
  else
    let locEphPub := ephPublic locEphPriv in
    let '(loEphPub, _) := sort32 locEphPub remEphPub in
    let locIsLeast := bytes_equal locEphPub loEphPub in
    match computeDHSecret remEphPub locEphPriv with
    | inr err => inr err
    | inl dhSecret =>
        let '(recvSecret, sendSecret, challenge) := deriveSecretAndChallenge dhSecret locIsLeast in
        let nonce := replicate aeadNonceSize x00 in
        inl (mkSC recvSecret sendSecret [] nonce nonce, challenge, authSign locPrivKey challenge)
    end.

(** The second half, once key and signature of the peer were read from the connection: the key of the peer. *)
Definition authorize (challenge remPubKey remSignature : bytes) : bytes + sc_error :=
  if authVerify remPubKey challenge remSignature then inl remPubKey else inr ErrChallenge.

End handshake.

(** ** Nonces and frames *)

Lemma length_le_bytes n z : length (le_bytes n z) = n.
Proof. revert z. induction n as [|n IH]; intros z; cbn; [done|]. by rewrite IH. Qed.

Lemma le_uint_bytes n z : 0 ≤ z < 256 ^ Z.of_nat n → le_uint (le_bytes n z) = z.
Proof.
  revert z. induction n as [|n IH]; intros z Hz; [cbn in *; lia|]. cbn [le_bytes]. unfold le_uint. cbn [foldr]. fold (le_uint (le_bytes n (z / 256))).
  rewrite Nat2Z.inj_succ, Z.pow_succ_r in Hz by lia.
  rewrite IH by (split; [apply Z.div_pos; lia|apply Z.div_lt_upper_bound; lia]). rewrite byte_Z_mod.
  pose proof (Z.div_mod z 256). lia.
Qed.

(** The nonce of the i-th frame. *)
Definition nonce (i : nat) : bytes := replicate 4 x00 ++ le_bytes 8 (Z.of_nat i mod 2 ^ 64).

Lemma nonce_0 : nonce 0 = replicate aeadNonceSize x00.
Proof. reflexivity. Qed.

Lemma nonce_counter i : le_uint (drop 4 (nonce i)) = Z.of_nat i mod 2 ^ 64.
Proof. change (drop 4 (nonce i)) with (le_bytes 8 (Z.of_nat i mod 2 ^ 64)). apply le_uint_bytes. apply Z.mod_pos_bound. lia. Qed.

Lemma incr_nonce i : incrNonce (nonce i) = nonce (S i).
Proof.
  unfold incrNonce. rewrite nonce_counter, Zplus_mod_idemp_l. unfold nonce at 2. by rewrite Nat2Z.inj_succ.
Qed.

Lemma nonce_inj i j : Z.of_nat i < 2 ^ 64 → Z.of_nat j < 2 ^ 64 → nonce i = nonce j → i = j.
Proof. intros Hi Hj E%(f_equal (λ n, le_uint (drop 4 n))). rewrite !nonce_counter, !Z.mod_small in E by lia. lia. Qed.

Definition fits (chunk : bytes) : Prop := (0 < length chunk ≤ dataMaxSize)%nat.

Lemma make_frame_eq chunk :
  fits chunk → make_frame chunk = le_bytes 4 (zlen chunk) ++ chunk ++ replicate (dataMaxSize - length chunk) x00.
Proof.
  intros [_ Hc]. unfold make_frame, zlen, dataMaxSize in *. rewrite Z.mod_small by lia.
  assert (go_copy (replicate totalFrameSize x00) (le_bytes 4 (Z.of_nat (length chunk))) =
    le_bytes 4 (Z.of_nat (length chunk)) ++ replicate 1024 x00) as -> by reflexivity.
  rewrite take_app_length', drop_app_length' by (by rewrite length_le_bytes). f_equal. unfold go_copy.
  by rewrite length_replicate, take_ge, drop_replicate by lia.
Qed.

Lemma length_make_frame chunk : fits chunk → length (make_frame chunk) = totalFrameSize.
Proof. intros Hf. rewrite make_frame_eq by done. destruct Hf. rewrite !length_app, length_le_bytes, length_replicate. unfold totalFrameSize, dataLenSize. lia. Qed.

Lemma frame_length chunk : fits chunk → le_uint (take dataLenSize (make_frame chunk)) = zlen chunk.
Proof.
  intros Hf. rewrite make_frame_eq, take_app_length' by (done || by rewrite length_le_bytes). destruct Hf. unfold dataMaxSize in *.
  apply le_uint_bytes. unfold zlen. lia.
Qed.

Lemma frame_chunk chunk : fits chunk → take (Z.to_nat (zlen chunk)) (drop dataLenSize (make_frame chunk)) = chunk.
Proof.
  intros Hf. rewrite make_frame_eq, drop_app_length' by (done || by rewrite length_le_bytes).
  unfold zlen. by rewrite Nat2Z.id, take_app_length.
Qed.

(** ** Streams *)

(** The pieces of the data of one write. *)
Fixpoint chunks_loop (fuel : nat) (data : bytes) : list bytes :=
  match fuel with
  | O => []
  | S fuel => match data with [] => [] | _ => take dataMaxSize data :: chunks_loop fuel (drop dataMaxSize data) end
  end.

Definition chunks (data : bytes) : list bytes := chunks_loop (length data) data.

Lemma chunks_loop_ok fuel data :
  (length data ≤ fuel)%nat → mjoin (chunks_loop fuel data) = data ∧ Forall fits (chunks_loop fuel data).
Proof.
  revert data. induction fuel as [|fuel IH]; intros data Hl; cbn [chunks_loop].
  { by destruct data; [|cbn in Hl; lia]. }
  destruct data as [|b data]; [done|]. set (d := b :: data) in *. assert (0 < length d)%nat by (cbn; lia).
  destruct (IH (drop dataMaxSize d)) as [E Hf]; [rewrite length_drop; unfold dataMaxSize; lia|]. split.
  - change (take dataMaxSize d ++ mjoin (chunks_loop fuel (drop dataMaxSize d)) = d). rewrite E. apply take_drop.
  - constructor; [|done]. unfold fits. rewrite length_take. unfold dataMaxSize. lia.
Qed.

(** The frames of a byte string. *)
Definition frame_at (rd : bytes) (j : nat) : bytes := take sealedSize (drop (j * sealedSize) rd).

Lemma frame_at_S rd j : frame_at rd (S j) = frame_at (drop sealedSize rd) j.
Proof. unfold frame_at. rewrite drop_drop. done. Qed.

Section streams.
Context `{AeadLaws}.

Definition seal_all (k : bytes) (i : nat) (cs : list bytes) : list bytes := imap (λ j c, Seal k (nonce (i + j)) (make_frame c)) cs.

Lemma seal_all_cons k i c cs : seal_all k i (c :: cs) = Seal k (nonce i) (make_frame c) :: seal_all k (S i) cs.
Proof.
  unfold seal_all. cbn [imap]. rewrite Nat.add_0_r. f_equal. apply imap_ext. intros j x _. cbn. by rewrite Nat.add_succ_r.
Qed.

Lemma seal_all_app k i cs cs' : seal_all k i (cs ++ cs') = seal_all k i cs ++ seal_all k (i + length cs) cs'.
Proof. unfold seal_all. rewrite imap_app. f_equal. apply imap_ext. intros j x _. unfold compose. by rewrite Nat.add_assoc. Qed.

(** Writing on a connection that does not fail. *)
Lemma write_loop_ok fuel sc data i n :
  length (sc_sendSecret sc) = aeadKeySize → sc_sendNonce sc = nonce i → (length data ≤ fuel)%nat →
  write_loop fuel (λ _, false) sc data n =
    (with_sendNonce sc (nonce (i + length (chunks_loop fuel data))), seal_all (sc_sendSecret sc) i (chunks_loop fuel data), n + zlen data, None).
Proof.
  revert sc data i n. induction fuel as [|fuel IH]; intros sc data i n Hk Hn Hl;
    (assert (with_sendNonce sc (nonce (i + 0)) = sc) as Es by (rewrite Nat.add_0_r, <-Hn; by destruct sc)).
  { destruct data; [|cbn in Hl; lia]. cbn [write_loop chunks_loop length]. by rewrite Es, Z.add_0_r. }
  cbn [write_loop chunks_loop]. destruct data as [|b data].
  { change (zlen [] <=? 0) with true. cbn [length]. by rewrite Es, Z.add_0_r. }
  set (d := b :: data) in *. assert (0 < length d)%nat as Hd by (cbn; lia).
  destruct (Z.leb_spec (zlen d) 0) as [Hz|_]; [unfold zlen in Hz; lia|].
  assert ((if (dataMaxSize <? length d)%nat then (take dataMaxSize d, drop dataMaxSize d) else (d, [])) = (take dataMaxSize d, drop dataMaxSize d)) as ->.
  { destruct (Nat.ltb_spec dataMaxSize (length d)); [done|]. by rewrite take_ge, drop_ge by done. }
  rewrite Hk, Nat.eqb_refl. cbn [negb]. rewrite Hn, incr_nonce.
  rewrite (IH _ _ (S i)) by (done || rewrite length_drop; unfold dataMaxSize; lia).
  rewrite seal_all_cons. cbn [length]. rewrite Nat.add_succ_r. f_equal. f_equal.
  rewrite <-Z.add_assoc. f_equal. unfold zlen. rewrite length_take, length_drop. unfold dataMaxSize. lia.
Qed.

(** A sequence of writes; the bytes on the connection. *)
Fixpoint writes (sc : SecretConnection) (ws : list bytes) : SecretConnection * list bytes :=
  match ws with
  | [] => (sc, [])
  | data :: ws =>
      let '(sc, frames, _, _) := Write (λ _, false) sc data in
      let '(sc, rest) := writes sc ws in (sc, frames ++ rest)
  end.

Definition pieces (ws : list bytes) : list bytes := mjoin (chunks <$> ws).

Lemma writes_sealed sc ws i :
  length (sc_sendSecret sc) = aeadKeySize → sc_sendNonce sc = nonce i →
  (writes sc ws).2 = seal_all (sc_sendSecret sc) i (pieces ws).
Proof.
  revert sc i. induction ws as [|data ws IH]; intros sc i Hk Hn; [done|]. cbn [writes]. unfold Write.
  rewrite (write_loop_ok _ _ _ i) by done. fold (chunks data).
  specialize (IH (with_sendNonce sc (nonce (i + length (chunks data)))) (i + length (chunks data))%nat Hk eq_refl).
  destruct (writes _ ws) as [sc' rest]. cbn [snd] in *. rewrite IH. unfold pieces. cbn [fmap list_fmap mjoin list_join].
  by rewrite seal_all_app.
Qed.

Lemma stream_pieces ws : mjoin (pieces ws) = mjoin ws.
Proof.
  unfold pieces. induction ws as [|data ws IH]; [done|]. cbn [fmap list_fmap]. cbn [mjoin list_join].
  change (mjoin (chunks data ++ mjoin (chunks <$> ws)) = data ++ mjoin ws).
  rewrite join_app, IH. f_equal. by apply chunks_loop_ok.
Qed.

Lemma pieces_fit ws : Forall fits (pieces ws).
Proof.
  unfold pieces. apply Forall_join. rewrite Forall_fmap. apply Forall_true. intros data. by apply chunks_loop_ok.
Qed.

(** The data of a sequence of reads with the given lengths, whatever errors come between. *)
Fixpoint reads (sc : SecretConnection) (rd : bytes) (lens : list nat) : list bytes :=
  match lens with
  | [] => []
  | len :: lens =>
      let '(sc, rd, r) := Read sc rd len in
      match r with inl d => d :: reads sc rd lens | inr _ => reads sc rd lens end
  end.

Context (cs : list bytes) (k : bytes).
Hypothesis cs_fit : Forall fits cs.
Hypothesis key_ok : length k = aeadKeySize.

(** The receiver has taken i frames, of which [left] was not read yet. *)
Record taken (sc : SecretConnection) (i : nat) (left : bytes) : Prop := {
  tk_key : sc_recvSecret sc = k;
  tk_nonce : sc_recvNonce sc = nonce i;
  tk_buffer : sc_recvBuffer sc = left;
}.

(** A frame that opens to the right piece. *)
Lemma Read_frame sc i rd len c :
  taken sc i [] → cs !! i = Some c → (sealedSize ≤ length rd)%nat →
  Open k (nonce i) (take sealedSize rd) = Some (make_frame c) →
  ∃ sc', Read sc rd len = (sc', drop sealedSize rd, inl (take (Nat.min len (length c)) c)) ∧
    taken sc' (S i) (drop (Nat.min len (length c)) c).
Proof.
  intros [T1 T2 T3] Hc Hrd HO. assert (fits c) as Hf by (by eapply Forall_lookup_1).
  unfold Read. rewrite T3. cbn [zlen length Z.ltb Z.compare]. change (0 <? zlen []) with false. cbn match.
  destruct (Nat.ltb_spec (length rd) sealedSize); [lia|].
  rewrite T1, T2, key_ok, Nat.eqb_refl. cbn [negb]. rewrite HO, frame_length, frame_chunk by done.
  destruct (Z.ltb_spec (Z.of_nat dataMaxSize) (zlen c)) as [Hl|_]; [destruct Hf; unfold zlen in Hl; lia|].
  eexists. split; [done|]. split; [exact T1|apply incr_nonce|done].
Qed.

Lemma Read_buffer sc i left rd len :
  taken sc i left → left ≠ [] →
  ∃ sc', Read sc rd len = (sc', rd, inl (take (Nat.min len (length left)) left)) ∧ taken sc' i (drop (Nat.min len (length left)) left).
Proof.
  intros [T1 T2 T3] Hne. unfold Read. rewrite T3. destruct (Z.ltb_spec 0 (zlen left)) as [_|Hz].
  2:{ destruct left; [done|]. unfold zlen in Hz. cbn in Hz. lia. }
  eexists. split; [done|]. by split.
Qed.

(** Only the sender seals with the key: what opens was sealed by it. *)
Definition unforged (rd : bytes) : Prop :=
  ∀ j i p, Z.of_nat i < 2 ^ 64 → length (frame_at rd j) = sealedSize → Open k (nonce i) (frame_at rd j) = Some p →
  ∃ c, cs !! i = Some c ∧ p = make_frame c.

Lemma unforged_drop rd : unforged rd → unforged (drop sealedSize rd).
Proof. intros Hu j i p. rewrite <-frame_at_S. apply Hu. Qed.

Lemma unforged_nil : unforged [].
Proof. intros j i p _ Hl. unfold frame_at in Hl. by rewrite drop_nil in Hl. Qed.

Hypothesis few_frames : Z.of_nat (length cs) < 2 ^ 64.

(** One read, on any connection without forged frames. *)
Lemma Read_unforged sc rd i left len :
  taken sc i left → (i ≤ length cs)%nat → unforged rd →
  ∃ sc' rd' r i' left', Read sc rd len = (sc', rd', r) ∧ taken sc' i' left' ∧ (i' ≤ length cs)%nat ∧ unforged rd' ∧
    match r with inl d => d | inr _ => [] end ++ left' ++ mjoin (drop i' cs) = left ++ mjoin (drop i cs).
Proof.
  intros Ht Hi Hu. destruct left as [|b left].
  2:{ destruct (Read_buffer _ _ _ rd len Ht ltac:(done)) as (sc' & E & Ht'). eexists _, _, _, _, _. split; [exact E|].
      split_and!; [done..|]. by rewrite app_assoc, take_drop. }
  destruct (Nat.ltb (length rd) sealedSize) eqn:El.
  { destruct Ht as [T1 T2 T3]. eexists _, _, _, i, []. unfold Read. rewrite T3. change (0 <? zlen []) with false. cbn match. rewrite El.
    split; [done|]. by split_and!; [|done|apply unforged_nil|]. }
  apply Nat.ltb_ge in El. destruct (Open k (nonce i) (take sealedSize rd)) as [frame|] eqn:EO.
  - destruct (Hu 0%nat i frame) as (c & Hc & ->); [lia|unfold frame_at; rewrite length_take, length_drop; lia|exact EO|].
    destruct (Read_frame _ _ _ len _ Ht Hc El EO) as (sc' & E & Ht'). eexists _, _, _, _, _. split; [exact E|].
    split_and!; [done|by apply lookup_lt_Some in Hc|by apply unforged_drop|]. rewrite (drop_S _ _ _ Hc).
    rewrite app_assoc, take_drop. done.
  - destruct Ht as [T1 T2 T3]. exists sc, (drop sealedSize rd), (inr ErrDecrypt), i, []. unfold Read. rewrite T3.
    change (0 <? zlen []) with false. cbn match. apply Nat.ltb_ge in El. rewrite El, T1, key_ok, Nat.eqb_refl. cbn [negb]. rewrite T2, EO.
    split; [done|]. by split_and!; [|done|apply unforged_drop|].
Qed.

Lemma reads_unforged lens sc rd i left :
  taken sc i left → (i ≤ length cs)%nat → unforged rd → mjoin (reads sc rd lens) `prefix_of` left ++ mjoin (drop i cs).
Proof.
  revert sc rd i left. induction lens as [|len lens IH]; intros sc rd i left Ht Hi Hu; cbn [reads]; [apply prefix_nil|].
  destruct (Read_unforged sc rd i left len Ht Hi Hu) as (sc' & rd' & r & i' & left' & -> & Ht' & Hi' & Hu' & E). rewrite <-E.
  destruct r as [d|err]; [|by apply IH]. cbn [mjoin list_join]. by apply prefix_app, IH.
Qed.

(** Reads on the connection as the sender wrote it: each takes a byte at least while there is one. *)
Lemma reads_honest lens sc i left :
  taken sc i left → Forall (λ len, 0 < len)%nat lens →
  let got := mjoin (reads sc (mjoin (seal_all k i (drop i cs))) lens) in
  got `prefix_of` left ++ mjoin (drop i cs) ∧ (Nat.min (length lens) (length (left ++ mjoin (drop i cs))) ≤ length got)%nat.
Proof.
  revert sc i left. induction lens as [|len lens IH]; intros sc i left Ht Hl; [split; [apply prefix_nil|cbn; lia]|].
  inversion_clear Hl as [|?? Hlen Hlens]. cbn [reads]. destruct left as [|b left].
  - destruct (drop i cs) as [|c rest] eqn:Ed.
    { destruct (IH sc i [] Ht Hlens) as [Hp _]. rewrite Ed in Hp. unfold Read. rewrite (tk_buffer _ _ _ Ht). split; [exact Hp|cbn; lia]. }
    assert (cs !! i = Some c) as Hc by (by rewrite <-(Nat.add_0_r i), <-lookup_drop, Ed).
    assert (drop (S i) cs = rest) as Er by (rewrite (drop_S _ _ _ Hc) in Ed; congruence).
    rewrite seal_all_cons. change (mjoin (?x :: ?y)) with (x ++ mjoin y).
    assert (fits c) as Hf by (by eapply Forall_lookup_1).
    assert (length (Seal k (nonce i) (make_frame c)) = sealedSize) as Hsl by (by rewrite Seal_length, length_make_frame).
    destruct (Read_frame sc i (Seal k (nonce i) (make_frame c) ++ mjoin (seal_all k (S i) rest)) len c Ht Hc) as (sc' & E & Ht').
    { rewrite length_app. lia. } { rewrite take_app_length' by done. apply Open_Seal. }
    rewrite E, drop_app_length' by done. destruct (IH _ _ _ Ht' Hlens) as [Hp Hm]. rewrite Er in Hp, Hm.
    change (mjoin (?x :: ?y)) with (x ++ mjoin y). split.
    + etrans; [apply prefix_app, Hp|]. cbn [List.app]. by rewrite app_assoc, take_drop.
    + rewrite !length_app, !length_take, !length_drop in *. destruct Hf. cbn [length List.app]. lia.
  - destruct (Read_buffer _ _ _ (mjoin (seal_all k i (drop i cs))) len Ht ltac:(done)) as (sc' & E & Ht'). rewrite E.
    destruct (IH _ _ _ Ht' Hlens) as [Hp Hm]. change (mjoin (?x :: ?y)) with (x ++ mjoin y). split.
    + etrans; [apply prefix_app, Hp|]. by rewrite app_assoc, take_drop.
    + rewrite !length_app, !length_take, !length_drop in *. cbn [length List.app] in *. lia.
Qed.

End streams.

(** ** Two ends *)

Section ends.
Context `{HandshakeLaws} `{AeadLaws}.

(** The keys of the two ends of a connection, after they exchanged their ephemeral keys. *)
Record connected (privA ephA privB ephB : bytes) (s r : SecretConnection) (chS sigS chR sigR : bytes) : Prop := {
  cn_s : make_connection privA ephA (ephPublic ephB) = inl (s, chS, sigS);
  cn_r : make_connection privB ephB (ephPublic ephA) = inl (r, chR, sigR);
  cn_ne : ephPublic ephA ≠ ephPublic ephB;
}.

Lemma make_connection_inv priv eph rem sc ch sig :
  make_connection priv eph rem = inl (sc, ch, sig) →
  let least := match bytes_compare (ephPublic eph) rem with Lt => true | _ => bytes_equal (ephPublic eph) rem end in
  let d := deriveSecretAndChallenge (ScalarMult eph rem) least in
  sc = mkSC d.1.1 d.1.2 [] (nonce 0) (nonce 0) ∧ ch = d.2 ∧ sig = authSign priv ch.
Proof.
  unfold make_connection, sort32, computeDHSecret. destruct (hasSmallOrder rem); [done|].
  assert (bytes_equal (ephPublic eph) (ephPublic eph) = true) as Hr by (by apply bytes_equal_true).
  destruct (bytes_compare (ephPublic eph) rem); rewrite ?Hr; destruct (bytes_equal (ScalarMult eph rem) _); try done;
    destruct (deriveSecretAndChallenge _ _) as [[k1 k2] c]; intros [= <- <- <-]; by rewrite nonce_0.
Qed.

Lemma derive_swap s b :
  let d := deriveSecretAndChallenge s b in deriveSecretAndChallenge s (negb b) = (d.1.2, d.1.1, d.2).
Proof. unfold deriveSecretAndChallenge. by destruct b. Qed.

Lemma derive_length s b : length (deriveSecretAndChallenge s b).1.2 = aeadKeySize.
Proof.
  unfold deriveSecretAndChallenge. destruct b; cbn [fst snd]; rewrite length_take, ?length_drop, hkdf_length; unfold aeadKeySize; lia.
Qed.

(** What the receiver uses is what the sender uses, in both directions. *)
Lemma connected_keys pa ea pb eb s r chS sigS chR sigR :
  connected pa ea pb eb s r chS sigS chR sigR →
  sc_recvSecret r = sc_sendSecret s ∧ sc_sendSecret r = sc_recvSecret s ∧ length (sc_sendSecret s) = aeadKeySize ∧
  taken (sc_sendSecret s) r 0 [] ∧ sc_sendNonce s = nonce 0 ∧ chS = chR ∧ sigR = authSign pb chR.
Proof.
  intros [Hs Hr Hne]. apply make_connection_inv in Hs as (-> & -> & _), Hr as (-> & -> & ->).
  rewrite (dh_agree eb ea). set (d := ScalarMult ea (ephPublic eb)).
  assert (match bytes_compare (ephPublic eb) (ephPublic ea) with Lt => true | _ => bytes_equal (ephPublic eb) (ephPublic ea) end =
    negb match bytes_compare (ephPublic ea) (ephPublic eb) with Lt => true | _ => bytes_equal (ephPublic ea) (ephPublic eb) end) as ->.
  { rewrite (bytes_compare_antisym (ephPublic eb)). destruct (bytes_compare (ephPublic eb) (ephPublic ea)) eqn:E; cbn [CompOpp].
    - by apply bytes_compare_eq in E.
    - assert (bytes_equal (ephPublic ea) (ephPublic eb) = false) as -> by (by apply bytes_equal_false). done.
    - by apply bytes_equal_false. }
  rewrite derive_swap. cbn [sc_recvSecret sc_sendSecret sc_sendNonce fst snd]. split_and!; [done|done|apply derive_length|by split|done..].
Qed.

(** Nobody else seals with the key of a direction: a frame that opens, under some nonce, is the one the sender wrote with that nonce. *)
Definition unforgeable (s : SecretConnection) (ws : list bytes) (rd : bytes) : Prop :=
  ∀ j i p, Z.of_nat i < 2 ^ 64 → length (frame_at rd j) = sealedSize → Open (sc_sendSecret s) (nonce i) (frame_at rd j) = Some p →
  (writes s ws).2 !! i = Some (frame_at rd j).

Lemma unforgeable_unforged s ws rd :
  length (sc_sendSecret s) = aeadKeySize → sc_sendNonce s = nonce 0 →
  unforgeable s ws rd → unforged (pieces ws) (sc_sendSecret s) rd.
Proof.
  intros Hk Hn Hu j i p Hi Hl HO. pose proof (Hu j i p Hi Hl HO) as E. rewrite (writes_sealed _ _ 0) in E by done.
  unfold seal_all in E. rewrite list_lookup_imap in E. destruct (pieces ws !! i) as [c|] eqn:Ec; [|done]. injection E as E.
  exists c. split; [done|]. rewrite <-E, Open_Seal in HO. by injection HO as <-.
Qed.

(** C16. The encrypted connection is authentic and in order. Two peers that exchanged different ephemeral keys derive the same challenge, so that the
    signature of the one is accepted by the other, and matching keys for both directions. Whatever an attacker then puts on the wire
    in place of what was written (frames replayed, swapped, dropped, changed or cut), short of forging a sealed frame, what the receiver
    reads, with any sizes of reads and going on after errors, is a prefix of what the sender wrote. *)
Theorem secret_stream_authentic pa ea pb eb s r chS sigS chR sigR ws rd lens :
  connected pa ea pb eb s r chS sigS chR sigR → Z.of_nat (length (pieces ws)) < 2 ^ 64 → unforgeable s ws rd →
  authorize chS (authPublic pb) sigR = inl (authPublic pb) ∧ mjoin (reads r rd lens) `prefix_of` mjoin ws.
Proof.
  intros (_ & _ & Hk & Ht & Hn & -> & ->)%connected_keys Hf Hu. split; [unfold authorize; by rewrite sign_verifies|].
  rewrite <-(stream_pieces ws). apply (reads_unforged (pieces ws) _ (pieces_fit ws) Hk Hf lens r rd 0 []); [exact Ht|lia|by apply unforgeable_unforged].
Qed.

(** C17. What is written on an encrypted connection is read on its other end: byte for byte and in order, for every sequence of writes, and
    complete once there were as many reads, of a byte or more each, as bytes. *)
Theorem secret_stream_roundtrip pa ea pb eb s r chS sigS chR sigR ws lens :
  connected pa ea pb eb s r chS sigS chR sigR → Forall (λ len, 0 < len)%nat lens → (length (mjoin ws) ≤ length lens)%nat →
  mjoin (reads r (mjoin (writes s ws).2) lens) = mjoin ws.
Proof.
  intros (_ & _ & Hk & Ht & Hn & _)%connected_keys Hl Hlen. rewrite (writes_sealed _ _ 0) by done.
  destruct (reads_honest (pieces ws) _ (pieces_fit ws) Hk lens r 0 [] Ht Hl) as [[rest E] Hm].
  change ([] ++ mjoin (drop 0 (pieces ws))) with (mjoin (pieces ws)) in E, Hm. change (drop 0 (pieces ws)) with (pieces ws) in E, Hm.
  rewrite (stream_pieces ws) in E, Hm. apply (f_equal length) in E as El. rewrite length_app in El.
  destruct rest as [|x rest]; [by rewrite app_nil_r in E|]. cbn [length] in El. lia.
Qed.

End ends.
