(* ===== verification/SecretConnFacts.v ===== *)
(** * A small cipher, and an attack on it that fails

    The tag of a sealed frame is its nonce and the beginning of the key. *)

From Stdlib Require Import ZArith Lia Bool Strings.Byte.
From stdpp Require Import base list.
From S2P Require Import Prelude SecretConn.
Local Open Scope Z_scope.

Definition tag (k n : bytes) : bytes := take aeadSizeOverhead (n ++ k ++ replicate aeadSizeOverhead x00).

#[local] Instance tagging : Aead := {|
  Seal k n p := p ++ tag k n;
  Open k n c :=
    let m := (length c - aeadSizeOverhead)%nat in
    if bytes_equal (drop m c) (tag k n) then Some (take m c) else None;
|}.

Lemma length_tag k n : length (tag k n) = aeadSizeOverhead.
Proof. unfold tag. rewrite length_take, !length_app, length_replicate. unfold aeadSizeOverhead. lia. Qed.

#[local] Instance tagging_laws : AeadLaws.
Proof.
  split; intros k n p; cbn [Seal Open tagging]; cbv zeta.
  - rewrite length_app, length_tag, Nat.add_sub, drop_app_length, take_app_length.
    assert (bytes_equal (tag k n) (tag k n) = true) as -> by (by apply bytes_equal_true). done.
  - by rewrite length_app, length_tag.
Qed.

(** A frame opens only under its nonce. *)
Lemma tagging_nonce k i j p q :
  Z.of_nat i < 2 ^ 64 → Z.of_nat j < 2 ^ 64 → Open k (nonce i) (Seal k (nonce j) p) = Some q → i = j.
Proof.
  intros Hi Hj. cbn [Seal Open tagging]. cbv zeta. rewrite length_app, length_tag, Nat.add_sub, drop_app_length.
  destruct (bytes_equal (tag k (nonce j)) (tag k (nonce i))) eqn:E; [|done]. intros _. apply bytes_equal_true in E.
  apply (f_equal (take 12)) in E. unfold tag in E. rewrite !take_take in E. change (12 `min` aeadSizeOverhead)%nat with 12%nat in E.
  rewrite !take_app_length' in E by (by unfold nonce; rewrite length_app, length_replicate, length_le_bytes). symmetry. by apply nonce_inj.
Qed.

(** Keys that are their own public keys, and a secret that is the pair of both. *)
#[local] Instance plain : HandshakeCrypto := {|
  ScalarMult a b := (sort32 a b).1 ++ (sort32 a b).2;
  ephPublic := id;
  hkdf s := take 96 (s ++ replicate 96 x07);
  authPublic := id;
  authSign k m := k ++ m;
  authVerify k m sig := bytes_equal sig (k ++ m);
|}.

#[local] Instance plain_laws : HandshakeLaws.
Proof.
  split; cbn [ScalarMult ephPublic hkdf authPublic authSign authVerify plain]; unfold id.
  - intros a b. unfold sort32. rewrite (bytes_compare_antisym a b). destruct (bytes_compare a b) eqn:E; cbn; [|done..].
    apply bytes_compare_eq in E as ->. done.
  - intros s. rewrite length_take, length_app, length_replicate. unfold aeadKeySize. lia.
  - intros k m. by apply bytes_equal_true.
Qed.

Definition ends : option (SecretConnection * bytes * bytes * (SecretConnection * bytes * bytes)) :=
  match make_connection [x61] [x05; x06] [x09], make_connection [x62] [x09] [x05; x06] with
  | inl a, inl b => Some (a, b)
  | _, _ => None
  end.

Definition sample_end (b : bool) : SecretConnection * bytes * bytes :=
  match ends with Some (x, y) => if b then x else y | None => (mkSC [] [] [] [] [], [], []) end.

Definition sender : SecretConnection := (sample_end true).1.1.
Definition receiver : SecretConnection := (sample_end false).1.1.

Lemma sample_connected :
  connected [x61] [x05; x06] [x62] [x09] sender receiver (sample_end true).1.2 (sample_end true).2 (sample_end false).1.2 (sample_end false).2.
Proof. by split; [vm_compute; reflexivity..|]. Qed.

Definition said : list bytes := [[x68; x69]; [x21]].
Definition frames : list bytes := (writes sender said).2.

(** The first frame is sent twice by the attacker. *)
Definition replayed : bytes := mjoin (take 1 frames) ++ mjoin frames.

Definition key : bytes := sc_sendSecret sender.
Definition frame0 : bytes := Seal key (nonce 0) (make_frame [x68; x69]).
Definition frame1 : bytes := Seal key (nonce 1) (make_frame [x21]).

Lemma replayed_unforgeable : unforgeable sender said replayed.
Proof.
  intros j i p Hi Hl HO. assert (frames = [frame0; frame1]) as Ef by (vm_compute; reflexivity).
  assert (frame_at replayed j = frame0 ∨ frame_at replayed j = frame1) as [E|E].
  { destruct j as [|[|[|j]]]; [left; vm_compute; reflexivity..|right; vm_compute; reflexivity|].
    exfalso. unfold frame_at in Hl. rewrite drop_ge in Hl; [done|].
    assert (length replayed = (3 * sealedSize)%nat) as -> by (vm_compute; reflexivity). nia. }
  - rewrite E in *. fold key in HO. unfold frame0 in HO. apply tagging_nonce in HO as ->; [|lia..]. fold frames. by rewrite Ef.
  - rewrite E in *. fold key in HO. unfold frame1 in HO. apply tagging_nonce in HO as ->; [|lia..]. fold frames. by rewrite Ef.
Qed.

Lemma secret_stream_authentic_witness :
  mjoin (reads receiver replayed [1; 5; 5; 5]%nat) `prefix_of` [x68; x69; x21] ∧
  reads receiver replayed [1; 5; 5; 5]%nat = [[x68]; [x69]; [x21]].
Proof.
  split; [|vm_compute; reflexivity].
  exact (proj2 (secret_stream_authentic _ _ _ _ _ _ _ _ _ _ said replayed [1; 5; 5; 5]%nat sample_connected ltac:(vm_compute; reflexivity)
    replayed_unforgeable)).
Defined.

Lemma secret_stream_roundtrip_witness :
  mjoin (reads receiver (mjoin (writes sender said).2) [1; 1; 7; 2]%nat) = [x68; x69; x21].
Proof.
  apply (secret_stream_roundtrip _ _ _ _ _ _ _ _ _ _ said [1; 1; 7; 2]%nat sample_connected); [repeat constructor; lia|cbn; lia].
Defined.
